(* ===== verification/_CoqProject ===== *)
-Q . S2P
Prelude.v
GoStr.v
GoTime.v
GoRegexp.v
GoPath.v
GoCrypto.v
Cron.v
JobQueue.v
Worker.v
Dag.v
Runner.v
Model.v
RunState.v
Interpolate.v
Pipeline.v
Retry.v
Outputs.v
Executor.v
RunStore.v
JobRunner.v
Validate.v
JobQueuePg.v
Scheduler.v
Approval.v
App.v
Ssh.v
Canary.v
AppDeploy.v
LogStore.v
Idempotency.v
Auth.v
ApiToken.v
WsTicket.v
Resources.v
RunStats.v
Deploys.v
Webhook.v
GoBase64.v
License.v
Governance.v
RateLimit.v
Authn.v
GoJson.v
Hub.v
GoFloat.v
Compose.v
GoDuration.v
Config.v
AuditTrail.v
Secrets.v
Notify.v
Router.v
Inspect.v
