(* ===== verification/Prelude.v ===== *)
(** * Cooker: a verification library for the Go backend

    Cooker (src/backend) stores pipelines of stages, executes them as graphs of
    tasks, queues and schedules runs, and gates deployments behind approvals.
    This library models the backend's own logic in Rocq, file by file, and proves
    what makes each part correct.  Files named below without a directory are
    under src/backend/internal/.

    ** The program's parts

    A pipeline is validated (service/pipeline.go) and turned into a graph for
    the DAG engine (pkg/dagrunner), which runs one task per stage, level by
    level.  The executor (service/executor.go) supplies the tasks: it evaluates
    the stage's edge conditions (build/buildplan/edges.go), resolves references
    to upstream outputs (build/buildplan/interpolate.go, service/outputs.go),
    calls the stage's adapter under a retry policy (retry, service/stages.go),
    moves the stage and run through their life cycles (runstate), and settles the
    run.  A run is triggered over HTTP (handler/pipeline.go), inline or through
    the job queue (jobqueue, service/enqueuer.go, service/jobqueue_runner.go), or
    by the scheduler (scheduler).  Runs live in a store (store/memory/run.go).
    Approvals and promotions (service/stageapproval.go, service/promoter.go)
    count votes; auth decides who may do what; idempotency remembers answers.
    An application is one repository with a build plan and a target: the deployer
    (service/app_deployer.go) turns it, or its compose file, into a pipeline and runs
    it, and service/canary.go rolls a new image out next to the old one.
    Pipelines and applications are saved by handlers that validate them
    (validate/validate.go) over stores with optimistic versions; stage output is
    streamed through logstore and the hub (realtime) behind WebSocket tickets
    (server/wsticket.go); scripts use access tokens (service/apitoken.go, auth/apitoken.go).

    ** The files, in dependency order

    - Prelude (this file): results, machine integers, time, Go map iteration,
      sort.Slice, reachability; the development's tactics and hint databases.
    - GoStr, GoTime, GoRegexp, GoPath, GoCrypto: the parts of Go's strings,
      strconv, unicode/utf8, time, regexp, path, crypto/sha256 and encoding packages
      the other files call.  They model the language's library, not the repository.
    - Cron: scheduler/cron.go.  [Parse] and [Next] over GoTime's calendar.
    - JobQueue: jobqueue/{jobqueue,memory,id}.go.  The in-memory store, and the
      classes [JobStore] and [JobStoreLaws], the interface the worker is written
      against.
    - Worker: jobqueue/{backoff,registry,worker}.go over [JobStore].
    - Dag: pkg/dagrunner/dag.go.  Levels, cycle detection.
    - Runner: pkg/dagrunner/runner.go.  [Run] as a step function on the states
      of the level loop and its goroutines.
    - Model: model/{pipeline,run}.go.
    - RunState: runstate.  The transition tables, over the class [LoopFSM] that
      stands for the looplab/fsm package.
    - Interpolate: build/buildplan/interpolate.go.
    - Pipeline: service/pipeline.go, build/buildplan/edges.go.
    - Retry: retry/retry.go, and [policyFromStage] of service/stages.go.
    - Outputs: service/outputs.go, and the log buffer of service/stages.go.
    - Executor: service/executor.go.  [xstep] interleaves the runner's actions
      with the beginnings and ends of the stages' tasks; [begin_execute] and
      [end_execute] are what comes before and after.
    - RunStore: store/memory/run.go, with the pointers and slices made explicit
      on a heap, because the store shares them with its callers.
    - JobRunner: the ways a stored run is executed, inline and from the queue,
      cancelled, and flushed while it executes.
    - Validate: validate/validate.go and [validatePipelineInput] of
      handler/pipeline.go.
    - Scheduler: scheduler/{schedule,store,scheduler}.go, over the class
      [ScheduleStore] with both stores, any call of which may fail.
    - Approval: stage gates and promotions, services and both stores, as
      requests whose store operations interleave; one class, [Row], two
      instances.
    - App: the application's records and checks (model/app.go,
      service/app_targets.go, deploy/deploytarget/target.go) and the view of its
      pipelines that clients get.
    - Ssh: deploy/deploytarget/ssh.  The commands sent to a host, read back by a model of
      its shell; the deploy sequence; the connection cache as interleaved steps.
    - Canary: service/canary.go over a rollout store that may fail.  Each request is a
      thread of atomic steps; [cstep] interleaves them with the sweep, and every
      split asked of the cluster is recorded with its answer.
    - AppDeploy: service/{app_deployer,envresolve,proxy_manifest,app_drift}.go.  The
      synthesis of pipelines, and the deploy operations as the list of calls they
      make for given outcomes.
    - LogStore: logstore/{logstore,memory}.go and the line writer of
      service/logbroadcast.go.
    - Idempotency: idempotency/idempotency.go.
    - Auth: auth/{rbac,permission}.go.
    - ApiToken: access tokens, from model/apitoken.go to the handlers, as a server
      that executes a sequence of operations.
    - WsTicket: server/wsticket.go, likewise.
    - Resources: store/memory/{app,pipeline}.go and the write handlers over them.
    - RunStats: service/{run_diff,pipeline_analytics}.go.
    - Deploys: how a deployment is started and settled (handler/{app,canary}.go,
      server/runs.go), as steps over the tables and the background goroutines.
    - Webhook: the four webhook receivers over the class [Provider], source/*,
      crypto/codec.go, and server/middleware_idempotency.go in front of them.
    - GoBase64: encoding/base64, standard and raw-URL, with the round trip.
    - License: license/*.go, entitlements/*.go and their boot install and handlers;
      signatures and JSON are classes with laws.
    - Governance: the deploy gate (governance, auth/governance_middleware.go): the client
      and its postures, the executor's hook under retries, the middleware.
    - JobQueuePg: jobqueue/postgres.go.  The statements on a shared table; claims are
      transactions whose steps interleave.  It implements [JobStore] too.
    - RateLimit: server/ratelimit*.go.  Requests and the sweeper between lock operations.
    - Authn: auth/oidc.go, auth/local/local.go, handler/auth_local.go, store/memory/user.go and the
      boot wiring of the verifier: login, sign-up, sessions, OIDC discovery as steps.
    - GoJson: JSON string literals and the millisecond time stamps of the hub's messages.
    - Hub: server/{websocket,wshub_backend,wshub_logs}.go.  Clients, frames and deliveries
      in flight between the hub's goroutines, as steps.
    - GoFloat: the part of ParseFloat and FormatFloat that compose files need.
    - Compose: service/compose_{graph,edit}.go and their handlers: the graph of services, the in-place edits
      of the YAML text, the path guard, concurrent updates.
    - GoDuration: time.ParseDuration and Duration.String, with the round trip.
    - Config: config/*.go and what the boot builds from it (server/{factories,audit_sink}.go):
      [Load] from an environment, [Validate], the middleware, the codec, the secrets
      manager, the audit sinks, CORS.
    - AuditTrail: audit/audit.go, the middleware and viewer over it, both stores.  A sink is a
      channel whose emitters, writer and [Close] interleave.
    - Secrets: environments, the database secrets manager and hosts, from the handlers to
      the tables.  A request is a program of statements; the programs interleave.
    - Notify: notify/notifier, service/notify.go, handler/notification_targets.go: the
      targets, their sealed configurations, the channels and the dispatcher.
    - Router: server/router.go and its set-up in server/server.go: the table of routes, and a
      request's way through the middlewares of the other files, on one server.
    - Inspect: service/app_inspection.go after the loading of compose files, and
      service/runtime.go: external services, what a preview hides, the panel's names.

    ** How the code is modelled

    Integers are [Z], wrapped with [wrap64] where the code can overflow.  Times
    and durations are nanoseconds.  A clock reading, a random draw, an iteration
    order ([RangeOrder]) and a fresh UUID are arguments, and the theorems quantify
    over them.  Errors are the constructors of a type per component, without their
    message texts unless the code stores the text.  A mutex makes an operation one
    step; where goroutines interleave, the model is a step relation and the
    theorems speak of every reachable state.  Structs are values, except in
    RunStore and JobRunner.  Third-party packages are classes: [LoopFSM] for
    looplab/fsm, with its documented behaviour as laws and a concrete instance; or
    function arguments: the YAML reader and printer, the Redis broker, the image-reference, duration and URL
    parsers, the git client.  [float64] is the executable specification of binary64.

    Loops are structural, or have fuel with a proof that it suffices: one round
    per minute of the search window for [Cron.Next]; the string's length for
    [Interpolate.pieces]; the number of graph nodes for [Dag.TopologicalSort] and
    [Pipeline.ancestorsOf]; the number of entries for [Idempotency.evict_loop]; the
    text's length for [LogStore.take_lines]; the number of services for the slugs of
    [AppDeploy.free_slug].
    The runner's termination is a bound on its actions under any schedule.

    ** What the theorems show

    - Execution: under every interleaving, stages run only after their upstreams
      are settled, run exactly when their edge conditions allow, the result is the
      run's own terminal status, and the runner neither deadlocks nor loops
      (Executor, Runner, Dag).
    - Validation: a pipeline without issues is exactly a well-formed one, it always
      builds a graph that sorts, and at run time its output references resolve or
      fail only on a missing key (Pipeline, Outputs, Interpolate).
    - Queue: every reachable state of the in-memory store keeps locks, attempts and
      concurrency keys consistent; dequeuing takes the earliest eligible job; a job that
      is alone and always fails is run exactly its budget of attempts (JobQueue, Worker).
    - The shared queue: under every interleaving of transactions a job has one worker and
      is claimed at most as often as its budget says; a claim that runs alone does what the in-memory store's does, and the worker's
      contract holds over either (JobQueuePg).
    - The deploy gate: a stage or a request passes exactly when the gate or one of the
      postures lets it (Governance).
    - Rates: a key passes its burst and its rate, the requests a sweep overtakes apart (RateLimit).
    - Schedules: [Next] is the first matching minute in zones without
      transitions; a tick fires each due schedule once (Cron, Scheduler).
    - Approvals: an approved gate has its quorum of distinct approvers, and a gate
      with its quorum does not stay open in memory; on PostgreSQL it can (Approval).
    - Rollouts: in every interleaving, a rollout's row agrees with what the cluster
      was told, a resolved rollout stays resolved, and requests end; while no split is
      refused an application has one active rollout (Canary).
    - Deployments: a compose file becomes exactly the graph of its services, is
      accepted exactly when they are acyclic, executes once, and what is stored does
      not depend on the environment's values (AppDeploy).  The command sent to an SSH
      host is read by its shell as the words the code meant (Ssh).
    - Saving: accepted names, references and paths are safe to hand on, an accepted
      pipeline runs with the values it was written with, and an accepted application
      update is not silently overwritten (Validate, App, Resources).
    - Logs and statistics: entries do not depend on how output is chunked, readers get
      a recent suffix, the diff replays, and the statistics are their definitions
      (LogStore, RunStats).
    - Webhooks: a delivery starts a deployment exactly when it is authentic and new; a
      webhook whose secret was rotated works; every running run has its goroutine, but
      for the leaks the theorem names (Webhook, Deploys).
    - Licences: a token the vendor's tool issues installs, and a paid feature is on
      exactly while a verified licence grants it (License).
    - Credentials: a token never does more than its creator could, but for one
      exception, and a ticket opens one connection; a request is the identity its own
      verifier vouches for, and accounts stay consistent (ApiToken, WsTicket, Authn).
    - Streams: what a connected client has received of a stream is a prefix of what was
      published since it joined, without holes, and complete once the frames in flight
      have been delivered; the viewers of a stage that finished have its whole tail (Hub).
    - Compose files: the graph has exactly the file's services and references, an edit
      changes its own lines only and reads back as what was written (Compose).
    - Configuration: a production configuration that is accepted serves no request as the
      development user, and boots (Config).
    - The audit trail: a sink that is closed drains in order, every accepted event reaches
      the trail, and the two stores answer a query alike (AuditTrail).
    - Secrets: the environments' secrets behave as one map under any interleaving, the key
      of a stored host loads, a pinned host key stays (Secrets).
    - Notifications: an event is sent to exactly the targets that want it, with the
      configuration they were last given (Notify).
    - The API: a handler runs only for a caller it is meant for, the routes' checks are the
      permission matrix and the documented roles, a change leaves exactly one audit event,
      and a request that is stopped changes nothing (Router).
    - Previews depend on no value they hide, and the runtime panel asks for the workload
      that the deployment made (Inspect).
    - Bounds: outputs, logs, retry delays and cached bytes keep their caps.
    - Life cycles, stores and permissions: transitions follow their tables, the
      boot sweep is exact, permissions are the table's (RunState, RunStore, Auth).
    - Where the code does not do what it says, a theorem or an Example records
      what it does: [Cron.Next_spring_forward_diverges],
      [Worker.NextDelay_overflow], [JobRunner.queue_overwrites_cancellation],
      [JobRunner.flush_detaches_inline_slots], [RunStore.Get_shares_only_slots],
      [Scheduler.scheduled_job_finds_no_run],
      [Executor.panicking_stage_stays_running],
      [Approval.rejection_overwritten], [Approval.quorum_left_awaiting], [Idempotency.overwrite_exceeds_cap],
      [Canary.two_canaries], [Canary.revert_with_expired_context], [Ssh.evict_leaks_connection], [AppDeploy.colliding_workloads],
      [AppDeploy.bound_port_url], [App.implicit_prefix_conflicts],
      [ApiToken.approver_mints_operator], [ApiToken.blank_name_500],
      [Resources.stale_save_accepted], [RunStats.p95_of_eleven],
      [Deploys.capacity_leaves_running_run], [Deploys.deadline_leaves_running_run], [Deploys.webhook_fails_on_postgres],
      [Deploys.webhook_skips_canary], [Webhook.simultaneous_duplicates],
      [Webhook.key_is_not_bound_to_its_request], [Webhook.bitbucket_first_change],
      [License.changed_token_verifies], [License.epoch_expiry_is_perpetual],
      [License.failed_boot_keeps_licence],
      [Governance.denied_stage_asks_again], [Governance.deleted_environment_deploys], [Governance.rejected_caller_breaks_glass],
      [JobQueuePg.two_jobs_of_one_key], [RateLimit.sweep_between_two_steps],
      [Authn.two_first_admins], [Authn.one_cancelled_request],
      [Hub.publish_after_close_panics], [Hub.channels_stay], [Hub.retry_restarts_numbers],
      [Compose.numbers_vanish], [Compose.second_document_lost],
      [Compose.literal_line_doubled], [Compose.overlapping_updates],
      [Config.full_edition_does_not_boot], [Config.accepted_but],
      [Config.misspelt_production], [AuditTrail.emit_races_close],
      [AuditTrail.file_sink_emit_after_close], [AuditTrail.panic_leaves_no_event],
      [AuditTrail.order_of_overlapping_requests], [Secrets.lax_host_stops_production],
      [Secrets.pin_cannot_be_cleared], [Secrets.failed_update_changes_the_key],
      [Secrets.two_first_hosts], [Secrets.guessed_version_clears_pin], [Secrets.memory_insert_loses_keys],
      [Secrets.synthetic_environment_is_ordinary], [Secrets.ssh_host_without_key],
      [Secrets.client_key_names_are_echoed], [Notify.cancelled_run_is_reported_failed],
      [Notify.update_widens], [Notify.aborted_rollouts_are_silent],
      [Notify.one_bad_row_silences_all], [Notify.envelope_without_key],
      [Notify.crafted_pipeline_name], [Router.cluster_reads_need_operators],
      [Router.limited_routes], [Router.replay_passes_the_gate],
      [Router.retry_is_throttled], [Router.unknown_paths_are_pages],
      [Inspect.prefixless_panel], [Inspect.unmasked_values], [Inspect.masks_overlap].

    ** What is not modelled

    The adapters that build, push and deploy (docker, kubectl, helm, terraform and the like),
    the external secret backends and source connectors, traces and metrics call
    third-party services: what they do is not in this repository.  The API
    document and the command-line client are wiring.  Of the PostgreSQL stores, the job
    queue, the schedules, the gates and promotions, the audit trail, the environments, the
    hosts and the notification targets are modelled; the others are the same statements on other columns.  The
    loading of a repository's compose file, its compatibility report and the discovery of
    files before it are left out.  Of the
    modelled parts, stage time-outs, metrics, traces, broadcasts and log lines are left
    out, and so are leader election and JSON encoding ([PayloadCodec]). *)

From stdpp Require Export base tactics list sorting gmap sets strings fin_maps.
From Stdlib Require Export Lia ZArith.

(** ** Notations *)

Declare Scope cooker_scope.
Delimit Scope cooker_scope with cooker.
Open Scope cooker_scope.

(** Go's string equality as a boolean test. *)
Infix "=s" := String.eqb (at level 70, no associativity) : cooker_scope.

(** Field assignments in sequence: [x |> set_a 1 |> set_b 2]. *)
Notation "x |> f" := (f x) (at level 61, left associativity, only parsing) : cooker_scope.

(** Go's [(value, error)] results: exactly one of the two carries information
    at every return statement modelled here. *)
Inductive result (E A : Type) : Type :=
| Ok (a : A)
| Err (e : E).
Arguments Ok {E A} a.
Arguments Err {E A} e.

#[export] Instance result_ret {E} : MRet (result E) := fun A a => Ok a.
#[export] Instance result_bind {E} : MBind (result E) := fun A B k c =>
  match c with
  | Ok a => k a
  | Err e => Err e
  end.

Lemma bind_Ok {E A B} (c : result E A) (k : A -> result E B) b :
  c ≫= k = Ok b <-> exists a, c = Ok a /\ k a = Ok b.
Proof. destruct c as [a|e]; split; cbn; [eauto|intros (?&[= ->]&?); done|done|intros (?&?&?); done]. Qed.

Lemma bind_Err {E A B} (c : result E A) (k : A -> result E B) e :
  c ≫= k = Err e <-> c = Err e \/ exists a, c = Ok a /\ k a = Err e.
Proof.
  destruct c as [a|e']; split; cbn.
  - eauto.
  - intros [?|(?&[= ->]&?)]; done.
  - intros [= ->]. by left.
  - intros [[= ->]|(?&?&?)]; done.
Qed.

#[export] Instance result_eq_dec {E A} `{EqDecision E, EqDecision A} : EqDecision (result E A).
Proof. solve_decision. Defined.

(** [lia] reasons about division and modulo in every file that loads this one. *)
Ltac Zify.zify_post_hook ::= Z.to_euclidean_division_equations.

(** ** Development-wide tactics and hint databases *)

Create HintDb cooker discriminated.
Create Rewrite HintDb cooker_rw.

(** Split the innermost scrutinee of a hypothesis or of the goal. *)
Ltac split_match :=
  match goal with
  | H : context [match ?x with _ => _ end] |- _ =>
      lazymatch x with context [match _ with _ => _ end] => fail | _ => destruct x eqn:? end
  | |- context [match ?x with _ => _ end] =>
      lazymatch x with context [match _ with _ => _ end] => fail | _ => destruct x eqn:? end
  end.

(** Invert the successful binds of the hypotheses. *)
Ltac inv_bind :=
  repeat match goal with
  | H : _ ≫= _ = Ok _ |- _ =>
      let a := fresh "a" in let Ha := fresh "Ha" in apply bind_Ok in H as (a & Ha & H)
  | a : _ * _ |- _ => destruct a
  end.

(** Case analysis on every branch of the handlers in the context. *)
Ltac crush_branches := repeat (simplify_eq/=; try split_match); simplify_eq/=.

(** Turn the boolean guards of the code into propositions. *)
Ltac reflect_bools :=
  repeat match goal with
  | H : andb _ _ = true |- _ => apply andb_true_iff in H; destruct H
  | H : orb _ _ = false |- _ => apply orb_false_iff in H; destruct H
  | H : negb _ = true |- _ => apply negb_true_iff in H
  | H : negb _ = false |- _ => apply negb_false_iff in H
  | H : (_ =? _)%Z = true |- _ => apply Z.eqb_eq in H
  | H : (_ =? _)%Z = false |- _ => apply Z.eqb_neq in H
  | H : (_ <? _)%Z = true |- _ => apply Z.ltb_lt in H
  | H : (_ <? _)%Z = false |- _ => apply Z.ltb_ge in H
  | H : (_ <=? _)%Z = true |- _ => apply Z.leb_le in H
  | H : (_ <=? _)%Z = false |- _ => apply Z.leb_gt in H
  | H : (_ >? _)%Z = true |- _ => apply Z.gtb_lt in H
  | H : (_ >? _)%Z = false |- _ => rewrite Z.gtb_ltb in H; apply Z.ltb_ge in H
  | H : (_ >=? _)%Z = true |- _ => apply Z.geb_le in H
  | H : (_ >=? _)%Z = false |- _ => rewrite Z.geb_leb in H; apply Z.leb_gt in H
  | H : String.eqb _ _ = true |- _ => apply String.eqb_eq in H
  | H : String.eqb _ _ = false |- _ => apply String.eqb_neq in H
  | H : bool_decide _ = true |- _ => apply bool_decide_eq_true_1 in H
  | H : bool_decide _ = false |- _ => apply bool_decide_eq_false_1 in H
  end.

(** ** Machine integers

    Go's [int], [int64] and [time.Duration] are 64-bit two's complement on the
    supported platforms; [wrap64] is the value an operation stores. *)

Definition int64_min : Z := (-(2 ^ 63))%Z.
Definition int64_max : Z := (2 ^ 63 - 1)%Z.

Definition wrap64 (z : Z) : Z := ((z + 2 ^ 63) mod 2 ^ 64 - 2 ^ 63)%Z.

Lemma wrap64_small z : (int64_min <= z <= int64_max)%Z -> wrap64 z = z.
Proof. unfold wrap64, int64_min, int64_max. intros. rewrite Z.mod_small; lia. Qed.

Lemma wrap64_range z : (int64_min <= wrap64 z <= int64_max)%Z.
Proof.
  unfold wrap64, int64_min, int64_max.
  pose proof (Z.mod_pos_bound (z + 2 ^ 63) (2 ^ 64) ltac:(lia)). lia.
Qed.

#[export] Hint Rewrite wrap64_small using (unfold int64_min, int64_max in *; lia) : cooker_rw.

(** ** Time

    [time.Time] is modelled as nanoseconds since the Unix epoch, [*time.Time]
    as an option, [time.Duration] as nanoseconds.  [zero_time] is Go's zero
    [time.Time], January 1 of year 1 UTC. *)

Definition nanosecond : Z := 1.
Definition millisecond : Z := 1000000.
Definition second : Z := 1000000000.
Definition minute : Z := (60 * second)%Z.
Definition hour : Z := (60 * minute)%Z.

Definition zero_time : Z := (-62135596800 * second)%Z.
Definition is_zero_time (t : Z) : bool := (t =? zero_time)%Z.

(** ** Iteration order of Go maps

    [for k, v := range m] visits the entries in an unspecified order.  The
    model takes that order as an argument: any enumeration that is a
    permutation of the entries.  Theorems quantify over it. *)

Class RangeOrder := {
  range_map : forall {K : Type} {EK : EqDecision K} {CK : Countable K} {A : Type},
    gmap K A -> list (K * A);
  range_map_perm : forall (K : Type) (EK : EqDecision K) (CK : Countable K) (A : Type) (m : gmap K A),
    range_map m ≡ₚ map_to_list m
}.

(** One admissible order, used to run the model on concrete inputs. *)
Definition range_default : RangeOrder :=
  {| range_map := fun K EK CK A m => map_to_list m;
     range_map_perm := fun K EK CK A m => reflexivity _ |}.

Section range_facts.
Context `{RO : RangeOrder} `{Countable K} {A : Type}.
Implicit Types m : gmap K A.

Lemma elem_of_range m k v : (k, v) ∈ range_map m <-> m !! k = Some v.
Proof. rewrite (range_map_perm K _ _ A m). apply elem_of_map_to_list. Qed.

Lemma NoDup_range_fst m : NoDup (range_map m).*1.
Proof. rewrite (range_map_perm K _ _ A m). apply NoDup_fst_map_to_list. Qed.

Lemma length_range m : length (range_map m) = size m.
Proof. rewrite (range_map_perm K _ _ A m). apply length_map_to_list. Qed.

Lemma elem_of_range_fst m k : k ∈ (range_map m).*1 <-> is_Some (m !! k).
Proof.
  rewrite list_elem_of_fmap. split.
  - intros [[k' v] [-> Hin]]. apply elem_of_range in Hin. by eexists.
  - intros [v Hv]. exists (k, v). split; [done|]. by apply elem_of_range.
Qed.

Lemma elem_of_range_snd m v : v ∈ (range_map m).*2 <-> exists k, m !! k = Some v.
Proof.
  rewrite list_elem_of_fmap. split.
  - intros [[k v'] [-> Hin]]. exists k. by apply elem_of_range.
  - intros [k Hk]. exists (k, v). split; [done|]. by apply elem_of_range.
Qed.
End range_facts.

#[export] Hint Resolve NoDup_range_fst : cooker.

(** Sets built by a conditional insertion in a loop. *)
Lemma elem_of_fold_union {B} (P : B -> bool) (f : B -> string) (l : list B) (k : string) :
  k ∈ foldr (fun b (ks : gset string) => if P b then {[f b]} ∪ ks else ks) ∅ l
  <-> exists b, b ∈ l /\ P b = true /\ f b = k.
Proof.
  induction l as [|b l IH]; cbn.
  - split; [set_solver|]. intros (? & []%not_elem_of_nil & _).
  - setoid_rewrite elem_of_cons. destruct (P b) eqn:E.
    + rewrite elem_of_union, elem_of_singleton, IH. split.
      * intros [->|(b' & ? & ? & ?)]; eauto 10.
      * intros (b' & [->|?] & ? & ?); eauto 10.
    + rewrite IH. split; [intros (b' & ? & ? & ?); eauto 10|].
      intros (b' & [->|?] & ? & ?); [congruence|eauto 10].
Qed.

(** Filtering out what is not there. *)
Lemma filter_all_ne k (l : list string) : k ∉ l -> filter (fun k' => k' <> k) l = l.
Proof.
  induction l as [|x l IH]; intros Hk; [done|]. apply not_elem_of_cons in Hk as [Hx Hk].
  rewrite filter_cons_True by done. by rewrite IH.
Qed.

(** ** [sort.Slice]

    [sort.Slice] is not stable; together with an arbitrary range order the
    stable sort below produces every result the code can observe on ties. *)

Definition not_greater {A} (less : A -> A -> bool) : relation A := fun x y => less y x = false.

#[export] Instance not_greater_dec {A} (less : A -> A -> bool) x y : Decision (not_greater less x y).
Proof. unfold not_greater. apply _. Defined.

Definition sort_slice {A} (less : A -> A -> bool) (l : list A) : list A :=
  merge_sort (not_greater less) l.

Lemma sort_slice_perm {A} (less : A -> A -> bool) l : sort_slice less l ≡ₚ l.
Proof. apply merge_sort_Permutation. Qed.

Lemma elem_of_sort_slice {A} (less : A -> A -> bool) l x : x ∈ sort_slice less l <-> x ∈ l.
Proof. by rewrite sort_slice_perm. Qed.

Lemma length_sort_slice {A} (less : A -> A -> bool) l : length (sort_slice less l) = length l.
Proof. by rewrite sort_slice_perm. Qed.

(** Sorting by an integer key, ascending. *)
Lemma sort_slice_sorted {A} (key : A -> Z) l :
  StronglySorted (fun x y => (key x <= key y)%Z) (sort_slice (fun x y => (key x <? key y)%Z) l).
Proof.
  set (R := not_greater (fun x y => (key x <? key y)%Z)).
  assert (Total R).
  { intros x y. unfold R, not_greater. rewrite !Z.ltb_ge. lia. }
  assert (Transitive R).
  { intros x y z. unfold R, not_greater. rewrite !Z.ltb_ge. lia. }
  assert (StronglySorted R (sort_slice (fun x y => (key x <? key y)%Z) l)) as Hs
    by (apply StronglySorted_merge_sort; apply _).
  induction Hs as [|x l' Hs IH Hall]; constructor; [done|].
  eapply Forall_impl; [exact Hall|]. unfold R, not_greater. intros y. cbn. rewrite Z.ltb_ge. lia.
Qed.

(** The head of a sorted slice is a minimum of the original one. *)
Lemma sort_slice_head_min {A} (key : A -> Z) l x l' :
  sort_slice (fun x y => (key x <? key y)%Z) l = x :: l' ->
  x ∈ l /\ forall y, y ∈ l -> (key x <= key y)%Z.
Proof.
  intros Heq. pose proof (sort_slice_sorted key l) as Hs. rewrite Heq in Hs.
  assert (forall y, y ∈ l <-> y ∈ x :: l') as Hin
    by (intros y; by rewrite <- Heq, elem_of_sort_slice).
  split; [apply Hin; left|]. intros y Hy%Hin. inversion_clear Hs as [|? ? Hs' Hall].
  apply elem_of_cons in Hy as [->|Hy]; [lia|].
  rewrite Forall_forall in Hall. by apply Hall.
Qed.

Lemma sort_slice_nil_inv {A} (less : A -> A -> bool) l : sort_slice less l = [] -> l = [].
Proof.
  intros H. apply length_zero_iff_nil. rewrite <- (length_sort_slice less l), H. done.
Qed.

(** ** Reachability

    States reachable from an initial one through a step relation, and the
    induction principle every component's invariant goes through. *)

Section reachability.
Context {S : Type} (init : S -> Prop) (step : S -> S -> Prop).

Inductive reachable : S -> Prop :=
| reach_init s : init s -> reachable s
| reach_step s s' : reachable s -> step s s' -> reachable s'.

Lemma reachable_invariant (Inv : S -> Prop) :
  (forall s, init s -> Inv s) ->
  (forall s s', Inv s -> step s s' -> Inv s') ->
  forall s, reachable s -> Inv s.
Proof. intros Hi Hs s. induction 1; eauto. Qed.
End reachability.
