(* ===== verification/GoStr.v ===== *)
(** * Go's [strings] and [strconv] functions used by the backend

    Strings are byte sequences, as in Go.  White space is ASCII white space;
    Go also recognises the Unicode spaces, which none of the modelled inputs
    contains.  This file models the standard library. *)

From S2P Require Import Prelude.
From Stdlib Require Import Ascii.
Local Open Scope Z_scope.

(** [len(s)]. *)
Definition str_len (s : string) : Z := Z.of_nat (String.length s).

Definition chr (c : ascii) : string := String c EmptyString.

(** Concatenation. *)
Lemma append_assoc a b c : (a +:+ b) +:+ c = a +:+ (b +:+ c).
Proof. induction a as [|x a IH]; [done|]. change (String x ((a +:+ b) +:+ c) = String x (a +:+ (b +:+ c))). by rewrite IH. Qed.
Lemma append_nil_r a : a +:+ "" = a.
Proof. induction a as [|x a IH]; [done|]. change (String x (a +:+ "") = String x a). by rewrite IH. Qed.

Lemma length_append a b : String.length (a +:+ b) = (String.length a + String.length b)%nat.
Proof. induction a as [|x a IH]; [done|]. change (S (String.length (a +:+ b)) = S (String.length a + String.length b)). by rewrite IH. Qed.

Definition is_space (c : ascii) : bool :=
  let n := nat_of_ascii c in ((9 <=? n) && (n <=? 13) || (n =? 32))%nat.

(** [strings.TrimLeft] and [strings.TrimSpace]. *)
Fixpoint trim_left (s : string) : string :=
  match s with
  | String c s' => if is_space c then trim_left s' else s
  | EmptyString => EmptyString
  end.

Definition str_rev (s : string) : string :=
  String.string_of_list_ascii (rev (String.list_ascii_of_string s)).

Definition trim_space (s : string) : string := str_rev (trim_left (str_rev (trim_left s))).

(** [strings.Fields]: the maximal runs of non-space characters. *)
Fixpoint fields_from (s cur : string) : list string :=
  match s with
  | EmptyString => if cur =s "" then [] else [cur]
  | String c s' =>
      if is_space c then (if cur =s "" then [] else [cur]) ++ fields_from s' ""
      else fields_from s' (cur +:+ chr c)
  end.

Definition fields (s : string) : list string := fields_from s "".

(** [strings.Split(s, sep)] for a one-byte separator. *)
Fixpoint split_on (sep : ascii) (s : string) : list string :=
  match s with
  | EmptyString => [EmptyString]
  | String c s' =>
      if Ascii.eqb c sep then EmptyString :: split_on sep s'
      else match split_on sep s' with
           | w :: ws => String c w :: ws
           | [] => [chr c]
           end
  end.

(** The parts of [s] before and after the first [sep]: [strings.IndexByte],
    [strings.Contains] and [strings.SplitN(s, sep, 2)] in one. *)
Fixpoint cut (sep : ascii) (s : string) : option (string * string) :=
  match s with
  | EmptyString => None
  | String c s' =>
      if Ascii.eqb c sep then Some (EmptyString, s')
      else match cut sep s' with
           | Some (a, b) => Some (String c a, b)
           | None => None
           end
  end.

(** [strings.HasPrefix] and [strings.Join]. *)
Definition has_prefix (p s : string) : bool := String.prefix p s.

Definition join (sep : string) (l : list string) : string := String.concat sep l.

(** [strconv.Atoi]: an optional sign and decimal digits, within [int64]. *)
Definition digit (c : ascii) : option Z :=
  let n := Z.of_nat (nat_of_ascii c) in
  if (48 <=? n) && (n <=? 57) then Some (n - 48) else None.

Fixpoint digits_from (s : string) (acc : Z) : option Z :=
  match s with
  | EmptyString => Some acc
  | String c s' => match digit c with Some d => digits_from s' (10 * acc + d) | None => None end
  end.

Definition digits (s : string) : option Z := if s =s "" then None else digits_from s 0.

Definition atoi (s : string) : option Z :=
  match (match s with
         | String c s' =>
             if Ascii.eqb c "-" then option_map Z.opp (digits s')
             else if Ascii.eqb c "+" then digits s' else digits s
         | EmptyString => None
         end) with
  | Some z => if (int64_min <=? z) && (z <=? int64_max) then Some z else None
  | None => None
  end.

Lemma atoi_range s z : atoi s = Some z -> int64_min <= z <= int64_max.
Proof.
  unfold atoi. intros H. repeat case_match; simplify_eq; reflect_bools; lia.
Qed.

(** [fmt.Sprintf("%d", n)] for a natural number. *)
Fixpoint itoa_fuel (fuel : nat) (n : Z) : string :=
  match fuel with
  | O => EmptyString
  | S fuel =>
      (if n / 10 =? 0 then EmptyString else itoa_fuel fuel (n / 10))
        +:+ chr (ascii_of_nat (Z.to_nat (48 + n mod 10)))
  end.

(** Twenty digits are enough for every [int64]. *)
Definition itoa (n : Z) : string := itoa_fuel 20 n.

(** *** Decimal digits read back *)

Lemma string_app_inj (a b c : string) : a +:+ b = a +:+ c -> b = c.
Proof.
  induction a as [|x a IH]; [done|]. change (String x a +:+ b = String x a +:+ c) with (String x (a +:+ b) = String x (a +:+ c)).
  intros [= H]. by apply IH.
Qed.

Lemma digits_from_app a b acc :
  digits_from (a +:+ b) acc = match digits_from a acc with Some n => digits_from b n | None => None end.
Proof.
  revert acc. induction a as [|c a IH]; intros acc; [done|].
  change (String c a +:+ b) with (String c (a +:+ b)). cbn [digits_from]. destruct (digit c); [apply IH|done].
Qed.

Lemma digit_of d : 0 <= d < 10 -> digit (ascii_of_nat (Z.to_nat (48 + d))) = Some d.
Proof.
  intros Hd. unfold digit. rewrite nat_ascii_embedding by lia.
  rewrite (proj2 (andb_true_iff _ _)) by (split; apply Z.leb_le; lia). f_equal. lia.
Qed.

Lemma digits_from_itoa fuel n : 0 <= n < 10 ^ Z.of_nat fuel -> digits_from (itoa_fuel fuel n) 0 = Some n.
Proof.
  revert n. induction fuel as [|fuel IH]; intros n Hn; [cbn in *; f_equal; lia|].
  cbn [itoa_fuel]. rewrite digits_from_app. pose proof (Z.mod_pos_bound n 10 ltac:(lia)) as Hm.
  pose proof (Z.div_mod n 10 ltac:(lia)) as Hdm.
  assert (digits_from (if n / 10 =? 0 then EmptyString else itoa_fuel fuel (n / 10)) 0 = Some (n / 10)) as ->.
  { destruct (Z.eqb_spec (n / 10) 0) as [->|]; [done|]. apply IH.
    rewrite Nat2Z.inj_succ, Z.pow_succ_r in Hn by lia.
    split; [apply Z.div_pos; lia|apply Z.div_lt_upper_bound; lia]. }
  unfold chr. cbn [digits_from]. rewrite digit_of by done. f_equal. lia.
Qed.

Lemma itoa_inj n m : 0 <= n < 10 ^ 20 -> 0 <= m < 10 ^ 20 -> itoa n = itoa m -> n = m.
Proof.
  intros Hn Hm H. pose proof (digits_from_itoa 20 n Hn) as H1. unfold itoa in H. rewrite H, (digits_from_itoa 20 m Hm) in H1.
  congruence.
Qed.

(** [for _, r := range s]: the UTF-8 decoding of [s], with U+FFFD for each byte
    that starts no valid sequence. *)
Definition byte_of (c : ascii) : Z := Z.of_nat (nat_of_ascii c).

Definition rune_error : Z := 65533.

(** The number of continuation bytes a lead byte announces, its payload, and
    the bounds of the first continuation byte. *)
Definition utf8_lead (b : Z) : option (nat * Z * Z * Z) :=
  if (194 <=? b) && (b <=? 223) then Some (1%nat, b - 192, 128, 191)
  else if b =? 224 then Some (2%nat, 0, 160, 191)
  else if (225 <=? b) && (b <=? 236) || (238 <=? b) && (b <=? 239) then Some (2%nat, b - 224, 128, 191)
  else if b =? 237 then Some (2%nat, 13, 128, 159)
  else if b =? 240 then Some (3%nat, 0, 144, 191)
  else if (241 <=? b) && (b <=? 243) then Some (3%nat, b - 240, 128, 191)
  else if b =? 244 then Some (3%nat, 4, 128, 143)
  else None.

Fixpoint utf8_tail (n : nat) (lo hi acc : Z) (s : string) : option (Z * string) :=
  match n with
  | O => Some (acc, s)
  | S n =>
      match s with
      | String c s' =>
          let b := byte_of c in
          if (lo <=? b) && (b <=? hi) then utf8_tail n 128 191 (acc * 64 + (b - 128)) s' else None
      | EmptyString => None
      end
  end.

Fixpoint runes_fuel (fuel : nat) (s : string) : list Z :=
  match fuel, s with
  | S fuel, String c s' =>
      let b := byte_of c in
      if b <? 128 then b :: runes_fuel fuel s'
      else match utf8_lead b with
           | None => rune_error :: runes_fuel fuel s'
           | Some (n, payload, lo, hi) =>
               match utf8_tail n lo hi payload s' with
               | None => rune_error :: runes_fuel fuel s'
               | Some (r, rest) => r :: runes_fuel fuel rest
               end
           end
  | _, _ => []
  end.

(** Every rune takes at least one byte. *)
Definition runes (s : string) : list Z := runes_fuel (String.length s) s.

(** [s[:n]] for [n <= len(s)]. *)
Definition str_take (n : Z) (s : string) : string := String.substring 0 (Z.to_nat n) s.

(** [s[n:]]. *)
Definition str_drop (n : Z) (s : string) : string := String.substring (Z.to_nat n) (String.length s - Z.to_nat n) s.

Lemma str_drop_app p s : str_drop (str_len p) (p +:+ s) = s.
Proof.
  unfold str_drop, str_len. rewrite Nat2Z.id, length_append. replace (String.length p + String.length s - String.length p)%nat with (String.length s) by lia.
  induction p as [|c p IH]; [|exact IH]. change (String.substring 0 (String.length s) s = s).
  induction s as [|c s IH]; [done|]. cbn. by rewrite IH.
Qed.

Lemma str_take_app p s : str_take (str_len p) (p +:+ s) = p.
Proof.
  unfold str_take, str_len. rewrite Nat2Z.id. induction p as [|c p IH]; [by destruct s|].
  change (String c (String.substring 0 (String.length p) (p +:+ s)) = String c p). by rewrite IH.
Qed.

(** The string of these bytes, for the examples. *)
Definition of_bytes (l : list Z) : string :=
  String.string_of_list_ascii ((fun b => ascii_of_nat (Z.to_nat b)) <$> l).

Example runes_ex : runes (of_bytes [97; 226; 130; 172; 194; 133; 255]) = [97; 8364; 133; 65533].
Proof. reflexivity. Qed.
Example fields_ex : fields "  0 9  * * 1-5 " = ["0"; "9"; "*"; "*"; "1-5"].
Proof. reflexivity. Qed.
Example split_ex : split_on "," "1,,3" = ["1"; ""; "3"].
Proof. reflexivity. Qed.
Example atoi_ex : (atoi "-12", atoi "+7", atoi "", atoi "1x") = (Some (-12), Some 7, None, None).
Proof. reflexivity. Qed.
Example itoa_ex : itoa 1590 = "1590".
Proof. reflexivity. Qed.

(** [strings.TrimPrefix]. *)
Definition trim_prefix (p s : string) : string := if has_prefix p s then str_drop (str_len p) s else s.

Lemma has_prefix_app a b : has_prefix a (a +:+ b) = true.
Proof.
  induction a as [|c a IH]; [by destruct b|]. change (String c a +:+ b) with (String c (a +:+ b)).
  cbn. destruct (ascii_dec c c); [exact IH|done].
Qed.

Lemma trim_prefix_app p s : trim_prefix p (p +:+ s) = s.
Proof. unfold trim_prefix. by rewrite has_prefix_app, str_drop_app. Qed.

Lemma has_prefix_split p s : has_prefix p s = true -> s = p +:+ str_drop (str_len p) s.
Proof.
  intros Hp. enough (exists r, s = p +:+ r) as [r ->] by (by rewrite str_drop_app).
  revert s Hp. unfold has_prefix. induction p as [|c p IH]; intros s Hp; [by exists s|].
  destruct s as [|c' s]; [done|]. cbn in Hp. destruct (ascii_dec c c') as [<-|]; [|done].
  destruct (IH s Hp) as [r ->]. by exists r.
Qed.

(** ** Letter case *)

(** [strings.ToLower] on ASCII. *)
Fixpoint to_lower (s : string) : string :=
  match s with
  | EmptyString => ""
  | String c s =>
      let n := byte_of c in
      String (if (65 <=? n) && (n <=? 90) then ascii_of_nat (Z.to_nat (n + 32)) else c) (to_lower s)
  end.

(** [strings.EqualFold] against an ASCII text whose letters have no other folding. *)
Definition equal_fold (s t : string) : bool := to_lower s =s to_lower t.

(** ** Texts without spaces *)

Definition str_chars (s : string) : list ascii := String.list_ascii_of_string s.
Definition solid (c : ascii) : Prop := is_space c = false.

Lemma chars_append a b : str_chars (a +:+ b) = str_chars a ++ str_chars b.
Proof. induction a as [|c a IH]; [done|]. change (c :: str_chars (a +:+ b) = c :: str_chars a ++ str_chars b). by rewrite IH. Qed.

Lemma trim_left_solid s : Forall solid (str_chars s) -> trim_left s = s.
Proof. destruct s as [|c s]; [done|]. intros [Hc _]%Forall_cons. cbn. by rewrite Hc. Qed.

Lemma str_rev_chars s : str_chars (str_rev s) = rev (str_chars s).
Proof. unfold str_rev, str_chars. by rewrite String.list_ascii_of_string_of_list_ascii. Qed.

Lemma str_rev_rev s : str_rev (str_rev s) = s.
Proof. unfold str_rev. by rewrite String.list_ascii_of_string_of_list_ascii, rev_involutive, String.string_of_list_ascii_of_string. Qed.

Lemma solid_rev s : Forall solid (str_chars s) -> Forall solid (str_chars (str_rev s)).
Proof. intros Hs. rewrite str_rev_chars. by apply Forall_rev. Qed.

(** A text without spaces is trimmed to itself, with a line end or without. *)
Lemma trim_space_solid s : Forall solid (str_chars s) -> trim_space s = s.
Proof. intros Hs. unfold trim_space. rewrite (trim_left_solid s), trim_left_solid by auto using solid_rev. apply str_rev_rev. Qed.
