(* ===== verification/GoTime.v ===== *)
(** * Go's [time] package, as far as the backend uses it

    Calendar dates of the proleptic Gregorian calendar, locations with their
    zone transitions, and [time.Date]'s resolution of a wall clock reading to
    an instant.  Instants are nanoseconds since the Unix epoch, the calendar
    works on whole seconds.  This file models the standard library, not code
    of the repository. *)

From S2P Require Import Prelude.
Local Open Scope Z_scope.

(** ** Months and days

    Months are counted from March of year 0, so that the leap day ends a
    year: [month_start k] is the number of days from 0000-03-01 to the first
    day of month [k]. *)

Definition year_days (y : Z) : Z := 365 * y + y / 4 - y / 100 + y / 400.

Definition month_start (k : Z) : Z := year_days (k / 12) + (153 * (k mod 12) + 2) / 5.

(** The month containing day [z], and the days from the start of its year. *)
Definition month_of_day (z : Z) : Z :=
  let e := z / 146097 in
  let doe := z mod 146097 in
  let c := Z.min (doe / 36524) 3 in
  let doc := doe - 36524 * c in
  let q := doc / 1461 in
  let doq := doc mod 1461 in
  let y := Z.min (doq / 365) 3 in
  let doy := doq - 365 * y in
  12 * (400 * e + 100 * c + 4 * q + y) + (5 * doy + 2) / 153.

Lemma year_days_cycles e c q y :
  0 <= c <= 3 -> 0 <= q <= 24 -> 0 <= y <= 3 ->
  year_days (400 * e + 100 * c + 4 * q + y) = 146097 * e + 36524 * c + 1461 * q + 365 * y.
Proof.
  intros Hc Hq Hy. unfold year_days.
  replace ((400 * e + 100 * c + 4 * q + y) / 4) with (100 * e + 25 * c + q) by lia.
  replace ((400 * e + 100 * c + 4 * q + y) / 100) with (4 * e + c) by lia.
  replace ((400 * e + 100 * c + 4 * q + y) / 400) with e by lia.
  lia.
Qed.

Lemma year_days_succ y :
  year_days (y + 1) = year_days y + 365
    + (if (y + 1) mod 4 =? 0 then 1 else 0)
    - (if (y + 1) mod 100 =? 0 then 1 else 0)
    + (if (y + 1) mod 400 =? 0 then 1 else 0).
Proof.
  unfold year_days.
  destruct (Z.eqb_spec ((y + 1) mod 4) 0), (Z.eqb_spec ((y + 1) mod 100) 0),
    (Z.eqb_spec ((y + 1) mod 400) 0); lia.
Qed.

Lemma month_start_mono k : month_start k < month_start (k + 1).
Proof.
  unfold month_start. destruct (decide (k mod 12 = 11)) as [H11|H11].
  - replace ((k + 1) / 12) with (k / 12 + 1) by lia.
    replace ((k + 1) mod 12) with 0 by lia. rewrite H11, year_days_succ.
    repeat case_match; lia.
  - replace ((k + 1) / 12) with (k / 12) by lia.
    replace ((k + 1) mod 12) with (k mod 12 + 1) by lia. lia.
Qed.

Lemma month_start_le k k' : k <= k' -> month_start k <= month_start k'.
Proof.
  intros H. pattern k'. apply (Zlt_lower_bound_ind _ k); [|done].
  intros n IH Hn. destruct (decide (n = k)) as [->|]; [done|].
  specialize (IH (n - 1) ltac:(lia)). pose proof (month_start_mono (n - 1)).
  replace (n - 1 + 1) with n in * by lia. lia.
Qed.

(** Day 365 (counting from 0) only occurs at the end of a leap year. *)
Lemma leap_covers r e doy :
  0 <= r < 400 -> 0 <= doy <= 365 ->
  (doy = 365 -> r mod 4 = 3 /\ (r mod 100 = 99 -> r = 399)) ->
  year_days (400 * e + r) + doy < year_days (400 * e + r + 1).
Proof.
  intros Hr Hd Hl. rewrite year_days_succ.
  replace ((400 * e + r + 1) mod 4) with ((r + 1) mod 4) by lia.
  replace ((400 * e + r + 1) mod 100) with ((r + 1) mod 100) by lia.
  replace ((400 * e + r + 1) mod 400) with ((r + 1) mod 400) by lia.
  destruct (decide (doy = 365)) as [->|].
  - destruct (Hl eq_refl) as [H4 H100].
    destruct (Z.eqb_spec ((r + 1) mod 4) 0), (Z.eqb_spec ((r + 1) mod 100) 0),
      (Z.eqb_spec ((r + 1) mod 400) 0); lia.
  - destruct (Z.eqb_spec ((r + 1) mod 4) 0), (Z.eqb_spec ((r + 1) mod 100) 0),
      (Z.eqb_spec ((r + 1) mod 400) 0); lia.
Qed.

(** [month_of_day] finds the month whose days include [z]. *)
Lemma month_of_day_spec z :
  month_start (month_of_day z) <= z < month_start (month_of_day z + 1).
Proof.
  unfold month_of_day.
  set (e := z / 146097). set (doe := z mod 146097).
  set (c := Z.min (doe / 36524) 3). set (doc := doe - 36524 * c).
  set (q := doc / 1461). set (doq := doc mod 1461).
  set (y := Z.min (doq / 365) 3). set (doy := doq - 365 * y).
  assert (0 <= doe < 146097) by (unfold doe; lia).
  assert (z = 146097 * e + doe) as Hz by (unfold e, doe; lia).
  assert (0 <= c <= 3 /\ 0 <= doc <= 36524 /\ (doc = 36524 -> c = 3)) as (Hc & Hdoc & Hcc)
    by (unfold doc, c; lia).
  assert (0 <= q <= 24 /\ 0 <= doq <= 1460 /\ doc = 1461 * q + doq) as (Hq & Hdoq & Hdq)
    by (unfold q, doq; lia).
  assert (0 <= y <= 3 /\ 0 <= doy <= 365 /\ doq = 365 * y + doy /\ (doy = 365 -> y = 3)) as (Hy & Hdoy & Hyy & Hy3)
    by (unfold doy, y; lia).
  assert (z = 146097 * e + 36524 * c + 1461 * q + 365 * y + doy) as Hsum by (unfold doy, doc; lia).
  clearbody e doe c doc q doq y doy.
  set (Y := 400 * e + 100 * c + 4 * q + y). set (mp := (5 * doy + 2) / 153).
  assert (0 <= mp <= 11) by (unfold mp; lia).
  pose proof (year_days_cycles e c q y Hc Hq Hy) as HY. fold Y in HY.
  unfold month_start.
  replace ((12 * Y + mp) / 12) with Y by lia. replace ((12 * Y + mp) mod 12) with mp by lia.
  split; [unfold mp in *; lia|].
  destruct (decide (mp = 11)) as [H11|H11].
  - replace ((12 * Y + mp + 1) / 12) with (Y + 1) by lia.
    replace ((12 * Y + mp + 1) mod 12) with 0 by lia.
    pose proof (leap_covers (100 * c + 4 * q + y) e doy) as Hleap.
    replace (400 * e + (100 * c + 4 * q + y) + 1) with (Y + 1) in Hleap by (unfold Y; lia).
    replace (400 * e + (100 * c + 4 * q + y)) with Y in Hleap by (unfold Y; lia).
    rewrite HY in Hleap. specialize (Hleap ltac:(lia) ltac:(lia)).
    enough (doy = 365 -> (100 * c + 4 * q + y) mod 4 = 3 /\
      ((100 * c + 4 * q + y) mod 100 = 99 -> 100 * c + 4 * q + y = 399)) by (specialize (Hleap ltac:(done)); lia).
    intros ->. specialize (Hy3 eq_refl). subst y. split; [lia|]. intros. assert (q = 24) by lia. lia.
  - replace ((12 * Y + mp + 1) / 12) with Y by lia.
    replace ((12 * Y + mp + 1) mod 12) with (mp + 1) by lia. unfold mp in *; lia.
Qed.

Lemma month_of_day_unique z k : month_start k <= z < month_start (k + 1) -> month_of_day z = k.
Proof.
  intros [H1 H2]. pose proof (month_of_day_spec z) as [H3 H4].
  destruct (Z.lt_trichotomy (month_of_day z) k) as [H|[H|H]]; [|done|].
  - pose proof (month_start_le (month_of_day z + 1) k ltac:(lia)). lia.
  - pose proof (month_start_le (k + 1) (month_of_day z) ltac:(lia)). lia.
Qed.

(** ** Wall clock readings *)

Definition seconds_per_day : Z := 86400.

(** 1970-01-01 is day 719468 of the March-based count. *)
Definition epoch_day : Z := 719468.

(** The fields of a wall clock reading given as local seconds since the epoch
    (the instant's Unix seconds plus the zone offset). *)
Definition local_day (ls : Z) : Z := ls / seconds_per_day.
Definition local_month_index (ls : Z) : Z := month_of_day (local_day ls + epoch_day) + 2.
Definition local_year (ls : Z) : Z := local_month_index ls / 12.
Definition local_month (ls : Z) : Z := local_month_index ls mod 12 + 1.
Definition local_mday (ls : Z) : Z :=
  local_day ls + epoch_day - month_start (local_month_index ls - 2) + 1.
Definition local_weekday (ls : Z) : Z := (local_day ls + 4) mod 7.
Definition local_hour (ls : Z) : Z := ls mod seconds_per_day / 3600.
Definition local_minute (ls : Z) : Z := ls mod 3600 / 60.
Definition local_second (ls : Z) : Z := ls mod 60.

(** The local seconds of a date.  As in [time.Date], out of range months,
    days and hours are normalised. *)
Definition civil_seconds (y m d h mi s : Z) : Z :=
  (month_start (12 * y + (m - 1) - 2) + (d - 1) - epoch_day) * seconds_per_day
  + h * 3600 + mi * 60 + s.

Lemma local_month_range ls : 1 <= local_month ls <= 12.
Proof. unfold local_month. lia. Qed.

Lemma local_month_index_eq ls : 12 * local_year ls + (local_month ls - 1) = local_month_index ls.
Proof. unfold local_year, local_month. lia. Qed.

(** The month of [ls] starts no later than its day and the next one later. *)
Lemma local_month_bounds ls :
  month_start (local_month_index ls - 2) <= local_day ls + epoch_day
    < month_start (local_month_index ls - 2 + 1).
Proof.
  unfold local_month_index. replace (month_of_day (local_day ls + epoch_day) + 2 - 2)
    with (month_of_day (local_day ls + epoch_day)) by lia.
  apply month_of_day_spec.
Qed.

Lemma local_month_index_unique ls k :
  month_start (k - 2) <= local_day ls + epoch_day < month_start (k - 2 + 1) ->
  local_month_index ls = k.
Proof. intros H. unfold local_month_index. rewrite (month_of_day_unique _ (k - 2)); lia. Qed.

(** Reading the fields of [ls] and putting them back together is the identity. *)
Lemma civil_seconds_local ls :
  civil_seconds (local_year ls) (local_month ls) (local_mday ls) (local_hour ls)
    (local_minute ls) (local_second ls) = ls.
Proof.
  unfold civil_seconds. rewrite local_month_index_eq.
  unfold local_mday, local_day, local_hour, local_minute, local_second, seconds_per_day, epoch_day. lia.
Qed.

(** ** Locations

    A location is the offset in force before its first transition and the
    transitions themselves: the Unix second each takes effect and the offset
    it installs.  [lookup_zone] is [Location.lookup]: the offset at a Unix
    second and the bounds of its validity, [None] standing for the beginning
    and the end of time. *)

Record location := Location {
  loc_offset : Z;
  loc_transitions : list (Z * Z)
}.

Fixpoint lookup_zone_from (off : Z) (start : option Z) (tx : list (Z * Z)) (sec : Z)
  : Z * option Z * option Z :=
  match tx with
  | [] => (off, start, None)
  | (w, off') :: tx' =>
      if sec <? w then (off, start, Some w) else lookup_zone_from off' (Some w) tx' sec
  end.

Definition lookup_zone (l : location) (sec : Z) : Z * option Z * option Z :=
  lookup_zone_from (loc_offset l) None (loc_transitions l) sec.

Definition zone_offset (l : location) (sec : Z) : Z := (lookup_zone l sec).1.1.

Definition utc : location := Location 0 [].
Definition fixed_zone (off : Z) : location := Location off [].

(** [time.Date]: the Unix second of a local reading.  The reading is first
    looked up as if it were UTC, and once more if the offset found is not
    valid at the instant it gives. *)
Definition resolve_local (l : location) (ls : Z) : Z :=
  match lookup_zone l ls with
  | (off, start, end_) =>
      if off =? 0 then ls else
      let u := ls - off in
      let before_start := match start with Some s => u <? s | None => false end in
      let past_end := match end_ with Some e => e <=? u | None => false end in
      ls - (if before_start || past_end then zone_offset l u else off)
  end.

Definition unix_seconds (t : Z) : Z := t / second.

(** The local seconds of an instant in a location ([t.In(loc)]). *)
Definition local_seconds (l : location) (t : Z) : Z :=
  unix_seconds t + zone_offset l (unix_seconds t).

(** [time.Date(y, m, d, h, mi, 0, 0, loc)]. *)
Definition go_date (l : location) (y m d h mi : Z) : Z :=
  resolve_local l (civil_seconds y m d h mi 0) * second.

(** [t.Truncate(time.Minute)]; the zero time is a whole minute. *)
Definition truncate_minute (t : Z) : Z := t / minute * minute.

(** [t.AddDate(years, 0, 0)] of a time read in [l]. *)
Definition add_years (l : location) (t years : Z) : Z :=
  let ls := local_seconds l t in
  resolve_local l (civil_seconds (local_year ls + years) (local_month ls) (local_mday ls)
                     (local_hour ls) (local_minute ls) (local_second ls)) * second + t mod second.

Lemma resolve_local_fixed off ls : resolve_local (fixed_zone off) ls = ls - off.
Proof. unfold resolve_local. cbn. destruct (Z.eqb_spec off 0); lia. Qed.

Lemma zone_offset_fixed off u : zone_offset (fixed_zone off) u = off.
Proof. done. Qed.

#[export] Hint Rewrite resolve_local_fixed zone_offset_fixed : cooker_rw.

Example date_2026_05_14 : go_date utc 2026 5 14 10 1 = 1778752860 * second.
Proof. vm_compute. reflexivity. Qed.

Example leap_day : let ls := civil_seconds 2024 2 29 23 59 59 in
  (local_year ls, local_month ls, local_mday ls, local_weekday ls, local_hour ls) = (2024, 2, 29, 4, 23).
Proof. vm_compute. reflexivity. Qed.
