(* ===== verification/GoRegexp.v ===== *)
(** * Go's [regexp] package, for the patterns the backend compiles

    A pattern anchored by [^] and [$] is modelled by its syntax tree; [MatchString]
    on it is membership of the whole string in its language.  Matching is by
    derivatives, and [MatchString_lang] says it decides the language, so theorems
    about a pattern are proved on its language and examples run the matcher.
    The patterns' character classes are all ASCII.  This file models the
    language's library. *)

From S2P Require Import Prelude GoStr.
From Stdlib Require Import Ascii.

Inductive regex :=
| Nothing                          (* no string *)
| Empty                            (* the empty string *)
| Class (ranges : list (ascii * ascii))  (* [[a-z0-9]] *)
| Seq (r1 r2 : regex)
| Alt (r1 r2 : regex)
| Star (r : regex).

#[export] Instance regex_eq_dec : EqDecision regex.
Proof. solve_decision. Defined.

Definition in_class (c : ascii) (ranges : list (ascii * ascii)) : bool :=
  existsb (fun '(lo, hi) => (nat_of_ascii lo <=? nat_of_ascii c)%nat && (nat_of_ascii c <=? nat_of_ascii hi)%nat) ranges.

(** [r?], [r+], [r{n}] and [r{0,n}]; a literal character. *)
Definition Opt (r : regex) : regex := Alt Empty r.
Definition Plus (r : regex) : regex := Seq r (Star r).
Fixpoint Times (n : nat) (r : regex) : regex :=
  match n with O => Empty | S n => Seq r (Times n r) end.
Fixpoint UpTo (n : nat) (r : regex) : regex :=
  match n with O => Empty | S n => Alt Empty (Seq r (UpTo n r)) end.
Definition Lit (c : ascii) : regex := Class [(c, c)].

(** ** The language of a pattern *)

Inductive lang : regex -> string -> Prop :=
| lang_empty : lang Empty ""
| lang_class ranges c : in_class c ranges = true -> lang (Class ranges) (chr c)
| lang_seq r1 r2 s1 s2 : lang r1 s1 -> lang r2 s2 -> lang (Seq r1 r2) (s1 +:+ s2)
| lang_alt_l r1 r2 s : lang r1 s -> lang (Alt r1 r2) s
| lang_alt_r r1 r2 s : lang r2 s -> lang (Alt r1 r2) s
| lang_star_nil r : lang (Star r) ""
| lang_star_cons r s1 s2 : lang r s1 -> lang (Star r) s2 -> lang (Star r) (s1 +:+ s2).

(** ** Matching *)

Fixpoint nullable (r : regex) : bool :=
  match r with
  | Nothing | Class _ => false
  | Empty | Star _ => true
  | Seq r1 r2 => nullable r1 && nullable r2
  | Alt r1 r2 => nullable r1 || nullable r2
  end.

(** Constructors that keep derivatives small. *)
Definition seq (r1 r2 : regex) : regex :=
  match r1, r2 with
  | Nothing, _ | _, Nothing => Nothing
  | Empty, r | r, Empty => r
  | _, _ => Seq r1 r2
  end.

Definition alt (r1 r2 : regex) : regex :=
  match r1, r2 with
  | Nothing, r | r, Nothing => r
  | _, _ => if decide (r1 = r2) then r1 else Alt r1 r2
  end.

Fixpoint deriv (c : ascii) (r : regex) : regex :=
  match r with
  | Nothing | Empty => Nothing
  | Class ranges => if in_class c ranges then Empty else Nothing
  | Seq r1 r2 => if nullable r1 then alt (seq (deriv c r1) r2) (deriv c r2) else seq (deriv c r1) r2
  | Alt r1 r2 => alt (deriv c r1) (deriv c r2)
  | Star r => seq (deriv c r) (Star r)
  end.

Fixpoint MatchString (r : regex) (s : string) : bool :=
  match s with
  | EmptyString => nullable r
  | String c s => MatchString (deriv c r) s
  end.

(** ** The matcher decides the language *)

Lemma lang_nothing s : ~ lang Nothing s.
Proof. intros H. inversion H. Qed.

Lemma lang_empty_iff s : lang Empty s <-> s = "".
Proof. split; [by inversion 1|intros ->; constructor]. Qed.

Lemma lang_seq_iff r1 r2 s : lang (Seq r1 r2) s <-> exists s1 s2, s = s1 +:+ s2 /\ lang r1 s1 /\ lang r2 s2.
Proof. split; [inversion 1; subst; eauto|intros (s1 & s2 & -> & ? & ?); by constructor]. Qed.

Lemma lang_alt_iff r1 r2 s : lang (Alt r1 r2) s <-> lang r1 s \/ lang r2 s.
Proof. split; [inversion 1; subst; auto|intros [?|?]; [by apply lang_alt_l|by apply lang_alt_r]]. Qed.

Lemma app_nil_r_str (s : string) : s +:+ "" = s.
Proof. induction s as [|c s IH]; [done|]. change (String c s +:+ "") with (String c (s +:+ "")). by rewrite IH. Qed.

Lemma lang_seq_smart r1 r2 s : lang (seq r1 r2) s <-> lang (Seq r1 r2) s.
Proof.
  assert (forall r, lang (Seq r Empty) s <-> lang r s) as Hr.
  { intros r. rewrite lang_seq_iff. split; [by intros (s1 & s2 & -> & ? & ->%lang_empty_iff); rewrite app_nil_r_str|].
    intros H. exists s, "". rewrite app_nil_r_str. split_and!; [done|done|constructor]. }
  assert (forall r, lang (Seq Empty r) s <-> lang r s) as Hl.
  { intros r. rewrite lang_seq_iff. split; [by intros (s1 & s2 & -> & ->%lang_empty_iff & ?)|].
    intros H. exists "", s. split_and!; [done|constructor|done]. }
  assert (forall r, ~ lang (Seq Nothing r) s) as Hnl by (intros r; rewrite lang_seq_iff; intros (? & ? & _ & []%lang_nothing & _)).
  assert (forall r, ~ lang (Seq r Nothing) s) as Hnr by (intros r; rewrite lang_seq_iff; intros (? & ? & _ & _ & []%lang_nothing)).
  pose proof (lang_nothing s) as Hn.
  destruct r1, r2; cbn [seq]; rewrite ?Hl, ?Hr; try done; split; intros H; by destruct (Hn H) || destruct (Hnl _ H) || destruct (Hnr _ H).
Qed.

Lemma lang_alt_smart r1 r2 s : lang (alt r1 r2) s <-> lang (Alt r1 r2) s.
Proof.
  rewrite lang_alt_iff. pose proof (lang_nothing s).
  destruct r1, r2; cbn [alt]; try tauto; (destruct (decide _) as [Heq|]; [rewrite <- Heq; tauto|apply lang_alt_iff]).
Qed.

Lemma nullable_lang r : nullable r = true <-> lang r "".
Proof.
  induction r as [| |ranges|r1 IH1 r2 IH2|r1 IH1 r2 IH2|r IH]; cbn.
  - split; [done|by intros ?%lang_nothing].
  - split; [constructor|done].
  - split; [done|by inversion 1].
  - rewrite andb_true_iff, IH1, IH2, lang_seq_iff. split.
    + intros [H1 H2]. by exists "", "".
    + intros ([|] & [|] & Heq & H1 & H2); by try discriminate Heq.
  - rewrite orb_true_iff, IH1, IH2, lang_alt_iff. done.
  - split; [constructor|done].
Qed.

(** A non-empty string of a starred language begins with a non-empty piece. *)
Lemma lang_star_cons_inv r c s : lang (Star r) (String c s) ->
  exists s1 s2, s = s1 +:+ s2 /\ lang r (String c s1) /\ lang (Star r) s2.
Proof.
  intros H. remember (Star r) as q eqn:Hq. remember (String c s) as t eqn:Ht. revert c s Ht.
  induction H; try discriminate Hq; intros c' s' Ht; [discriminate Ht|].
  injection Hq as ->. destruct s1 as [|c1 s1].
  - by apply IHlang2.
  - injection Ht as -> <-. by exists s1, s2.
Qed.

Lemma deriv_lang c r s : lang (deriv c r) s <-> lang r (String c s).
Proof.
  revert s. induction r as [| |ranges|r1 IH1 r2 IH2|r1 IH1 r2 IH2|r IH]; intros s; cbn [deriv].
  - split; by intros ?%lang_nothing.
  - split; [by intros ?%lang_nothing|by intros ?%lang_empty_iff].
  - destruct (in_class c ranges) eqn:E.
    + rewrite lang_empty_iff. split; [intros ->; by apply lang_class|by inversion 1].
    + split; [by intros ?%lang_nothing|inversion 1; congruence].
  - assert (lang (seq (deriv c r1) r2) s <-> exists s1 s2, s = s1 +:+ s2 /\ lang r1 (String c s1) /\ lang r2 s2) as Hs.
    { rewrite lang_seq_smart, lang_seq_iff. by setoid_rewrite IH1. }
    rewrite lang_seq_iff. destruct (nullable r1) eqn:E.
    + rewrite lang_alt_smart, lang_alt_iff, Hs, IH2. apply nullable_lang in E. split.
      * intros [(s1 & s2 & -> & ? & ?)|?]; [by exists (String c s1), s2|by exists "", (String c s)].
      * intros ([|c1 s1] & s2 & Heq & ? & ?); cbn in Heq.
        -- right. by rewrite Heq.
        -- injection Heq as -> ->. left. by exists s1, s2.
    + rewrite Hs. split.
      * intros (s1 & s2 & -> & ? & ?). by exists (String c s1), s2.
      * intros ([|c1 s1] & s2 & Heq & H1 & ?); cbn in Heq.
        -- apply nullable_lang in H1. congruence.
        -- injection Heq as -> ->. by exists s1, s2.
  - by rewrite lang_alt_smart, !lang_alt_iff, IH1, IH2.
  - rewrite lang_seq_smart, lang_seq_iff. setoid_rewrite IH. split.
    + intros (s1 & s2 & -> & H1 & H2). by apply (lang_star_cons r (String c s1)).
    + apply lang_star_cons_inv.
Qed.

Lemma MatchString_lang r s : MatchString r s = true <-> lang r s.
Proof.
  revert r. induction s as [|c s IH]; intros r; cbn [MatchString]; [apply nullable_lang|].
  by rewrite IH, deriv_lang.
Qed.

(** ** What the characters and the length of a match can be *)

Fixpoint chars (P : ascii -> Prop) (s : string) : Prop :=
  match s with EmptyString => True | String c s => P c /\ chars P s end.

Lemma chars_app P a b : chars P (a +:+ b) <-> chars P a /\ chars P b.
Proof.
  induction a as [|c a IH]; [by cbn; tauto|]. change (String c a +:+ b) with (String c (a +:+ b)). cbn. rewrite IH. tauto.
Qed.

Lemma chars_impl (P Q : ascii -> Prop) s : (forall c, P c -> Q c) -> chars P s -> chars Q s.
Proof. intros H. induction s as [|c s IH]; cbn; [done|]. intros [? ?]. auto. Qed.

(** The classes a pattern is made of. *)
Fixpoint classes (r : regex) : list (list (ascii * ascii)) :=
  match r with
  | Nothing | Empty => []
  | Class ranges => [ranges]
  | Seq r1 r2 | Alt r1 r2 => classes r1 ++ classes r2
  | Star r => classes r
  end.

Definition all_ascii : list ascii := ascii_of_nat <$> List.seq 0 256.

Lemma elem_of_all_ascii c : c ∈ all_ascii.
Proof.
  apply list_elem_of_fmap. exists (nat_of_ascii c). split; [by rewrite ascii_nat_embedding|].
  apply elem_of_seq. pose proof (nat_ascii_bounded c). lia.
Qed.

(** Decide that every class of a pattern stays within a set of characters. *)
Definition within (allowed : ascii -> bool) (r : regex) : bool :=
  forallb (fun ranges => forallb (fun c => implb (in_class c ranges) (allowed c)) all_ascii) (classes r).

Lemma within_seq allowed r1 r2 : within allowed r1 = true -> within allowed r2 = true -> within allowed (Seq r1 r2) = true.
Proof. unfold within. cbn [classes]. rewrite forallb_app. by intros -> ->. Qed.
Lemma within_opt allowed r : within allowed r = true -> within allowed (Opt r) = true.
Proof. done. Qed.
(** A bounded repetition holds the classes of its body, however high the bound. *)
Lemma within_upto allowed r n : within allowed r = true -> within allowed (UpTo n r) = true.
Proof. intros H. induction n as [|n IH]; [done|]. by apply within_opt, within_seq. Qed.

Lemma within_chars allowed r s : within allowed r = true -> lang r s -> chars (fun c => allowed c = true) s.
Proof.
  unfold within. rewrite forallb_forall. intros Hw Hl. induction Hl as [|ranges c Hc|r1 r2 s1 s2 _ IH1 _ IH2|r1 r2 s _ IH|r1 r2 s _ IH|r|r s1 s2 _ IH1 _ IH2];
    cbn [classes] in Hw; setoid_rewrite in_app_iff in Hw || idtac.
  - done.
  - split; [|done]. specialize (Hw ranges ltac:(by left)). rewrite forallb_forall in Hw.
    specialize (Hw c ltac:(apply list_elem_of_In, elem_of_all_ascii)). by rewrite Hc in Hw.
  - apply chars_app. split; [apply IH1|apply IH2]; intros; apply Hw; auto.
  - apply IH. intros; apply Hw; auto.
  - apply IH. intros; apply Hw; auto.
  - done.
  - apply chars_app. split; [apply IH1|apply IH2]; intros; apply Hw; auto.
Qed.

(** The lengths a pattern allows, when bounded. *)
Fixpoint min_len (r : regex) : nat :=
  match r with
  | Nothing | Empty | Star _ => 0
  | Class _ => 1
  | Seq r1 r2 => min_len r1 + min_len r2
  | Alt r1 r2 => min (min_len r1) (min_len r2)
  end.

Fixpoint max_len (r : regex) : option nat :=
  match r with
  | Nothing | Empty => Some 0
  | Class _ => Some 1
  | Seq r1 r2 => match max_len r1, max_len r2 with Some a, Some b => Some (a + b) | _, _ => None end
  | Alt r1 r2 => match max_len r1, max_len r2 with Some a, Some b => Some (max a b) | _, _ => None end
  | Star _ => None
  end.

Lemma lang_length r s : lang r s ->
  min_len r <= String.length s /\ forall n, max_len r = Some n -> String.length s <= n.
Proof.
  induction 1 as [|ranges c Hc|r1 r2 s1 s2 _ [Il1 Iu1] _ [Il2 Iu2]|r1 r2 s _ [Il Iu]|r1 r2 s _ [Il Iu]|r|r s1 s2 _ _ _ _]; cbn;
    rewrite ?length_append.
  - split; [lia|]. intros n [= <-]. lia.
  - split; [lia|]. intros n [= <-]. lia.
  - split; [lia|]. destruct (max_len r1) as [a|], (max_len r2) as [b|]; try done. intros n [= <-].
    specialize (Iu1 a eq_refl). specialize (Iu2 b eq_refl). lia.
  - split; [lia|]. destruct (max_len r1) as [a|], (max_len r2) as [b|]; try done. intros n [= <-].
    specialize (Iu a eq_refl). lia.
  - split; [lia|]. destruct (max_len r1) as [a|], (max_len r2) as [b|]; try done. intros n [= <-].
    specialize (Iu b eq_refl). lia.
  - split; [lia|done].
  - split; [lia|done].
Qed.

(** ** Character classes the patterns share *)

Definition lower : ascii * ascii := ("a"%char, "z"%char).
Definition upper : ascii * ascii := ("A"%char, "Z"%char).
Definition digits09 : ascii * ascii := ("0"%char, "9"%char).
Definition just (c : ascii) : ascii * ascii := (c, c).

Definition alnum : regex := Class [upper; lower; digits09].
Definition lower_alnum : regex := Class [lower; digits09].

(** [[a-z0-9]([a-z0-9-]{0,n}[a-z0-9])?] *)
Definition dns_label (n : nat) : regex :=
  Seq lower_alnum (Opt (Seq (UpTo n (Class [lower; digits09; just "-"%char])) lower_alnum)).

Example dns_label_ex :
  (MatchString (dns_label 38) "my-app2", MatchString (dns_label 38) "a", MatchString (dns_label 38) "-a",
   MatchString (dns_label 38) "a-", MatchString (dns_label 1) "abcd") = (true, true, false, false, false).
Proof. vm_compute. reflexivity. Qed.
