(* ===== verification/GoPath.v ===== *)
(** * Go's [path/filepath] on Unix

    Lexical paths: [Clean], [Join] and [IsAbs].  This file models the language's
    library. *)

From S2P Require Import Prelude GoStr.
From Stdlib Require Import Ascii.

Definition IsAbs (p : string) : bool :=
  match p with String c _ => Ascii.eqb c "/" | EmptyString => false end.

(** The elements kept so far, last first, and what one more element does. *)
Definition clean_step (rooted : bool) (kept : list string) (e : string) : list string :=
  if (e =s "") || (e =s ".") then kept
  else if e =s ".." then
    match kept with
    | p :: rest => if p =s ".." then ".." :: kept else rest
    | [] => if rooted then [] else [".."]
    end
  else e :: kept.

(** The elements of the cleaned path. *)
Definition clean_elems (p : string) : list string :=
  rev (foldl (clean_step (IsAbs p)) [] (split_on "/" p)).

Definition Clean (p : string) : string :=
  if IsAbs p then "/" +:+ join "/" (clean_elems p)
  else match clean_elems p with [] => "." | l => join "/" l end.

(** [filepath.Join(a, b)]. *)
Definition Join (a b : string) : string :=
  if a =s "" then (if b =s "" then "" else Clean b)
  else if b =s "" then Clean a else Clean (a +:+ "/" +:+ b).

Example clean_ex :
  (Clean "a/./b/../c/", Clean "../../x", Clean "/../etc", Clean "", Clean "a/..", Join "/src" "../x")
  = ("a/c", "../../x", "/etc", ".", ".", "/x").
Proof. reflexivity. Qed.

(** ** Facts *)

(** An element that stays: not empty, [.] or [..]. *)
Definition plain (e : string) : Prop := e <> "" /\ e <> "." /\ e <> "..".

Lemma clean_step_plain rooted kept e : plain e -> clean_step rooted kept e = e :: kept.
Proof.
  intros (H1 & H2 & H3). unfold clean_step.
  by rewrite (proj2 (String.eqb_neq _ _) H1), (proj2 (String.eqb_neq _ _) H2), (proj2 (String.eqb_neq _ _) H3).
Qed.

Lemma foldl_clean_plain rooted l kept : Forall plain l -> foldl (clean_step rooted) kept l = rev l ++ kept.
Proof.
  revert kept. induction l as [|e l IH]; intros kept Hl; [done|]. apply Forall_cons in Hl as [He Hl].
  cbn [foldl]. rewrite clean_step_plain, IH by done. cbn. by rewrite <- app_assoc.
Qed.

(** What a relative path keeps: some [..] and then plain elements. *)
Definition settled (kept : list string) : Prop :=
  exists l n, kept = l ++ replicate n ".." /\ Forall plain l.

Lemma clean_step_settled kept e : settled kept -> settled (clean_step false kept e).
Proof.
  intros (l & n & -> & Hl). unfold clean_step.
  destruct (String.eqb_spec e ""); [by exists l, n|]. destruct (String.eqb_spec e "."); [by exists l, n|]. cbn [orb].
  destruct (String.eqb_spec e "..") as [->|].
  - destruct l as [|x l]; cbn [app].
    + destruct n as [|n]; cbn [replicate]; [by exists [], 1|]. by exists [], (S (S n)).
    + apply Forall_cons in Hl as [(_ & _ & Hx) Hl]. rewrite (proj2 (String.eqb_neq _ _) Hx). by exists l, n.
  - exists (e :: l), n. split; [done|]. by constructor.
Qed.

Lemma clean_elems_settled l kept : settled kept -> settled (foldl (clean_step false) kept l).
Proof. revert kept. induction l as [|e l IH]; intros kept Hk; [done|]. cbn. by apply IH, clean_step_settled. Qed.

(** Below plain elements, a path that keeps only plain ones keeps the same: it
    never climbs above where it starts. *)
Lemma clean_below rooted root l : forall kept kept', settled kept ->
  foldl (clean_step false) kept l = kept' -> Forall plain kept' ->
  Forall plain kept -> foldl (clean_step rooted) (kept ++ root) l = kept' ++ root.
Proof.
  induction l as [|e l IH]; intros kept kept' Hs Hf Hp Hk; cbn [foldl] in *; [by subst|].
  assert (Forall plain (clean_step false kept e)) as Hk'.
  { destruct (clean_step_settled kept e Hs) as (k & n & Heq & Hk'). destruct n as [|n].
    - by rewrite Heq, app_nil_r.
    - exfalso. assert (forall l kept, (exists k n, kept = k ++ replicate (S n) "..") ->
        exists k n, foldl (clean_step false) kept l = k ++ replicate (S n) "..") as Hstay.
      { clear. induction l as [|e l IH]; intros kept (k & n & ->); [by exists k, n|]. cbn. apply IH.
        unfold clean_step. destruct (_ || _); [by exists k, n|]. destruct (e =s "..").
        - destruct k as [|x k]; cbn [app]; [by exists [], (S n)|]. destruct (x =s "..").
          + by exists (".." :: x :: k), n.
          + by exists k, n.
        - by exists (e :: k), n. }
      destruct (Hstay l _ ltac:(by exists k, n)) as (k2 & m & Hend). rewrite <- Hf, Hend in Hp.
      apply Forall_app in Hp as [_ Hp]. cbn in Hp. apply Forall_cons in Hp as [(_ & _ & Hdd) _]. done. }
  rewrite <- (IH (clean_step false kept e) kept' (clean_step_settled kept e Hs) Hf Hp Hk'). f_equal.
  unfold clean_step in Hk' |- *. destruct (_ || _); [done|]. destruct (e =s ".."); [|done].
  destruct kept as [|x kept]; cbn [app] in *.
  - apply Forall_cons in Hk' as [(_ & _ & Hx) _]. done.
  - destruct (x =s "..") eqn:Ex; [|done]. apply String.eqb_eq in Ex. subst x.
    apply Forall_cons in Hk as [(_ & _ & Hx) _]. done.
Qed.

(** ** Joining below a root *)

Lemma split_on_app sep a b : split_on sep (a +:+ String sep b) = split_on sep a ++ split_on sep b.
Proof.
  induction a as [|c a IH].
  - change ("" +:+ String sep b) with (String sep b). cbn [split_on]. by rewrite Ascii.eqb_refl.
  - change (String c a +:+ String sep b) with (String c (a +:+ String sep b)). cbn [split_on]. rewrite IH.
    destruct (Ascii.eqb c sep); [done|]. destruct (split_on sep a) eqn:E; [|done].
    destruct a as [|x a]; cbn in E; [done|]. destruct (Ascii.eqb x sep); [done|]. by destruct (split_on sep a).
Qed.

Lemma clean_step_rooted kept e : Forall plain kept -> Forall plain (clean_step true kept e).
Proof.
  intros Hk. unfold clean_step. destruct (String.eqb_spec e ""); [done|]. destruct (String.eqb_spec e "."); [done|]. cbn.
  destruct (String.eqb_spec e "..") as [->|].
  - destruct kept as [|x kept]; [done|]. apply Forall_cons in Hk as [(_ & _ & Hx) Hk].
    by rewrite (proj2 (String.eqb_neq _ _) Hx).
  - by constructor.
Qed.

Lemma clean_elems_rooted l kept : Forall plain kept -> Forall plain (foldl (clean_step true) kept l).
Proof. revert kept. induction l as [|e l IH]; intros kept Hk; [done|]. cbn. by apply IH, clean_step_rooted. Qed.

(** A path whose elements stay plain, joined to an absolute root, leads below it. *)
Lemma Join_below root p : IsAbs root = true -> IsAbs p = false -> p <> "" -> Forall plain (clean_elems p) ->
  Join root p = "/" +:+ join "/" (clean_elems root ++ clean_elems p).
Proof.
  intros Hr Hp Hne Hpl. unfold Join. destruct (String.eqb_spec root "") as [->|_]; [done|].
  rewrite (proj2 (String.eqb_neq _ _) Hne).
  assert (IsAbs (root +:+ "/" +:+ p) = true) as Habs.
  { destruct root as [|c root]; [done|]. change (String c root +:+ "/" +:+ p) with (String c (root +:+ "/" +:+ p)).
    exact Hr. }
  unfold Clean. rewrite Habs. do 2 f_equal. unfold clean_elems. rewrite Habs, Hr, Hp.
  change ("/" +:+ p) with (String "/" p). rewrite split_on_app, foldl_app, <- rev_app_distr. f_equal.
  unfold clean_elems in Hpl. rewrite Hp in Hpl.
  rewrite <- (clean_below true (foldl (clean_step true) [] (split_on "/" root)) (split_on "/" p) []
    (foldl (clean_step false) [] (split_on "/" p))); [done| |done| |done].
  - by exists [], 0.
  - rewrite <- (rev_involutive (foldl _ _ _)). apply Forall_rev. exact Hpl.
Qed.
