(* ===== verification/GoCrypto.v ===== *)
(** * Hashes and encodings of Go's standard library

    [crypto/sha256], [encoding/hex] and [encoding/base64]'s unpadded URL alphabet,
    on byte strings.  Executable: the standard test vectors are computed below. *)

From S2P Require Import Prelude GoStr.
From Stdlib Require Import Ascii.
Local Open Scope Z_scope.

Definition byte_of_ascii (c : ascii) : Z := Z.of_nat (nat_of_ascii c).
Definition ascii_of_byte (b : Z) : ascii := ascii_of_nat (Z.to_nat b).
Definition bytes_of_string (s : string) : list Z := byte_of_ascii <$> String.list_ascii_of_string s.
Definition string_of_bytes (l : list Z) : string := String.string_of_list_ascii (ascii_of_byte <$> l).

(** ** [encoding/hex] *)

Definition hex_digit (d : Z) : string := String.substring (Z.to_nat d) 1 "0123456789abcdef".
Definition hex_EncodeToString (l : list Z) : string :=
  String.concat "" ((fun b => hex_digit (b / 16) +:+ hex_digit (b mod 16)) <$> l).

(** ** [base64.RawURLEncoding] *)

Definition url_digit (d : Z) : string :=
  String.substring (Z.to_nat d) 1 "ABCDEFGHIJKLMNOPQRSTUVWXYZabcdefghijklmnopqrstuvwxyz0123456789-_".

Fixpoint raw_url_encode (l : list Z) : string :=
  match l with
  | [] => ""
  | [a] => url_digit (a / 4) +:+ url_digit (a mod 4 * 16)
  | [a; b] => url_digit (a / 4) +:+ url_digit (a mod 4 * 16 + b / 16) +:+ url_digit (b mod 16 * 4)
  | a :: b :: c :: l =>
      url_digit (a / 4) +:+ url_digit (a mod 4 * 16 + b / 16) +:+
      url_digit (b mod 16 * 4 + c / 64) +:+ url_digit (c mod 64) +:+ raw_url_encode l
  end.

(** ** [sha256.Sum256] *)

Definition mask32 (z : Z) : Z := Z.land z 4294967295.
Definition rotr (x n : Z) : Z := Z.lor (Z.shiftr x n) (mask32 (Z.shiftl x (32 - n))).
Definition shr (x n : Z) : Z := Z.shiftr x n.

(** The first 32 bits of the fractional parts of the cube roots of the first 64 primes. *)
Definition sha256_k : list Z := [
  1116352408; 1899447441; 3049323471; 3921009573; 961987163; 1508970993; 2453635748; 2870763221;
  3624381080; 310598401; 607225278; 1426881987; 1925078388; 2162078206; 2614888103; 3248222580;
  3835390401; 4022224774; 264347078; 604807628; 770255983; 1249150122; 1555081692; 1996064986;
  2554220882; 2821834349; 2952996808; 3210313671; 3336571891; 3584528711; 113926993; 338241895;
  666307205; 773529912; 1294757372; 1396182291; 1695183700; 1986661051; 2177026350; 2456956037;
  2730485921; 2820302411; 3259730800; 3345764771; 3516065817; 3600352804; 4094571909; 275423344;
  430227734; 506948616; 659060556; 883997877; 958139571; 1322822218; 1537002063; 1747873779;
  1955562222; 2024104815; 2227730452; 2361852424; 2428436474; 2756734187; 3204031479; 3329325298].

Definition sha256_init : list Z :=
  [1779033703; 3144134277; 1013904242; 2773480762; 1359893119; 2600822924; 528734635; 1541459225].

(** A big-endian word of 4 bytes, and back. *)
Definition be_word (a b c d : Z) : Z := ((a * 256 + b) * 256 + c) * 256 + d.
Definition be_bytes (w : Z) : list Z := [w / 16777216 mod 256; w / 65536 mod 256; w / 256 mod 256; w mod 256].

Fixpoint words (l : list Z) : list Z :=
  match l with a :: b :: c :: d :: l => be_word a b c d :: words l | _ => [] end.

(** The message schedule, newest word first. *)
Fixpoint schedule (n : nat) (w : list Z) : list Z :=
  match n with
  | O => w
  | S n =>
      let at_ i := nth i w 0 in
      let s0 := Z.lxor (Z.lxor (rotr (at_ 14%nat) 7) (rotr (at_ 14%nat) 18)) (shr (at_ 14%nat) 3) in
      let s1 := Z.lxor (Z.lxor (rotr (at_ 1%nat) 17) (rotr (at_ 1%nat) 19)) (shr (at_ 1%nat) 10) in
      schedule n (mask32 (at_ 15%nat + s0 + at_ 6%nat + s1) :: w)
  end.

Definition sha256_round (h : list Z) (kw : Z * Z) : list Z :=
  match h with
  | [a; b; c; d; e; f; g; h] =>
      let S1 := Z.lxor (Z.lxor (rotr e 6) (rotr e 11)) (rotr e 25) in
      let ch := Z.lxor (Z.land e f) (Z.land (4294967295 - e) g) in
      let temp1 := h + S1 + ch + kw.1 + kw.2 in
      let S0 := Z.lxor (Z.lxor (rotr a 2) (rotr a 13)) (rotr a 22) in
      let maj := Z.lxor (Z.lxor (Z.land a b) (Z.land a c)) (Z.land b c) in
      [mask32 (temp1 + S0 + maj); a; b; c; mask32 (d + temp1); e; f; g]
  | _ => h
  end.

Definition sha256_block (h block : list Z) : list Z :=
  let w := rev (schedule 48 (rev (words block))) in
  (fun '(x, y) => mask32 (x + y)) <$> combine h (foldl sha256_round h (combine sha256_k w)).

Fixpoint sha256_blocks (fuel : nat) (h l : list Z) : list Z :=
  match fuel with
  | O => h
  | S fuel => match l with [] => h | _ => sha256_blocks fuel (sha256_block h (take 64 l)) (drop 64 l) end
  end.

(** The padding: a one bit, zeros up to 8 bytes short of a block, the length in bits. *)
Definition sha256_pad (l : list Z) : list Z :=
  let n := Z.of_nat (length l) in
  l ++ 128 :: repeat 0 (Z.to_nat ((55 - n) mod 64)) ++ be_bytes (n * 8 / 4294967296) ++ be_bytes (n * 8 mod 4294967296).

Definition sha256_Sum256 (l : list Z) : list Z :=
  let m := sha256_pad l in mjoin (be_bytes <$> sha256_blocks (length m) sha256_init m).

Example sha256_abc : hex_EncodeToString (sha256_Sum256 (bytes_of_string "abc")) =
  "ba7816bf8f01cfea414140de5dae2223b00361a396177a9cb410ff61f20015ad".
Proof. vm_compute. reflexivity. Qed.

Example sha256_two_blocks :
  hex_EncodeToString (sha256_Sum256 (bytes_of_string "abcdbcdecdefdefgefghfghighijhijkijkljklmklmnlmnomnopnopq")) =
  "248d6a61d20638b8e5c026930c3e6039a33ce45964ff2167f6ecedd419db06c1".
Proof. vm_compute. reflexivity. Qed.

Example raw_url_ex : raw_url_encode [251; 239; 190; 255] = "----_w".
Proof. vm_compute. reflexivity. Qed.

(** ** [hex.DecodeString] *)

Definition fromHexChar (c : ascii) : option Z :=
  let b := byte_of_ascii c in
  if (48 <=? b) && (b <=? 57) then Some (b - 48)
  else if (97 <=? b) && (b <=? 102) then Some (b - 87)
  else if (65 <=? b) && (b <=? 70) then Some (b - 55)
  else None.

(** [None] for an odd length or a character that is no digit. *)
Fixpoint hex_DecodeString (s : string) : option (list Z) :=
  match s with
  | EmptyString => Some []
  | String a (String b s) =>
      match fromHexChar a, fromHexChar b, hex_DecodeString s with
      | Some x, Some y, Some l => Some (x * 16 + y :: l)
      | _, _, _ => None
      end
  | String _ EmptyString => None
  end.

Lemma hex_digit_decodes d : 0 <= d < 16 -> exists c, hex_digit d = chr c /\ fromHexChar c = Some d.
Proof.
  intros Hd. rewrite <- (Z2Nat.id d) by lia. assert (Z.to_nat d < 16)%nat as Hn by lia. revert Hn. generalize (Z.to_nat d) as n.
  intros n Hn. do 16 (destruct n as [|n]; [eexists; split; reflexivity|]). lia.
Qed.

Lemma concat_empty_cons x l : String.concat "" (x :: l) = x +:+ String.concat "" l.
Proof. destruct l; [by rewrite append_nil_r|done]. Qed.

Lemma hex_roundtrip l : Forall (fun b => 0 <= b < 256) l -> hex_DecodeString (hex_EncodeToString l) = Some l.
Proof.
  intros Hl. unfold hex_EncodeToString. induction Hl as [|b l Hb Hl IH]; [done|].
  rewrite fmap_cons, concat_empty_cons.
  destruct (hex_digit_decodes (b / 16)) as (c & -> & Hc); [split; [apply Z.div_pos; lia|apply Z.div_lt_upper_bound; lia]|].
  destruct (hex_digit_decodes (b mod 16)) as (c' & -> & Hc'); [apply Z.mod_pos_bound; lia|].
  change (hex_DecodeString (String c (String c' (String.concat EmptyString ((fun b => hex_digit (b / 16) +:+ hex_digit (b mod 16)) <$> l)))) = Some (b :: l)).
  cbn [hex_DecodeString]. rewrite Hc, Hc', IH. f_equal. f_equal. lia.
Qed.

(** ** [crypto/hmac] over SHA-256 *)

Definition sha256_BlockSize : nat := 64.

Definition hmac_key (key : list Z) : list Z :=
  let key := if (sha256_BlockSize <? length key)%nat then sha256_Sum256 key else key in
  key ++ repeat 0 (sha256_BlockSize - length key).

Definition hmac_sha256 (key msg : list Z) : list Z :=
  let pad := fun x => (fun b => Z.lxor b x) <$> hmac_key key in
  sha256_Sum256 (pad 92 ++ sha256_Sum256 (pad 54 ++ msg)).

(** RFC 4231, test cases 2 and 6 (a key longer than a block). *)
Example hmac_jefe : hex_EncodeToString (hmac_sha256 (bytes_of_string "Jefe") (bytes_of_string "what do ya want for nothing?")) =
  "5bdcc146bf60754e6a042426089575c75a003f089d2739839dec58b964ec3843".
Proof. vm_compute. reflexivity. Qed.

Example hmac_long_key :
  hex_EncodeToString (hmac_sha256 (repeat 170 131) (bytes_of_string "Test Using Larger Than Block-Size Key - Hash Key First")) =
  "60e431591ee0b67f0d8a26aacbf5b77f8e0bc6213728c5140546040f0ee37f54".
Proof. vm_compute. reflexivity. Qed.

(** A digest is made of bytes. *)
Lemma sha256_bytes l : Forall (fun b => 0 <= b < 256) (sha256_Sum256 l).
Proof.
  unfold sha256_Sum256. generalize (sha256_blocks (length (sha256_pad l)) sha256_init (sha256_pad l)) as ws.
  induction ws as [|w ws IH]; [constructor|]. cbn.
  do 4 (apply Forall_cons; split; [apply Z.mod_pos_bound; lia|]). exact IH.
Qed.

Lemma hmac_bytes key msg : Forall (fun b => 0 <= b < 256) (hmac_sha256 key msg).
Proof. apply sha256_bytes. Qed.

(** A digest has 32 bytes. *)
Lemma sha256_blocks_length fuel : forall h l, length h = 8%nat -> length (sha256_blocks fuel h l) = 8%nat.
Proof.
  induction fuel as [|fuel IH]; intros h l Hh; [done|]. cbn [sha256_blocks]. destruct l as [|b l]; [done|]. apply IH.
  unfold sha256_block. rewrite length_fmap, length_combine, Hh.
  enough (length (foldl sha256_round h (combine sha256_k (rev (schedule 48 (rev (words (take 64 (b :: l)))))))) = 8%nat) as -> by done.
  revert h Hh. generalize (combine sha256_k (rev (schedule 48 (rev (words (take 64 (b :: l))))))) as kws.
  induction kws as [|kw kws IHk]; intros h Hh; [done|]. apply IHk. by do 9 (destruct h as [|? h]; [done|]).
Qed.

Lemma digest_length l : length (sha256_Sum256 l) = 32%nat.
Proof.
  unfold sha256_Sum256. pose proof (sha256_blocks_length (length (sha256_pad l)) sha256_init (sha256_pad l) eq_refl) as Hl.
  revert Hl. generalize (sha256_blocks (length (sha256_pad l)) sha256_init (sha256_pad l)) as ws. intros ws Hws.
  by do 9 (destruct ws as [|? ws]; [done|]).
Qed.
