(* ===== verification/Cron.v ===== *)
(** * Cron expressions: [internal/scheduler/cron.go]

    Parsing of five-field expressions into bit masks and the search for the
    next firing time. *)

From S2P Require Import Prelude GoStr GoTime.
From Stdlib Require Import Ascii.
Local Open Scope Z_scope.

(** ** Data *)

(** The five [uint64] masks. *)
Record Cron := mkCron { c_minute : Z; c_hour : Z; c_dom : Z; c_month : Z; c_dow : Z }.

Record fieldSpec := mkSpec { spec_min : Z; spec_max : Z }.

Definition specMinute := mkSpec 0 59.
Definition specHour := mkSpec 0 23.
Definition specDOM := mkSpec 1 31.
Definition specMonth := mkSpec 1 12.
Definition specDOW := mkSpec 0 6.

(** The errors of [Parse] and [Next]; all of them wrap [ErrInvalidCron]. *)
Inductive cron_error :=
| FieldCount (n : nat)
| EmptyElement
| BadStep (s : string)
| BadRangeLow (s : string)
| BadRangeHigh (s : string)
| BadNumber (s : string)
| OutOfRange (lo hi : Z)
| NoValues
| FuelExhausted (* the model's: the mask loop needs more than [mask_fuel] iterations *)
| InField (i : nat) (e : cron_error)
| NoOccurrence.

(** ** Parsing *)

(** [1 << uint(v)] on [uint64]: a negative or large [v] shifts everything out. *)
Definition shl1 (v : Z) : Z := if (0 <=? v) && (v <? 64) then Z.shiftl 1 v else 0.

(** [for v := lo; v <= hi; v += step { out |= 1 << uint(v) }], where [v] is
    an [int].  [None] when the fuel runs out. *)
Fixpoint fill_mask (fuel : nat) (v hi step out : Z) : option Z :=
  match fuel with
  | O => None
  | S fuel =>
      if v <=? hi then fill_mask fuel (wrap64 (v + step)) hi step (Z.lor out (shl1 v))
      else Some out
  end.

Definition mask_fuel : nat := 256.

(** The step and the remaining text of a list element. *)
Definition parse_step (part : string) (spec : fieldSpec) : result cron_error (Z * string) :=
  match cut "/" part with
  | None => Ok (1, part)
  | Some (before, stepStr) =>
      match atoi stepStr with
      | Some s =>
          if s <=? 0 then Err (BadStep stepStr)
          else Ok (s, if (before =s "") || (before =s "*")
                      then itoa (spec_min spec) +:+ "-" +:+ itoa (spec_max spec) else before)
      | None => Err (BadStep stepStr)
      end
  end.

Definition parse_bounds (part : string) (spec : fieldSpec) : result cron_error (Z * Z) :=
  if part =s "*" then Ok (spec_min spec, spec_max spec)
  else match cut "-" part with
  | Some (a, b) =>
      match atoi a, atoi b with
      | None, _ => Err (BadRangeLow a)
      | Some _, None => Err (BadRangeHigh b)
      | Some lo, Some hi => Ok (lo, hi)
      end
  | None =>
      match atoi part with
      | Some n => Ok (n, n)
      | None => Err (BadNumber part)
      end
  end.

(** One element of the comma separated list: its bounds and step. *)
Definition parse_part (part : string) (spec : fieldSpec) : result cron_error (Z * Z * Z) :=
  let part := trim_space part in
  if part =s "" then Err EmptyElement else
  '(step, part) ← parse_step part spec;
  '(lo, hi) ← parse_bounds part spec;
  if (lo <? spec_min spec) || (spec_max spec <? hi) || (hi <? lo)
  then Err (OutOfRange lo hi) else Ok (lo, hi, step).

Fixpoint parse_parts (parts : list string) (spec : fieldSpec) (out : Z) : result cron_error Z :=
  match parts with
  | [] => Ok out
  | p :: parts =>
      '(lo, hi, step) ← parse_part p spec;
      match fill_mask mask_fuel lo hi step out with
      | Some out => parse_parts parts spec out
      | None => Err FuelExhausted
      end
  end.

Definition parseField (f : string) (spec : fieldSpec) : result cron_error Z :=
  out ← parse_parts (split_on "," f) spec 0;
  if out =? 0 then Err NoValues else Ok out.

Fixpoint parse_masks (i : nat) (fs : list string) (specs : list fieldSpec)
  : result cron_error (list Z) :=
  match fs, specs with
  | f :: fs, s :: specs =>
      match parseField f s with
      | Ok m => ms ← parse_masks (S i) fs specs; Ok (m :: ms)
      | Err e => Err (InField (S i) e)
      end
  | _, _ => Ok []
  end.

Definition Parse (expr : string) : result cron_error Cron :=
  let fs := fields (trim_space expr) in
  if negb (length fs =? 5)%nat then Err (FieldCount (length fs)) else
  masks ← parse_masks 0 fs [specMinute; specHour; specDOM; specMonth; specDOW];
  match masks with
  | [mi; h; dm; mo; dw] => Ok (mkCron mi h dm mo dw)
  | _ => Err (FieldCount (length masks))
  end.

(** ** The search *)

(** [mask & (1 << uint(v)) != 0]. *)
Definition matches (mask v : Z) : bool := negb (Z.land mask (shl1 v) =? 0).

Fixpoint fullMask_from (n : nat) (v : Z) (m : Z) : Z :=
  match n with
  | O => m
  | S n => fullMask_from n (v + 1) (Z.lor m (shl1 v))
  end.

Definition fullMask (spec : fieldSpec) : Z :=
  fullMask_from (Z.to_nat (spec_max spec - spec_min spec + 1)) (spec_min spec) 0.

(** The day-of-month and day-of-week rule. *)
Definition day_ok (c : Cron) (ls : Z) : bool :=
  let domAny := c_dom c =? fullMask specDOM in
  let dowAny := c_dow c =? fullMask specDOW in
  let domOK := matches (c_dom c) (local_mday ls) in
  let dowOK := matches (c_dow c) (local_weekday ls) in
  if domAny && dowAny then true
  else if domAny then dowOK
  else if dowAny then domOK
  else domOK || dowOK.

(** One iteration of the loop: the time is returned, or the search continues
    at another one. *)
Inductive search := Found | Continue (t : Z).

Definition next_step (c : Cron) (loc : location) (t : Z) : search :=
  let ls := local_seconds loc t in
  if negb (matches (c_month c) (local_month ls)) then
    let m := local_month ls + 1 in
    if 12 <? m then Continue (go_date loc (local_year ls + 1) 1 1 0 0)
    else Continue (go_date loc (local_year ls) m 1 0 0)
  else if negb (day_ok c ls) then
    Continue (go_date loc (local_year ls) (local_month ls) (local_mday ls + 1) 0 0)
  else if negb (matches (c_hour c) (local_hour ls)) then
    Continue (go_date loc (local_year ls) (local_month ls) (local_mday ls) (local_hour ls + 1) 0)
  else if negb (matches (c_minute c) (local_minute ls)) then Continue (t + minute)
  else Found.

(** [for t.Before(deadline) { ... }]; [None] when the fuel runs out. *)
Fixpoint next_loop (fuel : nat) (c : Cron) (loc : location) (deadline t : Z)
  : option (result cron_error Z) :=
  match fuel with
  | O => None
  | S fuel =>
      if t <? deadline then
        match next_step c loc t with
        | Found => Some (Ok t)
        | Continue t' => next_loop fuel c loc deadline t'
        end
      else Some (Err NoOccurrence)
  end.

Definition next_start (from : Z) : Z := truncate_minute (from + minute).

(** [c.Next(from, loc)], where [from] carries the location [floc]. *)
Definition Next (fuel : nat) (c : Cron) (from : Z) (floc loc : location)
  : option (result cron_error Z) :=
  next_loop fuel c loc (add_years floc from 4) (next_start from).

(** ** Parsing is correct *)

Lemma shl1_testbit v x : 0 <= v < 64 -> 0 <= x -> Z.testbit (shl1 v) x = bool_decide (x = v).
Proof.
  intros Hv Hx. unfold shl1. rewrite (proj2 (Z.leb_le _ _)), (proj2 (Z.ltb_lt _ _)) by lia. cbn.
  rewrite Z.shiftl_1_l, Z.pow2_bits_eqb by lia.
  case_bool_decide; [by apply Z.eqb_eq|by apply Z.eqb_neq].
Qed.

Lemma matches_testbit m v : 0 <= v < 64 -> matches m v = Z.testbit m v.
Proof.
  intros Hv. unfold matches.
  destruct (Z.testbit m v) eqn:E; apply eq_true_iff_eq; rewrite negb_true_iff, Z.eqb_neq;
    split; try done; intros H.
  - intros H0. assert (Z.testbit (Z.land m (shl1 v)) v = false) as Hb by (by rewrite H0, Z.testbit_0_l).
    rewrite Z.land_spec, E, shl1_testbit, bool_decide_eq_true_2 in Hb by (lia || done). done.
  - exfalso. apply H. apply Z.bits_inj'. intros x Hx. rewrite Z.land_spec, Z.testbit_0_l, shl1_testbit by lia.
    case_bool_decide; subst; [by rewrite E|by rewrite andb_false_r].
Qed.

(** The values [lo], [lo + step], ... up to [hi]. *)
Definition in_steps (lo hi step x : Z) : Prop := lo <= x <= hi /\ (x - lo) mod step = 0.

Lemma in_steps_next lo hi step x :
  0 < step -> lo <= hi -> in_steps lo hi step x <-> x = lo \/ in_steps (lo + step) hi step x.
Proof.
  unfold in_steps. intros Hs Hl. split.
  - intros [Hx Hm]. destruct (decide (x = lo)) as [|Hne]; [by left|right].
    apply Z.mod_divide in Hm as [k Hk]; [|lia].
    assert (1 <= k) by nia. split; [nia|].
    apply Z.mod_divide; [lia|]. exists (k - 1). lia.
  - intros [->|[Hx Hm]]; [rewrite Z.sub_diag, Z.mod_0_l by lia; lia|]. split; [lia|].
    apply Z.mod_divide in Hm as [k Hk]; [|lia]. apply Z.mod_divide; [lia|]. exists (k + 1). lia.
Qed.

Lemma fill_mask_spec fuel v hi step out :
  0 <= v -> 0 <= hi < 64 -> 0 < step <= int64_max - 64 ->
  (Z.to_nat (hi - v + 1) < fuel)%nat ->
  exists out', fill_mask fuel v hi step out = Some out' /\
    forall x, 0 <= x -> (Z.testbit out' x = true <-> Z.testbit out x = true \/ in_steps v hi step x).
Proof.
  intros Hv Hhi Hstep. revert v out Hv. induction fuel as [|fuel IH]; intros v out Hv Hf; [lia|].
  cbn. destruct (Z.leb_spec v hi) as [Hle|Hgt].
  - rewrite wrap64_small by (unfold int64_min, int64_max in *; lia).
    destruct (IH (v + step) (Z.lor out (shl1 v))) as (out' & -> & Hbits); [lia|lia|].
    exists out'. split; [done|]. intros x Hx.
    rewrite Hbits, Z.lor_spec, orb_true_iff, shl1_testbit, bool_decide_eq_true by lia.
    rewrite (in_steps_next v) by lia. tauto.
  - exists out. split; [done|]. intros x Hx. unfold in_steps. intuition lia.
Qed.

Definition valid_spec (s : fieldSpec) : Prop := 0 <= spec_min s <= spec_max s /\ spec_max s < 64.

Lemma parse_step_bounds p spec step q :
  parse_step p spec = Ok (step, q) -> 0 < step <= int64_max.
Proof.
  unfold parse_step. intros H.
  repeat split_match; simplify_eq; reflect_bools; try (unfold int64_max; lia);
    match goal with H : atoi _ = Some _ |- _ => apply atoi_range in H; lia end.
Qed.

Lemma parse_part_bounds p spec lo hi step :
  parse_part p spec = Ok (lo, hi, step) ->
  spec_min spec <= lo <= hi /\ hi <= spec_max spec /\ 0 < step <= int64_max.
Proof.
  unfold parse_part. intros H. destruct (trim_space p =s ""); [done|]. inv_bind.
  split_match; simplify_eq. reflect_bools. split_and!; try lia; [|apply parse_step_bounds in Ha; lia].
  apply parse_step_bounds in Ha. lia.
Qed.

(** The steps of every element leave room for the loop variable. *)
Definition steps_fit (parts : list string) (spec : fieldSpec) : Prop :=
  forall p lo hi step, p ∈ parts -> parse_part p spec = Ok (lo, hi, step) -> step <= int64_max - 64.

(** The values an expression denotes. *)
Definition denotes (parts : list string) (spec : fieldSpec) (v : Z) : Prop :=
  exists p lo hi step, p ∈ parts /\ parse_part p spec = Ok (lo, hi, step) /\ in_steps lo hi step v.

Lemma denotes_cons p ps spec lo hi step v :
  parse_part p spec = Ok (lo, hi, step) ->
  denotes (p :: ps) spec v <-> in_steps lo hi step v \/ denotes ps spec v.
Proof.
  intros Hp. unfold denotes. split.
  - intros (p' & lo' & hi' & step' & Hin & Hp' & Hs). apply elem_of_cons in Hin as [->|Hin].
    + rewrite Hp in Hp'. simplify_eq. by left.
    + right. eauto 10.
  - intros [Hs|(p' & lo' & hi' & step' & Hin & Hp' & Hs)];
      [exists p, lo, hi, step|exists p', lo', hi', step']; rewrite elem_of_cons; eauto.
Qed.

Lemma parse_parts_spec parts spec out :
  valid_spec spec -> steps_fit parts spec ->
  match parse_parts parts spec out with
  | Ok m => (forall p, p ∈ parts -> exists b, parse_part p spec = Ok b) /\
      (forall v, 0 <= v -> (Z.testbit m v = true <-> Z.testbit out v = true \/ denotes parts spec v))
  | Err e => exists p, p ∈ parts /\ parse_part p spec = Err e
  end.
Proof.
  intros Hspec. revert out. induction parts as [|p ps IH]; intros out Hfit; cbn [parse_parts].
  - split; [intros p Hp; by apply not_elem_of_nil in Hp|]. intros v Hv. unfold denotes. split; [by left|].
    intros [?|(?&?&?&?&Hin&_)]; [done|by apply not_elem_of_nil in Hin].
  - destruct (parse_part p spec) as [[[lo hi] step]|e] eqn:Hp; cbn [mbind result_bind];
      [|exists p; split; [left|done]].
    pose proof (parse_part_bounds _ _ _ _ _ Hp) as (Hlo & Hhi & Hst). destruct Hspec as [Hs1 Hs2].
    pose proof (Hfit p lo hi step ltac:(left) Hp) as Hfit'.
    destruct (fill_mask_spec mask_fuel lo hi step out) as (out' & -> & Hbits);
      [lia|lia|lia|unfold mask_fuel; lia|].
    specialize (IH out' ltac:(intros ? ? ? ? ?; eapply Hfit; by right)).
    destruct (parse_parts ps spec out') as [m|e].
    + destruct IH as [Hall Hm]. split.
      * intros p' [->|Hin]%elem_of_cons; eauto.
      * intros v Hv. rewrite Hm, Hbits, denotes_cons by done. tauto.
    + destruct IH as (p' & Hin & He). exists p'. split; [by right|done].
Qed.

Lemma denotes_in_spec parts spec v :
  denotes parts spec v -> spec_min spec <= v <= spec_max spec.
Proof.
  intros (p & lo & hi & step & _ & Hp & [? _]). pose proof (parse_part_bounds _ _ _ _ _ Hp). lia.
Qed.

(** [parseField] returns a mask exactly when every comma separated element
    is well formed, and the bits of the mask are then the values the elements
    denote: all of them, no others, and all inside the legal range of the
    field.  The [matches no values] error is never the reason of a failure.
    The hypothesis on the steps excludes those within 64 of [math.MaxInt64],
    for which the loop variable of the code overflows. *)
Theorem parseField_denotes (f : string) (spec : fieldSpec) :
  valid_spec spec -> steps_fit (split_on "," f) spec ->
  match parseField f spec with
  | Ok m =>
      (forall p, p ∈ split_on "," f -> exists b, parse_part p spec = Ok b) /\
      (forall v, 0 <= v -> (Z.testbit m v = true <-> denotes (split_on "," f) spec v)) /\
      (forall v, 0 <= v -> Z.testbit m v = true -> spec_min spec <= v <= spec_max spec)
  | Err e => exists p, p ∈ split_on "," f /\ parse_part p spec = Err e
  end.
Proof.
  intros Hspec Hfit. unfold parseField.
  pose proof (parse_parts_spec _ _ 0 Hspec Hfit) as Hp.
  destruct (parse_parts _ spec 0) as [m|e] eqn:Hm; cbn [mbind result_bind]; [|done].
  destruct Hp as [Hall Hbits].
  assert (forall v, 0 <= v -> (Z.testbit m v = true <-> denotes (split_on "," f) spec v)) as Hden.
  { intros v Hv. rewrite Hbits, Z.testbit_0_l by done. intuition done. }
  destruct (Z.eqb_spec m 0) as [->|Hne]; [exfalso|].
  - destruct (split_on "," f) as [|p ps] eqn:Hs.
    { destruct f as [|c f]; cbn in Hs; repeat case_match; done. }
    destruct (Hall p ltac:(left)) as [[[lo hi] step] Hpp].
    pose proof (parse_part_bounds _ _ _ _ _ Hpp) as (Hlo & Hhi & Hst). destruct Hspec.
    assert (denotes (p :: ps) spec lo) as Hd.
    { exists p, lo, hi, step. split_and!; [left|done|]. unfold in_steps. rewrite Z.sub_diag, Z.mod_0_l; lia. }
    apply Hden in Hd; [|lia]. by rewrite Z.testbit_0_l in Hd.
  - split_and!; [done|done|]. intros v Hv Ht%Hden; [|done]. by eapply denotes_in_spec.
Qed.

Lemma parseField_denotes_witness :
  match parseField "1-10/3,20" specHour with
  | Ok m =>
      (forall p, p ∈ split_on "," "1-10/3,20" -> exists b, parse_part p specHour = Ok b) /\
      (forall v, 0 <= v -> (Z.testbit m v = true <-> denotes (split_on "," "1-10/3,20") specHour v)) /\
      (forall v, 0 <= v -> Z.testbit m v = true -> spec_min specHour <= v <= spec_max specHour)
  | Err e => exists p, p ∈ split_on "," "1-10/3,20" /\ parse_part p specHour = Err e
  end.
Proof.
  apply (parseField_denotes "1-10/3,20" specHour).
  - unfold valid_spec. cbn. lia.
  - intros p lo hi step Hin Hp. change (split_on "," "1-10/3,20") with ["1-10/3"; "20"] in Hin.
    apply elem_of_cons in Hin as [->|Hin]; [|apply list_elem_of_singleton in Hin as ->];
      vm_compute in Hp; injection Hp as <- <- <-; vm_compute; discriminate.
Defined.

(** ** The search is correct in a zone without transitions *)

(** The wall clock of [t] in [loc] matches the expression. *)
Definition matches_at (c : Cron) (loc : location) (t : Z) : bool :=
  let ls := local_seconds loc t in
  matches (c_month c) (local_month ls) && day_ok c ls
  && matches (c_hour c) (local_hour ls) && matches (c_minute c) (local_minute ls).

Definition whole_minute (t : Z) : Prop := t mod minute = 0.

Section fixed_zone.
Context (c : Cron) (off : Z) (Hoff : off mod 60 = 0).
Let loc := fixed_zone off.

Lemma go_date_fixed y m d h mi : go_date loc y m d h mi = (civil_seconds y m d h mi 0 - off) * second.
Proof. unfold go_date, loc. by rewrite resolve_local_fixed. Qed.

Lemma local_seconds_fixed t : local_seconds loc t = t / second + off.
Proof. done. Qed.

(** The local seconds of the instants between [t] and a local reading [ls']. *)
Lemma local_seconds_between t u ls' :
  t <= u < (ls' - off) * second ->
  local_seconds loc t <= local_seconds loc u < ls'.
Proof. rewrite !local_seconds_fixed. unfold second. lia. Qed.

Lemma next_month_date ls :
  (if 12 <? local_month ls + 1 then go_date loc (local_year ls + 1) 1 1 0 0
   else go_date loc (local_year ls) (local_month ls + 1) 1 0 0)
  = ((month_start (local_month_index ls - 2 + 1) - epoch_day) * seconds_per_day - off) * second.
Proof.
  pose proof (local_month_range ls). pose proof (local_month_index_eq ls) as Hk.
  destruct (Z.ltb_spec 12 (local_month ls + 1)); rewrite go_date_fixed; unfold civil_seconds.
  - replace (12 * (local_year ls + 1) + (1 - 1) - 2) with (local_month_index ls - 2 + 1) by lia.
    f_equal. lia.
  - replace (12 * local_year ls + (local_month ls + 1 - 1) - 2)
      with (local_month_index ls - 2 + 1) by lia.
    f_equal. lia.
Qed.

Lemma next_day_date ls h :
  go_date loc (local_year ls) (local_month ls) (local_mday ls + 1) h 0
  = ((local_day ls + 1) * seconds_per_day + h * 3600 - off) * second.
Proof.
  rewrite go_date_fixed. unfold civil_seconds. rewrite local_month_index_eq. unfold local_mday.
  f_equal. unfold seconds_per_day. lia.
Qed.

Lemma same_day_date ls h :
  go_date loc (local_year ls) (local_month ls) (local_mday ls) h 0
  = (local_day ls * seconds_per_day + h * 3600 - off) * second.
Proof.
  rewrite go_date_fixed. unfold civil_seconds. rewrite local_month_index_eq. unfold local_mday.
  f_equal. unfold seconds_per_day. lia.
Qed.

(** The day fields of a reading only depend on its day. *)
Lemma same_day_fields a b :
  local_day a = local_day b ->
  local_month a = local_month b /\ day_ok c a = day_ok c b.
Proof.
  intros H. assert (local_month_index a = local_month_index b) as Hk
    by (unfold local_month_index; by rewrite H).
  unfold day_ok, local_month, local_mday, local_weekday. by rewrite H, Hk.
Qed.

Lemma whole_minute_date ls : ls mod 60 = 0 -> whole_minute ((ls - off) * second).
Proof. unfold whole_minute, minute, second in *. lia. Qed.

(** A step of the loop finds a match or moves to a later whole minute,
    skipping over nothing that matches. *)
Lemma next_step_spec t :
  whole_minute t ->
  match next_step c loc t with
  | Found => matches_at c loc t = true
  | Continue t' => t < t' /\ whole_minute t' /\
      forall u, t <= u < t' -> whole_minute u -> matches_at c loc u = false
  end.
Proof.
  intros Ht. unfold next_step, matches_at. set (ls := local_seconds loc t).
  assert (t = (ls - off) * second /\ ls mod 60 = 0) as [Htls Hls].
  { unfold ls. rewrite local_seconds_fixed. unfold whole_minute, minute, second in *. lia. }
  destruct (matches (c_month c) (local_month ls)) eqn:Hmo; cbn [negb andb].
  2:{ pose proof (local_month_bounds ls) as [_ Hend]. pose proof (next_month_date ls) as Hd.
      destruct (12 <? local_month ls + 1); rewrite Hd; split_and!;
        try (apply whole_minute_date; unfold seconds_per_day; lia);
        try (rewrite Htls; unfold local_day, second, seconds_per_day in *; lia);
        intros u Hu _; apply local_seconds_between in Hu; fold ls in Hu;
        (assert (local_month_index (local_seconds loc u) = local_month_index ls) as Hk;
          [apply local_month_index_unique; pose proof (local_month_bounds ls);
           unfold local_day, seconds_per_day in *; lia
          |unfold local_month at 1; rewrite Hk; fold (local_month ls); by rewrite Hmo]). }
  destruct (day_ok c ls) eqn:Hday; cbn [negb andb].
  2:{ rewrite next_day_date. split_and!;
        [rewrite Htls; unfold local_day, second, seconds_per_day in *; lia
        |apply whole_minute_date; unfold seconds_per_day; lia|].
      intros u Hu _. apply local_seconds_between in Hu. fold ls in Hu.
      destruct (same_day_fields (local_seconds loc u) ls) as [-> ->];
        [unfold local_day, seconds_per_day in *; lia|]. by rewrite Hday, andb_false_r. }
  destruct (matches (c_hour c) (local_hour ls)) eqn:Hh; cbn [negb andb].
  2:{ rewrite same_day_date. split_and!;
        [rewrite Htls; unfold local_day, local_hour, second, seconds_per_day in *; lia
        |apply whole_minute_date; unfold seconds_per_day; lia|].
      intros u Hu _. apply local_seconds_between in Hu. fold ls in Hu.
      replace (local_hour (local_seconds loc u)) with (local_hour ls)
        by (unfold local_day, local_hour, seconds_per_day in *; lia).
      by rewrite Hh, andb_false_r. }
  destruct (matches (c_minute c) (local_minute ls)) eqn:Hmi; cbn [negb andb]; [done|].
  split_and!; [unfold minute, second; lia|unfold whole_minute in *; unfold minute, second in *; lia|].
  intros u Hu Hwu. replace u with t by (unfold whole_minute, minute, second in *; lia).
  fold ls. by rewrite Hmi, !andb_false_r.
Qed.

Lemma next_loop_spec deadline fuel t :
  whole_minute t -> (deadline - t) / minute + 1 < Z.of_nat fuel ->
  match next_loop fuel c loc deadline t with
  | Some (Ok r) => t <= r < deadline /\ whole_minute r /\ matches_at c loc r = true /\
      forall u, t <= u < r -> whole_minute u -> matches_at c loc u = false
  | Some (Err e) => e = NoOccurrence /\
      forall u, t <= u < deadline -> whole_minute u -> matches_at c loc u = false
  | None => 0 < t - deadline + minute /\ fuel = 0%nat
  end.
Proof.
  revert t. induction fuel as [|fuel IH]; intros t Ht Hf.
  { cbn. unfold minute, second in *. lia. }
  cbn [next_loop]. destruct (Z.ltb_spec t deadline) as [Hd|Hd]; [|split; [done|lia]].
  pose proof (next_step_spec t Ht) as Hs. destruct (next_step c loc t) as [|t'].
  - split_and!; try done; lia.
  - destruct Hs as (Hlt & Hwt & Hskip).
    assert (t + minute <= t') as Hstep by (unfold whole_minute, minute, second in *; lia).
    specialize (IH t' Hwt).
    assert ((deadline - t') / minute + 1 < Z.of_nat fuel) as Hf' by (unfold minute, second in *; lia).
    specialize (IH Hf').
    destruct (next_loop fuel c loc deadline t') as [[r|e]|].
    + destruct IH as (? & ? & ? & Hmin). split_and!; try done; try lia.
      intros u Hu Hw. destruct (decide (u < t')); [apply Hskip; [lia|done]|apply Hmin; [lia|done]].
    + destruct IH as (-> & Hmin). split; [done|]. intros u Hu Hw.
      destruct (decide (u < t')); [apply Hskip; [lia|done]|apply Hmin; [lia|done]].
    + destruct IH as [? ->]. unfold minute, second in *. lia.
Qed.
End fixed_zone.

Lemma next_start_spec from :
  from < next_start from /\ whole_minute (next_start from) /\
  forall u, from < u -> whole_minute u -> next_start from <= u.
Proof.
  unfold next_start, truncate_minute, whole_minute, minute, second.
  split_and!; intros; lia.
Qed.

(** In such a zone [Next] returns, later than [from]. *)
Lemma Next_fixed_zone_returns c from floc off fuel : off mod 60 = 0 ->
  Z.max 0 ((add_years floc from 4 - from) / minute) + 2 < Z.of_nat fuel ->
  exists r, Next fuel c from floc (fixed_zone off) = Some r /\
    forall t, r = Ok t -> from < t /\ matches_at c (fixed_zone off) t = true.
Proof.
  intros Hoff Hf. unfold Next. destruct (next_start_spec from) as (Hlt & Hw & _).
  pose proof (next_loop_spec c off Hoff (add_years floc from 4) fuel (next_start from) Hw) as Hl.
  specialize (Hl ltac:(unfold minute, second in *; lia)).
  destruct (next_loop _ _ _ _ _) as [r|]; [|destruct Hl; lia]. exists r. split; [done|].
  intros t ->. split; [lia|apply Hl].
Qed.

(** C37. In a zone without transitions (UTC, or any fixed whole-minute offset)
    [Next] terminates, and its result is right: a returned time is a whole
    minute strictly after [from] and before the four-year deadline, it matches
    the expression, and no earlier whole minute does; the error is returned
    exactly when nothing before the deadline matches.  One iteration per
    minute of the search window is enough fuel. *)
Theorem Next_fixed_zone_correct (c : Cron) (from : Z) (floc : location) (off : Z) (fuel : nat) :
  off mod 60 = 0 ->
  Z.max 0 ((add_years floc from 4 - from) / minute) + 2 < Z.of_nat fuel ->
  match Next fuel c from floc (fixed_zone off) with
  | Some (Ok t) =>
      from < t < add_years floc from 4 /\ whole_minute t /\ matches_at c (fixed_zone off) t = true /\
      forall u, from < u < t -> whole_minute u -> matches_at c (fixed_zone off) u = false
  | Some (Err e) => e = NoOccurrence /\
      forall u, from < u < add_years floc from 4 -> whole_minute u ->
        matches_at c (fixed_zone off) u = false
  | None => False
  end.
Proof.
  intros Hoff Hf. unfold Next. destruct (next_start_spec from) as (Hlt & Hw & Hleast).
  pose proof (next_loop_spec c off Hoff (add_years floc from 4) fuel (next_start from) Hw) as Hl.
  specialize (Hl ltac:(unfold minute, second in *; lia)).
  destruct (next_loop _ _ _ _ _) as [[r|e]|].
  - destruct Hl as (? & ? & ? & Hmin). split_and!; try done; try lia.
    intros u Hu Hwu. apply Hmin; [|done]. split; [apply Hleast; [lia|done]|lia].
  - destruct Hl as (-> & Hmin). split; [done|]. intros u Hu Hwu. apply Hmin; [|done].
    split; [apply Hleast; [lia|done]|lia].
  - destruct Hl as [? ->]. lia.
Qed.

Lemma Next_fixed_zone_correct_witness :
  let c := mkCron 32769 65535 4294967294 8190 127 in
  let from := go_date utc 2026 5 14 10 30 in
  match Next (Z.to_nat 2103843) c from utc (fixed_zone 3600) with
  | Some (Ok t) =>
      from < t < add_years utc from 4 /\ whole_minute t /\ matches_at c (fixed_zone 3600) t = true /\
      forall u, from < u < t -> whole_minute u -> matches_at c (fixed_zone 3600) u = false
  | Some (Err e) => e = NoOccurrence /\
      forall u, from < u < add_years utc from 4 -> whole_minute u ->
        matches_at c (fixed_zone 3600) u = false
  | None => False
  end.
Proof.
  cbv zeta.
  apply (Next_fixed_zone_correct (mkCron 32769 65535 4294967294 8190 127)
    (go_date utc 2026 5 14 10 30) utc 3600 (Z.to_nat 2103843)).
  - reflexivity.
  - rewrite Z2Nat.id by discriminate. vm_compute. reflexivity.
Defined.

(** ** Transitions: spring forward *)

(** New York in 2026: UTC-5, daylight saving time from March 8, 07:00 UTC to
    November 1, 06:00 UTC. *)
Definition new_york_2026 : location := Location (-18000) [(1772953200, -14400); (1793512800, -18000)].

(** [time.Date] resolves 02:00 of March 8, which the clocks skip, to 01:00. *)
Example spring_forward_gap :
  go_date new_york_2026 2026 3 8 2 0 = go_date new_york_2026 2026 3 8 1 0.
Proof. vm_compute. reflexivity. Qed.

Lemma next_loop_stuck fuel c loc deadline t :
  t < deadline -> next_step c loc t = Continue t -> next_loop fuel c loc deadline t = None.
Proof.
  intros Hd Hs. induction fuel as [|fuel IH]; [done|]. cbn.
  rewrite (proj2 (Z.ltb_lt _ _)), Hs by done. done.
Qed.

(** The time the search is at after [n] iterations, if it is still going. *)
Fixpoint next_iter (n : nat) (c : Cron) (loc : location) (deadline t : Z) : option Z :=
  match n with
  | O => Some t
  | S n =>
      if t <? deadline then
        match next_step c loc t with
        | Found => None
        | Continue t' => next_iter n c loc deadline t'
        end
      else None
  end.

Lemma next_loop_iter n fuel c loc deadline t t' :
  next_iter n c loc deadline t = Some t' ->
  (forall fuel, next_loop fuel c loc deadline t' = None) ->
  next_loop fuel c loc deadline t = None.
Proof.
  revert fuel t. induction n as [|n IH]; intros fuel t Hi Hn; cbn in Hi; [by simplify_eq|].
  destruct fuel as [|fuel]; [done|]. cbn. repeat case_match; simplify_eq. eauto.
Qed.

(** On the day the clocks spring forward the search does not terminate: an
    [Every day at 9] schedule in New York that is due on March 7, 2026 asks
    [Next] for the following occurrence, the search reaches 01:00 of March 8,
    advances to 02:00, which [time.Date] normalises back to 01:00, and stays
    there.  No amount of fuel gives a result, so [scheduler.Runner.fire]
    never returns. *)
Theorem Next_spring_forward_diverges (fuel : nat) :
  match Parse "0 9 * * *" with
  | Ok c => Next fuel c (go_date new_york_2026 2026 3 7 9 0) utc new_york_2026 = None
  | Err _ => False
  end.
Proof.
  destruct (Parse "0 9 * * *") as [c|e] eqn:Hp; vm_compute in Hp; [|done].
  injection Hp as <-. unfold Next.
  eapply (next_loop_iter 77); [vm_compute; reflexivity|].
  intros fuel'. apply next_loop_stuck; vm_compute; reflexivity.
Qed.
