(* ===== verification/JobQueue.v ===== *)
(** * The job queue: [internal/jobqueue/jobqueue.go], [memory.go], [id.go]

    Jobs, the in-memory store, and the interface ([JobStore]) the worker pool
    and the enqueuers are written against. *)

From S2P Require Import Prelude.
From Stdlib Require Import Ascii.
Local Open Scope Z_scope.

(** ** Data *)

Inductive Status := StatusPending | StatusRunning | StatusSucceeded | StatusFailed | StatusCancelled.

#[export] Instance Status_eq_dec : EqDecision Status.
Proof. solve_decision. Defined.

Definition IsTerminal (s : Status) : bool :=
  match s with
  | StatusSucceeded | StatusFailed | StatusCancelled => true
  | _ => false
  end.

Record Job := mkJob {
  j_ID : string; j_Kind : string; j_Payload : string; j_Status : Status;
  j_Attempts : Z; j_MaxAttempts : Z; j_RunAt : Z;
  j_LockedBy : string; j_LockedAt : option Z; j_StartedAt : option Z; j_FinishedAt : option Z;
  j_LastError : string; j_ConcurrencyKey : string; j_CreatedAt : Z; j_UpdatedAt : Z
}.

(** Assignments to the fields of a job. *)
Definition set_Status v '(mkJob i k p s a m r lb la sa fa le ck ca ua) := mkJob i k p v a m r lb la sa fa le ck ca ua.
Definition set_Attempts v '(mkJob i k p s a m r lb la sa fa le ck ca ua) := mkJob i k p s v m r lb la sa fa le ck ca ua.
Definition set_RunAt v '(mkJob i k p s a m r lb la sa fa le ck ca ua) := mkJob i k p s a m v lb la sa fa le ck ca ua.
Definition set_LockedBy v '(mkJob i k p s a m r lb la sa fa le ck ca ua) := mkJob i k p s a m r v la sa fa le ck ca ua.
Definition set_LockedAt v '(mkJob i k p s a m r lb la sa fa le ck ca ua) := mkJob i k p s a m r lb v sa fa le ck ca ua.
Definition set_StartedAt v '(mkJob i k p s a m r lb la sa fa le ck ca ua) := mkJob i k p s a m r lb la v fa le ck ca ua.
Definition set_FinishedAt v '(mkJob i k p s a m r lb la sa fa le ck ca ua) := mkJob i k p s a m r lb la sa v le ck ca ua.
Definition set_LastError v '(mkJob i k p s a m r lb la sa fa le ck ca ua) := mkJob i k p s a m r lb la sa fa v ck ca ua.
Definition set_UpdatedAt v '(mkJob i k p s a m r lb la sa fa le ck ca ua) := mkJob i k p s a m r lb la sa fa le ck ca v.

Record EnqueueOptions := mkOptions {
  o_RunAt : Z; o_MaxAttempts : Z; o_ConcurrencyKey : string; o_ID : string
}.

Inductive jq_error := EmptyKind | DuplicateID (id : string) | ErrNotFound | ErrNotLocked | DatabaseError.

#[export] Instance jq_error_eq_dec : EqDecision jq_error.
Proof. solve_decision. Defined.

(** ** Identifiers *)

(** [strconv.FormatInt(n, 36)] for [0 <= n]. *)
Definition base36_digit (d : Z) : ascii :=
  ascii_of_nat (Z.to_nat (if d <? 10 then 48 + d else 87 + d)).

Fixpoint base36_fuel (fuel : nat) (n : Z) : string :=
  match fuel with
  | O => EmptyString
  | S fuel => (if n / 36 =? 0 then EmptyString else base36_fuel fuel (n / 36))
                +:+ String (base36_digit (n mod 36)) EmptyString
  end.

(** Thirteen digits are enough for every [uint64]. *)
Definition format_base36 (n : Z) : string := base36_fuel 13 n.

Definition formatID (unixNano seq : Z) : string :=
  "job_" +:+ format_base36 unixNano +:+ "_" +:+ format_base36 seq.

(** Reading the counter back off an ID: a [_] starts a new number. *)
Definition digit_value (c : ascii) : Z :=
  let n := Z.of_nat (nat_of_ascii c) in if n <? 58 then n - 48 else n - 87.

Fixpoint counter_of (acc : Z) (s : string) : Z :=
  match s with
  | EmptyString => acc
  | String c s => counter_of (if Ascii.eqb c "_" then 0 else acc * 36 + digit_value c) s
  end.

Lemma counter_of_app acc a b : counter_of acc (a +:+ b) = counter_of (counter_of acc a) b.
Proof.
  revert acc. induction a as [|c a IH]; intros acc; [done|].
  change (String c a +:+ b) with (String c (a +:+ b)). cbn [counter_of]. apply IH.
Qed.

Lemma digit_value_digit d : 0 <= d < 36 ->
  digit_value (base36_digit d) = d /\ Ascii.eqb (base36_digit d) "_" = false.
Proof.
  intros Hd.
  assert (forallb (fun d => (digit_value (base36_digit d) =? d) && negb (Ascii.eqb (base36_digit d) "_"))
    (Z.of_nat <$> seq 0 36) = true) as H by (vm_compute; reflexivity).
  rewrite forallb_forall in H. destruct (andb_prop _ _ (H d ltac:(apply list_elem_of_In, list_elem_of_fmap;
    exists (Z.to_nat d); rewrite elem_of_seq; lia))) as [H1%Z.eqb_eq H2%negb_true_iff]. done.
Qed.

Lemma counter_of_digits fuel n : 0 <= n < 36 ^ Z.of_nat fuel -> counter_of 0 (base36_fuel fuel n) = n.
Proof.
  revert n. induction fuel as [|fuel IH]; intros n Hn; [cbn in *; lia|].
  cbn [base36_fuel]. rewrite counter_of_app. pose proof (Z.mod_pos_bound n 36 ltac:(lia)) as Hm.
  pose proof (Z.div_mod n 36 ltac:(lia)) as Hdm. destruct (digit_value_digit _ Hm) as [Hv Hus].
  assert (counter_of 0 (if n / 36 =? 0 then EmptyString else base36_fuel fuel (n / 36)) = n / 36) as ->.
  { destruct (Z.eqb_spec (n / 36) 0) as [->|]; [done|]. apply IH.
    rewrite Nat2Z.inj_succ, Z.pow_succ_r in Hn by lia.
    split; [apply Z.div_pos; lia|apply Z.div_lt_upper_bound; lia]. }
  cbn [counter_of]. rewrite Hus, Hv. lia.
Qed.

(** The counter tells generated IDs apart, whatever the clock says. *)
Lemma formatID_counter now n : 0 <= n < 36 ^ 13 -> counter_of 0 (formatID now n) = n.
Proof.
  intros Hn. unfold formatID. rewrite !counter_of_app. change (counter_of _ "_") with 0.
  by apply (counter_of_digits 13).
Qed.

(** ** The in-memory store *)

(** The jobs by ID, with the package's [idCounter]. *)
Record Memory := mkMemory { m_jobs : gmap string Job; m_idCounter : Z }.

Definition NewMemory : Memory := mkMemory ∅ 0.

Definition with_jobs (m : Memory) (jobs : gmap string Job) : Memory := mkMemory jobs (m_idCounter m).

Section memory.
Context `{RO : RangeOrder}.

Definition Enqueue (m : Memory) (now : Z) (kind : string) (payload : option string)
    (opts : EnqueueOptions) : result jq_error Job * Memory :=
  if kind =s "" then (Err EmptyKind, m) else
  let runAt := if is_zero_time (o_RunAt opts) then now else o_RunAt opts in
  let maxAttempts := if o_MaxAttempts opts <=? 0 then 1 else o_MaxAttempts opts in
  let '(id, m) :=
    if o_ID opts =s "" then
      let n := m_idCounter m + 1 in (formatID now n, mkMemory (m_jobs m) n)
    else (o_ID opts, m) in
  let payload := match payload with None => "{}" | Some p => p end in
  let j := mkJob id kind payload StatusPending 0 maxAttempts runAt
             "" None None None "" (o_ConcurrencyKey opts) now now in
  match m_jobs m !! id with
  | Some _ => (Err (DuplicateID id), m)
  | None => (Ok j, with_jobs m (<[id := j]> (m_jobs m)))
  end.

(** The concurrency keys held by running jobs. *)
Definition running_keys (m : Memory) : gset string :=
  foldr (fun j ks =>
    if bool_decide (j_Status j = StatusRunning) && negb (j_ConcurrencyKey j =s "")
    then {[j_ConcurrencyKey j]} ∪ ks else ks) ∅ (range_map (m_jobs m)).*2.

Definition toSet (s : list string) : gset string :=
  list_to_set (filter (fun v => v <> "") s).

(** The [continue] guards of the scan: may this job be claimed? *)
Definition claimable (keys filter : gset string) (now : Z) (j : Job) : bool :=
  bool_decide (j_Status j = StatusPending)
  && negb (now <? j_RunAt j)
  && negb ((0 <? size filter)%nat && negb (bool_decide (j_Kind j ∈ filter)))
  && negb (negb (j_ConcurrencyKey j =s "") && bool_decide (j_ConcurrencyKey j ∈ keys)).

Definition claim (now : Z) (workerID : string) (j : Job) : Job :=
  j |> set_Status StatusRunning |> set_LockedBy workerID |> set_LockedAt (Some now)
    |> set_StartedAt (Some now) |> set_Attempts (j_Attempts j + 1) |> set_UpdatedAt now.

Definition Dequeue (m : Memory) (now : Z) (workerID : string) (kinds : list string)
    : option Job * Memory :=
  let keys := running_keys m in
  let kindFilter := toSet kinds in
  let candidates := filter (fun j => claimable keys kindFilter now j = true)
                      (range_map (m_jobs m)).*2 in
  match sort_slice (fun a b => j_RunAt a <? j_RunAt b) candidates with
  | [] => (None, m)
  | picked :: _ =>
      let j := claim now workerID picked in
      (Some j, with_jobs m (<[j_ID picked := j]> (m_jobs m)))
  end.

(** The guard shared by [Complete], [Fail] and [Reschedule]. *)
Definition owned (m : Memory) (workerID jobID : string) : result jq_error Job :=
  match m_jobs m !! jobID with
  | None => Err ErrNotFound
  | Some j =>
      if negb (j_LockedBy j =s workerID) || negb (bool_decide (j_Status j = StatusRunning))
      then Err ErrNotLocked else Ok j
  end.

Definition Complete (m : Memory) (now : Z) (workerID jobID : string) : option jq_error * Memory :=
  match owned m workerID jobID with
  | Err e => (Some e, m)
  | Ok j => (None, with_jobs m (<[jobID := j |> set_Status StatusSucceeded
      |> set_FinishedAt (Some now) |> set_LockedBy "" |> set_UpdatedAt now]> (m_jobs m)))
  end.

Definition fail_job (now : Z) (lastError : string) (j : Job) : Job :=
  j |> set_Status StatusFailed |> set_FinishedAt (Some now) |> set_LastError lastError
    |> set_LockedBy "" |> set_UpdatedAt now.

Definition Fail (m : Memory) (now : Z) (workerID jobID lastError : string)
    : option jq_error * Memory :=
  match owned m workerID jobID with
  | Err e => (Some e, m)
  | Ok j => (None, with_jobs m (<[jobID := fail_job now lastError j]> (m_jobs m)))
  end.

Definition Reschedule (m : Memory) (now : Z) (workerID jobID : string) (nextRunAt : Z)
    (lastError : string) : option jq_error * Memory :=
  match owned m workerID jobID with
  | Err e => (Some e, m)
  | Ok j =>
      let j' :=
        if j_MaxAttempts j <=? j_Attempts j then fail_job now lastError j
        else j |> set_Status StatusPending |> set_RunAt nextRunAt |> set_LastError lastError
               |> set_LockedBy "" |> set_LockedAt None |> set_StartedAt None
               |> set_UpdatedAt now in
      (None, with_jobs m (<[jobID := j']> (m_jobs m)))
  end.

Definition Get (m : Memory) (jobID : string) : result jq_error Job :=
  match m_jobs m !! jobID with
  | None => Err ErrNotFound
  | Some j => Ok j
  end.

(** [out[j.Status]++] over the jobs. *)
Definition Stats (m : Memory) : Status -> Z :=
  foldr (fun '(_, j) out st => if bool_decide (st = j_Status j) then out st + 1 else out st)
    (fun _ => 0) (range_map (m_jobs m)).

(** The jobs the retention sweep removes. *)
Definition expired (cutoff : Z) (j : Job) : bool :=
  IsTerminal (j_Status j)
  && (match j_FinishedAt j with Some t => t | None => j_UpdatedAt j end <? cutoff).

Definition DeleteOlderThan (m : Memory) (cutoff : Z) : Z * Memory :=
  let '(n, jobs) := foldl (fun '(n, jobs) '(id, j) =>
      if expired cutoff j then (n + 1, delete id jobs) else (n, jobs))
    (0, m_jobs m) (range_map (m_jobs m)) in
  (n, with_jobs m jobs).
End memory.

(** ** The interface

    What [jobqueue.Store] promises its clients.  Operations take the current
    time; the laws are the ones the worker pool relies on. *)

Class JobStore (S : Type) := {
  js_enqueue : S -> Z -> string -> option string -> EnqueueOptions -> result jq_error Job * S;
  js_dequeue : S -> Z -> string -> list string -> option Job * S;
  js_complete : S -> Z -> string -> string -> option jq_error * S;
  js_fail : S -> Z -> string -> string -> string -> option jq_error * S;
  js_reschedule : S -> Z -> string -> string -> Z -> string -> option jq_error * S;
  js_get : S -> string -> result jq_error Job;
  js_time : Z -> Z
}.
Arguments js_time S {_} _.

(** What a client that enqueues relies on: no job is touched, and an accepted one is
    there, its payload spelled the store's way. *)
Class EnqueueLaws (S : Type) `{JobStore S} (spelled : string -> string -> Prop) := {
  law_enqueue s now kind payload opts r s' : js_enqueue s now kind payload opts = (r, s') ->
    (forall id j, js_get s id = Ok j -> js_get s' id = Ok j) /\
    (forall j, r = Ok j -> exists id j', js_get s' id = Ok j' /\ j_Kind j' = kind /\ j_Status j' = StatusPending /\
       spelled (default "{}" payload) (j_Payload j') /\ j_ConcurrencyKey j' = o_ConcurrencyKey opts)
}.

(** A claimed job is visible as running, locked by its worker, one attempt
    later and within its budget; reporting its outcome succeeds and settles it
    the way the worker expects. *)
Class JobStoreLaws (S : Type) `{JobStore S} (Inv : S -> Prop) := {
  law_dequeue s now w ks j s' :
    Inv s -> js_dequeue s now w ks = (Some j, s') ->
    Inv s' /\ js_get s' (j_ID j) = Ok j /\ j_Status j = StatusRunning /\ j_LockedBy j = w /\
    1 <= j_Attempts j <= j_MaxAttempts j;
  law_complete s now w j :
    Inv s -> js_get s (j_ID j) = Ok j -> j_Status j = StatusRunning -> j_LockedBy j = w ->
    exists s' j', js_complete s now w (j_ID j) = (None, s') /\ Inv s' /\
      js_get s' (j_ID j) = Ok j' /\ j_Status j' = StatusSucceeded /\ j_Attempts j' = j_Attempts j;
  law_reschedule s now w j next err :
    Inv s -> js_get s (j_ID j) = Ok j -> j_Status j = StatusRunning -> j_LockedBy j = w ->
    exists s' j', js_reschedule s now w (j_ID j) next err = (None, s') /\ Inv s' /\
      js_get s' (j_ID j) = Ok j' /\ j_Attempts j' = j_Attempts j /\
      j_MaxAttempts j' = j_MaxAttempts j /\ j_LastError j' = err /\
      (if j_Attempts j <? j_MaxAttempts j
       then j_Status j' = StatusPending /\ j_RunAt j' = js_time S next else j_Status j' = StatusFailed)
}.

(** ** Invariant *)

(** A job is consistent with its status: attempts stay within the budget, a
    pending job has attempts left and no lock, a running job has started, a
    terminal one has a finish time. *)
Definition wf_job (j : Job) : Prop :=
  1 <= j_MaxAttempts j /\ 0 <= j_Attempts j <= j_MaxAttempts j /\
  match j_Status j with
  | StatusPending =>
      j_Attempts j < j_MaxAttempts j /\ j_LockedBy j = "" /\ j_LockedAt j = None /\ j_FinishedAt j = None
  | StatusRunning => 1 <= j_Attempts j /\ is_Some (j_LockedAt j) /\ is_Some (j_StartedAt j) /\ j_FinishedAt j = None
  | _ => j_LockedBy j = "" /\ is_Some (j_FinishedAt j)
  end.

Definition runs_with_key (j : Job) (k : string) : Prop :=
  j_Status j = StatusRunning /\ j_ConcurrencyKey j = k /\ k <> "".

Record queue_inv (m : Memory) : Prop := {
  inv_id id j : m_jobs m !! id = Some j -> j_ID j = id;
  inv_wf id j : m_jobs m !! id = Some j -> wf_job j;
  (** at most one running job per concurrency key *)
  inv_excl id1 id2 j1 j2 k :
    m_jobs m !! id1 = Some j1 -> m_jobs m !! id2 = Some j2 ->
    runs_with_key j1 k -> runs_with_key j2 k -> id1 = id2
}.

Section memory_facts.
Context `{RO : RangeOrder}.
Implicit Types m : Memory.

Lemma elem_of_running_keys m k :
  k ∈ running_keys m <-> exists id j, m_jobs m !! id = Some j /\ runs_with_key j k.
Proof.
  unfold running_keys. rewrite elem_of_fold_union. unfold runs_with_key. split.
  - intros (j & [id Hid]%elem_of_range_snd & Hc & <-). reflect_bools. eauto 10.
  - intros (id & j & Hid & Hr & <- & Hne). exists j. split_and!; [apply elem_of_range_snd; eauto| |done].
    by rewrite bool_decide_eq_true_2, (proj2 (String.eqb_neq _ _)).
Qed.

(** The scan's candidates are the claimable jobs of the store. *)
Lemma elem_of_candidates m f j :
  j ∈ filter (fun j => f j = true) (range_map (m_jobs m)).*2 <->
  f j = true /\ exists id, m_jobs m !! id = Some j.
Proof. by rewrite list_elem_of_filter, elem_of_range_snd. Qed.

Lemma toSet_empty_filter kinds : (0 <? size (toSet kinds))%nat = false <-> toSet kinds = ∅.
Proof. rewrite Nat.ltb_ge, Nat.le_0_r. rewrite size_empty_iff. by rewrite leibniz_equiv_iff. Qed.

(** The jobs a [Dequeue] may claim. *)
Definition eligible m (now : Z) (kinds : list string) (j : Job) : Prop :=
  (exists id, m_jobs m !! id = Some j) /\ j_Status j = StatusPending /\ j_RunAt j <= now /\
  (toSet kinds = ∅ \/ j_Kind j ∈ toSet kinds) /\
  (forall id' j', m_jobs m !! id' = Some j' -> ~ (runs_with_key j' (j_ConcurrencyKey j))).

Lemma eligible_claimable m now kinds j :
  eligible m now kinds j <->
  j ∈ filter (fun j => claimable (running_keys m) (toSet kinds) now j = true) (range_map (m_jobs m)).*2.
Proof.
  rewrite elem_of_candidates. unfold eligible, claimable.
  rewrite !andb_true_iff, !negb_true_iff, bool_decide_eq_true, Z.ltb_ge, !andb_false_iff,
    !negb_false_iff, !bool_decide_eq_true, bool_decide_eq_false, toSet_empty_filter, String.eqb_eq,
    elem_of_running_keys.
  split.
  - intros (Hin & Hst & Hra & Hk & Hex). split_and!; try done. right. intros (id' & j' & ? & ?). by eapply Hex.
  - intros ((((Hst & Hra) & Hk) & Hex) & Hin). split_and!; try done.
    intros id' j' Hj' Hr. destruct Hex as [He|He]; [|apply He; eauto].
    destruct Hr as (_ & _ & Hne). done.
Qed.

Lemma Dequeue_inv m now w kinds r m' :
  Dequeue m now w kinds = (r, m') ->
  match r with
  | None => m' = m /\ forall j, ~ eligible m now kinds j
  | Some j => exists p, eligible m now kinds p /\ j = claim now w p /\
      m' = with_jobs m (<[j_ID p := j]> (m_jobs m)) /\
      forall q, eligible m now kinds q -> j_RunAt p <= j_RunAt q
  end.
Proof.
  unfold Dequeue. intros H. destruct (sort_slice _ _) as [|p l] eqn:Hs; simplify_eq.
  - split; [done|]. intros j Hj%eligible_claimable. apply sort_slice_nil_inv in Hs.
    rewrite Hs in Hj. by apply not_elem_of_nil in Hj.
  - apply (sort_slice_head_min j_RunAt) in Hs as [Hin Hmin]. exists p. split_and!; try done.
    + by apply eligible_claimable.
    + intros q Hq%eligible_claimable. by apply Hmin.
Qed.

Lemma owned_inv m w id j :
  owned m w id = Ok j -> m_jobs m !! id = Some j /\ j_LockedBy j = w /\ j_Status j = StatusRunning.
Proof.
  unfold owned. intros H. repeat (case_match; simplify_eq). by reflect_bools.
Qed.
End memory_facts.

Lemma queue_inv_insert m id j :
  queue_inv m -> j_ID j = id -> wf_job j ->
  (forall k id2 j2, runs_with_key j k -> m_jobs m !! id2 = Some j2 -> runs_with_key j2 k -> id2 = id) ->
  queue_inv (with_jobs m (<[id := j]> (m_jobs m))).
Proof.
  intros Hinv Hid Hwf Hex. split; cbn.
  - intros id' j' [[<- <-]|[Hne Hl]]%lookup_insert_Some; [done|by eapply inv_id].
  - intros id' j' [[<- <-]|[Hne Hl]]%lookup_insert_Some; [done|by eapply inv_wf].
  - intros id1 id2 j1 j2 k [[<- <-]|[Hne1 Hl1]]%lookup_insert_Some
      [[<- <-]|[Hne2 Hl2]]%lookup_insert_Some Hr1 Hr2; [done| | |].
    + symmetry. by eapply Hex.
    + by eapply Hex.
    + by eapply (inv_excl m).
Qed.

Lemma queue_inv_counter m n : queue_inv m -> queue_inv (mkMemory (m_jobs m) n).
Proof. intros []. by split. Qed.

(** Replacing a job by one that is not running keeps the invariant. *)
Lemma queue_inv_settle m id j :
  queue_inv m -> j_ID j = id -> wf_job j -> j_Status j <> StatusRunning ->
  queue_inv (with_jobs m (<[id := j]> (m_jobs m))).
Proof.
  intros Hinv Hid Hwf Hns. apply queue_inv_insert; try done.
  intros k id2 j2 [? _]. done.
Qed.

#[export] Hint Resolve queue_inv_settle queue_inv_insert : cooker.

(** The sweep is a filter, and it counts what it removes. *)
Lemma DeleteOlderThan_fold (cutoff : Z) (l : list (string * Job)) (n : Z) (jobs : gmap string Job) :
  NoDup l.*1 -> (forall id j, (id, j) ∈ l -> jobs !! id = Some j) ->
  let r := foldl (fun '(n, jobs) '(id, j) =>
    if expired cutoff j then (n + 1, delete id jobs) else (n, jobs)) (n, jobs) l in
  (forall id, r.2 !! id =
     match jobs !! id with
     | Some j => if expired cutoff j && bool_decide (id ∈ l.*1) then None else Some j
     | None => None
     end) /\
  n + Z.of_nat (size jobs) = r.1 + Z.of_nat (size r.2).
Proof.
  revert n jobs. induction l as [|[id0 j0] l IH]; intros n jobs Hnd Hin; cbn.
  - split; [|done]. intros id. destruct (jobs !! id); [by rewrite andb_false_r|done].
  - apply NoDup_cons in Hnd as [Hni Hnd]. pose proof (Hin id0 j0 ltac:(left)) as Hj0.
    destruct (expired cutoff j0) eqn:He.
    + destruct (IH (n + 1) (delete id0 jobs) Hnd) as [IH1 IH2].
      { intros id j Hl. rewrite lookup_delete_ne; [apply Hin; by right|].
        intros ->. apply Hni. apply list_elem_of_fmap. by exists (id, j). }
      split.
      * intros id. rewrite IH1. destruct (decide (id = id0)) as [->|Hne].
        -- rewrite lookup_delete_eq, Hj0, He, bool_decide_eq_true_2 by (by left). done.
        -- rewrite lookup_delete_ne by done. destruct (jobs !! id); [|done].
           destruct (expired cutoff j); cbn; [|done].
           rewrite (bool_decide_ext (id ∈ l.*1) (id ∈ id0 :: l.*1)); [done|].
           rewrite elem_of_cons. intuition done.
      * rewrite <- IH2. rewrite (map_size_delete_Some id0 jobs) by (by eexists).
        assert (size jobs <> 0%nat) by (intros H0%map_size_empty_inv; subst; by rewrite lookup_empty in Hj0).
        lia.
    + destruct (IH n jobs Hnd) as [IH1 IH2]; [intros id j Hl; apply Hin; by right|].
      split; [|done]. intros id. rewrite IH1. destruct (jobs !! id) as [j|] eqn:Hj; [|done].
      destruct (expired cutoff j) eqn:Hej; cbn; [|done].
      rewrite (bool_decide_ext (id ∈ l.*1) (id ∈ id0 :: l.*1)); [done|].
      rewrite elem_of_cons. split; [by right|]. intros [->|]; [congruence|done].
Qed.

Section memory_steps.
Context `{RO : RangeOrder}.
Implicit Types m : Memory.

(** Every operation of the store, with any arguments and at any time. *)
Inductive mem_step : Memory -> Memory -> Prop :=
| step_enqueue m now kind payload opts r m' :
    Enqueue m now kind payload opts = (r, m') -> mem_step m m'
| step_dequeue m now w kinds r m' : Dequeue m now w kinds = (r, m') -> mem_step m m'
| step_complete m now w id r m' : Complete m now w id = (r, m') -> mem_step m m'
| step_fail m now w id err r m' : Fail m now w id err = (r, m') -> mem_step m m'
| step_reschedule m now w id next err r m' :
    Reschedule m now w id next err = (r, m') -> mem_step m m'
| step_sweep m cutoff n m' : DeleteOlderThan m cutoff = (n, m') -> mem_step m m'.

Lemma Enqueue_inv m now kind payload opts r m' :
  queue_inv m -> Enqueue m now kind payload opts = (r, m') -> queue_inv m'.
Proof.
  intros Hinv H. unfold Enqueue in H. pose proof (queue_inv_counter m (m_idCounter m + 1) Hinv).
  crush_branches; try done.
  all: match goal with |- queue_inv (with_jobs ?m' _) => apply (queue_inv_settle m') end; try done.
  all: unfold wf_job; cbn; reflect_bools; split_and!; try done; lia.
Qed.

Lemma Dequeue_keeps_inv m now w kinds r m' :
  queue_inv m -> Dequeue m now w kinds = (r, m') -> queue_inv m'.
Proof.
  intros Hinv H. apply Dequeue_inv in H. destruct r as [j|]; [|by destruct H as [-> _]].
  destruct H as (p & ((id & Hp) & Hst & _ & _ & Hex) & -> & -> & _).
  pose proof (inv_id m Hinv _ _ Hp) as <-. pose proof (inv_wf m Hinv _ _ Hp) as Hwf.
  apply queue_inv_insert; [done|by destruct p| |].
  - destruct p. unfold wf_job in *. cbn in *. subst. destruct_and!.
    split_and!; try done; try (by eexists); lia.
  - intros k id2 j2 (_ & Hk & Hne) Hl2 Hr2. exfalso. eapply Hex; [exact Hl2|].
    destruct p; cbn in *. by subst.
Qed.

Lemma owned_settle_inv m w id j j' :
  queue_inv m -> owned m w id = Ok j -> j_ID j' = j_ID j -> wf_job j' ->
  j_Status j' <> StatusRunning -> queue_inv (with_jobs m (<[id := j']> (m_jobs m))).
Proof.
  intros Hinv (Hl & _ & _)%owned_inv Hid Hwf Hns. apply queue_inv_settle; try done.
  rewrite Hid. by apply (inv_id m Hinv).
Qed.

Lemma owned_wf m w id j : queue_inv m -> owned m w id = Ok j -> wf_job j /\ j_ID j = id.
Proof. intros Hinv (Hl & _ & _)%owned_inv. split; [by eapply inv_wf|by eapply inv_id]. Qed.

Lemma Complete_inv m now w id r m' : queue_inv m -> Complete m now w id = (r, m') -> queue_inv m'.
Proof.
  intros Hinv H. unfold Complete in H. destruct (owned m w id) as [j|e] eqn:Ho; simplify_eq; [|done].
  destruct (owned_wf _ _ _ _ Hinv Ho) as [Hwf _].
  eapply owned_settle_inv; try done; destruct j; unfold wf_job in *; cbn in *; naive_solver.
Qed.

Lemma fail_job_wf now err j : wf_job j -> wf_job (fail_job now err j) /\
  j_ID (fail_job now err j) = j_ID j /\ j_Status (fail_job now err j) <> StatusRunning.
Proof. destruct j. unfold wf_job, fail_job. cbn. naive_solver. Qed.

Lemma Fail_inv m now w id err r m' : queue_inv m -> Fail m now w id err = (r, m') -> queue_inv m'.
Proof.
  intros Hinv H. unfold Fail in H. destruct (owned m w id) as [j|e] eqn:Ho; simplify_eq; [|done].
  destruct (owned_wf _ _ _ _ Hinv Ho) as [Hwf _]. destruct (fail_job_wf now err j Hwf) as (?&?&?).
  by eapply owned_settle_inv.
Qed.

Lemma Reschedule_inv m now w id next err r m' :
  queue_inv m -> Reschedule m now w id next err = (r, m') -> queue_inv m'.
Proof.
  intros Hinv H. unfold Reschedule in H.
  destruct (owned m w id) as [j|e] eqn:Ho; simplify_eq; [|done].
  destruct (owned_wf _ _ _ _ Hinv Ho) as [Hwf _]. destruct (fail_job_wf now err j Hwf) as (?&?&?).
  apply owned_inv in Ho as Hj. destruct Hj as (_ & _ & Hrun).
  destruct (Z.leb_spec (j_MaxAttempts j) (j_Attempts j)); eapply owned_settle_inv; try done;
    destruct j; unfold wf_job in *; cbn in *; subst; naive_solver lia.
Qed.

Lemma DeleteOlderThan_spec m cutoff n m' :
  DeleteOlderThan m cutoff = (n, m') ->
  (forall id, m_jobs m' !! id =
     match m_jobs m !! id with
     | Some j => if expired cutoff j then None else Some j
     | None => None
     end) /\ n = Z.of_nat (size (m_jobs m)) - Z.of_nat (size (m_jobs m')).
Proof.
  unfold DeleteOlderThan. intros H.
  destruct (DeleteOlderThan_fold cutoff (range_map (m_jobs m)) 0 (m_jobs m)) as [H1 H2].
  { apply NoDup_range_fst. }
  { intros id j. by rewrite elem_of_range. }
  destruct (foldl _ _ _) as [n' jobs']. simplify_eq. cbn in *. split; [|lia].
  intros id. rewrite H1. destruct (m_jobs m !! id) as [j|] eqn:Hj; [|done].
  rewrite bool_decide_eq_true_2, andb_true_r; [done|]. apply elem_of_range_fst. by eexists.
Qed.

Lemma DeleteOlderThan_inv m cutoff n m' :
  queue_inv m -> DeleteOlderThan m cutoff = (n, m') -> queue_inv m'.
Proof.
  intros Hinv [Hl _]%DeleteOlderThan_spec.
  assert (forall id j, m_jobs m' !! id = Some j -> m_jobs m !! id = Some j) as Hsub.
  { intros id j. rewrite Hl. repeat case_match; intros; by simplify_eq. }
  split; intros; [by eapply inv_id; eauto|by eapply inv_wf; eauto|].
  eapply (inv_excl m Hinv id1 id2); eauto.
Qed.

Lemma mem_step_inv m m' : queue_inv m -> mem_step m m' -> queue_inv m'.
Proof.
  intros Hinv H. revert Hinv. destruct H; intros Hinv; [eapply Enqueue_inv|eapply Dequeue_keeps_inv|eapply Complete_inv
    |eapply Fail_inv|eapply Reschedule_inv|eapply DeleteOlderThan_inv]; eassumption.
Qed.

Lemma queue_inv_empty : queue_inv NewMemory.
Proof. split; cbn; intros *; by rewrite lookup_empty. Qed.
End memory_steps.

(** ** The in-memory store implements the interface *)

Section memory_store.
Context `{RO : RangeOrder}.
Implicit Types m : Memory.

#[export] Instance Memory_JobStore : JobStore Memory := {
  js_enqueue := Enqueue;
  js_dequeue := Dequeue;
  js_complete := Complete;
  js_fail := Fail;
  js_reschedule := Reschedule;
  js_get := Get;
  js_time := fun t => t
}.

Lemma Get_Ok m id j : Get m id = Ok j <-> m_jobs m !! id = Some j.
Proof. unfold Get. destruct (m_jobs m !! id); naive_solver. Qed.

Lemma owned_Ok m w id j :
  m_jobs m !! id = Some j -> j_Status j = StatusRunning -> j_LockedBy j = w ->
  owned m w id = Ok j.
Proof.
  unfold owned. intros -> -> ->. by rewrite String.eqb_refl, bool_decide_eq_true_2.
Qed.

(** The error of the ownership guard, read off the store. *)
Lemma owned_Err m w id e :
  owned m w id = Err e <->
  (m_jobs m !! id = None /\ e = ErrNotFound) \/
  (exists j, m_jobs m !! id = Some j /\ (j_LockedBy j <> w \/ j_Status j <> StatusRunning)
             /\ e = ErrNotLocked).
Proof.
  unfold owned. destruct (m_jobs m !! id) as [j|]; [|naive_solver].
  destruct (String.eqb_spec (j_LockedBy j) w), (bool_decide_reflect (j_Status j = StatusRunning));
    cbn; naive_solver.
Qed.

#[export] Instance Memory_JobStoreLaws : JobStoreLaws Memory queue_inv.
Proof.
  split; cbn.
  - intros m now w ks j m' Hinv H. pose proof (Dequeue_keeps_inv _ _ _ _ _ _ Hinv H) as Hinv'.
    apply Dequeue_inv in H as (p & ((id & Hp) & Hst & _) & -> & -> & _).
    pose proof (inv_wf m Hinv _ _ Hp) as Hwf.
    destruct p; unfold wf_job in Hwf; cbn in *; subst. rewrite Get_Ok. cbn.
    rewrite lookup_insert_eq. split_and!; try done; lia.
  - intros m now w j Hinv Hg%Get_Ok Hst Hlk. pose proof (owned_Ok _ _ _ _ Hg Hst Hlk) as Ho.
    destruct (Complete m now w (j_ID j)) as [r m'] eqn:HC.
    pose proof (Complete_inv _ _ _ _ _ _ Hinv HC) as Hinv'.
    unfold Complete in HC. rewrite Ho in HC. simplify_eq. do 2 eexists.
    split; [reflexivity|]. rewrite Get_Ok. cbn. rewrite lookup_insert_eq. by destruct j.
  - intros m now w j next err Hinv Hg%Get_Ok Hst Hlk.
    pose proof (owned_Ok _ _ _ _ Hg Hst Hlk) as Ho.
    destruct (Reschedule m now w (j_ID j) next err) as [r m'] eqn:HR.
    pose proof (Reschedule_inv _ _ _ _ _ _ _ _ Hinv HR) as Hinv'.
    unfold Reschedule in HR. rewrite Ho in HR. simplify_eq. do 2 eexists.
    split; [reflexivity|]. rewrite Get_Ok. cbn. rewrite lookup_insert_eq. split_and!; try done.
    all: destruct j as [i k p s a mx]; cbn in *; subst.
    all: destruct (Z.leb_spec mx a), (Z.ltb_spec a mx); try lia; done.
Qed.

#[export] Instance Memory_EnqueueLaws : EnqueueLaws Memory eq.
Proof.
  split. intros m now kind payload opts r m' HE. cbn [js_enqueue js_get Memory_JobStore] in *. unfold Enqueue in HE.
  destruct (kind =s ""); [by simplify_eq|].
  destruct (if o_ID opts =s "" then _ else _) as [id m1] eqn:Hid.
  assert (m_jobs m1 = m_jobs m) as Hm by (by destruct (o_ID opts =s ""); simplify_eq). cbv zeta in HE.
  destruct (m_jobs m1 !! id) eqn:Hj; simplify_eq.
  - split; [|done]. intros id' j0 Hg%Get_Ok. apply Get_Ok. by rewrite Hm.
  - split.
    + intros id' j0 Hg%Get_Ok. apply Get_Ok. cbn. rewrite Hm in Hj |- *. rewrite lookup_insert_ne; [done|congruence].
    + intros ? [= <-]. exists id. eexists. rewrite Get_Ok. cbn. rewrite lookup_insert_eq. split; [reflexivity|]. by destruct payload.
Qed.
End memory_store.

(** ** Properties of the store *)

Section memory_properties.
Context `{RO : RangeOrder}.
Implicit Types m : Memory.

(** C35. Whatever sequence of operations built the in-memory store, every job is
    consistent with its status (attempts within the budget, a pending job
    unlocked with attempts left, a running one locked and started, a terminal
    one finished) and no two running jobs share a concurrency key. *)
Theorem reachable_queue_inv m :
  reachable (eq NewMemory) mem_step m ->
  (forall id j, m_jobs m !! id = Some j -> j_ID j = id /\ wf_job j) /\
  (forall id1 id2 j1 j2 k, m_jobs m !! id1 = Some j1 -> m_jobs m !! id2 = Some j2 ->
     runs_with_key j1 k -> runs_with_key j2 k -> id1 = id2).
Proof.
  intros H. assert (queue_inv m) as [Hid Hwf Hex].
  { revert H. apply reachable_invariant; [intros ? <-; apply queue_inv_empty|apply mem_step_inv]. }
  eauto 10.
Qed.

(** [Dequeue] claims a job exactly when some pending job is due, of a
    kind the worker handles, with no running job on its concurrency key; the
    claimed job is one of those with the earliest [RunAt], and nothing else
    in the store changes. *)
Theorem Dequeue_claims_earliest m now w kinds :
  queue_inv m ->
  match Dequeue m now w kinds with
  | (None, m') => m' = m /\ forall j, ~ eligible m now kinds j
  | (Some j, m') =>
      exists p, eligible m now kinds p /\ (forall q, eligible m now kinds q -> j_RunAt p <= j_RunAt q) /\
        j = claim now w p /\ m_jobs m' !! j_ID p = Some j /\
        forall id, id <> j_ID p -> m_jobs m' !! id = m_jobs m !! id
  end.
Proof.
  intros Hinv. destruct (Dequeue m now w kinds) as [r m'] eqn:HD. apply Dequeue_inv in HD.
  destruct r as [j|]; [|done]. destruct HD as (p & He & -> & -> & Hmin).
  exists p. split_and!; try done; cbn.
  - by rewrite lookup_insert_eq.
  - intros id Hne. by rewrite lookup_insert_ne by done.
Qed.

(** The outcome of a report that is refused. *)
Definition rejected (r : option jq_error * Memory) m w id : Prop :=
  match m_jobs m !! id with
  | None => r = (Some ErrNotFound, m)
  | Some j => (j_LockedBy j <> w \/ j_Status j <> StatusRunning) /\ r = (Some ErrNotLocked, m)
  end.

Lemma owned_or_rejected m w id :
  (exists j, owned m w id = Ok j) \/
  exists e, owned m w id = Err e /\ rejected (Some e, m) m w id.
Proof.
  destruct (owned m w id) as [j|e] eqn:Ho; [by left; eauto|right].
  exists e. split; [done|]. unfold rejected.
  apply owned_Err in Ho as [[-> ->]|(j & -> & ? & ->)]; done.
Qed.

(** Only the worker that holds a running job can settle it: a report by
    anyone else, on an unknown job, or on a job that is no longer running
    returns the documented error and leaves the store untouched.  An accepted
    report changes that job alone, and a reschedule with no attempts left is
    a terminal failure. *)
Theorem settle_owner_only m now w id next err :
  (forall j, m_jobs m !! id = Some j -> j_LockedBy j = w -> j_Status j = StatusRunning ->
     (exists j', Complete m now w id = (None, with_jobs m (<[id := j']> (m_jobs m))) /\
        j_Status j' = StatusSucceeded /\ j_FinishedAt j' = Some now) /\
     (exists j', Fail m now w id err = (None, with_jobs m (<[id := j']> (m_jobs m))) /\
        j_Status j' = StatusFailed /\ j_LastError j' = err) /\
     (exists j', Reschedule m now w id next err = (None, with_jobs m (<[id := j']> (m_jobs m))) /\
        j_LastError j' = err /\ j_LockedBy j' = "" /\
        (j_Attempts j < j_MaxAttempts j -> j_Status j' = StatusPending /\ j_RunAt j' = next) /\
        (j_MaxAttempts j <= j_Attempts j -> j_Status j' = StatusFailed))) /\
  ((forall j, m_jobs m !! id = Some j -> j_LockedBy j <> w \/ j_Status j <> StatusRunning) ->
     rejected (Complete m now w id) m w id /\ rejected (Fail m now w id err) m w id /\
     rejected (Reschedule m now w id next err) m w id).
Proof.
  unfold Complete, Fail, Reschedule. split.
  - intros j Hl Hw Hst. rewrite (owned_Ok m w id j) by done.
    split_and!; eexists; (split; [reflexivity|]); try by destruct j.
    destruct (Z.leb_spec (j_MaxAttempts j) (j_Attempts j)); destruct j; cbn in *;
      split_and!; intros; try done; lia.
  - intros Hno. destruct (owned_or_rejected m w id) as [[j Ho]|(e & -> & Hr)]; [|done].
    apply owned_inv in Ho as (Hl & ? & ?). destruct (Hno j Hl); done.
Qed.

(** The retention sweep deletes exactly the terminal jobs that finished
    (or, without a finish time, were last updated) before the cutoff, keeps
    every other job as it is, and returns the number it deleted. *)
Theorem DeleteOlderThan_exact m cutoff :
  let '(n, m') := DeleteOlderThan m cutoff in
  (forall id j, m_jobs m' !! id = Some j <-> m_jobs m !! id = Some j /\ expired cutoff j = false) /\
  n = Z.of_nat (size (filter (fun kv => expired cutoff kv.2 = true) (m_jobs m))).
Proof.
  destruct (DeleteOlderThan m cutoff) as [n m'] eqn:HD.
  destruct (DeleteOlderThan_spec _ _ _ _ HD) as [Hl Hn]. split.
  - intros id j. rewrite Hl. destruct (m_jobs m !! id) as [j'|]; [|by split; [|intros [? _]]].
    destruct (expired cutoff j') eqn:?; split; [done|intros [[= ->] ?]; congruence
      |by intros [= ->]|by intros [? _]].
  - assert (m_jobs m' = filter (fun kv => ~ expired cutoff kv.2 = true) (m_jobs m)) as Heq.
    { apply map_eq. intros id. apply option_eq. intros j. rewrite map_lookup_filter_Some, Hl. cbn.
      rewrite not_true_iff_false. destruct (m_jobs m !! id) as [j'|]; [|by split; [|intros [? _]]].
      destruct (expired cutoff j') eqn:?; split; [done|intros [[= ->] ?]; congruence
        |by intros [= ->]|by intros [? _]]. }
    rewrite Hn, Heq.
    rewrite <- (map_filter_union_complement (fun kv => expired cutoff kv.2 = true) (m_jobs m)) at 1.
    rewrite map_size_disj_union by apply map_disjoint_filter_complement. lia.
Qed.
End memory_properties.

(** ** Concrete runs *)

Section runs.
Local Existing Instance range_default.

Definition demo_options (id key : string) : EnqueueOptions := mkOptions zero_time 3 key id.

(** Two jobs on the key "app"; the first one is claimed. *)
Definition demo_queue : Memory :=
  let m1 := (Enqueue NewMemory 100 "run" None (demo_options "a" "app")).2 in
  let m2 := (Enqueue m1 101 "run" (Some "{}") (demo_options "b" "app")).2 in
  (Dequeue m2 110 "w0" ["run"]).2.

Example demo_running : j_Status <$> m_jobs demo_queue !! "a" = Some StatusRunning.
Proof. vm_compute. reflexivity. Qed.

Example demo_key_blocked : (Dequeue demo_queue 120 "w1" ["run"]).1 = None.
Proof. vm_compute. reflexivity. Qed.

Example demo_formatID : formatID 1000000000000000000 35 = "job_7lieexzx4kxs_z".
Proof. vm_compute. reflexivity. Qed.

Lemma demo_reachable : reachable (eq NewMemory) mem_step demo_queue.
Proof.
  eapply reach_step; [eapply reach_step; [eapply reach_step; [by apply reach_init|]|]|].
  - eapply step_enqueue, surjective_pairing.
  - eapply step_enqueue, surjective_pairing.
  - eapply step_dequeue, surjective_pairing.
Qed.

Lemma reachable_queue_inv_witness :
  reachable (eq NewMemory) mem_step demo_queue /\
  (forall id1 id2 j1 j2 k, m_jobs demo_queue !! id1 = Some j1 -> m_jobs demo_queue !! id2 = Some j2 ->
     runs_with_key j1 k -> runs_with_key j2 k -> id1 = id2).
Proof. split; [apply demo_reachable|exact (proj2 (reachable_queue_inv _ demo_reachable))]. Defined.

Definition demo_two : Memory :=
  (Enqueue (Enqueue NewMemory 100 "run" None (demo_options "a" "app")).2
     101 "run" None (demo_options "b" "app")).2.

Lemma demo_two_inv : queue_inv demo_two.
Proof.
  eapply Enqueue_inv; [eapply Enqueue_inv; [apply queue_inv_empty|]|]; apply surjective_pairing.
Qed.

Lemma Dequeue_claims_earliest_witness :
  exists j, (Dequeue demo_two 200 "w0" ["run"]).1 = Some j /\ j_ID j = "a" /\
    exists p, eligible demo_two 200 ["run"] p /\
      (forall q, eligible demo_two 200 ["run"] q -> j_RunAt p <= j_RunAt q) /\ j = claim 200 "w0" p.
Proof.
  pose proof (Dequeue_claims_earliest demo_two 200 "w0" ["run"] demo_two_inv) as H.
  destruct (Dequeue demo_two 200 "w0" ["run"]) as [[j|] m'] eqn:E.
  - exists j. split; [done|]. split.
    + assert (Some j = (Dequeue demo_two 200 "w0" ["run"]).1) as Hj by (by rewrite E).
      vm_compute in Hj. by injection Hj as ->.
    + destruct H as (p & He & Hmin & -> & _). eauto.
  - exfalso. apply (f_equal fst) in E. vm_compute in E. discriminate.
Defined.

Lemma settle_owner_only_witness :
  exists j', Complete demo_queue 200 "w0" "a" =
      (None, with_jobs demo_queue (<["a" := j']> (m_jobs demo_queue))) /\
    j_Status j' = StatusSucceeded.
Proof.
  destruct (m_jobs demo_queue !! "a") as [j|] eqn:E; [|vm_compute in E; discriminate].
  destruct (proj1 (settle_owner_only demo_queue 200 "w0" "a" 0 "") j E) as [(j' & Hj & Hs & _) _].
  1-2: vm_compute in E; injection E as <-; reflexivity.
  exists j'. by split.
Defined.
End runs.
