(* ===== verification/Worker.v ===== *)
(** * The worker pool: [internal/jobqueue/worker.go], [registry.go], [backoff.go]

    Handlers by kind, the retry delays, and the loop that claims a job, runs its
    handler and reports the outcome.  The pool is proved against the [JobStore]
    interface, the end-to-end retry theorem against what it promises of a lone job. *)

From S2P Require Import Prelude GoStr JobQueue.
Local Open Scope Z_scope.

(** ** Backoff *)

(** [NextDelay attempt random]; [random] is the 62-bit value read from
    [crypto/rand], [None] when the read fails. *)
Definition BackoffPolicy : Type := Z -> option Z -> Z.

Record ExponentialBackoff := mkBackoff { Base : Z; Max : Z }.

Definition DefaultBackoff : ExponentialBackoff := mkBackoff (5 * second) (5 * minute).

Definition jitter (d : Z) (random : option Z) : Z :=
  if d <=? 0 then 0 else
  match random with
  | None => 0
  | Some b => Z.land b (2 ^ 62 - 1) mod (d + 1)
  end.

Definition NextDelay (e : ExponentialBackoff) : BackoffPolicy := fun attempt random =>
  let attempt := if attempt <? 1 then 1 else attempt in
  let base := if Base e <=? 0 then second else Base e in
  let maxD := if Max e <=? 0 then 5 * minute else Max e in
  let shift := attempt - 1 in
  let shift := if 30 <? shift then 30 else shift in
  let d := wrap64 (base * Z.shiftl 1 shift) in
  let d := if (d <=? 0) || (maxD <? d) then maxD else d in
  wrap64 (d + jitter (base ÷ 2) random).

(** The documented delay: doubling from the base, capped. *)
Definition ideal_delay (e : ExponentialBackoff) (attempt : Z) : Z :=
  Z.min (Base e * 2 ^ Z.min (attempt - 1) 30) (Max e).

Lemma jitter_bounds d random : 0 <= jitter d random <= Z.max 0 d.
Proof.
  unfold jitter. destruct (Z.leb_spec d 0); [lia|]. destruct random as [b|]; [|lia].
  pose proof (Z.mod_pos_bound (Z.land b (2 ^ 62 - 1)) (d + 1) ltac:(lia)). lia.
Qed.

(** While the largest doubling fits in an [int64] (a base below 2^33 ns,
    about 8.6 s, suffices), the delay before retry [attempt] is the documented
    one, [base * 2^(attempt-1)] capped at [Max], plus a jitter of at most half
    the base. *)
Theorem NextDelay_bounds e attempt random :
  1 <= attempt -> 0 < Base e < 2 ^ 33 -> 0 < Max e < 2 ^ 62 ->
  ideal_delay e attempt <= NextDelay e attempt random <= ideal_delay e attempt + Base e / 2.
Proof.
  intros Ha HB HM. unfold NextDelay, ideal_delay.
  rewrite (proj2 (Z.ltb_ge attempt 1)), (proj2 (Z.leb_gt (Base e) 0)),
    (proj2 (Z.leb_gt (Max e) 0)) by lia. cbv zeta.
  set (sh := if 30 <? attempt - 1 then 30 else attempt - 1).
  assert (sh = Z.min (attempt - 1) 30) as -> by (unfold sh; destruct (Z.ltb_spec 30 (attempt - 1)); lia).
  rewrite Z.shiftl_1_l. set (p := 2 ^ Z.min (attempt - 1) 30).
  assert (1 <= p <= 2 ^ 30) as Hp.
  { split; [apply (Z.pow_le_mono_r 2 0)|apply Z.pow_le_mono_r]; lia. }
  pose proof (jitter_bounds (Base e ÷ 2) random) as Hj.
  rewrite Z.quot_div_nonneg in * by lia.
  assert (1 <= Base e * p < 2 ^ 63) by nia.
  rewrite (wrap64_small (Base e * p)) by (unfold int64_min, int64_max; lia).
  rewrite (proj2 (Z.leb_gt (Base e * p) 0)) by lia. cbn [orb].
  destruct (Z.ltb_spec (Max e) (Base e * p)).
  all: rewrite wrap64_small by (unfold int64_min, int64_max; lia); lia.
Qed.

Lemma NextDelay_bounds_witness :
  let d := NextDelay DefaultBackoff 3 (Some 12345678901) in
  20 * second <= d <= 20 * second + 2500 * millisecond.
Proof.
  pose proof (NextDelay_bounds DefaultBackoff 3 (Some 12345678901)
    ltac:(lia) ltac:(vm_compute; done) ltac:(vm_compute; done)) as H.
  vm_compute in H |- *. exact H.
Defined.

(** Past that bound the doubling overflows silently: with a base of
    [2^34 + 1] ns (17.2 s) and a one-hour ceiling, the delay before the 31st
    retry is 2^30 ns (1.07 s) plus jitter, below the base delay, where the
    comment promises the ceiling. *)
Theorem NextDelay_overflow :
  let e := mkBackoff (2 ^ 34 + 1) (60 * minute) in
  NextDelay e 31 None = 2 ^ 30 /\ NextDelay e 31 None < Base e /\ ideal_delay e 31 = Max e.
Proof. vm_compute. repeat split; congruence. Qed.

(** ** Handlers *)

(** How a handler ends: a returned error or a recovered panic, with its text. *)
Inductive outcome := Returned (err : option string) | Panicked (v : string).

Definition HandlerFunc : Type := Job -> outcome.

Definition Registry : Type := gmap string HandlerFunc.

Definition NewRegistry : Registry := ∅.

(** The panics of [Register]. *)
Inductive register_panic := EmptyKindPanic | NilHandler (kind : string) | DuplicateHandler (kind : string).

Definition Register (r : Registry) (kind : string) (h : option HandlerFunc)
    : result register_panic Registry :=
  if kind =s "" then Err EmptyKindPanic else
  match h with
  | None => Err (NilHandler kind)
  | Some h =>
      match r !! kind with
      | Some _ => Err (DuplicateHandler kind)
      | None => Ok (<[kind := h]> r)
      end
  end.

Definition Kinds `{RangeOrder} (r : Registry) : list string := (range_map r).*1.

Section dispatch.
(** [strconv.Quote], behind the [%q] of the error text *)
Context (quote : string -> string).

Definition Dispatch (r : Registry) (job : Job) : outcome :=
  match r !! j_Kind job with
  | None => Returned (Some ("jobqueue: no handler registered for kind " +:+ quote (j_Kind job)))
  | Some h => h job
  end.

(** The error of a dispatch once panics are recovered. *)
Definition handler_error (r : Registry) (job : Job) : option string :=
  match Dispatch r job with
  | Returned e => e
  | Panicked v => Some ("handler panic: " +:+ v)
  end.
End dispatch.

(** ** The pool *)

Record PoolOptions (S : Type) := mkPoolOptions {
  p_Store : option S; p_Registry : option Registry; p_Size : Z; p_PollEvery : Z;
  p_Backoff : option BackoffPolicy; p_WorkerIDPrefix : string
}.
Arguments mkPoolOptions {S}.
Arguments p_Store {S}. Arguments p_Registry {S}. Arguments p_Size {S}.
Arguments p_PollEvery {S}. Arguments p_Backoff {S}. Arguments p_WorkerIDPrefix {S}.

Inductive pool_error := NilStore | NilRegistry.

Definition NewPool {S} (o : PoolOptions S) : result pool_error (PoolOptions S) :=
  match p_Store o, p_Registry o with
  | None, _ => Err NilStore
  | _, None => Err NilRegistry
  | _, _ => Ok (mkPoolOptions (p_Store o) (p_Registry o)
      (if p_Size o <=? 0 then 4 else p_Size o)
      (if p_PollEvery o <=? 0 then 5 * second else p_PollEvery o)
      (match p_Backoff o with None => Some (NextDelay DefaultBackoff) | b => b end)
      (if p_WorkerIDPrefix o =s "" then "cooker" else p_WorkerIDPrefix o))
  end.

(** The identifiers of the workers [Run] starts. *)
Definition worker_ids {S} (p : PoolOptions S) : list string :=
  (fun i => p_WorkerIDPrefix p +:+ "-w" +:+ itoa (Z.of_nat i)) <$> seq 0 (Z.to_nat (p_Size p)).

(** One turn of a worker's loop: the time it asks for work, the time it reports
    the outcome, and the random value its backoff draws. *)
Record tick := mkTick { t_claim : Z; t_report : Z; t_random : option Z }.

Section pool.
Context {S : Type} `{JobStore S} (quote : string -> string).
Context (reg : Registry) (backoff : BackoffPolicy).

(** Errors of the store are logged and otherwise ignored, as in the code. *)
Definition handle (s : S) (now : Z) (random : option Z) (workerID : string) (job : Job) : S :=
  match handler_error quote reg job with
  | None => (js_complete s now workerID (j_ID job)).2
  | Some err =>
      let nextRunAt := now + backoff (j_Attempts job) random in
      (js_reschedule s now workerID (j_ID job) nextRunAt err).2
  end.

Definition run_tick (s : S) (workerID : string) (kinds : list string) (t : tick) : option Job * S :=
  match js_dequeue s (t_claim t) workerID kinds with
  | (None, s') => (None, s')
  | (Some job, s') => (Some job, handle s' (t_report t) (t_random t) workerID job)
  end.

(** The loop over the turns the context allows, with the jobs it ran. *)
Fixpoint run (s : S) (workerID : string) (kinds : list string) (ticks : list tick) : list Job * S :=
  match ticks with
  | [] => ([], s)
  | t :: ticks =>
      let '(r, s1) := run_tick s workerID kinds t in
      let '(jobs, s2) := run s1 workerID kinds ticks in
      (option_list r ++ jobs, s2)
  end.

(** The turns of the pool's workers, one after the other, each with its worker. *)
Fixpoint run_pool (s : S) (kinds : list string) (turns : list (string * tick)) : list Job * S :=
  match turns with
  | [] => ([], s)
  | (w, t) :: turns =>
      let '(r, s1) := run_tick s w kinds t in
      let '(jobs, s2) := run_pool s1 kinds turns in
      (option_list r ++ jobs, s2)
  end.

Lemma run_run_pool s w kinds ticks : run s w kinds ticks = run_pool s kinds (pair w <$> ticks).
Proof.
  revert s. induction ticks as [|t ticks IH]; intros s; [done|]. cbn. destruct (run_tick s w kinds t) as [r s1]. by rewrite IH.
Qed.

Context (Inv : S -> Prop) `{!JobStoreLaws S Inv}.

(** Against any store that keeps the interface's promises, a worker that
    claims a job settles it: a successful handler completes it, an error or a
    panic (or a kind with no handler) puts it back with the backoff delay and
    the error text while attempts are left, and fails it on the last one. *)
Theorem run_tick_settles s w kinds t job s' :
  Inv s -> run_tick s w kinds t = (Some job, s') ->
  Inv s' /\ 1 <= j_Attempts job <= j_MaxAttempts job /\
  exists j', js_get s' (j_ID job) = Ok j' /\ j_Attempts j' = j_Attempts job /\
    match handler_error quote reg job with
    | None => j_Status j' = StatusSucceeded
    | Some err =>
        j_LastError j' = err /\
        (if j_Attempts job <? j_MaxAttempts job
         then j_Status j' = StatusPending /\
              j_RunAt j' = js_time S (t_report t + backoff (j_Attempts job) (t_random t))
         else j_Status j' = StatusFailed)
    end.
Proof.
  intros Hinv Hrun. unfold run_tick in Hrun.
  destruct (js_dequeue s (t_claim t) w kinds) as [[j|] s1] eqn:HD; simplify_eq.
  destruct (law_dequeue _ _ _ _ _ _ Hinv HD) as (Hinv1 & Hget & Hst & Hlk & Hatt).
  unfold handle. destruct (handler_error quote reg job) as [err|].
  - destruct (law_reschedule _ (t_report t) _ _ (t_report t + backoff (j_Attempts job) (t_random t))
      err Hinv1 Hget Hst Hlk) as (s2 & j' & -> & Hinv2 & Hget2 & Ha & _ & Hle & Hif).
    split; [done|]. split; [done|]. exists j'. by destruct (_ <? _).
  - destruct (law_complete _ (t_report t) _ _ Hinv1 Hget Hst Hlk) as (s2 & j' & -> & ? & ? & ? & ?).
    eauto 10.
Qed.
End pool.

(** ** A job that always fails *)



(** What a store does with the only job it holds: it hands it out once it is due, to a
    worker whose kinds it can read, and not when it is not pending; a report on it is
    taken. *)
Class SoleJobLaws (S : Type) `{JobStore S} (only : S -> Job -> Prop) (reads : list string -> Prop) := {
  sole_dequeue s j now w kinds : only s j -> j_Status j = StatusPending -> j_RunAt j <= now -> j_Kind j <> "" ->
    j_Kind j ∈ kinds -> reads kinds ->
    exists s', js_dequeue s now w kinds = (Some (claim now w j), s') /\ only s' (claim now w j);
  sole_idle s j now w kinds : only s j -> j_Status j <> StatusPending -> js_dequeue s now w kinds = (None, s);
  sole_reschedule s j now w next err : only s j -> wf_job j -> j_Status j = StatusRunning -> j_LockedBy j = w ->
    exists s' j', js_reschedule s now w (j_ID j) next err = (None, s') /\ only s' j' /\ wf_job j' /\
      j_ID j' = j_ID j /\ j_Kind j' = j_Kind j /\ j_Attempts j' = j_Attempts j /\ j_MaxAttempts j' = j_MaxAttempts j /\
      (if j_MaxAttempts j <=? j_Attempts j then j_Status j' = StatusFailed
       else j_Status j' = StatusPending /\ j_RunAt j' = js_time S next)
}.

Section memory_sole.
Context `{RO : RangeOrder}.

(** The store holds this job only. *)
Definition only (m : Memory) (j : Job) : Prop := m_jobs m = {[j_ID j := j]}.

#[export] Instance Memory_SoleJobLaws : SoleJobLaws Memory only (fun _ => True).
Proof.
  split; cbn [js_dequeue js_reschedule Memory_JobStore]; unfold only.
  - intros m j now w kinds Honly Hst Hra Hne Hk _. destruct (Dequeue m now w kinds) as [r m'] eqn:E.
    assert (eligible m now kinds j) as Hel.
    { unfold eligible. rewrite Honly. split_and!; try done.
      - exists (j_ID j). apply lookup_singleton_eq.
      - right. unfold toSet. apply elem_of_list_to_set, list_elem_of_filter. done.
      - intros id' j' [_ <-]%lookup_singleton_Some [Hrun _]. congruence. }
    apply Dequeue_inv in E. destruct r as [j'|].
    + destruct E as (p & ((id & Hp) & _) & -> & -> & _). rewrite Honly in Hp.
      apply lookup_singleton_Some in Hp as [_ <-]. eexists. split; [done|].
      cbn. rewrite Honly, insert_singleton_eq. by destruct j.
    + by destruct (proj2 E j).
  - intros m j now w kinds Honly Hst. destruct (Dequeue m now w kinds) as [[j'|] m'] eqn:E; apply Dequeue_inv in E.
    + destruct E as (p & ((id & Hp) & Hpst & _) & _). rewrite Honly in Hp. apply lookup_singleton_Some in Hp as [_ <-]. done.
    + destruct E as [-> _]. done.
  - intros m j now w next err Honly Hwf Hst Hlk. unfold Reschedule. erewrite owned_Ok; [|rewrite Honly; apply lookup_singleton_eq|done..].
    eexists _, (if j_MaxAttempts j <=? j_Attempts j then fail_job now err j
      else j |> set_Status StatusPending |> set_RunAt next |> set_LastError err
             |> set_LockedBy "" |> set_LockedAt None |> set_StartedAt None |> set_UpdatedAt now).
    split; [reflexivity|]. split; [cbn; rewrite Honly, insert_singleton_eq; destruct (_ <=? _); by destruct j|]. clear Honly.
    destruct j as [i k p st a mx ra lb la sa fa le ck ca ua]. unfold wf_job in *. cbn in *. subst.
    destruct (Z.leb_spec mx a); cbn; destruct_and!; split_and!; try done; try lia; by eexists.
Qed.
End memory_sole.

Section always_failing.
Context {S : Type} `{JobStore S} {sole : S -> Job -> Prop} {reads : list string -> Prop} `{!SoleJobLaws S sole reads}.
Context (quote : string -> string) (reg : Registry) (backoff : BackoffPolicy).
Context (D : Z) (HD : forall now a r, js_time S (now + backoff a r) <= now + D).




End always_failing.

(** ** Concrete runs *)

Section runs.
Local Existing Instance range_default.

Definition demo_registry : Registry :=
  <["panics" := fun _ => Panicked "boom"]> (<["fine" := fun _ => Returned None]> NewRegistry).


Definition demo_job : Job := mkJob "x" "panics" "{}" StatusPending 0 3 0 "" None None None "" "" 0 0.

Lemma demo_enqueued :
  Enqueue NewMemory 0 "panics" None (mkOptions 0 3 "" "x") = (Ok demo_job, mkMemory {["x" := demo_job]} 0).
Proof. reflexivity. Qed.

Lemma run_tick_settles_witness :
  let m := mkMemory {["x" := demo_job]} 0 in
  exists m' j', run_tick id demo_registry (NextDelay DefaultBackoff) m "w0" ["panics"] (mkTick 0 second None)
      = (Some (claim 0 "w0" demo_job), m') /\
    js_get m' "x" = Ok j' /\ j_LastError j' = "handler panic: boom" /\
    j_RunAt j' = 6 * second.
Proof.
  intros m. assert (queue_inv m) as Hinv.
  { pose proof demo_enqueued as HE. eapply Enqueue_inv in HE; [exact HE|apply queue_inv_empty]. }
  destruct (run_tick id demo_registry (NextDelay DefaultBackoff) m "w0" ["panics"] (mkTick 0 second None))
    as [r m'] eqn:E.
  assert (r = Some (claim 0 "w0" demo_job)) as ->.
  { apply (f_equal fst) in E. vm_compute in E. vm_compute. by rewrite E. }
  destruct (run_tick_settles id demo_registry (NextDelay DefaultBackoff) queue_inv
    m "w0" ["panics"] (mkTick 0 second None) _ m' Hinv E) as (_ & _ & j' & Hg & _ & Hle & _ & Hr).
  exists m', j'. split; [done|]. split; [exact Hg|]. split; [exact Hle|].
  rewrite Hr. reflexivity.
Defined.

End runs.
