(* ===== verification/Dag.v ===== *)
(** * The DAG engine's graph: [pkg/dagrunner/dag.go]

    Nodes with their dependencies, the level-by-level topological sort, and
    validation. *)

From S2P Require Import Prelude.
Local Open Scope nat_scope.

(** ** Data *)

Record Node := mkNode { n_ID : string; n_Deps : list string }.

Record DAG := mkDAG { Nodes : gmap string Node }.

Definition NewDAG : DAG := mkDAG ∅.

Definition AddNode (d : DAG) (id : string) (deps : list string) : DAG :=
  mkDAG (<[id := mkNode id deps]> (Nodes d)).

Inductive dag_error :=
| UnknownNode (id dep : string)
| CycleDetected
| OutOfFuel (* the model's; never returned, by [TopologicalSort_decides] *).

#[export] Instance dag_error_eq_dec : EqDecision dag_error.
Proof. solve_decision. Defined.

Lemma bind_nil_all {A B} (f : A -> list B) l : (forall x, x ∈ l -> f x = []) -> l ≫= f = [].
Proof.
  induction l as [|x l IH]; intros H; [done|]. cbn. rewrite (H x) by (by left).
  apply IH. intros y Hy. apply H. by right.
Qed.

(** ** The sort *)

(** [m[k]] on a map of counters and on a map of slices: the zero value when
    the key is absent. *)
Definition deg (m : gmap string Z) (k : string) : Z := default 0%Z (m !! k).
Definition adj_of (m : gmap string (list string)) (k : string) : list string := default [] (m !! k).

(** The adjacency lists and the in-degrees. *)
Definition graph : Type := gmap string (list string) * gmap string Z.

(** [adj[dep] = append(adj[dep], id); inDegree[id]++] over a node's deps. *)
Fixpoint add_deps (nodes : gmap string Node) (id : string) (deps : list string) (g : graph)
    : result dag_error graph :=
  match deps with
  | [] => Ok g
  | dep :: deps =>
      match nodes !! dep with
      | None => Err (UnknownNode id dep)
      | Some _ =>
          let '(adj, inDegree) := g in
          add_deps nodes id deps
            (<[dep := adj_of adj dep ++ [id]]> adj, <[id := (deg inDegree id + 1)%Z]> inDegree)
      end
  end.

Fixpoint build_graph (nodes : gmap string Node) (entries : list (string * Node)) (g : graph)
    : result dag_error graph :=
  match entries with
  | [] => Ok g
  | (id, node) :: entries => add_deps nodes id (n_Deps node) g ≫= build_graph nodes entries
  end.

(** [for _, next := range adj[id] { inDegree[next]--; if == 0 append }] *)
Definition relax (inDegree : gmap string Z) (nextQueue : list string) (next : string)
    : gmap string Z * list string :=
  let v := (deg inDegree next - 1)%Z in
  (<[next := v]> inDegree, if (v =? 0)%Z then nextQueue ++ [next] else nextQueue).

Definition relax_all (succs : list string) (st : gmap string Z * list string)
    : gmap string Z * list string :=
  foldl (fun '(inDegree, nextQueue) next => relax inDegree nextQueue next) st succs.

(** One level: the body of [for _, id := range queue]. *)
Definition relax_level (adj : gmap string (list string)) (queue : list string)
    (st : gmap string Z * list string) : gmap string Z * list string :=
  foldl (fun st id => relax_all (adj_of adj id) st) st queue.

(** [for len(queue) > 0]; [None] when the fuel runs out. *)
Fixpoint level_loop (fuel : nat) (adj : gmap string (list string)) (inDegree : gmap string Z)
    (queue : list string) (levels : list (list string)) (visited : nat)
    : option (list (list string) * nat) :=
  match queue with
  | [] => Some (levels, visited)
  | _ =>
      match fuel with
      | O => None
      | S fuel =>
          let '(inDegree', nextQueue) := relax_level adj queue (inDegree, []) in
          level_loop fuel adj inDegree' nextQueue (levels ++ [queue]) (visited + length queue)
      end
  end.

Section sort.
Context `{RO : RangeOrder}.

Definition initial_degrees (d : DAG) : gmap string Z := (fun _ => 0%Z) <$> Nodes d.

Definition TopologicalSort (d : DAG) : result dag_error (list (list string)) :=
  build_graph (Nodes d) (range_map (Nodes d)) (∅, initial_degrees d) ≫= fun '(adj, inDegree) =>
  let queue := (filter (fun kv => kv.2 = 0%Z) (range_map inDegree)).*1 in
  match level_loop (size (Nodes d)) adj inDegree queue [] 0 with
  | None => Err OutOfFuel
  | Some (levels, visited) =>
      if negb (Nat.eqb visited (size (Nodes d))) then Err CycleDetected else Ok levels
  end.

(** The messages of [Validate]. *)
Inductive dag_issue := UnknownDependency (id dep : string) | SortError (e : dag_error).

Definition Validate (d : DAG) : list dag_issue :=
  (range_map (Nodes d) ≫= fun '(id, node) =>
     n_Deps node ≫= fun dep =>
       match Nodes d !! dep with None => [UnknownDependency id dep] | Some _ => [] end)
  ++ match TopologicalSort d with Err e => [SortError e] | Ok _ => [] end.

End sort.

(** ** Specification *)

(** [x] is a dependency of [y]. *)
Definition dep_edge (d : DAG) (x y : string) : Prop :=
  exists n, Nodes d !! y = Some n /\ x ∈ n_Deps n.

Definition closed (d : DAG) : Prop := forall x y, dep_edge d x y -> is_Some (Nodes d !! x).

(** Following dependencies never comes back. *)
Definition acyclic (d : DAG) : Prop := forall x, ~ tc (flip (dep_edge d)) x x.

(** Occurrences in a list. *)
Definition occ (x : string) (l : list string) : nat := length (filter (fun y => y = x) l).

Lemma occ_app x l1 l2 : occ x (l1 ++ l2) = occ x l1 + occ x l2.
Proof. unfold occ. by rewrite filter_app, length_app. Qed.

Lemma occ_cons x y l : occ x (y :: l) = (if decide (y = x) then 1 else 0) + occ x l.
Proof. unfold occ. rewrite filter_cons. by destruct (decide (y = x)). Qed.

Lemma occ_pos x l : x ∈ l <-> 0 < occ x l.
Proof.
  induction l as [|y l IH]; [split; [by intros ?%not_elem_of_nil|cbn; lia]|].
  rewrite occ_cons, elem_of_cons, IH. destruct (decide (y = x)); naive_solver lia.
Qed.

(** The dependencies of a node still waiting, once [S] has been processed. *)
Definition waiting (S : gset string) (deps : list string) : nat := length (filter (fun x => x ∉ S) deps).

Lemma waiting_insert S x deps : x ∉ S -> waiting S deps = occ x deps + waiting ({[x]} ∪ S) deps.
Proof.
  intros Hx. unfold waiting. induction deps as [|y deps IH]; [done|].
  rewrite occ_cons, !filter_cons.
  destruct (decide (y = x)) as [->|Hne].
  - rewrite decide_True by done. rewrite decide_False by set_solver. cbn. lia.
  - destruct (decide (y ∉ S)).
    + rewrite decide_True by set_solver. cbn. lia.
    + rewrite decide_False by set_solver. lia.
Qed.

Lemma waiting_zero S deps : waiting S deps = 0 <-> forall x, x ∈ deps -> x ∈ S.
Proof.
  unfold waiting. rewrite length_zero_iff_nil. induction deps as [|y deps IH]; [set_solver|].
  rewrite filter_cons. destruct (decide (y ∉ S)).
  - split; [done|]. intros H. destruct n. apply H. by left.
  - rewrite IH. split; [|set_solver]. intros H x [->|Hx]%elem_of_cons; [by apply dec_stable|by apply H].
Qed.

Lemma waiting_pos S deps : waiting S deps <> 0 -> exists x, x ∈ deps /\ (x ∉ S).
Proof.
  unfold waiting. destruct (filter _ deps) as [|x l] eqn:Hf; [done|]. intros _. exists x.
  assert (x ∈ filter (fun x => x ∉ S) deps) as Hx by (rewrite Hf; left).
  apply list_elem_of_filter in Hx. tauto.
Qed.

(** ** The graph the sort works on *)

(** [adj] and [inDegree] describe the dependencies of [deps], a function giving
    the dependencies read so far of each node. *)
Definition describes (deps : string -> list string) (g : graph) : Prop :=
  (forall x id, occ id (adj_of g.1 x) = occ x (deps id)) /\
  (forall id, deg g.2 id = Z.of_nat (length (deps id))).

(** One more dependency of [id]. *)
Definition extend (deps : string -> list string) (id : string) (ds : list string) : string -> list string :=
  fun y => if decide (y = id) then deps id ++ ds else deps y.

Lemma extend_extend deps id ds ds' y :
  extend (extend deps id ds) id ds' y = extend deps id (ds ++ ds') y.
Proof. unfold extend. destruct (decide (y = id)); [|done]. by rewrite decide_True, app_assoc. Qed.

Lemma describes_ext deps deps' g : (forall y, deps y = deps' y) -> describes deps g -> describes deps' g.
Proof. intros H [H1 H2]. split; intros; rewrite <- H; [apply H1|apply H2]. Qed.

Lemma describes_edge deps adj inDeg i dep :
  describes deps (adj, inDeg) ->
  describes (extend deps i [dep])
    (<[dep := adj_of adj dep ++ [i]]> adj, <[i := (deg inDeg i + 1)%Z]> inDeg).
Proof.
  unfold extend, describes. cbn [fst snd]. intros [Hadj Hdeg]. unfold adj_of, deg in *. split.
  - intros x y. destruct (decide (x = dep)) as [->|Hne].
    + rewrite lookup_insert_eq. cbn [default from_option id]. rewrite occ_app, occ_cons. rewrite Hadj.
      destruct (decide (i = y)) as [->|Hne'].
      * rewrite !decide_True by done. rewrite occ_app, occ_cons, decide_True by done. done.
      * rewrite (decide_False (P := y = i)) by done. cbn. lia.
    + rewrite lookup_insert_ne by done. rewrite Hadj.
      destruct (decide (y = i)) as [->|]; [|done].
      rewrite occ_app, occ_cons, decide_False by done. cbn. lia.
  - intros y. destruct (decide (y = i)) as [->|Hne].
    + rewrite lookup_insert_eq. cbn [default from_option id]. rewrite Hdeg, length_app. cbn. lia.
    + rewrite lookup_insert_ne by done. apply Hdeg.
Qed.

Lemma add_deps_spec nodes id ds : forall g deps,
  describes deps g ->
  match add_deps nodes id ds g with
  | Ok g' => (forall x, x ∈ ds -> is_Some (nodes !! x)) /\ (id ∈ dom g.2 -> dom g'.2 = dom g.2) /\
      describes (extend deps id ds) g'
  | Err e => exists dep, e = UnknownNode id dep /\ dep ∈ ds /\ nodes !! dep = None
  end.
Proof.
  induction ds as [|dep ds IH]; intros [adj inDeg] deps Hd; cbn [add_deps].
  - split; [by intros ? ?%not_elem_of_nil|]. split; [done|]. eapply describes_ext; [|exact Hd].
    intros y. unfold extend. destruct (decide (y = id)) as [->|]; [by rewrite app_nil_r|done].
  - destruct (nodes !! dep) eqn:Hn; [|exists dep; split_and!; [done|by left|done]].
    specialize (IH _ _ (describes_edge deps adj inDeg id dep Hd)).
    destruct (add_deps _ _ _ _) as [g'|e].
    + destruct IH as (Hall & Hdom & Hdesc). split; [|split].
      * intros x [->|Hx]%elem_of_cons; [by eexists|by apply Hall].
      * cbn [snd] in *. rewrite dom_insert_L in Hdom. intros Hid. rewrite Hdom; set_solver.
      * eapply describes_ext; [|exact Hdesc]. intros y. by rewrite extend_extend.
    + destruct IH as (dep' & -> & Hin & Hnone). exists dep'. split_and!; [done|by right|done].
Qed.

Lemma build_graph_spec nodes entries : forall g deps,
  describes deps g -> NoDup entries.*1 -> (forall y, y ∈ entries.*1 -> deps y = []) ->
  match build_graph nodes entries g with
  | Ok g' => (forall id n x, (id, n) ∈ entries -> x ∈ n_Deps n -> is_Some (nodes !! x)) /\
      ((forall y, y ∈ entries.*1 -> y ∈ dom g.2) -> dom g'.2 = dom g.2) /\
      exists deps', describes deps' g' /\
        (forall id n, (id, n) ∈ entries -> deps' id = n_Deps n) /\
        (forall y, y ∉ entries.*1 -> deps' y = deps y)
  | Err e => exists id n dep, e = UnknownNode id dep /\ (id, n) ∈ entries /\ dep ∈ n_Deps n /\
      nodes !! dep = None
  end.
Proof.
  induction entries as [|[id n] entries IH]; intros g deps Hd Hnd Hnil; cbn [build_graph].
  - split; [by intros ? ? ? ?%not_elem_of_nil|]. split; [done|]. exists deps.
    split_and!; [done|by intros ? ? ?%not_elem_of_nil|done].
  - apply NoDup_cons in Hnd as [Hni Hnd]. pose proof (add_deps_spec nodes id (n_Deps n) g deps Hd) as Ha.
    destruct (add_deps nodes id (n_Deps n) g) as [g1|e]; cbn.
    + destruct Ha as (Hall & Hdom & Hd1). specialize (IH g1 _ Hd1 Hnd). destruct (build_graph _ _ g1) as [g2|e].
      * destruct IH as (Hall2 & Hdom2 & deps' & Hd2 & Hin2 & Hout2).
        { intros y Hy. unfold extend. destruct (decide (y = id)) as [->|]; [done|].
          apply Hnil. by right. }
        split; [|split].
        -- intros id' n' x [[= -> ->]|Hin]%elem_of_cons Hx; [by apply Hall|by eapply Hall2].
        -- intros Hin. rewrite <- Hdom by (apply Hin; by left). apply Hdom2. intros y Hy.
           rewrite Hdom; [apply Hin; by right|apply Hin; by left].
        -- exists deps'. split_and!; [done| |].
           ++ intros id' n' [[= -> ->]|Hin]%elem_of_cons; [|by apply Hin2].
              rewrite Hout2 by done. unfold extend. rewrite decide_True by done.
              rewrite Hnil by (by left). done.
           ++ intros y Hy. apply not_elem_of_cons in Hy as [Hne Hy]. rewrite Hout2 by done.
              unfold extend. by rewrite decide_False.
      * destruct IH as (id' & n' & dep & -> & Hin & Hdep & Hnone).
        { intros y Hy. unfold extend. destruct (decide (y = id)) as [->|]; [done|].
          apply Hnil. by right. }
        exists id', n', dep. split_and!; [done|by right|done|done].
    + destruct Ha as (dep & -> & Hdep & Hnone). exists id, n, dep. split_and!; [done|by left|done|done].
Qed.

(** ** The levels *)

Lemma relax_all_spec l : forall D q,
  (forall x, x ∈ l -> (Z.of_nat (occ x l) <= deg D x)%Z) ->
  exists D' p, relax_all l (D, q) = (D', q ++ p) /\ NoDup p /\
    (forall x, deg D' x = deg D x - Z.of_nat (occ x l))%Z /\
    (forall x, x ∈ p <-> x ∈ l /\ deg D x = Z.of_nat (occ x l)).
Proof.
  induction l as [|n l IH]; intros D q Hle.
  { exists D, []. split_and!; [by rewrite app_nil_r|constructor|cbn; lia|].
    intros x. split; [by intros ?%not_elem_of_nil|by intros [?%not_elem_of_nil _]]. }
  change (relax_all (n :: l) (D, q)) with (relax_all l (relax D q n)). unfold relax.
  set (D1 := <[n := (deg D n - 1)%Z]> D).
  assert (forall x, deg D1 x = if decide (n = x) then deg D n - 1 else deg D x)%Z as HD1.
  { intros x. unfold deg, D1. destruct (decide (n = x)) as [->|]; [by rewrite lookup_insert_eq|].
    by rewrite lookup_insert_ne. }
  assert (forall x, x ∈ n :: l -> (Z.of_nat (occ x l) <= deg D1 x)%Z) as Hle1.
  { intros x Hx. specialize (Hle x Hx). rewrite HD1, occ_cons in *. destruct (decide (n = x)); subst; lia. }
  destruct (IH D1 (if (deg D n - 1 =? 0)%Z then q ++ [n] else q)) as (D' & p & -> & Hnd & HD' & Hp).
  { intros x Hx. apply Hle1. by right. }
  pose proof (Hle1 n ltac:(left)) as Hn. rewrite HD1, decide_True in Hn by done.
  assert (forall x, deg D' x = deg D x - Z.of_nat (occ x (n :: l)))%Z as Hdeg.
  { intros x. rewrite HD', HD1, occ_cons. destruct (decide (n = x)); subst; lia. }
  destruct (Z.eqb_spec (deg D n - 1) 0) as [Hz|Hz].
  - exists D', (n :: p). assert (n ∉ l) as Hnl by (rewrite occ_pos; lia).
    split_and!; [by rewrite <- app_assoc| |done|].
    + constructor; [|done]. rewrite Hp. naive_solver.
    + intros x. rewrite !elem_of_cons, Hp, HD1, occ_cons. destruct (decide (n = x)) as [->|].
      * assert (occ x l = 0) by (rewrite occ_pos in Hnl; lia). naive_solver lia.
      * cbn [Nat.add]. naive_solver.
  - exists D', p. split_and!; [done|done|done|]. intros x.
    rewrite elem_of_cons, Hp, HD1, occ_cons. destruct (decide (n = x)) as [<-|].
    + rewrite occ_pos. split; [intros []; split; [by left|lia]|intros [_ ?]; split; lia].
    + cbn [Nat.add]. naive_solver.
Qed.

Section levels.
Context (nodes : gset string) (deps : string -> list string) (adj : gmap string (list string)).
Context (Hadj : forall x id, occ id (adj_of adj x) = occ x (deps id)).
Context (Hclosed : forall id, deps id <> [] -> id ∈ nodes).

(** The in-degrees after the nodes of [S] have been processed. *)
Definition degrees_after (S : gset string) (D : gmap string Z) : Prop :=
  forall id, deg D id = Z.of_nat (waiting S (deps id)).

Lemma waiting_mono S S' ds : S ⊆ S' -> waiting S ds = 0 -> waiting S' ds = 0.
Proof. rewrite !waiting_zero. set_solver. Qed.

Lemma relax_level_spec queue : forall S D next,
  degrees_after S D -> NoDup queue -> (forall x, x ∈ queue -> x ∉ S) ->
  exists D' p, relax_level adj queue (D, next) = (D', next ++ p) /\ NoDup p /\
    degrees_after (S ∪ list_to_set queue) D' /\
    (forall x, x ∈ p <-> waiting S (deps x) <> 0 /\ waiting (S ∪ list_to_set queue) (deps x) = 0).
Proof.
  induction queue as [|id queue IH]; intros S D next HD Hnd Hnew.
  - exists D, []. rewrite list_to_set_nil, union_empty_r_L. split_and!; [by rewrite app_nil_r|constructor|done|].
    intros x. rewrite union_empty_r_L. split; [by intros ?%not_elem_of_nil|by intros [? ?]].
  - apply NoDup_cons in Hnd as [Hni Hnd]. pose proof (Hnew id ltac:(left)) as Hid.
    assert (forall y, waiting S (deps y) = occ id (deps y) + waiting ({[id]} ∪ S) (deps y)) as Hw
      by (intros; by apply waiting_insert).
    destruct (relax_all_spec (adj_of adj id) D next) as (D1 & p1 & H1 & Hnd1 & HD1 & Hp1).
    { intros y _. rewrite HD, Hadj, Hw. lia. }
    change (relax_level adj (id :: queue) (D, next))
      with (relax_level adj queue (relax_all (adj_of adj id) (D, next))). rewrite H1.
    destruct (IH ({[id]} ∪ S) D1 (next ++ p1)) as (D2 & p2 & -> & Hnd2 & HD2 & Hp2).
    { intros y. rewrite HD1, HD, Hadj, Hw. lia. }
    { done. }
    { intros y Hy. specialize (Hnew y ltac:(by right)). assert (y <> id) by (by intros ->). set_solver. }
    rewrite list_to_set_cons.
    replace (S ∪ ({[id]} ∪ list_to_set queue)) with ({[id]} ∪ S ∪ list_to_set queue : gset string) by set_solver.
    exists D2, (p1 ++ p2). split_and!; [by rewrite app_assoc| |done|].
    + apply NoDup_app. split_and!; [done| |done]. intros y [Hy1 Hy2]%Hp1 [? ?]%Hp2.
      rewrite HD, Hadj, Hw in Hy2. lia.
    + intros y. rewrite elem_of_app, Hp1, Hp2, occ_pos, HD, Hadj.
      pose proof (waiting_mono ({[id]} ∪ S) ({[id]} ∪ S ∪ list_to_set queue) (deps y) ltac:(set_solver)).
      specialize (Hw y). lia.
Qed.

(** [ls] lists, level after level, exactly the nodes all of whose dependencies
    lie in earlier levels, and stops when no node is ready. *)
Fixpoint staged (S : gset string) (ls : list (list string)) : Prop :=
  match ls with
  | [] => forall x, x ∈ nodes -> x ∉ S -> waiting S (deps x) <> 0
  | q :: ls =>
      q <> [] /\ NoDup q /\ (forall x, x ∈ q <-> x ∈ nodes /\ (x ∉ S) /\ waiting S (deps x) = 0) /\
      staged (S ∪ list_to_set q) ls
  end.

Lemma level_loop_spec fuel : forall S D queue levels visited,
  degrees_after S D -> NoDup queue ->
  (forall x, x ∈ queue <-> x ∈ nodes /\ (x ∉ S) /\ waiting S (deps x) = 0) ->
  S ⊆ nodes -> (forall x, x ∈ S -> waiting S (deps x) = 0) -> size nodes <= fuel + size S ->
  exists ls, level_loop fuel adj D queue levels visited = Some (levels ++ ls, visited + length (concat ls))
    /\ staged S ls.
Proof.
  induction fuel as [|fuel IH]; intros S D [|q0 queue] levels visited HD Hnd Hq HS Hdone Hsz.
  1,3: exists []; split; [cbn; by rewrite app_nil_r, Nat.add_0_r|];
    intros x Hx Hns Hw; by apply (not_elem_of_nil x), Hq.
  { destruct (proj1 (Hq q0) ltac:(left)) as (Hn & Hns & _).
    assert ({[q0]} ∪ S ⊆ nodes) as Hsub by set_solver.
    apply subseteq_size in Hsub. rewrite size_union, size_singleton in Hsub by set_solver. lia. }
  set (Q := q0 :: queue) in *. cbn [level_loop]. unfold Q at 1. fold Q.
  destruct (relax_level_spec Q S D [] HD Hnd) as (D' & p & -> & Hndp & HD' & Hp).
  { intros x Hx%Hq. tauto. }
  destruct (IH (S ∪ list_to_set Q) D' p (levels ++ [Q]) (visited + length Q)) as (ls & Hl & Hst);
    [done|done| | | | |].
  - intros x. rewrite Hp, not_elem_of_union, elem_of_list_to_set, Hq. split.
    + intros [Hne Hz]. split_and!; [| | |done].
      * apply Hclosed. intros Hnil. by rewrite Hnil in Hne.
      * intros Hin. by apply Hne, Hdone.
      * tauto.
    + intros (Hn & [Hns Hnq] & Hz). split; [|done]. intros Hz'. tauto.
  - intros x. rewrite elem_of_union, elem_of_list_to_set, Hq. set_solver.
  - intros x. rewrite elem_of_union, elem_of_list_to_set. intros [Hx|Hx];
      (eapply waiting_mono; [apply union_subseteq_l|]); [by apply Hdone|]. by apply Hq.
  - rewrite size_union by (intros x; rewrite elem_of_list_to_set, Hq; tauto).
    rewrite size_list_to_set by done. cbn. lia.
  - exists (Q :: ls). cbn [app]. rewrite Hl. cbn [concat].
    rewrite length_app, <- app_assoc, Nat.add_assoc. split; [done|].
    split_and!; done.
Qed.
End levels.

(** ** Correctness of the sort *)

Definition deps_of (d : DAG) (y : string) : list string :=
  match Nodes d !! y with Some n => n_Deps n | None => [] end.

Lemma dep_edge_deps_of d x y : dep_edge d x y <-> x ∈ deps_of d y.
Proof.
  unfold dep_edge, deps_of. split; [by intros (n & -> & ?)|].
  destruct (Nodes d !! y) as [n|]; [by eauto|by intros ?%not_elem_of_nil].
Qed.

Lemma deps_of_nodes d y : deps_of d y <> [] -> y ∈ dom (Nodes d).
Proof. unfold deps_of. rewrite elem_of_dom. destruct (Nodes d !! y); [by eexists|done]. Qed.

Lemma staged_ext nodes deps deps' ls : (forall y, deps y = deps' y) ->
  forall S, staged nodes deps S ls -> staged nodes deps' S ls.
Proof.
  intros Heq. induction ls as [|q ls IH]; cbn; intros S.
  - setoid_rewrite Heq. done.
  - setoid_rewrite Heq. intros (? & ? & ? & ?). auto.
Qed.

Lemma describes_init d : describes (fun _ => []) (∅, initial_degrees d).
Proof.
  split; cbn [fst snd].
  - intros. unfold adj_of. by rewrite lookup_empty.
  - intros y. unfold deg, initial_degrees. rewrite lookup_fmap. by destruct (Nodes d !! y).
Qed.

(** *** Consequences of [staged] *)

Lemma elem_of_list_concat {A} (x : A) ls : x ∈ concat ls <-> exists l, l ∈ ls /\ x ∈ l.
Proof.
  induction ls as [|l ls IH]; cbn.
  - split; [by intros ?%not_elem_of_nil|by intros (? & ?%not_elem_of_nil & _)].
  - rewrite elem_of_app, IH. setoid_rewrite elem_of_cons. split.
    + intros [?|(l' & ? & ?)]; eauto.
    + intros (l' & [->|?] & ?); eauto.
Qed.

Section staged_facts.
Context (d : DAG).
Abbreviation nodes := (dom (Nodes d)).
Abbreviation staged_d := (staged (dom (Nodes d)) (deps_of d)).

Lemma staged_nodes ls : forall S, staged_d S ls ->
  NoDup (concat ls) /\ forall x, x ∈ concat ls -> x ∈ nodes /\ (x ∉ S).
Proof.
  induction ls as [|q ls IH]; cbn; intros S.
  - intros _. split; [constructor|by intros ? ?%not_elem_of_nil].
  - intros (_ & Hnd & Hq & Hst). destruct (IH _ Hst) as [Hnd' Hin']. split.
    + apply NoDup_app. split_and!; [done| |done]. intros x Hx Hx'. apply Hin' in Hx' as [_ Hx'].
      apply Hx'. apply elem_of_union_r. by apply elem_of_list_to_set.
    + intros x [Hx|Hx]%elem_of_app; [apply Hq in Hx; tauto|].
      apply Hin' in Hx as [? Hx]. split; [done|]. intros Hs. apply Hx. by apply elem_of_union_l.
Qed.

(** Every dependency of a listed node is listed in an earlier level. *)
Lemma staged_before ls : forall S i q y x, staged_d S ls -> ls !! i = Some q -> y ∈ q ->
  x ∈ deps_of d y -> x ∈ S \/ exists j p, j < i /\ ls !! j = Some p /\ x ∈ p.
Proof.
  induction ls as [|q0 ls IH]; cbn [staged]; intros S i q y x Hst Hi Hy Hx; [done|].
  destruct Hst as (_ & _ & Hq & Hst). destruct i as [|i]; cbn in Hi; simplify_eq.
  - left. apply Hq in Hy as (_ & _ & Hw). rewrite waiting_zero in Hw. by apply Hw.
  - destruct (IH _ _ _ _ _ Hst Hi Hy Hx) as [[?|Hin]%elem_of_union|(j & p & ? & ? & ?)].
    + by left.
    + right. exists 0, q0. rewrite elem_of_list_to_set in Hin. split_and!; [lia|done|done].
    + right. exists (Datatypes.S j), p. split_and!; [lia|done|done].
Qed.

Lemma staged_prefix past rest S y x : staged_d S (past ++ rest) -> y ∈ concat past ->
  x ∈ deps_of d y -> x ∈ S \/ x ∈ concat past.
Proof.
  intros Hst (q & [i Hi]%list_elem_of_lookup & Hy)%elem_of_list_concat Hx.
  destruct (staged_before _ S i q y x Hst (lookup_app_l_Some _ _ _ _ Hi) Hy Hx)
    as [?|(j & p & Hj & Hp & Hxp)]; [by left|right].
  apply elem_of_list_concat. exists p. split; [|done]. apply list_elem_of_lookup. exists j.
  rewrite lookup_app_l in Hp; [done|]. apply lookup_lt_Some in Hi. lia.
Qed.

Lemma staged_current past cur rest S y x : staged_d S (past ++ cur :: rest) -> y ∈ cur ->
  x ∈ deps_of d y -> x ∈ S \/ x ∈ concat past.
Proof.
  intros Hst Hy Hx. destruct (staged_before _ S (length past) cur y x Hst (list_lookup_middle _ _ _ _ eq_refl) Hy Hx)
    as [?|(j & p & Hj & Hp & Hxp)]; [by left|right].
  apply elem_of_list_concat. exists p. split; [|done]. apply list_elem_of_lookup. exists j.
  by rewrite lookup_app_l in Hp.
Qed.

(** A node of a later level has a dependency in the level just before. *)
Lemma staged_tight ls : forall S i q q' y, staged_d S ls -> ls !! i = Some q ->
  ls !! Datatypes.S i = Some q' -> y ∈ q' -> exists x, x ∈ deps_of d y /\ x ∈ q.
Proof.
  induction ls as [|q0 ls IH]; cbn [staged]; intros S i q q' y Hst Hi Hi' Hy; [done|].
  destruct Hst as (_ & _ & Hq & Hst). destruct i as [|i]; cbn in Hi, Hi'; simplify_eq; [|by eapply IH].
  destruct ls as [|q1 ls]; cbn in Hi'; simplify_eq. destruct Hst as (_ & _ & Hq' & _).
  apply Hq' in Hy as (Hn & [Hns Hnq]%not_elem_of_union & Hw). rewrite elem_of_list_to_set, Hq in Hnq.
  destruct (waiting_pos S (deps_of d y)) as (x & Hx & HxS); [tauto|].
  exists x. split; [done|]. rewrite waiting_zero in Hw. specialize (Hw x Hx). set_solver.
Qed.

(** Nodes left over each wait for another node left over. *)
Lemma staged_stuck ls : forall S, staged_d S ls ->
  forall x, x ∈ nodes -> x ∉ S -> x ∉ concat ls ->
  exists y, y ∈ deps_of d x /\ (y ∉ S) /\ (y ∉ concat ls).
Proof.
  induction ls as [|q ls IH]; cbn; intros S Hst x Hx HxS Hxl.
  - destruct (waiting_pos S (deps_of d x)) as (y & Hy & HyS); [by apply Hst|].
    exists y. split_and!; [done|done|apply not_elem_of_nil].
  - destruct Hst as (_ & _ & _ & Hst). rewrite not_elem_of_app in Hxl. destruct Hxl as [Hxq Hxl].
    destruct (IH _ Hst x Hx) as (y & Hy & HyS & Hyl); [|done|].
    { rewrite not_elem_of_union, elem_of_list_to_set. done. }
    rewrite not_elem_of_union, elem_of_list_to_set in HyS. exists y. rewrite not_elem_of_app. tauto.
Qed.

(** Listed nodes are accessible along their dependencies. *)
Lemma staged_acc ls : forall S, staged_d S ls ->
  (forall x, x ∈ S -> Acc (dep_edge d) x) -> forall x, x ∈ concat ls -> Acc (dep_edge d) x.
Proof.
  induction ls as [|q ls IH]; cbn; intros S Hst HS x Hx; [by apply not_elem_of_nil in Hx|].
  destruct Hst as (_ & _ & Hq & Hst).
  assert (forall y, y ∈ q -> Acc (dep_edge d) y) as Hacc.
  { intros y (_ & _ & Hw)%Hq. constructor. intros z Hz%dep_edge_deps_of.
    rewrite waiting_zero in Hw. by apply HS, Hw. }
  apply elem_of_app in Hx as [Hx|Hx]; [by apply Hacc|]. eapply IH; [exact Hst| |done].
  intros y [Hy|Hy%elem_of_list_to_set]%elem_of_union; auto.
Qed.

Lemma acc_no_cycle x : Acc (dep_edge d) x -> ~ tc (flip (dep_edge d)) x x.
Proof.
  induction 1 as [x _ IH]. intros Htc. inversion Htc as [? ? Hxx|? y ? Hxy Hyx]; subst.
  - by apply (IH x Hxx).
  - apply (IH y Hxy). by eapply tc_r.
Qed.

(** In a closed acyclic graph every node is accessible. *)
Lemma acyclic_acc : closed d -> acyclic d -> forall x, x ∈ nodes -> Acc (dep_edge d) x.
Proof.
  intros Hcl Hac x _. refine (tc_finite_sn (R := flip (dep_edge d)) x _ _).
  - intros y. apply Hac.
  - exists (elements nodes). intros y Hy. apply elem_of_elements, elem_of_dom.
    induction Hy as [? ? Hxy|]; [by eapply Hcl|done].
Qed.

Lemma acc_listed S ls x : staged_d S ls -> closed d -> Acc (dep_edge d) x -> x ∈ nodes -> x ∉ S ->
  x ∈ concat ls.
Proof.
  intros Hst Hcl. induction 1 as [x _ IH]. intros Hx HxS. apply dec_stable. intros Hxl.
  destruct (staged_stuck ls S Hst x Hx HxS Hxl) as (y & Hy & HyS & Hyl).
  apply Hyl, IH; [by apply dep_edge_deps_of| |done].
  apply elem_of_dom. eapply Hcl. by apply dep_edge_deps_of.
Qed.
End staged_facts.

Section correctness.
Context `{RO : RangeOrder}.

(** What the sort returns, in terms of [staged]. *)
Definition sort_outcome (d : DAG) (r : result dag_error (list (list string))) : Prop :=
  match r with
  | Ok levels => closed d /\ staged (dom (Nodes d)) (deps_of d) ∅ levels /\
      length (concat levels) = size (Nodes d)
  | Err (UnknownNode id dep) => dep_edge d dep id /\ Nodes d !! dep = None
  | Err CycleDetected => closed d /\ exists levels, staged (dom (Nodes d)) (deps_of d) ∅ levels /\
      length (concat levels) <> size (Nodes d)
  | Err OutOfFuel => False
  end.

(** The queue the loop starts from. *)
Lemma initial_queue (D : gmap string Z) (nodes : gset string) deps :
  dom D = nodes -> (forall id, deg D id = Z.of_nat (length (deps id))) ->
  forall x, x ∈ (filter (fun kv : string * Z => kv.2 = 0%Z) (range_map D)).*1 <->
    x ∈ nodes /\ (x ∉ (∅ : gset string)) /\ waiting ∅ (deps x) = 0.
Proof.
  intros <- Hdeg x. assert (waiting ∅ (deps x) = length (deps x)) as ->.
  { unfold waiting. f_equal. induction (deps x) as [|y l IH]; [done|].
    rewrite filter_cons, decide_True by set_solver. by f_equal. }
  specialize (Hdeg x). unfold deg in Hdeg. rewrite list_elem_of_fmap, elem_of_dom. split.
  - intros ([k v] & -> & [Hv Hin]%list_elem_of_filter). cbn in *. apply elem_of_range in Hin.
    rewrite Hin in Hdeg. cbn in Hdeg. split_and!; [by eexists|set_solver|lia].
  - intros ([v Hv] & _ & Hz). rewrite Hv in Hdeg. cbn in Hdeg. exists (x, v). split; [done|].
    apply list_elem_of_filter. cbn. rewrite elem_of_range. split; [lia|done].
Qed.

Lemma TopologicalSort_outcome d : sort_outcome d (TopologicalSort d).
Proof.
  unfold TopologicalSort.
  pose proof (build_graph_spec (Nodes d) (range_map (Nodes d)) (∅, initial_degrees d) (fun _ => [])
    (describes_init d) (NoDup_range_fst _) ltac:(done)) as Hb.
  destruct (build_graph _ _ _) as [[adj D]|e]; cbn [mbind result_bind].
  - destruct Hb as (Hcl & Hdom & deps & [Hadj Hdeg] & Hin & Hout). cbn [fst snd] in *.
    assert (dom D = dom (Nodes d)) as HdomD.
    { rewrite Hdom; [|intros y [n Hn]%elem_of_range_fst]; unfold initial_degrees; rewrite dom_fmap_L; [done|].
      apply elem_of_dom. by eexists. }
    assert (forall y, deps y = deps_of d y) as Heq.
    { intros y. unfold deps_of. destruct (Nodes d !! y) as [n|] eqn:Hn.
      - apply Hin. by apply elem_of_range.
      - apply Hout. rewrite elem_of_range_fst, Hn. by intros []. }
    assert (closed d) as Hclosed.
    { intros x y (n & Hn & Hx). eapply Hcl; [|exact Hx]. by apply elem_of_range. }
    pose proof (initial_queue D _ deps HdomD Hdeg) as Hq.
    destruct (level_loop_spec (dom (Nodes d)) deps adj Hadj) with (fuel := size (Nodes d))
      (S := (∅ : gset string)) (D := D) (queue := (filter (fun kv : string * Z => kv.2 = 0%Z) (range_map D)).*1)
      (levels := @nil (list string)) (visited := 0) as (ls & -> & Hst); try done.
    { intros y. rewrite Heq. apply deps_of_nodes. }
    { intros y. rewrite Hdeg. f_equal. unfold waiting. f_equal. symmetry.
      induction (deps y) as [|z l IH]; [done|]. rewrite filter_cons, decide_True by set_solver. by f_equal. }
    { eapply sublist_NoDup; [apply (NoDup_range_fst D)|]. apply fmap_sublist, sublist_filter. }
    { rewrite size_dom. lia. }
    apply (staged_ext _ _ _ _ Heq) in Hst. cbn [app Nat.add].
    destruct (Nat.eqb_spec (length (concat ls)) (size (Nodes d))); cbn; [done|]. eauto.
  - destruct Hb as (id & n & dep & -> & Hin & Hdep & Hnone). cbn. split; [|done].
    exists n. split; [by apply elem_of_range|done].
Qed.
(** With as many nodes listed as there are, every node is listed. *)
Lemma staged_all d levels : staged (dom (Nodes d)) (deps_of d) ∅ levels ->
  length (concat levels) = size (dom (Nodes d)) -> forall x, x ∈ dom (Nodes d) -> x ∈ concat levels.
Proof.
  intros Hst Hlen x Hx. destruct (staged_nodes d levels ∅ Hst) as [Hnd Hin].
  rewrite <- (elem_of_list_to_set (C := gset string)).
  rewrite (set_subseteq_size_eq (list_to_set (concat levels)) (dom (Nodes d))); [done| |].
  - intros y. rewrite elem_of_list_to_set. apply Hin.
  - rewrite size_list_to_set by done. lia.
Qed.

Lemma staged_nonempty nodes deps ls : forall S, staged nodes deps S ls -> forall q, q ∈ ls -> q <> [].
Proof.
  induction ls as [|q0 ls IH]; cbn; intros S; [by intros _ q ?%not_elem_of_nil|].
  intros (Hne & _ & _ & Hst) q [->|Hq]%elem_of_cons; [done|by eapply IH].
Qed.

Lemma outcome_acyclic d levels : sort_outcome d (Ok levels) -> closed d /\ acyclic d.
Proof.
  intros (Hcl & Hst & Hlen). rewrite <- size_dom in Hlen. split; [done|]. intros x Hc.
  assert (x ∈ dom (Nodes d)) as Hx.
  { apply elem_of_dom. by inversion Hc as [? ? (n & Hn & _)|? y ? (n & Hn & _) _]; subst; eexists. }
  apply (acc_no_cycle d x); [|done]. eapply staged_acc; [exact Hst|set_solver|].
  by apply (staged_all d levels).
Qed.

Lemma outcome_cyclic d : sort_outcome d (Err CycleDetected) -> closed d /\ ~ acyclic d.
Proof.
  intros (Hcl & levels & Hst & Hlen). split; [done|]. intros Hac. apply Hlen.
  destruct (staged_nodes d levels ∅ Hst) as [Hnd Hin].
  rewrite <- size_dom, <- (size_list_to_set (C := gset string)) by done. f_equal. apply set_eq.
  intros x. rewrite elem_of_list_to_set. split; [apply Hin|]. intros Hx.
  apply (acc_listed d ∅ levels x Hst Hcl); [by apply acyclic_acc|done|set_solver].
Qed.

Lemma Validate_nil d : Validate d = [] <-> exists levels, TopologicalSort d = Ok levels.
Proof.
  unfold Validate. pose proof (TopologicalSort_outcome d) as Ho. destruct (TopologicalSort d) as [levels|e].
  - destruct Ho as (Hcl & _ & _). split; [by eauto|]. intros _. rewrite app_nil_r.
    apply bind_nil_all. intros [id n] Hin%elem_of_range. apply bind_nil_all. intros dep Hdep.
    destruct (Hcl dep id) as [n' ->]; [by exists n|done].
  - split; [|by intros [? [=]]]. intros Hn. by apply app_nil in Hn as [_ ?].
Qed.

(** When the sort succeeds, its levels list every node exactly once, no
    level is empty, every dependency of a node lies in a strictly earlier level,
    and no node could run earlier: each node after the first level has a
    dependency in the level right before its own. *)
Theorem TopologicalSort_levels d levels :
  TopologicalSort d = Ok levels ->
  NoDup (concat levels) /\ (forall x, x ∈ concat levels <-> is_Some (Nodes d !! x)) /\
  (forall q, q ∈ levels -> q <> []) /\
  (forall i q y x, levels !! i = Some q -> y ∈ q -> dep_edge d x y ->
     exists j p, j < i /\ levels !! j = Some p /\ x ∈ p) /\
  (forall i q q' y, levels !! i = Some q -> levels !! S i = Some q' -> y ∈ q' ->
     exists x, dep_edge d x y /\ x ∈ q).
Proof.
  intros H. pose proof (TopologicalSort_outcome d) as Ho. rewrite H in Ho.
  destruct Ho as (_ & Hst & Hlen). destruct (staged_nodes d levels ∅ Hst) as [Hnd Hin].
  split_and!; [done| | | |].
  - intros x. rewrite <- elem_of_dom. split; [apply Hin|].
    apply (staged_all d levels Hst). by rewrite Hlen, size_dom.
  - by eapply staged_nonempty.
  - intros i q y x Hi Hy Hx%dep_edge_deps_of.
    by destruct (staged_before d levels ∅ i q y x Hst Hi Hy Hx) as [?%not_elem_of_empty|].
  - intros i q q' y Hi Hi' Hy. setoid_rewrite dep_edge_deps_of. by eapply staged_tight.
Qed.

(** C40. The sort decides: it succeeds exactly on graphs whose dependencies all
    exist and that have no cycle, reports a cycle exactly when the dependencies
    exist and there is one, and otherwise names a dependency that is missing;
    [Validate] is silent exactly when the sort succeeds. *)
Theorem TopologicalSort_decides d :
  ((exists levels, TopologicalSort d = Ok levels) <-> closed d /\ acyclic d) /\
  (TopologicalSort d = Err CycleDetected <-> closed d /\ ~ acyclic d) /\
  ((exists id dep, TopologicalSort d = Err (UnknownNode id dep) /\ dep_edge d dep id /\ Nodes d !! dep = None)
     <-> ~ closed d) /\
  (Validate d = [] <-> closed d /\ acyclic d).
Proof.
  pose proof (TopologicalSort_outcome d) as Ho.
  pose proof (Validate_nil d) as Hv.
  destruct (TopologicalSort d) as [levels|[id dep| |]]; [| | |done].
  - pose proof (outcome_acyclic d levels Ho) as [Hcl Hac].
    split_and!; [split; [done|by eauto]|split; [done|tauto]|split; [by intros (? & ? & [=] & _)|tauto]|].
    rewrite Hv. split; [done|]. by eauto.
  - destruct Ho as [He Hn].
    assert (~ closed d) as Hcl by (intros Hcl; destruct (Hcl _ _ He); congruence).
    split_and!; [split; [by intros [? [=]]|tauto]|split; [done|tauto]|split; [done|by eauto 10]|].
    rewrite Hv. split; [by intros [? [=]]|tauto].
  - pose proof (outcome_cyclic d Ho) as [Hcl Hac].
    split_and!; [split; [by intros [? [=]]|tauto]|split; [done|done]|split; [by intros (? & ? & [=] & _)|tauto]|].
    rewrite Hv. split; [by intros [? [=]]|tauto].
Qed.
End correctness.

(** ** Concrete graphs *)

Section runs.
Local Existing Instance range_default.

(** A diamond, with a doubled edge, and a two-cycle. *)
Definition diamond : DAG :=
  AddNode (AddNode (AddNode (AddNode NewDAG "a" []) "b" ["a"; "a"]) "c" ["a"]) "d" ["b"; "c"].

Definition two_cycle : DAG := AddNode (AddNode NewDAG "a" ["b"]) "b" ["a"].

Example two_cycle_sort : TopologicalSort two_cycle = Err CycleDetected.
Proof. vm_compute. reflexivity. Qed.

Example dangling_sort : TopologicalSort (AddNode two_cycle "b" ["x"]) = Err (UnknownNode "b" "x").
Proof. vm_compute. reflexivity. Qed.

Lemma TopologicalSort_levels_witness :
  exists b c, TopologicalSort diamond = Ok [["a"]; [b; c]; ["d"]] /\
    NoDup ["a"; b; c; "d"] /\ is_Some (Nodes diamond !! b).
Proof.
  destruct (TopologicalSort diamond) as [l|] eqn:E; [|vm_compute in E; discriminate].
  destruct (TopologicalSort_levels diamond l E) as (Hnd & Hin & _).
  vm_compute in E. injection E as <-. do 2 eexists. split; [reflexivity|].
  split; [exact Hnd|]. apply Hin. cbn. right. left.
Defined.
End runs.
