(* ===== verification/Runner.v ===== *)
(** * The DAG engine's runner: [pkg/dagrunner/runner.go]

    [Run] walks the levels of the sort; inside a level every node is a
    goroutine.  The interleavings are the runs of [step], one atomic action of
    one goroutine (or of the loop, or of the context) at a time.  The updates
    channel is the list of what was sent; its capacity is not modelled. *)

From S2P Require Import Prelude Dag.

(** ** Data *)

Inductive node_status := Pending | Running | Success | Failed | Skipped.

#[export] Instance node_status_eq_dec : EqDecision node_status.
Proof. solve_decision. Defined.

Definition terminal (s : node_status) : bool :=
  match s with Success | Failed | Skipped => true | Pending | Running => false end.

(** How a [TaskFunc] call ends. *)
Inductive task_outcome := TaskOk | TaskSkipped | TaskErr (msg : string) | TaskPanic (v : string).

Inductive run_error :=
| ContextDone
| NodeFailed (id msg : string)
| NodePanic (id v : string)
| InvalidDAG (e : dag_error).

#[export] Instance run_error_eq_dec : EqDecision run_error.
Proof. solve_decision. Defined.

Record StatusUpdate := mkUpdate { u_NodeID : string; u_Status : node_status; u_Error : option run_error }.

(** Where the loop of [Run] is: before a level, inside one (the goroutines not
    yet admitted by the semaphore, the ones holding a slot), or returned. *)
Inductive phase :=
| Between (rest : list (list string))
| InLevel (waiting running : list string) (rest : list (list string))
| Done (res : option run_error).

Record Runner := mkRunner {
  r_maxParallel : Z; r_continueOnError : bool;
  r_statuses : gmap string node_status; r_updates : list StatusUpdate;
  r_errCh : option run_error; r_firstErr : option run_error;
  r_ctxDone : bool; r_phase : phase
}.

Definition set_continueOnError v (r : Runner) : Runner :=
  mkRunner (r_maxParallel r) v (r_statuses r) (r_updates r) (r_errCh r) (r_firstErr r) (r_ctxDone r) (r_phase r).
Definition set_errCh v (r : Runner) : Runner :=
  mkRunner (r_maxParallel r) (r_continueOnError r) (r_statuses r) (r_updates r) v (r_firstErr r) (r_ctxDone r) (r_phase r).
Definition set_firstErr v (r : Runner) : Runner :=
  mkRunner (r_maxParallel r) (r_continueOnError r) (r_statuses r) (r_updates r) (r_errCh r) v (r_ctxDone r) (r_phase r).
Definition set_ctxDone v (r : Runner) : Runner :=
  mkRunner (r_maxParallel r) (r_continueOnError r) (r_statuses r) (r_updates r) (r_errCh r) (r_firstErr r) v (r_phase r).
Definition set_phase v (r : Runner) : Runner :=
  mkRunner (r_maxParallel r) (r_continueOnError r) (r_statuses r) (r_updates r) (r_errCh r) (r_firstErr r) (r_ctxDone r) v.

(** ** Construction *)

(** The runner before [Run] has sorted its graph. *)
Definition NewRunnerBounded (d : DAG) (maxParallel : Z) : Runner :=
  mkRunner maxParallel false ((fun _ => Pending) <$> Nodes d) [] None None false (Between []).

Definition NewRunner (d : DAG) : Runner := NewRunnerBounded d 0.

Definition NewRunnerBoundedContinue (d : DAG) (maxParallel : Z) : Runner :=
  set_continueOnError true (NewRunnerBounded d maxParallel).

(** ** Atomic actions *)

Definition emitStatus (id : string) (s : node_status) (e : option run_error) (r : Runner) : Runner :=
  mkRunner (r_maxParallel r) (r_continueOnError r) (<[id := s]> (r_statuses r))
    (r_updates r ++ [mkUpdate id s e]) (r_errCh r) (r_firstErr r) (r_ctxDone r) (r_phase r).

(** The non-blocking send on the capacity-one error channel. *)
Definition fail (e : run_error) (r : Runner) : Runner :=
  match r_errCh r with
  | None => set_errCh (Some e) r
  | Some _ => r
  end.

Inductive action :=
| Cancel                                  (* the context is cancelled *)
| StartLevel                              (* the loop enters the next level, or returns *)
| Admit (id : string)                     (* a goroutine gets a slot and reports running *)
| Abandon (id : string)                   (* a goroutine sees the context done instead *)
| Finish (id : string) (o : task_outcome) (* a task returns or panics *)
| Barrier.                                (* [wg.Wait] returns and the channel is drained *)

Definition remove_id (id : string) (l : list string) : list string := filter (fun x => x <> id) l.

Definition slot_free (r : Runner) (running : list string) : bool :=
  if (0 <? r_maxParallel r)%Z then (Z.of_nat (length running) <? r_maxParallel r)%Z else true.

Definition task_returned (id : string) (o : task_outcome) (r : Runner) : Runner :=
  match o with
  | TaskOk => emitStatus id Success None r
  | TaskSkipped => emitStatus id Skipped None r
  | TaskErr m => fail (NodeFailed id m) (emitStatus id Failed (Some (NodeFailed id m)) r)
  | TaskPanic v => fail (NodePanic id v) (emitStatus id Failed (Some (NodePanic id v)) r)
  end.

(** One action; [None] when it is not possible in this state. *)
Definition step (a : action) (r : Runner) : option Runner :=
  match a, r_phase r with
  | Cancel, _ => Some (set_ctxDone true r)
  | StartLevel, Between [] => Some (set_phase (Done (r_firstErr r)) r)
  | StartLevel, Between (level :: rest) =>
      if r_ctxDone r then
        Some (set_phase (Done (match r_firstErr r with Some e => Some e | None => Some ContextDone end)) r)
      else Some (set_phase (InLevel level [] rest) r)
  | Admit id, InLevel waiting running rest =>
      if bool_decide (id ∈ waiting) && slot_free r running then
        Some (r |> emitStatus id Running None |> set_phase (InLevel (remove_id id waiting) (id :: running) rest))
      else None
  | Abandon id, InLevel waiting running rest =>
      if bool_decide (id ∈ waiting) && (0 <? r_maxParallel r)%Z && r_ctxDone r then
        Some (r |> emitStatus id Failed (Some ContextDone) |> fail ContextDone
                |> set_phase (InLevel (remove_id id waiting) running rest))
      else None
  | Finish id o, InLevel waiting running rest =>
      if bool_decide (id ∈ running) then
        Some (r |> task_returned id o |> set_phase (InLevel waiting (remove_id id running) rest))
      else None
  | Barrier, InLevel [] [] rest =>
      match r_errCh r with
      | Some e =>
          if negb (r_continueOnError r) then Some (r |> set_errCh None |> set_phase (Done (Some e)))
          else Some (r |> set_errCh None
                       |> set_firstErr (match r_firstErr r with None => Some e | f => f end)
                       |> set_phase (Between rest))
      | None => Some (set_phase (Between rest) r)
      end
  | _, _ => None
  end.

Definition rstep (r r' : Runner) : Prop := exists a, step a r = Some r'.

(** A run of the given actions. *)
Fixpoint steps (acts : list action) (r : Runner) : option Runner :=
  match acts with
  | [] => Some r
  | a :: acts => match step a r with Some r' => steps acts r' | None => None end
  end.

(** [Run]'s first statement: the sort, or its error. *)
Definition start `{RangeOrder} (d : DAG) (r : Runner) : Runner :=
  match TopologicalSort d with
  | Err e => set_phase (Done (Some (InvalidDAG e))) r
  | Ok levels => set_phase (Between levels) r
  end.

(** The runners [Run] can be called on. *)
Definition fresh (d : DAG) (r : Runner) : Prop :=
  r_statuses r = (fun _ => Pending) <$> Nodes d /\ r_updates r = [] /\ r_errCh r = None /\
  r_firstErr r = None.

Lemma fresh_NewRunnerBounded d mp : fresh d (NewRunnerBounded d mp).
Proof. done. Qed.

Lemma fresh_NewRunnerBoundedContinue d mp : fresh d (NewRunnerBoundedContinue d mp).
Proof. done. Qed.

(** ** Invariant *)

(** The status of a node, [Pending] when absent. *)
Definition status_of (r : Runner) (id : string) : node_status := default Pending (r_statuses r !! id).

Definition all_terminal (r : Runner) (ids : list string) : Prop :=
  forall id, id ∈ ids -> terminal (status_of r id) = true.
Definition all_pending (r : Runner) (ids : list string) : Prop :=
  forall id, id ∈ ids -> status_of r id = Pending.

(** The errors on record: in the channel, kept by the loop, or returned. *)
Definition recorded (r : Runner) (e : run_error) : Prop :=
  r_errCh r = Some e \/ r_firstErr r = Some e \/ r_phase r = Done (Some e).

Section invariant.
Context (levels : list (list string)) (Hnd : NoDup (concat levels)).

Definition phase_inv (r : Runner) : Prop :=
  match r_phase r with
  | Between rest => r_errCh r = None /\ exists past, levels = past ++ rest /\
      all_terminal r (concat past) /\ all_pending r (concat rest)
  | InLevel waiting running rest => exists past cur, levels = past ++ cur :: rest /\
      all_terminal r (concat past) /\ all_pending r (concat rest) /\
      NoDup (waiting ++ running) /\ waiting ++ running ⊆ cur /\
      all_pending r waiting /\ (forall id, id ∈ running -> status_of r id = Running) /\
      all_terminal r (filter (fun id => id ∉ waiting ++ running) cur) /\
      ((0 < r_maxParallel r)%Z -> (Z.of_nat (length running) <= r_maxParallel r)%Z)
  | Done res => r_errCh r = None /\ exists past rest, levels = past ++ rest /\
      all_terminal r (concat past) /\ all_pending r (concat rest) /\
      (forall e, r_firstErr r = Some e -> is_Some res) /\
      (res = None -> rest = []) /\ (r_continueOnError r = true -> r_ctxDone r = false -> rest = [])
  end.

Lemma status_emit id s e r x :
  status_of (emitStatus id s e r) x = if decide (x = id) then s else status_of r x.
Proof.
  unfold status_of. cbn. destruct (decide (x = id)) as [->|]; [by rewrite lookup_insert_eq|].
  by rewrite lookup_insert_ne.
Qed.

Lemma fail_fields e r :
  r_statuses (fail e r) = r_statuses r /\ r_phase (fail e r) = r_phase r /\
  r_firstErr (fail e r) = r_firstErr r /\ r_ctxDone (fail e r) = r_ctxDone r /\
  r_continueOnError (fail e r) = r_continueOnError r /\ r_maxParallel (fail e r) = r_maxParallel r /\
  r_errCh (fail e r) = (match r_errCh r with None => Some e | c => c end).
Proof. unfold fail. destruct (r_errCh r) eqn:E; cbn; by rewrite ?E. Qed.

(** A node settles: its status, and an error put on record when it failed. *)
Definition settles (id : string) (s : node_status) (r r' : Runner) : Prop :=
  (forall x, status_of r' x = if decide (x = id) then s else status_of r x) /\
  r_firstErr r' = r_firstErr r /\ r_ctxDone r' = r_ctxDone r /\ r_phase r' = r_phase r /\
  r_continueOnError r' = r_continueOnError r /\ r_maxParallel r' = r_maxParallel r /\
  (if decide (s = Failed) then is_Some (r_errCh r') /\ (is_Some (r_errCh r) -> r_errCh r' = r_errCh r)
   else r_errCh r' = r_errCh r).

Lemma settles_emit id s e r : s <> Failed -> settles id s r (emitStatus id s e r).
Proof. intros Hs. unfold settles. rewrite decide_False by done. split_and!; try done. apply status_emit. Qed.

Lemma settles_fail id e e' r : settles id Failed r (fail e (emitStatus id Failed e' r)).
Proof.
  unfold settles. destruct (fail_fields e (emitStatus id Failed e' r)) as (Hst & -> & -> & -> & -> & -> & ->).
  rewrite decide_True by done. split_and!; try done.
  - intros x. unfold status_of at 1. rewrite Hst. apply status_emit.
  - cbn. by destruct (r_errCh r).
  - cbn. by intros [c ->].
Qed.

Definition outcome_status (o : task_outcome) : node_status :=
  match o with TaskOk => Success | TaskSkipped => Skipped | TaskErr _ | TaskPanic _ => Failed end.

Lemma settles_returned id o r : settles id (outcome_status o) r (task_returned id o r).
Proof. destruct o; cbn; auto using settles_fail. all: by apply settles_emit. Qed.
Lemma elem_of_remove_id id l x : x ∈ remove_id id l <-> x ∈ l /\ x <> id.
Proof. unfold remove_id. rewrite list_elem_of_filter. tauto. Qed.

Lemma remove_id_app id l1 l2 : remove_id id (l1 ++ l2) = remove_id id l1 ++ remove_id id l2.
Proof. apply filter_app. Qed.

Lemma remove_id_fresh id l : id ∉ l -> remove_id id l = l.
Proof.
  unfold remove_id. induction l as [|x l IH]; intros Hni; [done|].
  apply not_elem_of_cons in Hni as [Hne Hni]. rewrite filter_cons, decide_True by done. by rewrite IH.
Qed.

(** Nodes of the current level belong to no other level. *)
Lemma cur_elsewhere past cur rest id : levels = past ++ cur :: rest -> id ∈ cur ->
  (id ∉ concat past) /\ (id ∉ concat rest).
Proof using Hnd.
  intros Heq Hid. rewrite Heq, concat_app in Hnd. cbn in Hnd.
  apply NoDup_app in Hnd as (_ & H1 & (_ & H2 & _)%NoDup_app).
  split; intros Hin; [apply (H1 id Hin), elem_of_app; by left|by apply (H2 id Hid)].
Qed.

Lemma phase_inv_settle r r1 id s waiting running rest :
  phase_inv r -> r_phase r = InLevel waiting running rest -> id ∈ waiting ++ running ->
  settles id s r r1 -> terminal s = true ->
  phase_inv (set_phase (InLevel (remove_id id waiting) (remove_id id running) rest) r1).
Proof using Hnd.
  unfold phase_inv. intros Hinv Hph Hid (Hst & _ & _ & _ & _ & Hmp & _) Hs. rewrite Hph in Hinv. cbn.
  destruct Hinv as (past & cur & Hl & Hpast & Hrest & HndW & Hsub & Hpend & Hrun & Hset & Hmax).
  destruct (cur_elsewhere _ _ _ id Hl ltac:(by apply Hsub)) as [Hnp Hnr].
  assert (forall x, status_of (set_phase (InLevel (remove_id id waiting) (remove_id id running) rest) r1) x
    = if decide (x = id) then s else status_of r x) as Hst' by exact Hst.
  unfold all_terminal, all_pending in *. setoid_rewrite Hst'.
  exists past, cur. rewrite <- remove_id_app.
  split_and!; [done|..].
  - intros x Hx. destruct (decide (x = id)); [done|by apply Hpast].
  - intros x Hx. rewrite decide_False by (by intros ->). by apply Hrest.
  - by apply NoDup_filter.
  - intros x [Hx _]%elem_of_remove_id. by apply Hsub.
  - intros x [Hx Hne]%elem_of_remove_id. rewrite decide_False by done. by apply Hpend.
  - intros x [Hx Hne]%elem_of_remove_id. rewrite decide_False by done. by apply Hrun.
  - intros x. rewrite list_elem_of_filter, elem_of_remove_id. intros [Hx Hc].
    destruct (decide (x = id)); [done|]. apply Hset, list_elem_of_filter. tauto.
  - rewrite Hmp. intros Hp. pose proof (length_filter (fun x => x <> id) running).
    specialize (Hmax Hp). unfold remove_id. lia.
Qed.

Lemma phase_inv_admit r id waiting running rest :
  phase_inv r -> r_phase r = InLevel waiting running rest -> id ∈ waiting -> slot_free r running = true ->
  phase_inv (set_phase (InLevel (remove_id id waiting) (id :: running) rest) (emitStatus id Running None r)).
Proof using Hnd.
  unfold phase_inv. intros Hinv Hph Hid Hslot. rewrite Hph in Hinv. cbn [set_phase r_phase].
  destruct Hinv as (past & cur & Hl & Hpast & Hrest & HndW & Hsub & Hpend & Hrun & Hset & Hmax).
  assert (id ∈ cur) as Hcur by (apply Hsub, elem_of_app; by left).
  destruct (cur_elsewhere _ _ _ id Hl Hcur) as [Hnp Hnr].
  apply NoDup_app in HndW as (Hnd1 & Hdisj & Hnd2).
  pose proof (status_emit id Running None r) as Hst. unfold all_terminal, all_pending in *.
  set (r1 := emitStatus id Running None r) in *.
  assert (forall x, status_of (set_phase (InLevel (remove_id id waiting) (id :: running) rest) r1) x
    = if decide (x = id) then Running else status_of r x) as Hst' by exact Hst.
  setoid_rewrite Hst'. exists past, cur. split_and!; [done|..].
  - intros x Hx. rewrite decide_False by (by intros ->). by apply Hpast.
  - intros x Hx. rewrite decide_False by (by intros ->). by apply Hrest.
  - apply NoDup_app. split_and!; [by apply NoDup_filter| |].
    + intros x [Hx Hne]%elem_of_remove_id [?|Hx']%elem_of_cons; [done|by apply (Hdisj x)].
    + constructor; [by apply Hdisj|done].
  - intros x [[Hx _]%elem_of_remove_id|[->|Hx]%elem_of_cons]%elem_of_app; [| done|];
      apply Hsub, elem_of_app; auto.
  - intros x [Hx Hne]%elem_of_remove_id. rewrite decide_False by done. by apply Hpend.
  - intros x [->|Hx]%elem_of_cons; [by rewrite decide_True|].
    rewrite decide_False by (intros ->; by apply (Hdisj id)). by apply Hrun.
  - intros x. rewrite list_elem_of_filter, elem_of_app, elem_of_cons, elem_of_remove_id. intros [Hx Hc].
    assert (x <> id) as Hne by tauto. rewrite decide_False by done.
    apply Hset, list_elem_of_filter. rewrite elem_of_app. tauto.
  - unfold slot_free in Hslot. cbn in *. intros Hp. rewrite (proj2 (Z.ltb_lt _ _) Hp) in Hslot.
    reflect_bools. cbn. lia.
Qed.
(** The error accounts, apart from the phase: a failed node is on record, and
    whatever is on record comes from a failed node or a cancellation. *)
Record accounts (r : Runner) : Prop := {
  ac_failed id : status_of r id = Failed -> exists e, recorded r e;
  ac_cause e : recorded r e -> r_ctxDone r = true \/ exists id, status_of r id = Failed;
  ac_abort : r_continueOnError r = false -> r_firstErr r = None
}.

Lemma accounts_settle r r1 id s w1 w2 w3 w1' w2' w3' :
  accounts r -> r_phase r = InLevel w1 w2 w3 -> settles id s r r1 -> status_of r id <> Failed ->
  accounts (set_phase (InLevel w1' w2' w3') r1).
Proof.
  intros [Hf Hc Ha] Hph (Hst & Hfe & Hcd & _ & Hce & _ & Hec) Hid.
  assert (forall x, status_of (set_phase (InLevel w1' w2' w3') r1) x
    = if decide (x = id) then s else status_of r x) as Hst' by exact Hst.
  assert (forall e, recorded (set_phase (InLevel w1' w2' w3') r1) e <-> r_errCh r1 = Some e \/ r_firstErr r = Some e)
    as Hrec by (intros e; unfold recorded; cbn; rewrite Hfe; intuition done).
  assert (forall e, recorded r e <-> r_errCh r = Some e \/ r_firstErr r = Some e) as Hrec'
    by (intros e; unfold recorded; rewrite Hph; intuition done).
  split.
  - intros x. rewrite Hst'. setoid_rewrite Hrec. destruct (decide (s = Failed)) as [->|Hs].
    + intros _. destruct Hec as [[e ->] _]. exists e. by left.
    + rewrite Hec. destruct (decide (x = id)); [done|]. intros Hx. destruct (Hf x Hx) as (e & He%Hrec').
      by exists e.
  - intros e. rewrite Hrec. cbn. rewrite Hcd. setoid_rewrite Hst'. destruct (decide (s = Failed)) as [->|Hs].
    + intros _. right. exists id. by rewrite decide_True.
    + rewrite Hec. intros He. destruct (Hc e) as [?|[x Hx]]; [by apply Hrec'|by left|].
      right. exists x. rewrite decide_False; [done|]. by intros ->.
  - cbn. by rewrite Hce, Hfe.
Qed.

Lemma accounts_ext r r' :
  accounts r -> (forall id, status_of r' id = status_of r id) ->
  (r_ctxDone r = true -> r_ctxDone r' = true) ->
  ((exists e, recorded r e) -> exists e, recorded r' e) ->
  (forall e, recorded r' e -> r_ctxDone r' = true \/ exists e', recorded r e') ->
  (r_continueOnError r' = false -> r_firstErr r' = None) -> accounts r'.
Proof.
  intros [Hf Hc Ha] Hst Hcd H1 H2 H3. split; [| |done].
  - intros id. rewrite Hst. intros Hid. apply H1. by eapply Hf.
  - intros e He. setoid_rewrite Hst. destruct (H2 e He) as [?|[e' He']]; [by left|].
    destruct (Hc e' He') as [?|?]; [left; auto|by right].
Qed.

Lemma step_accounts a r r' : phase_inv r -> accounts r -> step a r = Some r' -> accounts r'.
Proof.
  intros Hph Hac Hs. unfold phase_inv in Hph.
  destruct a, (r_phase r) as [[|level rest]|waiting running rest|res] eqn:E; cbn in Hs;
    rewrite ?E in Hs; crush_branches; reflect_bools; try done.
  (* cancellation *)
  1-4: eapply accounts_ext; [exact Hac|done|done|..]; unfold recorded; cbn;
    [intros [e He]; exists e; exact He|intros e He; right; exists e; exact He|apply Hac].
  (* the loop: return, cancelled, next level *)
  1-4: eapply accounts_ext; [exact Hac|done|done|..]; unfold recorded; cbn; rewrite ?E;
    [intros [e He]; naive_solver|intros e He; naive_solver|apply Hac].
  { destruct Hph as (past & cur & _ & _ & _ & _ & _ & Hpend & _).
    eapply accounts_settle; [exact Hac|exact E|by apply settles_emit|]. by rewrite Hpend. }
  { destruct Hph as (past & cur & _ & _ & _ & _ & _ & Hpend & _).
    eapply accounts_settle; [exact Hac|exact E|by apply settles_fail|]. by rewrite Hpend. }
  { destruct Hph as (past & cur & _ & _ & _ & _ & _ & _ & Hrun & _).
    eapply accounts_settle; [exact Hac|exact E|by apply settles_returned|]. by rewrite Hrun. }
  all: eapply accounts_ext; [exact Hac|done|done|..]; unfold recorded; cbn.
  all: try (intros _; eexists; by auto). all: try (intros e He; right; eexists; by auto).
  all: try congruence; try apply Hac.
  all: rewrite ?E; naive_solver.
Qed.
Lemma step_phase a r r' : phase_inv r -> step a r = Some r' -> phase_inv r'.
Proof using Hnd.
  intros Hph Hs. pose proof Hph as Hph0. unfold phase_inv in Hph.
  destruct a, (r_phase r) as [[|level rest]|waiting running rest|res] eqn:E; cbn in Hs;
    rewrite ?E in Hs; crush_branches; reflect_bools; try done.
  (* cancellation *)
  1-3: unfold phase_inv; cbn; rewrite E; exact Hph.
  { unfold phase_inv. cbn. rewrite E. destruct Hph as (? & past & rest & ? & ? & ? & ? & ? & ?).
    split; [done|]. exists past, rest. by split_and!. }
  (* the loop *)
  { destruct Hph as (Hec & past & Hl & Hp & Hr). split; [done|]. exists past, []. by split_and!. }
  1-2: destruct Hph as (Hec & past & Hl & Hp & Hr); split; [done|]; exists past, (level :: rest);
    cbn; split_and!; try done; congruence.
  { destruct Hph as (Hec & past & Hl & Hp & Hr). exists past, level. cbn.
    assert (NoDup level) as Hlv.
    { rewrite Hl, concat_app in Hnd. cbn in Hnd. by apply NoDup_app in Hnd as (_ & _ & (? & _)%NoDup_app). }
    unfold all_pending in *. setoid_rewrite elem_of_app in Hr. rewrite app_nil_r.
    split_and!; try done; try (intros id Hid; apply Hr; by auto).
    - by intros id ?%not_elem_of_nil.
    - intros id [? ?]%list_elem_of_filter. done.
    - intros. cbn. lia. }
  (* a goroutine *)
  { by eapply phase_inv_admit. }
  { assert (id ∉ running) as Hni.
    { destruct Hph as (past & cur & _ & _ & _ & (_ & Hd & _)%NoDup_app & _). by apply Hd. }
    rewrite <- (remove_id_fresh id running Hni) at 1.
    eapply phase_inv_settle; [exact Hph0|exact E|apply elem_of_app; by left|apply settles_fail|done]. }
  { assert (id ∉ waiting) as Hni.
    { destruct Hph as (past & cur & _ & _ & _ & (_ & Hd & _)%NoDup_app & _). intros Hw. by apply (Hd id). }
    rewrite <- (remove_id_fresh id waiting Hni) at 1.
    eapply phase_inv_settle; [exact Hph0|exact E|apply elem_of_app; by right|apply settles_returned|].
    by destruct o. }
  (* the barrier *)
  all: destruct Hph as (past & cur & Hl & Hp & Hr & _ & _ & _ & _ & Hcur & _); cbn in Hcur.
  all: assert (all_terminal r (concat (past ++ [cur]))) as Hall by
    (intros id; rewrite concat_app, elem_of_app; cbn; rewrite app_nil_r; intros [?|?];
     [by apply Hp|apply Hcur, list_elem_of_filter; split; [apply not_elem_of_nil|done]]).
  all: unfold phase_inv; cbn; split; [done|]; exists (past ++ [cur]).
  1: exists rest.
  all: rewrite <- app_assoc; cbn; split_and!; try done; try congruence; eauto.
Qed.

Lemma step_out a r r' : phase_inv r -> (forall id, id ∉ concat levels -> status_of r id = Pending) ->
  step a r = Some r' -> forall id, id ∉ concat levels -> status_of r' id = Pending.
Proof.
  intros Hph Hout Hs x Hx. rewrite <- (Hout x Hx). unfold phase_inv in Hph.
  destruct a, (r_phase r) as [[|level rest]|waiting running rest|res] eqn:E; cbn in Hs;
    rewrite ?E in Hs; crush_branches; reflect_bools; try done.
  all: destruct Hph as (past & cur & -> & _ & _ & _ & Hsub & _).
  all: assert (x <> id) as Hne by
    (intros ->; apply Hx; rewrite concat_app, elem_of_app; right; cbn; rewrite elem_of_app; left;
     apply Hsub, elem_of_app; auto).
  - pose proof (status_emit id Running None r x) as He. by rewrite decide_False in He.
  - pose proof (proj1 (settles_fail id ContextDone (Some ContextDone) r) x) as He. by rewrite decide_False in He.
  - pose proof (proj1 (settles_returned id o r) x) as He. by rewrite decide_False in He.
Qed.

Record runner_inv (r : Runner) : Prop := {
  ri_phase : phase_inv r;
  ri_accounts : accounts r;
  ri_out id : id ∉ concat levels -> status_of r id = Pending
}.

Lemma rstep_inv r r' : runner_inv r -> rstep r r' -> runner_inv r'.
Proof using Hnd.
  intros [Hp Ha Ho] [a Hs]. split; [by eapply step_phase|by eapply step_accounts|by eapply step_out].
Qed.
Lemma step_terminal a r r' id : phase_inv r -> step a r = Some r' ->
  terminal (status_of r id) = true -> status_of r' id = status_of r id.
Proof.
  intros Hph Hs Ht. unfold phase_inv in Hph.
  destruct a, (r_phase r) as [[|level rest]|waiting running rest|res] eqn:E; cbn in Hs;
    rewrite ?E in Hs; crush_branches; reflect_bools; try done.
  all: destruct Hph as (past & cur & -> & _ & _ & _ & Hsub & Hw & Hr & _).
  all: match goal with H : ?i ∈ _ |- _ => assert (id <> i) as Hne
    by (intros ->; first [rewrite (Hw i H) in Ht|rewrite (Hr i H) in Ht]; done) end.
  - pose proof (status_emit id0 Running None r id) as He. by rewrite decide_False in He.
  - pose proof (proj1 (settles_fail id0 ContextDone (Some ContextDone) r) id) as He. by rewrite decide_False in He.
  - pose proof (proj1 (settles_returned id0 o r) id) as He. by rewrite decide_False in He.
Qed.

Lemma step_config a r r' : step a r = Some r' ->
  r_maxParallel r' = r_maxParallel r /\ r_continueOnError r' = r_continueOnError r.
Proof.
  intros Hs. destruct a, (r_phase r) as [[|level rest]|waiting running rest|res] eqn:E; cbn in Hs;
    rewrite ?E in Hs; crush_branches; try done.
  - pose proof (settles_fail id ContextDone (Some ContextDone) r) as (_ & _ & _ & _ & -> & -> & _). done.
  - pose proof (settles_returned id o r) as (_ & _ & _ & _ & -> & -> & _). done.
Qed.
(** A running node is one of the goroutines holding a slot. *)
Lemma running_slot r id : runner_inv r -> status_of r id = Running ->
  exists waiting running rest, r_phase r = InLevel waiting running rest /\ id ∈ running.
Proof.
  intros [Hph _ Hout] Hid.
  assert (id ∈ concat levels) as Hin by (apply dec_stable; intros Hn; rewrite Hout in Hid; done).
  assert (forall past rest, levels = past ++ rest -> all_terminal r (concat past) ->
    all_pending r (concat rest) -> False) as Hno.
  { intros past rest -> Hp Hr. rewrite concat_app, elem_of_app in Hin.
    destruct Hin as [Hi|Hi]; [specialize (Hp id Hi)|specialize (Hr id Hi)]; by rewrite Hid in *. }
  unfold phase_inv in Hph. destruct (r_phase r) as [rest|waiting running rest|res].
  - destruct Hph as (_ & past & ? & ? & ?). by destruct (Hno past rest).
  - exists waiting, running, rest. split; [done|].
    destruct Hph as (past & cur & -> & Hp & Hr & _ & _ & Hw & _ & Hc & _).
    rewrite concat_app, elem_of_app in Hin. cbn in Hin. rewrite elem_of_app in Hin.
    apply dec_stable. intros Hn. destruct Hin as [Hi|[Hi|Hi]].
    + specialize (Hp id Hi). by rewrite Hid in Hp.
    + destruct (decide (id ∈ waiting)) as [Hiw|Hiw]; [by rewrite (Hw id Hiw) in Hid|].
      assert (terminal (status_of r id) = true) as Ht; [|by rewrite Hid in Ht].
      apply Hc, list_elem_of_filter. rewrite elem_of_app. tauto.
    + specialize (Hr id Hi). congruence.
  - destruct Hph as (_ & past & rest & ? & ? & ? & _). by destruct (Hno past rest).
Qed.

Lemma running_bound r ids : runner_inv r -> (0 < r_maxParallel r)%Z -> NoDup ids ->
  (forall id, id ∈ ids -> status_of r id = Running) -> (Z.of_nat (length ids) <= r_maxParallel r)%Z.
Proof.
  intros Hinv Hpos Hids Hrun. destruct ids as [|id0 ids]; [cbn; lia|].
  destruct (running_slot r id0 Hinv) as (waiting & running & rest & Hph & _); [apply Hrun; by left|].
  pose proof (ri_phase r Hinv) as Hp. unfold phase_inv in Hp. rewrite Hph in Hp.
  destruct Hp as (_ & _ & _ & _ & _ & _ & _ & _ & _ & _ & Hmax). specialize (Hmax Hpos).
  assert (id0 :: ids ⊆+ running) as Hsub%submseteq_length; [|lia].
  apply NoDup_submseteq; [done|]. intros x Hx.
  destruct (running_slot r x Hinv (Hrun x Hx)) as (w' & r' & rest' & Hph' & Hin). congruence.
Qed.
End invariant.

(** ** Runs of a sorted graph *)

Section runs_of.
Context `{RO : RangeOrder} (d : DAG) (levels : list (list string)).
Context (Hsort : TopologicalSort d = Ok levels).

Lemma sorted_staged : staged (dom (Nodes d)) (deps_of d) ∅ levels /\
  length (concat levels) = size (dom (Nodes d)).
Proof using Hsort.
  pose proof (TopologicalSort_outcome d) as Ho. rewrite Hsort in Ho.
  destruct Ho as (_ & ? & ?). by rewrite size_dom.
Qed.

Lemma sorted_NoDup : NoDup (concat levels).
Proof using Hsort. by apply (staged_nodes d levels ∅), sorted_staged. Qed.

Lemma sorted_all id : id ∈ concat levels <-> is_Some (Nodes d !! id).
Proof using Hsort.
  destruct sorted_staged as [Hst Hlen]. rewrite <- elem_of_dom. split.
  - apply (staged_nodes d levels ∅ Hst).
  - by apply (staged_all d levels Hst).
Qed.

Lemma start_inv r : fresh d r -> runner_inv levels (start d r).
Proof using Hsort.
  intros (Hs & _ & Hec & Hfe). unfold start. rewrite Hsort.
  assert (forall id, status_of (set_phase (Between levels) r) id = Pending) as Hp.
  { intros id. unfold status_of. cbn. rewrite Hs, lookup_fmap. by destruct (Nodes d !! id). }
  split; [|split|].
  - cbn. split; [done|]. exists []. split_and!; [done|by intros id ?%not_elem_of_nil|].
    intros id _. apply Hp.
  - intros id. by rewrite Hp.
  - unfold recorded. cbn. rewrite Hec, Hfe. naive_solver.
  - done.
  - intros id _. apply Hp.
Qed.

Lemma run_inv r0 r : fresh d r0 -> reachable (eq (start d r0)) rstep r ->
  runner_inv levels r /\ r_maxParallel r = r_maxParallel r0 /\ r_continueOnError r = r_continueOnError r0.
Proof using Hsort.
  intros Hf. revert r. apply (reachable_invariant _ _ (fun r => runner_inv levels r /\
    r_maxParallel r = r_maxParallel r0 /\ r_continueOnError r = r_continueOnError r0)).
  - intros s <-. split; [by apply start_inv|]. unfold start. by rewrite Hsort.
  - intros s s' (Hi & Hmp & Hce) Hstep. split; [by eapply rstep_inv; [apply sorted_NoDup|..]|].
    destruct Hstep as [a Ha]. apply step_config in Ha as [-> ->]. done.
Qed.

(** Nodes that have left [Pending] belong to the levels passed or to the
    current one. *)
Lemma started_deps r x y : runner_inv levels r -> dep_edge d x y -> status_of r y <> Pending ->
  terminal (status_of r x) = true.
Proof using Hsort.
  intros [Hph _ Hout] Hxy%dep_edge_deps_of Hy. destruct sorted_staged as [Hst _].
  assert (y ∈ concat levels) as Hyl by (apply dec_stable; intros Hn; by apply Hy, Hout).
  assert (forall past rest, levels = past ++ rest -> all_terminal r (concat past) ->
    all_pending r (concat rest) -> terminal (status_of r x) = true) as Hout2.
  { intros past rest -> Hp Hr. rewrite concat_app, elem_of_app in Hyl.
    destruct Hyl as [Hyp|Hyr]; [|by rewrite Hr in Hy].
    destruct (staged_prefix d past rest ∅ y x Hst Hyp Hxy) as [?%not_elem_of_empty|?]; [done|by apply Hp]. }
  unfold phase_inv in Hph. destruct (r_phase r) as [rest|waiting running rest|res].
  - destruct Hph as (_ & past & ? & ? & ?). by eapply Hout2.
  - destruct Hph as (past & cur & -> & Hp & Hr & _).
    rewrite concat_app, elem_of_app in Hyl. cbn in Hyl. rewrite elem_of_app in Hyl.
    destruct Hyl as [Hyp|[Hyc|Hyr]]; [| |by rewrite Hr in Hy].
    + destruct (staged_prefix d past (cur :: rest) ∅ y x Hst Hyp Hxy) as [?%not_elem_of_empty|?]; [done|by apply Hp].
    + destruct (staged_current d past cur rest ∅ y x Hst Hyc Hxy) as [?%not_elem_of_empty|?]; [done|by apply Hp].
  - destruct Hph as (_ & past & rest & ? & ? & ? & _). by eapply Hout2.
Qed.

(** When [Run] returns no error, every node succeeded or was skipped. *)
Lemma done_none_settled r id : runner_inv levels r -> r_phase r = Done None -> is_Some (Nodes d !! id) ->
  status_of r id = Success \/ status_of r id = Skipped.
Proof using Hsort.
  intros [Hph Hac _] Hd Hid%sorted_all. unfold phase_inv in Hph. rewrite Hd in Hph.
  destruct Hph as (Hec & past & rest & Hl & Hp & _ & Hfe & Hnone & _).
  rewrite (Hnone eq_refl), app_nil_r in Hl. rewrite Hl in Hid. specialize (Hp id Hid).
  destruct (status_of r id) eqn:Hs; try done; [by left| |by right].
  destruct (ac_failed r Hac id Hs) as [e [He|[He|He]]]; [congruence| |congruence].
  by destruct (Hfe e He).
Qed.
End runs_of.

(** ** Properties of [Run] *)

Section properties.
Context `{RO : RangeOrder} (d : DAG) (levels : list (list string)).
Implicit Types r : Runner.

(** Whatever the interleaving, outcomes and cancellations: once a node has
    left [Pending], all its dependencies have reached a final status and will
    keep it, so a task reads its upstreams' results without a race; and no more
    than [maxParallel] nodes run at the same time. *)
Theorem run_level_barrier r0 r :
  TopologicalSort d = Ok levels -> fresh d r0 -> reachable (eq (start d r0)) rstep r ->
  (forall x y, dep_edge d x y -> status_of r y <> Pending -> terminal (status_of r x) = true) /\
  (forall r' id, rstep r r' -> terminal (status_of r id) = true -> status_of r' id = status_of r id) /\
  (forall ids, (0 < r_maxParallel r0)%Z -> NoDup ids -> (forall id, id ∈ ids -> status_of r id = Running) ->
     (Z.of_nat (length ids) <= r_maxParallel r0)%Z).
Proof.
  intros Hsort Hf Hreach. destruct (run_inv d levels Hsort r0 r Hf Hreach) as (Hinv & Hmp & _).
  pose proof (sorted_NoDup d levels Hsort) as Hnd. split_and!.
  - intros x y Hxy Hy. by eapply (started_deps d levels Hsort r x y).
  - intros r' id [a Hs]. by eapply (step_terminal levels); [apply Hnd|apply Hinv|..].
  - intros ids Hpos Hids Hrun. rewrite <- Hmp in *. by apply (running_bound levels).
Qed.

(** What [Run] returns: no error means every node succeeded or was skipped;
    an error means a node failed or the context was cancelled; and in continue
    mode, unless the context was cancelled, every node has been settled and an
    error is returned exactly when some node failed. *)
Theorem run_result r0 r res :
  TopologicalSort d = Ok levels -> fresh d r0 -> reachable (eq (start d r0)) rstep r ->
  r_phase r = Done res ->
  (res = None -> forall id, is_Some (Nodes d !! id) -> status_of r id = Success \/ status_of r id = Skipped) /\
  (is_Some res -> r_ctxDone r = true \/ exists id, status_of r id = Failed) /\
  (r_continueOnError r0 = true -> r_ctxDone r = false ->
     (forall id, is_Some (Nodes d !! id) -> terminal (status_of r id) = true) /\
     (is_Some res <-> exists id, status_of r id = Failed)).
Proof.
  intros Hsort Hf Hreach Hd. destruct (run_inv d levels Hsort r0 r Hf Hreach) as (Hinv & _ & Hce).
  pose proof Hinv as [Hph Hac _].
  unfold phase_inv in Hph. rewrite Hd in Hph.
  destruct Hph as (Hec & past & rest & Hl & Hp & Hr & Hfe & Hnone & Hcont).
  assert (rest = [] -> forall id, is_Some (Nodes d !! id) -> terminal (status_of r id) = true) as Hall.
  { intros -> id Hid%(sorted_all d levels Hsort). apply Hp. rewrite Hl, app_nil_r in Hid. done. }
  assert (forall id, status_of r id = Failed -> is_Some res) as Hfail.
  { intros id [e [He|[He|He]]]%(ac_failed r Hac); [congruence|by eapply Hfe|rewrite Hd in He; by simplify_eq]. }
  assert (is_Some res -> r_ctxDone r = true \/ exists id, status_of r id = Failed) as Hcause.
  { intros [e ->]. apply (ac_cause r Hac e). by right; right. }
  split_and!; [|done|].
  - intros -> id Hid. by apply (done_none_settled d levels Hsort).
  - intros Hc Hcd. split; [apply Hall, Hcont; congruence|]. split; [|by intros [id ?%Hfail]].
    intros [?|?]%Hcause; [congruence|done].
Qed.

(** Actions left before [Run] returns. *)
Definition cost (rest : list (list string)) : nat :=
  1 + sum_list ((fun l => 2 + 2 * length l) <$> rest).

Definition remaining r : nat :=
  match r_phase r with
  | Between rest => cost rest
  | InLevel waiting running rest => 2 * length waiting + length running + 1 + cost rest
  | Done _ => 0
  end.

Lemma length_remove_id id l : id ∈ l -> NoDup l -> S (length (remove_id id l)) = length l.
Proof.
  induction l as [|x l IH]; [by intros ?%not_elem_of_nil|].
  intros [->|Hin]%elem_of_cons [Hni Hnd]%NoDup_cons; unfold remove_id; rewrite filter_cons.
  - rewrite decide_False by tauto. fold (remove_id x l). by rewrite remove_id_fresh.
  - rewrite decide_True by (by intros ->). cbn. fold (remove_id id l). by rewrite IH.
Qed.

(** Everything but the outside cancellation. *)
Definition is_work (a : action) : bool := match a with Cancel => false | _ => true end.

Lemma step_remaining a r r' : phase_inv levels r -> step a r = Some r' ->
  (if is_work a then 1 else 0) + remaining r' <= remaining r.
Proof.
  intros Hph Hs. unfold phase_inv in Hph. unfold remaining.
  destruct a, (r_phase r) as [[|level rest]|waiting running rest|res] eqn:E; cbn in Hs;
    rewrite ?E in Hs; crush_branches; reflect_bools; cbn; rewrite ?E; try done.
  all: try (unfold cost; cbn; lia).
  all: destruct Hph as (past & cur & _ & _ & _ & (Hn1 & _ & Hn2)%NoDup_app & _).
  - pose proof (length_remove_id id waiting ltac:(done) Hn1). lia.
  - pose proof (length_remove_id id waiting ltac:(done) Hn1). lia.
  - pose proof (length_remove_id id running ltac:(done) Hn2). lia.
Qed.

Lemma steps_remaining acts : forall r r', NoDup (concat levels) -> runner_inv levels r ->
  steps acts r = Some r' ->
  length (filter (fun a => is_work a = true) acts) + remaining r' <= remaining r.
Proof.
  induction acts as [|a acts IH]; cbn [steps]; intros r r' Hnd Hinv Hs; [by simplify_eq|].
  destruct (step a r) as [r1|] eqn:Ha; [|done].
  assert (runner_inv levels r1) as Hinv1 by (eapply rstep_inv; [done|done|by exists a]).
  specialize (IH r1 r' Hnd Hinv1 Hs).
  pose proof (step_remaining a r r1 (ri_phase _ _ Hinv) Ha).
  rewrite filter_cons. destruct (decide (is_work a = true)) as [Hw|Hw].
  - rewrite Hw in *. cbn in *. lia.
  - apply not_true_is_false in Hw. rewrite Hw in *. lia.
Qed.

Lemma steps_inv acts : forall r r', NoDup (concat levels) -> runner_inv levels r ->
  steps acts r = Some r' -> runner_inv levels r'.
Proof.
  induction acts as [|a acts IH]; cbn; intros r r' Hnd Hinv Hs; [by simplify_eq|].
  destruct (step a r) as [r1|] eqn:Ha; [|done].
  apply (IH r1 r' Hnd); [eapply rstep_inv; [done|done|by exists a]|done].
Qed.

(** Until [Run] has returned, the loop, a goroutine or a running task can act. *)
Lemma not_stuck r : phase_inv levels r -> (forall res, r_phase r <> Done res) ->
  exists a r', is_work a = true /\ step a r = Some r'.
Proof.
  intros Hph Hnd. unfold phase_inv in Hph.
  destruct (r_phase r) as [[|level rest]|waiting running rest|res] eqn:E; [| | |by destruct (Hnd res)].
  - exists StartLevel. cbn. rewrite E. eauto.
  - exists StartLevel. cbn. rewrite E. destruct (r_ctxDone r); eauto.
  - destruct running as [|id running].
    + destruct waiting as [|id waiting].
      * exists Barrier. cbn. rewrite E. destruct (r_errCh r); [destruct (negb _)|]; eauto.
      * exists (Admit id). cbn. rewrite E, bool_decide_eq_true_2 by (by left). cbn.
        assert (slot_free r [] = true) as ->; [|eauto].
        unfold slot_free. destruct (Z.ltb_spec 0 (r_maxParallel r)); cbn; [|done].
        apply Z.ltb_lt. lia.
    + exists (Finish id TaskOk). cbn. rewrite E, bool_decide_eq_true_2 by (by left). eauto.
Qed.

Lemma cost_concat rest : cost rest = 1 + 2 * length rest + 2 * length (concat rest).
Proof.
  induction rest as [|l rest IH]; [done|].
  assert (cost (l :: rest) = 2 + 2 * length l + cost rest) as -> by (unfold cost; cbn; lia).
  rewrite IH. cbn [concat length]. rewrite length_app. lia.
Qed.

(** [Run] terminates without deadlock once its tasks do: it never takes
    more than two actions per node, two per level and one to return, whatever
    the schedule and however often the context is touched, and in every state
    it can reach before returning some action is possible. *)
Theorem run_terminates r0 acts r :
  TopologicalSort d = Ok levels -> fresh d r0 -> steps acts (start d r0) = Some r ->
  length (filter (fun a => is_work a = true) acts) <= 1 + 2 * length levels + 2 * size (Nodes d) /\
  ((forall res, r_phase r <> Done res) -> exists a r', is_work a = true /\ step a r = Some r').
Proof.
  intros Hsort Hf Hs. pose proof (start_inv d levels Hsort r0 Hf) as Hinv.
  pose proof (sorted_NoDup d levels Hsort) as Hnd. split.
  - pose proof (steps_remaining acts _ _ Hnd Hinv Hs) as Hr.
    assert (remaining (start d r0) = cost levels) as Hrem by (unfold start; by rewrite Hsort).
    rewrite Hrem, cost_concat in Hr. destruct (sorted_staged d levels Hsort) as [_ Hlen].
    rewrite size_dom in Hlen. lia.
  - apply not_stuck. by eapply ri_phase, steps_inv.
Qed.
End properties.

(** ** A concrete run *)

Section demo.
Local Existing Instance range_default.

Definition demo_dag : DAG := AddNode (AddNode (AddNode NewDAG "a" []) "b" ["a"]) "c" ["a"].

(** [b] fails, [c] is skipped; two slots. *)
Definition demo_actions : list action :=
  [StartLevel; Admit "a"; Finish "a" TaskOk; Barrier; StartLevel; Admit "c"; Admit "b";
   Finish "b" (TaskErr "exit 1"); Finish "c" TaskSkipped; Barrier; StartLevel].

Definition demo_start : Runner := start demo_dag (NewRunnerBoundedContinue demo_dag 2).

Example demo_result : r_phase <$> steps demo_actions demo_start = Some (Done (Some (NodeFailed "b" "exit 1"))).
Proof. vm_compute. reflexivity. Qed.

Lemma steps_reachable acts : forall r r', reachable (eq demo_start) rstep r -> steps acts r = Some r' ->
  reachable (eq demo_start) rstep r'.
Proof.
  induction acts as [|a acts IH]; cbn; intros r r' Hr Hs; [by simplify_eq|].
  destruct (step a r) as [r1|] eqn:E; [|done]. eapply IH; [|exact Hs].
  eapply reach_step; [exact Hr|by exists a].
Qed.

Lemma run_level_barrier_witness :
  exists r, steps (take 8 demo_actions) demo_start = Some r /\ status_of r "c" = Running /\
    terminal (status_of r "a") = true /\ (forall r', rstep r r' -> status_of r' "b" = status_of r "b").
Proof.
  destruct (steps (take 8 demo_actions) demo_start) as [r|] eqn:E; [|vm_compute in E; discriminate].
  assert (Hreach : reachable (eq demo_start) rstep r)
    by (eapply steps_reachable; [by apply reach_init|exact E]).
  destruct (TopologicalSort demo_dag) as [levels|] eqn:Hs; [|vm_compute in Hs; discriminate].
  destruct (run_level_barrier demo_dag levels (NewRunnerBoundedContinue demo_dag 2) r Hs
    (fresh_NewRunnerBoundedContinue _ _) Hreach) as (Hbar & Hterm & _).
  exists r. split; [done|]. vm_compute in E. injection E as <-. split_and!; [reflexivity| |].
  - apply (Hbar "a" "c"); [|by vm_compute]. eexists. split; [reflexivity|left].
  - intros r' Hr'. by apply Hterm.
Defined.

Lemma run_result_witness :
  exists r, steps demo_actions demo_start = Some r /\ exists id, status_of r id = Failed.
Proof.
  destruct (steps demo_actions demo_start) as [r|] eqn:E; [|vm_compute in E; discriminate].
  assert (Hreach : reachable (eq demo_start) rstep r)
    by (eapply steps_reachable; [by apply reach_init|exact E]).
  destruct (TopologicalSort demo_dag) as [levels|] eqn:Hs; [|vm_compute in Hs; discriminate].
  assert (r_phase r = Done (Some (NodeFailed "b" "exit 1")) /\ r_ctxDone r = false) as [Hd Hc]
    by (vm_compute in E; by injection E as <-).
  destruct (run_result demo_dag levels (NewRunnerBoundedContinue demo_dag 2) r _ Hs
    (fresh_NewRunnerBoundedContinue _ _) Hreach Hd) as (_ & _ & Hcont).
  exists r. split; [done|]. apply (proj2 (Hcont eq_refl Hc)). by eexists.
Defined.

Lemma run_terminates_witness :
  exists r, steps demo_actions demo_start = Some r /\ 11 <= 1 + 2 * 2 + 2 * size (Nodes demo_dag).
Proof.
  destruct (steps demo_actions demo_start) as [r|] eqn:E; [|vm_compute in E; discriminate].
  destruct (TopologicalSort demo_dag) as [levels|] eqn:Hs; [|vm_compute in Hs; discriminate].
  pose proof (proj1 (run_terminates demo_dag levels (NewRunnerBoundedContinue demo_dag 2) demo_actions r Hs
    (fresh_NewRunnerBoundedContinue _ _) E)) as Hb.
  exists r. split; [done|]. vm_compute in Hs. injection Hs as <-. exact Hb.
Defined.
End demo.
