(* ===== verification/Model.v ===== *)
(** * Pipelines and runs: [internal/model/pipeline.go], [internal/model/run.go]

    The records the executor, the validators and the stores share.  A nil and an
    empty slice or map are the same value here; [HelmValues] (an untyped tree)
    is kept as its JSON text; canvas positions are left out. *)

From S2P Require Import Prelude.
Local Open Scope Z_scope.

(** ** Statuses *)

Definition RunStatus : Type := string.
Definition RunStatusPending : RunStatus := "pending".
Definition RunStatusRunning : RunStatus := "running".
Definition RunStatusSuccess : RunStatus := "success".
Definition RunStatusFailed : RunStatus := "failed".
Definition RunStatusCancelled : RunStatus := "cancelled".
Definition RunStatusSkipped : RunStatus := "skipped".

(** ** Pipelines *)

Definition StageType : Type := string.
Definition StageTypeBuild : StageType := "build".
Definition StageTypeTest : StageType := "test".
Definition StageTypeDeploy : StageType := "deploy".
Definition StageTypePush : StageType := "push".
Definition StageTypeApproval : StageType := "approval".
Definition StageTypeCustom : StageType := "custom".
Definition StageTypeGitOpsCommit : StageType := "gitops-commit".

Record RetryPolicy := mkRetryPolicy {
  rp_MaxAttempts : Z; rp_InitialMS : Z; rp_MaxMS : Z; rp_Exponential : option bool
}.

Record CacheSpec := mkCacheSpec { cs_Mode : string; cs_Ref : string; cs_Inline : bool }.

Record ResourceLimits := mkResourceLimits {
  rl_Memory : string; rl_MemoryBytes : Z; rl_CPUs : string; rl_NanoCPUs : Z
}.

Record ContainerHealthCheck := mkHealthCheck {
  hc_Command : list string; hc_Interval : Z; hc_Timeout : Z; hc_Retries : Z; hc_StartPeriod : Z
}.

Record StageConfig := mkStageConfig {
  cfg_Dockerfile : string; cfg_Context : string; cfg_BuildArgs : gmap string string;
  cfg_BuildTarget : string; cfg_Tags : list string; cfg_Platforms : list string;
  cfg_Cache : option CacheSpec;
  cfg_Image : string; cfg_Command : list string;
  cfg_Registry : string; cfg_Repository : string;
  cfg_Namespace : string; cfg_ManifestPath : string; cfg_HelmChart : string; cfg_HelmValues : string;
  cfg_DeployRuntime : string; cfg_RuntimeName : string; cfg_ComposeProject : string;
  cfg_ReviewOnly : bool; cfg_HealthCheck : option ContainerHealthCheck;
  cfg_ComposeServiceName : string; cfg_ComposeBuildContext : string; cfg_ComposeDockerfile : string;
  cfg_ComposePorts : list string; cfg_Resources : option ResourceLimits;
  cfg_Script : string; cfg_Timeout : string;
  cfg_RequiredApprovers : Z; cfg_Retries : Z; cfg_Retry : option RetryPolicy;
  cfg_Env : gmap string string; cfg_ProxyHost : string; cfg_SecretRefs : list string;
  cfg_GitOpsRepo : string; cfg_GitOpsBranch : string; cfg_GitOpsPath : string;
  cfg_GitOpsMessage : string; cfg_GitOpsContent : string
}.

(** The zero value, for building examples. *)
Definition empty_config : StageConfig :=
  mkStageConfig "" "" ∅ "" [] [] None "" [] "" "" "" "" "" "" "" "" "" false None "" "" "" [] None
    "" "" 0 0 None ∅ "" [] "" "" "" "" "".

Record Stage := mkStage {
  st_ID : string; st_Name : string; st_Type : StageType; st_Config : StageConfig;
  st_EnvironmentID : string; st_Group : string
}.

Record Edge := mkEdge { e_ID : string; e_Source : string; e_Target : string; e_Condition : string }.

Record Pipeline := mkPipeline {
  p_ID : string; p_Name : string; p_Description : string;
  p_Stages : list Stage; p_Edges : list Edge; p_Variables : gmap string string;
  p_CreatedAt : Z; p_UpdatedAt : Z; p_Version : Z; p_RunDeadline : string
}.

(** ** Runs *)

Record Artifact := mkArtifact { a_Type : string; a_Ref : string; a_Digest : string }.

Record StageRun := mkStageRun {
  sr_StageID : string; sr_Status : RunStatus; sr_StartedAt : option Z; sr_FinishedAt : option Z;
  sr_Logs : string; sr_Error : string; sr_Artifacts : list Artifact; sr_Outputs : gmap string string
}.

Definition sr_set_Status v (s : StageRun) : StageRun :=
  mkStageRun (sr_StageID s) v (sr_StartedAt s) (sr_FinishedAt s) (sr_Logs s) (sr_Error s) (sr_Artifacts s) (sr_Outputs s).
Definition sr_set_StartedAt v (s : StageRun) : StageRun :=
  mkStageRun (sr_StageID s) (sr_Status s) v (sr_FinishedAt s) (sr_Logs s) (sr_Error s) (sr_Artifacts s) (sr_Outputs s).
Definition sr_set_FinishedAt v (s : StageRun) : StageRun :=
  mkStageRun (sr_StageID s) (sr_Status s) (sr_StartedAt s) v (sr_Logs s) (sr_Error s) (sr_Artifacts s) (sr_Outputs s).
Definition sr_set_Logs v (s : StageRun) : StageRun :=
  mkStageRun (sr_StageID s) (sr_Status s) (sr_StartedAt s) (sr_FinishedAt s) v (sr_Error s) (sr_Artifacts s) (sr_Outputs s).
Definition sr_set_Error v (s : StageRun) : StageRun :=
  mkStageRun (sr_StageID s) (sr_Status s) (sr_StartedAt s) (sr_FinishedAt s) (sr_Logs s) v (sr_Artifacts s) (sr_Outputs s).
Definition sr_set_Artifacts v (s : StageRun) : StageRun :=
  mkStageRun (sr_StageID s) (sr_Status s) (sr_StartedAt s) (sr_FinishedAt s) (sr_Logs s) (sr_Error s) v (sr_Outputs s).
Definition sr_set_Outputs v (s : StageRun) : StageRun :=
  mkStageRun (sr_StageID s) (sr_Status s) (sr_StartedAt s) (sr_FinishedAt s) (sr_Logs s) (sr_Error s) (sr_Artifacts s) v.

Definition EnvStatus : Type := string.
Definition EnvStatusPending : EnvStatus := "pending".
Definition EnvStatusDeploying : EnvStatus := "deploying".
Definition EnvStatusDeployed : EnvStatus := "deployed".
Definition EnvStatusFailed : EnvStatus := "failed".
Definition EnvStatusAwaitingApproval : EnvStatus := "awaiting_approval".

Record EnvironmentStatus := mkEnvironmentStatus {
  es_EnvironmentID : string; es_Status : EnvStatus; es_PromotedAt : option Z; es_ApprovedBy : string;
  es_ApprovalsHave : Z; es_ApprovalsNeed : Z
}.

Record PipelineRun := mkPipelineRun {
  run_ID : string; run_PipelineID : string; run_Status : RunStatus; run_StageRuns : list StageRun;
  run_EnvironmentStatuses : list EnvironmentStatus; run_Variables : gmap string string;
  run_CreatedAt : Z; run_StartedAt : option Z; run_FinishedAt : option Z; run_Error : string;
  run_HeartbeatAt : option Z; run_StartedByUserSub : string; run_StartedByEmail : string;
  run_StartedByGroups : list string; run_StartedByTokenHash : string; run_PipelineVersion : Z
}.

Definition run_set_Status v (r : PipelineRun) : PipelineRun :=
  mkPipelineRun (run_ID r) (run_PipelineID r) v (run_StageRuns r) (run_EnvironmentStatuses r)
    (run_Variables r) (run_CreatedAt r) (run_StartedAt r) (run_FinishedAt r) (run_Error r) (run_HeartbeatAt r)
    (run_StartedByUserSub r) (run_StartedByEmail r) (run_StartedByGroups r) (run_StartedByTokenHash r) (run_PipelineVersion r).
Definition run_set_StageRuns v (r : PipelineRun) : PipelineRun :=
  mkPipelineRun (run_ID r) (run_PipelineID r) (run_Status r) v (run_EnvironmentStatuses r)
    (run_Variables r) (run_CreatedAt r) (run_StartedAt r) (run_FinishedAt r) (run_Error r) (run_HeartbeatAt r)
    (run_StartedByUserSub r) (run_StartedByEmail r) (run_StartedByGroups r) (run_StartedByTokenHash r) (run_PipelineVersion r).
Definition run_set_CreatedAt v (r : PipelineRun) : PipelineRun :=
  mkPipelineRun (run_ID r) (run_PipelineID r) (run_Status r) (run_StageRuns r) (run_EnvironmentStatuses r)
    (run_Variables r) v (run_StartedAt r) (run_FinishedAt r) (run_Error r) (run_HeartbeatAt r)
    (run_StartedByUserSub r) (run_StartedByEmail r) (run_StartedByGroups r) (run_StartedByTokenHash r) (run_PipelineVersion r).
Definition run_set_StartedAt v (r : PipelineRun) : PipelineRun :=
  mkPipelineRun (run_ID r) (run_PipelineID r) (run_Status r) (run_StageRuns r) (run_EnvironmentStatuses r)
    (run_Variables r) (run_CreatedAt r) v (run_FinishedAt r) (run_Error r) (run_HeartbeatAt r)
    (run_StartedByUserSub r) (run_StartedByEmail r) (run_StartedByGroups r) (run_StartedByTokenHash r) (run_PipelineVersion r).
Definition run_set_FinishedAt v (r : PipelineRun) : PipelineRun :=
  mkPipelineRun (run_ID r) (run_PipelineID r) (run_Status r) (run_StageRuns r) (run_EnvironmentStatuses r)
    (run_Variables r) (run_CreatedAt r) (run_StartedAt r) v (run_Error r) (run_HeartbeatAt r)
    (run_StartedByUserSub r) (run_StartedByEmail r) (run_StartedByGroups r) (run_StartedByTokenHash r) (run_PipelineVersion r).
Definition run_set_Error v (r : PipelineRun) : PipelineRun :=
  mkPipelineRun (run_ID r) (run_PipelineID r) (run_Status r) (run_StageRuns r) (run_EnvironmentStatuses r)
    (run_Variables r) (run_CreatedAt r) (run_StartedAt r) (run_FinishedAt r) v (run_HeartbeatAt r)
    (run_StartedByUserSub r) (run_StartedByEmail r) (run_StartedByGroups r) (run_StartedByTokenHash r) (run_PipelineVersion r).
Definition run_set_HeartbeatAt v (r : PipelineRun) : PipelineRun :=
  mkPipelineRun (run_ID r) (run_PipelineID r) (run_Status r) (run_StageRuns r) (run_EnvironmentStatuses r)
    (run_Variables r) (run_CreatedAt r) (run_StartedAt r) (run_FinishedAt r) (run_Error r) v
    (run_StartedByUserSub r) (run_StartedByEmail r) (run_StartedByGroups r) (run_StartedByTokenHash r) (run_PipelineVersion r).

(** The terminal outcome [Execute] reports. *)
Record RunResult := mkRunResult { rr_Status : RunStatus; rr_FinishedAt : Z }.
