(* ===== verification/RunState.v ===== *)
(** * Run and stage lifecycles: [internal/runstate]

    The transition tables, the FSM value and the adapters the executor calls.
    The transition engine is [github.com/looplab/fsm]: an argument of the
    development, with its documented behaviour as laws. *)

From S2P Require Import Prelude Model.

(** ** looplab/fsm *)

Record EventDesc := mkEventDesc { ed_Name : string; ed_Src : list string; ed_Dst : string }.

Inductive lf_error := InvalidEventError | UnknownEventError | OtherEventError (msg : string).

(** What [runstate] uses of the library: [NewFSM(initial, events, nil)],
    [Event], [Can], [Current]. *)
Class LoopFSM := {
  lf_machine : Type;
  lf_NewFSM : string -> list EventDesc -> lf_machine;
  lf_Event : lf_machine -> string -> option lf_error * lf_machine;
  lf_Can : lf_machine -> string -> bool;
  lf_Current : lf_machine -> string
}.

(** The descriptors declare this edge. *)
Definition declared (evs : list EventDesc) (src ev dst : string) : Prop :=
  exists d, d ∈ evs /\ ed_Name d = ev /\ src ∈ ed_Src d /\ ed_Dst d = dst.

(** At most one destination per source and event. *)
Definition deterministic (evs : list EventDesc) : Prop :=
  forall src ev d1 d2, declared evs src ev d1 -> declared evs src ev d2 -> d1 = d2.

(** The documented behaviour: an event moves along its declared edge; without
    one it fails as invalid or unknown. *)
Class LoopFSMLaws `{LoopFSM} := {
  lf_fires evs src ev dst : deterministic evs -> declared evs src ev dst -> src <> dst ->
    lf_Can (lf_NewFSM src evs) ev = true /\
    exists m, lf_Event (lf_NewFSM src evs) ev = (None, m) /\ lf_Current m = dst;
  lf_rejects evs src ev : deterministic evs -> (forall dst, ~ declared evs src ev dst) ->
    lf_Can (lf_NewFSM src evs) ev = false /\
    exists m, lf_Event (lf_NewFSM src evs) ev = (Some InvalidEventError, m) \/
              lf_Event (lf_NewFSM src evs) ev = (Some UnknownEventError, m)
}.

(** ** The builder *)

Definition State : Type := string.
Definition Event : Type := string.

Definition StatePending : State := "pending".
Definition StateRunning : State := "running".
Definition StateSucceeded : State := "success".
Definition StateFailed : State := "failed".
Definition StateCancelled : State := "cancelled".
Definition StateSkipped : State := "skipped".

Definition EventStart : Event := "start".
Definition EventSucceed : Event := "succeed".
Definition EventFail : Event := "fail".
Definition EventCancel : Event := "cancel".
Definition EventSkip : Event := "skip".

Record Transition := mkTransition { t_From : string; t_Event : string; t_To : string }.

(** The table is keyed by the source state and the event. *)
Record Builder := mkBuilder { b_table : gmap (string * string) string; b_name : string }.

Definition NewBuilder (name : string) : Builder := mkBuilder ∅ name.

(** [None] is the panic on a duplicate edge. *)
Definition Allow (t : Transition) (b : Builder) : option Builder :=
  match b_table b !! (t_From t, t_Event t) with
  | Some _ => None
  | None => Some (mkBuilder (<[(t_From t, t_Event t) := t_To t]> (b_table b)) (b_name b))
  end.

Record FSM := mkFSM { f_current : State; f_events : list EventDesc; f_names : string }.

Inductive fsm_error := ErrInvalidTransition (name : string) (from : State) (ev : Event)
| EngineError (e : lf_error).

Section builder.
Context `{RO : RangeOrder}.

(** [groups[gk] = append(groups[gk], from)] over the table. *)
Definition groups (b : Builder) : gmap (string * string) (list string) :=
  foldl (fun g '((from, ev), to) => <[(ev, to) := default [] (g !! (ev, to)) ++ [from]]> g)
    ∅ (range_map (b_table b)).

Definition events (b : Builder) : list EventDesc :=
  (fun '((ev, to), srcs) => mkEventDesc ev srcs to) <$> range_map (groups b).

Definition Build (b : Builder) (initial : State) : FSM := mkFSM initial (events b) (b_name b).
End builder.

Section engine.
Context `{LF : LoopFSM}.

Definition Can (f : FSM) (ev : Event) : bool := lf_Can (lf_NewFSM (f_current f) (f_events f)) ev.

Definition Apply (f : FSM) (ev : Event) : result fsm_error FSM :=
  match lf_Event (lf_NewFSM (f_current f) (f_events f)) ev with
  | (Some InvalidEventError, _) | (Some UnknownEventError, _) =>
      Err (ErrInvalidTransition (f_names f) (f_current f) ev)
  | (Some e, _) => Err (EngineError e)
  | (None, m) => Ok (mkFSM (lf_Current m) (f_events f) (f_names f))
  end.
End engine.

(** ** The tables *)

Fixpoint allow_all (ts : list Transition) (b : Builder) : option Builder :=
  match ts with
  | [] => Some b
  | t :: ts => Allow t b ≫= allow_all ts
  end.

Definition run_transitions : list Transition :=
  [mkTransition StatePending EventStart StateRunning;
   mkTransition StatePending EventCancel StateCancelled;
   mkTransition StateRunning EventSucceed StateSucceeded;
   mkTransition StateRunning EventFail StateFailed;
   mkTransition StateRunning EventCancel StateCancelled].

Definition stage_transitions : list Transition :=
  [mkTransition StatePending EventStart StateRunning;
   mkTransition StatePending EventCancel StateCancelled;
   mkTransition StatePending EventSkip StateSkipped;
   mkTransition StateRunning EventSucceed StateSucceeded;
   mkTransition StateRunning EventFail StateFailed;
   mkTransition StateRunning EventCancel StateCancelled].

(** The package variables; [None] would be the panic at start-up. *)
Definition runBuilder : option Builder := allow_all run_transitions (NewBuilder "run").
Definition stageBuilder : option Builder := allow_all stage_transitions (NewBuilder "stage").

Definition builder_of (ob : option Builder) : Builder := default (NewBuilder "") ob.

Definition IsTerminal (s : State) : bool :=
  (s =s StateSucceeded) || (s =s StateFailed) || (s =s StateCancelled) || (s =s StateSkipped).

(** ** The adapters *)

Section adapters.
Context `{RO : RangeOrder} `{LF : LoopFSM}.

Definition NewRunFSM (initial : State) : FSM := Build (builder_of runBuilder) initial.
Definition NewStageFSM (initial : State) : FSM := Build (builder_of stageBuilder) initial.

(** Both adapters: the new status, or the old one with the error. *)
Definition transition_with (fsm : FSM) (current : RunStatus) (ev : Event) : RunStatus * option fsm_error :=
  match Apply fsm ev with
  | Err e => (current, Some e)
  | Ok next => (f_current next, None)
  end.

Definition TransitionRun (current : RunStatus) (ev : Event) : RunStatus * option fsm_error :=
  transition_with (NewRunFSM current) current ev.

Definition TransitionStage (current : RunStatus) (ev : Event) : RunStatus * option fsm_error :=
  transition_with (NewStageFSM current) current ev.

Definition CanTransitionRun (current : RunStatus) (ev : Event) : bool := Can (NewRunFSM current) ev.
End adapters.

(** ** The descriptors declare exactly the table's edges *)

Section facts.
Context `{RO : RangeOrder}.

Lemma elem_of_groups l : forall (g : gmap (string * string) (list string)) from ev to,
  from ∈ default [] (foldl (fun g '((from, ev), to) =>
    <[(ev, to) := default [] (g !! (ev, to)) ++ [from]]> g) g l !! (ev, to)) <->
  from ∈ default [] (g !! (ev, to)) \/ ((from, ev), to) ∈ l.
Proof.
  induction l as [|[[from0 ev0] to0] l IH]; intros g from ev to.
  - cbn. split; [by left|]. by intros [?|?%not_elem_of_nil].
  - cbn [foldl]. rewrite IH, elem_of_cons.
    destruct (decide ((ev0, to0) = (ev, to))) as [[= -> ->]|Hne].
    + rewrite lookup_insert_eq. cbn. rewrite elem_of_app, list_elem_of_singleton.
      split; [intros [[?| ->]|?]|intros [?|[[= ->]|?]]]; auto.
    + rewrite lookup_insert_ne by done. split; [intros [?|?]|intros [?|[[= -> -> ->]|?]]]; auto. done.
Qed.

Lemma declared_events b src ev dst :
  declared (events b) src ev dst <-> b_table b !! (src, ev) = Some dst.
Proof.
  rewrite <- elem_of_range. unfold declared, events.
  assert (src ∈ default [] (groups b !! (ev, dst)) <-> (src, ev, dst) ∈ range_map (b_table b)) as Hg.
  { pose proof (elem_of_groups (range_map (b_table b)) ∅ src ev dst) as Hg. rewrite lookup_empty in Hg.
    unfold groups. etrans; [exact Hg|]. split; [by intros [?%not_elem_of_nil|?]|by right]. }
  split.
  - intros (d & ([[ev' to'] srcs] & -> & Hin)%list_elem_of_fmap & <- & Hs & <-). cbn in *.
    apply elem_of_range in Hin. apply elem_of_range.
    rewrite Hin in Hg. cbn in Hg. apply Hg in Hs. by apply elem_of_range in Hs.
  - intros Hin. destruct (groups b !! (ev, dst)) as [srcs|] eqn:E; cbn in Hg.
    + exists (mkEventDesc ev srcs dst). split_and!; [|done| |done].
      * apply list_elem_of_fmap. exists ((ev, dst), srcs). split; [done|]. by apply elem_of_range.
      * by apply Hg.
    + by apply Hg, not_elem_of_nil in Hin.
Qed.

Lemma events_deterministic b : deterministic (events b).
Proof. intros src ev d1 d2. rewrite !declared_events. congruence. Qed.
End facts.

(** ** What the adapters compute *)

Section lifecycle.
Context `{RO : RangeOrder} {LF : LoopFSM} {LFL : LoopFSMLaws}.

Lemma transition_with_spec b (cur ev : string) :
  (forall dst, b_table b !! (cur, ev) = Some dst -> cur <> dst) ->
  transition_with (Build b cur) cur ev =
    (match b_table b !! (cur, ev) with
     | Some dst => (dst, None)
     | None => (cur, Some (ErrInvalidTransition (b_name b) cur ev))
     end) /\
  Can (Build b cur) ev = bool_decide (is_Some (b_table b !! (cur, ev))).
Proof.
  intros Hne. unfold transition_with, Can, Apply, Build. cbn [f_current f_events f_names].
  pose proof (events_deterministic b) as Hdet. destruct (b_table b !! (cur, ev)) as [dst|] eqn:E.
  - destruct (lf_fires (events b) cur ev dst Hdet) as (-> & m & -> & Hm); [by apply declared_events|by apply Hne|].
    cbn. by rewrite Hm.
  - destruct (lf_rejects (events b) cur ev Hdet) as (-> & m & Hm).
    { intros dst. rewrite declared_events. by rewrite E. }
    by destruct Hm as [-> | ->].
Qed.
(** The edges of the two tables. *)
Definition run_edge (from ev : string) : option string :=
  b_table (builder_of runBuilder) !! (from, ev).
Definition stage_edge (from ev : string) : option string :=
  b_table (builder_of stageBuilder) !! (from, ev).

Lemma no_self_edge (m : gmap (string * string) string) :
  Forall (fun kv => kv.1.1 <> kv.2) (map_to_list m) ->
  forall from ev dst, m !! (from, ev) = Some dst -> from <> dst.
Proof.
  rewrite Forall_forall. intros Hall from ev dst Hl%elem_of_map_to_list. by apply (Hall ((from, ev), dst)).
Qed.

Lemma TransitionRun_spec (cur ev : string) :
  TransitionRun cur ev =
    (match run_edge cur ev with
     | Some dst => (dst, None)
     | None => (cur, Some (ErrInvalidTransition "run" cur ev))
     end) /\
  CanTransitionRun cur ev = bool_decide (is_Some (run_edge cur ev)).
Proof.
  apply (transition_with_spec (builder_of runBuilder)). apply no_self_edge. vm_compute.
  repeat (constructor; [discriminate|]). constructor.
Qed.

Lemma TransitionStage_spec (cur ev : string) :
  TransitionStage cur ev =
    match stage_edge cur ev with
    | Some dst => (dst, None)
    | None => (cur, Some (ErrInvalidTransition "stage" cur ev))
    end.
Proof.
  apply (transition_with_spec (builder_of stageBuilder)). apply no_self_edge. vm_compute.
  repeat (constructor; [discriminate|]). constructor.
Qed.

(** Reading an edge off the list it was declared in. *)
Lemma allow_all_lookup ts : forall b b' (from ev dst : string),
  allow_all ts b = Some b' ->
  b_table b' !! (from, ev) = Some dst <->
  b_table b !! (from, ev) = Some dst \/ mkTransition from ev dst ∈ ts.
Proof.
  induction ts as [|[f e t] ts IH]; intros b b' from ev dst H.
  - cbn in H. simplify_eq. split; [by left|]. by intros [?|?%not_elem_of_nil].
  - cbn in H. unfold Allow in H. cbn in H. destruct (b_table b !! (f, e)) eqn:E; cbn in H; [done|].
    rewrite (IH _ _ from ev dst H), elem_of_cons. cbn [b_table].
    destruct (decide ((f, e) = (from, ev))) as [[= -> ->]|Hne].
    + rewrite lookup_insert_eq, E. split.
      * intros [[= ->]|?]; [right; by left|right; by right].
      * intros [?|[[= ->]|?]]; [done|by left|by right].
    + rewrite lookup_insert_ne by done. split.
      * intros [?|?]; [by left|right; by right].
      * intros [?|[[= -> -> ->]|?]]; [by left|done|by right].
Qed.

Lemma terminal_run_transitions from ev dst : mkTransition from ev dst ∈ run_transitions -> IsTerminal from = false.
Proof. intros H. repeat (apply elem_of_cons in H as [[= -> -> ->]|H]; [done|]). by apply not_elem_of_nil in H. Qed.

Lemma terminal_stage_transitions from ev dst : mkTransition from ev dst ∈ stage_transitions -> IsTerminal from = false.
Proof. intros H. repeat (apply elem_of_cons in H as [[= -> -> ->]|H]; [done|]). by apply not_elem_of_nil in H. Qed.

Lemma run_edge_table cur ev dst : run_edge cur ev = Some dst <-> mkTransition cur ev dst ∈ run_transitions.
Proof.
  unfold run_edge. rewrite (allow_all_lookup run_transitions (NewBuilder "run") _ cur ev dst eq_refl).
  cbn [b_table NewBuilder]. rewrite lookup_empty. by split; [intros [?|?]|right].
Qed.

Lemma stage_edge_table cur ev dst : stage_edge cur ev = Some dst <-> mkTransition cur ev dst ∈ stage_transitions.
Proof.
  unfold stage_edge. rewrite (allow_all_lookup stage_transitions (NewBuilder "stage") _ cur ev dst eq_refl).
  cbn [b_table NewBuilder]. rewrite lookup_empty. by split; [intros [?|?]|right].
Qed.

(** Status changes follow the declared life cycle: [TransitionRun] and
    [TransitionStage] move along exactly the edges of their tables, and leave
    the status alone with an invalid-transition error otherwise;
    [CanTransitionRun] predicts it; no edge leaves a terminal status, and a run
    is never skipped. *)
Theorem transitions_follow_table (cur ev next : string) :
  (TransitionRun cur ev = (next, None) <-> mkTransition cur ev next ∈ run_transitions) /\
  (TransitionStage cur ev = (next, None) <-> mkTransition cur ev next ∈ stage_transitions) /\
  (CanTransitionRun cur ev = true <-> exists dst, mkTransition cur ev dst ∈ run_transitions) /\
  (IsTerminal cur = true ->
     TransitionRun cur ev = (cur, Some (ErrInvalidTransition "run" cur ev)) /\
     TransitionStage cur ev = (cur, Some (ErrInvalidTransition "stage" cur ev))) /\
  (TransitionRun cur ev = (next, None) -> next <> RunStatusSkipped).
Proof.
  destruct (TransitionRun_spec cur ev) as [HR HC]. pose proof (TransitionStage_spec cur ev) as HS.
  rewrite HR, HC, HS.
  pose proof (run_edge_table cur ev) as Hr. pose proof (stage_edge_table cur ev) as Hs.
  split_and!.
  - rewrite <- Hr. destruct (run_edge cur ev); split; intros [= ->]; done.
  - rewrite <- Hs. destruct (stage_edge cur ev); split; intros [= ->]; done.
  - rewrite bool_decide_eq_true. unfold is_Some. by setoid_rewrite Hr.
  - intros Ht. destruct (run_edge cur ev) as [dst|] eqn:E1; [|destruct (stage_edge cur ev) as [dst|] eqn:E2].
    + pose proof (terminal_run_transitions _ _ _ (proj1 (Hr dst) eq_refl)). congruence.
    + pose proof (terminal_stage_transitions _ _ _ (proj1 (Hs dst) eq_refl)). congruence.
    + done.
  - destruct (run_edge cur ev) as [dst|] eqn:E; [|done]. intros [= <-] ->.
    pose proof (proj1 (Hr _) eq_refl) as Hin. clear -Hin. rename Hin into E. repeat (apply elem_of_cons in E as [[=]|E]; try done). by apply not_elem_of_nil in E.
Qed.
End lifecycle.

(** ** A concrete engine *)

(** The declared edge, looked up in the descriptors. *)
Definition find_dst (evs : list EventDesc) (src ev : string) : option string :=
  ed_Dst <$> head (filter (fun d => ed_Name d = ev /\ src ∈ ed_Src d) evs).

#[export] Instance table_engine : LoopFSM := {
  lf_machine := string * list EventDesc;
  lf_NewFSM := pair;
  lf_Event := fun '(cur, evs) ev =>
    match find_dst evs cur ev with
    | Some dst => (None, (dst, evs))
    | None => (Some InvalidEventError, (cur, evs))
    end;
  lf_Can := fun '(cur, evs) ev => match find_dst evs cur ev with Some _ => true | None => false end;
  lf_Current := fst
}.

Lemma find_dst_spec evs src ev :
  match find_dst evs src ev with
  | Some dst => declared evs src ev dst
  | None => forall dst, ~ declared evs src ev dst
  end.
Proof.
  unfold find_dst. destruct (filter _ evs) as [|d l] eqn:E; cbn.
  - intros dst (d & Hin & Hn & Hs & _).
    assert (d ∈ filter (fun d => ed_Name d = ev /\ src ∈ ed_Src d) evs) as Hf by (by apply list_elem_of_filter).
    rewrite E in Hf. by apply not_elem_of_nil in Hf.
  - assert (d ∈ filter (fun d => ed_Name d = ev /\ src ∈ ed_Src d) evs) as Hf by (rewrite E; left).
    apply list_elem_of_filter in Hf as [[? ?] ?]. by exists d.
Qed.

#[export] Instance table_engine_laws : LoopFSMLaws.
Proof.
  split; cbn; intros evs src ev.
  - intros dst Hdet Hd _. pose proof (find_dst_spec evs src ev) as Hf.
    destruct (find_dst evs src ev) as [d'|]; [|by destruct (Hf dst)].
    rewrite (Hdet src ev d' dst Hf Hd). split; [done|]. by eexists.
  - intros Hdet Hno. pose proof (find_dst_spec evs src ev) as Hf.
    destruct (find_dst evs src ev) as [d'|]; [by destruct (Hno d')|]. split; [done|]. eexists. by left.
Qed.

Lemma transitions_follow_table_witness :
  let _ := range_default in
  TransitionRun RunStatusSuccess EventStart =
    (RunStatusSuccess, Some (ErrInvalidTransition "run" RunStatusSuccess EventStart)).
Proof.
  intros RO. destruct (transitions_follow_table RunStatusSuccess EventStart "") as (_ & _ & _ & Ht & _).
  apply Ht. reflexivity.
Defined.
