(* ===== verification/Interpolate.v ===== *)
(** * Output references: [internal/build/buildplan/interpolate.go]

    The scanner behind [outputRef], the substitution and the static scan.  The
    regular expression's two character classes exclude the separator that ends
    them, so a match at a position is found without backtracking. *)

From S2P Require Import Prelude GoStr.
From Stdlib Require Import Ascii.

(** ** The regular expression *)

Definition is_alnum_ (c : ascii) : bool :=
  let n := nat_of_ascii c in
  ((48 <=? n) && (n <=? 57) || (65 <=? n) && (n <=? 90) || (97 <=? n) && (n <=? 122) || (n =? 95))%nat.

(** [[A-Za-z0-9_-]] and [[A-Za-z0-9_]]. *)
Definition id_char (c : ascii) : bool := is_alnum_ c || Ascii.eqb c "-".
Definition key_char (c : ascii) : bool := is_alnum_ c.

(** The longest prefix of characters in a class, and the rest. *)
Fixpoint span (p : ascii -> bool) (s : string) : string * string :=
  match s with
  | String c s' => if p c then let '(a, b) := span p s' in (String c a, b) else (EmptyString, s)
  | EmptyString => (EmptyString, EmptyString)
  end.

Definition strip_prefix (p s : string) : option string :=
  if String.prefix p s then Some (String.substring (String.length p) (String.length s - String.length p) s)
  else None.

Definition opening : string := "${stages.".

(** The rest of [s] after the byte [c]. *)
Definition expect (c : ascii) (s : string) : option string :=
  match s with
  | String c' s' => if Ascii.eqb c' c then Some s' else None
  | EmptyString => None
  end.

Definition nonempty_span (p : ascii -> bool) (s : string) : option (string * string) :=
  let '(a, b) := span p s in if a =s "" then None else Some (a, b).

(** A match of [outputRef] at the start of [s]: the two groups and the rest. *)
Definition match_ref (s : string) : option (string * string * string) :=
  s1 ← strip_prefix opening s;
  '(id, s2) ← nonempty_span id_char s1;
  s3 ← expect "." s2;
  '(key, s4) ← nonempty_span key_char s3;
  s5 ← expect "}" s4;
  Some (id, key, s5).

(** A string as the sequence of its bytes and of the non-overlapping matches,
    leftmost first. *)
Inductive piece := Lit (c : ascii) | Ref (id key : string).

Fixpoint pieces_fuel (fuel : nat) (s : string) : list piece :=
  match fuel with
  | O => []
  | S fuel =>
      match s with
      | EmptyString => []
      | String c s' =>
          match match_ref s with
          | Some (id, key, rest) => Ref id key :: pieces_fuel fuel rest
          | None => Lit c :: pieces_fuel fuel s'
          end
      end
  end.

(** Every piece takes at least one byte. *)
Definition pieces (s : string) : list piece := pieces_fuel (String.length s) s.

Definition render (p : piece) : string :=
  match p with
  | Lit c => String c EmptyString
  | Ref id key => opening +:+ id +:+ "." +:+ key +:+ "}"
  end.

Definition concat_str (l : list string) : string := foldr String.append EmptyString l.

(** ** Substitution *)

Definition OutputResolver : Type := gmap string (gmap string string).

Inductive interp_error := UnknownStage (id key : string) | NoOutput (id key : string).

#[export] Instance interp_error_eq_dec : EqDecision interp_error.
Proof. solve_decision. Defined.

Definition resolve (r : gmap string (gmap string string)) (p : piece) : result interp_error string :=
  match p with
  | Lit c => Ok (String c EmptyString)
  | Ref id key =>
      match r !! id with
      | None => Err (UnknownStage id key)
      | Some outputs =>
          match outputs !! key with
          | None => Err (NoOutput id key)
          | Some v => Ok v
          end
      end
  end.

Fixpoint mapM_result {A B E} (f : A -> result E B) (l : list A) : result E (list B) :=
  match l with
  | [] => Ok []
  | x :: l => f x ≫= fun y => mapM_result f l ≫= fun ys => Ok (y :: ys)
  end.

(** The first error wins. *)
Definition Interpolate (s : string) (r : OutputResolver) : result interp_error string :=
  mapM_result (resolve r) (pieces s) ≫= fun parts => Ok (concat_str parts).

Definition InterpolateSlice (l : list string) (r : OutputResolver) : result interp_error (list string) :=
  mapM_result (fun v => Interpolate v r) l.

Definition InterpolateMap `{RangeOrder} (m : gmap string string) (r : OutputResolver)
    : result interp_error (gmap string string) :=
  mapM_result (fun '(k, v) => Interpolate v r ≫= fun iv => Ok (k, iv)) (range_map m) ≫= fun kvs =>
  Ok (list_to_map kvs).

(** The referenced stages, distinct, in first-seen order. *)
Definition ref_ids (ps : list piece) : list string :=
  ps ≫= fun p => match p with Ref id _ => [id] | Lit _ => [] end.

Fixpoint dedup (seen : gset string) (l : list string) : list string :=
  match l with
  | [] => []
  | x :: l => if bool_decide (x ∈ seen) then dedup seen l else x :: dedup ({[x]} ∪ seen) l
  end.

Definition References (s : string) : list string := dedup ∅ (ref_ids (pieces s)).

Example pieces_ex :
  ref_ids (pieces "a${IMAGE}${stages.build.digest}-${stages.x}${stages.b-1.k}") = ["build"; "b-1"].
Proof. reflexivity. Qed.

Example interpolate_ex :
  Interpolate "img@${stages.build.digest}${IMAGE}" {["build" := {["digest" := "sha256:1"]}]}
    = Ok "img@sha256:1${IMAGE}".
Proof. reflexivity. Qed.

(** ** Facts *)

Lemma append_cons c (a b : string) : String c a +:+ b = String c (a +:+ b).
Proof. reflexivity. Qed.

Lemma span_append p s : let '(a, b) := span p s in s = a +:+ b.
Proof.
  induction s as [|c s IH]; cbn; [done|]. destruct (p c); [|done].
  destruct (span p s) as [a b]. by rewrite append_cons, <- IH.
Qed.

Lemma substring_all s : String.substring 0 (String.length s) s = s.
Proof. induction s as [|c s IH]; [done|]. cbn. by rewrite IH. Qed.

Lemma strip_prefix_append p s rest : strip_prefix p s = Some rest -> s = p +:+ rest.
Proof.
  unfold strip_prefix. destruct (String.prefix p s) eqn:Hp; [|done]. intros [= <-].
  revert s Hp. induction p as [|c p IH]; intros s Hp.
  - cbn. by rewrite Nat.sub_0_r, substring_all.
  - destruct s as [|c' s]; [done|]. cbn in Hp. destruct (ascii_dec c c') as [->|]; [|done].
    rewrite append_cons. cbn. f_equal. by apply IH.
Qed.

Lemma expect_append c s rest : expect c s = Some rest -> s = String c rest.
Proof. destruct s as [|c' s]; cbn; [done|]. destruct (Ascii.eqb_spec c' c); naive_solver. Qed.

Lemma nonempty_span_append p s a b : nonempty_span p s = Some (a, b) -> s = a +:+ b.
Proof.
  unfold nonempty_span. pose proof (span_append p s) as H. destruct (span p s) as [a' b'].
  destruct (a' =s ""); [done|]. by intros [= <- <-].
Qed.

Lemma match_ref_render s id key rest :
  match_ref s = Some (id, key, rest) -> s = render (Ref id key) +:+ rest.
Proof.
  unfold match_ref. intros (s1 & ->%strip_prefix_append & H)%bind_Some.
  apply bind_Some in H as ([i s2] & ->%nonempty_span_append & H).
  apply bind_Some in H as (s3 & ->%expect_append & H).
  apply bind_Some in H as ([k s4] & ->%nonempty_span_append & H).
  apply bind_Some in H as (s5 & ->%expect_append & [= -> -> ->]).
  cbn [render]. by rewrite !append_assoc.
Qed.

Lemma pieces_fuel_render fuel : forall s, String.length s <= fuel ->
  concat_str (render <$> pieces_fuel fuel s) = s.
Proof.
  induction fuel as [|fuel IH]; intros [|c s] Hl; cbn in Hl; try done; [lia|].
  cbn [pieces_fuel]. destruct (match_ref (String c s)) as [[[id key] rest]|] eqn:Hm.
  - apply match_ref_render in Hm. cbn [fmap list_fmap concat_str foldr].
    fold (concat_str (render <$> pieces_fuel fuel rest)). rewrite IH; [by rewrite Hm|].
    apply (f_equal String.length) in Hm. cbn [render] in Hm. rewrite !length_append in Hm. cbn in Hm. lia.
  - cbn. f_equal. apply IH. lia.
Qed.

(** Cutting into pieces loses nothing. *)
Lemma pieces_render s : concat_str (render <$> pieces s) = s.
Proof. by apply pieces_fuel_render. Qed.

Lemma mapM_result_Ok {A B E} (f : A -> result E B) l ys :
  mapM_result f l = Ok ys <-> Forall2 (fun x y => f x = Ok y) l ys.
Proof.
  revert ys. induction l as [|x l IH]; intros ys; cbn.
  - split; [intros [= <-]; constructor|]. by inversion 1.
  - split.
    + intros H. inv_bind. injection H as <-. constructor; [done|]. by apply IH.
    + inversion 1 as [|? y ? ys' Hy Hys]; subst. rewrite Hy. cbn. apply IH in Hys. by rewrite Hys.
Qed.

Lemma mapM_result_total {A B E} (f : A -> result E B) l :
  (forall x, x ∈ l -> exists y, f x = Ok y) -> exists ys, mapM_result f l = Ok ys.
Proof.
  induction l as [|x l IH]; intros H; [by eexists|]. destruct (H x ltac:(left)) as [y Hy].
  destruct IH as [ys Hys]; [intros; apply H; by right|]. exists (y :: ys). cbn. rewrite Hy. cbn. by rewrite Hys.
Qed.

Lemma mapM_result_Err {A B E} (f : A -> result E B) l e :
  mapM_result f l = Err e -> exists x, x ∈ l /\ f x = Err e.
Proof.
  induction l as [|x l IH]; cbn; [done|]. intros [Hx|(y & Hy & H)]%bind_Err.
  - exists x. split; [by left|done].
  - apply bind_Err in H as [H|(ys & _ & H)]; [|done]. destruct (IH H) as (x' & ? & ?).
    exists x'. split; [by right|done].
Qed.

Lemma elem_of_dedup l : forall seen x, x ∈ dedup seen l <-> x ∈ l /\ (x ∉ seen).
Proof.
  induction l as [|y l IH]; intros seen x; cbn.
  - split; [by intros ?%not_elem_of_nil|by intros [?%not_elem_of_nil _]].
  - case_bool_decide as Hy.
    + rewrite IH, elem_of_cons. split; [tauto|]. intros [[->|?] ?]; tauto.
    + rewrite !elem_of_cons, IH. rewrite not_elem_of_union, elem_of_singleton.
      destruct (decide (x = y)) as [->|]; tauto.
Qed.

Lemma NoDup_dedup l : forall seen, NoDup (dedup seen l).
Proof.
  induction l as [|y l IH]; intros seen; cbn; [constructor|].
  case_bool_decide; [done|]. constructor; [|done]. rewrite elem_of_dedup. set_solver.
Qed.

Lemma elem_of_ref_ids id ps : id ∈ ref_ids ps <-> exists key, Ref id key ∈ ps.
Proof.
  unfold ref_ids. rewrite list_elem_of_bind. split.
  - intros ([c|id' key] & Hin & Hp); [by apply not_elem_of_nil in Hin|].
    apply list_elem_of_singleton in Hin as ->. by exists key.
  - intros [key Hk]. exists (Ref id key). split; [left|done].
Qed.

Lemma elem_of_References id s : id ∈ References s <-> exists key, Ref id key ∈ pieces s.
Proof.
  unfold References. rewrite elem_of_dedup, <- elem_of_ref_ids. split; [by intros [? _]|].
  intros ?. split; [done|set_solver].
Qed.

(** ** Properties *)

(** A string is the concatenation of its literal bytes and its reference
    tokens; interpolation replaces each token by the upstream output it names
    and keeps everything else verbatim, succeeds exactly when every token
    resolves, fails with the error of a token that does not, and leaves a
    string without references unchanged. [References] lists each referenced
    stage once. *)
Theorem Interpolate_correct s r :
  concat_str (render <$> pieces s) = s /\
  (forall out, Interpolate s r = Ok out <->
     exists parts, Forall2 (fun p v => resolve r p = Ok v) (pieces s) parts /\ out = concat_str parts) /\
  (forall e, Interpolate s r = Err e -> exists p, p ∈ pieces s /\ resolve r p = Err e) /\
  (References s = [] -> Interpolate s r = Ok s) /\
  NoDup (References s) /\ (forall id, id ∈ References s <-> exists key, Ref id key ∈ pieces s).
Proof.
  assert (forall out, Interpolate s r = Ok out <->
    exists parts, Forall2 (fun p v => resolve r p = Ok v) (pieces s) parts /\ out = concat_str parts) as Hok.
  { intros out. unfold Interpolate. rewrite bind_Ok. setoid_rewrite mapM_result_Ok. split.
    - intros (parts & Hp & [= <-]). by exists parts.
    - intros (parts & Hp & ->). by exists parts. }
  split_and!; [apply pieces_render|done| | |apply NoDup_dedup|intros; apply elem_of_References].
  - intros e. unfold Interpolate. intros [H|(ys & _ & [=])]%bind_Err. by apply mapM_result_Err in H.
  - intros Hr. apply Hok. exists (render <$> pieces s). rewrite pieces_render. split; [|done].
    apply Forall2_fmap_r, Forall_Forall2_diag, Forall_forall. intros [c|id key] Hin; [done|].
    assert (id ∈ References s) as Hn by (apply elem_of_References; by exists key).
    rewrite Hr in Hn. by apply not_elem_of_nil in Hn.
Qed.
