(* ===== verification/Pipeline.v ===== *)
(** * Pipeline validation: [internal/service/pipeline.go],
      [internal/build/buildplan/edges.go]

    The save-time checks, the graph the executor runs, the ancestor sets and the
    edge conditions. *)

From S2P Require Import Prelude Dag Model Interpolate.

(** ** Edge conditions *)

Definition EdgeAllows (upstream : RunStatus) (condition : string) : bool :=
  if (condition =s "") || (condition =s "success") then upstream =s RunStatusSuccess
  else if condition =s "failure" then upstream =s RunStatusFailed
  else if condition =s "always" then
    (upstream =s RunStatusSuccess) || (upstream =s RunStatusFailed) || (upstream =s RunStatusSkipped)
  else false.

Fixpoint StageShouldRun (stageID : string) (incoming : list Edge) (statusOf : string -> RunStatus) : bool :=
  match incoming with
  | [] => true
  | e :: incoming =>
      if negb (e_Target e =s stageID) then StageShouldRun stageID incoming statusOf
      else if negb (EdgeAllows (statusOf (e_Source e)) (e_Condition e)) then false
      else StageShouldRun stageID incoming statusOf
  end.

(** ** Dependencies *)

Definition deps_at (deps : gmap string (list string)) (id : string) : list string := default [] (deps !! id).

(** [deps[e.Target] = append(deps[e.Target], e.Source)] over the edges. *)
Definition deps_of_edges (edges : list Edge) : gmap string (list string) :=
  foldl (fun deps e => <[e_Target e := deps_at deps (e_Target e) ++ [e_Source e]]> deps) ∅ edges.

(** The breadth-first walk of [ancestorsOf]. *)
Fixpoint ancestors_loop (fuel : nat) (deps : gmap string (list string)) (queue : list string)
    (ancestors : gset string) : option (gset string) :=
  match queue with
  | [] => Some ancestors
  | cur :: queue =>
      match fuel with
      | O => None
      | S fuel =>
          if bool_decide (cur ∈ ancestors) then ancestors_loop fuel deps queue ancestors
          else ancestors_loop fuel deps (queue ++ deps_at deps cur) ({[cur]} ∪ ancestors)
      end
  end.

(** Dependencies of the stages not visited yet: what the queue may still grow by. *)
Definition weight (deps : gmap string (list string)) (visited : gset string) : nat :=
  sum_list ((fun kv => if decide (kv.1 ∈ visited) then 0 else length kv.2) <$> map_to_list deps).

Definition ancestorsOf (target : string) (deps : gmap string (list string)) : gset string :=
  let queue := deps_at deps target in
  default ∅ (ancestors_loop (length queue + weight deps ∅) deps queue ∅).

(** ** Validation *)

Section validation.
Context `{RO : RangeOrder}.

Definition stageInterpolatableStrings (s : Stage) : list string :=
  let c := st_Config s in
  [cfg_Registry c; cfg_Repository c; cfg_Image c; cfg_Context c; cfg_Dockerfile c;
   cfg_ManifestPath c; cfg_HelmChart c; cfg_Namespace c;
   cfg_GitOpsRepo c; cfg_GitOpsBranch c; cfg_GitOpsPath c; cfg_GitOpsMessage c; cfg_GitOpsContent c]
  ++ cfg_Tags c ++ cfg_Command c ++ cfg_Platforms c
  ++ (range_map (cfg_BuildArgs c)).*2 ++ (range_map (cfg_Env c)).*2.

Inductive issue :=
| DuplicateStage (id : string)
| UnknownSource (id : string)
| UnknownTarget (id : string)
| BadCondition (source target condition : string)
| RefUnknownStage (stage id : string)
| RefSelf (stage : string)
| RefNotAncestor (stage id : string)
| DagIssue (i : dag_issue).

(** The loop over the stages: the IDs seen, and the duplicates reported. *)
Definition check_stages (stages : list Stage) : gset string * list issue :=
  foldl (fun '(ids, errs) s =>
    ({[st_ID s]} ∪ ids, if bool_decide (st_ID s ∈ ids) then errs ++ [DuplicateStage (st_ID s)] else errs))
    (∅, []) stages.

Definition condition_known (c : string) : bool :=
  (c =s "") || (c =s "success") || (c =s "failure") || (c =s "always").

Definition check_edge (ids : gset string) (e : Edge) : list issue :=
  (if bool_decide (e_Source e ∈ ids) then [] else [UnknownSource (e_Source e)]) ++
  (if bool_decide (e_Target e ∈ ids) then [] else [UnknownTarget (e_Target e)]) ++
  (if condition_known (e_Condition e) then []
   else [BadCondition (e_Source e) (e_Target e) (e_Condition e)]).

(** The stages a stage references, distinct. *)
Definition stage_refs (s : Stage) : list string :=
  dedup ∅ (stageInterpolatableStrings s ≫= References).

Definition check_ref (ids ancestors : gset string) (s : Stage) (id : string) : list issue :=
  if negb (bool_decide (id ∈ ids)) then [RefUnknownStage (st_ID s) id]
  else if id =s st_ID s then [RefSelf (st_ID s)]
  else if negb (bool_decide (id ∈ ancestors)) then [RefNotAncestor (st_ID s) id]
  else [].

Definition check_refs (ids : gset string) (deps : gmap string (list string)) (s : Stage) : list issue :=
  match stage_refs s with
  | [] => []
  | refs => refs ≫= check_ref ids (ancestorsOf (st_ID s) deps) s
  end.

(** [dag.AddNode(s.ID, deps[s.ID])] over the stages. *)
Definition dag_of (stages : list Stage) (deps : gmap string (list string)) : DAG :=
  foldl (fun d s => AddNode d (st_ID s) (deps_at deps (st_ID s))) NewDAG stages.

Definition ValidatePipelineDAG (p : Pipeline) : list issue :=
  let '(stageIDs, dups) := check_stages (p_Stages p) in
  let deps := deps_of_edges (p_Edges p) in
  let errs := dups ++ (p_Edges p ≫= check_edge stageIDs) ++ (p_Stages p ≫= check_refs stageIDs deps) in
  match errs with
  | _ :: _ => errs
  | [] => DagIssue <$> Validate (dag_of (p_Stages p) deps)
  end.

Definition BuildDAGFromPipeline (p : Pipeline) : result (list issue) DAG :=
  match ValidatePipelineDAG p with
  | [] => Ok (dag_of (p_Stages p) (deps_of_edges (p_Edges p)))
  | errors => Err errors
  end.
End validation.

(** ** Edge conditions: facts *)

Lemma StageShouldRun_forall stageID incoming statusOf :
  StageShouldRun stageID incoming statusOf = true <->
  forall e, e ∈ incoming -> e_Target e = stageID -> EdgeAllows (statusOf (e_Source e)) (e_Condition e) = true.
Proof.
  induction incoming as [|e l IH]; cbn.
  - split; [by intros _ e ?%not_elem_of_nil|done].
  - setoid_rewrite elem_of_cons. destruct (String.eqb_spec (e_Target e) stageID) as [He|He]; cbn.
    + destruct (EdgeAllows _ _) eqn:Ha; cbn.
      * rewrite IH. split; [intros H e' [->|?] ?; [done|by apply H]|intros H e' ? ?; apply H; auto].
      * split; [done|]. intros H. rewrite <- Ha. apply H; [by left|done].
    + rewrite IH. split; [intros H e' [->|?] ?; [done|by apply H]|intros H e' ? ?; apply H; auto].
Qed.

(** ** Dependencies: facts *)

Lemma elem_of_deps_of_edges edges x y :
  x ∈ deps_at (deps_of_edges edges) y <-> exists e, e ∈ edges /\ e_Source e = x /\ e_Target e = y.
Proof.
  unfold deps_of_edges. assert (forall m, x ∈ deps_at (foldl (fun deps e =>
      <[e_Target e := deps_at deps (e_Target e) ++ [e_Source e]]> deps) m edges) y <->
    x ∈ deps_at m y \/ exists e, e ∈ edges /\ e_Source e = x /\ e_Target e = y) as H.
  { induction edges as [|e l IH]; intros m; cbn [foldl].
    - split; [by left|]. by intros [?|(? & ?%not_elem_of_nil & _)].
    - rewrite IH. setoid_rewrite elem_of_cons. unfold deps_at at 1.
      destruct (decide (e_Target e = y)) as [Hy|Hy].
      + rewrite Hy, lookup_insert_eq. cbn. rewrite elem_of_app, list_elem_of_singleton. split.
        * intros [[?| ->]|(e' & ? & ? & ?)]; [by left|right; by exists e; auto|right; exists e'; auto].
        * intros [?|(e' & [->|?] & <- & ?)]; [by left; left|by left; right|right; by exists e'].
      + rewrite lookup_insert_ne by done. fold (deps_at m y). split.
        * intros [?|(e' & ? & ? & ?)]; [by left|right; exists e'; auto].
        * intros [?|(e' & [->|?] & ? & ?)]; [by left|done|right; by exists e']. }
  rewrite H. unfold deps_at at 1. rewrite lookup_empty. cbn.
  split; [by intros [?%not_elem_of_nil|?]|by right].
Qed.

(** ** Ancestors: facts *)

Section ancestors.
Context (deps : gmap string (list string)).

(** One step back along an edge. *)
Definition back (x y : string) : Prop := y ∈ deps_at deps x.

Lemma weight_step visited cur : cur ∉ visited ->
  weight deps visited = length (deps_at deps cur) + weight deps ({[cur]} ∪ visited).
Proof.
  intros Hc. unfold weight, deps_at.
  assert (forall l : list (string * list string), NoDup l.*1 ->
    sum_list ((fun kv => if decide (kv.1 ∈ visited) then 0 else length kv.2) <$> l) =
    length (match list_find (fun kv => kv.1 = cur) l with Some (_, kv) => kv.2 | None => [] end) +
    sum_list ((fun kv => if decide (kv.1 ∈ ({[cur]} ∪ visited : gset string)) then 0 else length kv.2) <$> l)) as H.
  { induction l as [|[k v] l IH]; [done|]. intros [Hk Hnd]%NoDup_cons. cbn [fmap list_fmap sum_list fst snd].
    cbn [list_find fst]. destruct (decide (k = cur)) as [->|Hne].
    - rewrite decide_False, (decide_True (P := cur ∈ _)) by set_solver. cbn [snd].
      rewrite IH by done. replace (list_find (fun kv => kv.1 = cur) l) with (@None (nat * (string * list string))); [done|].
      symmetry. apply list_find_None, Forall_forall. intros [k' v'] Hin Heq. cbn in Heq. subst. apply Hk.
      apply list_elem_of_fmap. by exists (cur, v').
    - assert (k ∈ ({[cur]} ∪ visited : gset string) <-> k ∈ visited) as Hiff by set_solver.
      rewrite IH by done. destruct (list_find _ l) as [[i kv]|]; cbn [fmap option_fmap option_map prod_map];
        destruct (decide (k ∈ visited)), (decide (k ∈ ({[cur]} ∪ visited : gset string))); cbn [id];
        try tauto; unfold prod_map; cbn; lia. }
  rewrite (H _ (NoDup_fst_map_to_list _)). f_equal. f_equal.
  destruct (list_find (fun kv => kv.1 = cur) (map_to_list deps)) as [[i [k v]]|] eqn:E.
  - apply list_find_Some in E as (Hi & Hk & _). cbn in Hk. subst k.
    apply list_elem_of_lookup_2, elem_of_map_to_list in Hi. by rewrite Hi.
  - destruct (deps !! cur) as [v|] eqn:Hv; [|done]. exfalso. apply list_find_None in E.
    rewrite Forall_forall in E. by apply (E (cur, v)); [apply elem_of_map_to_list|].
Qed.

(** The walk ends within its fuel and collects what the queue reaches. *)
Lemma ancestors_loop_spec fuel : forall queue anc,
  length queue + weight deps anc <= fuel ->
  (forall x y, x ∈ anc -> back x y -> y ∈ anc \/ y ∈ queue) ->
  exists r, ancestors_loop fuel deps queue anc = Some r /\ anc ⊆ r /\ (forall x, x ∈ queue -> x ∈ r) /\
    (forall x y, x ∈ r -> back x y -> y ∈ r) /\
    (forall x, x ∈ r -> x ∈ anc \/ exists q, q ∈ queue /\ rtc back q x).
Proof.
  induction fuel as [|fuel IH]; intros [|cur queue] anc Hf Hcl; cbn [ancestors_loop].
  1,3: exists anc; split_and!; [done|done|by intros ? ?%not_elem_of_nil| |by left];
    intros x y Hx Hxy; by destruct (Hcl x y Hx Hxy) as [?|?%not_elem_of_nil].
  { cbn in Hf. lia. }
  case_bool_decide as Hc.
  - destruct (IH queue anc) as (r & -> & Hsub & Hq & Hcl' & Hr).
    + cbn in Hf. lia.
    + intros x y Hx Hxy. destruct (Hcl x y Hx Hxy) as [?|[->|?]%elem_of_cons]; auto.
    + exists r. split_and!; [done|done| |done|].
      * intros x [->|?]%elem_of_cons; [by apply Hsub|by apply Hq].
      * intros x Hx. destruct (Hr x Hx) as [?|(q & ? & ?)]; [by left|right; exists q; split; [by right|done]].
  - pose proof (weight_step anc cur Hc) as Hw.
    destruct (IH (queue ++ deps_at deps cur) ({[cur]} ∪ anc)) as (r & -> & Hsub & Hq & Hcl' & Hr).
    + rewrite length_app. cbn in Hf. lia.
    + intros x y [->%elem_of_singleton|Hx]%elem_of_union Hxy.
      * right. rewrite elem_of_app. by right.
      * destruct (Hcl x y Hx Hxy) as [?|[->|?]%elem_of_cons]; [left|left|right]; [set_solver|set_solver|].
        rewrite elem_of_app. by left.
    + exists r. split_and!; [done|set_solver| |done|].
      * intros x [->|?]%elem_of_cons; [apply Hsub; set_solver|apply Hq, elem_of_app; by left].
      * intros x Hx. destruct (Hr x Hx) as [[->%elem_of_singleton|?]%elem_of_union|(q & [?|Hqc]%elem_of_app & ?)].
        -- right. exists cur. split; [left|done].
        -- by left.
        -- right. exists q. split; [by right|done].
        -- right. exists cur. split; [left|]. by eapply rtc_l.
Qed.

Lemma elem_of_ancestorsOf target x : x ∈ ancestorsOf target deps <-> tc back target x.
Proof.
  unfold ancestorsOf. destruct (ancestors_loop_spec (length (deps_at deps target) + weight deps ∅)
    (deps_at deps target) ∅) as (r & -> & _ & Hq & Hcl & Hr); [done|set_solver|]. cbn. split.
  - intros Hx. destruct (Hr x Hx) as [?%not_elem_of_empty|(q & Hqt & Hqx)]; [done|].
    eapply tc_rtc_r; [by apply tc_once|done].
  - intros Htc. assert (forall a b, tc back a b -> a ∈ r \/ a = target -> b ∈ r) as H.
    { clear -Hq Hcl. intros a b Hab Ha. induction Hab as [a b Hab|a b c Hab _ IH].
      - destruct Ha as [Ha| ->]; [by eapply Hcl|by apply Hq].
      - apply IH. left. destruct Ha as [Ha| ->]; [by eapply Hcl|by apply Hq]. }
    apply (H target); [done|by right].
Qed.
End ancestors.

(** ** Validation: facts *)

Definition stage_ids (p : Pipeline) : list string := st_ID <$> p_Stages p.

(** An edge of the pipeline from [x] to [y]. *)
Definition feeds (p : Pipeline) (x y : string) : Prop :=
  exists e, e ∈ p_Edges p /\ e_Source e = x /\ e_Target e = y.

Lemma check_stages_spec stages : forall (ids : gset string) (errs : list issue),
  let r := foldl (fun '(ids, errs) s =>
    ({[st_ID s]} ∪ ids, if bool_decide (st_ID s ∈ ids) then errs ++ [DuplicateStage (st_ID s)] else errs))
    (ids, errs) stages in
  (forall x, x ∈ r.1 <-> x ∈ ids \/ x ∈ st_ID <$> stages) /\
  (r.2 = [] <-> errs = [] /\ NoDup (st_ID <$> stages) /\ forall s, s ∈ stages -> st_ID s ∉ ids).
Proof.
  induction stages as [|s stages IH]; intros ids errs; cbn [foldl fmap list_fmap].
  - cbn [fst snd]. split; [intros x; split; [by left|by intros [?|?%not_elem_of_nil]]|].
    split; [|by intros (-> & _)]. intros ->. split_and!; [done|constructor|by intros s ?%not_elem_of_nil].
  - destruct (IH ({[st_ID s]} ∪ ids)
      (if bool_decide (st_ID s ∈ ids) then errs ++ [DuplicateStage (st_ID s)] else errs)) as [H1 H2].
    split.
    + intros x. rewrite H1, elem_of_cons, elem_of_union, elem_of_singleton. tauto.
    + rewrite H2, NoDup_cons. case_bool_decide as Hs.
      * split; [intros [[? ?]%app_nil _]; done|]. intros (_ & _ & Hni). by destruct (Hni s ltac:(left)).
      * setoid_rewrite not_elem_of_union. setoid_rewrite not_elem_of_singleton. split.
        -- intros (-> & Hnd & Hni). split_and!; [done| |done|].
           ++ intros (s' & Heq & Hin)%list_elem_of_fmap. by destruct (Hni s' Hin).
           ++ intros s' [->|Hin]%elem_of_cons; [done|by apply Hni].
        -- intros (-> & [Hs' Hnd] & Hni). split_and!; [done|done|]. intros s' Hin. split; [|apply Hni; by right].
           intros Heq. apply Hs'. rewrite <- Heq. by apply list_elem_of_fmap_2.
Qed.

Lemma bind_nil {A B} (f : A -> list B) l : l ≫= f = [] <-> forall x, x ∈ l -> f x = [].
Proof.
  split; [|apply bind_nil_all]. induction l as [|y l IH]; cbn; [by intros _ x ?%not_elem_of_nil|].
  intros [Hy Hl]%app_nil x [->|Hx]%elem_of_cons; [done|by apply IH].
Qed.

Lemma check_edge_nil ids e :
  check_edge ids e = [] <->
  e_Source e ∈ ids /\ e_Target e ∈ ids /\ condition_known (e_Condition e) = true.
Proof.
  unfold check_edge. do 2 case_bool_decide; destruct (condition_known _); cbn;
    split; try done; intros (? & ? & ?); done.
Qed.

Lemma check_ref_nil ids anc s id :
  check_ref ids anc s id = [] <-> id ∈ ids /\ id <> st_ID s /\ id ∈ anc.
Proof.
  unfold check_ref. case_bool_decide; cbn; [|by split; [|intros (? & _ & _)]].
  destruct (String.eqb_spec id (st_ID s)) as [|Hne]; [by split; [|intros (_ & ? & _)]|].
  case_bool_decide; cbn; split; try done. by intros (_ & _ & ?).
Qed.

Lemma dag_of_lookup stages deps id :
  Nodes (dag_of stages deps) !! id =
    if bool_decide (id ∈ st_ID <$> stages) then Some (mkNode id (deps_at deps id)) else None.
Proof.
  unfold dag_of. assert (forall d, Nodes (foldl (fun d s => AddNode d (st_ID s) (deps_at deps (st_ID s))) d stages) !! id
    = if bool_decide (id ∈ st_ID <$> stages) then Some (mkNode id (deps_at deps id)) else Nodes d !! id) as H.
  { induction stages as [|s stages IH]; intros d; [done|]. cbn [foldl]. rewrite IH. cbn [fmap list_fmap].
    case_bool_decide as H1.
    - rewrite bool_decide_eq_true_2; [done|by right].
    - cbn. destruct (decide (id = st_ID s)) as [->|Hne].
      + rewrite lookup_insert_eq, bool_decide_eq_true_2; [done|left].
      + rewrite lookup_insert_ne by done. rewrite bool_decide_eq_false_2; [done|].
        by intros [?|?]%elem_of_cons. }
  rewrite H. cbn. by rewrite lookup_empty.
Qed.

(** A pipeline's edges end at declared stages. *)
Definition edges_declared (p : Pipeline) : Prop :=
  forall x y, feeds p x y -> x ∈ stage_ids p /\ y ∈ stage_ids p.

Abbreviation pipeline_dag p := (dag_of (p_Stages p) (deps_of_edges (p_Edges p))).

Lemma pipeline_dep_edge p x y : edges_declared p -> dep_edge (pipeline_dag p) x y <-> feeds p x y.
Proof.
  intros Hd. unfold dep_edge. rewrite dag_of_lookup. fold (stage_ids p). case_bool_decide as Hy.
  - split.
    + intros (n & [= <-] & Hx). by apply elem_of_deps_of_edges in Hx.
    + intros Hf. eexists. split; [done|]. by apply elem_of_deps_of_edges.
  - split; [by intros (? & ? & _)|]. intros Hf. by destruct (Hd x y Hf).
Qed.

Lemma tc_ext {A} (R R' : relation A) : (forall x y, R x y <-> R' x y) -> forall x y, tc R x y <-> tc R' x y.
Proof.
  intros H x y. split; induction 1; [by apply tc_once, H|eapply tc_l; [by apply H|done]
    |by apply tc_once, H|eapply tc_l; [by apply H|done]].
Qed.

Lemma tc_flip {A} (R : relation A) x y : tc (flip R) x y <-> tc R y x.
Proof. split; induction 1; eauto using tc_once, tc_r. Qed.

Section validation_facts.
Context `{RO : RangeOrder}.

Lemma Validate_pipeline p : edges_declared p ->
  Validate (pipeline_dag p) = [] <-> forall x, ~ tc (flip (feeds p)) x x.
Proof.
  intros Hd. rewrite Validate_nil.
  assert (closed (pipeline_dag p)) as Hcl.
  { intros x y Hxy%pipeline_dep_edge; [|done]. rewrite dag_of_lookup.
    rewrite bool_decide_eq_true_2; [by eexists|]. by apply (Hd x y). }
  assert (acyclic (pipeline_dag p) <-> forall x, ~ tc (flip (feeds p)) x x) as <-.
  { unfold acyclic. setoid_rewrite (tc_ext (flip (dep_edge (pipeline_dag p))) (flip (feeds p))); [done|].
    intros a b. by apply pipeline_dep_edge. }
  pose proof (TopologicalSort_outcome (pipeline_dag p)) as Ho. split.
  - intros [levels Hl]. rewrite Hl in Ho. by apply outcome_acyclic in Ho as [_ ?].
  - intros Hac. destruct (TopologicalSort (pipeline_dag p)) as [levels|[id dep| |]]; [by eauto| | |done].
    + destruct Ho as [He Hn]. destruct (Hcl _ _ He). congruence.
    + by apply outcome_cyclic in Ho as [_ ?].
Qed.

(** What a valid pipeline is. *)
Record valid_pipeline (p : Pipeline) : Prop := {
  vp_ids : NoDup (stage_ids p);
  vp_edges : edges_declared p;
  vp_conditions e : e ∈ p_Edges p -> condition_known (e_Condition e) = true;
  vp_refs s id : s ∈ p_Stages p -> id ∈ stage_refs s -> id ∈ stage_ids p /\ id <> st_ID s /\ tc (flip (feeds p)) (st_ID s) id;
  vp_acyclic x : ~ tc (flip (feeds p)) x x
}.

Lemma ancestors_feeds p target x :
  x ∈ ancestorsOf target (deps_of_edges (p_Edges p)) <-> tc (flip (feeds p)) target x.
Proof. rewrite elem_of_ancestorsOf. apply tc_ext. intros a b. apply elem_of_deps_of_edges. Qed.

Lemma check_refs_nil p ids s : (forall x, x ∈ ids <-> x ∈ stage_ids p) ->
  check_refs ids (deps_of_edges (p_Edges p)) s = [] <->
  forall id, id ∈ stage_refs s -> id ∈ stage_ids p /\ id <> st_ID s /\ tc (flip (feeds p)) (st_ID s) id.
Proof.
  intros Hids. unfold check_refs. destruct (stage_refs s) as [|r0 refs]; [by split; [intros _ id ?%not_elem_of_nil|]|].
  rewrite bind_nil. by setoid_rewrite check_ref_nil; setoid_rewrite Hids; setoid_rewrite ancestors_feeds.
Qed.

Lemma ValidatePipelineDAG_valid p : ValidatePipelineDAG p = [] <-> valid_pipeline p.
Proof.
  unfold ValidatePipelineDAG. destruct (check_stages_spec (p_Stages p) ∅ []) as [Hids Hdup].
  fold (check_stages (p_Stages p)) in Hids, Hdup. destruct (check_stages (p_Stages p)) as [ids dups].
  cbn [fst snd] in *. fold (stage_ids p) in Hids, Hdup.
  assert (forall x, x ∈ ids <-> x ∈ stage_ids p) as Hids' by (intros x; rewrite Hids; set_solver).
  assert (dups ++ (p_Edges p ≫= check_edge ids) ++ (p_Stages p ≫= check_refs ids (deps_of_edges (p_Edges p))) = []
    <-> NoDup (stage_ids p) /\ (forall e, e ∈ p_Edges p -> check_edge ids e = []) /\
        (forall s, s ∈ p_Stages p -> check_refs ids (deps_of_edges (p_Edges p)) s = [])) as Herr.
  { rewrite !app_nil, !bind_nil, Hdup. split; [tauto|]. intros (? & ? & ?). split_and!; try done. }
  setoid_rewrite check_edge_nil in Herr. setoid_rewrite (check_refs_nil p ids) in Herr; [|done].
  setoid_rewrite Hids' in Herr.
  assert ((forall e, e ∈ p_Edges p -> e_Source e ∈ stage_ids p /\ e_Target e ∈ stage_ids p /\
    condition_known (e_Condition e) = true) <->
    edges_declared p /\ forall e, e ∈ p_Edges p -> condition_known (e_Condition e) = true) as Hed.
  { unfold edges_declared, feeds. split.
    - intros H. split; [intros x y (e & He & <- & <-)|intros e He]; destruct (H e He) as (? & ? & ?); done.
    - intros [H1 H2] e He. destruct (H1 (e_Source e) (e_Target e)); [by exists e|]. auto. }
  rewrite Hed in Herr. destruct (_ ++ _) as [|i errs].
  - destruct (proj1 Herr eq_refl) as (Hnd & [Hdecl Hcond] & Hrefs).
    assert (forall l, DagIssue <$> l = [] <-> l = []) as -> by (by intros []).
    rewrite (Validate_pipeline p Hdecl). split; [intros Hac; split; auto|by intros []].
  - split; [done|]. intros []. apply Herr. split; [done|]. split; [by split|]. auto.
Qed.
Lemma elem_of_stage_refs s id field key :
  field ∈ stageInterpolatableStrings s -> Ref id key ∈ pieces field -> id ∈ stage_refs s.
Proof.
  intros Hf Hk. unfold stage_refs. apply elem_of_dedup. split; [|set_solver].
  apply list_elem_of_bind. exists field. split; [|done]. apply elem_of_References. by exists key.
Qed.

Lemma stage_refs_inv s id : id ∈ stage_refs s ->
  exists field key, field ∈ stageInterpolatableStrings s /\ Ref id key ∈ pieces field.
Proof.
  unfold stage_refs. rewrite elem_of_dedup, list_elem_of_bind.
  intros [(field & [key Hk]%elem_of_References & Hf) _]. by exists field, key.
Qed.

(** Validation is silent exactly on well-formed pipelines: stage IDs are
    distinct, edges join declared stages and carry known conditions, every
    [${stages.id.key}] reference names a declared stage from which a path of
    edges leads to the referencing one, and no path of edges closes a cycle. *)
Theorem ValidatePipelineDAG_silent p :
  ValidatePipelineDAG p = [] <->
  NoDup (stage_ids p) /\
  (forall e, e ∈ p_Edges p ->
     e_Source e ∈ stage_ids p /\ e_Target e ∈ stage_ids p /\ condition_known (e_Condition e) = true) /\
  (forall s field id key, s ∈ p_Stages p -> field ∈ stageInterpolatableStrings s -> Ref id key ∈ pieces field ->
     id ∈ stage_ids p /\ tc (feeds p) id (st_ID s)) /\
  (forall x, ~ tc (feeds p) x x).
Proof.
  rewrite ValidatePipelineDAG_valid. split.
  - intros [Hnd Hd Hc Hr Ha]. split_and!; [done| | |].
    + intros e He. destruct (Hd (e_Source e) (e_Target e)) as [? ?]; [by exists e|]. auto.
    + intros s field id key Hs Hf Hk. destruct (Hr s id Hs) as (? & _ & Ht); [|by apply tc_flip in Ht].
      by apply (elem_of_stage_refs s id field key).
    + intros x Hx%tc_flip. by apply (Ha x).
  - intros (Hnd & He & Hr & Ha). split; [done| | | |].
    + intros x y (e & Hin & <- & <-). destruct (He e Hin) as (? & ? & _). done.
    + intros e Hin. by apply He.
    + intros s id Hs Hid. apply stage_refs_inv in Hid as (field & key & Hf & Hk).
      destruct (Hr s field id key Hs Hf Hk) as [? Ht]. split_and!; [done| |by apply tc_flip].
      intros ->. by apply (Ha (st_ID s)).
    + intros x Hx. apply (Ha x). by apply tc_flip.
Qed.

(** A pipeline that passes validation can be executed: the graph built
    from it has its stages as nodes and its edges as dependencies, and sorts
    into levels; a pipeline that does not pass builds no graph. *)
Theorem BuildDAGFromPipeline_runs p :
  match BuildDAGFromPipeline p with
  | Ok dag =>
      ValidatePipelineDAG p = [] /\ (forall id, is_Some (Nodes dag !! id) <-> id ∈ stage_ids p) /\
      (forall x y, dep_edge dag x y <-> feeds p x y) /\ exists levels, TopologicalSort dag = Ok levels
  | Err issues => issues = ValidatePipelineDAG p /\ issues <> []
  end.
Proof.
  unfold BuildDAGFromPipeline. destruct (ValidatePipelineDAG p) as [|i errs] eqn:Hv; [|done].
  apply ValidatePipelineDAG_valid in Hv as [Hnd Hd Hc Hr Ha]. split_and!; [done| | |].
  - intros id. rewrite dag_of_lookup. fold (stage_ids p). case_bool_decide; [by split; [|by eexists]|].
    by split; [intros [? ?]|].
  - intros x y. by apply pipeline_dep_edge.
  - by apply Validate_nil, Validate_pipeline.
Qed.
End validation_facts.

(** ** A concrete pipeline *)

Section demo.
Local Existing Instance range_default.

Definition push_config : StageConfig :=
  mkStageConfig "" "" ∅ "" [] [] None "${stages.build.digest}" [] "" "" "" "" "" "" "" "" "" false None
    "" "" "" [] None "" "" 0 0 None ∅ "" [] "" "" "" "" "".

Definition demo_pipeline : Pipeline :=
  mkPipeline "p" "p" "" [mkStage "build" "build" StageTypeBuild empty_config "" "";
    mkStage "push" "push" StageTypePush push_config "" ""; mkStage "alert" "alert" StageTypeCustom empty_config "" ""]
    [mkEdge "1" "build" "push" ""; mkEdge "2" "push" "alert" "failure"] ∅ 0%Z 0%Z 0%Z "".

Example demo_valid : ValidatePipelineDAG demo_pipeline = [].
Proof. vm_compute. reflexivity. Qed.

Example demo_unreachable_ref :
  ValidatePipelineDAG (mkPipeline "p" "p" "" (p_Stages demo_pipeline) [mkEdge "1" "push" "build" "sometimes"]
    ∅ 0%Z 0%Z 0%Z "") = [BadCondition "push" "build" "sometimes"; RefNotAncestor "push" "build"].
Proof. vm_compute. reflexivity. Qed.
End demo.
