(* ===== verification/Retry.v ===== *)
(** * Retries: [internal/retry/retry.go], [policyFromStage] of
      [internal/service/stages.go]

    The backoff loop, with the operation, the context and the random source as
    arguments, and the policy a stage's configuration yields. *)

From S2P Require Import Prelude Model.
Local Open Scope Z_scope.

(** ** The loop *)

(** [rand]: the 62-bit value read, [None] when the read fails. *)
Definition jitter (d : Z) (rand : option Z) : Z :=
  if d <=? 0 then 0 else
  match rand with
  | None => 0
  | Some b => Z.land b (2 ^ 62 - 1) mod (d ÷ 2 + 1)
  end.

Record Policy (E : Type) := mkPolicy {
  MaxAttempts : Z; Initial : Z; Max : Z; IsTransient : option (E -> bool)
}.
Arguments mkPolicy {E}. Arguments MaxAttempts {E}. Arguments Initial {E}.
Arguments Max {E}. Arguments IsTransient {E}.

Definition Default {E} : Policy E := mkPolicy 3 second (8 * second) None.

Section loop.
Context {E : Type}.

(** What the loop meets at its [n]-th attempt (counted from 1): the context's
    error before the call, the result of the call, the random value, and the
    context's error if it ends during the pause. *)
Record world := mkWorld {
  w_ctx : nat -> option E; w_op : nat -> option E; w_rand : nat -> option Z; w_pause : nat -> option E
}.

(** What [Do] returns, with the pauses it took and the number of calls. *)
Record outcome := mkOutcome { o_err : option E; o_pauses : list Z; o_calls : nat }.

Definition add_call (pause : list Z) (o : outcome) : outcome :=
  mkOutcome (o_err o) (pause ++ o_pauses o) (S (o_calls o)).

(** The attempts from [attempt] on; [rem] is how many remain after it. *)
Fixpoint attempts (rem : nat) (p : Policy E) (w : world) (attempt : nat) (delay : Z) : outcome :=
  match w_ctx w attempt with
  | Some err => mkOutcome (Some err) [] 0
  | None =>
      match w_op w attempt with
      | None => mkOutcome None [] 1
      | Some err =>
          match rem with
          | O => mkOutcome (Some err) [] 1
          | S rem =>
              if match IsTransient p with Some f => negb (f err) | None => false end
              then mkOutcome (Some err) [] 1
              else
                let jittered := wrap64 (delay + jitter delay (w_rand w attempt)) in
                match w_pause w attempt with
                | Some cerr => mkOutcome (Some cerr) [jittered] 1
                | None =>
                    let delay' :=
                      if delay <? Max p then
                        let d2 := wrap64 (delay * 2) in if Max p <? d2 then Max p else d2
                      else delay in
                    add_call [jittered] (attempts rem p w (S attempt) delay')
                end
          end
      end
  end.

Definition normalise (p : Policy E) : Policy E :=
  mkPolicy (if MaxAttempts p <? 1 then 1 else MaxAttempts p)
    (if Initial p <=? 0 then 500 * millisecond else Initial p)
    (if Max p <=? 0 then 10 * second else Max p) (IsTransient p).

Definition Do (p : Policy E) (w : world) : outcome :=
  let p := normalise p in
  attempts (Z.to_nat (MaxAttempts p) - 1) p w 1 (Initial p).

Definition transient (p : Policy E) (err : E) : bool :=
  match IsTransient p with Some f => f err | None => true end.

(** The [k]-th pause before jitter: doubling from [Initial], capped. *)
Definition ideal_pause (p : Policy E) (k : nat) : Z := Z.min (Initial p * 2 ^ Z.of_nat k) (Max p).

Lemma retry_jitter_bounds d rand : 0 < d -> 0 <= jitter d rand <= d / 2.
Proof.
  intros Hd. unfold jitter. rewrite (proj2 (Z.leb_gt d 0)) by done. destruct rand as [b|]; [|lia].
  rewrite Z.quot_div_nonneg by lia.
  pose proof (Z.mod_pos_bound (Z.land b (2 ^ 62 - 1)) (d / 2 + 1)). lia.
Qed.

(** The calls before the last one all failed with transient errors. *)
Definition retried (p : Policy E) (w : world) (from : nat) (calls : nat) : Prop :=
  forall i, (from <= i)%nat -> (S i < from + calls)%nat -> exists e, w_op w i = Some e /\ transient p e = true.

Lemma attempts_spec rem : forall p w a delay,
  let o := attempts rem p w a delay in
  (o_calls o <= S rem)%nat /\ retried p w a (o_calls o) /\
  match o_err o with
  | None => (0 < o_calls o)%nat /\ w_op w (a + o_calls o - 1) = None
  | Some e =>
      (exists n, w_ctx w n = Some e \/ w_pause w n = Some e) \/
      ((0 < o_calls o)%nat /\ w_op w (a + o_calls o - 1) = Some e /\
       (transient p e = false \/ o_calls o = S rem))
  end.
Proof.
  induction rem as [|rem IH]; intros p w a delay; cbn [attempts].
  all: destruct (w_ctx w a) as [ce|] eqn:Hc; [cbn; split_and!; [lia|intros i ? ?; lia|left; eauto]|].
  all: destruct (w_op w a) as [err|] eqn:Ho; [|cbn; rewrite Nat.add_sub; split_and!; [lia|intros i ? ?; lia|lia|done]].
  - cbn. rewrite Nat.add_sub. split_and!; [lia|intros i ? ?; lia|right; auto].
  - assert ((match IsTransient p with Some f => negb (f err) | None => false end) = negb (transient p err)) as ->
      by (unfold transient; by destruct (IsTransient p)).
    destruct (transient p err) eqn:Ht; cbn [negb].
    + destruct (w_pause w a) as [pe|] eqn:Hp; [cbn; split_and!; [lia|intros i ? ?; lia|left; eauto]|].
      match goal with |- context [attempts rem p w (S a) ?d] => specialize (IH p w (S a) d);
        set (o := attempts rem p w (S a) d) in * end.
      cbn [add_call o_calls o_err]. destruct IH as (Hn & Hr & He). split_and!; [lia| |].
      * intros i Hi Hlt. destruct (decide (i = a)) as [->|]; [by exists err|]. apply Hr; lia.
      * replace (a + S (o_calls o) - 1)%nat with (S a + o_calls o - 1)%nat by lia.
        destruct (o_err o); [|split; [lia|apply He]].
        destruct He as [?|(? & ? & [?|?])]; [by left|right; auto with lia|right; split_and!; [lia|done|right; lia]].
    + cbn. rewrite Nat.add_sub. split_and!; [lia|intros i ? ?; lia|right; auto with lia].
Qed.

Lemma attempts_pauses rem : forall p w a k,
  0 < Initial p <= Max p -> Max p < 2 ^ 61 ->
  forall i d, o_pauses (attempts rem p w a (ideal_pause p k)) !! i = Some d ->
    ideal_pause p (k + i) <= d <= ideal_pause p (k + i) + ideal_pause p (k + i) / 2.
Proof.
  induction rem as [|rem IH]; intros p w a k HI HM i d; cbn [attempts].
  all: destruct (w_ctx w a); [done|]; destruct (w_op w a); [|done].
  { done. }
  destruct (match IsTransient p with Some _ => _ | None => _ end); [done|].
  assert (0 < 2 ^ Z.of_nat k) by lia.
  assert (0 < ideal_pause p k <= Max p) as Hid by (unfold ideal_pause; nia).
  pose proof (retry_jitter_bounds (ideal_pause p k) (w_rand w a) ltac:(lia)) as Hj.
  assert (wrap64 (ideal_pause p k + jitter (ideal_pause p k) (w_rand w a))
    = ideal_pause p k + jitter (ideal_pause p k) (w_rand w a)) as ->
    by (apply wrap64_small; unfold int64_min, int64_max; lia).
  assert (forall d', [ideal_pause p k + jitter (ideal_pause p k) (w_rand w a)] !! 0%nat = Some d' ->
    ideal_pause p (k + 0) <= d' <= ideal_pause p (k + 0) + ideal_pause p (k + 0) / 2) as H0.
  { intros d' [= <-]. rewrite Nat.add_0_r. lia. }
  destruct (w_pause w a); [destruct i; [apply H0|done]|].
  assert ((if ideal_pause p k <? Max p
     then if Max p <? wrap64 (ideal_pause p k * 2) then Max p else wrap64 (ideal_pause p k * 2)
     else ideal_pause p k) = ideal_pause p (S k)) as ->.
  { rewrite wrap64_small by (unfold int64_min, int64_max; lia).
    unfold ideal_pause in *. rewrite Nat2Z.inj_succ, Z.pow_succ_r by lia.
    destruct (Z.ltb_spec (Z.min (Initial p * 2 ^ Z.of_nat k) (Max p)) (Max p)); [|lia].
    destruct (Z.ltb_spec (Max p) (Z.min (Initial p * 2 ^ Z.of_nat k) (Max p) * 2)); lia. }
  cbn [add_call o_pauses app]. destruct i as [|i]; [apply H0|]. cbn. intros Hl.
  replace (k + S i)%nat with (S k + i)%nat by lia. by eapply IH.
Qed.
End loop.
Arguments world : clear implicits.
Arguments outcome : clear implicits.

(** [Do] never calls the operation more than [MaxAttempts] times (at least
    once allowed), calls it again only after a transient error, returns nil
    exactly for a call that succeeded, and otherwise returns the error of its
    last call (permanent, or the budget is spent) or of the context; its pauses
    double from [Initial] up to [Max] and exceed that by at most half. *)
Theorem Do_bounded {E} (p : Policy E) (w : world E) :
  let o := Do p w in
  let n := Z.max 1 (MaxAttempts p) in
  Z.of_nat (o_calls o) <= n /\ retried p w 1 (o_calls o) /\
  (o_err o = None -> (0 < o_calls o)%nat /\ w_op w (o_calls o) = None) /\
  (forall e, o_err o = Some e ->
     (exists k, w_ctx w k = Some e \/ w_pause w k = Some e) \/
     ((0 < o_calls o)%nat /\ w_op w (o_calls o) = Some e /\
      (transient p e = false \/ Z.of_nat (o_calls o) = n))) /\
  (0 < Initial p <= Max p -> Max p < 2 ^ 61 ->
     forall i d, o_pauses o !! i = Some d -> ideal_pause p i <= d <= ideal_pause p i + ideal_pause p i / 2).
Proof.
  intros o n. set (q := normalise p).
  assert (MaxAttempts q = n) as Hn by (cbn; unfold n; destruct (Z.ltb_spec (MaxAttempts p) 1); lia).
  assert (forall e, transient q e = transient p e) as Ht by done.
  pose proof (attempts_spec (Z.to_nat (MaxAttempts q) - 1) q w 1 (Initial q)) as (Hc & Hr & He).
  change (attempts _ q w 1 (Initial q)) with o in Hc, Hr, He.
  assert (1 <= n) by (unfold n; lia). rewrite Hn in Hc, He.
  assert (S (Z.to_nat n - 1) = Z.to_nat n) as HS by lia. rewrite HS in Hc, He.
  replace (1 + o_calls o - 1)%nat with (o_calls o) in He by lia.
  split_and!; [lia|done| | |].
  - intros Hnone. by rewrite Hnone in He.
  - intros e Hsome. rewrite Hsome in He. destruct He as [?|(? & ? & [?|?])]; [by left|right; auto|].
    right. split_and!; [done|done|right; lia].
  - intros HI HM i d Hi.
    assert (Initial q = Initial p /\ Max q = Max p) as [HqI HqM].
    { cbn. rewrite (proj2 (Z.leb_gt (Initial p) 0)), (proj2 (Z.leb_gt (Max p) 0)) by lia. done. }
    assert (ideal_pause q 0 = Initial q) as H0 by (unfold ideal_pause; rewrite HqI, HqM; lia).
    pose proof (attempts_pauses (Z.to_nat (MaxAttempts q) - 1) q w 1 0) as Hp.
    rewrite H0, HqI, HqM in Hp. specialize (Hp HI HM i d). unfold ideal_pause in Hp. rewrite HqI, HqM in Hp.
    apply Hp. rewrite <- HqI. exact Hi.
Qed.

(** The loop meets the operation only through its answers. *)
Lemma attempts_ext {E} rem : forall (p : Policy E) (w w' : world E) a delay,
  (forall n, w_ctx w n = w_ctx w' n) -> (forall n, w_op w n = w_op w' n) -> (forall n, w_rand w n = w_rand w' n) ->
  (forall n, w_pause w n = w_pause w' n) -> attempts rem p w a delay = attempts rem p w' a delay.
Proof.
  induction rem as [|rem IH]; intros p w w' a delay Hc Ho Hr Hp; cbn [attempts]; rewrite Hc, Ho, ?Hr, ?Hp; [done|].
  repeat split_match; try done; f_equal; by apply IH.
Qed.

(** ** A stage's policy *)

(** [is_canceled] and [is_deadline] are [errors.Is] against the two sentinel
    errors of [context]. *)
Definition IsContextErr {E} (is_canceled is_deadline : E -> bool) (err : E) : bool :=
  is_canceled err || is_deadline err.

Definition policyFromStage {E} (is_canceled is_deadline : E -> bool) (stage : Stage) : Policy E :=
  let c := st_Config stage in
  let r := cfg_Retry c in
  let max0 := wrap64 (1 + cfg_Retries c) in
  let maxAttempts := match r with Some r => if 0 <? rp_MaxAttempts r then rp_MaxAttempts r else max0 | None => max0 end in
  let initial := match r with
    | Some r => if 0 <? rp_InitialMS r then wrap64 (rp_InitialMS r * millisecond) else second
    | None => second end in
  let max := match r with
    | Some r => if 0 <? rp_MaxMS r then wrap64 (rp_MaxMS r * millisecond) else 15 * second
    | None => 15 * second end in
  let maxAttempts := if maxAttempts <? 1 then 1 else maxAttempts in
  let maxAttempts := if 10 <? maxAttempts then 10 else maxAttempts in
  let initial := if initial <? 100 * millisecond then 100 * millisecond else initial in
  let initial := if minute <? initial then minute else initial in
  let max := if max <? initial then initial else max in
  let max := if 5 * minute <? max then 5 * minute else max in
  let max := match r with
    | Some r => match rp_Exponential r with Some false => initial | _ => max end
    | None => max end in
  let maxAttempts :=
    if (st_Type stage =s StageTypeApproval) || (st_Type stage =s StageTypeCustom)
       || (st_Type stage =s StageTypeTest) then 1 else maxAttempts in
  mkPolicy maxAttempts initial max (Some (fun err => negb (IsContextErr is_canceled is_deadline err))).

Lemma clamp_between lo hi x : lo <= hi ->
  let y := if x <? lo then lo else x in
  lo <= (if hi <? y then hi else y) <= hi.
Proof.
  cbn. intros. repeat match goal with |- context [?a <? ?b] =>
    lazymatch b with context [if _ then _ else _] => fail | _ => destruct (Z.ltb_spec a b) end end; lia.
Qed.

(** Whatever the configuration says, overflows included, a stage is tried
    between once and ten times (once for approval, custom and test stages),
    with pauses between 100 ms and 5 minutes that start no higher than one
    minute, and a disabled exponential keeps every pause at the initial one. *)
Theorem policyFromStage_bounds {E} (is_canceled is_deadline : E -> bool) stage :
  let p := policyFromStage is_canceled is_deadline stage in
  1 <= MaxAttempts p <= 10 /\ 100 * millisecond <= Initial p <= minute /\
  Initial p <= Max p <= 5 * minute /\
  (st_Type stage = StageTypeApproval \/ st_Type stage = StageTypeCustom \/ st_Type stage = StageTypeTest ->
     MaxAttempts p = 1) /\
  (forall r, cfg_Retry (st_Config stage) = Some r -> rp_Exponential r = Some false -> Max p = Initial p).
Proof.
  intros p. set (c := st_Config stage).
  set (max0 := wrap64 (1 + cfg_Retries c)).
  set (ma := match cfg_Retry c with Some r => if 0 <? rp_MaxAttempts r then rp_MaxAttempts r else max0 | None => max0 end).
  set (ini := match cfg_Retry c with
    | Some r => if 0 <? rp_InitialMS r then wrap64 (rp_InitialMS r * millisecond) else second | None => second end).
  set (mx := match cfg_Retry c with
    | Some r => if 0 <? rp_MaxMS r then wrap64 (rp_MaxMS r * millisecond) else 15 * second | None => 15 * second end).
  pose proof (clamp_between 1 10 ma ltac:(lia)) as Hma.
  pose proof (clamp_between (100 * millisecond) minute ini ltac:(unfold millisecond, minute, second; lia)) as Hini.
  cbv zeta in Hma, Hini.
  set (ma' := if 10 <? (if ma <? 1 then 1 else ma) then 10 else if ma <? 1 then 1 else ma) in *.
  set (ini' := if minute <? (if ini <? 100 * millisecond then 100 * millisecond else ini) then minute
    else if ini <? 100 * millisecond then 100 * millisecond else ini) in *.
  pose proof (clamp_between ini' (5 * minute) mx ltac:(unfold minute, second in *; lia)) as Hmx. cbv zeta in Hmx.
  set (mx' := if 5 * minute <? (if mx <? ini' then ini' else mx) then 5 * minute else if mx <? ini' then ini' else mx) in *.
  assert (p = mkPolicy
    (if (st_Type stage =s StageTypeApproval) || (st_Type stage =s StageTypeCustom) || (st_Type stage =s StageTypeTest)
     then 1 else ma') ini'
    (match cfg_Retry c with Some r => match rp_Exponential r with Some false => ini' | _ => mx' end | None => mx' end)
    (Some (fun err => negb (IsContextErr is_canceled is_deadline err)))) as Hp by reflexivity.
  clearbody p ma' ini' mx'. subst p. cbn.
  split_and!; [destruct (_ || _); lia|destruct (_ || _); lia|lia|lia| | | |].
  1-2: destruct (cfg_Retry c) as [r|]; [destruct (rp_Exponential r) as [[]|]|]; unfold minute, second in *; lia.
  - intros [-> |[-> | ->]]; reflexivity.
  - intros r -> ->. done.
Qed.
