(* ===== verification/Outputs.v ===== *)
(** * Stage outputs: [internal/service/outputs.go] and the log buffer of
      [internal/service/stages.go]

    What an adapter's results leave on the stage run, under the caps; what a
    stage may read of its ancestors; the substitution into its configuration. *)

From S2P Require Import Prelude GoStr Model Interpolate Pipeline.
From Stdlib Require Import Ascii.
Local Open Scope Z_scope.

(** ** Derived outputs

    The results of the build, push and deploy adapters, as far as the executor
    reads them. *)

Record builder_Result := mkBuildResult { br_ImageID : string; br_Tags : list string; br_Outputs : gmap string string }.
Record pusher_Result := mkPushResult { pr_Digest : string; pr_Outputs : gmap string string }.
Record deployer_Result := mkDeployResult { dr_AppliedResources : list string; dr_Outputs : gmap string string }.

Definition set_if (c : bool) (k v : string) (m : gmap string string) : gmap string string :=
  if c then <[k := v]> m else m.

Definition deriveBuildOutputs (res : builder_Result) : gmap string string :=
  let out := set_if (negb (br_ImageID res =s "")) "digest" (br_ImageID res) ∅ in
  match br_Tags res with
  | [] => out
  | t :: _ => <["tag" := t]> (<["tags" := join "," (br_Tags res)]> out)
  end.

Definition derivePushOutputs (res : pusher_Result) (target : string) : gmap string string :=
  set_if (negb (target =s "")) "ref" target
    (set_if (negb (pr_Digest res =s "")) "digest" (pr_Digest res) ∅).

Definition deriveDeployOutputs (res : deployer_Result) : gmap string string :=
  match dr_AppliedResources res with
  | [] => ∅
  | rs => {["resources" := join "," rs]}
  end.

(** ** Caps *)

Definition outputKeyMax : Z := 4 * 1024.
Definition outputStageMax : Z := 32 * 1024.
Definition truncMarker : string := "...[truncated]".

Definition disallowed_rune (r : Z) : bool :=
  if r =? 9 then false
  else (r <? 32) || (r =? 127) || ((128 <=? r) && (r <=? 159)) || (r =? 8232) || (r =? 8233).

Definition hasDisallowedControl (v : string) : bool := existsb disallowed_rune (runes v).

(** Bytewise order, as [sort.Strings]. *)
Definition sort_strings (l : list string) : list string := sort_slice String.ltb l.

(** The value as stored: cut at [outputKeyMax] bytes, with the marker. *)
Definition clip (v : string) : string :=
  if outputKeyMax <? str_len v then str_take outputKeyMax v +:+ truncMarker else v.

(** The loop over the sorted keys: [outs] is [sr.Outputs]. *)
Fixpoint store_outputs (keys : list string) (merged : gmap string string) (total : Z)
    (outs : gmap string string) : gmap string string :=
  match keys with
  | [] => outs
  | k :: keys =>
      let v := default "" (merged !! k) in
      if hasDisallowedControl v then store_outputs keys merged total (<["_invalid" := "true"]> outs)
      else
        let outs := if outputKeyMax <? str_len v then <["_truncated" := "true"]> outs else outs in
        let v := clip v in
        if outputStageMax <? total + str_len k + str_len v then <["_truncated" := "true"]> outs
        else store_outputs keys merged (total + (str_len k + str_len v)) (<[k := v]> outs)
  end.

Section outputs.
Context `{RO : RangeOrder}.

(** The adapter's values win over the derived ones. *)
Definition merge_outputs (derived adapter : gmap string string) : gmap string string := adapter ∪ derived.

Definition applyStageOutputs (sr : StageRun) (derived adapter : gmap string string) : StageRun :=
  let merged := merge_outputs derived adapter in
  if bool_decide (merged = ∅) then sr
  else sr_set_Outputs (store_outputs (sort_strings (range_map merged).*1) merged 0 (sr_Outputs sr)) sr.

(** ** Reading upstream outputs *)

Definition collectStageOutputs (m : gmap string StageRun) (allowed : gset string)
    : gmap string (gmap string string) :=
  foldl (fun out id =>
    match m !! id with
    | None => out
    | Some sr =>
        if negb (sr_Status sr =s RunStatusSuccess) || bool_decide (sr_Outputs sr = ∅) then out
        else <[id := sr_Outputs sr]> out
    end) ∅ (elements allowed).

(** ** Substitution into a stage *)

Definition interpolateStageConfig (s : Stage) (r : OutputResolver) : result interp_error Stage :=
  let c := st_Config s in
  registry ← Interpolate (cfg_Registry c) r;
  repository ← Interpolate (cfg_Repository c) r;
  image ← Interpolate (cfg_Image c) r;
  context ← Interpolate (cfg_Context c) r;
  dockerfile ← Interpolate (cfg_Dockerfile c) r;
  manifestPath ← Interpolate (cfg_ManifestPath c) r;
  helmChart ← Interpolate (cfg_HelmChart c) r;
  namespace ← Interpolate (cfg_Namespace c) r;
  gitopsRepo ← Interpolate (cfg_GitOpsRepo c) r;
  gitopsBranch ← Interpolate (cfg_GitOpsBranch c) r;
  gitopsPath ← Interpolate (cfg_GitOpsPath c) r;
  gitopsMessage ← Interpolate (cfg_GitOpsMessage c) r;
  gitopsContent ← Interpolate (cfg_GitOpsContent c) r;
  tags ← InterpolateSlice (cfg_Tags c) r;
  command ← InterpolateSlice (cfg_Command c) r;
  platforms ← InterpolateSlice (cfg_Platforms c) r;
  buildArgs ← InterpolateMap (cfg_BuildArgs c) r;
  env ← InterpolateMap (cfg_Env c) r;
  Ok (mkStage (st_ID s) (st_Name s) (st_Type s)
    (mkStageConfig dockerfile context buildArgs (cfg_BuildTarget c) tags platforms (cfg_Cache c)
       image command registry repository namespace manifestPath helmChart (cfg_HelmValues c)
       (cfg_DeployRuntime c) (cfg_RuntimeName c) (cfg_ComposeProject c) (cfg_ReviewOnly c) (cfg_HealthCheck c)
       (cfg_ComposeServiceName c) (cfg_ComposeBuildContext c) (cfg_ComposeDockerfile c)
       (cfg_ComposePorts c) (cfg_Resources c) (cfg_Script c) (cfg_Timeout c)
       (cfg_RequiredApprovers c) (cfg_Retries c) (cfg_Retry c) env (cfg_ProxyHost c) (cfg_SecretRefs c)
       gitopsRepo gitopsBranch gitopsPath gitopsMessage gitopsContent)
    (st_EnvironmentID s) (st_Group s)).
End outputs.

(** ** The capped log buffer *)

Record cappedBuffer := mkCapped { cb_buf : string; cb_cap : Z; cb_truncated : bool }.

Definition log_marker : string := of_bytes [10] +:+ "... [log truncated at 1 MiB] ..." +:+ of_bytes [10].

Definition newCappedBuffer (cap : Z) : cappedBuffer := mkCapped "" cap false.

(** [Write]: the bytes accepted (always all of them) and the buffer after. *)
Definition Write (c : cappedBuffer) (p : string) : Z * cappedBuffer :=
  if cb_cap c <=? str_len (cb_buf c) then
    (str_len p,
     if negb (cb_truncated c) then mkCapped (cb_buf c +:+ log_marker) (cb_cap c) true else c)
  else
    let remaining := cb_cap c - str_len (cb_buf c) in
    if str_len p <=? remaining then (str_len p, mkCapped (cb_buf c +:+ p) (cb_cap c) (cb_truncated c))
    else (str_len p, mkCapped (cb_buf c +:+ str_take remaining p +:+ log_marker) (cb_cap c) true).

(** [hasRegistryHost]: the part before the first slash holds a dot or a colon. *)
Definition hasRegistryHost (ref : string) : bool :=
  match cut "/" ref with
  | None => false
  | Some (head, _) =>
      existsb (fun c => Ascii.eqb c "." || Ascii.eqb c ":") (String.list_ascii_of_string head)
  end.

(** ** Facts *)

Lemma length_substring n s : (n <= String.length s)%nat -> String.length (String.substring 0 n s) = n.
Proof.
  revert n. induction s as [|c s IH]; intros [|n] Hn; cbn in *; try done; [lia|]. f_equal. apply IH. lia.
Qed.

Lemma str_len_take n s : 0 <= n <= str_len s -> str_len (str_take n s) = n.
Proof. unfold str_len, str_take. intros. rewrite length_substring; lia. Qed.

Lemma str_len_append a b : str_len (a +:+ b) = str_len a + str_len b.
Proof. unfold str_len. rewrite length_append. lia. Qed.

Lemma str_len_nonneg s : 0 <= str_len s.
Proof. unfold str_len. lia. Qed.

Lemma str_len_clip v : str_len (clip v) <= outputKeyMax + str_len truncMarker.
Proof.
  unfold clip. destruct (Z.ltb_spec outputKeyMax (str_len v)).
  - rewrite str_len_append, str_len_take; unfold outputKeyMax in *; lia.
  - pose proof (str_len_nonneg truncMarker). lia.
Qed.

Definition is_marker (k : string) : bool := (k =s "_invalid") || (k =s "_truncated").

(** Bytes taken by the stored keys [ks] and their values. *)
Definition stored_size (ks : list string) (merged : gmap string string) : Z :=
  foldr (fun k n => str_len k + str_len (clip (default "" (merged !! k))) + n) 0 ks.

Lemma stored_size_nonneg ks merged : 0 <= stored_size ks merged.
Proof.
  unfold stored_size. induction ks as [|k ks IH]; [done|]. cbn [foldr].
  pose proof (str_len_nonneg k). pose proof (str_len_nonneg (clip (default "" (merged !! k)))). lia.
Qed.

(** What the loop leaves: the entries already there, the stored keys with their
    clipped values, and markers; within the budget. *)
Lemma store_outputs_spec keys merged : forall total outs,
  NoDup keys -> 0 <= total <= outputStageMax ->
  exists ks, ks ⊆ keys /\ NoDup ks /\ total + stored_size ks merged <= outputStageMax /\
    (forall k, k ∈ ks -> hasDisallowedControl (default "" (merged !! k)) = false) /\
    (forall k v, store_outputs keys merged total outs !! k = Some v ->
       (k ∈ ks /\ v = clip (default "" (merged !! k))) \/ (is_marker k = true /\ v = "true") \/ outs !! k = Some v).
Proof.
  induction keys as [|k0 keys IH]; intros total outs Hnd Ht; cbn [store_outputs].
  { exists []. split_and!; [done|constructor|unfold stored_size; cbn [foldr]; lia|by intros ? ?%not_elem_of_nil|by auto]. }
  apply NoDup_cons in Hnd as [Hk0 Hnd]. set (v0 := default "" (merged !! k0)).
  destruct (hasDisallowedControl v0) eqn:Hc.
  - destruct (IH total (<["_invalid" := "true"]> outs) Hnd Ht) as (ks & Hsub & Hnks & Hsz & Hok & Hl).
    exists ks. split_and!; [set_solver|done|done|done|]. intros k v Hkv. apply Hl in Hkv as [?|[?|Hkv]]; [auto..|].
    apply lookup_insert_Some in Hkv as [[<- <-]|[_ ?]]; auto.
  - set (outs1 := if outputKeyMax <? str_len v0 then <["_truncated" := "true"]> outs else outs).
    assert (forall k v, outs1 !! k = Some v -> (is_marker k = true /\ v = "true") \/ outs !! k = Some v) as Ho1.
    { intros k v. unfold outs1. destruct (_ <? _); [|by right].
      intros [[<- <-]|[_ ?]]%lookup_insert_Some; auto. }
    destruct (Z.ltb_spec outputStageMax (total + str_len k0 + str_len (clip v0))) as [Hbig|Hfit].
    + exists []. split_and!; [set_solver|constructor|unfold stored_size; cbn [foldr]; lia|by intros ? ?%not_elem_of_nil|].
      intros k v [[<- <-]|[_ Hkv]]%lookup_insert_Some; [auto|]. apply Ho1 in Hkv. tauto.
    + pose proof (str_len_nonneg k0). pose proof (str_len_nonneg (clip v0)).
      destruct (IH (total + (str_len k0 + str_len (clip v0))) (<[k0 := clip v0]> outs1) Hnd ltac:(lia))
        as (ks & Hsub & Hnks & Hsz & Hok & Hl).
      exists (k0 :: ks). split_and!.
      * set_solver.
      * constructor; [|done]. intros Hin. by apply Hk0, Hsub.
      * cbn [stored_size foldr]. fold (stored_size ks merged) v0. lia.
      * intros k [->|Hk]%elem_of_cons; [done|by apply Hok].
      * intros k v Hkv. apply Hl in Hkv as [[? ?]|[?|Hkv]]; [left; split; [by right|done]|auto|].
        apply lookup_insert_Some in Hkv as [[<- <-]|[_ Hkv]]; [left; split; [by left|done]|].
        apply Ho1 in Hkv. tauto.
Qed.

(** With nothing to reject or cut, every value is stored. *)
Lemma store_outputs_all keys merged : forall total outs, NoDup keys ->
  (forall k, k ∈ keys -> hasDisallowedControl (default "" (merged !! k)) = false /\
                        str_len (default "" (merged !! k)) <= outputKeyMax) ->
  total + stored_size keys merged <= outputStageMax ->
  (forall k, k ∈ keys -> store_outputs keys merged total outs !! k = Some (default "" (merged !! k))) /\
  (forall k, k ∉ keys -> store_outputs keys merged total outs !! k = outs !! k).
Proof.
  induction keys as [|k0 keys IH]; intros total outs Hnd Hok Hsz; cbn [store_outputs].
  { split; [by intros ? ?%not_elem_of_nil|done]. }
  apply NoDup_cons in Hnd as [Hk0 Hnd]. destruct (Hok k0 ltac:(left)) as [Hc Hl].
  cbn [stored_size foldr] in Hsz. fold (stored_size keys merged) in Hsz.
  pose proof (stored_size_nonneg keys merged) as Hpos.
  set (v0 := default "" (merged !! k0)) in *. rewrite Hc, (proj2 (Z.ltb_ge _ _) Hl).
  rewrite (proj2 (Z.ltb_ge outputStageMax (total + str_len k0 + str_len (clip v0)))) by lia.
  assert (clip v0 = v0) as -> by (unfold clip; by rewrite (proj2 (Z.ltb_ge _ _) Hl)).
  destruct (IH (total + (str_len k0 + str_len v0)) (<[k0 := v0]> outs) Hnd) as [IH1 IH2].
  { intros k Hk. apply Hok. by right. }
  { assert (clip v0 = v0) as Hcl by (unfold clip; by rewrite (proj2 (Z.ltb_ge _ _) Hl)). rewrite Hcl in Hsz. lia. }
  split.
  - intros k [->|Hk]%elem_of_cons; [by rewrite IH2, lookup_insert_eq|by apply IH1].
  - intros k [Hne Hk]%not_elem_of_cons. rewrite IH2 by done. by rewrite lookup_insert_ne.
Qed.

Lemma collectStageOutputs_lookup m allowed id outs :
  collectStageOutputs m allowed !! id = Some outs <->
  id ∈ allowed /\ exists sr, m !! id = Some sr /\ sr_Status sr = RunStatusSuccess /\
    sr_Outputs sr <> ∅ /\ outs = sr_Outputs sr.
Proof.
  unfold collectStageOutputs. rewrite <- (elem_of_elements allowed).
  assert (forall (out : gmap string (gmap string string)), foldl (fun out id =>
    match m !! id with
    | None => out
    | Some sr => if negb (sr_Status sr =s RunStatusSuccess) || bool_decide (sr_Outputs sr = ∅) then out
                 else <[id := sr_Outputs sr]> out
    end) out (elements allowed) !! id = Some outs <->
    (id ∈ elements allowed /\ exists sr, m !! id = Some sr /\ sr_Status sr = RunStatusSuccess /\
      sr_Outputs sr <> ∅ /\ outs = sr_Outputs sr) \/
    (out !! id = Some outs /\ (id ∈ elements allowed -> forall sr, m !! id = Some sr ->
      sr_Status sr <> RunStatusSuccess \/ sr_Outputs sr = ∅))) as H.
  { induction (elements allowed) as [|id0 l IH]; intros out; cbn [foldl].
    { split; [right; split; [done|by intros ?%not_elem_of_nil]|]. by intros [[?%not_elem_of_nil _]|[? _]]. }
    rewrite IH. clear IH. setoid_rewrite elem_of_cons.
    destruct (decide (id = id0)) as [->|Hne].
    - destruct (m !! id0) as [sr|] eqn:Hm; [|naive_solver].
      destruct (String.eqb_spec (sr_Status sr) RunStatusSuccess) as [Hs|Hs]; cbn [negb orb];
        [|split; [intros [?|[? _]]; [left; naive_solver|right; split; [done|intros _ ? [= <-]; by left]]
          |intros [(_ & ? & [= <-] & ? & _)|[? ?]]; [done|right; split; [done|auto]]]].
      case_bool_decide as Ho.
      + split; [intros [(_ & ? & [= <-] & _ & ? & _)|[? ?]]; [done|right; split; [done|intros _ ? [= <-]; by right]]
          |intros [(_ & ? & [= <-] & _ & ? & _)|[? ?]]; [done|right; split; [done|auto]]].
      + rewrite lookup_insert_eq. split.
        * intros [(_ & H)|[[= <-] _]]; left; (split; [by left|]); [done|by exists sr].
        * intros [(_ & ? & [= <-] & _ & _ & ->)|[_ H]].
          -- destruct (decide (id0 ∈ l)); [left; split; [done|by exists sr]|right; split; [done|done]].
          -- destruct (H (or_introl eq_refl) sr eq_refl); done.
    - assert ((id = id0 \/ id ∈ l) <-> id ∈ l) as -> by (split; [intros [?|?]|by right]; done).
      destruct (m !! id0) as [sr|]; [|done]. destruct (_ || _); [done|].
      by rewrite lookup_insert_ne. }
  rewrite H, lookup_empty. split; [by intros [?|[? _]]|by left].
Qed.

Section interpolation.
Context `{RO : RangeOrder}.

Lemma Interpolate_Err_piece v r e : Interpolate v r = Err e -> exists p, p ∈ pieces v /\ resolve r p = Err e.
Proof. unfold Interpolate. intros [H|(ys & _ & [=])]%bind_Err. by apply mapM_result_Err in H. Qed.

Lemma InterpolateSlice_Err l r e : InterpolateSlice l r = Err e ->
  exists v p, v ∈ l /\ p ∈ pieces v /\ resolve r p = Err e.
Proof.
  intros (v & Hv & (p & ? & ?)%Interpolate_Err_piece)%mapM_result_Err. by exists v, p.
Qed.

Lemma InterpolateMap_Err m r e : InterpolateMap m r = Err e ->
  exists v p, v ∈ (range_map m).*2 /\ p ∈ pieces v /\ resolve r p = Err e.
Proof.
  unfold InterpolateMap. intros [H|(ys & _ & [=])]%bind_Err.
  apply mapM_result_Err in H as ([k v] & Hin & [H|(? & _ & [=])]%bind_Err).
  apply Interpolate_Err_piece in H as (p & ? & ?). exists v, p. split_and!; [|done|done].
  apply list_elem_of_fmap. by exists (k, v).
Qed.

Definition resolvable (r : OutputResolver) (v : string) : Prop :=
  forall p, p ∈ pieces v -> exists out, resolve r p = Ok out.

Lemma Interpolate_total v r : resolvable r v -> exists out, Interpolate v r = Ok out.
Proof.
  intros H. destruct (mapM_result_total (resolve r) (pieces v) H) as [parts Hp].
  exists (concat_str parts). unfold Interpolate. by rewrite Hp.
Qed.

Lemma InterpolateSlice_total l r : (forall v, v ∈ l -> resolvable r v) -> exists out, InterpolateSlice l r = Ok out.
Proof. intros H. apply mapM_result_total. intros v Hv. by apply Interpolate_total, H. Qed.

Lemma InterpolateMap_total m r : (forall v, v ∈ (range_map m).*2 -> resolvable r v) ->
  exists out, InterpolateMap m r = Ok out.
Proof.
  intros H. unfold InterpolateMap.
  destruct (mapM_result_total (fun '(k, v) => Interpolate v r ≫= fun iv => Ok (k, iv)) (range_map m)) as [ys Hy].
  - intros [k v] Hin. destruct (Interpolate_total v r) as [out Ho].
    + apply H, list_elem_of_fmap. by exists (k, v).
    + rewrite Ho. by eexists.
  - rewrite Hy. by eexists.
Qed.

(** The scanned fields are the substituted ones. *)
Lemma interpolateStageConfig_Err s r e : interpolateStageConfig s r = Err e ->
  exists v p, v ∈ stageInterpolatableStrings s /\ p ∈ pieces v /\ resolve r p = Err e.
Proof.
  unfold interpolateStageConfig, stageInterpolatableStrings. intros H.
  repeat (apply bind_Err in H as [H|(? & _ & H)];
    [first [apply Interpolate_Err_piece in H as (p & ? & ?); eexists _, p
           |apply InterpolateSlice_Err in H as (v & p & ? & ? & ?); exists v, p
           |apply InterpolateMap_Err in H as (v & p & ? & ? & ?); exists v, p];
     (split; [|by split]); rewrite !elem_of_app, !elem_of_cons; tauto|]).
  done.
Qed.

Lemma interpolateStageConfig_total s r :
  (forall v, v ∈ stageInterpolatableStrings s -> resolvable r v) -> exists s', interpolateStageConfig s r = Ok s'.
Proof.
  unfold interpolateStageConfig, stageInterpolatableStrings. intros H.
  setoid_rewrite elem_of_app in H. setoid_rewrite elem_of_app in H. setoid_rewrite elem_of_app in H.
  setoid_rewrite elem_of_app in H. setoid_rewrite elem_of_app in H. setoid_rewrite elem_of_cons in H.
  repeat match goal with
  | |- context [Interpolate ?v r ≫= _] =>
      let o := fresh "o" in let Ho := fresh "Ho" in
      destruct (Interpolate_total v r) as [o Ho]; [apply H; rewrite ?elem_of_cons; tauto|rewrite Ho; cbn [mbind result_bind]]
  | |- context [InterpolateSlice ?v r ≫= _] =>
      let o := fresh "o" in let Ho := fresh "Ho" in
      destruct (InterpolateSlice_total v r) as [o Ho]; [intros; apply H; tauto|rewrite Ho; cbn [mbind result_bind]]
  | |- context [InterpolateMap ?v r ≫= _] =>
      let o := fresh "o" in let Ho := fresh "Ho" in
      destruct (InterpolateMap_total v r) as [o Ho]; [intros; apply H; tauto|rewrite Ho; cbn [mbind result_bind]]
  end.
  by eexists.
Qed.
End interpolation.

(** ** Properties *)

Section properties.
Context `{RO : RangeOrder}.

Lemma stored_size_perm merged ks ks' : ks ≡ₚ ks' -> stored_size ks merged = stored_size ks' merged.
Proof. unfold stored_size. induction 1; cbn [foldr]; lia. Qed.

(** The outputs an adapter leaves on a stage run are capped: each is the
    merged value (the adapter's over the derived one), cut at 4 KiB plus the
    marker, free of control characters before the cut; all of them fit in
    32 KiB; and when nothing needs cutting they are exactly the merged values. *)
Theorem applyStageOutputs_capped sr derived adapter :
  sr_Outputs sr = ∅ ->
  let merged := merge_outputs derived adapter in
  let outs := sr_Outputs (applyStageOutputs sr derived adapter) in
  (exists ks, NoDup ks /\ stored_size ks merged <= outputStageMax /\
     (forall k, k ∈ ks -> exists v, merged !! k = Some v /\ hasDisallowedControl v = false) /\
     (forall k v, outs !! k = Some v ->
        (k ∈ ks /\ v = clip (default "" (merged !! k))) \/ (is_marker k = true /\ v = "true"))) /\
  ((forall k v, merged !! k = Some v -> hasDisallowedControl v = false /\ str_len v <= outputKeyMax) ->
   stored_size (range_map merged).*1 merged <= outputStageMax -> outs = merged).
Proof.
  intros Hempty merged outs. unfold outs, applyStageOutputs. fold merged.
  set (keys := sort_strings (range_map merged).*1).
  assert (keys ≡ₚ (range_map merged).*1) as Hperm by apply sort_slice_perm.
  assert (NoDup keys) as Hnd by (rewrite Hperm; apply NoDup_range_fst).
  assert (forall k, k ∈ keys <-> is_Some (merged !! k)) as Hk by (intros k; rewrite Hperm; apply elem_of_range_fst).
  case_bool_decide as Hm.
  - rewrite Hempty. split; [|by rewrite Hm]. exists [].
    split_and!; [constructor|done|by intros ? ?%not_elem_of_nil|]. intros k v. by rewrite lookup_empty.
  - cbn [sr_Outputs sr_set_Outputs]. rewrite Hempty. split.
    + destruct (store_outputs_spec keys merged 0 ∅ Hnd) as (ks & Hsub & Hnks & Hsz & Hok & Hl); [unfold outputStageMax; lia|].
      exists ks. split_and!; [done|lia| |].
      * intros k Hin. destruct (proj1 (Hk k) (Hsub k Hin)) as [v Hv]. exists v. split; [done|].
        specialize (Hok k Hin). by rewrite Hv in Hok.
      * intros k v Hv. apply Hl in Hv as [?|[?|Hv]]; [by left|by right|]. by rewrite lookup_empty in Hv.
    + intros Hclean Hfit. destruct (store_outputs_all keys merged 0 ∅ Hnd) as [H1 H2].
      * intros k [v Hv]%Hk. rewrite Hv. by apply (Hclean k).
      * rewrite (stored_size_perm merged _ _ Hperm). lia.
      * apply map_eq. intros k. destruct (merged !! k) as [v|] eqn:Hv.
        -- rewrite H1, Hv; [done|]. apply Hk. by eexists.
        -- rewrite H2, lookup_empty; [done|]. rewrite Hk, Hv. by intros [].
Qed.

(** A collected ancestor resolves a key when it succeeded with it. *)
Lemma resolve_collected m (allowed : gset string) id key : id ∈ allowed ->
  (exists sr, m !! id = Some sr /\ sr_Status sr = RunStatusSuccess /\ is_Some (sr_Outputs sr !! key)) <->
  exists v, resolve (collectStageOutputs m allowed) (Ref id key) = Ok v.
Proof.
  intros Hin. cbn [resolve]. destruct (collectStageOutputs m allowed !! id) as [outs|] eqn:E.
  - apply collectStageOutputs_lookup in E as (_ & sr & Hm & Hs & _ & ->). split.
    + intros (sr' & Hm' & _ & [v Hv]). assert (sr' = sr) as -> by congruence. rewrite Hv. by eexists.
    + destruct (sr_Outputs sr !! key) as [v|] eqn:Hv; [|by intros [? ?]]. intros _. exists sr. rewrite Hv. by eauto.
  - split; [|by intros [? ?]]. intros (sr & Hm & Hs & [v Hv]).
    assert (collectStageOutputs m allowed !! id = Some (sr_Outputs sr)) as Hc; [|by rewrite Hc in E].
    apply collectStageOutputs_lookup. split; [done|]. exists sr. split_and!; try done.
    intros He. by rewrite He, lookup_empty in Hv.
Qed.

(** A reference of a validated pipeline can only fail at run time because
    of an upstream stage: the configuration interpolates as soon as the
    referenced ancestors have succeeded with the referenced keys, and any error
    names an ancestor of the stage that did not succeed, or has no such key. *)
Theorem validated_stage_interpolates p s m :
  ValidatePipelineDAG p = [] -> s ∈ p_Stages p ->
  let r := collectStageOutputs m (ancestorsOf (st_ID s) (deps_of_edges (p_Edges p))) in
  let provides id key := exists sr, m !! id = Some sr /\ sr_Status sr = RunStatusSuccess /\
    is_Some (sr_Outputs sr !! key) in
  ((forall field id key, field ∈ stageInterpolatableStrings s -> Ref id key ∈ pieces field -> provides id key) ->
     exists s', interpolateStageConfig s r = Ok s') /\
  (forall e, interpolateStageConfig s r = Err e ->
     exists id key, (e = UnknownStage id key \/ e = NoOutput id key) /\
       id ∈ stage_ids p /\ tc (feeds p) id (st_ID s) /\ ~ provides id key).
Proof.
  intros [_ _ _ Hrefs _]%ValidatePipelineDAG_valid Hs r provides.
  assert (forall field id key, field ∈ stageInterpolatableStrings s -> Ref id key ∈ pieces field ->
    id ∈ stage_ids p /\ tc (flip (feeds p)) (st_ID s) id /\
    (provides id key <-> exists v, resolve r (Ref id key) = Ok v)) as Hanc.
  { intros field id key Hf Hp. destruct (Hrefs s id Hs) as (Hid & _ & Htc); [by eapply elem_of_stage_refs|].
    split_and!; [done|done|]. apply resolve_collected. by apply ancestors_feeds. }
  split.
  - intros Hprov. apply interpolateStageConfig_total. intros field Hf [c|id key] Hp; [by eexists|].
    apply (Hanc field id key Hf Hp). by eapply Hprov.
  - intros e (field & piece & Hf & Hp & He)%interpolateStageConfig_Err. destruct piece as [c|id key]; [done|].
    destruct (Hanc field id key Hf Hp) as (Hid & Htc & Hiff). exists id, key. split_and!.
    + cbn in He. repeat case_match; naive_solver.
    + done.
    + by apply tc_flip.
    + rewrite Hiff. intros [v Hv]. congruence.
Qed.
End properties.

(** ** The log buffer *)

Section buffer.

(** A sequence of writes. *)
Definition write_all (c : cappedBuffer) (ps : list string) : cappedBuffer :=
  foldl (fun c p => (Write c p).2) c ps.

Lemma take_append n a b : String.substring 0 (String.length a + n) (a +:+ b) = a +:+ String.substring 0 n b.
Proof. induction a as [|c a IH]; [done|]. rewrite !append_cons. cbn. by rewrite IH. Qed.

(** The buffer after writing [total]: all of it, or its first [cap] bytes and
    the marker once a write came when the buffer was full. *)
Definition buffer_holds (cap : Z) (total : string) (c : cappedBuffer) : Prop :=
  cb_cap c = cap /\
  ((cb_truncated c = false /\ str_len total <= cap /\ cb_buf c = total) \/
   (cb_truncated c = true /\ cap <= str_len total /\ cb_buf c = str_take cap total +:+ log_marker)).

Lemma str_take_short n a b : 0 <= n <= str_len a -> str_take n (a +:+ b) = str_take n a.
Proof.
  unfold str_take, str_len. intros Hn. assert (Z.to_nat n <= String.length a)%nat as Hle by lia. clear Hn.
  revert Hle. generalize (Z.to_nat n). induction a as [|c a IH]; intros k Hle; [by destruct k; [destruct b|cbn in Hle; lia]|].
  rewrite append_cons. destruct k; [done|]. cbn in *. rewrite IH; [done|lia].
Qed.

Lemma Write_holds cap total c p : 0 < cap -> buffer_holds cap total c ->
  (Write c p).1 = str_len p /\ buffer_holds cap (total +:+ p) (Write c p).2.
Proof.
  intros Hcap [Hc Hb]. unfold Write. rewrite Hc. pose proof (str_len_nonneg p). pose proof (str_len_nonneg total).
  destruct Hb as [(Ht & Hle & Hbuf)|(Ht & Hle & Hbuf)]; rewrite Hbuf, Ht.
  - destruct (Z.leb_spec cap (str_len total)) as [Hfull|Hroom]; cbn [negb fst snd].
    + split; [done|]. split; [done|]. right. cbn. rewrite str_len_append. split_and!; [done|lia|].
      rewrite str_take_short by lia. replace cap with (str_len total) by lia.
      unfold str_take, str_len. by rewrite Nat2Z.id, substring_all.
    + destruct (Z.leb_spec (str_len p) (cap - str_len total)); cbn [fst snd]; (split; [done|]); (split; [done|]); cbn.
      * left. rewrite str_len_append. split_and!; [done|lia|done].
      * right. rewrite str_len_append. split_and!; [done|lia|]. rewrite <- append_assoc. f_equal.
        unfold str_take, str_len in *. rewrite <- take_append. f_equal. lia.
  - assert (cap <= str_len (str_take cap total +:+ log_marker)) as Hfull.
    { rewrite str_len_append, str_len_take by lia. pose proof (str_len_nonneg log_marker). lia. }
    rewrite (proj2 (Z.leb_le _ _) Hfull). cbn [negb fst snd]. split; [done|]. split; [done|]. right.
    rewrite str_len_append. split_and!; [done|lia|]. by rewrite str_take_short by lia.
Qed.

(** Every write to the log buffer reports all its bytes as written; the
    buffer holds the output unchanged while it fits, and afterwards exactly its
    first [cap] bytes followed by one marker, however many writes follow. *)
Theorem cappedBuffer_prefix cap ps :
  0 < cap ->
  let c := write_all (newCappedBuffer cap) ps in
  let total := concat_str ps in
  (str_len total < cap -> cb_buf c = total) /\
  (cap < str_len total -> cb_buf c = str_take cap total +:+ log_marker) /\
  str_len (cb_buf c) <= cap + str_len log_marker /\
  (forall p, (Write c p).1 = str_len p).
Proof.
  intros Hcap c total.
  assert (forall ps total0 c0, buffer_holds cap total0 c0 -> buffer_holds cap (total0 +:+ concat_str ps) (write_all c0 ps)) as H.
  { induction ps0 as [|p l IH]; intros t0 c0 H0; [by rewrite append_nil_r|].
    cbn [write_all foldl concat_str foldr]. fold (concat_str l) (write_all (Write c0 p).2 l).
    rewrite <- append_assoc. by apply IH, Write_holds. }
  assert (buffer_holds cap total c) as Hc.
  { apply (H ps "" (newCappedBuffer cap)). split; [done|]. left. split_and!; [done|by apply Z.lt_le_incl|done]. }
  pose proof (str_len_nonneg log_marker). split_and!.
  - intros Hl. destruct Hc as [_ [(_ & _ & ?)|(_ & ? & _)]]; [done|lia].
  - intros Hl. destruct Hc as [_ [(_ & ? & _)|(_ & _ & ?)]]; [lia|done].
  - destruct Hc as [_ [(_ & ? & ->)|(_ & ? & ->)]]; [lia|]. rewrite str_len_append, str_len_take; lia.
  - intros p. by apply (Write_holds cap total c p Hcap Hc).
Qed.
End buffer.

(** ** Concrete values *)

Section demo.
Local Existing Instance range_default.

(** A value one byte over the cap is stored 14 bytes over it. *)
Example truncated_value_over_cap :
  let v := String.string_of_list_ascii (replicate 4097 "a"%char) in
  str_len (clip v) = outputKeyMax + 14.
Proof. vm_compute. reflexivity. Qed.

Definition demo_run (st : RunStatus) (outs : gmap string string) : StageRun :=
  mkStageRun "build" st None None "" "" [] outs.

Lemma applyStageOutputs_capped_witness :
  sr_Outputs (applyStageOutputs (demo_run RunStatusRunning ∅) {["digest" := "sha256:1"]} {["tag" := "v1"]})
  = merge_outputs {["digest" := "sha256:1"]} {["tag" := "v1"]}.
Proof.
  apply (applyStageOutputs_capped (demo_run RunStatusRunning ∅)); [reflexivity| |vm_compute; congruence].
  intros k v. unfold merge_outputs. intros [[<- <-]%lookup_singleton_Some|[_ [<- <-]%lookup_singleton_Some]]%lookup_union_Some_raw;
    split; vm_compute; congruence.
Defined.

Lemma validated_stage_interpolates_witness :
  exists s', interpolateStageConfig (mkStage "push" "push" StageTypePush push_config "" "")
    (collectStageOutputs {["build" := demo_run RunStatusSuccess {["digest" := "sha256:1"]}]}
       (ancestorsOf "push" (deps_of_edges (p_Edges demo_pipeline)))) = Ok s'.
Proof.
  apply (proj1 (validated_stage_interpolates demo_pipeline (mkStage "push" "push" StageTypePush push_config "" "")
    {["build" := demo_run RunStatusSuccess {["digest" := "sha256:1"]}]} demo_valid ltac:(right; left))).
  intros field id key Hf Hp.
  repeat (apply elem_of_cons in Hf as [->|Hf]; [vm_compute in Hp; first [by apply not_elem_of_nil in Hp|idtac]|]).
  - apply list_elem_of_singleton in Hp. injection Hp as -> ->. eexists. split; [reflexivity|].
    split; [reflexivity|]. by eexists.
  - vm_compute in Hf. by apply not_elem_of_nil in Hf.
Defined.

Lemma cappedBuffer_prefix_witness :
  0 < 4 /\ cb_buf (write_all (newCappedBuffer 4) ["abc"; "def"; "g"]) = "abcd" +:+ log_marker.
Proof.
  split; [lia|]. apply (cappedBuffer_prefix 4 ["abc"; "def"; "g"]); [lia|reflexivity].
Defined.
End demo.
