(* ===== verification/Executor.v ===== *)
(** * The pipeline executor: [internal/service/executor.go]

    [Execute] builds the graph, runs one task per stage on the DAG runner and
    finalises the run.  A task is modelled in the pieces between which other
    goroutines can act: its beginning (the edge-condition gate, the
    interpolation, the status change), and its end (the adapter's outcome).
    Time-outs, metrics, broadcasts and the progress drain are left out. *)

From S2P Require Import Prelude Dag Runner Model RunState Interpolate Pipeline Outputs.
Local Open Scope Z_scope.

(** ** Configuration *)

(** [COOKER_EDGE_CONDITIONS_ENABLED], [COOKER_OUTPUTS_ENABLED] and
    [COOKER_DAG_MAX_PARALLEL], as [edgeConditionsEnabled], [outputsEnabled] and
    [dagMaxParallel] read them. *)
Record flags := mkFlags { fl_edges : bool; fl_outputs : bool; fl_maxParallel : Z }.

(** An environment switch that defaults to on. *)
Definition switch_on (v : string) : bool := negb ((v =s "false") || (v =s "0")).

(** ** The stage runs *)

(** [stageRunMap]: the slots of [run.StageRuns] by stage. *)
Definition stage_run_map (run : PipelineRun) : gmap string StageRun :=
  foldl (fun m sr => <[sr_StageID sr := sr]> m) ∅ (run_StageRuns run).

(** The slots written back: the map points at the last slot of a stage. *)
Fixpoint write_back_slots (m : gmap string StageRun) (slots : list StageRun) : list StageRun :=
  match slots with
  | [] => []
  | sr :: slots =>
      (if existsb (fun sr' => sr_StageID sr' =s sr_StageID sr) slots then sr
       else default sr (m !! sr_StageID sr)) :: write_back_slots m slots
  end.

Definition write_back (m : gmap string StageRun) (run : PipelineRun) : PipelineRun :=
  run_set_StageRuns (write_back_slots m (run_StageRuns run)) run.

Definition stage_by_id (p : Pipeline) (id : string) : option Stage :=
  foldl (fun acc s => if st_ID s =s id then Some s else acc) None (p_Stages p).

(** [statusOf]: a stage without a slot counts as failed. *)
Definition statusOf (m : gmap string StageRun) (id : string) : RunStatus :=
  match m !! id with Some sr => sr_Status sr | None => RunStatusFailed end.

Definition incomingEdges (p : Pipeline) (id : string) : list Edge :=
  filter (fun e => e_Target e = id) (p_Edges p).

(** The edge-condition gate. *)
Definition gate (p : Pipeline) (m : gmap string StageRun) (id : string) : bool :=
  StageShouldRun id (incomingEdges p id) (statusOf m).

(** The run that [RunPipeline] (internal/handler/pipeline.go) creates: a pending
    slot per stage. *)
Definition new_StageRun (s : Stage) : StageRun :=
  mkStageRun (st_ID s) RunStatusPending None None "" "" [] ∅.

Definition RunPipeline_run (p : Pipeline) (uuid sub email : string) (groups : list string) (tokenHash : string)
    : PipelineRun :=
  mkPipelineRun uuid (p_ID p) RunStatusPending (new_StageRun <$> p_Stages p) [] (p_Variables p) zero_time None None ""
    None sub email groups tokenHash (p_Version p).

Section executor.
Context `{RO : RangeOrder} {LF : LoopFSM}.

(** The status after an event, or the given one when the table refuses. *)
Definition stage_after (cur : RunStatus) (ev : Event) (fallback : RunStatus) : RunStatus :=
  match TransitionStage cur ev with
  | (next, None) => next
  | (_, Some _) => fallback
  end.

Inductive begun :=
| BeginError (msg : string)                            (* no stage, or no slot for it *)
| BeginSkip (m : gmap string StageRun)                 (* returns [ErrSkipped] *)
| BeginRun (execStage : result interp_error Stage) (m : gmap string StageRun).

(** The task up to the dispatch on the stage type. *)
Definition task_begin (fl : flags) (p : Pipeline) (m : gmap string StageRun) (now : Z) (id : string) : begun :=
  match stage_by_id p id with
  | None => BeginError "stage not found in pipeline"
  | Some stage =>
      match m !! id with
      | None => BeginError "stage run not allocated"
      | Some sr =>
          if fl_edges fl && negb (gate p m id) then
            let sr' := sr |> sr_set_Status (stage_after (sr_Status sr) EventSkip RunStatusSkipped)
                          |> sr_set_FinishedAt (Some now) in
            BeginSkip (<[id := sr']> m)
          else
            let execStage :=
              if fl_outputs fl
              then interpolateStageConfig stage (collectStageOutputs m (ancestorsOf id (deps_of_edges (p_Edges p))))
              else Ok stage in
            let sr' := sr |> sr_set_StartedAt (Some now)
                          |> sr_set_Status (stage_after (sr_Status sr) EventStart RunStatusRunning) in
            BeginRun execStage (<[id := sr']> m)
      end
  end.

(** What the adapters leave on the slot, besides the error: logs, artifacts and
    outputs. *)
Record adapter_effect := mkEffect { ae_logs : string; ae_artifacts : list Artifact; ae_outputs : gmap string string }.

Definition apply_effect (e : adapter_effect) (sr : StageRun) : StageRun :=
  sr |> sr_set_Logs (ae_logs e) |> sr_set_Artifacts (sr_Artifacts sr ++ ae_artifacts e)
     |> sr_set_Outputs (ae_outputs e).

(** The task after the dispatch. *)
Definition task_end (now : Z) (err : option string) (sr : StageRun) : StageRun :=
  let sr := sr_set_FinishedAt (Some now) sr in
  match err with
  | Some msg => sr |> sr_set_Status (stage_after (sr_Status sr) EventFail RunStatusFailed) |> sr_set_Error msg
  | None => sr |> sr_set_Status (stage_after (sr_Status sr) EventSucceed RunStatusSuccess)
  end.

(** ** The execution *)

Record exec := mkExec {
  x_runner : Runner; x_runs : gmap string StageRun;
  x_begun : gmap string (result interp_error Stage) (* tasks past their beginning *)
}.

Inductive xaction :=
| XRunner (a : action)                                            (* the runner itself *)
| XBegin (now : Z) (id : string)                                  (* a task up to its dispatch *)
| XEnd (now : Z) (id : string) (eff : adapter_effect) (err : option string)  (* the dispatch returns *)
| XPanic (id : string) (eff : adapter_effect) (v : string).       (* it panics *)

Definition is_running (r : Runner) (id : string) : bool :=
  match r_phase r with InLevel _ running _ => bool_decide (id ∈ running) | _ => false end.

Definition finish_task (id : string) (o : task_outcome) (m : gmap string StageRun)
    (b : gmap string (result interp_error Stage)) (r : Runner) : option exec :=
  match step (Finish id o) r with
  | Some r' => Some (mkExec r' m (delete id b))
  | None => None
  end.

Definition xstep (fl : flags) (p : Pipeline) (a : xaction) (x : exec) : option exec :=
  let r := x_runner x in
  match a with
  | XRunner (Finish _ _) => None
  | XRunner a =>
      match step a r with Some r' => Some (mkExec r' (x_runs x) (x_begun x)) | None => None end
  | XBegin now id =>
      if negb (is_running r id) || bool_decide (is_Some (x_begun x !! id)) then None else
      match task_begin fl p (x_runs x) now id with
      | BeginError msg => finish_task id (TaskErr msg) (x_runs x) (x_begun x) r
      | BeginSkip m => finish_task id TaskSkipped m (x_begun x) r
      | BeginRun s m => Some (mkExec r m (<[id := s]> (x_begun x)))
      end
  | XEnd now id eff err =>
      match x_begun x !! id, x_runs x !! id with
      | Some (Ok _), Some sr =>
          finish_task id (match err with None => TaskOk | Some e => TaskErr e end)
            (<[id := task_end now err (apply_effect eff sr)]> (x_runs x)) (x_begun x) r
      | Some (Err _), Some sr =>
          (* the interpolation failed: no dispatch, no retry *)
          finish_task id (TaskErr "interpolate")
            (<[id := task_end now (Some "interpolate") sr]> (x_runs x)) (x_begun x) r
      | _, _ => None
      end
  | XPanic id eff v =>
      match x_begun x !! id, x_runs x !! id with
      | Some (Ok _), Some sr =>
          finish_task id (TaskPanic v) (<[id := apply_effect eff sr]> (x_runs x)) (x_begun x) r
      | _, _ => None
      end
  end.

Definition xrel (fl : flags) (p : Pipeline) (x x' : exec) : Prop := exists a, xstep fl p a x = Some x'.

Fixpoint xsteps (fl : flags) (p : Pipeline) (acts : list xaction) (x : exec) : option exec :=
  match acts with
  | [] => Some x
  | a :: acts => match xstep fl p a x with Some x' => xsteps fl p acts x' | None => None end
  end.

(** ** Finalisation *)

Definition run_after (cur : RunStatus) (ev : Event) (fallback : RunStatus) : RunStatus :=
  match TransitionRun cur ev with
  | (next, None) => next
  | (_, Some _) => fallback
  end.

(** The runner's error: its text, and whether [errors.Is(err, context.Canceled)]. *)
Record run_err := mkRunErr { re_canceled : bool; re_msg : string }.

Definition keep_error (run : PipelineRun) (err : run_err) : PipelineRun :=
  if run_Error run =s "" then run_set_Error (re_msg err) run else run.

Definition finalize (run : PipelineRun) (runErr : option run_err) (startedCancelled : bool) (now : Z)
    : RunResult * PipelineRun :=
  let run := run_set_FinishedAt (Some now) run in
  let terminal ev fallback run := run_set_Status (run_after (run_Status run) ev fallback) run in
  let run :=
    if startedCancelled || (run_Status run =s RunStatusCancelled) then
      terminal EventCancel RunStatusCancelled run
    else match runErr with
    | Some err =>
        if re_canceled err then keep_error (terminal EventCancel RunStatusCancelled run) err
        else keep_error (terminal EventFail RunStatusFailed run) err
    | None => terminal EventSucceed RunStatusSuccess run
    end in
  (mkRunResult (run_Status run) now, run).

(** ** [Execute] *)

Definition review_only_err : run_err := mkRunErr false "use App Deploy to resolve this saved deployment graph".
Definition invalid_dag_err : run_err := mkRunErr false "building DAG: invalid pipeline".

(** What [Execute] does before the runner starts. *)
Inductive prologue :=
| Refused (res : RunResult) (run : PipelineRun) (err : run_err)
| Started (startedCancelled : bool) (run : PipelineRun) (x : exec).

Definition new_runner (fl : flags) (dag : DAG) : Runner :=
  if fl_edges fl then NewRunnerBoundedContinue dag (fl_maxParallel fl) else NewRunnerBounded dag (fl_maxParallel fl).

Definition begin_execute (fl : flags) (p : Pipeline) (run : PipelineRun) (now : Z) : prologue :=
  if existsb (fun s => cfg_ReviewOnly (st_Config s)) (p_Stages p) then
    let '(res, run') := finalize run (Some review_only_err) false now in Refused res run' review_only_err
  else
    match BuildDAGFromPipeline p with
    | Err _ =>
        let '(res, run') := finalize run (Some invalid_dag_err) (run_Status run =s RunStatusCancelled) now in
        Refused res run' invalid_dag_err
    | Ok dag =>
        let startedCancelled := run_Status run =s RunStatusCancelled in
        let run := run |> run_set_Status (run_after (run_Status run) EventStart RunStatusRunning)
                       |> run_set_StartedAt (Some now) in
        Started startedCancelled run (mkExec (start dag (new_runner fl dag)) (stage_run_map run) ∅)
    end.

(** What it does once the runner has returned, [run] being the run as it is
    then (an operator may have cancelled it meanwhile).  [ctxCanceled] tells a
    cancelled context from an expired one, and [wraps_canceled] whether a stage's
    error wraps [context.Canceled]. *)
Definition runner_err (ctxCanceled : bool) (wraps_canceled : string -> bool) (e : run_error) : run_err :=
  match e with
  | ContextDone => mkRunErr ctxCanceled "context done"
  | NodeFailed id m => mkRunErr (wraps_canceled m) ("node " +:+ id +:+ " failed: " +:+ m)
  | NodePanic id v => mkRunErr false ("node " +:+ id +:+ " panic: " +:+ v)
  | InvalidDAG _ => mkRunErr false "invalid DAG"
  end.

Definition end_execute (startedCancelled ctxCanceled : bool) (wraps_canceled : string -> bool)
    (run : PipelineRun) (x : exec) (res : option run_error) (now : Z) : RunResult * PipelineRun :=
  finalize (write_back (x_runs x) run) (runner_err ctxCanceled wraps_canceled <$> res) startedCancelled now.
End executor.

(** ** Facts *)

Lemma incoming_dep p id e : e ∈ incomingEdges p id -> feeds p (e_Source e) id.
Proof. unfold incomingEdges. rewrite list_elem_of_filter. intros [? ?]. by exists e. Qed.

Lemma gate_true p m id :
  gate p m id = true <->
  forall e, e ∈ incomingEdges p id -> EdgeAllows (statusOf m (e_Source e)) (e_Condition e) = true.
Proof.
  unfold gate. rewrite StageShouldRun_forall. split; [|by auto].
  intros H e He. apply H; [done|]. by apply list_elem_of_filter in He as [? _].
Qed.

(** The gate only looks at the sources of the stage's edges. *)
Lemma gate_ext p m m' id :
  (forall x, feeds p x id -> statusOf m x = statusOf m' x) -> gate p m id = gate p m' id.
Proof.
  intros H. apply eq_true_iff_eq. rewrite !gate_true.
  split; intros Hg e He; [rewrite <- H|rewrite H]; auto using incoming_dep.
Qed.

Lemma statusOf_insert m id sr x :
  statusOf (<[id := sr]> m) x = if decide (x = id) then sr_Status sr else statusOf m x.
Proof.
  unfold statusOf. destruct (decide (x = id)) as [->|]; [by rewrite lookup_insert_eq|].
  by rewrite lookup_insert_ne.
Qed.

(** The runner moves by its own steps. *)
Lemma finish_task_runner id o m b r x' : finish_task id o m b r = Some x' -> rstep r (x_runner x').
Proof.
  unfold finish_task. destruct (step _ r) eqn:Hs; [|done]. intros [= <-]. by exists (Finish id o).
Qed.

Lemma xstep_runner `{LoopFSM, RangeOrder} fl p a x x' : xstep fl p a x = Some x' ->
  x_runner x' = x_runner x \/ rstep (x_runner x) (x_runner x').
Proof.
  intros Ha. destruct a as [a|now id|now id eff err|id eff v]; cbn [xstep] in Ha.
  - right. exists a. destruct a; try done; destruct (step _ _) as [r'|]; try done; by injection Ha as <-.
  - destruct (_ || _); [done|]. destruct (task_begin _ _ _ _ _);
      [right; by eapply finish_task_runner|right; by eapply finish_task_runner|left; by injection Ha as <-].
  - destruct (x_begun x !! id) as [[]|], (x_runs x !! id); try done; right; by eapply finish_task_runner.
  - destruct (x_begun x !! id) as [[]|], (x_runs x !! id); try done; right; by eapply finish_task_runner.
Qed.

(** ** Invariant *)

Section invariant.
Context `{RO : RangeOrder} {LF : LoopFSM} {LFL : LoopFSMLaws}.
Context (fl : flags) (p : Pipeline) (levels : list (list string)).
Context (Hvalid : valid_pipeline p).
Abbreviation dag := (dag_of (p_Stages p) (deps_of_edges (p_Edges p))).
Context (Hsort : TopologicalSort dag = Ok levels).

Lemma stage_after_table :
  stage_after RunStatusPending EventStart RunStatusRunning = RunStatusRunning /\
  stage_after RunStatusPending EventSkip RunStatusSkipped = RunStatusSkipped /\
  stage_after RunStatusRunning EventFail RunStatusFailed = RunStatusFailed /\
  stage_after RunStatusRunning EventSucceed RunStatusSuccess = RunStatusSuccess.
Proof using LFL. unfold stage_after. rewrite !TransitionStage_spec. done. Qed.

(** How a stage's slot follows its node's status. *)
Definition slot_ok (x : exec) (id : string) : Prop :=
  match status_of (x_runner x) id with
  | Pending => statusOf (x_runs x) id = RunStatusPending /\ x_begun x !! id = None
  | Running => (statusOf (x_runs x) id = RunStatusPending /\ x_begun x !! id = None) \/
               (statusOf (x_runs x) id = RunStatusRunning /\ is_Some (x_begun x !! id))
  | Success => statusOf (x_runs x) id = RunStatusSuccess
  | Skipped => statusOf (x_runs x) id = RunStatusSkipped
  | Failed => statusOf (x_runs x) id = RunStatusFailed \/ statusOf (x_runs x) id = RunStatusRunning \/
              statusOf (x_runs x) id = RunStatusPending
  end.

(** The gate's verdict on a stage that is past it. *)
Definition verdict_ok (x : exec) (id : string) : Prop :=
  (statusOf (x_runs x) id = RunStatusSkipped -> gate p (x_runs x) id = false) /\
  (statusOf (x_runs x) id <> RunStatusSkipped -> statusOf (x_runs x) id <> RunStatusPending ->
     fl_edges fl = true -> gate p (x_runs x) id = true).

Record exec_inv (x : exec) : Prop := {
  xi_runner : runner_inv levels (x_runner x);
  xi_slots id : id ∈ stage_ids p -> is_Some (x_runs x !! id) /\ slot_ok x id /\ verdict_ok x id;
  xi_begun id : is_Some (x_begun x !! id) -> status_of (x_runner x) id = Running
}.

Lemma exec_stage x id : exec_inv x -> status_of (x_runner x) id <> Pending -> id ∈ stage_ids p.
Proof using Hsort.
  intros Hinv Hs. apply dec_stable. intros Hni. apply Hs, (ri_out levels); [apply Hinv|].
  rewrite (sorted_all dag levels Hsort), dag_of_lookup. fold (stage_ids p).
  rewrite bool_decide_eq_false_2 by done. by intros [].
Qed.

(** A stage that has left its pending slot has final upstreams. *)
Lemma past_gate x src id : exec_inv x -> feeds p src id -> status_of (x_runner x) id <> Pending ->
  terminal (status_of (x_runner x) src) = true.
Proof using Hvalid Hsort.
  intros Hinv Hf Hs. apply (started_deps dag levels Hsort (x_runner x) src id); [apply Hinv| |done].
  apply pipeline_dep_edge; [apply Hvalid|done].
Qed.

(** One stage's slot changes: its own verdict is given, the others keep theirs. *)
Lemma exec_inv_update x id sr r' b' :
  exec_inv x -> status_of (x_runner x) id = Running -> runner_inv levels r' ->
  (forall y, y <> id -> status_of r' y = status_of (x_runner x) y) ->
  (forall y, y <> id -> b' !! y = x_begun x !! y) ->
  (forall y, is_Some (b' !! y) -> status_of r' y = Running) ->
  let x' := mkExec r' (<[id := sr]> (x_runs x)) b' in
  slot_ok x' id -> verdict_ok (mkExec r' (<[id := sr]> (x_runs x)) b') id \/
    ((sr_Status sr = RunStatusSkipped -> gate p (x_runs x) id = false) /\
     (sr_Status sr <> RunStatusSkipped -> fl_edges fl = true -> gate p (x_runs x) id = true)) ->
  exec_inv x'.
Proof using Hvalid Hsort.
  intros Hinv Hrun Hr' Hst Hb Hb' x' Hslot Hv.
  assert (forall y, status_of (x_runner x) y <> Pending -> gate p (x_runs x') y = gate p (x_runs x) y) as Hgate.
  { intros y Hy. apply gate_ext. intros src Hf. cbn. rewrite statusOf_insert.
    destruct (decide (src = id)) as [->|]; [|done]. exfalso.
    pose proof (past_gate x id y Hinv Hf Hy) as Ht. by rewrite Hrun in Ht. }
  split; [done| |done]. intros y Hy. destruct (xi_slots x Hinv y Hy) as (Hsome & Hs & Hvy).
  destruct (decide (y = id)) as [->|Hne].
  - split_and!; [cbn; rewrite lookup_insert_eq; by eexists|done|]. destruct Hv as [Hv|Hv]; [done|].
    unfold verdict_ok. rewrite Hgate by (by rewrite Hrun). cbn. rewrite statusOf_insert, decide_True by done.
    split; [apply Hv|]. intros ? _ ?. by apply Hv.
  - split_and!.
    + cbn. by rewrite lookup_insert_ne.
    + unfold slot_ok in *. cbn. rewrite Hst, Hb, statusOf_insert, decide_False by done. exact Hs.
    + unfold verdict_ok in *. change (x_runs x') with (<[id := sr]> (x_runs x)) at 1 3 4.
      rewrite !statusOf_insert, !decide_False by done.
      destruct (decide (status_of (x_runner x) y = Pending)) as [Hp|Hp].
      * unfold slot_ok in Hs. rewrite Hp in Hs. destruct Hs as [-> _]. by split.
      * rewrite Hgate by done. exact Hvy.
Qed.

(** A runner action that is not a task's return only starts or abandons
    pending nodes. *)
Lemma runner_action_status a r r' y : runner_inv levels r -> step a r = Some r' ->
  (forall id o, a <> Finish id o) ->
  status_of r' y = status_of r y \/
  (status_of r y = Pending /\ (status_of r' y = Running \/ status_of r' y = Failed)).
Proof.
  intros [Hph _ _] Hs Hnf. unfold phase_inv in Hph.
  destruct a, (r_phase r) as [[|level rest]|waiting running rest|res] eqn:E; cbn in Hs;
    rewrite ?E in Hs; crush_branches; reflect_bools; try (by left); try (by edestruct Hnf).
  all: destruct Hph as (past & cur & _ & _ & _ & _ & _ & Hw & _).
  - pose proof (status_emit id Running None r y) as He. unfold status_of in *. cbn in *. rewrite He.
    case_decide; subst; [right; split; [by apply Hw|auto]|by left].
  - pose proof (proj1 (settles_fail id ContextDone (Some ContextDone) r) y) as He.
    unfold status_of in *. cbn in *. rewrite He.
    case_decide; subst; [right; split; [by apply Hw|auto]|by left].
Qed.

Lemma finish_status id o r r' : step (Finish id o) r = Some r' ->
  forall y, status_of r' y = if decide (y = id) then outcome_status o else status_of r y.
Proof.
  cbn. destruct (r_phase r); try done. case_bool_decide; [|done]. intros [= <-] y.
  apply (proj1 (settles_returned id o r) y).
Qed.

Lemma is_running_status r id : runner_inv levels r -> is_running r id = true -> status_of r id = Running.
Proof.
  intros [Hph _ _]. unfold is_running, phase_inv in *. destruct (r_phase r); try done.
  destruct Hph as (past & cur & _ & _ & _ & _ & _ & _ & Hr & _). intros ?%bool_decide_eq_true_1. auto.
Qed.

(** Stages never change their identity. *)
Lemma stage_by_id_Some id : id ∈ stage_ids p -> exists s, stage_by_id p id = Some s.
Proof.
  unfold stage_ids, stage_by_id. clear Hsort Hvalid.
  enough (forall l acc, is_Some acc \/ id ∈ st_ID <$> l ->
    is_Some (foldl (fun acc s => if st_ID s =s id then Some s else acc) acc l)) as H.
  { intros Hin. apply (H (p_Stages p) None). by right. }
  induction l as [|s l IH]; intros acc [Hacc|Hin]; cbn; try done.
  - by apply not_elem_of_nil in Hin.
  - apply IH. destruct (st_ID s =s id); [left; by eexists|by left].
  - apply elem_of_cons in Hin as [->|Hin]; apply IH; [|by right].
    rewrite String.eqb_refl. left. by eexists.
Qed.

(** A task's return, the slot being given. *)
Lemma finish_task_inv x id o sr x' :
  exec_inv x -> status_of (x_runner x) id = Running ->
  finish_task id o (<[id := sr]> (x_runs x)) (x_begun x) (x_runner x) = Some x' ->
  match outcome_status o with
  | Success => sr_Status sr = RunStatusSuccess
  | Skipped => sr_Status sr = RunStatusSkipped
  | _ => sr_Status sr = RunStatusFailed \/ sr_Status sr = RunStatusRunning
  end ->
  (sr_Status sr = RunStatusSkipped -> gate p (x_runs x) id = false) ->
  (sr_Status sr <> RunStatusSkipped -> fl_edges fl = true -> gate p (x_runs x) id = true) ->
  exec_inv x'.
Proof using Hvalid Hsort.
  intros Hinv Hrun Hf Hst Hg1 Hg2. unfold finish_task in Hf.
  destruct (step (Finish id o) (x_runner x)) as [r'|] eqn:Hs; [|done]. injection Hf as <-.
  pose proof (finish_status id o _ _ Hs) as Hr'.
  apply (exec_inv_update x id sr r' (delete id (x_begun x))); try done.
  - eapply rstep_inv; [by eapply sorted_NoDup|apply Hinv|by exists (Finish id o)].
  - intros y Hy. by rewrite Hr', decide_False.
  - intros y Hy. by rewrite lookup_delete_ne.
  - intros y Hy. rewrite Hr'. case_decide; subst; [by rewrite lookup_delete_eq in Hy; destruct Hy|].
    rewrite lookup_delete_ne in Hy by done. by apply Hinv.
  - unfold slot_ok. cbn. rewrite Hr', decide_True, statusOf_insert, decide_True by done.
    destruct o; cbn in *; tauto.
  - by right.
Qed.

Lemma begun_slot x id : exec_inv x -> is_Some (x_begun x !! id) ->
  status_of (x_runner x) id = Running /\ statusOf (x_runs x) id = RunStatusRunning /\
  (fl_edges fl = true -> gate p (x_runs x) id = true).
Proof using Hsort.
  intros Hinv Hb. pose proof (xi_begun x Hinv id Hb) as Hr.
  destruct (xi_slots x Hinv id) as (_ & Hs & Hv); [apply (exec_stage x id Hinv); by rewrite Hr|].
  unfold slot_ok in Hs. rewrite Hr in Hs. destruct Hs as [[_ Hn]|[Hs _]]; [by rewrite Hn in Hb; destruct Hb|].
  split_and!; [done|done|]. apply Hv; by rewrite Hs.
Qed.

Lemma waiting_slot x id : exec_inv x -> status_of (x_runner x) id = Running -> x_begun x !! id = None ->
  id ∈ stage_ids p /\ exists sr, x_runs x !! id = Some sr /\ sr_Status sr = RunStatusPending.
Proof using Hsort.
  intros Hinv Hr Hb. assert (id ∈ stage_ids p) as Hid by (apply (exec_stage x id Hinv); by rewrite Hr).
  split; [done|]. destruct (xi_slots x Hinv id Hid) as ([sr Hsr] & Hs & _). exists sr. split; [done|].
  unfold slot_ok in Hs. rewrite Hr in Hs. destruct Hs as [[Hs _]|[_ [? Hb']]]; [|congruence].
  unfold statusOf in Hs. by rewrite Hsr in Hs.
Qed.

Lemma xbegin_inv x now id x' : exec_inv x -> xstep fl p (XBegin now id) x = Some x' -> exec_inv x'.
Proof using Hvalid Hsort LFL.
  destruct stage_after_table as (Hstart & Hskip & _ & _). intros Hinv. cbn.
  destruct (is_running (x_runner x) id) eqn:Hr; cbn; [|done]. case_bool_decide as Hb; [done|].
  apply is_running_status in Hr; [|apply Hinv]. apply eq_None_not_Some in Hb.
  destruct (waiting_slot x id Hinv Hr Hb) as (Hid & sr & Hsr & Hst).
  destruct (stage_by_id_Some id Hid) as [s Hs]. unfold task_begin. rewrite Hs, Hsr.
  destruct (fl_edges fl && negb (gate p (x_runs x) id)) eqn:Hg.
  - apply andb_true_iff in Hg as [He Hg%negb_true_iff]. intros Hf.
    eapply finish_task_inv; [exact Hinv|exact Hr|exact Hf|..]; cbn; rewrite Hst, Hskip; done.
  - intros [= <-]. apply (exec_inv_update x id _ (x_runner x) (<[id := _]> (x_begun x))); try done.
    + apply Hinv.
    + intros y Hy. by rewrite lookup_insert_ne.
    + intros y Hy. destruct (decide (y = id)) as [->|Hne]; [done|].
      rewrite lookup_insert_ne in Hy by done. by apply Hinv.
    + unfold slot_ok. cbn. rewrite Hr, statusOf_insert, decide_True, lookup_insert_eq by done. cbn.
      rewrite Hst, Hstart. right. split; [done|by eexists].
    + right. cbn. rewrite Hst, Hstart. split; [done|]. intros _ He. rewrite He in Hg. cbn in Hg.
      by apply negb_false_iff in Hg.
Qed.

Lemma xend_inv x id o sr sr' x' :
  exec_inv x -> is_Some (x_begun x !! id) -> x_runs x !! id = Some sr ->
  (sr_Status sr = RunStatusRunning -> match outcome_status o with
   | Success => sr_Status sr' = RunStatusSuccess
   | Skipped => False
   | _ => sr_Status sr' = RunStatusFailed \/ sr_Status sr' = RunStatusRunning
   end) ->
  finish_task id o (<[id := sr']> (x_runs x)) (x_begun x) (x_runner x) = Some x' -> exec_inv x'.
Proof using Hvalid Hsort.
  intros Hinv Hb Hsr Hst Hf. destruct (begun_slot x id Hinv Hb) as (Hr & Hs & Hg).
  unfold statusOf in Hs. rewrite Hsr in Hs. specialize (Hst Hs).
  eapply (finish_task_inv x id o); [exact Hinv|exact Hr|exact Hf|..]; try done.
  - by destruct (outcome_status o).
  - intros Heq. rewrite Heq in Hst. by destruct (outcome_status o); naive_solver.
Qed.

Lemma xrunner_step a x x' : xstep fl p (XRunner a) x = Some x' ->
  exists r', step a (x_runner x) = Some r' /\ (forall id o, a <> Finish id o) /\
    x' = mkExec r' (x_runs x) (x_begun x).
Proof using.
  cbn [xstep]. destruct a; try done; destruct (step _ _) as [r'|]; try done; intros [= <-]; by exists r'.
Qed.

Lemma xstep_inv x x' : exec_inv x -> xrel fl p x x' -> exec_inv x'.
Proof using Hvalid Hsort LFL.
  intros Hinv [a Ha]. destruct stage_after_table as (_ & _ & Hfail & Hsucc).
  destruct a as [a|now id|now id eff err|id eff v].
  - destruct (xrunner_step a x x' Ha) as (r' & Hs & Hnf & ->).
    clear Ha. pose proof (fun y => runner_action_status a _ r' y (xi_runner x Hinv) Hs Hnf) as Hst.
    split; cbn.
    + eapply rstep_inv; [by eapply sorted_NoDup|apply Hinv|by exists a].
    + intros id Hid. destruct (xi_slots x Hinv id Hid) as (? & Hsl & Hv). split_and!; [done| |done].
      unfold slot_ok in *. cbn. destruct (Hst id) as [->|(Hp & Hq)]; [exact Hsl|].
      rewrite Hp in Hsl. destruct Hq as [-> | ->]; [by left|]. right; right. apply Hsl.
    + intros id Hb. pose proof (xi_begun x Hinv id Hb) as Hr. destruct (Hst id) as [->|[? _]]; congruence.
  - by eapply xbegin_inv.
  - cbn in Ha. destruct (x_begun x !! id) as [[s|e]|] eqn:Hb; [| |done];
      destruct (x_runs x !! id) as [sr|] eqn:Hsr; [|done| |done].
    + eapply xend_inv; [done|by eexists|done| |exact Ha]. intros Hst. unfold task_end.
      destruct err; cbn; rewrite Hst; [left; apply Hfail|apply Hsucc].
    + eapply xend_inv; [done|by eexists|done| |exact Ha]. intros Hst. unfold task_end. cbn.
      rewrite Hst. left. apply Hfail.
  - cbn in Ha. destruct (x_begun x !! id) as [[s|e]|] eqn:Hb; [| |done];
      destruct (x_runs x !! id) as [sr|] eqn:Hsr; [|done|done|done].
    eapply xend_inv; [done|by eexists|done| |exact Ha]. intros Hst. cbn. by right.
Qed.

(** A settled stage's slot is final. *)
Lemma settled_slot x x' id : exec_inv x -> xrel fl p x x' -> id ∈ stage_ids p ->
  terminal (status_of (x_runner x) id) = true ->
  status_of (x_runner x') id = status_of (x_runner x) id /\ x_runs x' !! id = x_runs x !! id.
Proof using Hvalid Hsort LFL.
  intros Hinv [a Ha] Hid Ht.
  assert (forall r' b, step b (x_runner x) = Some r' -> status_of r' id = status_of (x_runner x) id) as Hkeep.
  { intros r' b Hs. eapply (step_terminal levels); [by eapply sorted_NoDup|apply Hinv|exact Hs|done]. }
  assert (forall y, status_of (x_runner x) y = Running -> y <> id) as Hne.
  { intros y Hy ->. by rewrite Hy in Ht. }
  assert (forall y o sr, status_of (x_runner x) y = Running ->
    finish_task y o (<[y := sr]> (x_runs x)) (x_begun x) (x_runner x) = Some x' ->
    status_of (x_runner x') id = status_of (x_runner x) id /\ x_runs x' !! id = x_runs x !! id) as Hfin.
  { intros y o sr Hy Hf. unfold finish_task in Hf.
    destruct (step (Finish y o) (x_runner x)) as [r'|] eqn:Hs; [|done]. injection Hf as <-. cbn.
    split; [by eapply Hkeep|]. rewrite lookup_insert_ne; [done|]. by apply Hne. }
  destruct a as [a|now y|now y eff err|y eff v].
  - destruct (xrunner_step a x x' Ha) as (r' & Hs & _ & ->). split; [|done]. by eapply Hkeep.
  - cbn in Ha. destruct (is_running (x_runner x) y) eqn:Hr; [|done].
    apply is_running_status in Hr; [|apply Hinv]. cbn in Ha. case_bool_decide as Hb; [done|].
    apply eq_None_not_Some in Hb. destruct (waiting_slot x y Hinv Hr Hb) as (Hy & sr & Hsr & _).
    destruct (stage_by_id_Some y Hy) as [s Hs]. unfold task_begin in Ha. rewrite Hs, Hsr in Ha.
    destruct (fl_edges fl && _); [by eapply Hfin|]. injection Ha as <-. cbn.
    split; [done|]. rewrite lookup_insert_ne; [done|]. by apply Hne.
  - cbn in Ha. destruct (x_begun x !! y) as [[s|e]|] eqn:Hb; [| |done];
      destruct (x_runs x !! y) as [sr|] eqn:Hsr; try done;
      (eapply Hfin; [|exact Ha]); apply (xi_begun x Hinv); by eexists.
  - cbn in Ha. destruct (x_begun x !! y) as [[s|e]|] eqn:Hb; [| |done];
      destruct (x_runs x !! y) as [sr|] eqn:Hsr; try done;
      (eapply Hfin; [|exact Ha]); apply (xi_begun x Hinv); by eexists.
Qed.

(** Execution starts with a pending slot per stage. *)
Definition allocated (m : gmap string StageRun) : Prop :=
  forall id, id ∈ stage_ids p -> statusOf m id = RunStatusPending.

Lemma start_exec_inv m : allocated m -> exec_inv (mkExec (start dag (new_runner fl dag)) m ∅).
Proof using Hsort.
  intros Hm. assert (runner_inv levels (start dag (new_runner fl dag))) as Hri.
  { apply (start_inv dag levels Hsort). unfold new_runner. by destruct (fl_edges fl). }
  split; cbn; [done| |by intros id [? ?%lookup_empty_Some]].
  intros id Hid. specialize (Hm id Hid). split_and!.
  - unfold statusOf in Hm. by destruct (m !! id); [eexists|].
  - assert (status_of (start dag (new_runner fl dag)) id = Pending) as Hp.
    { unfold start. rewrite Hsort. unfold status_of, new_runner. destruct (fl_edges fl); cbn;
        rewrite lookup_fmap; by destruct (Nodes dag !! id). }
    unfold slot_ok. cbn. by rewrite Hp.
  - split; cbn; rewrite Hm; done.
Qed.
End invariant.

(** ** Properties *)

Section properties.
Context `{RO : RangeOrder} {LF : LoopFSM} {LFL : LoopFSMLaws}.

(** Whatever the status they start from, the finalising events end where the
    fallback says. *)
Lemma run_after_final cur :
  run_after cur EventCancel RunStatusCancelled = RunStatusCancelled /\
  run_after cur EventFail RunStatusFailed = RunStatusFailed /\
  run_after cur EventSucceed RunStatusSuccess = RunStatusSuccess.
Proof.
  unfold run_after. rewrite !(proj1 (TransitionRun_spec cur _)).
  split_and!; destruct (run_edge cur _) as [dst|] eqn:E; try done; apply run_edge_table in E;
    repeat (apply elem_of_cons in E as [E|E]; [by simplify_eq|]); by apply not_elem_of_nil in E.
Qed.

Lemma stage_run_map_allocated p run : run_StageRuns run = new_StageRun <$> p_Stages p ->
  allocated p (stage_run_map run).
Proof.
  intros Heq id Hid. unfold stage_run_map. rewrite Heq. unfold stage_ids in Hid.
  enough (forall l (m : gmap string StageRun), (forall k sr, m !! k = Some sr -> sr_Status sr = RunStatusPending) ->
    is_Some (m !! id) \/ id ∈ st_ID <$> l ->
    statusOf (foldl (fun m sr => <[sr_StageID sr := sr]> m) m (new_StageRun <$> l)) id = RunStatusPending) as H.
  { apply H; [by intros ? ? ?%lookup_empty_Some|by right]. }
  clear. induction l as [|s l IH]; intros m Hm Hin; cbn.
  - unfold statusOf. destruct Hin as [[sr Hsr]|Hn]; [|by apply not_elem_of_nil in Hn]. rewrite Hsr. by eapply Hm.
  - apply IH.
    + intros k sr. rewrite lookup_insert_Some. intros [[_ <-]|[_ Hk]]; [done|by eapply Hm].
    + destruct (decide (id = st_ID s)) as [->|Hne]; [left; rewrite lookup_insert_eq; by eexists|].
      rewrite lookup_insert_ne by done. destruct Hin as [?|[?|?]%elem_of_cons]; [by left|done|by right].
Qed.

(** An execution that has started, from a run as [RunPipeline] creates it. *)
Lemma started_inv fl p run now sc run' x0 x :
  run_StageRuns run = new_StageRun <$> p_Stages p ->
  begin_execute fl p run now = Started sc run' x0 -> reachable (eq x0) (xrel fl p) x ->
  valid_pipeline p /\ exists levels, TopologicalSort (pipeline_dag p) = Ok levels /\
    exec_inv fl p levels x /\
    reachable (eq (start (pipeline_dag p) (new_runner fl (pipeline_dag p)))) rstep (x_runner x).
Proof.
  intros Hslots Hb Hreach. unfold begin_execute in Hb. destruct (existsb _ _); [done|].
  unfold BuildDAGFromPipeline in Hb. destruct (ValidatePipelineDAG p) as [|i l] eqn:Hv; [|done].
  injection Hb as _ _ Hx0. apply ValidatePipelineDAG_valid in Hv. split; [done|].
  assert (exists levels, TopologicalSort (pipeline_dag p) = Ok levels) as [levels Hsort]
    by (apply Validate_nil, Validate_pipeline; apply Hv).
  exists levels. split; [done|]. revert x Hreach.
  apply (reachable_invariant _ _ (fun x => exec_inv fl p levels x /\ reachable _ rstep (x_runner x))).
  - intros x <-. rewrite <- Hx0. split; [|by apply reach_init].
    apply start_exec_inv; [done|]. unfold stage_run_map. cbn. by apply stage_run_map_allocated.
  - intros x x' [Hi Hr] Hstep. split; [by eapply xstep_inv|]. destruct Hstep as [a Ha].
    destruct (xstep_runner fl p a x x' Ha) as [->|Hrs]; [done|]. by eapply reach_step.
Qed.

(** C1. Edge conditions hold at every point of every interleaving: a stage is
    skipped only when its incoming edges, evaluated on its upstreams' statuses,
    refuse it, and runs, succeeds or fails only when they admit it; and what they
    were evaluated on cannot change any more, because a stage leaves "pending"
    only once its upstreams are settled and a settled stage's slot is never
    written again. *)
Theorem Execute_respects_edges fl p run now sc run' x0 x :
  run_StageRuns run = new_StageRun <$> p_Stages p ->
  begin_execute fl p run now = Started sc run' x0 -> reachable (eq x0) (xrel fl p) x ->
  (forall id, id ∈ stage_ids p ->
     (statusOf (x_runs x) id = RunStatusSkipped -> gate p (x_runs x) id = false) /\
     (statusOf (x_runs x) id <> RunStatusSkipped -> statusOf (x_runs x) id <> RunStatusPending ->
        fl_edges fl = true -> gate p (x_runs x) id = true)) /\
  (forall src id x', feeds p src id -> statusOf (x_runs x) id <> RunStatusPending -> xrel fl p x x' ->
     x_runs x' !! src = x_runs x !! src).
Proof.
  intros Hslots Hb Hreach.
  destruct (started_inv fl p run now sc run' x0 x Hslots Hb Hreach) as (Hvalid & levels & Hsort & Hinv & _).
  split.
  - intros id Hid. by destruct (xi_slots fl p levels x Hinv id Hid) as (_ & _ & Hv).
  - intros src id x' Hf Hst Hstep. destruct (vp_edges p Hvalid src id Hf) as [Hsrc Hid].
    destruct (xi_slots fl p levels x Hinv id Hid) as (_ & Hs & _).
    assert (status_of (x_runner x) id <> Pending) as Hnp by (intros Hp; unfold slot_ok in Hs; rewrite Hp in Hs; tauto).
    pose proof (past_gate fl p levels Hvalid Hsort x src id Hinv Hf Hnp) as Ht.
    by apply (settled_slot fl p levels Hvalid Hsort x x' src Hinv Hstep Hsrc Ht).
Qed.

(** C2. What [Execute] reports: the result carries the run's own status, which is
    success, failed or cancelled and nothing else; a run cancelled before or
    during the execution stays cancelled and keeps its error; otherwise a
    cancelled context gives cancelled, another runner error failed, and no error
    success, in which case every stage succeeded or was skipped. *)
Theorem Execute_result fl p run now sc run' x0 x res cc wc run1 now' :
  run_StageRuns run = new_StageRun <$> p_Stages p ->
  begin_execute fl p run now = Started sc run' x0 -> reachable (eq x0) (xrel fl p) x ->
  r_phase (x_runner x) = Done res ->
  let '(r, run2) := end_execute sc cc wc run1 x res now' in
  rr_Status r = run_Status run2 /\ run_FinishedAt run2 = Some (rr_FinishedAt r) /\
  rr_Status r =
    (if sc || (run_Status run1 =s RunStatusCancelled) then RunStatusCancelled
     else match runner_err cc wc <$> res with
          | Some e => if re_canceled e then RunStatusCancelled else RunStatusFailed
          | None => RunStatusSuccess
          end) /\
  (sc || (run_Status run1 =s RunStatusCancelled) = true -> run_Error run2 = run_Error run1) /\
  (rr_Status r = RunStatusSuccess -> forall id, id ∈ stage_ids p ->
     statusOf (x_runs x) id = RunStatusSuccess \/ statusOf (x_runs x) id = RunStatusSkipped).
Proof.
  intros Hslots Hb Hreach Hd.
  destruct (started_inv fl p run now sc run' x0 x Hslots Hb Hreach) as (Hvalid & levels & Hsort & Hinv & Hrr).
  assert (res = None -> forall id, id ∈ stage_ids p ->
    statusOf (x_runs x) id = RunStatusSuccess \/ statusOf (x_runs x) id = RunStatusSkipped) as Hok.
  { intros Hres id Hid. destruct (xi_slots fl p levels x Hinv id Hid) as (_ & Hs & _).
    destruct (done_none_settled (pipeline_dag p) levels Hsort (x_runner x) id (xi_runner _ _ _ _ Hinv)) as [Hst|Hst];
      [by rewrite Hd, Hres| |unfold slot_ok in Hs; rewrite Hst in Hs; by left|unfold slot_ok in Hs; rewrite Hst in Hs; by right].
    rewrite dag_of_lookup. fold (stage_ids p). rewrite bool_decide_eq_true_2 by done. by eexists. }
  unfold end_execute, finalize. destruct (run_after_final (run_Status run1)) as (Hc & Hf & Hs).
  cbn. destruct (sc || (run_Status run1 =s RunStatusCancelled)) eqn:Hcan; cbn.
  - rewrite Hc. by split_and!.
  - destruct res as [err|]; cbn.
    + destruct (re_canceled (runner_err cc wc err)); unfold keep_error; cbn; rewrite ?Hc, ?Hf;
        destruct (run_Error run1 =s ""); by split_and!.
    + rewrite Hs. split_and!; auto; done.
Qed.
End properties.

(** ** A concrete execution *)

Section demo.
Local Existing Instance range_default.

Definition demo_flags : flags := mkFlags true true 4.
Definition demo_run : PipelineRun := RunPipeline_run demo_pipeline "r" "" "" [] "".
Definition demo_exec : exec :=
  match begin_execute demo_flags demo_pipeline demo_run 0 with
  | Started _ _ x => x
  | Refused _ _ _ => mkExec (NewRunner NewDAG) ∅ ∅
  end.

Definition one_stage (id : string) (fin : list xaction) : list xaction :=
  [XRunner StartLevel; XRunner (Admit id); XBegin 1 id] ++ fin ++ [XRunner Barrier].

Definition built : adapter_effect := mkEffect "" [] {["digest" := "sha256:0"]}.
Definition nothing : adapter_effect := mkEffect "" [] ∅.

(** [push] fails after [build], so the failure edge lets [alert] run. *)
Definition demo_actions : list xaction :=
  one_stage "build" [XEnd 2 "build" built None] ++ one_stage "push" [XEnd 3 "push" nothing (Some "denied")] ++
  one_stage "alert" [XEnd 4 "alert" nothing None] ++ [XRunner StartLevel].

Definition final (acts : list xaction) : exec :=
  default demo_exec (xsteps demo_flags demo_pipeline acts demo_exec).

Lemma xsteps_reachable fl p acts : forall x0 x x', reachable (eq x0) (xrel fl p) x ->
  xsteps fl p acts x = Some x' -> reachable (eq x0) (xrel fl p) x'.
Proof.
  induction acts as [|a acts IH]; cbn [xsteps]; intros x0 x x' Hr Hs; [by simplify_eq|].
  destruct (xstep fl p a x) as [x1|] eqn:E; [|done]. eapply IH; [|exact Hs].
  eapply reach_step; [exact Hr|by exists a].
Qed.

Lemma final_reachable acts : reachable (eq demo_exec) (xrel demo_flags demo_pipeline) (final acts).
Proof.
  unfold final. destruct (xsteps _ _ acts demo_exec) as [x|] eqn:E; cbn; [|by apply reach_init].
  eapply xsteps_reachable; [by apply reach_init|exact E].
Qed.

Example demo_outcome :
  let x := final demo_actions in
  (r_phase (x_runner x), statusOf (x_runs x) "build", statusOf (x_runs x) "push", statusOf (x_runs x) "alert")
  = (Done (Some (NodeFailed "push" "denied")), RunStatusSuccess, RunStatusFailed, RunStatusSuccess).
Proof. vm_compute. reflexivity. Qed.

(** A panicking adapter is recovered by the runner, past the code that would
    have settled the slot: the run ends as failed with a stage still
    "running" and unfinished, and with the stages behind it skipped. *)
Example panicking_stage_stays_running :
  let x := final (one_stage "build" [XPanic "build" nothing "nil map"] ++
                  [XRunner StartLevel; XRunner (Admit "push"); XBegin 3 "push"; XRunner Barrier;
                   XRunner StartLevel; XRunner (Admit "alert"); XBegin 4 "alert"; XRunner Barrier; XRunner StartLevel]) in
  r_phase (x_runner x) = Done (Some (NodePanic "build" "nil map")) /\
  (sr_Status <$> x_runs x !! "build", x_runs x !! "build" ≫= sr_FinishedAt) = (Some RunStatusRunning, None) /\
  statusOf (x_runs x) "push" = RunStatusSkipped /\ statusOf (x_runs x) "alert" = RunStatusSkipped.
Proof. vm_compute. by split_and!. Qed.

Lemma demo_started : exists run', begin_execute demo_flags demo_pipeline demo_run 0 = Started false run' demo_exec.
Proof. eexists. vm_compute. reflexivity. Qed.

Lemma demo_alert : "alert" ∈ stage_ids demo_pipeline.
Proof. apply (bool_decide_unpack _). vm_compute. exact I. Qed.

Lemma Execute_respects_edges_witness :
  gate demo_pipeline (x_runs (final demo_actions)) "alert" = true.
Proof.
  destruct demo_started as [run' Hb].
  destruct (Execute_respects_edges demo_flags demo_pipeline demo_run 0 false run' demo_exec (final demo_actions)
    eq_refl Hb (final_reachable demo_actions)) as [H _].
  pose proof (proj2 (H "alert" demo_alert)) as Ha.
  assert (Hst : statusOf (x_runs (final demo_actions)) "alert" = RunStatusSuccess) by (vm_compute; reflexivity).
  apply Ha; [rewrite Hst; discriminate|rewrite Hst; discriminate|reflexivity].
Defined.

Lemma Execute_result_witness :
  rr_Status (end_execute false false (fun _ => false) demo_run (final demo_actions)
    (Some (NodeFailed "push" "denied")) 9).1 = RunStatusFailed.
Proof.
  destruct demo_started as [run' Hb].
  assert (Hd : r_phase (x_runner (final demo_actions)) = Done (Some (NodeFailed "push" "denied")))
    by (vm_compute; reflexivity).
  pose proof (Execute_result demo_flags demo_pipeline demo_run 0 false run' demo_exec (final demo_actions) _
    false (fun _ => false) demo_run 9 eq_refl Hb (final_reachable demo_actions) Hd) as H.
  destruct (end_execute _ _ _ _ _ _ _) as [r run2] eqn:E. destruct H as (_ & _ & H & _). cbn [fst].
  rewrite H. reflexivity.
Defined.
End demo.
