(* ===== verification/RunStore.v ===== *)
(** * The in-memory run store: [internal/store/memory/run.go]

    The store holds pointers, and [Get] hands out shallow copies, so who sees
    whose writes depends on aliasing.  Run objects and the arrays behind their
    [StageRuns] slices therefore live on an explicit heap; every holder of a
    pointer, the store included, reads and writes through it. *)

From S2P Require Import Prelude Model.
Local Open Scope Z_scope.

(** ** The heap *)

Definition addr : Type := positive.

(** A run object: its fields, [StageRuns] being the address of an array. *)
Record RunObj := mkObj { ob_run : PipelineRun; ob_slots : addr }.

(** The store's map of pointers, and the heap it shares with its callers. *)
Record Runs := mkRuns {
  rs_m : gmap string addr;
  rs_objs : gmap addr RunObj; rs_arrays : gmap addr (list StageRun); rs_next : addr
}.

Inductive store_error := ErrNotFound (id : string) | ErrConflict (id : string).

#[export] Instance store_error_eq_dec : EqDecision store_error.
Proof. solve_decision. Defined.

Definition NewRuns : Runs := mkRuns ∅ ∅ ∅ 1%positive.

(** The value behind a pointer. *)
Definition read (s : Runs) (a : addr) : option PipelineRun :=
  o ← rs_objs s !! a; l ← rs_arrays s !! ob_slots o; Some (run_set_StageRuns l (ob_run o)).

Definition alloc_obj (o : RunObj) (s : Runs) : addr * Runs :=
  (rs_next s, mkRuns (rs_m s) (<[rs_next s := o]> (rs_objs s)) (rs_arrays s) (Pos.succ (rs_next s))).

Definition alloc_array (l : list StageRun) (s : Runs) : addr * Runs :=
  (rs_next s, mkRuns (rs_m s) (rs_objs s) (<[rs_next s := l]> (rs_arrays s)) (Pos.succ (rs_next s))).

(** A caller builds a run, assigns to a field of one, and to [r.StageRuns[i]]. *)
Definition new_run (r : PipelineRun) (s : Runs) : addr * Runs :=
  let '(arr, s) := alloc_array (run_StageRuns r) s in alloc_obj (mkObj r arr) s.

Definition set_objs v (s : Runs) : Runs := mkRuns (rs_m s) v (rs_arrays s) (rs_next s).
Definition set_m v (s : Runs) : Runs := mkRuns v (rs_objs s) (rs_arrays s) (rs_next s).
Definition set_arrays v (s : Runs) : Runs := mkRuns (rs_m s) (rs_objs s) v (rs_next s).

Definition assign (a : addr) (f : PipelineRun -> PipelineRun) (s : Runs) : Runs :=
  set_objs (alter (fun o => mkObj (f (ob_run o)) (ob_slots o)) a (rs_objs s)) s.

Definition assign_slots (a : addr) (f : list StageRun -> list StageRun) (s : Runs) : Runs :=
  match rs_objs s !! a with
  | Some o => set_arrays (alter f (ob_slots o) (rs_arrays s)) s
  | None => s
  end.

(** [r.StageRuns = arr] *)
Definition repoint (a arr : addr) (s : Runs) : Runs :=
  set_objs (alter (fun o => mkObj (ob_run o) arr) a (rs_objs s)) s.

(** ** Operations *)

Definition strip_logs (l : list StageRun) : list StageRun := sr_set_Logs "" <$> l.

Definition Create (s : Runs) (now : Z) (a : addr) : Runs :=
  match rs_objs s !! a with
  | None => s
  | Some o =>
      let s := if is_zero_time (run_CreatedAt (ob_run o)) then assign a (run_set_CreatedAt now) s else s in
      set_m (<[run_ID (ob_run o) := a]> (rs_m s)) s
  end.

Definition Get (s : Runs) (id : string) : result store_error addr * Runs :=
  match rs_m s !! id with
  | None => (Err (ErrNotFound id), s)
  | Some a =>
      match rs_objs s !! a with
      | None => (Err (ErrNotFound id), s)            (* the map holds no dangling pointer *)
      | Some o => let '(a', s) := alloc_obj o s in (Ok a', s)
      end
  end.

Definition GetSummary (s : Runs) (id : string) : result store_error addr * Runs :=
  match Get s id with
  | (Err e, s) => (Err e, s)
  | (Ok a, s) =>
      let slots := match read s a with Some r => run_StageRuns r | None => [] end in
      let '(arr, s) := alloc_array (strip_logs slots) s in
      (Ok a, repoint a arr s)
  end.

(** The operations that write through the stored pointer. *)
Definition on_stored (s : Runs) (id : string) (f : addr -> Runs -> Runs) : option store_error * Runs :=
  match rs_m s !! id with
  | None => (Some (ErrNotFound id), s)
  | Some a => (None, f a s)
  end.

Definition UpdateProgress (s : Runs) (id : string) (stageRuns : list StageRun) : option store_error * Runs :=
  on_stored s id (fun a s => let '(arr, s) := alloc_array (strip_logs stageRuns) s in repoint a arr s).

Definition Update (s : Runs) (a : addr) : option store_error * Runs :=
  match rs_objs s !! a with
  | None => (None, s)
  | Some o => on_stored s (run_ID (ob_run o)) (fun _ s => set_m (<[run_ID (ob_run o) := a]> (rs_m s)) s)
  end.

Definition UpdateStatus (s : Runs) (id : string) (status : string) (finishedAt : option Z) (errMsg : string)
    : option store_error * Runs :=
  on_stored s id (fun a s =>
    assign a (fun r => r |> run_set_Status status |> run_set_FinishedAt finishedAt |> run_set_Error errMsg) s).

Definition UpdateHeartbeat (s : Runs) (id : string) (ts : Z) : option store_error * Runs :=
  on_stored s id (fun a s => assign a (run_set_HeartbeatAt (Some ts)) s).

Definition orphan_msg : string := "orphaned: heartbeat stale at boot".

Definition orphaned (now threshold : Z) (r : PipelineRun) : bool :=
  (run_Status r =s RunStatusRunning) &&
  match run_HeartbeatAt r with None => true | Some hb => threshold <? now - hb end.

Definition sweep (now : Z) (r : PipelineRun) : PipelineRun :=
  r |> run_set_Status RunStatusFailed |> run_set_Error orphan_msg |> run_set_FinishedAt (Some now).

(** [paginate] over a sorted slice. *)
Definition paginate {A} (l : list A) (limit offset : Z) : list A :=
  let l := if 0 <? offset then drop (Z.to_nat offset) l else l in
  if (0 <? limit) && (limit <? Z.of_nat (length l)) then take (Z.to_nat limit) l else l.

Section runs.
Context `{RO : RangeOrder}.

Definition SweepOrphans (s : Runs) (now threshold : Z) : Z * Runs :=
  foldl (fun '(n, s) '(_, a) =>
    match read s a with
    | Some r => if orphaned now threshold r then (n + 1, assign a (sweep now) s) else (n, s)
    | None => (n, s)
    end) (0, s) (range_map (rs_m s)).

(** The rows are copies whose slots are copies too: they are returned as values. *)
Definition List (s : Runs) (pipelineID : string) (limit offset : Z) : list PipelineRun :=
  let matched := filter (fun r => run_PipelineID r = pipelineID)
    (omap (fun '(_, a) => read s a) (range_map (rs_m s))) in
  let sorted := sort_slice (fun r1 r2 => run_CreatedAt r2 <? run_CreatedAt r1) matched in
  (fun r => run_set_StageRuns (strip_logs (run_StageRuns r)) r) <$> paginate sorted limit offset.
End runs.

(** ** Facts *)

(** No dangling pointer: the store's pointers reach objects under their own ID,
    objects reach arrays, and what is allocated next is new. *)
Record heap_wf (s : Runs) : Prop := {
  hw_stored id a : rs_m s !! id = Some a -> exists o, rs_objs s !! a = Some o /\ run_ID (ob_run o) = id;
  hw_slots a o : rs_objs s !! a = Some o -> is_Some (rs_arrays s !! ob_slots o);
  hw_objs a : is_Some (rs_objs s !! a) -> (a < rs_next s)%positive;
  hw_arrays a : is_Some (rs_arrays s !! a) -> (a < rs_next s)%positive
}.

(** A pointer the store does not hold, with its value. *)
Record private (a : addr) (o : RunObj) (l : list StageRun) (s : Runs) : Prop := {
  pr_obj : rs_objs s !! a = Some o;
  pr_slots : rs_arrays s !! ob_slots o = Some l;
  pr_stored id : rs_m s !! id <> Some a;
  pr_next : (a < rs_next s)%positive /\ (ob_slots o < rs_next s)%positive
}.

Lemma private_read a o l s : private a o l s -> read s a = Some (run_set_StageRuns l (ob_run o)).
Proof. intros [Ho Hl _ _]. unfold read. rewrite Ho. cbn. by rewrite Hl. Qed.

Lemma private_assign a o l s b f : private a o l s -> a <> b -> private a o l (assign b f s).
Proof.
  intros [Ho Hl Hs Hn] Hne. split; cbn; try done. by rewrite lookup_alter_ne.
Qed.

Lemma private_alloc_array a o l s l' : private a o l s -> private a o l (alloc_array l' s).2.
Proof.
  intros [Ho Hl Hs [H1 H2]]. split; cbn; [done| |done|lia]. rewrite lookup_insert_ne; [done|lia].
Qed.

Lemma private_alloc_obj a o l s o' : private a o l s -> private a o l (alloc_obj o' s).2.
Proof.
  intros [Ho Hl Hs [H1 H2]]. split; cbn; [|done|done|lia]. rewrite lookup_insert_ne; [done|lia].
Qed.

Lemma private_repoint a o l s b arr : private a o l s -> a <> b -> private a o l (repoint b arr s).
Proof. intros [Ho Hl Hs Hn] Hne. split; cbn; try done. by rewrite lookup_alter_ne. Qed.

Lemma private_set_m a o l s m : private a o l s -> (forall id, m !! id <> Some a) -> private a o l (set_m m s).
Proof. intros [Ho Hl _ Hn] Hm. by split. Qed.

Lemma private_on_stored a o l s id f r s' : private a o l s ->
  (forall b, b <> a -> private a o l (f b s)) -> on_stored s id f = (r, s') -> private a o l s'.
Proof.
  intros Hp Hf. unfold on_stored. destruct (rs_m s !! id) as [b|] eqn:Hb; intros [= <- <-]; [|done].
  apply Hf. intros ->. by apply (pr_stored _ _ _ _ Hp id).
Qed.

(** What other holders of the store do, without the pointer [a]. *)
Inductive other_op `{RangeOrder} (a : addr) : Runs -> Runs -> Prop :=
| op_new r s : other_op a s (new_run r s).2
| op_create s now b : b <> a -> other_op a s (Create s now b)
| op_get s id : other_op a s (Get s id).2
| op_summary s id : other_op a s (GetSummary s id).2
| op_update s b : b <> a -> other_op a s (Update s b).2
| op_progress s id slots : other_op a s (UpdateProgress s id slots).2
| op_status s id st fin err : other_op a s (UpdateStatus s id st fin err).2
| op_heartbeat s id ts : other_op a s (UpdateHeartbeat s id ts).2
| op_sweep s now threshold : other_op a s (SweepOrphans s now threshold).2
| op_assign s b f : b <> a -> other_op a s (assign b f s).

Lemma private_get a o l s id : private a o l s -> private a o l (Get s id).2.
Proof.
  intros Hp. unfold Get. destruct (rs_m s !! id) as [b|]; [|done]. destruct (rs_objs s !! b); [|done].
  by apply private_alloc_obj.
Qed.

Lemma other_op_private `{RangeOrder} a o l s s' : private a o l s -> other_op a s s' -> private a o l s'.
Proof.
  intros Hp Hop. destruct Hop.
  - unfold new_run. destruct (alloc_array _ s) as [arr s1] eqn:E.
    apply private_alloc_obj. pose proof (private_alloc_array a o l s (run_StageRuns r) Hp) as H'. by rewrite E in H'.
  - unfold Create. destruct (rs_objs s !! b) as [o'|]; [|done].
    set (s1 := if is_zero_time _ then _ else _).
    assert (private a o l s1) as Hp1 by (unfold s1; destruct (is_zero_time _); [apply private_assign|]; done).
    apply private_set_m; [done|]. intros id. cbn. destruct (decide (id = run_ID (ob_run o'))) as [->|].
    + rewrite lookup_insert_eq. congruence.
    + rewrite lookup_insert_ne by done. apply Hp1.
  - by apply private_get.
  - unfold GetSummary. pose proof (private_get a o l s id Hp) as Hg. destruct (Get s id) as [[b|e] s1] eqn:E; [|done].
    cbn in *. apply private_repoint; [by apply (private_alloc_array a o l s1)|].
    intros <-. unfold Get in E. destruct (rs_m s !! id); [|done]. destruct (rs_objs s !! a0); [|done].
    cbn in E. injection E as Heq _. destruct (pr_next _ _ _ _ Hp). subst. lia.
  - destruct (Update s b) as [r s1] eqn:E. unfold Update in E. cbn.
    destruct (rs_objs s !! b) as [o'|]; [|by simplify_eq].
    eapply private_on_stored; [exact Hp| |exact E]. intros b' _. apply private_set_m; [done|].
    intros id. destruct (decide (id = run_ID (ob_run o'))) as [->|].
    + rewrite lookup_insert_eq. congruence.
    + rewrite lookup_insert_ne by done. apply Hp.
  - destruct (UpdateProgress s id slots) as [r s1] eqn:E. eapply private_on_stored; [exact Hp| |exact E].
    intros b Hb. cbn. apply private_repoint; [by apply (private_alloc_array a o l s)|done].
  - destruct (UpdateStatus s id st fin err) as [r s1] eqn:E. eapply private_on_stored; [exact Hp| |exact E].
    intros b Hb. by apply private_assign.
  - destruct (UpdateHeartbeat s id ts) as [r s1] eqn:E. eapply private_on_stored; [exact Hp| |exact E].
    intros b Hb. by apply private_assign.
  - unfold SweepOrphans. set (z := (0, s)). assert (private a o l z.2 /\ rs_m z.2 = rs_m s) as Hz by done. clearbody z.
    assert (forall k b, (k, b) ∈ range_map (rs_m s) -> b <> a) as Hne.
    { intros k b Hin%elem_of_range ->. by apply (pr_stored _ _ _ _ Hp k). }
    revert z Hz Hne. induction (range_map (rs_m s)) as [|[k b] lst IH]; intros z [Hz Hm] Hne; [done|].
    cbn. apply IH; [|intros k' b' Hin; apply (Hne k'); by right].
    destruct z as [n s1]. cbn in *. destruct (read s1 b) as [r|]; [|done]. destruct (orphaned _ _ _); [|done].
    split; [|done]. apply private_assign; [done|]. intros ->. by apply (Hne k b); [left|].
  - by apply private_assign.
Qed.

Lemma read_assign_ne a b f s : a <> b -> read (assign b f s) a = read s a.
Proof. intros Hne. unfold read. cbn. by rewrite lookup_alter_ne. Qed.

Lemma read_assign a f s :
  (forall l r, f (run_set_StageRuns l r) = run_set_StageRuns l (f r)) -> read (assign a f s) a = f <$> read s a.
Proof.
  intros Hf. unfold read. cbn. rewrite lookup_alter_eq. destruct (rs_objs s !! a) as [o|]; [|done]. cbn.
  destruct (rs_arrays s !! ob_slots o) as [l|]; [|done]. cbn. by rewrite Hf.
Qed.

Lemma stored_read s id a : heap_wf s -> rs_m s !! id = Some a -> exists r, read s a = Some r /\ run_ID r = id.
Proof.
  intros Hwf Ha. destruct (hw_stored s Hwf id a Ha) as (o & Ho & Hid).
  destruct (hw_slots s Hwf a o Ho) as [l Hl]. unfold read. rewrite Ho. cbn. rewrite Hl. by eexists.
Qed.

Lemma stored_inj s id1 id2 a : heap_wf s -> rs_m s !! id1 = Some a -> rs_m s !! id2 = Some a -> id1 = id2.
Proof.
  intros Hwf H1 H2. destruct (stored_read s id1 a Hwf H1) as (r & Hr & <-).
  destruct (stored_read s id2 a Hwf H2) as (r' & Hr' & <-). congruence.
Qed.

Lemma NoDup_stored `{RangeOrder} s : heap_wf s -> NoDup (range_map (rs_m s)).*2.
Proof.
  intros Hwf. apply NoDup_fmap_2_strong; [|eapply NoDup_fmap_1, NoDup_range_fst].
  intros [k1 a1] [k2 a2] H1%elem_of_range H2%elem_of_range Heq. cbn in Heq. subst.
  by rewrite (stored_inj s k1 k2 a2 Hwf H1 H2).
Qed.

Lemma omap_agree {A B} (f g : A -> option B) (l : list A) : (forall x, x ∈ l -> f x = g x) -> omap f l = omap g l.
Proof.
  induction l as [|x l IH]; intros H; [done|]. cbn. rewrite H, IH by (by left || (intros; apply H; by right)). done.
Qed.

(** The loop of the sweep over the pointers still to visit. *)
Definition sweep_loop (now threshold : Z) (l : list (string * addr)) (z : Z * Runs) : Z * Runs :=
  foldl (fun '(n, s) '(_, a) =>
    match read s a with
    | Some r => if orphaned now threshold r then (n + 1, assign a (sweep now) s) else (n, s)
    | None => (n, s)
    end) z l.

Lemma sweep_loop_spec now threshold l : forall z, NoDup l.*2 ->
  let z' := sweep_loop now threshold l z in
  rs_m z'.2 = rs_m z.2 /\
  (forall a, read z'.2 a = if bool_decide (a ∈ l.*2)
     then (fun r => if orphaned now threshold r then sweep now r else r) <$> read z.2 a else read z.2 a) /\
  z'.1 = z.1 + Z.of_nat (length (filter (fun r => orphaned now threshold r = true) (omap (read z.2) l.*2))).
Proof.
  induction l as [|[k b] l IH]; intros [n s] Hnd.
  { cbn. split_and!; [done|done|lia]. }
  cbn in Hnd. apply NoDup_cons in Hnd as [Hb Hnd]. cbn [sweep_loop foldl].
  set (z1 := match read s b with Some r => _ | None => _ end).
  destruct (IH z1 Hnd) as (Hm & Hr & Hn). fold (sweep_loop now threshold l z1).
  assert (rs_m z1.2 = rs_m s) as Hm1 by (unfold z1; repeat case_match; done).
  assert (forall a, a <> b -> read z1.2 a = read s a) as Hne.
  { intros a Ha. unfold z1. repeat case_match; try done. by apply read_assign_ne. }
  assert (read z1.2 b = (fun r => if orphaned now threshold r then sweep now r else r) <$> read s b) as Heq.
  { unfold z1. destruct (read s b) as [r|] eqn:E; cbn; [|by rewrite E].
    destruct (orphaned now threshold r); cbn; [|by rewrite E].
    rewrite read_assign by done. by rewrite E. }
  split_and!.
  - by rewrite Hm.
  - intros a. rewrite Hr. cbn [fmap list_fmap snd]. destruct (decide (a = b)) as [->|Hab].
    + rewrite bool_decide_eq_false_2, bool_decide_eq_true_2 by (done || left). exact Heq.
    + rewrite Hne by done.
      destruct (decide (a ∈ l.*2)) as [Hin|Hin].
      * rewrite !bool_decide_eq_true_2 by (done || by right). done.
      * rewrite !bool_decide_eq_false_2 by (done || (rewrite elem_of_cons; tauto)). done.
  - rewrite Hn. cbn. assert (omap (read z1.2) l.*2 = omap (read s) l.*2) as ->.
    { apply omap_agree. intros a Ha. apply Hne. by intros ->. }
    unfold z1. destruct (read s b) as [r|]; [|cbn; lia].
    rewrite filter_cons. destruct (decide (orphaned now threshold r = true)) as [Ho|Ho%not_true_is_false];
      rewrite Ho; cbn; lia.
Qed.

(** ** Properties *)

Section properties.
Context `{RO : RangeOrder}.

(** Aliasing of [Get]: the run it returns is the stored one at that moment;
    nothing the store or another holder does afterwards, short of writing
    through this very pointer, changes what is read through it, and assigning
    its fields leaves the stored run alone; but its stage slots are the stored
    run's own, so a write to [StageRuns[i]] through the copy shows in the store. *)
Theorem Get_shares_only_slots s id a0 a s1 :
  heap_wf s -> rs_m s !! id = Some a0 -> Get s id = (Ok a, s1) ->
  read s1 a = read s a0 /\ read s1 a0 = read s a0 /\
  (forall s2, rtc (other_op a) s1 s2 -> read s2 a = read s1 a) /\
  (forall f, read (assign a f s1) a0 = read s1 a0) /\
  (forall g, read (assign_slots a g s1) a0 =
     (fun r => run_set_StageRuns (g (run_StageRuns r)) r) <$> read s1 a0).
Proof.
  intros Hwf Ha0 Hg. destruct (hw_stored s Hwf id a0 Ha0) as (o & Ho & _).
  destruct (hw_slots s Hwf a0 o Ho) as [l Hl].
  unfold Get in Hg. rewrite Ha0, Ho in Hg. injection Hg as <- <-.
  pose proof (hw_objs s Hwf a0 ltac:(by eexists)) as Hlt.
  assert (rs_next s <> a0) as Hne by lia.
  set (s1 := mkRuns _ _ _ _). assert (private (rs_next s) o l s1) as Hp.
  { split; cbn; [by rewrite lookup_insert_eq|done| |split; [lia|]].
    - intros id' Hid'. destruct (hw_stored s Hwf id' _ Hid') as (o' & Ho' & _).
      pose proof (hw_objs s Hwf (rs_next s) ltac:(by eexists)). lia.
    - pose proof (hw_arrays s Hwf (ob_slots o) ltac:(by eexists)). lia. }
  assert (rs_objs s1 !! a0 = Some o) as Ho1 by (cbn; by rewrite lookup_insert_ne).
  assert (read s a0 = Some (run_set_StageRuns l (ob_run o))) as Hr0 by (unfold read; rewrite Ho; cbn; by rewrite Hl).
  assert (read s1 a0 = read s a0) as Hr1 by (rewrite Hr0; unfold read; rewrite Ho1; cbn; by rewrite Hl).
  split_and!.
  - by rewrite (private_read _ o l).
  - done.
  - intros s2 Hops. rewrite (private_read _ o l s1 Hp). revert Hp. clear -Hops.
    induction Hops as [|s1 s2 s3 Hop _ IH]; intros Hp; [by apply private_read|].
    apply IH. by eapply other_op_private.
  - intros f. by apply read_assign_ne.
  - intros g. unfold assign_slots. cbn [rs_objs s1]. rewrite lookup_insert_eq. rewrite Hr1, Hr0.
    unfold read. cbn [rs_objs set_arrays rs_arrays]. rewrite Ho1. cbn. rewrite lookup_alter_eq, Hl. done.
Qed.

(** The boot sweep fails exactly the running runs without a heartbeat
    younger than the threshold, stamps them finished, reports their number and
    leaves every other run as it was. *)
Theorem SweepOrphans_exact s now threshold n s' :
  heap_wf s -> SweepOrphans s now threshold = (n, s') ->
  (forall id a r, rs_m s !! id = Some a -> read s a = Some r ->
     rs_m s' !! id = Some a /\
     read s' a = Some (if orphaned now threshold r then sweep now r else r)) /\
  n = Z.of_nat (length (filter (fun r => orphaned now threshold r = true)
        (omap (read s) (range_map (rs_m s)).*2))).
Proof.
  intros Hwf Hs. unfold SweepOrphans in Hs.
  destruct (sweep_loop_spec now threshold (range_map (rs_m s)) (0, s) (NoDup_stored s Hwf)) as (Hm & Hr & Hn).
  unfold sweep_loop in *. rewrite Hs in *. cbn in *. split; [|lia].
  intros id a r Ha Hra. rewrite Hm. split; [done|]. rewrite Hr, Hra, bool_decide_eq_true_2; [done|].
  apply elem_of_range_snd. by exists id.
Qed.
End properties.

(** ** A concrete store *)

Section demo.
Local Existing Instance range_default.

Definition demo_run (status : string) : PipelineRun :=
  mkPipelineRun "r" "p" status [mkStageRun "build" RunStatusPending None None "log" "" [] ∅] [] ∅ 0 None None "" None
    "" "" [] "" 1.

Definition demo_store (status : string) : Runs :=
  let '(a, s) := new_run (demo_run status) NewRuns in Create s 5 a.

Lemma demo_store_wf status : heap_wf (demo_store status).
Proof.
  assert (rs_m (demo_store status) = {["r" := 2%positive]}) as Hm by reflexivity.
  assert (rs_objs (demo_store status) = {[2%positive := mkObj (demo_run status) 1%positive]}) as Ho by reflexivity.
  assert (rs_arrays (demo_store status) = {[1%positive := run_StageRuns (demo_run status)]}) as Ha by reflexivity.
  assert (rs_next (demo_store status) = 3%positive) as Hn by reflexivity.
  split; rewrite ?Hm, ?Ho, ?Ha, ?Hn.
  - intros id a [<- <-]%lookup_singleton_Some. eexists. by rewrite lookup_singleton_eq.
  - intros a o [<- <-]%lookup_singleton_Some. eexists. cbn. by rewrite lookup_singleton_eq.
  - intros a [o [<- _]%lookup_singleton_Some]. lia.
  - intros a [o [<- _]%lookup_singleton_Some]. lia.
Qed.

Lemma Get_shares_only_slots_witness :
  let '(r, s1) := Get (demo_store RunStatusRunning) "r" in
  r = Ok 3%positive /\ read (assign_slots 3%positive (fun _ => []) s1) 2%positive = Some (run_set_StageRuns [] (demo_run RunStatusRunning)).
Proof.
  destruct (Get (demo_store RunStatusRunning) "r") as [r s1] eqn:E.
  assert (r = Ok 3%positive) as -> by (vm_compute in E; by injection E as <- <-).
  destruct (Get_shares_only_slots (demo_store RunStatusRunning) "r" 2%positive 3%positive s1 (demo_store_wf _) eq_refl E)
    as (_ & Hr & _ & _ & Hg).
  split; [reflexivity|]. rewrite (Hg (fun _ => [])), Hr. reflexivity.
Defined.

Lemma SweepOrphans_exact_witness :
  let '(n, s') := SweepOrphans (demo_store RunStatusRunning) 100 30 in
  n = 1 /\ run_Status <$> read s' 2%positive = Some RunStatusFailed.
Proof.
  destruct (SweepOrphans (demo_store RunStatusRunning) 100 30) as [n s'] eqn:E.
  destruct (SweepOrphans_exact (demo_store RunStatusRunning) 100 30 n s' (demo_store_wf _) E) as [Hr ->].
  split; [reflexivity|]. destruct (Hr "r" 2%positive (demo_run RunStatusRunning) eq_refl eq_refl) as [_ ->]. reflexivity.
Defined.
End demo.
