(* ===== verification/JobRunner.v ===== *)
(** * From a triggered run to its execution

    The two paths of [RunPipeline] (internal/handler/pipeline.go), inline and
    through the queue ([internal/service/enqueuer.go],
    [internal/service/jobqueue_runner.go]), the cancellation handler and the
    progress flushes, over the run store's heap.  [Execute] reads and writes the
    run through the pointer it was given; the slots its tasks write are those of
    the array behind [run.StageRuns] when it started. *)

From S2P Require Import Prelude JobQueue Dag Runner Model RunState Pipeline Outputs Executor RunStore.
From Stdlib Require Import Ascii.
Local Open Scope Z_scope.

(** ** Enqueueing *)

Definition JobKindPipelineRun : string := "pipeline-run".

Record runJobPayload := mkPayload { rp_PipelineID : string; rp_RunID : string }.

(** [encoding/json] on the payload: what is encoded decodes to itself. *)
Class PayloadCodec := {
  Marshal : runJobPayload -> string;
  Unmarshal : string -> option runJobPayload
}.

Class PayloadCodecLaws `{PayloadCodec} := {
  Unmarshal_Marshal p : Unmarshal (Marshal p) = Some p
}.

Record JobQueueEnqueuer := mkEnqueuer { je_MaxAttempts : Z }.

Definition NewJobQueueEnqueuer : JobQueueEnqueuer := mkEnqueuer 1.

Section enqueue.
Context {Q : Type} `{JobStore Q} `{PayloadCodec}.

Definition run_options (e : JobQueueEnqueuer) (pipelineID : string) : EnqueueOptions :=
  mkOptions zero_time (je_MaxAttempts e) ("pipeline:" +:+ pipelineID) "".

Definition EnqueueRun (e : JobQueueEnqueuer) (q : Q) (now : Z) (pipelineID runID : string) : option jq_error * Q :=
  match js_enqueue q now JobKindPipelineRun (Some (Marshal (mkPayload pipelineID runID))) (run_options e pipelineID) with
  | (Ok _, q) => (None, q)
  | (Err err, q) => (Some err, q)
  end.
End enqueue.

(** ** [Execute] on a stored run *)

(** The pointer [Execute] was given, and the array its tasks write to. *)
Record execution := mkExecution { ex_run : addr; ex_slots : addr; ex_startedCancelled : bool }.

(** Everything but the slots, which live in their array. *)
Definition assign_run (a : addr) (r : PipelineRun) (s : Runs) : Runs := assign a (fun _ => r) s.

Section execute.
Context `{RO : RangeOrder} {LF : LoopFSM}.

Inductive execute_start :=
| NotStarted (res : RunResult) (err : run_err)
| Executing (ex : execution) (x : exec).

Definition execute_begin (fl : flags) (p : Pipeline) (a : addr) (now : Z) (s : Runs) : option execute_start * Runs :=
  match rs_objs s !! a, read s a with
  | Some o, Some run =>
      match begin_execute fl p run now with
      | Refused res run' err => (Some (NotStarted res err), assign_run a run' s)
      | Started sc run' x => (Some (Executing (mkExecution a (ob_slots o) sc) x), assign_run a run' s)
      end
  | _, _ => (None, s)
  end.

(** What the tasks have written so far, in their array. *)
Definition publish (ex : execution) (x : exec) (s : Runs) : Runs :=
  set_arrays (alter (write_back_slots (x_runs x)) (ex_slots ex) (rs_arrays s)) s.

(** [persistProgress]: the run's slots as its pointer shows them. *)
Definition persistProgress (ex : execution) (s : Runs) : Runs :=
  match read s (ex_run ex) with
  | Some run => (UpdateProgress s (run_ID run) (run_StageRuns run)).2
  | None => s
  end.

(** The end of [Execute], then [Runs.Update] on the same pointer. *)
Definition finish_execution (ex : execution) (err : option run_err) (now : Z) (s : Runs) : option store_error * Runs :=
  Update (assign (ex_run ex) (fun r => (finalize r err (ex_startedCancelled ex) now).2) s) (ex_run ex).
End execute.

(** ** The two paths *)

(** [PipelineRunDeadline]; [parseDuration] is [time.ParseDuration]. *)
Definition MinRunDeadline : Z := 10 * second.
Definition MaxRunDeadline : Z := 24 * hour.

Definition PipelineRunDeadline (parseDuration : string -> option Z) (p : Pipeline) : Z :=
  if p_RunDeadline p =s "" then 0 else
  match parseDuration (p_RunDeadline p) with
  | None => 0
  | Some d =>
      if d <=? 0 then 0 else
      if d <? MinRunDeadline then MinRunDeadline else
      if MaxRunDeadline <? d then MaxRunDeadline else d
  end.

Inductive handle_error :=
| DecodePayload | MissingIDs | GetPipeline (id : string) | GetRun (id : string) (e : store_error).

(** [Handle] up to the executor: the pipeline and the copy of the run. *)
Definition Handle_load `{PayloadCodec} (pipelines : gmap string Pipeline) (s : Runs) (job : Job)
    : result handle_error (Pipeline * addr) * Runs :=
  match Unmarshal (j_Payload job) with
  | None => (Err DecodePayload, s)
  | Some payload =>
      if (rp_PipelineID payload =s "") || (rp_RunID payload =s "") then (Err MissingIDs, s) else
      match pipelines !! rp_PipelineID payload with
      | None => (Err (GetPipeline (rp_PipelineID payload)), s)
      | Some p =>
          match Get s (rp_RunID payload) with
          | (Err e, s) => (Err (GetRun (rp_RunID payload) e), s)
          | (Ok a, s) => (Ok (p, a), s)
          end
      end
  end.

(** The inline path executes the very object it has stored. *)
Definition RunPipeline_create (p : Pipeline) (uuid sub email : string) (groups : list string) (tokenHash : string)
    (now : Z) (s : Runs) : addr * Runs :=
  let '(a, s) := new_run (RunPipeline_run p uuid sub email groups tokenHash) s in (a, Create s now a).

(** [loadRunForPipeline], and [CancelPipelineRun]; [false] is a 404. *)
Definition loadRunForPipeline (s : Runs) (runID pipelineID : string) : option addr * Runs :=
  match Get s runID with
  | (Err _, s) => (None, s)
  | (Ok a, s) =>
      match read s a with
      | Some run => if run_PipelineID run =s pipelineID then (Some a, s) else (None, s)
      | None => (None, s)
      end
  end.

Definition CancelPipelineRun (s : Runs) (runID pipelineID : string) : bool * Runs :=
  match loadRunForPipeline s runID pipelineID with
  | (None, s) => (false, s)
  | (Some a, s) =>
      match read s a with
      | None => (false, s)
      | Some run =>
          match UpdateStatus s (run_ID run) RunStatusCancelled (run_FinishedAt run) (run_Error run) with
          | (Some _, s) => (false, s)
          | (None, s) => (true, s)
          end
      end
  end.

(** ** Facts *)

Definition slots_of (f : list StageRun -> list StageRun) (r : PipelineRun) : PipelineRun :=
  run_set_StageRuns (f (run_StageRuns r)) r.

Lemma finalize_slots `{LoopFSM, RangeOrder} l r err sc now :
  (finalize (run_set_StageRuns l r) err sc now).2 = run_set_StageRuns l (finalize r err sc now).2.
Proof. unfold finalize, keep_error. cbn. repeat case_match; done. Qed.

Lemma finalize_ID `{LoopFSM, RangeOrder} r err sc now : run_ID (finalize r err sc now).2 = run_ID r.
Proof. unfold finalize, keep_error. cbn. repeat case_match; done. Qed.

(** What can happen to a run's surroundings while it executes. *)
Definition meanwhile `{RangeOrder} (ex : execution) (s s' : Runs) : Prop :=
  other_op (ex_run ex) s s' \/ exists x, s' = publish ex x s \/ s' = persistProgress ex s.

Lemma meanwhile_private `{RangeOrder} ex o l s s' : private (ex_run ex) o l s -> meanwhile ex s s' ->
  exists l', private (ex_run ex) o l' s'.
Proof.
  intros Hp [Hop|(x & [-> | ->])].
  - exists l. by eapply other_op_private.
  - destruct Hp as [Ho Hl Hs Hn]. destruct (decide (ob_slots o = ex_slots ex)) as [Heq|Hne].
    + exists (write_back_slots (x_runs x) l). split; cbn; try done. by rewrite Heq, lookup_alter_eq, <- Heq, Hl.
    + exists l. split; cbn; try done. by rewrite lookup_alter_ne.
  - exists l. unfold persistProgress. destruct (read s (ex_run ex)); [|done].
    eapply other_op_private; [exact Hp|apply op_progress].
Qed.

Section finish.
Context `{RO : RangeOrder} {LF : LoopFSM} {LFL : LoopFSMLaws}.

(** The end of an execution, the object behind the pointer being known. *)
Lemma finish_execution_read ex o l err now s : rs_objs s !! ex_run ex = Some o ->
  rs_arrays s !! ob_slots o = Some l -> is_Some (rs_m s !! run_ID (ob_run o)) ->
  exists s', finish_execution ex err now s = (None, s') /\ rs_m s' !! run_ID (ob_run o) = Some (ex_run ex) /\
    read s' (ex_run ex) = Some (run_set_StageRuns l (finalize (ob_run o) err (ex_startedCancelled ex) now).2).
Proof.
  intros Ho Hl [a0 Ha0]. unfold finish_execution, Update. cbn [assign set_objs rs_objs].
  rewrite lookup_alter_eq, Ho. cbn [fmap option_fmap option_map ob_run]. rewrite finalize_ID.
  unfold on_stored. cbn [rs_m assign set_objs]. rewrite Ha0. eexists. split; [done|]. cbn [set_m rs_m].
  split; [by rewrite lookup_insert_eq|]. unfold read. cbn. rewrite lookup_alter_eq, Ho. cbn. by rewrite Hl.
Qed.

Lemma finalize_success r now : run_Status r <> RunStatusCancelled ->
  run_Status (finalize r None false now).2 = RunStatusSuccess.
Proof.
  intros Hne. unfold finalize. cbn. destruct (run_Status r =s RunStatusCancelled) eqn:E; reflect_bools; [done|].
  cbn. apply run_after_final.
Qed.

Lemma finalize_cancelled r err sc now : run_Status r = RunStatusCancelled ->
  run_Status (finalize r err sc now).2 = RunStatusCancelled.
Proof.
  intros Heq. unfold finalize. cbn. rewrite Heq. change (RunStatusCancelled =s RunStatusCancelled) with true.
  rewrite orb_true_r. cbn. apply run_after_final.
Qed.

(** The copy a job executes is private to it. *)
Lemma Handle_load_private `{PayloadCodec} pipelines s job p a s1 : heap_wf s ->
  Handle_load pipelines s job = (Ok (p, a), s1) -> exists o l, private a o l s1.
Proof.
  intros Hwf. unfold Handle_load. destruct (Unmarshal _) as [pl|]; [|done]. destruct (_ || _); [done|].
  destruct (pipelines !! _); [|done]. unfold Get. destruct (rs_m s !! rp_RunID pl) as [a0|] eqn:Ha0; [|done].
  destruct (rs_objs s !! a0) as [o|] eqn:Ho; [|done]. cbn. intros [= <- <- <-].
  destruct (hw_slots s Hwf a0 o Ho) as [l Hl]. exists o, l. split; cbn.
  - by rewrite lookup_insert_eq.
  - done.
  - intros id Hid. destruct (hw_stored s Hwf id _ Hid) as (o' & Ho' & _).
    pose proof (hw_objs s Hwf (rs_next s) ltac:(by eexists)). lia.
  - pose proof (hw_arrays s Hwf (ob_slots o) ltac:(by eexists)). lia.
Qed.

Lemma begin_execute_status fl p run now sc run' x : begin_execute fl p run now = Started sc run' x ->
  sc = (run_Status run =s RunStatusCancelled) /\ run_Status run' = RunStatusRunning /\ run_ID run' = run_ID run.
Proof.
  unfold begin_execute. destruct (existsb _ _); [done|]. destruct (BuildDAGFromPipeline p); [|done].
  intros [= <- <- <-]. split_and!; try done. cbn. unfold run_after. rewrite (proj1 (TransitionRun_spec _ _)).
  destruct (run_edge _ _) as [dst|] eqn:E; [|done]. apply run_edge_table in E.
  repeat (apply elem_of_cons in E as [E|E]; [by simplify_eq|]). by apply not_elem_of_nil in E.
Qed.
End finish.

(** ** Properties *)

Section properties.
Context `{RO : RangeOrder} {LF : LoopFSM} {LFL : LoopFSMLaws} `{PayloadCodec}.

Lemma meanwhile_star_private ex o s s' : rtc (meanwhile ex) s s' -> (exists l, private (ex_run ex) o l s) ->
  exists l, private (ex_run ex) o l s'.
Proof.
  induction 1 as [|s1 s2 s3 Hm _ IH]; [done|]. intros [l Hl]. apply IH. by eapply meanwhile_private.
Qed.

(** A run executed from the queue is executed on a private copy: whatever
    the others do to the stored run before the execution ends, cancelling it
    included, an execution without error that did not start cancelled puts the
    copy in its place as a success. *)
Theorem queue_overwrites_cancellation pipelines fl s job p a s1 now ex x s2 s3 now' :
  heap_wf s -> Handle_load pipelines s job = (Ok (p, a), s1) ->
  execute_begin fl p a now s1 = (Some (Executing ex x), s2) -> ex_startedCancelled ex = false ->
  rtc (meanwhile ex) s2 s3 ->
  forall r, read s2 a = Some r -> is_Some (rs_m s3 !! run_ID r) ->
  exists s4, finish_execution ex None now' s3 = (None, s4) /\ rs_m s4 !! run_ID r = Some a /\
    run_Status <$> read s4 a = Some RunStatusSuccess.
Proof.
  intros Hwf Hload Hbegin Hsc Hops r Hr Hstored.
  destruct (Handle_load_private pipelines s job p a s1 Hwf Hload) as (o & l & Hp).
  unfold execute_begin in Hbegin. rewrite (pr_obj _ _ _ _ Hp), (private_read _ _ _ _ Hp) in Hbegin.
  destruct (begin_execute _ _ _ _) as [|sc run' x'] eqn:Hb; [done|]. injection Hbegin as <- -> <-.
  apply begin_execute_status in Hb as (_ & Hst & Hid). cbn in Hsc. subst sc.
  set (ex := mkExecution a (ob_slots o) false) in *.
  assert (private a (mkObj run' (ob_slots o)) l (assign_run a run' s1)) as Hp2.
  { destruct Hp as [Ho Hl Hs Hn]. split; cbn; try done. by rewrite lookup_alter_eq, Ho. }
  rewrite (private_read _ _ _ _ Hp2) in Hr. injection Hr as <-. cbn in Hstored.
  destruct (meanwhile_star_private ex _ _ s3 Hops (ex_intro _ l Hp2)) as [l3 Hp3].
  destruct (finish_execution_read ex (mkObj run' (ob_slots o)) l3 None now' s3 (pr_obj _ _ _ _ Hp3)
    (pr_slots _ _ _ _ Hp3) Hstored) as (s4 & Hf & Hm & Hr4).
  exists s4. split_and!; [done|done|]. change a with (ex_run ex). rewrite Hr4. cbn [fmap option_fmap option_map].
  f_equal. cbn [run_set_StageRuns run_Status]. apply finalize_success. cbn. by rewrite Hst.
Qed.

(** The inline path executes the stored object itself: a cancellation that
    lands while it runs is what the end of the execution finds, so the run ends
    as cancelled whatever its stages did. *)
Theorem inline_keeps_cancellation s id pipelineID ex s1 err now :
  heap_wf s -> rs_m s !! id = Some (ex_run ex) -> CancelPipelineRun s id pipelineID = (true, s1) ->
  exists s2, finish_execution ex err now s1 = (None, s2) /\ rs_m s2 !! id = Some (ex_run ex) /\
    run_Status <$> read s2 (ex_run ex) = Some RunStatusCancelled.
Proof.
  intros Hwf Ha Hc. destruct (hw_stored s Hwf id _ Ha) as (o & Ho & Hid).
  destruct (hw_slots s Hwf _ o Ho) as [l Hl]. pose proof (hw_objs s Hwf (ex_run ex) ltac:(by eexists)) as Hlt.
  unfold CancelPipelineRun, loadRunForPipeline, Get in Hc. rewrite Ha, Ho in Hc. cbn in Hc.
  unfold read in Hc. cbn in Hc. rewrite lookup_insert_eq in Hc. cbn in Hc. rewrite Hl in Hc. cbn in Hc.
  destruct (run_PipelineID (ob_run o) =s pipelineID); [|done]. cbn in Hc. rewrite lookup_insert_eq in Hc. cbn in Hc.
  rewrite Hl in Hc. cbn in Hc. unfold UpdateStatus, on_stored in Hc. cbn [rs_m] in Hc. rewrite Hid, Ha in Hc.
  injection Hc as <-.
  set (r := ob_run o |> run_set_Status RunStatusCancelled |> run_set_FinishedAt (run_FinishedAt (ob_run o))
                     |> run_set_Error (run_Error (ob_run o))).
  set (s1 := assign _ _ _). assert (rs_objs s1 !! ex_run ex = Some (mkObj r (ob_slots o))) as Ho1.
  { cbn. rewrite lookup_alter_eq, lookup_insert_ne by lia. by rewrite Ho. }
  assert (rs_arrays s1 !! ob_slots o = Some l) as Hl1 by done.
  assert (run_ID r = id) as Hr by exact Hid.
  destruct (finish_execution_read ex (mkObj r (ob_slots o)) l err now s1 Ho1 Hl1) as (s2 & Hf & Hm & Hr2).
  { cbn [ob_run]. rewrite Hr. by eexists. }
  cbn [ob_run] in *. rewrite Hr in Hm. exists s2. split_and!; [done|done|]. rewrite Hr2. cbn [fmap option_fmap option_map].
  f_equal. cbn [run_set_StageRuns run_Status]. by apply finalize_cancelled.
Qed.

(** A progress flush copies the run's slots, without logs, into the stored
    run.  For a run executed from the queue the tasks' later writes still reach
    the executing copy; for one executed inline the flush replaces the very slice
    the tasks write behind, and the run keeps the slots of that flush whatever
    they do. *)
Theorem flush_detaches_inline_slots s ex o l :
  rs_objs s !! ex_run ex = Some o -> rs_arrays s !! ob_slots o = Some l -> ex_slots ex = ob_slots o ->
  (ob_slots o < rs_next s)%positive ->
  let s1 := persistProgress ex s in
  (rs_m s !! run_ID (ob_run o) = Some (ex_run ex) ->
     read s1 (ex_run ex) = Some (run_set_StageRuns (strip_logs l) (ob_run o)) /\
     forall x, read (publish ex x s1) (ex_run ex) = read s1 (ex_run ex)) /\
  ((forall id, rs_m s !! id <> Some (ex_run ex)) ->
     forall x, read (publish ex x s1) (ex_run ex) =
       Some (run_set_StageRuns (write_back_slots (x_runs x) l) (ob_run o))).
Proof.
  intros Ho Hl Hex Hlt s1. unfold s1, persistProgress.
  assert (read s (ex_run ex) = Some (run_set_StageRuns l (ob_run o))) as -> by (unfold read; rewrite Ho; cbn; by rewrite Hl).
  unfold UpdateProgress, on_stored. cbn [run_ID run_set_StageRuns run_StageRuns]. split.
  - intros Hm. rewrite Hm. unfold publish, read. cbn. rewrite lookup_alter_eq, Ho. cbn.
    rewrite !lookup_insert_eq, Hex. split; [done|]. intros x.
    rewrite lookup_alter_ne by lia. by rewrite lookup_insert_eq.
  - intros Hm x. destruct (rs_m s !! run_ID (ob_run o)) as [b|] eqn:Hb; cbn; unfold publish, read; cbn.
    + rewrite lookup_alter_ne by (intros ->; by apply (Hm (run_ID (ob_run o)))). rewrite Ho. cbn.
      rewrite Hex, lookup_alter_eq, lookup_insert_ne by lia. by rewrite Hl.
    + rewrite Ho. cbn. rewrite Hex, lookup_alter_eq. by rewrite Hl.
Qed.
End properties.

(** ** Concrete runs *)

(** A codec: the payload as a number, in binary digits. *)
Fixpoint digits_of (p : positive) : string :=
  match p with
  | xH => ""
  | xO p => String "0"%char (digits_of p)
  | xI p => String "1"%char (digits_of p)
  end.

Fixpoint of_digits (s : string) : positive :=
  match s with
  | "" => xH
  | String c s => if Ascii.eqb c "0"%char then xO (of_digits s) else xI (of_digits s)
  end.

Lemma of_digits_of p : of_digits (digits_of p) = p.
Proof. induction p; cbn; congruence. Qed.

#[export] Instance digits_codec : PayloadCodec := {
  Marshal p := digits_of (encode (rp_PipelineID p, rp_RunID p));
  Unmarshal s := '(pid, rid) ← decode (A := string * string) (of_digits s); Some (mkPayload pid rid)
}.

#[export] Instance digits_codec_laws : PayloadCodecLaws.
Proof. split. intros [pid rid]. cbn. by rewrite of_digits_of, decode_encode. Qed.

Section demo.
Local Existing Instance range_default.

Definition demo_store (status : string) : Runs :=
  let '(a, s) := RunPipeline_create demo_pipeline "r" "" "" [] "" 5 NewRuns in
  assign a (run_set_Status status) s.

Definition demo_job : Job :=
  mkJob "j" JobKindPipelineRun (Marshal (mkPayload "p" "r")) StatusRunning 1 1 0 "w" (Some 0) (Some 0) None ""
    "pipeline:p" 0 0.

(** The run executed inline, its first stage since recorded as a success. *)
Definition demo_inline : execution := mkExecution 2%positive 1%positive false.
Definition demo_written : exec :=
  mkExec (NewRunnerBounded NewDAG 1)
    (list_to_map ((fun st => (st_ID st, new_StageRun st |> sr_set_Status RunStatusSuccess)) <$> p_Stages demo_pipeline)) ∅.

Lemma runner_store_wf status : heap_wf (demo_store status).
Proof.
  assert (rs_m (demo_store status) = {["r" := 2%positive]}) as Hm by reflexivity.
  assert (exists r, run_ID r = "r" /\ rs_objs (demo_store status) = {[2%positive := mkObj r 1%positive]}) as (r & Hr & Ho)
    by (eexists; split; [|reflexivity]; reflexivity).
  assert (rs_arrays (demo_store status) = {[1%positive := new_StageRun <$> p_Stages demo_pipeline]}) as Ha by reflexivity.
  assert (rs_next (demo_store status) = 3%positive) as Hn by reflexivity.
  split; rewrite ?Hm, ?Ho, ?Ha, ?Hn.
  - intros id a [<- <-]%lookup_singleton_Some. exists (mkObj r 1%positive). by rewrite lookup_singleton_eq.
  - intros a o [<- <-]%lookup_singleton_Some. cbn. rewrite lookup_singleton_eq. by eexists.
  - intros a [o [<- _]%lookup_singleton_Some]. lia.
  - intros a [o [<- _]%lookup_singleton_Some]. lia.
Qed.

Definition loaded := Handle_load {["p" := demo_pipeline]} (demo_store RunStatusPending) demo_job.
Definition begun := execute_begin demo_flags demo_pipeline 3%positive 10 loaded.2.

(** The operator cancels while the copy executes. *)
Definition cancelled : Runs := (UpdateStatus begun.2 "r" RunStatusCancelled None "").2.

Lemma queue_overwrites_cancellation_witness :
  run_Status <$> read cancelled 2%positive = Some RunStatusCancelled /\
  exists ex s4, finish_execution ex None 20 cancelled = (None, s4) /\ rs_m s4 !! "r" = Some 3%positive /\
    run_Status <$> read s4 3%positive = Some RunStatusSuccess.
Proof.
  split; [vm_compute; reflexivity|].
  destruct loaded as [l1 s1] eqn:El. assert (l1 = Ok (demo_pipeline, 3%positive)) as ->
    by (vm_compute in El; injection El as <- _; reflexivity).
  destruct begun as [b s2] eqn:Eb. unfold begun in Eb. rewrite El in Eb. cbn [snd] in Eb.
  assert (exists x, b = Some (Executing (mkExecution 3%positive 1%positive false) x)) as [x ->].
  { pose proof El as El'. vm_compute in El'. injection El' as <-. clear El. vm_compute in Eb. injection Eb as <- _. by eexists. }
  assert (exists r, read s2 3%positive = Some r /\ run_ID r = "r") as (r & Hr & Hid).
  { assert (s2 = begun.2) as -> by (unfold begun; rewrite El; cbn [snd]; by rewrite Eb). vm_compute. by eexists. }
  assert (is_Some (rs_m (UpdateStatus s2 "r" RunStatusCancelled None "").2 !! run_ID r)) as Hs.
  { rewrite Hid. assert (s2 = begun.2) as -> by (unfold begun; rewrite El; cbn [snd]; by rewrite Eb). vm_compute. by eexists. }
  unfold cancelled. assert (begun.2 = s2) as -> by (unfold begun; rewrite El; cbn [snd]; by rewrite Eb).
  destruct (queue_overwrites_cancellation {["p" := demo_pipeline]} demo_flags (demo_store RunStatusPending) demo_job
    demo_pipeline 3%positive s1 10 _ x s2 _ 20 (runner_store_wf _) El Eb eq_refl
    (rtc_once _ _ (or_introl (op_status 3%positive s2 "r" RunStatusCancelled None ""))) r Hr Hs)
    as (s4 & Hf & Hm & Hst).
  rewrite Hid in Hm. by exists (mkExecution 3%positive 1%positive false), s4.
Defined.

Lemma inline_keeps_cancellation_witness :
  exists s2, finish_execution demo_inline None 20 (CancelPipelineRun (demo_store RunStatusRunning) "r" "p").2 = (None, s2) /\
    run_Status <$> read s2 2%positive = Some RunStatusCancelled.
Proof.
  destruct (CancelPipelineRun (demo_store RunStatusRunning) "r" "p") as [ok s1] eqn:E.
  assert (ok = true) as -> by (vm_compute in E; injection E as <- _; reflexivity).
  destruct (inline_keeps_cancellation (demo_store RunStatusRunning) "r" "p" demo_inline s1 None 20
    (runner_store_wf _) eq_refl E) as (s2 & Hf & _ & Hst).
  by exists s2.
Defined.

Lemma flush_detaches_inline_slots_witness :
  read (publish demo_inline demo_written (persistProgress demo_inline (demo_store RunStatusRunning))) 2%positive =
  read (persistProgress demo_inline (demo_store RunStatusRunning)) 2%positive.
Proof.
  assert (exists r, rs_objs (demo_store RunStatusRunning) !! 2%positive = Some (mkObj r 1%positive) /\ run_ID r = "r")
    as (r & Ho & Hid) by (eexists; split; reflexivity).
  destruct (flush_detaches_inline_slots (demo_store RunStatusRunning) demo_inline (mkObj r 1%positive)
    (new_StageRun <$> p_Stages demo_pipeline) Ho eq_refl eq_refl ltac:(vm_compute; reflexivity)) as [Hin _].
  cbn in Hin. rewrite Hid in Hin. by apply (proj2 (Hin eq_refl)).
Defined.
End demo.
