(* ===== verification/Validate.v ===== *)
(** * Save-time validation: [internal/validate/validate.go] and
      [validatePipelineInput] of [internal/handler/pipeline.go]

    Each check returns what it refuses, or nothing.  [time.ParseDuration] and
    [url.Parse] are arguments. *)

From S2P Require Import Prelude GoStr GoRegexp Model Pipeline Retry RunStore JobRunner.
From Stdlib Require Import Ascii.
Local Open Scope Z_scope.

(** ** Patterns *)

Definition MaxNameLen : Z := 255.
Definition MaxDescriptionLen : Z := 2000.

Definition word : list (ascii * ascii) := [upper; lower; digits09].
Definition tag_rest : regex :=
  UpTo 127 (Class (word ++ [just "."%char; just "_"%char; just "-"%char])).

Definition githubRepoRe : regex :=
  Seq (Seq alnum (UpTo 38 (Class (word ++ [just "-"%char]))))
    (Seq (Lit "/"%char)
      (let c := Class (word ++ [just "."%char; just "_"%char; just "-"%char]) in Seq c (UpTo 99 c))).

Definition dockerTagRe : regex := Seq (Class (word ++ [just "_"%char])) tag_rest.

Definition gitRefRe : regex :=
  Seq alnum (Star (Class (word ++ [just "."%char; just "_"%char; just "/"%char; just "-"%char]))).

(** [[a-z0-9]([a-z0-9._-]*[a-z0-9])?] *)
Definition path_part : regex :=
  Seq lower_alnum
    (Opt (Seq (Star (Class [lower; digits09; just "."%char; just "_"%char; just "-"%char])) lower_alnum)).

Definition cacheRefRe : regex :=
  Seq path_part (Seq (Opt (Seq (Lit ":"%char) (Plus (Class [digits09]))))
    (Seq (Plus (Seq (Lit "/"%char) path_part))
      (Opt (Seq (Lit ":"%char) (Seq (Class (word ++ [just "_"%char])) tag_rest))))).

(** ** Checks *)

Inductive rejection :=
| Required (field : string) | TooLong (field : string) (max : Z)
| NotADuration (s : string) | DeadlineOutside (s : string)
| RetryMaxAttempts (n : Z) | RetryInitial (n : Z) | RetryMax (n : Z) | RetryMaxBelowInitial (max initial : Z)
| CacheRefRequired (mode : string) | CacheRefTooLong | CacheRefInvalid (ref : string) | CacheModeUnknown (mode : string)
| UnknownStageType (t : string) | UnknownHostKind (k : string) | UnknownReachability (r : string)
| UnknownTargetType (t : string)
| RepoForm (s : string) | RefSequence (field : string) | RefInvalid (field : string)
| TagInvalid (s : string) | TagsInvalid (i : nat) (e : rejection)
| URLInvalid (field : string) | URLIncomplete (field : string) | URLNotHTTPS (field : string).

Definition Name (field s : string) : option rejection :=
  if s =s "" then Some (Required field)
  else if MaxNameLen <? str_len s then Some (TooLong field MaxNameLen) else None.

Definition Description (field s : string) : option rejection :=
  if MaxDescriptionLen <? str_len s then Some (TooLong field MaxDescriptionLen) else None.

Definition RunDeadline (parseDuration : string -> option Z) (s : string) : option rejection :=
  if s =s "" then None else
  match parseDuration s with
  | None => Some (NotADuration s)
  | Some d => if (d <? 10 * second) || (24 * hour <? d) then Some (DeadlineOutside s) else None
  end.

Definition ValidRetryPolicy (r : option RetryPolicy) : option rejection :=
  match r with
  | None => None
  | Some r =>
      if (rp_MaxAttempts r <? 0) || (10 <? rp_MaxAttempts r) then Some (RetryMaxAttempts (rp_MaxAttempts r))
      else if (rp_InitialMS r <? 0) || (60000 <? rp_InitialMS r) then Some (RetryInitial (rp_InitialMS r))
      else if (rp_MaxMS r <? 0) || (300000 <? rp_MaxMS r) then Some (RetryMax (rp_MaxMS r))
      else if (0 <? rp_MaxMS r) && (0 <? rp_InitialMS r) && (rp_MaxMS r <? rp_InitialMS r)
           then Some (RetryMaxBelowInitial (rp_MaxMS r) (rp_InitialMS r))
      else None
  end.

Definition ValidCacheSpec (c : option CacheSpec) : option rejection :=
  match c with
  | None => None
  | Some c =>
      if (cs_Mode c =s "") || (cs_Mode c =s "disabled") then None
      else if (cs_Mode c =s "registry") || (cs_Mode c =s "oci") then
        if cs_Ref c =s "" then Some (CacheRefRequired (cs_Mode c))
        else if MaxNameLen <? str_len (cs_Ref c) then Some CacheRefTooLong
        else if negb (MatchString cacheRefRe (cs_Ref c)) then Some (CacheRefInvalid (cs_Ref c))
        else None
      else Some (CacheModeUnknown (cs_Mode c))
  end.

Definition ValidStageType (t : string) : option rejection :=
  if existsb (String.eqb t) [StageTypeBuild; StageTypeTest; StageTypeDeploy; StageTypePush;
    StageTypeApproval; StageTypeCustom; StageTypeGitOpsCommit] then None else Some (UnknownStageType t).

Definition ValidHostKind (k : string) : option rejection :=
  if existsb (String.eqb k) ["docker"; "kubernetes"; "ssh-docker"] then None else Some (UnknownHostKind k).

Definition ValidHostReachability (r : string) : option rejection :=
  if existsb (String.eqb r) ["direct"; "tailnet"] then None else Some (UnknownReachability r).

Definition EnvironmentTargetType (t : string) : option rejection :=
  if existsb (String.eqb t) [""; "cluster"; "namespace"] then None else Some (UnknownTargetType t).

Definition GitHubRepo (s : string) : option rejection :=
  if negb (MatchString githubRepoRe s) then Some (RepoForm s) else None.

(** [strings.Contains(s, "..")] and [strings.HasSuffix(s, "/")]. *)
Fixpoint contains_dots (s : string) : bool :=
  match s with EmptyString => false | String _ s' => has_prefix ".." s || contains_dots s' end.

Definition ends_with_slash (s : string) : bool := has_prefix "/" (str_rev s).

Definition GitRefName (field s : string) : option rejection :=
  if s =s "" then None
  else if contains_dots s || ends_with_slash s then Some (RefSequence field)
  else if negb (MatchString gitRefRe s) then Some (RefInvalid field)
  else None.

Definition DockerTag (s : string) : option rejection :=
  if negb (MatchString dockerTagRe s) then Some (TagInvalid s) else None.

(** What follows the last [:], or the whole string. *)
Definition after_last_colon (t : string) : string :=
  match cut ":" (str_rev t) with
  | Some (tag, _) => str_rev tag
  | None => t
  end.

Fixpoint DockerTags_from (i : nat) (tags : list string) : option rejection :=
  match tags with
  | [] => None
  | t :: tags =>
      match DockerTag (after_last_colon t) with
      | Some err => Some (TagsInvalid i err)
      | None => DockerTags_from (S i) tags
      end
  end.

Definition DockerTags (tags : list string) : option rejection := DockerTags_from 0 tags.

(** [urlParse s]: the scheme and the host of [s]. *)
Definition HTTPSURL (urlParse : string -> option (string * string)) (field s : string) (requireHTTPS : bool)
    : option rejection :=
  if s =s "" then Some (Required field) else
  match urlParse s with
  | None => Some (URLInvalid field)
  | Some (scheme, host) =>
      if (scheme =s "") || (host =s "") then Some (URLIncomplete field)
      else if requireHTTPS && negb (scheme =s "https") then Some (URLNotHTTPS field)
      else None
  end.

(** The first check that refuses. *)
Definition first_of (checks : list (option rejection)) : option rejection :=
  foldr (fun c rest => match c with Some e => Some e | None => rest end) None checks.

Definition validateStageInput (s : Stage) : option rejection :=
  first_of [ValidStageType (st_Type s); ValidRetryPolicy (cfg_Retry (st_Config s));
            ValidCacheSpec (cfg_Cache (st_Config s))].

Definition validatePipelineInput (parseDuration : string -> option Z) (p : Pipeline) : option rejection :=
  first_of ([Name "name" (p_Name p); Description "description" (p_Description p);
             RunDeadline parseDuration (p_RunDeadline p)] ++ (validateStageInput <$> p_Stages p)).

(** ** Facts *)

Lemma first_of_None checks : first_of checks = None <-> forall c, c ∈ checks -> c = None.
Proof.
  unfold first_of. induction checks as [|c l IH]; cbn.
  - split; [by intros _ c ?%not_elem_of_nil|done].
  - setoid_rewrite elem_of_cons. destruct c as [e|].
    + split; [done|]. intros H. by apply (H (Some e)); left.
    + rewrite IH. split; [intros H c [->|?]; auto|intros H c ?; apply H; by right].
Qed.

(** ** Properties *)

(** The characters no shell and no command line gives a meaning to. *)
Definition shell_safe (c : ascii) : bool :=
  in_class c (word ++ [just "."%char; just "_"%char; just "/"%char; just ":"%char; just "-"%char]).

Definition first_char (s : string) : option ascii := match s with String c _ => Some c | EmptyString => None end.

(** A pattern that begins with one character of a class. *)
Lemma lang_class_first ranges r s : lang (Seq (Class ranges) r) s ->
  exists c, first_char s = Some c /\ in_class c ranges = true.
Proof.
  rewrite lang_seq_iff. intros (s1 & s2 & -> & H & _). inversion H as [|? c Hc| | | | |]; subst. by exists c.
Qed.

Lemma lang_assoc_first r1 r2 r3 s : lang (Seq (Seq r1 r2) r3) s -> exists r, lang (Seq r1 r) s.
Proof.
  rewrite lang_seq_iff. intros (s1 & s2 & -> & H & H3). apply lang_seq_iff in H as (a & b & -> & Ha & Hb).
  exists (Seq r2 r3). rewrite lang_seq_iff. exists a, (b +:+ s2). split_and!; [|done|by constructor].
  clear. induction a as [|c a IH]; [done|].
  change (String c a +:+ b) with (String c (a +:+ b)). change (String c (a +:+ b) +:+ s2) with (String c ((a +:+ b) +:+ s2)).
  by rewrite IH.
Qed.

Definition safe_argument (s : string) : Prop :=
  chars (fun c => shell_safe c = true) s /\ exists c, first_char s = Some c /\ c <> "-"%char.

Lemma in_word_not_dash c ranges : in_class c ranges = true -> in_class "-"%char ranges = false -> c <> "-"%char.
Proof. by intros H H' ->; rewrite H in H'. Qed.

Lemma matches_safe re s : MatchString re s = true -> within shell_safe re = true ->
  (lang re s -> exists ranges r, lang (Seq (Class ranges) r) s /\ in_class "-"%char ranges = false) -> safe_argument s.
Proof.
  intros Hm Hw Hf. apply MatchString_lang in Hm. split; [by eapply within_chars|].
  destruct (Hf Hm) as (ranges & r & Hl & Hd). destruct (lang_class_first ranges r s Hl) as (c & Hc & Hin).
  exists c. split; [done|]. by eapply in_word_not_dash.
Qed.

Ltac within_shell :=
  lazymatch goal with
  | |- within _ (Seq _ _) = true => apply within_seq; within_shell
  | |- within _ (Opt _) = true => apply within_opt; within_shell
  | |- within _ (UpTo ?n _) = true => apply (within_upto _ _ n); within_shell
  | |- _ => vm_compute; reflexivity
  end.

Lemma gitRefRe_safe : within shell_safe gitRefRe = true.
Proof. within_shell. Qed.
Lemma githubRepoRe_safe : within shell_safe githubRepoRe = true.
Proof. unfold githubRepoRe. cbv zeta. within_shell. Qed.
Lemma dockerTagRe_safe : within shell_safe dockerTagRe = true.
Proof. unfold dockerTagRe, tag_rest. within_shell. Qed.
Lemma cacheRefRe_safe : within shell_safe cacheRefRe = true.
Proof. unfold cacheRefRe, tag_rest. within_shell. Qed.

(** What the checks let through can be handed to git, a builder or a registry
    on a command line: an accepted branch, repository, tag or cache reference has
    no white space, quote, [$], [;] or other special character, never reads as an
    option, and an accepted branch has no [..] and an accepted cache reference is
    at most 255 bytes. *)
Theorem accepted_inputs_safe :
  (forall field s, GitRefName field s = None -> s <> "" -> safe_argument s /\ contains_dots s = false) /\
  (forall s, GitHubRepo s = None -> safe_argument s) /\
  (forall s, DockerTag s = None -> safe_argument s) /\
  (forall c, ValidCacheSpec (Some c) = None -> cs_Mode c = "registry" \/ cs_Mode c = "oci" ->
     safe_argument (cs_Ref c) /\ str_len (cs_Ref c) <= 255).
Proof.
  split_and!.
  - intros field s. unfold GitRefName. destruct (String.eqb_spec s ""); [done|].
    destruct (contains_dots s) eqn:Hd; [done|]. destruct (ends_with_slash s); [done|]. cbn.
    destruct (MatchString gitRefRe s) eqn:Hm; [|done]. intros _ _. split; [|done].
    apply (matches_safe gitRefRe); [exact Hm|exact gitRefRe_safe|]. intros Hl. by eexists _, _.
  - intros s. unfold GitHubRepo. destruct (MatchString githubRepoRe s) eqn:Hm; [|done]. intros _.
    apply (matches_safe githubRepoRe); [exact Hm|exact githubRepoRe_safe|].
    intros [r Hr]%lang_assoc_first. by eexists _, _.
  - intros s. unfold DockerTag. destruct (MatchString dockerTagRe s) eqn:Hm; [|done]. intros _.
    apply (matches_safe dockerTagRe); [exact Hm|exact dockerTagRe_safe|]. intros Hl. by eexists _, _.
  - intros c. cbn. intros H Hmode.
    replace ((cs_Mode c =s "") || (cs_Mode c =s "disabled")) with false in H by (by destruct Hmode as [-> | ->]).
    replace ((cs_Mode c =s "registry") || (cs_Mode c =s "oci")) with true in H by (by destruct Hmode as [-> | ->]).
    destruct (cs_Ref c =s ""); [done|]. destruct (Z.ltb_spec MaxNameLen (str_len (cs_Ref c))) as [|Hlen]; [done|].
    destruct (MatchString cacheRefRe (cs_Ref c)) eqn:Hm; [|done]. split; [|exact Hlen].
    apply (matches_safe cacheRefRe); [exact Hm|exact cacheRefRe_safe|].
    intros [r Hr]%lang_assoc_first. by eexists _, _.
Qed.

(** The policy of an accepted configuration is the configuration's, but for the
    floor under the pauses. *)
Lemma policyFromStage_validated {E} (ic id : E -> bool) s r : cfg_Retry (st_Config s) = Some r ->
  ValidRetryPolicy (Some r) = None ->
  let q := policyFromStage ic id s in
  (0 < rp_MaxAttempts r ->
     st_Type s <> StageTypeApproval -> st_Type s <> StageTypeCustom -> st_Type s <> StageTypeTest ->
     MaxAttempts q = rp_MaxAttempts r) /\
  (0 < rp_InitialMS r -> Initial q = Z.max (100 * millisecond) (rp_InitialMS r * millisecond)) /\
  (0 < rp_MaxMS r -> rp_Exponential r <> Some false -> Max q = Z.max (Initial q) (rp_MaxMS r * millisecond)).
Proof.
  intros Hr H q. cbn in H.
  repeat (match type of H with context [if ?b then _ else _] => destruct b eqn:? end; [done|]). reflect_bools.
  unfold q, policyFromStage. rewrite Hr. clear q H. cbv zeta. cbn [MaxAttempts Initial Max].
  rewrite !(wrap64_small (_ * millisecond)) by (unfold int64_min, int64_max, millisecond; lia).
  unfold minute, second, millisecond in *. split_and!.
  - intros Hm Ha%String.eqb_neq Hc%String.eqb_neq Ht%String.eqb_neq. rewrite Ha, Hc, Ht. cbn [orb].
    rewrite (proj2 (Z.ltb_lt 0 _) Hm), (proj2 (Z.ltb_ge _ 1)), (proj2 (Z.ltb_ge 10 _)) by lia. done.
  - intros Hi. rewrite (proj2 (Z.ltb_lt 0 _) Hi).
    destruct (Z.ltb_spec (rp_InitialMS r * 1000000) (100 * 1000000)).
    + rewrite (proj2 (Z.ltb_ge _ _)) by lia. lia.
    + rewrite (proj2 (Z.ltb_ge _ _)) by lia. lia.
  - intros Hm Hx. match goal with |- _ = Z.max ?i _ => set (initial := i) end. rewrite (proj2 (Z.ltb_lt 0 _) Hm).
    assert (initial <= 60 * 1000000000) as Hle by (unfold initial; match goal with |- context [?a <? ?b] => destruct (Z.ltb_spec a b) end; lia).
    destruct (rp_Exponential r) as [[]|]; try done.
    all: destruct (Z.ltb_spec (rp_MaxMS r * 1000000) initial); rewrite (proj2 (Z.ltb_ge _ _)) by lia; lia.
Qed.

(** A pipeline the editor accepted runs as it is written: its deadline is the
    duration it names, every stage has a known type and a retry policy that the
    executor takes over without clamping, except that pauses below 100 ms are
    raised to it and the longest pause to the first. *)
Theorem validated_pipeline_runs_as_written {E} (ic id : E -> bool) parseDuration p :
  validatePipelineInput parseDuration p = None ->
  (p_RunDeadline p <> "" -> parseDuration (p_RunDeadline p) = Some (PipelineRunDeadline parseDuration p)) /\
  (p_RunDeadline p = "" -> PipelineRunDeadline parseDuration p = 0) /\
  forall s, s ∈ p_Stages p -> ValidStageType (st_Type s) = None /\
    forall r, cfg_Retry (st_Config s) = Some r -> let q := policyFromStage ic id s in
      (0 < rp_MaxAttempts r ->
         st_Type s <> StageTypeApproval -> st_Type s <> StageTypeCustom -> st_Type s <> StageTypeTest ->
         MaxAttempts q = rp_MaxAttempts r) /\
      (0 < rp_InitialMS r -> Initial q = Z.max (100 * millisecond) (rp_InitialMS r * millisecond)) /\
      (0 < rp_MaxMS r -> rp_Exponential r <> Some false -> Max q = Z.max (Initial q) (rp_MaxMS r * millisecond)).
Proof.
  unfold validatePipelineInput. rewrite first_of_None. intros H. split_and!.
  - intros Hne. specialize (H _ ltac:(apply elem_of_app; left; right; right; left)).
    unfold RunDeadline, PipelineRunDeadline, MinRunDeadline, MaxRunDeadline in *.
    apply String.eqb_neq in Hne. rewrite Hne in *. destruct (parseDuration _) as [d|]; [|done].
    destruct (Z.ltb_spec d (10 * second)), (Z.ltb_spec (24 * hour) d); try done.
    destruct (Z.leb_spec d 0); [unfold second in *; lia|done].
  - intros Hne. unfold PipelineRunDeadline. by rewrite Hne.
  - intros s Hs. specialize (H (validateStageInput s) ltac:(apply elem_of_app; right; apply list_elem_of_fmap; by exists s)).
    unfold validateStageInput in H. rewrite first_of_None in H. split; [apply H; left|].
    intros r Hr. apply policyFromStage_validated; [done|]. rewrite <- Hr. apply H. right. left.
Qed.

(** ** Concrete inputs *)

Example accepted_ex :
  (GitRefName "branch" "feature/x-1.2", GitHubRepo "santapong/Cooker", DockerTags ["reg:5000/app:v1.2"; "latest"],
   ValidCacheSpec (Some (mkCacheSpec "registry" "registry.example.com:5000/org/app:build" false)))
  = (None, None, None, None).
Proof. vm_compute. reflexivity. Qed.

(** The owner of a repository may not hold an underscore, whatever the comment on
    the pattern says, and a name made of dots is accepted. *)
Example rejected_ex :
  (GitRefName "branch" "a..b", GitRefName "branch" "-x", GitHubRepo "my_org/app", GitHubRepo "a/..", DockerTag "a b",
   ValidCacheSpec (Some (mkCacheSpec "registry" "reg/app;rm" false)))
  = (Some (RefSequence "branch"), Some (RefInvalid "branch"), Some (RepoForm "my_org/app"), None, Some (TagInvalid "a b"),
     Some (CacheRefInvalid "reg/app;rm")).
Proof. vm_compute. reflexivity. Qed.

Definition demo_duration (s : string) : option Z := if s =s "45m" then Some (45 * minute) else None.

Definition demo_retry : RetryPolicy := mkRetryPolicy 4 50 2000 None.

Definition retried_config : StageConfig :=
  mkStageConfig "" "" ∅ "" [] [] None "" [] "" "" "" "" "" "" "" "" "" false None "" "" "" [] None "" "" 0 0
    (Some demo_retry) ∅ "" [] "" "" "" "" "".

Definition saved_pipeline : Pipeline :=
  mkPipeline "p" "nightly" "" [mkStage "b" "b" StageTypeBuild retried_config "" ""] [] ∅ 0 0 0 "45m".

Lemma validated_pipeline_runs_as_written_witness :
  PipelineRunDeadline demo_duration saved_pipeline = 45 * minute /\
  let q := policyFromStage (fun _ : unit => false) (fun _ => false) (mkStage "b" "b" StageTypeBuild retried_config "" "") in
  MaxAttempts q = 4 /\ Initial q = 100 * millisecond.
Proof.
  destruct (validated_pipeline_runs_as_written (fun _ : unit => false) (fun _ => false) demo_duration saved_pipeline eq_refl)
    as (Hd & _ & Hs).
  destruct (Hs (mkStage "b" "b" StageTypeBuild retried_config "" "") ltac:(left)) as [_ Hr].
  destruct (Hr demo_retry eq_refl) as (Hm & Hi & _). split; [|split].
  - pose proof (f_equal (default 0) (Hd ltac:(discriminate))) as He. exact (eq_sym He).
  - apply Hm; [reflexivity|discriminate..].
  - apply Hi. reflexivity.
Defined.
