(* ===== verification/JobQueuePg.v ===== *)
(** * The job queue in PostgreSQL: [internal/jobqueue/postgres.go] and
      [internal/store/postgres/migrations/010_jobs.up.sql]

    The statements are read as operations on a table of rows under READ COMMITTED, as
    the package's default isolation: a statement sees the rows committed when it began,
    [FOR UPDATE SKIP LOCKED] passes over rows locked by another transaction, and tests
    its conditions again on a row that has changed since.  Operations of one statement
    on the row they match are one step; claiming a job is several. *)

From Stdlib Require Import Ascii.
From S2P Require Import Prelude GoStr JobQueue Worker.
Local Open Scope Z_scope.

(** The rows of [jobs] by primary key.  A row is a [Job]; an absent time is NULL. *)
Abbreviation Table := (gmap string Job).

Definition dquote : ascii := "034".
Definition backslash : ascii := "092".

(** [byte(c)] for a rune. *)
Definition low_byte (r : Z) : ascii := ascii_of_nat (Z.to_nat (r mod 256)).

(** [for _, c := range s] with the escapes. *)
Fixpoint array_chars (rs : list Z) : string :=
  match rs with
  | [] => ""
  | r :: rs =>
      if (r =? byte_of dquote) || (r =? byte_of backslash) then String backslash (String (low_byte r) (array_chars rs))
      else String (low_byte r) (array_chars rs)
  end.

Fixpoint array_elems (first : bool) (ss : list string) : string :=
  match ss with
  | [] => ""
  | s :: ss => (if first then "" else ",") +:+ chr dquote +:+ array_chars (runes s) +:+ chr dquote +:+ array_elems false ss
  end.

Definition pgTextArray (ss : list string) : string :=
  match ss with [] => "{}" | _ => "{" +:+ array_elems true ss +:+ "}" end.

(** A quoted element of an array literal, with a backslash before quotes and backslashes,
    and the literal of a list of them. *)
Fixpoint quoted_chars (s : string) : string :=
  match s with
  | EmptyString => ""
  | String c s =>
      if Ascii.eqb c dquote || Ascii.eqb c backslash then String backslash (String c (quoted_chars s))
      else String c (quoted_chars s)
  end.
Definition quoted_array (ss : list string) : string :=
  "{" +:+ join "," ((fun s => chr dquote +:+ quoted_chars s +:+ chr dquote) <$> ss) +:+ "}".

(** What the server does with values: it reads array literals, it stores a document as
    [JSONB] (in its own spelling) or refuses it, and a time at its own precision. *)
Class PgTypes := {
  array_in : string -> option (list string);
  jsonb : string -> option string;
  timestamptz : Z -> Z;
  array_in_quoted ss : array_in (quoted_array ss) = Some ss
}.

Section postgres.
Context `{RO : RangeOrder, PG : PgTypes}.

(** ** Statements *)

(** The constraints of the table: the key, [INTEGER] and [JSONB]. *)
Definition insert_row (t : Table) (j : Job) : option Table :=
  match jsonb (j_Payload j) with
  | None => None
  | Some payload =>
      if 2147483647 <? j_MaxAttempts j then None else
      match t !! j_ID j with
      | Some _ => None
      | None => Some (<[j_ID j := mkJob (j_ID j) (j_Kind j) payload StatusPending 0 (j_MaxAttempts j)
          (timestamptz (j_RunAt j)) "" None None None "" (j_ConcurrencyKey j)
          (timestamptz (j_CreatedAt j)) (timestamptz (j_CreatedAt j))]> t)
      end
  end.

(** [generated] is what [newID] would return. *)
Definition Enqueue (t : Table) (now : Z) (generated : string) (kind : string) (payload : option string) (opts : EnqueueOptions)
    : result jq_error Job * Table :=
  if kind =s "" then (Err EmptyKind, t) else
  let runAt := if is_zero_time (o_RunAt opts) then now else o_RunAt opts in
  let maxAttempts := if o_MaxAttempts opts <=? 0 then 1 else o_MaxAttempts opts in
  let id := if o_ID opts =s "" then generated else o_ID opts in
  let payload := match payload with None => "{}" | Some p => p end in
  let j := mkJob id kind payload StatusPending 0 maxAttempts runAt "" None None None "" (o_ConcurrencyKey opts) now now in
  match insert_row t j with
  | None => (Err DatabaseError, t)
  | Some t' => (Ok j, t')
  end.

(** The [WHERE] of the pick, against the rows of a snapshot. *)
Definition where_clause (snapshot : Table) (now : Z) (kinds : list string) (j : Job) : bool :=
  bool_decide (j_Status j = StatusPending)
  && (j_RunAt j <=? now)
  && (bool_decide (kinds = []) || bool_decide (j_Kind j ∈ kinds))
  && ((j_ConcurrencyKey j =s "") ||
      negb (existsb (fun j2 => (j_ConcurrencyKey j2 =s j_ConcurrencyKey j) && bool_decide (j_Status j2 = StatusRunning))
              (range_map snapshot).*2)).

(** A transaction of [Dequeue]: the snapshot of its statement, the rows it has yet to
    try in the order of [run_at], and the row it has locked. *)
Record Tx := mkTx {
  tx_worker : string; tx_now : Z; tx_snapshot : Table; tx_kinds : list string; tx_rest : list Job; tx_picked : option Job
}.

(** [None] when the server refuses the literal. *)
Definition start (t : Table) (now : Z) (workerID : string) (kinds : list string) : option Tx :=
  kinds ← array_in (pgTextArray kinds);
  Some (mkTx workerID now t kinds
    (sort_slice (fun a b => j_RunAt a <? j_RunAt b) (filter (fun j => where_clause t now kinds j = true) (range_map t).*2)) None).

(** One row of the scan: [t] is what is committed now, [locked] the rows others hold. *)
Definition try_row (t : Table) (locked : gset string) (x : Tx) : Tx :=
  match tx_picked x, tx_rest x with
  | None, j :: rest =>
      let skip := mkTx (tx_worker x) (tx_now x) (tx_snapshot x) (tx_kinds x) rest None in
      if bool_decide (j_ID j ∈ locked) then skip else
      match t !! j_ID j with
      | None => skip
      | Some cur =>
          if where_clause (tx_snapshot x) (tx_now x) (tx_kinds x) cur
          then mkTx (tx_worker x) (tx_now x) (tx_snapshot x) (tx_kinds x) rest (Some cur)
          else skip
      end
  | _, _ => x
  end.

Definition done_scanning (x : Tx) : bool :=
  match tx_picked x, tx_rest x with Some _, _ => true | None, [] => true | _, _ => false end.

(** [UPDATE ... RETURNING] on the picked row, and the commit.  The assignments are those
    of [JobQueue.claim]. *)
Definition commit (t : Table) (x : Tx) : option Job * Table :=
  match tx_picked x with
  | None => (None, t)
  | Some p => let j := claim (tx_now x) (tx_worker x) p in (Some j, <[j_ID p := j]> t)
  end.

(** The rows [WHERE id = $1 AND locked_by = $2 AND status = 'running'] matches. *)
Definition owned_row (t : Table) (workerID jobID : string) : option Job :=
  match t !! jobID with
  | Some j => if (j_LockedBy j =s workerID) && bool_decide (j_Status j = StatusRunning) then Some j else None
  | None => None
  end.

(** [t] is the table the second statement sees. *)
Definition checkOwnedRowAffected (n : Z) (t : Table) (jobID : string) : option jq_error :=
  if 0 <? n then None else
  match t !! jobID with None => Some ErrNotFound | Some _ => Some ErrNotLocked end.

Definition update_owned (t : Table) (workerID jobID : string) (set : Job -> Job) : option jq_error * Table :=
  match owned_row t workerID jobID with
  | Some j => let t' := <[jobID := set j]> t in (checkOwnedRowAffected 1 t' jobID, t')
  | None => (checkOwnedRowAffected 0 t jobID, t)
  end.

Definition Complete (t : Table) (now : Z) (workerID jobID : string) : option jq_error * Table :=
  update_owned t workerID jobID (fun j => j |> set_Status StatusSucceeded |> set_FinishedAt (Some now) |> set_LockedBy "" |> set_UpdatedAt now).

Definition Fail (t : Table) (now : Z) (workerID jobID lastError : string) : option jq_error * Table :=
  update_owned t workerID jobID (fun j => j |> set_Status StatusFailed |> set_FinishedAt (Some now) |> set_LastError lastError
    |> set_LockedBy "" |> set_UpdatedAt now).

Definition Reschedule (t : Table) (now : Z) (workerID jobID : string) (nextRunAt : Z) (lastError : string)
    : option jq_error * Table :=
  update_owned t workerID jobID (fun j =>
    let exhausted := j_MaxAttempts j <=? j_Attempts j in
    j |> set_Status (if exhausted then StatusFailed else StatusPending)
      |> set_RunAt (if exhausted then j_RunAt j else timestamptz nextRunAt)
      |> set_FinishedAt (if exhausted then Some now else None)
      |> set_LastError lastError |> set_LockedBy "" |> set_LockedAt None |> set_StartedAt None |> set_UpdatedAt now).

Definition Get (t : Table) (jobID : string) : result jq_error Job :=
  match t !! jobID with None => Err ErrNotFound | Some j => Ok j end.

(** The groups of [GROUP BY status]; a status without rows has none. *)
Definition Stats (t : Table) (st : Status) : option Z :=
  let n := length (filter (fun j => j_Status j = st) (range_map t).*2) in
  if (n =? 0)%nat then None else Some (Z.of_nat n).

Definition DeleteOlderThan (t : Table) (cutoff : Z) : Z * Table :=
  let t' := filter (fun '(_, j) => expired cutoff j = false) t in
  (Z.of_nat (size t) - Z.of_nat (size t'), t').

(** ** Interleavings *)

(** What is committed, and the transactions that are claiming jobs. *)
Record Sys := mkSys { db : Table; txs : gmap nat Tx }.

(** The rows locked by the transactions other than [tid]. *)
Definition locked (s : Sys) (tid : nat) : gset string :=
  foldr (fun '(tid', x) ids => match tx_picked x with
    | Some p => if (tid' =? tid)%nat then ids else {[j_ID p]} ∪ ids
    | None => ids end) ∅ (map_to_list (txs s)).

Inductive label := Dequeuing (tid : nat) | Committing (tid : nat) | Enqueuing | Reporting (workerID jobID : string) | Sweeping.

Inductive pstep : Sys -> label -> Sys -> Prop :=
| p_start s tid now w kinds x :
    txs s !! tid = None -> start (db s) now w kinds = Some x -> pstep s (Dequeuing tid) (mkSys (db s) (<[tid := x]> (txs s)))
| p_try s tid x :
    txs s !! tid = Some x -> pstep s (Dequeuing tid) (mkSys (db s) (<[tid := try_row (db s) (locked s tid) x]> (txs s)))
| p_commit s tid x r t :
    txs s !! tid = Some x -> done_scanning x = true -> commit (db s) x = (r, t) ->
    pstep s (Committing tid) (mkSys t (delete tid (txs s)))
| p_rollback s tid x :
    txs s !! tid = Some x -> pstep s (Dequeuing tid) (mkSys (db s) (delete tid (txs s)))
| p_enqueue s now generated kind payload opts r t :
    Enqueue (db s) now generated kind payload opts = (r, t) -> pstep s Enqueuing (mkSys t (txs s))
| p_complete s now w id r t :
    Complete (db s) now w id = (r, t) -> pstep s (Reporting w id) (mkSys t (txs s))
| p_fail s now w id err r t :
    Fail (db s) now w id err = (r, t) -> pstep s (Reporting w id) (mkSys t (txs s))
| p_reschedule s now w id next err r t :
    Reschedule (db s) now w id next err = (r, t) -> pstep s (Reporting w id) (mkSys t (txs s))
| p_sweep s cutoff n t :
    DeleteOlderThan (db s) cutoff = (n, t) -> pstep s Sweeping (mkSys t (txs s)).

Definition pg_start : Sys := mkSys ∅ ∅.
Definition some_step (s s' : Sys) : Prop := exists l, pstep s l s'.

(** A [Dequeue] that runs alone: it tries rows until it has one or none is left. *)
Fixpoint scan (n : nat) (t : Table) (x : Tx) : Tx :=
  match n with O => x | S n => scan n t (try_row t ∅ x) end.

Definition Dequeue (t : Table) (now : Z) (workerID : string) (kinds : list string) : option Job * Table :=
  match start t now workerID kinds with
  | None => (None, t)
  | Some x => commit t (scan (length (tx_rest x)) t x)
  end.
End postgres.

(** ** Array literals *)

(** Only ASCII: every rune is a byte. *)
Definition ascii_only (s : string) : Prop := Forall (fun c => byte_of c < 128) (String.list_ascii_of_string s).

Lemma low_byte_of c : low_byte (byte_of c) = c.
Proof. destruct c as [[] [] [] [] [] [] [] []]; reflexivity. Qed.

Lemma runes_ascii_fuel fuel s : ascii_only s -> (String.length s <= fuel)%nat ->
  runes_fuel fuel s = byte_of <$> String.list_ascii_of_string s.
Proof.
  unfold ascii_only. revert s. induction fuel as [|fuel IH]; intros [|c s] Hs Hl; try done; [cbn in Hl; lia|].
  cbn in Hs, Hl |- *. apply Forall_cons in Hs as [Hc Hs]. rewrite (proj2 (Z.ltb_lt _ _) Hc). f_equal. apply IH; [done|lia].
Qed.

Lemma array_chars_ascii s : ascii_only s -> array_chars (runes s) = quoted_chars s.
Proof.
  intros Hs. unfold runes. rewrite runes_ascii_fuel by done. clear Hs.
  induction s as [|c s IH]; [done|]. cbn [String.list_ascii_of_string fmap list_fmap array_chars quoted_chars].
  rewrite IH, low_byte_of.
  assert ((byte_of c =? byte_of dquote) || (byte_of c =? byte_of backslash) = Ascii.eqb c dquote || Ascii.eqb c backslash) as ->
    by (destruct c as [[] [] [] [] [] [] [] []]; reflexivity).
  done.
Qed.

Lemma array_elems_ascii first ss : Forall ascii_only ss ->
  array_elems first ss = match ss with [] => "" | _ => if first then "" else "," end +:+
    join "," ((fun s => chr dquote +:+ quoted_chars s +:+ chr dquote) <$> ss).
Proof.
  revert first. induction ss as [|s ss IH]; intros first H; [done|]. apply Forall_cons in H as [Hs H].
  cbn [array_elems]. rewrite IH, array_chars_ascii by done. f_equal.
  destruct ss as [|s' ss]; cbn [fmap list_fmap join String.concat]; [by rewrite !append_nil_r|].
  unfold join. cbn [String.concat]. rewrite !append_assoc. done.
Qed.

Lemma pgTextArray_ascii ss : Forall ascii_only ss -> pgTextArray ss = quoted_array ss.
Proof.
  intros H. destruct ss as [|s ss]; [done|]. unfold pgTextArray, quoted_array. by rewrite array_elems_ascii.
Qed.

(** ** Every interleaving *)

Section postgres_facts.
Context `{RO : RangeOrder, PG : PgTypes}.

Lemma elem_of_locked s tid k :
  k ∈ locked s tid <-> exists tid' x p, tid' <> tid /\ txs s !! tid' = Some x /\ tx_picked x = Some p /\ j_ID p = k.
Proof.
  unfold locked. transitivity (exists tid' x p, (tid', x) ∈ map_to_list (txs s) /\ tid' <> tid /\ tx_picked x = Some p /\ j_ID p = k).
  - induction (map_to_list (txs s)) as [|[t x] l IH]; cbn.
    { split; [by intros ?%elem_of_empty|intros (?&?&?&?%not_elem_of_nil&_); done]. }
    transitivity ((exists p, tx_picked x = Some p /\ t <> tid /\ j_ID p = k) \/
      exists tid' x p, (tid', x) ∈ l /\ tid' <> tid /\ tx_picked x = Some p /\ j_ID p = k).
    + rewrite <- IH. destruct (tx_picked x) as [p|]; [|naive_solver].
      destruct (Nat.eqb_spec t tid) as [->|Hne]; [naive_solver|]. rewrite elem_of_union, elem_of_singleton. naive_solver.
    + setoid_rewrite elem_of_cons. naive_solver.
  - setoid_rewrite elem_of_map_to_list. naive_solver.
Qed.

Record pinv (s : Sys) : Prop := {
  pi_row id j : db s !! id = Some j -> j_ID j = id /\ wf_job j;
  pi_held tid x p : txs s !! tid = Some x -> tx_picked x = Some p -> db s !! j_ID p = Some p /\ j_Status p = StatusPending;
  pi_once tid x p tid' x' p' : txs s !! tid = Some x -> tx_picked x = Some p -> txs s !! tid' = Some x' -> tx_picked x' = Some p' ->
    j_ID p = j_ID p' -> tid = tid'
}.

Lemma where_pending snapshot now kinds j : where_clause snapshot now kinds j = true -> j_Status j = StatusPending.
Proof. unfold where_clause. intros H. by reflect_bools. Qed.

(** Replacing the rows that nobody holds. *)
Lemma pinv_db s t : pinv s ->
  (forall id j, t !! id = Some j -> j_ID j = id /\ wf_job j) ->
  (forall id p, db s !! id = Some p -> j_Status p = StatusPending -> t !! id = Some p) -> pinv (mkSys t (txs s)).
Proof.
  intros Hs Ht Hk. split; cbn; [done| |by apply (pi_once s)].
  intros tid x p Hx Hp. destruct (pi_held s Hs _ _ _ Hx Hp) as [Hd Hst]. eauto.
Qed.

(** A transaction that holds no more than before, or a row nobody holds. *)
Lemma pinv_tx s tid x : pinv s ->
  (forall p, tx_picked x = Some p -> db s !! j_ID p = Some p /\ j_Status p = StatusPending /\
     forall tid' x' p', tid' <> tid -> txs s !! tid' = Some x' -> tx_picked x' = Some p' -> j_ID p' <> j_ID p) ->
  pinv (mkSys (db s) (<[tid := x]> (txs s))).
Proof.
  intros Hs Hx. split; cbn; [by apply (pi_row s)| |].
  - intros tid' x' p [[<- <-]|[? ?]]%lookup_insert_Some Hp; [by destruct (Hx _ Hp) as (? & ? & _)|by eapply (pi_held s)].
  - intros t1 x1 p1 t2 x2 p2 [[<- <-]|[Hn1 H1]]%lookup_insert_Some Hp1 [[<- <-]|[Hn2 H2]]%lookup_insert_Some Hp2 He; [done| | |].
    + destruct (Hx _ Hp1) as (_ & _ & Hno). exfalso. by eapply (Hno t2 x2 p2).
    + destruct (Hx _ Hp2) as (_ & _ & Hno). exfalso. by eapply (Hno t1 x1 p1).
    + by eapply (pi_once s).
Qed.

Lemma update_owned_rows t w id set r t' : update_owned t w id set = (r, t') ->
  t' = t \/ exists j, t !! id = Some j /\ j_LockedBy j = w /\ j_Status j = StatusRunning /\ t' = <[id := set j]> t.
Proof.
  unfold update_owned, owned_row. intros H. destruct (t !! id) as [j|]; [|by simplify_eq; left].
  destruct (_ && _) eqn:Hg; simplify_eq; [|by left]. right. reflect_bools. eauto.
Qed.

Lemma pinv_update s w id set r t : pinv s -> update_owned (db s) w id set = (r, t) ->
  (forall j, wf_job j -> j_Status j = StatusRunning -> wf_job (set j) /\ j_ID (set j) = j_ID j) -> pinv (mkSys t (txs s)).
Proof.
  intros Hs [->|(j & Hj & Hl & Hst & ->)]%update_owned_rows Hset; [by destruct s|].
  destruct (pi_row s Hs _ _ Hj) as [Hid Hwf]. destruct (Hset _ Hwf Hst) as [Hw Hi]. apply pinv_db; [done| |].
  - intros id' j' [[<- <-]|[? ?]]%lookup_insert_Some; [by rewrite Hi|by apply (pi_row s)].
  - intros id' p Hp Hpst. rewrite lookup_insert_ne; [done|]. intros <-. congruence.
Qed.

Lemma Complete_wf now j : wf_job j -> j_Status j = StatusRunning ->
  let j' := j |> set_Status StatusSucceeded |> set_FinishedAt (Some now) |> set_LockedBy "" |> set_UpdatedAt now in
  wf_job j' /\ j_ID j' = j_ID j.
Proof. destruct j. unfold wf_job. cbn. naive_solver. Qed.

Lemma Fail_wf now err j : wf_job j -> j_Status j = StatusRunning ->
  let j' := j |> set_Status StatusFailed |> set_FinishedAt (Some now) |> set_LastError err |> set_LockedBy "" |> set_UpdatedAt now in
  wf_job j' /\ j_ID j' = j_ID j.
Proof. destruct j. unfold wf_job. cbn. naive_solver. Qed.

Definition rescheduled (now next : Z) (err : string) (j : Job) : Job :=
  let exhausted := j_MaxAttempts j <=? j_Attempts j in
  j |> set_Status (if exhausted then StatusFailed else StatusPending)
    |> set_RunAt (if exhausted then j_RunAt j else timestamptz next)
    |> set_FinishedAt (if exhausted then Some now else None)
    |> set_LastError err |> set_LockedBy "" |> set_LockedAt None |> set_StartedAt None |> set_UpdatedAt now.

Lemma Reschedule_wf now next err j : wf_job j -> j_Status j = StatusRunning ->
  wf_job (rescheduled now next err j) /\ j_ID (rescheduled now next err j) = j_ID j.
Proof.
  destruct j as [i k p s a m]. unfold wf_job, rescheduled. cbn. intros (? & ? & ?) ->.
  destruct (Z.leb_spec m a); cbn; destruct_and!; split_and!; try done; try lia; by eexists.
Qed.

Lemma Enqueue_rows t now g kind payload opts r t' : Enqueue t now g kind payload opts = (r, t') ->
  t' = t \/ exists id j, t !! id = None /\ j_ID j = id /\ wf_job j /\ j_Status j = StatusPending /\ t' = <[id := j]> t.
Proof.
  unfold Enqueue, insert_row. intros H. crush_branches; auto; right.
  all: do 2 eexists; split; [eassumption|split; [|split; [|split; [|reflexivity]]]]; try done.
  all: unfold wf_job; cbn; reflect_bools; split_and!; try done; lia.
Qed.

Lemma DeleteOlderThan_rows t cutoff n t' id j : DeleteOlderThan t cutoff = (n, t') ->
  t' !! id = Some j <-> t !! id = Some j /\ expired cutoff j = false.
Proof. unfold DeleteOlderThan. intros [= _ <-]. apply map_lookup_filter_Some. Qed.

Lemma pending_not_expired cutoff j : j_Status j = StatusPending -> expired cutoff j = false.
Proof. unfold expired. by intros ->. Qed.

(** What a step of the scan may pick. *)
Lemma try_row_picked t ids x p : tx_picked (try_row t ids x) = Some p ->
  tx_picked x = Some p \/ exists j, t !! j_ID j = Some p /\ ~ (j_ID j ∈ ids) /\ j_Status p = StatusPending.
Proof.
  unfold try_row. destruct (tx_picked x) as [q|] eqn:Hq; [rewrite Hq; auto|].
  destruct (tx_rest x) as [|j rest]; [congruence|]. case_bool_decide as Hl; [done|].
  destruct (t !! j_ID j) as [cur|] eqn:Hc; [|done]. destruct (where_clause _ _ _ cur) eqn:Hw; [|done].
  cbn. intros [= ->]. right. exists j. eauto using where_pending.
Qed.

Lemma claim_wf now w p : wf_job p -> j_Status p = StatusPending -> wf_job (claim now w p) /\ j_ID (claim now w p) = j_ID p.
Proof. destruct p. unfold wf_job. cbn. intros ? ->. destruct_and!. split_and!; try done; try (by eexists); lia. Qed.

Lemma pinv_step s l s' : pinv s -> pstep s l s' -> pinv s'.
Proof.
  intros Hs Hstep. revert Hs. destruct Hstep as [s tid now w kinds x Hn Hx|s tid x Hx|s tid x r t Hx Hd Hc|s tid x Hx
    |s now g kind payload opts r t H|s now w id r t H|s now w id err r t H|s now w id next err r t H|s cutoff n t H]; intros Hs.
  - apply pinv_tx; [done|]. unfold start in Hx. destruct (array_in _); [|done]. by simplify_eq/=.
  - apply pinv_tx; [done|]. intros p [Hp|(j & Hj & Hl & Hst)]%try_row_picked.
    + destruct (pi_held s Hs _ _ _ Hx Hp) as [? ?]. split_and!; [done..|].
      intros tid' x' p' Hne Hx' Hp' He. apply Hne. by eapply (pi_once s Hs).
    + destruct (pi_row s Hs _ _ Hj) as [Hid _]. split_and!; [by rewrite Hid|done|].
      intros tid' x' p' Hne Hx' Hp' He. apply Hl, elem_of_locked. exists tid', x', p'. by rewrite He, Hid.
  - unfold commit in Hc. destruct (tx_picked x) as [p|] eqn:Hp; simplify_eq.
    + destruct (pi_held s Hs _ _ _ Hx Hp) as [Hdb Hst]. destruct (pi_row s Hs _ _ Hdb) as [_ Hwf].
      destruct (claim_wf (tx_now x) (tx_worker x) p Hwf Hst) as [Hw Hi]. split; cbn.
      * intros id j [[<- <-]|[? ?]]%lookup_insert_Some; [done|by apply (pi_row s)].
      * intros t x' p' [Hne Hx']%lookup_delete_Some Hp'. rewrite lookup_insert_ne; [by eapply (pi_held s)|].
        intros He. apply Hne. by eapply (pi_once s Hs).
      * intros t1 x1 p1 t2 x2 p2 [? ?]%lookup_delete_Some ? [? ?]%lookup_delete_Some. by eapply (pi_once s).
    + split; cbn; [by apply (pi_row s)| |].
      * intros t x' p' [? ?]%lookup_delete_Some. by eapply (pi_held s).
      * intros t1 x1 p1 t2 x2 p2 [? ?]%lookup_delete_Some ? [? ?]%lookup_delete_Some. by eapply (pi_once s).
  - split; cbn; [by apply (pi_row s)| |].
    + intros t x' p' [? ?]%lookup_delete_Some. by eapply (pi_held s).
    + intros t1 x1 p1 t2 x2 p2 [? ?]%lookup_delete_Some ? [? ?]%lookup_delete_Some. by eapply (pi_once s).
  - apply Enqueue_rows in H as [->|(id & j & Hn & Hid & Hwf & Hst & ->)]; [by destruct s|]. apply pinv_db; [done| |].
    + intros id' j' [[<- <-]|[? ?]]%lookup_insert_Some; [done|by apply (pi_row s)].
    + intros id' p Hp _. rewrite lookup_insert_ne; [done|]. congruence.
  - eapply pinv_update; [done..|]. apply Complete_wf.
  - eapply pinv_update; [done..|]. apply Fail_wf.
  - eapply pinv_update; [done..|]. apply Reschedule_wf.
  - apply pinv_db; [done| |].
    + intros id j Hj. rewrite (DeleteOlderThan_rows _ _ _ _ _ _ H) in Hj. destruct Hj. by apply (pi_row s).
    + intros id p Hp Hst. rewrite (DeleteOlderThan_rows _ _ _ _ _ _ H). auto using pending_not_expired.
Qed.

Lemma pinv_reachable s : reachable (eq pg_start) some_step s -> pinv s.
Proof.
  apply reachable_invariant.
  - intros ? <-. split; cbn; intros *; by rewrite ?lookup_empty.
  - intros s1 s2 Hs [l Hl]. by eapply pinv_step.
Qed.

(** A commit that claims the job. *)
Definition claims (s : Sys) (l : label) (id : string) : bool :=
  match l with
  | Committing tid => match txs s !! tid with Some x => match tx_picked x with Some p => j_ID p =s id | None => false end | None => false end
  | _ => false
  end.

(** A run during which the row of the job is there, and how often it claims the job. *)
Inductive keeping (id : string) : Sys -> nat -> Sys -> Prop :=
| k_nil s : keeping id s 0 s
| k_step s l s1 n s2 : pstep s l s1 -> is_Some (db s1 !! id) -> keeping id s1 n s2 ->
    keeping id s (if claims s l id then S n else n) s2.

(** A step keeps the budget of a job and counts its claims. *)
Definition counted (j j' : Job) (claimed : bool) : Prop :=
  j_MaxAttempts j' = j_MaxAttempts j /\ j_Attempts j' = j_Attempts j + Z.b2z claimed.

Lemma counted_same j : counted j j false.
Proof. split; [done|cbn; lia]. Qed.

Lemma counted_update t w wid set r t' id j j' : update_owned t w wid set = (r, t') -> (forall j, counted j (set j) false) ->
  t !! id = Some j -> t' !! id = Some j' -> counted j j' false.
Proof.
  intros [->|(j0 & Hj0 & _ & _ & ->)]%update_owned_rows Hset Hj; [rewrite Hj; intros [= <-]; apply counted_same|].
  intros [[<- <-]|[_ Hj']]%lookup_insert_Some; simplify_eq; [apply Hset|apply counted_same].
Qed.

Lemma counted_step s l s' id j j' : pinv s -> pstep s l s' -> db s !! id = Some j -> db s' !! id = Some j' -> counted j j' (claims s l id).
Proof.
  intros Hs Hstep Hj. destruct Hstep as [s tid now w kinds x Hn Hx|s tid x Hx|s tid x r t Hx Hd Hc|s tid x Hx
    |s now g kind payload opts r t H|s now w wid r t H|s now w wid err r t H|s now w wid next err r t H|s cutoff n t H]; cbn [db claims].
  1,2,4: rewrite Hj; intros [= <-]; apply counted_same.
  - rewrite Hx. unfold commit in Hc. destruct (tx_picked x) as [p|] eqn:Hp; simplify_eq; [|rewrite Hj; intros [= <-]; apply counted_same].
    intros [[<- <-]|[Hne Hj']]%lookup_insert_Some.
    + destruct (pi_held s Hs _ _ _ Hx Hp) as [Hdb _]. simplify_eq. rewrite String.eqb_refl. by destruct j.
    + rewrite (proj2 (String.eqb_neq _ _) Hne). simplify_eq. apply counted_same.
  - apply Enqueue_rows in H as [->|(nid & j0 & Hn & _ & _ & _ & ->)]; [rewrite Hj; intros [= <-]; apply counted_same|].
    rewrite lookup_insert_ne by congruence. rewrite Hj. intros [= <-]. apply counted_same.
  - eapply counted_update; [exact H| |done]. intros []. split; cbn; [done|lia].
  - eapply counted_update; [exact H| |done]. intros []. split; cbn; [done|lia].
  - eapply counted_update; [exact H| |done]. intros []. split; cbn; [done|lia].
  - rewrite (DeleteOlderThan_rows _ _ _ _ _ _ H). intros [Hj' _]. simplify_eq. apply counted_same.
Qed.

Lemma counted_run id s n s' : keeping id s n s' -> pinv s -> forall j, db s !! id = Some j ->
  exists j', db s' !! id = Some j' /\ j_MaxAttempts j' = j_MaxAttempts j /\ j_Attempts j' = j_Attempts j + Z.of_nat n /\
    j_Attempts j' <= j_MaxAttempts j'.
Proof.
  induction 1 as [s|s l s1 n s2 Hstep [j1 Hj1] Hrun IH]; intros Hs j Hj.
  - destruct (pi_row s Hs _ _ Hj) as [_ (_ & ? & _)]. exists j. split_and!; [done|done|cbn; lia|lia].
  - destruct (counted_step _ _ _ _ _ _ Hs Hstep Hj Hj1) as [Hm Ha].
    destruct (IH (pinv_step _ _ _ Hs Hstep) _ Hj1) as (j' & ? & ? & ? & ?). exists j'. split_and!; [done|congruence| |done].
    destruct (claims s l id); cbn in Ha; lia.
Qed.

(** C34. Under any interleaving of claims, reports, enqueues and sweeps on the shared
    table, every row is consistent with its status; a claim takes a row that is stored
    as pending with attempts left and makes it its worker's; a running job stays
    exactly as it is until the worker that holds it reports on it; and as long as its row
    is there, a job's attempts are its claims, which its budget bounds.  So no job is run
    by two workers at once, or more often than its budget. *)
Theorem pg_jobs_have_one_worker s l s' :
  reachable (eq pg_start) some_step s -> pstep s l s' ->
  (forall id j, db s !! id = Some j -> j_ID j = id /\ wf_job j) /\
  (forall tid x p, l = Committing tid -> txs s !! tid = Some x -> tx_picked x = Some p ->
     db s !! j_ID p = Some p /\ j_Status p = StatusPending /\ j_Attempts p < j_MaxAttempts p /\
     db s' !! j_ID p = Some (claim (tx_now x) (tx_worker x) p)) /\
  (forall id j, db s !! id = Some j -> j_Status j = StatusRunning ->
     db s' !! id = Some j \/ l = Reporting (j_LockedBy j) id) /\
  (forall id j n s2, db s !! id = Some j -> keeping id s n s2 ->
     exists j2, db s2 !! id = Some j2 /\ j_MaxAttempts j2 = j_MaxAttempts j /\ j_Attempts j2 = j_Attempts j + Z.of_nat n /\
       j_Attempts j2 <= j_MaxAttempts j2).
Proof.
  intros Hr Hstep. apply pinv_reachable in Hr as Hs. split; [apply (pi_row s Hs)|]. split; [|split].
  - intros tid x p -> Hx Hp. destruct (pi_held s Hs _ _ _ Hx Hp) as [Hdb Hst]. destruct (pi_row s Hs _ _ Hdb) as [_ Hwf].
    split_and!; [done|done|unfold wf_job in Hwf; rewrite Hst in Hwf; tauto|].
    inversion Hstep as [| |? ? x' r t Hx' Hd Hc| | | | | |]; subst. simplify_eq.
    unfold commit in Hc. rewrite Hp in Hc. simplify_eq. cbn. by rewrite lookup_insert_eq.
  - intros id j Hj Hst. destruct Hstep as [| |s tid x r t Hx Hd Hc| |s now g kind payload opts r t H|s now w jid r t H
      |s now w jid err r t H|s now w jid next err r t H|s cutoff n t H]; cbn; auto.
    + unfold commit in Hc. destruct (tx_picked x) as [p|] eqn:Hp; simplify_eq; [|auto].
      destruct (pi_held s Hs _ _ _ Hx Hp) as [Hdb Hpst]. left. rewrite lookup_insert_ne; [done|]. congruence.
    + apply Enqueue_rows in H as [->|(nid & j' & Hn & _ & _ & _ & ->)]; [auto|]. left. rewrite lookup_insert_ne; [done|congruence].
    + apply update_owned_rows in H as [->|(j' & Hj' & <- & _ & ->)]; [auto|].
      destruct (decide (id = jid)) as [->|]; [right; by simplify_eq|left; by rewrite lookup_insert_ne].
    + apply update_owned_rows in H as [->|(j' & Hj' & <- & _ & ->)]; [auto|].
      destruct (decide (id = jid)) as [->|]; [right; by simplify_eq|left; by rewrite lookup_insert_ne].
    + apply update_owned_rows in H as [->|(j' & Hj' & <- & _ & ->)]; [auto|].
      destruct (decide (id = jid)) as [->|]; [right; by simplify_eq|left; by rewrite lookup_insert_ne].
    + left. rewrite (DeleteOlderThan_rows _ _ _ _ _ _ H). split; [done|]. unfold expired. by rewrite Hst.
  - intros id j n s2 Hj Hrun. by eapply counted_run.
Qed.

(** ** A claim that runs alone *)

(** The rows a [Dequeue] may claim. *)
Definition pg_eligible (t : Table) (now : Z) (kinds : list string) (j : Job) : Prop :=
  (exists id, t !! id = Some j) /\ j_Status j = StatusPending /\ j_RunAt j <= now /\
  (kinds = [] \/ j_Kind j ∈ kinds) /\
  (forall id' j', t !! id' = Some j' -> ~ (runs_with_key j' (j_ConcurrencyKey j))).

Lemma pg_eligible_where t now kinds j :
  pg_eligible t now kinds j <-> j ∈ filter (fun j => where_clause t now kinds j = true) (range_map t).*2.
Proof.
  rewrite list_elem_of_filter, elem_of_range_snd. unfold pg_eligible, where_clause, runs_with_key.
  rewrite !andb_true_iff, !orb_true_iff, negb_true_iff, !bool_decide_eq_true, Z.leb_le, String.eqb_eq.
  assert (existsb (fun j2 => (j_ConcurrencyKey j2 =s j_ConcurrencyKey j) && bool_decide (j_Status j2 = StatusRunning)) (range_map t).*2 = false
    <-> forall id' j', t !! id' = Some j' -> ~ (j_Status j' = StatusRunning /\ j_ConcurrencyKey j' = j_ConcurrencyKey j)) as ->.
  { rewrite <- not_true_iff_false, existsb_exists. setoid_rewrite andb_true_iff. setoid_rewrite String.eqb_eq.
    setoid_rewrite bool_decide_eq_true. setoid_rewrite <- list_elem_of_In. setoid_rewrite elem_of_range_snd. naive_solver. }
  split.
  - intros (Hin & Hst & Hra & Hk & Hex). split_and!; try done.
    destruct (decide (j_ConcurrencyKey j = "")) as [|Hne]; [by left|right]. intros id' j' Hj' [? ?]. by eapply Hex.
  - intros ((((Hst & Hra) & Hk) & Hex) & Hin). split_and!; try done. intros id' j' Hj' (Hrun & Hke & Hne).
    destruct Hex as [He|He]; [done|]. by eapply He.
Qed.

Lemma scan_picked n t x p : tx_picked x = Some p -> scan n t x = x.
Proof.
  intros Hp. induction n as [|n IH]; [done|]. cbn [scan]. assert (try_row t ∅ x = x) as -> by (unfold try_row; by rewrite Hp). done.
Qed.

Lemma start_spec t now w kinds x : start t now w kinds = Some x ->
  exists kinds', array_in (pgTextArray kinds) = Some kinds' /\ x = mkTx w now t kinds'
    (sort_slice (fun a b => j_RunAt a <? j_RunAt b) (filter (fun j => where_clause t now kinds' j = true) (range_map t).*2)) None.
Proof. unfold start. destruct (array_in _) as [k|]; [|done]. intros [= <-]. eauto. Qed.

(** The scan of an undisturbed claim takes the first row it tries. *)
Lemma scan_alone t now w kinds x : (forall id j, t !! id = Some j -> j_ID j = id) -> start t now w kinds = Some x ->
  scan (length (tx_rest x)) t x =
  match tx_rest x with [] => x | p :: rest => mkTx (tx_worker x) (tx_now x) t (tx_kinds x) rest (Some p) end.
Proof.
  intros Hid (kinds' & _ & ->)%start_spec. cbn [tx_rest tx_worker tx_now tx_kinds].
  destruct (sort_slice _ _) as [|p rest] eqn:Hs; [done|].
  assert (p ∈ filter (fun j => where_clause t now kinds' j = true) (range_map t).*2) as Hp
    by (rewrite <- (elem_of_sort_slice (fun a b => j_RunAt a <? j_RunAt b)), Hs; left).
  apply list_elem_of_filter in Hp as [Hw [id Hp]%elem_of_range_snd]. pose proof (Hid _ _ Hp) as <-.
  cbn [length scan].
  assert (try_row t ∅ (mkTx w now t kinds' (p :: rest) None) = mkTx w now t kinds' rest (Some p)) as ->
    by (unfold try_row; cbn [tx_picked tx_rest tx_snapshot tx_now tx_kinds]; rewrite bool_decide_eq_false_2, Hp, Hw by set_solver; done).
  by apply (scan_picked _ _ _ p).
Qed.

Lemma pg_Dequeue_inv t now w kinds kinds' r t' : (forall id j, t !! id = Some j -> j_ID j = id) ->
  array_in (pgTextArray kinds) = Some kinds' -> Dequeue t now w kinds = (r, t') ->
  match r with
  | None => t' = t /\ forall j, ~ pg_eligible t now kinds' j
  | Some j => exists p, pg_eligible t now kinds' p /\ j = claim now w p /\ t' = <[j_ID p := j]> t /\
      forall q, pg_eligible t now kinds' q -> j_RunAt p <= j_RunAt q
  end.
Proof.
  intros Hid Hk H. unfold Dequeue in H. destruct (start t now w kinds) as [x|] eqn:Hx; [|unfold start in Hx; by rewrite Hk in Hx].
  rewrite (scan_alone _ _ _ _ _ Hid Hx) in H. apply start_spec in Hx as (k & Hk' & ->). simplify_eq. cbn [tx_rest tx_worker tx_now tx_kinds] in H.
  destruct (sort_slice _ _) as [|p rest] eqn:Hs; unfold commit in H; cbn [tx_picked tx_worker tx_now] in H; simplify_eq.
  - split; [done|]. intros j Hj%pg_eligible_where. apply sort_slice_nil_inv in Hs. rewrite Hs in Hj. by apply not_elem_of_nil in Hj.
  - apply (sort_slice_head_min j_RunAt) in Hs as [Hin Hmin]. exists p. split_and!; try done; [by apply pg_eligible_where|].
    intros q Hq%pg_eligible_where. by apply Hmin.
Qed.

(** The same, as steps of the shared table. *)
Lemma locked_own tid t x : locked (mkSys t {[tid := x]}) tid = ∅.
Proof.
  apply set_eq. intros k. rewrite elem_of_locked. split; [|by intros ?%elem_of_empty].
  cbn. intros (tid' & x' & p & Hne & [? _]%lookup_singleton_Some & _). congruence.
Qed.

Lemma scan_steps n t x : rtc some_step (mkSys t {[0%nat := x]}) (mkSys t {[0%nat := scan n t x]}).
Proof.
  revert x. induction n as [|n IH]; intros x; [done|]. cbn [scan]. eapply rtc_l; [|apply IH]. exists (Dequeuing 0).
  pose proof (p_try (mkSys t {[0%nat := x]}) 0 x) as H. rewrite locked_own in H. cbn [db txs] in H.
  rewrite insert_singleton_eq in H. apply H, lookup_singleton_eq.
Qed.

Lemma Dequeue_steps t now w kinds r t' : (forall id j, t !! id = Some j -> j_ID j = id) ->
  Dequeue t now w kinds = (r, t') -> rtc some_step (mkSys t ∅) (mkSys t' ∅).
Proof.
  intros Hid H. unfold Dequeue in H. destruct (start t now w kinds) as [x|] eqn:Hx; [|by simplify_eq].
  eapply rtc_l; [exists (Dequeuing 0); by apply (p_start (mkSys t ∅) 0 now w kinds x)|]. cbn [db txs].
  rewrite insert_empty. etransitivity; [apply (scan_steps (length (tx_rest x)))|].
  eapply rtc_l; [exists (Committing 0)|].
  - eapply p_commit; [apply lookup_singleton_eq| |exact H]. rewrite (scan_alone _ _ _ _ _ Hid Hx).
    destruct (tx_rest x) as [|p rest] eqn:Hr; [|done]. unfold done_scanning. rewrite Hr. by destruct (tx_picked x).
  - cbn [txs]. by rewrite delete_singleton_eq.
Qed.

(** ** One claim at a time keeps the keys apart *)

Definition table_inv (t : Table) : Prop := queue_inv (mkMemory t 0).

Lemma table_inv_settle t id j : table_inv t -> j_ID j = id -> wf_job j -> j_Status j <> StatusRunning -> table_inv (<[id := j]> t).
Proof. apply (queue_inv_settle (mkMemory t 0)). Qed.

Lemma table_inv_claim t now kinds p w : table_inv t -> pg_eligible t now kinds p -> table_inv (<[j_ID p := claim now w p]> t).
Proof.
  intros Hi ((id & Hp) & Hst & _ & _ & Hex). pose proof (inv_id _ Hi _ _ Hp) as <-.
  destruct (claim_wf now w p (inv_wf _ Hi _ _ Hp) Hst) as [Hw He].
  apply (queue_inv_insert (mkMemory t 0)); [done|done|done|]. cbn. intros k id2 j2 (_ & Hk & Hne) Hj2 (Hr & Hk2 & _).
  exfalso. apply (Hex _ _ Hj2). split; [done|]. destruct p; cbn in *. by subst.
Qed.

Lemma update_owned_ok t w id j set : t !! id = Some j -> j_LockedBy j = w -> j_Status j = StatusRunning ->
  update_owned t w id set = (None, <[id := set j]> t).
Proof. unfold update_owned, owned_row. intros -> -> ->. by rewrite String.eqb_refl, bool_decide_eq_true_2. Qed.

(** A [Dequeue] that meets no other is the in-memory store's: it claims a row exactly
    when one is eligible (pending, due, of a kind asked for, its key not running), an
    earliest one, as one run of the interleaved system; and the table then still has at
    most one running job per concurrency key. *)
Theorem Dequeue_alone_refines t now w kinds r t' :
  table_inv t -> Forall ascii_only kinds -> Dequeue t now w kinds = (r, t') ->
  rtc some_step (mkSys t ∅) (mkSys t' ∅) /\ table_inv t' /\
  match r with
  | None => t' = t /\ forall j, ~ pg_eligible t now kinds j
  | Some j => exists p, pg_eligible t now kinds p /\ (forall q, pg_eligible t now kinds q -> j_RunAt p <= j_RunAt q) /\
      j = claim now w p /\ t' = <[j_ID p := j]> t
  end.
Proof.
  intros Hi Hk H. assert (forall id j, t !! id = Some j -> j_ID j = id) as Hid by apply (inv_id _ Hi).
  split; [by eapply Dequeue_steps|].
  pose proof (pg_Dequeue_inv t now w kinds kinds r t' Hid) as HD. rewrite pgTextArray_ascii, array_in_quoted in HD by done.
  specialize (HD eq_refl H). destruct r as [j|]; [|by destruct HD as [-> ?]].
  destruct HD as (p & He & -> & -> & Hmin). split; [by eapply table_inv_claim|eauto 10].
Qed.

(** ** The interface of the worker pool

    A server's view: the rows, and the counter of its generated names. *)

Record Server := mkServer { sv_rows : Table; sv_idCounter : Z }.

Definition server_enqueue (s : Server) (now : Z) (kind : string) (payload : option string) (opts : EnqueueOptions)
    : result jq_error Job * Server :=
  let n := if (kind =s "") || negb (o_ID opts =s "") then sv_idCounter s else sv_idCounter s + 1 in
  let '(r, t) := Enqueue (sv_rows s) now (formatID now n) kind payload opts in (r, mkServer t n).

Definition with_rows {A} (s : Server) (r : A * Table) : A * Server := (r.1, mkServer r.2 (sv_idCounter s)).

#[export] Instance Server_JobStore : JobStore Server := {
  js_enqueue := server_enqueue;
  js_dequeue s now w kinds := with_rows s (Dequeue (sv_rows s) now w kinds);
  js_complete s now w id := with_rows s (Complete (sv_rows s) now w id);
  js_fail s now w id err := with_rows s (Fail (sv_rows s) now w id err);
  js_reschedule s now w id next err := with_rows s (Reschedule (sv_rows s) now w id next err);
  js_get s id := Get (sv_rows s) id;
  js_time := timestamptz
}.

Lemma pg_Get_Ok t id j : Get t id = Ok j <-> t !! id = Some j.
Proof. unfold Get. destruct (t !! id); naive_solver. Qed.

#[export] Instance Server_JobStoreLaws : JobStoreLaws Server (fun s => table_inv (sv_rows s)).
Proof.
  split; cbn [js_dequeue js_complete js_reschedule js_get Server_JobStore].
  - intros [t n] now w ks j s' Hi H. unfold with_rows in H. cbn [sv_rows sv_idCounter] in *.
    destruct (Dequeue t now w ks) as [r t'] eqn:HD. cbn in H. simplify_eq. cbn [sv_rows].
    destruct (array_in (pgTextArray ks)) as [ks'|] eqn:Hks.
    + apply (pg_Dequeue_inv t now w ks ks') in HD; [|apply (inv_id _ Hi)|done]. destruct HD as (p & He & -> & -> & _).
      split; [by eapply table_inv_claim|]. destruct He as ((id & Hp) & Hst & _).
      pose proof (inv_wf _ Hi _ _ Hp) as Hwf. pose proof (inv_id _ Hi _ _ Hp) as <-.
      destruct p as [i k p st]. unfold wf_job in Hwf. cbn in *. subst. rewrite pg_Get_Ok, lookup_insert_eq. split_and!; try done; lia.
    + unfold Dequeue, start in HD. rewrite Hks in HD. done.
  - intros [t n] now w j Hi Hj%pg_Get_Ok Hst Hl. cbn [sv_rows] in *. unfold Complete, with_rows. cbn [sv_rows sv_idCounter].
    rewrite (update_owned_ok _ _ _ _ _ Hj Hl Hst). do 2 eexists. split; [reflexivity|]. cbn [sv_rows fst snd].
    destruct (Complete_wf now j (inv_wf _ Hi _ _ Hj) Hst) as [Hw He]. split; [by apply table_inv_settle; try done; destruct j|].
    rewrite pg_Get_Ok, lookup_insert_eq. by destruct j.
  - intros [t n] now w j next err Hi Hj%pg_Get_Ok Hst Hl. cbn [sv_rows] in *. unfold Reschedule, with_rows. cbn [sv_rows sv_idCounter].
    rewrite (update_owned_ok _ _ _ _ _ Hj Hl Hst). do 2 eexists. split; [reflexivity|]. cbn [sv_rows fst snd].
    destruct (Reschedule_wf now next err j (inv_wf _ Hi _ _ Hj) Hst) as [Hw He]. unfold rescheduled in Hw, He.
    split; [apply table_inv_settle; try done; destruct j; cbn; by destruct (_ <=? _)|].
    rewrite pg_Get_Ok, lookup_insert_eq. split; [done|]. destruct j as [i k p st a m]. cbn in *.
    destruct (Z.leb_spec m a), (Z.ltb_spec a m); try lia; done.
Qed.

(** The table holds this job only. *)
Definition server_only (s : Server) (j : Job) : Prop := sv_rows s = {[j_ID j := j]}.

#[export] Instance Server_SoleJobLaws : SoleJobLaws Server server_only (Forall ascii_only).
Proof.
  split; cbn [js_dequeue js_reschedule Server_JobStore]; unfold server_only.
  - intros [t n] j now w kinds Honly Hst Hra Hne Hk Hks. cbn [sv_rows] in *. unfold with_rows. cbn [sv_rows sv_idCounter].
    assert (forall id j', t !! id = Some j' -> j_ID j' = id) as Hid by (rewrite Honly; by intros id j' [<- <-]%lookup_singleton_Some).
    destruct (Dequeue t now w kinds) as [r t'] eqn:E. cbn [fst snd sv_rows].
    apply (pg_Dequeue_inv t now w kinds kinds) in E; [|done|by rewrite pgTextArray_ascii, array_in_quoted]. destruct r as [j'|].
    + destruct E as (p & ((id & Hp) & _) & -> & -> & _). rewrite Honly in Hp. apply lookup_singleton_Some in Hp as [_ <-].
      eexists. split; [done|]. cbn. rewrite Honly, insert_singleton_eq. by destruct j.
    + destruct (proj2 E j). split_and!; [exists (j_ID j); rewrite Honly; apply lookup_singleton_eq|done|done|by right|].
      intros id' j' Hj' [Hrun _]. rewrite Honly in Hj'. apply lookup_singleton_Some in Hj' as [_ <-]. congruence.
  - intros [t n] j now w kinds Honly Hst. cbn [sv_rows] in *. unfold with_rows. cbn [sv_rows sv_idCounter].
    assert (forall id j', t !! id = Some j' -> j_ID j' = id) as Hid by (rewrite Honly; by intros id j' [<- <-]%lookup_singleton_Some).
    destruct (Dequeue t now w kinds) as [r t'] eqn:E. cbn [fst snd].
    destruct (array_in (pgTextArray kinds)) as [ks|] eqn:Hks; [|unfold Dequeue, start in E; rewrite Hks in E; by injection E as <- <-].
    apply (pg_Dequeue_inv t now w kinds ks) in E; [|done..]. destruct r as [j'|]; [|by destruct E as [-> _]].
    destruct E as (p & ((id & Hp) & Hpst & _) & _). rewrite Honly in Hp. apply lookup_singleton_Some in Hp as [_ <-]. done.
  - intros [t n] j now w next err Honly Hwf Hst Hlk. cbn [sv_rows] in *. unfold Reschedule, with_rows. cbn [sv_rows sv_idCounter].
    assert (t !! j_ID j = Some j) as Hj by (rewrite Honly; apply lookup_singleton_eq).
    rewrite (update_owned_ok _ _ _ _ _ Hj Hlk Hst). destruct (Reschedule_wf now next err j Hwf Hst) as [Hw Hi].
    exists (mkServer (<[j_ID j := rescheduled now next err j]> t) n), (rescheduled now next err j). split; [done|]. cbn [sv_rows].
    split; [by rewrite Honly, insert_singleton_eq, Hi|]. split; [done|]. split; [done|]. clear. destruct j as [i k p st a m]. cbn.
    destruct (Z.leb_spec m a); done.
Qed.

#[export] Instance Server_EnqueueLaws : EnqueueLaws Server (fun p p' => jsonb p = Some p').
Proof.
  split. intros [t n] now kind payload opts r s' HE. cbn [js_enqueue js_get Server_JobStore] in *. unfold server_enqueue in HE.
  cbn [sv_rows sv_idCounter] in *. destruct (Enqueue _ _ _ _ _ _) as [r1 t1] eqn:HQ. simplify_eq. cbn [sv_rows].
  unfold Enqueue, insert_row in HQ. crush_branches; try (by split).
  all: split; [intros id' j ?%pg_Get_Ok; apply pg_Get_Ok; rewrite lookup_insert_ne; [done|congruence]|].
  all: intros ? [= <-]; do 2 eexists; rewrite pg_Get_Ok, lookup_insert_eq; done.
Qed.
End postgres_facts.

(** A worker pool on the shared table, one claim at a time: a claimed job is settled
    as its handler's outcome says.  A success completes it; an error puts it back with
    the backoff delay (at the precision of the table) while attempts are left, and fails
    it on the last one. *)
Theorem pg_worker_settles `{RO : RangeOrder, PG : PgTypes} quote reg backoff (s : Server) w kinds t job s' :
  table_inv (sv_rows s) -> run_tick quote reg backoff s w kinds t = (Some job, s') ->
  table_inv (sv_rows s') /\ 1 <= j_Attempts job <= j_MaxAttempts job /\
  exists j', Get (sv_rows s') (j_ID job) = Ok j' /\ j_Attempts j' = j_Attempts job /\
    match handler_error quote reg job with
    | None => j_Status j' = StatusSucceeded
    | Some err => j_LastError j' = err /\
        (if j_Attempts job <? j_MaxAttempts job
         then j_Status j' = StatusPending /\ j_RunAt j' = timestamptz (t_report t + backoff (j_Attempts job) (t_random t))
         else j_Status j' = StatusFailed)
    end.
Proof. intros Hi H. exact (run_tick_settles quote reg backoff (fun s => table_inv (sv_rows s)) s w kinds t job s' Hi H). Qed.

(** ** A concrete server *)

(** The server's reading of array literals, for quoted elements. *)
Fixpoint demo_array (state : nat) (cur s : string) : option (list string) :=
  match s with
  | EmptyString => None
  | String c s =>
      match state with
      | O => if Ascii.eqb c dquote then demo_array 1 "" s else if Ascii.eqb c "}" && (s =s "") then Some [] else None
      | 1%nat => if Ascii.eqb c dquote then cons cur <$> demo_array 3 "" s
                 else if Ascii.eqb c backslash then demo_array 2 cur s else demo_array 1 (cur +:+ chr c) s
      | 2%nat => demo_array 1 (cur +:+ chr c) s
      | _ => if Ascii.eqb c "," then demo_array 0 "" s else if Ascii.eqb c "}" && (s =s "") then Some [] else None
      end
  end.
Definition demo_array_in (s : string) : option (list string) :=
  match s with String c s => if Ascii.eqb c "{" then demo_array 0 "" s else None | EmptyString => None end.

Lemma demo_array_chars e : forall cur rest,
  demo_array 1 cur (quoted_chars e +:+ chr dquote +:+ rest) = cons (cur +:+ e) <$> demo_array 3 "" rest.
Proof.
  induction e as [|c e IH]; intros cur rest; [by rewrite append_nil_r|]. cbn [quoted_chars].
  destruct (Ascii.eqb c dquote || Ascii.eqb c backslash) eqn:Hc.
  - change (String backslash (String c (quoted_chars e)) +:+ chr dquote +:+ rest)
      with (String backslash (String c (quoted_chars e +:+ chr dquote +:+ rest))).
    change (demo_array 1 (cur +:+ chr c) (quoted_chars e +:+ chr dquote +:+ rest) = cons (cur +:+ String c e) <$> demo_array 3 "" rest).
    rewrite IH. by rewrite append_assoc.
  - change (String c (quoted_chars e) +:+ chr dquote +:+ rest) with (String c (quoted_chars e +:+ chr dquote +:+ rest)).
    apply orb_false_iff in Hc as [H1 H2]. cbn [demo_array]. rewrite H1, H2, IH. by rewrite append_assoc.
Qed.

Lemma demo_array_list es e :
  demo_array 0 "" (join "," ((fun s => chr dquote +:+ quoted_chars s +:+ chr dquote) <$> e :: es) +:+ "}") = Some (e :: es).
Proof.
  revert e. induction es as [|e' es IH]; intros e.
  - unfold join. cbn [fmap list_fmap String.concat]. rewrite !append_assoc.
    change (demo_array 1 "" (quoted_chars e +:+ chr dquote +:+ "}") = Some [e]). by rewrite demo_array_chars.
  - specialize (IH e'). unfold join in *. cbn [fmap list_fmap] in *.
    assert (forall x y l, String.concat "," (x :: y :: l) = x +:+ "," +:+ String.concat "," (y :: l)) as -> by done.
    set (tail := String.concat "," _) in *. rewrite !append_assoc.
    change (demo_array 1 "" (quoted_chars e +:+ chr dquote +:+ ("," +:+ tail +:+ "}")) = Some (e :: e' :: es)).
    rewrite demo_array_chars. change (cons e <$> demo_array 0 "" (tail +:+ "}") = Some (e :: e' :: es)). by rewrite IH.
Qed.

Lemma demo_array_in_quoted ss : demo_array_in (quoted_array ss) = Some ss.
Proof. destruct ss as [|s ss]; [done|]. apply (demo_array_list ss s). Qed.

(** It keeps microseconds. *)
Definition demo_pg : PgTypes := {|
  array_in := demo_array_in; jsonb s := Some s; timestamptz t := t / 1000 * 1000; array_in_quoted := demo_array_in_quoted
|}.

(** The steps of the interleaved system as functions, to build runs. *)
Section demo.
Local Existing Instance range_default.
Local Existing Instance demo_pg.

Definition demo_enqueue (id : string) (s : Sys) : Sys :=
  mkSys (Enqueue (db s) 5 "" "pipeline.run" None (mkOptions zero_time 3 "pipeline-1" id)).2 (txs s).
Definition demo_start (tid : nat) (w : string) (s : Sys) : Sys :=
  match start (db s) 9 w ["pipeline.run"] with Some x => mkSys (db s) (<[tid := x]> (txs s)) | None => s end.
Definition demo_try (tid : nat) (s : Sys) : Sys :=
  match txs s !! tid with
  | Some x => mkSys (db s) (<[tid := try_row (db s) (locked s tid) x]> (txs s))
  | None => s
  end.
Definition demo_commit (tid : nat) (s : Sys) : Sys :=
  match txs s !! tid with Some x => mkSys (commit (db s) x).2 (delete tid (txs s)) | None => s end.

(** Two runs of one pipeline are queued, and two workers claim at the same time. *)
Definition demo_claiming : Sys :=
  demo_try 2 (demo_try 2 (demo_try 1 (demo_start 2 "w2" (demo_start 1 "w1" (demo_enqueue "b" (demo_enqueue "a" pg_start)))))).

Lemma demo_reach_enqueue s id : reachable (eq pg_start) some_step s -> reachable (eq pg_start) some_step (demo_enqueue id s).
Proof. intros H. eapply reach_step; [exact H|]. exists Enqueuing. eapply p_enqueue, surjective_pairing. Defined.

Lemma demo_reach_start s tid w : txs s !! tid = None ->
  reachable (eq pg_start) some_step s -> reachable (eq pg_start) some_step (demo_start tid w s).
Proof.
  intros Hn H. unfold demo_start. destruct (start _ _ _ _) eqn:Hs; [|done].
  eapply reach_step; [exact H|]. exists (Dequeuing tid). by eapply p_start.
Defined.

Lemma demo_reach_try s tid : reachable (eq pg_start) some_step s -> reachable (eq pg_start) some_step (demo_try tid s).
Proof.
  intros H. unfold demo_try. destruct (txs s !! tid) eqn:Hx; [|done].
  eapply reach_step; [exact H|]. exists (Dequeuing tid). by apply p_try.
Defined.

Lemma demo_step_commit s tid x : txs s !! tid = Some x -> done_scanning x = true -> pstep s (Committing tid) (demo_commit tid s).
Proof. intros Hx Hd. unfold demo_commit. rewrite Hx. by eapply p_commit; [..|apply surjective_pairing]. Defined.

Lemma demo_claiming_reachable : reachable (eq pg_start) some_step demo_claiming.
Proof.
  unfold demo_claiming. repeat first
    [apply demo_reach_try | apply demo_reach_enqueue | apply demo_reach_start; [vm_compute; reflexivity|] | apply reach_init; reflexivity].
Defined.

Definition demo_held (tid : nat) : option Tx := txs demo_claiming !! tid.

Lemma demo_commit_step : pstep demo_claiming (Committing 1) (demo_commit 1 demo_claiming).
Proof.
  destruct (txs demo_claiming !! 1%nat) as [x|] eqn:Hx; [|vm_compute in Hx; discriminate].
  apply (demo_step_commit _ _ x Hx). vm_compute in Hx. injection Hx as <-. vm_compute. reflexivity.
Defined.

(** Both commit, and two jobs of one concurrency key are running. *)
Example two_jobs_of_one_key :
  let s := demo_commit 2 (demo_commit 1 demo_claiming) in
  reachable (eq pg_start) some_step s /\
  (fun j => (j_Status j, j_ConcurrencyKey j, j_LockedBy j)) <$> db s !! "a" = Some (StatusRunning, "pipeline-1", "w1") /\
  (fun j => (j_Status j, j_ConcurrencyKey j, j_LockedBy j)) <$> db s !! "b" = Some (StatusRunning, "pipeline-1", "w2").
Proof.
  intros s. split; [|vm_compute; done]. eapply reach_step; [eapply reach_step; [apply demo_claiming_reachable|]|].
  - exists (Committing 1). apply demo_commit_step.
  - exists (Committing 2). destruct (txs (demo_commit 1 demo_claiming) !! 2%nat) as [x|] eqn:Hx; [|vm_compute in Hx; discriminate].
    apply (demo_step_commit _ _ x Hx). vm_compute in Hx. injection Hx as <-. vm_compute. reflexivity.
Qed.

Lemma pg_jobs_have_one_worker_witness :
  let s := demo_claiming in let s' := demo_commit 1 demo_claiming in
  (reachable (eq pg_start) some_step s /\ pstep s (Committing 1) s') /\
  (forall id j, db s !! id = Some j -> j_ID j = id /\ wf_job j) /\
  (forall tid x p, Committing 1 = Committing tid -> txs s !! tid = Some x -> tx_picked x = Some p ->
     db s !! j_ID p = Some p /\ j_Status p = StatusPending /\ j_Attempts p < j_MaxAttempts p /\
     db s' !! j_ID p = Some (claim (tx_now x) (tx_worker x) p)) /\
  (forall id j, db s !! id = Some j -> j_Status j = StatusRunning ->
     db s' !! id = Some j \/ Committing 1 = Reporting (j_LockedBy j) id) /\
  (keeping "a" s 1 s' /\ exists j2, db s' !! "a" = Some j2 /\ j_Attempts j2 = 1).
Proof.
  intros s s'. split; [split; [exact demo_claiming_reachable|exact demo_commit_step]|].
  destruct (pg_jobs_have_one_worker s (Committing 1) s' demo_claiming_reachable demo_commit_step) as (H1 & H2 & H3 & H4).
  split; [exact H1|]. split; [exact H2|]. split; [exact H3|].
  assert (keeping "a" s 1 s') as Hk.
  { refine (k_step "a" s (Committing 1) s' 0 s' demo_commit_step _ (k_nil "a" s')). vm_compute. by eexists. }
  split; [exact Hk|]. destruct (db s !! "a") as [j|] eqn:Hj; [|vm_compute in Hj; discriminate].
  destruct (H4 "a" j 1%nat s' Hj Hk) as (j2 & Hj2 & _ & Ha & _). exists j2. split; [exact Hj2|]. rewrite Ha.
  vm_compute in Hj. by injection Hj as <-.
Defined.

(** ** One server at a time *)

Definition demo_rows : Table := db (demo_enqueue "b" (demo_enqueue "a" pg_start)).

Lemma demo_rows_inv : table_inv demo_rows.
Proof.
  assert (map_Forall (fun _ j => j_Status j = StatusPending) demo_rows) as Hp by (apply (bool_decide_eq_true_1 _); vm_compute; reflexivity).
  assert (pinv (mkSys demo_rows ∅)) as Hi.
  { apply (pinv_reachable (demo_enqueue "b" (demo_enqueue "a" pg_start))).
    repeat first [apply demo_reach_enqueue | apply reach_init; reflexivity]. }
  split; cbn [m_jobs].
  - intros id j Hj. by destruct (pi_row _ Hi _ _ Hj).
  - intros id j Hj. by destruct (pi_row _ Hi _ _ Hj).
  - intros id1 id2 j1 j2 k Hj1 _ [Hr _] _. rewrite (Hp _ _ Hj1) in Hr. done.
Defined.

Lemma Dequeue_alone_refines_witness :
  let r := (Dequeue demo_rows 9 "w" ["pipeline.run"]).1 in let t' := (Dequeue demo_rows 9 "w" ["pipeline.run"]).2 in
  (table_inv demo_rows /\ Forall ascii_only ["pipeline.run"]) /\
  rtc some_step (mkSys demo_rows ∅) (mkSys t' ∅) /\ table_inv t' /\
  match r with
  | None => t' = demo_rows /\ forall j, ~ pg_eligible demo_rows 9 ["pipeline.run"] j
  | Some j => exists p, pg_eligible demo_rows 9 ["pipeline.run"] p /\
      (forall q, pg_eligible demo_rows 9 ["pipeline.run"] q -> j_RunAt p <= j_RunAt q) /\
      j = claim 9 "w" p /\ t' = <[j_ID p := j]> demo_rows
  end.
Proof.
  intros r t'. assert (Forall ascii_only ["pipeline.run"]) as Hk by (repeat constructor).
  split; [split; [exact demo_rows_inv|exact Hk]|].
  exact (Dequeue_alone_refines demo_rows 9 "w" ["pipeline.run"] r t' demo_rows_inv Hk (surjective_pairing _)).
Defined.

Definition demo_registry : Registry := {["pipeline.run" := fun _ => Panicked "boom"]}.
Definition demo_server : Server := mkServer demo_rows 0.
Definition demo_claimed : Job :=
  mkJob "a" "pipeline.run" "{}" StatusRunning 1 3 0 "w" (Some 9) (Some 9) None "" "pipeline-1" 0 9.
Definition demo_ticked : Server :=
  (run_tick (fun s => s) demo_registry (NextDelay DefaultBackoff) demo_server "w" ["pipeline.run"] (mkTick 9 second None)).2.

Lemma demo_tick : run_tick (fun s => s) demo_registry (NextDelay DefaultBackoff) demo_server "w" ["pipeline.run"] (mkTick 9 second None) =
  (Some demo_claimed, demo_ticked).
Proof. apply injective_projections; vm_compute; reflexivity. Qed.

Lemma pg_worker_settles_witness :
  (table_inv (sv_rows demo_server) /\
   run_tick (fun s => s) demo_registry (NextDelay DefaultBackoff) demo_server "w" ["pipeline.run"] (mkTick 9 second None) =
     (Some demo_claimed, demo_ticked)) /\
  exists j', Get (sv_rows demo_ticked) "a" = Ok j' /\ j_LastError j' = "handler panic: boom" /\
    j_Status j' = StatusPending /\ j_RunAt j' = 6 * second.
Proof.
  split; [split; [exact demo_rows_inv|exact demo_tick]|].
  destruct (pg_worker_settles (fun s => s) demo_registry (NextDelay DefaultBackoff) demo_server "w" ["pipeline.run"]
    (mkTick 9 second None) demo_claimed demo_ticked demo_rows_inv demo_tick) as (_ & _ & j' & Hg & _ & Hle & Hst & Hr).
  exists j'. split; [exact Hg|]. split; [exact Hle|]. split; [exact Hst|]. rewrite Hr. vm_compute. reflexivity.
Defined.

(** A kind with a letter beyond ASCII is sent as another text: its runes are cut to
    their low bytes. *)
Example kinds_are_cut :
  (pgTextArray ["a"; of_bytes [34]], pgTextArray [of_bytes [196; 160]], demo_array_in (pgTextArray [of_bytes [196; 129; 98]])) =
  (quoted_array ["a"; of_bytes [34]], quoted_array [" "], Some [of_bytes [1; 98]]).
Proof. vm_compute. reflexivity. Qed.
End demo.
