(* ===== verification/Scheduler.v ===== *)
(** * The scheduler: [internal/scheduler/schedule.go], [store.go], [scheduler.go]

    Schedules, their store (an interface and its two implementations), and the
    leader's tick, any call of which may fail: one job enqueued per due schedule, and
    the next time written back.  Leader election is not modelled. *)

From S2P Require Import Prelude GoStr GoTime Cron JobQueuePg JobQueue Model Pipeline RunStore JobRunner.
Local Open Scope Z_scope.

(** ** Data *)

Record Schedule := mkSchedule {
  s_ID : string; s_PipelineID : string; s_Name : string; s_CronExpr : string; s_Timezone : string;
  s_LastRunAt : option Z; s_LastRunID : string; s_NextRunAt : Z; s_Enabled : bool;
  s_CreatedAt : Z; s_UpdatedAt : Z
}.

Definition s_set_Enabled v (s : Schedule) : Schedule :=
  mkSchedule (s_ID s) (s_PipelineID s) (s_Name s) (s_CronExpr s) (s_Timezone s) (s_LastRunAt s) (s_LastRunID s)
    (s_NextRunAt s) v (s_CreatedAt s) (s_UpdatedAt s).
Definition s_set_CreatedAt v (s : Schedule) : Schedule :=
  mkSchedule (s_ID s) (s_PipelineID s) (s_Name s) (s_CronExpr s) (s_Timezone s) (s_LastRunAt s) (s_LastRunID s)
    (s_NextRunAt s) (s_Enabled s) v (s_UpdatedAt s).
Definition s_set_UpdatedAt v (s : Schedule) : Schedule :=
  mkSchedule (s_ID s) (s_PipelineID s) (s_Name s) (s_CronExpr s) (s_Timezone s) (s_LastRunAt s) (s_LastRunID s)
    (s_NextRunAt s) (s_Enabled s) (s_CreatedAt s) v.
Definition s_set_Fired at_ rid next (s : Schedule) : Schedule :=
  mkSchedule (s_ID s) (s_PipelineID s) (s_Name s) (s_CronExpr s) (s_Timezone s) (Some at_) rid
    next (s_Enabled s) (s_CreatedAt s) (s_UpdatedAt s).

(** [LoadLocation]; [tzdb] is [time.LoadLocation]. *)
Definition LoadLocation (tzdb : string -> option location) (s : Schedule) : location :=
  if s_Timezone s =s "" then utc else
  match tzdb (s_Timezone s) with
  | None => utc
  | Some loc => loc
  end.

Definition is_due (now : Z) (s : Schedule) : bool := s_Enabled s && negb (now <? s_NextRunAt s).

(** ** The store *)

Inductive sched_error := EmptyID | DuplicateID (id : string) | ErrNotFound | StoreFailed.

(** What the operations do when the store answers; [ss_time] is the precision at which it
    keeps times. *)
Class ScheduleStore (S : Type) := {
  ss_Get : S -> string -> result sched_error Schedule;
  ss_DueBefore : S -> Z -> list Schedule;
  ss_Update : S -> Z -> Schedule -> option sched_error * S;
  ss_MarkFired : S -> Z -> string -> Z -> string -> Z -> option sched_error * S;
  ss_time : Z -> Z
}.
Arguments ss_time S {_} _.

(** What the tick relies on: [DueBefore] lists each enabled, due schedule once;
    disabling a schedule and marking it fired are read back and touch no other. *)
Class ScheduleStoreLaws (S : Type) `{ScheduleStore S} (Inv : S -> Prop) := {
  law_due s cutoff sch : Inv s ->
    sch ∈ ss_DueBefore s cutoff <-> ss_Get s (s_ID sch) = Ok sch /\ is_due (ss_time S cutoff) sch = true;
  law_due_once s cutoff : Inv s -> NoDup (s_ID <$> ss_DueBefore s cutoff);
  law_get_id s id sch : Inv s -> ss_Get s id = Ok sch -> s_ID sch = id;
  law_disable s now sch : Inv s -> ss_Get s (s_ID sch) = Ok sch ->
    let s' := (ss_Update s now (s_set_Enabled false sch)).2 in
    Inv s' /\ ss_Get s' (s_ID sch) = Ok (sch |> s_set_Enabled false |> s_set_UpdatedAt (ss_time S now)) /\
    forall id, id <> s_ID sch -> ss_Get s' id = ss_Get s id;
  law_mark s now id sch firedAt rid next : Inv s -> ss_Get s id = Ok sch ->
    let s' := (ss_MarkFired s now id firedAt rid next).2 in
    Inv s' /\ ss_Get s' id = Ok (sch |> s_set_Fired (ss_time S firedAt) rid (ss_time S next) |> s_set_UpdatedAt (ss_time S now)) /\
    forall id', id' <> id -> ss_Get s' id' = ss_Get s id'
}.

Abbreviation MemoryStore := (gmap string Schedule).

Definition NewMemoryStore : MemoryStore := ∅.

Definition Get (m : gmap string Schedule) (id : string) : result sched_error Schedule :=
  match m !! id with None => Err ErrNotFound | Some s => Ok s end.

Definition Create (m : MemoryStore) (now : Z) (s : Schedule) : option sched_error * MemoryStore :=
  if s_ID s =s "" then (Some EmptyID, m) else
  let s := if is_zero_time (s_CreatedAt s) then s_set_CreatedAt now s else s in
  let s := s_set_UpdatedAt now s in
  match m !! s_ID s with
  | Some _ => (Some (DuplicateID (s_ID s)), m)
  | None => (None, <[s_ID s := s]> m)
  end.

Definition Update (m : MemoryStore) (now : Z) (s : Schedule) : option sched_error * MemoryStore :=
  match m !! s_ID s with
  | None => (Some ErrNotFound, m)
  | Some _ => (None, <[s_ID s := s_set_UpdatedAt now s]> m)
  end.

Definition Delete (m : MemoryStore) (id : string) : option sched_error * MemoryStore :=
  match m !! id with
  | None => (Some ErrNotFound, m)
  | Some _ => (None, delete id m)
  end.

Definition MarkFired (m : MemoryStore) (now : Z) (id : string) (firedAt : Z) (runID : string) (nextRunAt : Z)
    : option sched_error * MemoryStore :=
  match m !! id with
  | None => (Some ErrNotFound, m)
  | Some s => (None, <[id := s |> s_set_Fired firedAt runID nextRunAt |> s_set_UpdatedAt now]> m)
  end.

Section memory.
Context `{RO : RangeOrder}.

Definition List (m : MemoryStore) : list Schedule := (range_map m).*2.

Definition DueBefore (m : MemoryStore) (cutoff : Z) : list Schedule :=
  filter (fun s => is_due cutoff s = true) (range_map m).*2.

#[export] Instance MemoryStore_ScheduleStore : ScheduleStore MemoryStore := {
  ss_Get := Get; ss_DueBefore := DueBefore; ss_Update := Update; ss_MarkFired := MarkFired; ss_time t := t
}.

(** Schedules are stored under their own ID. *)
Definition keyed (m : gmap string Schedule) : Prop := forall id s, m !! id = Some s -> s_ID s = id.

Lemma keyed_insert (m : gmap string Schedule) s : keyed m -> keyed (<[s_ID s := s]> m).
Proof. intros Hm id s'. rewrite lookup_insert_Some. intros [[<- <-]|[_ Hs]]; [done|by apply Hm]. Qed.

Lemma sched_Get_Ok (m : gmap string Schedule) id s : Get m id = Ok s <-> m !! id = Some s.
Proof. unfold Get. destruct (m !! id); split; intros [= ->]; done. Qed.

Lemma elem_of_values (m : gmap string Schedule) s : keyed m -> s ∈ (range_map m).*2 <-> Get m (s_ID s) = Ok s.
Proof.
  intros Hm. rewrite sched_Get_Ok, elem_of_range_snd. split; [|by eexists]. intros [k Hk]. by rewrite (Hm k s Hk).
Qed.

#[export] Instance MemoryStore_laws : ScheduleStoreLaws MemoryStore keyed.
Proof.
  split; cbn [ss_Get ss_DueBefore ss_Update ss_MarkFired ss_time MemoryStore_ScheduleStore].
  - intros m cutoff s Hm. unfold DueBefore. rewrite list_elem_of_filter, elem_of_values by done. tauto.
  - intros m cutoff Hm. apply (NoDup_fmap_2_strong s_ID).
    + intros x y [_ Hx]%list_elem_of_filter [_ Hy]%list_elem_of_filter Heq.
      apply elem_of_values in Hx, Hy; try done. rewrite Heq in Hx. congruence.
    + apply NoDup_filter, NoDup_fmap_2_strong; [|eapply NoDup_fmap_1, NoDup_range_fst].
      intros [k1 x] [k2 y] Hx%elem_of_range Hy%elem_of_range Heq. cbn in Heq. subst.
      by rewrite <- (Hm k1 y Hx), <- (Hm k2 y Hy).
  - intros m id s Hm Hs%sched_Get_Ok. by apply Hm.
  - intros m now s Hm Hs%sched_Get_Ok. unfold Update. cbn [s_ID s_set_Enabled]. rewrite Hs. cbn. split_and!.
    + by apply (keyed_insert m (s_set_UpdatedAt now (s_set_Enabled false s))).
    + apply sched_Get_Ok. by rewrite lookup_insert_eq.
    + intros id Hid. unfold Get. by rewrite lookup_insert_ne.
  - intros m now id s at_ rid next Hm Hs%sched_Get_Ok. unfold MarkFired. rewrite Hs. cbn. split_and!.
    + rewrite <- (Hm id s Hs) at 1. by apply (keyed_insert m (s |> s_set_Fired at_ rid next |> s_set_UpdatedAt now)).
    + apply sched_Get_Ok. by rewrite lookup_insert_eq.
    + intros id' Hid. unfold Get. by rewrite lookup_insert_ne.
Qed.

Lemma elem_of_due (m : gmap string Schedule) cutoff s : keyed m ->
  s ∈ DueBefore m cutoff <-> Get m (s_ID s) = Ok s /\ is_due cutoff s = true.
Proof. intros Hm. unfold DueBefore. rewrite list_elem_of_filter, elem_of_values by done. tauto. Qed.

Lemma due_once (m : gmap string Schedule) cutoff : keyed m -> NoDup (s_ID <$> DueBefore m cutoff).
Proof. exact (law_due_once (S := MemoryStore) m cutoff). Qed.
End memory.

(** *** PostgreSQL *)

(** Storing a stored time again keeps it. *)
Class PgTime `{PgTypes} := { timestamptz_stored t : timestamptz (timestamptz t) = timestamptz t }.

Record PostgresStore := mkPostgres { ps_rows : gmap string Schedule }.

Section postgres.
Context `{RO : RangeOrder} `{PT : PgTime}.

Definition pg_List (p : PostgresStore) : list Schedule :=
  sort_slice (fun a b => s_CreatedAt a <? s_CreatedAt b) (List (ps_rows p)).

Definition pg_Get (p : PostgresStore) (id : string) : result sched_error Schedule := Get (ps_rows p) id.

(** The columns of the statement; the others take their defaults. *)
Definition pg_Create (p : PostgresStore) (now : Z) (s : Schedule) : option sched_error * PostgresStore :=
  let created := if is_zero_time (s_CreatedAt s) then now else s_CreatedAt s in
  match ps_rows p !! s_ID s with
  | Some _ => (Some StoreFailed, p)
  | None =>
      (None, mkPostgres (<[s_ID s := mkSchedule (s_ID s) (s_PipelineID s) (s_Name s) (s_CronExpr s) (s_Timezone s) None ""
        (timestamptz (s_NextRunAt s)) (s_Enabled s) (timestamptz created) (timestamptz now)]> (ps_rows p)))
  end.

Definition pg_Update (p : PostgresStore) (now : Z) (s : Schedule) : option sched_error * PostgresStore :=
  match ps_rows p !! s_ID s with
  | None => (Some ErrNotFound, p)
  | Some row =>
      (None, mkPostgres (<[s_ID s := mkSchedule (s_ID row) (s_PipelineID s) (s_Name s) (s_CronExpr s) (s_Timezone s)
        (s_LastRunAt row) (s_LastRunID row) (timestamptz (s_NextRunAt s)) (s_Enabled s) (s_CreatedAt row)
        (timestamptz now)]> (ps_rows p)))
  end.

Definition pg_Delete (p : PostgresStore) (id : string) : option sched_error * PostgresStore :=
  match ps_rows p !! id with
  | None => (Some ErrNotFound, p)
  | Some _ => (None, mkPostgres (delete id (ps_rows p)))
  end.

Definition pg_DueBefore (p : PostgresStore) (cutoff : Z) : list Schedule :=
  sort_slice (fun a b => s_NextRunAt a <? s_NextRunAt b) (DueBefore (ps_rows p) (timestamptz cutoff)).

Definition pg_MarkFired (p : PostgresStore) (now : Z) (id : string) (firedAt : Z) (runID : string) (nextRunAt : Z)
    : option sched_error * PostgresStore :=
  match ps_rows p !! id with
  | None => (Some ErrNotFound, p)
  | Some row =>
      (None, mkPostgres (<[id := row |> s_set_Fired (timestamptz firedAt) runID (timestamptz nextRunAt)
        |> s_set_UpdatedAt (timestamptz now)]> (ps_rows p)))
  end.

#[export] Instance PostgresStore_ScheduleStore : ScheduleStore PostgresStore := {
  ss_Get := pg_Get; ss_DueBefore := pg_DueBefore; ss_Update := pg_Update; ss_MarkFired := pg_MarkFired; ss_time := timestamptz
}.

(** Rows are under their own ID, and their next times are stored ones. *)
Definition pg_rows (p : PostgresStore) : Prop :=
  keyed (ps_rows p) /\ forall id s, ps_rows p !! id = Some s -> timestamptz (s_NextRunAt s) = s_NextRunAt s.

Lemma pg_rows_insert p s : pg_rows p -> timestamptz (s_NextRunAt s) = s_NextRunAt s -> pg_rows (mkPostgres (<[s_ID s := s]> (ps_rows p))).
Proof.
  intros [Hk Ht] Hs. split; cbn; [by apply keyed_insert|]. intros id s' [[_ <-]|[_ H']]%lookup_insert_Some; [done|by eapply Ht].
Qed.

#[export] Instance PostgresStore_laws : ScheduleStoreLaws PostgresStore pg_rows.
Proof.
  split; cbn [ss_Get ss_DueBefore ss_Update ss_MarkFired ss_time PostgresStore_ScheduleStore].
  - intros p cutoff s [Hk _]. unfold pg_DueBefore. by rewrite elem_of_sort_slice, elem_of_due.
  - intros p cutoff [Hk _]. unfold pg_DueBefore. rewrite sort_slice_perm. by apply due_once.
  - intros p id s [Hk _] Hs%sched_Get_Ok. by apply Hk.
  - intros p now s Hp Hs. apply sched_Get_Ok in Hs as Hr. pose proof Hp as [Hk Ht]. unfold pg_Update. cbn [s_ID s_set_Enabled].
    rewrite Hr. cbn. rewrite (Ht _ _ Hr).
    set (s' := mkSchedule _ _ _ _ _ _ _ _ _ _ _). assert (s' = (s |> s_set_Enabled false |> s_set_UpdatedAt (timestamptz now))) as -> by done.
    split_and!.
    + apply (pg_rows_insert p (s |> s_set_Enabled false |> s_set_UpdatedAt (timestamptz now)) Hp). by apply (Ht _ _ Hr).
    + apply sched_Get_Ok. cbn. by rewrite lookup_insert_eq.
    + intros id Hid. unfold pg_Get, Get. cbn. by rewrite lookup_insert_ne.
  - intros p now id s at_ rid next Hp Hs. apply sched_Get_Ok in Hs as Hr. pose proof Hp as [Hk Ht]. unfold pg_MarkFired. rewrite Hr. cbn. split_and!.
    + rewrite <- (Hk id s Hr) at 1.
      apply (pg_rows_insert p (s |> s_set_Fired (timestamptz at_) rid (timestamptz next) |> s_set_UpdatedAt (timestamptz now)) Hp).
      apply timestamptz_stored.
    + apply sched_Get_Ok. cbn. by rewrite lookup_insert_eq.
    + intros id' Hid. unfold pg_Get, Get. cbn. by rewrite lookup_insert_ne.
Qed.
End postgres.

(** ** The tick *)

(** A call is answered; fails without effect; or has its effect and is told to have
    failed. *)
Inductive fate := Answered | Refused | Unheard.

Definition calling {E S} (f : fate) (err : E) (call : option E * S) (s : S) : option E * S :=
  match f with Answered => call | Refused => (Some err, s) | Unheard => (Some err, call.2) end.

(** It has had its effect. *)
Definition reaches (f : fate) : bool := match f with Refused => false | _ => true end.

(** The calls made for one schedule: the enqueuer's, and the write-back. *)
Record calls := mkCalls { c_enqueue : fate; c_write : fate }.

(** [newRunID], at the given clock reading. *)
Definition newRunID (unixNano : Z) : string := "sched_" +:+ itoa unixNano.

Section tick.
Context {S Q : Type} `{ScheduleStore S} `{JobStore Q} `{PayloadCodec}.
(** the fuel of [Next], the process's zone, the zone database, the enqueuer *)
Context (fuel : nat) (local : location) (tzdb : string -> option location) (e : JobQueueEnqueuer).

(** One due schedule; [clk] is the clock while it is handled, [now] the tick's.
    [None]: [Next] has not returned within the fuel. *)
Definition fire (now clk : Z) (w : calls) (s : Schedule) (st : S) (q : Q) : option (S * Q) :=
  match Parse (s_CronExpr s) with
  | Err _ => Some ((calling (c_write w) StoreFailed (ss_Update st clk (s_set_Enabled false s)) st).2, q)
  | Ok cron =>
      let runID := newRunID clk in
      match calling (c_enqueue w) DatabaseError (EnqueueRun e q clk (s_PipelineID s) runID) q with
      | (Some _, q) => Some (st, q)
      | (None, q) =>
          match Next fuel cron now local (LoadLocation tzdb s) with
          | None => None
          | Some (Err _) => Some (st, q)
          | Some (Ok next) => Some ((calling (c_write w) StoreFailed (ss_MarkFired st clk (s_ID s) now runID next) st).2, q)
          end
      end
  end.

(** The due schedules in turn; [clock] and [fates] are those of each. *)
Fixpoint fire_all (now : Z) (clock : nat -> Z) (fates : nat -> calls) (i : nat) (due : list Schedule) (st : S) (q : Q)
    : option (S * Q) :=
  match due with
  | [] => Some (st, q)
  | s :: due =>
      match fire now (clock i) (fates i) s st q with
      | None => None
      | Some (st, q) => fire_all now clock fates (1 + i) due st q
      end
  end.

(** [due] is what becomes of [DueBefore]. *)
Definition tick (now : Z) (clock : nat -> Z) (due : fate) (fates : nat -> calls) (st : S) (q : Q) : option (S * Q) :=
  match due with
  | Answered => fire_all now clock fates 0 (ss_DueBefore st now) st q
  | _ => Some (st, q)
  end.
End tick.

(** ** Facts *)

(** The pending job of a scheduled run. *)
Definition has_job {Q} `{PayloadCodec, JobStore Q} (spelled : string -> string -> Prop) (q : Q) (pipelineID runID : string) : Prop :=
  exists jid j, js_get q jid = Ok j /\ j_Kind j = JobKindPipelineRun /\ j_Status j = JobQueue.StatusPending /\
    spelled (Marshal (mkPayload pipelineID runID)) (j_Payload j) /\ j_ConcurrencyKey j = "pipeline:" +:+ pipelineID.

(** Every job of [q] is in [q'], as it was. *)
Definition keeps {Q} `{JobStore Q} (q q' : Q) : Prop := forall jid j, js_get q jid = Ok j -> js_get q' jid = Ok j.

(** The IDs the queue's counter is about to give are free. *)
Record fresh_ids (q : Memory) : Prop := {
  fi_counter : 0 <= m_idCounter q;
  fi_free n now : m_idCounter q < n < 2 ^ 64 -> m_jobs q !! formatID now n = None
}.

(** The in-memory queue accepts a run. *)
Lemma EnqueueRun_memory `{RangeOrder, PayloadCodec} e (q : Memory) now pid rid : fresh_ids q -> m_idCounter q + 1 < 2 ^ 64 ->
  exists q', EnqueueRun e q now pid rid = (None, q').
Proof.
  intros [Hc Hf] Hlt. unfold EnqueueRun. cbn [js_enqueue Memory_JobStore]. unfold Enqueue.
  change (JobKindPipelineRun =s "") with false. cbn [o_ID run_options].
  pose proof (Hf (m_idCounter q + 1) now ltac:(lia)) as Hnone.
  set (id := formatID _ _) in *. cbn zeta. change (("" =s "")%string) with true. cbn iota.
  cbn [m_jobs]. rewrite Hnone. by eexists.
Qed.

Section facts.
Context `{RO : RangeOrder} `{PayloadCodec} {S : Type} `{ScheduleStoreLaws S Inv} {Q : Type} `{EnqueueLaws Q spelled}.
Context (fuel : nat) (local : location) (tzdb : string -> option location) (e : JobQueueEnqueuer).

Lemma EnqueueRun_laws (q : Q) now pid rid :
  keeps q (EnqueueRun e q now pid rid).2 /\
  ((EnqueueRun e q now pid rid).1 = None -> has_job spelled (EnqueueRun e q now pid rid).2 pid rid).
Proof.
  unfold EnqueueRun. destruct (js_enqueue _ _ _ _ _) as [r q'] eqn:HE. apply law_enqueue in HE as [Hk Hj].
  destruct r as [j|err]; cbn; [|done]. split; [done|]. intros _. destruct (Hj j eq_refl) as (jid & j' & ? & ? & ? & ? & ?).
  exists jid, j'. by split_and!.
Qed.

Lemma keeps_trans (q q' q'' : Q) : keeps q q' -> keeps q' q'' -> keeps q q''.
Proof. intros Hq Hq' jid j Hj. by apply Hq', Hq. Qed.

Lemma has_job_keeps (q q' : Q) pid rid : keeps q q' -> has_job spelled q pid rid -> has_job spelled q' pid rid.
Proof. intros Hq (jid & j & Hj & ?). exists jid, j. split; [by apply Hq|done]. Qed.

(** What handling a due schedule at [now] makes of it and of the queue. *)
Definition handled (now clk : Z) (w : calls) (q q' : Q) (s s' : Schedule) : Prop :=
  match Parse (s_CronExpr s) with
  | Err _ => s' = (if reaches (c_write w) then s |> s_set_Enabled false |> s_set_UpdatedAt (ss_time S clk) else s)
  | Ok c => exists q1, keeps q q1 /\
      let '(err, q2) := EnqueueRun e q1 clk (s_PipelineID s) (newRunID clk) in
      (reaches (c_enqueue w) = true -> keeps q2 q' /\ (err = None -> has_job spelled q' (s_PipelineID s) (newRunID clk))) /\
      match c_enqueue w, err, Next fuel c now local (LoadLocation tzdb s) with
      | Answered, None, Some (Ok next) => s' = (if reaches (c_write w)
          then s |> s_set_Fired (ss_time S now) (newRunID clk) (ss_time S next) |> s_set_UpdatedAt (ss_time S clk) else s)
      | _, _, _ => s' = s
      end
  end.

(** [Next] returns on the zones and fuel given. *)
Definition next_returns (now : Z) (s : Schedule) : Prop :=
  match Parse (s_CronExpr s) with
  | Err _ => True
  | Ok c => exists r, Next fuel c now local (LoadLocation tzdb s) = Some r
  end.

(** A write that is made or not. *)
Lemma write_spec (f : fate) st id (s s1 : Schedule) r (st' : S) : Inv st -> ss_Get st id = Ok s ->
  Inv st' /\ ss_Get st' id = Ok s1 /\ (forall id', id' <> id -> ss_Get st' id' = ss_Get st id') ->
  let st'' := (calling f StoreFailed (r, st') st).2 in
  Inv st'' /\ ss_Get st'' id = Ok (if reaches f then s1 else s) /\ (forall id', id' <> id -> ss_Get st'' id' = ss_Get st id').
Proof. intros ? ? (? & ? & ?). by destruct f. Qed.

Lemma fire_spec now clk w s st (q : Q) : Inv st -> ss_Get st (s_ID s) = Ok s -> next_returns now s ->
  exists st' q' s', fire fuel local tzdb e now clk w s st q = Some (st', q') /\ Inv st' /\ keeps q q' /\
    ss_Get st' (s_ID s) = Ok s' /\ handled now clk w q q' s s' /\
    (forall id, id <> s_ID s -> ss_Get st' id = ss_Get st id).
Proof.
  intros Hinv Hget Hnext. unfold fire, handled, next_returns in *. destruct (Parse (s_CronExpr s)) as [c|] eqn:Hp.
  - destruct Hnext as [r Hr]. rewrite Hr. destruct (EnqueueRun_laws q clk (s_PipelineID s) (newRunID clk)) as [Hk Hj].
    destruct (EnqueueRun e q clk (s_PipelineID s) (newRunID clk)) as [err q2] eqn:HE. cbn [fst snd] in Hk, Hj.
    assert (forall q, keeps q q) as Hqq by (by intros ? ? ?).
    destruct (c_enqueue w); cbn [calling reaches snd].
    + destruct err as [err|]; [exists st, q2, s; split_and!; [done..| |done]; exists q; rewrite HE; by split_and!; auto|].
      destruct r as [next|err]; [|exists st, q2, s; split_and!; [done..| |done]; exists q; rewrite HE; by split_and!; auto].
      destruct (ss_MarkFired st clk (s_ID s) now (newRunID clk) next) as [r1 st1] eqn:Hm.
      destruct (write_spec (c_write w) st (s_ID s) s (s |> s_set_Fired (ss_time S now) (newRunID clk) (ss_time S next) |> s_set_UpdatedAt (ss_time S clk)) r1 st1
        Hinv Hget) as (Hi & Hg & Ho); [pose proof (law_mark st clk (s_ID s) s now (newRunID clk) next Hinv Hget) as Hlaw; by rewrite Hm in Hlaw|].
      eexists _, q2, _. split_and!; [done|exact Hi|done|exact Hg| |exact Ho]. exists q. rewrite HE. by split_and!; auto.
    + exists st, q, s. split_and!; [done..| |done]. exists q. rewrite HE. by split_and!; auto.
    + exists st, q2, s. split_and!; [done..| |done]. exists q. rewrite HE. split_and!; [done|auto|by destruct err].
  - destruct (ss_Update st clk (s_set_Enabled false s)) as [r1 st1] eqn:Hu.
    destruct (write_spec (c_write w) st (s_ID s) s (s |> s_set_Enabled false |> s_set_UpdatedAt (ss_time S clk)) r1 st1 Hinv Hget)
      as (Hi & Hg & Ho); [pose proof (law_disable st clk s Hinv Hget) as Hlaw; by rewrite Hu in Hlaw|].
    eexists _, q, _. split_and!; [done|exact Hi|by intros ? ? ?|exact Hg|done|exact Ho].
Qed.

Lemma handled_keeps now clk w q0 q q' q'' s s' : keeps q0 q -> keeps q' q'' -> handled now clk w q q' s s' -> handled now clk w q0 q'' s s'.
Proof.
  intros Hq0 Hq. unfold handled. destruct (Parse _); [|done]. intros (q1 & Hq1 & Hh). exists q1. split; [by eapply keeps_trans|].
  destruct (EnqueueRun _ _ _ _ _) as [err q2]. destruct Hh as [Hj Hs]. split; [|done]. intros Hre. destruct (Hj Hre) as [Hk2 Hj2].
  split; [by eapply keeps_trans|]. intros Herr. by eapply has_job_keeps, Hj2.
Qed.

Lemma fire_all_spec now clock fates due : forall i st (q : Q), Inv st -> NoDup (s_ID <$> due) ->
  (forall s, s ∈ due -> ss_Get st (s_ID s) = Ok s /\ next_returns now s) ->
  exists st' q', fire_all fuel local tzdb e now clock fates i due st q = Some (st', q') /\ Inv st' /\ keeps q q' /\
    (forall k s, due !! k = Some s -> exists s',
       ss_Get st' (s_ID s) = Ok s' /\ handled now (clock (i + k)%nat) (fates (i + k)%nat) q q' s s') /\
    (forall id, id ∉ s_ID <$> due -> ss_Get st' id = ss_Get st id).
Proof.
  induction due as [|s due IH]; intros i st q Hinv Hnd Hdue; cbn [fire_all].
  { exists st, q. split_and!; [done|done|by intros ? ? ?|done|done]. }
  cbn [fmap list_fmap] in Hnd. apply NoDup_cons in Hnd as [Hni Hnd].
  destruct (Hdue s ltac:(by left)) as [Hget Hnext].
  destruct (fire_spec now (clock i) (fates i) s st q Hinv Hget Hnext) as (st1 & q1 & s1 & -> & Hi1 & Hq1 & Hg1 & Hh1 & Ho1).
  destruct (IH (1 + i)%nat st1 q1 Hi1 Hnd) as (st' & q' & -> & Hi & Hq & Hall & Ho).
  { intros s' Hs'. destruct (Hdue s' ltac:(by right)) as [Hg' Hn']. rewrite Ho1; [done|].
    intros Heq. apply Hni. rewrite <- Heq. apply list_elem_of_fmap. by exists s'. }
  exists st', q'. split_and!; [done|done|by eapply keeps_trans| |].
  - intros [|k] s'; cbn.
    + intros [= <-]. exists s1. rewrite Nat.add_0_r. split; [rewrite Ho by done; done|]. eapply (handled_keeps _ _ _ q q); [by intros ? ? ?|done|done].
    + intros Hk. destruct (Hall k s' Hk) as (s'' & ? & Hh). exists s''. rewrite <- Nat.add_succ_comm. split; [done|]. eapply (handled_keeps _ _ _ q q1); [done|by intros ? ? ?|done].
  - intros id Hid. cbn in Hid. apply not_elem_of_cons in Hid as [Hne Hid]. rewrite Ho by done. by apply Ho1.
Qed.
End facts.

(** ** Properties *)

Section properties.
Context `{RO : RangeOrder} `{PayloadCodec} {S : Type} `{ScheduleStoreLaws S Inv} {Q : Type} `{EnqueueLaws Q spelled}.
Context (fuel : nat) (local : location) (tzdb : string -> option location) (e : JobQueueEnqueuer).

(** C28. A tick on schedules in zones without transitions ends, for the in-memory and the
    PostgreSQL stores and queues alike, any of whose calls may fail, with or without its
    effect; nobody else writes to the schedules meanwhile.  It touches the due schedules
    only, and each of them once.  One whose expression does not parse is disabled.  For
    any other a run is enqueued; if the queue reports that it accepted the run, either
    the run is recorded and the next time moved past the tick, to a time the expression
    matches, so that ticks before that time no longer fire it, or the expression has no
    time left to offer; and in the latter case, or when the queue or the write-back
    failed, the schedule is left as it was, still due.  No job of the queue is lost. *)
Theorem tick_fires_due now clock fates st (q : Q) :
  Inv st -> Z.max 0 ((add_years local now 4 - now) / minute) + 2 < Z.of_nat fuel ->
  (forall s, s ∈ ss_DueBefore st now -> exists off, LoadLocation tzdb s = fixed_zone off /\ off mod 60 = 0) ->
  tick fuel local tzdb e now clock Refused fates st q = Some (st, q) /\
  exists st' q', tick fuel local tzdb e now clock Answered fates st q = Some (st', q') /\ Inv st' /\ keeps q q' /\
    forall id s, ss_Get st id = Ok s ->
      if is_due (ss_time S now) s then exists k s', ss_DueBefore st now !! k = Some s /\ ss_Get st' id = Ok s' /\
        let clk := clock k in let w := fates k in
        match Parse (s_CronExpr s) with
        | Err _ => s' = (if reaches (c_write w) then s |> s_set_Enabled false |> s_set_UpdatedAt (ss_time S clk) else s)
        | Ok c => exists q1, keeps q q1 /\
            let '(err, q2) := EnqueueRun e q1 clk (s_PipelineID s) (newRunID clk) in
            (reaches (c_enqueue w) = true -> keeps q2 q' /\ (err = None -> has_job spelled q' (s_PipelineID s) (newRunID clk))) /\
            match c_enqueue w, err, Next fuel c now local (LoadLocation tzdb s) with
            | Answered, None, Some (Ok next) =>
                matches_at c (LoadLocation tzdb s) next = true /\ now < next /\
                (if reaches (c_write w)
                 then s' = (s |> s_set_Fired (ss_time S now) (newRunID clk) (ss_time S next) |> s_set_UpdatedAt (ss_time S clk)) /\
                   forall later, ss_time S later < ss_time S next -> is_due (ss_time S later) s' = false
                 else s' = s)
            | _, _, _ => s' = s
            end
        end
      else ss_Get st' id = Ok s.
Proof.
  intros Hinv Hf Hz. split; [done|].
  assert (forall s c, s ∈ ss_DueBefore st now -> exists r, Next fuel c now local (LoadLocation tzdb s) = Some r /\
    forall t, r = Ok t -> now < t /\ matches_at c (LoadLocation tzdb s) t = true) as Hret.
  { intros s c Hs. destruct (Hz s Hs) as (off & -> & Hoff). by apply Next_fixed_zone_returns. }
  destruct (fire_all_spec fuel local tzdb e now clock fates (ss_DueBefore st now) 0%nat st q Hinv (law_due_once st now Hinv))
    as (st' & q' & Ht & Hi & Hq & Hall & Ho).
  { intros s Hs. split; [by apply (law_due st now s Hinv)|]. unfold next_returns.
    destruct (Parse (s_CronExpr s)) as [c|]; [|done]. destruct (Hret s c Hs) as (r & Hr & _). by exists r. }
  exists st', q'. split_and!; [done|done|done|]. intros id s Hs. pose proof (law_get_id st id s Hinv Hs) as Hid.
  destruct (is_due (ss_time S now) s) eqn:Hd.
  - assert (s ∈ ss_DueBefore st now) as Hin by (apply (law_due st now s Hinv); by rewrite Hid).
    apply list_elem_of_lookup in Hin as Hk. destruct Hk as [k Hk].
    destruct (Hall k s Hk) as (s' & Hg & Hh). rewrite Hid in Hg. exists k, s'. split; [done|]. split; [done|].
    unfold handled in Hh. cbn [Nat.add] in Hh. destruct (Parse (s_CronExpr s)) as [c|]; [|done].
    destruct Hh as (q1 & Hq1 & Hh). exists q1. split; [done|]. destruct (EnqueueRun _ _ _ _ _) as [err q2].
    destruct Hh as [Hj Hh]. split; [done|]. destruct (c_enqueue (fates k)), err; try done.
    destruct (Hret s c Hin) as (r & Hr & Hlater). rewrite Hr in Hh |- *. destruct r as [next|]; [|done].
    destruct (Hlater next eq_refl). split_and!; try done. destruct (reaches (c_write (fates k))); [|done].
    split; [done|]. intros later Hlt. rewrite Hh. unfold is_due. cbn. rewrite (proj2 (Z.ltb_lt _ _) Hlt). apply andb_false_r.
  - rewrite Ho; [done|]. intros Hin. apply list_elem_of_fmap in Hin as (s' & Heq & Hin).
    apply (law_due st now s' Hinv) in Hin as [Hg Hd']. rewrite <- Heq, Hs in Hg. congruence.
Qed.
End properties.

Section no_run.
Context `{RO : RangeOrder} `{PayloadCodec} {S : Type} `{ScheduleStore S}.
Context (fuel : nat) (local : location) (tzdb : string -> option location) (e : JobQueueEnqueuer).

(** The run a schedule enqueues has no row: firing only synthesises its ID,
    and the worker, which the code says creates the row, looks it up and fails
    the job instead of executing the pipeline.  So the
    job each firing leaves pending is one the queue runner rejects, however soon. *)
Theorem scheduled_job_finds_no_run `{!PayloadCodecLaws} now clk w s c st (q : Memory) st' q' (runs : Runs) pipelines p :
  fire fuel local tzdb e now clk w s st q = Some (st', q') -> reaches (c_enqueue w) = true -> Parse (s_CronExpr s) = Ok c ->
  fresh_ids q -> m_idCounter q + 1 < 2 ^ 64 -> s_PipelineID s <> "" -> pipelines !! s_PipelineID s = Some p -> rs_m runs !! newRunID clk = None ->
  exists jid j, m_jobs q' !! jid = Some j /\ j_Status j = JobQueue.StatusPending /\
    Handle_load pipelines runs j = (Err (GetRun (newRunID clk) (RunStore.ErrNotFound (newRunID clk))), runs).
Proof.
  intros Hf Hw Hc Hfi Hn Hp Hpl Hrun.
  destruct (EnqueueRun_memory e q clk (s_PipelineID s) (newRunID clk) Hfi Hn) as (q1 & E).
  destruct (EnqueueRun_laws (spelled := eq) e q clk (s_PipelineID s) (newRunID clk)) as [_ Hj]. rewrite E in Hj.
  destruct (Hj eq_refl) as (jid & j & Hjid%Get_Ok & _ & Hst & Hpay & _).
  assert (q' = q1) as ->.
  { unfold fire in Hf. rewrite Hc, E in Hf. destruct (c_enqueue w); cbn in Hf; [|done|by simplify_eq].
    by destruct (Next _ _ _ _ _) as [[]|]; simplify_eq. }
  exists jid, j. split_and!; [done|done|]. unfold Handle_load. rewrite <- Hpay, Unmarshal_Marshal. cbn [rp_PipelineID rp_RunID].
  apply String.eqb_neq in Hp. rewrite Hp. change (newRunID clk =s "")%string with false. cbn.
  rewrite Hpl. unfold RunStore.Get. by rewrite Hrun.
Qed.
End no_run.

(** ** A concrete tick *)

Section demo.
Local Existing Instance range_default.

Definition demo_now : Z := go_date utc 2026 5 14 9 0.
Definition demo_schedule (expr : string) : Schedule :=
  mkSchedule "s" "p" "nightly" expr "" None "" demo_now true 0 0.
Definition demo_store (expr : string) : MemoryStore := {["s" := demo_schedule expr]}.

Lemma demo_keyed expr : keyed (demo_store expr).
Proof. unfold keyed, demo_store. intros id s. rewrite lookup_singleton_Some. by intros [<- <-]. Qed.

Definition demo_tick (fuel : nat) (expr : string) : option (MemoryStore * Memory) :=
  tick fuel utc (fun _ => None) NewJobQueueEnqueuer demo_now (fun _ => demo_now + 7) Answered (fun _ => mkCalls Answered Answered)
    (demo_store expr) NewMemory.

Example demo_fires :
  (fun '(st, q) => (s_NextRunAt <$> st !! "s", s_LastRunID <$> st !! "s", size (m_jobs q))) <$> demo_tick 400 "0 9 * * *"
  = Some (Some (go_date utc 2026 5 15 9 0), Some (newRunID (demo_now + 7)), 1%nat).
Proof. vm_compute. reflexivity. Qed.

(** An expression without occurrence is enqueued at every tick: the schedule is
    left due after its job is in. *)
Example impossible_date_refires :
  (fun '(st, q) => (is_due demo_now <$> st !! "s", size (m_jobs q))) <$> demo_tick 400 "0 0 30 2 *"
  = Some (Some true, 1%nat).
Proof. vm_compute. reflexivity. Qed.

Lemma fresh_ids_NewMemory : fresh_ids NewMemory.
Proof. split; [cbn; lia|]. intros n now _. apply lookup_empty. Qed.

(** On PostgreSQL: the job is in, its write-back is lost, and the schedule fires again. *)
Local Existing Instance demo_pg.
Definition demo_rows : PostgresStore := mkPostgres (demo_store "0 9 * * *").
Definition demo_pg_tick (fuel : nat) (fates : nat -> calls) : option (PostgresStore * Server) :=
  tick fuel utc (fun _ => None) NewJobQueueEnqueuer demo_now (fun _ => demo_now + 7) Answered fates demo_rows (mkServer ∅ 0).

Example lost_write_refires :
  (fun '(st, q) => (is_due demo_now <$> ps_rows st !! "s", size (sv_rows q))) <$> demo_pg_tick 400 (fun _ => mkCalls Answered Refused)
  = Some (Some true, 1%nat).
Proof. vm_compute. reflexivity. Qed.

Lemma demo_pg_time : PgTime.
Proof. split. intros t. cbn. by rewrite Z.div_mul. Qed.
Local Existing Instance demo_pg_time.

Lemma demo_rows_ok : pg_rows demo_rows.
Proof. split; [apply demo_keyed|]. cbn. unfold demo_store. intros id s [_ <-]%lookup_singleton_Some. vm_compute. reflexivity. Qed.

Lemma demo_due_utc cutoff s : s ∈ ss_DueBefore demo_rows cutoff ->
  exists off, LoadLocation (fun _ => None) s = fixed_zone off /\ off mod 60 = 0.
Proof.
  intros [Hs _]%(law_due (S := PostgresStore) demo_rows cutoff s demo_rows_ok). apply sched_Get_Ok in Hs.
  cbn in Hs. unfold demo_store in Hs. apply lookup_singleton_Some in Hs as [_ <-]. by exists 0.
Qed.

Lemma tick_fires_due_witness :
  exists st' q', demo_pg_tick (Z.to_nat 2103843) (fun _ => mkCalls Answered Answered) = Some (st', q') /\ pg_rows st'.
Proof.
  destruct (tick_fires_due (S := PostgresStore) (Inv := pg_rows) (Q := Server) (Z.to_nat 2103843) utc (fun _ => None) NewJobQueueEnqueuer
    demo_now (fun _ => demo_now + 7) (fun _ => mkCalls Answered Answered) demo_rows (mkServer ∅ 0)) as (_ & st' & q' & Ht & Hk & _).
  - exact demo_rows_ok.
  - rewrite Z2Nat.id by discriminate. vm_compute. reflexivity.
  - apply demo_due_utc.
  - exists st', q'. exact (conj Ht Hk).
Defined.

Lemma scheduled_job_finds_no_run_witness :
  exists st' q' jid j,
    fire 400 utc (fun _ => None) NewJobQueueEnqueuer demo_now demo_now (mkCalls Answered Answered) (demo_schedule "0 9 * * *")
      (demo_store "0 9 * * *") NewMemory = Some (st', q') /\ m_jobs q' !! jid = Some j /\
    (Handle_load {["p" := demo_pipeline]} NewRuns j).1 =
      Err (GetRun (newRunID demo_now) (RunStore.ErrNotFound (newRunID demo_now))).
Proof.
  destruct (fire 400 utc (fun _ => None) NewJobQueueEnqueuer demo_now demo_now (mkCalls Answered Answered) (demo_schedule "0 9 * * *")
      (demo_store "0 9 * * *") NewMemory) as [[st' q']|] eqn:E; [|by vm_compute in E].
  destruct (Parse "0 9 * * *") as [c|] eqn:Hc; [|by vm_compute in Hc].
  destruct (scheduled_job_finds_no_run 400 utc (fun _ => None) NewJobQueueEnqueuer demo_now demo_now
    (mkCalls Answered Answered) (demo_schedule "0 9 * * *") c (demo_store "0 9 * * *") NewMemory st' q' NewRuns {["p" := demo_pipeline]} demo_pipeline
    E eq_refl Hc fresh_ids_NewMemory eq_refl ltac:(discriminate) eq_refl eq_refl) as (jid & j & Hj & _ & Hh).
  exists st', q', jid, j. split_and!; [done|done|by rewrite Hh].
Defined.
End demo.
