(* ===== verification/Approval.v ===== *)
(** * Approval gates: [internal/service/stageapproval.go],
      [internal/service/promoter.go] and their stores

    Stage gates and run promotions share one design: a row per (run, target) and
    append-only votes, one per approver; the services are sequences of atomic
    store operations.  The stores and the services' steps are written once over
    the class [Row]; the two kinds of rows are instances.  A request is a thread
    whose store operations interleave with the others'.  In memory an operation is one
    step; in PostgreSQL a vote is a transaction of two statements, and any statement may
    fail. *)

From S2P Require Import Prelude Model RunStore.
Local Open Scope Z_scope.

(** ** Rows and votes *)

Class Row (G : Type) := {
  row_ID : G -> string; row_Run : G -> string; row_Target : G -> string;
  row_Required : G -> Z; row_Status : G -> string; row_CreatedAt : G -> Z;
  row_created : Z -> G -> G;                               (* [CreatedAt] when unset, [UpdatedAt] *)
  row_settled : string -> string -> Z -> G -> G;           (* in the store: status, by whom, when *)
  row_returned : string -> string -> Z -> G -> G;          (* the same on the caller's copy *)
  status_awaiting : string; status_approved : string
}.

Class RowLaws (G : Type) `{Row G} := {
  row_created_keeps now g : row_ID (row_created now g) = row_ID g /\ row_Run (row_created now g) = row_Run g /\
    row_Target (row_created now g) = row_Target g /\ row_Required (row_created now g) = row_Required g /\
    row_Status (row_created now g) = row_Status g;
  row_settled_keeps st by_ now g : row_ID (row_settled st by_ now g) = row_ID g /\
    row_Run (row_settled st by_ now g) = row_Run g /\ row_Target (row_settled st by_ now g) = row_Target g /\
    row_Required (row_settled st by_ now g) = row_Required g /\ row_Status (row_settled st by_ now g) = st;
  status_apart : status_awaiting <> status_approved
}.

(** [StageApprovalVote] and [PromotionApproval]. *)
Record Vote := mkVote {
  v_ID : string; v_GateID : string; v_ApproverSub : string; v_ApproverEmail : string; v_Note : string;
  v_CreatedAt : Z
}.

(** ** The stores *)

Record GateStore (G : Type) := mkGates { gs_m : gmap string G; gs_votes : gmap string (list Vote) }.
Arguments mkGates {G} _ _.
Arguments gs_m {G} _.
Arguments gs_votes {G} _.

Definition votes_of {G} (s : GateStore G) (id : string) : list Vote := default [] (gs_votes s !! id).

Section store.
Context `{RO : RangeOrder} {G : Type} `{Row G}.

Definition NewGates : GateStore G := mkGates ∅ ∅.

Definition keys (run target : string) (g : G) : bool := (row_Run g =s run) && (row_Target g =s target).

(** [findByRunStageLocked]: the first row of the iteration with the keys. *)
Definition findByKeys (s : GateStore G) (run target : string) : option G :=
  head (filter (fun g => keys run target g = true) (range_map (gs_m s)).*2).

Definition hydrate (s : GateStore G) (g : G) : G * list Vote := (g, votes_of s (row_ID g)).

Definition CreateGate (s : GateStore G) (now : Z) (g : G) : option store_error * GateStore G :=
  match findByKeys s (row_Run g) (row_Target g) with
  | Some _ => (Some (ErrConflict (row_ID g)), s)
  | None => (None, mkGates (<[row_ID g := row_created now g]> (gs_m s)) (gs_votes s))
  end.

Definition GetGate (s : GateStore G) (run target : string) : result store_error (G * list Vote) :=
  match findByKeys s run target with
  | None => Err (ErrNotFound run)
  | Some g => Ok (hydrate s g)
  end.

Definition ListGates (s : GateStore G) (run : string) : list (G * list Vote) :=
  sort_slice (fun x y => row_CreatedAt x.1 <? row_CreatedAt y.1)
    (hydrate s <$> filter (fun g => row_Run g = run) (range_map (gs_m s)).*2).

Definition UpdateGateStatus (s : GateStore G) (now : Z) (id status by_ : string) : option store_error * GateStore G :=
  match gs_m s !! id with
  | None => (Some (ErrNotFound id), s)
  | Some g => (None, mkGates (<[id := row_settled status by_ now g]> (gs_m s)) (gs_votes s))
  end.

Definition AddVote (s : GateStore G) (now : Z) (v : Vote) : result store_error (bool * Z) * GateStore G :=
  match gs_m s !! v_GateID v with
  | None => (Err (ErrNotFound (v_GateID v)), s)
  | Some _ =>
      let existing := votes_of s (v_GateID v) in
      if existsb (fun e => v_ApproverSub e =s v_ApproverSub v) existing
      then (Ok (false, Z.of_nat (length existing)), s)
      else
        let v' := if is_zero_time (v_CreatedAt v)
                  then mkVote (v_ID v) (v_GateID v) (v_ApproverSub v) (v_ApproverEmail v) (v_Note v) now else v in
        (Ok (true, Z.of_nat (length existing) + 1), mkGates (gs_m s) (<[v_GateID v := existing ++ [v']]> (gs_votes s)))
  end.

(** ** The services' steps *)

(** An approver's request. *)
Record Approver := mkApprover { ap_Sub : string; ap_Email : string; ap_Note : string; ap_VoteID : string }.

Inductive outcome :=
| Returned (g : G)                 (* no error *)
| AlreadyApproved (g : G)          (* [ErrAlreadyApproved] *)
| GateResolved (g : G)             (* [ErrGateResolved] *)
| Failed (e : store_error).

(** A request between two of its store operations. *)
Inductive thread :=
| OpenGet (g : G) | OpenCreate (g : G) | OpenReget (g : G)
| ApproveGet (early : bool) (run target : string) (a : Approver)
| ApproveVote (run target id : string) (a : Approver)
| ApproveReload (run target : string) (a : Approver) (added : bool) (count : Z)
| ApproveAdvance (g : G) (a : Approver) (added : bool)
| RejectGet (run target email rejected : string)
| RejectSettle (g : G) (email rejected : string)
| Finished (o : outcome).

Definition voted (added : bool) (g : G) : thread :=
  Finished (if added then Returned g else AlreadyApproved g).

(** The next store operation of a request, at time [now].  [OpenGet] starts
    [Await] or [Promote] with the row it would create; [ApproveGet] starts
    [Approve], which refuses a settled gate only for stages ([early]). *)
Definition exec (now : Z) (t : thread) (s : GateStore G) : thread * GateStore G :=
  match t with
  | OpenGet g =>
      match GetGate s (row_Run g) (row_Target g) with
      | Ok (g', _) => (Finished (Returned g'), s)
      | Err _ => (OpenCreate g, s)
      end
  | OpenCreate g =>
      match CreateGate s now g with
      | (None, s) => (Finished (Returned (row_created now g)), s)
      | (Some _, s) => (OpenReget g, s)
      end
  | OpenReget g =>
      match GetGate s (row_Run g) (row_Target g) with
      | Ok (g', _) => (Finished (Returned g'), s)
      | Err _ => (Finished (Failed (ErrConflict (row_ID g))), s)
      end
  | ApproveGet early run target a =>
      match GetGate s run target with
      | Err e => (Finished (Failed e), s)
      | Ok (g, _) =>
          if early && negb (row_Status g =s status_awaiting) then (Finished (GateResolved g), s)
          else (ApproveVote run target (row_ID g) a, s)
      end
  | ApproveVote run target id a =>
      match AddVote s now (mkVote (ap_VoteID a) id (ap_Sub a) (ap_Email a) (ap_Note a) zero_time) with
      | (Err e, s) => (Finished (Failed e), s)
      | (Ok (added, count), s) => (ApproveReload run target a added count, s)
      end
  | ApproveReload run target a added count =>
      match GetGate s run target with
      | Err e => (Finished (Failed e), s)
      | Ok (g, _) =>
          if (row_Required g <=? count) && (row_Status g =s status_awaiting)
          then (ApproveAdvance g a added, s) else (voted added g, s)
      end
  | ApproveAdvance g a added =>
      match UpdateGateStatus s now (row_ID g) status_approved (ap_Email a) with
      | (Some e, s) => (Finished (Failed e), s)
      | (None, s) => (voted added (row_returned status_approved (ap_Email a) now g), s)
      end
  | RejectGet run target email rejected =>
      match GetGate s run target with
      | Err e => (Finished (Failed e), s)
      | Ok (g, _) =>
          if negb (row_Status g =s status_awaiting) then (Finished (GateResolved g), s)
          else (RejectSettle g email rejected, s)
      end
  | RejectSettle g email rejected =>
      match UpdateGateStatus s now (row_ID g) rejected email with
      | (Some e, s) => (Finished (Failed e), s)
      | (None, s) => (Finished (Returned (row_returned rejected email now g)), s)
      end
  | Finished o => (Finished o, s)
  end.

Record system := mkSystem { sy_store : GateStore G; sy_threads : list thread }.

(** Rows as the services build them: not approved, and with a threshold unless
    there is nothing to wait for. *)
Definition openable (g : G) : Prop :=
  row_Status g <> status_approved /\ (row_Status g = status_awaiting -> 1 <= row_Required g).

Definition starts (t : thread) : Prop :=
  match t with
  | OpenGet g => openable g
  | ApproveGet _ _ _ _ => True
  | RejectGet _ _ _ rejected => rejected <> status_approved /\ rejected <> status_awaiting
  | _ => False
  end.

(** A request arrives, or one request takes its next step; IDs are fresh UUIDs. *)
Inductive sstep : system -> system -> Prop :=
| step_arrive s ts t : starts t -> sstep (mkSystem s ts) (mkSystem s (ts ++ [t]))
| step_thread s ts i t now t' s' : ts !! i = Some t ->
    (forall g, t = OpenCreate g -> gs_m s !! row_ID g = None) ->
    exec now t s = (t', s') -> sstep (mkSystem s ts) (mkSystem s' (<[i := t']> ts)).
End store.
Arguments outcome G : clear implicits.
Arguments thread G : clear implicits.
Arguments system G : clear implicits.

(** ** The PostgreSQL stores

    Every operation of theirs is one statement with the effect it has in memory, except
    that [AddVote] inserts and then counts, in a transaction under READ COMMITTED: it
    counts the committed votes and its own. *)
Section postgres.
Context `{RO : RangeOrder} {G : Type} `{Row G}.

(** A request between two statements; [added] is whether it has inserted a row that it
    has not committed. *)
Inductive pg_request :=
| Plain (t : thread G)
| Inserted (run target id : string) (a : Approver) (added : bool)
| Counted (run target id : string) (a : Approver) (added : bool) (count : Z).

Record pg_system := mkPg { pg_store : GateStore G; pg_requests : list pg_request }.

Definition voter_in (s : GateStore G) (id sub : string) : bool := existsb (fun e => v_ApproverSub e =s sub) (votes_of s id).

(** The unique index entry of an uncommitted row. *)
Definition uncommitted (r : pg_request) : option (string * string) :=
  match r with
  | Inserted _ _ id a true | Counted _ _ id a true _ => Some (id, ap_Sub a)
  | _ => None
  end.

Definition pg_commit (s : GateStore G) (now : Z) (id : string) (a : Approver) (added : bool) : GateStore G :=
  if added
  then mkGates (gs_m s) (<[id := votes_of s id ++ [mkVote (ap_VoteID a) id (ap_Sub a) (ap_Email a) (ap_Note a) now]]> (gs_votes s))
  else s.

(** The next statement of the request [i]; [None] while it waits for the transaction
    that has inserted the same vote, or when there is no gate to vote on. *)
Definition pg_next (now : Z) (i : nat) (r : pg_request) (z : pg_system) : option pg_system :=
  let s := pg_store z in
  let becomes r' s' := Some (mkPg s' (<[i := r']> (pg_requests z))) in
  match r with
  | Plain (ApproveVote run target id a) =>
      if bool_decide (is_Some (gs_m s !! id)) && negb (bool_decide (Some (id, ap_Sub a) ∈ uncommitted <$> pg_requests z))
      then becomes (Inserted run target id a (negb (voter_in s id (ap_Sub a)))) s else None
  | Plain t => let '(t', s') := exec now t s in becomes (Plain t') s'
  | Inserted run target id a added =>
      becomes (Counted run target id a added (Z.of_nat (length (votes_of s id)) + (if added then 1 else 0))) s
  | Counted run target id a added count => becomes (Plain (ApproveReload run target a added count)) (pg_commit s now id a added)
  end.

(** A request arrives; takes its next step; fails, its transaction being rolled back; or
    takes the step and is told that it failed. *)
Inductive pg_step : pg_system -> pg_system -> Prop :=
| pg_arrive s rs t : starts t -> pg_step (mkPg s rs) (mkPg s (rs ++ [Plain t]))
| pg_thread z i r now z' : pg_requests z !! i = Some r ->
    (forall g, r = Plain (OpenCreate g) -> gs_m (pg_store z) !! row_ID g = None) ->
    pg_next now i r z = Some z' -> pg_step z z'
| pg_fails z i r e : pg_requests z !! i = Some r ->
    pg_step z (mkPg (pg_store z) (<[i := Plain (Finished (Failed e))]> (pg_requests z)))
| pg_unheard z i r now z' e : pg_requests z !! i = Some r ->
    (forall g, r = Plain (OpenCreate g) -> gs_m (pg_store z) !! row_ID g = None) ->
    pg_next now i r z = Some z' -> uncommitted <$> pg_requests z' !! i = Some None ->
    pg_step z (mkPg (pg_store z') (<[i := Plain (Finished (Failed e))]> (pg_requests z'))).
End postgres.
Arguments pg_request G : clear implicits.
Arguments pg_system G : clear implicits.

(** ** Invariant *)

Section invariant.
Context `{RO : RangeOrder} {G : Type} `{RowLaws G}.
Implicit Types s : GateStore G.

Definition same_keys (g g' : G) : Prop := row_Run g = row_Run g' /\ row_Target g = row_Target g'.

Record store_inv s : Prop := {
  si_id id g : gs_m s !! id = Some g -> row_ID g = id;
  si_unique id id' g g' : gs_m s !! id = Some g -> gs_m s !! id' = Some g' -> same_keys g g' -> id = id';
  si_voters id : NoDup (v_ApproverSub <$> votes_of s id);
  si_quorum id g : gs_m s !! id = Some g ->
    (row_Status g = status_awaiting -> 1 <= row_Required g) /\
    (row_Status g = status_approved -> 1 <= row_Required g <= Z.of_nat (length (votes_of s id)))
}.

(** Rows stay, with their keys and threshold, and votes only accumulate. *)
Definition grows s s' : Prop :=
  (forall id g, gs_m s !! id = Some g ->
     exists g', gs_m s' !! id = Some g' /\ same_keys g g' /\ row_Required g' = row_Required g) /\
  (forall id, (length (votes_of s id) <= length (votes_of s' id))%nat).

Definition has_votes s (id : string) (n : Z) : Prop := n <= Z.of_nat (length (votes_of s id)).

(** What a request knows about the store between two of its operations. *)
Definition thread_ok s (t : thread G) : Prop :=
  match t with
  | OpenGet g | OpenCreate g | OpenReget g => openable g
  | ApproveVote run target id _ =>
      exists g, gs_m s !! id = Some g /\ row_Run g = run /\ row_Target g = target
  | ApproveReload run target _ _ count =>
      exists id g, gs_m s !! id = Some g /\ row_Run g = run /\ row_Target g = target /\ has_votes s id count
  | ApproveAdvance g _ _ =>
      1 <= row_Required g /\ has_votes s (row_ID g) (row_Required g) /\
      exists g', gs_m s !! row_ID g = Some g' /\ row_Required g' = row_Required g
  | RejectGet _ _ _ rejected | RejectSettle _ _ rejected => rejected <> status_approved /\ rejected <> status_awaiting
  | ApproveGet _ _ _ _ | Finished _ => True
  end.

Lemma grows_refl s : grows s s.
Proof. split; [|lia]. intros id g Hg. by exists g. Qed.

Lemma thread_ok_grows s s' t : grows s s' -> thread_ok s t -> thread_ok s' t.
Proof.
  intros [Hr Hv]. unfold thread_ok, has_votes. destruct t; try done.
  - intros (g & Hg & <- & <-). destruct (Hr _ _ Hg) as (g' & Hg' & [Hk1 Hk2] & _). by exists g'.
  - intros (id & g & Hg & <- & <- & Hn). destruct (Hr _ _ Hg) as (g' & Hg' & [Hk1 Hk2] & _).
    exists id, g'. split_and!; try done. specialize (Hv id). lia.
  - intros (H1 & H2 & g' & Hg' & Hq). destruct (Hr _ _ Hg') as (g'' & Hg'' & _ & Hq').
    specialize (Hv (row_ID g)). split_and!; [done|lia|]. exists g''. split; [done|congruence].
Qed.

Lemma findByKeys_Some s run target g : store_inv s -> findByKeys s run target = Some g ->
  gs_m s !! row_ID g = Some g /\ row_Run g = run /\ row_Target g = target.
Proof.
  intros Hinv Hf. unfold findByKeys in Hf.
  assert (g ∈ filter (fun g => keys run target g = true) (range_map (gs_m s)).*2) as Hin.
  { destruct (filter _ _); [done|]. cbn in Hf. simplify_eq. left. }
  apply list_elem_of_filter in Hin as [Hk [id Hid]%elem_of_range_snd]. unfold keys in Hk. reflect_bools.
  by rewrite (si_id s Hinv id g Hid).
Qed.

Lemma findByKeys_None s run target id g : findByKeys s run target = None -> gs_m s !! id = Some g ->
  ~ (row_Run g = run /\ row_Target g = target).
Proof.
  unfold findByKeys. intros Hf Hg [<- <-].
  assert (g ∈ filter (fun g' => keys (row_Run g) (row_Target g) g' = true) (range_map (gs_m s)).*2) as Hin.
  { apply list_elem_of_filter. split; [unfold keys; by rewrite !String.eqb_refl|]. apply elem_of_range_snd. by exists id. }
  destruct (filter _ _); [by apply not_elem_of_nil in Hin|done].
Qed.

(** A row is replaced by one with the same identity. *)
Lemma settle_inv s now id g status by_ : store_inv s -> gs_m s !! id = Some g ->
  status <> status_awaiting ->
  (status = status_approved -> 1 <= row_Required g <= Z.of_nat (length (votes_of s id))) ->
  let s' := mkGates (<[id := row_settled status by_ now g]> (gs_m s)) (gs_votes s) in
  store_inv s' /\ grows s s'.
Proof.
  intros Hinv Hg Hna Hq s'. destruct (row_settled_keeps status by_ now g) as (Kid & Krun & Ktgt & Kreq & Kst).
  assert (forall id' g', gs_m s' !! id' = Some g' -> exists g0, gs_m s !! id' = Some g0 /\ row_ID g' = row_ID g0 /\
    same_keys g' g0 /\ row_Required g' = row_Required g0 /\
    (row_Status g' = row_Status g0 \/ (id' = id /\ row_Status g' = status))) as Hback.
  { intros id' g'. cbn. rewrite lookup_insert_Some. intros [[<- <-]|[_ Hg']].
    - exists g. split_and!; try done; by (split || right).
    - exists g'. split_and!; try done. by left. }
  split; [split|split].
  - intros id' g' (g0 & Hg0 & -> & _)%Hback. by apply (si_id s Hinv).
  - intros id1 id2 g1 g2 (h1 & Hh1 & _ & [A1 A2] & _)%Hback (h2 & Hh2 & _ & [B1 B2] & _)%Hback [C1 C2].
    apply (si_unique s Hinv id1 id2 h1 h2 Hh1 Hh2). split; congruence.
  - apply (si_voters s Hinv).
  - intros id' g' (g0 & Hg0 & _ & _ & -> & Hs)%Hback. destruct (si_quorum s Hinv id' g0 Hg0) as [Qa Qp].
    destruct Hs as [->|[-> Hs]]; [done|]. rewrite Hs. split; [done|]. intros Hst. rewrite Hg0 in Hg.
    injection Hg as ->. by apply Hq.
  - intros id' g' Hg'. cbn. destruct (decide (id' = id)) as [->|Hne].
    + rewrite lookup_insert_eq. eexists. split; [done|]. rewrite Hg in Hg'. injection Hg' as <-. by split; [split|].
    + rewrite lookup_insert_ne by done. by exists g'.
  - intros id'. apply Nat.le_refl.
Qed.

Lemma create_inv s now g : store_inv s -> openable g -> gs_m s !! row_ID g = None ->
  findByKeys s (row_Run g) (row_Target g) = None ->
  let s' := mkGates (<[row_ID g := row_created now g]> (gs_m s)) (gs_votes s) in store_inv s' /\ grows s s'.
Proof.
  intros Hinv [Hop1 Hop2] Hfresh Hnone s'. destruct (row_created_keeps now g) as (Kid & Krun & Ktgt & Kreq & Kst).
  assert (forall id' g', gs_m s !! id' = Some g' -> ~ same_keys (row_created now g) g') as Hno.
  { intros id' g' Hg' [K1 K2]. apply (findByKeys_None s _ _ id' g' Hnone Hg'). split; congruence. }
  split; [split|split].
  - intros id' g'. cbn. rewrite lookup_insert_Some. intros [[<- <-]|[_ Hg']]; [done|by apply (si_id s Hinv)].
  - intros id1 id2 g1 g2. cbn. rewrite !lookup_insert_Some.
    intros [[<- <-]|[_ H1]] [[<- <-]|[_ H2]] Hk; [done|by destruct (Hno id2 g2)| |by apply (si_unique s Hinv id1 id2 g1 g2)].
    destruct (Hno id1 g1 H1). destruct Hk. by split.
  - apply (si_voters s Hinv).
  - intros id' g'. cbn. rewrite lookup_insert_Some. intros [[<- <-]|[_ Hg']].
    + rewrite Kst, Kreq. split; [done|]. intros ?. done.
    + by apply (si_quorum s Hinv).
  - intros id' g' Hg'. cbn. rewrite lookup_insert_ne by congruence. by exists g'.
  - intros id'. apply Nat.le_refl.
Qed.

Lemma add_vote_inv s now v r s' : store_inv s -> AddVote s now v = (Ok r, s') ->
  store_inv s' /\ grows s s' /\ has_votes s' (v_GateID v) r.2 /\ is_Some (gs_m s' !! v_GateID v).
Proof.
  intros Hinv. unfold AddVote. destruct (gs_m s !! v_GateID v) as [g|] eqn:Hg; [|done].
  destruct (existsb _ _) eqn:He; intros [= <- <-]; cbn.
  { split_and!; [done|apply grows_refl|unfold has_votes; lia|by rewrite Hg]. }
  set (v' := if is_zero_time _ then _ else _).
  assert (v_ApproverSub v' = v_ApproverSub v) as Hsub by (unfold v'; by destruct (is_zero_time _)).
  set (s' := mkGates _ _). assert (forall id, votes_of s' id =
    if decide (id = v_GateID v) then votes_of s (v_GateID v) ++ [v'] else votes_of s id) as Hv.
  { intros id. change (votes_of s' id) with (default [] (<[v_GateID v := votes_of s (v_GateID v) ++ [v']]> (gs_votes s) !! id)).
    destruct (decide (id = v_GateID v)) as [->|]; [by rewrite lookup_insert_eq|by rewrite lookup_insert_ne]. }
  assert (forall id, (length (votes_of s id) <= length (votes_of s' id))%nat) as Hlen.
  { intros id. rewrite Hv. destruct (decide (id = v_GateID v)) as [->|]; [rewrite length_app|]; lia. }
  split_and!; [split|split| |].
  - apply (si_id s Hinv).
  - apply (si_unique s Hinv).
  - intros id. rewrite Hv. destruct (decide _) as [->|]; [|by apply (si_voters s Hinv)].
    rewrite fmap_app. apply NoDup_app. split_and!; [by apply (si_voters s Hinv)| |cbn; apply NoDup_singleton].
    intros x Hx Hin. cbn in Hin. apply list_elem_of_singleton in Hin. subst x. rewrite Hsub in Hx.
    apply list_elem_of_fmap in Hx as (e & Heq & Hin). rewrite <- not_true_iff_false in He. apply He, existsb_exists.
    exists e. split; [by apply list_elem_of_In|]. rewrite Heq. apply String.eqb_refl.
  - intros id g' Hg'. destruct (si_quorum s Hinv id g' Hg') as [Qa Qp]. split; [done|]. intros Hst.
    specialize (Qp Hst). specialize (Hlen id). lia.
  - intros id g' Hg'. by exists g'.
  - done.
  - unfold has_votes. rewrite Hv, decide_True by done. rewrite length_app. cbn. lia.
  - cbn. by rewrite Hg.
Qed.

(** One step of a request keeps the store's invariant and what the requests
    know. *)
Lemma exec_inv now t s t' s' : store_inv s -> thread_ok s t ->
  (forall g, t = OpenCreate g -> gs_m s !! row_ID g = None) -> exec now t s = (t', s') ->
  store_inv s' /\ grows s s' /\ thread_ok s' t'.
Proof.
  intros Hinv Hok Hfresh He. pose proof (grows_refl s) as Hrefl. unfold exec, GetGate, hydrate in He.
  destruct t as [g|g|g|early run target a|run target id a|run target a added count|g a added|run target email rej|g email rej|o].
  - destruct (findByKeys _ _ _); injection He as <- <-; by split_and!.
  - unfold CreateGate in He. destruct (findByKeys _ _ _) eqn:Hf; injection He as <- <-; [by split_and!|].
    destruct (create_inv s now g Hinv Hok (Hfresh g eq_refl) Hf). by split_and!.
  - destruct (findByKeys _ _ _); injection He as <- <-; by split_and!.
  - destruct (findByKeys s run target) as [g|] eqn:Hf; [|injection He as <- <-; by split_and!].
    destruct (findByKeys_Some s run target g Hinv Hf) as (Hg & Hk).
    destruct (_ && _); injection He as <- <-; split_and!; try done. by exists g.
  - destruct Hok as (g & Hg & <- & <-).
    destruct (AddVote _ _ _) as [[[added count]|e] s1] eqn:Ha; [|].
    + injection He as <- <-. destruct (add_vote_inv s now _ _ s1 Hinv Ha) as (Hi & [Hr Hv] & Hn & _).
      split_and!; [done|by split|]. cbn in Hn. destruct (Hr id g Hg) as (g' & Hg' & [K1 K2] & _).
      exists id, g'. by split_and!.
    + unfold AddVote in Ha. cbn in Ha. rewrite Hg in Ha. by destruct (existsb _ _).
  - destruct (findByKeys s run target) as [g|] eqn:Hf; [|injection He as <- <-; by split_and!].
    destruct (findByKeys_Some s run target g Hinv Hf) as (Hg & Hk1 & Hk2).
    destruct Hok as (id & g0 & Hg0 & Hr0 & Ht0 & Hn).
    assert (id = row_ID g) as -> by (apply (si_unique s Hinv id (row_ID g) g0 g Hg0 Hg); split; congruence).
    destruct (_ && _) eqn:Hc; injection He as <- <-; [|by split_and!]. reflect_bools.
    split; [done|]. split; [done|].
    split; [by apply (proj1 (si_quorum s Hinv _ g Hg))|]. split; [unfold has_votes in *; lia|by exists g].
  - destruct Hok as (Hq & Hn & g' & Hg' & Hreq). unfold UpdateGateStatus in He. rewrite Hg' in He.
    injection He as <- <-. destruct (settle_inv s now (row_ID g) g' status_approved (ap_Email a) Hinv Hg') as [Hi Hgr].
    { intros Heq. by apply status_apart. }
    { intros _. rewrite Hreq. unfold has_votes in Hn. lia. }
    split_and!; [done|done|]. by unfold voted.
  - destruct (findByKeys s run target) as [g|] eqn:Hf; [|injection He as <- <-; by split_and!].
    destruct (negb _); injection He as <- <-; by split_and!.
  - destruct Hok as [Hna Hnw]. unfold UpdateGateStatus in He.
    destruct (gs_m s !! row_ID g) as [g'|] eqn:Hg'; injection He as <- <-; [|by split_and!].
    destruct (settle_inv s now (row_ID g) g' rej email Hinv Hg' Hnw ltac:(done)). by split_and!.
  - injection He as <- <-. by split_and!.
Qed.

Definition sys_inv (y : system G) : Prop :=
  store_inv (sy_store y) /\ forall t, t ∈ sy_threads y -> thread_ok (sy_store y) t.

Lemma sstep_inv y y' : sys_inv y -> sstep y y' -> sys_inv y'.
Proof.
  intros [Hi Ht] Hs. destruct Hs as [s ts t Hst|s ts i t now t' s' Hti Hfresh He]; cbn in *.
  - split; [done|]. cbn. intros t' [Hin|Hin%list_elem_of_singleton]%elem_of_app; [by apply Ht|]. subst t'.
    destruct t; cbn in *; try done.
  - destruct (exec_inv now t s t' s' Hi (Ht t ltac:(by eapply list_elem_of_lookup_2)) Hfresh He) as (Hi' & Hg & Ht').
    split; [done|]. cbn. intros t0 Hin. apply list_elem_of_lookup in Hin as [j Hj].
    destruct (decide (j = i)) as [->|Hne].
    + rewrite list_lookup_insert_eq in Hj by (by eapply lookup_lt_Some). by injection Hj as <-.
    + rewrite list_lookup_insert_ne in Hj by done. eapply thread_ok_grows; [exact Hg|]. apply Ht.
      by eapply list_elem_of_lookup_2.
Qed.

(** ** No quorum is lost *)

(** A request in flight that will find the quorum of the row [g]. *)
Definition covers (id : string) (g : G) (t : thread G) : Prop :=
  match t with
  | ApproveReload run target _ _ count => row_Run g = run /\ row_Target g = target /\ row_Required g <= count
  | ApproveAdvance g' _ _ => row_ID g' = id
  | _ => False
  end.

Record no_lost (y : system G) : Prop := {
  nl_votes id : gs_m (sy_store y) !! id = None -> votes_of (sy_store y) id = [];
  nl_cover id g : gs_m (sy_store y) !! id = Some g -> row_Status g = status_awaiting ->
    has_votes (sy_store y) id (row_Required g) -> exists j t, sy_threads y !! j = Some t /\ covers id g t
}.

Lemma add_vote_effect s now v added count s' : AddVote s now v = (Ok (added, count), s') ->
  gs_m s' = gs_m s /\ is_Some (gs_m s !! v_GateID v) /\ count = Z.of_nat (length (votes_of s' (v_GateID v))) /\
  forall id, id <> v_GateID v -> votes_of s' id = votes_of s id.
Proof.
  unfold AddVote. destruct (gs_m s !! v_GateID v); [|done]. destruct (existsb _ _); intros [= <- <- <-].
  - split_and!; [done|by eexists|done|done].
  - split_and!; [done|by eexists| |].
    + unfold votes_of at 2. cbn [gs_votes]. rewrite lookup_insert_eq. cbn. rewrite length_app. cbn. lia.
    + intros id Hne. unfold votes_of. cbn [gs_votes]. by rewrite lookup_insert_ne.
Qed.

(** The thread that steps is not the cover, or its next state is. *)
Lemma cover_moves (ts : list (thread G)) i t t' id g :
  ts !! i = Some t -> (covers id g t -> covers id g t') ->
  (exists j t0, ts !! j = Some t0 /\ covers id g t0) ->
  exists j t0, <[i := t']> ts !! j = Some t0 /\ covers id g t0.
Proof.
  intros Hi Hc (j & t0 & Hj & Hcov). destruct (decide (j = i)) as [->|Hne].
  - exists i, t'. rewrite list_lookup_insert_eq by (by eapply lookup_lt_Some). split; [done|]. apply Hc. congruence.
  - exists j, t0. by rewrite list_lookup_insert_ne.
Qed.

Lemma no_lost_settle s ts i t t' now st by_ g0 : no_lost (mkSystem s ts) -> ts !! i = Some t ->
  st <> status_awaiting ->
  (forall id g, covers id g t -> id = row_ID g0) ->
  forall g1, gs_m s !! row_ID g0 = Some g1 ->
  no_lost (mkSystem (mkGates (<[row_ID g0 := row_settled st by_ now g1]> (gs_m s)) (gs_votes s)) (<[i := t']> ts)).
Proof.
  intros [Hv Hc] Hi Hst Hcov g1 Hg1. destruct (row_settled_keeps st by_ now g1) as (_ & _ & _ & _ & Kst).
  split; cbn in *.
  - intros id. rewrite lookup_insert_None. intros [Hn _]. by apply Hv.
  - intros id g. rewrite lookup_insert_Some. intros [[<- <-]|[Hne Hg]] Haw Hq; [congruence|].
    eapply cover_moves; [exact Hi| |by apply Hc]. intros Hct. by apply Hcov in Hct.
Qed.

Lemma exec_no_lost now t s ts i t' s' : store_inv s -> thread_ok s t -> no_lost (mkSystem s ts) -> ts !! i = Some t ->
  (forall g, t = OpenCreate g -> gs_m s !! row_ID g = None) -> exec now t s = (t', s') ->
  no_lost (mkSystem s' (<[i := t']> ts)).
Proof.
  intros Hinv Hok Hnl Hi Hfresh He. pose proof Hnl as [Hv Hc]. cbn in Hv, Hc.
  assert (forall t2, (forall id g, covers id g t -> covers id g t2) -> no_lost (mkSystem s (<[i := t2]> ts))) as Hsame.
  { intros t2 Ht2. split; cbn; [done|]. intros id g Hg Haw Hq.
    eapply cover_moves; [exact Hi|apply Ht2|by apply Hc]. }
  unfold exec, GetGate, hydrate in He.
  destruct t as [g|g|g|early run target a|run target id a|run target a added count|g a added|run target email rej|g email rej|o].
  - destruct (findByKeys _ _ _); injection He as <- <-; by apply Hsame.
  - unfold CreateGate in He. destruct (findByKeys _ _ _) eqn:Hf; injection He as <- <-; [by apply Hsame|].
    destruct (row_created_keeps now g) as (_ & _ & _ & Kreq & Kst). split; cbn.
    + intros id. rewrite lookup_insert_None. intros [Hn _]. by apply Hv.
    + intros id g'. rewrite lookup_insert_Some. intros [[<- <-]|[_ Hg]] Haw Hq.
      * specialize (Hv _ (Hfresh g eq_refl)). unfold has_votes in Hq. cbn in Hq. unfold votes_of in *. cbn in Hq.
        rewrite Hv, Kreq in Hq. rewrite Kst in Haw. destruct Hok as [_ Hok]. specialize (Hok Haw). cbn in Hq. lia.
      * eapply cover_moves; [exact Hi|done|by apply Hc].
  - destruct (findByKeys _ _ _); injection He as <- <-; by apply Hsame.
  - destruct (findByKeys s run target); [destruct (_ && _)|]; injection He as <- <-; by apply Hsame.
  - destruct (AddVote _ _ _) as [[[added count]|e] s1] eqn:Ha; injection He as <- <-.
    + destruct (add_vote_effect s now _ added count s1 Ha) as (Hm & [g0 Hg0] & Hcount & Hother). cbn in *.
      destruct Hok as (g1 & Hg1 & <- & <-). split; cbn; rewrite Hm.
      * intros id' Hn. rewrite Hother by (intros ->; congruence). by apply Hv.
      * intros id' g Hg Haw Hq. destruct (decide (id' = id)) as [->|Hne].
        -- exists i. eexists. rewrite list_lookup_insert_eq by (by eapply lookup_lt_Some). split; [done|]. cbn.
           rewrite Hg1 in Hg. injection Hg as <-. unfold has_votes in Hq. split_and!; [done|done|lia].
        -- eapply cover_moves; [exact Hi|done|apply Hc; [done|done|]]. unfold has_votes in *. by rewrite <- Hother.
    + unfold AddVote in Ha. cbn in Ha. destruct Hok as (g1 & Hg1 & _). rewrite Hg1 in Ha. by destruct (existsb _ _).
  - split; cbn.
    + destruct (findByKeys s run target); [destruct (_ && _)|]; injection He as <- <-; done.
    + assert (s' = s) as -> by (destruct (findByKeys s run target); [destruct (_ && _)|]; by injection He).
      intros id g Hg Haw Hq. eapply cover_moves; [exact Hi| |by apply Hc]. intros (Hr & Ht & Hle).
      destruct (findByKeys s run target) as [g'|] eqn:Hf.
      * destruct (findByKeys_Some s run target g' Hinv Hf) as (Hg' & Hk1 & Hk2).
        assert (id = row_ID g') as -> by (apply (si_unique s Hinv id (row_ID g') g g' Hg Hg'); split; congruence).
        rewrite Hg in Hg'. injection Hg' as <-.
        rewrite (proj2 (Z.leb_le _ _) Hle), (proj2 (String.eqb_eq _ _) Haw) in He. cbn in He. by injection He as <-.
      * by destruct (findByKeys_None s run target id g Hf Hg).
  - destruct Hok as (_ & _ & g' & Hg' & _). unfold UpdateGateStatus in He. rewrite Hg' in He. injection He as <- <-.
    eapply no_lost_settle; [done|done|intros Heq; by apply status_apart|done|done].
  - destruct (findByKeys s run target); [destruct (negb _)|]; injection He as <- <-; by apply Hsame.
  - destruct Hok as [_ Hnw]. unfold UpdateGateStatus in He.
    destruct (gs_m s !! row_ID g) as [g'|] eqn:Hg'; injection He as <- <-; [|by apply Hsame].
    eapply no_lost_settle; [done|done|done|done|done].
  - injection He as <- <-. by apply Hsame.
Qed.
End invariant.

(** ** The PostgreSQL stores' invariant *)

Section pg_invariant.
Context `{RO : RangeOrder} {G : Type} `{RowLaws G}.
Implicit Types s : GateStore G.

(** What a request that is voting knows. *)
Definition voting_ok s (run target id : string) (a : Approver) (added : bool) : Prop :=
  (exists g, gs_m s !! id = Some g /\ row_Run g = run /\ row_Target g = target) /\
  (added = true -> ap_Sub a ∉ v_ApproverSub <$> votes_of s id).

Definition request_ok s (r : pg_request G) : Prop :=
  match r with
  | Plain t => thread_ok s t
  | Inserted run target id a added => voting_ok s run target id a added
  | Counted run target id a added count =>
      voting_ok s run target id a added /\ count <= Z.of_nat (length (votes_of s id)) + (if added then 1 else 0)
  end.

Record pg_inv (z : pg_system G) : Prop := {
  pv_store : store_inv (pg_store z);
  pv_request i r : pg_requests z !! i = Some r -> request_ok (pg_store z) r;
  pv_apart i j r r' x : pg_requests z !! i = Some r -> pg_requests z !! j = Some r' ->
    uncommitted r = Some x -> uncommitted r' = Some x -> i = j
}.

Lemma voter_in_elem s id sub : voter_in s id sub = true <-> sub ∈ v_ApproverSub <$> votes_of s id.
Proof.
  unfold voter_in. rewrite existsb_exists, list_elem_of_fmap. split.
  - intros (e & He%list_elem_of_In & Heq%String.eqb_eq). by exists e.
  - intros (e & -> & He%list_elem_of_In). exists e. by rewrite String.eqb_refl.
Qed.

(** Only a vote changes the votes. *)
Lemma exec_votes now (t : thread G) s t' s' : (forall run target id a, t <> ApproveVote run target id a) -> exec now t s = (t', s') ->
  gs_votes s' = gs_votes s.
Proof.
  intros Ht He. unfold exec, CreateGate, UpdateGateStatus in He. destruct t as [| | | |run target id a| | | | |]; try by crush_branches.
  by destruct (Ht run target id a).
Qed.

(** What a request knows survives the votes of others. *)
Lemma request_ok_grows s s' r : grows s s' -> request_ok s r ->
  (forall id sub, uncommitted r = Some (id, sub) -> sub ∈ v_ApproverSub <$> votes_of s' id -> sub ∈ v_ApproverSub <$> votes_of s id) ->
  request_ok s' r.
Proof.
  intros [Hr Hv] Hok Hnew. assert (forall run target id a added, uncommitted r = (if added : bool then Some (id, ap_Sub a) else None) ->
    voting_ok s run target id a added -> voting_ok s' run target id a added) as Hvote.
  { intros run target id a added Hu [(g & Hg & <- & <-) Hn]. split.
    - destruct (Hr _ _ Hg) as (g' & ? & [? ?] & _). by exists g'.
    - intros ->. intros Hin. apply (Hn eq_refl). by eapply Hnew. }
  destruct r as [t|run target id a added|run target id a added count]; cbn in *.
  - by eapply thread_ok_grows.
  - apply Hvote; [by destruct added|done].
  - destruct Hok as [Hok Hc]. specialize (Hv id). split; [apply Hvote; [by destruct added|done]|lia].
Qed.

(** Committing a vote is the vote of the in-memory store. *)
Lemma pg_commit_AddVote s now id a : is_Some (gs_m s !! id) -> ap_Sub a ∉ v_ApproverSub <$> votes_of s id ->
  AddVote s now (mkVote (ap_VoteID a) id (ap_Sub a) (ap_Email a) (ap_Note a) zero_time) =
    (Ok (true, Z.of_nat (length (votes_of s id)) + 1), pg_commit s now id a true).
Proof.
  intros [g Hg] Hn. unfold AddVote. cbn [v_GateID v_ApproverSub]. rewrite Hg.
  change (existsb _ _) with (voter_in s id (ap_Sub a)). destruct (voter_in s id (ap_Sub a)) eqn:He; [|done].
  by apply voter_in_elem in He.
Qed.

Lemma pg_commit_inv s now run target id a added : store_inv s -> voting_ok s run target id a added ->
  let s' := pg_commit s now id a added in
  store_inv s' /\ grows s s' /\ length (votes_of s' id) = (length (votes_of s id) + (if added then 1 else 0))%nat /\
  (forall id' sub, sub ∈ v_ApproverSub <$> votes_of s' id' -> sub ∈ v_ApproverSub <$> votes_of s id' \/ added = true /\ id' = id /\ sub = ap_Sub a).
Proof.
  intros Hi [(g & Hg & _) Hn]. destruct added; [|split_and!; [done|apply grows_refl|cbn; lia|by left]].
  pose proof (pg_commit_AddVote s now id a (mk_is_Some _ _ Hg) (Hn eq_refl)) as Ha.
  destruct (add_vote_inv s now _ _ _ Hi Ha) as (Hi' & Hg' & _). split; [done|]. split; [done|]. split.
  - unfold votes_of. cbn [gs_votes pg_commit]. rewrite lookup_insert_eq. cbn. rewrite length_app. done.
  - intros id' sub. unfold votes_of at 1. cbn [gs_votes pg_commit]. destruct (decide (id' = id)) as [->|]; [|rewrite lookup_insert_ne by done; by left].
    rewrite lookup_insert_eq. cbn. rewrite fmap_app, elem_of_app. intros [?|?%list_elem_of_singleton]; [by left|by right].
Qed.

(** One request moves. *)
Lemma pg_inv_move z i r r' s' : pg_inv z -> pg_requests z !! i = Some r -> store_inv s' -> grows (pg_store z) s' ->
  request_ok s' r' ->
  (forall j r0, j <> i -> pg_requests z !! j = Some r0 -> uncommitted r' <> None -> uncommitted r0 <> uncommitted r') ->
  (forall id sub, sub ∈ v_ApproverSub <$> votes_of s' id -> sub ∈ v_ApproverSub <$> votes_of (pg_store z) id \/ uncommitted r = Some (id, sub)) ->
  pg_inv (mkPg s' (<[i := r']> (pg_requests z))).
Proof.
  intros Hz Hr Hs' Hg Hok Hapart Hnew. split; cbn; [done| |].
  - intros j r0. destruct (decide (j = i)) as [->|Hne].
    + rewrite list_lookup_insert_eq by (by eapply lookup_lt_Some). by intros [= <-].
    + rewrite list_lookup_insert_ne by done. intros Hj. eapply request_ok_grows; [exact Hg|by eapply (pv_request z Hz)|].
      intros id sub Hu Hin. destruct (Hnew _ _ Hin) as [?|Hri]; [done|]. destruct Hne. by eapply (pv_apart z Hz).
  - intros j k r1 r2 x. destruct (decide (j = i)) as [->|Hj], (decide (k = i)) as [->|Hk]; [done| | |];
      rewrite ?list_lookup_insert_eq by (by eapply lookup_lt_Some); rewrite ?list_lookup_insert_ne by done.
    + intros [= <-] Hk2 Hu1 Hu2. destruct (Hapart k r2 Hk Hk2); congruence.
    + intros Hj1 [= <-] Hu1 Hu2. destruct (Hapart j r1 Hj Hj1); congruence.
    + apply (pv_apart z Hz).
Qed.

Lemma pg_next_plain now i (t : thread G) z : (forall run target id a, t <> ApproveVote run target id a) ->
  pg_next now i (Plain t) z =
  Some (mkPg (exec now t (pg_store z)).2 (<[i := Plain (exec now t (pg_store z)).1]> (pg_requests z))).
Proof.
  intros Ht. unfold pg_next. destruct t as [| | | |run target id a| | | | |]; try by destruct (exec now _ _).
  by destruct (Ht run target id a).
Qed.

Lemma pg_next_inv now i r z z' : pg_inv z -> pg_requests z !! i = Some r ->
  (forall g, r = Plain (OpenCreate g) -> gs_m (pg_store z) !! row_ID g = None) -> pg_next now i r z = Some z' -> pg_inv z'.
Proof.
  intros Hz Hr Hfresh Hn. pose proof (pv_request z Hz i r Hr) as Hok.
  destruct r as [t|run target id a added|run target id a added count].
  - assert ((exists run target id a, t = ApproveVote run target id a) \/ forall run target id a, t <> ApproveVote run target id a)
      as [(run & target & id & a & ->)|Ht] by (destruct t; eauto 6; right; by intros).
    + cbn in Hn, Hok. destruct (_ && _) eqn:Hg; [|done]. injection Hn as <-. apply andb_true_iff in Hg as [_ Hu%negb_true_iff%bool_decide_eq_false].
      eapply pg_inv_move; [done|done|apply Hz|apply grows_refl| | |by left].
      * destruct Hok as (g & ?). split; [by exists g|]. intros Hv%negb_true_iff Hin%voter_in_elem. congruence.
      * cbn. intros j r0 Hne Hj Hnone Heq. destruct (negb _); [|done]. apply Hu. rewrite <- Heq. apply list_elem_of_fmap.
        exists r0. split; [done|]. by eapply list_elem_of_lookup_2.
    + rewrite pg_next_plain in Hn by done. injection Hn as <-.
      destruct (exec now t (pg_store z)) as [t' s'] eqn:He. cbn [fst snd].
      destruct (exec_inv now t (pg_store z) t' s' (pv_store z Hz) Hok) as (Hi & Hg & Ht'); [by intros g ->; apply Hfresh|done|].
      eapply pg_inv_move; [done|done|done|done|done|done|]. intros id sub. unfold votes_of.
      rewrite (exec_votes now t (pg_store z) t' s' Ht He). by left.
  - cbn in Hn, Hok. injection Hn as <-. eapply pg_inv_move; [done|done|apply Hz|apply grows_refl|by split| |by left].
    intros j r0 Hne Hj Hu Heq. destruct (uncommitted r0) as [x|] eqn:Hx; [|congruence]. apply Hne. by eapply (pv_apart z Hz).
  - cbn in Hn, Hok. injection Hn as <-. destruct Hok as [Hok Hc]. destruct (pg_commit_inv _ now _ _ _ _ _ (pv_store z Hz) Hok) as (Hi & Hg & Hlen & Hin).
    eapply pg_inv_move; [done|done|done|done| |done|].
    + destruct Hok as [(g & Hgm & Hrun & Htarget) _]. destruct Hg as [Hgr _]. destruct (Hgr _ _ Hgm) as (g' & ? & [? ?] & _).
      exists id, g'. unfold has_votes. split_and!; [done|congruence|congruence|]. rewrite Hlen. destruct added; lia.
    + intros id' sub [?|(-> & -> & ->)]%Hin; [by left|by right].
Qed.

Lemma pg_step_inv z z' : pg_inv z -> pg_step z z' -> pg_inv z'.
Proof.
  intros Hz Hs. destruct Hs as [s rs t Hst|z i r now z' Hr Hfresh Hn|z i r e Hr|z i r now z' e Hr Hfresh Hn Hu].
  - split; cbn; [apply Hz| |].
    + intros i r [Hi|[_ Hi]]%lookup_app_Some; [by eapply (pv_request _ Hz)|]. apply list_lookup_singleton_Some in Hi as [_ <-].
      destruct t; cbn in *; try done.
    + intros i j r r' x [Hi|[_ Hi]]%lookup_app_Some [Hj|[_ Hj]]%lookup_app_Some; [by eapply (pv_apart _ Hz)| | |];
        repeat match goal with H : [_] !! _ = Some _ |- _ => apply list_lookup_singleton_Some in H as [_ <-] end; done.
  - by eapply pg_next_inv.
  - eapply pg_inv_move; [done|done|apply Hz|apply grows_refl|done|done|by left].
  - assert (pg_inv z') as Hz' by (by eapply pg_next_inv). destruct (pg_requests z' !! i) as [r'|] eqn:Hr'; [|done].
    eapply pg_inv_move; [done|done|apply Hz'|apply grows_refl|done|done|by left].
Qed.
End pg_invariant.

(** ** Properties *)

Definition no_requests {G} (y : system G) : Prop := sy_store y = mkGates ∅ ∅ /\ sy_threads y = [].
Definition pg_no_requests {G} (z : pg_system G) : Prop := pg_store z = mkGates ∅ ∅ /\ pg_requests z = [].

Section properties.
Context `{RO : RangeOrder} {G : Type} `{RowLaws G}.

Lemma reachable_gates (y : system G) : reachable no_requests sstep y -> sys_inv y /\ no_lost y.
Proof.
  revert y. apply reachable_invariant.
  - intros [s ts] [Hs Hts]. cbn in Hs, Hts. subst. split; [split; [|by intros t ?%not_elem_of_nil]|].
    + split; cbn; try by intros * ?%lookup_empty_Some. intros id. apply NoDup_nil_2.
    + split; cbn; [done|]. by intros id g ?%lookup_empty_Some.
  - intros y y' [Hi Hn] Hs. split; [by eapply sstep_inv|]. destruct Hi as [Hi Ht].
    destruct Hs as [s ts t Hst|s ts i t now t' s' Hti Hfresh He]; cbn in *.
    + destruct Hn as [Hv Hc]. split; cbn in *; [done|]. intros id g Hg Haw Hq.
      destruct (Hc id g Hg Haw Hq) as (j & t0 & Hj & ?). exists j, t0. split; [|done]. by apply lookup_app_l_Some.
    + eapply exec_no_lost; [exact Hi| |exact Hn|exact Hti|exact Hfresh|exact He].
      apply Ht. by eapply list_elem_of_lookup_2.
Qed.

(** A run's target has at most one gate; nobody's vote counts twice; and an approved gate
    carries at least the number of distinct approvers required of it, at least one. *)
Definition gates_hold (s : GateStore G) : Prop :=
  (forall id id' g g', gs_m s !! id = Some g -> gs_m s !! id' = Some g' ->
     row_Run g = row_Run g' -> row_Target g = row_Target g' -> id = id') /\
  (forall id, NoDup (v_ApproverSub <$> votes_of s id)) /\
  (forall id g, gs_m s !! id = Some g -> row_Status g = status_approved ->
     1 <= row_Required g <= Z.of_nat (length (votes_of s id))).

Lemma store_inv_gates (s : GateStore G) : store_inv s -> gates_hold s.
Proof.
  intros Hi. split_and!.
  - intros id id' g g' Hg Hg' Hk1 Hk2. apply (si_unique _ Hi id id' g g' Hg Hg'). by split.
  - apply (si_voters _ Hi).
  - intros id g Hg. by apply (si_quorum _ Hi).
Qed.

(** C33. However the requests interleave, rejections and duplicate openings included, and
    in both stores, PostgreSQL's with its failing statements: a run's target has at most
    one gate, nobody's vote counts twice, and an approved gate carries at least the
    number of distinct approvers required of it, which is at least one.  In memory,
    besides, once the requests have been served no gate that has its quorum is left
    awaiting; PostgreSQL's store does not promise that. *)
Theorem approved_iff_quorum (y : system G) (z : pg_system G) :
  (reachable no_requests sstep y -> gates_hold (sy_store y) /\
     ((forall t, t ∈ sy_threads y -> exists o, t = Finished o) ->
      forall id g, gs_m (sy_store y) !! id = Some g -> row_Status g = status_awaiting ->
        Z.of_nat (length (votes_of (sy_store y) id)) < row_Required g)) /\
  (reachable pg_no_requests pg_step z -> gates_hold (pg_store z)).
Proof.
  split.
  - intros [[Hi _] Hn]%reachable_gates. split; [by apply store_inv_gates|].
    intros Hfin id g Hg Haw. apply Z.nle_gt. intros Hq.
    destruct (nl_cover y Hn id g Hg Haw Hq) as (j & t & Hj & Hc).
    destruct (Hfin t) as [o ->]; [by eapply list_elem_of_lookup_2|done].
  - intros Hr. apply store_inv_gates. assert (pg_inv z) as Hz; [|apply Hz].
    revert z Hr. apply reachable_invariant; [|apply pg_step_inv]. intros [s rs] [Hs Hrs]. cbn in *. subst. split; cbn; [|done|done].
    split; cbn; try by intros * ?%lookup_empty_Some. intros id. apply NoDup_nil_2.
Qed.
End properties.

(** ** Stage gates *)

Record StageApproval := mkStageApproval {
  sa_ID : string; sa_RunID : string; sa_StageID : string; sa_Status : string; sa_RequiredApprovers : Z;
  sa_ResolvedBy : string; sa_ResolvedAt : option Z; sa_CreatedAt : Z; sa_UpdatedAt : Z
}.

Definition StageApprovalAwaiting : string := "awaiting".
Definition StageApprovalApproved : string := "approved".
Definition StageApprovalRejected : string := "rejected".

Definition stage_created (now : Z) (g : StageApproval) : StageApproval :=
  let at_ := if is_zero_time (sa_CreatedAt g) then now else sa_CreatedAt g in
  mkStageApproval (sa_ID g) (sa_RunID g) (sa_StageID g) (sa_Status g) (sa_RequiredApprovers g)
    (sa_ResolvedBy g) (sa_ResolvedAt g) at_ at_.

Definition stage_settled (status by_ : string) (now : Z) (g : StageApproval) : StageApproval :=
  mkStageApproval (sa_ID g) (sa_RunID g) (sa_StageID g) status (sa_RequiredApprovers g)
    (if by_ =s "" then sa_ResolvedBy g else by_) (Some now) (sa_CreatedAt g) now.

Definition stage_returned (status by_ : string) (now : Z) (g : StageApproval) : StageApproval :=
  mkStageApproval (sa_ID g) (sa_RunID g) (sa_StageID g) status (sa_RequiredApprovers g)
    by_ (Some now) (sa_CreatedAt g) (sa_UpdatedAt g).

#[export] Instance StageApproval_Row : Row StageApproval := {
  row_ID := sa_ID; row_Run := sa_RunID; row_Target := sa_StageID; row_Required := sa_RequiredApprovers;
  row_Status := sa_Status; row_CreatedAt := sa_CreatedAt; row_created := stage_created; row_settled := stage_settled;
  row_returned := stage_returned; status_awaiting := StageApprovalAwaiting; status_approved := StageApprovalApproved
}.

#[export] Instance StageApproval_RowLaws : RowLaws StageApproval.
Proof. by split. Qed.

Definition normalizeApprovers (n : Z) : Z := if n <? 1 then 1 else n.

Definition Await (uuid runID stageID : string) (requiredApprovers : Z) : thread StageApproval :=
  OpenGet (mkStageApproval uuid runID stageID StageApprovalAwaiting (normalizeApprovers requiredApprovers)
    "" None zero_time zero_time).

Definition Approve (runID stageID : string) (a : Approver) : thread StageApproval := ApproveGet true runID stageID a.

Definition Reject (runID stageID approverEmail : string) : thread StageApproval :=
  RejectGet runID stageID approverEmail StageApprovalRejected.

Lemma stage_requests_start uuid runID stageID n a email :
  starts (Await uuid runID stageID n) /\ starts (Approve runID stageID a) /\ starts (Reject runID stageID email).
Proof.
  split; [split; [done|]|split; done]. intros _. change (1 <= normalizeApprovers n). unfold normalizeApprovers.
  destruct (Z.ltb_spec n 1); lia.
Qed.

(** ** Promotions *)

Record PromotionPolicy := mkPolicy { pp_Strategy : string; pp_RequiredApprovers : Z; pp_AutoPromoteOn : list string }.

Definition PromotionPending : string := "pending".
Definition PromotionAwaitingApproval : string := "awaiting_approval".
Definition PromotionApproved : string := "approved".
Definition PromotionDeploying : string := "deploying".
Definition PromotionDeployed : string := "deployed".
Definition PromotionFailed : string := "failed".

Record RunPromotion := mkRunPromotion {
  pr_ID : string; pr_RunID : string; pr_PipelineID : string; pr_EnvironmentID : string; pr_Status : string;
  pr_Strategy : string; pr_RequiredApprovers : Z; pr_RequestedBy : string; pr_PromotedAt : option Z;
  pr_CreatedAt : Z; pr_UpdatedAt : Z
}.

Definition promotion_created (now : Z) (p : RunPromotion) : RunPromotion :=
  let at_ := if is_zero_time (pr_CreatedAt p) then now else pr_CreatedAt p in
  mkRunPromotion (pr_ID p) (pr_RunID p) (pr_PipelineID p) (pr_EnvironmentID p) (pr_Status p) (pr_Strategy p)
    (pr_RequiredApprovers p) (pr_RequestedBy p) (pr_PromotedAt p) at_ at_.

Definition promotion_settled (status by_ : string) (now : Z) (p : RunPromotion) : RunPromotion :=
  mkRunPromotion (pr_ID p) (pr_RunID p) (pr_PipelineID p) (pr_EnvironmentID p) status (pr_Strategy p)
    (pr_RequiredApprovers p) (pr_RequestedBy p) (Some now) (pr_CreatedAt p) now.

Definition promotion_returned (status by_ : string) (now : Z) (p : RunPromotion) : RunPromotion :=
  mkRunPromotion (pr_ID p) (pr_RunID p) (pr_PipelineID p) (pr_EnvironmentID p) status (pr_Strategy p)
    (pr_RequiredApprovers p) (pr_RequestedBy p) (Some now) (pr_CreatedAt p) (pr_UpdatedAt p).

#[export] Instance RunPromotion_Row : Row RunPromotion := {
  row_ID := pr_ID; row_Run := pr_RunID; row_Target := pr_EnvironmentID; row_Required := pr_RequiredApprovers;
  row_Status := pr_Status; row_CreatedAt := pr_CreatedAt; row_created := promotion_created;
  row_settled := promotion_settled; row_returned := promotion_returned;
  status_awaiting := PromotionAwaitingApproval; status_approved := PromotionApproved
}.

#[export] Instance RunPromotion_RowLaws : RowLaws RunPromotion.
Proof. by split. Qed.

Definition requiredApprovers (pol : PromotionPolicy) : Z :=
  if pp_Strategy pol =s "auto" then 0 else if pp_RequiredApprovers pol <? 1 then 1 else pp_RequiredApprovers pol.

(** [Promote], the target's policy being loaded: an "auto" target is deployed at
    once, any other waits. *)
Definition Promotion_Promote (uuid runID pipelineID environmentID requestedBy : string) (pol : PromotionPolicy) (now : Z)
    : thread RunPromotion :=
  OpenGet (if pp_Strategy pol =s "auto"
    then mkRunPromotion uuid runID pipelineID environmentID PromotionDeployed (pp_Strategy pol) 0 requestedBy
           (Some now) zero_time zero_time
    else mkRunPromotion uuid runID pipelineID environmentID PromotionAwaitingApproval (pp_Strategy pol)
           (requiredApprovers pol) requestedBy None zero_time zero_time).

Definition Promotion_Approve (runID environmentID : string) (a : Approver) : thread RunPromotion :=
  ApproveGet false runID environmentID a.

Lemma promotion_requests_start uuid runID pid env by_ pol now a :
  starts (Promotion_Promote uuid runID pid env by_ pol now) /\ starts (Promotion_Approve runID env a).
Proof.
  split; [|done]. unfold Promotion_Promote, starts, openable. destruct (pp_Strategy pol =s "auto") eqn:Hs; [done|].
  split; [done|]. intros _. change (1 <= requiredApprovers pol). unfold requiredApprovers. rewrite Hs.
  destruct (Z.ltb_spec (pp_RequiredApprovers pol) 1); lia.
Qed.

Definition ToEnvironmentStatus (p : RunPromotion * list Vote) : EnvironmentStatus :=
  mkEnvironmentStatus (pr_EnvironmentID p.1) (pr_Status p.1) (pr_PromotedAt p.1)
    (match last p.2 with Some v => v_ApproverEmail v | None => "" end)
    (Z.of_nat (length p.2)) (pr_RequiredApprovers p.1).

Definition Statuses `{RangeOrder} (s : GateStore RunPromotion) (runID : string) : list EnvironmentStatus :=
  ToEnvironmentStatus <$> ListGates s runID.

(** ** Concrete requests *)

Section demo.
Local Existing Instance range_default.

Definition alice : Approver := mkApprover "sub-a" "a@example.org" "" "v1".
Definition bob : Approver := mkApprover "sub-b" "b@example.org" "" "v2".

(** The requests take the steps listed, by index; the clock counts them. *)
Fixpoint schedule {G} `{Row G} (l : list nat) (now : Z) (y : system G) : system G :=
  match l with
  | [] => y
  | i :: l =>
      match sy_threads y !! i with
      | None => y
      | Some t => let '(t', s') := exec now t (sy_store y) in schedule l (now + 1) (mkSystem s' (<[i := t']> (sy_threads y)))
      end
  end.

(** A gate for two, opened by request 0; the others approve, or reject. *)
Definition requests : list (thread StageApproval) :=
  [Await "gate" "run" "deploy" 2; Approve "run" "deploy" alice; Approve "run" "deploy" bob;
   Reject "run" "deploy" "carol@example.org"].

Definition after (l : list nat) : system StageApproval := schedule l 1 (mkSystem NewGates requests).

Definition gate_status (y : system StageApproval) : option string := sa_Status <$> gs_m (sy_store y) !! "gate".

(** One approver is not enough, whoever votes twice; two are. *)
Example demo_quorum : gate_status (after [0; 0; 1; 1; 1]%nat) = Some StageApprovalAwaiting /\
  gate_status (after [0; 0; 1; 1; 2; 2; 1; 2; 2]%nat) = Some StageApprovalApproved.
Proof. vm_compute. by split. Qed.

(** Neither service rechecks the status when it writes it: a rejection already
    answered as settled is overwritten by an approval in flight. *)
Example rejection_overwritten :
  let y := after [0; 0; 1; 1; 1; 2; 2; 2; 3; 3]%nat in
  gate_status y = Some StageApprovalRejected /\
  (exists g, sy_threads y !! 3%nat = Some (Finished (Returned g))) /\
  gate_status (after [0; 0; 1; 1; 1; 2; 2; 2; 3; 3; 2]%nat) = Some StageApprovalApproved.
Proof. vm_compute. split_and!; [done|by eexists|done]. Qed.

(** The schedules whose creations find no row under their ID are runs. *)
Fixpoint schedule_fresh (l : list nat) (now : Z) (y : system StageApproval) : bool :=
  match l with
  | [] => true
  | i :: l =>
      match sy_threads y !! i with
      | None => true
      | Some t =>
          (match t with
           | OpenCreate g => match gs_m (sy_store y) !! sa_ID g with None => true | Some _ => false end
           | _ => true
           end) &&
          (let '(t', s') := exec now t (sy_store y) in
           schedule_fresh l (now + 1) (mkSystem s' (<[i := t']> (sy_threads y))))
      end
  end.

Lemma schedule_reachable l : forall now y, schedule_fresh l now y = true -> reachable no_requests sstep y ->
  reachable no_requests sstep (schedule l now y).
Proof.
  induction l as [|i l IH]; cbn; intros now [s ts] Hf Hr; [done|]. cbn in *.
  destruct (ts !! i) as [t|] eqn:Hi; [|done]. apply andb_true_iff in Hf as [Hg Hf].
  destruct (exec now t s) as [t' s'] eqn:He. apply IH; [done|]. eapply reach_step; [exact Hr|].
  eapply step_thread; [done| |done]. intros g ->. cbn in *. by destruct (gs_m s !! sa_ID g).
Qed.

Lemma requests_reachable (l ts : list (thread StageApproval)) s : (forall t, t ∈ l -> starts t) ->
  reachable no_requests sstep (mkSystem s ts) -> reachable no_requests sstep (mkSystem s (ts ++ l)).
Proof.
  revert ts. induction l as [|t l IH]; intros ts Hl Hr; [by rewrite app_nil_r|].
  change (t :: l) with ([t] ++ l). rewrite app_assoc. apply IH; [intros t' Ht'; apply Hl; by right|].
  eapply reach_step; [exact Hr|]. apply step_arrive, Hl. by left.
Qed.

Lemma demo_requests_start t : t ∈ requests -> starts t.
Proof.
  unfold requests. rewrite !elem_of_cons, elem_of_nil.
  destruct (stage_requests_start "gate" "run" "deploy" 2 alice "carol@example.org") as (H1 & H2 & H3).
  by intros [->|[->|[->|[->|[]]]]].
Qed.

(** The same requests on PostgreSQL, by index. *)
Definition pg_new : pg_system StageApproval := mkPg NewGates (Plain <$> requests).
Fixpoint pg_schedule (l : list nat) (now : Z) (z : pg_system StageApproval) : option (pg_system StageApproval) :=
  match l with
  | [] => Some z
  | i :: l =>
      match pg_requests z !! i with
      | None => None
      | Some r =>
          if (match r with Plain (OpenCreate g) => bool_decide (gs_m (pg_store z) !! sa_ID g = None) | _ => true end)
          then match pg_next now i r z with Some z' => pg_schedule l (now + 1) z' | None => None end else None
      end
  end.

Lemma pg_schedule_reachable l : forall now z z', pg_schedule l now z = Some z' ->
  reachable pg_no_requests pg_step z -> reachable pg_no_requests pg_step z'.
Proof.
  induction l as [|i l IH]; cbn; intros now z z' Hs Hr; [by injection Hs as <-|].
  destruct (pg_requests z !! i) as [r|] eqn:Hi; [|done]. destruct (match r with Plain (OpenCreate _) => _ | _ => _ end) eqn:Hf; [|done].
  destruct (pg_next now i r z) as [z1|] eqn:Hn; [|done]. apply (IH _ _ _ Hs). eapply reach_step; [exact Hr|].
  eapply pg_thread; [exact Hi| |exact Hn]. intros g ->. by apply bool_decide_eq_true in Hf.
Qed.

Lemma pg_new_reachable : reachable pg_no_requests pg_step pg_new.
Proof.
  unfold pg_new. assert (forall (l : list (thread StageApproval)) rs, (forall t, t ∈ l -> starts t) -> reachable pg_no_requests pg_step (mkPg NewGates rs) ->
    reachable pg_no_requests pg_step (mkPg NewGates (rs ++ (Plain <$> l)))) as Hall.
  { induction l as [|t l IH]; intros rs Hl Hr; [by rewrite app_nil_r|]. cbn. change (Plain t :: ?x) with ([Plain t] ++ x).
    rewrite app_assoc. apply IH; [intros t' ?; apply Hl; by right|]. eapply reach_step; [exact Hr|]. apply pg_arrive, Hl. by left. }
  apply (Hall requests []); [apply demo_requests_start|]. by apply reach_init.
Qed.

(** Two approvers vote at the same time on a gate for two: each transaction counts its
    own vote only, both commit, and the gate has its quorum and is left awaiting. *)
Definition pg_race : option (pg_system StageApproval) :=
  pg_schedule [0; 0; 1; 2; 1; 2; 1; 2; 1; 2; 1; 2]%nat 1 pg_new.

Example quorum_left_awaiting :
  exists z, pg_race = Some z /\ reachable pg_no_requests pg_step z /\
    (fun g => (sa_Status g, sa_RequiredApprovers g)) <$> gs_m (pg_store z) !! "gate" = Some (StageApprovalAwaiting, 2) /\
    length (votes_of (pg_store z) "gate") = 2%nat /\
    (forall i, i = 1%nat \/ i = 2%nat -> exists g, pg_requests z !! i = Some (Plain (Finished (Returned g)))).
Proof.
  destruct pg_race as [z|] eqn:Hz; [|vm_compute in Hz; discriminate]. exists z. split; [done|].
  split; [by eapply pg_schedule_reachable, pg_new_reachable|].
  vm_compute in Hz. injection Hz as <-. split; [done|]. split; [done|]. intros i [->| ->]; by eexists.
Qed.

Lemma approved_iff_quorum_witness :
  let y := after [0; 0; 1; 1; 2; 2; 1; 2; 2]%nat in
  gate_status y = Some StageApprovalApproved /\
  (forall g, gs_m (sy_store y) !! "gate" = Some g -> row_Required g <= Z.of_nat (length (votes_of (sy_store y) "gate"))) /\
  gates_hold (pg_store pg_new).
Proof.
  intros y. assert (reachable no_requests sstep y) as Hr.
  { apply schedule_reachable; [vm_compute; reflexivity|]. apply (requests_reachable requests []); [apply demo_requests_start|].
    by apply reach_init. }
  assert (gate_status y = Some StageApprovalApproved) as Hs by (vm_compute; reflexivity).
  split; [exact Hs|]. destruct (approved_iff_quorum y pg_new) as [Hm Hp]. split; [|exact (Hp pg_new_reachable)].
  intros g Hg. destruct (Hm Hr) as ((_ & _ & Hq) & _).
  apply (Hq "gate" g Hg). unfold gate_status in Hs. rewrite Hg in Hs. cbn in Hs. by injection Hs.
Defined.
End demo.
