(* ===== verification/App.v ===== *)
(** * Applications: [internal/model/app.go], the configuration of
      [internal/model/canary.go], [internal/service/app_targets.go],
      [internal/deploy/deploytarget/target.go], [checkAppPrefix] of
      [internal/handler/app_inspection.go]

    The records of an application and the checks on its deployment
    configuration.  The image-reference parser (a third-party package) is an
    argument; canvas positions and HTTP statuses are left out. *)

From S2P Require Import Prelude GoStr GoPath GoRegexp Model Pipeline.
From Stdlib Require Import Ascii.
Local Open Scope Z_scope.

(** ** Canary configuration *)

Definition DeployStrategyRolling : string := "rolling".
Definition DeployStrategyCanary : string := "canary".

Record CanaryConfig := mkConfig {
  cc_Strategy : string; cc_Weight : Z; cc_AutoPromote : bool; cc_HealthWindowSeconds : Z
}.

Definition DefaultCanaryWeight : Z := 10.
Definition DefaultCanaryHealthWindowSeconds : Z := 300.
Definition minCanaryWeight : Z := 1.
Definition maxCanaryWeight : Z := 99.

Definition IsCanary (c : CanaryConfig) : bool := cc_Strategy c =s DeployStrategyCanary.

Definition Normalize (c : CanaryConfig) : CanaryConfig :=
  let strategy := if cc_Strategy c =s "" then DeployStrategyRolling else cc_Strategy c in
  if negb (strategy =s DeployStrategyCanary) then mkConfig strategy 0 false 0 else
  let weight := if cc_Weight c =? 0 then DefaultCanaryWeight else cc_Weight c in
  let window := if cc_AutoPromote c && (cc_HealthWindowSeconds c <=? 0)
                then DefaultCanaryHealthWindowSeconds else cc_HealthWindowSeconds c in
  mkConfig strategy weight (cc_AutoPromote c) window.

(** The field an invalid configuration is refused for. *)
Inductive config_error := BadWeight | BadWindow | BadStrategy.

Definition ValidateCanary (c : CanaryConfig) : option config_error :=
  if (cc_Strategy c =s "") || (cc_Strategy c =s DeployStrategyRolling) then None
  else if cc_Strategy c =s DeployStrategyCanary then
    if (cc_Weight c <? minCanaryWeight) || (maxCanaryWeight <? cc_Weight c) then Some BadWeight
    else if cc_AutoPromote c && (cc_HealthWindowSeconds c <? 0) then Some BadWindow
    else None
  else Some BadStrategy.

(** ** Applications *)

Definition AppHealthUnknown : string := "unknown".
Definition AppHealthHealthy : string := "healthy".
Definition AppHealthDegraded : string := "degraded".
Definition AppHealthFailed : string := "failed".

Definition BuildPlanDockerfile : string := "dockerfile".
Definition BuildPlanCompose : string := "compose".
Definition BuildPlanBuildpack : string := "buildpack".

Definition DeployTargetKind : Type := string.
Definition DeployTargetDockerHost : DeployTargetKind := "docker-host".
Definition DeployTargetKubernetes : DeployTargetKind := "kubernetes".
Definition DeployTargetCloudRun : DeployTargetKind := "cloud-run".
Definition DeployTargetECS : DeployTargetKind := "ecs".
Definition DeployTargetFly : DeployTargetKind := "fly".
Definition DeployTargetRender : DeployTargetKind := "render".
Definition DeployTargetSSH : DeployTargetKind := "ssh".

Record BuildPlan := mkBuildPlan {
  bp_Kind : string; bp_Path : string; bp_Args : gmap string string; bp_Buildpacks : list string;
  bp_Commit : string; bp_InstallationID : Z; bp_Files : list string; bp_Profiles : list string;
  bp_Variables : gmap string string
}.

Record ExternalServiceBinding := mkBinding {
  xb_Service : string; xb_Provider : string; xb_Resource : string; xb_Consumers : list string;
  xb_Environment : gmap string string
}.

Record DeployTarget := mkTarget {
  dt_Kind : DeployTargetKind; dt_HostID : string; dt_Namespace : string; dt_Region : string;
  dt_Service : string; dt_Prefix : string; dt_ExternalServices : list ExternalServiceBinding
}.

Record App := mkApp {
  a_ID : string; a_Name : string; a_Description : string; a_GitHubRepo : string; a_Branch : string;
  a_BuildPlan : option BuildPlan; a_DeployTarget : DeployTarget; a_RegistryRef : string; a_EnvironmentID : string;
  a_WebhookSecret : string; a_HasWebhook : bool; a_AutoDeploy : bool; a_Canary : CanaryConfig;
  a_CreatedAt : Z; a_UpdatedAt : Z; a_Version : Z;
  a_HealthStatus : string; a_HealthCheckedAt : option Z; a_HealthMessage : string; a_DeployedURL : string
}.

(** What clients see of an application. *)
Definition Redact (a : App) : App :=
  mkApp (a_ID a) (a_Name a) (a_Description a) (a_GitHubRepo a) (a_Branch a) (a_BuildPlan a) (a_DeployTarget a)
    (a_RegistryRef a) (a_EnvironmentID a) "" (negb (a_WebhookSecret a =s "")) (a_AutoDeploy a) (a_Canary a)
    (a_CreatedAt a) (a_UpdatedAt a) (a_Version a) (a_HealthStatus a) (a_HealthCheckedAt a) (a_HealthMessage a)
    (a_DeployedURL a).

Definition AppDeployKindDeploy : string := "deploy".
Definition AppDeployKindRollback : string := "rollback".

Record AppDeploy := mkAppDeploy {
  d_ID : string; d_AppID : string; d_RunID : string; d_PipelineID : string; d_ImageRef : string;
  d_Digest : string; d_Status : RunStatus; d_Kind : string; d_CreatedAt : Z
}.

Definition DeploymentScope (t : DeployTarget) : string :=
  let ns := if dt_Kind t =s DeployTargetKubernetes then
      let ns := trim_space (dt_Namespace t) in if ns =s "" then "default" else ns
    else "" in
  dt_Kind t +:+ "/" +:+ ns +:+ "/" +:+ dt_HostID t.

(** ** Workload names *)

Definition sanitize_rune (r : Z) : ascii :=
  if ((97 <=? r) && (r <=? 122)) || ((48 <=? r) && (r <=? 57)) || (r =? 45) then ascii_of_nat (Z.to_nat r)
  else if (65 <=? r) && (r <=? 90) then ascii_of_nat (Z.to_nat (r + 32))
  else "-"%char.

Definition sanitize (s : string) : string :=
  let b := String.string_of_list_ascii (sanitize_rune <$> runes s) in
  if b =s "" then "app" else b.

Definition AppPrefix (app : App) : string :=
  if negb (dt_Prefix (a_DeployTarget app) =s "") then dt_Prefix (a_DeployTarget app) else sanitize (a_Name app).

Definition RuntimeServiceName (app : App) (service : string) : string :=
  AppPrefix app +:+ "-" +:+ sanitize service.

(** [checkAppPrefix] against the applications of the store: [false] is a conflict. *)
Definition checkAppPrefix (apps : list App) (app : App) : bool :=
  if dt_Prefix (a_DeployTarget app) =s "" then true else
  negb (existsb (fun other =>
    negb (a_ID other =s a_ID app) && (AppPrefix other =s dt_Prefix (a_DeployTarget app))
      && (DeploymentScope (a_DeployTarget other) =s DeploymentScope (a_DeployTarget app))) apps).

(** ** Deployment checks *)

Definition prefixPattern : regex := dns_label 38.
Definition namespacePattern : regex := dns_label 61.
Definition variablePattern : regex :=
  Seq (Class [upper; lower; just "_"%char]) (Star (Class [upper; lower; digits09; just "_"%char])).
Definition commitPattern : regex := Times 40 (Class [("a"%char, "f"%char); digits09]).

Definition ValidCommit (s : string) : bool := MatchString commitPattern s.

Fixpoint contains_any (bad : list ascii) (s : string) : bool :=
  match s with
  | EmptyString => false
  | String c s => existsb (Ascii.eqb c) bad || contains_any bad s
  end.

Definition safeRelativePath (p : string) : bool :=
  let p := Clean p in
  negb (p =s "..") && negb (IsAbs p) && negb (has_prefix "../" p)
  && negb (contains_any [ascii_of_nat 0; ascii_of_nat 13; ascii_of_nat 10] p).

Inductive app_error :=
| BadRegistry | BadNamespace | BindingsNeedCompose | NamespaceNotKubernetes | RegionOrService | BadPrefix
| BadCloudRunPrefix | UnknownBuildPlan | BadCommit | BadInstallation | TooManyInputs | EscapingPath
| BadVariable (key : string) | CommitWithAutoDeploy
| BindingName | BindingProvider | BindingResource | BindingIncomplete (service : string) | BindingVariables
| BindingNoEnvironment.

Section checks.
Context `{RO : RangeOrder} (parseNamed : string -> bool).

Definition when {A} (b : bool) (e : A) (rest : option A) : option A := if b then Some e else rest.

(** The loop over [Variables]. *)
Fixpoint check_variables (vars : list (string * string)) : option app_error :=
  match vars with
  | [] => None
  | (key, value) :: vars =>
      when (negb (MatchString variablePattern key) || (8192 <? str_len value)) (BadVariable key) (check_variables vars)
  end.

Definition check_plan (autoDeploy : bool) (p : BuildPlan) : option app_error :=
  when (negb (bp_Kind p =s BuildPlanCompose) && negb (bp_Kind p =s BuildPlanDockerfile)
        && negb (bp_Kind p =s BuildPlanBuildpack)) UnknownBuildPlan (
  when (negb (bp_Commit p =s "") && negb (ValidCommit (bp_Commit p))) BadCommit (
  when (bp_InstallationID p <? 0) BadInstallation (
  when ((8 <? length (bp_Files p))%nat || (32 <? length (bp_Profiles p))%nat || (128 <? size (bp_Variables p))%nat)
    TooManyInputs (
  when (existsb (fun path => negb (path =s "") && negb (safeRelativePath path)) (bp_Files p ++ [bp_Path p]))
    EscapingPath (
  match check_variables (range_map (bp_Variables p)) with
  | Some e => Some e
  | None => when (negb (bp_Commit p =s "") && autoDeploy) CommitWithAutoDeploy None
  end))))).

(** The loop over [ExternalServices], with the services seen. *)
Fixpoint check_bindings (environmentID : string) (seen : gset string) (bs : list ExternalServiceBinding)
    : option app_error :=
  match bs with
  | [] => None
  | b :: bs =>
      when ((xb_Service b =s "") || bool_decide (xb_Service b ∈ seen)) BindingName (
      when (negb (xb_Provider b =s "gcp-cloud-sql") && negb (xb_Provider b =s "external")) BindingProvider (
      when ((trim_space (xb_Resource b) =s "") || (256 <? str_len (xb_Resource b))) BindingResource (
      when ((length (xb_Consumers b) =? 0)%nat || (size (xb_Environment b) =? 0)%nat) (BindingIncomplete (xb_Service b)) (
      when (existsb (fun '(target, source) =>
          negb (MatchString variablePattern target) || negb (MatchString variablePattern source))
          (range_map (xb_Environment b))) BindingVariables (
      when (environmentID =s "") BindingNoEnvironment (
      check_bindings environmentID ({[xb_Service b]} ∪ seen) bs))))))
  end.

Definition ValidateAppDeployment (app : App) : option app_error :=
  let t := a_DeployTarget app in
  let prefix := AppPrefix app in
  when (negb (a_RegistryRef app =s "") && negb (parseNamed (a_RegistryRef app +:+ "/cooker-preview:review"))) BadRegistry (
  when (negb (dt_Namespace t =s "") && negb (MatchString namespacePattern (dt_Namespace t))) BadNamespace (
  when (match a_BuildPlan app with Some p => negb (bp_Kind p =s BuildPlanCompose) | None => false end
        && negb (length (dt_ExternalServices t) =? 0)%nat) BindingsNeedCompose (
  when (negb (dt_Namespace t =s "") && negb (dt_Kind t =s DeployTargetKubernetes)) NamespaceNotKubernetes (
  when (negb (dt_Region t =s "") || negb (dt_Service t =s "")) RegionOrService (
  when (negb (dt_Prefix t =s "") && negb (MatchString prefixPattern (dt_Prefix t))) BadPrefix (
  when ((dt_Kind t =s DeployTargetCloudRun) &&
        (negb (MatchString namespacePattern prefix) || (50 <=? str_len prefix)
         || match prefix with String c _ => negb (in_class c [lower]) | EmptyString => true end)) BadCloudRunPrefix (
  match match a_BuildPlan app with Some p => check_plan (a_AutoDeploy app) p | None => None end with
  | Some e => Some e
  | None => check_bindings (a_EnvironmentID app) ∅ (dt_ExternalServices t)
  end))))))).
End checks.

(** ** Deploy targets *)

(** A registered adapter: its kind, and the verdict of its [Validate] if it has one. *)
Record Target := mkAdapter { t_Kind : DeployTargetKind; t_Validate : option (option string) }.

Inductive target_error :=
| DuplicateKind (kind : string) | Unavailable (kind : string)
| ManagedHost | NotSupported (kind : string) | AdapterInvalid (msg : string).

Definition Registry : Type := gmap string Target.

Definition Register (r : Registry) (t : Target) : option target_error * Registry :=
  match r !! t_Kind t with
  | Some _ => (Some (DuplicateKind (t_Kind t)), r)
  | None => (None, <[t_Kind t := t]> r)
  end.

Definition Lookup (r : Registry) (kind : string) : result target_error Target :=
  match r !! kind with None => Err (Unavailable kind) | Some t => Ok t end.

Definition CheckAppTarget (r : Registry) (t : DeployTarget) : option target_error :=
  if dt_Kind t =s DeployTargetDockerHost then
    if negb (dt_HostID t =s "") then Some ManagedHost else None
  else if dt_Kind t =s DeployTargetKubernetes then None
  else if (dt_Kind t =s DeployTargetECS) || (dt_Kind t =s DeployTargetCloudRun) then
    match Lookup r (dt_Kind t) with
    | Err e => Some e
    | Ok a => match t_Validate a with Some (Some msg) => Some (AdapterInvalid msg) | _ => None end
    end
  else Some (NotSupported (dt_Kind t)).

Record TargetCapability := mkCapability { tc_Kind : string; tc_Available : bool; tc_Reason : option target_error }.

Definition AppTargetCapabilities (r : Registry) : list TargetCapability :=
  (fun kind => let err := CheckAppTarget r (mkTarget kind "" "" "" "" "" []) in
     mkCapability kind (match err with None => true | Some _ => false end) err)
  <$> [DeployTargetDockerHost; DeployTargetKubernetes; DeployTargetECS; DeployTargetCloudRun].

(** ** The stored view of a deployment graph *)

Definition configured : string := "[configured]".

Definition view_config (c : StageConfig) : StageConfig :=
  mkStageConfig (cfg_Dockerfile c) (cfg_Context c) ((fun _ => configured) <$> cfg_BuildArgs c)
    (cfg_BuildTarget c) (cfg_Tags c) (cfg_Platforms c) (cfg_Cache c) (cfg_Image c) []
    (cfg_Registry c) (cfg_Repository c) (cfg_Namespace c)
    (if cfg_ManifestPath c =s "" then "" else "[resolved during app deployment]")
    (cfg_HelmChart c) (cfg_HelmValues c) (cfg_DeployRuntime c) (cfg_RuntimeName c) (cfg_ComposeProject c) true
    ((fun h => mkHealthCheck [configured] (hc_Interval h) (hc_Timeout h) (hc_Retries h) (hc_StartPeriod h)) <$> cfg_HealthCheck c)
    (cfg_ComposeServiceName c) (cfg_ComposeBuildContext c) (cfg_ComposeDockerfile c) (cfg_ComposePorts c)
    (cfg_Resources c) (cfg_Script c) (cfg_Timeout c) (cfg_RequiredApprovers c) (cfg_Retries c) (cfg_Retry c)
    ((fun _ => configured) <$> cfg_Env c) (cfg_ProxyHost c) (cfg_SecretRefs c)
    (cfg_GitOpsRepo c) (cfg_GitOpsBranch c) (cfg_GitOpsPath c) (cfg_GitOpsMessage c) (cfg_GitOpsContent c).

(** [DeploymentViewPipeline]; the trip through JSON is a deep copy. *)
Definition DeploymentViewPipeline (p : Pipeline) : Pipeline :=
  mkPipeline (p_ID p) (p_Name p) (p_Description p)
    ((fun s => mkStage (st_ID s) (st_Name s) (st_Type s) (view_config (st_Config s)) (st_EnvironmentID s) (st_Group s)) <$> p_Stages p)
    (p_Edges p) (p_Variables p) (p_CreatedAt p) (p_UpdatedAt p) (p_Version p) (p_RunDeadline p).

(** ** Properties *)

Lemma join_cons sep x l : l <> [] -> join sep (x :: l) = x +:+ sep +:+ join sep l.
Proof. by destruct l. Qed.

(** A repository path that passes the check stays in the checkout: joined to
    any absolute directory it names that directory or something below it,
    whatever [.], [..] and empty elements it is written with. *)
Theorem safe_path_stays_inside root p :
  safeRelativePath p = true -> IsAbs root = true -> p <> "" ->
  exists below, Join root p = "/" +:+ join "/" (clean_elems root ++ below) /\ Forall plain below.
Proof.
  intros Hs Hr Hne. unfold safeRelativePath in Hs. reflect_bools.
  assert (IsAbs p = false) as Hp.
  { destruct (IsAbs p) eqn:E; [|done]. unfold Clean in *. by rewrite E in *. }
  exists (clean_elems p). assert (Forall plain (clean_elems p)) as Hpl; [|split; [by apply Join_below|done]].
  destruct (clean_elems_settled (split_on "/" p) [] ltac:(by exists [], 0%nat)) as (l & n & Heq & Hl).
  unfold clean_elems in *. rewrite Hp, Heq in *. destruct n as [|n]; [by rewrite app_nil_r; apply Forall_rev|].
  exfalso. unfold Clean, clean_elems in *. rewrite Hp, Heq in *.
  assert (exists r, rev (l ++ replicate (S n) "..") = ".." :: r) as [r Hrev].
  { rewrite rev_app_distr. change (replicate (S n) "..") with (".." :: replicate n ("..":string)).
    rewrite replicate_cons_app, rev_app_distr. by eexists. }
  rewrite Hrev in *. destruct r as [|x r]; [done|]. rewrite join_cons in * by done.
  change (".." +:+ "/" +:+ join "/" (x :: r)) with ("../" +:+ join "/" (x :: r)) in *.
  rewrite has_prefix_app in *. done.
Qed.

(** ** Concrete applications *)

Lemma safe_path_stays_inside_witness :
  Join "/src/repo" "deploy/../docker/./Dockerfile" = "/src/repo/docker/Dockerfile" /\
  exists below, Join "/src/repo" "deploy/../docker/./Dockerfile" = "/" +:+ join "/" (clean_elems "/src/repo" ++ below).
Proof.
  split; [reflexivity|].
  destruct (safe_path_stays_inside "/src/repo" "deploy/../docker/./Dockerfile" eq_refl eq_refl ltac:(discriminate)) as (below & H & _).
  by exists below.
Defined.

Definition demo_target (prefix : string) : DeployTarget :=
  mkTarget DeployTargetKubernetes "" "prod" "" "" prefix [].

Definition demo_app (id name prefix : string) : App :=
  mkApp id name "" "org/app" "main" None (demo_target prefix) "" "" "" false false (mkConfig "" 0 false 0) 0 0 0
    AppHealthUnknown None "" "".

(** The conflict check looks at explicit prefixes only: an application whose prefix
    comes from its name takes over the workload of another. *)
Example implicit_prefix_conflicts :
  let a := demo_app "1" "billing" "shop" in let b := demo_app "2" "Shop" "" in
  checkAppPrefix [a] b = true /\ checkAppPrefix [b] a = false /\ AppPrefix a = AppPrefix b /\
  DeploymentScope (a_DeployTarget a) = DeploymentScope (a_DeployTarget b).
Proof. vm_compute. repeat split. Qed.

(** A slug can begin or end with a dash, which DNS-1123 does not allow. *)
Example slug_is_no_label : (sanitize "_x!", MatchString namespacePattern (sanitize "_x!")) = ("-x-", false).
Proof. vm_compute. reflexivity. Qed.
