(* ===== verification/Ssh.v ===== *)
(** * The SSH deploy target: [internal/deploy/deploytarget/ssh/ssh.go],
      [known_hosts.go], the SSH fields of [internal/model/host.go]

    The commands the adapter sends to a remote shell, the deploy sequence as the
    calls it makes for given outcomes, host-key verification, and the connection
    cache with its per-host lock as interleaved steps.  The remote shell is modelled
    as the specification: how a POSIX shell reads a simple command.  Strings hold no
    NUL. *)

From S2P Require Import Prelude GoStr App.
From Stdlib Require Import Ascii.
Local Open Scope Z_scope.

(** ** Hosts *)

Definition HostKindDocker : string := "docker".
Definition HostKindKubernetes : string := "kubernetes".
Definition HostKindSSHDocker : string := "ssh-docker".

Record Host := mkHost {
  h_ID : string; h_Name : string; h_Kind : string; h_Reachability : string; h_DockerEndpoint : string;
  h_KubeconfigRef : string; h_TailnetIP : string; h_SSHEndpoint : string; h_SSHUser : string; h_SSHPort : Z;
  h_SSHPrivateKeyRef : string; h_SSHKnownHostKey : string; h_SSHStrictHostKey : bool;
  h_CreatedAt : Z; h_UpdatedAt : Z; h_Version : Z
}.

(** [Host.Redact]: the host without its key reference, and whether there is one. *)
Definition Redact_host (h : Host) : Host * bool :=
  (mkHost (h_ID h) (h_Name h) (h_Kind h) (h_Reachability h) (h_DockerEndpoint h) (h_KubeconfigRef h) (h_TailnetIP h)
     (h_SSHEndpoint h) (h_SSHUser h) (h_SSHPort h) "" (h_SSHKnownHostKey h) (h_SSHStrictHostKey h)
     (h_CreatedAt h) (h_UpdatedAt h) (h_Version h), negb (h_SSHPrivateKeyRef h =s "")).

(** ** Commands *)

Definition quote : ascii := ascii_of_nat 39.
Definition backslash : ascii := ascii_of_nat 92.

(** [strings.ReplaceAll(s, Q, QBQQ)], Q the single quote and B the backslash. *)
Fixpoint escape_quotes (s : string) : string :=
  match s with
  | EmptyString => EmptyString
  | String c s =>
      if Ascii.eqb c quote then String quote (String backslash (String quote (String quote (escape_quotes s))))
      else String c (escape_quotes s)
  end.

Definition shQuote (s : string) : string :=
  if s =s "" then chr quote +:+ chr quote else chr quote +:+ escape_quotes s +:+ chr quote.

Definition container_rune (r : Z) : ascii :=
  if ((97 <=? r) && (r <=? 122)) || ((65 <=? r) && (r <=? 90)) || ((48 <=? r) && (r <=? 57)) || (r =? 45) || (r =? 95)
  then ascii_of_nat (Z.to_nat r) else "-"%char.

Definition containerNameFor (appID : string) : string :=
  "cooker-" +:+ String.string_of_list_ascii (container_rune <$> runes appID).

Definition image_rune (r : Z) : bool :=
  ((97 <=? r) && (r <=? 122)) || ((65 <=? r) && (r <=? 90)) || ((48 <=? r) && (r <=? 57))
  || (r =? 45) || (r =? 46) || (r =? 95) || (r =? 47) || (r =? 58) || (r =? 64).

Definition validImageRef (s : string) : bool :=
  match s with
  | EmptyString => false
  | String c _ => if Ascii.eqb c "-" || Ascii.eqb c "." then false else forallb image_rune (runes s)
  end.

(** The inner loop of [sortInts] and [sortStrings] over the sorted part, read from
    its end: move past what is greater. *)
Fixpoint insert_back {A} (gt : A -> A -> bool) (x : A) (back : list A) : list A :=
  match back with
  | y :: back' => if gt y x then y :: insert_back gt x back' else x :: back
  | [] => [x]
  end.
Definition insertion_sort {A} (gt : A -> A -> bool) (xs : list A) : list A :=
  rev (foldl (fun back x => insert_back gt x back) [] xs).

Definition sortInts (xs : list Z) : list Z := insertion_sort Z.gtb xs.
Definition sortStrings (xs : list string) : list string := insertion_sort (fun a b => String.ltb b a) xs.

Definition valid_port (p : Z) : bool := negb ((p <=? 0) || (65535 <? p)).

Section commands.
Context `{RO : RangeOrder}.

Definition composeRunCommand (name image : string) (env : gmap string string) (ports : list Z) : string :=
  "docker run -d --restart=always" +:+ " --name " +:+ shQuote name +:+
  foldr (fun p rest => if valid_port p then " -p " +:+ shQuote (itoa p +:+ ":" +:+ itoa p) +:+ rest else rest)
    (foldr (fun k rest => " -e " +:+ shQuote (k +:+ "=" +:+ default "" (env !! k)) +:+ rest)
       (" " +:+ shQuote image) (sortStrings (range_map env).*1))
    (sortInts ports).

Definition pullCmd (image : string) : string := "docker pull " +:+ shQuote image.
Definition stopCmd (name : string) : string := "docker stop " +:+ shQuote name.
Definition rmCmd (name : string) : string := "docker rm " +:+ shQuote name.
Definition inspectCmd (name : string) : string :=
  "docker inspect -f " +:+ chr quote +:+ "{{.State.Running}}" +:+ chr quote +:+ " " +:+ shQuote name.
Definition logsCmd (name : string) : string := "docker logs --follow " +:+ shQuote name.
End commands.

(** ** The remote shell: the specification

    How a POSIX shell splits a simple command into the words it runs.  [None] is
    anything else: an unquoted character that is not plainly part of a word (an
    operator, an expansion, a pattern, a comment, a newline) or an open quote. *)

Inductive mode := Unquoted | Single | Escaped.

Definition plain (c : ascii) : bool :=
  let n := Z.of_nat (nat_of_ascii c) in
  ((97 <=? n) && (n <=? 122)) || ((65 <=? n) && (n <=? 90)) || ((48 <=? n) && (n <=? 57))
  || (n =? 45) || (n =? 46) || (n =? 95) || (n =? 47) || (n =? 58) || (n =? 61) || (n =? 64).

(** [cur] is the word being read; [None] between words. *)
Fixpoint shell_from (m : mode) (cur : option string) (s : string) : option (list string) :=
  match s with
  | EmptyString => match m with Unquoted => Some (match cur with None => [] | Some w => [w] end) | _ => None end
  | String c s =>
      let word := default "" cur in
      match m with
      | Unquoted =>
          if Ascii.eqb c " " then
            match cur with None => shell_from Unquoted None s | Some w => cons w <$> shell_from Unquoted None s end
          else if Ascii.eqb c quote then shell_from Single (Some word) s
          else if Ascii.eqb c backslash then shell_from Escaped (Some word) s
          else if plain c then shell_from Unquoted (Some (word +:+ chr c)) s
          else None
      | Single => if Ascii.eqb c quote then shell_from Unquoted cur s else shell_from Single (Some (word +:+ chr c)) s
      | Escaped => if Ascii.eqb c (ascii_of_nat 10) then None else shell_from Unquoted (Some (word +:+ chr c)) s
      end
  end.
Definition shell_words (s : string) : option (list string) := shell_from Unquoted None s.

(** *** Facts *)

(** Inside quotes everything is read back as it was. *)
Lemma shell_single s : forall w rest,
  shell_from Single (Some w) (escape_quotes s +:+ String quote rest) = shell_from Unquoted (Some (w +:+ s)) rest.
Proof.
  induction s as [|c s IH]; intros w rest; [by rewrite append_nil_r|]. cbn [escape_quotes].
  destruct (Ascii.eqb_spec c quote) as [->|Hc].
  - change (shell_from Single (Some ((w +:+ chr quote))) (escape_quotes s +:+ String quote rest) =
            shell_from Unquoted (Some (w +:+ String quote s)) rest).
    rewrite IH, append_assoc. done.
  - change (shell_from Single (Some w) (String c (escape_quotes s +:+ String quote rest)) =
            shell_from Unquoted (Some (w +:+ String c s)) rest).
    cbn [shell_from]. destruct (Ascii.eqb_spec c quote) as [?|_]; [done|]. cbn [default]. rewrite IH, append_assoc. done.
Qed.

(** A quoted string reads as the one word it quotes. *)
Lemma shell_quoted s rest : shell_from Unquoted None (shQuote s +:+ rest) = shell_from Unquoted (Some s) rest.
Proof.
  unfold shQuote. destruct (String.eqb_spec s "") as [->|_]; [done|]. rewrite append_assoc, append_assoc.
  change (shell_from Single (Some "") (escape_quotes s +:+ String quote rest) = shell_from Unquoted (Some s) rest).
  by rewrite shell_single.
Qed.

Lemma shell_space w rest : shell_from Unquoted (Some w) (" " +:+ rest) = cons w <$> shell_words rest.
Proof. done. Qed.
Lemma shell_end w : shell_from Unquoted (Some w) "" = Some [w].
Proof. done. Qed.

Section sorting.
Context {A} (gt : A -> A -> bool) (R : relation A).
Hypothesis gt_spec : forall x y, if gt y x then R x y else R y x.

Lemma insert_back_perm x back : insert_back gt x back ≡ₚ x :: back.
Proof.
  induction back as [|y back IH]; cbn; [done|]. destruct (gt y x); [|done]. rewrite IH. by apply perm_swap.
Qed.

Lemma insert_back_sorted `{!Transitive R} x back : StronglySorted (flip R) back -> StronglySorted (flip R) (insert_back gt x back).
Proof.
  induction 1 as [|y back Hs IH Hall]; cbn; [by repeat constructor|]. pose proof (gt_spec x y) as Hxy. destruct (gt y x).
  - constructor; [exact IH|]. rewrite insert_back_perm. constructor; [exact Hxy|exact Hall].
  - constructor; [by constructor|]. constructor; [exact Hxy|]. eapply Forall_impl; [exact Hall|]. intros z Hz. unfold flip in *. by etransitivity.
Qed.

Definition backwards (xs : list A) : list A := foldl (fun back x => insert_back gt x back) [] xs.

Lemma backwards_perm xs : forall back, foldl (fun back x => insert_back gt x back) back xs ≡ₚ xs ++ back.
Proof.
  induction xs as [|x xs IH]; intros back; cbn [foldl]; [done|]. rewrite IH, insert_back_perm. symmetry. apply Permutation_middle.
Qed.

Lemma backwards_sorted `{!Transitive R} xs : forall back, StronglySorted (flip R) back ->
  StronglySorted (flip R) (foldl (fun back x => insert_back gt x back) back xs).
Proof. induction xs as [|x xs IH]; intros back Hs; [done|]. cbn. by apply IH, insert_back_sorted. Qed.

Lemma insertion_sort_perm xs : insertion_sort gt xs ≡ₚ xs.
Proof. unfold insertion_sort. rewrite <- Permutation_rev, backwards_perm. by rewrite app_nil_r. Qed.

(** The result does not depend on the order of the input. *)
Lemma insertion_sort_unique `{!Transitive R, !AntiSymm (=) R} xs ys : xs ≡ₚ ys -> insertion_sort gt xs = insertion_sort gt ys.
Proof.
  intros Hp. unfold insertion_sort. f_equal. assert (AntiSymm (=) (flip R)) by (intros a b Hab Hba; by apply (anti_symm R)).
  apply (StronglySorted_unique (flip R)); try (apply backwards_sorted; constructor).
  by rewrite !backwards_perm, Hp.
Qed.
End sorting.

Lemma string_gt_spec (x y : string) : if String.ltb x y then String.le x y else String.le y x.
Proof.
  unfold String.ltb, String.le, String.leb. rewrite (String.compare_antisym y x). by destruct (String.compare x y).
Qed.

Lemma sortStrings_unique xs ys : xs ≡ₚ ys -> sortStrings xs = sortStrings ys.
Proof. apply (insertion_sort_unique (fun a b => String.ltb b a) String.le string_gt_spec). Qed.

(** The arguments [docker] is to be started with. *)
Definition port_arg (p : Z) : string := itoa p +:+ ":" +:+ itoa p.
Definition env_arg (env : gmap string string) (k : string) : string := k +:+ "=" +:+ default "" (env !! k).
Definition run_args (name image : string) (ports keys : list string) : list string :=
  ["docker"; "run"; "-d"; "--restart=always"; "--name"; name] ++ (p ← ports; ["-p"; p]) ++ (k ← keys; ["-e"; k]) ++ [image].

(** A fixed prefix, then a quoted word, then more words. *)
Lemma shell_word w rest : shell_words (shQuote w +:+ " " +:+ rest) = cons w <$> shell_words rest.
Proof. unfold shell_words at 1. by rewrite shell_quoted, shell_space. Qed.
Lemma shell_last w : shell_words (shQuote w) = Some [w].
Proof. unfold shell_words. rewrite <- (append_nil_r (shQuote w)). by rewrite shell_quoted, shell_end. Qed.
Lemma shell_flag f rest : f = "-p" \/ f = "-e" -> shell_words (f +:+ " " +:+ rest) = cons f <$> shell_words rest.
Proof. by intros [->| ->]. Qed.

(** The ends of the command, from a quoted word on. *)
Lemma shell_env_args env image keys w :
  shell_from Unquoted (Some w) (foldr (fun k rest => " -e " +:+ shQuote (env_arg env k) +:+ rest) (" " +:+ shQuote image) keys) =
  Some (w :: (k ← keys; ["-e"; env_arg env k]) ++ [image]).
Proof.
  revert w. induction keys as [|k keys IH]; intros w; cbn [foldr].
  - rewrite shell_space, shell_last. done.
  - change (" -e " +:+ shQuote (env_arg env k) +:+ ?r) with (" " +:+ ("-e" +:+ " " +:+ (shQuote (env_arg env k) +:+ r))).
    rewrite shell_space, shell_flag by (by right). unfold shell_words. rewrite shell_quoted, IH. done.
Qed.

Lemma shell_port_args (tail : string) (words : list string) ports w :
  (forall v, shell_from Unquoted (Some v) tail = Some (v :: words)) ->
  shell_from Unquoted (Some w) (foldr (fun p rest => if valid_port p then " -p " +:+ shQuote (port_arg p) +:+ rest else rest) tail ports) =
  Some (w :: (p ← filter (fun p => valid_port p = true) ports; ["-p"; port_arg p]) ++ words).
Proof.
  intros Ht. revert w. induction ports as [|p ports IH]; intros w; cbn [foldr]; [apply Ht|].
  rewrite filter_cons. destruct (valid_port p) eqn:Hp.
  - rewrite decide_True by done.
    change (" -p " +:+ shQuote (port_arg p) +:+ ?r) with (" " +:+ ("-p" +:+ " " +:+ (shQuote (port_arg p) +:+ r))).
    rewrite shell_space, shell_flag by (by left). unfold shell_words. rewrite shell_quoted, IH. done.
  - rewrite decide_False by congruence. apply IH.
Qed.

(** ** Properties of the commands *)

(** C38. Whatever name, image, variables and ports it is given, the command the
    adapter sends for a container is read by the remote shell as one simple command
    with exactly the intended arguments: no value breaks out of its argument, is
    expanded, split or lost.  Variables and ports come in an order that depends on
    them alone, only ports of 1 to 65535 are published, and an accepted image is not
    empty and does not look like an option. *)
Theorem run_command_words `{RO : RangeOrder} (name image : string) (env : gmap string string) (ports : list Z) :
  let keys := sortStrings (map_to_list env).*1 in
  shell_words (composeRunCommand name image env ports) =
    Some (run_args name image (port_arg <$> filter (fun p => valid_port p = true) (sortInts ports)) (env_arg env <$> keys)) /\
  keys ≡ₚ (map_to_list env).*1 /\ sortInts ports ≡ₚ ports /\
  shell_words (pullCmd image) = Some ["docker"; "pull"; image] /\
  shell_words (stopCmd name) = Some ["docker"; "stop"; name] /\ shell_words (rmCmd name) = Some ["docker"; "rm"; name] /\
  shell_words (inspectCmd name) = Some ["docker"; "inspect"; "-f"; "{{.State.Running}}"; name] /\
  shell_words (logsCmd name) = Some ["docker"; "logs"; "--follow"; name] /\
  (validImageRef image = true -> image <> "" /\ has_prefix "-" image = false).
Proof.
  intros keys. assert (sortStrings (range_map env).*1 = keys) as Hkeys by (apply sortStrings_unique; by rewrite (range_map_perm _ _ _ _ env)).
  split_and!.
  - unfold composeRunCommand. rewrite Hkeys. fold (port_arg). unfold run_args.
    change (shell_words ("docker run -d --restart=always" +:+ " --name " +:+ ?r)) with
      (cons "docker" <$> (cons "run" <$> (cons "-d" <$> (cons "--restart=always" <$> (cons "--name" <$> shell_words r))))).
    unfold shell_words. rewrite shell_quoted.
    rewrite (shell_port_args _ ((k ← keys; ["-e"; env_arg env k]) ++ [image])) by (intros v; apply shell_env_args).
    rewrite !list_fmap_bind. reflexivity.
  - apply insertion_sort_perm.
  - apply insertion_sort_perm.
  - unfold pullCmd. change (cons "docker" <$> (cons "pull" <$> shell_words (shQuote image)) = Some ["docker"; "pull"; image]). by rewrite shell_last.
  - unfold stopCmd. change (cons "docker" <$> (cons "stop" <$> shell_words (shQuote name)) = Some ["docker"; "stop"; name]). by rewrite shell_last.
  - unfold rmCmd. change (cons "docker" <$> (cons "rm" <$> shell_words (shQuote name)) = Some ["docker"; "rm"; name]). by rewrite shell_last.
  - unfold inspectCmd. change (cons "docker" <$> (cons "inspect" <$> (cons "-f" <$> (cons "{{.State.Running}}" <$> shell_words (shQuote name)))) =
      Some ["docker"; "inspect"; "-f"; "{{.State.Running}}"; name]). by rewrite shell_last.
  - unfold logsCmd. change (cons "docker" <$> (cons "logs" <$> (cons "--follow" <$> shell_words (shQuote name))) =
      Some ["docker"; "logs"; "--follow"; name]). by rewrite shell_last.
  - unfold validImageRef. destruct image as [|c s]; [done|]. destruct (Ascii.eqb_spec c "-") as [|Hc]; [done|]. intros _. split; [done|].
    change ((if ascii_dec "-" c then String.prefix "" s else false) = false). by destruct (ascii_dec "-" c).
Qed.

Definition app_env : gmap string string := {["MOTD" := "it's $HOME; rm -rf /"]}.
Example run_command_ex : let RO := range_default in
  composeRunCommand "cooker-1" "reg/app:v1" ∅ [8080; 0; 80] =
    "docker run -d --restart=always --name 'cooker-1' -p '80:80' -p '8080:8080' 'reg/app:v1'" /\
  shell_words (composeRunCommand "cooker-1" "reg/app:v1" app_env []) =
    Some ["docker"; "run"; "-d"; "--restart=always"; "--name"; "cooker-1"; "-e"; "MOTD=it's $HOME; rm -rf /"; "reg/app:v1"].
Proof. split; vm_compute; reflexivity. Qed.

(** Two IDs that differ only in characters that are scrubbed share a container. *)
Example container_names_collide : containerNameFor "a.b" = containerNameFor "a/b".
Proof. reflexivity. Qed.

(** ** Host keys *)

Inductive ssh_error :=
| HostNil | WrongKind | MissingEndpoint | MissingUser | MissingKeyRef | ErrHostKeyMismatch | ErrUnknownHostKey
| ResolveError | DialError | RejectedImage | PullError (msg : string) | RunError (msg : string) | Unavailable.

Definition requireHost (h : option Host) : option ssh_error :=
  match h with
  | None => Some HostNil
  | Some h =>
      if negb (h_Kind h =s HostKindSSHDocker) then Some WrongKind
      else if h_SSHEndpoint h =s "" then Some MissingEndpoint
      else if h_SSHUser h =s "" then Some MissingUser
      else if h_SSHPrivateKeyRef h =s "" then Some MissingKeyRef
      else None
  end.

(** The verdict on the key a server offers, and the key to pin if any. *)
Definition hostKeyCallback (pinned : string) (strict : bool) (serialised : string) : option ssh_error * option string :=
  if negb (pinned =s "") then
    if negb (serialised =s pinned) then (Some ErrHostKeyMismatch, None) else (None, None)
  else if strict then (Some ErrUnknownHostKey, None)
  else (None, Some serialised).

(** ** The deploy sequence

    What the adapter does for given outcomes; an outcome is the error's text.  The
    log lines are left out. *)

Fixpoint contains (sub s : string) : bool :=
  has_prefix sub s || match s with String _ s' => contains sub s' | EmptyString => false end.

Record outcomes := mkOutcomes {
  o_host : option (option Host); o_dial : bool; o_pull : option string; o_redial : bool; o_repull : option string;
  o_run : option string
}.

Inductive call := Dial (host : string) | EvictDial (host : string) | Cmd (cmd : string).

(** The fields of [deploytarget.Spec] the adapter reads. *)
Record Spec := mkSpec { sp_AppID : string; sp_Image : string; sp_Env : gmap string string; sp_Ports : list Z }.

Section deploy.
Context `{RO : RangeOrder}.

(** The pull on the cached connection, once more on a fresh one when the session
    could not be opened. *)
Definition pull (o : outcomes) (host image : string) : list call * option ssh_error :=
  match o_pull o with
  | None => ([Cmd (pullCmd image)], None)
  | Some msg =>
      if contains "session:" msg then
        if negb (o_redial o) then ([Cmd (pullCmd image); EvictDial host], Some DialError) else
        match o_repull o with
        | Some msg => ([Cmd (pullCmd image); EvictDial host; Cmd (pullCmd image)], Some (PullError msg))
        | None => ([Cmd (pullCmd image); EvictDial host; Cmd (pullCmd image)], None)
        end
      else ([Cmd (pullCmd image)], Some (PullError msg))
  end.

Definition Deploy (o : outcomes) (spec : Spec) : list call * option ssh_error :=
  match o_host o with
  | None => ([], Some ResolveError)
  | Some host =>
      match requireHost host with
      | Some e => ([], Some e)
      | None =>
          let id := match host with Some h => h_ID h | None => "" end in
          if negb (o_dial o) then ([Dial id], Some DialError) else
          let containerName := containerNameFor (sp_AppID spec) in
          if negb (validImageRef (sp_Image spec)) then ([Dial id], Some RejectedImage) else
          match pull o id (sp_Image spec) with
          | (calls, Some e) => (Dial id :: calls, Some e)
          | (calls, None) =>
              (Dial id :: calls ++ [Cmd (stopCmd containerName); Cmd (rmCmd containerName);
                                    Cmd (composeRunCommand containerName (sp_Image spec) (sp_Env spec) (sp_Ports spec))],
               match o_run o with Some msg => Some (RunError msg) | None => None end)
          end
      end
  end.

(** [deploytarget.Status] without the URL, which this adapter leaves empty. *)
Record Status_ := mkStatus { st_Healthy : bool; st_Replicas : Z; st_Message : string }.

(** [Status] on a connected host: [docker inspect]'s output, and whether it failed. *)
Definition Status_of (out : string) (failed : bool) : Status_ :=
  if failed then mkStatus false 0 (trim_space out) else
  let running := trim_space out =s "true" in
  mkStatus running (if running then 1 else 0) "".

Definition Rollback : ssh_error := Unavailable.

(** The old container is only touched once the new image has been pulled, and a
    deployment is reported successful only when the new container was started. *)
Lemma Deploy_order o spec : let '(calls, err) := Deploy o spec in
  (Cmd (stopCmd (containerNameFor (sp_AppID spec))) ∈ calls -> (pull o "" (sp_Image spec)).2 = None) /\
  (err = None -> last calls = Some (Cmd (composeRunCommand (containerNameFor (sp_AppID spec)) (sp_Image spec) (sp_Env spec) (sp_Ports spec))) /\
     o_run o = None /\ validImageRef (sp_Image spec) = true).
Proof.
  unfold Deploy. destruct (o_host o) as [h|]; [|split; [by intros ?%not_elem_of_nil|done]].
  destruct (requireHost h); [split; [by intros ?%not_elem_of_nil|done]|].
  destruct (o_dial o); cbn [negb]; [|split; [|done]].
  - destruct (validImageRef (sp_Image spec)) eqn:Hv; cbn [negb]; [|split; [|done]].
    + assert (forall a b, (pull o a (sp_Image spec)).2 = (pull o b (sp_Image spec)).2) as Hsame.
      { intros a b. unfold pull. destruct (o_pull o); [|done]. destruct (contains _ _); [|done]. destruct (o_redial o); [|done]. by destruct (o_repull o). }
      rewrite (Hsame "" match h with Some h => h_ID h | None => "" end).
      destruct (pull o _ _) as [calls [e|]] eqn:Hp; cbn [snd].
      * split; [|done]. rewrite elem_of_cons. intros [?|Hin]; [done|]. exfalso. revert Hin.
        assert (forall c, c ∈ calls -> c = Cmd (pullCmd (sp_Image spec)) \/ exists h, c = EvictDial h) as Hc.
        { unfold pull in Hp. intros c. destruct (o_pull o) as [m|]; [|by injection Hp as <-].
          destruct (contains _ _); [destruct (o_redial o); [destruct (o_repull o)|]|]; injection Hp as <- _;
            rewrite ?elem_of_cons, elem_of_nil; naive_solver. }
        intros [Heq|[h' Heq]]%Hc; [|done]. unfold stopCmd, pullCmd in Heq. by injection Heq.
      * split; [done|]. destruct (o_run o); [done|]. intros _. split; [|done].
        by rewrite app_comm_cons, (app_assoc _ [_; _] [_] : _ ++ [_; _; _] = _), last_snoc.
    + rewrite elem_of_cons, elem_of_nil. by intros [?|?].
  - rewrite elem_of_cons, elem_of_nil. by intros [?|?].
Qed.
End deploy.

(** ** The connection cache

    [dialHost] of concurrent calls for one host, whose cache entry and lock entry the
    code looks up under [t.mu]; the steps between two uses of a mutex are one step.
    Clients and per-host locks are numbered as they are created. *)

Record cache := mkCache {
  k_client : option nat;         (* [clientCache] *)
  k_lock : option nat;           (* [connectMu] *)
  k_held : gset nat;             (* the per-host locks that are held *)
  k_open : gset nat;             (* the connections that are open *)
  k_next : nat
}.

(** Where a call of [dialHost] is: before its first look, waiting for lock [l],
    holding it before the second look or while dialling, back with a connection, or
    with an error. *)
Inductive dialer := Look | Wait (l : nat) | Relook (l : nat) | Dialling (l : nat) | Got (c : nat) | Failed.

(** One step of a call; [ok] says whether the dial succeeds. *)
Definition dial_step (ok : bool) (k : cache) (d : dialer) : option (cache * dialer) :=
  match d with
  | Look =>
      match k_client k with
      | Some c => Some (k, Got c)
      | None =>
          match k_lock k with
          | Some l => Some (k, Wait l)
          | None => Some (mkCache None (Some (k_next k)) (k_held k) (k_open k) (S (k_next k)), Wait (k_next k))
          end
      end
  | Wait l =>
      if bool_decide (l ∈ k_held k) then None
      else Some (mkCache (k_client k) (k_lock k) ({[l]} ∪ k_held k) (k_open k) (k_next k), Relook l)
  | Relook l =>
      match k_client k with
      | Some c => Some (mkCache (k_client k) (k_lock k) (k_held k ∖ {[l]}) (k_open k) (k_next k), Got c)
      | None => Some (k, Dialling l)
      end
  | Dialling l =>
      if ok then Some (mkCache (Some (k_next k)) (k_lock k) (k_held k ∖ {[l]}) ({[k_next k]} ∪ k_open k) (S (k_next k)), Got (k_next k))
      else Some (mkCache (k_client k) (k_lock k) (k_held k ∖ {[l]}) (k_open k) (k_next k), Failed)
  | Got _ | Failed => None
  end.

(** [Evict]: forget the connection and the lock, and close the connection. *)
Definition Evict (k : cache) : cache :=
  mkCache None None (k_held k) (match k_client k with Some c => k_open k ∖ {[c]} | None => k_open k end) (k_next k).

Definition no_cache : cache := mkCache None None ∅ ∅ 0.

Inductive dials : cache * gmap nat dialer -> cache * gmap nat dialer -> Prop :=
| dials_call k ds t : ds !! t = None -> dials (k, ds) (k, <[t := Look]> ds)
| dials_step k ds t d ok k' d' : ds !! t = Some d -> dial_step ok k d = Some (k', d') -> dials (k, ds) (k', <[t := d']> ds).

(** The lock a call relies on. *)
Definition holds_lock (d : dialer) : option nat :=
  match d with Relook l | Dialling l => Some l | _ => None end.
Definition uses_lock (d : dialer) : option nat :=
  match d with Wait l | Relook l | Dialling l => Some l | _ => None end.

Record cache_ok (s : cache * gmap nat dialer) : Prop := {
  ca_open : k_open s.1 = match k_client s.1 with Some c => {[c]} | None => ∅ end;
  ca_lock t d l : s.2 !! t = Some d -> uses_lock d = Some l -> k_lock s.1 = Some l;
  ca_held t d l : s.2 !! t = Some d -> holds_lock d = Some l -> l ∈ k_held s.1;
  ca_alone t t' d d' l : s.2 !! t = Some d -> s.2 !! t' = Some d' -> holds_lock d = Some l -> holds_lock d' = Some l -> t = t';
  ca_dialling t l : s.2 !! t = Some (Dialling l) -> k_client s.1 = None;
  ca_got t c : s.2 !! t = Some (Got c) -> k_client s.1 = Some c
}.

(** A call other than the one that moves is where it was. *)
Local Ltac other_call := intros *; rewrite ?lookup_insert; repeat case_decide; subst; intros; simplify_eq/=.

Lemma dials_ok s s' : cache_ok s -> dials s s' -> cache_ok s'.
Proof.
  intros Hok Hs. destruct Hs as [k ds t Hnew|k ds t d ok k' d' Hd Hstep].
  { destruct Hok as [Ho Hl Hh Ha Hdl Hg]. split; cbn in *; [done|other_call; by eauto ..]. }
  destruct Hok as [Ho Hl Hh Ha Hdl Hg]. cbn in *.
  assert (forall u e l, ds !! u = Some e -> holds_lock e = Some l -> uses_lock e = Some l) as Hhu by (by intros u [] ? _ ?).
  assert (forall u e l l', holds_lock d = Some l -> ds !! u = Some e -> holds_lock e = Some l' -> u = t) as Halone.
  { intros u e l l' H1 H2 H3. rewrite (Ha u t e d l') by (try done; rewrite H1, <- (Hl t d l), <- (Hl u e l') by eauto; done). done. }
  destruct d as [|l|l|l|c|]; cbn in Hstep; [destruct (k_client k) as [c|] eqn:Hc; [|destruct (k_lock k) as [l|] eqn:Hlk]
    | case_bool_decide as Hheld; [done|] | destruct (k_client k) as [c|] eqn:Hc | destruct ok | done | done];
    injection Hstep as <- <-; split; cbn; [try done|other_call; try by eauto ..].
  all: rewrite ?Hc, ?Hlk, ?Ho; try solve [by eauto | set_solver | f_equal; set_solver].
Qed.

Lemma dials_reachable s : rtc dials (no_cache, ∅) s -> cache_ok s.
Proof.
  enough (forall s0 s1, rtc dials s0 s1 -> cache_ok s0 -> cache_ok s1) as Hall.
  { intros Hs. apply (Hall _ _ Hs). split; cbn; try done; by intros *; rewrite lookup_empty. }
  induction 1; eauto using dials_ok.
Qed.

(** However many calls dial a host at once and however their steps interleave, as
    long as its entry is not evicted every call that returns a connection returns the
    same one, and it is the only connection left open. *)
Theorem one_connection s t t' c c' : rtc dials (no_cache, ∅) s ->
  s.2 !! t = Some (Got c) -> s.2 !! t' = Some (Got c') -> c = c' /\ k_open s.1 = {[c]}.
Proof.
  intros [Ho _ _ _ _ Hg]%dials_reachable H1%Hg H2%Hg. rewrite H1 in H2, Ho. by simplify_eq.
Qed.

(** Runs of two calls, [false] and [true] as 0 and 1, with evictions between the steps. *)
Inductive event := Call (t : nat) | Evicted.

Definition event_step (s : cache * gmap nat dialer) (e : event) : cache * gmap nat dialer :=
  match e with
  | Evicted => (Evict s.1, s.2)
  | Call t =>
      match s.2 !! t with
      | None => (s.1, <[t := Look]> s.2)
      | Some d => match dial_step true s.1 d with Some (k, d) => (k, <[t := d]> s.2) | None => s end
      end
  end.

Definition events_of (es : list event) : cache * gmap nat dialer := foldl event_step (no_cache, ∅) es.

Lemma calls_dials ts s : rtc dials s (foldl event_step s (Call <$> ts)).
Proof.
  revert s. induction ts as [|t ts IH]; intros [k ds]; [done|]. cbn [fmap list_fmap foldl event_step fst snd].
  destruct (ds !! t) as [d|] eqn:Hd; [|eapply rtc_l; [by apply dials_call|by apply IH]].
  destruct (dial_step true k d) as [[k' d']|] eqn:Hs; [|by apply IH].
  eapply rtc_l; [by eapply dials_step|by apply IH].
Qed.

Definition both_dial : list nat := [0; 1; 0; 1; 0; 0; 1; 0; 1; 1]%nat.

Lemma one_connection_witness : exists c, (events_of (Call <$> both_dial)).2 !! 0%nat = Some (Got c) /\ k_open (events_of (Call <$> both_dial)).1 = {[c]}.
Proof.
  exists 1%nat. split; [by vm_compute|].
  apply (one_connection _ 0%nat 1%nat 1%nat 1%nat); [apply calls_dials|by vm_compute|by vm_compute].
Defined.

(** An eviction while a call is dialling drops the per-host lock as well, so a second
    call makes a lock of its own and dials too: two connections are open, and the one
    the cache forgets is never closed. *)
Example evict_leaks_connection :
  let s := events_of ((Call <$> [0; 0; 0; 0]%nat) ++ Evicted :: (Call <$> [1; 1; 1; 1; 1; 0]%nat)) in
  s.2 !! 0%nat = Some (Got 3%nat) /\ s.2 !! 1%nat = Some (Got 2%nat) /\ k_client s.1 = Some 3%nat /\ k_open s.1 = {[2%nat; 3%nat]}.
Proof. by vm_compute. Qed.
