(* ===== verification/Canary.v ===== *)
(** * Canary rollouts: [internal/service/canary.go], the rollout of
      [internal/model/canary.go], [internal/store/memory/appcanary.go]

    A rollout sends a share of an application's traffic to a new image, and is
    later promoted to all of it or aborted, by an operator or by a sweep that
    looks at the new image's health.  Operators, sweeps and starts run
    concurrently; what keeps them apart is the store, whose operations are
    atomic.  A request is a thread that does one store operation per step, and
    what comes from outside (clock, builder, cluster, probes) is the step's
    input.  Every operation of the store may fail (the caller's context may have
    expired, as the one of an evaluation, which is cut after 90 seconds), and an
    application may be deleted with its rollouts, as PostgreSQL does, or without, as
    the in-memory store does.  Log lines and notifications are left out. *)

From S2P Require Import Prelude GoStr Model RunStore App.
Local Open Scope Z_scope.

(** ** Rollouts *)

Inductive CanaryStatus := CanaryPending | CanaryProgressing | CanaryPromoted | CanaryAborted | CanaryFailed.

#[export] Instance CanaryStatus_eq_dec : EqDecision CanaryStatus.
Proof. solve_decision. Defined.

Definition IsTerminal (s : CanaryStatus) : bool :=
  bool_decide (s = CanaryPromoted) || bool_decide (s = CanaryAborted) || bool_decide (s = CanaryFailed).

Record AppCanary := mkCanary {
  c_ID : string; c_AppID : string; c_RunID : string; c_StableImage : string; c_CanaryImage : string;
  c_Weight : Z; c_Status : CanaryStatus; c_AutoPromote : bool; c_HealthWindowSeconds : Z;
  c_Healthy : bool; c_Message : string; c_PromoteAfter : option Z;
  c_StartedAt : Z; c_UpdatedAt : Z; c_ResolvedAt : option Z
}.

(** Assignments to the fields of a rollout. *)
Definition c_set_Images (stable canary : string) (c : AppCanary) : AppCanary :=
  mkCanary (c_ID c) (c_AppID c) (c_RunID c) stable canary (c_Weight c) (c_Status c) (c_AutoPromote c)
    (c_HealthWindowSeconds c) (c_Healthy c) (c_Message c) (c_PromoteAfter c) (c_StartedAt c) (c_UpdatedAt c) (c_ResolvedAt c).
Definition c_set_Weight w (c : AppCanary) : AppCanary :=
  mkCanary (c_ID c) (c_AppID c) (c_RunID c) (c_StableImage c) (c_CanaryImage c) w (c_Status c) (c_AutoPromote c)
    (c_HealthWindowSeconds c) (c_Healthy c) (c_Message c) (c_PromoteAfter c) (c_StartedAt c) (c_UpdatedAt c) (c_ResolvedAt c).
Definition c_set_Status s (c : AppCanary) : AppCanary :=
  mkCanary (c_ID c) (c_AppID c) (c_RunID c) (c_StableImage c) (c_CanaryImage c) (c_Weight c) s (c_AutoPromote c)
    (c_HealthWindowSeconds c) (c_Healthy c) (c_Message c) (c_PromoteAfter c) (c_StartedAt c) (c_UpdatedAt c) (c_ResolvedAt c).
Definition c_set_Healthy h (c : AppCanary) : AppCanary :=
  mkCanary (c_ID c) (c_AppID c) (c_RunID c) (c_StableImage c) (c_CanaryImage c) (c_Weight c) (c_Status c) (c_AutoPromote c)
    (c_HealthWindowSeconds c) h (c_Message c) (c_PromoteAfter c) (c_StartedAt c) (c_UpdatedAt c) (c_ResolvedAt c).
Definition c_set_Message m (c : AppCanary) : AppCanary :=
  mkCanary (c_ID c) (c_AppID c) (c_RunID c) (c_StableImage c) (c_CanaryImage c) (c_Weight c) (c_Status c) (c_AutoPromote c)
    (c_HealthWindowSeconds c) (c_Healthy c) m (c_PromoteAfter c) (c_StartedAt c) (c_UpdatedAt c) (c_ResolvedAt c).
Definition c_set_PromoteAfter t (c : AppCanary) : AppCanary :=
  mkCanary (c_ID c) (c_AppID c) (c_RunID c) (c_StableImage c) (c_CanaryImage c) (c_Weight c) (c_Status c) (c_AutoPromote c)
    (c_HealthWindowSeconds c) (c_Healthy c) (c_Message c) t (c_StartedAt c) (c_UpdatedAt c) (c_ResolvedAt c).
Definition c_set_StartedAt t (c : AppCanary) : AppCanary :=
  mkCanary (c_ID c) (c_AppID c) (c_RunID c) (c_StableImage c) (c_CanaryImage c) (c_Weight c) (c_Status c) (c_AutoPromote c)
    (c_HealthWindowSeconds c) (c_Healthy c) (c_Message c) (c_PromoteAfter c) t (c_UpdatedAt c) (c_ResolvedAt c).
Definition c_set_UpdatedAt t (c : AppCanary) : AppCanary :=
  mkCanary (c_ID c) (c_AppID c) (c_RunID c) (c_StableImage c) (c_CanaryImage c) (c_Weight c) (c_Status c) (c_AutoPromote c)
    (c_HealthWindowSeconds c) (c_Healthy c) (c_Message c) (c_PromoteAfter c) (c_StartedAt c) t (c_ResolvedAt c).
Definition c_set_ResolvedAt t (c : AppCanary) : AppCanary :=
  mkCanary (c_ID c) (c_AppID c) (c_RunID c) (c_StableImage c) (c_CanaryImage c) (c_Weight c) (c_Status c) (c_AutoPromote c)
    (c_HealthWindowSeconds c) (c_Healthy c) (c_Message c) (c_PromoteAfter c) (c_StartedAt c) (c_UpdatedAt c) t.

(** ** The store *)

Definition canaryActive (st : CanaryStatus) : bool :=
  bool_decide (st = CanaryPending) || bool_decide (st = CanaryProgressing).

Section store.
Context `{RO : RangeOrder}.
Implicit Types m : gmap string AppCanary.

(** Also the caller's copy, which [Create] and [Update] write through. *)
Definition Create m (now : Z) (c : AppCanary) : option store_error * AppCanary * gmap string AppCanary :=
  if canaryActive (c_Status c) &&
     existsb (fun e => (c_AppID e =s c_AppID c) && canaryActive (c_Status e)) (range_map m).*2
  then (Some (ErrConflict (c_AppID c)), c, m)
  else
    let c := if is_zero_time (c_StartedAt c) then c_set_StartedAt now c else c in
    let c := c_set_UpdatedAt (c_StartedAt c) c in
    (None, c, <[c_ID c := c]> m).

Definition Get m (id : string) : result store_error AppCanary :=
  match m !! id with None => Err (ErrNotFound id) | Some c => Ok c end.

Definition GetActive m (appID : string) : result store_error AppCanary :=
  match head (filter (fun c => c_AppID c = appID /\ c_Status c = CanaryProgressing) (range_map m).*2) with
  | None => Err (ErrNotFound appID)
  | Some c => Ok c
  end.

Definition stale (olderThan : Z) (c : AppCanary) : bool :=
  bool_decide (c_Status c = CanaryPending) && (c_StartedAt c <? olderThan).

Definition DeleteStalePending m (olderThan : Z) : Z * gmap string AppCanary :=
  foldl (fun '(n, m) '(id, c) => if stale olderThan c then (n + 1, delete id m) else (n, m)) (0, m) (range_map m).

Definition ClaimTerminal m (now : Z) (id : string) (to : CanaryStatus) : result store_error bool * gmap string AppCanary :=
  match m !! id with
  | None => (Err (ErrNotFound id), m)
  | Some c =>
      if negb (bool_decide (c_Status c = CanaryProgressing)) then (Ok false, m)
      else (Ok true, <[id := c |> c_set_Status to |> c_set_UpdatedAt now]> m)
  end.

Definition LatestPromoted m (appID : string) : result store_error AppCanary :=
  match foldl (fun latest c =>
      match c_ResolvedAt c with
      | Some at_ =>
          if negb (c_AppID c =s appID) || negb (bool_decide (c_Status c = CanaryPromoted)) then latest else
          match latest with
          | Some (_, best) => if best <? at_ then Some (c, at_) else latest
          | None => Some (c, at_)
          end
      | None => latest
      end) None (range_map m).*2 with
  | None => Err (ErrNotFound appID)
  | Some (c, _) => Ok c
  end.

Definition Update m (now : Z) (c : AppCanary) : option store_error * AppCanary * gmap string AppCanary :=
  match m !! c_ID c with
  | None => (Some (ErrNotFound (c_ID c)), c, m)
  | Some _ => let c := c_set_UpdatedAt now c in (None, c, <[c_ID c := c]> m)
  end.

Definition ListProgressing m : list AppCanary :=
  sort_slice (fun x y => c_StartedAt x <? c_StartedAt y)
    (filter (fun c => c_Status c = CanaryProgressing) (range_map m).*2).
End store.

(** ** The service *)

(** What is wired: a deployer that can split traffic, whether it also reports the
    canary's readiness, an application prober, the deploy history. *)
Record service := mkService {
  sv_weighted : bool; sv_canaryProber : bool; sv_prober : bool; sv_deploys : bool
}.

Record WeightedRequest := mkRequest {
  wr_Namespace : string; wr_Name : string; wr_StableImage : string; wr_CanaryImage : string; wr_Weight : Z
}.

(** A call to [DeployWeighted], with the rollout it was made for and its outcome. *)
Record split := mkSplit { sp_Canary : string; sp_Request : WeightedRequest; sp_ok : bool }.

(** The applications, the rollouts, and the calls made to the cluster.  [w_lost] is a
    record of the rollouts an [Update] of which has failed. *)
Record world := mkWorld {
  w_apps : gmap string App; w_canaries : gmap string AppCanary; w_splits : list split; w_lost : gset string
}.

Definition set_canaries m (w : world) : world := mkWorld (w_apps w) m (w_splits w) (w_lost w).
Definition add_split s (w : world) : world := mkWorld (w_apps w) (w_canaries w) (w_splits w ++ [s]) (w_lost w).
Definition lose id (w : world) : world := mkWorld (w_apps w) (w_canaries w) (w_splits w) ({[id]} ∪ w_lost w).

(** What a step learns from outside. *)
Record input := mkInput {
  in_now : Z;                              (* the clock *)
  in_rows : option (list AppDeploy);       (* [ListByApp], newest first *)
  in_build : result string string;         (* [BuildAndPushImage] *)
  in_split : option (bool * string);       (* [DeployWeighted]'s error: unsupported?, its text *)
  in_app_error : bool;                     (* the application store fails *)
  in_store_error : bool;                   (* the store of rollouts fails *)
  in_ready : result string (bool * string); (* [CanaryReady] *)
  in_probe : string * string               (* [Probe] *)
}.

Definition supportsCanary (sv : service) (app : App) : bool :=
  sv_weighted sv && (dt_Kind (a_DeployTarget app) =s DeployTargetKubernetes).

(** [%d] of a signed number. *)
Definition fmt_d (n : Z) : string := if n <? 0 then "-" +:+ itoa (- n) else itoa n.

Definition request (app : App) (c : AppCanary) (weight : Z) : WeightedRequest :=
  mkRequest (dt_Namespace (a_DeployTarget app)) (AppPrefix app) (c_StableImage c) (c_CanaryImage c) weight.

Section service.
Context `{RO : RangeOrder} (sv : service).

(** The last deploy that shipped an image, if it is newer than [at_]. *)
Fixpoint newer_deploy (rows : list AppDeploy) (img : string) (at_ : Z) : string :=
  match rows with
  | [] => img
  | d :: rows =>
      if negb (d_Status d =s RunStatusSuccess) || (d_ImageRef d =s "") then newer_deploy rows img at_
      else if at_ <? d_CreatedAt d then d_ImageRef d else img
  end.

Definition stableImageFor (m : gmap string AppCanary) (failing : bool) (rows : option (list AppDeploy)) (app : App) : string :=
  let '(img, at_) := match if failing then Err (ErrNotFound (a_ID app)) else LatestPromoted m (a_ID app) with
    | Ok prev => if negb (c_CanaryImage prev =s "")
                 then (c_CanaryImage prev, default zero_time (c_ResolvedAt prev)) else ("", zero_time)
    | Err _ => ("", zero_time)
    end in
  if negb (sv_deploys sv) then img else
  match rows with
  | None => img
  | Some rows => newer_deploy rows img at_
  end.

Definition canaryHardDeadline : Z := 30 * minute.
Definition stalePendingThreshold : Z := hour.

Inductive canaryDecision := decisionWait | decisionPromote | decisionRollback.

Definition decide_canary (now : Z) (ready : result string (bool * string)) (probe : string * string) (c : AppCanary)
    : canaryDecision * string :=
  let pastDeadline := c_StartedAt c + canaryHardDeadline <? now in
  if sv_canaryProber sv then
    match ready with
    | Err e =>
        if pastDeadline then (decisionRollback, "canary readiness unknown past deadline: " +:+ e)
        else (decisionWait, "canary readiness inconclusive: " +:+ e)
    | Ok (true, detail) => (decisionPromote, "canary workload: " +:+ detail)
    | Ok (false, detail) =>
        if pastDeadline then (decisionRollback, "canary workload not ready past deadline: " +:+ detail)
        else (decisionWait, "canary workload not ready yet: " +:+ detail)
    end
  else if negb (sv_prober sv) then (decisionPromote, "no probe wired; assuming healthy")
  else
    let '(health, msg) := probe in
    if health =s AppHealthHealthy then (decisionPromote, msg)
    else if health =s AppHealthFailed then (decisionRollback, msg)
    else if pastDeadline then (decisionRollback, "health " +:+ health +:+ " past deadline: " +:+ msg)
    else (decisionWait, "health " +:+ health +:+ ": " +:+ msg).

(** ** Requests *)

(** What an operation of the store answers when it does not do its work. *)
Inductive row_error := RowError (e : store_error) | Unavailable.

Inductive canary_error :=
| ReserveSlot | LoadActiveRow
| NotConfigured (app : string) | ErrCanaryUnsupported | ErrCanaryInFlight | ErrNoActiveCanary
| BuildImage (msg : string) | EstablishSplit (msg : string) | PersistState (e : row_error)
| LoadApp (id : string) | ClaimTerminalError (e : row_error) | ResolveSplit (msg : string) | PersistResolved (e : row_error)
| RowGone (e : row_error).

Inductive resolution := Promoting | Aborting (reason : string).

Definition resolved_status (r : resolution) : CanaryStatus :=
  match r with Promoting => CanaryPromoted | Aborting _ => CanaryAborted end.
Definition resolved_weight (r : resolution) : Z := match r with Promoting => 100 | Aborting _ => 0 end.

(** The rest of a sweep: its clock reading and the rollouts it has yet to look
    at; [None] for an operator's request. *)
Definition sweep : Type := option (Z * list AppCanary).

(** A request between two of its store operations. *)
Inductive thread :=
| StartReserve (app : App) (runID uuid : string)
| StartImages (app : App) (c : AppCanary)
| StartSplit (app : App) (c : AppCanary)
| StartPersist (app : App) (c : AppCanary)
| StartFail (c : AppCanary) (reason : string) (err : canary_error)
| LoadActive (appID : string) (r : resolution) (k : sweep)
| LoadActiveApp (appID : string) (c : AppCanary) (r : resolution) (k : sweep)
| ClaimStep (app : App) (c : AppCanary) (r : resolution) (k : sweep)
| Reload (id : string) (k : sweep)
| Split (app : App) (c : AppCanary) (r : resolution) (k : sweep)
| Revert (c : AppCanary) (msg : string) (k : sweep)
| Persist (c : AppCanary) (r : resolution) (k : sweep)
| SweepReap | SweepList
| SweepNext (now : Z) (cs : list AppCanary)
| SweepDecide (app : App) (c : AppCanary) (now : Z) (cs : list AppCanary)
| ReapClaim (c : AppCanary) (now : Z) (cs : list AppCanary)
| ReapPersist (c : AppCanary) (now : Z) (cs : list AppCanary)
| Finished (r : option (result canary_error AppCanary)).

Definition finish (k : sweep) (r : result canary_error AppCanary) : thread :=
  match k with None => Finished (Some r) | Some (now, cs) => SweepNext now cs end.

(** The row [Start] reserves. *)
Definition reserved (cfg : CanaryConfig) (app : App) (runID uuid : string) (now : Z) : AppCanary :=
  mkCanary uuid (a_ID app) runID "" "" (cc_Weight cfg) CanaryPending (cc_AutoPromote cfg)
    (cc_HealthWindowSeconds cfg) true "starting canary" None now zero_time None.

(** What [Start] makes of it once the split is live. *)
Definition live (now : Z) (c : AppCanary) : AppCanary :=
  let c := c |> c_set_Status CanaryProgressing |> c_set_Message ("canary at " +:+ fmt_d (c_Weight c) +:+ "%") in
  if c_AutoPromote c then c_set_PromoteAfter (Some (now + wrap64 (c_HealthWindowSeconds c * second))) c else c.

(** [failPending]'s assignments. *)
Definition failed_row (now : Z) (reason : string) (c : AppCanary) : AppCanary :=
  c |> c_set_Status CanaryFailed |> c_set_Weight 0 |> c_set_Healthy false
    |> c_set_Message ("failed to establish canary: " +:+ reason) |> c_set_PromoteAfter None
    |> c_set_ResolvedAt (Some now).

(** The assignments of [Promote] and [Abort] once the cluster has followed. *)
Definition resolved_row (now : Z) (r : resolution) (c : AppCanary) : AppCanary :=
  let c := c |> c_set_Status (resolved_status r) |> c_set_Weight (resolved_weight r) in
  let c := match r with
    | Promoting => c |> c_set_Healthy true |> c_set_Message "promoted to 100%"
    | Aborting reason => c_set_Message (if reason =s "" then "aborted by operator" else reason) c
    end in
  c |> c_set_PromoteAfter None |> c_set_ResolvedAt (Some now).

Definition reaped_message : string := "app deleted during canary".

(** Up to the next store operation of a sweep: is it this rollout's turn? *)
Definition window_open (now : Z) (c : AppCanary) : bool :=
  negb (c_AutoPromote c) || match c_PromoteAfter c with None => true | Some t => now <? t end.

(** An [Update], which may fail. *)
Definition write_row (i : input) (c : AppCanary) (w : world) : option row_error * AppCanary * world :=
  if in_store_error i then (Some Unavailable, c, lose (c_ID c) w) else
  match Update (w_canaries w) (in_now i) c with
  | (Some e, c, _) => (Some (RowError e), c, w)
  | (None, c, m) => (None, c, set_canaries m w)
  end.

(** *** The steps of [Start] *)

Definition reserve_step (app : App) (runID uuid : string) (i : input) (w : world) : thread * world :=
  let cfg := Normalize (a_Canary app) in
  if negb (IsCanary cfg) then (Finished (Some (Err (NotConfigured (a_ID app)))), w)
  else if negb (supportsCanary sv app) then (Finished (Some (Err ErrCanaryUnsupported)), w)
  else if in_store_error i then (Finished (Some (Err ReserveSlot)), w)
  else
    match Create (w_canaries w) (in_now i) (reserved cfg app runID uuid (in_now i)) with
    | (Some _, _, _) => (Finished (Some (Err ErrCanaryInFlight)), w)
    | (None, c, m) => (StartImages app c, set_canaries m w)
    end.

Definition images_step (app : App) (c : AppCanary) (i : input) (w : world) : thread * world :=
  let stable := stableImageFor (w_canaries w) (in_store_error i) (in_rows i) app in
  match in_build i with
  | Err msg => (StartFail c ("build image: " +:+ msg) (BuildImage msg), w)
  | Ok img => (StartSplit app (c_set_Images (if stable =s "" then img else stable) img c), w)
  end.

Definition split_step (app : App) (c : AppCanary) (i : input) (w : world) : thread * world :=
  let call ok := add_split (mkSplit (c_ID c) (request app c (c_Weight c)) ok) w in
  match in_split i with
  | None => (StartPersist app c, call true)
  | Some (unsupported, msg) =>
      (StartFail c ("establish split: " +:+ msg)
         (if unsupported then ErrCanaryUnsupported else EstablishSplit msg), call false)
  end.

Definition persist_step (c : AppCanary) (i : input) (w : world) : thread * world :=
  match write_row i (live (in_now i) c) w with
  | (Some e, _, w) => (Finished (Some (Err (PersistState e))), w)
  | (None, c, w) => (Finished (Some (Ok c)), w)
  end.

Definition failPending (c : AppCanary) (reason : string) (err : canary_error) (i : input) (w : world) : thread * world :=
  let '(_, _, w) := write_row i (failed_row (in_now i) reason c) w in
  (Finished (Some (Err err)), w).

(** *** The steps of [Promote] and [Abort], which differ in the status they claim,
    the weight they ask for and the assignments of [resolved_row] *)

Definition loadActive (appID : string) (r : resolution) (k : sweep) (i : input) (w : world) : thread * world :=
  if in_store_error i then (finish k (Err LoadActiveRow), w) else
  match GetActive (w_canaries w) appID with
  | Err _ => (finish k (Err ErrNoActiveCanary), w)
  | Ok c => (LoadActiveApp appID c r k, w)
  end.

Definition loadActive_app (appID : string) (c : AppCanary) (r : resolution) (k : sweep) (i : input) (w : world) : thread * world :=
  if in_app_error i then (finish k (Err (LoadApp appID)), w) else
  match w_apps w !! appID with
  | None => (finish k (Err (LoadApp appID)), w)
  | Some app => (ClaimStep app c r k, w)
  end.

Definition claim_step (app : App) (c : AppCanary) (r : resolution) (k : sweep) (i : input) (w : world) : thread * world :=
  if in_store_error i then (finish k (Err (ClaimTerminalError Unavailable)), w) else
  match ClaimTerminal (w_canaries w) (in_now i) (c_ID c) (resolved_status r) with
  | (Err e, _) => (finish k (Err (ClaimTerminalError (RowError e))), w)
  | (Ok false, _) => (Reload (c_ID c) k, w)
  | (Ok true, m) => (Split app c r k, set_canaries m w)
  end.

Definition reload_step (id : string) (k : sweep) (i : input) (w : world) : thread * world :=
  if in_store_error i then (finish k (Err (RowGone Unavailable)), w) else
  match Get (w_canaries w) id with
  | Err e => (finish k (Err (RowGone (RowError e))), w)
  | Ok c => (finish k (Ok c), w)
  end.

Definition resolve_split_step (app : App) (c : AppCanary) (r : resolution) (k : sweep) (i : input) (w : world) : thread * world :=
  let call ok := add_split (mkSplit (c_ID c) (request app c (resolved_weight r)) ok) w in
  match in_split i with
  | None => (Persist c r k, call true)
  | Some (_, msg) => (Revert c msg k, call false)
  end.

Definition revertClaim (c : AppCanary) (msg : string) (k : sweep) (i : input) (w : world) : thread * world :=
  let '(_, _, w) := write_row i (c |> c_set_Status CanaryProgressing |> c_set_ResolvedAt None) w in
  (finish k (Err (ResolveSplit msg)), w).

Definition persist_resolved_step (c : AppCanary) (r : resolution) (k : sweep) (i : input) (w : world) : thread * world :=
  match write_row i (resolved_row (in_now i) r c) w with
  | (Some e, _, w) => (finish k (Err (PersistResolved e)), w)
  | (None, c, w) => (finish k (Ok c), w)
  end.

Definition Promote (appID : string) (k : sweep) : thread := LoadActive appID Promoting k.
Definition Abort (appID reason : string) (k : sweep) : thread := LoadActive appID (Aborting reason) k.

(** *** The steps of a sweep *)

Definition sweep_reap_step (i : input) (w : world) : thread * world :=
  if negb (sv_weighted sv) then (Finished None, w)
  else if in_store_error i then (SweepList, w)
  else (SweepList, set_canaries (DeleteStalePending (w_canaries w) (in_now i - stalePendingThreshold)).2 w).

Definition sweep_list_step (i : input) (w : world) : thread * world :=
  if in_store_error i then (Finished None, w) else (SweepNext (in_now i) (ListProgressing (w_canaries w)), w).

Definition sweep_next_step (now : Z) (cs : list AppCanary) (i : input) (w : world) : thread * world :=
  match cs with
  | [] => (Finished None, w)
  | c :: cs =>
      if in_app_error i then (SweepNext now cs, w) else
      match w_apps w !! c_AppID c with
      | None => (ReapClaim c now cs, w)
      | Some app => if window_open now c then (SweepNext now cs, w) else (SweepDecide app c now cs, w)
      end
  end.

Definition evaluate (c : AppCanary) (now : Z) (cs : list AppCanary) (i : input) (w : world) : thread * world :=
  match decide_canary (in_now i) (in_ready i) (in_probe i) c with
  | (decisionPromote, _) => (Promote (c_AppID c) (Some (now, cs)), w)
  | (decisionRollback, msg) => (Abort (c_AppID c) ("auto-rollback: " +:+ msg) (Some (now, cs)), w)
  | (decisionWait, _) => (SweepNext now cs, w)
  end.

Definition reapAppGone_claim (c : AppCanary) (now : Z) (cs : list AppCanary) (i : input) (w : world) : thread * world :=
  if in_store_error i then (SweepNext now cs, w) else
  match ClaimTerminal (w_canaries w) (in_now i) (c_ID c) CanaryAborted with
  | (Ok true, m) => (ReapPersist c now cs, set_canaries m w)
  | _ => (SweepNext now cs, w)
  end.

Definition reapAppGone_update (c : AppCanary) (now : Z) (cs : list AppCanary) (i : input) (w : world) : thread * world :=
  let '(_, _, w) := write_row i
    (c |> c_set_Status CanaryAborted |> c_set_Message reaped_message |> c_set_ResolvedAt (Some (in_now i))) w in
  (SweepNext now cs, w).

(** One step of a request: one operation of a store or one call to the cluster,
    with what the code does up to the next. *)
Definition exec (i : input) (t : thread) (w : world) : thread * world :=
  match t with
  | StartReserve app runID uuid => reserve_step app runID uuid i w
  | StartImages app c => images_step app c i w
  | StartSplit app c => split_step app c i w
  | StartPersist app c => persist_step c i w
  | StartFail c reason err => failPending c reason err i w
  | LoadActive appID r k => loadActive appID r k i w
  | LoadActiveApp appID c r k => loadActive_app appID c r k i w
  | ClaimStep app c r k => claim_step app c r k i w
  | Reload id k => reload_step id k i w
  | Split app c r k => resolve_split_step app c r k i w
  | Revert c msg k => revertClaim c msg k i w
  | Persist c r k => persist_resolved_step c r k i w
  | SweepReap => sweep_reap_step i w
  | SweepList => sweep_list_step i w
  | SweepNext now cs => sweep_next_step now cs i w
  | SweepDecide app c now cs => evaluate c now cs i w
  | ReapClaim c now cs => reapAppGone_claim c now cs i w
  | ReapPersist c now cs => reapAppGone_update c now cs i w
  | Finished r => (Finished r, w)
  end.

(** [Status], a request of one operation. *)
Definition Status (appID : string) (w : world) : result canary_error AppCanary :=
  match GetActive (w_canaries w) appID with Err _ => Err ErrNoActiveCanary | Ok c => Ok c end.

(** ** The system *)

(** The identifiers handed out so far are part of the state: UUIDs are fresh. *)
Record system := mkSystem { sy_world : world; sy_threads : list thread; sy_ids : gset string }.

Inductive cstep : system -> system -> Prop :=
| step_start w ts ids app runID uuid : uuid ∉ ids ->
    cstep (mkSystem w ts ids) (mkSystem w (ts ++ [StartReserve app runID uuid]) ({[uuid]} ∪ ids))
| step_resolve w ts ids appID r :
    cstep (mkSystem w ts ids) (mkSystem w (ts ++ [LoadActive appID r None]) ids)
| step_sweep w ts ids : cstep (mkSystem w ts ids) (mkSystem w (ts ++ [SweepReap]) ids)
| step_apps w ts ids apps : (* applications are created, edited and deleted by others *)
    cstep (mkSystem w ts ids) (mkSystem (mkWorld apps (w_canaries w) (w_splits w) (w_lost w)) ts ids)
| step_cascade w ts ids appID : (* an application is deleted with its rollouts *)
    cstep (mkSystem w ts ids) (mkSystem (mkWorld (delete appID (w_apps w))
      (filter (fun p => c_AppID p.2 <> appID) (w_canaries w)) (w_splits w) (w_lost w)) ts ids)
| step_thread w ts ids j t i t' w' : ts !! j = Some t -> exec i t w = (t', w') ->
    cstep (mkSystem w ts ids) (mkSystem w' (<[j := t']> ts) ids).

Definition idle (y : system) : Prop := w_canaries (sy_world y) = ∅ /\ w_splits (sy_world y) = [] /\ sy_threads y = [].
End service.

Ltac open_step := cbn [exec] in *;
  unfold reserve_step, images_step, split_step, persist_step, failPending, loadActive, loadActive_app, claim_step,
    reload_step, resolve_split_step, revertClaim, persist_resolved_step, sweep_reap_step, sweep_list_step, sweep_next_step,
    evaluate, Promote, Abort, reapAppGone_claim, reapAppGone_update in *.

(** ** Invariant *)

Section invariant.
Context `{RO : RangeOrder} (sv : service).
Implicit Types (w : world) (t : thread) (c r : AppCanary) (m : gmap string AppCanary).

(** What a rollout asks of the cluster, and what the cluster has accepted for it. *)
Definition data c : string * string * Z := (c_StableImage c, c_CanaryImage c, c_Weight c).
Definition data_at (weight : Z) c : string * string * Z := (c_StableImage c, c_CanaryImage c, weight).

Definition told w (id : string) : list (string * string * Z) :=
  (fun s => (wr_StableImage (sp_Request s), wr_CanaryImage (sp_Request s), wr_Weight (sp_Request s))) <$>
    filter (fun s => sp_Canary s = id /\ sp_ok s = true) (w_splits w).

Definition cluster_failed w : Prop := exists s, s ∈ w_splits w /\ sp_ok s = false.

(** The rollout a request is establishing or resolving. *)
Definition owner t : option string :=
  match t with
  | StartReserve _ _ uuid => Some uuid
  | StartImages _ c | StartSplit _ c | StartPersist _ c | StartFail c _ _
  | Split _ c _ _ | Revert c _ _ | Persist c _ _ | ReapPersist c _ _ => Some (c_ID c)
  | _ => None
  end.

Definition known w c : Prop :=
  (forall r, w_canaries w !! c_ID c = Some r -> c_Status r <> CanaryPending /\ c_AppID r = c_AppID c) /\
  head (told w (c_ID c)) = Some (data c).

Definition reserving w c : Prop :=
  forall r, w_canaries w !! c_ID c = Some r -> c_Status r = CanaryPending /\ c_AppID r = c_AppID c.

Definition resolving w c (st : CanaryStatus) (calls : list (string * string * Z)) : Prop :=
  (forall r, w_canaries w !! c_ID c = Some r -> c_Status r = st /\ c_AppID r = c_AppID c /\ data r = data c) /\
  told w (c_ID c) = calls.

Definition sweep_ok w (cs : list AppCanary) : Prop := forall c, c ∈ cs -> known w c.
Definition rest_ok w (k : sweep) : Prop := match k with None => True | Some (_, cs) => sweep_ok w cs end.

Definition thread_ok w t : Prop :=
  match t with
  | StartReserve _ _ uuid => w_canaries w !! uuid = None /\ told w uuid = []
  | StartImages _ c | StartSplit _ c | StartFail c _ _ => reserving w c /\ told w (c_ID c) = []
  | StartPersist _ c => reserving w c /\ told w (c_ID c) = [data c]
  | LoadActive _ _ k | Reload _ k => rest_ok w k
  | LoadActiveApp _ c _ k | ClaimStep _ c _ k => known w c /\ rest_ok w k
  | Split _ c res k => resolving w c (resolved_status res) [data c] /\ rest_ok w k
  | Revert c _ k => (exists res, resolving w c (resolved_status res) [data c]) /\ cluster_failed w /\ rest_ok w k
  | Persist c res k => resolving w c (resolved_status res) [data c; data_at (resolved_weight res) c] /\ rest_ok w k
  | SweepNext _ cs => sweep_ok w cs
  | SweepDecide _ c _ cs | ReapClaim c _ cs => known w c /\ sweep_ok w cs
  | ReapPersist c _ cs => resolving w c CanaryAborted [data c] /\ sweep_ok w cs
  | SweepReap | SweepList | Finished _ => True
  end.

(** What a resolved row says of the cluster when a write of it has failed: the cluster
    was told all of it, or nothing yet. *)
Definition lost_ok w (id : string) r (weight : Z) : Prop :=
  id ∈ w_lost w /\ (told w id = [data r] \/ told w id = [data r; data_at weight r]).

(** What a row nobody is working on says of the cluster. *)
Definition row_ok w (id : string) r : Prop :=
  match c_Status r with
  | CanaryPending => True
  | CanaryProgressing => told w id = [data r]
  | CanaryPromoted => (exists weight, told w id = [data_at weight r; data r] /\ c_Weight r = 100) \/ lost_ok w id r 100
  | CanaryAborted => (exists weight, told w id = [data_at weight r; data r] /\ c_Weight r = 0) \/
                     (c_Message r = reaped_message /\ told w id = [data r]) \/ lost_ok w id r 0
  | CanaryFailed => told w id = []
  end.

Definition one_active m : Prop :=
  forall id id' r r', m !! id = Some r -> m !! id' = Some r' ->
    canaryActive (c_Status r) = true -> canaryActive (c_Status r') = true -> c_AppID r = c_AppID r' -> id = id'.

(** The rest of the store during a step that works on [X] only. *)
Record effect (X : option string) w w' : Prop := {
  ef_row id : X <> Some id -> w_canaries w' !! id = w_canaries w !! id \/ w_canaries w' !! id = None;
  ef_told id : X <> Some id -> told w' id = told w id;
  ef_known c : known w c -> known w' c;
  ef_failed : cluster_failed w -> cluster_failed w';
  ef_lost : w_lost w ⊆ w_lost w'
}.

Lemma effect_refl X w : effect X w w.
Proof. split; auto. Qed.

Lemma told_set_canaries m w id : told (set_canaries m w) id = told w id.
Proof. done. Qed.

Lemma told_add_split s w id : told (add_split s w) id =
  told w id ++ (if decide (sp_Canary s = id /\ sp_ok s = true)
    then [(wr_StableImage (sp_Request s), wr_CanaryImage (sp_Request s), wr_Weight (sp_Request s))] else []).
Proof.
  unfold told. cbn [w_splits add_split]. rewrite filter_app, fmap_app. f_equal. cbn [filter list_filter].
  unfold filter, list_filter. by destruct (decide _).
Qed.

(** A row is written, by the request that works on it. *)
Lemma effect_row w id r' : told w id = [] \/ is_Some (w_canaries w !! id) ->
  (forall r, w_canaries w !! id = Some r -> c_Status r <> CanaryPending ->
     c_Status r' <> CanaryPending /\ c_AppID r' = c_AppID r) ->
  effect (Some id) w (set_canaries (<[id := r']> (w_canaries w)) w).
Proof.
  intros Hex Hr. split; cbn; try done.
  - intros id' Hne. left. apply lookup_insert_ne. congruence.
  - intros c [Hrow Hh]. split; [|exact Hh]. cbn. intros r0. destruct (decide (id = c_ID c)) as [->|He].
    + rewrite lookup_insert_eq. intros [= <-]. destruct Hex as [Ht|[r Hl]]; [by rewrite Ht in Hh|].
      destruct (Hrow r Hl) as [Hp Ha]. destruct (Hr r Hl Hp) as [H1 H2]. split; [done|congruence].
    + rewrite lookup_insert_ne by done. apply Hrow.
Qed.

(** A write of it fails. *)
Lemma effect_lose w id : effect (Some id) w (lose id w).
Proof. split; try done; cbn; [by left|set_solver]. Qed.

Lemma effect_split w id req ok : effect (Some id) w (add_split (mkSplit id req ok) w).
Proof.
  split.
  - by left.
  - intros id' Hne. rewrite told_add_split. cbn [sp_Canary sp_ok]. rewrite decide_False; [apply app_nil_r|]. intros [-> _]. done.
  - intros c [Hr Hh]. split; [exact Hr|]. rewrite told_add_split. by destruct (told w (c_ID c)).
  - intros (s & Hs & Hf). exists s. split; [|done]. cbn. apply elem_of_app. by left.
  - done.
Qed.

Lemma told_ok w id req :
  told (add_split (mkSplit id req true) w) id = told w id ++ [(wr_StableImage req, wr_CanaryImage req, wr_Weight req)].
Proof. rewrite told_add_split. cbn [sp_Canary sp_ok sp_Request]. by rewrite decide_True. Qed.

Lemma told_failed w id id' req : told (add_split (mkSplit id req false) w) id' = told w id'.
Proof. rewrite told_add_split. cbn [sp_ok]. rewrite decide_False by (by intros [_ ?]). apply app_nil_r. Qed.

Lemma failed_split w id req : cluster_failed (add_split (mkSplit id req false) w).
Proof. eexists. split; [cbn; apply elem_of_app; right; left|done]. Qed.

(** *** Stale reservations *)

Lemma DeleteStalePending_lookup m old id :
  (DeleteStalePending m old).2 !! id =
  match m !! id with Some r => if stale old r then None else Some r | None => None end.
Proof.
  unfold DeleteStalePending.
  assert (forall l n m0, (foldl (fun '(n, m) '(id, c) => if stale old c then (n + 1, delete id m) else (n, m)) (n, m0) l).2 !! id =
    if existsb (fun '(k, c) => (k =s id) && stale old c) l then None else m0 !! id) as H.
  { induction l as [|[k c] l IH]; intros n m0; cbn [foldl existsb]; [done|].
    destruct (stale old c) eqn:Es; rewrite IH; [|by rewrite andb_false_r].
    rewrite andb_true_r. destruct (existsb _ l); [by rewrite orb_true_r|]. rewrite orb_false_r.
    destruct (String.eqb_spec k id) as [->|]; [by rewrite lookup_delete_eq|by rewrite lookup_delete_ne]. }
  rewrite H. clear H. destruct (m !! id) as [r|] eqn:Hm.
  - destruct (stale old r) eqn:Es.
    + rewrite (proj2 (existsb_exists _ _)); [done|]. exists (id, r). rewrite String.eqb_refl, Es.
      split; [by apply list_elem_of_In, elem_of_range|done].
    + destruct (existsb _ _) eqn:Ee; [|done]. apply existsb_exists in Ee as ([k c] & Hin & Hk). reflect_bools. subst k.
      apply list_elem_of_In, elem_of_range in Hin. rewrite Hm in Hin. injection Hin as ->. congruence.
  - by destruct (existsb _ _).
Qed.

Lemma stale_pending old r : stale old r = true -> c_Status r = CanaryPending.
Proof. unfold stale. intros [H _]%andb_prop. by apply bool_decide_eq_true_1 in H. Qed.

(** Rows are deleted. *)
Lemma effect_delete X w m : (forall id, m !! id = w_canaries w !! id \/ m !! id = None) -> effect X w (set_canaries m w).
Proof.
  intros Hm. split; cbn; [auto|done| |done|done]. intros c [Hrow Hh]. split; [|exact Hh]. cbn. intros r Hl.
  apply Hrow. destruct (Hm (c_ID c)); congruence.
Qed.

Lemma effect_reap w old : effect None w (set_canaries (DeleteStalePending (w_canaries w) old).2 w).
Proof.
  apply effect_delete. intros id. rewrite DeleteStalePending_lookup. destruct (w_canaries w !! id) as [r|]; [|by left].
  destruct (stale old r); auto.
Qed.

(** *** At most one active rollout per application *)

Lemma one_active_row m id r' :
  (canaryActive (c_Status r') = true -> exists r, m !! id = Some r /\ canaryActive (c_Status r) = true /\ c_AppID r = c_AppID r') ->
  one_active m -> one_active (<[id := r']> m).
Proof.
  intros Hr Ho id1 id2 r1 r2. rewrite !lookup_insert_Some.
  intros [[<- <-]|[Hn1 H1]] [[<- <-]|[Hn2 H2]] A1 A2 Ha; [done| | |by apply (Ho id1 id2 r1 r2)].
  - destruct (Hr A1) as (r & Hl & Hact & Happ). apply (Ho id id2 r r2); [done..|congruence].
  - destruct (Hr A2) as (r & Hl & Hact & Happ). apply (Ho id1 id r1 r); [done..|congruence].
Qed.

Lemma one_active_fresh m c :
  (forall id r, m !! id = Some r -> canaryActive (c_Status r) = true -> c_AppID r <> c_AppID c) ->
  one_active m -> one_active (<[c_ID c := c]> m).
Proof.
  intros Hf Ho id1 id2 r1 r2. rewrite !lookup_insert_Some.
  intros [[<- <-]|[Hn1 H1]] [[<- <-]|[Hn2 H2]] A1 A2 Ha; [done| | |by apply (Ho id1 id2 r1 r2)].
  - by destruct (Hf id2 r2 H2 A2).
  - by destruct (Hf id1 r1 H1 A1).
Qed.

Lemma one_active_reap m old : one_active m -> one_active (DeleteStalePending m old).2.
Proof.
  intros Ho id1 id2 r1 r2. rewrite !DeleteStalePending_lookup.
  destruct (m !! id1) as [x1|] eqn:E1; [|done]. destruct (m !! id2) as [x2|] eqn:E2; [|done].
  destruct (stale old x1), (stale old x2); try done. intros [= <-] [= <-]. by apply Ho.
Qed.
(** *** One step of a request *)

Definition touch t t' : option string := match owner t with Some id => Some id | None => owner t' end.

(** What the store guarantees of its rows, whoever works on them. *)
Record rows_inv w : Prop := {
  ri_id id r : w_canaries w !! id = Some r -> c_ID r = id;
  ri_progressing id r : w_canaries w !! id = Some r -> c_Status r = CanaryProgressing -> told w id = [data r]
}.

Record stepped w t w' t' : Prop := {
  st_effect : effect (touch t t') w w';
  st_thread : thread_ok w' t';
  st_owner id : owner t' = Some id -> owner t = Some id \/
    (owner t = None /\ exists r, w_canaries w !! id = Some r /\ c_Status r = CanaryProgressing);
  st_row id r : touch t t' = Some id -> w_canaries w' !! id = Some r ->
    c_ID r = id /\ (c_Status r = CanaryProgressing -> told w' id = [data r]) /\ (owner t' = None -> row_ok w' id r);
  st_active : cluster_failed w \/ one_active (w_canaries w) -> cluster_failed w' \/ one_active (w_canaries w')
}.

(** A step that writes nothing and works on no rollout. *)
Lemma stepped_same w t t' : touch t t' = None -> thread_ok w t' -> stepped w t w t'.
Proof.
  intros Ht Hok. split; [apply effect_refl|done| | |auto].
  - intros id Hid. unfold touch in Ht. destruct (owner t); [done|congruence].
  - intros id r Htc. congruence.
Qed.

(** A step of the owner of [id]: it writes the row [r'] there, or nothing. *)
Lemma stepped_row w t t' id r' : told w id = [] \/ is_Some (w_canaries w !! id) -> owner t = Some id -> (owner t' = None \/ owner t' = Some id) ->
  c_ID r' = id ->
  (forall r, w_canaries w !! id = Some r -> c_Status r <> CanaryPending ->
     c_Status r' <> CanaryPending /\ c_AppID r' = c_AppID r) ->
  let w' := set_canaries (<[id := r']> (w_canaries w)) w in
  thread_ok w' t' -> (c_Status r' = CanaryProgressing -> told w id = [data r']) -> (owner t' = None -> row_ok w' id r') ->
  (cluster_failed w \/ (one_active (w_canaries w) -> one_active (w_canaries w'))) -> stepped w t w' t'.
Proof.
  intros Hex Ho Ho' Hid Hr w' Hok Hp Hrow Hact. assert (touch t t' = Some id) as Ht by (unfold touch; by rewrite Ho).
  split; [rewrite Ht; by apply effect_row|done| | |].
  - intros id' He. left. destruct Ho' as [Ho'|Ho']; congruence.
  - intros id' r Htc. rewrite Ht in Htc. injection Htc as <-. cbn. rewrite lookup_insert_eq. by intros [= <-].
  - intros [Hf|Ha]; [by left|]. destruct Hact as [Hf|Hact]; [by left|right; by apply Hact].
Qed.

(** A write of the owner that fails. *)
Lemma stepped_lose w t t' id : owner t = Some id -> (owner t' = None \/ owner t' = Some id) ->
  rows_inv w -> thread_ok (lose id w) t' ->
  (forall r, w_canaries w !! id = Some r -> owner t' = None -> row_ok (lose id w) id r) -> stepped w t (lose id w) t'.
Proof.
  intros Ho Ho' [Hid Hpr] Hok Hrow. assert (touch t t' = Some id) as Ht by (unfold touch; by rewrite Ho).
  split; [rewrite Ht; apply effect_lose|done| | |auto].
  - intros id' He. left. destruct Ho' as [Ho'|Ho']; congruence.
  - intros id' r Htc Hl. rewrite Ht in Htc. injection Htc as <-. split_and!; [by eapply Hid|by eapply Hpr|by apply Hrow].
Qed.

(** A step of the owner that writes no row. *)
Lemma stepped_keep w t t' id : owner t = Some id -> (owner t' = None \/ owner t' = Some id) ->
  rows_inv w -> thread_ok w t' -> (forall r, w_canaries w !! id = Some r -> owner t' = None -> row_ok w id r) -> stepped w t w t'.
Proof.
  intros Ho Ho' [Hid Hpr] Hok Hrow. assert (touch t t' = Some id) as Ht by (unfold touch; by rewrite Ho).
  split; [apply effect_refl|done| | |auto].
  - intros id' He. left. destruct Ho' as [Ho'|Ho']; congruence.
  - intros id' r Htc Hl. rewrite Ht in Htc. injection Htc as <-. split_and!; [by eapply Hid|by eapply Hpr|by apply Hrow].
Qed.

(** A call to the cluster by the owner of [id]; the row is not progressing. *)
Lemma stepped_split w t t' id req ok : owner t = Some id -> owner t' = Some id -> rows_inv w ->
  (forall r, w_canaries w !! id = Some r -> c_Status r <> CanaryProgressing) ->
  let w' := add_split (mkSplit id req ok) w in thread_ok w' t' -> stepped w t w' t'.
Proof.
  intros Ho Ho' [Hid _] Hnp w' Hok. assert (touch t t' = Some id) as Ht by (unfold touch; by rewrite Ho).
  split; [rewrite Ht; apply effect_split|done| | |].
  - intros id' He. left. congruence.
  - intros id' r Htc Hl. rewrite Ht in Htc. injection Htc as <-. split_and!; [by eapply Hid| |congruence].
    intros Hs. by destruct (Hnp r Hl).
  - intros [Hf|Ha]; [left|by right]. by apply (ef_failed (Some id) w w' (effect_split w id req ok)).
Qed.

Lemma rest_ok_effect X w w' k : effect X w w' -> rest_ok w k -> rest_ok w' k.
Proof. intros He. destruct k as [[now cs]|]; [|done]. intros H c Hc. by apply (ef_known _ _ _ He), H. Qed.

Lemma finish_ok w k x : rest_ok w k -> thread_ok w (finish k x).
Proof. by destruct k as [[now cs]|]. Qed.

Lemma finish_owner k x : owner (finish k x) = None.
Proof. by destruct k as [[now cs]|]. Qed.

(** What the store operations do, on the cases the service meets. *)
Lemma Update_found m now c r : m !! c_ID c = Some r ->
  Update m now c = (None, c_set_UpdatedAt now c, <[c_ID c := c_set_UpdatedAt now c]> m).
Proof. unfold Update. by intros ->. Qed.

Lemma Update_gone m now c : m !! c_ID c = None -> Update m now c = (Some (ErrNotFound (c_ID c)), c, m).
Proof. unfold Update. by intros ->. Qed.

Lemma GetActive_Ok m appID c : GetActive m appID = Ok c ->
  exists id, m !! id = Some c /\ c_Status c = CanaryProgressing /\ c_AppID c = appID.
Proof.
  unfold GetActive. destruct (filter _ _) as [|x l] eqn:E; cbn; [done|]. intros [= ->].
  assert (c ∈ c :: l) as Hin by left. rewrite <- E in Hin. apply list_elem_of_filter in Hin as [[Ha Hs] [id Hl]%elem_of_range_snd].
  by exists id.
Qed.

Lemma elem_of_ListProgressing m c : c ∈ ListProgressing m -> exists id, m !! id = Some c /\ c_Status c = CanaryProgressing.
Proof.
  unfold ListProgressing. rewrite elem_of_sort_slice, list_elem_of_filter. intros [Hs [id Hl]%elem_of_range_snd]. by exists id.
Qed.

Lemma progressing_known w id c : rows_inv w -> w_canaries w !! id = Some c -> c_Status c = CanaryProgressing -> known w c.
Proof.
  intros [Hid Hpr] Hl Hs. pose proof (Hid id c Hl) as <-.
  split; [intros r Hr; assert (r = c) as -> by congruence; by rewrite Hs|].
  by rewrite (Hpr _ _ Hl Hs).
Qed.

Lemma Create_Ok m now c c' m' : canaryActive (c_Status c) = true -> Create m now c = (None, c', m') ->
  m' = <[c_ID c := c']> m /\ c_ID c' = c_ID c /\ c_AppID c' = c_AppID c /\ c_Status c' = c_Status c /\
  (forall id r, m !! id = Some r -> canaryActive (c_Status r) = true -> c_AppID r <> c_AppID c).
Proof.
  intros Ha. unfold Create. rewrite Ha. cbn [andb]. destruct (existsb _ _) eqn:E; [done|]. intros [= <- <-].
  assert (forall b : bool, c_ID (if b then c_set_StartedAt now c else c) = c_ID c /\ c_AppID (if b then c_set_StartedAt now c else c) = c_AppID c
    /\ c_Status (if b then c_set_StartedAt now c else c) = c_Status c) as Hc by (by intros []).
  destruct (Hc (is_zero_time (c_StartedAt c))) as (H1 & H2 & H3). cbn. rewrite H1, H2, H3. split_and!; try done.
  intros id r Hl Hact Heq. rewrite <- not_true_iff_false in E. apply E, existsb_exists. exists r.
  rewrite Heq, String.eqb_refl, Hact. split; [|done]. apply list_elem_of_In, elem_of_range_snd. by exists id.
Qed.

(** A claim wins on a progressing row only, and then owns it. *)
Lemma claim_steps w t t' c res now m' : rows_inv w -> known w c -> owner t = None -> owner t' = Some (c_ID c) ->
  ClaimTerminal (w_canaries w) now (c_ID c) (resolved_status res) = (Ok true, m') ->
  (forall w', effect (Some (c_ID c)) w w' -> resolving w' c (resolved_status res) [data c] -> thread_ok w' t') ->
  stepped w t (set_canaries m' w) t'.
Proof.
  intros Hri Hk Ho Ho' Hc Hok. pose proof Hk as [Hrow Hh]. unfold ClaimTerminal in Hc.
  destruct (w_canaries w !! c_ID c) as [r|] eqn:Hl; [|done]. destruct (Hrow r eq_refl) as [Hp Happ].
  destruct (bool_decide _) eqn:Hs; [|done]. apply bool_decide_eq_true_1 in Hs. injection Hc as <-.
  set (r' := r |> c_set_Status (resolved_status res) |> c_set_UpdatedAt now).
  assert (effect (Some (c_ID c)) w (set_canaries (<[c_ID c := r']> (w_canaries w)) w)) as He.
  { apply effect_row; [by right; exists r|]. intros r0 Hr0 _. rewrite Hl in Hr0. injection Hr0 as <-. by destruct res. }
  pose proof (ri_progressing w Hri _ _ Hl Hs) as Ht. rewrite Ht in Hh. assert (data r = data c) as Hd by (cbn in Hh; congruence).
  assert (touch t t' = Some (c_ID c)) as Htc by (unfold touch; by rewrite Ho).
  split; [by rewrite Htc|apply Hok; [done|]| | |].
  - split; [cbn; intros r0; rewrite lookup_insert_eq; by intros [= <-]|]. by rewrite told_set_canaries, Ht, Hd.
  - intros id Hid. right. split; [done|]. exists r. rewrite Ho' in Hid. injection Hid as <-. done.
  - intros id r0 Hid. rewrite Htc in Hid. injection Hid as <-. cbn. rewrite lookup_insert_eq. intros [= <-].
    split; [by apply (ri_id w Hri) in Hl|]. split; [by destruct res|congruence].
  - intros [Hf|Ha]; [by left|right]. apply one_active_row; [by destruct res|done].
Qed.

(** The last write of a request that resolves a rollout. *)
Lemma resolver_write i w t t' c rr res calls e c' w' : rows_inv w -> owner t = Some (c_ID c) ->
  resolving w c (resolved_status res) calls -> calls = [data c] \/ calls = [data c; data_at (resolved_weight res) c] ->
  c_ID rr = c_ID c -> c_AppID rr = c_AppID c ->
  (c_Status rr <> CanaryPending /\ (c_Status rr = CanaryProgressing -> told w (c_ID c) = [data rr])) ->
  row_ok w (c_ID c) (c_set_UpdatedAt (in_now i) rr) -> cluster_failed w \/ canaryActive (c_Status rr) = false ->
  write_row i rr w = (e, c', w') -> owner t' = None -> (forall w2, effect (Some (c_ID c)) w w2 -> thread_ok w2 t') ->
  stepped w t w' t'.
Proof.
  intros Hri Ho [Hrow Ht] Hcalls Hid Happ [Hnp Hp] Hok Hact Hw Ho' Ht'. unfold write_row in Hw. rewrite Hid in Hw.
  destruct (in_store_error i).
  { injection Hw as <- <- <-. apply stepped_lose; [done|by left|done|apply Ht', effect_lose|].
    intros r Hl _. destruct (Hrow r Hl) as (Hs & _ & Hd). unfold row_ok. rewrite Hs.
    assert (lost_ok (lose (c_ID c) w) (c_ID c) r (resolved_weight res)) as Hlost.
    { split; [cbn; set_solver|]. change (told w (c_ID c) = [data r] \/ told w (c_ID c) = [data r; data_at (resolved_weight res) r]).
      rewrite Ht, Hd. unfold data in Hd. injection Hd as H1 H2 H3. destruct Hcalls as [->| ->]; [by left|right]. unfold data_at. by rewrite H1, H2. }
    destruct res; cbn in *; auto. }
  destruct (w_canaries w !! c_ID c) as [r0|] eqn:Hl.
  - rewrite (Update_found _ _ _ r0) in Hw by (by rewrite Hid). injection Hw as <- <- <-. rewrite Hid.
    assert (effect (Some (c_ID c)) w (set_canaries (<[c_ID c := c_set_UpdatedAt (in_now i) rr]> (w_canaries w)) w)) as He.
    { apply effect_row; [by right; exists r0|]. intros r1 Hl1 _. rewrite Hl in Hl1. destruct (Hrow r1 Hl1) as (_ & Ha & _). split; [done|]. cbn. congruence. }
    apply (stepped_row w _ _ (c_ID c) (c_set_UpdatedAt (in_now i) rr)); [by right; exists r0|done|by left|exact Hid| |by apply Ht'|exact Hp|by intros _|].
    + intros r1 Hl1 _. rewrite Hl in Hl1. destruct (Hrow r1 Hl1) as (_ & Ha & _). split; [done|]. cbn. congruence.
    + destruct Hact as [?|Hact]; [by left|right]. apply one_active_row. cbn. by rewrite Hact.
  - rewrite Update_gone in Hw by (by rewrite Hid). injection Hw as <- <- <-.
    eapply stepped_keep; [done|by left|done|apply Ht', effect_refl|]. congruence.
Qed.

Definition starting t : Prop :=
  match t with StartReserve _ _ _ | StartImages _ _ | StartSplit _ _ | StartPersist _ _ | StartFail _ _ _ => True | _ => False end.

#[local] Instance starting_dec t : Decision (starting t).
Proof. destruct t; apply _. Defined.

Lemma exec_start i t w t' w' : rows_inv w -> starting t -> thread_ok w t -> exec sv i t w = (t', w') -> stepped w t w' t'.
Proof.
  intros Hri Hst Hok. destruct t as [app runID uuid|app c|app c|app c|c reason err|appID r k|appID c r k|app c r k|id k|app c r k|
    c msg k|c r k| | |now cs|app c now cs|c now cs|c now cs|r]; try done; clear Hst; open_step; cbn [thread_ok] in *.
  - destruct Hok as [Hnone Htold].
    assert (forall x, stepped w (StartReserve app runID uuid) w (Finished x)) as Hkeep
      by (intros x; apply (stepped_keep _ _ _ uuid); [done|by left|done|done|intros r Hl; congruence]).
    destruct (negb (IsCanary _)); [intros [= <- <-]; apply Hkeep|]. destruct (negb (supportsCanary _ _)); [intros [= <- <-]; apply Hkeep|].
    destruct (in_store_error i); [intros [= <- <-]; apply Hkeep|].
    destruct (Create _ _ _) as [[[e|] c'] m'] eqn:Hc; intros [= <- <-]; [apply Hkeep|].
    apply Create_Ok in Hc as (-> & Hid & Happ & Hs & Hfree); [|done]. cbn in Hid, Happ, Hs.
    apply (stepped_row w _ _ uuid c'); [by left|done|right; cbn; by rewrite Hid|done|intros r Hl; congruence| |congruence|done|].
    + cbn. unfold reserving. cbn. rewrite !Hid. split; [|done]. intros r. rewrite lookup_insert_eq. by intros [= <-].
    + right. cbn. rewrite <- Hid. apply one_active_fresh. intros id r Hl Hact. rewrite Happ. by eapply Hfree.
  - destruct Hok as [Hres Htold]. destruct (in_build i) as [img|msg]; intros [= <- <-];
      (eapply stepped_keep; [done|by right|done|by split|done]).
  - destruct Hok as [Hres Htold]. assert (forall r, w_canaries w !! c_ID c = Some r -> c_Status r <> CanaryProgressing) as Hnp
      by (intros r Hl; destruct (Hres r Hl); congruence).
    destruct (in_split i) as [[unsupported msg]|]; intros [= <- <-];
      (eapply stepped_split; [done|done|done|exact Hnp|]).
    + split; [exact Hres|]. by rewrite told_failed.
    + split; [exact Hres|]. by rewrite told_ok, Htold.
  - destruct Hok as [Hres Htold]. assert (c_ID (live (in_now i) c) = c_ID c /\ c_AppID (live (in_now i) c) = c_AppID c /\
        c_Status (live (in_now i) c) = CanaryProgressing /\ data (live (in_now i) c) = data c) as (Hid & Happ & Hs & Hd)
      by (unfold live; cbn; by destruct (c_AutoPromote c)).
    unfold write_row. destruct (in_store_error i).
    { intros [= <- <-]. rewrite Hid. apply stepped_lose; [done|by left|done|done|]. intros r Hl _. unfold row_ok. by destruct (Hres r Hl) as [-> _]. }
    destruct (w_canaries w !! c_ID c) as [r|] eqn:Hl.
    + rewrite (Update_found _ _ _ r) by (by rewrite Hid). intros [= <- <-]. rewrite Hid. destruct (Hres r Hl) as [Hp Ha].
      apply (stepped_row w _ _ (c_ID c) (c_set_UpdatedAt (in_now i) (live (in_now i) c))); [by right; exists r|done|by left|exact Hid| |done| | |].
      * intros r0 Hr0. congruence.
      * intros _. by rewrite Htold, <- Hd.
      * intros _. unfold row_ok. cbn [c_Status c_set_UpdatedAt]. rewrite Hs.
        change (told w (c_ID c) = [data (live (in_now i) c)]). by rewrite Htold, <- Hd.
      * right. apply one_active_row. intros _. exists r. rewrite Hp. split_and!; [done|done|]. cbn. congruence.
    + rewrite Update_gone by (by rewrite Hid). intros [= <- <-]. eapply stepped_keep; [done|by left|done|done|]. congruence.
  - destruct Hok as [Hres Htold]. unfold write_row. destruct (in_store_error i).
    { intros [= <- <-]. apply stepped_lose; [done|by left|done|done|]. intros r Hl _. unfold row_ok. by destruct (Hres r Hl) as [-> _]. }
    destruct (w_canaries w !! c_ID c) as [r|] eqn:Hl.
    + rewrite (Update_found _ _ _ r) by done. intros [= <- <-]. destruct (Hres r Hl) as [Hp Ha].
      apply (stepped_row w _ _ (c_ID c) (c_set_UpdatedAt (in_now i) (failed_row (in_now i) reason c))); [by right; exists r|done|by left|done| |done|done| |].
      * intros r0 Hr0. congruence.
      * done.
      * right. by apply one_active_row.
    + rewrite Update_gone by done. intros [= <- <-]. eapply stepped_keep; [done|by left|done|done|]. congruence.
Qed.

Definition resolving_thread t : Prop :=
  match t with
  | LoadActive _ _ _ | LoadActiveApp _ _ _ _ | ClaimStep _ _ _ _ | Reload _ _ | Split _ _ _ _ | Revert _ _ _ | Persist _ _ _ => True
  | _ => False
  end.

#[local] Instance resolving_thread_dec t : Decision (resolving_thread t).
Proof. destruct t; apply _. Defined.

Lemma exec_resolve i t w t' w' : rows_inv w -> resolving_thread t -> thread_ok w t -> exec sv i t w = (t', w') -> stepped w t w' t'.
Proof.
  intros Hri Hst Hok. destruct t as [app runID uuid|app c|app c|app c|c reason err|appID r k|appID c r k|app c r k|id k|app c r k|
    c msg k|c r k| | |now cs|app c now cs|c now cs|c now cs|r]; try done; clear Hst; open_step; cbn [thread_ok] in *.
  - assert (forall e, stepped w (LoadActive appID r k) w (finish k (Err e))) as Hend
      by (intros e; apply stepped_same; [unfold touch; cbn; by rewrite finish_owner|by apply finish_ok]).
    destruct (in_store_error i); [by intros [= <- <-]|].
    destruct (GetActive _ _) as [c|e] eqn:Hg; intros [= <- <-]; [|done]. apply stepped_same; [done|].
    apply GetActive_Ok in Hg as (id & Hl & Hs & _). split; [by eapply progressing_known|done].
  - destruct Hok as [Hk Hrest]. assert (stepped w (LoadActiveApp appID c r k) w (finish k (Err (LoadApp appID)))) as Hend
      by (apply stepped_same; [unfold touch; cbn; by rewrite finish_owner|by apply finish_ok]).
    destruct (in_app_error i); [by intros [= <- <-]|]. destruct (w_apps w !! appID) as [app|]; intros [= <- <-]; [|done].
    by apply stepped_same.
  - destruct Hok as [Hk Hrest]. assert (forall e, stepped w (ClaimStep app c r k) w (finish k (Err e))) as Hend
      by (intros e; apply stepped_same; [unfold touch; cbn; by rewrite finish_owner|by apply finish_ok]).
    destruct (in_store_error i); [by intros [= <- <-]|].
    destruct (ClaimTerminal _ _ _ _) as [[[]|e] m'] eqn:Hc; intros [= <- <-].
    + eapply claim_steps; [done|done|done|done|exact Hc|]. intros w' He Hr. split; [done|]. by eapply rest_ok_effect.
    + by apply stepped_same.
    + done.
  - destruct (in_store_error i); [|destruct (Get _ _)]; intros [= <- <-];
      (apply stepped_same; [unfold touch; cbn; by rewrite finish_owner|by apply finish_ok]).
  - destruct Hok as [[Hrow Ht] Hrest].
    assert (forall r1, w_canaries w !! c_ID c = Some r1 -> c_Status r1 <> CanaryProgressing) as Hnp
      by (intros r1 Hl1; destruct (Hrow r1 Hl1) as [-> _]; by destruct r).
    destruct (in_split i) as [[u msg]|]; intros [= <- <-]; (eapply stepped_split; [done|done|done|exact Hnp|]).
    + split_and!; [|apply failed_split|].
      * exists r. split; [exact Hrow|]. by rewrite told_failed.
      * eapply rest_ok_effect; [apply effect_split|done].
    + split; [|eapply rest_ok_effect; [apply effect_split|done]]. split; [exact Hrow|]. by rewrite told_ok, Ht.
  - destruct Hok as ((res & Hrow & Ht) & Hf & Hrest). destruct (write_row _ _ _) as [[e c'] w1] eqn:Hw. intros [= <- <-].
    eapply (resolver_write i w _ _ c (c |> c_set_Status CanaryProgressing |> c_set_ResolvedAt None) res _ e c' w1);
      [done|done|by split|by left|done|done| | |by left|exact Hw|by rewrite finish_owner|].
    + by rewrite Ht.
    + unfold row_ok. cbn. exact Ht.
    + intros w2 He. apply finish_ok. by eapply rest_ok_effect.
  - destruct Hok as [[Hrow Ht] Hrest].
    assert (c_ID (resolved_row (in_now i) r c) = c_ID c /\ c_AppID (resolved_row (in_now i) r c) = c_AppID c /\
      c_Status (resolved_row (in_now i) r c) = resolved_status r /\ c_Weight (resolved_row (in_now i) r c) = resolved_weight r /\
      data (resolved_row (in_now i) r c) = data_at (resolved_weight r) c /\ (forall x, data_at x (resolved_row (in_now i) r c) = data_at x c))
      as (Hid & Happ & Hst & Hw & Hd & Hda) by (by destruct r).
    generalize dependent (resolved_row (in_now i) r c). intros rr Hid Happ Hst Hw Hd Hda.
    assert (forall e c' w1 x, write_row i rr w = (e, c', w1) -> stepped w (Persist c r k) w1 (finish k x)) as Hend.
    { intros e c' w1 x Hwr.
      eapply (resolver_write i w _ _ c rr r _ e c' w1); [done|done|by split|by right|exact Hid|exact Happ| | | |exact Hwr|by rewrite finish_owner|].
      - by rewrite Hst; destruct r.
      - unfold row_ok. cbn [c_Status c_set_UpdatedAt]. rewrite Hst.
        destruct r; left; exists (c_Weight c); (split; [|exact Hw]);
          change (told w (c_ID c) = [data_at (c_Weight c) rr; data rr]); by rewrite Ht, Hd, Hda.
      - right. rewrite Hst. by destruct r.
      - intros w2 He. apply finish_ok. by eapply rest_ok_effect. }
    destruct (write_row _ _ _) as [[[e|] c'] w1] eqn:Hwr; intros [= <- <-]; by eapply Hend.
Qed.

Lemma exec_sweep i t w t' w' : rows_inv w -> ~ starting t -> ~ resolving_thread t -> thread_ok w t ->
  exec sv i t w = (t', w') -> stepped w t w' t'.
Proof.
  intros Hri Hn1 Hn2 Hok. destruct t as [app runID uuid|app c|app c|app c|c reason err|appID r k|appID c r k|app c r k|id k|app c r k|
    c msg k|c r k| | |now cs|app c now cs|c now cs|c now cs|r]; try (by destruct Hn1); try (by destruct Hn2); clear Hn1 Hn2;
    open_step; cbn [thread_ok] in *.
  - destruct (negb _); [intros [= <- <-]; by apply stepped_same|]. destruct (in_store_error i); intros [= <- <-]; [by apply stepped_same|].
    split; [apply effect_reap|done|done|done|].
    intros [Hf|Ha]; [by left|right; by apply one_active_reap].
  - destruct (in_store_error i); intros [= <- <-]; (apply stepped_same; [done|]); [done|]. intros c (id & Hl & Hs)%elem_of_ListProgressing. by eapply progressing_known.
  - destruct cs as [|c cs]; [intros [= <- <-]; by apply stepped_same|].
    assert (known w c /\ sweep_ok w cs) as [Hk Hcs] by (split; [apply Hok; left|intros c' Hc'; apply Hok; by right]).
    destruct (in_app_error i); [intros [= <- <-]; by apply stepped_same|].
    destruct (w_apps w !! c_AppID c) as [app|]; [destruct (window_open now c)|]; intros [= <- <-]; by apply stepped_same.
  - destruct Hok as [Hk Hcs]. destruct (decide_canary _ _ _ _ _) as [[] msg]; intros [= <- <-]; by apply stepped_same.
  - destruct Hok as [Hk Hcs]. destruct (in_store_error i); [intros [= <- <-]; by apply stepped_same|].
    destruct (ClaimTerminal _ _ _ _) as [[[]|e] m'] eqn:Hc; intros [= <- <-]; [|by apply stepped_same..].
    eapply (claim_steps w _ _ c (Aborting "")); [done|done|done|done|exact Hc|]. intros w' He Hr. split; [done|].
    by apply (rest_ok_effect _ _ _ (Some (now, cs)) He).
  - destruct Hok as [[Hrow Ht] Hcs]. destruct (write_row _ _ _) as [[e c'] w1] eqn:Hw. intros [= <- <-].
    eapply (resolver_write i w _ _ c (c |> c_set_Status CanaryAborted |> c_set_Message reaped_message |> c_set_ResolvedAt (Some (in_now i)))
      (Aborting "") _ e c' w1); [done|done|by split|by left|done|done|done| |by right|exact Hw|done|].
    + right. left. by split.
    + intros w2 He. by apply (rest_ok_effect _ _ _ (Some (now, cs)) He).
  - intros [= <- <-]. by apply stepped_same.
Qed.

Lemma exec_stepped i t w t' w' : rows_inv w -> thread_ok w t -> exec sv i t w = (t', w') -> stepped w t w' t'.
Proof.
  intros Hri Hok He. destruct (decide (starting t)); [by eapply exec_start|].
  destruct (decide (resolving_thread t)); [by eapply exec_resolve|by eapply exec_sweep].
Qed.

(** *** The whole system *)

Definition unowned (y : system) (id : string) : Prop := forall j t, sy_threads y !! j = Some t -> owner t <> Some id.

Record inv (y : system) : Prop := {
  iv_rows : rows_inv (sy_world y);
  iv_threads j t : sy_threads y !! j = Some t -> thread_ok (sy_world y) t;
  iv_owner i j t1 t2 id : sy_threads y !! i = Some t1 -> sy_threads y !! j = Some t2 ->
    owner t1 = Some id -> owner t2 = Some id -> i = j;
  iv_owned_ids j t id : sy_threads y !! j = Some t -> owner t = Some id -> id ∈ sy_ids y;
  iv_row_ids id r : w_canaries (sy_world y) !! id = Some r -> id ∈ sy_ids y;
  iv_told_ids id : told (sy_world y) id <> [] -> id ∈ sy_ids y;
  iv_free id r : w_canaries (sy_world y) !! id = Some r -> unowned y id -> row_ok (sy_world y) id r;
  iv_active : cluster_failed (sy_world y) \/ one_active (w_canaries (sy_world y))
}.

(** The owner of a row keeps it out of the progressing ones. *)
Lemma owned_not_progressing w t id r : thread_ok w t -> owner t = Some id -> w_canaries w !! id = Some r ->
  c_Status r <> CanaryProgressing.
Proof.
  intros Hok Ho Hl. destruct t; cbn in Hok, Ho; try done; injection Ho as <-.
  - destruct Hok; congruence.
  - destruct Hok as [Hr _]. destruct (Hr r Hl); congruence.
  - destruct Hok as [Hr _]. destruct (Hr r Hl); congruence.
  - destruct Hok as [Hr _]. destruct (Hr r Hl); congruence.
  - destruct Hok as [Hr _]. destruct (Hr r Hl); congruence.
  - destruct Hok as [[Hr _] _]. destruct (Hr r Hl) as [-> _]. by destruct r0.
  - destruct Hok as [(res & Hr & _) _]. destruct (Hr r Hl) as [-> _]. by destruct res.
  - destruct Hok as [[Hr _] _]. destruct (Hr r Hl) as [-> _]. by destruct r0.
  - destruct Hok as [[Hr _] _]. by destruct (Hr r Hl) as [-> _].
Qed.

Lemma reserving_effect X w w' c : effect X w w' -> X <> Some (c_ID c) -> reserving w c -> reserving w' c.
Proof.
  intros He Hx Hr r Hl. destruct (ef_row _ _ _ He _ Hx) as [Hw|Hw]; rewrite Hw in Hl; [by apply Hr|done].
Qed.

Lemma resolving_effect X w w' c st calls : effect X w w' -> X <> Some (c_ID c) ->
  resolving w c st calls -> resolving w' c st calls.
Proof.
  intros He Hx [Hr Ht]. split; [|by rewrite (ef_told _ _ _ He)]. intros r Hl.
  destruct (ef_row _ _ _ He _ Hx) as [Hw|Hw]; rewrite Hw in Hl; [by apply Hr|done].
Qed.

(** A request is unaffected by the steps of those that work on other rollouts. *)
Lemma thread_ok_effect X w w' t : effect X w w' -> (forall id, owner t = Some id -> X <> Some id) -> thread_ok w t -> thread_ok w' t.
Proof.
  intros He Ho. assert (forall c, known w c -> known w' c) as Hk by apply He.
  assert (forall k, rest_ok w k -> rest_ok w' k) as Hr by (intros k; by eapply rest_ok_effect).
  assert (forall cs, sweep_ok w cs -> sweep_ok w' cs) as Hs by (intros cs H c Hc; by apply Hk, H).
  destruct t; cbn [thread_ok owner] in *; try specialize (Ho _ eq_refl); rewrite ?(ef_told _ _ _ He) by done;
    try done; try (by apply Hr); try (by apply Hs); try (intros [H1 H2]; split; [by apply Hk|by first [apply Hr|apply Hs]]).
  - intros [Hl Ht]. split; [|done]. by destruct (ef_row _ _ _ He _ Ho) as [->| ->].
  - intros [H1 H2]. split; [by eapply reserving_effect|done].
  - intros [H1 H2]. split; [by eapply reserving_effect|done].
  - intros [H1 H2]. split; [by eapply reserving_effect|done].
  - intros [H1 H2]. split; [by eapply reserving_effect|done].
  - intros [H1 H2]. split; [by eapply resolving_effect|by apply Hr].
  - intros ((res & H1) & H2 & H3). split_and!; [exists res; by eapply resolving_effect|by apply (ef_failed _ _ _ He)|by apply Hr].
  - intros [H1 H2]. split; [by eapply resolving_effect|by apply Hr].
  - intros [H1 H2]. split; [by eapply resolving_effect|by apply Hs].
Qed.

Lemma row_ok_effect X w w' id r : effect X w w' -> X <> Some id -> row_ok w id r -> row_ok w' id r.
Proof.
  intros He Hx. pose proof (ef_lost _ _ _ He) as Hlost. unfold row_ok, lost_ok. rewrite (ef_told _ _ _ He) by done.
  destruct (c_Status r); naive_solver.
Qed.

Lemma row_effect X w w' id r : effect X w w' -> X <> Some id -> w_canaries w' !! id = Some r -> w_canaries w !! id = Some r.
Proof. intros He Hx Hl. destruct (ef_row _ _ _ He _ Hx) as [Hw|Hw]; congruence. Qed.

Section thread_step.
Context (y : system) (j : nat) (t t' : thread) (w' : world).
Hypothesis Hinv : inv y.
Hypothesis Hj : sy_threads y !! j = Some t.
Hypothesis Hst : stepped (sy_world y) t w' t'.

Lemma touched_ids id : touch t t' = Some id -> id ∈ sy_ids y.
Proof.
  unfold touch. destruct (owner t) eqn:Ho; [intros [= <-]; by eapply (iv_owned_ids y Hinv)|].
  intros Ho'. destruct (st_owner _ _ _ _ Hst _ Ho') as [?|(_ & r & Hl & _)]; [congruence|]. by eapply (iv_row_ids y Hinv).
Qed.

(** The rollout a step works on is nobody else's. *)
Lemma touched_alone i t0 id : i <> j -> sy_threads y !! i = Some t0 -> owner t0 = Some id -> touch t t' <> Some id.
Proof.
  intros Hij Hi Ho. unfold touch. destruct (owner t) as [id1|] eqn:Ho1.
  - intros [= ->]. by destruct (Hij (iv_owner y Hinv i j t0 t id Hi Hj Ho Ho1)).
  - intros Ho'. destruct (st_owner _ _ _ _ Hst _ Ho') as [?|(_ & r & Hl & Hs)]; [congruence|].
    by apply (owned_not_progressing _ t0 id r (iv_threads y Hinv i t0 Hi) Ho Hl).
Qed.

Lemma new_owner id : owner t' = Some id -> touch t t' = Some id.
Proof. intros Ho. unfold touch. destruct (st_owner _ _ _ _ Hst _ Ho) as [->|[-> _]]; done. Qed.

Lemma thread_step_inv : inv (mkSystem w' (<[j := t']> (sy_threads y)) (sy_ids y)).
Proof.
  pose proof (st_effect _ _ _ _ Hst) as He.
  assert (forall i t0, <[j:=t']> (sy_threads y) !! i = Some t0 -> (i = j /\ t0 = t') \/ (i <> j /\ sy_threads y !! i = Some t0)) as Hcase
    by (intros i t0 [(-> & -> & _)|[? ?]]%list_lookup_insert_Some; [by left|by right]).
  split; cbn [sy_world sy_threads sy_ids].
  - split.
    + intros id r Hl. destruct (decide (touch t t' = Some id)) as [Ht|Ht]; [by eapply (st_row _ _ _ _ Hst)|].
      eapply (ri_id _ (iv_rows y Hinv)). by eapply row_effect.
    + intros id r Hl Hs. destruct (decide (touch t t' = Some id)) as [Ht|Ht]; [by eapply (st_row _ _ _ _ Hst)|].
      rewrite (ef_told _ _ _ He) by done. eapply (ri_progressing _ (iv_rows y Hinv)); [|done]. by eapply row_effect.
  - intros i t0 [[-> ->]|[Hij Hi]]%Hcase; [by apply Hst|]. apply (thread_ok_effect _ _ _ _ He); [|by apply (iv_threads y Hinv i)].
    intros id Ho. by apply (touched_alone i t0).
  - intros i1 i2 t1 t2 id [[-> ->]|[Hn1 H1]]%Hcase [[-> ->]|[Hn2 H2]]%Hcase O1 O2; [done| | |by eapply (iv_owner y Hinv)].
    + by destruct (touched_alone i2 t2 id Hn2 H2 O2 (new_owner id O1)).
    + by destruct (touched_alone i1 t1 id Hn1 H1 O1 (new_owner id O2)).
  - intros i t0 id [[-> ->]|[Hij Hi]]%Hcase Ho; [by apply touched_ids, new_owner|by eapply (iv_owned_ids y Hinv)].
  - intros id r Hl. destruct (decide (touch t t' = Some id)) as [Ht|Ht]; [by apply touched_ids|].
    eapply (iv_row_ids y Hinv). by eapply row_effect.
  - intros id Hid. destruct (decide (touch t t' = Some id)) as [Ht|Ht]; [by apply touched_ids|].
    apply (iv_told_ids y Hinv). by rewrite <- (ef_told _ _ _ He).
  - intros id r Hl Hun. pose proof (Hun j t') as Hut. cbn [sy_threads] in Hut. rewrite list_lookup_insert_eq in Hut by (by eapply lookup_lt_Some).
    specialize (Hut eq_refl). destruct (decide (touch t t' = Some id)) as [Ht|Ht].
    + apply (st_row _ _ _ _ Hst); [done..|]. destruct (owner t') as [id'|] eqn:Ho'; [|done].
      exfalso. apply new_owner in Ho'. congruence.
    + eapply row_ok_effect; [done..|]. apply (iv_free y Hinv); [by eapply row_effect|]. intros i t0 Hi Ho.
      destruct (decide (i = j)) as [->|Hij].
      * rewrite Hj in Hi. injection Hi as <-. apply Ht. unfold touch. by rewrite Ho.
      * apply (Hun i t0); [|done]. cbn. by rewrite list_lookup_insert_ne.
  - apply Hst, (iv_active y Hinv).
Qed.
End thread_step.

(** A new request that owns nothing, or an identifier just handed out. *)
Lemma new_thread_inv y t ids : inv y -> sy_ids y ⊆ ids -> thread_ok (sy_world y) t ->
  (forall id, owner t = Some id -> id ∈ ids /\ id ∉ sy_ids y) ->
  inv (mkSystem (sy_world y) (sy_threads y ++ [t]) ids).
Proof.
  intros Hi Hsub Hok Ho.
  assert (forall i t0, (sy_threads y ++ [t]) !! i = Some t0 ->
    sy_threads y !! i = Some t0 \/ (i = length (sy_threads y) /\ t0 = t)) as Hcase.
  { intros i t0 [Hl|[Hlen Hl]]%lookup_app_Some; [by left|]. apply list_lookup_singleton_Some in Hl as [Hz <-]. right. split; [lia|done]. }
  destruct Hi as [H1 H2 H3 H4 H5 H6 H7 H8]. split; cbn [sy_world sy_threads sy_ids]; [done| | | |by eauto|by eauto| |done].
  - intros j t0 [Hl|[-> ->]]%Hcase; [by eapply H2|done].
  - intros i j t1 t2 id [Hl1|[-> ->]]%Hcase [Hl2|[-> ->]]%Hcase O1 O2; [by eapply H3| | |done].
    + destruct (Ho _ O2) as [_ Hn]. destruct Hn. by eapply H4.
    + destruct (Ho _ O1) as [_ Hn]. destruct Hn. by eapply H4.
  - intros j t0 id [Hl|[-> ->]]%Hcase O; [by eapply Hsub, H4|by apply Ho].
  - intros id r Hl Hun. apply H7; [done|]. intros j t0 Hj. apply (Hun j t0). cbn. by apply lookup_app_l_Some.
Qed.

(** Rows are deleted with their application, under the requests that work on them. *)
Lemma cascade_inv w ts ids apps appID : inv (mkSystem w ts ids) ->
  inv (mkSystem (mkWorld apps (filter (fun p => c_AppID p.2 <> appID) (w_canaries w)) (w_splits w) (w_lost w)) ts ids).
Proof.
  intros [[H1 H1'] H2 H3 H4 H5 H6 H7 H8]. set (w1 := mkWorld _ _ _ _).
  assert (forall id r, w_canaries w1 !! id = Some r -> w_canaries w !! id = Some r) as Hsub by (intros id r; cbn; by intros [? _]%map_lookup_filter_Some).
  assert (effect None w w1) as He.
  { split; try done; cbn.
    - intros id _. destruct (filter _ _ !! id) as [r|] eqn:Hl; [left|by right]. by apply map_lookup_filter_Some in Hl as [-> _].
    - intros c [Hr Hh]. split; [|exact Hh]. intros r Hl. by apply Hr, Hsub. }
  split; cbn [sy_world sy_threads sy_ids] in *; [split; eauto| |done|done|eauto|done| |].
  - intros j t Hj. apply (thread_ok_effect None w); [done..|]. by apply (H2 j).
  - intros id r Hl Hun. apply (row_ok_effect None w); [done..|]. apply H7; [by apply Hsub|exact Hun].
  - destruct H8 as [Hf|Ha]; [by left|right]. intros id id' r r' Hl%Hsub Hl'%Hsub. by apply Ha.
Qed.

Lemma cstep_inv y y' : cstep sv y y' -> inv y -> inv y'.
Proof.
  intros Hs Hi. destruct Hs as [w ts ids app runID uuid Hf|w ts ids appID res|w ts ids|w ts ids apps|w ts ids appID|w ts ids j t i t' w' Hj He].
  - apply (new_thread_inv (mkSystem w ts ids)); [done|set_solver| |].
    + cbn. split.
      * destruct (w_canaries w !! uuid) eqn:Hl; [|done]. by destruct Hf; eapply (iv_row_ids _ Hi).
      * destruct (told w uuid) eqn:Hl; [done|]. destruct Hf. apply (iv_told_ids _ Hi). cbn. by rewrite Hl.
    + cbn. intros id [= <-]. set_solver.
  - by apply (new_thread_inv (mkSystem w ts ids)).
  - by apply (new_thread_inv (mkSystem w ts ids)).
  - destruct Hi as [[H1 H1'] H2 H3 H4 H5 H6 H7 H8]. by split.
  - by apply cascade_inv.
  - eapply (thread_step_inv (mkSystem w ts ids) j t); [done|done|]. eapply exec_stepped; [apply Hi|by eapply (iv_threads _ Hi)|done].
Qed.

Lemma idle_inv y : idle y -> inv y.
Proof.
  destruct y as [[apps m calls lost] ts ids]. intros (Hm & Hc & Ht). cbn in *. subst. split; try done.
  by right.
Qed.

Lemma reachable_inv y0 y : idle y0 -> rtc (cstep sv) y0 y -> inv y.
Proof. intros H0 Hs. apply idle_inv in H0. induction Hs as [|? ? ? Hs _ IH]; [done|]. by eapply IH, cstep_inv. Qed.
End invariant.

(** ** What the service guarantees *)

Section canaries.
Context `{RO : RangeOrder} (sv : service).


(** A rollout is resolved once: when it is promoted, aborted or failed and the
    request that resolved it is done with it, no request changes it any more, and
    nothing more is asked of the cluster for it; its row may go with its application. *)
Theorem resolved_canary_is_final y0 y y' id r : idle y0 -> rtc (cstep sv) y0 y ->
  w_canaries (sy_world y) !! id = Some r -> IsTerminal (c_Status r) = true -> unowned y id -> rtc (cstep sv) y y' ->
  (forall r', w_canaries (sy_world y') !! id = Some r' -> r' = r) /\ told (sy_world y') id = told (sy_world y) id.
Proof.
  intros Hidle Hs Hl Ht Hun Hs'. apply (reachable_inv sv y0 y Hidle) in Hs. clear Hidle.
  assert (id ∈ sy_ids y) as Hknown by (by eapply (iv_row_ids y Hs)).
  assert (forall r', w_canaries (sy_world y) !! id = Some r' -> r' = r) as Hr by (intros r' Hr'; congruence). clear Hl.
  induction Hs' as [|y1 y2 y3 Hstep _ IH]; [done|]. pose proof (cstep_inv sv _ _ Hstep Hs) as Hs2.
  assert ((forall r', w_canaries (sy_world y2) !! id = Some r' -> r' = r) /\ told (sy_world y2) id = told (sy_world y1) id /\
    unowned y2 id /\ id ∈ sy_ids y2) as (H1 & H2 & H3 & H4);
    [|destruct (IH Hs2 H3 H4 H1) as [Hl3 Ht3]; by rewrite Ht3]. clear IH.
  assert (forall w ts ids t ids', inv (mkSystem w ts ids) -> unowned (mkSystem w ts ids) id -> owner t <> Some id ->
    unowned (mkSystem w (ts ++ [t]) ids') id) as Hnew.
  { intros w ts ids t ids' _ Hu Ho j t0 [Hj|[_ Hj]]%lookup_app_Some; [by apply (Hu j)|].
    by apply list_lookup_singleton_Some in Hj as [_ <-]. }
  destruct Hstep as [w ts ids app runID uuid Hf|w ts ids appID res|w ts ids|w ts ids apps|w ts ids appID|w ts ids j t i t' w' Hj He];
    cbn [sy_world sy_ids] in *; try by (split_and!; [done|done|try by eapply Hnew|done]).
  - split_and!; [done|done| |set_solver]. eapply Hnew; [done|done|]. intros [= ->]. by destruct Hf.
  - split_and!; [|done|exact Hun|done]. intros r'. cbn. intros [Hl' _]%map_lookup_filter_Some. by apply Hr.
  - pose proof (exec_stepped sv i t w t' w' (iv_rows _ Hs) (iv_threads _ Hs j t Hj) He) as Hst.
    pose proof (Hun j t Hj) as Hno. assert (owner t' <> Some id) as Hno'.
    { intros Ho. destruct (st_owner _ _ _ _ Hst _ Ho) as [?|(_ & r0 & Hr0 & Hp)]; [done|].
      rewrite (Hr r0 Hr0) in Hp. by rewrite Hp in Ht. }
    assert (touch t t' <> Some id) as Hx by (unfold touch; by destruct (owner t)).
    split_and!; [|by apply (ef_told _ _ _ (st_effect _ _ _ _ Hst))| |done].
    + intros r' Hr'. destruct (ef_row _ _ _ (st_effect _ _ _ _ Hst) _ Hx) as [Hw|Hw]; rewrite Hw in Hr'; [by apply Hr|done].
    + intros j0 t0 [(-> & -> & _)|[_ Hj0]]%list_lookup_insert_Some; [done|by apply (Hun j0)].
Qed.

(** While the cluster has refused no split, an application has at most one
    rollout that is pending or progressing, whatever requests run together.  (A
    refused promotion puts its rollout back to progressing after its place was
    free to take: [two_canaries].) *)
Theorem one_canary_per_app y0 y id id' r r' : idle y0 -> rtc (cstep sv) y0 y ->
  (forall s, s ∈ w_splits (sy_world y) -> sp_ok s = true) ->
  w_canaries (sy_world y) !! id = Some r -> w_canaries (sy_world y) !! id' = Some r' ->
  canaryActive (c_Status r) = true -> canaryActive (c_Status r') = true -> c_AppID r = c_AppID r' -> id = id'.
Proof.
  intros Hidle Hs Hok. destruct (iv_active y (reachable_inv sv y0 y Hidle Hs)) as [(s & Hin & Hf)|Ho]; [|apply Ho].
  rewrite (Hok s Hin) in Hf. done.
Qed.

(** The store operations a request has left, but for the rollouts a sweep has yet
    to list. *)
Definition rest_steps (k : sweep) : nat := match k with None => 1 | Some (_, cs) => 1 + 10 * length cs end.
Definition steps_left (t : thread) : nat :=
  match t with
  | StartReserve _ _ _ => 5 | StartImages _ _ => 4 | StartSplit _ _ => 3 | StartPersist _ _ | StartFail _ _ _ => 2
  | LoadActive _ _ k => 6 + rest_steps k | LoadActiveApp _ _ _ k => 5 + rest_steps k | ClaimStep _ _ _ k => 4 + rest_steps k
  | Split _ _ _ k => 3 + rest_steps k | Reload _ k | Revert _ _ k | Persist _ _ k => 1 + rest_steps k
  | SweepNext _ cs => 1 + 10 * length cs
  | SweepDecide _ _ _ cs => 8 + 10 * length cs | ReapClaim _ _ cs => 3 + 10 * length cs | ReapPersist _ _ cs => 2 + 10 * length cs
  | SweepReap | SweepList | Finished _ => 0
  end.

Definition acts (t' t : thread) : Prop :=
  (forall x, t <> Finished x) /\ exists i w w', exec sv i t w = (t', w').

Lemma finish_steps k x : steps_left (finish k x) = rest_steps k \/ (exists y, finish k x = Finished y).
Proof. destruct k as [[now cs]|]; [by left|right; by eexists]. Qed.

Lemma acts_steps t' t : acts t' t -> (steps_left t' < steps_left t)%nat \/
  (exists x, t' = Finished x) \/ t = SweepList \/ (t = SweepReap /\ t' = SweepList).
Proof.
  intros [Hn (i & w & w' & He)].
  assert (forall k x n, (rest_steps k < n)%nat -> (steps_left (finish k x) < n)%nat \/
    (exists y, finish k x = Finished y) \/ t = SweepList \/ (t = SweepReap /\ finish k x = SweepList)) as Hfin
    by (intros k x n Hlt; destruct (finish_steps k x) as [->|?]; auto).
  destruct t; open_step; cbn [steps_left] in *; try (by destruct (Hn r));
    repeat case_match; simplify_eq; cbn [steps_left rest_steps length] in *;
    try (by left; lia); try (by apply Hfin; lia); try (by right; left; eexists); by right; right; auto.
Qed.

Lemma finished_acc x : Acc acts (Finished x).
Proof. constructor. intros t' [Hn _]. by destruct (Hn x). Qed.

(** Every request ends, whatever it meets: no request takes store operations
    and cluster calls for ever, nor does a sweep, however many rollouts it lists. *)
Theorem canary_requests_end : well_founded acts.
Proof.
  assert (forall n t, (steps_left t < n)%nat -> t <> SweepReap -> t <> SweepList -> Acc acts t) as Hacc.
  { induction n as [|n IH]; intros t Hlt H1 H2; [lia|]. constructor. intros t' Ha.
    pose proof (acts_steps t' t Ha) as [Hs|[[x ->]|[->|[-> _]]]]; [|apply finished_acc|done|done].
    destruct (decide (steps_left t' = 0)%nat) as [Hz|Hz]; [|apply IH; [lia|by intros ->..]].
    destruct t'; cbn in Hz; try lia; [| |apply finished_acc];
      destruct Ha as [_ (i & w & w' & He)]; destruct t; open_step; unfold finish in He; repeat case_match; by simplify_eq. }
  assert (Acc acts SweepList) as Hl.
  { constructor. intros t' [_ (i & w & w' & He)]. cbn in He. unfold sweep_list_step in He.
    case_match; injection He as <- _; [apply finished_acc|by apply (Hacc _ _ (Nat.lt_succ_diag_r _))]. }
  intros t. destruct t; try (by apply (Hacc _ _ (Nat.lt_succ_diag_r _))); [|done].
  constructor. intros t' [_ (i & w & w' & He)]. open_step. repeat case_match; simplify_eq; [apply finished_acc|done|done].
Qed.
End canaries.

(** ** Concrete schedules *)

Section demo.
Local Existing Instance range_default.

Definition wired : service := mkService true true false true.

Definition shop : App :=
  mkApp "shop" "Shop" "" "org/shop" "main" None (demo_target "shop") "" "" "" false false
    (mkConfig DeployStrategyCanary 20 true 60) 0 0 0 AppHealthUnknown None "" "".

(** The answers from outside at a time: a build of [img], a cluster that accepts a
    split or not, a ready canary. *)
Definition answers (now : Z) (img : string) (accepts : bool) : input :=
  mkInput now None (Ok img) (if accepts then None else Some (false, "timeout")) false false (Ok (true, "2/2 ready")) ("", "").

(** The requests that arrive, and the steps of those that have, by index. *)
Inductive event := Start (uuid : string) | Resolve (r : resolution) | Sweep | Step (j : nat) (i : input).

Definition next (y : system) (e : event) : system :=
  let '(mkSystem w ts ids) := y in
  match e with
  | Start uuid => if decide (uuid ∈ ids) then y else mkSystem w (ts ++ [StartReserve shop "run" uuid]) ({[uuid]} ∪ ids)
  | Resolve r => mkSystem w (ts ++ [LoadActive "shop" r None]) ids
  | Sweep => mkSystem w (ts ++ [SweepReap]) ids
  | Step j i =>
      match ts !! j with
      | None => y
      | Some t => let '(t', w') := exec wired i t w in mkSystem w' (<[j := t']> ts) ids
      end
  end.

Lemma next_steps l y : rtc (cstep wired) y (foldl next y l).
Proof.
  revert y. induction l as [|e l IH]; intros y; [done|]. cbn [foldl]. eapply (transitivity (R := rtc _)); [|apply IH].
  destruct y as [w ts ids], e as [uuid|res| |j i]; cbn [next].
  - destruct (decide _); [done|]. by apply rtc_once, step_start.
  - apply rtc_once, step_resolve.
  - apply rtc_once, step_sweep.
  - destruct (ts !! j) as [t|] eqn:Hj; [|done]. destruct (exec wired i t w) as [t' w'] eqn:He. by eapply rtc_once, step_thread.
Qed.

Definition nothing : system := mkSystem (mkWorld {["shop" := shop]} ∅ [] ∅) [] ∅.

Definition row (y : system) (id : string) : option (CanaryStatus * Z) :=
  (fun c => (c_Status c, c_Weight c)) <$> w_canaries (sy_world y) !! id.

Definition steps (n j : nat) (now : Z) (img : string) : list event := repeat (Step j (answers now img true)) n.

(** A rollout starts; a sweep after its window promotes it; an operator's abort that
    had read it before comes too late. *)
Definition promoted : system :=
  foldl next nothing
    ([Start "c1"] ++ steps 4 0 second "app:2" ++ [Resolve (Aborting "")] ++ steps 2 1 (2 * second) "" ++
     [Sweep] ++ steps 10 2 (2 * minute) "" ++ steps 2 1 (2 * minute) "").

Example promoted_runs : row promoted "c1" = Some (CanaryPromoted, 100) /\
  told (sy_world promoted) "c1" = [("app:2", "app:2", 20); ("app:2", "app:2", 100)] /\
  (exists c, sy_threads promoted !! 1%nat = Some (Finished (Some (Ok c))) /\ c_Status c = CanaryPromoted) /\
  sy_threads promoted !! 2%nat = Some (Finished None).
Proof. vm_compute. split_and!; [done|done|by eexists; split|done]. Qed.

(** The claim of a promotion frees the application's place while the cluster is
    asked.  A rollout started meanwhile takes it; the cluster refuses, and the first
    rollout is put back to progressing next to it. *)
Definition refused : system :=
  foldl next nothing
    ([Start "c1"] ++ steps 4 0 second "app:2" ++ [Resolve Promoting] ++ steps 3 1 (2 * second) "" ++
     [Start "c2"] ++ steps 4 2 (3 * second) "app:3" ++ repeat (Step 1 (answers (4 * second) "" false)) 2).

Example two_canaries : row refused "c1" = Some (CanaryProgressing, 20) /\ row refused "c2" = Some (CanaryProgressing, 20).
Proof. vm_compute. by split. Qed.

(** An evaluation is cut after 90 seconds, and what is left of it runs with the expired
    context: when the cluster takes that long to refuse a promotion, the claim's revert is
    not written either.  The rollout reads as promoted, at its partial split, for ever. *)
Definition expired (i : input) : input :=
  mkInput (in_now i) (in_rows i) (in_build i) (in_split i) (in_app_error i) true (in_ready i) (in_probe i).

Definition stranded : system :=
  foldl next nothing
    ([Start "c1"] ++ steps 4 0 second "app:2" ++ [Sweep] ++ steps 7 1 (2 * minute) "" ++
     [Step 1 (answers (4 * minute) "" false); Step 1 (expired (answers (4 * minute) "" false))] ++ steps 1 1 (4 * minute) "").

Example revert_with_expired_context : row stranded "c1" = Some (CanaryPromoted, 20) /\
  told (sy_world stranded) "c1" = [("app:2", "app:2", 20)] /\ sy_threads stranded !! 1%nat = Some (Finished None) /\
  "c1" ∈ w_lost (sy_world stranded).
Proof. vm_compute. by split_and!. Qed.

(** A build that takes longer than an hour loses its reservation to a sweep: the
    split goes live without a row, and the start reports a missing row.  It is the
    caller's deadline of 30 minutes ([runCanaryStartCtx]) that prevents it. *)
Example slow_build_loses_row :
  let y := foldl next nothing
    ([Start "c1"] ++ steps 1 0 second "" ++ [Sweep] ++ steps 1 1 (2 * hour) "" ++ steps 3 0 (2 * hour) "app:2") in
  row y "c1" = None /\ told (sy_world y) "c1" = [("app:2", "app:2", 20)] /\
  sy_threads y !! 0%nat = Some (Finished (Some (Err (PersistState (RowError (ErrNotFound "c1")))))).
Proof. vm_compute. by split_and!. Qed.

Definition unownedb (y : system) (id : string) : bool :=
  forallb (fun t => negb (bool_decide (owner t = Some id))) (sy_threads y).

Lemma unownedb_sound y id : unownedb y id = true -> unowned y id.
Proof.
  unfold unownedb, unowned. rewrite forallb_forall. intros H j t Hj Ho.
  assert (In t (sy_threads y)) as Hin by (by apply list_elem_of_In, (list_elem_of_lookup_2 _ j)).
  apply H, negb_true_iff, bool_decide_eq_false in Hin. done.
Qed.

Lemma idle_nothing : idle nothing.
Proof. done. Qed.

Lemma promoted_reached : rtc (cstep wired) nothing promoted.
Proof. apply next_steps. Qed.

Lemma stranded_reached : rtc (cstep wired) nothing stranded.
Proof. apply next_steps. Qed.


Lemma resolved_canary_is_final_witness :
  (c_Weight <$> w_canaries (sy_world (foldl next promoted [Sweep; Step 3 (answers (2 * hour) "" true)])) !! "c1") = Some 100.
Proof.
  destruct (w_canaries (sy_world promoted) !! "c1") as [r|] eqn:Hr; [|vm_compute in Hr; discriminate].
  assert (IsTerminal (c_Status r) = true /\ c_Weight r = 100) as [Ht Hw] by (vm_compute in Hr; injection Hr as <-; by split).
  destruct (resolved_canary_is_final wired nothing promoted _ "c1" r idle_nothing promoted_reached Hr Ht
    (unownedb_sound promoted "c1" ltac:(vm_compute; reflexivity)) (next_steps [Sweep; Step 3 (answers (2 * hour) "" true)] promoted)) as [Hl _].
  destruct (w_canaries (sy_world (foldl next promoted _)) !! "c1") as [r'|] eqn:Hr'; [|vm_compute in Hr'; discriminate].
  cbn. by rewrite (Hl r' eq_refl), Hw.
Defined.

(** A second start while the first rollout is on its way is refused. *)
Definition contended : system :=
  foldl next nothing ([Start "c1"; Start "c2"] ++ steps 1 0 second "" ++ steps 1 1 second "" ++ steps 3 0 second "app:2").

Lemma contended_reached : rtc (cstep wired) nothing contended.
Proof. apply next_steps. Qed.

Lemma one_canary_per_app_witness :
  row contended "c1" = Some (CanaryProgressing, 20) /\
  sy_threads contended !! 1%nat = Some (Finished (Some (Err ErrCanaryInFlight))) /\
  ~ (exists r, w_canaries (sy_world contended) !! "c2" = Some r /\ canaryActive (c_Status r) = true /\ c_AppID r = "shop").
Proof.
  split_and!; [vm_compute; reflexivity|vm_compute; reflexivity|]. intros (r & Hl & Ha & Happ).
  destruct (w_canaries (sy_world contended) !! "c1") as [r1|] eqn:H1; [|vm_compute in H1; discriminate].
  assert ("c2" = "c1") as H; [|discriminate H].
  apply (one_canary_per_app wired nothing contended "c2" "c1" r r1 idle_nothing contended_reached); [|done|done|done| |].
  - assert (forallb sp_ok (w_splits (sy_world contended)) = true) as Hs by (vm_compute; reflexivity).
    intros s Hin. rewrite forallb_forall in Hs. by apply Hs, list_elem_of_In.
  - vm_compute in H1. injection H1 as <-. reflexivity.
  - vm_compute in H1. injection H1 as <-. exact Happ.
Defined.
End demo.
