(* ===== verification/AppDeploy.v ===== *)
(** * Deploying an application: [internal/service/app_deployer.go],
      [envresolve.go], [proxy_manifest.go], [app_drift.go], [internal/model/compose.go],
      [internal/build/buildplan/detect.go]

    A deployment turns an application into a pipeline, from its Dockerfile or from
    the services of its compose files, stores a copy of it without values for the
    clients, runs it and writes one history row.  Git, the file system, the compose
    loader, the secret store and the executor are outside: what they answer is an
    argument.  YAML encoding ([yaml.Marshal]) is a parameter.  Log lines and
    notifications are left out. *)

From S2P Require Import Prelude GoStr GoPath Model Pipeline Outputs Executor App.
From Stdlib Require Import Ascii.
Local Open Scope Z_scope.

(** ** Compose graphs: [internal/model/compose.go] *)

Record ComposeBuild := mkComposeBuild {
  cb_Target : string; cb_Context : string; cb_Dockerfile : string; cb_Args : gmap string string
}.

Record ComposeService := mkComposeService {
  svc_Name : string; svc_Image : string; svc_Build : option ComposeBuild; svc_Ports : list string;
  svc_Environment : gmap string string; svc_DependsOn : list string; svc_Networks : list string;
  svc_Volumes : list string; svc_Command : string; svc_CommandArgs : list string;
  svc_HealthCheck : option ContainerHealthCheck; svc_RuntimeSize : string; svc_Status : string;
  svc_Labels : gmap string string; svc_Group : string; svc_Resources : option ResourceLimits; svc_External : bool
}.

Record ComposeConnection := mkConnection { cn_Source : string; cn_Target : string; cn_Type : string; cn_Label : string }.

Record ComposeGraph := mkComposeGraph {
  g_Services : list ComposeService; g_Connections : list ComposeConnection; g_Networks : list string; g_Volumes : list string
}.

(** ** Environment values: [envresolve.go] *)

Definition mergeEnv (base override : gmap string string) : gmap string string := override ∪ base.

(** The fields of an [Environment] the resolver reads; a nil map is [None]. *)
Record Environment := mkEnvironment {
  ev_ID : string; ev_PlainVars : option (gmap string string); ev_Variables : option (gmap string string)
}.

Definition NormalisePlainVars (e : Environment) : Environment :=
  mkEnvironment (ev_ID e)
    (Some (match ev_PlainVars e with Some m => m | None => default ∅ (ev_Variables e) end)) None.

(** A secret store: [List] and [Get]. *)
Record SecretsManager := mkSecrets {
  sm_List : string -> result string (list string); sm_Get : string -> string -> result string string
}.

Record AppEnvResolver := mkResolver {
  er_Environments : option (string -> result string Environment); er_Secrets : option SecretsManager
}.

Inductive env_error := EnvironmentNotFound (id msg : string) | ListSecrets (id msg : string) | SecretError (id key msg : string).

(** The loop over the secret keys. *)
Fixpoint fetch_secrets (sm : SecretsManager) (envID : string) (keys : list string) (out : gmap string string)
    : result env_error (gmap string string) :=
  match keys with
  | [] => Ok out
  | k :: keys =>
      match sm_Get sm envID k with
      | Err msg => Err (SecretError envID k msg)
      | Ok v => fetch_secrets sm envID keys (<[k := v]> out)
      end
  end.

Definition Resolve (r : option AppEnvResolver) (app : App) : result env_error (gmap string string) :=
  match r with
  | None => Ok ∅
  | Some r =>
      if a_EnvironmentID app =s "" then Ok ∅ else
      match er_Environments r with
      | None => Ok ∅
      | Some get =>
          match get (a_EnvironmentID app) with
          | Err msg => Err (EnvironmentNotFound (a_EnvironmentID app) msg)
          | Ok env =>
              let env := NormalisePlainVars env in
              let out := default ∅ (ev_PlainVars env) in
              match er_Secrets r with
              | None => Ok out
              | Some sm =>
                  match sm_List sm (ev_ID env) with
                  | Err msg => Err (ListSecrets (ev_ID env) msg)
                  | Ok keys => fetch_secrets sm (ev_ID env) (sort_strings keys) out
                  end
              end
          end
      end
  end.

(** ** Ports, sizes, names *)

Definition last_of (l : list string) : string := List.last l "".
Definition first_of (l : list string) : string := hd "" l.

(** The container side of the first compose port mapping that is a port. *)
Fixpoint firstContainerPort (ports : list string) : Z :=
  match ports with
  | [] => 80
  | p :: ports =>
      let spec := first_of (split_on "/" (last_of (split_on ":" p))) in
      match atoi (trim_space spec) with
      | Some n => if (0 <? n) && (n <=? 65535) then n else firstContainerPort ports
      | None => firstContainerPort ports
      end
  end.

Fixpoint firstHostPort (ports : list string) : string :=
  match ports with
  | [] => ""
  | p :: ports =>
      let p := trim_space p in
      if p =s "" then firstHostPort ports else
      let host := first_of (split_on "/" (first_of (split_on ":" p))) in
      if negb (host =s "") then host else firstHostPort ports
  end.

Definition has_suffix (suffix s : string) : bool := has_prefix (str_rev suffix) (str_rev s).
Definition trim_suffix (suffix s : string) : string :=
  if has_suffix suffix s then str_take (str_len s - str_len suffix) s else s.

Definition k8sMemory (s : string) : string :=
  let low := to_lower (trim_space s) in
  if has_suffix "gb" low || has_suffix "g" low then trim_suffix "g" (trim_suffix "b" low) +:+ "Gi"
  else if has_suffix "mb" low || has_suffix "m" low then trim_suffix "m" (trim_suffix "b" low) +:+ "Mi"
  else if has_suffix "kb" low || has_suffix "k" low then trim_suffix "k" (trim_suffix "b" low) +:+ "Ki"
  else s.

Example ports_ex :
  (firstContainerPort ["8080:80/tcp"], firstContainerPort ["x"; "0"; "443"], firstContainerPort ["70000"],
   firstHostPort ["  "; "8080:80"], firstHostPort ["53/udp"]) = (80, 443, 80, "8080", "53").
Proof. reflexivity. Qed.

Example memory_ex : (k8sMemory "512m", k8sMemory "1GB", k8sMemory "64kb", k8sMemory "1048576", k8sMemory "512b") =
  ("512Mi", "1Gi", "64Ki", "1048576", "512b").
Proof. reflexivity. Qed.

(** ** The proxy *)

Record ProxyConfig := mkProxy { px_Domain : string; px_Scheme : string; px_IngressClass : string; px_Network : string }.

Definition hostFor (p : ProxyConfig) (slug : string) : string :=
  if (px_Domain p =s "") || (slug =s "") then "" else slug +:+ "." +:+ px_Domain p.

Definition deployedURL_scheme (proxy : ProxyConfig) : string := if px_Scheme proxy =s "" then "http" else px_Scheme proxy.

(** The loop over the stages. *)
Fixpoint stages_URL (stages : list Stage) (proxy : ProxyConfig) : string :=
  match stages with
  | [] => ""
  | st :: stages =>
      let c := st_Config st in
      if negb (st_Type st =s StageTypeDeploy) then stages_URL stages proxy
      else if negb (cfg_ProxyHost c =s "") then deployedURL_scheme proxy +:+ "://" +:+ cfg_ProxyHost c
      else if cfg_DeployRuntime c =s "docker" then
        let hp := firstHostPort (cfg_ComposePorts c) in
        if negb (hp =s "") then "http://localhost:" +:+ hp else stages_URL stages proxy
      else stages_URL stages proxy
  end.

Definition deployedURLFor (p : Pipeline) (proxy : ProxyConfig) : string := stages_URL (p_Stages p) proxy.

(** A mapping bound to an address: the host part taken is the address. *)
Example bound_port_url : firstHostPort ["127.0.0.1:8080:80"] = "127.0.0.1".
Proof. reflexivity. Qed.

(** ** Manifests *)

Definition nl : string := chr (ascii_of_nat 10).

(** Text given as its lines. *)
Definition text (ls : list string) : string := String.concat "" ((fun l => l +:+ nl) <$> ls).

Fixpoint trim_left_newlines (s : string) : string :=
  match s with String c s' => if chr c =s nl then trim_left_newlines s' else s | EmptyString => s end.
Definition trim_right_newlines (s : string) : string := str_rev (trim_left_newlines (str_rev s)).

Section manifests.
Context `{RO : RangeOrder}.
Variable yaml_Marshal : list (string * string) -> option string. (* a list of name/value pairs *)
Variable quote : string -> string. (* [%q] *)

Definition envYAMLBlock (env : gmap string string) (indent : string) : string :=
  if bool_decide (env = ∅) then "" else
  let keys := sort_strings (range_map env).*1 in
  match yaml_Marshal ((fun k => (k, default "" (env !! k))) <$> keys) with
  | None => ""
  | Some raw =>
      indent +:+ "env:" +:+ nl +:+
      String.concat "" ((fun line => indent +:+ "  " +:+ line +:+ nl)
        <$> split_on (ascii_of_nat 10) (trim_right_newlines raw))
  end.

Definition ingressYAML (name host serviceName : string) (port : Z) (ingressClass : string) : string :=
  text ["apiVersion: networking.k8s.io/v1"; "kind: Ingress"; "metadata:"; "  name: " +:+ name; "spec:"] +:+
  (if ingressClass =s "" then "" else "  ingressClassName: " +:+ ingressClass +:+ nl) +:+
  text ["  rules:"; "    - host: " +:+ host; "      http:"; "        paths:"; "          - path: /";
        "            pathType: Prefix"; "            backend:"; "              service:";
        "                name: " +:+ serviceName; "                port: {number: " +:+ itoa port +:+ "}"].

Definition k8sResourceBlock (r : option ResourceLimits) : string :=
  match r with
  | None => ""
  | Some r =>
      if (rl_Memory r =s "") && (rl_CPUs r =s "") then "" else
      nl +:+ "          resources:" +:+ nl +:+ "            limits:" +:+
      (if rl_Memory r =s "" then "" else nl +:+ "              memory: " +:+ quote (k8sMemory (rl_Memory r))) +:+
      (if rl_CPUs r =s "" then "" else nl +:+ "              cpu: " +:+ quote (rl_CPUs r))
  end.

(** The deployment and its service, which the two synthesisers share up to the
    ports and limits. *)
Definition workload (name image ports env service_ports : string) : string :=
  text ["apiVersion: apps/v1"; "kind: Deployment"; "metadata:"; "  name: " +:+ name; "spec:"; "  replicas: 1";
        "  selector:"; "    matchLabels: {app: " +:+ name +:+ "}"; "  template:"; "    metadata:";
        "      labels: {app: " +:+ name +:+ "}"; "    spec:"; "      containers:"; "        - name: " +:+ name;
        "          image: " +:+ image; "          ports: " +:+ ports] +:+ env +:+
  text ["---"; "apiVersion: v1"; "kind: Service"; "metadata:"; "  name: " +:+ name; "spec:";
        "  selector: {app: " +:+ name +:+ "}"; "  ports: " +:+ service_ports].

Definition defaultKubernetesManifest (app : App) (image : string) (env : gmap string string)
    (proxyHost ingressClass : string) : string :=
  let name := AppPrefix app in
  workload name image "[{containerPort: 80}]" (envYAMLBlock env "          ") "[{port: 80, targetPort: 80}]" +:+
  (if proxyHost =s "" then "" else "---" +:+ nl +:+ ingressYAML name proxyHost name 80 ingressClass).

(** For a service [name] with these ports and limits. *)
Definition composeServiceManifest (svc_name : string) (svc : ComposeService) (image : string) (env : gmap string string)
    (proxyHost ingressClass : string) : string :=
  let name := sanitize svc_name in
  let port := itoa (firstContainerPort (svc_Ports svc)) in
  workload name image ("[{containerPort: " +:+ port +:+ "}]" +:+ k8sResourceBlock (svc_Resources svc))
    (envYAMLBlock env "          ") ("[{port: " +:+ port +:+ ", targetPort: " +:+ port +:+ "}]") +:+
  (if proxyHost =s "" then "" else "---" +:+ nl +:+ ingressYAML name proxyHost name (firstContainerPort (svc_Ports svc)) ingressClass).
End manifests.

(** ** Synthesis *)

Definition deployRuntime : Type := string.
Definition deployRuntimeKubernetes : deployRuntime := "kubernetes".
Definition deployRuntimeDocker : deployRuntime := "docker".
Definition deployRuntimeCompose : deployRuntime := "compose".

Definition deployRuntimeFor (kind : DeployTargetKind) : deployRuntime :=
  if kind =s DeployTargetDockerHost then deployRuntimeDocker
  else if kind =s DeployTargetKubernetes then deployRuntimeKubernetes
  else if kind =s DeployTargetECS then "ecs"
  else if kind =s DeployTargetCloudRun then "cloud-run"
  else "".

Record synthOpts := mkOpts { so_appEnv : gmap string string; so_proxy : ProxyConfig; so_composeFile : string }.

Definition cacheSpec (ref : string) : option CacheSpec :=
  if ref =s "" then None else Some (mkCacheSpec "registry" ref false).

Definition ComposePipelineID (runID appID : string) (ts : Z) : string :=
  if negb (runID =s "") then "app-" +:+ appID +:+ "-" +:+ runID else "app-" +:+ appID +:+ "-" +:+ itoa ts.

(** The configurations the synthesisers write, by the fields they set. *)
Definition build_config (dockerfile : string) (args : gmap string string) (target ctx tag : string) (cache : option CacheSpec)
    (service buildContext composeDockerfile : string) : StageConfig :=
  mkStageConfig dockerfile ctx args target [tag] [] cache "" [] "" "" "" "" "" "" "" "" "" false None
    service buildContext composeDockerfile [] None "" "" 0 0 None ∅ "" [] "" "" "" "" "".
Definition push_config (image service : string) : StageConfig :=
  mkStageConfig "" "" ∅ "" [] [] None image [] "" image "" "" "" "" "" "" "" false None
    service "" "" [] None "" "" 0 0 None ∅ "" [] "" "" "" "" "".
Definition manifest_config (namespace manifest : string) (env : gmap string string) (proxyHost : string) : StageConfig :=
  mkStageConfig "" "" ∅ "" [] [] None "" [] "" "" namespace manifest "" "" "" "" "" false None
    "" "" "" [] None "" "" 0 0 None env proxyHost [] "" "" "" "" "".
Definition runtime_config (runtime : deployRuntime) (name image : string) (env : gmap string string) : StageConfig :=
  mkStageConfig "" "" ∅ "" [] [] None image [] "" "" "" "" "" "" runtime name "" false None
    "" "" "" [] None "" "" 0 0 None env "" [] "" "" "" "" "".
Definition service_config (namespace manifest : string) (runtime : deployRuntime) (name project image : string)
    (svc : ComposeService) (env : gmap string string) (proxyHost : string) : StageConfig :=
  mkStageConfig "" "" ∅ "" [] [] None image (svc_CommandArgs svc) "" "" namespace manifest "" "" runtime name project
    false (svc_HealthCheck svc) (svc_Name svc) "" "" (svc_Ports svc) (svc_Resources svc) "" "" 0 0 None env proxyHost
    [] "" "" "" "" "".

(** A pending run with one slot per stage. *)
Definition new_run (id pipelineID : string) (stages : list Stage) : PipelineRun :=
  mkPipelineRun id pipelineID RunStatusPending (new_StageRun <$> stages) [] ∅ zero_time None None "" None "" "" [] "" 0.

Definition new_pipeline (id name : string) (stages : list Stage) (edges : list Edge) (now : Z) : Pipeline :=
  mkPipeline id name "" stages edges ∅ now now 0 "".

Section synthesis.
Context `{RO : RangeOrder}.
Variable yaml_Marshal : list (string * string) -> option string.
Variable quote : string -> string.

(** The Dockerfile a plan names, if it stays in the checkout. *)
Definition plan_dockerfile (plan : BuildPlan) : string :=
  if (bp_Kind plan =s BuildPlanDockerfile) && negb (bp_Path plan =s "") then
    let clean := Clean (bp_Path plan) in
    if negb (IsAbs clean) && negb (clean =s "..") && negb (has_prefix "../" clean) then clean else "Dockerfile"
  else "Dockerfile".

Definition synthesizePipeline (app : App) (plan : BuildPlan) (workdir tag : string) (cache : option CacheSpec)
    (opts : synthOpts) (now : Z) (uuid : string) : Pipeline * PipelineRun :=
  let env := mergeEnv (so_appEnv opts) ∅ in
  let deploy :=
    if dt_Kind (a_DeployTarget app) =s DeployTargetKubernetes then
      let proxyHost := hostFor (so_proxy opts) (AppPrefix app) in
      manifest_config (dt_Namespace (a_DeployTarget app))
        (defaultKubernetesManifest yaml_Marshal app tag (so_appEnv opts) proxyHost (px_IngressClass (so_proxy opts))) env proxyHost
    else runtime_config (deployRuntimeFor (dt_Kind (a_DeployTarget app))) (AppPrefix app) tag env in
  let stages := [
    mkStage "build" "Build" StageTypeBuild (build_config (plan_dockerfile plan) (bp_Args plan) "" workdir tag cache "" "" "") "" "";
    mkStage "push" "Push" StageTypePush (push_config tag "") "" "";
    mkStage "deploy" "Deploy" StageTypeDeploy deploy "" ""] in
  let edges := [mkEdge "e1" "build" "push" ""; mkEdge "e2" "push" "deploy" ""] in
  (new_pipeline ("app-" +:+ a_ID app) ("Deploy " +:+ a_Name app) stages edges now,
   new_run uuid ("app-" +:+ a_ID app) stages).

Definition set_graph (stages : list Stage) (edges : list Edge) (p : Pipeline) : Pipeline :=
  mkPipeline (p_ID p) (p_Name p) (p_Description p) stages edges (p_Variables p) (p_CreatedAt p) (p_UpdatedAt p)
    (p_Version p) (p_RunDeadline p).

Definition stripDeployStage (p : Pipeline) (run : PipelineRun) : Pipeline * PipelineRun :=
  let dropped : gset string := list_to_set (st_ID <$> filter (fun s => st_Type s = StageTypeDeploy) (p_Stages p)) in
  (set_graph (filter (fun s => st_Type s <> StageTypeDeploy) (p_Stages p))
     (filter (fun e => ~ (e_Source e ∈ dropped \/ e_Target e ∈ dropped)) (p_Edges p)) p,
   run_set_StageRuns (filter (fun sr => sr_StageID sr ∉ dropped) (run_StageRuns run)) run).

(** *** Compose *)

(** [base], or [base-i] for the first [i] from 2 that is free. *)
Fixpoint free_slug (fuel : nat) (used : gset string) (base : string) (i : Z) (slug : string) : string :=
  if bool_decide (slug ∈ used) then
    match fuel with
    | O => slug
    | S fuel => free_slug fuel used base (i + 1) (base +:+ "-" +:+ itoa i)
    end
  else slug.

(** As many attempts as there are slugs in use, and one. *)
Definition slug_for (used : gset string) (name : string) : string :=
  free_slug (S (size used)) used (sanitize name) 2 (sanitize name).

(** [slugOf] and [usedSlug] after the loop over the services. *)
Definition assign_slugs (services : list ComposeService) : gmap string string * gset string :=
  foldl (fun '(slugOf, used) svc =>
    let slug := slug_for used (svc_Name svc) in (<[svc_Name svc := slug]> slugOf, {[slug]} ∪ used)) (∅, ∅) services.

Inductive synth_error :=
| UnsupportedTarget (kind : string) | InvalidContext (service : string) | InvalidDockerfile (service : string)
| GraphInvalid (issues : list issue).

(** [edgeID] counts the edges made so far. *)
Definition add_edge (source target : string) (edges : list Edge) : list Edge :=
  edges ++ [mkEdge ("e" +:+ itoa (Z.of_nat (length edges) + 1)) source target ""].

Definition compose_runtime (app : App) (opts : synthOpts) : deployRuntime :=
  let runtime := deployRuntimeFor (dt_Kind (a_DeployTarget app)) in
  if (runtime =s deployRuntimeDocker) && negb (so_composeFile opts =s "") then deployRuntimeCompose else runtime.

Section compose.
Variables (app : App) (workdir registry : string) (ts : Z) (cache : option CacheSpec) (opts : synthOpts).

Definition runtime : deployRuntime := compose_runtime app opts.

(** The build and push stages of a service, and the image they make. *)
Definition build_stages (svc : ComposeService) (b : ComposeBuild) (slug : string) : result synth_error (list Stage * string) :=
  let cleanCtx := Clean (if cb_Context b =s "" then "." else cb_Context b) in
  if negb (safeRelativePath cleanCtx) then Err (InvalidContext (svc_Name svc)) else
  let cleanDf := Clean (if cb_Dockerfile b =s "" then "Dockerfile" else cb_Dockerfile b) in
  if negb (safeRelativePath (Join cleanCtx cleanDf)) || IsAbs cleanDf then Err (InvalidDockerfile (svc_Name svc)) else
  let image := registry +:+ "/" +:+ AppPrefix app +:+ "-" +:+ slug +:+ ":" +:+ itoa ts in
  Ok ([mkStage ("build-" +:+ slug) ("Build " +:+ svc_Name svc) StageTypeBuild
         (build_config cleanDf (cb_Args b) (cb_Target b) (Join workdir cleanCtx) image cache (svc_Name svc) cleanCtx cleanDf)
         "" (svc_Group svc);
       mkStage ("push-" +:+ slug) ("Push " +:+ svc_Name svc) StageTypePush (push_config image (svc_Name svc)) "" (svc_Group svc)],
      image).

Definition deploy_stage (svc : ComposeService) (slug image : string) : Stage :=
  let env := mergeEnv (so_appEnv opts) (svc_Environment svc) in
  let name := RuntimeServiceName app (svc_Name svc) in
  let proxyHost := hostFor (so_proxy opts) name in
  let kubernetes := runtime =s deployRuntimeKubernetes in
  let compose := runtime =s deployRuntimeCompose in
  let manifest :=
    if kubernetes then composeServiceManifest yaml_Marshal quote name svc image env proxyHost (px_IngressClass (so_proxy opts))
    else if compose then so_composeFile opts else "" in
  mkStage ("deploy-" +:+ slug) ("Deploy " +:+ svc_Name svc) StageTypeDeploy
    (service_config (if kubernetes then dt_Namespace (a_DeployTarget app) else "") manifest runtime
       (if compose then AppPrefix app +:+ "-" +:+ svc_Name svc +:+ "-1" else name)
       (if compose then AppPrefix app else "") image svc env proxyHost) "" (svc_Group svc).

(** One round of the loop over the services. *)
Definition add_service (slugOf : gmap string string) (svc : ComposeService)
    (st : list Stage * list Edge * gmap string string) : result synth_error (list Stage * list Edge * gmap string string) :=
  let '(stages, edges, deployStageID) := st in
  if svc_External svc then Ok st else
  let slug := default "" (slugOf !! svc_Name svc) in
  let deployed := <[svc_Name svc := "deploy-" +:+ slug]> deployStageID in
  match svc_Build svc with
  | None => Ok (stages ++ [deploy_stage svc slug (svc_Image svc)], edges, deployed)
  | Some b =>
      match build_stages svc b slug with
      | Err e => Err e
      | Ok (built, image) =>
          Ok (stages ++ built ++ [deploy_stage svc slug image],
              add_edge ("push-" +:+ slug) ("deploy-" +:+ slug) (add_edge ("build-" +:+ slug) ("push-" +:+ slug) edges),
              deployed)
      end
  end.

Fixpoint add_services (slugOf : gmap string string) (services : list ComposeService)
    (st : list Stage * list Edge * gmap string string) : result synth_error (list Stage * list Edge * gmap string string) :=
  match services with
  | [] => Ok st
  | svc :: services =>
      match add_service slugOf svc st with Err e => Err e | Ok st => add_services slugOf services st end
  end.

(** The cross-service edges. *)
Definition add_dependencies (deployStageID : gmap string string) (services : list ComposeService) (edges : list Edge) : list Edge :=
  foldl (fun edges svc =>
    if svc_External svc then edges else
    foldl (fun edges dep =>
      match deployStageID !! dep with
      | None => edges
      | Some depDeploy => add_edge depDeploy (default "" (deployStageID !! svc_Name svc)) edges
      end) edges (svc_DependsOn svc)) edges services.

(** The pipeline, before it is checked. *)
Definition compose_pipeline (graph : ComposeGraph) (pipelineID : string) (now : Z) : result synth_error Pipeline :=
  if runtime =s "" then Err (UnsupportedTarget (dt_Kind (a_DeployTarget app))) else
  match add_services (assign_slugs (g_Services graph)).1 (g_Services graph) ([], [], ∅) with
  | Err e => Err e
  | Ok (stages, edges, deployStageID) =>
      Ok (new_pipeline pipelineID ("Deploy " +:+ a_Name app) stages
            (add_dependencies deployStageID (g_Services graph) edges) now)
  end.

Definition synthesizePipelineFromCompose (graph : ComposeGraph) (pipelineID runID : string) (now : Z) (uuid : string)
    : result synth_error (Pipeline * PipelineRun) :=
  match compose_pipeline graph pipelineID now with
  | Err e => Err e
  | Ok p =>
      match BuildDAGFromPipeline p with
      | Err issues => Err (GraphInvalid issues)
      | Ok _ => Ok (p, new_run (if runID =s "" then uuid else runID) pipelineID (p_Stages p))
      end
  end.
End compose.

(** ** Deploying *)

Inductive call :=
| SavePipeline (view : Pipeline) | SaveRun (run : PipelineRun) | ExecuteRun (p : Pipeline) (run : PipelineRun)
| RecordDeploy (d : AppDeploy) | UpdateDeployedURL (url : string).

Inductive deploy_error :=
| InvalidApp (e : app_error) | TargetUnavailable (e : target_error) | ExecutionDenied (msg : string) | NoRepository
| EnvFailed (e : env_error) | CloneFailed (msg : string) | WrongCommit | ComposeLoad (msg : string)
| NeedsReview (msg : string) | RuntimeFile (msg : string) | SynthFailed (e : synth_error) | NoBuildpacks
| BadPath (msg : string) | SavePipelineFailed (msg : string) | SaveRunFailed (msg : string) | ExecuteFailed (msg : string)
| RollbackTarget (kind : string) | NoImage | ComposeCanary.

(** What is wired: the optional collaborators by their presence. *)
Record AppDeployer := mkDeployer {
  d_Registry : string; d_CacheRef : string; d_Deploys : bool; d_Apps : bool;
  d_EnvResolver : option AppEnvResolver; d_Proxy : ProxyConfig; d_SavePipeline : bool; d_SaveRun : bool;
  d_CheckExecution : option (App -> bool -> option string); d_Targets : Registry
}.

(** What the outside answers during one deployment. *)
Record outside := mkOutside {
  o_clone : result string string;                       (* the working directory *)
  o_head : result string string;                        (* [github.HeadCommit] *)
  o_detect : BuildPlan;                                 (* [buildplan.Detect] *)
  o_compose : BuildPlan -> gmap string string -> result string (list string * ComposeGraph); (* diagnostics, graph *)
  o_runtimeFile : result string string;                 (* [writeRuntimeCompose] *)
  o_repositoryPath : string -> option string;           (* [repositoryPath]'s error *)
  o_ts : Z; o_now : Z; o_runUUID : string; o_recordUUID : string;
  o_savePipeline : option string; o_saveRun : option string;
  o_execute : Pipeline -> PipelineRun -> option string * PipelineRun
}.

Definition deployRecordFromRun (app : App) (p : Pipeline) (run : PipelineRun) (imageRef kind uuid : string) : AppDeploy :=
  let digest := foldl (fun digest a =>
      if (a_Type a =s "oci-image") && negb (a_Digest a =s "") then a_Digest a else digest) ""
    (run_StageRuns run ≫= sr_Artifacts) in
  mkAppDeploy uuid (a_ID app) (run_ID run) (p_ID p) imageRef digest (run_Status run) kind zero_time.

Definition set_pipeline_id (id : string) (p : Pipeline) : Pipeline :=
  mkPipeline id (p_Name p) (p_Description p) (p_Stages p) (p_Edges p) (p_Variables p) (p_CreatedAt p) (p_UpdatedAt p)
    (p_Version p) (p_RunDeadline p).
Definition set_run_ids (id pipelineID : string) (r : PipelineRun) : PipelineRun :=
  mkPipelineRun id pipelineID (run_Status r) (run_StageRuns r) (run_EnvironmentStatuses r)
    (run_Variables r) (run_CreatedAt r) (run_StartedAt r) (run_FinishedAt r) (run_Error r) (run_HeartbeatAt r)
    (run_StartedByUserSub r) (run_StartedByEmail r) (run_StartedByGroups r) (run_StartedByTokenHash r) (run_PipelineVersion r).

Section deploy.
Variable parseNamed : string -> bool. (* [reference.ParseNormalizedNamed] *)
Variables (d : AppDeployer) (o : outside) (app : App) (runID : string).

Definition check_execution (hasBuild : bool) : option string :=
  match d_CheckExecution d with None => None | Some f => f app hasBuild end.

Definition deploy_registry : string := if a_RegistryRef app =s "" then d_Registry d else a_RegistryRef app.
Definition deploy_tag : string := deploy_registry +:+ "/" +:+ AppPrefix app +:+ ":" +:+ itoa (o_ts o).

Definition plan_commit : string := match a_BuildPlan app with Some p => bp_Commit p | None => "" end.
Definition deploy_plan : BuildPlan := match a_BuildPlan app with Some p => p | None => o_detect o end.

(** The checks made before anything is fetched. *)
Definition preflight : result deploy_error (gmap string string) :=
  match ValidateAppDeployment parseNamed app with Some e => Err (InvalidApp e) | None =>
  match CheckAppTarget (d_Targets d) (a_DeployTarget app) with Some e => Err (TargetUnavailable e) | None =>
  match check_execution false with Some msg => Err (ExecutionDenied msg) | None =>
  if a_GitHubRepo app =s "" then Err NoRepository else
  match Resolve (d_EnvResolver d) app with Err e => Err (EnvFailed e) | Ok env => Ok env end end end end.

(** The working directory of the checkout. *)
Definition checkout : result deploy_error string :=
  match o_clone o with
  | Err msg => Err (CloneFailed msg)
  | Ok workdir =>
      if plan_commit =s "" then Ok workdir else
      match o_head o with
      | Ok sha => if sha =s plan_commit then Ok workdir else Err WrongCommit
      | Err _ => Err WrongCommit
      end
  end.

Definition plan_compose (workdir : string) (env : gmap string string) : result deploy_error (Pipeline * PipelineRun) :=
  match o_compose o deploy_plan env with
  | Err msg => Err (ComposeLoad msg)
  | Ok (msg :: _, _) => Err (NeedsReview msg)
  | Ok ([], graph) =>
      match (if dt_Kind (a_DeployTarget app) =s DeployTargetDockerHost then o_runtimeFile o else Ok "") with
      | Err msg => Err (RuntimeFile msg)
      | Ok file =>
          match synthesizePipelineFromCompose app workdir deploy_registry (o_ts o) (cacheSpec (d_CacheRef d))
                  (mkOpts env (d_Proxy d) file) graph (ComposePipelineID runID (a_ID app) (o_ts o)) runID (o_now o) (o_runUUID o) with
          | Err e => Err (SynthFailed e)
          | Ok r => Ok r
          end
      end
  end.

Definition plan_image (workdir : string) (env : gmap string string) : result deploy_error (Pipeline * PipelineRun) :=
  if bp_Kind deploy_plan =s BuildPlanBuildpack then Err NoBuildpacks else
  match o_repositoryPath o (if bp_Path deploy_plan =s "" then "Dockerfile" else bp_Path deploy_plan) with
  | Some msg => Err (BadPath msg)
  | None =>
      let '(p, run) := synthesizePipeline app deploy_plan workdir deploy_tag (cacheSpec (d_CacheRef d))
                         (mkOpts env (d_Proxy d) "") (o_now o) (o_runUUID o) in
      Ok (p, if runID =s "" then run else set_run_ids runID (run_PipelineID run) run)
  end.

(** The pipeline a deployment runs, and its run. *)
Definition plan_deploy : result deploy_error (Pipeline * PipelineRun) :=
  match preflight with Err e => Err e | Ok env =>
  match checkout with Err e => Err e | Ok workdir =>
  match (if bp_Kind deploy_plan =s BuildPlanCompose then plan_compose workdir env else plan_image workdir env) with
  | Err e => Err e
  | Ok (p, run) =>
      let p := set_pipeline_id (ComposePipelineID runID (a_ID app) (o_ts o)) p in
      match check_execution (existsb (fun s => st_Type s =s StageTypeBuild) (p_Stages p)) with
      | Some msg => Err (ExecutionDenied msg)
      | None => Ok (p, set_run_ids (run_ID run) (p_ID p) run)
      end
  end end end.

(** Executing a planned deployment and recording it. *)
Definition execute_and_record (p : Pipeline) (run : PipelineRun) (imageRef kind : string)
    : list call * result deploy_error (Pipeline * PipelineRun) :=
  let '(err, run') := o_execute o p run in
  (ExecuteRun p run ::
   (if d_Deploys d then [RecordDeploy (deployRecordFromRun app p run' imageRef kind (o_recordUUID o))] else []),
   match err with Some msg => Err (ExecuteFailed msg) | None => Ok (p, run') end).

Definition persistDeployedURL (p : Pipeline) : list call :=
  let url := deployedURLFor p (d_Proxy d) in
  if (url =s "") || negb (d_Apps d) then [] else [UpdateDeployedURL url].

Definition Deploy : list call * result deploy_error (Pipeline * PipelineRun) :=
  match plan_deploy with
  | Err e => ([], Err e)
  | Ok (p, run) =>
      let saved := if d_SavePipeline d then [SavePipeline (DeploymentViewPipeline p)] else [] in
      match (if d_SavePipeline d then o_savePipeline o else None) with
      | Some msg => (saved, Err (SavePipelineFailed msg))
      | None =>
          let run := if d_SaveRun d then run |> run_set_Status RunStatusRunning |> run_set_StartedAt (Some (o_now o)) else run in
          let saved := saved ++ (if d_SaveRun d then [SaveRun run] else []) in
          match (if d_SaveRun d then o_saveRun o else None) with
          | Some msg => (saved, Err (SaveRunFailed msg))
          | None =>
              let imageRef := if bp_Kind deploy_plan =s BuildPlanCompose then "" else deploy_tag in
              let '(calls, res) := execute_and_record p run imageRef AppDeployKindDeploy in
              (saved ++ calls ++
                 match res with
                 | Ok (p, run') => if run_Status run' =s RunStatusSuccess then persistDeployedURL p else []
                 | Err _ => []
                 end, res)
          end
      end
  end.

(** [DeployImage]: the rollback to an image already shipped. *)
Definition DeployImage (imageRef : string) : list call * result deploy_error (Pipeline * PipelineRun) :=
  if negb (dt_Kind (a_DeployTarget app) =s DeployTargetKubernetes) then ([], Err (RollbackTarget (dt_Kind (a_DeployTarget app)))) else
  if imageRef =s "" then ([], Err NoImage) else
  match Resolve (d_EnvResolver d) app with
  | Err e => ([], Err (EnvFailed e))
  | Ok env =>
      let proxyHost := hostFor (d_Proxy d) (AppPrefix app) in
      let stages := [mkStage "deploy" "Deploy" StageTypeDeploy
        (manifest_config (dt_Namespace (a_DeployTarget app))
           (defaultKubernetesManifest yaml_Marshal app imageRef env proxyHost (px_IngressClass (d_Proxy d)))
           (mergeEnv env ∅) proxyHost) "" ""] in
      let p := new_pipeline ("app-" +:+ a_ID app +:+ "-rollback-" +:+ runID) ("Rollback " +:+ a_Name app) stages [] (o_now o) in
      execute_and_record p (new_run (if runID =s "" then o_runUUID o else runID) (p_ID p) stages) imageRef AppDeployKindRollback
  end.

(** [BuildAndPushImage], for a canary: no deploy stage, nothing recorded.  It clones
    the branch, whatever commit the plan names; its time stamp counts seconds. *)
Definition BuildAndPushImage : list call * result deploy_error (string * Pipeline * PipelineRun) :=
  if a_GitHubRepo app =s "" then ([], Err NoRepository) else
  match o_clone o with
  | Err msg => ([], Err (CloneFailed msg))
  | Ok workdir =>
      if bp_Kind deploy_plan =s BuildPlanCompose then ([], Err ComposeCanary) else
      let '(p, run) := synthesizePipeline app deploy_plan workdir deploy_tag (cacheSpec (d_CacheRef d))
                         (mkOpts ∅ (mkProxy "" "" "" "") "") (o_now o) (o_runUUID o) in
      let '(p, run) := stripDeployStage p run in
      let run := if runID =s "" then run else set_run_ids runID (run_PipelineID run) run in
      match o_execute o p run with
      | (Some msg, _) => ([ExecuteRun p run], Err (ExecuteFailed msg))
      | (None, run') => ([ExecuteRun p run], Ok (deploy_tag, p, run'))
      end
  end.
End deploy.
End synthesis.

(** ** Detection: [internal/build/buildplan/detect.go], and drift: [app_drift.go] *)

(** [fileExists] is the file system, a parameter. *)
Definition detect (fileExists : string -> bool) (dir : string) : BuildPlan :=
  let plan kind path := mkBuildPlan kind path ∅ [] "" 0 [] [] ∅ in
  if fileExists (Join dir "Dockerfile") then plan BuildPlanDockerfile "Dockerfile" else
  match List.find (fun name => fileExists (Join dir name))
          ["docker-compose.yml"; "docker-compose.yaml"; "compose.yml"; "compose.yaml"] with
  | Some name => plan BuildPlanCompose name
  | None => plan BuildPlanBuildpack ""
  end.

Definition DriftInSync : string := "in_sync".
Definition DriftDetected : string := "drift".
Definition DriftUnknown : string := "unknown".
Definition DriftUnsupported : string := "unsupported".

Record AppDrift := mkDrift { df_Status : string; df_Expected : string; df_Live : string; df_Message : string }.

(** [GetWorkload]'s answer: an image, or an error and whether it is [kube.ErrUnavailable]. *)
Definition workload_answer : Type := result (bool * string) string.

Fixpoint last_shipped (history : list AppDeploy) : string :=
  match history with
  | [] => ""
  | d :: history => if (d_Status d =s RunStatusSuccess) && negb (d_ImageRef d =s "") then d_ImageRef d else last_shipped history
  end.

(** [deploys] is [ListByApp]'s answer, newest first; [None] when not wired. *)
Definition CheckDrift (kc : option (string -> string -> string -> workload_answer))
    (deploys : option (result string (list AppDeploy))) (app : App) : AppDrift :=
  let unknown expected msg := mkDrift DriftUnknown expected "" msg in
  if negb (dt_Kind (a_DeployTarget app) =s DeployTargetKubernetes) then
    mkDrift DriftUnsupported "" "" "drift detection supports kubernetes deploy targets only"
  else
    match kc, deploys with
    | Some get, Some history =>
        match history with
        | Err msg => unknown "" ("history unavailable: " +:+ msg)
        | Ok history =>
            let expected := last_shipped history in
            if expected =s "" then unknown "" "no successful deploy with a recorded image yet" else
            match get (dt_Namespace (a_DeployTarget app)) "deployment" (AppPrefix app) with
            | Err (true, _) => unknown expected "cluster unreachable"
            | Err (false, msg) => unknown expected ("workload not found: " +:+ msg)
            | Ok image =>
                if image =s expected then mkDrift DriftInSync expected image ""
                else mkDrift DriftDetected expected image "live image differs from the last successful deploy"
            end
        end
    | _, _ => unknown "" "drift detection not configured"
    end.

(** ** Facts *)

(** *** Slugs *)

Lemma attempt_inj base i j : 0 <= i < 10 ^ 20 -> 0 <= j < 10 ^ 20 ->
  base +:+ "-" +:+ itoa i = base +:+ "-" +:+ itoa j -> i = j.
Proof. intros Hi Hj H. by apply string_app_inj, string_app_inj, itoa_inj in H. Qed.

Lemma attempt_not_base base x : base +:+ "-" +:+ x <> base.
Proof.
  intros H. induction base as [|c base IH]; [done|].
  change (String c base +:+ "-" +:+ x) with (String c (base +:+ "-" +:+ x)) in H. by injection H.
Qed.

Lemma free_slug_spec fuel : forall (used seen : gset string) base i slug,
  0 <= i -> i + Z.of_nat fuel < 10 ^ 20 -> seen ⊆ used -> slug ∉ seen -> (size used < size seen + 1 + fuel)%nat ->
  (forall j, i <= j < 10 ^ 20 -> base +:+ "-" +:+ itoa j ∉ {[slug]} ∪ seen) ->
  free_slug fuel used base i slug ∉ used.
Proof.
  induction fuel as [|fuel IH]; intros used seen base i slug Hi Hmax Hsub Hnew Hsize Hfut; cbn [free_slug];
    case_bool_decide as Hin; try done.
  - exfalso. assert (size ({[slug]} ∪ seen) <= size used)%nat by (apply subseteq_size; set_solver).
    rewrite size_union in * by set_solver. rewrite size_singleton in *. lia.
  - apply (IH used ({[slug]} ∪ seen)); [lia|lia|set_solver|apply Hfut; lia| |].
    + rewrite size_union by set_solver. rewrite size_singleton. lia.
    + intros j Hj. assert (base +:+ "-" +:+ itoa j ∉ {[slug]} ∪ seen) as H1 by (apply Hfut; lia).
      assert (base +:+ "-" +:+ itoa j <> base +:+ "-" +:+ itoa i) by (intros He; apply attempt_inj in He; lia).
      set_solver.
Qed.

Lemma slug_for_free used name : Z.of_nat (size used) < 2 ^ 63 -> slug_for used name ∉ used.
Proof.
  intros Hs. unfold slug_for. apply (free_slug_spec _ used ∅); [lia|lia|set_solver|set_solver|rewrite size_empty; lia|].
  intros j Hj. pose proof (attempt_not_base (sanitize name) (itoa j)). set_solver.
Qed.

Section slugs.
Implicit Types services : list ComposeService.

Lemma assign_slugs_spec services : Z.of_nat (length services) < 2 ^ 63 -> NoDup (svc_Name <$> services) ->
  let '(slugOf, used) := assign_slugs services in
  (forall n, is_Some (slugOf !! n) <-> n ∈ svc_Name <$> services) /\
  (forall n s, slugOf !! n = Some s -> s ∈ used) /\ (size used <= length services)%nat /\
  (forall n n' s, slugOf !! n = Some s -> slugOf !! n' = Some s -> n = n').
Proof.
  unfold assign_slugs. induction services as [|svc services IH] using rev_ind; intros Hlen Hnd.
  { cbn. split_and!; [|by intros ? ? ?%lookup_empty_Some|by rewrite size_empty|by intros ? ? ? ?%lookup_empty_Some].
    intros n. rewrite lookup_empty. split; [by intros [? ?]|by intros ?%not_elem_of_nil]. }
  rewrite fmap_app in Hnd. rewrite length_app in Hlen. cbn in Hlen.
  apply NoDup_app in Hnd as (Hnd & Hfresh & _). rewrite foldl_app. cbn [foldl].
  specialize (IH ltac:(lia) Hnd). destruct (foldl _ _ services) as [slugOf used]. destruct IH as (Hdom & Hused & Hsize & Hinj).
  assert (slug_for used (svc_Name svc) ∉ used) as Hfree by (apply slug_for_free; lia).
  assert (svc_Name svc ∉ svc_Name <$> services) as Hn by (intros H; apply (Hfresh _ H); by left).
  split_and!.
  - intros n. rewrite fmap_app, elem_of_app, lookup_insert_is_Some, Hdom. cbn. rewrite list_elem_of_singleton.
    destruct (decide (svc_Name svc = n)); naive_solver.
  - intros n s [[<- <-]|[_ Hl]]%lookup_insert_Some; [set_solver|]. apply Hused in Hl. set_solver.
  - rewrite size_union by set_solver. rewrite size_singleton, length_app. cbn. lia.
  - intros n n' s [[<- <-]|[Hne Hl]]%lookup_insert_Some [[<- Heq]|[Hne' Hl']]%lookup_insert_Some; [done| | |by eapply Hinj].
    + by destruct Hfree; eapply Hused.
    + destruct Hfree. rewrite Heq. by eapply Hused.
Qed.
End slugs.

(** *** The stages and edges of a compose graph *)

Section compose_facts.
Context `{RO : RangeOrder}.
Variable yaml_Marshal : list (string * string) -> option string.
Variable quote : string -> string.
Variables (app : App) (workdir registry : string) (ts : Z) (cache : option CacheSpec) (opts : synthOpts).

Definition slug_of (slugOf : gmap string string) (svc : ComposeService) : string := default "" (slugOf !! svc_Name svc).

Definition runs (svc : ComposeService) : bool := negb (svc_External svc).

Definition svc_ids (slugOf : gmap string string) (svc : ComposeService) : list string :=
  let slug := slug_of slugOf svc in
  if svc_External svc then [] else
  (match svc_Build svc with Some _ => ["build-" +:+ slug; "push-" +:+ slug] | None => [] end) ++ ["deploy-" +:+ slug].

Definition svc_pairs (slugOf : gmap string string) (svc : ComposeService) : list (string * string) :=
  let slug := slug_of slugOf svc in
  if svc_External svc then [] else
  match svc_Build svc with
  | Some _ => [("build-" +:+ slug, "push-" +:+ slug); ("push-" +:+ slug, "deploy-" +:+ slug)]
  | None => []
  end.

Definition dep_pairs (deployed : gmap string string) (svc : ComposeService) : list (string * string) :=
  if svc_External svc then [] else
  omap (fun dep => (fun d => (d, default "" (deployed !! svc_Name svc))) <$> deployed !! dep) (svc_DependsOn svc).

Definition pairs (edges : list Edge) : list (string * string) := (fun e => (e_Source e, e_Target e)) <$> edges.
Definition unconditional (edges : list Edge) : Prop := forall e, e ∈ edges -> e_Condition e = "".

Lemma pairs_add_edge x y edges : pairs (add_edge x y edges) = pairs edges ++ [(x, y)].
Proof. unfold pairs, add_edge. by rewrite fmap_app. Qed.

Lemma unconditional_add_edge x y edges : unconditional edges -> unconditional (add_edge x y edges).
Proof. intros H e. unfold add_edge. rewrite elem_of_app, list_elem_of_singleton. by intros [?%H| ->]. Qed.

Abbreviation add_service' := (add_service yaml_Marshal quote app workdir registry ts cache opts).
Abbreviation add_services' := (add_services yaml_Marshal quote app workdir registry ts cache opts).

(** What the loop over the services has done, from [st] to [st']. *)
Definition grown (slugOf : gmap string string) (services : list ComposeService)
    (st st' : list Stage * list Edge * gmap string string) : Prop :=
  let '(stages, edges, deployed) := st in let '(stages', edges', deployed') := st' in
  st_ID <$> stages' = (st_ID <$> stages) ++ (services ≫= svc_ids slugOf) /\
  pairs edges' = pairs edges ++ (services ≫= svc_pairs slugOf) /\
  (unconditional edges -> unconditional edges') /\
  (forall n, deployed' !! n =
     if existsb (fun svc => runs svc && (svc_Name svc =s n)) services
     then Some ("deploy-" +:+ default "" (slugOf !! n)) else deployed !! n).

Lemma add_service_grown slugOf svc st st' : add_service' slugOf svc st = Ok st' -> grown slugOf [svc] st st'.
Proof.
  destruct st as [[stages edges] deployed], st' as [[stages' edges'] deployed']. unfold add_service, grown, svc_ids, svc_pairs, runs.
  cbn [existsb]. destruct (svc_External svc) eqn:Hx; cbn [negb andb].
  - intros [= <- <- <-]. cbn. rewrite Hx, !app_nil_r. by split_and!.
  - assert (forall n, <[svc_Name svc:="deploy-" +:+ default "" (slugOf !! svc_Name svc)]> deployed !! n =
      (if (svc_Name svc =s n) || false then Some ("deploy-" +:+ default "" (slugOf !! n)) else deployed !! n)) as Hdep.
    { intros n. rewrite orb_false_r. destruct (String.eqb_spec (svc_Name svc) n) as [<-|Hn];
        [by rewrite lookup_insert_eq|by rewrite lookup_insert_ne]. }
    destruct (svc_Build svc) as [b|] eqn:Hb.
    + unfold build_stages. destruct (negb _); [done|]. destruct (negb _ || _); [done|]. intros [= <- <- <-].
      cbn. rewrite Hx, Hb. rewrite !fmap_app, !pairs_add_edge, <- !app_assoc. split_and!; [done|done| |exact Hdep].
      intros Hu. by do 2 apply unconditional_add_edge.
    + intros [= <- <- <-]. cbn. rewrite Hx, Hb. rewrite fmap_app, !app_nil_r. by split_and!.
Qed.

Lemma add_services_grown slugOf services : forall st st', add_services' slugOf services st = Ok st' -> grown slugOf services st st'.
Proof.
  induction services as [|svc services IH]; intros st st'; cbn [add_services].
  - intros [= <-]. destruct st as [[stages edges] deployed]. cbn. rewrite !app_nil_r. by split_and!.
  - destruct (add_service' _ _ _) as [st1|e] eqn:H1; [|done]. intros H2. apply add_service_grown in H1. apply IH in H2.
    destruct st as [[s e] d], st1 as [[s1 e1] d1], st' as [[s2 e2] d2]. cbn [grown] in *.
    destruct H1 as (A1 & A2 & A3 & A4), H2 as (B1 & B2 & B3 & B4). cbn in A1, A2.
    rewrite app_nil_r in A1, A2. cbn [existsb]. split_and!.
    + rewrite B1, A1. cbn. by rewrite <- app_assoc.
    + rewrite B2, A2. cbn. by rewrite <- app_assoc.
    + auto.
    + intros n. rewrite B4, A4. cbn [existsb]. rewrite orb_false_r.
      destruct (runs svc && _), (existsb _ services); done.
Qed.

Lemma add_dependencies_spec deployed services : forall edges,
  let edges' := add_dependencies deployed services edges in
  pairs edges' = pairs edges ++ (services ≫= dep_pairs deployed) /\ (unconditional edges -> unconditional edges').
Proof.
  unfold add_dependencies. induction services as [|svc services IH]; intros edges; cbn [foldl]; [cbn; by rewrite app_nil_r|].
  destruct (IH (if svc_External svc then edges else foldl (fun edges dep => match deployed !! dep with None => edges
    | Some depDeploy => add_edge depDeploy (default "" (deployed !! svc_Name svc)) edges end) edges (svc_DependsOn svc))) as [H1 H2].
  cbn zeta. rewrite H1. clear H1 IH. cbn [mbind list_bind]. unfold dep_pairs at 2. destruct (svc_External svc); [by split|].
  assert (forall deps edges, let edges' := foldl (fun edges dep => match deployed !! dep with None => edges
    | Some depDeploy => add_edge depDeploy (default "" (deployed !! svc_Name svc)) edges end) edges deps in
    pairs edges' = pairs edges ++ omap (fun dep => (fun d => (d, default "" (deployed !! svc_Name svc))) <$> deployed !! dep) deps /\
    (unconditional edges -> unconditional edges')) as Hl.
  { clear. induction deps as [|dep deps IH]; intros edges; cbn [foldl omap list_omap]; [by rewrite app_nil_r|].
    destruct (deployed !! dep) as [d|]; cbn; [|apply IH]. destruct (IH (add_edge d (default "" (deployed !! svc_Name svc)) edges)) as [H1 H2].
    rewrite H1, pairs_add_edge, <- app_assoc. split; [done|]. intros Hu. by apply H2, unconditional_add_edge. }
  destruct (Hl (svc_DependsOn svc) edges) as [H3 H4]. rewrite H3, <- app_assoc. split; [done|auto].
Qed.
Section graph.
Variable services : list ComposeService.
Hypothesis Hlen : Z.of_nat (length services) < 2 ^ 63.
Hypothesis Hnames : NoDup (svc_Name <$> services).

Definition service_slug (svc : ComposeService) : string := slug_of (assign_slugs services).1 svc.

(** Service [b] waits for service [a]: both are deployed. *)
Definition depends (a b : ComposeService) : Prop :=
  a ∈ services /\ b ∈ services /\ svc_External a = false /\ svc_External b = false /\ svc_Name a ∈ svc_DependsOn b.

Lemma same_name a b : a ∈ services -> b ∈ services -> svc_Name a = svc_Name b -> a = b.
Proof.
  intros [i Hi]%list_elem_of_lookup [j Hj]%list_elem_of_lookup Hn.
  assert (i = j) as ->; [|congruence]. apply (NoDup_lookup _ _ _ (svc_Name a) Hnames); rewrite list_lookup_fmap.
  - by rewrite Hi.
  - rewrite Hj. cbn. by rewrite Hn.
Qed.

Lemma slug_inj a b : a ∈ services -> b ∈ services -> service_slug a = service_slug b -> a = b.
Proof.
  intros Ha Hb. pose proof (assign_slugs_spec services Hlen Hnames) as H. unfold service_slug, slug_of.
  destruct (assign_slugs services) as [slugOf used]. destruct H as (Hdom & _ & _ & Hinj). cbn.
  destruct (proj2 (Hdom (svc_Name a)) (list_elem_of_fmap_2 _ _ _ Ha)) as [sa Hsa].
  destruct (proj2 (Hdom (svc_Name b)) (list_elem_of_fmap_2 _ _ _ Hb)) as [sb Hsb].
  rewrite Hsa, Hsb. cbn. intros <-. apply same_name; [done..|]. by eapply Hinj.
Qed.

(** The stages a service has. *)
Definition stage_of (svc : ComposeService) (x : string) : Prop :=
  svc_External svc = false /\
  (x = "deploy-" +:+ service_slug svc \/
   (is_Some (svc_Build svc) /\ (x = "build-" +:+ service_slug svc \/ x = "push-" +:+ service_slug svc))).

Lemma elem_of_svc_ids svc x : x ∈ svc_ids (assign_slugs services).1 svc <-> stage_of svc x.
Proof.
  unfold svc_ids, stage_of. fold (service_slug svc). destruct (svc_External svc); [split; [by intros ?%not_elem_of_nil|by intros []]|].
  destruct (svc_Build svc); cbn; rewrite ?elem_of_cons, elem_of_nil; split.
  - intros [->|[->|[->|[]]]]; (split; [done|]); [right|right|left]; eauto.
  - intros [_ [->|[_ [->| ->]]]]; auto.
  - intros [->|[]]. split; [done|by left].
  - intros [_ [->|[[? ?] _]]]; [by left|done].
Qed.

Lemma stage_of_inj a b x : a ∈ services -> b ∈ services -> stage_of a x -> stage_of b x -> a = b.
Proof.
  intros Ha Hb [_ Hx] [_ Hx']. apply slug_inj; [done..|].
  destruct Hx as [->|[_ [->| ->]]], Hx' as [Hx|[_ [Hx|Hx]]]; try done; by apply string_app_inj in Hx.
Qed.

Lemma compose_ids_NoDup : NoDup (services ≫= svc_ids (assign_slugs services).1).
Proof.
  apply NoDup_bind.
  - intros a b x Ha Hb Hx Hx'. apply elem_of_svc_ids in Hx, Hx'. by eapply stage_of_inj.
  - intros a _. unfold svc_ids. destruct (svc_External a); [constructor|].
    destruct (svc_Build a); cbn; [|apply NoDup_singleton]. repeat constructor; rewrite ?elem_of_cons, elem_of_nil; naive_solver.
  - by apply (NoDup_fmap_1 svc_Name).
Qed.

(** An edge of the synthesised pipeline. *)
Definition compose_edge (x y : string) : Prop :=
  (exists svc, svc ∈ services /\ svc_External svc = false /\ is_Some (svc_Build svc) /\
     ((x = "build-" +:+ service_slug svc /\ y = "push-" +:+ service_slug svc) \/
      (x = "push-" +:+ service_slug svc /\ y = "deploy-" +:+ service_slug svc))) \/
  (exists a b, depends a b /\ x = "deploy-" +:+ service_slug a /\ y = "deploy-" +:+ service_slug b).

Lemma elem_of_svc_pairs x y : (x, y) ∈ services ≫= svc_pairs (assign_slugs services).1 <->
  exists svc, svc ∈ services /\ svc_External svc = false /\ is_Some (svc_Build svc) /\
     ((x = "build-" +:+ service_slug svc /\ y = "push-" +:+ service_slug svc) \/
      (x = "push-" +:+ service_slug svc /\ y = "deploy-" +:+ service_slug svc)).
Proof.
  rewrite list_elem_of_bind. unfold svc_pairs. split.
  - intros (svc & Hin & Hs). exists svc. fold (service_slug svc) in Hin. destruct (svc_External svc); [by apply not_elem_of_nil in Hin|].
    destruct (svc_Build svc); [|by apply not_elem_of_nil in Hin]. rewrite !elem_of_cons, elem_of_nil in Hin. naive_solver.
  - intros (svc & Hs & Hx & [b Hb] & H). exists svc. rewrite Hx, Hb. fold (service_slug svc).
    rewrite !elem_of_cons, elem_of_nil. naive_solver.
Qed.

Lemma elem_of_dep_pairs deployed x y :
  (forall n, deployed !! n = if existsb (fun svc => runs svc && (svc_Name svc =s n)) services
     then Some ("deploy-" +:+ default "" ((assign_slugs services).1 !! n)) else None) ->
  (x, y) ∈ services ≫= dep_pairs deployed <->
  exists a b, depends a b /\ x = "deploy-" +:+ service_slug a /\ y = "deploy-" +:+ service_slug b.
Proof.
  intros Hd.
  assert (forall svc, svc ∈ services -> svc_External svc = false ->
    deployed !! svc_Name svc = Some ("deploy-" +:+ service_slug svc)) as Hrun.
  { intros svc Hs Hx. rewrite Hd, (proj2 (existsb_exists _ _)); [done|]. exists svc. unfold runs.
    rewrite Hx, String.eqb_refl. split; [by apply list_elem_of_In|done]. }
  rewrite list_elem_of_bind. unfold dep_pairs. split.
  - intros (b & Hin & Hb). destruct (svc_External b) eqn:Hx; [by apply not_elem_of_nil in Hin|].
    apply list_elem_of_omap in Hin as (n & Hn & Heq). destruct (deployed !! n) as [d|] eqn:Hl; [|done]. injection Heq as <- <-.
    pose proof Hl as Hl'. rewrite Hd in Hl'. destruct (existsb _ _) eqn:He; [|done].
    apply existsb_exists in He as (a & Ha%list_elem_of_In & Hra). reflect_bools. unfold runs in *.
    destruct (svc_External a) eqn:Hxa; [done|]. subst n. rewrite Hrun in Hl by done. injection Hl as <-.
    exists a, b. rewrite Hrun by done. done.
  - intros (a & b & (Ha & Hb & Hxa & Hxb & Hin) & -> & ->). exists b. split; [|done]. rewrite Hxb.
    apply list_elem_of_omap. exists (svc_Name a). split; [done|]. by rewrite !Hrun.
Qed.

Lemma compose_pipeline_spec graph id now p : services = g_Services graph ->
  compose_pipeline yaml_Marshal quote app workdir registry ts cache opts graph id now = Ok p ->
  stage_ids p = services ≫= svc_ids (assign_slugs services).1 /\ unconditional (p_Edges p) /\
  (forall x y, feeds p x y <-> compose_edge x y).
Proof.
  intros Hs. unfold compose_pipeline. destruct (runtime app opts =s ""); [done|].
  destruct (add_services _ _ _ _ _ _ _ _ _ _ _) as [[[stages edges] deployed]|e] eqn:Ha; [|done]. intros [= <-].
  apply add_services_grown in Ha as (Hids & Hpairs & Hcond & Hdep). rewrite <- Hs in *. cbn in Hids, Hpairs.
  destruct (add_dependencies_spec deployed services edges) as [Hp Hu]. unfold stage_ids. cbn [p_Stages p_Edges new_pipeline].
  split_and!; [done|by apply Hu, Hcond; intros e ?%not_elem_of_nil|].
  intros x y. unfold compose_edge. rewrite <- elem_of_svc_pairs, <- elem_of_dep_pairs by done. rewrite <- Hpairs, <- elem_of_app, <- Hp.
  unfold feeds, pairs. rewrite list_elem_of_fmap. cbn [p_Edges]. naive_solver.
Qed.

Definition cyclic : Prop := exists svc, tc depends svc svc.

Lemma compose_edge_from_deploy a y : a ∈ services -> compose_edge ("deploy-" +:+ service_slug a) y ->
  exists b, depends a b /\ y = "deploy-" +:+ service_slug b.
Proof.
  intros Ha [(svc & _ & _ & _ & [[H _]|[H _]])|(a' & b & Hd & Heq & ->)]; [done..|].
  exists b. split; [|done]. apply string_app_inj in Heq. pose proof Hd as (Ha' & _). by rewrite (slug_inj a a').
Qed.

Lemma compose_tc_from_deploy a y : a ∈ services -> tc compose_edge ("deploy-" +:+ service_slug a) y ->
  exists b, tc depends a b /\ y = "deploy-" +:+ service_slug b.
Proof.
  intros Ha H. remember ("deploy-" +:+ service_slug a) as x eqn:Hx. revert a Ha Hx.
  induction H as [x y H|x y z H _ IH]; intros a Ha ->; apply compose_edge_from_deploy in H as (b & Hd & ->); [|done| |done].
  - exists b. split; [by apply tc_once|done].
  - destruct (IH b) as (c & Hc & ->); [by destruct Hd as (_ & ? & _)|done|]. exists c. split; [by eapply tc_l|done].
Qed.

Lemma compose_edge_cyclic : (exists x, tc compose_edge x x) <-> cyclic.
Proof.
  assert (forall x s, ~ compose_edge x ("build-" +:+ s)) as Hb.
  { intros x s [(svc & _ & _ & _ & [[_ H]|[_ H]])|(a & b & _ & _ & H)]; done. }
  assert (forall x s, compose_edge x ("push-" +:+ s) -> exists s', x = "build-" +:+ s') as Hp.
  { intros x s [(svc & _ & _ & _ & [[-> H]|[_ H]])|(a & b & _ & _ & H)]; [by eexists|done..]. }
  assert (forall x y, tc compose_edge x y -> exists z, compose_edge z y /\ (z = x \/ tc compose_edge x z)) as Hlast.
  { induction 1 as [x y H|x y z H _ (w & Hw & IH)]; [exists x; by split; [|left]|].
    exists w. split; [done|right]. destruct IH as [->|IH]; [by apply tc_once|by eapply tc_l]. }
  split.
  - intros [x Hx]. destruct (Hlast x x Hx) as (z & Hz & _). destruct Hz as [(svc & Hs & Hx' & Hbld & [[-> ->]|[-> ->]])|(a & b & Hd & -> & ->)].
    + destruct (Hlast _ _ Hx) as (w & Hw & Hor). destruct (Hp _ _ Hw) as [s' ->].
      destruct Hor as [H|H]; [done|]. destruct (Hlast _ _ H) as (v & Hv & _). by apply Hb in Hv.
    + apply compose_tc_from_deploy in Hx as (c & Hc & Heq); [|done]. apply string_app_inj in Heq.
      assert (c ∈ services) by (clear - Hc; induction Hc as [? ? (_ & ? & _)|]; done).
      rewrite <- (slug_inj svc c) in Hc by done. by exists svc.
    + destruct Hd as (_ & Hb' & _). apply compose_tc_from_deploy in Hx as (c & Hc & Heq); [|done]. apply string_app_inj in Heq.
      assert (c ∈ services) by (clear - Hc; induction Hc as [? ? (_ & ? & _)|]; done).
      rewrite <- (slug_inj b c) in Hc by done. by exists b.
  - intros [svc H]. exists ("deploy-" +:+ service_slug svc).
    assert (forall a b, tc depends a b -> tc compose_edge ("deploy-" +:+ service_slug a) ("deploy-" +:+ service_slug b)) as Ht; [|by apply Ht].
    induction 1 as [a b Hd|a b c Hd _ IH]; [apply tc_once; right; by exists a, b|].
    eapply tc_l; [right; by exists a, b|done].
Qed.
End graph.
End compose_facts.

(** ** Compose deployments *)

Section compose_properties.
Context `{RO : RangeOrder}.
Variable yaml_Marshal : list (string * string) -> option string.
Variable quote : string -> string.
Variables (app : App) (workdir registry : string) (ts : Z) (cache : option CacheSpec) (opts : synthOpts).

Lemma compose_edge_declared services x y : Z.of_nat (length services) < 2 ^ 63 -> NoDup (svc_Name <$> services) ->
  compose_edge services x y -> (exists svc, svc ∈ services /\ stage_of services svc x) /\ (exists svc, svc ∈ services /\ stage_of services svc y).
Proof.
  intros _ _ [(svc & Hs & Hx & Hb & [[-> ->]|[-> ->]])|(a & b & (Ha & Hb & Hxa & Hxb & _) & -> & ->)].
  - split; exists svc; (split; [done|split; [done|by right; auto]]).
  - split; exists svc; (split; [done|split; [done|]]); [right; auto|by left].
  - split; [exists a|exists b]; (split; [done|split; [done|by left]]).
Qed.

(** C4. The pipeline made of a compose graph: however the services are called, its
    stages are the build and push stages of the services that are built and the
    deploy stage of every service that is not external, all with different IDs;
    its edges are build before push before deploy for each service, and the deploy
    of a service after the deploys of the services it depends on, and nothing
    else. *)
Theorem compose_pipeline_graph graph id now p :
  let services := g_Services graph in
  Z.of_nat (length services) < 2 ^ 63 -> NoDup (svc_Name <$> services) ->
  compose_pipeline yaml_Marshal quote app workdir registry ts cache opts graph id now = Ok p ->
  NoDup (stage_ids p) /\
  (forall x, x ∈ stage_ids p <-> exists svc, svc ∈ services /\ svc_External svc = false /\
     let slug := service_slug services svc in
     (x = "deploy-" +:+ slug \/ (is_Some (svc_Build svc) /\ (x = "build-" +:+ slug \/ x = "push-" +:+ slug)))) /\
  (forall x y, feeds p x y <->
     (exists svc, svc ∈ services /\ svc_External svc = false /\ is_Some (svc_Build svc) /\
        let slug := service_slug services svc in
        ((x = "build-" +:+ slug /\ y = "push-" +:+ slug) \/ (x = "push-" +:+ slug /\ y = "deploy-" +:+ slug))) \/
     (exists a b, depends services a b /\ x = "deploy-" +:+ service_slug services a /\ y = "deploy-" +:+ service_slug services b)).
Proof.
  intros services Hlen Hnd Hc. destruct (compose_pipeline_spec yaml_Marshal quote app workdir registry ts cache opts
    services Hlen Hnd graph id now p eq_refl Hc) as (Hids & _ & Hf).
  split_and!; [rewrite Hids; by apply compose_ids_NoDup| |exact Hf].
  intros x. rewrite Hids, list_elem_of_bind. split.
  - intros (svc & Hx%elem_of_svc_ids & Hs). destruct Hx. by exists svc.
  - intros (svc & Hs & Hx). exists svc. by rewrite elem_of_svc_ids.
Qed.

(** A compose deployment whose stages reference no outputs is accepted exactly
    when its services do not wait for each other in a circle: the check that the
    deployment makes for itself agrees with the one on its [depends_on] graph, in
    which external and unknown services do not count. *)
Theorem compose_accepted_iff_acyclic graph id runID now uuid p :
  let services := g_Services graph in
  Z.of_nat (length services) < 2 ^ 63 -> NoDup (svc_Name <$> services) ->
  compose_pipeline yaml_Marshal quote app workdir registry ts cache opts graph id now = Ok p ->
  (forall s, s ∈ p_Stages p -> stage_refs s = []) ->
  (exists run, synthesizePipelineFromCompose yaml_Marshal quote app workdir registry ts cache opts graph id runID now uuid = Ok (p, run))
  <-> ~ (exists svc, tc (depends services) svc svc).
Proof.
  intros services Hlen Hnd Hc Hrefs. pose proof (compose_pipeline_spec yaml_Marshal quote app workdir registry ts cache opts
    services Hlen Hnd graph id now p eq_refl Hc) as (Hids & Hcond & Hf).
  assert (valid_pipeline p <-> ~ cyclic services) as Hv.
  { rewrite <- compose_edge_cyclic by done. split.
    - intros [_ _ _ _ Hac] [x Hx]. apply (Hac x). by apply tc_flip, (tc_ext _ _ Hf).
    - intros Hac. split.
      + rewrite Hids. by apply compose_ids_NoDup.
      + intros x y Hxy%Hf. destruct (compose_edge_declared services x y Hlen Hnd Hxy) as [(a & Ha & Hx) (b & Hb & Hy)].
        rewrite Hids, !list_elem_of_bind. split; [exists a|exists b]; by rewrite elem_of_svc_ids.
      + intros e He. by rewrite (Hcond e He).
      + intros s i Hs. rewrite (Hrefs s Hs). by intros ?%not_elem_of_nil.
      + intros x Hx%tc_flip. apply Hac. exists x. by apply (tc_ext _ _ Hf). }
  unfold synthesizePipelineFromCompose, BuildDAGFromPipeline. rewrite Hc. rewrite <- ValidatePipelineDAG_valid in Hv.
  unfold cyclic in Hv. rewrite <- Hv. destruct (ValidatePipelineDAG p) as [|i l]; [by split; [|eexists]|].
  split; [by intros [? ?]|done].
Qed.
End compose_properties.

(** ** What clients can read of a deployment *)

Section view.
Context `{RO : RangeOrder}.
Variable yaml_Marshal : list (string * string) -> option string.
Variable quote : string -> string.
Variable parseNamed : string -> bool.

Definition view_stage (s : Stage) : Stage :=
  mkStage (st_ID s) (st_Name s) (st_Type s) (view_config (st_Config s)) (st_EnvironmentID s) (st_Group s).

Lemma const_fmap_dom {A} (c : A) (m m' : gmap string A) : dom m = dom m' -> (fun _ => c) <$> m = (fun _ => c) <$> m'.
Proof.
  intros Hd. apply map_eq. intros k. rewrite !lookup_fmap.
  destruct (m !! k) eqn:H, (m' !! k) eqn:H'; [done| | |done]; exfalso.
  - apply elem_of_dom_2 in H. rewrite Hd in H. by apply not_elem_of_dom in H'.
  - apply elem_of_dom_2 in H'. rewrite <- Hd in H'. by apply not_elem_of_dom in H.
Qed.

Lemma mergeEnv_dom e e' o : dom e = dom e' -> dom (mergeEnv e o) = dom (mergeEnv e' o).
Proof. intros Hd. unfold mergeEnv. by rewrite !dom_union_L, Hd. Qed.

Lemma manifest_not_empty app image env proxyHost class :
  (defaultKubernetesManifest yaml_Marshal app image env proxyHost class =s "") = false.
Proof. done. Qed.

Lemma service_manifest_not_empty name svc image env proxyHost class :
  (composeServiceManifest yaml_Marshal quote name svc image env proxyHost class =s "") = false.
Proof. done. Qed.

Section two_environments.
Variables (e e' : gmap string string) (proxy : ProxyConfig) (file : string).
Hypothesis Hdom : dom e = dom e'.

Lemma view_deploy_stage app svc slug image :
  view_stage (deploy_stage yaml_Marshal quote app (mkOpts e proxy file) svc slug image) =
  view_stage (deploy_stage yaml_Marshal quote app (mkOpts e' proxy file) svc slug image).
Proof.
  unfold deploy_stage, view_stage, view_config, service_config, runtime, compose_runtime. cbn.
  rewrite (const_fmap_dom _ _ _ (mergeEnv_dom e e' (svc_Environment svc) Hdom)).
  destruct (_ =s deployRuntimeKubernetes); [by rewrite !service_manifest_not_empty|done].
Qed.

Abbreviation loop app workdir registry ts cache env :=
  (add_services yaml_Marshal quote app workdir registry ts cache (mkOpts env proxy file)).

Lemma view_add_services app workdir registry ts cache slugOf services : forall stages stages1 edges deployed st st',
  view_stage <$> stages = view_stage <$> stages1 ->
  loop app workdir registry ts cache e slugOf services (stages, edges, deployed) = Ok st ->
  loop app workdir registry ts cache e' slugOf services (stages1, edges, deployed) = Ok st' ->
  view_stage <$> st.1.1 = view_stage <$> st'.1.1 /\ st.1.2 = st'.1.2 /\ st.2 = st'.2.
Proof.
  induction services as [|svc services IH]; intros stages stages1 edges deployed st st' Hv; cbn [add_services].
  - intros [= <-] [= <-]. done.
  - unfold add_service. destruct (svc_External svc); [by apply IH|].
    destruct (svc_Build svc) as [b|].
    + destruct (build_stages _ _ _ _ _ _ _ _) as [[built image]|]; [|done]. apply IH.
      rewrite !fmap_app, Hv. cbn [fmap list_fmap]. by rewrite view_deploy_stage.
    + apply IH. rewrite !fmap_app, Hv. cbn [fmap list_fmap]. by rewrite view_deploy_stage.
Qed.

Lemma view_compose app workdir registry ts cache graph id runID now uuid p p' run run' :
  synthesizePipelineFromCompose yaml_Marshal quote app workdir registry ts cache (mkOpts e proxy file) graph id runID now uuid = Ok (p, run) ->
  synthesizePipelineFromCompose yaml_Marshal quote app workdir registry ts cache (mkOpts e' proxy file) graph id runID now uuid = Ok (p', run') ->
  DeploymentViewPipeline p = DeploymentViewPipeline p'.
Proof.
  unfold synthesizePipelineFromCompose, compose_pipeline.
  assert (runtime app (mkOpts e proxy file) = runtime app (mkOpts e' proxy file)) as <- by done.
  destruct (runtime _ _ =s ""); [done|].
  destruct (add_services _ _ _ _ _ _ _ (mkOpts e proxy file) _ _ _) as [[[stages edges] deployed]|] eqn:H1; [|done].
  destruct (add_services _ _ _ _ _ _ _ (mkOpts e' proxy file) _ _ _) as [[[stages' edges'] deployed']|] eqn:H2; [|done].
  destruct (view_add_services _ _ _ _ _ _ _ [] [] [] ∅ _ _ eq_refl H1 H2) as (Hs & He & Hd). cbn in Hs, He, Hd. subst edges' deployed'.
  destruct (BuildDAGFromPipeline _); [|done]. intros [= <- _]. destruct (BuildDAGFromPipeline _); [|done]. intros [= <- _].
  unfold DeploymentViewPipeline, new_pipeline. cbn. f_equal. exact Hs.
Qed.

Lemma view_image app plan workdir tag cache now uuid :
  DeploymentViewPipeline (synthesizePipeline yaml_Marshal app plan workdir tag cache (mkOpts e proxy file) now uuid).1 =
  DeploymentViewPipeline (synthesizePipeline yaml_Marshal app plan workdir tag cache (mkOpts e' proxy file) now uuid).1.
Proof.
  unfold synthesizePipeline, DeploymentViewPipeline, new_pipeline. cbn.
  destruct (_ =s DeployTargetKubernetes); unfold view_config, manifest_config, runtime_config; cbn;
    rewrite (const_fmap_dom _ _ _ (mergeEnv_dom e e' ∅ Hdom)); [|done].
  by rewrite !manifest_not_empty.
Qed.
End two_environments.

(** A deployer with another resolver. *)
Definition with_resolver (r : option AppEnvResolver) (d : AppDeployer) : AppDeployer :=
  mkDeployer (d_Registry d) (d_CacheRef d) (d_Deploys d) (d_Apps d) r (d_Proxy d) (d_SavePipeline d) (d_SaveRun d)
    (d_CheckExecution d) (d_Targets d).

Abbreviation plan_deploy' := (plan_deploy yaml_Marshal quote parseNamed).
Abbreviation Deploy' := (Deploy yaml_Marshal quote parseNamed).

Lemma saved_view d o app runID v : SavePipeline v ∈ (Deploy' d o app runID).1 ->
  exists p run, plan_deploy' d o app runID = Ok (p, run) /\ v = DeploymentViewPipeline p.
Proof.
  unfold Deploy, execute_and_record. destruct (plan_deploy' d o app runID) as [[p run]|e]; [|by intros ?%not_elem_of_nil].
  intros H. exists p, run. split; [done|]. unfold persistDeployedURL in H. repeat case_match; cbn [fst] in H; simplify_eq;
    repeat (apply elem_of_app in H as [H|H] || apply elem_of_cons in H as [H|H] || apply not_elem_of_nil in H); simplify_eq; try done.
Qed.

Lemma plan_view d r r' o app runID e e' p p' run run' :
  Resolve r app = Ok e -> Resolve r' app = Ok e' -> dom e = dom e' ->
  o_compose o (deploy_plan o app) e = o_compose o (deploy_plan o app) e' ->
  plan_deploy' (with_resolver r d) o app runID = Ok (p, run) -> plan_deploy' (with_resolver r' d) o app runID = Ok (p', run') ->
  DeploymentViewPipeline p = DeploymentViewPipeline p'.
Proof.
  intros Hr Hr' Hdom Hc. unfold plan_deploy, preflight, check_execution. cbn [d_Targets d_CheckExecution d_EnvResolver with_resolver].
  rewrite Hr, Hr'. destruct (ValidateAppDeployment _ _); [done|]. destruct (CheckAppTarget _ _); [done|].
  destruct (match d_CheckExecution d with None => None | Some f => f app false end); [done|].
  destruct (a_GitHubRepo app =s ""); [done|]. destruct (checkout o app) as [workdir|]; [|done].
  assert (forall p1 p2, DeploymentViewPipeline p1 = DeploymentViewPipeline p2 -> forall id,
    DeploymentViewPipeline (set_pipeline_id id p1) = DeploymentViewPipeline (set_pipeline_id id p2)) as Hset.
  { intros p1 p2 H id. unfold DeploymentViewPipeline, set_pipeline_id in *. cbn. injection H. intros. f_equal; congruence. }
  destruct (bp_Kind (deploy_plan o app) =s BuildPlanCompose).
  - unfold plan_compose. rewrite <- Hc. destruct (o_compose o _ e) as [[[|msg l] graph]|]; [|done..].
    destruct (if dt_Kind _ =s _ then _ else _) as [file|]; [|done].
    change (deploy_registry (with_resolver r d) app) with (deploy_registry d app).
    change (deploy_registry (with_resolver r' d) app) with (deploy_registry d app). cbn [d_CacheRef d_Proxy with_resolver].
    destruct (synthesizePipelineFromCompose _ _ _ _ _ _ _ (mkOpts e _ _) _ _ _ _ _) as [[p1 run1]|] eqn:H1; [|done].
    destruct (synthesizePipelineFromCompose _ _ _ _ _ _ _ (mkOpts e' _ _) _ _ _ _ _) as [[p2 run2]|] eqn:H2; [|done].
    pose proof (view_compose e e' _ _ Hdom _ _ _ _ _ _ _ _ _ _ _ _ _ _ H1 H2) as Hv.
    apply (Hset p1 p2) with (id := ComposePipelineID runID (a_ID app) (o_ts o)) in Hv.
    intros H3 H4. clear Hset. repeat case_match; cbn zeta in *; congruence.
  - unfold plan_image. destruct (bp_Kind _ =s _); [done|]. destruct (o_repositoryPath o _); [done|].
    cbn [d_CacheRef d_Proxy with_resolver]. change (deploy_tag (with_resolver r d) o app) with (deploy_tag d o app).
    change (deploy_tag (with_resolver r' d) o app) with (deploy_tag d o app).
    pose proof (view_image e e' (d_Proxy d) "" Hdom app (deploy_plan o app) workdir (deploy_tag d o app) (cacheSpec (d_CacheRef d)) (o_now o) (o_runUUID o)) as Hv.
    destruct (synthesizePipeline _ _ _ _ _ _ (mkOpts e _ _) _ _) as [p1 run1].
    destruct (synthesizePipeline _ _ _ _ _ _ (mkOpts e' _ _) _ _) as [p2 run2]. cbn [fst] in Hv.
    apply (Hset p1 p2) with (id := ComposePipelineID runID (a_ID app) (o_ts o)) in Hv.
    intros H3 H4. clear Hset. repeat case_match; cbn zeta in *; congruence.
Qed.

(** What clients can read of a deployment does not depend on the values of its
    environment: with two environments that define the same variables, and a
    compose file that resolves to the same services with both, the pipelines stored
    are the same; and the executor refuses to run what is stored, unless it has
    no stages.  (A compose file that interpolates a value into an image, a port or a
    label does put it in the stored pipeline.) *)
Theorem saved_view_hides_values `{RunState.LoopFSM} d r r' o app runID e e' v v' fl run now :
  Resolve r app = Ok e -> Resolve r' app = Ok e' -> dom e = dom e' ->
  o_compose o (deploy_plan o app) e = o_compose o (deploy_plan o app) e' ->
  SavePipeline v ∈ (Deploy' (with_resolver r d) o app runID).1 ->
  SavePipeline v' ∈ (Deploy' (with_resolver r' d) o app runID).1 ->
  v = v' /\ (p_Stages v <> [] -> exists res run', begin_execute fl v run now = Refused res run' review_only_err).
Proof.
  intros Hr Hr' Hdom Hc (p & run1 & Hp & ->)%saved_view (p' & run2 & Hp' & ->)%saved_view. split.
  - by eapply (plan_view d r r' o app runID e e').
  - intros Hne. unfold begin_execute. destruct (p_Stages p) as [|s l] eqn:Hs; [by unfold DeploymentViewPipeline in Hne; cbn in Hne; rewrite Hs in Hne|].
    unfold DeploymentViewPipeline. cbn [p_Stages]. rewrite Hs. cbn [fmap list_fmap existsb st_Config view_config cfg_ReviewOnly orb].
    destruct (finalize _ _ _ _) as [res run']. by exists res, run'.
Qed.

Definition recorded (c : call) : option (string * RunStatus) :=
  match c with RecordDeploy r => Some (d_RunID r, d_Status r) | _ => None end.
Definition executed (c : call) : option (Pipeline * PipelineRun) :=
  match c with ExecuteRun p run => Some (p, run) | _ => None end.

Lemma preflight_checked d o app runID r : plan_deploy' d o app runID = Ok r ->
  ValidateAppDeployment parseNamed app = None /\ CheckAppTarget (d_Targets d) (a_DeployTarget app) = None.
Proof. unfold plan_deploy, preflight. destruct (ValidateAppDeployment _ _); [done|]. by destruct (CheckAppTarget _ _). Qed.

(** A deployment executes at most one pipeline.  It does so only for an
    application that passed the checks, on an available target, after the copy for
    clients was stored (where a store is wired); it then writes one history row,
    with the run's ID and final status, and stores the public URL only when the run
    succeeded.  A deployment that executes nothing records nothing and is an
    error. *)
Theorem Deploy_executes_once d o app runID :
  let '(calls, res) := Deploy' d o app runID in
  match omap executed calls with
  | [] => omap recorded calls = [] /\ exists e, res = Err e
  | [(p, run)] =>
      let run' := (o_execute o p run).2 in
      ValidateAppDeployment parseNamed app = None /\ CheckAppTarget (d_Targets d) (a_DeployTarget app) = None /\
      omap recorded calls = (if d_Deploys d then [(run_ID run', run_Status run')] else []) /\
      (d_SavePipeline d = true -> exists rest, calls = SavePipeline (DeploymentViewPipeline p) :: rest) /\
      (forall url, UpdateDeployedURL url ∈ calls -> run_Status run' = RunStatusSuccess)
  | _ => False
  end.
Proof.
  unfold Deploy, execute_and_record. destruct (plan_deploy' d o app runID) as [[p run]|e] eqn:Hp; [|cbn; by split; [|exists e]].
  apply preflight_checked in Hp as [Hv Ht].
  set (run1 := if d_SaveRun d then _ else run).
  destruct (if d_SavePipeline d then o_savePipeline o else None) as [msg|].
  { destruct (d_SavePipeline d); cbn; (split; [done|by eexists]). }
  destruct (if d_SaveRun d then o_saveRun o else None) as [msg|].
  { destruct (d_SavePipeline d), (d_SaveRun d); cbn; (split; [done|by eexists]). }
  destruct (o_execute o p run1) as [err run'] eqn:He.
  assert (forall l, omap executed ((if d_Deploys d then [RecordDeploy l] else [])) = []) as H1 by (by destruct (d_Deploys d)).
  assert (forall q, omap executed (persistDeployedURL d q) = [] /\ omap recorded (persistDeployedURL d q) = []) as Hurl
    by (intros q; unfold persistDeployedURL; by destruct (_ || _)).
  destruct err as [msg|]; destruct (d_SavePipeline d), (d_SaveRun d), (d_Deploys d); cbn; try destruct (run_Status run' =s RunStatusSuccess) eqn:Hst;
    rewrite ?(proj1 (Hurl p)), ?(proj2 (Hurl p)); cbn; rewrite ?He; cbn;
    (split_and!; [done|done|done|by eauto|]; intros url Hin; repeat (apply elem_of_cons in Hin as [Hin|Hin]; [done|]));
    by first [apply not_elem_of_nil in Hin|reflect_bools].
Qed.
End view.

(** ** A compose application *)

Section demo.
Local Existing Instance range_default.
Local Existing Instance RunState.table_engine.

Definition no_yaml (l : list (string * string)) : option string := Some (String.concat "" ((fun '(k, v) => "- name: " +:+ k +:+ nl +:+ "  value: " +:+ v +:+ nl) <$> l)).
Definition plain_quote (s : string) : string := s.

Definition service_of (name : string) (build : option ComposeBuild) (deps : list string) : ComposeService :=
  mkComposeService name "postgres:16" build ["8080:80"] {["PORT" := "80"]} deps [] [] "" [] None "" "" ∅ "default" None false.

Definition local_build : option ComposeBuild := Some (mkComposeBuild "" "./api" "" ∅).

Definition shop_graph : ComposeGraph :=
  mkComposeGraph [service_of "api" local_build ["db"]; service_of "API" None ["api"]; service_of "db" None []] [] [] [].
Definition circular_graph : ComposeGraph :=
  mkComposeGraph [service_of "api" None ["db"]; service_of "db" None ["api"]] [] [] [].

Definition shop_plan : BuildPlan := mkBuildPlan BuildPlanCompose "compose.yml" ∅ [] "" 0 [] [] ∅.
Definition shop_app : App :=
  mkApp "shop" "Shop" "" "org/shop" "main" (Some shop_plan) (demo_target "") "" "dev" "" false false (mkConfig "" 0 false 0) 0 0 0
    AppHealthUnknown None "" "".

Definition shop_opts (env : gmap string string) : synthOpts := mkOpts env (mkProxy "" "" "" "") "".

Definition shop_pipeline (g : ComposeGraph) : result synth_error Pipeline :=
  compose_pipeline no_yaml plain_quote shop_app "/src" "registry" 7 None (shop_opts ∅) g "app-shop" 0.

Example shop_stages :
  match shop_pipeline shop_graph with
  | Ok p => (stage_ids p, pairs (p_Edges p))
  | Err _ => ([], [])
  end = (["build-api"; "push-api"; "deploy-api"; "deploy-api-2"; "deploy-db"],
         [("build-api", "push-api"); ("push-api", "deploy-api"); ("deploy-db", "deploy-api"); ("deploy-api", "deploy-api-2")]).
Proof. vm_compute. reflexivity. Qed.

(** The IDs of stages are told apart, the workloads are not: two services whose names
    differ in case only are deployed over each other. *)
Example colliding_workloads :
  match shop_pipeline shop_graph with
  | Ok p => (fun s => cfg_RuntimeName (st_Config s)) <$> filter (fun s => st_Type s = StageTypeDeploy) (p_Stages p)
  | Err _ => []
  end = ["shop-api"; "shop-api"; "shop-db"].
Proof. vm_compute. reflexivity. Qed.

Lemma shop_names : NoDup (svc_Name <$> g_Services shop_graph).
Proof. vm_compute. repeat constructor; set_solver. Qed.
Lemma circular_names : NoDup (svc_Name <$> g_Services circular_graph).
Proof. vm_compute. repeat constructor; set_solver. Qed.
Lemma shop_length : Z.of_nat (length (g_Services shop_graph)) < 2 ^ 63.
Proof. done. Qed.
Lemma circular_length : Z.of_nat (length (g_Services circular_graph)) < 2 ^ 63.
Proof. done. Qed.

Lemma compose_pipeline_graph_witness :
  exists p, shop_pipeline shop_graph = Ok p /\ NoDup (stage_ids p) /\ feeds p "deploy-db" "deploy-api".
Proof.
  destruct (shop_pipeline shop_graph) as [p|e] eqn:Hp; [|vm_compute in Hp; discriminate].
  destruct (compose_pipeline_graph no_yaml plain_quote shop_app "/src" "registry" 7 None (shop_opts ∅) shop_graph "app-shop" 0 p
    shop_length shop_names Hp) as (Hnd & _ & Hf).
  exists p. split; [reflexivity|split; [exact Hnd|]]. apply Hf. right.
  exists (service_of "db" None []), (service_of "api" local_build ["db"]). split; [|vm_compute; split; reflexivity].
  split_and!; [right; right; left|left|reflexivity|reflexivity|left].
Defined.

Lemma compose_accepted_iff_acyclic_witness :
  exists p, shop_pipeline circular_graph = Ok p /\
    ~ (exists run, synthesizePipelineFromCompose no_yaml plain_quote shop_app "/src" "registry" 7 None (shop_opts ∅) circular_graph
         "app-shop" "" 0 "u" = Ok (p, run)).
Proof.
  destruct (shop_pipeline circular_graph) as [p|e] eqn:Hp; [|vm_compute in Hp; discriminate].
  exists p. split; [reflexivity|]. intros H.
  apply (compose_accepted_iff_acyclic no_yaml plain_quote shop_app "/src" "registry" 7 None (shop_opts ∅) circular_graph "app-shop" "" 0 "u" p
    circular_length circular_names Hp) in H.
  - apply H. exists (service_of "api" None ["db"]). apply (tc_l _ _ (service_of "db" None ["api"])); [|apply tc_once];
      (split_and!; [| |reflexivity|reflexivity|left]); cbn; set_solver.
  - intros s Hs. assert (forallb (fun s => bool_decide (stage_refs s = [])) (p_Stages p) = true) as Hall
      by (vm_compute in Hp; injection Hp as <-; vm_compute; reflexivity).
    rewrite forallb_forall in Hall. by apply list_elem_of_In, Hall, bool_decide_eq_true in Hs.
Defined.

(** Two environments with the same keys. *)
Definition resolver (password : string) : option AppEnvResolver :=
  Some (mkResolver (Some (fun id => Ok (mkEnvironment id (Some {["MODE" := "dev"]}) None)))
    (Some (mkSecrets (fun _ => Ok ["PASSWORD"]) (fun _ _ => Ok password)))).

Definition deployer (r : option AppEnvResolver) : AppDeployer :=
  mkDeployer "registry" "" true true r (mkProxy "" "" "" "") true true None ∅.

Definition answers : outside :=
  mkOutside (Ok "/src") (Ok "") shop_plan (fun _ _ => Ok ([], shop_graph)) (Ok "") (fun _ => None) 7 0 "u" "v" None None
    (fun p run => (None, run_set_Status RunStatusSuccess run)).

Definition deployed (password : string) : list call * result deploy_error (Pipeline * PipelineRun) :=
  Deploy no_yaml plain_quote (fun _ => true) (with_resolver (resolver password) (deployer None)) answers shop_app "r1".

Example deployed_calls :
  (fun c => match c with SavePipeline _ => "pipeline" | SaveRun _ => "run" | ExecuteRun _ _ => "execute" | RecordDeploy r => d_Status r
                 | UpdateDeployedURL u => u end) <$> (deployed "hunter2").1 = ["pipeline"; "run"; "execute"; "success"].
Proof. vm_compute. reflexivity. Qed.

Definition saved_in (calls : list call) : list Pipeline := omap (fun c => match c with SavePipeline v => Some v | _ => None end) calls.

Lemma saved_in_spec calls v : v ∈ saved_in calls -> SavePipeline v ∈ calls.
Proof. unfold saved_in. rewrite list_elem_of_omap. intros (c & Hc & Hv). by destruct c; simplify_eq. Qed.

Lemma saved_once l : length (saved_in l) = 1%nat -> exists v, saved_in l = [v] /\ SavePipeline v ∈ l.
Proof.
  intros H. destruct (saved_in l) as [|v [|]] eqn:Hs; try done. exists v. split; [done|]. apply saved_in_spec. rewrite Hs. by left.
Qed.

Lemma resolved_in password : exists e, Resolve (resolver password) shop_app = Ok e /\ dom e = {["MODE"; "PASSWORD"]}.
Proof. eexists. split; [reflexivity|]. vm_compute. reflexivity. Qed.

Lemma saved_view_hides_values_witness :
  exists v, saved_in (deployed "hunter2").1 = [v] /\ saved_in (deployed "correct horse").1 = [v].
Proof.
  destruct (saved_once (deployed "hunter2").1 ltac:(vm_compute; reflexivity)) as (v & H1 & Hv).
  destruct (saved_once (deployed "correct horse").1 ltac:(vm_compute; reflexivity)) as (v' & H2 & Hv').
  exists v. split; [exact H1|]. rewrite H2. f_equal. symmetry.
  destruct (resolved_in "hunter2") as (e & He & Hd). destruct (resolved_in "correct horse") as (e' & He' & Hd').
  destruct (saved_view_hides_values no_yaml plain_quote (fun _ => true) (deployer None) (resolver "hunter2") (resolver "correct horse")
    answers shop_app "r1" e e' v v' (mkFlags false false 0) (new_run "r1" "p" []) 0 He He' (eq_trans Hd (eq_sym Hd')) eq_refl Hv Hv')
    as [Heq _]. exact Heq.
Defined.
End demo.
