(* ===== verification/LogStore.v ===== *)
(** * The stage log store: [internal/logstore/logstore.go], [internal/logstore/memory.go]

    A bounded in-memory store of log lines, one stream per stage of a run: a
    stream drops its oldest lines above a byte cap, and the stream least recently
    written to is dropped above a stream cap.  Each operation holds the store's
    lock, so operations are atomic; what [Read] returns is a copy. *)

From S2P Require Import Prelude GoStr.
From Stdlib Require Import Ascii.
Local Open Scope Z_scope.

Record Entry := mkEntry { en_Seq : Z; en_TS : Z; en_Line : string }.

#[export] Instance Entry_eq_dec : EqDecision Entry.
Proof. solve_decision. Defined.

(** ** The store *)

(** A stream's retained entries and the bytes of their lines. *)
Record stream := mkStream { s_entries : list Entry; s_bytes : Z }.

(** The streams by key, and their keys from the least to the most recently
    appended ([lru]). *)
Record Memory := mkMemory {
  m_maxBytesPerStage : Z; m_maxStreams : Z; m_streams : gmap string stream; m_lru : list string
}.

Definition NewMemory (maxBytesPerStage maxStreams : Z) : Memory :=
  mkMemory (if maxBytesPerStage <? 1 then 1 else maxBytesPerStage) (if maxStreams <? 1 then 1 else maxStreams) ∅ [].

Definition streamKey (runID stageID : string) : string := runID +:+ chr (ascii_of_nat 0) +:+ stageID.

(** The ring buffer's loop. *)
Fixpoint drop_oldest (cap : Z) (entries : list Entry) (bytes : Z) : stream :=
  match entries with
  | e :: ((_ :: _) as rest) => if cap <? bytes then drop_oldest cap rest (bytes - str_len (en_Line e)) else mkStream entries bytes
  | _ => mkStream entries bytes
  end.

(** The loop over whole streams: one round per key of the list, front first. *)
Fixpoint evict_streams (cap : Z) (lru : list string) (streams : gmap string stream) : list string * gmap string stream :=
  if cap <? Z.of_nat (size streams) then
    match lru with
    | [] => ([], streams)
    | victim :: lru => evict_streams cap lru (delete victim streams)
    end
  else (lru, streams).

Definition Append (m : Memory) (runID stageID : string) (e : Entry) : Memory :=
  let key := streamKey runID stageID in
  let '(s, lru) :=
    match m_streams m !! key with
    | None => (mkStream [] 0, m_lru m ++ [key])
    | Some s => (s, filter (fun k => k <> key) (m_lru m) ++ [key])
    end in
  let s := drop_oldest (m_maxBytesPerStage m) (s_entries s ++ [e]) (s_bytes s + str_len (en_Line e)) in
  let '(lru, streams) := evict_streams (m_maxStreams m) lru (<[key := s]> (m_streams m)) in
  mkMemory (m_maxBytesPerStage m) (m_maxStreams m) streams lru.

(** No entries is a nil slice: the empty list. *)
Definition Read (m : Memory) (runID stageID : string) (since : Z) : list Entry :=
  match m_streams m !! streamKey runID stageID with
  | None => []
  | Some s => filter (fun e => since < en_Seq e) (s_entries s)
  end.

(** ** Configuration *)

Definition defaultMaxBytesPerStage : Z := Z.shiftl 1 20.
Definition defaultMaxStreams : Z := 256.

(** [v] is the variable's value. *)
Definition envInt (v : string) (def : Z) : Z :=
  if v =s "" then def else
  match atoi v with None => def | Some n => if n <? 1 then def else n end.

(** [FromEnv]; an unknown backend only logs a warning. *)
Definition FromEnv (getenv : string -> string) : Memory :=
  NewMemory (envInt (getenv "COOKER_LOGSTORE_MAX_BYTES") defaultMaxBytesPerStage)
            (envInt (getenv "COOKER_LOGSTORE_MAX_STREAMS") defaultMaxStreams).

(** ** Facts *)

Fixpoint line_bytes (l : list Entry) : Z :=
  match l with [] => 0 | e :: l => str_len (en_Line e) + line_bytes l end.

Lemma line_bytes_app l l' : line_bytes (l ++ l') = line_bytes l + line_bytes l'.
Proof. induction l as [|e l IH]; cbn; lia. Qed.

(** What a stream is after any append: a suffix, with its bytes, within the cap
    unless it is a single line. *)
Record stream_ok (cap : Z) (s : stream) : Prop := {
  so_nonempty : s_entries s <> [];
  so_bytes : s_bytes s = line_bytes (s_entries s);
  so_cap : s_bytes s <= cap \/ length (s_entries s) = 1%nat
}.

Lemma drop_oldest_spec cap entries : entries <> [] -> forall bytes, bytes = line_bytes entries ->
  stream_ok cap (drop_oldest cap entries bytes) /\ exists dropped, entries = dropped ++ s_entries (drop_oldest cap entries bytes).
Proof.
  induction entries as [|e [|e' rest] IH]; intros Hne bytes Hb; [done| |].
  - split; [split; [done|done|by right]|by exists []].
  - cbn [drop_oldest]. destruct (Z.ltb_spec cap bytes) as [Hc|Hc].
    + destruct (IH ltac:(done) (bytes - str_len (en_Line e))) as [Hok (dropped & Hd)]; [subst bytes; cbn; lia|].
      split; [exact Hok|]. exists (e :: dropped). cbn [app]. f_equal. exact Hd.
    + split; [split; [done|done|by left]|by exists []].
Qed.

(** *** Recency *)

(** The distinct keys of a list of appends, by their last occurrence. *)
Definition recency (keys : list string) : list string := foldl (fun lru k => filter (fun k' => k' <> k) lru ++ [k]) [] keys.

(** The last [n] elements. *)
Definition last_n {A} (n : Z) (l : list A) : list A := drop (length l - Z.to_nat n) l.

Lemma recency_app keys k : recency (keys ++ [k]) = filter (fun k' => k' <> k) (recency keys) ++ [k].
Proof. unfold recency. by rewrite foldl_app. Qed.

Lemma recency_NoDup keys : NoDup (recency keys).
Proof.
  induction keys as [|k keys IH] using rev_ind; [constructor|]. rewrite recency_app. apply NoDup_app. split_and!.
  - by apply NoDup_filter.
  - intros x [Hx _]%list_elem_of_filter ?%list_elem_of_singleton. done.
  - apply NoDup_singleton.
Qed.

Lemma filter_length_ne k (l : list string) : NoDup l -> k ∈ l -> (length (filter (fun k' => k' <> k) l) + 1 = length l)%nat.
Proof.
  induction l as [|x l IH]; intros Hnd Hk; [by apply not_elem_of_nil in Hk|]. apply NoDup_cons in Hnd as [Hx Hnd].
  destruct (decide (x = k)) as [->|Hne].
  - rewrite filter_cons_False by tauto. rewrite filter_all_ne by done. cbn. lia.
  - rewrite filter_cons_True by done. apply elem_of_cons in Hk as [?|Hk]; [done|]. cbn. rewrite <- (IH Hnd Hk). lia.
Qed.

(** Moving a key to the end, seen from the last [n] keys. *)
Lemma last_n_move n k (l : list string) : 1 <= n -> NoDup l ->
  last_n n (filter (fun k' => k' <> k) l ++ [k]) =
  last_n n (filter (fun k' => k' <> k) (last_n n l) ++ [k]).
Proof.
  intros Hn Hnd. unfold last_n at 3. set (d := (length l - Z.to_nat n)%nat).
  destruct (decide (d = 0%nat)) as [->|Hd]; [by rewrite drop_0|].
  rewrite <- (take_drop d l) at 1. rewrite filter_app, <- app_assoc.
  assert (length (drop d l) = Z.to_nat n) as Hlen by (rewrite length_drop; unfold d in *; lia).
  unfold last_n. set (f := filter (fun k' => k' <> k) (take d l)). set (g := filter (fun k' => k' <> k) (drop d l)).
  assert (Z.to_nat n <= length g + 1)%nat as Hg.
  { rewrite <- Hlen. unfold g. destruct (decide (k ∈ drop d l)) as [Hin|Hin].
    - rewrite <- (filter_length_ne k (drop d l)); [lia| |done]. rewrite <- (take_drop d l) in Hnd. by apply NoDup_app in Hnd as (_ & _ & ?).
    - rewrite filter_all_ne by done. lia. }
  rewrite !length_app. cbn [length]. rewrite drop_app_ge by lia. f_equal. lia.
Qed.

Lemma elem_of_last_n {A} n (x : A) l : x ∈ last_n n l -> x ∈ l.
Proof. unfold last_n. intros H. rewrite <- (take_drop (length l - Z.to_nat n) l). apply elem_of_app. by right. Qed.

Lemma last_n_all {A} n (l : list A) : Z.of_nat (length l) <= n -> last_n n l = l.
Proof. intros H. unfold last_n. replace (length l - Z.to_nat n)%nat with 0%nat by lia. apply drop_0. Qed.

Lemma last_n_cons {A} n x (l : list A) : 0 <= n -> n < Z.of_nat (length (x :: l)) -> last_n n (x :: l) = last_n n l.
Proof.
  intros H0 H. unfold last_n. cbn [length] in *. replace (S (length l) - Z.to_nat n)%nat with (S (length l - Z.to_nat n)) by lia. done.
Qed.

Lemma evict_streams_spec cap lru : 0 <= cap -> NoDup lru -> forall streams, dom streams = list_to_set lru ->
  let '(lru', streams') := evict_streams cap lru streams in
  lru' = last_n cap lru /\ (forall key, streams' !! key = if decide (key ∈ last_n cap lru) then streams !! key else None).
Proof.
  intros Hcap. induction lru as [|victim lru IH]; intros Hnd streams Hdom.
  - assert (streams = ∅) as -> by (apply dom_empty_inv_L; by rewrite Hdom). cbn [evict_streams]. rewrite map_size_empty.
    destruct (_ <? _); (split; [by rewrite last_n_all by (cbn; lia)|]); intros key; rewrite lookup_empty; by destruct (decide _).
  - assert (size streams = length (victim :: lru)) as Hsize.
    { rewrite <- size_dom, Hdom. by apply size_list_to_set. }
    cbn [evict_streams]. rewrite Hsize. destruct (Z.ltb_spec cap (Z.of_nat (length (victim :: lru)))) as [Hlt|Hge].
    + apply NoDup_cons in Hnd as [Hv Hnd]. specialize (IH Hnd (delete victim streams)).
      rewrite dom_delete_L, Hdom in IH. cbn [list_to_set] in IH.
      specialize (IH ltac:(set_solver)). destruct (evict_streams cap lru _) as [lru' streams']. destruct IH as [-> Hs].
      rewrite last_n_cons by done. split; [done|]. intros key. rewrite Hs. destruct (decide (key ∈ last_n cap lru)) as [Hin|]; [|done].
      rewrite lookup_delete_ne; [done|]. intros <-. apply Hv. by apply elem_of_last_n in Hin.
    + rewrite last_n_all by lia. split; [done|]. intros key. destruct (decide (key ∈ victim :: lru)) as [|Hn]; [done|].
      apply not_elem_of_dom. rewrite Hdom. by rewrite elem_of_list_to_set.
Qed.

(** ** What the store guarantees *)

(** What was appended: the run, the stage and the entry. *)
Definition history : Type := list (string * string * Entry).

Definition keys_of (h : history) : list string := (fun '(run, stage, _) => streamKey run stage) <$> h.
Definition appended (h : history) (key : string) : list Entry :=
  omap (fun '(run, stage, e) => if streamKey run stage =s key then Some e else None) h.
Definition after (m : Memory) (h : history) : Memory := foldl (fun m '(run, stage, e) => Append m run stage e) m h.

Record log_inv (bytes n : Z) (h : history) (m : Memory) : Prop := {
  li_bytes : m_maxBytesPerStage m = bytes;
  li_n : m_maxStreams m = n;
  li_lru : m_lru m = last_n n (recency (keys_of h));
  li_dom : dom (m_streams m) = list_to_set (m_lru m);
  li_streams key s : m_streams m !! key = Some s -> stream_ok bytes s /\ exists dropped, appended h key = dropped ++ s_entries s
}.

Lemma appended_snoc h run stage e key :
  appended (h ++ [(run, stage, e)]) key = appended h key ++ (if streamKey run stage =s key then [e] else []).
Proof. unfold appended. rewrite omap_app. cbn. by destruct (_ =s _). Qed.

Lemma last_n_NoDup {A} n (l : list A) : NoDup l -> NoDup (last_n n l).
Proof. intros H. unfold last_n. rewrite <- (take_drop (length l - Z.to_nat n) l) in H. by apply NoDup_app in H as (_ & _ & ?). Qed.

Lemma Append_inv bytes n h m run stage e : 1 <= n -> log_inv bytes n h m -> log_inv bytes n (h ++ [(run, stage, e)]) (Append m run stage e).
Proof.
  intros Hn [Hb Hmax Hlru Hdom Hs]. unfold Append. cbv zeta. set (key := streamKey run stage).
  assert (NoDup (m_lru m)) as Hnd by (rewrite Hlru; apply last_n_NoDup, recency_NoDup).
  set (lru1 := filter (fun k => k <> key) (m_lru m) ++ [key]).
  set (s0 := default (mkStream [] 0) (m_streams m !! key)).
  assert (match m_streams m !! key with None => (mkStream [] 0, m_lru m ++ [key])
    | Some s => (s, lru1) end = (s0, lru1)) as ->.
  { unfold s0. destruct (m_streams m !! key) as [s|] eqn:Hk; [done|]. unfold lru1. rewrite filter_all_ne; [done|].
    intros Hin. apply not_elem_of_dom in Hk. apply Hk. rewrite Hdom. by apply elem_of_list_to_set. }
  rewrite Hb, Hmax. set (s1 := drop_oldest _ _ _).
  assert (stream_ok bytes s1 /\ exists dropped, appended (h ++ [(run, stage, e)]) key = dropped ++ s_entries s1) as [Hok Hsuf].
  { assert (s_bytes s0 = line_bytes (s_entries s0) /\ exists dropped, appended h key = dropped ++ s_entries s0) as [Hb0 [d0 Hd0]].
    { unfold s0. destruct (m_streams m !! key) as [s|] eqn:Hk; cbn.
      - destruct (Hs key s Hk) as [[_ Hsb _] Hd]. done.
      - split; [done|]. exists (appended h key). by rewrite app_nil_r. }
    destruct (drop_oldest_spec bytes (s_entries s0 ++ [e]) ltac:(by destruct (s_entries s0)) (s_bytes s0 + str_len (en_Line e)))
      as [Hok [d Hd]]; [rewrite line_bytes_app; cbn; lia|].
    split; [exact Hok|]. exists (d0 ++ d). rewrite appended_snoc. unfold key. rewrite String.eqb_refl. fold key.
    by rewrite Hd0, <- !app_assoc, Hd. }
  pose proof (evict_streams_spec n lru1 ltac:(lia)) as Hev.
  assert (NoDup lru1) as Hnd1.
  { unfold lru1. apply NoDup_app. split_and!; [by apply NoDup_filter| |apply NoDup_singleton].
    intros x [Hx _]%list_elem_of_filter ?%list_elem_of_singleton. done. }
  specialize (Hev Hnd1 (<[key:=s1]> (m_streams m))). rewrite dom_insert_L, Hdom in Hev.
  specialize (Hev ltac:(unfold lru1; apply set_eq; intros x; rewrite elem_of_union, elem_of_singleton, !elem_of_list_to_set,
    elem_of_app, list_elem_of_filter, list_elem_of_singleton; destruct (decide (x = key)); tauto)).
  destruct (evict_streams n lru1 _) as [lru' streams']. destruct Hev as [-> Hst].
  assert (forall key', streams' !! key' = if decide (key' ∈ last_n n lru1) then <[key:=s1]> (m_streams m) !! key' else None) as Hst' by done.
  split; cbn [m_maxBytesPerStage m_maxStreams m_lru m_streams]; [done|done| | |].
  - unfold keys_of. rewrite fmap_app. cbn [fmap list_fmap]. rewrite recency_app. fold (keys_of h) key.
    unfold lru1. rewrite Hlru. symmetry. apply last_n_move; [done|apply recency_NoDup].
  - apply set_eq. intros key'. rewrite elem_of_dom, Hst', elem_of_list_to_set. destruct (decide (key' ∈ last_n n lru1)) as [Hin|Hin];
      [|split; [by intros [? ?]|done]]. split; [done|]. intros _. rewrite <- elem_of_dom, dom_insert_L, Hdom, elem_of_union.
    rewrite elem_of_list_to_set, elem_of_singleton. apply elem_of_last_n in Hin.
    unfold lru1 in Hin. rewrite elem_of_app, list_elem_of_filter, list_elem_of_singleton in Hin. tauto.
  - intros key' s. rewrite Hst'. destruct (decide _); [|done]. intros [[<- <-]|[Hne Hl]]%lookup_insert_Some; [by split|].
    destruct (Hs key' s Hl) as [Hok' [d Hd]]. split; [done|]. exists d. rewrite appended_snoc. fold key.
    by rewrite (proj2 (String.eqb_neq key key') Hne), app_nil_r.
Qed.

Lemma after_inv bytes n h : log_inv (Z.max 1 bytes) (Z.max 1 n) h (after (NewMemory bytes n) h).
Proof.
  induction h as [|[[run stage] e] h IH] using rev_ind.
  - split; cbn; [destruct (Z.ltb_spec bytes 1); lia|destruct (Z.ltb_spec n 1); lia|done|done|].
    intros key s. by rewrite lookup_empty.
  - unfold after. rewrite foldl_app. cbn [foldl]. apply Append_inv; [lia|exact IH].
Qed.

(** What a subscriber reads of a stage, after any sequence of appends to any
    streams: if the stage is among the streams most recently written to, as many as
    the store may keep, the lines above its cursor from a suffix of what was
    appended for it, in order, which is never empty and within the byte cap unless
    it is a single line; otherwise nothing. *)
Theorem Read_recent_suffix maxBytes maxStreams h run stage since :
  let m := after (NewMemory maxBytes maxStreams) h in
  if decide (streamKey run stage ∈ last_n (Z.max 1 maxStreams) (recency (keys_of h))) then
    exists dropped kept, appended h (streamKey run stage) = dropped ++ kept /\ kept <> [] /\
      (line_bytes kept <= Z.max 1 maxBytes \/ length kept = 1%nat) /\
      Read m run stage since = filter (fun e => since < en_Seq e) kept
  else Read m run stage since = [].
Proof.
  intros m. destruct (after_inv maxBytes maxStreams h) as [Hb Hn Hlru Hdom Hs]. fold m in Hb, Hn, Hlru, Hdom, Hs.
  unfold Read. rewrite <- Hlru. destruct (m_streams m !! streamKey run stage) as [s|] eqn:Hk.
  - assert (streamKey run stage ∈ dom (m_streams m)) as Hin by (by eapply elem_of_dom_2).
    rewrite Hdom, elem_of_list_to_set in Hin. rewrite decide_True by done.
    destruct (Hs _ s Hk) as [[Hne Hby Hcap] [d Hd]]. exists d, (s_entries s). rewrite <- Hby. by split_and!.
  - rewrite decide_False; [done|]. intros Hin. apply not_elem_of_dom in Hk. apply Hk. rewrite Hdom. by apply elem_of_list_to_set.
Qed.

(** A run ID that holds a NUL makes two stages share a stream. *)
Definition NUL : string := chr (ascii_of_nat 0).
Example keys_collide : streamKey ("a" +:+ NUL +:+ "b") "c" = streamKey "a" ("b" +:+ NUL +:+ "c").
Proof. reflexivity. Qed.

Example ring_ex :
  let line n s := mkEntry n 0 s in
  let m := after (NewMemory 6 2) [("r", "a", line 1 "abc"); ("r", "a", line 2 "def"); ("r", "b", line 1 "x"); ("r", "a", line 3 "gh");
                                  ("r", "c", line 1 "much too long")] in
  (en_Line <$> Read m "r" "a" 0, en_Line <$> Read m "r" "b" 0, en_Line <$> Read m "r" "c" 0) = (["def"; "gh"], [], ["much too long"]).
Proof. vm_compute. reflexivity. Qed.

(** ** The writer that feeds it: [internal/service/logbroadcast.go] *)

Definition StageLogChannel (runID stageID : string) : string := "stage-logs:" +:+ runID +:+ ":" +:+ stageID.

(** Which sinks are wired, the last sequence number and the partial line. *)
Record lineWriter := mkWriter { lw_broadcast : bool; lw_store : bool; lw_seq : Z; lw_partial : string }.

Definition newLineWriter (broadcast store : bool) : lineWriter := mkWriter broadcast store 0 "".

(** [for { i := bytes.IndexByte(combined, '\n') ... }]: the complete lines and the
    tail.  Each round takes at least one byte, so the length is enough fuel. *)
Fixpoint take_lines (fuel : nat) (combined : string) : list string * string :=
  match fuel with
  | O => ([], combined)
  | S fuel =>
      match cut (ascii_of_nat 10) combined with
      | None => ([], combined)
      | Some (line, rest) => let '(lines, tail) := take_lines fuel rest in (line :: lines, tail)
      end
  end.

(** [emit], for each line: the entries handed to the store and the broadcaster. *)
Fixpoint emit (clock : Z -> Z) (seq : Z) (lines : list string) : Z * list Entry :=
  match lines with
  | [] => (seq, [])
  | line :: lines =>
      let e := mkEntry (seq + 1) (clock (seq + 1)) line in
      let '(seq, es) := emit clock (seq + 1) lines in (seq, e :: es)
  end.

Definition inert (w : lineWriter) : bool := negb (lw_broadcast w) && negb (lw_store w).

Definition Write (clock : Z -> Z) (w : lineWriter) (p : string) : lineWriter * list Entry :=
  if inert w then (w, []) else
  if p =s "" then (w, []) else
  let combined := lw_partial w +:+ p in
  let '(lines, tail) := take_lines (String.length combined) combined in
  let '(seq, es) := emit clock (lw_seq w) lines in
  (mkWriter (lw_broadcast w) (lw_store w) seq tail, es).

Definition flush (clock : Z -> Z) (w : lineWriter) : lineWriter * list Entry :=
  if inert w || (lw_partial w =s "") then (w, []) else
  let '(seq, es) := emit clock (lw_seq w) [lw_partial w] in
  (mkWriter (lw_broadcast w) (lw_store w) seq "", es).

(** A stage's output, in the chunks it is written in, and the final flush. *)
Definition write_stage (clock : Z -> Z) (w : lineWriter) (chunks : list string) : list Entry :=
  let '(w, es) := foldl (fun '(w, es) p => let '(w, new) := Write clock w p in (w, es ++ new)) (w, []) chunks in
  es ++ (flush clock w).2.

(** *** Facts *)

Lemma cut_length c s a b : cut c s = Some (a, b) -> (String.length b < String.length s)%nat.
Proof.
  revert a. induction s as [|x s IH]; intros a; cbn; [done|]. destruct (Ascii.eqb x c); [intros [= <- <-]; lia|].
  destruct (cut c s) as [[a' b']|]; [|done]. intros [= <- <-]. pose proof (IH _ eq_refl). lia.
Qed.

Lemma split_on_cut c s : split_on c s = match cut c s with None => [s] | Some (a, b) => a :: split_on c b end.
Proof.
  induction s as [|x s IH]; cbn; [done|]. destruct (Ascii.eqb x c); [done|]. rewrite IH.
  by destruct (cut c s) as [[a b]|].
Qed.

Lemma take_lines_split fuel : forall s, (String.length s <= fuel)%nat ->
  let '(lines, tail) := take_lines fuel s in split_on (ascii_of_nat 10) s = lines ++ [tail].
Proof.
  induction fuel as [|fuel IH]; intros s Hs; cbn [take_lines].
  - destruct s; [done|cbn in Hs; lia].
  - rewrite split_on_cut. destruct (cut _ s) as [[line rest]|] eqn:Hc; [|done]. apply cut_length in Hc.
    specialize (IH rest ltac:(lia)). destruct (take_lines fuel rest) as [lines tail]. by rewrite IH.
Qed.

Lemma emit_spec clock seq lines : (emit clock seq lines).1 = seq + Z.of_nat (length lines) /\
  en_Line <$> (emit clock seq lines).2 = lines /\
  en_Seq <$> (emit clock seq lines).2 = (fun i => seq + Z.of_nat i) <$> List.seq 1 (length lines).
Proof.
  revert seq. induction lines as [|line lines IH]; intros seq; cbn [emit]; [cbn; split_and!; [lia|done|done]|].
  destruct (IH (seq + 1)) as (H1 & H2 & H3). destruct (emit clock (seq + 1) lines) as [seq' es]. cbn in *.
  split_and!; [lia|by rewrite H2|]. f_equal. rewrite H3, <- (seq_shift (length lines) 1), <- list_fmap_compose.
  apply list_fmap_ext. intros i x Hx. cbn. lia.
Qed.

(** A chunk boundary inside a text changes nothing. *)
Lemma split_on_app_last c a b : forall l t, split_on c a = l ++ [t] -> split_on c (a +:+ b) = l ++ split_on c (t +:+ b).
Proof.
  induction a as [|x a IH]; intros l t; cbn [split_on].
  - destruct l as [|? [|? ?]]; cbn; intros [= <-]; try done.
  - change (String x a +:+ b) with (String x (a +:+ b)). cbn [split_on]. destruct (Ascii.eqb x c) eqn:Hx.
    + destruct l as [|y l]; cbn [app]; [intros [= <- H]; by destruct a as [|z a]; cbn in H; [|destruct (Ascii.eqb z c); [|destruct (split_on c a)]]|].
      intros [= <- H]. by rewrite (IH l t H).
    + destruct (split_on c a) as [|w ws] eqn:Ha; [by destruct (split_on_cut c a); rewrite split_on_cut in Ha; destruct (cut c a) as [[]|]|].
      destruct l as [|y l]; cbn [app].
      * intros [= <- ->]. rewrite (IH [] w eq_refl). change (String x w +:+ b) with (String x (w +:+ b)). cbn [app split_on]. by rewrite Hx.
      * intros [= <- ->]. by rewrite (IH (w :: l) t eq_refl).
Qed.

(** What a wired writer and the entries it has emitted hold once [text] is written. *)
Definition written (text : string) (w : lineWriter) (es : list Entry) : Prop :=
  split_on (ascii_of_nat 10) text = (en_Line <$> es) ++ [lw_partial w] /\
  lw_seq w = Z.of_nat (length es) /\ en_Seq <$> es = Z.of_nat <$> List.seq 1 (length es) /\ inert w = false.

Lemma str_app_nil_r s : s +:+ "" = s.
Proof. induction s as [|c s IH]; [done|]. change (String c s +:+ "") with (String c (s +:+ "")). by rewrite IH. Qed.

Lemma emit_length clock seq lines : length (emit clock seq lines).2 = length lines.
Proof. destruct (emit_spec clock seq lines) as (_ & Hl & _). rewrite <- Hl at 2. by rewrite length_fmap. Qed.

(** Emitting goes on numbering where the entries so far stopped. *)
Lemma emit_seqs clock (es : list Entry) lines : en_Seq <$> es = Z.of_nat <$> List.seq 1 (length es) ->
  en_Seq <$> es ++ (emit clock (Z.of_nat (length es)) lines).2 =
    Z.of_nat <$> List.seq 1 (length (es ++ (emit clock (Z.of_nat (length es)) lines).2)).
Proof.
  intros Hes. destruct (emit_spec clock (Z.of_nat (length es)) lines) as (_ & _ & Hs).
  rewrite fmap_app, Hs, Hes, length_app, emit_length, seq_app, fmap_app. f_equal.
  clear Hs Hes. generalize 1%nat as k. induction (length lines) as [|n IH]; intros k; [done|]. cbn. f_equal; [lia|].
  apply (IH (S k)).
Qed.

Lemma Write_written clock text w es p : written text w es ->
  written (text +:+ p) (Write clock w p).1 (es ++ (Write clock w p).2).
Proof.
  intros (Hsp & Hseq & Hes & Hin). unfold Write. rewrite Hin. pose proof (split_on_app_last _ text p _ _ Hsp) as Happ.
  destruct (String.eqb_spec p "") as [->|_]; [cbn; rewrite app_nil_r, str_app_nil_r; by split_and!|].
  pose proof (take_lines_split _ (lw_partial w +:+ p) (le_n _)) as Ht.
  destruct (take_lines _ _) as [lines tail]. rewrite Hseq. pose proof (emit_seqs clock es lines Hes) as Hs.
  destruct (emit_spec clock (Z.of_nat (length es)) lines) as (H1 & H2 & _). pose proof (emit_length clock (Z.of_nat (length es)) lines) as Hl.
  destruct (emit clock (Z.of_nat (length es)) lines) as [seq new]. cbn [fst snd] in *. split; [|split_and!].
  - by rewrite Happ, Ht, fmap_app, H2, app_assoc.
  - cbn. rewrite H1, length_app, Hl. lia.
  - done.
  - done.
Qed.

Lemma chunks_written clock chunks : forall text w es, written text w es ->
  let r := foldl (fun '(w, es) p => let '(w, new) := Write clock w p in (w, es ++ new)) (w, es) chunks in
  written (foldl (fun t p => t +:+ p) text chunks) r.1 r.2.
Proof.
  induction chunks as [|p chunks IH]; intros text w es Hw; [done|]. cbn [foldl].
  pose proof (Write_written clock text w es p Hw) as H. destruct (Write clock w p) as [w' new]. by apply IH.
Qed.

(** The reference: the lines of a text, a last line without a newline included. *)
Definition text_lines (text : string) : list string :=
  let pieces := split_on (ascii_of_nat 10) text in
  if decide (last pieces = Some "") then removelast pieces else pieces.

(** C36. However a stage's output is cut into writes, the entries its writer hands to
    the log store and the broadcaster are, after the final flush, the lines of the
    whole output in order, an unterminated last line included and no line split or
    joined at a write boundary, numbered 1, 2, 3, ... *)
Theorem lines_independent_of_chunks clock broadcast store chunks : broadcast || store = true ->
  let es := write_stage clock (newLineWriter broadcast store) chunks in
  en_Line <$> es = text_lines (foldl (fun t p => t +:+ p) "" chunks) /\
  en_Seq <$> es = Z.of_nat <$> List.seq 1 (length es).
Proof.
  intros Hon es. assert (written "" (newLineWriter broadcast store) []) as H0.
  { split_and!; try done. by destruct broadcast, store. }
  pose proof (chunks_written clock chunks _ _ _ H0) as H. cbv zeta in H. subst es. unfold write_stage.
  destruct (foldl _ (newLineWriter broadcast store, []) chunks) as [w es]. cbn [fst snd] in H.
  destruct H as (Hsp & Hseq & Hes & Hin). unfold text_lines, flush. rewrite Hin, Hsp, last_snoc. cbn [orb].
  destruct (String.eqb_spec (lw_partial w) "") as [Hp|Hp].
  - rewrite decide_True by congruence. cbn [snd]. rewrite app_nil_r, removelast_last. done.
  - rewrite decide_False by congruence. rewrite Hseq. pose proof (emit_seqs clock es [lw_partial w] Hes) as Hs.
    cbn [emit snd] in *. by rewrite fmap_app.
Qed.
Lemma lines_independent_of_chunks_witness : true || false = true /\
  en_Line <$> write_stage id (newLineWriter true false) ["ab"; chr (ascii_of_nat 10) +:+ "c"; "d"] = ["ab"; "cd"].
Proof.
  split; [done|]. destruct (lines_independent_of_chunks id true false ["ab"; chr (ascii_of_nat 10) +:+ "c"; "d"] eq_refl) as [H _].
  etransitivity; [exact H|]. vm_compute. reflexivity.
Defined.
