(* ===== verification/Idempotency.v ===== *)
(** * The idempotency cache: [internal/idempotency/idempotency.go]

    Responses kept by request key, with an expiry each and a cap on the bytes
    held.  The sweeper's tick is [gc_tick]; the mutex makes every operation
    atomic. *)

From S2P Require Import Prelude GoStr.
From Stdlib Require Import Ascii.
Local Open Scope Z_scope.

(** ** Data *)

Record Entry := mkEntry { e_Status : Z; e_Body : string }.

Record memEntry := mkMemEntry { me_e : Entry; me_expires : Z }.

Record Memory := mkMemory { m_entries : gmap string memEntry; m_maxBytes : Z; m_bytes : Z }.

Definition NewMemoryBounded (maxBytes : Z) : Memory := mkMemory ∅ maxBytes 0.
Definition NewMemory : Memory := NewMemoryBounded 0.

(** What an entry counts for. *)
Definition size_of (key : string) (e : Entry) : Z := str_len key + str_len (e_Body e).

(** ** Operations *)

Definition Get (m : Memory) (now : Z) (key : string) : option Entry :=
  match m_entries m !! key with
  | Some e => if now <? me_expires e then Some (me_e e) else None
  | None => None
  end.

Section eviction.
Context `{RO : RangeOrder}.

(** The scan for the entry expiring first; the empty key stands for "none yet". *)
Definition scan (acc : string * Z) (kv : string * memEntry) : string * Z :=
  let '(k0, exp0) := acc in let '(k, v) := kv in
  if (k0 =s "") || (me_expires v <? exp0) then (k, me_expires v) else (k0, exp0).

Definition oldest (entries : gmap string memEntry) : string * Z :=
  foldl scan ("", zero_time) (range_map entries).

(** Every round removes an entry, so their number bounds the rounds. *)
Fixpoint evict_loop (fuel : nat) (target : Z) (m : Memory) : Memory :=
  match fuel with
  | O => m
  | S fuel =>
      if (target <? m_bytes m) && (0 <? size (m_entries m))%nat then
        let k := (oldest (m_entries m)).1 in
        let ent := match m_entries m !! k with Some v => me_e v | None => mkEntry 0 "" end in
        evict_loop fuel target (mkMemory (delete k (m_entries m)) (m_maxBytes m) (m_bytes m - size_of k ent))
      else m
  end.

Definition evictUntilLocked (target : Z) (m : Memory) : Memory := evict_loop (size (m_entries m)) target m.

Definition Set_ (m : Memory) (now : Z) (key : string) (e : Entry) (ttl : Z) : Memory :=
  let newSize := size_of key e in
  let m :=
    match m_entries m !! key with
    | Some existing => mkMemory (m_entries m) (m_maxBytes m) (m_bytes m - size_of key (me_e existing))
    | None => m
    end in
  let m :=
    if (0 <? m_maxBytes m) && (m_maxBytes m <? m_bytes m + newSize)
    then evictUntilLocked (m_maxBytes m - newSize) m else m in
  mkMemory (<[key := mkMemEntry e (now + ttl)]> (m_entries m)) (m_maxBytes m) (m_bytes m + newSize).

Definition gc_tick (now : Z) (m : Memory) : Memory :=
  foldl (fun m '(k, e) =>
    if me_expires e <? now
    then mkMemory (delete k (m_entries m)) (m_maxBytes m) (m_bytes m - size_of k (me_e e)) else m)
    m (range_map (m_entries m)).
End eviction.

(** ** The bytes held *)

Definition held (entries : gmap string memEntry) : Z :=
  map_fold (fun k v acc => size_of k (me_e v) + acc) 0 entries.

(** The counter is right, and under the cap when there is one. *)
Definition accounted (m : Memory) : Prop := m_bytes m = held (m_entries m).

Lemma size_of_nonneg k e : 0 <= size_of k e.
Proof. unfold size_of, str_len. lia. Qed.

Lemma held_insert entries k v : entries !! k = None -> held (<[k := v]> entries) = size_of k (me_e v) + held entries.
Proof.
  intros Hk. unfold held. rewrite map_fold_insert_L; [done| |done]. intros. lia.
Qed.

Lemma held_delete entries k v : entries !! k = Some v -> held (delete k entries) = held entries - size_of k (me_e v).
Proof.
  intros Hk. rewrite <- (insert_delete_id entries k v Hk) at 2. rewrite held_insert by apply lookup_delete_eq. lia.
Qed.

Lemma held_nonneg entries : 0 <= held entries.
Proof.
  induction entries as [|k v entries Hk IH] using map_ind; [done|].
  rewrite held_insert by done. pose proof (size_of_nonneg k (me_e v)). lia.
Qed.

Section facts.
Context `{RO : RangeOrder}.

(** The scan ends on an entry it has seen, or where it started. *)
Lemma scan_from (l : list (string * memEntry)) : forall acc,
  (foldl scan acc l = acc /\ (acc.1 = "" -> l = [])) \/
  exists v, ((foldl scan acc l).1, v) ∈ l /\ me_expires v = (foldl scan acc l).2.
Proof.
  induction l as [|[k v] l IH]; intros [k0 exp0]; [by left|]. cbn [foldl].
  destruct (IH (scan (k0, exp0) (k, v))) as [[-> Hn]|(v' & Hin & He)].
  - cbn. destruct (k0 =s "") eqn:E; cbn; [right; exists v; split; [by left|done]|].
    destruct (me_expires v <? exp0); cbn; [right; exists v; split; [by left|done]|].
    left. split; [done|]. intros ->. done.
  - right. exists v'. split; [by right|done].
Qed.

(** Without an empty key, no entry seen expires before the one it ends on. *)
Lemma scan_least (l : list (string * memEntry)) : "" ∉ l.*1 -> forall acc, acc.1 <> "" ->
  (foldl scan acc l).2 <= acc.2 /\ forall k v, (k, v) ∈ l -> (foldl scan acc l).2 <= me_expires v.
Proof.
  induction l as [|[k v] l IH]; intros Hn [k0 exp0] H0.
  { split; [cbn; lia|]. by intros k v ?%not_elem_of_nil. }
  cbn in Hn. apply not_elem_of_cons in Hn as [Hk Hn]. cbn [foldl].
  assert ((scan (k0, exp0) (k, v)).1 <> "" /\ (scan (k0, exp0) (k, v)).2 <= exp0 /\
    (scan (k0, exp0) (k, v)).2 <= me_expires v) as (H1 & H2 & H3).
  { cbn in *. apply String.eqb_neq in H0 as H0'. rewrite H0'. cbn. destruct (Z.ltb_spec (me_expires v) exp0); cbn; [|split; [done|lia]].
    split; [by intros ->|lia]. }
  destruct (IH Hn _ H1) as [Hle Hall]. split; [cbn [snd]; lia|].
  intros k' v' [[= -> ->]|Hin]%elem_of_cons; [lia|by apply (Hall k')].
Qed.

Lemma oldest_in entries : (0 < size entries)%nat ->
  exists v, entries !! (oldest entries).1 = Some v /\
    (entries !! "" = None -> forall k' v', entries !! k' = Some v' -> me_expires v <= me_expires v').
Proof.
  intros Hs. unfold oldest.
  destruct (scan_from (range_map entries) ("", zero_time)) as [[_ Hn]|(v & Hin & He)].
  { specialize (Hn eq_refl). apply (f_equal length) in Hn. rewrite length_range in Hn. cbn in Hn. lia. }
  exists v. split; [by apply elem_of_range|]. rewrite He. intros Hempty k' v' Hk'.
  assert ("" ∉ (range_map entries).*1) as Hn by (rewrite elem_of_range_fst, Hempty; by intros [? ?]).
  apply elem_of_range in Hk'. destruct (range_map entries) as [|[k0 v0] l]; [by apply not_elem_of_nil in Hk'|].
  cbn in Hn. apply not_elem_of_cons in Hn as [Hk0 Hn]. cbn [foldl scan]. cbn [orb].
  change ("" =s "") with true. cbn [orb].
  destruct (scan_least l Hn (k0, me_expires v0)) as [Hle Hall]; [cbn; by intros ->|]. cbn [snd] in Hle.
  apply elem_of_cons in Hk' as [[= -> ->]|Hk']; [done|by apply (Hall k')].
Qed.

Lemma evict_loop_spec fuel target : forall m, accounted m -> (size (m_entries m) <= fuel)%nat ->
  let m' := evict_loop fuel target m in
  accounted m' /\ m_maxBytes m' = m_maxBytes m /\ m_entries m' ⊆ m_entries m /\
  (m_bytes m' <= target \/ m_entries m' = ∅) /\
  (m_entries m !! "" = None -> forall k v k' v', m_entries m !! k = Some v -> m_entries m' !! k = None ->
     m_entries m' !! k' = Some v' -> me_expires v <= me_expires v').
Proof.
  induction fuel as [|fuel IH]; intros m Hacc Hf; cbn [evict_loop].
  { assert (m_entries m = ∅) as He by (apply map_size_empty_inv; lia).
    split_and!; try done; [by right|]. rewrite He. by intros _ k v k' v' ?%lookup_empty_Some. }
  destruct (Z.ltb_spec target (m_bytes m)) as [Hlt|Hge]; cbn [andb].
  2: { split_and!; try done; [left; lia|]. intros _ k v k' v' Hk Hn. congruence. }
  destruct (Nat.ltb_spec 0 (size (m_entries m))) as [Hs|Hs].
  2: { assert (m_entries m = ∅) as He by (apply map_size_empty_inv; lia).
       split_and!; try done; [by right|]. rewrite He. by intros _ k v k' v' ?%lookup_empty_Some. }
  destruct (oldest_in (m_entries m) Hs) as (v0 & Hv0 & Hleast). rewrite Hv0.
  set (k0 := (oldest (m_entries m)).1) in *. set (m1 := mkMemory _ _ _).
  destruct (IH m1) as (Ha & Hm & Hsub & Hb & Hold).
  { unfold accounted, m1. cbn. rewrite (held_delete _ _ v0) by done. by rewrite Hacc. }
  { cbn. rewrite map_size_delete, Hv0. cbn. lia. }
  split_and!; [done|done| |done|].
  - etrans; [exact Hsub|]. apply delete_subseteq.
  - intros Hempty k v k' v' Hk Hn Hk'.
    assert (m_entries m !! k' = Some v') as Hmk'.
    { eapply lookup_weaken; [exact Hk'|]. etrans; [exact Hsub|]. apply delete_subseteq. }
    destruct (decide (k = k0)) as [->|Hne]; [rewrite Hv0 in Hk; injection Hk as <-; by eapply Hleast|].
    apply (Hold ltac:(cbn; rewrite lookup_delete_None; by right) k v k' v'); [|done|done].
    cbn. by rewrite lookup_delete_ne.
Qed.
(** *** What an eviction leaves

    The counter may fall behind what is held ([overwrite_exceeds_cap]), never ahead. *)

(** The entries that expire at [until] or later. *)
Definition young (until : Z) (entries : gmap string memEntry) : gmap string memEntry := filter (fun p => until <= me_expires p.2) entries.

Lemma held_subseteq (m1 m2 : gmap string memEntry) : m1 ⊆ m2 -> held m1 <= held m2.
Proof.
  revert m2. induction m1 as [|k v m1 Hk IH] using map_ind; intros m2 Hsub; [unfold held at 1; rewrite map_fold_empty; apply held_nonneg|].
  assert (m2 !! k = Some v) as Hk2 by (eapply lookup_weaken; [|exact Hsub]; apply lookup_insert_eq).
  rewrite held_insert by done. pose proof (held_delete m2 k v Hk2) as Hd.
  enough (held m1 <= held (delete k m2)) by lia. apply IH. apply map_subseteq_spec. intros k' v' Hk'.
  assert (k <> k') as Hne by (intros ->; congruence). rewrite lookup_delete_ne by done.
  eapply lookup_weaken; [|exact Hsub]. by rewrite lookup_insert_ne.
Qed.

Lemma young_subseteq until m1 m2 : m1 ⊆ m2 -> young until m1 ⊆ young until m2.
Proof.
  intros Hsub. apply map_subseteq_spec. intros k v [Hk Hv]%map_lookup_filter_Some. apply map_lookup_filter_Some. split; [|done].
  by eapply lookup_weaken.
Qed.

Lemma held_insert_le m k v : held (<[k := v]> m) <= size_of k (me_e v) + held m.
Proof.
  destruct (m !! k) as [v0|] eqn:Hk; [|rewrite held_insert by done; lia].
  rewrite <- insert_delete_eq, held_insert, (held_delete _ _ v0) by (done || apply lookup_delete_eq).
  pose proof (size_of_nonneg k (me_e v0)). lia.
Qed.


(** The loop keeps an entry if what does not expire before it fits the target; [key] is the
    one about to be stored. *)
Lemma evict_loop_protects fuel target key k v : forall m, m_entries m !! k = Some v -> m_entries m !! "" = None ->
  m_bytes m <= held (delete key (m_entries m)) -> held (young (me_expires v) (m_entries m)) <= target ->
  m_entries (evict_loop fuel target m) !! k = Some v.
Proof.
  induction fuel as [|fuel IH]; intros m Hk He Hb Hy; cbn [evict_loop]; [done|].
  destruct (Z.ltb_spec target (m_bytes m)) as [Hlt|_]; [|done]. destruct (Nat.ltb_spec 0 (size (m_entries m))) as [Hs|_]; [|done]. cbn [andb].
  destruct (oldest_in (m_entries m) Hs) as (v0 & Hv0 & Hleast). rewrite Hv0. set (k0 := (oldest (m_entries m)).1) in *.
  destruct (decide (k0 = k)) as [->|Hne].
  { exfalso. rewrite Hk in Hv0. injection Hv0 as <-. assert (young (me_expires v) (m_entries m) = m_entries m) as Hyoung.
    { apply map_filter_id. intros k' v' Hk'. cbn. by eapply Hleast. }
    rewrite Hyoung in Hy. pose proof (held_subseteq _ _ (delete_subseteq (m_entries m) key)). lia. }
  apply IH; cbn.
  - by rewrite lookup_delete_ne.
  - apply lookup_delete_None. by right.
  - destruct (decide (key = k0)) as [->|Hkey].
    + rewrite delete_delete_eq. pose proof (size_of_nonneg k0 (me_e v0)). lia.
    + rewrite delete_delete, (held_delete _ k0 v0) by (by rewrite lookup_delete_ne). lia.
  - etrans; [|exact Hy]. apply held_subseteq, young_subseteq, delete_subseteq.
Qed.

Lemma evict_loop_subseteq fuel target : forall m, m_entries (evict_loop fuel target m) ⊆ m_entries m.
Proof.
  induction fuel as [|fuel IH]; intros m; cbn [evict_loop]; [done|]. case_match; [|done]. etrans; [apply IH|]. apply delete_subseteq.
Qed.

Lemma evict_loop_counts fuel target key : forall m,
  m_bytes m <= held (delete key (m_entries m)) ->
  m_bytes (evict_loop fuel target m) <= held (delete key (m_entries (evict_loop fuel target m))).
Proof.
  induction fuel as [|fuel IH]; intros m Hb; cbn [evict_loop]; [done|].
  destruct (target <? m_bytes m); cbn [andb]; [|done]. destruct (Nat.ltb_spec 0 (size (m_entries m))) as [Hs|_]; [|done].
  destruct (oldest_in (m_entries m) Hs) as (v0 & Hv0 & _). rewrite Hv0. apply IH. cbn. set (k0 := (oldest (m_entries m)).1) in *.
  destruct (decide (key = k0)) as [->|Hkey].
  - rewrite delete_delete_eq. pose proof (size_of_nonneg k0 (me_e v0)). lia.
  - rewrite delete_delete, (held_delete _ k0 v0) by (by rewrite lookup_delete_ne). lia.
Qed.

Lemma evict_loop_maxBytes fuel target : forall m, m_maxBytes (evict_loop fuel target m) = m_maxBytes m.
Proof. induction fuel as [|fuel IH]; intros m; cbn [evict_loop]; [done|]. case_match; [|done]. by rewrite IH. Qed.

(** [Set_] before it stores the entry: it takes off what the key's last entry counted, and
    makes room. *)
Definition uncharged (m : Memory) (key : string) : Memory :=
  match m_entries m !! key with
  | Some existing => mkMemory (m_entries m) (m_maxBytes m) (m_bytes m - size_of key (me_e existing))
  | None => m
  end.

Definition Set_before (m : Memory) (key : string) (e : Entry) : Memory :=
  let newSize := size_of key e in
  let m := uncharged m key in
  if (0 <? m_maxBytes m) && (m_maxBytes m <? m_bytes m + newSize)
  then evictUntilLocked (m_maxBytes m - newSize) m else m.

Lemma Set_eq m now key e ttl : Set_ m now key e ttl =
  mkMemory (<[key := mkMemEntry e (now + ttl)]> (m_entries (Set_before m key e))) (m_maxBytes (Set_before m key e))
    (m_bytes (Set_before m key e) + size_of key e).
Proof. done. Qed.

Lemma uncharged_spec m key : m_bytes m <= held (m_entries m) ->
  m_entries (uncharged m key) = m_entries m /\ m_maxBytes (uncharged m key) = m_maxBytes m /\
  m_bytes (uncharged m key) <= held (delete key (m_entries (uncharged m key))).
Proof.
  intros Hb. unfold uncharged. destruct (m_entries m !! key) as [v|] eqn:Hk; cbn; (split_and!; [done..|]).
  - rewrite (held_delete _ _ v) by done. lia.
  - by rewrite delete_id.
Qed.

Lemma Set_before_subseteq m key e : m_entries (Set_before m key e) ⊆ m_entries m.
Proof.
  unfold Set_before, uncharged. destruct (m_entries m !! key) as [v|]; cbn; case_match; try done;
    unfold evictUntilLocked; (etrans; [apply evict_loop_subseteq|done]).
Qed.

Lemma Set_maxBytes m now key e ttl : m_maxBytes (Set_ m now key e ttl) = m_maxBytes m.
Proof.
  rewrite Set_eq. cbn. unfold Set_before, uncharged. destruct (m_entries m !! key); cbn; case_match; try done;
    unfold evictUntilLocked; by rewrite evict_loop_maxBytes.
Qed.

Lemma Set_counts m now key e ttl : m_bytes m <= held (m_entries m) ->
  m_bytes (Set_ m now key e ttl) <= held (m_entries (Set_ m now key e ttl)) /\
  m_entries (Set_ m now key e ttl) = <[key := mkMemEntry e (now + ttl)]> (m_entries (Set_before m key e)).
Proof.
  intros Hb. split; [|done]. rewrite Set_eq. cbn.
  assert (m_bytes (Set_before m key e) <= held (delete key (m_entries (Set_before m key e)))) as Hbefore.
  { unfold Set_before. destruct (uncharged_spec m key Hb) as (_ & _ & Hc). cbn zeta. case_match; [by apply evict_loop_counts|done]. }
  rewrite <- insert_delete_eq, held_insert by apply lookup_delete_eq. cbn. lia.
Qed.

(** A response that is stored leaves those that expire no earlier than the others alone, when
    there is room for them and it. *)
Lemma Set_protects m now key e ttl k v : m_entries m !! k = Some v -> m_entries m !! "" = None -> key <> k -> key <> "" ->
  m_bytes m <= held (m_entries m) ->
  (0 < m_maxBytes m -> held (young (me_expires v) (m_entries m)) + size_of key e <= m_maxBytes m) ->
  let m' := Set_ m now key e ttl in
  m_entries m' !! k = Some v /\ m_entries m' !! "" = None /\ m_bytes m' <= held (m_entries m') /\
  held (young (me_expires v) (m_entries m')) <= held (young (me_expires v) (m_entries m)) + size_of key e.
Proof.
  intros Hk He Hne Hkey Hb Hfit m'. destruct (Set_counts m now key e ttl Hb) as [H1 H2]. unfold m'. clear m'.
  pose proof (Set_before_subseteq m key e) as Hsub. rewrite H2 in *. split_and!; [| |done|].
  - rewrite lookup_insert_ne by done. unfold Set_before. destruct (uncharged_spec m key Hb) as (Hs1 & Hs2 & Hs3). cbn zeta.
    revert Hs1 Hs2 Hs3. generalize (uncharged m key). intros m0 Hs1 Hs2 Hs3.
    destruct (Z.ltb_spec 0 (m_maxBytes m0)) as [Hpos|_]; cbn [andb]; [|by rewrite Hs1]. destruct (_ <? _); [|by rewrite Hs1].
    apply (evict_loop_protects _ _ key); rewrite ?Hs1; [done|done|by rewrite <- Hs1|]. rewrite Hs2 in *. specialize (Hfit Hpos). lia.
  - rewrite lookup_insert_ne by done. by eapply lookup_weaken_None.
  - etrans; [apply (held_subseteq _ (<[key := mkMemEntry e (now + ttl)]> (young (me_expires v) (m_entries m))))|].
    + apply map_subseteq_spec. intros k' v' [Hk' Hv']%map_lookup_filter_Some. destruct (decide (key = k')) as [->|Hk''].
      * rewrite lookup_insert_eq in Hk' |- *. done.
      * rewrite lookup_insert_ne in Hk' |- * by done. apply map_lookup_filter_Some. split; [by eapply lookup_weaken|done].
    + pose proof (held_insert_le (young (me_expires v) (m_entries m)) key (mkMemEntry e (now + ttl))) as Hle. cbn in Hle. lia.
Qed.

(** *** The sweeper *)

Lemma gc_tick_maxBytes now m : m_maxBytes (gc_tick now m) = m_maxBytes m.
Proof.
  unfold gc_tick. generalize (range_map (m_entries m)) as l. intros l. revert m. induction l as [|[k v] l IH]; intros m; [done|].
  cbn [foldl]. rewrite IH. by destruct (_ <? _).
Qed.

Lemma gc_tick_counts now m : m_bytes m <= held (m_entries m) ->
  m_bytes (gc_tick now m) <= held (m_entries (gc_tick now m)) /\ m_entries (gc_tick now m) ⊆ m_entries m /\
  m_maxBytes (gc_tick now m) = m_maxBytes m.
Proof.
  intros Hb. split; [|split; [|apply gc_tick_maxBytes]].
  - unfold gc_tick. assert (NoDup (range_map (m_entries m)).*1) as Hnd by apply NoDup_range_fst.
    assert (forall k v, (k, v) ∈ range_map (m_entries m) -> m_entries m !! k = Some v) as Hin by (intros k v; apply elem_of_range).
    revert Hb Hnd Hin. generalize (range_map (m_entries m)) as l. intros l. revert m. induction l as [|[k v] l IH]; intros m Hb Hnd Hin; [done|].
    cbn in Hnd. apply NoDup_cons in Hnd as [Hk Hnd]. cbn [foldl]. apply IH; [|done|].
    + destruct (_ <? _); [|done]. cbn. rewrite (held_delete _ _ v) by (apply Hin; left). lia.
    + intros k' v' Hin'. destruct (_ <? _); cbn; [|apply Hin; by right]. rewrite lookup_delete_ne; [apply Hin; by right|].
      intros ->. apply Hk, list_elem_of_fmap. by exists (k', v').
  - unfold gc_tick. generalize (range_map (m_entries m)) as l. intros l. revert m Hb. enough (forall m, m_entries (foldl (fun m '(k, e) =>
      if me_expires e <? now then mkMemory (delete k (m_entries m)) (m_maxBytes m) (m_bytes m - size_of k (me_e e)) else m) m l) ⊆ m_entries m) by auto.
    induction l as [|[k v] l IH]; intros m; [done|]. cbn [foldl]. etrans; [apply IH|]. destruct (_ <? _); cbn; [apply delete_subseteq|done].
Qed.
End facts.

(** ** Properties *)

Section properties.
Context `{RO : RangeOrder}.

(** A response stored under a key not yet in the cache is found until it
    expires; the byte counter stays the sum of what is held; a response that fits
    the cap never takes the cache over it; and what is evicted to make room
    expires no later than what is kept. *)
Theorem Set_bounded (m : Memory) now key e ttl :
  accounted m -> m_entries m !! key = None ->
  let m' := Set_ m now key e ttl in
  accounted m' /\
  (forall now', now' < now + ttl -> Get m' now' key = Some e) /\
  (0 < m_maxBytes m -> size_of key e <= m_maxBytes m -> held (m_entries m') <= m_maxBytes m) /\
  (m_entries m !! "" = None -> forall k v k' v', m_entries m !! k = Some v -> m_entries m' !! k = None ->
     m_entries m' !! k' = Some v' -> k' <> key -> me_expires v <= me_expires v').
Proof.
  intros Hacc Hk m'. unfold m', Set_. rewrite Hk. set (c := (0 <? m_maxBytes m) && _).
  set (m1 := if c then _ else m).
  assert (accounted m1 /\ m_entries m1 ⊆ m_entries m /\
    (0 < m_maxBytes m -> size_of key e <= m_maxBytes m -> m_bytes m1 + size_of key e <= m_maxBytes m) /\
    (m_entries m !! "" = None -> forall k v k' v', m_entries m !! k = Some v -> m_entries m1 !! k = None ->
       m_entries m1 !! k' = Some v' -> me_expires v <= me_expires v')) as (Ha & Hsub & Hcap & Hold).
  { unfold m1. destruct c eqn:Hc.
    - destruct (evict_loop_spec (size (m_entries m)) (m_maxBytes m - size_of key e) m Hacc ltac:(lia))
        as (Ha & Hm & Hsub & Hb & Hold).
      split_and!; [done|done| |done]. intros Hp Hfit. destruct Hb as [Hb|Hb]; [unfold evictUntilLocked; lia|].
      unfold evictUntilLocked, accounted in *. rewrite Ha, Hb. unfold held. rewrite map_fold_empty. lia.
    - split_and!; [done|done| |intros _ k v k' v' Hv Hn; congruence]. intros Hp _. unfold c in Hc.
      rewrite (proj2 (Z.ltb_lt 0 _) Hp) in Hc. cbn in Hc. reflect_bools. lia. }
  assert (m_entries m1 !! key = None) as Hk1 by (by eapply lookup_weaken_None).
  split_and!.
  - unfold accounted. cbn. rewrite held_insert by done. cbn. rewrite Ha. lia.
  - intros now' Hnow. unfold Get. cbn. rewrite lookup_insert_eq. cbn.
    by rewrite (proj2 (Z.ltb_lt _ _) Hnow).
  - intros Hp Hfit. cbn. rewrite held_insert by done. cbn. specialize (Hcap Hp Hfit). unfold accounted in Ha. lia.
  - intros He k v k' v' Hv Hn Hk' Hne. cbn in Hn, Hk'. rewrite lookup_insert_ne in Hk' by done.
    apply lookup_insert_None in Hn as [Hn _]. by apply (Hold He k v k' v').
Qed.
End properties.

(** ** Concrete caches *)

Section demo.
Local Existing Instance range_default.

Definition body (n : nat) : string := Nat.iter n (String "x"%char) "".

Definition demo : Memory :=
  let m := NewMemoryBounded 20 in
  let m := Set_ m 0 "a" (mkEntry 200 (body 8)) 10 in
  Set_ m 1 "b" (mkEntry 200 (body 9)) 10.

(** Storing a key again subtracts its old size twice when the eviction picks
    that very key, so the cache ends up over its cap. *)
Example overwrite_exceeds_cap :
  let m := Set_ demo 2 "a" (mkEntry 200 (body 15)) 10 in
  m_bytes m = 17 /\ held (m_entries m) = 26 /\ m_maxBytes m = 20.
Proof. vm_compute. by split_and!. Qed.

Lemma Set_bounded_witness :
  let m := Set_ demo 2 "c" (mkEntry 200 (body 4)) 10 in
  held (m_entries m) <= 20 /\ Get m 5 "c" = Some (mkEntry 200 (body 4)).
Proof.
  intros m. destruct (Set_bounded demo 2 "c" (mkEntry 200 (body 4)) 10) as (_ & Hg & Hc & _);
    [vm_compute; reflexivity|vm_compute; reflexivity|].
  split; [apply Hc; vm_compute; [reflexivity|discriminate]|apply Hg; lia].
Defined.
End demo.
