(* ===== verification/Auth.v ===== *)
(** * Roles and permissions: [internal/auth/rbac.go], [internal/auth/permission.go]

    The middlewares are modelled by their verdict on a request's claims: go on,
    401 or 403. *)

From S2P Require Import Prelude.

(** ** Roles and claims *)

Definition RoleAdmin : string := "admin".
Definition RoleOperator : string := "operator".
Definition RoleApprover : string := "approver".
Definition RoleViewer : string := "viewer".

Record Claims := mkClaims {
  cl_Subject : string; cl_Email : string; cl_Name : string; cl_Groups : list string; cl_Roles : list string;
  cl_ACR : string; cl_AMR : list string
}.

Inductive verdict := Next | Unauthorized | Forbidden.

Definition RequireRole (roles : list string) (claims : option Claims) : verdict :=
  match claims with
  | None => Unauthorized
  | Some c =>
      if existsb (fun required => existsb (fun userRole => userRole =s required) (cl_Roles c)) roles
      then Next else Forbidden
  end.

(** [allowed]: the non-empty values. *)
Definition acr_allowed (acrValues : list string) (v : string) : bool :=
  existsb (fun a => a =s v) (filter (fun a => a <> "") acrValues).

Definition RequireMFA (acrValues : list string) (claims : option Claims) : verdict :=
  match acrValues with
  | [] => Next
  | _ =>
      match claims with
      | None => Unauthorized
      | Some c =>
          if acr_allowed acrValues (cl_ACR c) || existsb (acr_allowed acrValues) (cl_AMR c) then Next else Forbidden
      end
  end.

Definition CanApprovePromotion (claims : option Claims) : bool :=
  match claims with
  | None => false
  | Some c => existsb (fun role => (role =s RoleAdmin) || (role =s RoleApprover)) (cl_Roles c)
  end.

Definition CanRevealSecret (claims : option Claims) : bool :=
  match claims with
  | None => false
  | Some c => existsb (fun role => role =s RoleAdmin) (cl_Roles c)
  end.

(** ** Groups *)

Definition DefaultGroupRoleMap : gmap string string :=
  {["cooker-admins" := RoleAdmin; "cooker-operators" := RoleOperator;
    "cooker-approvers" := RoleApprover; "cooker-viewers" := RoleViewer]}.

(** The loop over the groups: [roles] is also the set of those seen. *)
Fixpoint map_groups (groups : list string) (roleMap : gmap string string) (roles : list string) : list string :=
  match groups with
  | [] => roles
  | group :: groups =>
      match roleMap !! group with
      | Some role => map_groups groups roleMap (if bool_decide (role ∈ roles) then roles else roles ++ [role])
      | None => map_groups groups roleMap roles
      end
  end.

Definition MapGroupsToRolesWith (groups : list string) (roleMap : gmap string string) : list string :=
  let roleMap := if bool_decide (roleMap = ∅) then DefaultGroupRoleMap else roleMap in
  match map_groups groups roleMap [] with
  | [] => [RoleViewer]
  | roles => roles
  end.

Definition MapGroupsToRoles (groups : list string) : list string := MapGroupsToRolesWith groups ∅.

(** ** The matrix *)

Definition ResourcePipeline : string := "pipeline".
Definition ResourceRun : string := "run".
Definition ResourceApp : string := "app".
Definition ResourceEnvironment : string := "environment".
Definition ResourceSecret : string := "secret".
Definition ResourceHost : string := "host".
Definition ResourceRegistry : string := "registry".
Definition ResourceCluster : string := "cluster".
Definition ResourceDocker : string := "docker".
Definition ResourceKubernetes : string := "kubernetes".
Definition ResourcePromotion : string := "promotion".
Definition ResourceWebhook : string := "webhook".

Definition ActionRead : string := "read".
Definition ActionCreate : string := "create".
Definition ActionUpdate : string := "update".
Definition ActionDelete : string := "delete".
Definition ActionReveal : string := "reveal".
Definition ActionApprove : string := "approve".
Definition ActionInvoke : string := "invoke".

Record policyEntry := mkPolicyEntry { pe_resource : string; pe_action : string; pe_allowedRoles : list string }.

Definition everyone : list string := [RoleAdmin; RoleOperator; RoleApprover; RoleViewer].
Definition writers : list string := [RoleAdmin; RoleOperator].
Definition admins : list string := [RoleAdmin].

Definition defaultPolicy : list policyEntry := [
  mkPolicyEntry ResourcePipeline ActionRead everyone;
  mkPolicyEntry ResourceRun ActionRead everyone;
  mkPolicyEntry ResourceApp ActionRead everyone;
  mkPolicyEntry ResourceEnvironment ActionRead everyone;
  mkPolicyEntry ResourceHost ActionRead everyone;
  mkPolicyEntry ResourceRegistry ActionRead everyone;
  mkPolicyEntry ResourceCluster ActionRead everyone;
  mkPolicyEntry ResourceDocker ActionRead everyone;
  mkPolicyEntry ResourceKubernetes ActionRead everyone;
  mkPolicyEntry ResourcePipeline ActionCreate writers;
  mkPolicyEntry ResourcePipeline ActionUpdate writers;
  mkPolicyEntry ResourcePipeline ActionInvoke writers;
  mkPolicyEntry ResourceRun ActionUpdate writers;
  mkPolicyEntry ResourceApp ActionCreate writers;
  mkPolicyEntry ResourceApp ActionUpdate writers;
  mkPolicyEntry ResourceApp ActionInvoke writers;
  mkPolicyEntry ResourceEnvironment ActionCreate writers;
  mkPolicyEntry ResourceEnvironment ActionUpdate writers;
  mkPolicyEntry ResourceHost ActionCreate writers;
  mkPolicyEntry ResourceHost ActionUpdate writers;
  mkPolicyEntry ResourcePipeline ActionDelete admins;
  mkPolicyEntry ResourceApp ActionDelete admins;
  mkPolicyEntry ResourceEnvironment ActionDelete admins;
  mkPolicyEntry ResourceHost ActionDelete admins;
  mkPolicyEntry ResourceRegistry ActionCreate admins;
  mkPolicyEntry ResourceRegistry ActionDelete admins;
  mkPolicyEntry ResourceCluster ActionCreate admins;
  mkPolicyEntry ResourceCluster ActionDelete admins;
  mkPolicyEntry ResourceSecret ActionReveal admins;
  mkPolicyEntry ResourceSecret ActionUpdate admins;
  mkPolicyEntry ResourceSecret ActionDelete admins;
  mkPolicyEntry ResourcePromotion ActionApprove [RoleAdmin; RoleApprover];
  mkPolicyEntry ResourcePromotion ActionInvoke writers;
  mkPolicyEntry ResourceWebhook ActionUpdate admins
].

(** A later entry for the same key replaces an earlier one. *)
Definition policyMatrix : gmap (string * string) (gset string) :=
  foldl (fun m p => <[(pe_resource p, pe_action p) := list_to_set (pe_allowedRoles p)]> m) ∅ defaultPolicy.

Definition Permission (claims : option Claims) (resource action : string) : bool :=
  match claims with
  | None => false
  | Some c =>
      match policyMatrix !! (resource, action) with
      | None => false
      | Some allowed => existsb (fun role => bool_decide (role ∈ allowed)) (cl_Roles c)
      end
  end.

Definition RequirePermission (resource action : string) (claims : option Claims) : verdict :=
  match claims with
  | None => Unauthorized
  | Some _ => if Permission claims resource action then Next else Forbidden
  end.

(** ** Facts *)

Definition entry_key (p : policyEntry) : string * string := (pe_resource p, pe_action p).

Lemma matrix_lookup (l : list policyEntry) : forall (m : gmap (string * string) (gset string)) k s,
  NoDup (entry_key <$> l) ->
  foldl (fun m p => <[entry_key p := list_to_set (pe_allowedRoles p)]> m) m l !! k = Some s <->
  (exists p, p ∈ l /\ entry_key p = k /\ s = list_to_set (pe_allowedRoles p)) \/
  ((k ∉ entry_key <$> l) /\ m !! k = Some s).
Proof.
  induction l as [|p l IH]; intros m k s Hnd; cbn.
  - split; [intros H; right; split; [apply not_elem_of_nil|done]|]. by intros [(? & ?%not_elem_of_nil & _)|[_ ?]].
  - cbn in Hnd. apply NoDup_cons in Hnd as [Hp Hnd]. rewrite (IH _ _ _ Hnd), not_elem_of_cons. split.
    + intros [(q & Hq & Hk & Hs)|[Hk Hs]]; [left; exists q; split; [by right|done]|].
      destruct (decide (entry_key p = k)) as [<-|Hne].
      * rewrite lookup_insert_eq in Hs. injection Hs as <-. left. exists p. split; [by left|done].
      * rewrite lookup_insert_ne in Hs by done. right. by split_and!.
    + intros [(q & [->|Hq]%elem_of_cons & Hk & Hs)|[[Hk1 Hk2] Hs]].
      * right. rewrite <- Hk. split; [done|]. by rewrite lookup_insert_eq, Hs.
      * left. by exists q.
      * right. split; [done|]. by rewrite lookup_insert_ne.
Qed.

Lemma policy_keys_distinct : NoDup (entry_key <$> defaultPolicy).
Proof. apply (bool_decide_unpack _). vm_compute. exact I. Qed.

Lemma policyMatrix_lookup (k : string * string) (s : gset string) :
  policyMatrix !! k = Some s <-> exists p, p ∈ defaultPolicy /\ entry_key p = k /\ s = list_to_set (pe_allowedRoles p).
Proof.
  unfold policyMatrix. fold entry_key. rewrite (matrix_lookup defaultPolicy ∅ k s policy_keys_distinct).
  rewrite lookup_empty. naive_solver.
Qed.

(** A permission is a row of the table that names one of the user's roles. *)
Lemma Permission_spec c resource action : Permission (Some c) resource action = true <->
  exists p, p ∈ defaultPolicy /\ pe_resource p = resource /\ pe_action p = action /\
    exists role, role ∈ cl_Roles c /\ role ∈ pe_allowedRoles p.
Proof.
  unfold Permission. destruct (policyMatrix !! (resource, action)) as [s|] eqn:Hm.
  - apply policyMatrix_lookup in Hm as (p & Hp & [= Hr Ha] & ->). rewrite existsb_exists. split.
    + intros (role & Hin%list_elem_of_In & Hal%bool_decide_eq_true_1). exists p. split_and!; try done.
      exists role. split; [done|]. by apply elem_of_list_to_set in Hal.
    + intros (q & Hq & Hqr & Hqa & role & Hin & Hal). exists role. split; [by apply list_elem_of_In|].
      apply bool_decide_eq_true_2, elem_of_list_to_set.
      assert (policyMatrix !! (resource, action) = Some (list_to_set (pe_allowedRoles q))) as H1
        by (apply policyMatrix_lookup; exists q; by rewrite <- Hqr, <- Hqa).
      assert (policyMatrix !! (resource, action) = Some (list_to_set (pe_allowedRoles p))) as H2
        by (apply policyMatrix_lookup; exists p; by rewrite <- Hr, <- Ha).
      rewrite H1 in H2. injection H2 as H2. assert (role ∈ (list_to_set (pe_allowedRoles q) : gset string)) as H3
        by (by apply elem_of_list_to_set). rewrite H2 in H3. by apply elem_of_list_to_set in H3.
  - split; [done|]. intros (q & Hq & <- & <- & _).
    assert (policyMatrix !! entry_key q = Some (list_to_set (pe_allowedRoles q))) as H1
      by (apply policyMatrix_lookup; by exists q). unfold entry_key in H1. congruence.
Qed.

(** A check that compares roles against a row of the table. *)
Lemma Permission_row c resource action allowed (test : string -> bool) :
  policyMatrix !! (resource, action) = Some (list_to_set allowed) ->
  (forall r, test r = true <-> r ∈ allowed) ->
  Permission (Some c) resource action = existsb test (cl_Roles c).
Proof.
  intros Hm Ht. unfold Permission. rewrite Hm. induction (cl_Roles c) as [|r l IH]; [done|]. cbn. rewrite IH. f_equal.
  apply eq_true_iff_eq. rewrite bool_decide_eq_true, elem_of_list_to_set. by rewrite Ht.
Qed.

(** A property of every row of the table, checked on the table. *)
Lemma policy_rows (P : policyEntry -> Prop) `{forall p, Decision (P p)} :
  bool_decide (Forall P defaultPolicy) = true -> forall p, p ∈ defaultPolicy -> P p.
Proof. intros Hb. by apply Forall_forall, (bool_decide_eq_true_1 _). Qed.

Lemma map_groups_spec groups roleMap : forall roles role, NoDup roles ->
  (role ∈ map_groups groups roleMap roles <-> role ∈ roles \/ exists g, g ∈ groups /\ roleMap !! g = Some role) /\
  NoDup (map_groups groups roleMap roles).
Proof.
  induction groups as [|g groups IH]; intros roles role Hnd; cbn [map_groups].
  { split; [|done]. split; [by left|]. by intros [?|(? & ?%not_elem_of_nil & _)]. }
  setoid_rewrite elem_of_cons. destruct (roleMap !! g) as [r|] eqn:Hg.
  - case_bool_decide as Hr.
    + destruct (IH roles role Hnd) as [-> ?]. split; [|done]. naive_solver.
    + destruct (IH (roles ++ [r]) role) as [-> ?].
      { apply NoDup_app. split_and!; [done| |apply NoDup_singleton]. by intros x Hx ->%list_elem_of_singleton. }
      split; [|done]. rewrite elem_of_app, list_elem_of_singleton. naive_solver.
  - destruct (IH roles role Hnd) as [-> ?]. split; [|done]. naive_solver.
Qed.

(** ** Properties *)

(** The permission check is the table: an action is allowed exactly when a row
    for it names one of the user's roles.  Hence only administrators delete or
    reveal anything, a user with no role but viewer can only read, and the checks
    behind approving promotions and revealing secrets are the table's own rows. *)
Theorem Permission_is_the_table (c : Claims) (resource action : string) :
  (RequirePermission resource action (Some c) = Next <->
     exists p, p ∈ defaultPolicy /\ pe_resource p = resource /\ pe_action p = action /\
       exists role, role ∈ cl_Roles c /\ role ∈ pe_allowedRoles p) /\
  (RequirePermission resource action (Some c) = Next -> action = ActionDelete \/ action = ActionReveal ->
     RoleAdmin ∈ cl_Roles c) /\
  (RequirePermission resource action (Some c) = Next -> (forall role, role ∈ cl_Roles c -> role = RoleViewer) ->
     action = ActionRead) /\
  Permission (Some c) ResourcePromotion ActionApprove = CanApprovePromotion (Some c) /\
  Permission (Some c) ResourceSecret ActionReveal = CanRevealSecret (Some c).
Proof.
  assert (RequirePermission resource action (Some c) = Next <-> Permission (Some c) resource action = true) as Hreq.
  { unfold RequirePermission. by destruct (Permission _ _ _). }
  rewrite Hreq, Permission_spec. split_and!; [done| | | |].
  - intros (p & Hp & _ & <- & role & Hin & Hal) Ha.
    assert (Forall (fun r => r = RoleAdmin) (pe_allowedRoles p)) as Hf.
    { revert Ha. apply (policy_rows (fun p => pe_action p = ActionDelete \/ pe_action p = ActionReveal ->
        Forall (fun r => r = RoleAdmin) (pe_allowedRoles p))); [vm_compute; reflexivity|done]. }
    rewrite Forall_forall in Hf. by rewrite <- (Hf role Hal).
  - intros (p & Hp & _ & <- & role & Hin & Hal) Hv. rewrite (Hv role Hin) in Hal. revert Hal.
    apply (policy_rows (fun p => RoleViewer ∈ pe_allowedRoles p -> pe_action p = ActionRead)); [vm_compute; reflexivity|done].
  - apply (Permission_row c _ _ [RoleAdmin; RoleApprover]); [vm_compute; reflexivity|]. intros r.
    rewrite !elem_of_cons, elem_of_nil, orb_true_iff, !String.eqb_eq. tauto.
  - apply (Permission_row c _ _ [RoleAdmin]); [vm_compute; reflexivity|]. intros r.
    rewrite elem_of_cons, elem_of_nil, String.eqb_eq. tauto.
Qed.

(** Roles from groups: never empty, never repeated, exactly those the mapping
    gives the user's groups, the built-in mapping standing in for an empty one;
    and viewer for a user none of whose groups is mapped. *)
Theorem MapGroupsToRolesWith_spec (groups : list string) (roleMap : gmap string string) :
  let effective := if bool_decide (roleMap = ∅) then DefaultGroupRoleMap else roleMap in
  let roles := MapGroupsToRolesWith groups roleMap in
  NoDup roles /\
  (forall role, role ∈ roles <->
     (exists g, g ∈ groups /\ effective !! g = Some role) \/
     (role = RoleViewer /\ forall g, g ∈ groups -> effective !! g = None)).
Proof.
  intros effective roles. unfold roles, MapGroupsToRolesWith. fold effective.
  pose proof (fun role => map_groups_spec groups effective [] role NoDup_nil_2) as Hspec.
  destruct (map_groups groups effective []) as [|r l].
  - split; [apply NoDup_singleton|]. intros role. rewrite list_elem_of_singleton.
    assert (forall g, g ∈ groups -> effective !! g = None) as Hnone.
    { intros g Hg. destruct (effective !! g) as [r|] eqn:Hr; [|done].
      assert (r ∈ ([] : list string)) as []%not_elem_of_nil. apply (proj1 (Hspec r)). right. by exists g. }
    split; [intros ->; by right|]. intros [(g & Hg & Hr)|[-> _]]; [|done]. by rewrite (Hnone g Hg) in Hr.
  - split; [apply (proj2 (Hspec r))|]. intros role. rewrite (proj1 (Hspec role)).
    split; [intros [?%not_elem_of_nil|?]; [done|by left]|].
    intros [?|[-> Hnone]]; [by right|]. exfalso.
    destruct (proj1 (proj1 (Hspec r))) as [?%not_elem_of_nil|(g & Hg & Hr)]; [by left|done|].
    by rewrite (Hnone g Hg) in Hr.
Qed.
