(* ===== verification/ApiToken.v ===== *)
(** * Access tokens: [internal/model/apitoken.go], [apitoken_gen.go],
      [internal/store/memory/apitoken.go], [internal/service/apitoken.go],
      [internal/auth/apitoken.go], [internal/handler/apitoken.go]

    Minting, listing, revoking and authenticating with the long-lived credentials,
    as the handlers run them, over the memory store.  Random bytes, the drawn UUID
    and the clock are inputs of the operations; the background write of the
    last-used stamp is a step of its own. *)

From S2P Require Import Prelude GoStr GoCrypto Auth.
From Stdlib Require Import Ascii.
Local Open Scope Z_scope.

(** ** The token and how it is generated *)

Record APIToken := mkAPIToken {
  t_ID : string; t_Name : string; t_DisplayPrefix : string; t_Hash : string; t_Role : string;
  t_CreatedBySub : string; t_CreatedByEmail : string;
  t_CreatedAt : Z; t_ExpiresAt : option Z; t_LastUsedAt : option Z
}.

Definition Expired (t : APIToken) (now : Z) : bool :=
  match t_ExpiresAt t with Some e => negb (now <? e) | None => false end.

Definition APITokenPrefix : string := "ck_".
Definition apiTokenDisplayLen : Z := 12.

Definition HashAPIToken (plaintext : string) : string :=
  hex_EncodeToString (sha256_Sum256 (bytes_of_string plaintext)).

Definition LooksLikeAPIToken (credential : string) : bool := has_prefix APITokenPrefix credential.

(** The plaintext, its hash and the display prefix, from the bytes [rand.Read] drew. *)
Definition GenerateAPIToken (buf : option (list Z)) : option (string * string * string) :=
  match buf with
  | None => None
  | Some buf =>
      let plaintext := APITokenPrefix +:+ raw_url_encode buf in
      let displayPrefix :=
        if apiTokenDisplayLen <? str_len plaintext then str_take apiTokenDisplayLen plaintext else plaintext in
      Some (plaintext, HashAPIToken plaintext, displayPrefix)
  end.

(** ** Errors *)

Inductive err :=
| ErrRoleTooHigh | ErrInvalidRole | ErrTokenActorForbidden | ErrNotOwner | ErrAdminOnly
| ErrExpiryInPast | ErrMFARequired | ErrNotFound | ErrConflict | ErrOther.
Instance err_eq_dec : EqDecision err.
Proof. solve_decision. Defined.

(** ** The memory store *)

Definition store_Create (s : gmap string APIToken) (now : Z) (t : APIToken) : err + (gmap string APIToken * APIToken) :=
  if bool_decide (map_Exists (fun _ e => t_Hash e = t_Hash t) s) then inl ErrConflict else
  let t := if is_zero_time (t_CreatedAt t) then
             mkAPIToken (t_ID t) (t_Name t) (t_DisplayPrefix t) (t_Hash t) (t_Role t) (t_CreatedBySub t)
               (t_CreatedByEmail t) now (t_ExpiresAt t) (t_LastUsedAt t)
           else t in
  inr (<[t_ID t := t]> s, t).

(** [sortTokensNewestFirst]'s order. *)
Definition newer (a b : APIToken) : bool :=
  if t_CreatedAt a =? t_CreatedAt b then String.ltb (t_ID a) (t_ID b) else t_CreatedAt b <? t_CreatedAt a.

Section listing.
Context `{RO : RangeOrder}.

Definition ListByCreator (s : gmap string APIToken) (createdBySub : string) : list APIToken :=
  sort_slice newer (filter (fun t => t_CreatedBySub t = createdBySub) (snd <$> range_map s)).

Definition ListAll (s : gmap string APIToken) : list APIToken := sort_slice newer (snd <$> range_map s).

Definition GetByHash (s : gmap string APIToken) (hash : string) : option APIToken :=
  list_find (fun t => t_Hash t = hash) (snd <$> range_map s) ≫= fun it => Some it.2.

End listing.

Definition store_Get (s : gmap string APIToken) (id : string) : err + APIToken :=
  match s !! id with Some t => inr t | None => inl ErrNotFound end.

Definition store_Delete (s : gmap string APIToken) (id : string) : err + (gmap string APIToken) :=
  match s !! id with Some _ => inr (delete id s) | None => inl ErrNotFound end.

Definition TouchLastUsed (s : gmap string APIToken) (id : string) (ts : Z) : err + (gmap string APIToken) :=
  match s !! id with
  | Some t => inr (<[id := mkAPIToken (t_ID t) (t_Name t) (t_DisplayPrefix t) (t_Hash t) (t_Role t) (t_CreatedBySub t)
                             (t_CreatedByEmail t) (t_CreatedAt t) (t_ExpiresAt t) (Some ts)]> s)
  | None => inl ErrNotFound
  end.

(** ** The service *)

Definition roleRank (role : string) : Z :=
  if role =s RoleAdmin then 3
  else if (role =s RoleOperator) || (role =s RoleApprover) then 2
  else if role =s RoleViewer then 1
  else 0.

Definition validRole (role : string) : bool :=
  (role =s RoleAdmin) || (role =s RoleOperator) || (role =s RoleApprover) || (role =s RoleViewer).

(** The loop over the caller's roles: the highest rank, admin held, approver held. *)
Definition caller_loop (callerRoles : list string) : Z * bool * bool :=
  foldl (fun '(highest, holdsAdmin, holdsApprover) r =>
           (if highest <? roleRank r then roleRank r else highest,
            holdsAdmin || (r =s RoleAdmin),
            holdsApprover || (negb (r =s RoleAdmin) && (r =s RoleApprover))))
        (0, false, false) callerRoles.

Definition canMintRole (callerRoles : list string) (requested : string) : bool :=
  let '(highest, holdsAdmin, holdsApprover) := caller_loop callerRoles in
  if holdsAdmin then true
  else if requested =s RoleApprover then holdsApprover
  else roleRank requested <=? highest.

Definition hasRole (roles : list string) (want : string) : bool := existsb (fun r => r =s want) roles.

Definition mfaSatisfied (acr : string) (amr configured : list string) : bool :=
  match configured with
  | [] => true
  | _ => acr_allowed configured acr || existsb (acr_allowed configured) amr
  end.

Record CreateParams := mkCreateParams {
  cp_Name : string; cp_Role : string; cp_ExpiresAt : option Z;
  cp_CallerSub : string; cp_CallerEmail : string; cp_CallerRoles : list string; cp_CallerIsToken : bool
}.

(** [now] is the clock, [buf] what [rand.Read] drew, [uuid] what [uuid.NewString] drew. *)
Definition Create (s : gmap string APIToken) (now : Z) (buf : option (list Z)) (uuid : string) (p : CreateParams) :
    err + (gmap string APIToken * APIToken * string) :=
  if cp_CallerIsToken p then inl ErrTokenActorForbidden else
  let name := trim_space (cp_Name p) in
  if name =s "" then inl ErrOther else
  if negb (validRole (cp_Role p)) then inl ErrInvalidRole else
  if match cp_ExpiresAt p with Some e => negb (now <? e) | None => false end then inl ErrExpiryInPast else
  if negb (canMintRole (cp_CallerRoles p) (cp_Role p)) then inl ErrRoleTooHigh else
  match GenerateAPIToken buf with
  | None => inl ErrOther
  | Some (plaintext, hash, displayPrefix) =>
      let tok := mkAPIToken uuid name displayPrefix hash (cp_Role p) (cp_CallerSub p) (cp_CallerEmail p)
                   zero_time (cp_ExpiresAt p) None in
      match store_Create s now tok with
      | inl e => inl e
      | inr (s, tok) => inr (s, tok, plaintext)
      end
  end.

Definition List_ `{RO : RangeOrder} (s : gmap string APIToken) (callerSub : string) (callerRoles : list string) (all : bool) :
    err + list APIToken :=
  if all then if negb (hasRole callerRoles RoleAdmin) then inl ErrAdminOnly else inr (ListAll s)
  else inr (ListByCreator s callerSub).

Record DeleteParams := mkDeleteParams {
  dp_ID : string; dp_CallerSub : string; dp_CallerRoles : list string; dp_CallerACR : string;
  dp_CallerAMR : list string; dp_MFAValues : list string; dp_CallerIsToken : bool
}.

Definition Delete (s : gmap string APIToken) (p : DeleteParams) : err + (gmap string APIToken) :=
  if dp_CallerIsToken p then inl ErrTokenActorForbidden else
  match store_Get s (dp_ID p) with
  | inl e => inl e
  | inr tok =>
      let isOwner := t_CreatedBySub tok =s dp_CallerSub p in
      if negb isOwner && negb (hasRole (dp_CallerRoles p) RoleAdmin) then inl ErrNotOwner else
      if negb isOwner && negb (mfaSatisfied (dp_CallerACR p) (dp_CallerAMR p) (dp_MFAValues p)) then inl ErrMFARequired else
      store_Delete s (dp_ID p)
  end.

(** ** The authenticator *)

Definition TokenSubjectPrefix : string := "token:".
Definition lastUsedThrottle : Z := minute.

(** The tokens, the in-process throttle ([lastTouched]), and the stamps whose
    background write has not run yet. *)
Record world := mkWorld { w_tokens : gmap string APIToken; w_lastTouched : gmap string Z; w_writes : list (string * Z) }.

Definition maybeTouch (w : world) (id : string) (now : Z) : world :=
  match w_lastTouched w !! id with
  | Some prev =>
      if now - prev <? lastUsedThrottle then w
      else mkWorld (w_tokens w) (<[id := now]> (w_lastTouched w)) (w_writes w ++ [(id, now)])
  | None => mkWorld (w_tokens w) (<[id := now]> (w_lastTouched w)) (w_writes w ++ [(id, now)])
  end.

Definition Authenticate `{RO : RangeOrder} (w : world) (now : Z) (plaintext : string) : world * option Claims :=
  let hash := HashAPIToken plaintext in
  match GetByHash (w_tokens w) hash with
  | None => (w, None)
  | Some tok =>
      if negb (t_Hash tok =s hash) then (w, None) else
      if Expired tok now then (w, None) else
      (maybeTouch w (t_ID tok) now,
       Some (mkClaims (TokenSubjectPrefix +:+ t_ID tok) (t_CreatedByEmail tok) (t_Name tok) [] [t_Role tok] "" []))
  end.

(** The bearer credential of the header's value ([bearerToken], [rawBearer]).
    No letter of the scheme has a non-ASCII case variant. *)
Definition lower_ascii (c : ascii) : ascii :=
  let n := nat_of_ascii c in if ((65 <=? n) && (n <=? 90))%nat then ascii_of_nat (n + 32) else c.

Definition is_bearer (scheme : string) : bool :=
  String.string_of_list_ascii (lower_ascii <$> String.list_ascii_of_string scheme) =s "bearer".

Definition bearerToken (authHeader : string) : option string :=
  match cut " " authHeader with
  | Some (scheme, cred) => if is_bearer scheme && negb (trim_space cred =s "") then Some (trim_space cred) else None
  | None => None
  end.

(** [Middleware.Handler]'s token branch: the verdict for a credential of the token shape. *)
Definition authenticate_header `{RO : RangeOrder} (w : world) (now : Z) (authHeader : string) : world * option Claims :=
  match bearerToken authHeader with
  | Some token => if LooksLikeAPIToken token then Authenticate w now token else (w, None)
  | None => (w, None)
  end.

(** ** The handlers *)

Definition callerIsToken (claims : Claims) : bool := has_prefix TokenSubjectPrefix (cl_Subject claims).

Record createAPITokenRequest := mkCreateReq { cr_Name : string; cr_Role : string; cr_ExpiresAt : option Z }.

Definition StatusOK : Z := 200.
Definition StatusCreated : Z := 201.

(** [abortStoreErr] comes first in the default case and answers every error. *)
Definition abortAPITokenErr (e : err) : Z :=
  match e with
  | ErrTokenActorForbidden | ErrMFARequired | ErrRoleTooHigh => 403
  | ErrInvalidRole | ErrExpiryInPast => 400
  | ErrAdminOnly => 403
  | ErrNotOwner => 404
  | ErrNotFound => 404
  | ErrConflict => 409
  | ErrOther => 500
  end.

(** [req] is [None] when the body does not bind. *)
Definition CreateAPIToken (s : gmap string APIToken) (now : Z) (buf : option (list Z)) (uuid : string)
    (claims : option Claims) (req : option createAPITokenRequest) : gmap string APIToken * Z * option string :=
  match claims with
  | None => (s, 401, None)
  | Some claims =>
      match req with
      | None => (s, 400, None)
      | Some req =>
          match Create s now buf uuid (mkCreateParams (cr_Name req) (cr_Role req) (cr_ExpiresAt req) (cl_Subject claims)
                                         (cl_Email claims) (cl_Roles claims) (callerIsToken claims)) with
          | inl e => (s, abortAPITokenErr e, None)
          | inr (s, _, plaintext) => (s, StatusCreated, Some plaintext)
          end
      end
  end.

Definition ListAPITokens `{RO : RangeOrder} (s : gmap string APIToken) (claims : option Claims) (all : string) : Z * list APIToken :=
  match claims with
  | None => (401, [])
  | Some claims =>
      match List_ s (cl_Subject claims) (cl_Roles claims) (all =s "true") with
      | inl e => (abortAPITokenErr e, [])
      | inr tokens => (StatusOK, tokens)
      end
  end.

Definition DeleteAPIToken (s : gmap string APIToken) (mfa : list string) (claims : option Claims) (id : string) : gmap string APIToken * Z :=
  match claims with
  | None => (s, 401)
  | Some claims =>
      match Delete s (mkDeleteParams id (cl_Subject claims) (cl_Roles claims) (cl_ACR claims) (cl_AMR claims) mfa
                        (callerIsToken claims)) with
      | inl e => (s, abortAPITokenErr e)
      | inr s => (s, StatusOK)
      end
  end.

(** ** A server's life *)

Inductive op :=
| OCreate (now : Z) (buf : option (list Z)) (uuid : string) (claims : option Claims) (req : option createAPITokenRequest)
| ODelete (claims : option Claims) (id : string)
| OAuth (now : Z) (authHeader : string)
| OWrite (i : nat).  (** the background write of the i-th pending stamp runs *)

Section life.
Context `{RO : RangeOrder} (mfa : list string).

(** One operation and the status it is answered with. *)
Definition step (w : world) (o : op) : world * Z :=
  match o with
  | OCreate now buf uuid claims req =>
      let '(s, status, _) := CreateAPIToken (w_tokens w) now buf uuid claims req in
      (mkWorld s (w_lastTouched w) (w_writes w), status)
  | ODelete claims id =>
      let '(s, status) := DeleteAPIToken (w_tokens w) mfa claims id in (mkWorld s (w_lastTouched w) (w_writes w), status)
  | OAuth now h =>
      match authenticate_header w now h with (w, Some _) => (w, StatusOK) | (w, None) => (w, 401) end
  | OWrite i =>
      match w_writes w !! i with
      | Some (id, ts) =>
          (mkWorld (match TouchLastUsed (w_tokens w) id ts with inr s => s | inl _ => w_tokens w end)
             (w_lastTouched w) (take i (w_writes w) ++ drop (S i) (w_writes w)), StatusOK)
      | None => (w, StatusOK)
      end
  end.

Definition start : world := mkWorld ∅ ∅ [].

Definition exec (h : list op) : world * list (op * Z) :=
  foldl (fun '(w, tr) o => let '(w, status) := step w o in (w, tr ++ [(o, status)])) (start, []) h.

End life.

(** ** Facts *)

Lemma hasRole_spec roles r : hasRole roles r = true <-> r ∈ roles.
Proof.
  unfold hasRole. rewrite existsb_exists. setoid_rewrite String.eqb_eq. setoid_rewrite <- list_elem_of_In.
  split; [by intros (? & ? & ->)|eauto].
Qed.

Lemma caller_loop_spec roles : let '(highest, a, p) := caller_loop roles in
  a = hasRole roles RoleAdmin /\ p = hasRole roles RoleApprover /\
  (highest = 0 \/ exists r, r ∈ roles /\ roleRank r = highest).
Proof.
  unfold caller_loop. generalize 0 at 1 2 as h0.
  assert (forall roles h a p, let '(h', a', p') := foldl (fun '(highest, holdsAdmin, holdsApprover) r =>
           (if highest <? roleRank r then roleRank r else highest,
            holdsAdmin || (r =s RoleAdmin),
            holdsApprover || (negb (r =s RoleAdmin) && (r =s RoleApprover)))) (h, a, p) roles in
    a' = a || hasRole roles RoleAdmin /\ p' = p || hasRole roles RoleApprover /\
    (h' = h \/ exists r, r ∈ roles /\ roleRank r = h')) as H.
  { clear. induction roles as [|r roles IH]; intros h a p; cbn [foldl hasRole existsb].
    { rewrite !orb_false_r. by split_and!; try left. }
    specialize (IH (if h <? roleRank r then roleRank r else h) (a || (r =s RoleAdmin))
      (p || (negb (r =s RoleAdmin) && (r =s RoleApprover)))).
    destruct (foldl _ _ roles) as [[h' a'] p']. destruct IH as (-> & -> & Hh). rewrite <- !orb_assoc. split_and!; [done| |].
    - f_equal. f_equal. destruct (String.eqb_spec r RoleApprover) as [->|_]; [done|]. by rewrite andb_false_r.
    - destruct Hh as [->|(x & Hx & <-)]; [|right; exists x; split; [by right|done]].
      destruct (h <? roleRank r); [right; exists r; split; [by left|done]|by left]. }
  intros h0. specialize (H roles h0 false false). destruct (foldl _ _ roles) as [[? ?] ?]. cbn in H. tauto.
Qed.

Lemma validRole_spec r : validRole r = true <-> r ∈ everyone.
Proof.
  unfold validRole, everyone. rewrite !elem_of_cons, elem_of_nil, !orb_true_iff, !String.eqb_eq. tauto.
Qed.

(** What the cap lets through: an administrator mints anything, a role is minted by
    who holds it, a viewer token by anyone with a role, and an operator token by an
    approver. *)
Lemma canMintRole_spec roles r : validRole r = true -> canMintRole roles r = true ->
  RoleAdmin ∈ roles \/ r ∈ roles \/ (r = RoleViewer /\ exists r', r' ∈ roles /\ r' ∈ everyone) \/
  (r = RoleOperator /\ RoleApprover ∈ roles).
Proof.
  intros Hr. unfold canMintRole. pose proof (caller_loop_spec roles) as H. destruct (caller_loop roles) as [[h a] p].
  destruct H as (-> & -> & Hh). destruct (hasRole roles RoleAdmin) eqn:Ha; [apply hasRole_spec in Ha; by left|].
  destruct (String.eqb_spec r RoleApprover) as [->|Hne]; [intros ?%hasRole_spec; by right; left|].
  intros Hle%Z.leb_le. right. apply validRole_spec in Hr.
  assert (0 < roleRank r) as Hpos.
  { unfold everyone in Hr. rewrite !elem_of_cons, elem_of_nil in Hr. destruct Hr as [->|[->|[->|[->|[] ]]]]; vm_compute; reflexivity. }
  destruct Hh as [->|(x & Hx & <-)]; [lia|].
  assert (x ∈ everyone /\ (x = RoleAdmin \/ x = RoleOperator \/ x = RoleApprover \/ x = RoleViewer)) as [Hxe Hxc].
  { unfold everyone. rewrite !elem_of_cons. unfold roleRank in Hpos, Hle.
    destruct (String.eqb_spec x RoleAdmin); [tauto|]. destruct (String.eqb_spec x RoleOperator); [tauto|].
    destruct (String.eqb_spec x RoleApprover); [tauto|]. destruct (String.eqb_spec x RoleViewer); [tauto|]. cbn in Hle. lia. }
  unfold everyone in Hr. rewrite !elem_of_cons, elem_of_nil in Hr.
  destruct Hxc as [->|[->|[->| ->]]]; [apply hasRole_spec in Hx; congruence| | |];
    destruct Hr as [->|[->|[->|[->|[] ]]]]; first [done | by left | right; left; by split; eauto | by right; right | vm_compute in Hle; by destruct Hle].
Qed.

(** Rows of the permission table: every row names the administrator, and a row that
    names the viewer names everyone. *)
Lemma rows_admin p : p ∈ defaultPolicy -> RoleAdmin ∈ pe_allowedRoles p.
Proof. apply (policy_rows (fun p => RoleAdmin ∈ pe_allowedRoles p)). vm_compute. reflexivity. Qed.
Lemma rows_viewer p : p ∈ defaultPolicy -> RoleViewer ∈ pe_allowedRoles p -> forall r, r ∈ everyone -> r ∈ pe_allowedRoles p.
Proof.
  intros Hp. rewrite <- Forall_forall. revert p Hp.
  apply (policy_rows (fun p => RoleViewer ∈ pe_allowedRoles p -> Forall (fun r => r ∈ pe_allowedRoles p) everyone)).
  vm_compute. reflexivity.
Qed.

(** A token of a role the cap allows does nothing its creator could not do, unless
    it is an operator token minted by an approver. *)
Lemma mint_within c creator r : validRole r = true -> canMintRole (cl_Roles creator) r = true -> cl_Roles c = [r] ->
  (forall resource action, Permission (Some c) resource action = true -> Permission (Some creator) resource action = true) \/
  (r = RoleOperator /\ RoleApprover ∈ cl_Roles creator).
Proof.
  intros Hr Hm Hc. destruct (canMintRole_spec _ _ Hr Hm) as [Ha|[Hin|[[-> (x & Hx & Hxe)]|Hop]]]; [left|left|left|by right];
    intros resource action; rewrite !Permission_spec, Hc; intros (p & Hp & Hpr & Hpa & role & ->%list_elem_of_singleton & Hal);
    exists p; split_and!; try done.
  - exists RoleAdmin. split; [done|by apply rows_admin].
  - by exists r.
  - exists x. split; [done|by apply rows_viewer].
Qed.

(** Where a stored token comes from: a successful creation in the trace, by a human
    caller, and no successful revocation since. *)
Definition minted (tr : list (op * Z)) (t : APIToken) : Prop :=
  exists pre now buf creator req plaintext disp post,
    tr = pre ++ (OCreate now buf (t_ID t) (Some creator) (Some req), StatusCreated) :: post /\
    GenerateAPIToken buf = Some (plaintext, t_Hash t, disp) /\
    callerIsToken creator = false /\ validRole (t_Role t) = true /\ canMintRole (cl_Roles creator) (t_Role t) = true /\
    t_ExpiresAt t = cr_ExpiresAt req /\ (forall c, (ODelete c (t_ID t), StatusOK) ∉ post).

Lemma minted_snoc tr t e : minted tr t -> (forall c, e <> (ODelete c (t_ID t), StatusOK)) -> minted (tr ++ [e]) t.
Proof.
  intros (pre & now & buf & creator & req & p & d & post & -> & H) He.
  exists pre, now, buf, creator, req, p, d, (post ++ [e]). rewrite <- app_assoc. split; [done|].
  destruct H as (? & ? & ? & ? & ? & Hpost). split_and!; try done.
  intros c. rewrite elem_of_app, list_elem_of_singleton. intros [Hin|Heq]; [by eapply Hpost|by eapply He].
Qed.

(** A token's identity: everything but the stamps. *)
Lemma minted_ext tr t t' : t_ID t' = t_ID t -> t_Hash t' = t_Hash t -> t_Role t' = t_Role t ->
  t_ExpiresAt t' = t_ExpiresAt t -> minted tr t -> minted tr t'.
Proof. intros H1 H2 H3 H4. unfold minted. by rewrite H1, H2, H3, H4. Qed.

Definition all_minted (tr : list (op * Z)) (s : gmap string APIToken) : Prop :=
  forall id t, s !! id = Some t -> t_ID t = id /\ minted tr t.

Lemma all_minted_snoc tr s e : all_minted tr s -> (forall c id, e <> (ODelete c id, StatusOK)) -> all_minted (tr ++ [e]) s.
Proof. intros Hs He id t Ht. destruct (Hs id t Ht) as [<- Hm]. split; [done|]. apply minted_snoc; [done|]. intros c. apply He. Qed.

Lemma abort_not_ok e : abortAPITokenErr e <> StatusOK /\ abortAPITokenErr e <> StatusCreated.
Proof. by destruct e. Qed.

(** A creation that succeeds. *)
Lemma Create_minted s now buf uuid p s' tok plaintext : Create s now buf uuid p = inr (s', tok, plaintext) ->
  s' = <[uuid := tok]> s /\ t_ID tok = uuid /\ cp_CallerIsToken p = false /\
  (exists d, GenerateAPIToken buf = Some (plaintext, t_Hash tok, d)) /\ t_Role tok = cp_Role p /\
  validRole (cp_Role p) = true /\ canMintRole (cp_CallerRoles p) (cp_Role p) = true /\ t_ExpiresAt tok = cp_ExpiresAt p.
Proof.
  unfold Create. destruct (cp_CallerIsToken p); [done|]. destruct (trim_space _ =s ""); [done|].
  destruct (validRole _); [|done]. cbn [negb].
  destruct (match cp_ExpiresAt p with Some e => negb (now <? e) | None => false end); [done|].
  destruct (canMintRole _ _); [|done]. cbn [negb]. destruct (GenerateAPIToken buf) as [[[pl h] d]|]; [|done].
  unfold store_Create. case_bool_decide; [done|]. cbn. intros [= <- <- <-]. split_and!; try done. by exists d.
Qed.

Lemma Authenticate_tokens `{RO : RangeOrder} w now pl : w_tokens (Authenticate w now pl).1 = w_tokens w.
Proof.
  unfold Authenticate. destruct (GetByHash _ _) as [t|]; [|done]. destruct (negb _); [done|]. destruct (Expired t now); [done|].
  cbn. unfold maybeTouch. destruct (w_lastTouched w !! t_ID t); [|done]. by destruct (_ <? _).
Qed.

Lemma step_minted `{RO : RangeOrder} mfa w o tr : all_minted tr (w_tokens w) ->
  all_minted (tr ++ [(o, (step mfa w o).2)]) (w_tokens (step mfa w o).1).
Proof.
  intros Hall. destruct o as [now buf uuid claims req|claims id|now h|i]; cbn [step].
  - unfold CreateAPIToken. destruct claims as [claims|]; [|by apply all_minted_snoc]. destruct req as [req|]; [|by apply all_minted_snoc].
    destruct (Create _ _ _ _ _) as [e|[[s' tok] pl]] eqn:Hc; [by apply all_minted_snoc|].
    apply Create_minted in Hc as (-> & <- & Htok & [d Hgen] & Hrole & Hv & Hm & He). cbn [fst snd w_tokens cp_CallerIsToken cp_CallerRoles cp_Role cp_ExpiresAt] in *.
    intros id t. rewrite lookup_insert. case_decide as Hid; [|intros Ht; by apply (all_minted_snoc _ _ _ Hall)].
    intros [= <-]. split; [done|]. exists tr, now, buf, claims, req, pl, d, []. rewrite Hrole. split_and!; try done.
    intros c. apply not_elem_of_nil.
  - unfold DeleteAPIToken. destruct claims as [claims|]; [|by apply all_minted_snoc].
    destruct (Delete _ _) as [e|s'] eqn:Hd.
    { apply all_minted_snoc; [done|]. by destruct e. }
    unfold Delete in Hd. destruct (dp_CallerIsToken _); [done|]. cbn [dp_ID] in Hd. destruct (store_Get _ id); [done|].
    destruct (_ && _); [done|]. destruct (_ && _); [done|]. unfold store_Delete in Hd. destruct (w_tokens w !! id); [|done].
    injection Hd as <-. cbn. intros i t [Hne Ht]%lookup_delete_Some. destruct (Hall i t Ht) as [<- Hm]. split; [done|].
    apply minted_snoc; [done|]. intros c. congruence.
  - unfold authenticate_header. pose proof (fun p => Authenticate_tokens w now p) as Hw.
    destruct (bearerToken h) as [p|]; [|by apply all_minted_snoc].
    destruct (LooksLikeAPIToken p); [|by apply all_minted_snoc]. specialize (Hw p).
    destruct (Authenticate w now p) as [w' [c|]]; cbn in *; rewrite Hw; by apply all_minted_snoc.
  - destruct (w_writes w !! i) as [[id ts]|]; [|by apply all_minted_snoc]. cbn. apply all_minted_snoc; [|done].
    unfold TouchLastUsed. destruct (w_tokens w !! id) as [t|] eqn:Ht; [|done]. intros j u. rewrite lookup_insert.
    case_decide as Hj; [|apply Hall]. intros [= <-]. subst j. destruct (Hall id t Ht) as [Hid Hm]. split; [done|].
    by apply (minted_ext _ t).
Qed.

Lemma token_exec_snoc `{RO : RangeOrder} mfa h o : exec mfa (h ++ [o]) =
  ((step mfa (exec mfa h).1 o).1, (exec mfa h).2 ++ [(o, (step mfa (exec mfa h).1 o).2)]).
Proof. unfold exec. rewrite foldl_app. cbn [foldl]. destruct (foldl _ _ h) as [w tr]. cbn [fst snd]. by destruct (step mfa w o). Qed.

Lemma exec_minted `{RO : RangeOrder} mfa h : all_minted (exec mfa h).2 (w_tokens (exec mfa h).1).
Proof.
  induction h as [|o h IH] using rev_ind; [intros id t Ht; exact (False_ind _ (lookup_empty_Some id t Ht))|]. rewrite token_exec_snoc. cbn [fst snd].
  by apply step_minted.
Qed.

Lemma GetByHash_in `{RO : RangeOrder} s hash t : GetByHash s hash = Some t -> exists id, s !! id = Some t.
Proof.
  unfold GetByHash. destruct (list_find _ _) as [[i u]|] eqn:Hf; [|done]. intros [= <-].
  apply list_find_Some in Hf as (Hl & _). apply list_elem_of_lookup_2, list_elem_of_fmap in Hl as ([id t'] & -> & Hin). exists id.
  by apply elem_of_range.
Qed.

(** C5. A token never outlives or outgrows its minting.  In whatever state any
    sequence of requests, authentications and background writes left the server: a
    credential that authenticates hashes as one a successful creation returned, for a
    caller who was not a token, whose expiry has not come and which no revocation
    answered; the request it authenticates may do only what its creator could do then,
    with one exception: an approver can mint an operator token; and it can neither
    mint nor revoke tokens, nor pass the second-factor gate. *)
Theorem token_within_its_creator `{RO : RangeOrder} (mfa : list string) (h : list op) (now : Z) (plaintext : string) (claims : Claims) :
  (Authenticate (exec mfa h).1 now plaintext).2 = Some claims ->
  (exists pre t buf uuid creator req p d post,
    (exec mfa h).2 = pre ++ (OCreate t buf uuid (Some creator) (Some req), StatusCreated) :: post /\
    GenerateAPIToken buf = Some (p, HashAPIToken plaintext, d) /\ callerIsToken creator = false /\
    cl_Subject claims = TokenSubjectPrefix +:+ uuid /\
    (forall c, (ODelete c uuid, StatusOK) ∉ post) /\
    (forall e, cr_ExpiresAt req = Some e -> now < e) /\
    ((forall resource action, Permission (Some claims) resource action = true -> Permission (Some creator) resource action = true) \/
     (cl_Roles claims = [RoleOperator] /\ RoleApprover ∈ cl_Roles creator))) /\
  (forall s t buf uuid req, CreateAPIToken s t buf uuid (Some claims) (Some req) = (s, 403, None)) /\
  (forall s id, DeleteAPIToken s mfa (Some claims) id = (s, 403)) /\
  (mfa <> [] -> RequireMFA mfa (Some claims) = Forbidden).
Proof.
  pose proof (exec_minted mfa h) as Hall. destruct (exec mfa h) as [w tr]. cbn [fst snd] in *. unfold Authenticate.
  destruct (GetByHash _ _) as [tok|] eqn:Hg; [|done]. destruct (String.eqb_spec (t_Hash tok) (HashAPIToken plaintext)) as [Hh|]; [|done].
  cbn [negb]. destruct (Expired tok now) eqn:He; [done|]. intros [= <-].
  apply GetByHash_in in Hg as [id Hid]. destruct (Hall id tok Hid) as [_ (pre & t & buf & creator & req & p & d & post & -> & Hgen & Hc & Hv & Hm & Hexp & Hpost)].
  assert (callerIsToken (mkClaims (TokenSubjectPrefix +:+ t_ID tok) (t_CreatedByEmail tok) (t_Name tok) [] [t_Role tok] "" []) = true) as Htok
    by (unfold callerIsToken; cbn; by destruct (t_ID tok)).
  split_and!.
  - exists pre, t, buf, (t_ID tok), creator, req, p, d, post. rewrite <- Hh. split_and!; try done.
    + intros e Hre. unfold Expired in He. rewrite Hexp, Hre in He. apply negb_false_iff in He. lia.
    + set (c := mkClaims _ _ _ _ _ _ _).
      destruct (mint_within c creator (t_Role tok) Hv Hm eq_refl) as [Hp|[Hop Ha]]; [left; exact Hp|right; cbn; by rewrite Hop].
  - intros s t' buf' uuid' req'. unfold CreateAPIToken, Create. cbn [cp_CallerIsToken]. by rewrite Htok.
  - intros s id'. unfold DeleteAPIToken, Delete. cbn [dp_CallerIsToken]. by rewrite Htok.
  - destruct mfa as [|v mfa]; [done|]. intros _. unfold RequireMFA. cbn [cl_ACR cl_AMR existsb]. rewrite orb_false_r.
    destruct (acr_allowed (v :: mfa) "") eqn:Ha; [|done]. unfold acr_allowed in Ha. apply existsb_exists in Ha as (x & Hx & Heq).
    apply list_elem_of_In, list_elem_of_filter in Hx as [Hx _]. by apply String.eqb_eq in Heq.
Qed.

(** An operator mints a deployment token that expires; later a script uses it. *)
Definition ann : Claims := mkClaims "ann" "ann@x" "Ann" [] [RoleOperator] "" [].
Definition ann_history : list op :=
  [OCreate 5 (Some [1; 2; 3]) "u1" (Some ann) (Some (mkCreateReq " ci " RoleOperator (Some 100))); OAuth 7 "Bearer ck_AQID"; OWrite 0].
Definition ann_token : Claims := mkClaims "token:u1" "ann@x" "ci" [] [RoleOperator] "" [].

Lemma ann_token_authenticates : (Authenticate (RO := range_default) (exec (RO := range_default) [] ann_history).1 9 "ck_AQID").2 = Some ann_token.
Proof. vm_compute. reflexivity. Qed.
Example ann_token_expires : (Authenticate (RO := range_default) (exec (RO := range_default) [] ann_history).1 100 "ck_AQID").2 = None.
Proof. vm_compute. reflexivity. Qed.

Lemma token_within_its_creator_witness :
  (Authenticate (RO := range_default) (exec (RO := range_default) [] ann_history).1 9 "ck_AQID").2 = Some ann_token /\
  (forall s id, DeleteAPIToken s [] (Some ann_token) id = (s, 403)).
Proof.
  split; [exact ann_token_authenticates|].
  exact (proj1 (proj2 (proj2 (token_within_its_creator (RO := range_default) [] ann_history 9 "ck_AQID" ann_token ann_token_authenticates)))).
Defined.

(** The exception: an approver, who may not invoke a pipeline, mints a token that may. *)
Definition amy : Claims := mkClaims "amy" "amy@x" "Amy" [] [RoleApprover] "" [].
Example approver_mints_operator :
  let '(s, status, _) := CreateAPIToken ∅ 5 (Some [1; 2; 3]) "u2" (Some amy) (Some (mkCreateReq "x" RoleOperator None)) in
  let token := (Authenticate (RO := range_default) (mkWorld s ∅ []) 6 "ck_AQID").2 in
  status = StatusCreated /\ Permission (Some amy) ResourcePipeline ActionInvoke = false /\
  Permission token ResourcePipeline ActionInvoke = true.
Proof. vm_compute. done. Qed.

(** A blank name, a caller's mistake, is answered as a server error: [abortStoreErr]
    takes every error before the handler's own 400. *)
Example blank_name_500 :
  (CreateAPIToken ∅ 5 (Some [1; 2; 3]) "u3" (Some ann) (Some (mkCreateReq " " RoleViewer None))).1.2 = 500.
Proof. reflexivity. Qed.
