(* ===== verification/WsTicket.v ===== *)
(** * WebSocket tickets: [internal/server/wsticket.go]

    The single-use tickets that let a browser open a WebSocket, minted over the
    authenticated API and redeemed by the gate in front of every [/ws] route, over the
    in-process store.  Random bytes and the clock are inputs; a connection request
    carries the ticket of its query string and the path of its URL. *)

From S2P Require Import Prelude GoStr GoCrypto Auth.
From Stdlib Require Import Ascii.
Local Open Scope Z_scope.

(** ** Data *)

Record ticketGrant := mkGrant { g_Subject : string; g_Roles : list string; g_Path : string }.
Record wsTicket := mkTicket { wt_grant : ticketGrant; wt_expires : Z }.
Record wsTicketStore := mkStore { ts_ttl : Z; ts_tickets : gmap string wsTicket }.

Definition newWSTicketStore (ttl : Z) : wsTicketStore := mkStore ttl ∅.

(** ** The store *)

(** [None] for [buf]: the random source failed. *)
Definition Issue (s : wsTicketStore) (now : Z) (buf : option (list Z)) (grant : ticketGrant) :
    wsTicketStore * option (string * Z) :=
  match buf with
  | None => (s, None)
  | Some buf =>
      let tok := raw_url_encode buf in
      let expires := now + ts_ttl s in
      (mkStore (ts_ttl s) (<[tok := mkTicket grant expires]> (ts_tickets s)), Some (tok, expires))
  end.

Definition Consume (s : wsTicketStore) (now : Z) (tok : string) : wsTicketStore * option ticketGrant :=
  match ts_tickets s !! tok with
  | None => (s, None)
  | Some t =>
      (mkStore (ts_ttl s) (delete tok (ts_tickets s)), if wt_expires t <? now then None else Some (wt_grant t))
  end.

(** One tick of the sweeper. *)
Definition gc_tick (s : wsTicketStore) (now : Z) : wsTicketStore :=
  mkStore (ts_ttl s) (filter (fun kt => negb (wt_expires kt.2 <? now) = true) (ts_tickets s)).

(** ** Paths and roles *)

Definition wsWriteRoles : list string := [RoleOperator; RoleAdmin].

Definition routeRoleRequirement (path : string) : list string :=
  if path =s "/ws/kubernetes/watch" then wsWriteRoles
  else if has_prefix "/ws/runtime/" path then wsWriteRoles
  else [].

Definition routeRoleAllowed (path : string) (roles : list string) : bool :=
  match routeRoleRequirement path with
  | [] => true
  | required => existsb (fun req => existsb (fun have => have =s req) roles) required
  end.

Definition hasAnyRole (claims : option Claims) (roles : list string) : bool :=
  match claims with
  | None => false
  | Some c => existsb (fun req => existsb (fun have => have =s req) (cl_Roles c)) roles
  end.

Definition validWSPaths : list string := [
  "/ws/pipeline-run/:runId";
  "/ws/app-run/:runId";
  "/ws/docker/build/:buildId";
  "/ws/runs/:runId/stages/:stageId/logs";
  "/ws/runtime/:appId/:serviceId/logs";
  "/ws/kubernetes/watch"].

(** [strings.Trim(s, "/")] *)
Fixpoint trim_left_slash (s : string) : string :=
  match s with String c s' => if Ascii.eqb c "/" then trim_left_slash s' else s | EmptyString => EmptyString end.
Definition trim_slash (s : string) : string := str_rev (trim_left_slash (str_rev (trim_left_slash s))).
Definition segments (path : string) : list string := split_on "/" (trim_slash path).

Definition segment_matches (ps seg : string) : bool :=
  if has_prefix ":" ps then negb (seg =s "") else ps =s seg.

Fixpoint segments_match (pat req : list string) : bool :=
  match pat, req with
  | [], [] => true
  | ps :: pat, seg :: req => segment_matches ps seg && segments_match pat req
  | _, _ => false
  end.

Definition matchWSPath (path : string) : bool :=
  existsb (fun pattern => segments_match (segments pattern) (segments path)) validWSPaths.

(** ** Minting and the gate *)

(** The path asked for, without a query string. *)
Definition strip_query (path : string) : string := match cut "?" path with Some (p, _) => p | None => path end.

(** [body] is the bound request body's path, [None] when the body does not bind. *)
Definition issueWSTicket (s : wsTicketStore) (now : Z) (buf : option (list Z)) (claims : option Claims)
    (body : option string) : wsTicketStore * Z * option string :=
  match claims with
  | None => (s, 401, None)
  | Some c =>
      match body with
      | None => (s, 400, None)
      | Some req_path =>
          if req_path =s "" then (s, 400, None) else
          let path := strip_query req_path in
          if negb (matchWSPath path) then (s, 400, None) else
          let required := routeRoleRequirement path in
          if (match required with [] => false | _ => true end) && negb (hasAnyRole claims required) then (s, 403, None) else
          match Issue s now buf (mkGrant (cl_Subject c) (cl_Roles c) path) with
          | (s, None) => (s, 500, None)
          | (s, Some (tok, _)) => (s, 200, Some tok)
          end
      end
  end.

(** [Next] carries on to the upgrade, with the grant's subject and roles. *)
Definition wsTicketGate (s : wsTicketStore) (now : Z) (tok url_path : string) : wsTicketStore * verdict :=
  if tok =s "" then (s, Unauthorized) else
  match Consume s now tok with
  | (s, None) => (s, Unauthorized)
  | (s, Some grant) =>
      if negb (g_Path grant =s url_path) then (s, Forbidden) else
      if negb (routeRoleAllowed url_path (g_Roles grant)) then (s, Forbidden) else
      (s, Next)
  end.

(** ** A server's life *)

Inductive op :=
| OIssue (now : Z) (buf : option (list Z)) (claims : option Claims) (body : option string)
| OConnect (now : Z) (tok url_path : string)
| OTick (now : Z).

(** What an operation answers: the ticket minted, or the gate's verdict. *)
Inductive resp := RIssued (tok : option string) | RGate (v : verdict) | RNone.

Definition step (s : wsTicketStore) (o : op) : wsTicketStore * resp :=
  match o with
  | OIssue now buf claims body => let '(s, _, tok) := issueWSTicket s now buf claims body in (s, RIssued tok)
  | OConnect now tok path => let '(s, v) := wsTicketGate s now tok path in (s, RGate v)
  | OTick now => (gc_tick s now, RNone)
  end.

Definition exec (ttl : Z) (h : list op) : wsTicketStore * list (op * resp) :=
  foldl (fun '(s, tr) o => let '(s, r) := step s o in (s, tr ++ [(o, r)])) (newWSTicketStore ttl, []) h.

(** The mints of a ticket in a trace, and the connections it was let through for. *)
Definition mints (tok : string) (e : op * resp) : bool :=
  match e.2 with RIssued (Some t) => t =s tok | _ => false end.
Definition admits (tok : string) (e : op * resp) : bool :=
  match e with (OConnect _ t _, RGate Next) => t =s tok | _ => false end.
Definition count (p : op * resp -> bool) (tr : list (op * resp)) : Z :=
  Z.of_nat (length (filter (fun e => p e = true) tr)).

(** ** Facts *)

Lemma ticket_count_snoc p tr e : count p (tr ++ [e]) = count p tr + (if p e then 1 else 0).
Proof.
  unfold count. rewrite filter_app, length_app. unfold filter at 2; cbn. destruct (p e) eqn:He.
  - rewrite decide_True by done. cbn. lia.
  - rewrite decide_False by congruence. cbn. lia.
Qed.

(** The mint behind a grant. *)
Definition minted (tr : list (op * resp)) (ttl : Z) (tok : string) (t : wsTicket) : Prop :=
  exists now buf claims body,
    (OIssue now (Some buf) (Some claims) (Some body), RIssued (Some tok)) ∈ tr /\
    tok = raw_url_encode buf /\ wt_grant t = mkGrant (cl_Subject claims) (cl_Roles claims) (strip_query body) /\
    wt_expires t = now + ttl /\ matchWSPath (strip_query body) = true.

Lemma minted_app tr ttl tok t e : minted tr ttl tok t -> minted (tr ++ [e]) ttl tok t.
Proof.
  intros (now & buf & c & b & Hin & H). exists now, buf, c, b. split; [|done]. rewrite elem_of_app. by left.
Qed.

Record tickets_ok (ttl : Z) (s : wsTicketStore) (tr : list (op * resp)) : Prop := {
  ok_ttl : ts_ttl s = ttl;
  ok_count : forall tok, count (admits tok) tr <= count (mints tok) tr;
  ok_live : forall tok t, ts_tickets s !! tok = Some t ->
              minted tr ttl tok t /\ count (admits tok) tr + 1 <= count (mints tok) tr
}.

(** An operation that admits nobody and adds no ticket. *)
Lemma quiet_ok ttl s tr s' e : tickets_ok ttl s tr -> ts_ttl s' = ts_ttl s -> ts_tickets s' ⊆ ts_tickets s ->
  (forall tok, admits tok e = false) -> tickets_ok ttl s' (tr ++ [e]).
Proof.
  intros [Ht Hc Hl] Htt Hsub He. split; [congruence| |].
  - intros tok. rewrite !ticket_count_snoc, He. pose proof (Hc tok). destruct (mints tok e); lia.
  - intros tok t Htok. destruct (Hl tok t) as [Hm Hlt]; [by eapply lookup_weaken|]. split; [by apply minted_app|].
    rewrite !ticket_count_snoc, He. destruct (mints tok e); lia.
Qed.

(** A successful mint. *)
Lemma issue_cases s now buf claims body s' st tok : issueWSTicket s now buf claims body = (s', st, tok) ->
  (s' = s /\ tok = None) \/
  exists c b bf, claims = Some c /\ body = Some b /\ buf = Some bf /\ tok = Some (raw_url_encode bf) /\
    matchWSPath (strip_query b) = true /\
    s' = mkStore (ts_ttl s) (<[raw_url_encode bf := mkTicket (mkGrant (cl_Subject c) (cl_Roles c) (strip_query b)) (now + ts_ttl s)]> (ts_tickets s)).
Proof.
  unfold issueWSTicket. destruct claims as [c|]; [|intros [= <- <- <-]; by left].
  destruct body as [b|]; [|intros [= <- <- <-]; by left]. destruct (b =s ""); [intros [= <- <- <-]; by left|].
  destruct (matchWSPath (strip_query b)) eqn:Hm; [|intros [= <- <- <-]; by left]. cbn [negb].
  destruct (_ && _); [intros [= <- <- <-]; by left|]. destruct buf as [bf|]; [|intros [= <- <- <-]; by left].
  cbn [Issue]. intros [= <- <- <-]. right. by exists c, b, bf.
Qed.

Lemma issue_ok ttl s tr now buf claims body : tickets_ok ttl s tr ->
  let '(s', _, tok) := issueWSTicket s now buf claims body in
  tickets_ok ttl s' (tr ++ [(OIssue now buf claims body, RIssued tok)]).
Proof.
  intros Hok. destruct (issueWSTicket _ _ _ _ _) as [[s' st] tok] eqn:Hi.
  destruct (issue_cases _ _ _ _ _ _ _ _ Hi) as [[-> ->]|(c & b & bf & -> & -> & -> & -> & Hm & ->)]; [by apply (quiet_ok ttl s)|].
  destruct Hok as [Ht Hc Hl]. split; [done| |].
  - intros tok. rewrite !ticket_count_snoc. cbn. pose proof (Hc tok). destruct (_ =s tok); lia.
  - intros tok t. cbn [ts_tickets]. rewrite lookup_insert. case_decide as Htok.
    + intros [= <-]. split.
      * exists now, bf, c, b. split_and!; try done; [|cbn; by rewrite Ht].
        rewrite elem_of_app, Htok. right. by apply list_elem_of_singleton.
      * rewrite !ticket_count_snoc. cbn. rewrite Htok, String.eqb_refl. pose proof (Hc tok). lia.
    + intros Hin. destruct (Hl tok t Hin) as [Hmt Hlt]. split; [by apply minted_app|]. rewrite !ticket_count_snoc. cbn.
      destruct (_ =s tok); lia.
Qed.

(** What the gate admits, and that it takes the ticket. *)
Lemma gate_cases s now tok path s' v : wsTicketGate s now tok path = (s', v) ->
  ts_ttl s' = ts_ttl s /\ ts_tickets s' ⊆ ts_tickets s /\
  (v = Next -> exists t, ts_tickets s !! tok = Some t /\ ts_tickets s' = delete tok (ts_tickets s) /\
     now <= wt_expires t /\ g_Path (wt_grant t) = path /\ routeRoleAllowed path (g_Roles (wt_grant t)) = true).
Proof.
  unfold wsTicketGate, Consume. destruct (tok =s ""); [by intros [= <- <-]|].
  destruct (ts_tickets s !! tok) as [t|] eqn:Ht; [|by intros [= <- <-]].
  assert (delete tok (ts_tickets s) ⊆ ts_tickets s) as Hsub by apply delete_subseteq.
  destruct (Z.ltb_spec (wt_expires t) now) as [_|Hle]; [by intros [= <- <-]|].
  destruct (String.eqb_spec (g_Path (wt_grant t)) path) as [Hp|_]; [|by intros [= <- <-]].
  destruct (routeRoleAllowed path (g_Roles (wt_grant t))) eqn:Hr; [|by intros [= <- <-]].
  intros [= <- <-]. split_and!; [done|done|]. intros _. by exists t.
Qed.

Lemma gate_ok ttl s tr now tok path : tickets_ok ttl s tr ->
  let '(s', v) := wsTicketGate s now tok path in tickets_ok ttl s' (tr ++ [(OConnect now tok path, RGate v)]).
Proof.
  intros Hok. destruct (wsTicketGate _ _ _ _) as [s' v] eqn:Hg. apply gate_cases in Hg as (Htt & Hsub & Hnext).
  destruct v; [|by apply (quiet_ok ttl s)|by apply (quiet_ok ttl s)].
  destruct (Hnext eq_refl) as (t & Ht & Hdel & _). destruct Hok as [Httl Hc Hl]. split; [congruence| |].
  - intros tok'. rewrite !ticket_count_snoc. cbn. destruct (String.eqb_spec tok tok') as [<-|_]; [|pose proof (Hc tok'); lia].
    destruct (Hl tok t Ht). lia.
  - intros tok' t'. rewrite Hdel, lookup_delete_Some. intros [Hne Hin]. destruct (Hl tok' t' Hin). split; [by apply minted_app|].
    rewrite !ticket_count_snoc. cbn. destruct (String.eqb_spec tok tok'); [done|lia].
Qed.

Lemma ticket_exec_snoc ttl h o : exec ttl (h ++ [o]) =
  ((step (exec ttl h).1 o).1, (exec ttl h).2 ++ [(o, (step (exec ttl h).1 o).2)]).
Proof. unfold exec. rewrite foldl_app. cbn [foldl]. destruct (foldl _ _ h) as [s tr]. cbn [fst snd]. by destruct (step s o). Qed.

Lemma ticket_exec_ok ttl h : tickets_ok ttl (exec ttl h).1 (exec ttl h).2.
Proof.
  induction h as [|o h IH] using rev_ind.
  { split; [done|intros tok; done|]. intros tok t Ht. exact (False_ind _ (lookup_empty_Some tok t Ht)). }
  rewrite ticket_exec_snoc. cbn [fst snd]. destruct o as [now buf claims body|now tok path|now]; cbn [step].
  - pose proof (issue_ok ttl _ _ now buf claims body IH) as H. by destruct (issueWSTicket _ _ _ _ _) as [[s st] tok].
  - pose proof (gate_ok ttl _ _ now tok path IH) as H. by destruct (wsTicketGate _ _ _ _).
  - apply (quiet_ok ttl (exec ttl h).1); try done. apply map_filter_subseteq.
Qed.

(** ** Properties *)

(** A ticket opens one connection, the one it was minted for.  After any sequence
    of mints, connections and sweeps: no ticket was let through more often than it was
    minted; and whenever the gate lets a connection through, the ticket was minted
    over the API, for the very path of the connection, by a user whose roles the route
    admits, no longer ago than the store's time to live. *)
Theorem ticket_admits_once (ttl : Z) (h : list op) :
  (forall tok, count (admits tok) (exec ttl h).2 <= count (mints tok) (exec ttl h).2) /\
  forall now tok path, (wsTicketGate (exec ttl h).1 now tok path).2 = Next ->
    exists t buf claims body,
      (OIssue t (Some buf) (Some claims) (Some body), RIssued (Some tok)) ∈ (exec ttl h).2 /\
      strip_query body = path /\ matchWSPath path = true /\ now <= t + ttl /\
      routeRoleAllowed path (cl_Roles claims) = true.
Proof.
  destruct (ticket_exec_ok ttl h) as [_ Hc Hl]. split; [exact Hc|]. intros now tok path Hg.
  destruct (wsTicketGate _ _ _ _) as [s' v] eqn:Hw. cbn in Hg. subst v.
  apply gate_cases in Hw as (_ & _ & Hn). destruct (Hn eq_refl) as (t & Ht & _ & Hle & Hp & Hr).
  destruct (Hl tok t Ht) as [(t0 & buf & c & b & Hin & _ & Hgr & Hex & Hm) _]. rewrite Hgr in Hp, Hr. cbn in Hp, Hr.
  exists t0, buf, c, b. split_and!; [done|done|by rewrite <- Hp|lia|done].
Qed.

(** A viewer's ticket for a run's stream: it opens the stream once. *)
Definition vic : Claims := mkClaims "vic" "vic@x" "Vic" [] [RoleViewer] "" [].
Definition run_ticket : list op :=
  [OIssue 5 (Some [1; 2; 3]) (Some vic) (Some "/ws/app-run/r1?x=1");
   OConnect 6 "AQID" "/ws/app-run/r1"; OConnect 7 "AQID" "/ws/app-run/r1"].
Example run_ticket_ex : snd <$> (exec 60 run_ticket).2 = [RIssued (Some "AQID"); RGate Next; RGate Unauthorized].
Proof. vm_compute. reflexivity. Qed.

Lemma ticket_admits_once_witness :
  (wsTicketGate (exec 60 (take 1 run_ticket)).1 6 "AQID" "/ws/app-run/r1").2 = Next /\
  exists t buf claims body, (OIssue t (Some buf) (Some claims) (Some body), RIssued (Some "AQID")) ∈ (exec 60 (take 1 run_ticket)).2 /\ 6 <= t + 60.
Proof.
  assert ((wsTicketGate (exec 60 (take 1 run_ticket)).1 6 "AQID" "/ws/app-run/r1").2 = Next) as H by (vm_compute; reflexivity).
  split; [exact H|]. destruct (proj2 (ticket_admits_once 60 (take 1 run_ticket)) 6 "AQID" "/ws/app-run/r1" H) as (t & b & c & bd & Hin & _ & _ & Hle & _).
  exists t, b, c, bd. split; [exact Hin|exact Hle].
Defined.

(** The mint trims slashes before matching but not before looking up the route's
    role: a viewer is given a ticket for a privileged path written with a trailing
    slash, which no route serves under that name. *)
Example slash_skips_the_role :
  (issueWSTicket (newWSTicketStore 60) 5 (Some [1]) (Some vic) (Some "/ws/kubernetes/watch")).1.2 = 403 /\
  (issueWSTicket (newWSTicketStore 60) 5 (Some [1]) (Some vic) (Some "/ws/kubernetes/watch/")).1.2 = 200.
Proof. split; vm_compute; reflexivity. Qed.
