(* ===== verification/Resources.v ===== *)
(** * The editable resources: [internal/store/memory/app.go], [pipeline.go],
      the write handlers of [internal/handler/app.go] and [pipeline.go]

    The in-memory stores of applications and pipelines with their optimistic
    versions, and the handlers that create, save and delete through them.  A save
    handler is two steps, the fetch and the write, so that requests may interleave.
    The deep copy through JSON that the application store makes is the value itself
    (strings are UTF-8); what a handler hands to a store it no longer writes to, so
    pipelines are values too.  The registry-reference parser, the duration parser and
    the secret codec are arguments.  The canary tear-down before an application is
    deleted is in [Canary.v]. *)

From S2P Require Import Prelude GoStr Model Pipeline Validate Auth RunStore App.
Local Open Scope Z_scope.

(** ** Applications: the store *)

Definition set_ID (id : string) (a : App) : App :=
  mkApp id (a_Name a) (a_Description a) (a_GitHubRepo a) (a_Branch a) (a_BuildPlan a) (a_DeployTarget a)
    (a_RegistryRef a) (a_EnvironmentID a) (a_WebhookSecret a) (a_HasWebhook a) (a_AutoDeploy a) (a_Canary a)
    (a_CreatedAt a) (a_UpdatedAt a) (a_Version a) (a_HealthStatus a) (a_HealthCheckedAt a) (a_HealthMessage a)
    (a_DeployedURL a).
Definition set_Branch (branch : string) (a : App) : App :=
  mkApp (a_ID a) (a_Name a) (a_Description a) (a_GitHubRepo a) branch (a_BuildPlan a) (a_DeployTarget a)
    (a_RegistryRef a) (a_EnvironmentID a) (a_WebhookSecret a) (a_HasWebhook a) (a_AutoDeploy a) (a_Canary a)
    (a_CreatedAt a) (a_UpdatedAt a) (a_Version a) (a_HealthStatus a) (a_HealthCheckedAt a) (a_HealthMessage a)
    (a_DeployedURL a).
Definition set_WebhookSecret (secret : string) (a : App) : App :=
  mkApp (a_ID a) (a_Name a) (a_Description a) (a_GitHubRepo a) (a_Branch a) (a_BuildPlan a) (a_DeployTarget a)
    (a_RegistryRef a) (a_EnvironmentID a) secret (a_HasWebhook a) (a_AutoDeploy a) (a_Canary a) (a_CreatedAt a)
    (a_UpdatedAt a) (a_Version a) (a_HealthStatus a) (a_HealthCheckedAt a) (a_HealthMessage a) (a_DeployedURL a).
Definition set_Canary (c : CanaryConfig) (a : App) : App :=
  mkApp (a_ID a) (a_Name a) (a_Description a) (a_GitHubRepo a) (a_Branch a) (a_BuildPlan a) (a_DeployTarget a)
    (a_RegistryRef a) (a_EnvironmentID a) (a_WebhookSecret a) (a_HasWebhook a) (a_AutoDeploy a) c (a_CreatedAt a)
    (a_UpdatedAt a) (a_Version a) (a_HealthStatus a) (a_HealthCheckedAt a) (a_HealthMessage a) (a_DeployedURL a).
Definition set_times (created updated : Z) (a : App) : App :=
  mkApp (a_ID a) (a_Name a) (a_Description a) (a_GitHubRepo a) (a_Branch a) (a_BuildPlan a) (a_DeployTarget a)
    (a_RegistryRef a) (a_EnvironmentID a) (a_WebhookSecret a) (a_HasWebhook a) (a_AutoDeploy a) (a_Canary a)
    created updated (a_Version a) (a_HealthStatus a) (a_HealthCheckedAt a) (a_HealthMessage a) (a_DeployedURL a).
Definition set_Version (version : Z) (a : App) : App :=
  mkApp (a_ID a) (a_Name a) (a_Description a) (a_GitHubRepo a) (a_Branch a) (a_BuildPlan a) (a_DeployTarget a)
    (a_RegistryRef a) (a_EnvironmentID a) (a_WebhookSecret a) (a_HasWebhook a) (a_AutoDeploy a) (a_Canary a)
    (a_CreatedAt a) (a_UpdatedAt a) version (a_HealthStatus a) (a_HealthCheckedAt a) (a_HealthMessage a)
    (a_DeployedURL a).
Definition set_health (status msg : string) (at_ : Z) (url : string) (a : App) : App :=
  mkApp (a_ID a) (a_Name a) (a_Description a) (a_GitHubRepo a) (a_Branch a) (a_BuildPlan a) (a_DeployTarget a)
    (a_RegistryRef a) (a_EnvironmentID a) (a_WebhookSecret a) (a_HasWebhook a) (a_AutoDeploy a) (a_Canary a)
    (a_CreatedAt a) (a_UpdatedAt a) (a_Version a) status (Some at_) msg url.
Definition set_URL (url : string) (a : App) : App :=
  mkApp (a_ID a) (a_Name a) (a_Description a) (a_GitHubRepo a) (a_Branch a) (a_BuildPlan a) (a_DeployTarget a)
    (a_RegistryRef a) (a_EnvironmentID a) (a_WebhookSecret a) (a_HasWebhook a) (a_AutoDeploy a) (a_Canary a)
    (a_CreatedAt a) (a_UpdatedAt a) (a_Version a) (a_HealthStatus a) (a_HealthCheckedAt a) (a_HealthMessage a) url.

Inductive app_store_error := NotFound | Conflict.

Definition normalizeAppCanary (a : App) : App := set_Canary (Normalize (a_Canary a)) a.

Section apps.
Context `{RO : RangeOrder}.

Definition List_ (s : gmap string App) (limit offset : Z) : list App :=
  paginate (sort_slice (fun a b => a_UpdatedAt b <? a_UpdatedAt a) (normalizeAppCanary <$> (range_map s).*2)) limit offset.

Definition GetByRepo (s : gmap string App) (repo branch : string) : app_store_error + App :=
  match list_find (fun a => a_GitHubRepo a = repo /\ a_Branch a = branch) (range_map s).*2 with
  | Some (_, a) => inr (normalizeAppCanary a)
  | None => inl NotFound
  end.

End apps.

Definition Get (s : gmap string App) (id : string) : app_store_error + App :=
  match s !! id with Some a => inr (normalizeAppCanary a) | None => inl NotFound end.

(** The other application in the way: same explicit prefix, same destination. *)
Definition prefix_taken (a other : App) : bool :=
  negb (a_ID other =s a_ID a) && (dt_Prefix (a_DeployTarget other) =s dt_Prefix (a_DeployTarget a))
  && (DeploymentScope (a_DeployTarget other) =s DeploymentScope (a_DeployTarget a)).

Definition checkPrefix (s : gmap string App) (a : App) : option app_store_error :=
  if dt_Prefix (a_DeployTarget a) =s "" then None
  else if bool_decide (map_Exists (fun _ other => prefix_taken a other = true) s) then Some Conflict else None.

Definition Create (s : gmap string App) (a : App) : app_store_error + (gmap string App) :=
  match s !! a_ID a with
  | Some _ => inl Conflict
  | None =>
      match checkPrefix s a with
      | Some e => inl e
      | None => inr (<[a_ID a := normalizeAppCanary a]> s)
      end
  end.

(** The stored state and the caller's application, whose version moved too. *)
Definition Update (s : gmap string App) (a : App) : app_store_error + (gmap string App * App) :=
  match s !! a_ID a with
  | None => inl NotFound
  | Some cur =>
      if negb (a_Version cur =? a_Version a) then inl Conflict else
      match checkPrefix s a with
      | Some e => inl e
      | None => let a := set_Version (a_Version a + 1) a in inr (<[a_ID a := normalizeAppCanary a]> s, a)
      end
  end.

Definition Delete (s : gmap string App) (id : string) : app_store_error + (gmap string App) :=
  match s !! id with Some _ => inr (delete id s) | None => inl NotFound end.

Definition UpdateHealth (s : gmap string App) (id status msg : string) (at_ : Z) (deployedURL : string) :
    app_store_error + (gmap string App) :=
  match s !! id with
  | None => inl NotFound
  | Some cur => inr (<[id := set_health status msg at_ (if deployedURL =s "" then a_DeployedURL cur else deployedURL) cur]> s)
  end.

Definition UpdateDeployedURL (s : gmap string App) (id url : string) : app_store_error + (gmap string App) :=
  match s !! id with None => inl NotFound | Some cur => inr (<[id := set_URL url cur]> s) end.

(** ** Pipelines: the store *)

Definition set_pipeline_server (id : string) (created updated version : Z) (p : Pipeline) : Pipeline :=
  mkPipeline id (p_Name p) (p_Description p) (p_Stages p) (p_Edges p) (p_Variables p) created updated version (p_RunDeadline p).

Definition pipelines_List `{RO : RangeOrder} (s : gmap string Pipeline) (limit offset : Z) : list Pipeline :=
  paginate (sort_slice (fun a b => p_UpdatedAt b <? p_UpdatedAt a) (range_map s).*2) limit offset.

Definition pipelines_Get (s : gmap string Pipeline) (id : string) : app_store_error + Pipeline :=
  match s !! id with Some p => inr p | None => inl NotFound end.

Definition pipelines_Create (s : gmap string Pipeline) (p : Pipeline) : gmap string Pipeline := <[p_ID p := p]> s.

Definition pipelines_Update (s : gmap string Pipeline) (p : Pipeline) : app_store_error + (gmap string Pipeline * Pipeline) :=
  match s !! p_ID p with
  | None => inl NotFound
  | Some cur =>
      if negb (p_Version cur =? p_Version p) then inl Conflict else
      let p := set_pipeline_server (p_ID p) (p_CreatedAt p) (p_UpdatedAt p) (p_Version p + 1) p in inr (<[p_ID p := p]> s, p)
  end.

Definition pipelines_Delete (s : gmap string Pipeline) (id : string) : app_store_error + (gmap string Pipeline) :=
  match s !! id with Some _ => inr (delete id s) | None => inl NotFound end.

(** ** The handlers *)

(** [abortStoreErr], for an error of these stores. *)
Definition abortStoreErr (e : app_store_error) : Z := match e with NotFound => 404 | Conflict => 409 end.

Section handlers.
Context `{RO : RangeOrder} (parseNamed : string -> bool) (parseDuration : string -> option Z) (seal : string -> option string).

(** [validateAppInput]: the application with its canary policy normalised, unless refused. *)
Definition validateAppInput (a : App) : option App :=
  match first_of [Name "name" (a_Name a); Description "description" (a_Description a); GitHubRepo (a_GitHubRepo a);
                  GitRefName "branch" (a_Branch a)] with
  | Some _ => None
  | None =>
      let a := set_Canary (Normalize (a_Canary a)) a in
      match ValidateCanary (a_Canary a) with
      | Some _ => None
      | None => match ValidateAppDeployment parseNamed a with Some _ => None | None => Some a end
      end
  end.

(** [body] is [None] when the request does not bind; the result is the status and
    the redacted application. *)
Definition CreateApp (s : gmap string App) (now : Z) (uuid : string) (body : option App) : gmap string App * Z * option App :=
  match body ≫= validateAppInput with
  | None => (s, 400, None)
  | Some a =>
      let a := if a_Branch a =s "" then set_Branch "main" a else a in
      let a := set_ID "" a in
      if negb (checkAppPrefix (List_ s 0 0) a) then (s, 409, None) else
      let a := set_times now now (set_ID uuid (set_WebhookSecret "" a)) in
      match Create s a with
      | inl e => (s, abortStoreErr e, None)
      | inr s => (s, 201, Some (Redact a))
      end
  end.

(** [UpdateApp] up to the write: the application as it will be written. *)
Definition UpdateApp_prepare (s : gmap string App) (now : Z) (id : string) (body : option App) : Z + App :=
  match Get s id with
  | inl e => inl (abortStoreErr e)
  | inr existing =>
      match body ≫= validateAppInput with
      | None => inl 400
      | Some a =>
          let a := set_ID id a in
          if negb (checkAppPrefix (List_ s 0 0) a) then inl 409 else
          inr (set_times (a_CreatedAt existing) now (set_WebhookSecret (a_WebhookSecret existing) a))
      end
  end.

(** ... and the write, in the state other requests have left. *)
Definition UpdateApp_write (s : gmap string App) (a : App) : gmap string App * Z * option App :=
  match Update s a with
  | inl e => (s, abortStoreErr e, None)
  | inr (s, a) => (s, 200, Some (Redact a))
  end.

Definition UpdateApp (s : gmap string App) (now : Z) (id : string) (body : option App) : gmap string App * Z * option App :=
  match UpdateApp_prepare s now id body with inl st => (s, st, None) | inr a => UpdateApp_write s a end.

(** [secret] is [None] when the body does not bind ([binding:"required"]). *)
Definition SetAppWebhookSecret (s : gmap string App) (now : Z) (claims : option Claims) (id : string) (secret : option string) :
    gmap string App * Z :=
  if negb (CanRevealSecret claims) then (s, 403) else
  match secret with
  | None => (s, 400)
  | Some secret =>
      match Get s id with
      | inl e => (s, abortStoreErr e)
      | inr a =>
          match seal secret with
          | None => (s, 500)
          | Some sealed =>
              match Update s (set_times (a_CreatedAt a) now (set_WebhookSecret sealed a)) with
              | inl _ => (s, 500)
              | inr (s, _) => (s, 200)
              end
          end
      end
  end.

(** [createPipeline], behind both the JSON and the YAML body. *)
Definition createPipeline (s : gmap string Pipeline) (now : Z) (uuid : string) (p : Pipeline) : gmap string Pipeline * Z * option Pipeline :=
  match validatePipelineInput parseDuration p with
  | Some _ => (s, 400, None)
  | None =>
      match ValidatePipelineDAG p with
      | _ :: _ => (s, 400, None)
      | [] => let p := set_pipeline_server uuid now now 0 p in (pipelines_Create s p, 201, Some p)
      end
  end.

Definition CreatePipeline (s : gmap string Pipeline) (now : Z) (uuid : string) (body : option Pipeline) :
    gmap string Pipeline * Z * option Pipeline :=
  match body with None => (s, 400, None) | Some p => createPipeline s now uuid p end.

(** [UpdatePipeline], likewise in two steps. *)
Definition UpdatePipeline_prepare (s : gmap string Pipeline) (now : Z) (id : string) (body : option Pipeline) : Z + Pipeline :=
  match pipelines_Get s id with
  | inl e => inl (abortStoreErr e)
  | inr existing =>
      match body with
      | None => inl 400
      | Some p =>
          match validatePipelineInput parseDuration p with
          | Some _ => inl 400
          | None => inr (set_pipeline_server id (p_CreatedAt existing) now (p_Version existing) p)
          end
      end
  end.

Definition UpdatePipeline_write (s : gmap string Pipeline) (p : Pipeline) : gmap string Pipeline * Z * option Pipeline :=
  match pipelines_Update s p with
  | inl e => (s, abortStoreErr e, None)
  | inr (s, p) => (s, 200, Some p)
  end.

Definition UpdatePipeline (s : gmap string Pipeline) (now : Z) (id : string) (body : option Pipeline) :
    gmap string Pipeline * Z * option Pipeline :=
  match UpdatePipeline_prepare s now id body with inl st => (s, st, None) | inr p => UpdatePipeline_write s p end.

Definition DeletePipeline (s : gmap string Pipeline) (id : string) : gmap string Pipeline * Z :=
  match pipelines_Delete s id with inl e => (s, abortStoreErr e) | inr s => (s, 200) end.

End handlers.

(** ** Sequences of store operations *)

Inductive op :=
| OCreate (a : App) | OUpdate (a : App) | ODelete (id : string)
| OHealth (id status msg : string) (at_ : Z) (url : string) | OURL (id url : string).

Definition or_same {E} (s : gmap string App) (r : E + gmap string App) : gmap string App :=
  match r with inr s' => s' | inl _ => s end.

Definition step (s : gmap string App) (o : op) : gmap string App :=
  match o with
  | OCreate a => or_same s (Create s a)
  | OUpdate a => match Update s a with inr (s', _) => s' | inl _ => s end
  | ODelete id => or_same s (Delete s id)
  | OHealth id status msg at_ url => or_same s (UpdateHealth s id status msg at_ url)
  | OURL id url => or_same s (UpdateDeployedURL s id url)
  end.

Definition exec (s : gmap string App) (h : list op) : gmap string App := foldl step s h.

(** ** Facts *)

(** Applications are stored under their own ID and no two of them claim one explicit
    prefix at one destination. *)
Record apps_ok (s : gmap string App) : Prop := {
  ao_id id a : s !! id = Some a -> a_ID a = id;
  ao_prefix i j a b : s !! i = Some a -> s !! j = Some b -> i <> j ->
    dt_Prefix (a_DeployTarget a) <> "" -> dt_Prefix (a_DeployTarget a) = dt_Prefix (a_DeployTarget b) ->
    DeploymentScope (a_DeployTarget a) <> DeploymentScope (a_DeployTarget b)
}.

(** Storing an application that passed the check, or one with the target it had. *)
Lemma insert_ok s a : apps_ok s ->
  (checkPrefix s a = None \/ exists cur, s !! a_ID a = Some cur /\ a_DeployTarget cur = a_DeployTarget a) ->
  apps_ok (<[a_ID a := a]> s).
Proof.
  intros [Hid Hp] Ha.
  assert (forall j b, s !! j = Some b -> j <> a_ID a -> dt_Prefix (a_DeployTarget a) <> "" ->
    dt_Prefix (a_DeployTarget a) = dt_Prefix (a_DeployTarget b) ->
    DeploymentScope (a_DeployTarget a) <> DeploymentScope (a_DeployTarget b)) as Hother.
  { intros j b Hb Hj Hne Heq Hsc. destruct Ha as [Hck|(cur & Hcur & Ht)].
    - unfold checkPrefix in Hck. destruct (String.eqb_spec (dt_Prefix (a_DeployTarget a)) ""); [done|].
      case_bool_decide as Hex; [done|]. apply Hex. exists j, b. split; [done|]. unfold prefix_taken.
      rewrite (Hid j b Hb), <- Heq, <- Hsc, !String.eqb_refl. by destruct (String.eqb_spec j (a_ID a)).
    - rewrite <- Ht in *. by apply (Hp (a_ID a) j cur b). }
  split.
  - intros id b. rewrite lookup_insert. case_decide as He; [by intros [= <-]|apply Hid].
  - intros i j b c. rewrite !lookup_insert. case_decide as Hi; case_decide as Hj.
    + congruence.
    + intros [= <-] Hc Hij. apply (Hother j c Hc). congruence.
    + intros Hb [= <-] Hij Hne Heq Hsc. apply (Hother i b Hb); congruence.
    + apply Hp.
Qed.

Lemma apps_ok_same_target s s' : apps_ok s ->
  (forall id a, s' !! id = Some a -> exists b, s !! id = Some b /\ a_ID a = a_ID b /\ a_DeployTarget a = a_DeployTarget b) ->
  apps_ok s'.
Proof.
  intros [Hid Hp] H. split.
  - intros id a Ha. destruct (H id a Ha) as (b & Hb & -> & _). by apply Hid.
  - intros i j a b Ha Hb. destruct (H i a Ha) as (a' & Ha' & _ & ->). destruct (H j b Hb) as (b' & Hb' & _ & ->).
    by apply (Hp i j).
Qed.

Lemma checkPrefix_ext s a b : a_ID a = a_ID b -> a_DeployTarget a = a_DeployTarget b -> checkPrefix s a = checkPrefix s b.
Proof. intros H1 H2. unfold checkPrefix, prefix_taken. by rewrite H1, H2. Qed.

Lemma step_ok s o : apps_ok s -> apps_ok (step s o).
Proof.
  intros Hok. destruct o as [a|a|id|id status msg at_ url|id url]; cbn [step].
  - unfold Create. destruct (s !! a_ID a) eqn:Hs; [done|]. destruct (checkPrefix s a) eqn:Hc; [done|].
    apply (insert_ok s (normalizeAppCanary a)); [done|]. left. by rewrite <- Hc.
  - unfold Update. destruct (s !! a_ID a) as [cur|] eqn:Hs; [|done]. destruct (negb _); [done|].
    destruct (checkPrefix s a) eqn:Hc; [done|].
    apply (insert_ok s (normalizeAppCanary (set_Version (a_Version a + 1) a))); [done|]. left. by rewrite <- Hc.
  - unfold Delete. destruct (s !! id) as [cur|]; [|done]. apply (apps_ok_same_target s); [done|].
    cbn. intros j a [_ Hj]%lookup_delete_Some. by exists a.
  - unfold UpdateHealth. destruct (s !! id) as [cur|] eqn:Hs; [|done]. destruct Hok as [Hid Hp]. destruct (Hid id cur Hs).
    apply (insert_ok s (set_health status msg at_ _ cur)); [done|]. right. by exists cur.
  - unfold UpdateDeployedURL. destruct (s !! id) as [cur|] eqn:Hs; [|done]. destruct Hok as [Hid Hp]. destruct (Hid id cur Hs).
    apply (insert_ok s (set_URL url cur)); [done|]. right. by exists cur.
Qed.

Lemma apps_exec_ok h : forall s, apps_ok s -> apps_ok (exec s h).
Proof. induction h as [|o h IH]; intros s Hok; [done|]. apply IH, step_ok, Hok. Qed.

Lemma empty_ok : apps_ok ∅.
Proof.
  split; [intros id a H; exact (False_ind _ (lookup_empty_Some id a H))|].
  intros i j a b H. exact (False_ind _ (lookup_empty_Some i a H)).
Qed.

(** Versions never go back, short of a deletion. *)
Lemma insert_version (s : gmap string App) j a id cur : s !! id = Some cur -> (j = id -> a_Version cur <= a_Version a) ->
  exists a', <[j := a]> s !! id = Some a' /\ a_Version cur <= a_Version a'.
Proof.
  intros Hs Hv. rewrite lookup_insert. case_decide as Hj; [exists a; auto|]. exists cur. split; [done|lia].
Qed.

Lemma step_version s o id a : s !! id = Some a -> o <> ODelete id ->
  exists a', step s o !! id = Some a' /\ a_Version a <= a_Version a'.
Proof.
  intros Hs Hne. assert (exists a', s !! id = Some a' /\ a_Version a <= a_Version a') as Hsame by (exists a; split; [done|lia]).
  destruct o as [b|b|j|j status msg at_ url|j url]; cbn [step].
  - unfold Create. destruct (s !! a_ID b) eqn:Hb; [done|]. destruct (checkPrefix s b); [done|].
    apply insert_version; [done|]. intros <-. by rewrite Hs in Hb.
  - unfold Update. destruct (s !! a_ID b) as [cur|] eqn:Hb; [|done]. destruct (Z.eqb_spec (a_Version cur) (a_Version b)) as [He|]; [|done].
    cbn [negb]. destruct (checkPrefix s b); [done|]. apply insert_version; [done|]. intros Hid. change (a_ID b = id) in Hid. cbn. rewrite Hid, Hs in Hb. injection Hb as ->. lia.
  - unfold Delete. destruct (s !! j) as [c|]; [|done]. cbn. exists a. split; [|lia]. rewrite lookup_delete_ne; [done|congruence].
  - unfold UpdateHealth. destruct (s !! j) as [cur|] eqn:Hb; [|done]. apply insert_version; [done|]. intros ->. rewrite Hs in Hb. injection Hb as ->. done.
  - unfold UpdateDeployedURL. destruct (s !! j) as [cur|] eqn:Hb; [|done]. apply insert_version; [done|]. intros ->. rewrite Hs in Hb. injection Hb as ->. done.
Qed.

Lemma exec_version h id : (forall o, o ∈ h -> o <> ODelete id) -> forall s a, s !! id = Some a ->
  exists a', exec s h !! id = Some a' /\ a_Version a <= a_Version a'.
Proof.
  induction h as [|o h IH]; intros Hd s a Hs; [exists a; split; [done|lia]|]. cbn.
  destruct (step_version s o id a Hs) as (a1 & H1 & Hv1); [apply Hd; by left|].
  destruct (IH (fun o Ho => Hd o (list_elem_of_further _ _ _ Ho)) _ _ H1) as (a2 & H2 & Hv2). exists a2. split; [done|lia].
Qed.

(** ** Properties *)

(** The application store after any sequence of its operations: applications
    are stored under their own ID; no two of them claim the same explicit workload
    prefix at the same destination; and an update that was accepted makes every
    update prepared from that version or an older one a conflict from then on, until
    the application is deleted, so no accepted change is silently overwritten. *)
Theorem apps_keep_prefixes_and_versions (h : list op) :
  let s := exec ∅ h in
  (forall id a, s !! id = Some a -> a_ID a = id) /\
  (forall i j a b, s !! i = Some a -> s !! j = Some b -> i <> j -> dt_Prefix (a_DeployTarget a) <> "" ->
     DeploymentScope (a_DeployTarget a) = DeploymentScope (a_DeployTarget b) ->
     dt_Prefix (a_DeployTarget a) <> dt_Prefix (a_DeployTarget b)) /\
  (forall a s1 a1 later b, Update s a = inr (s1, a1) -> (forall o, o ∈ later -> o <> ODelete (a_ID a)) ->
     a_ID b = a_ID a -> a_Version b <= a_Version a -> Update (exec s1 later) b = inl Conflict).
Proof.
  intros s. destruct (apps_exec_ok h ∅ empty_ok) as [Hid Hp]. fold s in Hid, Hp. split_and!; [exact Hid| |].
  - intros i j a b Ha Hb Hij Hne Hsc Heq. by apply (Hp i j a b).
  - intros a s1 a1 later b Hu Hd Hb Hv. unfold Update in Hu. destruct (s !! a_ID a) as [cur|] eqn:Hs; [|done].
    destruct (negb _) in Hu; [done|]. destruct (checkPrefix s a) in Hu; [done|]. injection Hu as <- <-.
    destruct (exec_version later (a_ID a) Hd _ (normalizeAppCanary (set_Version (a_Version a + 1) a)) (lookup_insert_eq s _ _)) as (a2 & H2 & Hv2).
    cbn in H2, Hv2. unfold Update. rewrite Hb, H2. destruct (Z.eqb_spec (a_Version a2) (a_Version b)); [lia|done].
Qed.

(** Two tabs edit the same application: the second save conflicts. *)
Definition shop : App := demo_app "1" "Shop" "shop".
Lemma apps_keep_prefixes_and_versions_witness :
  exists s1 a1, Update (exec ∅ [OCreate shop]) shop = inr (s1, a1) /\
    Update (exec s1 [OURL "1" "http://shop"]) (set_Branch "dev" shop) = inl Conflict.
Proof.
  destruct (Update (exec ∅ [OCreate shop]) shop) as [e|[s1 a1]] eqn:Hu; [exfalso; revert Hu; vm_compute; discriminate|].
  exists s1, a1. split; [reflexivity|].
  apply (proj2 (proj2 (apps_keep_prefixes_and_versions [OCreate shop])) shop s1 a1 [OURL "1" "http://shop"] (set_Branch "dev" shop) Hu).
  - intros o Ho. apply list_elem_of_singleton in Ho as ->. discriminate.
  - reflexivity.
  - reflexivity.
Defined.

(** The pipeline handler takes the version from the store instead of the client:
    a save prepared from an old copy is accepted and replaces what was saved since. *)
Definition tiny (name : string) (version : Z) : Pipeline := mkPipeline "p" name "" [] [] ∅ 0 0 version "".
Example stale_save_accepted :
  let save s now body := UpdatePipeline (fun _ => None) s now "p" (Some body) in
  let '(s1, st1, _) := save {["p" := tiny "v1" 1]} 10 (tiny "mine" 1) in
  let '(s2, st2, _) := save s1 20 (tiny "theirs, from v1" 1) in
  (st1, st2, p_Name <$> s2 !! "p", p_Version <$> s2 !! "p") = (200, 200, Some "theirs, from v1", Some 3).
Proof. vm_compute. reflexivity. Qed.

(** A full save of an application carries its health fields, so with this store it
    takes back the verdict a probe has written since the copy was fetched. *)
Example save_resets_health :
  let s := exec ∅ [OCreate shop; OHealth "1" AppHealthHealthy "ok" 5 "http://shop"; OUpdate shop] in
  (a_HealthStatus <$> s !! "1", a_DeployedURL <$> s !! "1") = (Some AppHealthUnknown, Some "").
Proof. vm_compute. reflexivity. Qed.
