(* ===== verification/RunStats.v ===== *)
(** * Comparing runs and run statistics: [internal/service/run_diff.go],
      [internal/service/pipeline_analytics.go]

    Pure computations over runs and the choice of the baseline in
    [internal/handler/pipeline.go].  Go's [float64] is the executable specification
    of IEEE 754 binary64 ([SpecFloat]), so that rates and percentile ranks round as
    the program's do; [int64] sums wrap. *)

From S2P Require Import Prelude GoStr Model.
From Stdlib Require Import SpecFloat.
Local Open Scope Z_scope.

(** ** Durations and digests *)

(** [time.Time.Sub] saturates; the quotient by a millisecond truncates. *)
Definition time_Sub (t u : Z) : Z := Z.max int64_min (Z.min int64_max (t - u)).

Definition stageDurationMS (sr : StageRun) : Z :=
  match sr_StartedAt sr, sr_FinishedAt sr with
  | Some s, Some f => Z.quot (time_Sub f s) millisecond
  | _, _ => -1
  end.

Definition stageDigest (sr : StageRun) : string :=
  let fallback := match list_find (fun a => a_Type a = "oci-image" /\ a_Digest a <> "") (sr_Artifacts sr) with
                  | Some (_, a) => a_Digest a | None => "" end in
  match sr_Outputs sr !! "digest" with
  | Some v => if v =s "" then fallback else v
  | None => fallback
  end.

(** ** Run diff *)

Record VariablesDiff := mkVariablesDiff {
  vd_Added : gmap string string; vd_Removed : gmap string string; vd_Changed : gmap string (string * string)
}.

Record StageDiff := mkStageDiff {
  sd_StageID : string; sd_Name : string; sd_StatusFrom : string; sd_StatusTo : string;
  sd_DurationFrom : Z; sd_DurationTo : Z; sd_DeltaMS : Z;
  sd_DigestFrom : string; sd_DigestTo : string; sd_DigestChanged : bool; sd_OutputsChangedKeys : list string
}.

Record RunDiff := mkRunDiff {
  rd_AgainstRunID : string; rd_AgainstStatus : string; rd_Reason : string;
  rd_DefinitionChanged : option bool; rd_PipelineVersion : option (Z * Z);
  rd_Variables : option VariablesDiff; rd_Stages : list StageDiff
}.

Section diff.
Context `{RO : RangeOrder}.

(** The two loops of [diffVariables]. *)
Definition diff_to (from : gmap string string) (out : VariablesDiff) (kv : string * string) : VariablesDiff :=
  let '(k, v) := kv in
  match from !! k with
  | None => mkVariablesDiff (<[k := v]> (vd_Added out)) (vd_Removed out) (vd_Changed out)
  | Some old => if old =s v then out else mkVariablesDiff (vd_Added out) (vd_Removed out) (<[k := (old, v)]> (vd_Changed out))
  end.
Definition diff_from (to : gmap string string) (out : VariablesDiff) (kv : string * string) : VariablesDiff :=
  let '(k, v) := kv in
  match to !! k with
  | None => mkVariablesDiff (vd_Added out) (<[k := v]> (vd_Removed out)) (vd_Changed out)
  | Some _ => out
  end.

Definition diffVariables (from to : gmap string string) : option VariablesDiff :=
  let out := foldl (diff_from to) (foldl (diff_to from) (mkVariablesDiff ∅ ∅ ∅) (range_map to)) (range_map from) in
  if (size (vd_Added out) =? 0)%nat && (size (vd_Removed out) =? 0)%nat && (size (vd_Changed out) =? 0)%nat
  then None else Some out.

Definition changedOutputKeys (from to : gmap string string) : list string :=
  omap (fun '(k, v) => match from !! k with Some old => if old =s v then None else Some k | None => Some k end) (range_map to) ++
  omap (fun '(k, _) => match to !! k with Some _ => None | None => Some k end) (range_map from).

(** [names] and [baselineStages]: a later stage of the same ID replaces an earlier. *)
Definition stage_names (p : option Pipeline) : gmap string string :=
  match p with
  | Some p => foldl (fun m s => <[st_ID s := st_Name s]> m) ∅ (p_Stages p)
  | None => ∅
  end.
Definition baseline_stages (against : PipelineRun) : gmap string StageRun :=
  foldl (fun m sr => <[sr_StageID sr := sr]> m) ∅ (run_StageRuns against).

Definition stage_diff (names : gmap string string) (baseline : gmap string StageRun) (cur : StageRun) : StageDiff :=
  let id := sr_StageID cur in
  let name := default "" (names !! id) in
  let durationTo := stageDurationMS cur in
  let digestTo := stageDigest cur in
  let '(statusFrom, durationFrom, digestFrom, keys) :=
    match baseline !! id with
    | Some prev => (sr_Status prev, stageDurationMS prev, stageDigest prev, changedOutputKeys (sr_Outputs prev) (sr_Outputs cur))
    | None => ("", -1, "", [])
    end in
  mkStageDiff id name statusFrom (sr_Status cur) durationFrom durationTo
    (if (0 <=? durationFrom) && (0 <=? durationTo) then durationTo - durationFrom else 0)
    digestFrom digestTo (negb (digestFrom =s "") && negb (digestTo =s "") && negb (digestFrom =s digestTo)) keys.

Definition BuildRunDiff (base against : PipelineRun) (p : option Pipeline) : RunDiff :=
  let versioned := (0 <? run_PipelineVersion base) && (0 <? run_PipelineVersion against) in
  mkRunDiff (run_ID against) (run_Status against) ""
    (if versioned then Some (negb (run_PipelineVersion base =? run_PipelineVersion against)) else None)
    (if versioned then Some (run_PipelineVersion against, run_PipelineVersion base) else None)
    (diffVariables (run_Variables against) (run_Variables base))
    (stage_diff (stage_names p) (baseline_stages against) <$> run_StageRuns base).

(** [GetRunDiff]'s default baseline, from the run list, newest first. *)
Definition last_success (base : PipelineRun) (runs : list PipelineRun) : option PipelineRun :=
  snd <$> list_find (fun r => run_ID r <> run_ID base /\ run_Status r = RunStatusSuccess /\ run_CreatedAt r < run_CreatedAt base) runs.

Definition run_diff_default (base : PipelineRun) (runs : list PipelineRun) (p : option Pipeline) : RunDiff :=
  match last_success base runs with
  | None => mkRunDiff "" "" "no successful prior run" None None None []
  | Some against => BuildRunDiff base against p
  end.
End diff.

(** ** Statistics *)

Record StageStats := mkStageStats {
  ss_StageID : string; ss_Name : string; ss_Type : string; ss_Samples : Z;
  ss_P50MS : Z; ss_P95MS : Z; ss_AvgMS : Z; ss_SuccessRate : spec_float
}.
Record RunPoint := mkRunPoint {
  rp_RunID : string; rp_CreatedAt : Z; rp_Status : string; rp_DurationMS : Z; rp_StageDurations : gmap string Z
}.
Record PipelineAnalytics := mkAnalytics {
  pa_PipelineID : string; pa_RunCount : Z; pa_SuccessRate : spec_float; pa_Stages : list StageStats; pa_Runs : list RunPoint
}.

Definition isTerminalRunStatus (s : string) : bool :=
  (s =s RunStatusSuccess) || (s =s RunStatusFailed) || (s =s RunStatusCancelled) || (s =s "skipped").

(** [float64(n)], [0.50], [0.95], [0.5]; conversion to [int] truncates. *)
Definition float_of_int (n : Z) : spec_float := binary_normalize 53 1024 n 0 false.
Definition float_zero : spec_float := S754_zero false.
Definition float_half : spec_float := S754_finite false 4503599627370496 (-53).
Definition q50 : spec_float := float_half.
Definition q95 : spec_float := S754_finite false 8556839292003942 (-53).
Definition int_of_float (x : spec_float) : Z :=
  match x with
  | S754_finite s m e =>
      let n := if 0 <=? e then Zpos m * 2 ^ e else Zpos m / 2 ^ (- e) in if s then - n else n
  | _ => 0
  end.
Definition rate (a b : Z) : spec_float := SFdiv 53 1024 (float_of_int a) (float_of_int b).

Definition percentile_index (n : Z) (q : spec_float) : Z :=
  let idx := int_of_float (SFadd 53 1024 (SFmul 53 1024 q (float_of_int n)) float_half) - 1 in
  let idx := if idx <? 0 then 0 else idx in
  if n <=? idx then n - 1 else idx.

Definition percentile (sorted : list Z) (q : spec_float) : Z :=
  match sorted with
  | [] => 0
  | _ => nth (Z.to_nat (percentile_index (Z.of_nat (length sorted)) q)) sorted 0
  end.

(** What the loop over the runs gathers; [seen] is the set of [ac_order]. *)
Record acc := mkAcc {
  ac_order : list string; ac_durations : gmap string (list Z); ac_successes : gmap string Z;
  ac_terminal : gmap string Z; ac_terminalRuns : Z; ac_successRuns : Z; ac_points : list RunPoint
}.

Definition bump (m : gmap string Z) (id : string) : gmap string Z := <[id := default 0 (m !! id) + 1]> m.

Definition add_stage_run (st : acc * gmap string Z) (sr : StageRun) : acc * gmap string Z :=
  let '(a, perRun) := st in
  let id := sr_StageID sr in
  let order := if bool_decide (id ∈ ac_order a) then ac_order a else ac_order a ++ [id] in
  let counted := isTerminalRunStatus (sr_Status sr) && negb (sr_Status sr =s "skipped") in
  let terminal := if counted then bump (ac_terminal a) id else ac_terminal a in
  let successes := if counted && (sr_Status sr =s RunStatusSuccess) then bump (ac_successes a) id else ac_successes a in
  let '(durations, perRun) :=
    match sr_StartedAt sr, sr_FinishedAt sr with
    | Some s, Some f =>
        let ms := Z.quot (time_Sub f s) millisecond in
        (<[id := default [] (ac_durations a !! id) ++ [ms]]> (ac_durations a), <[id := ms]> perRun)
    | _, _ => (ac_durations a, perRun)
    end in
  (mkAcc order durations successes terminal (ac_terminalRuns a) (ac_successRuns a) (ac_points a), perRun).

Definition add_run (a : acc) (r : PipelineRun) : acc :=
  let durationMS := match run_StartedAt r, run_FinishedAt r with
                    | Some s, Some f => Z.quot (time_Sub f s) millisecond | _, _ => -1 end in
  let a := if isTerminalRunStatus (run_Status r) then
             mkAcc (ac_order a) (ac_durations a) (ac_successes a) (ac_terminal a) (ac_terminalRuns a + 1)
               (if run_Status r =s RunStatusSuccess then ac_successRuns a + 1 else ac_successRuns a) (ac_points a)
           else a in
  let '(a, perRun) := foldl add_stage_run (a, ∅) (run_StageRuns r) in
  mkAcc (ac_order a) (ac_durations a) (ac_successes a) (ac_terminal a) (ac_terminalRuns a) (ac_successRuns a)
    (ac_points a ++ [mkRunPoint (run_ID r) (run_CreatedAt r) (run_Status r) durationMS perRun]).

Definition stage_types (p : option Pipeline) : gmap string string :=
  match p with
  | Some p => foldl (fun m s => <[st_ID s := st_Type s]> m) ∅ (p_Stages p)
  | None => ∅
  end.

Definition sum64 (l : list Z) : Z := foldl (fun sum v => wrap64 (sum + v)) 0 l.

Definition stage_stats (names types : gmap string string) (a : acc) (id : string) : StageStats :=
  let samples := default [] (ac_durations a !! id) in
  let n := default 0 (ac_terminal a !! id) in
  let sorted := sort_slice Z.ltb samples in
  mkStageStats id (default "" (names !! id)) (default "" (types !! id)) (Z.of_nat (length samples))
    (percentile sorted q50) (percentile sorted q95)
    (match samples with [] => 0 | _ => Z.quot (sum64 sorted) (Z.of_nat (length sorted)) end)
    (if 0 <? n then rate (default 0 (ac_successes a !! id)) n else float_zero).

Definition gather (p : option Pipeline) (runs : list PipelineRun) : acc :=
  foldl add_run (mkAcc (match p with Some p => st_ID <$> p_Stages p | None => [] end) ∅ ∅ ∅ 0 0 []) runs.

Definition ComputeAnalytics (p : option Pipeline) (runs : list PipelineRun) : PipelineAnalytics :=
  let a := gather p runs in
  mkAnalytics (match p with Some p => p_ID p | None => "" end) (Z.of_nat (length runs))
    (if 0 <? ac_terminalRuns a then rate (ac_successRuns a) (ac_terminalRuns a) else float_zero)
    (stage_stats (stage_names p) (stage_types p) a <$> ac_order a) (ac_points a).

(** ** Facts about the diff *)

(** A loop that inserts what [f] keeps of each entry. *)
Definition insert_kept {B} (f : string * string -> option B) (m : gmap string B) (kv : string * string) : gmap string B :=
  match f kv with Some b => <[kv.1 := b]> m | None => m end.

Lemma fold_insert_kept {B} (f : string * string -> option B) l : forall m k, NoDup l.*1 ->
  foldl (insert_kept f) m l !! k =
    match (list_to_map l : gmap string string) !! k ≫= (fun v => f (k, v)) with Some b => Some b | None => m !! k end.
Proof.
  induction l as [|[k' v'] l IH]; intros m k Hnd; cbn [foldl]; [done|].
  apply NoDup_cons in Hnd as [Hk' Hnd]. rewrite IH by done. rewrite list_to_map_cons. unfold insert_kept at 1. cbn [fst].
  destruct (decide (k' = k)) as [->|Hne].
  - assert ((list_to_map l : gmap string string) !! k = None) as -> by (by apply not_elem_of_list_to_map_1).
    rewrite lookup_insert_eq. cbn. destruct (f (k, v')) as [b|] eqn:Hf; [by rewrite lookup_insert_eq|done].
  - rewrite lookup_insert_ne by done. destruct (_ ≫= _); [done|]. destruct (f (k', v')); [by rewrite lookup_insert_ne|done].
Qed.

Definition kept_added (from : gmap string string) (kv : string * string) : option string :=
  match from !! kv.1 with None => Some kv.2 | Some _ => None end.
Definition kept_changed (from : gmap string string) (kv : string * string) : option (string * string) :=
  match from !! kv.1 with None => None | Some old => if old =s kv.2 then None else Some (old, kv.2) end.

Lemma diff_to_kept from out kv : diff_to from out kv =
  mkVariablesDiff (insert_kept (kept_added from) (vd_Added out) kv) (vd_Removed out)
    (insert_kept (kept_changed from) (vd_Changed out) kv).
Proof.
  destruct out as [a r c], kv as [k v]. unfold diff_to, insert_kept, kept_added, kept_changed. cbn [fst snd].
  destruct (from !! k) as [old|]; [|done]. by destruct (old =s v).
Qed.

Lemma diff_from_kept to out kv : diff_from to out kv =
  mkVariablesDiff (vd_Added out) (insert_kept (kept_added to) (vd_Removed out) kv) (vd_Changed out).
Proof.
  destruct out as [a r c], kv as [k v]. unfold diff_from, insert_kept, kept_added. cbn [fst snd]. by destruct (to !! k).
Qed.

Lemma fold_diff_to from l : forall out, foldl (diff_to from) out l =
  mkVariablesDiff (foldl (insert_kept (kept_added from)) (vd_Added out) l) (vd_Removed out)
    (foldl (insert_kept (kept_changed from)) (vd_Changed out) l).
Proof. induction l as [|kv l IH]; intros out; cbn [foldl]; [by destruct out|]. by rewrite IH, diff_to_kept. Qed.

Lemma fold_diff_from to l : forall out, foldl (diff_from to) out l =
  mkVariablesDiff (vd_Added out) (foldl (insert_kept (kept_added to)) (vd_Removed out) l) (vd_Changed out).
Proof. induction l as [|kv l IH]; intros out; cbn [foldl]; [by destruct out|]. by rewrite IH, diff_from_kept. Qed.

Section diff_facts.
Context `{RO : RangeOrder}.

Lemma range_to_map (m : gmap string string) : list_to_map (range_map m) = m.
Proof.
  rewrite <- (list_to_map_to_list m) at 2. apply list_to_map_proper; [apply NoDup_range_fst|]. apply range_map_perm.
Qed.

Lemma fold_range {B} (f : string * string -> option B) (m : gmap string string) k :
  foldl (insert_kept f) ∅ (range_map m) !! k = m !! k ≫= fun v => f (k, v).
Proof.
  rewrite fold_insert_kept by apply NoDup_range_fst. rewrite range_to_map, lookup_empty. by destruct (_ ≫= _).
Qed.

(** What each part of the difference holds. *)
Lemma diff_lookups from to :
  let out := foldl (diff_from to) (foldl (diff_to from) (mkVariablesDiff ∅ ∅ ∅) (range_map to)) (range_map from) in
  forall k, vd_Added out !! k = (to !! k ≫= fun v => kept_added from (k, v)) /\
            vd_Removed out !! k = (from !! k ≫= fun v => kept_added to (k, v)) /\
            vd_Changed out !! k = (to !! k ≫= fun v => kept_changed from (k, v)).
Proof. intros out k. subst out. rewrite fold_diff_from, fold_diff_to. cbn [vd_Added vd_Removed vd_Changed]. by rewrite !fold_range. Qed.

Lemma changedOutputKeys_spec from to k : k ∈ changedOutputKeys from to <-> from !! k <> to !! k.
Proof.
  unfold changedOutputKeys. rewrite elem_of_app, !list_elem_of_omap. split.
  - intros [([k' v] & Hin%elem_of_range & He)|([k' v] & Hin%elem_of_range & He)].
    + destruct (from !! k') as [old|] eqn:Hf; [|injection He as <-; congruence].
      destruct (String.eqb_spec old v); [done|]. injection He as <-. congruence.
    + destruct (to !! k') eqn:Ht; [done|]. injection He as <-. congruence.
  - intros Hne. destruct (to !! k) as [v|] eqn:Ht.
    + left. exists (k, v). split; [by apply elem_of_range|]. destruct (from !! k) as [old|] eqn:Hf; [|done].
      destruct (String.eqb_spec old v) as [->|]; [done|done].
    + destruct (from !! k) as [old|] eqn:Hf; [|done]. right. exists (k, old). split; [by apply elem_of_range|]. by rewrite Ht.
Qed.
End diff_facts.

(** The reference: what a difference does to a set of variables. *)
Definition replay (d : option VariablesDiff) (from : gmap string string) : gmap string string :=
  match d with
  | None => from
  | Some d => (snd <$> vd_Changed d) ∪ vd_Added d ∪ (from ∖ vd_Removed d)
  end.

Lemma size_zero {B} (m : gmap string B) : (size m =? 0)%nat = true <-> m = ∅.
Proof. by rewrite Nat.eqb_eq, map_size_empty_iff. Qed.

Lemma diffVariables_replay `{RO : RangeOrder} from to :
  replay (diffVariables from to) from = to /\ (diffVariables from to = None <-> from = to).
Proof.
  unfold diffVariables. pose proof (diff_lookups from to) as Hl. cbv zeta in Hl. cbv zeta.
  set (out := foldl (diff_from to) _ _) in *. clearbody out.
  assert (forall k, replay (Some out) from !! k = to !! k) as Hreplay.
  { intros k. destruct (Hl k) as (Ha & Hr & Hc). unfold replay. rewrite lookup_union, lookup_union, lookup_fmap, lookup_difference, Ha, Hr, Hc.
    unfold kept_added, kept_changed. cbn [fst snd]. destruct (to !! k) as [v|]; destruct (from !! k) as [old|]; cbn; try done.
    destruct (String.eqb_spec old v) as [->|]; done. }
  destruct (_ && _ && _) eqn:He.
  - apply andb_true_iff in He as [[Ha Hr]%andb_true_iff Hc]. apply size_zero in Ha, Hr, Hc.
    assert (from = to) as Heq.
    { apply map_eq. intros k. rewrite <- (Hreplay k). unfold replay. rewrite Ha, Hr, Hc, fmap_empty, !(left_id_L ∅ (∪)), map_difference_empty. done. }
    split; [exact Heq|]. by split.
  - split; [apply map_eq; exact Hreplay|]. split; [done|]. intros <-. exfalso.
    assert (vd_Added out = ∅ /\ vd_Removed out = ∅ /\ vd_Changed out = ∅) as (H1 & H2 & H3).
    { split_and!; apply map_eq; intros k; destruct (Hl k) as (Ha & Hr & Hc); rewrite ?Ha, ?Hr, ?Hc, lookup_empty; unfold kept_added, kept_changed;
        cbn [fst snd]; destruct (from !! k) as [v|]; cbn; try done. by rewrite String.eqb_refl. }
    by rewrite H1, H2, H3 in He.
Qed.

(** ** Facts about the statistics *)

(** The references: the stage runs of a history in order, the durations measurable
    for a stage, and how many of its runs ended and succeeded. *)
Definition all_stage_runs (runs : list PipelineRun) : list StageRun := runs ≫= run_StageRuns.
Definition measured (id : string) (sr : StageRun) : option Z :=
  if sr_StageID sr =s id then
    match sr_StartedAt sr, sr_FinishedAt sr with
    | Some s, Some f => Some (Z.quot (time_Sub f s) millisecond) | _, _ => None end
  else None.
Definition stage_samples (l : list StageRun) (id : string) : list Z := omap (measured id) l.
Definition counted (id : string) (sr : StageRun) : bool :=
  (sr_StageID sr =s id) && isTerminalRunStatus (sr_Status sr) && negb (sr_Status sr =s "skipped").
Definition settled (l : list StageRun) (id : string) : Z := Z.of_nat (length (List.filter (counted id) l)).
Definition succeeded (l : list StageRun) (id : string) : Z :=
  Z.of_nat (length (List.filter (fun sr => counted id sr && (sr_Status sr =s RunStatusSuccess)) l)).
Definition ended_runs (runs : list PipelineRun) : Z := Z.of_nat (length (List.filter (fun r => isTerminalRunStatus (run_Status r)) runs)).
Definition green_runs (runs : list PipelineRun) : Z := Z.of_nat (length (List.filter (fun r => run_Status r =s RunStatusSuccess) runs)).

(** What the accumulator holds of the stage runs seen. *)
Definition holds (a : acc) (l : list StageRun) : Prop := forall id,
  default [] (ac_durations a !! id) = stage_samples l id /\
  default 0 (ac_terminal a !! id) = settled l id /\ default 0 (ac_successes a !! id) = succeeded l id.

Lemma stage_count_snoc (f : StageRun -> bool) l sr :
  Z.of_nat (length (List.filter f (l ++ [sr]))) = Z.of_nat (length (List.filter f l)) + (if f sr then 1 else 0).
Proof. rewrite List.filter_app, length_app. cbn. destruct (f sr); cbn; lia. Qed.

Lemma bump_default m id id' : default 0 (bump m id !! id') = default 0 (m !! id') + (if id =s id' then 1 else 0).
Proof.
  unfold bump. rewrite lookup_insert. destruct (String.eqb_spec id id') as [->|Hne].
  - by rewrite decide_True.
  - rewrite decide_False by done. lia.
Qed.

Lemma add_stage_run_holds a perRun l sr : holds a l -> holds (add_stage_run (a, perRun) sr).1 (l ++ [sr]).
Proof.
  intros Ha id. destruct (Ha id) as (Hd & Ht & Hs). unfold stage_samples, settled, succeeded in *.
  rewrite !stage_count_snoc, omap_app, <- Hd, <- Ht, <- Hs. unfold add_stage_run. split_and!.
  - change (omap (measured id) [sr]) with (match measured id sr with Some x => [x] | None => [] end). unfold measured.
    destruct (sr_StartedAt sr) as [t0|]; [destruct (sr_FinishedAt sr) as [t1|]|]; cbn [fst ac_durations].
    + rewrite lookup_insert. destruct (String.eqb_spec (sr_StageID sr) id) as [->|Hne]; [by rewrite decide_True|].
      rewrite decide_False by done. by rewrite app_nil_r.
    + by destruct (sr_StageID sr =s id); rewrite app_nil_r.
    + by destruct (sr_StageID sr =s id); rewrite app_nil_r.
  - unfold counted. destruct (match sr_StartedAt sr with Some _ => _ | None => _ end) as [d pr]. cbn [fst ac_terminal].
    destruct (isTerminalRunStatus _ && _) eqn:Hc; [rewrite bump_default|]; rewrite <- andb_assoc, Hc, ?andb_true_r, ?andb_false_r; [done|lia].
  - unfold counted. destruct (match sr_StartedAt sr with Some _ => _ | None => _ end) as [d pr]. cbn [fst ac_successes].
    rewrite <- (andb_assoc (_ =s id)). destruct (isTerminalRunStatus _ && negb _); cbn [andb]; rewrite ?andb_false_r, ?andb_true_r; cbn [andb]; [|lia].
    destruct (sr_Status sr =s RunStatusSuccess); [rewrite bump_default|]; rewrite ?andb_true_r, ?andb_false_r; [done|lia].
Qed.

Lemma add_stage_runs_holds srs : forall a perRun l, holds a l -> holds (foldl add_stage_run (a, perRun) srs).1 (l ++ srs).
Proof.
  induction srs as [|sr srs IH]; intros a perRun l Ha; [by rewrite app_nil_r|]. cbn [foldl].
  pose proof (add_stage_run_holds a perRun l sr Ha) as H. destruct (add_stage_run (a, perRun) sr) as [a' pr].
  replace (l ++ sr :: srs) with ((l ++ [sr]) ++ srs) by (by rewrite <- app_assoc). by apply IH.
Qed.

(** The counters of runs are not touched by stages. *)
Lemma add_stage_runs_counts srs : forall a perRun,
  let a' := (foldl add_stage_run (a, perRun) srs).1 in
  ac_terminalRuns a' = ac_terminalRuns a /\ ac_successRuns a' = ac_successRuns a /\ ac_points a' = ac_points a.
Proof.
  induction srs as [|sr srs IH]; intros a perRun; [done|]. cbn [foldl].
  destruct (add_stage_run (a, perRun) sr) as [a' pr] eqn:H.
  assert (ac_terminalRuns a' = ac_terminalRuns a /\ ac_successRuns a' = ac_successRuns a /\ ac_points a' = ac_points a) as (H1 & H2 & H3).
  { revert H. unfold add_stage_run. destruct (sr_StartedAt sr); [destruct (sr_FinishedAt sr)|]; by intros [= <- <-]. }
  destruct (IH a' pr) as (-> & -> & ->). by rewrite H1, H2, H3.
Qed.

Lemma add_run_holds a r l : holds a l -> holds (add_run a r) (l ++ run_StageRuns r).
Proof.
  intros Ha. unfold add_run.
  set (a0 := if isTerminalRunStatus (run_Status r) then _ else a).
  assert (holds a0 l) as H0 by (subst a0; by destruct (isTerminalRunStatus _)).
  pose proof (add_stage_runs_holds (run_StageRuns r) a0 ∅ l H0) as H. destruct (foldl add_stage_run (a0, ∅) _) as [a' pr]. exact H.
Qed.

Lemma add_run_counts a r : ac_terminalRuns (add_run a r) = ac_terminalRuns a + (if isTerminalRunStatus (run_Status r) then 1 else 0) /\
  ac_successRuns (add_run a r) = ac_successRuns a + (if run_Status r =s RunStatusSuccess then 1 else 0).
Proof.
  unfold add_run. set (a0 := if isTerminalRunStatus (run_Status r) then _ else a).
  pose proof (add_stage_runs_counts (run_StageRuns r) a0 ∅) as (H1 & H2 & _). destruct (foldl add_stage_run (a0, ∅) _) as [a' pr].
  cbn [fst snd ac_terminalRuns ac_successRuns] in *. rewrite H1, H2. subst a0. unfold isTerminalRunStatus.
  destruct (run_Status r =s RunStatusSuccess); cbn; [lia|]. destruct (_ || _); cbn; lia.
Qed.

Lemma gather_spec p runs : holds (gather p runs) (all_stage_runs runs) /\
  ac_terminalRuns (gather p runs) = ended_runs runs /\ ac_successRuns (gather p runs) = green_runs runs.
Proof.
  unfold gather. induction runs as [|r runs IH] using rev_ind; [done|]. rewrite foldl_app. cbn [foldl].
  destruct IH as (Hh & Ht & Hs). set (a := foldl add_run _ runs) in *. destruct (add_run_counts a r) as [-> ->]. split_and!.
  - unfold all_stage_runs. rewrite bind_app. cbn. rewrite app_nil_r. by apply add_run_holds.
  - unfold ended_runs. rewrite List.filter_app, length_app, Nat2Z.inj_add. unfold ended_runs in Ht. rewrite Ht. cbn. by destruct (isTerminalRunStatus _).
  - unfold green_runs. rewrite List.filter_app, length_app, Nat2Z.inj_add. unfold green_runs in Hs. rewrite Hs. cbn. by destruct (_ =s _).
Qed.

(** The rank [int(q * n + 0.5) - 1] in binary64 is the rounded rank in the integers,
    for every sample size up to a thousand. *)
Definition rank_agrees (n : Z) : bool :=
  (percentile_index n q50 =? (n + 1) / 2 - 1) && (percentile_index n q95 =? Z.max 0 ((95 * n + 50) / 100 - 1)).

Lemma ranks_computed : forallb (fun i => rank_agrees (Z.of_nat i)) (seq 1 1000) = true.
Proof. vm_compute. reflexivity. Qed.

Lemma rank_spec n : 1 <= n <= 1000 ->
  percentile_index n q50 = (n + 1) / 2 - 1 /\ percentile_index n q95 = Z.max 0 ((95 * n + 50) / 100 - 1).
Proof.
  intros Hn. assert (rank_agrees n = true) as H.
  { rewrite <- (Z2Nat.id n) by lia. apply (proj1 (forallb_forall _ _) ranks_computed), in_seq. lia. }
  rewrite <- !Z.eqb_eq. by apply andb_true_iff.
Qed.

Lemma ranks_ordered n : 1 <= n <= 1000 -> 0 <= percentile_index n q50 <= percentile_index n q95 /\ percentile_index n q95 < n.
Proof. intros Hn. destruct (rank_spec n Hn) as [-> ->]. lia. Qed.

Lemma sorted_nth l : StronglySorted (fun x y => x <= y) l -> forall i j, (i <= j < length l)%nat -> nth i l 0 <= nth j l 0.
Proof.
  induction 1 as [|x l Hs IH Hall]; intros i j Hij; [cbn in Hij; lia|]. destruct j as [|j]; [assert (i = 0%nat) as -> by lia; done|].
  cbn in Hij. destruct i as [|i]; cbn; [|apply IH; lia].
  rewrite Forall_forall in Hall. apply Hall, list_elem_of_In, nth_In. lia.
Qed.

Lemma percentile_nth l q : l <> [] -> percentile l q = nth (Z.to_nat (percentile_index (Z.of_nat (length l)) q)) l 0.
Proof. by destruct l. Qed.

Lemma sum64_spec l lo hi : 0 <= lo -> (forall x, x ∈ l -> lo <= x <= hi) -> Z.of_nat (length l) * hi <= int64_max ->
  Z.of_nat (length l) * lo <= sum64 l <= Z.of_nat (length l) * hi.
Proof.
  intros Hlo. unfold sum64. induction l as [|x l IH] using rev_ind; intros Hl Hmax; [cbn; lia|].
  rewrite foldl_app, length_app in *. cbn [foldl length] in *. assert (lo <= x <= hi) as Hx by (apply Hl; rewrite elem_of_app; right; by left).
  assert (forall y, y ∈ l -> lo <= y <= hi) as Hl' by (intros y Hy; apply Hl; rewrite elem_of_app; by left).
  specialize (IH Hl' ltac:(nia)). rewrite wrap64_small; [nia|]. unfold int64_min in *. nia.
Qed.

(** ** Properties *)

(** A run diff loses nothing: replaying its variables part on the baseline's
    variables gives the run's own, and it is absent exactly when they agree; it has
    one row per stage run of the run, in order; and against the baseline's latest
    entry for that stage the row names exactly the outputs that differ, and claims a
    new digest exactly when both runs have one and they differ. *)
Theorem BuildRunDiff_replays `{RO : RangeOrder} (base against : PipelineRun) (p : option Pipeline) :
  let d := BuildRunDiff base against p in
  replay (rd_Variables d) (run_Variables against) = run_Variables base /\
  (rd_Variables d = None <-> run_Variables against = run_Variables base) /\
  sd_StageID <$> rd_Stages d = sr_StageID <$> run_StageRuns base /\
  (forall i cur sd, run_StageRuns base !! i = Some cur -> rd_Stages d !! i = Some sd ->
     sd_StatusTo sd = sr_Status cur /\
     match baseline_stages against !! sr_StageID cur with
     | Some prev =>
         sd_StatusFrom sd = sr_Status prev /\
         (forall k, k ∈ sd_OutputsChangedKeys sd <-> sr_Outputs prev !! k <> sr_Outputs cur !! k) /\
         (sd_DigestChanged sd = true <-> stageDigest prev <> "" /\ stageDigest cur <> "" /\ stageDigest prev <> stageDigest cur)
     | None => sd_DurationFrom sd = -1 /\ sd_DigestChanged sd = false
     end).
Proof.
  intros d. destruct (diffVariables_replay (run_Variables against) (run_Variables base)) as [Hr Hn].
  split; [exact Hr|]. split; [exact Hn|]. assert (forall names bl cur, sd_StageID (stage_diff names bl cur) = sr_StageID cur) as Hid.
  { intros names bl cur. unfold stage_diff. by destruct (bl !! sr_StageID cur). }
  split; [unfold d; cbn [BuildRunDiff rd_Stages]; rewrite <- list_fmap_compose; apply list_fmap_ext; intros; apply Hid|].
  intros i cur sd Hcur Hsd. unfold d in Hsd. cbn [BuildRunDiff rd_Stages] in Hsd. rewrite list_lookup_fmap, Hcur in Hsd. injection Hsd as <-.
  unfold stage_diff. destruct (baseline_stages against !! sr_StageID cur) as [prev|]; cbn [sd_StatusTo sd_StatusFrom sd_OutputsChangedKeys sd_DigestChanged sd_DurationFrom];
    [|done]. split_and!; [done|done|apply changedOutputKeys_spec|].
  rewrite !andb_true_iff, !negb_true_iff, !String.eqb_neq. tauto.
Qed.

(** Run statistics against their definition: the overall rate is the share of
    green runs among those that ended; a stage's samples are its measurable durations
    in the history, its rate the share of successes, never more than all, among its
    ended runs.  With up to a thousand samples the percentiles are the samples of the
    rounded ranks n/2 and 95n/100, so the median never exceeds the 95th percentile;
    and the average lies within the samples' range while the sum fits 64 bits. *)
Theorem ComputeAnalytics_exact (p : option Pipeline) (runs : list PipelineRun) :
  let a := ComputeAnalytics p runs in
  pa_SuccessRate a = (if 0 <? ended_runs runs then rate (green_runs runs) (ended_runs runs) else float_zero) /\
  forall st, st ∈ pa_Stages a ->
    let l := all_stage_runs runs in let S := stage_samples l (ss_StageID st) in let n := Z.of_nat (length S) in
    ss_Samples st = n /\
    ss_SuccessRate st = (if 0 <? settled l (ss_StageID st) then rate (succeeded l (ss_StageID st)) (settled l (ss_StageID st)) else float_zero) /\
    succeeded l (ss_StageID st) <= settled l (ss_StageID st) /\
    (1 <= n <= 1000 ->
       ss_P50MS st = nth (Z.to_nat ((n + 1) / 2 - 1)) (sort_slice Z.ltb S) 0 /\
       ss_P95MS st = nth (Z.to_nat (Z.max 0 ((95 * n + 50) / 100 - 1))) (sort_slice Z.ltb S) 0 /\
       ss_P50MS st <= ss_P95MS st /\ ss_P50MS st ∈ S /\ ss_P95MS st ∈ S) /\
    (forall lo hi, 0 <= lo -> (forall x, x ∈ S -> lo <= x <= hi) -> 1 <= n -> n * hi <= int64_max -> lo <= ss_AvgMS st <= hi).
Proof.
  intros a. destruct (gather_spec p runs) as (Hh & Ht & Hs). split; [unfold a, ComputeAnalytics; cbn [pa_SuccessRate]; by rewrite Ht, Hs|].
  intros st Hst l S n. unfold a, ComputeAnalytics in Hst. cbn [pa_Stages] in Hst. apply list_elem_of_fmap in Hst as (id & -> & _).
  unfold stage_stats in *. cbn [ss_StageID ss_Samples ss_SuccessRate ss_P50MS ss_P95MS ss_AvgMS] in *.
  destruct (Hh id) as (Hd & Htm & Hsc). fold l in Hd, Htm, Hsc. fold S in Hd. rewrite Hd, Htm, Hsc.
  pose proof (sort_slice_sorted (fun x => x) S) as Hsort. change (sort_slice (fun x y => x <? y) S) with (sort_slice Z.ltb S) in Hsort.
  pose proof (length_sort_slice Z.ltb S) as Hlen. pose proof (elem_of_sort_slice Z.ltb S) as Helem.
  set (sorted := sort_slice Z.ltb S) in *. split_and!; [done|done| | |].
  - unfold succeeded, settled. apply inj_le. clear. induction l as [|sr l IH]; cbn; [lia|].
    destruct (counted id sr); cbn; [destruct (_ =s _); cbn; lia|lia].
  - intros Hn. destruct (rank_spec n Hn) as [H50 H95]. destruct (ranks_ordered n Hn) as [[H0 Hle] Hlt].
    assert (sorted <> []) as Hne by (intros He; rewrite He in Hlen; cbn in Hlen; lia).
    rewrite !percentile_nth, Hlen by done. fold n. split_and!; [by rewrite H50|by rewrite H95| | |].
    + apply sorted_nth; [done|]. lia.
    + apply Helem, list_elem_of_In, nth_In. lia.
    + apply Helem, list_elem_of_In, nth_In. lia.
  - intros lo hi Hlo Hall Hn Hmax. destruct S as [|x S'] eqn:HS; [cbn in n; lia|].
    pose proof (sum64_spec sorted lo hi Hlo) as Hsum. rewrite Hlen in *. fold n in Hsum |- *.
    specialize (Hsum (fun y Hy => Hall y (proj1 (Helem y) Hy)) Hmax).
    rewrite Z.quot_div_nonneg by nia. split; [apply Z.div_le_lower_bound; nia|]. apply Z.div_le_upper_bound; nia.
Qed.

(** A rerun: one stage faster, one new, the image rebuilt. *)
Definition stage_at (id status digest : string) (started finished : Z) : StageRun :=
  mkStageRun id status (Some started) (Some finished) "" "" [] {["digest" := digest]}.
Definition run_at (id status : string) (created : Z) (vars : gmap string string) (stages : list StageRun) : PipelineRun :=
  mkPipelineRun id "p" status stages [] vars created (Some created) (Some (created + 5 * second)) "" None "" "" [] "" 3.

Example diff_ex : let RO := range_default in
  let against := run_at "r1" RunStatusSuccess 0 {["A" := "1"; "B" := "2"]} [stage_at "build" RunStatusSuccess "sha:1" 0 (2 * second)] in
  let base := run_at "r2" RunStatusFailed (10 * second) {["B" := "3"; "C" := "4"]}
                [stage_at "build" RunStatusSuccess "sha:2" 0 second; stage_at "test" RunStatusFailed "" 0 second] in
  let d := run_diff_default base [base; against] None in
  (rd_Variables d, (fun s => (sd_StageID s, sd_DeltaMS s, sd_DigestChanged s, sd_OutputsChangedKeys s)) <$> rd_Stages d, rd_DefinitionChanged d) =
  (Some (mkVariablesDiff {["C" := "4"]} {["A" := "1"]} {["B" := ("2", "3")]}),
   [("build", -1000, true, ["digest"]); ("test", 0, false, [])], Some false).
Proof. vm_compute. reflexivity. Qed.

(** The comment promises the nearest rank, which is the 11th of 11 samples; the rounded rank is the 10th. *)
Example p95_of_eleven : percentile [1; 2; 3; 4; 5; 6; 7; 8; 9; 10; 11] q95 = 10.
Proof. vm_compute. reflexivity. Qed.
