(* ===== verification/Deploys.v ===== *)
(** * Starting deployments: the deploy, rollback and webhook triggers of
      [internal/handler/app.go], the capacity gate of [internal/server/runs.go], the
      deploy history of [internal/store/memory/appdeploy.go]

    Each trigger records a stub of the run, then asks the coordinator for a slot and
    answers; the work runs in the background and writes the run's end, which fails when
    the work has used up its context.  What the work
    itself does is [AppDeploy.v] and [Canary.v]; its results are arguments here.  The
    execution check and the adapters' registry are arguments, and whether the database
    accepts a run is the class [RunTable]. *)

From S2P Require Import Prelude GoStr Model App Resources AppDeploy.
Local Open Scope Z_scope.

(** ** The server's state *)

Inductive work := Rolling | StartCanary | RollbackTo (image : string).

Record job := mkJob { jb_run : string; jb_app : App; jb_work : work }.

Record server := mkServer {
  sv_apps : gmap string App; sv_pipelines : gmap string Pipeline; sv_runs : gmap string PipelineRun;
  sv_history : gmap string App.AppDeploy;
  sv_jobs : list job;                  (* the background goroutines *)
  sv_others : nat                      (* slots held by pipeline runs *)
}.

(** [cf_deployer], [cf_runs], [cf_history], [cf_canary]: which of the handler's services
    are wired; [cf_save]: whether the deployer saves its pipeline itself. *)
Record config := mkConfig {
  cf_deployer : bool; cf_runs : bool; cf_history : bool; cf_canary : bool; cf_save : bool; cf_maxConcurrentRuns : Z
}.

Definition set_runs r (s : server) := mkServer (sv_apps s) (sv_pipelines s) r (sv_history s) (sv_jobs s) (sv_others s).
Definition set_pipelines p (s : server) := mkServer (sv_apps s) p (sv_runs s) (sv_history s) (sv_jobs s) (sv_others s).
Definition set_jobs j (s : server) := mkServer (sv_apps s) (sv_pipelines s) (sv_runs s) (sv_history s) j (sv_others s).

Inductive answer :=
| Accepted (runID appID branch commit : string) | RolledBack (runID deployID : string)
| AppNotFound | NoDeployer | BadTarget | BadDeployment | BadExecution | NoPlaceholder | NoStub | Capacity
| KubernetesOnly | BadBody | DeployNotFound | NotEligible | NoEarlierDeploy.

Definition status_of (a : answer) : Z :=
  match a with
  | Accepted _ _ _ _ | RolledBack _ _ => 202
  | AppNotFound | DeployNotFound | NoEarlierDeploy => 404
  | NoDeployer => 503
  | BadTarget | BadDeployment | BadExecution => 422
  | NoPlaceholder | NoStub => 500
  | Capacity => 429
  | KubernetesOnly | NotEligible => 409
  | BadBody => 400
  end.

(** ** Rows *)

(** Whether [Runs.Create] succeeds: in memory always, in Postgres only when the run's
    pipeline exists ([REFERENCES pipelines]). *)
Class RunTable := accepts : gmap string Pipeline -> PipelineRun -> bool.

Definition memory_runs : RunTable := fun _ _ => true.
Definition postgres_runs : RunTable := fun ps r => bool_decide (is_Some (ps !! run_PipelineID r)).

(** A run with only the fields the stubs set. *)
Definition stub_run (id pipelineID status : string) (startedAt finishedAt : option Z) (err email : string) : PipelineRun :=
  mkPipelineRun id pipelineID status [] [] ∅ zero_time startedAt finishedAt err None "" email [] "" 0.

Definition created_at (now : Z) (r : PipelineRun) : PipelineRun :=
  if is_zero_time (run_CreatedAt r) then
    mkPipelineRun (run_ID r) (run_PipelineID r) (run_Status r) (run_StageRuns r) (run_EnvironmentStatuses r) (run_Variables r)
      now (run_StartedAt r) (run_FinishedAt r) (run_Error r) (run_HeartbeatAt r) (run_StartedByUserSub r)
      (run_StartedByEmail r) (run_StartedByGroups r) (run_StartedByTokenHash r) (run_PipelineVersion r)
  else r.

Definition runs_Create `{RunTable} (s : server) (now : Z) (r : PipelineRun) : option server :=
  if accepts (sv_pipelines s) r then Some (set_runs (<[run_ID r := created_at now r]> (sv_runs s)) s) else None.

(** [failing]: the database refuses the write, as it does after the run's deadline; the
    callers drop the error. *)
Definition runs_Update (failing : bool) (s : server) (r : PipelineRun) : server :=
  if failing then s else
  match sv_runs s !! run_ID r with Some _ => set_runs (<[run_ID r := r]> (sv_runs s)) s | None => s end.

(** The history's [Create], [Get] and [ListByApp]. *)
Definition history_Create (h : gmap string App.AppDeploy) (now : Z) (d : App.AppDeploy) : gmap string App.AppDeploy :=
  <[App.d_ID d := if is_zero_time (App.d_CreatedAt d)
     then mkAppDeploy (App.d_ID d) (App.d_AppID d) (App.d_RunID d) (App.d_PipelineID d) (App.d_ImageRef d) (App.d_Digest d) (App.d_Status d) (App.d_Kind d) now
     else d]> h.

Definition ListByApp `{RangeOrder} (h : gmap string App.AppDeploy) (appID : string) (limit : Z) : list App.AppDeploy :=
  let limit := if limit <=? 0 then 20 else limit in
  take (Z.to_nat limit) (sort_slice (fun a b => App.d_CreatedAt b <? App.d_CreatedAt a)
    (filter (fun d => App.d_AppID d = appID) (range_map h).*2)).

(** ** The coordinator *)

(** [Spawn]: the run is refused when the limit is reached, counting pipeline runs.  A
    goroutine holds its slot until its work returns. *)
Definition slots (s : server) : Z := Z.of_nat (length (sv_jobs s) + sv_others s).

Definition Spawn (cfg : config) (s : server) (j : job) : option server :=
  if (0 <? cf_maxConcurrentRuns cfg) && (cf_maxConcurrentRuns cfg <=? slots s) then None
  else Some (set_jobs (j :: sv_jobs s) s).

(** With a coordinator wired the stub is created first, and then a slot is asked for;
    without one the goroutine starts untracked.  A trigger is in between when it holds the
    job and the answer it gives if there is a slot. *)
Definition begun : Type := answer + job * answer.

Definition begin_job `{RunTable} (cfg : config) (s : server) (now : Z) (stub : PipelineRun) (j : job) (ok : answer) : server * begun :=
  if cf_runs cfg then
    match runs_Create s now stub with None => (s, inl NoStub) | Some s => (s, inr (j, ok)) end
  else (s, inr (j, ok)).

Definition launch (cfg : config) (s : server) (j : job) (ok : answer) : server * answer :=
  if cf_runs cfg then match Spawn cfg s j with None => (s, Capacity) | Some s => (s, ok) end
  else (set_jobs (j :: sv_jobs s) s, ok).

(** A trigger on its own. *)
Definition finish_trigger (cfg : config) (x : server * begun) : server * answer :=
  match x with (s, inl a) => (s, a) | (s, inr (j, ok)) => launch cfg s j ok end.

(** ** The triggers *)

Section triggers.
Context `{RO : RangeOrder, RT : RunTable} (cfg : config) (reg : Registry) (parseNamed : string -> bool) (CheckExecution : option (App -> bool -> bool)).

Definition placeholder (now : Z) (id name : string) : Pipeline := mkPipeline id ("Deploy " +:+ name) "" [] [] ∅ now now 0 "".

Definition begin_DeployApp (s : server) (now : Z) (runID id : string) : server * begun :=
  match Get (sv_apps s) id with
  | inl _ => (s, inl AppNotFound)
  | inr a =>
      if negb (cf_deployer cfg) then (s, inl NoDeployer) else
      if CheckAppTarget reg (a_DeployTarget a) is Some _ then (s, inl BadTarget) else
      if ValidateAppDeployment parseNamed a is Some _ then (s, inl BadDeployment) else
      if match CheckExecution with Some check => negb (check a false) | None => false end then (s, inl BadExecution) else
      let pipelineID := ComposePipelineID runID (a_ID a) 0 in
      let s := if cf_runs cfg then set_pipelines (pipelines_Create (sv_pipelines s) (placeholder now pipelineID (a_Name a))) s else s in
      let canary := IsCanary (Normalize (a_Canary a)) && cf_canary cfg in
      begin_job cfg s now (stub_run runID pipelineID RunStatusRunning (Some now) None "" "")
        (mkJob runID a (if canary then StartCanary else Rolling)) (Accepted runID (a_ID a) (a_Branch a) "")
  end.

Definition DeployApp (s : server) (now : Z) (runID id : string) : server * answer := finish_trigger cfg (begin_DeployApp s now runID id).

Definition begin_webhook_deploy (s : server) (now : Z) (runID : string) (app : App) (source branch commit : string) : server * begun :=
  if negb (cf_deployer cfg) then (s, inl NoDeployer) else
  begin_job cfg s now (stub_run runID (a_ID app) RunStatusRunning (Some now) None "" ("webhook:" +:+ source))
    (mkJob runID app Rolling) (Accepted runID (a_ID app) branch commit).

Definition triggerWebhookDeploy (s : server) (now : Z) (runID : string) (app : App) (source branch commit : string) : server * answer :=
  finish_trigger cfg (begin_webhook_deploy s now runID app source branch commit).

Definition eligible (d : App.AppDeploy) : bool := (App.d_Status d =s RunStatusSuccess) && negb (App.d_ImageRef d =s "").

(** The deploy asked for, or the one before the latest. *)
Definition resolveRollbackTarget (h : gmap string App.AppDeploy) (appID deployID : string) : answer + App.AppDeploy :=
  if negb (deployID =s "") then
    match h !! deployID with
    | None => inl DeployNotFound
    | Some d =>
        if negb (App.d_AppID d =s appID) then inl DeployNotFound
        else if negb (eligible d) then inl NotEligible
        else inr d
    end
  else
    match filter (fun d => (App.d_Kind d =s AppDeployKindDeploy) && eligible d) (ListByApp h appID 50) with
    | _ :: d :: _ => inr d
    | _ => inl NoEarlierDeploy
    end.

(** [body]: [None] when a body is sent and does not bind. *)
Definition begin_RollbackApp (s : server) (now : Z) (runID id : string) (body : option string) : server * begun :=
  match Get (sv_apps s) id with
  | inl _ => (s, inl AppNotFound)
  | inr a =>
      if negb (cf_deployer cfg) || negb (cf_history cfg) then (s, inl NoDeployer) else
      if negb (dt_Kind (a_DeployTarget a) =s DeployTargetKubernetes) then (s, inl KubernetesOnly) else
      match body with
      | None => (s, inl BadBody)
      | Some deployID =>
          match resolveRollbackTarget (sv_history s) (a_ID a) deployID with
          | inl e => (s, inl e)
          | inr d =>
              begin_job cfg s now
                (stub_run runID ("app-" +:+ a_ID a +:+ "-rollback-" +:+ runID) RunStatusRunning (Some now) None "" "")
                (mkJob runID a (RollbackTo (App.d_ImageRef d))) (RolledBack runID (App.d_ID d))
          end
      end
  end.

Definition RollbackApp (s : server) (now : Z) (runID id : string) (body : option string) : server * answer :=
  finish_trigger cfg (begin_RollbackApp s now runID id body).

(** ** The end of the work *)


Definition end_job (s : server) (j : job) : server := set_jobs (filter (fun j' => jb_run j' <> jb_run j) (sv_jobs s)) s.



(** [runCanaryStartCtx] after [Start] has returned. *)
Definition runCanaryStartCtx (failing : bool) (s : server) (now : Z) (j : job) (err : bool) : server :=
  if cf_runs cfg then
    runs_Update failing s (stub_run (jb_run j) (a_ID (jb_app j)) (if err then RunStatusFailed else RunStatusSuccess) None (Some now) "" "")
  else s.

(** ** Reachable states

    Any interleaving of triggers with fresh run IDs, of their two halves, of ends of
    background work, of other writes to the runs' rows, and of changes to the other tables
    and to the slots pipeline runs hold.  [ss_begun] are the triggers between their halves;
    [ss_lost] records the runs that no goroutine will settle: those of triggers that were
    refused a slot, of rollbacks that produced no run, and those whose last write failed. *)

Record system := mkSystem { ss_server : server; ss_begun : list (job * answer); ss_lost : gset string }.

Definition begins (bs : list (job * answer)) (lost : gset string) (x : server * begun) : system :=
  match x with (s', inl _) => mkSystem s' bs lost | (s', inr b) => mkSystem s' (b :: bs) lost end.




End triggers.

(** ** Facts *)

Section facts.
Context `{RO : RangeOrder, RT : RunTable} (cfg : config) (reg : Registry) (parseNamed : string -> bool) (check : option (App -> bool -> bool)).
Hypothesis Htracked : cf_runs cfg = true.











Lemma resolved_not_capacity h appID d e : resolveRollbackTarget h appID d = inl e -> e <> Capacity.
Proof.
  unfold resolveRollbackTarget. destruct (negb (d =s "")); [|destruct (filter _ _) as [|? [|? ?]]; by intros [= <-]].
  destruct (h !! d); [|by intros [= <-]]. destruct (negb _); [by intros [= <-]|]. destruct (negb _); by intros [= <-].
Qed.



End facts.

(** ** Runs *)

Definition demo_config : config := mkConfig true true true true false 1.
Definition canary_app : App :=
  set_Canary (App.mkConfig DeployStrategyCanary 20 true 60) (demo_app "a1" "shop" "").
Definition demo_server : server := mkServer {["a1" := canary_app]} ∅ ∅ ∅ [] 0.

(** The button's two halves, and the end of its work after the deadline. *)
Definition demo_begun : system :=
  begins [] ∅ (@begin_DeployApp range_default memory_runs demo_config ∅ (fun _ => true) None demo_server 5 "r1" "a1").
Definition demo_answer : answer := Accepted "r1" "a1" "main" "".
Definition demo_job : job := mkJob "r1" (normalizeAppCanary canary_app) StartCanary.
Definition demo_launched : system := mkSystem (launch demo_config (ss_server demo_begun) demo_job demo_answer).1 [] ∅.


(** A deployment that reaches the run's deadline writes its end with the expired context:
    the run stays running, and nobody works on it. *)
Example deadline_leaves_running_run :
  let s := end_job (runCanaryStartCtx demo_config true (ss_server demo_launched) 1805 demo_job true) demo_job in
  run_Status <$> sv_runs s !! "r1" = Some RunStatusRunning /\ sv_jobs s = [].
Proof. vm_compute. auto. Qed.

(** A refused trigger leaves its run behind as running. *)
Example capacity_leaves_running_run : let RO := range_default in let RT := memory_runs in
  let s := (DeployApp demo_config ∅ (fun _ => true) None demo_server 5 "r1" "a1").1 in
  let '(s', a) := triggerWebhookDeploy demo_config s 6 "r2" canary_app "github" "main" "" in
  a = Capacity /\ run_Status <$> sv_runs s' !! "r2" = Some RunStatusRunning /\ jb_run <$> sv_jobs s' = ["r1"].
Proof. by vm_compute. Qed.

(** The button starts a canary, the webhook of the same application replaces it. *)
Example webhook_skips_canary : let RO := range_default in let RT := memory_runs in
  (jb_work <$> sv_jobs (DeployApp demo_config ∅ (fun _ => true) None demo_server 5 "r1" "a1").1) = [StartCanary] /\
  (jb_work <$> sv_jobs (triggerWebhookDeploy demo_config demo_server 5 "r1" canary_app "github" "main" "").1) = [Rolling].
Proof. by vm_compute. Qed.

(** With the Postgres tables the stub of a webhook's run, or of a rollback's, names a
    pipeline that does not exist, and nothing is deployed. *)
Lemma webhook_fails_on_postgres cfg s now runID app source branch commit : cf_deployer cfg = true -> cf_runs cfg = true ->
  sv_pipelines s !! a_ID app = None ->
  @triggerWebhookDeploy postgres_runs cfg s now runID app source branch commit = (s, NoStub).
Proof.
  intros Hd Hr Hp. unfold triggerWebhookDeploy, begin_webhook_deploy, begin_job, runs_Create, accepts, postgres_runs. rewrite Hd, Hr. cbn. by rewrite Hp.
Qed.

Lemma button_works_on_postgres `{RO : RangeOrder} cfg reg parseNamed check s now runID id s' a :
  @DeployApp RO postgres_runs cfg reg parseNamed check s now runID id = (s', a) -> a <> NoStub.
Proof.
  unfold DeployApp, begin_DeployApp, finish_trigger, launch. destruct (Get _ _); [by intros [= <- <-]|]. destruct (cf_deployer cfg); [|by intros [= <- <-]]. cbn [negb].
  destruct (CheckAppTarget _ _); [by intros [= <- <-]|]. destruct (ValidateAppDeployment _ _); [by intros [= <- <-]|].
  destruct (match check with Some _ => _ | None => _ end); [by intros [= <- <-]|].
  unfold begin_job, runs_Create, accepts, postgres_runs. destruct (cf_runs cfg); [|by intros [= <- <-]]. cbn.
  rewrite bool_decide_true by (by rewrite lookup_insert_eq). destruct (Spawn _ _ _); by intros [= <- <-].
Qed.
