(* ===== verification/Webhook.v ===== *)
(** * Webhooks: [internal/handler/webhook_*.go], [GitHubWebhook] of [handler/app.go],
      [internal/source/*], [internal/crypto/codec.go],
      [internal/server/middleware_idempotency.go]

    A push event from one of four git servers, authenticated by a signature or token,
    starts a deployment of the application whose repository and branch it names.  The
    four handlers are one definition over the class [Provider], whose law is that what
    [p_verify] accepts is signed.  The JSON decoder and printer and the AEAD cipher
    are arguments. *)

From Stdlib Require Import Ascii.
From S2P Require Import Prelude GoStr GoCrypto Model App Resources AppDeploy Deploys Idempotency.
Local Open Scope Z_scope.

(** ** Secrets at rest *)

(** [cipher.AEAD] under one key, with an empty additional input. *)
Class AEAD := {
  NonceSize : Z;
  aead_Seal : string -> string -> string;
  aead_Open : string -> string -> option string;
  aead_nonce : 0 < NonceSize;
  aead_opens nonce pt : str_len nonce = NonceSize -> aead_Open nonce (aead_Seal nonce pt) = Some pt
}.

Inductive codec_error := ErrNoKey | TooShort | OpenFailed.

(** A codec without an AEAD is inactive. *)
Definition Active (c : option AEAD) : bool := match c with Some _ => true | None => false end.

Definition Seal (c : option AEAD) (nonce plaintext : string) : codec_error + string :=
  match c with None => inl ErrNoKey | Some a => inr (nonce +:+ aead_Seal nonce plaintext) end.

Definition Open (c : option AEAD) (sealed : string) : codec_error + string :=
  match c with
  | None => inl ErrNoKey
  | Some a =>
      if str_len sealed <? NonceSize then inl TooShort else
      match aead_Open (str_take NonceSize sealed) (str_drop NonceSize sealed) with
      | Some pt => inr pt
      | None => inl OpenFailed
      end
  end.

(** ** Push events *)

Definition zeroSHA : string := "0000000000000000000000000000000000000000".
Definition refs_heads : string := "refs/heads/".

Record github_PushEvent := mkGithub {
  gh_Ref : string; gh_FullName : string; gh_After : string; gh_Before : string; gh_Deleted : bool
}.
Definition github_IsBranchDelete (p : github_PushEvent) : bool := gh_Deleted p || (gh_After p =s zeroSHA).
Definition github_Branch (p : github_PushEvent) : string :=
  if has_prefix refs_heads (gh_Ref p) then str_drop (str_len refs_heads) (gh_Ref p) else "".

Record gitlab_PushEvent := mkGitlab {
  gl_ObjectKind : string; gl_Ref : string; gl_Before : string; gl_After : string;
  gl_PathWithNamespace : string; gl_Name : string
}.
Definition gitlab_Branch (e : gitlab_PushEvent) : string :=
  if negb (has_prefix refs_heads (gl_Ref e)) then "" else trim_prefix refs_heads (gl_Ref e).
Definition gitlab_IsBranchDelete (e : gitlab_PushEvent) : bool := gl_After e =s zeroSHA.

Record gitea_PushEvent := mkGitea {
  gt_Ref : string; gt_Before : string; gt_After : string; gt_Deleted : bool; gt_FullName : string
}.
Definition gitea_Branch (e : gitea_PushEvent) : string :=
  if negb (has_prefix refs_heads (gt_Ref e)) then "" else trim_prefix refs_heads (gt_Ref e).
Definition gitea_IsBranchDelete (e : gitea_PushEvent) : bool := gt_Deleted e || (gt_After e =s zeroSHA).

Record change := mkChange {
  ch_ID : string; ch_DisplayID : string; ch_RefType : string; ch_ToHash : string; ch_FromHash : string; ch_Type : string
}.
Record bitbucket_PushEvent := mkBitbucket { bb_EventKey : string; bb_Changes : list change; bb_Slug : string; bb_Project : string }.

Definition bitbucket_FullName (e : bitbucket_PushEvent) : string :=
  if (bb_Project e =s "") || (bb_Slug e =s "") then "" else bb_Project e +:+ "/" +:+ bb_Slug e.

Fixpoint changes_Branch (cs : list change) : string :=
  match cs with
  | [] => ""
  | c :: cs =>
      if equal_fold (ch_RefType c) "BRANCH" then
        if negb (ch_DisplayID c =s "") then ch_DisplayID c else trim_prefix refs_heads (ch_ID c)
      else changes_Branch cs
  end.
Definition bitbucket_Branch (e : bitbucket_PushEvent) : string := changes_Branch (bb_Changes e).

Fixpoint changes_delete (cs : list change) : bool :=
  match cs with
  | [] => false
  | c :: cs => if equal_fold (ch_RefType c) "BRANCH" then equal_fold (ch_Type c) "DELETE" else changes_delete cs
  end.
Definition bitbucket_IsBranchDelete (e : bitbucket_PushEvent) : bool := changes_delete (bb_Changes e).

(** ** Signatures *)

Definition sha256_eq : string := "sha256=".
Definition mac (secret body : string) : list Z := hmac_sha256 (bytes_of_string secret) (bytes_of_string body).

(** The digest of the body under the secret, against its hex form. *)
Definition digest_matches (secret body hex : string) : bool :=
  match hex_DecodeString hex with Some want => bool_decide (mac secret body = want) | None => false end.

(** [None] stands for a verified signature, as the nil error. *)
Inductive verify_error := EmptySecret | MissingHeader | MissingPrefix | NotHex | ErrBadSignature.

Definition github_VerifySignature (secret body sig : string) : option verify_error :=
  if secret =s "" then Some EmptySecret
  else if negb (has_prefix sha256_eq sig) then Some ErrBadSignature
  else if digest_matches secret body (str_drop (str_len sha256_eq) sig) then None else Some ErrBadSignature.

Definition bitbucket_VerifySignature (secret body signature : string) : option verify_error :=
  if secret =s "" then Some EmptySecret
  else if signature =s "" then Some MissingHeader
  else if negb (has_prefix sha256_eq signature) then Some MissingPrefix
  else match hex_DecodeString (trim_prefix sha256_eq signature) with
  | None => Some NotHex
  | Some got => if bool_decide (got = mac secret body) then None else Some ErrBadSignature
  end.

Definition gitea_VerifySignature (secret body signature : string) : option verify_error :=
  if secret =s "" then Some EmptySecret
  else if signature =s "" then Some MissingHeader
  else match hex_DecodeString signature with
  | None => Some NotHex
  | Some got => if bool_decide (got = mac secret body) then None else Some ErrBadSignature
  end.

Definition gitlab_VerifyToken (secret provided : string) : option verify_error :=
  if secret =s "" then Some EmptySecret
  else if provided =s "" then Some MissingHeader
  else if secret =s provided then None else Some ErrBadSignature.

(** What a sender that knows the secret puts in the header. *)
Definition hmac_signed (prefix secret body header : string) : Prop :=
  secret <> "" /\ exists hex, header = prefix +:+ hex /\ hex_DecodeString hex = Some (mac secret body).
Definition token_signed (secret body header : string) : Prop := secret <> "" /\ header = secret.

(** ** The four servers *)

Class Provider := {
  p_event : Type;
  p_source : string;
  p_event_header : string;
  p_push : string;                               (* the event header of a push *)
  p_signature_header : string;
  p_decode : string -> option p_event;           (* [json.Unmarshal] *)
  p_FullName : p_event -> string;
  p_Branch : p_event -> string;
  p_IsBranchDelete : p_event -> bool;
  p_commit : p_event -> string;
  p_verify : string -> string -> string -> option verify_error;
  p_signed : string -> string -> string -> Prop;
  p_verify_signed secret body header : p_verify secret body header = None <-> p_signed secret body header
}.

Lemma mac_nonempty secret body : mac secret body <> [].
Proof. unfold mac, hmac_sha256. intros H. by pose proof (f_equal length H) as Hl; rewrite digest_length in Hl. Qed.

(** A header with the prefix is signed when what follows is the digest in hex. *)
Lemma hmac_signed_iff prefix secret body header : has_prefix prefix header = true ->
  hmac_signed prefix secret body header <->
    secret <> "" /\ hex_DecodeString (str_drop (str_len prefix) header) = Some (mac secret body).
Proof.
  intros Hp%has_prefix_split. unfold hmac_signed. split; intros [Hs H]; (split; [done|]).
  - destruct H as (hex & -> & Hd). by rewrite str_drop_app.
  - by exists (str_drop (str_len prefix) header).
Qed.

Lemma hmac_signed_prefix prefix secret body header : hmac_signed prefix secret body header -> has_prefix prefix header = true.
Proof. intros (_ & hex & -> & _). apply has_prefix_app. Qed.

Lemma github_verify_signed secret body header :
  github_VerifySignature secret body header = None <-> hmac_signed sha256_eq secret body header.
Proof.
  unfold github_VerifySignature, digest_matches. destruct (has_prefix sha256_eq header) eqn:Hp.
  - rewrite hmac_signed_iff by done. destruct (String.eqb_spec secret ""); [naive_solver|]. cbn [negb].
    destruct (hex_DecodeString _) as [w|]; [case_bool_decide|]; naive_solver.
  - split; [by destruct (secret =s "")|]. intros ?%hmac_signed_prefix. congruence.
Qed.

Lemma bitbucket_verify_signed secret body header :
  bitbucket_VerifySignature secret body header = None <-> hmac_signed sha256_eq secret body header.
Proof.
  unfold bitbucket_VerifySignature, trim_prefix. destruct (has_prefix sha256_eq header) eqn:Hp.
  - rewrite hmac_signed_iff by done. destruct (String.eqb_spec secret ""); [naive_solver|].
    destruct (String.eqb_spec header "") as [->|]; [done|]. cbn [negb].
    destruct (hex_DecodeString _) as [w|]; [case_bool_decide|]; naive_solver.
  - split; [by destruct (secret =s ""), (header =s "")|]. intros ?%hmac_signed_prefix. congruence.
Qed.

Lemma gitea_verify_signed secret body header :
  gitea_VerifySignature secret body header = None <-> hmac_signed "" secret body header.
Proof.
  unfold gitea_VerifySignature, hmac_signed. destruct (String.eqb_spec secret "") as [->|Hs]; [naive_solver|].
  destruct (String.eqb_spec header "") as [->|Hh].
  { split; [done|]. intros (_ & hex & He & Hd). destruct hex; [|done]. injection Hd as Hd. by destruct (mac_nonempty secret body). }
  split.
  - destruct (hex_DecodeString header) as [w|] eqn:Hd; [|done]. case_bool_decide; [|done]. intros _. split; [done|]. exists header. by subst.
  - intros (_ & hex & -> & Hd). change ("" +:+ hex) with hex. by rewrite Hd, bool_decide_true.
Qed.

Lemma gitlab_verify_signed secret body header :
  gitlab_VerifyToken secret header = None <-> token_signed secret body header.
Proof.
  unfold gitlab_VerifyToken, token_signed. destruct (String.eqb_spec secret "") as [->|Hs]; [naive_solver|].
  destruct (String.eqb_spec header "") as [->|Hh]; [naive_solver|]. destruct (String.eqb_spec secret header); naive_solver.
Qed.

Section providers.
Context (decode_github : string -> option github_PushEvent) (decode_gitlab : string -> option gitlab_PushEvent)
  (decode_gitea : string -> option gitea_PushEvent) (decode_bitbucket : string -> option bitbucket_PushEvent).

Definition github : Provider := {|
  p_source := "github"; p_event_header := "X-GitHub-Event"; p_push := "push"; p_signature_header := "X-Hub-Signature-256";
  p_decode := decode_github; p_FullName := gh_FullName; p_Branch := github_Branch; p_IsBranchDelete := github_IsBranchDelete;
  p_commit := gh_After; p_verify := github_VerifySignature; p_signed := hmac_signed sha256_eq;
  p_verify_signed := github_verify_signed |}.

Definition gitlab : Provider := {|
  p_source := "gitlab"; p_event_header := "X-Gitlab-Event"; p_push := "Push Hook"; p_signature_header := "X-Gitlab-Token";
  p_decode := decode_gitlab; p_FullName := gl_PathWithNamespace; p_Branch := gitlab_Branch;
  p_IsBranchDelete := gitlab_IsBranchDelete; p_commit := gl_After;
  p_verify := fun secret _ token => gitlab_VerifyToken secret token; p_signed := token_signed;
  p_verify_signed := gitlab_verify_signed |}.

Definition gitea : Provider := {|
  p_source := "gitea"; p_event_header := "X-Gitea-Event"; p_push := "push"; p_signature_header := "X-Gitea-Signature";
  p_decode := decode_gitea; p_FullName := gt_FullName; p_Branch := gitea_Branch; p_IsBranchDelete := gitea_IsBranchDelete;
  p_commit := gt_After; p_verify := gitea_VerifySignature; p_signed := hmac_signed "";
  p_verify_signed := gitea_verify_signed |}.

Definition bitbucket : Provider := {|
  p_source := "bitbucket"; p_event_header := "X-Event-Key"; p_push := "repo:refs_changed";
  p_signature_header := "X-Hub-Signature"; p_decode := decode_bitbucket; p_FullName := bitbucket_FullName;
  p_Branch := bitbucket_Branch; p_IsBranchDelete := bitbucket_IsBranchDelete; p_commit := fun _ => "";
  p_verify := bitbucket_VerifySignature; p_signed := hmac_signed sha256_eq;
  p_verify_signed := bitbucket_verify_signed |}.
End providers.

(** ** The handlers *)

Record request := mkRequest { rq_headers : gmap string string; rq_body : option string }.
Definition GetHeader (r : request) (k : string) : string := default "" (rq_headers r !! k).

Definition maxWebhookBody : Z := 10485760.

Inductive reply :=
| CodecDisabled | ReadError | PayloadTooLarge | Ignored (what : string) | ParseError | NoContent | NotConfigured
| Internal | BadSignature | Triggered (a : answer).

Definition reply_status (a : reply) : Z :=
  match a with
  | CodecDisabled => 503 | ReadError | ParseError => 400 | PayloadTooLarge => 413 | Ignored _ => 200 | NoContent => 204
  | NotConfigured => 403 | Internal => 500 | BadSignature => 401 | Triggered a => status_of a
  end.

Definition readWebhookBody (r : request) : reply + string :=
  match rq_body r with
  | None => inl ReadError
  | Some body => if maxWebhookBody <? str_len body then inl PayloadTooLarge else inr body
  end.

Section handler.
Context `{RO : RangeOrder, RT : RunTable} (cfg : config) (codec : option AEAD).

(** [GitHubWebhook], [GitLabWebhook], [GiteaWebhook] and [BitbucketWebhook]. *)
Definition webhook (P : Provider) (s : server) (now : Z) (runID : string) (r : request) : server * reply :=
  if negb (Active codec) then (s, CodecDisabled) else
  match readWebhookBody r with
  | inl e => (s, e)
  | inr body =>
      if negb (GetHeader r p_event_header =s p_push) then (s, Ignored (GetHeader r p_event_header)) else
      match p_decode body with
      | None => (s, ParseError)
      | Some ev =>
          if p_Branch ev =s "" then (s, Ignored "non-branch push") else
          if p_IsBranchDelete ev then (s, Ignored "branch delete") else
          match GetByRepo (sv_apps s) (p_FullName ev) (p_Branch ev) with
          | inl _ => (s, NoContent)
          | inr app =>
              if a_WebhookSecret app =s "" then (s, NotConfigured) else
              match Open codec (a_WebhookSecret app) with
              | inl _ => (s, Internal)
              | inr secret =>
                  match p_verify secret body (GetHeader r p_signature_header) with
                  | Some _ => (s, BadSignature)
                  | None =>
                      if negb (a_AutoDeploy app) then (s, Ignored "autoDeploy disabled") else
                      let '(s, a) := triggerWebhookDeploy cfg s now runID app p_source (p_Branch ev) (p_commit ev) in
                      (s, Triggered a)
                  end
              end
          end
      end
  end.

(** ** The idempotency middleware

    The store's mutex is held by each of its operations, not from the look-up to the
    [Set]; a delivery on its own is [deliver]. *)

Context (json : reply -> string).

Definition idempotencyTTL : Z := 24 * 3600 * second.

Definition idem_key (r : request) : string :=
  if GetHeader r "Idempotency-Key" =s "" then GetHeader r "X-GitHub-Delivery" else GetHeader r "Idempotency-Key".

Definition lookup_reply (m : Memory) (now : Z) (r : request) : option Entry :=
  if idem_key r =s "" then None else Idempotency.Get m now (idem_key r).

Definition body_of (a : reply) : string := match a with NoContent => "" | _ => json a end.

Definition cacheable (a : reply) : bool := (200 <=? reply_status a) && (reply_status a <? 300) && (0 <? str_len (body_of a)).

Definition store_reply (m : Memory) (now : Z) (r : request) (a : reply) : Memory :=
  if negb (idem_key r =s "") && cacheable a
  then Set_ m now (idem_key r) (mkEntry (reply_status a) (body_of a)) idempotencyTTL else m.

Inductive response := Replayed (e : Entry) | Fresh (a : reply).

Definition deliver (P : Provider) (x : server * Memory) (now : Z) (runID : string) (r : request) : server * Memory * response :=
  match lookup_reply x.2 now r with
  | Some e => (x, Replayed e)
  | None => let '(s, a) := webhook P x.1 now runID r in (s, store_reply x.2 now r a, Fresh a)
  end.

(** What else happens meanwhile: other deliveries, the cache's sweeper, requests of the
    other routes behind the middleware, which answer [e] and change the server by [f], and
    requests of the routes that are not. *)
Inductive event :=
| EDeliver (P : Provider) (now : Z) (runID : string) (r : request) | ETick (now : Z)
| EKeyed (now : Z) (key : string) (e : option Entry) (f : server -> server) | EServer (f : server -> server).

Definition event_time (e : event) : option Z :=
  match e with EDeliver _ now _ _ | ETick now | EKeyed now _ _ _ => Some now | EServer _ => None end.

Definition event_step (x : server * Memory) (e : event) : server * Memory :=
  match e with
  | EDeliver P now runID r => (deliver P x now runID r).1
  | ETick now => (x.1, gc_tick now x.2)
  | EKeyed now key e f =>
      if key =s "" then (f x.1, x.2) else
      match Idempotency.Get x.2 now key with
      | Some _ => x
      | None => (f x.1, match e with Some e => Set_ x.2 now key e idempotencyTTL | None => x.2 end)
      end
  | EServer f => (f x.1, x.2)
  end.

(** The bytes an event stores. *)
Definition event_bytes (x : server * Memory) (e : event) : Z :=
  match e with
  | EDeliver P now runID r =>
      match (deliver P x now runID r).2 with
      | Fresh a => if negb (idem_key r =s "") && cacheable a then size_of (idem_key r) (mkEntry (reply_status a) (body_of a)) else 0
      | Replayed _ => 0
      end
  | EKeyed now key (Some e) _ => if (key =s "") then 0 else match Idempotency.Get x.2 now key with Some _ => 0 | None => size_of key e end
  | _ => 0
  end.

Fixpoint bytes_of_events (x : server * Memory) (es : list event) : Z :=
  match es with [] => 0 | e :: es => event_bytes x e + bytes_of_events (event_step x e) es end.

End handler.

(** ** Facts *)

Section facts.
Context `{RO : RangeOrder, RT : RunTable} (cfg : config) (codec : option AEAD) (json : reply -> string).

(** The specification of an event that may deploy [app]: a push to the branch the
    application follows, signed with the application's secret. *)
Record authentic (P : Provider) (s : server) (r : request) (app : App) (branch commit : string) : Prop := {
  au_body : exists body ev secret, rq_body r = Some body /\ str_len body <= maxWebhookBody /\ p_decode body = Some ev /\
    p_IsBranchDelete ev = false /\ p_Branch ev = branch /\ p_commit ev = commit /\
    GetByRepo (sv_apps s) (p_FullName ev) branch = inr app /\
    Open codec (a_WebhookSecret app) = inr secret /\ p_signed secret body (GetHeader r p_signature_header);
  au_push : GetHeader r p_event_header = p_push;
  au_branch : branch <> "";
  au_secret : a_WebhookSecret app <> "";
  au_auto : a_AutoDeploy app = true
}.

Lemma authentic_unique P s r app app' b b' c c' : authentic P s r app b c -> authentic P s r app' b' c' ->
  app = app' /\ b = b' /\ c = c'.
Proof.
  intros [(body & ev & sec & H1 & _ & H2 & _ & H3 & H4 & H5 & _) _ _ _ _]
    [(body' & ev' & sec' & K1 & _ & K2 & _ & K3 & K4 & K5 & _) _ _ _ _]. rewrite H1 in K1. injection K1 as <-. rewrite H2 in K2. injection K2 as <-. split_and!; congruence.
Qed.

(** A delivery reaches the deployer exactly when it is authentic. *)
Lemma webhook_triggers P s now runID r :
  (exists app b c, authentic P s r app b c /\ webhook cfg codec P s now runID r =
     let '(s', a) := triggerWebhookDeploy cfg s now runID app p_source b c in (s', Triggered a)) \/
  ((forall app b c, ~ authentic P s r app b c) /\ exists a, webhook cfg codec P s now runID r = (s, a) /\ forall a', a <> Triggered a').
Proof.
  assert (forall w, (forall app b c, ~ authentic P s r app b c) -> w = (s, w.2) -> (forall a', w.2 <> Triggered a') ->
    (forall app b c, ~ authentic P s r app b c) /\ exists a, w = (s, a) /\ forall a', a <> Triggered a') as Hno by eauto.
  unfold webhook. destruct (Active codec) eqn:Hc; cbn [negb].
  2: { right. apply Hno; [|done..]. intros app b c [(body & ev & sec & _ & _ & _ & _ & _ & _ & _ & Ho & _) _ _ _ _]. by destruct codec. }
  unfold readWebhookBody. destruct (rq_body r) as [body|] eqn:Hb.
  2: { right. apply Hno; [|done..]. intros app b c [(body & ev & sec & H & _) _ _ _ _]. congruence. }
  destruct (Z.ltb_spec maxWebhookBody (str_len body)) as [Hlen|Hlen].
  { right. apply Hno; [|done..]. intros app b c [(body' & ev & sec & H & H' & _) _ _ _ _]. simplify_eq. lia. }
  destruct (String.eqb_spec (GetHeader r p_event_header) p_push) as [Hev|Hev]; cbn [negb].
  2: { right. apply Hno; [|done..]. by intros app b c [_ H _ _ _]. }
  destruct (p_decode body) as [ev|] eqn:Hd.
  2: { right. apply Hno; [|done..]. intros app b c [(body' & ev & sec & H & _ & H' & _) _ _ _ _]. congruence. }
  assert (forall app b c, authentic P s r app b c -> p_Branch ev = b /\ p_commit ev = c /\ p_IsBranchDelete ev = false /\
    GetByRepo (sv_apps s) (p_FullName ev) b = inr app /\
    exists secret, Open codec (a_WebhookSecret app) = inr secret /\ p_signed secret body (GetHeader r p_signature_header)) as Hau.
  { intros app b c [(body' & ev' & sec & H1 & _ & H2 & H3 & H4 & H5 & H6 & H7 & H8) _ _ _ _]. rewrite Hb in H1. injection H1 as <-. rewrite Hd in H2. injection H2 as <-. split_and!; [done..|by exists sec]. }
  destruct (String.eqb_spec (p_Branch ev) "") as [Hbr|Hbr].
  { right. apply Hno; [|done..]. intros app b c Ha. pose proof (au_branch _ _ _ _ _ _ Ha). apply Hau in Ha as (? & _). congruence. }
  destruct (p_IsBranchDelete ev) eqn:Hdel.
  { right. apply Hno; [|done..]. intros app b c (_ & _ & ? & _)%Hau. congruence. }
  destruct (GetByRepo _ _ _) as [e|app] eqn:Hget.
  { right. apply Hno; [|done..]. intros app b c (<- & _ & _ & ? & _)%Hau. congruence. }
  assert (forall app' b c, authentic P s r app' b c -> app' = app) as Happ by (intros ap b c (<- & _ & _ & ? & _)%Hau; congruence).
  destruct (String.eqb_spec (a_WebhookSecret app) "") as [Hsec|Hsec].
  { right. apply Hno; [|done..]. intros ap b c Ha. pose proof (au_secret _ _ _ _ _ _ Ha). apply Happ in Ha. congruence. }
  destruct (Open _ _) as [e|secret] eqn:Ho.
  { right. apply Hno; [|done..]. intros ap b c Ha. pose proof (Happ _ _ _ Ha) as ->. apply Hau in Ha as (_ & _ & _ & _ & ? & ? & _). congruence. }
  destruct (p_verify secret body _) eqn:Hv.
  { right. apply Hno; [|done..]. intros ap b c Ha. pose proof (Happ _ _ _ Ha) as ->. apply Hau in Ha as (_ & _ & _ & _ & sec & ? & Hs).
    apply p_verify_signed in Hs. congruence. }
  apply p_verify_signed in Hv. destruct (a_AutoDeploy app) eqn:Hauto; cbn [negb].
  - left. exists app, (p_Branch ev), (p_commit ev). split; [|done]. split; [|done..]. by exists body, ev, secret.
  - right. apply Hno; [|done..]. intros ap b c Ha. pose proof (au_auto _ _ _ _ _ _ Ha). apply Happ in Ha. congruence.
Qed.

(** What an application found by repository is in the store. *)
Lemma GetByRepo_found apps repo branch app : GetByRepo apps repo branch = inr app ->
  exists id a, apps !! id = Some a /\ app = normalizeAppCanary a /\ a_GitHubRepo a = repo /\ a_Branch a = branch.
Proof.
  unfold GetByRepo. destruct (list_find _ _) as [[i a]|] eqn:Hf; [|done]. intros [= <-].
  apply list_find_Some in Hf as (Hi & [Hr Hb] & _). apply list_elem_of_lookup_2 in Hi.
  apply list_elem_of_fmap in Hi as ([id a'] & -> & Hin). apply elem_of_range in Hin. by exists id, a'.
Qed.

(** There is a slot for the run and the database takes its row. *)
Definition has_room (s : server) (now : Z) (runID : string) (app : App) (source : string) : Prop :=
  cf_deployer cfg = true /\ (cf_runs cfg = true ->
    accepts (sv_pipelines s) (stub_run runID (a_ID app) RunStatusRunning (Some now) None "" ("webhook:" +:+ source)) = true /\
    (0 < cf_maxConcurrentRuns cfg -> slots s < cf_maxConcurrentRuns cfg)).

Lemma trigger_jobs s now runID app source b c :
  let s' := (triggerWebhookDeploy cfg s now runID app source b c).1 in
  (has_room s now runID app source /\ sv_jobs s' = mkJob runID app Rolling :: sv_jobs s) \/
  (~ has_room s now runID app source /\ sv_jobs s' = sv_jobs s).
Proof.
  unfold triggerWebhookDeploy, begin_webhook_deploy, begin_job, finish_trigger, launch, runs_Create, Spawn, has_room. destruct (cf_deployer cfg); cbn [negb]; [|right; naive_solver].
  destruct (cf_runs cfg); [|left; naive_solver]. destruct (accepts _ _) eqn:Ha; [|right; split; [naive_solver|done]].
  change (slots (set_runs _ s)) with (slots s). cbn.
  destruct (Z.ltb_spec 0 (cf_maxConcurrentRuns cfg)); cbn [andb]; [|left; split; [naive_solver lia|done]].
  destruct (Z.leb_spec (cf_maxConcurrentRuns cfg) (slots s)); [right|left]; (split; [|done]);
    [|naive_solver]. intros (_ & [_ Hlt]%(fun H => H eq_refl)). specialize (Hlt ltac:(done)). lia.
Qed.

(** C10. A delivery starts work exactly when it is not a repetition the cache answers, it
    is authentic for an application of the store that deploys automatically, and there
    is room; it then starts exactly one rolling deployment of that application. *)
Theorem deliver_starts_iff_authentic (P : Provider) (s : server) (m : Memory) (now : Z) (runID : string) (r : request) :
  let s' := (deliver cfg codec json P (s, m) now runID r).1.1 in
  let starts app := lookup_reply m now r = None /\ (exists b c, authentic P s r app b c) /\ has_room s now runID app p_source in
  (exists app id a, starts app /\ sv_jobs s' = mkJob runID app Rolling :: sv_jobs s /\
     sv_apps s !! id = Some a /\ app = normalizeAppCanary a /\ a_AutoDeploy a = true) \/
  ((forall app, ~ starts app) /\ sv_jobs s' = sv_jobs s).
Proof.
  unfold deliver. cbn [fst snd]. destruct (lookup_reply m now r) as [e|]; [right; naive_solver|].
  destruct (webhook_triggers P s now runID r) as [(app & b & c & Ha & ->)|(Hno & a & -> & _)].
  - pose proof (trigger_jobs s now runID app p_source b c) as Hj. destruct (triggerWebhookDeploy _ _ _ _ _ _ _ _) as [s' a]. cbn in *.
    destruct Hj as [[Hroom Hjobs]|[Hroom Hjobs]]; [left|right].
    + pose proof Ha as [(body & ev & sec & _ & _ & _ & _ & _ & _ & Hget & _) _ _ _ Hauto]. apply GetByRepo_found in Hget as (id & a' & Hid & -> & _ & _).
      exists (normalizeAppCanary a'), id, a'. split; [|done]. split; [done|]. split; [by exists b, c|done].
    + split; [|done]. intros app' (_ & (b' & c' & Ha') & Hroom'). destruct (authentic_unique _ _ _ _ _ _ _ _ _ Ha Ha') as (-> & _). done.
  - right. split; [|done]. intros app (_ & (b & c & Ha) & _). by eapply Hno.
Qed.

(** The sweeper leaves what has not expired. *)
Lemma gc_tick_keeps now m k e : m_entries m !! k = Some e -> now <= me_expires e -> m_entries (gc_tick now m) !! k = Some e.
Proof.
  intros Hk He. unfold gc_tick.
  enough (forall l m, (forall v, (k, v) ∈ l -> v = e) -> m_entries m !! k = Some e ->
    m_entries (foldl (fun m '(k, e) => if me_expires e <? now
      then mkMemory (delete k (m_entries m)) (m_maxBytes m) (m_bytes m - size_of k (me_e e)) else m) m l) !! k = Some e) as Hall.
  { apply Hall; [|done]. intros v Hv%elem_of_range. congruence. }
  clear m Hk. induction l as [|[k' v] l IH]; intros m Hl Hk; [done|]. cbn [foldl]. apply IH; [intros; apply Hl; by right|].
  destruct (Z.ltb_spec (me_expires v) now); [|done]. cbn. rewrite lookup_delete_ne; [done|]. intros ->.
  assert (v = e) as -> by (apply Hl; left). lia.
Qed.

(** The answer kept under a key: the cache counts no more than it holds, and what it holds
    that does not expire before the answer is at most [B] bytes. *)
Record kept (k : string) (e : Entry) (until B : Z) (m : Memory) : Prop := {
  kp_entry : m_entries m !! k = Some (mkMemEntry e until);
  kp_empty : m_entries m !! "" = None;
  kp_bytes : m_bytes m <= held (m_entries m);
  kp_young : held (young until (m_entries m)) <= B
}.

Lemma kept_replays P x k e until B now runID r : kept k e until B x.2 -> idem_key r = k -> k <> "" -> now < until ->
  deliver cfg codec json P x now runID r = (x, Replayed e).
Proof.
  intros [Hk _ _ _] Hr Hne Hnow. unfold deliver, lookup_reply, Idempotency.Get. rewrite Hr. apply String.eqb_neq in Hne as ->.
  rewrite Hk. cbn. by apply Z.ltb_lt in Hnow as ->.
Qed.

Lemma kept_Set k e until B m now key e' ttl : kept k e until B m -> key <> k -> key <> "" ->
  (0 < m_maxBytes m -> B + size_of key e' <= m_maxBytes m) -> kept k e until (B + size_of key e') (Set_ m now key e' ttl).
Proof.
  intros [Hk He Hb Hy] Hne Hkey Hfit.
  destruct (Set_protects m now key e' ttl k (mkMemEntry e until)) as (H1 & H2 & H3 & H4); [done..|intros Hpos; specialize (Hfit Hpos); cbn [me_expires]; lia|].
  cbn [me_expires] in *. split; [done|done|done|lia].
Qed.

Lemma kept_step k e until B x ev : k <> "" -> kept k e until B x.2 -> (forall t, event_time ev = Some t -> t < until) ->
  (0 < m_maxBytes x.2 -> B + event_bytes cfg codec json x ev <= m_maxBytes x.2) ->
  kept k e until (B + event_bytes cfg codec json x ev) (event_step cfg codec json x ev).2.
Proof.
  intros Hne Hk Ht Hfit. destruct ev as [P now runID r|now|now key e' f|f]; cbn in *.
  - destruct (decide (idem_key r = k)) as [Heq|Hneq]; [rewrite (kept_replays P x k e until B) by auto; cbn; by rewrite Z.add_0_r|].
    unfold deliver in *. destruct (lookup_reply _ _ _); cbn in *; [by rewrite Z.add_0_r|].
    destruct (webhook _ _ _ _ _ _ _) as [s' a]. cbn in *. unfold store_reply.
    destruct (String.eqb_spec (idem_key r) ""); cbn in *; [by rewrite Z.add_0_r|]. destruct (cacheable _ _); cbn in *; [|by rewrite Z.add_0_r].
    by apply kept_Set.
  - rewrite Z.add_0_r. destruct Hk as [Hk He Hb Hy]. specialize (Ht now eq_refl). destruct (gc_tick_counts now x.2 Hb) as (H1 & H2 & H3).
    split; [apply gc_tick_keeps; [done|cbn; lia]|by eapply lookup_weaken_None|done|].
    etrans; [|exact Hy]. by apply held_subseteq, young_subseteq.
  - destruct (String.eqb_spec key "") as [->|Hkey]; cbn in *; [destruct e'; by rewrite Z.add_0_r|].
    unfold Idempotency.Get in *. destruct (decide (key = k)) as [->|Hneq].
    + rewrite (kp_entry _ _ _ _ _ Hk) in *. cbn in *. specialize (Ht now eq_refl). apply Z.ltb_lt in Ht. rewrite Ht. destruct e'; by rewrite Z.add_0_r.
    + destruct (match m_entries x.2 !! key with Some _ => _ | None => _ end); cbn in *; [destruct e'; by rewrite Z.add_0_r|].
      destruct e' as [e'|]; cbn in *; [by apply kept_Set|by rewrite Z.add_0_r].
  - by rewrite Z.add_0_r.
Qed.

Lemma event_step_maxBytes x ev : m_maxBytes (event_step cfg codec json x ev).2 = m_maxBytes x.2.
Proof.
  destruct ev as [P now runID r|now|now key e f|f]; cbn; [|apply gc_tick_maxBytes| |done].
  - unfold deliver. destruct (lookup_reply _ _ _); [done|]. destruct (webhook _ _ _ _ _ _ _). cbn. unfold store_reply.
    destruct (_ && _); [apply Set_maxBytes|done].
  - destruct (key =s ""); [done|]. destruct (Idempotency.Get _ _ _); [done|]. destruct e; [apply Set_maxBytes|done].
Qed.

Lemma event_bytes_nonneg x ev : 0 <= event_bytes cfg codec json x ev.
Proof. destruct ev as [P now runID r|now|now key [e|] f|f]; cbn; repeat case_match; try lia; apply size_of_nonneg. Qed.

Lemma bytes_of_events_nonneg es : forall x, 0 <= bytes_of_events cfg codec json x es.
Proof. induction es as [|ev es IH]; intros x; cbn; [lia|]. pose proof (event_bytes_nonneg x ev). specialize (IH (event_step cfg codec json x ev)). lia. Qed.

Lemma kept_steps k e until es : k <> "" -> Forall (fun ev => forall t, event_time ev = Some t -> t < until) es ->
  forall x B, kept k e until B x.2 -> (0 < m_maxBytes x.2 -> B + bytes_of_events cfg codec json x es <= m_maxBytes x.2) ->
  exists B', kept k e until B' (foldl (event_step cfg codec json) x es).2.
Proof.
  intros Hne. induction 1 as [|ev es Hev Hes IH]; intros x B Hk Hfit; [by exists B|]. cbn [foldl bytes_of_events] in *.
  apply (IH _ (B + event_bytes cfg codec json x ev)).
  - apply kept_step; [done..|]. intros Hpos. specialize (Hfit Hpos). pose proof (bytes_of_events_nonneg es (event_step cfg codec json x ev)). lia.
  - rewrite event_step_maxBytes. intros Hpos. specialize (Hfit Hpos). lia.
Qed.

(** A cache that was filled before [t]. *)
Record filled (t : Z) (m : Memory) : Prop := {
  fl_empty : m_entries m !! "" = None;
  fl_bytes : m_bytes m <= held (m_entries m);
  fl_old k v : m_entries m !! k = Some v -> me_expires v < t + idempotencyTTL
}.

Lemma filled_Set t m now key e : filled t m -> key <> "" -> now < t -> filled t (Set_ m now key e idempotencyTTL).
Proof.
  intros [He Hb Ho] Hkey Hnow. destruct (Set_counts m now key e idempotencyTTL Hb) as [H1 H2]. split; [|done|].
  - rewrite H2, lookup_insert_ne by done. by eapply lookup_weaken_None; [|apply Set_before_subseteq].
  - intros k v. rewrite H2, lookup_insert_Some. intros [[_ <-]|[_ Hk]]; [cbn; lia|]. eapply (Ho k). by eapply lookup_weaken; [|apply Set_before_subseteq].
Qed.

Lemma filled_step t x ev : filled t x.2 -> (forall u, event_time ev = Some u -> u < t) -> filled t (event_step cfg codec json x ev).2.
Proof.
  intros Hf Ht. destruct ev as [P now runID r|now|now key e f|f]; cbn; [| | |done].
  - unfold deliver. destruct (lookup_reply _ _ _); [done|]. destruct (webhook _ _ _ _ _ _ _). cbn. unfold store_reply.
    destruct (String.eqb_spec (idem_key r) ""); [done|]. destruct (cacheable _ _); cbn; [|done]. apply filled_Set; [done..|by apply Ht].
  - destruct Hf as [He Hb Ho]. destruct (gc_tick_counts now x.2 Hb) as (H1 & H2 & H3).
    split; [by eapply lookup_weaken_None|done|]. intros k v Hk. apply (Ho k). by eapply lookup_weaken.
  - destruct (String.eqb_spec key ""); [done|]. destruct (Idempotency.Get _ _ _); [done|]. destruct e; [|done]. apply filled_Set; [done..|by apply Ht].
Qed.

Lemma filled_kept t m key e : filled t m -> key <> "" ->
  kept key e (t + idempotencyTTL) (size_of key e) (Set_ m t key e idempotencyTTL).
Proof.
  intros [He Hb Ho] Hkey. destruct (Set_counts m t key e idempotencyTTL Hb) as [H1 H2].
  pose proof (Set_before_subseteq m key e) as Hsub. split; [by rewrite H2, lookup_insert_eq| |done|].
  - rewrite H2, lookup_insert_ne by done. by eapply lookup_weaken_None.
  - rewrite H2. assert (young (t + idempotencyTTL) (<[key:=mkMemEntry e (t + idempotencyTTL)]> (m_entries (Set_before m key e)))
      = {[key := mkMemEntry e (t + idempotencyTTL)]}) as ->.
    { apply map_eq. intros k. unfold young. rewrite lookup_singleton. case_decide as Hk.
      - subst k. apply map_lookup_filter_Some. rewrite lookup_insert_eq. split; [done|cbn; lia].
      - apply map_lookup_filter_None. right. intros v. rewrite lookup_insert_ne by done. intros Hv Hge. cbn in Hge.
        assert (m_entries m !! k = Some v) as Hm by (by eapply lookup_weaken). specialize (Ho k v Hm). lia. }
    rewrite <- insert_empty, held_insert by apply lookup_empty. cbn. unfold held. rewrite map_fold_empty. lia.
Qed.

(** C11. A delivery that was answered with success is deployed once.  Whatever filled the
    cache before it, one request after the other, and whatever is served within the 24
    hours after it, one after the other: every later request with the same key, to any of
    the receivers, is given the first answer again and changes nothing - as long as that
    answer and those stored after it fit the cache's limit together; what was stored
    before makes room. *)
Theorem redelivery_replays (P P' : Provider) (s0 : server) (maxBytes : Z) (es0 : list event) (t now : Z) (runID runID' : string)
    (r r' : request) (x1 : server * Memory) (a : reply) (es : list event) :
  let x := foldl (event_step cfg codec json) (s0, NewMemoryBounded maxBytes) es0 in
  let answer := mkEntry (reply_status a) (body_of json a) in
  Forall (fun e => forall u, event_time e = Some u -> u < t) es0 ->
  deliver cfg codec json P x t runID r = (x1, Fresh a) -> cacheable json a = true ->
  idem_key r <> "" -> idem_key r' = idem_key r ->
  Forall (fun e => forall u, event_time e = Some u -> u < t + idempotencyTTL) es -> now < t + idempotencyTTL ->
  (0 < maxBytes -> size_of (idem_key r) answer + bytes_of_events cfg codec json x1 es <= maxBytes) ->
  let x2 := foldl (event_step cfg codec json) x1 es in
  deliver cfg codec json P' x2 now runID' r' = (x2, Replayed answer).
Proof.
  intros x answer Hes0 Hd Hc Hne Hkey Hes Hnow Hfit x2.
  assert (filled t x.2 /\ m_maxBytes x.2 = maxBytes) as [Hf Hmax].
  { unfold x. clear -Hes0. assert (filled t (s0, NewMemoryBounded maxBytes).2 /\ m_maxBytes (s0, NewMemoryBounded maxBytes).2 = maxBytes) as Hx.
    { split; [|done]. split; cbn; [done|unfold held; rewrite map_fold_empty; lia|by intros k v ?%lookup_empty_Some]. }
    revert Hx. generalize (s0, NewMemoryBounded maxBytes) as x. induction Hes0 as [|e es He Hes IH]; intros x [Hx Hm]; [done|]. cbn.
    apply IH. split; [by apply filled_step|by rewrite event_step_maxBytes]. }
  assert (kept (idem_key r) answer (t + idempotencyTTL) (size_of (idem_key r) answer) x1.2 /\ m_maxBytes x1.2 = maxBytes) as [Hk Hmax1].
  { unfold deliver in Hd. destruct (lookup_reply _ _ _); [done|]. destruct (webhook _ _ _ _ _ _ _) as [s' a'] eqn:Hw.
    injection Hd as <- <-. cbn. unfold store_reply. apply String.eqb_neq in Hne as Hne'. rewrite Hne', Hc. cbn.
    split; [by apply filled_kept|]. etrans; [apply (Set_maxBytes _ t _ _ idempotencyTTL)|done]. }
  destruct (kept_steps _ _ _ es Hne Hes x1 _ Hk) as (B & HB); [by rewrite Hmax1|]. by eapply kept_replays.
Qed.
End facts.

(** ** A configured webhook *)

Section configured.
Context `{RO : RangeOrder, RT : RunTable} (cfg : config) (aead : AEAD) (json : reply -> string).
Context (decode : string -> option github_PushEvent).

Lemma Open_Seal nonce pt : str_len nonce = NonceSize ->
  exists sealed, Seal (Some aead) nonce pt = inr sealed /\ sealed <> "" /\ Open (Some aead) sealed = inr pt.
Proof.
  intros Hn. pose proof aead_nonce as Hpos. exists (nonce +:+ aead_Seal nonce pt). split; [done|]. unfold Open.
  assert (str_len (nonce +:+ aead_Seal nonce pt) >= NonceSize) as Hlen by (rewrite <- Hn; unfold str_len; rewrite length_append; lia).
  split; [intros He; rewrite He in Hlen; unfold str_len in Hlen; cbn in Hlen; lia|].
  rewrite (proj2 (Z.ltb_ge _ _)) by lia. rewrite <- Hn, str_take_app, str_drop_app. by rewrite aead_opens.
Qed.

Definition seal_with (nonce : string) (pt : string) : option string :=
  match Seal (Some aead) nonce pt with inr sealed => Some sealed | inl _ => None end.

(** Rotating the secret changes nothing else of the application. *)
Lemma rotated apps now claims id nonce secret a apps' : str_len nonce = NonceSize ->
  apps !! id = Some a -> a_ID a = id ->
  SetAppWebhookSecret (seal_with nonce) apps now claims id (Some secret) = (apps', 200) ->
  exists a' sealed, apps' = <[id := a']> apps /\ a_ID a' = id /\ a_GitHubRepo a' = a_GitHubRepo a /\ a_Branch a' = a_Branch a /\
    a_AutoDeploy a' = a_AutoDeploy a /\ a_WebhookSecret a' = sealed /\ sealed <> "" /\ Open (Some aead) sealed = inr secret.
Proof.
  intros Hn Ha <-. destruct (Open_Seal nonce secret Hn) as (sealed & Hs & Hne & Ho).
  unfold SetAppWebhookSecret, Resources.Get, seal_with. rewrite Hs, Ha. destruct (negb _); [by intros [=]|].
  unfold Update. cbn [a_ID set_times set_WebhookSecret normalizeAppCanary set_Canary]. rewrite Ha.
  destruct (negb _); [by intros [=]|]. destruct (checkPrefix _ _); [by intros [=]|]. intros [= <-].
  eexists _, sealed. by split.
Qed.

Definition signed_push (delivery secret body : string) : request :=
  mkRequest (<["X-GitHub-Delivery" := delivery]> (<["X-GitHub-Event" := "push"]>
    {["X-Hub-Signature-256" := sha256_eq +:+ hex_EncodeToString (mac secret body)]})) (Some body).

(** C12. Once an administrator has set the webhook secret of an application that deploys
    automatically and alone follows its branch, GitHub's delivery of a push to the branch,
    signed with that secret, starts one deployment of it: if the delivery's identifier has
    no answer in the cache, the body is within the limit, the push does not delete the
    branch, and there is room (a deployer, a database that takes the run's row, and a
    free slot). *)
Theorem rotated_secret_deploys (delivery nonce secret body id runID : string) (apps : gmap string App) (t now : Z) (claims : option Auth.Claims)
    (a : App) (ev : github_PushEvent) (s : server) (m : Memory) :
  str_len nonce = NonceSize -> secret <> "" -> apps !! id = Some a -> a_ID a = id -> a_AutoDeploy a = true -> a_Branch a <> "" ->
  (forall id' b, apps !! id' = Some b -> a_GitHubRepo b = a_GitHubRepo a -> a_Branch b = a_Branch a -> id' = id) ->
  SetAppWebhookSecret (seal_with nonce) apps t claims id (Some secret) = (sv_apps s, 200) ->
  decode body = Some ev -> str_len body <= maxWebhookBody -> github_IsBranchDelete ev = false ->
  gh_Ref ev = refs_heads +:+ a_Branch a -> gh_FullName ev = a_GitHubRepo a ->
  (forall app, a_ID app = id -> has_room cfg s now runID app "github") ->
  (delivery <> "" -> Idempotency.Get m now delivery = None) ->
  exists app, a_ID app = id /\
    sv_jobs (deliver cfg (Some aead) json (github decode) (s, m) now runID (signed_push delivery secret body)).1.1
      = mkJob runID app Rolling :: sv_jobs s.
Proof.
  intros Hn Hsec Ha Hid Hauto Hbr Hone Hrot Hdec Hlen Hdel Href Hname Hroom Hnew.
  destruct (rotated _ _ _ _ _ _ _ _ Hn Ha Hid Hrot) as (a' & sealed & Happs & Hid' & Hrepo' & Hbr' & Hauto' & Hws & Hne & Ho).
  assert (GetByRepo (sv_apps s) (a_GitHubRepo a) (a_Branch a) = inr (normalizeAppCanary a')) as Hget.
  { rewrite Happs. destruct (GetByRepo _ _ _) as [e|app] eqn:Hg.
    - exfalso. unfold GetByRepo in Hg. destruct (list_find _ _) as [[i b]|] eqn:Hf; [done|].
      apply list_find_None in Hf. rewrite Forall_forall in Hf. apply (Hf a'); [|done]. apply list_elem_of_fmap.
      exists (id, a'). split; [done|]. apply elem_of_range. by rewrite lookup_insert_eq.
    - apply GetByRepo_found in Hg as (i & b & Hb & -> & H1 & H2). f_equal.
      rewrite lookup_insert in Hb. case_decide as Hi; [by injection Hb as <-|]. destruct Hi. symmetry. by apply (Hone i b). }
  assert (authentic (Some aead) (github decode) s (signed_push delivery secret body) (normalizeAppCanary a') (a_Branch a) (gh_After ev)) as Hau.
  { split; cbn; [|done|done|by rewrite Hws|by rewrite Hauto'].
    exists body, ev, secret. rewrite Hws, Hname. split_and!; try done.
    - unfold github_Branch. by rewrite Href, has_prefix_app, str_drop_app.
    - split; [done|]. exists (hex_EncodeToString (mac secret body)). split; [done|]. apply hex_roundtrip, hmac_bytes. }
  unfold deliver. assert (lookup_reply m now (signed_push delivery secret body) = None) as Hnone.
  { unfold lookup_reply. replace (idem_key (signed_push delivery secret body)) with delivery by done.
    destruct (String.eqb_spec delivery ""); [done|]. by apply Hnew. }
  cbn [fst snd]. rewrite Hnone.
  destruct (webhook_triggers cfg (Some aead) (github decode) s now runID (signed_push delivery secret body)) as [(app & b & c & Ha' & Hw)|[Hno _]];
    [|by destruct (Hno _ _ _ Hau)].
  destruct (authentic_unique _ _ _ _ _ _ _ _ _ _ Hau Ha') as (<- & _ & _). exists (normalizeAppCanary a'). split; [done|].
  cbn [fst]. rewrite Hw. pose proof (trigger_jobs cfg s now runID (normalizeAppCanary a') "github" b c) as Hj.
  cbn [p_source github]. destruct (triggerWebhookDeploy _ _ _ _ _ _ _ _) as [s' an]. cbn in *.
  destruct Hj as [[_ Hj]|[Hno _]]; [done|]. by destruct Hno; apply Hroom.
Qed.
End configured.

(** ** Runs *)

Definition toy_seal (nonce pt : string) : string := "#" +:+ pt.
Definition toy_open (nonce ct : string) : option string := if has_prefix "#" ct then Some (str_drop 1 ct) else None.

Lemma toy_opens nonce pt : toy_open nonce (toy_seal nonce pt) = Some pt.
Proof. unfold toy_open, toy_seal. rewrite has_prefix_app. f_equal. apply (str_drop_app "#"). Qed.

Definition toy_aead : AEAD := {|
  NonceSize := 1; aead_Seal := toy_seal; aead_Open := toy_open; aead_nonce := eq_refl;
  aead_opens := fun nonce pt _ => toy_opens nonce pt |}.

Definition demo_decode (body : string) : option github_PushEvent :=
  if body =s "{}" then Some (mkGithub "refs/heads/main" "org/app" "c0ffee" "" false) else None.
Definition demo_json (_ : reply) : string := "{}".
Definition demo_cfg : config := mkConfig true true true true false 8.
Definition auto_app : App :=
  mkApp "a1" "shop" "" "org/app" "main" None (demo_target "") "" "" "" false true (App.mkConfig "" 0 false 0) 0 0 0 AppHealthUnknown None "" "".
Definition admin : option Auth.Claims := Some (Auth.mkClaims "root" "" "" [] [Auth.RoleAdmin] "" []).
Definition demo_apps : gmap string App :=
  (SetAppWebhookSecret (seal_with toy_aead "n") {["a1" := auto_app]} 3 admin "a1" (Some "s3cret")).1.
Definition demo_hooks : server := mkServer demo_apps ∅ ∅ ∅ [] 0.

Definition demo_deliver := @deliver range_default memory_runs demo_cfg (Some toy_aead) demo_json.

Lemma rotated_secret_deploys_witness :
  exists app, a_ID app = "a1" /\
    sv_jobs (demo_deliver (github demo_decode) (demo_hooks, NewMemory) 9 "r1" (signed_push "d1" "s3cret" "{}")).1.1 = [mkJob "r1" app Rolling].
Proof.
  apply (@rotated_secret_deploys range_default memory_runs demo_cfg toy_aead demo_json demo_decode "d1" "n" "s3cret" "{}" "a1" "r1"
    {["a1" := auto_app]} 3 9 admin auto_app (mkGithub "refs/heads/main" "org/app" "c0ffee" "" false) demo_hooks NewMemory);
    try reflexivity; try discriminate.
  - intros id' b [<- _]%lookup_singleton_Some _ _. reflexivity.
  - intros app Happ. split; [reflexivity|]. intros _. split; reflexivity.
Defined.

(** The server's cache, filled by another delivery; then the push, others, and the push
    again. *)
Definition server_cache : Memory := NewMemoryBounded 33554432.
Definition demo_history : list event := [EKeyed 5 "k0" (Some (mkEntry 200 "{}")) id].
Definition before_push : server * Memory :=
  foldl (@event_step range_default memory_runs demo_cfg (Some toy_aead) demo_json) (demo_hooks, server_cache) demo_history.
Definition demo_push : request := signed_push "d1" "s3cret" "{}".
Definition demo_reply : reply := Triggered (Accepted "r1" "a1" "main" "c0ffee").
Definition after_push : server * Memory := (demo_deliver (github demo_decode) before_push 9 "r1" demo_push).1.
Definition demo_events : list event :=
  [EDeliver (gitlab (fun _ => None)) 10 "r2" (mkRequest {["Idempotency-Key" := "d2"]} (Some ""));
   EKeyed 10 "d3" (Some (mkEntry 202 "{}")) id; ETick 11].

Lemma redelivery_replays_witness :
  let x2 := foldl (@event_step range_default memory_runs demo_cfg (Some toy_aead) demo_json) after_push demo_events in
  @deliver range_default memory_runs demo_cfg (Some toy_aead) demo_json (github demo_decode) x2 12 "r3" demo_push
    = (x2, Replayed (mkEntry (reply_status demo_reply) (body_of demo_json demo_reply))).
Proof.
  apply (@redelivery_replays range_default memory_runs demo_cfg (Some toy_aead) demo_json (github demo_decode) (github demo_decode)
    demo_hooks 33554432 demo_history 9 12 "r1" "r3" demo_push demo_push after_push demo_reply demo_events).
  - repeat constructor; intros u [= <-]; vm_compute; reflexivity.
  - vm_compute. reflexivity.
  - vm_compute. reflexivity.
  - vm_compute. discriminate.
  - reflexivity.
  - repeat constructor; intros u [= <-]; vm_compute; reflexivity.
  - vm_compute. reflexivity.
  - intros _. vm_compute. discriminate.
Defined.

(** Two deliveries of one event that both look the key up before either has been
    answered are both deployed. *)
Example simultaneous_duplicates :
  let RO := range_default in let RT := memory_runs in
  let r := signed_push "d1" "s3cret" "{}" in
  lookup_reply NewMemory 9 r = None /\
  let s1 := (webhook demo_cfg (Some toy_aead) (github demo_decode) demo_hooks 9 "r1" r).1 in
  jb_run <$> sv_jobs (webhook demo_cfg (Some toy_aead) (github demo_decode) s1 9 "r2" r).1 = ["r2"; "r1"].
Proof. by vm_compute. Qed.

(** A key is not bound to the route or the sender: an unauthenticated request replays
    the answer another request got. *)
Example key_is_not_bound_to_its_request :
  let r := signed_push "d1" "s3cret" "{}" in
  let x1 := (demo_deliver (github demo_decode) (demo_hooks, NewMemory) 9 "r1" r).1 in
  (demo_deliver (bitbucket (fun _ => None)) x1 10 "r2" (mkRequest {["Idempotency-Key" := "d1"]} None)).2 = Replayed (mkEntry 202 "{}").
Proof. by vm_compute. Qed.

(** A Bitbucket push that deletes one branch and then updates another is ignored. *)
Example bitbucket_first_change :
  let ev := mkBitbucket "repo:refs_changed"
    [mkChange "refs/heads/old" "old" "BRANCH" zeroSHA "1" "DELETE"; mkChange "refs/heads/main" "main" "BRANCH" "2" "1" "UPDATE"] "app" "ORG" in
  bitbucket_Branch ev = "old" /\ bitbucket_IsBranchDelete ev = true.
Proof. by vm_compute. Qed.
