(* ===== verification/GoBase64.v ===== *)
(** * [encoding/base64]: the standard and the unpadded URL encodings

    Encoders and decoders on byte strings, over one record of an alphabet's two extra
    characters and the padding.  The decoder is the library's: it skips line breaks
    and does not look at the unused bits of the last character. *)

From Stdlib Require Import Ascii.
From S2P Require Import Prelude GoStr GoCrypto.
Local Open Scope Z_scope.

(** The characters of 62 and 63, and whether the end is padded. *)
Record encoding := mkEncoding { enc_62 : ascii; enc_63 : ascii; enc_pad : bool }.

Definition StdEncoding : encoding := mkEncoding "+" "/" true.
Definition RawURLEncoding : encoding := mkEncoding "-" "_" false.

Section codec.
Context (e : encoding).

Definition sextet_char (d : Z) : ascii :=
  if d <? 26 then ascii_of_nat (Z.to_nat (65 + d))
  else if d <? 52 then ascii_of_nat (Z.to_nat (71 + d))
  else if d <? 62 then ascii_of_nat (Z.to_nat (d - 4))
  else if d =? 62 then enc_62 e else enc_63 e.

Definition char_sextet (c : ascii) : option Z :=
  let b := Z.of_nat (nat_of_ascii c) in
  if (65 <=? b) && (b <=? 90) then Some (b - 65)
  else if (97 <=? b) && (b <=? 122) then Some (b - 71)
  else if (48 <=? b) && (b <=? 57) then Some (b + 4)
  else if Ascii.eqb c (enc_62 e) then Some 62
  else if Ascii.eqb c (enc_63 e) then Some 63
  else None.

Definition padding (n : nat) : string := if enc_pad e then String.string_of_list_ascii (repeat "="%char n) else "".

Fixpoint EncodeToString (l : list Z) : string :=
  match l with
  | [] => ""
  | [a] => String (sextet_char (a / 4)) (String (sextet_char (a mod 4 * 16)) (padding 2))
  | [a; b] =>
      String (sextet_char (a / 4)) (String (sextet_char (a mod 4 * 16 + b / 16)) (String (sextet_char (b mod 16 * 4)) (padding 1)))
  | a :: b :: c :: l =>
      String (sextet_char (a / 4)) (String (sextet_char (a mod 4 * 16 + b / 16))
        (String (sextet_char (b mod 16 * 4 + c / 64)) (String (sextet_char (c mod 64)) (EncodeToString l))))
  end.

Definition newline (c : ascii) : bool := Ascii.eqb c "010" || Ascii.eqb c "013".

Fixpoint skip_newlines (s : string) : string :=
  match s with String c s' => if newline c then skip_newlines s' else s | EmptyString => s end.

(** The bytes of an unfinished quantum. *)
Definition partial_bytes (acc : list Z) : option (list Z) :=
  match acc with
  | [a; b] => Some [a * 4 + b / 16]
  | [a; b; c] => Some [a * 4 + b / 16; b mod 16 * 16 + c / 4]
  | _ => None
  end.

(** After the first padding character: a second one when two characters have been
    read, and nothing but line breaks behind. *)
Definition finish_padding (acc : list Z) (rest : string) : option (list Z) :=
  let last s := if skip_newlines s =s "" then partial_bytes acc else None in
  match acc with
  | [_; _] => match skip_newlines rest with String "=" s => last s | _ => None end
  | [_; _; _] => last rest
  | _ => None
  end.

(** [acc]: the sextets of the quantum being read. *)
Fixpoint decode_from (acc : list Z) (s : string) : option (list Z) :=
  match s with
  | EmptyString =>
      match acc with
      | [] => Some []
      | _ => if enc_pad e then None else partial_bytes acc
      end
  | String c s =>
      if newline c then decode_from acc s else
      match char_sextet c with
      | Some d =>
          match acc with
          | [a; b; c] => app [a * 4 + b / 16; b mod 16 * 16 + c / 4; c mod 4 * 64 + d] <$> decode_from [] s
          | _ => decode_from (acc ++ [d]) s
          end
      | None => if enc_pad e && Ascii.eqb c "=" then finish_padding acc s else None
      end
  end.

Definition DecodeString (s : string) : option (list Z) := decode_from [] s.
End codec.

Example std_ex : EncodeToString StdEncoding (bytes_of_string "light w") = "bGlnaHQgdw==" /\
  DecodeString StdEncoding "bGlnaHQgdw==" = Some (bytes_of_string "light w") /\
  DecodeString StdEncoding "bGlnaHQgdw" = None /\ DecodeString RawURLEncoding "bGlnaHQgdw" = Some (bytes_of_string "light w").
Proof. vm_compute. repeat split. Qed.

(** The last character's unused bits are not looked at. *)
Example trailing_bits : DecodeString RawURLEncoding "YQ" = DecodeString RawURLEncoding "YR".
Proof. reflexivity. Qed.

(** ** Facts *)

(** An encoding's extra characters are neither letters, digits, line breaks nor each other. *)
Definition proper (e : encoding) : Prop := e = StdEncoding \/ e = RawURLEncoding.

Lemma sextet_roundtrip e d : proper e -> 0 <= d < 64 ->
  char_sextet e (sextet_char e d) = Some d /\ newline (sextet_char e d) = false.
Proof.
  intros He Hd. rewrite <- (Z2Nat.id d) by lia. assert (Z.to_nat d < 64)%nat as Hn by lia. revert Hn. generalize (Z.to_nat d) as n.
  intros n Hn. destruct He as [-> | ->]; do 64 (destruct n as [|n]; [by split|]); lia.
Qed.

(** A character of the encoding is read. *)
Lemma decode_char e acc d s : proper e -> 0 <= d < 64 ->
  decode_from e acc (String (sextet_char e d) s) =
    match acc with
    | [a; b; c] => app [a * 4 + b / 16; b mod 16 * 16 + c / 4; c mod 4 * 64 + d] <$> decode_from e [] s
    | _ => decode_from e (acc ++ [d]) s
    end.
Proof. intros He Hd. destruct (sextet_roundtrip e d He Hd) as [H1 H2]. cbn [decode_from]. by rewrite H2, H1. Qed.

Lemma decode_padding e acc n : proper e -> (length acc + n = 4)%nat -> n = 1%nat \/ n = 2%nat ->
  decode_from e acc (padding e n) = partial_bytes acc.
Proof.
  intros He Hlen Hn. unfold padding. assert (acc <> []) as Hne by (intros ->; cbn in Hlen; lia).
  destruct He as [-> | ->]; cbn [enc_pad StdEncoding RawURLEncoding].
  - destruct Hn as [-> | ->]; destruct acc as [|a [|b [|c [|d acc]]]]; try done; cbn in Hlen; lia.
  - by destruct acc.
Qed.

Definition byte (b : Z) : Prop := 0 <= b < 256.

Ltac sextet_range := split; [lia|]; nia.

(** What is encoded is decoded. *)
Lemma base64_roundtrip e l : proper e -> Forall byte l -> DecodeString e (EncodeToString e l) = Some l.
Proof.
  intros He. unfold DecodeString. revert l. fix IH 1. intros l Hl.
  assert (forall b, byte b -> 0 <= b / 4 < 64 /\ 0 <= b mod 4 < 4 /\ 0 <= b / 16 < 16 /\ 0 <= b mod 16 < 16 /\ 0 <= b / 64 < 4 /\ 0 <= b mod 64 < 64
    /\ b / 4 * 4 + b mod 4 = b /\ b / 16 * 16 + b mod 16 = b /\ b / 64 * 64 + b mod 64 = b) as Hb.
  { unfold byte. intros b Hb. repeat split; lia. }
  destruct l as [|a [|b [|c l]]]; [done|..].
  - apply Forall_cons in Hl as [Ha _]. destruct (Hb a Ha) as (? & ? & _ & _ & _ & _ & ? & _).
    cbn [EncodeToString]. rewrite !decode_char by (done || lia). cbn [app]. rewrite decode_padding by (done || lia || tauto).
    cbn [partial_bytes]. f_equal. f_equal. rewrite Z.div_mul by lia. lia.
  - apply Forall_cons in Hl as [Ha [Hb' _]%Forall_cons]. destruct (Hb a Ha) as (? & ? & _ & _ & _ & _ & ? & _).
    destruct (Hb b Hb') as (_ & _ & ? & ? & _ & _ & _ & ? & _).
    cbn [EncodeToString]. rewrite !decode_char by (done || lia). cbn [app]. rewrite decode_padding by (done || lia || tauto).
    cbn [partial_bytes]. f_equal. rewrite Z.div_add_l, Z.div_mul, (Z.div_small (b / 16)), (Z.add_comm (a mod 4 * 16)), Z.mod_add, (Z.mod_small (b / 16)) by lia.
    f_equal; [lia|]. f_equal. lia.
  - apply Forall_cons in Hl as [Ha [Hb' [Hc Hl]%Forall_cons]%Forall_cons]. destruct (Hb a Ha) as (? & ? & _ & _ & _ & _ & ? & _).
    destruct (Hb b Hb') as (_ & _ & ? & ? & _ & _ & _ & ? & _). destruct (Hb c Hc) as (_ & _ & _ & _ & ? & ? & _ & _ & ?).
    cbn [EncodeToString]. rewrite !decode_char by (done || lia). cbn [app]. rewrite (IH l Hl). cbn [fmap option_fmap option_map app].
    f_equal. rewrite Z.div_add_l, (Z.div_small (b / 16)), (Z.add_comm (a mod 4 * 16)), Z.mod_add, (Z.mod_small (b / 16)) by lia.
    rewrite Z.div_add_l, (Z.div_small (c / 64)), (Z.add_comm (b mod 16 * 4)), Z.mod_add, (Z.mod_small (c / 64)) by lia.
    repeat f_equal; lia.
Qed.
