(* ===== verification/License.v ===== *)
(** * Licences: [internal/license/verify.go], [internal/entitlements/entitlements.go],
      [internal/service/license.go], [internal/handler/license.go],
      [internal/store/memory/license.go], [internal/model/license.go],
      [internal/server/entitlement.go], the boot install of [internal/server/server.go]
      and the vendor's tool [cmd/cooker-license/main.go]

    A licence is a signed text; installing one replaces the last, and what it unlocks
    is computed at every read.  Ed25519 and the JSON of the claims are classes with
    their documented laws; the parsers of durations and of RFC 3339 are arguments.
    Strings are UTF-8. *)

From Stdlib Require Import Ascii.
From S2P Require Import Prelude GoStr GoCrypto GoBase64.
Local Open Scope Z_scope.

(** ** Claims *)

Record Claims := mkClaims {
  lc_Plan : string; lc_Seats : Z; lc_Features : list string; lc_Customer : string; lc_IssuedAt : Z; lc_ExpiresAt : Z
}.

(** [time.Unix(sec, 0)]: the internal count of seconds wraps. *)
Definition unixToInternal : Z := 62135596800.
Definition unix_time (sec : Z) : Z := (wrap64 (sec + unixToInternal) - unixToInternal) * second.

Definition IssuedAtTime (c : Claims) : Z := if lc_IssuedAt c =? 0 then zero_time else unix_time (lc_IssuedAt c).
Definition ExpiresAtTime (c : Claims) : option Z := if lc_ExpiresAt c =? 0 then None else Some (unix_time (lc_ExpiresAt c)).

(** [exp != nil && !exp.After(now)]. *)
Definition past (exp : option Z) (now : Z) : bool := match exp with Some t => t <=? now | None => false end.
Definition IsExpired_claims (c : Claims) (now : Z) : bool := past (ExpiresAtTime c) now.

(** [encoding/json] on the claims. *)
Class ClaimsJSON := {
  marshal : Claims -> list Z;
  unmarshal : list Z -> option Claims;
  unmarshal_marshal c : unmarshal (marshal c) = Some c;
  marshal_bytes c : Forall byte (marshal c);
  marshal_nonempty c : marshal c <> []
}.

(** [crypto/ed25519]. *)
Definition PublicKeySize : nat := 32.
Definition PrivateKeySize : nat := 64.
Definition SignatureSize : nat := 64.

Class Ed25519 := {
  ed_public : list Z -> list Z;
  ed_sign : list Z -> list Z -> list Z;
  ed_verify : list Z -> list Z -> list Z -> bool;
  ed_verify_sign priv msg : length priv = PrivateKeySize -> ed_verify (ed_public priv) msg (ed_sign priv msg) = true;
  ed_public_size priv : length (ed_public priv) = PublicKeySize /\ Forall byte (ed_public priv);
  ed_sign_size priv msg : length (ed_sign priv msg) = SignatureSize /\ Forall byte (ed_sign priv msg)
}.

(** ** Tokens *)

Inductive token_error := ErrMalformed | ErrBadSignature | ErrBadKey.

Definition Encode (payloadJSON sig : list Z) : string :=
  EncodeToString RawURLEncoding payloadJSON +:+ "." +:+ EncodeToString RawURLEncoding sig.

Section verify.
Context `{JSON : ClaimsJSON, ED : Ed25519}.

Definition Verify (token : string) (pubKey : list Z) : token_error + Claims :=
  if negb (length pubKey =? PublicKeySize)%nat then inl ErrBadKey else
  match split_on "." (trim_space token) with
  | [p; s] =>
      if (p =s "") || (s =s "") then inl ErrMalformed else
      match DecodeString RawURLEncoding p with
      | None => inl ErrMalformed
      | Some payloadJSON =>
          match DecodeString RawURLEncoding s with
          | None => inl ErrMalformed
          | Some sig =>
              if negb (length sig =? SignatureSize)%nat then inl ErrMalformed
              else if negb (ed_verify pubKey payloadJSON sig) then inl ErrBadSignature
              else match unmarshal payloadJSON with None => inl ErrMalformed | Some c => inr c end
          end
      end
  | _ => inl ErrMalformed
  end.

(** The loop of [VerifyAny]: whether a key was usable, and whether the token was malformed. *)
Fixpoint verify_keys (token : string) (keys : list (list Z)) (usable malformed : bool) : token_error + Claims :=
  match keys with
  | [] => inl (if negb usable then ErrBadKey else if malformed then ErrMalformed else ErrBadSignature)
  | k :: keys =>
      match Verify token k with
      | inr c => inr c
      | inl ErrBadKey => verify_keys token keys usable malformed
      | inl ErrMalformed => verify_keys token keys true true
      | inl ErrBadSignature => verify_keys token keys true malformed
      end
  end.

Definition VerifyAny (token : string) (keys : list (list Z)) : token_error + Claims :=
  match keys with [] => inl ErrBadKey | _ => verify_keys token keys false false end.

Definition DecodePublicKey (s : string) : option (list Z) :=
  let s := trim_space s in
  if s =s "" then None else
  match match DecodeString StdEncoding s with Some raw => Some raw | None => DecodeString RawURLEncoding s end with
  | Some raw => if (length raw =? PublicKeySize)%nat then Some raw else None
  | None => None
  end.

(** ** The vendor's tool *)

(** [cmdKeygen]: the private and the public key file. *)
Definition newline_text : string := chr "010".
Definition cmdKeygen (priv : list Z) : string * string :=
  (EncodeToString StdEncoding priv +:+ newline_text, EncodeToString StdEncoding (ed_public priv) +:+ newline_text).

Definition loadPrivateKey (raw : string) : option (list Z) :=
  match DecodeString StdEncoding (trim_space raw) with
  | Some dec => if (length dec =? PrivateKeySize)%nat then Some dec else None
  | None => None
  end.

(** [None]: an expiry that is neither. *)
Definition parseExpiry (ParseDuration : string -> option Z) (ParseRFC3339 : string -> option Z) (s : string) (now : Z) : option Z :=
  let s := trim_space s in
  if (s =s "") || (s =s "0") then Some 0 else
  match ParseDuration s with
  | Some d => Some ((now + d) / second)
  | None => match ParseRFC3339 s with Some t => Some (t / second) | None => None end
  end.

Definition splitCSV (s : string) : list string :=
  let s := trim_space s in
  if s =s "" then [] else filter (fun p => p <> "") (trim_space <$> split_on "," s).

(** [cmdSign]: the token printed, with its line end. *)
Definition cmdSign ParseDuration ParseRFC3339 (keyFile plan customer : string) (seats : Z) (features expires : string) (now : Z) : option string :=
  if (plan =s "") || (customer =s "") then None else
  match loadPrivateKey keyFile with
  | None => None
  | Some priv =>
      match parseExpiry ParseDuration ParseRFC3339 expires now with
      | None => None
      | Some exp =>
          let payload := marshal (mkClaims plan seats (splitCSV features) customer (now / second) exp) in
          Some (Encode payload (ed_sign priv payload) +:+ newline_text)
      end
  end.
End verify.

(** ** Entitlements *)

Record License := mkLicense {
  l_ID : string; l_RawToken : string; l_Plan : string; l_Seats : Z; l_Features : list string; l_Customer : string;
  l_IssuedAt : Z; l_ExpiresAt : option Z; l_InstalledAt : Z; l_InstalledBySub : string; l_InstalledByEmail : string
}.

Definition IsExpired (l : License) (now : Z) : bool := past (l_ExpiresAt l) now.
Definition IsActive (l : option License) (now : Z) : bool := match l with None => false | Some l => negb (IsExpired l now) end.

Definition PlanFree : string := "free".
Definition PlanCrew : string := "crew".
Definition PlanConstellation : string := "constellation".

Definition FeatureMultiReplica : string := "multi_replica".
Definition FeatureOIDCMFA : string := "oidc_mfa".
Definition FeatureManagedSecrets : string := "managed_secrets".
Definition FeatureSSOGroupMap : string := "sso_group_map".
Definition FeatureAuditOTLP : string := "audit_otlp".
Definition FeatureAirGapped : string := "air_gapped".

Definition planFeatures (plan : string) : list string :=
  if plan =s PlanCrew then [FeatureMultiReplica; FeatureOIDCMFA; FeatureManagedSecrets; FeatureAuditOTLP]
  else if plan =s PlanConstellation then
    [FeatureMultiReplica; FeatureOIDCMFA; FeatureManagedSecrets; FeatureAuditOTLP; FeatureSSOGroupMap; FeatureAirGapped]
  else [].

(** The map's keys: every value in it is [true]. *)
Record Entitlements := mkEntitlements { en_Plan : string; en_Seats : Z; en_Features : gset string }.

Definition Has (e : Entitlements) (feature : string) : bool := bool_decide (feature ∈ en_Features e).

Definition featureSet (plan : string) (extra : list string) : gset string :=
  list_to_set (planFeatures plan) ∪ list_to_set (filter (fun f => f <> "") extra).

Definition Free : Entitlements := mkEntitlements PlanFree 1 (featureSet PlanFree []).

Definition FromLicense (l : option License) (now : Z) : Entitlements :=
  if negb (IsActive l now) then Free else
  match l with
  | None => Free
  | Some l =>
      let plan := if l_Plan l =s "" then PlanFree else l_Plan l in
      mkEntitlements plan (l_Seats l) (featureSet plan (l_Features l))
  end.

(** ** The store and the service *)

Definition activeLicenseID : string := "active".

(** The stored licence, and the caller's, whose ID and time are set too. *)
Definition Set_license (now : Z) (l : License) : License :=
  mkLicense activeLicenseID (l_RawToken l) (l_Plan l) (l_Seats l) (l_Features l) (l_Customer l) (l_IssuedAt l) (l_ExpiresAt l)
    (if is_zero_time (l_InstalledAt l) then now else l_InstalledAt l) (l_InstalledBySub l) (l_InstalledByEmail l).

Inductive install_error := ErrLicenseEmpty | ErrVerificationDisabled | ErrLicenseInvalid | ErrLicenseExpired | ErrPersist.

Section service.
Context `{JSON : ClaimsJSON, ED : Ed25519} (pubKeys : list (list Z)).

(** [up]: whether the store answers. *)
Definition Install (st : option License) (up : bool) (now : Z) (uuid rawToken sub email : string) :
    option License * (install_error + License) :=
  let rawToken := trim_space rawToken in
  if rawToken =s "" then (st, inl ErrLicenseEmpty) else
  match pubKeys with
  | [] => (st, inl ErrVerificationDisabled)
  | _ =>
      match VerifyAny rawToken pubKeys with
      | inl _ => (st, inl ErrLicenseInvalid)
      | inr c =>
          if IsExpired_claims c now then (st, inl ErrLicenseExpired) else
          if negb up then (st, inl ErrPersist) else
          let l := Set_license now (mkLicense uuid rawToken (lc_Plan c) (lc_Seats c) (lc_Features c) (lc_Customer c)
                     (IssuedAtTime c) (ExpiresAtTime c) now sub email) in
          (Some l, inr l)
      end
  end.

(** The licence, what it unlocks, and whether the store failed. *)
Definition Current (st : option License) (up : bool) (now : Z) : option License * Entitlements * bool :=
  if negb up then (None, Free, true) else
  match st with None => (None, Free, false) | Some l => (Some l, FromLicense (Some l) now, false) end.

Definition Entitlements_ (st : option License) (up : bool) (now : Z) : Entitlements :=
  let '(_, ent, failed) := Current st up now in if failed then Free else ent.

Definition Remove (st : option License) (up : bool) : option License * bool := if up then (None, true) else (st, false).

(** The install at boot of [COOKER_LICENSE_KEY]. *)
Definition boot_install (st : option License) (readable up : bool) (now : Z) (uuid key : string) : option License :=
  let envKey := trim_space key in
  if envKey =s "" then st else
  let '(current, _, failed) := Current st readable now in
  if failed || match current with None => true | Some l => negb (l_RawToken l =s envKey) end
  then (Install st up now uuid envKey "system:boot" "").1 else st.

(** [entitlementGate]: [None] stands for an unwired resolver; the answer is whether the
    request goes on, [402] otherwise. *)
Definition entitlementGate (resolver : option Entitlements) (feature : string) : bool :=
  match resolver with None => true | Some ent => Has ent feature end.

(** ** The handlers *)

Record view := mkView {
  vw_status : string; vw_plan : string; vw_seats : Z; vw_features : list string;
  vw_customer : string; vw_issuedAt : Z; vw_expiresAt : option Z; vw_installedAt : Z; vw_installedByEmail : string
}.

Definition featureList (e : Entitlements) : list string := sort_slice (fun a b => String.ltb a b) (elements (en_Features e)).

Definition GetLicense (st : option License) (up : bool) (now : Z) : Z * option view :=
  let '(lic, ent, failed) := Current st up now in
  if failed then (500, None) else
  (200, Some match lic with
   | None => mkView "none" (en_Plan ent) (en_Seats ent) (featureList ent) "" zero_time None zero_time ""
   | Some l => mkView (if IsExpired l now then "expired" else "active") (en_Plan ent) (en_Seats ent) (featureList ent)
                 (l_Customer l) (l_IssuedAt l) (l_ExpiresAt l) (l_InstalledAt l) ""
   end).

(** [claims]: the caller's subject and email; [body]: the token, if the body binds. *)
Definition InstallLicense (st : option License) (up : bool) (now : Z) (uuid : string) (claims : option (string * string))
    (body : option string) : option License * Z * option view :=
  match claims with
  | None => (st, 401, None)
  | Some (sub, email) =>
      match body with
      | None => (st, 400, None)
      | Some token =>
          match Install st up now uuid token sub email with
          | (st, inl ErrPersist) => (st, 500, None)
          | (st, inl _) => (st, 400, None)
          | (st, inr l) =>
              let ent := FromLicense (Some l) now in
              (st, 201, Some (mkView "active" (l_Plan l) (l_Seats l) (featureList ent) (l_Customer l) (l_IssuedAt l)
                                (l_ExpiresAt l) (l_InstalledAt l) (l_InstalledByEmail l)))
          end
      end
  end.

Definition DeleteLicense (st : option License) (up : bool) : option License * Z :=
  match Remove st up with (st, true) => (st, 200) | (st, false) => (st, 500) end.

(** ** Sequences of operations *)

Inductive op :=
| OInstall (up : bool) (now : Z) (uuid : string) (claims : option (string * string)) (body : option string)
| ODelete (up : bool)
| OBoot (readable up : bool) (now : Z) (uuid key : string).

Definition step (st : option License) (o : op) : option License :=
  match o with
  | OInstall up now uuid claims body => (InstallLicense st up now uuid claims body).1.1
  | ODelete up => (DeleteLicense st up).1
  | OBoot readable up now uuid key => boot_install st readable up now uuid key
  end.

Definition exec (ops : list op) : option License := foldl step None ops.
End service.

(** ** Facts: texts *)

Lemma trim_space_line s : Forall solid (str_chars s) -> trim_space (s +:+ newline_text) = s.
Proof.
  intros Hs. unfold trim_space. destruct s as [|c s]; [done|].
  replace (trim_left (String c s +:+ newline_text)) with (String c s +:+ newline_text).
  2: { inversion Hs as [|? ? Hc _]; subst. change (String c s +:+ newline_text) with (String c (s +:+ newline_text)). cbn. by rewrite Hc. }
  replace (str_rev (String c s +:+ newline_text)) with (newline_text +:+ str_rev (String c s)).
  - change (str_rev (trim_left (str_rev (String c s))) = String c s). rewrite trim_left_solid by auto using solid_rev. apply str_rev_rev.
  - rewrite <- (str_rev_rev (newline_text +:+ _)). f_equal. unfold str_rev at 1. fold (str_chars (newline_text +:+ str_rev (String c s))).
    rewrite chars_append, rev_app_distr, str_rev_chars, rev_involutive. rewrite <- (String.string_of_list_ascii_of_string (String c s +:+ newline_text)).
    fold (str_chars (String c s +:+ newline_text)). by rewrite chars_append.
Qed.

(** What holds of the alphabet holds of every character of an encoding. *)
Lemma encode_chars (P : ascii -> Prop) e l : (forall d, 0 <= d < 64 -> P (sextet_char e d)) -> (enc_pad e = true -> P "="%char) ->
  Forall byte l -> Forall P (str_chars (EncodeToString e l)).
Proof.
  intros Hs Hp. revert l. fix IH 1. intros l Hl.
  assert (forall b, byte b -> 0 <= b / 4 < 64 /\ 0 <= b mod 4 < 4 /\ 0 <= b / 16 < 16 /\ 0 <= b mod 16 < 16 /\ 0 <= b / 64 < 4 /\ 0 <= b mod 64 < 64) as Hb
    by (unfold byte; intros b Hb; repeat split; lia).
  destruct l as [|a [|b [|c l]]]; [constructor|..]; unfold str_chars; cbn [EncodeToString String.list_ascii_of_string]; fold str_chars.
  - apply Forall_cons in Hl as [Ha%Hb _]. unfold padding. destruct (enc_pad e); cbn; repeat apply Forall_cons_2; auto; apply Hs; lia.
  - apply Forall_cons in Hl as [Ha%Hb [Hb'%Hb _]%Forall_cons]. unfold padding. destruct (enc_pad e); cbn; repeat apply Forall_cons_2; auto; apply Hs; lia.
  - apply Forall_cons in Hl as [Ha%Hb [Hb'%Hb [Hc%Hb Hl]%Forall_cons]%Forall_cons].
    repeat apply Forall_cons_2; [apply Hs; lia..|]. by apply IH.
Qed.

Lemma split_on_dotless sep s : Forall (fun c => c <> sep) (str_chars s) -> split_on sep s = [s].
Proof.
  induction s as [|c s IH]; [done|]. intros [Hc Hs]%Forall_cons. cbn. apply Ascii.eqb_neq in Hc as ->. by rewrite IH.
Qed.

Lemma split_on_at sep a b : Forall (fun c => c <> sep) (str_chars a) -> split_on sep (a +:+ String sep b) = a :: split_on sep b.
Proof.
  induction a as [|c a IH]; intros Ha.
  - change (split_on sep (String sep b) = "" :: split_on sep b). cbn. by rewrite Ascii.eqb_refl.
  - apply Forall_cons in Ha as [Hc Ha]. change (split_on sep (String c (a +:+ String sep b)) = String c a :: split_on sep b). cbn.
    apply Ascii.eqb_neq in Hc as ->. by rewrite IH.
Qed.

Lemma alphabet_solid e d : proper e -> 0 <= d < 64 -> solid (sextet_char e d).
Proof.
  intros He Hd. rewrite <- (Z2Nat.id d) by lia. assert (Z.to_nat d < 64)%nat as Hn by lia. revert Hn. generalize (Z.to_nat d) as n.
  intros n Hn. destruct He as [-> | ->]; do 64 (destruct n as [|n]; [done|]); lia.
Qed.

Lemma alphabet_dotless d : 0 <= d < 64 -> sextet_char RawURLEncoding d <> "."%char.
Proof.
  intros Hd. rewrite <- (Z2Nat.id d) by lia. assert (Z.to_nat d < 64)%nat as Hn by lia. revert Hn. generalize (Z.to_nat d) as n.
  intros n Hn. do 64 (destruct n as [|n]; [done|]). lia.
Qed.

Lemma encode_solid e l : proper e -> Forall byte l -> Forall solid (str_chars (EncodeToString e l)).
Proof. intros He. apply encode_chars; [auto using alphabet_solid|done]. Qed.

Lemma encode_dotless l : Forall byte l -> Forall (fun c => c <> "."%char) (str_chars (EncodeToString RawURLEncoding l)).
Proof. apply encode_chars; [apply alphabet_dotless|done]. Qed.

Lemma encode_nonempty e l : l <> [] -> (EncodeToString e l =s "") = false.
Proof. by destruct l as [|? [|? [|? ?]]]. Qed.

Lemma Encode_solid payload sig : Forall byte payload -> Forall byte sig -> Forall solid (str_chars (Encode payload sig)).
Proof.
  intros Hp Hs. unfold Encode. rewrite !chars_append. apply Forall_app. split; [by apply encode_solid; [right|]|].
  apply Forall_app. split; [by repeat constructor|]. by apply encode_solid; [right|].
Qed.

(** ** Facts: tokens *)

Section facts.
Context `{JSON : ClaimsJSON, ED : Ed25519}.

(** Somebody who holds the private key of [key] signed the claims. *)
Definition signed_claims (key : list Z) (c : Claims) : Prop :=
  length key = PublicKeySize /\ exists payload sig, ed_verify key payload sig = true /\ unmarshal payload = Some c.

Lemma Verify_signed token key c : Verify token key = inr c -> signed_claims key c.
Proof.
  unfold Verify. destruct (Nat.eqb_spec (length key) PublicKeySize) as [Hk|]; [|done]. cbn [negb].
  destruct (split_on _ _) as [|p [|s [|? ?]]]; try done. destruct (_ || _); [done|].
  destruct (DecodeString _ p) as [payload|]; [|done]. destruct (DecodeString _ s) as [sig|]; [|done].
  destruct (negb _); [done|]. destruct (ed_verify key payload sig) eqn:Hv; [|done]. cbn [negb].
  destruct (unmarshal payload) as [c'|] eqn:Hu; [|done]. intros [= ->]. split; [done|]. by exists payload, sig.
Qed.

(** What [Verify] makes of a well-formed token. *)
Lemma Verify_Encode payload sig key : Forall byte payload -> payload <> [] -> Forall byte sig -> length sig = SignatureSize ->
  length key = PublicKeySize ->
  Verify (Encode payload sig) key =
    if ed_verify key payload sig then match unmarshal payload with Some c => inr c | None => inl ErrMalformed end else inl ErrBadSignature.
Proof.
  intros Hp Hpe Hs Hsl Hk. unfold Verify. rewrite (proj2 (Nat.eqb_eq _ _) Hk). cbn [negb].
  rewrite trim_space_solid by by apply Encode_solid.
  unfold Encode. change ("." +:+ ?x) with (String "." x). rewrite split_on_at by by apply encode_dotless.
  rewrite split_on_dotless by by apply encode_dotless.
  rewrite !encode_nonempty by (done || intros ->; done). cbn [orb].
  rewrite !base64_roundtrip by (done || by right). rewrite (proj2 (Nat.eqb_eq _ _) Hsl). cbn [negb]. by destruct (ed_verify key payload sig).
Qed.

(** [VerifyAny] accepts what some key accepts, and when it fails says why: no usable
    key, or a token that is malformed to one, or one that none signed. *)
Lemma verify_keys_spec token keys : forall usable malformed,
  match verify_keys token keys usable malformed with
  | inr c => exists k, k ∈ keys /\ Verify token k = inr c
  | inl e => (forall k, k ∈ keys -> exists e', Verify token k = inl e') /\
      e = if usable || existsb (fun k => match Verify token k with inl ErrBadKey => false | _ => true end) keys then
            if malformed || existsb (fun k => match Verify token k with inl ErrMalformed => true | _ => false end) keys
            then ErrMalformed else ErrBadSignature
          else ErrBadKey
  end.
Proof.
  induction keys as [|k keys IH]; intros usable malformed; cbn [verify_keys existsb].
  - split; [by intros k ?%not_elem_of_nil|]. rewrite !orb_false_r. by destruct usable, malformed.
  - destruct (Verify token k) as [e|c] eqn:Hk; [|exists k; split; [by left|done]].
    assert (forall u m, match verify_keys token keys u m with
      | inr c => exists k0, k0 ∈ keys /\ Verify token k0 = inr c
      | inl e => (forall k0, k0 ∈ keys -> exists e', Verify token k0 = inl e') /\
          e = if u || existsb (fun k => match Verify token k with inl ErrBadKey => false | _ => true end) keys then
            if m || existsb (fun k => match Verify token k with inl ErrMalformed => true | _ => false end) keys
            then ErrMalformed else ErrBadSignature else ErrBadKey end) as IH' by exact IH.
    destruct e; [specialize (IH' true true)|specialize (IH' true malformed)|specialize (IH' usable malformed)];
      destruct (verify_keys _ _ _ _) as [e|c];
      try (destruct IH' as (k' & Hin & Hc); exists k'; split; [by right|done]);
      destruct IH' as [Hall ->]; (split; [intros k' [->|Hin]%elem_of_cons; eauto|]); cbn; by rewrite ?orb_true_r.
Qed.

(** A key that accepts the token decides, when the keys that accept it agree. *)
Lemma VerifyAny_accepts token keys k c : k ∈ keys -> Verify token k = inr c ->
  (forall k' c', Verify token k' = inr c' -> c' = c) -> VerifyAny token keys = inr c.
Proof.
  intros Hk Hc Hsame. unfold VerifyAny. destruct keys as [|k0 keys]; [by apply not_elem_of_nil in Hk|].
  pose proof (verify_keys_spec token (k0 :: keys) false false) as Hs. destruct (verify_keys _ _ _ _) as [e|c'].
  - destruct Hs as [Hall _]. destruct (Hall k Hk) as [e' He]. congruence.
  - destruct Hs as (k' & _ & Hc'). by rewrite (Hsame _ _ Hc').
Qed.

Lemma VerifyAny_signed token keys c : VerifyAny token keys = inr c -> exists k, k ∈ keys /\ signed_claims k c.
Proof.
  unfold VerifyAny. destruct keys as [|k0 keys]; [done|]. intros Hc.
  pose proof (verify_keys_spec token (k0 :: keys) false false) as Hs. rewrite Hc in Hs.
  destruct Hs as (k & Hk & Hv). exists k. split; [done|]. by eapply Verify_signed.
Qed.

(** What the key files hold. *)
Lemma loadPrivateKey_file priv : Forall byte priv -> length priv = PrivateKeySize -> loadPrivateKey (cmdKeygen priv).1 = Some priv.
Proof.
  intros Hb Hl. unfold loadPrivateKey, cmdKeygen. cbn [fst]. rewrite trim_space_line by by apply encode_solid; [left|].
  rewrite base64_roundtrip by (done || by left). by rewrite (proj2 (Nat.eqb_eq _ _) Hl).
Qed.

Lemma DecodePublicKey_file priv : DecodePublicKey (cmdKeygen priv).2 = Some (ed_public priv).
Proof.
  destruct (ed_public_size priv) as [Hl Hb]. unfold DecodePublicKey, cmdKeygen. cbn [snd].
  rewrite trim_space_line by by apply encode_solid; [left|]. rewrite encode_nonempty by (intros He; by rewrite He in Hl).
  rewrite base64_roundtrip by (done || by left). by rewrite (proj2 (Nat.eqb_eq _ _) Hl).
Qed.

(** A licence the vendor's tool issues works: generate the key files, sign claims
    with the private one, configure the public one among other keys, install the
    printed text while the licence has not expired; the install succeeds whatever was
    installed before, and from then until it expires the instance has the plan, the
    seats and exactly the features of the plan and of the [-features] flag. *)
Theorem issued_licence_installs ParseDuration ParseRFC3339 (priv : list Z) (plan customer features expires token : string) (seats t exp : Z)
    (configured : list string) (st : option License) (now : Z) (uuid sub email : string) :
  Forall byte priv -> length priv = PrivateKeySize ->
  cmdSign ParseDuration ParseRFC3339 (cmdKeygen priv).1 plan customer seats features expires t = Some token ->
  (cmdKeygen priv).2 ∈ configured -> parseExpiry ParseDuration ParseRFC3339 expires t = Some exp ->
  let claims := mkClaims plan seats (splitCSV features) customer (t / second) exp in
  IsExpired_claims claims now = false ->
  exists l, Install (omap DecodePublicKey configured) st true now uuid token sub email = (Some l, inr l) /\ l_Customer l = customer /\
    forall later, IsExpired_claims claims later = false ->
      Entitlements_ (Some l) true later = mkEntitlements plan seats (featureSet plan (splitCSV features)).
Proof.
  intros Hb Hl Hsign Hconf Hexp claims Hnow. unfold cmdSign in Hsign.
  destruct (String.eqb_spec plan "") as [|Hplan]; [done|]. destruct (customer =s ""); [done|]. cbn [orb] in Hsign.
  rewrite loadPrivateKey_file, Hexp in Hsign by done. fold claims in Hsign. injection Hsign as <-.
  set (payload := marshal claims). set (sig := ed_sign priv payload). destruct (ed_sign_size priv payload) as [Hsl Hsb].
  pose proof (marshal_bytes claims) as Hpb. pose proof (marshal_nonempty claims) as Hpe.
  assert (forall k c, Verify (Encode payload sig) k = inr c -> c = claims) as Hsame.
  { intros k c Hc. pose proof (Verify_signed _ _ _ Hc) as [Hk _]. rewrite Verify_Encode in Hc by done.
    destruct (ed_verify _ _ _); [|done]. unfold payload in Hc. rewrite unmarshal_marshal in Hc. by injection Hc. }
  assert (VerifyAny (Encode payload sig) (omap DecodePublicKey configured) = inr claims) as Hany.
  { apply (VerifyAny_accepts _ _ (ed_public priv)); [|..|done].
    - apply list_elem_of_omap. exists (cmdKeygen priv).2. split; [done|apply DecodePublicKey_file].
    - rewrite Verify_Encode by (done || apply ed_public_size). unfold sig at 1. rewrite ed_verify_sign by done.
      unfold payload. by rewrite unmarshal_marshal. }
  unfold Install. rewrite trim_space_line by by apply Encode_solid.
  replace (Encode payload sig =s "") with false; [|unfold Encode; by destruct (EncodeToString RawURLEncoding payload)].
  destruct (omap DecodePublicKey configured) as [|k0 ks] eqn:Hks; [done|]. rewrite Hany, Hnow. cbn [negb].
  eexists. split; [done|]. split; [done|]. intros later Hlater. unfold Entitlements_, Current, FromLicense, IsActive, IsExpired. cbn [negb].
  unfold IsExpired_claims in Hlater. cbn [Set_license l_ExpiresAt l_Plan l_Seats l_Features]. rewrite Hlater. cbn [negb].
  unfold claims. cbn [lc_Plan lc_Seats lc_Features]. by apply String.eqb_neq in Hplan as ->.
Qed.

(** ** Facts: what is unlocked *)

(** The stored licence holds claims that were signed for one of the keys. *)
Definition stored_ok (pubKeys : list (list Z)) (st : option License) : Prop :=
  match st with
  | None => True
  | Some l => exists k c, k ∈ pubKeys /\ signed_claims k c /\ l_Plan l = lc_Plan c /\ l_Seats l = lc_Seats c /\
      l_Features l = lc_Features c /\ l_ExpiresAt l = ExpiresAtTime c
  end.

Lemma Install_ok pubKeys st up now uuid token sub email : stored_ok pubKeys st ->
  stored_ok pubKeys (Install pubKeys st up now uuid token sub email).1.
Proof.
  intros Hst. unfold Install. destruct (_ =s ""); [done|]. destruct pubKeys as [|k0 ks]; [done|].
  destruct (VerifyAny _ _) as [e|c] eqn:Hv; [done|]. destruct (IsExpired_claims c now); [done|]. destruct up; [|done].
  apply VerifyAny_signed in Hv as (k & Hk & Hs). by exists k, c.
Qed.

Lemma license_step_ok pubKeys st o : stored_ok pubKeys st -> stored_ok pubKeys (step pubKeys st o).
Proof.
  intros Hst. destruct o as [up now uuid [[sub email]|] [token|]|up|readable up now uuid key]; cbn [step]; try done.
  - unfold InstallLicense. pose proof (Install_ok pubKeys st up now uuid token sub email Hst) as Hok.
    destruct (Install _ _ _ _ _ _ _ _) as [st' [e|l]]; [by destruct e|done].
  - by destruct up.
  - unfold boot_install. destruct (_ =s ""); [done|]. destruct (Current _ _ _) as [[cur ent] failed].
    destruct (_ || _); [|done]. by apply Install_ok.
Qed.

(** C27. Nothing is unlocked without a signature: after any sequence of installs,
    removals and boots, a feature the instance has was granted, by its plan or by
    name, in claims that one of the configured keys signed and that have not expired. *)
Theorem paid_features_are_licensed (pubKeys : list (list Z)) (ops : list op) (up : bool) (now : Z) (feature : string) :
  Has (Entitlements_ (exec pubKeys ops) up now) feature = true ->
  exists key c, key ∈ pubKeys /\ signed_claims key c /\ IsExpired_claims c now = false /\
    (feature ∈ planFeatures (lc_Plan c) \/ feature ∈ lc_Features c).
Proof.
  assert (stored_ok pubKeys (exec pubKeys ops)) as Hok.
  { unfold exec. assert (stored_ok pubKeys None) as H0 by done. revert H0. generalize (@None License).
    induction ops as [|o ops IH]; intros st Hst; [done|]. by apply IH, license_step_ok. }
  revert Hok. generalize (exec pubKeys ops) as st. intros st Hok.
  assert (Has Free feature = false) as Hfree 
    by (apply bool_decide_eq_false; unfold Free, featureSet; cbn [en_Features]; by intros [Hin|Hin]%elem_of_union; rewrite elem_of_list_to_set in Hin; apply not_elem_of_nil in Hin).
  unfold Entitlements_, Current. destruct up; cbn [negb]; [|congruence]. destruct st as [l|]; [|congruence].
  destruct Hok as (k & c & Hk & Hs & Hp & _ & Hf & He). unfold FromLicense, IsActive, IsExpired. rewrite He.
  destruct (past (ExpiresAtTime c) now) eqn:Hpast; cbn [negb]; [congruence|].
  unfold Has. rewrite bool_decide_eq_true. cbn [en_Features]. rewrite Hp, Hf. unfold featureSet. intros Hin.
  exists k, c. split; [done|]. split; [done|]. split; [done|].
  apply elem_of_union in Hin as [Hin|Hin]; rewrite elem_of_list_to_set in Hin; [left|right; by apply list_elem_of_filter in Hin as [_ ?]].
  revert Hin. destruct (String.eqb_spec (lc_Plan c) "") as [->|]; [|done]. by intros ?%not_elem_of_nil.
Qed.
End facts.

(** ** Runs

    Toy instances: claims as the bits of their number, a signature that is the sum of
    the message. *)

Definition claims_tuple (c : Claims) : string * Z * list string * string * Z * Z :=
  (lc_Plan c, lc_Seats c, lc_Features c, lc_Customer c, lc_IssuedAt c, lc_ExpiresAt c).
Definition claims_of_tuple (t : string * Z * list string * string * Z * Z) : Claims :=
  let '(plan, seats, features, customer, iat, exp) := t in mkClaims plan seats features customer iat exp.

Fixpoint bits (p : positive) : list Z :=
  match p with xH => [2] | xO p => 0 :: bits p | xI p => 1 :: bits p end.
Fixpoint of_bits (l : list Z) : option positive :=
  match l with
  | [2] => Some xH
  | 0 :: l => xO <$> of_bits l
  | 1 :: l => xI <$> of_bits l
  | _ => None
  end.

Lemma of_bits_bits p : of_bits (bits p) = Some p.
Proof. induction p as [p IH|p IH|]; cbn; [..|done]; by rewrite IH. Qed.

Lemma bits_bytes p : Forall byte (bits p).
Proof. induction p as [p IH|p IH|]; cbn; repeat constructor; done. Qed.

Definition toy_json : ClaimsJSON.
Proof.
  refine {| marshal := fun c => bits (encode (claims_tuple c));
            unmarshal := fun l => match of_bits l with Some p => claims_of_tuple <$> decode p | None => None end |}.
  - intros [plan seats features customer iat exp]. by rewrite of_bits_bits, decode_encode.
  - intros c. apply bits_bytes.
  - intros c. by destruct (encode (claims_tuple c)).
Defined.

Definition toy_sign (priv msg : list Z) : list Z := foldr Z.add 0 msg mod 256 :: repeat 0 63.
Definition toy_ed25519 : Ed25519.
Proof.
  refine {| ed_public := fun _ => repeat 7 32; ed_sign := toy_sign;
            ed_verify := fun k m s => bool_decide (k = repeat 7 32) && bool_decide (s = toy_sign [] m) |}.
  - intros priv msg _. by rewrite !bool_decide_true.
  - intros priv. split; [done|]. by repeat constructor.
  - intros priv msg. split; [done|]. unfold toy_sign. constructor; [apply Z.mod_pos_bound; lia|]. by repeat constructor.
Defined.

Definition vendor_key : list Z := repeat 1 64.
Definition no_duration (s : string) : option Z := None.
Definition demo_token : string :=
  match @cmdSign toy_json toy_ed25519 no_duration no_duration (@cmdKeygen toy_ed25519 vendor_key).1 PlanCrew "A" 3 "x, y" "0" 5 with
  | Some t => t | None => "" end.
Definition demo_keys : list string := ["not a key"; (@cmdKeygen toy_ed25519 vendor_key).2].

Lemma issued_licence_installs_witness :
  exists l, @Install toy_json toy_ed25519 (omap DecodePublicKey demo_keys) None true 9 "u" demo_token "sub" "mail" = (Some l, inr l) /\
    l_Customer l = "A" /\
    forall later, IsExpired_claims (mkClaims PlanCrew 3 (splitCSV "x, y") "A" (5 / second) 0) later = false ->
      Entitlements_ (Some l) true later = mkEntitlements PlanCrew 3 (featureSet PlanCrew (splitCSV "x, y")).
Proof.
  apply (@issued_licence_installs toy_json toy_ed25519 no_duration no_duration vendor_key PlanCrew "A" "x, y" "0" demo_token 3 5 0 demo_keys
    None 9 "u" "sub" "mail").
  - by repeat constructor.
  - reflexivity.
  - vm_compute. reflexivity.
  - right. left.
  - reflexivity.
  - reflexivity.
Defined.

Lemma paid_features_are_licensed_witness :
  exists key c, key ∈ omap DecodePublicKey demo_keys /\ @signed_claims toy_json toy_ed25519 key c /\ IsExpired_claims c 10 = false /\
    ("oidc_mfa" ∈ planFeatures (lc_Plan c) \/ "oidc_mfa" ∈ lc_Features c).
Proof.
  apply (@paid_features_are_licensed toy_json toy_ed25519 (omap DecodePublicKey demo_keys)
    [OInstall true 9 "u" (Some ("sub", "mail")) (Some demo_token); OBoot true true 9 "v" demo_token] true 10 "oidc_mfa").
  vm_compute. reflexivity.
Defined.

(** A token is not determined by what it says: line breaks inside it are skipped and the
    unused bits of a segment's last character are not looked at, so a changed token
    verifies like the vendor's. *)
Example changed_token_verifies :
  let token := String (match demo_token with String c _ => c | _ => "A"%char end) (newline_text +:+ str_drop 1 demo_token) in
  token <> demo_token /\ @Verify toy_json toy_ed25519 token (repeat 7 32) = @Verify toy_json toy_ed25519 demo_token (repeat 7 32).
Proof. vm_compute. by split. Qed.

(** An expiry at the Unix epoch is the mark of a perpetual licence. *)
Example epoch_expiry_is_perpetual :
  parseExpiry no_duration (fun _ => Some 0) "1970-01-01T00:00:00Z" 5 = Some 0 /\
  IsExpired_claims (mkClaims PlanCrew 1 [] "A" 0 0) (10 * second) = false.
Proof. by vm_compute. Qed.

(** A boot whose key does not verify keeps the licence that was installed before. *)
Example failed_boot_keeps_licence :
  let pubKeys := omap DecodePublicKey demo_keys in
  let st := @exec toy_json toy_ed25519 pubKeys [OInstall true 9 "u" (Some ("sub", "mail")) (Some demo_token)] in
  @boot_install toy_json toy_ed25519 pubKeys st true true 9 "v" "broken" = st /\ Has (Entitlements_ st true 9) FeatureOIDCMFA = true.
Proof. vm_compute. by split. Qed.
