(* ===== verification/Governance.v ===== *)
(** * The deploy gate: [internal/governance/{client,executor_hook,extractor}.go],
      [internal/auth/governance_middleware.go], the deploy case of
      [internal/service/executor.go] and the wiring in [internal/server/server.go]

    Before a deployment the server asks another service, the gate.  A deploy stage asks
    through the executor's hook, a deploy request through a middleware.  The gate is a
    function from requests to replies; its replies are parsed JSON documents. *)

From Stdlib Require Import Ascii.
From S2P Require Import Prelude GoStr Model Retry App.
Local Open Scope Z_scope.

(** A Go error: its text, and whether [errors.Is] finds [context.Canceled] or
    [context.DeadlineExceeded] in it. *)
Record go_error := mkError { er_text : string; er_canceled : bool; er_deadline : bool }.

(** ** Replies *)

(** A parsed document: the values of an object's fields are not looked into further. *)
Inductive value := JNull | JString (s : string) | JBool (b : bool) | JOther.
Inductive json := JObject (fields : list (string * value)) | JScalar (v : value).

Record Decision := mkDecision {
  d_Decision : string; d_Reason : string; d_PolicyID : string; d_AuditID : string;
  d_Enforced : bool; d_EnforcementMode : string
}.
Definition no_decision : Decision := mkDecision "" "" "" "" false "".
Definition Allowed (d : Decision) : bool := d_Decision d =s "allow".

(** [encoding/json] into a [Decision]: keys match without regard to case (they are ASCII
    here), unknown ones are skipped, null changes nothing, and the last duplicate wins. *)
Definition set_string (v : value) (old : string) : option string :=
  match v with JString s => Some s | JNull => Some old | _ => None end.
Definition set_bool (v : value) (old : bool) : option bool :=
  match v with JBool b => Some b | JNull => Some old | _ => None end.

Definition decode_field (f : string * value) (d : Decision) : option Decision :=
  let '(k, v) := f in
  let 'mkDecision dec rea pol aud enf mode := d in
  if equal_fold k "decision" then x ← set_string v dec; Some (mkDecision x rea pol aud enf mode)
  else if equal_fold k "reason" then x ← set_string v rea; Some (mkDecision dec x pol aud enf mode)
  else if equal_fold k "policy_id" then x ← set_string v pol; Some (mkDecision dec rea x aud enf mode)
  else if equal_fold k "audit_id" then x ← set_string v aud; Some (mkDecision dec rea pol x enf mode)
  else if equal_fold k "enforced" then x ← set_bool v enf; Some (mkDecision dec rea pol aud x mode)
  else if equal_fold k "enforcement_mode" then x ← set_string v mode; Some (mkDecision dec rea pol aud enf x)
  else Some d.

Fixpoint decode_fields (fs : list (string * value)) (d : Decision) : option Decision :=
  match fs with
  | [] => Some d
  | f :: fs => d ← decode_field f d; decode_fields fs d
  end.

Definition decode (doc : json) : option Decision :=
  match doc with JObject fs => decode_fields fs no_decision | JScalar JNull => Some no_decision | JScalar _ => None end.

Inductive body := Document (doc : json) | NotJSON | ReadError (e : go_error).
Inductive reply := NoReply (e : go_error) | Reply (status : Z) (b : body).

(** ** Requests *)

Record AuthorizeContext := mkContext {
  ac_BreakGlass : option bool; ac_ChangeWindow : option bool; ac_Attributes : gmap string string
}.
Definition no_context : AuthorizeContext := mkContext None None ∅.

Record PreresolvedActor := mkActor { ac_Kind : string; ac_ID : string; ac_Groups : list string; ac_Scopes : list string }.

Record authorizeRequest := mkRequest {
  rq_url : string; rq_Authorization : option string;
  rq_Token : string; rq_Preresolved : option PreresolvedActor; rq_Action : string; rq_Service : string; rq_Env : string;
  rq_RequestID : string; rq_context : AuthorizeContext
}.

(** ** The client *)

Record Client := mkClient {
  BaseURL : string; BootstrapServices : gset string; FailOpenEnvs : gset string; CallerToken : string; DelegateToken : string
}.

Definition toSet (l : list string) : gset string :=
  foldl (fun out v => let v := to_lower (trim_space v) in if v =s "" then out else {[v]} ∪ out) ∅ l.

(** [strings.TrimRight(s, "/")]. *)
Fixpoint trim_slashes (s : string) : string :=
  match s with String c r => if Ascii.eqb c "/" then trim_slashes r else s | EmptyString => s end.
Definition trim_right_slash (s : string) : string := str_rev (trim_slashes (str_rev s)).

Definition New (baseURL : string) (bootstrap failOpen : list string) : Client :=
  mkClient (trim_right_slash baseURL) (toSet bootstrap) (toSet failOpen) "" "".
Definition WithCallerToken (tok : string) (c : Client) : Client :=
  mkClient (BaseURL c) (BootstrapServices c) (FailOpenEnvs c) (trim_space tok) (DelegateToken c).
Definition WithDelegateToken (tok : string) (c : Client) : Client :=
  mkClient (BaseURL c) (BootstrapServices c) (FailOpenEnvs c) (CallerToken c) (trim_space tok).

Definition Enabled (c : Client) : bool := negb (BaseURL c =s "").
Definition DelegationEnabled (c : Client) : bool := negb (BaseURL c =s "") && negb (DelegateToken c =s "").

(** What a startup warning says. *)
Inductive inert := NilClient | NoURL | NoTokens | NoDelegateToken | NoCallerToken.

Definition InertReason (c : option Client) (configured isProduction : bool) : option inert :=
  match c with
  | None => if configured then Some NilClient else None
  | Some c =>
      if BaseURL c =s "" then if configured then Some NoURL else None
      else if isProduction then None
      else if (CallerToken c =s "") && (DelegateToken c =s "") then Some NoTokens
      else if DelegateToken c =s "" then Some NoDelegateToken
      else if CallerToken c =s "" then Some NoCallerToken
      else None
  end.

(** The call at boot. *)
Definition boot_warning (url caller delegate : string) (bootstrap failOpen : list string) (isProduction : bool) : option inert :=
  InertReason (Some (WithDelegateToken delegate (WithCallerToken caller (New url bootstrap failOpen))))
    (negb (url =s "") || negb (caller =s "") || negb (delegate =s "")) isProduction.

(** Why a call gave no decision. *)
Inductive cause := Post (e : go_error) | UnexpectedStatus (status : Z).
Inductive gov_error := Unreachable (why : cause) | BadRequest | Undecodable (e : option go_error) | InvalidDecision (s : string).

Definition cause_text (why : cause) : string :=
  match why with
  | Post e => "governance: post: " +:+ er_text e
  | UnexpectedStatus n => "governance: unexpected status " +:+ itoa n
  end.

Definition transportFallback (c : Client) (env : string) (why : cause) : result gov_error Decision :=
  if bool_decide (to_lower env ∈ FailOpenEnvs c)
  then Ok (mkDecision "allow" ("governance unreachable; env is fail-open: " +:+ cause_text why) "cooker.governance.fail_open" "" false "")
  else Err (Unreachable why).

Section calls.
(** [net/url] accepts the text; and the service itself. *)
Context (url_ok : string -> bool) (gate : authorizeRequest -> reply).

(** The part the two calls have in common, from the request on. *)
Definition ask (c : Client) (rq : authorizeRequest) : result gov_error Decision :=
  if negb (url_ok (rq_url rq)) then Err BadRequest else
  match gate rq with
  | NoReply e => transportFallback c (rq_Env rq) (Post e)
  | Reply status b =>
      if negb (status =? 200) then transportFallback c (rq_Env rq) (UnexpectedStatus status) else
      match b with
      | ReadError e => Err (Undecodable (Some e))
      | NotJSON => Err (Undecodable None)
      | Document doc =>
          match decode doc with
          | None => Err (Undecodable None)
          | Some d =>
              if negb (d_Decision d =s "allow") && negb (d_Decision d =s "deny") then Err (InvalidDecision (d_Decision d))
              else Ok d
          end
      end
  end.

Definition Authorize (c : Client) (token service env requestID : string) (actx : AuthorizeContext) : result gov_error Decision :=
  if negb (Enabled c) then Ok (mkDecision "allow" "governance disabled" "cooker.governance.disabled" "" false "") else
  if bool_decide (to_lower service ∈ BootstrapServices c)
  then Ok (mkDecision "allow" "bootstrap-exempt service" "cooker.governance.bootstrap" "" false "") else
  ask c (mkRequest (BaseURL c +:+ "/authorize")
    (if negb (CallerToken c =s "") then Some ("Bearer " +:+ CallerToken c) else None)
    token None "deploy" service env requestID actx).

Definition AuthorizeOnBehalf (c : Client) (actor : PreresolvedActor) (service env requestID : string) (actx : AuthorizeContext)
    : result gov_error Decision :=
  if negb (DelegationEnabled c)
  then Ok (mkDecision "allow" "governance delegation disabled" "cooker.governance.delegation_disabled" "" false "") else
  if bool_decide (to_lower service ∈ BootstrapServices c)
  then Ok (mkDecision "allow" "bootstrap-exempt service" "cooker.governance.bootstrap" "" false "") else
  ask c (mkRequest (BaseURL c +:+ "/authorize") (Some ("Bearer " +:+ DelegateToken c))
    "" (Some actor) "deploy" service env requestID actx).

(** ** The executor's hook *)

(** A row that is not there, or the store's own error. *)
Inductive lookup_error := NotFound | Failed (e : go_error).

(** The two stores the gate reads; a getter can also return nothing and no error. *)
Record lookups := mkLookups {
  env_name : string -> result lookup_error (option string);
  pipeline_name : string -> result lookup_error (option string);
  app_row : string -> result lookup_error (option App)
}.

Inductive hook_error :=
| LookupEnv (e : go_error) | LookupPipeline (e : option lookup_error)
| GateUnreachable (svc env : string) (why : cause) | GateError (e : gov_error)
| Denied (svc env reason policy audit : string).

Definition lookupEnvName (st : lookups) (envID : string) : result go_error string :=
  match env_name st envID with
  | Err NotFound => Ok ""
  | Err (Failed e) => Err e
  | Ok None => Ok ""
  | Ok (Some name) => Ok (to_lower name)
  end.

(** The callback the server builds over its pipeline store. *)
Definition pipelineNameFor (st : lookups) (pipelineID : string) : result lookup_error string :=
  match pipeline_name st pipelineID with Err e => Err e | Ok None => Ok "" | Ok (Some name) => Ok name end.

Definition hook (c : Client) (st : lookups) (run : option PipelineRun) (stage : Stage) : option hook_error :=
  match run with
  | None => None
  | Some run =>
      if run_StartedByUserSub run =s "" then None else
      if st_EnvironmentID stage =s "" then None else
      match lookupEnvName st (st_EnvironmentID stage) with
      | Err e => Some (LookupEnv e)
      | Ok envName =>
          if envName =s "" then None else
          match pipelineNameFor st (run_PipelineID run) with
          | Err e => Some (LookupPipeline (Some e))
          | Ok svc =>
              if svc =s "" then Some (LookupPipeline None) else
              let svc := to_lower svc in
              let actor := mkActor "human" (run_StartedByUserSub run) (run_StartedByGroups run) [] in
              match AuthorizeOnBehalf c actor svc envName (run_ID run) no_context with
              | Err (Unreachable why) => Some (GateUnreachable svc envName why)
              | Err e => Some (GateError e)
              | Ok d =>
                  if negb (Allowed d) then
                    if negb (d_Enforced d) then None
                    else Some (Denied svc envName (d_Reason d) (d_PolicyID d) (d_AuditID d))
                  else None
              end
          end
      end
  end.

(** No hook at all for a client that cannot delegate. *)
Definition PipelineDeployHook (client : option Client) (st : lookups) : option (option PipelineRun -> Stage -> option hook_error) :=
  match client with
  | Some c => if DelegationEnabled c then Some (hook c st) else None
  | None => None
  end.

(** One attempt at a deploy stage.  [executeDeploy] is the adapter's answer. *)
Inductive stage_error := Governed (e : hook_error) | Adapter (e : go_error).

Definition deploy_attempt (govHook : option (option PipelineRun -> Stage -> option hook_error)) (run : PipelineRun) (stage : Stage)
    (executeDeploy : option go_error) : option stage_error :=
  match govHook with
  | Some h => match h (Some run) stage with Some e => Some (Governed e) | None => Adapter <$> executeDeploy end
  | None => Adapter <$> executeDeploy
  end.

(** ** The middleware of the deploy requests *)

Definition AppDeployExtractor (st : lookups) (id : string) : result go_error (option (string * string)) :=
  if id =s "" then Ok None else
  match app_row st id with
  | Err NotFound => Ok None
  | Err (Failed e) => Err e
  | Ok None => Ok None
  | Ok (Some app) =>
      if a_EnvironmentID app =s "" then Ok None else
      match env_name st (a_EnvironmentID app) with
      | Err NotFound => Ok None
      | Err (Failed e) => Err e
      | Ok None => Ok None
      | Ok (Some env) => Ok (Some (to_lower (a_Name app), to_lower env))
      end
  end.

(** The parts of a request it reads. *)
Record http_request := mkHTTP {
  h_id : string; h_Authorization : string; h_BreakGlass : string; h_XRequestID : string;
  ctx_request_id : option string; ctx_RequestID : string
}.

Definition extractBearer (h : http_request) : option string :=
  if h_Authorization h =s "" then None else
  match cut " " (h_Authorization h) with
  | None => None
  | Some (scheme, rest) =>
      if negb (equal_fold scheme "bearer") then None else
      let tok := trim_space rest in if tok =s "" then None else Some tok
  end.

Definition breakGlassJustification (h : http_request) : option string :=
  let v := trim_space (h_BreakGlass h) in if v =s "" then None else Some v.

Definition requestID (h : http_request) : string :=
  if negb (h_XRequestID h =s "") then h_XRequestID h else
  match ctx_request_id h with
  | Some s => if negb (s =s "") then s else ctx_RequestID h
  | None => ctx_RequestID h
  end.

(** What is recorded on a request that passes, and the answer to one that does not. *)
Inductive mark := Ungoverned | BrokeGlass (justification : string) | AdvisoryDeny (audit policy : string) | Granted (audit policy : string).
Inductive refusal :=
| PreCheckFailed | AuthenticationRequired | FailClosed (env : string) | CallFailed
| Forbidden (reason policy audit service env : string).

Definition status (r : refusal) : Z :=
  match r with PreCheckFailed => 502 | AuthenticationRequired => 401 | FailClosed _ => 503 | CallFailed => 502 | Forbidden _ _ _ _ _ => 403 end.

Definition RequireGovernanceAllow (client : option Client) (st : lookups) (bg_Enabled : bool) (h : http_request) : result refusal mark :=
  match client with
  | None => Ok Ungoverned
  | Some c =>
      if negb (Enabled c) then Ok Ungoverned else
      match AppDeployExtractor st (h_id h) with
      | Err _ => Err PreCheckFailed
      | Ok None => Ok Ungoverned
      | Ok (Some (service, env)) =>
          match extractBearer h with
          | None => Err AuthenticationRequired
          | Some token =>
              let actx := match breakGlassJustification h with Some _ => mkContext (Some true) None ∅ | None => no_context end in
              match Authorize c token service env (requestID h) actx with
              | Err (Unreachable _) =>
                  match breakGlassJustification h with
                  | Some just => if bg_Enabled then Ok (BrokeGlass just) else Err (FailClosed env)
                  | None => Err (FailClosed env)
                  end
              | Err _ => Err CallFailed
              | Ok d =>
                  if negb (Allowed d) then
                    if negb (d_Enforced d) then Ok (AdvisoryDeny (d_AuditID d) (d_PolicyID d))
                    else Err (Forbidden (d_Reason d) (d_PolicyID d) (d_AuditID d) service env)
                  else Ok (Granted (d_AuditID d) (d_PolicyID d))
              end
          end
      end
  end.
End calls.

(** ** Retried attempts

    A stage's closure runs once per attempt of its retry policy, the question to the
    gate included. *)

Definition gov_flag (f : go_error -> bool) (e : gov_error) : bool :=
  match e with Unreachable (Post e) => f e | Undecodable (Some e) => f e | _ => false end.
Definition hook_flag (f : go_error -> bool) (e : hook_error) : bool :=
  match e with
  | LookupEnv e => f e
  | LookupPipeline (Some (Failed e)) => f e
  | GateUnreachable _ _ (Post e) => f e
  | GateError e => gov_flag f e
  | _ => false
  end.
Definition stage_flag (f : go_error -> bool) (e : stage_error) : bool :=
  match e with Governed e => hook_flag f e | Adapter e => f e end.

(** What the stage meets at its [n]-th attempt. *)
Record surroundings := mkSurroundings {
  s_lookups : nat -> lookups; s_gate : nat -> authorizeRequest -> reply; s_adapter : nat -> option go_error;
  s_ctx : nat -> option go_error; s_rand : nat -> option Z; s_pause : nat -> option go_error
}.

Definition stage_world (url_ok : string -> bool) (c : option Client) (run : PipelineRun) (stage : Stage) (s : surroundings) : world stage_error :=
  mkWorld (fun n => Adapter <$> s_ctx s n)
    (fun n => deploy_attempt (PipelineDeployHook url_ok (s_gate s n) c (s_lookups s n)) run stage (s_adapter s n))
    (s_rand s) (fun n => Adapter <$> s_pause s n).

Definition deploy_stage (url_ok : string -> bool) (c : option Client) (run : PipelineRun) (stage : Stage) (s : surroundings) : outcome stage_error :=
  Do (policyFromStage (stage_flag er_canceled) (stage_flag er_deadline) stage) (stage_world url_ok c run stage s).

(** ** What the gate's reply allows *)

(** An answer to go ahead: allowed, or denied without enforcement. *)
Definition go_ahead (r : reply) : Prop :=
  exists doc d, r = Reply 200 (Document doc) /\ decode doc = Some d /\
    (d_Decision d = "allow" \/ d_Decision d = "deny" /\ d_Enforced d = false).

(** No reply, or one whose status is not 200. *)
Definition no_answer (r : reply) : Prop := match r with NoReply _ => True | Reply n _ => n <> 200 end.

Definition passes (d : Decision) : bool := Allowed d || negb (d_Enforced d).

Lemma to_lower_idem s : to_lower (to_lower s) = to_lower s.
Proof.
  induction s as [|c s IH]; cbn -[Z.of_nat]; [done|]. rewrite IH. f_equal.
  destruct c as [[] [] [] [] [] [] [] []]; reflexivity.
Qed.

Section facts.
Context (url_ok : string -> bool) (gate : authorizeRequest -> reply).

(** The decisions [ask] lets through. *)
Lemma valid_decision d : negb (d_Decision d =s "allow") && negb (d_Decision d =s "deny") = false ->
  passes d = true <-> d_Decision d = "allow" \/ d_Decision d = "deny" /\ d_Enforced d = false.
Proof.
  unfold passes, Allowed. destruct (String.eqb_spec (d_Decision d) "allow") as [Ha|Ha]; [intros _; cbn; split; auto|].
  destruct (String.eqb_spec (d_Decision d) "deny") as [Hd|Hd]; [|done]. intros _.
  destruct (d_Enforced d); cbn; split; [done| |auto|done]. intros [?|[_ ?]]; congruence.
Qed.

Lemma invalid_decision d : negb (d_Decision d =s "allow") && negb (d_Decision d =s "deny") = true ->
  d_Decision d <> "allow" /\ d_Decision d <> "deny".
Proof. intros [??]%andb_true_iff. reflect_bools. done. Qed.

Lemma fallback_passes c env why :
  (exists d, transportFallback c env why = Ok d /\ passes d = true) <-> to_lower env ∈ FailOpenEnvs c.
Proof. unfold transportFallback. case_bool_decide; [split; [done|intros _; eexists; done]|]. split; [intros (? & ? & ?)|]; done. Qed.

Lemma fallback_error c env why :
  (exists why', transportFallback c env why = Err (Unreachable why')) <-> to_lower env ∉ FailOpenEnvs c.
Proof. unfold transportFallback. case_bool_decide; [split; [intros (? & ?)|]; done|]. split; [done|intros _; by eexists]. Qed.

Lemma go_ahead_reply doc d : decode doc = Some d ->
  go_ahead (Reply 200 (Document doc)) <-> d_Decision d = "allow" \/ d_Decision d = "deny" /\ d_Enforced d = false.
Proof. intros Hd. split; [intros (? & ? & [= <-] & ? & ?)|intros ?; exists doc, d; done]. by simplify_eq. Qed.

Lemma ask_passes c rq :
  (exists d, ask url_ok gate c rq = Ok d /\ passes d = true) <->
  url_ok (rq_url rq) = true /\ (go_ahead (gate rq) \/ no_answer (gate rq) /\ to_lower (rq_Env rq) ∈ FailOpenEnvs c).
Proof.
  unfold ask. destruct (url_ok (rq_url rq)); cbn [negb]; [|split; [by intros (? & ? & ?)|by intros [? _]]].
  destruct (gate rq) as [e|n b].
  { rewrite fallback_passes. split; [intros ?; split; [done|right; done]|]. intros (_ & [(? & ? & ? & _)|[_ ?]]); done. }
  destruct (Z.eqb_spec n 200) as [->|Hn]; cbn [negb].
  - assert (forall P, true = true /\ (go_ahead (Reply 200 b) \/ no_answer (Reply 200 b) /\ P) <-> go_ahead (Reply 200 b)) as ->
      by (intros P; cbn; intuition).
    destruct b as [doc| |e]; [|split; [by intros (? & ? & ?)|by intros (? & ? & ? & _)]..].
    destruct (decode doc) as [d|] eqn:Hd; [rewrite (go_ahead_reply doc d) by done|].
    + destruct (_ && _) eqn:Hv.
      * apply invalid_decision in Hv. split; [by intros (? & ? & ?)|intuition].
      * rewrite <- valid_decision by done. split; [intros (? & Hq & ?); injection Hq as <-; done|eauto].
    + split; [intros (? & ? & ?)|intros (? & ? & [= <-] & ? & _)]; congruence.
  - rewrite fallback_passes. split; [intros ?; split; [done|right; done]|]. intros (_ & [(? & ? & [= -> ->] & _)|[_ ?]]); done.
Qed.

Lemma ask_error c rq : (exists why, ask url_ok gate c rq = Err (Unreachable why)) <->
  url_ok (rq_url rq) = true /\ no_answer (gate rq) /\ to_lower (rq_Env rq) ∉ FailOpenEnvs c.
Proof.
  unfold ask. destruct (url_ok (rq_url rq)); cbn [negb]; [|split; [by intros (? & ?)|by intros [? _]]].
  destruct (gate rq) as [e|n b]; [rewrite fallback_error; cbn; intuition|].
  destruct (Z.eqb_spec n 200) as [->|Hn]; cbn [negb]; [|rewrite fallback_error; cbn; intuition].
  split; [|intros (_ & ? & _); done]. intros [why H]. destruct b; [|done..]. destruct (decode doc); [|done]. by destruct (_ && _).
Qed.

(** *** The hook *)

Definition hook_request (c : Client) (run : PipelineRun) (svc env : string) : authorizeRequest :=
  mkRequest (BaseURL c +:+ "/authorize") (Some ("Bearer " +:+ DelegateToken c)) ""
    (Some (mkActor "human" (run_StartedByUserSub run) (run_StartedByGroups run) [])) "deploy" svc env (run_ID run) no_context.

(** What the gate would be asked about: the lowered names of the pipeline and of the
    stage's environment. *)
Definition governs (st : lookups) (run : PipelineRun) (stage : Stage) (svc env : string) : Prop :=
  run_StartedByUserSub run <> "" /\ st_EnvironmentID stage <> "" /\
  lookupEnvName st (st_EnvironmentID stage) = Ok env /\ env <> "" /\
  exists name, pipelineNameFor st (run_PipelineID run) = Ok name /\ name <> "" /\ svc = to_lower name.

Lemma hook_governed c st run stage svc env : DelegationEnabled c = true -> governs st run stage svc env ->
  hook url_ok gate c st (Some run) stage = None <->
  svc ∈ BootstrapServices c \/
  url_ok (BaseURL c +:+ "/authorize") = true /\
  (go_ahead (gate (hook_request c run svc env)) \/
   no_answer (gate (hook_request c run svc env)) /\ to_lower env ∈ FailOpenEnvs c).
Proof.
  intros HD (Hsub & Hid & Henv & Hne & name & Hname & Hnn & ->). unfold hook.
  rewrite (proj2 (String.eqb_neq _ _) Hsub), (proj2 (String.eqb_neq _ _) Hid), Henv, (proj2 (String.eqb_neq _ _) Hne), Hname,
    (proj2 (String.eqb_neq _ _) Hnn).
  unfold AuthorizeOnBehalf. rewrite HD, to_lower_idem. cbn [negb]. case_bool_decide as Hb; [cbn; naive_solver|].
  fold (hook_request c run (to_lower name) env).
  pose proof (ask_passes c (hook_request c run (to_lower name) env)) as Hp. cbn [rq_url rq_Env hook_request] in Hp.
  fold (hook_request c run (to_lower name) env) in Hp. unfold passes in Hp.
  destruct (ask _ _ _ _) as [d|e].
  - destruct (Allowed d) eqn:Ha; cbn [negb]; [|destruct (d_Enforced d) eqn:Hen; cbn [negb]].
    + split; [intros _; right; apply Hp; exists d; by rewrite Ha|done].
    + split; [done|]. intros [?|Hr]; [done|]. apply Hp in Hr as (d' & [= <-] & H). by rewrite Ha, Hen in H.
    + split; [intros _; right; apply Hp; exists d; by rewrite Hen, orb_true_r|done].
  - split; [destruct e; done|]. intros [?|Hr]; [done|]. apply Hp in Hr as (d' & ? & _). done.
Qed.
End facts.

(** *** The middleware *)

Section middleware.
Context (url_ok : string -> bool) (gate : authorizeRequest -> reply).

Definition middleware_request (c : Client) (h : http_request) (token service env : string) : authorizeRequest :=
  mkRequest (BaseURL c +:+ "/authorize") (if negb (CallerToken c =s "") then Some ("Bearer " +:+ CallerToken c) else None)
    token None "deploy" service env (requestID h)
    (match breakGlassJustification h with Some _ => mkContext (Some true) None ∅ | None => no_context end).

(** A deploy, rollback or promotion request for an application with an environment
    passes the middleware exactly when it carries a bearer token and either the service
    is exempt or the gate says to go ahead, or gives no answer while the environment is
    open then or the request carries a justification and break-glass is switched on. *)
Theorem middleware_admits c st bg h service env : Enabled c = true -> AppDeployExtractor st (h_id h) = Ok (Some (service, env)) ->
  (exists m, RequireGovernanceAllow url_ok gate (Some c) st bg h = Ok m) <->
  exists token, extractBearer h = Some token /\
  let r := gate (middleware_request c h token service env) in
  (to_lower service ∈ BootstrapServices c \/
   url_ok (BaseURL c +:+ "/authorize") = true /\
   (go_ahead r \/
    no_answer r /\ (to_lower env ∈ FailOpenEnvs c \/ bg = true /\ exists why, breakGlassJustification h = Some why))).
Proof.
  intros HE Hx. unfold RequireGovernanceAllow. rewrite HE, Hx. cbn [negb].
  destruct (extractBearer h) as [token|]; [|naive_solver].
  transitivity (to_lower service ∈ BootstrapServices c \/ url_ok (BaseURL c +:+ "/authorize") = true /\
    (go_ahead (gate (middleware_request c h token service env)) \/ no_answer (gate (middleware_request c h token service env)) /\
     (to_lower env ∈ FailOpenEnvs c \/ bg = true /\ exists why, breakGlassJustification h = Some why)));
    [|split; [intros ?; by exists token|by intros (? & [= <-] & ?)]].
  unfold Authorize. rewrite HE. cbn [negb]. case_bool_decide as Hb; [cbn; split; [auto|eauto]|].
  fold (middleware_request c h token service env).
  pose proof (ask_passes url_ok gate c (middleware_request c h token service env)) as Hp.
  pose proof (ask_error url_ok gate c (middleware_request c h token service env)) as He.
  unfold passes in Hp. cbn [rq_url rq_Env middleware_request] in Hp, He.
  fold (middleware_request c h token service env) in Hp, He.
  set (r := gate (middleware_request c h token service env)) in *.
  destruct (ask _ _ _ _) as [d|e].
  - assert (no_answer r -> to_lower env ∈ FailOpenEnvs c \/ url_ok (BaseURL c +:+ "/authorize") = false) as Hn.
    { intros Hr. destruct (decide (to_lower env ∈ FailOpenEnvs c)); [by left|]. destruct (url_ok _) eqn:?; [|by right].
      exfalso. destruct (proj2 He) as (? & ?); done. }
    destruct (Allowed d) eqn:Ha; cbn [negb]; [|destruct (d_Enforced d) eqn:Hen; cbn [negb]].
    + split; [|naive_solver]. intros _. right. destruct (proj1 Hp) as (? & [?|[? ?]]); [exists d; by rewrite Ha|auto|auto].
    + split; [naive_solver|]. intros [?|(Hu & Hr)]; [done|].
      destruct (proj2 Hp) as (d' & [= <-] & H); [|by rewrite Ha, Hen in H].
      split; [done|]. destruct Hr as [?|(Hr & _)]; [by left|]. right. split; [done|]. destruct (Hn Hr); congruence.
    + split; [|naive_solver]. intros _. right. destruct (proj1 Hp) as (? & [?|[? ?]]); [exists d; by rewrite Hen, orb_true_r|auto|auto].
  - assert (~ (url_ok (BaseURL c +:+ "/authorize") = true /\ (go_ahead r \/ no_answer r /\ to_lower env ∈ FailOpenEnvs c))) as Hno
      by (rewrite <- Hp; naive_solver).
    destruct e as [why| | |]; [|split; [naive_solver|]..].
    + destruct (proj1 He) as (? & ? & ?); [eauto|]. destruct (breakGlassJustification h); [destruct bg|]; naive_solver.
    + intros [?|(? & [?|(? & [?|?])])]; [done|naive_solver..|].
      destruct (decide (to_lower env ∈ FailOpenEnvs c)); [naive_solver|]. destruct (proj2 He) as (? & ?); done.
    + intros [?|(? & [?|(? & [?|?])])]; [done|naive_solver..|].
      destruct (decide (to_lower env ∈ FailOpenEnvs c)); [naive_solver|]. destruct (proj2 He) as (? & ?); done.
    + intros [?|(? & [?|(? & [?|?])])]; [done|naive_solver..|].
      destruct (decide (to_lower env ∈ FailOpenEnvs c)); [naive_solver|]. destruct (proj2 He) as (? & ?); done.
Qed.
End middleware.

(** ** The gate stops what it should *)

Section stages.
Context (url_ok : string -> bool) (c : Client) (run : PipelineRun) (stage : Stage) (s : surroundings).

(** The gate is switched on for pipelines, the run has a recorded user and the stage an
    environment; and at every attempt the environment, unless its lookup fails, is there
    and is closed when the gate does not answer, and the service is not exempt. *)
Definition strict : Prop :=
  DelegationEnabled c = true /\ run_StartedByUserSub run <> "" /\ st_EnvironmentID stage <> "" /\
  forall n, match lookupEnvName (s_lookups s n) (st_EnvironmentID stage) with
    | Err _ => True
    | Ok env => env <> "" /\ ~ (to_lower env ∈ FailOpenEnvs c) /\
        match pipelineNameFor (s_lookups s n) (run_PipelineID run) with
        | Err _ => True
        | Ok name => ~ (to_lower name ∈ BootstrapServices c)
        end
    end.

(** The [n]-th attempt found what it deploys and was told to go ahead with it. *)
Definition approved (n : nat) : Prop :=
  exists svc env, governs (s_lookups s n) run stage svc env /\ go_ahead (s_gate s n (hook_request c run svc env)).

Lemma strict_hook n : strict -> hook url_ok (s_gate s n) c (s_lookups s n) (Some run) stage = None -> approved n.
Proof.
  intros (HD & Hsub & Hid & Hall) Hh. specialize (Hall n). pose proof Hh as Hhook. unfold hook in Hhook.
  rewrite (proj2 (String.eqb_neq _ _) Hsub), (proj2 (String.eqb_neq _ _) Hid) in Hhook.
  destruct (lookupEnvName _ _) as [env|] eqn:Henv; [|done]. destruct Hall as (Hne & Hopen & Hexempt).
  rewrite (proj2 (String.eqb_neq _ _) Hne) in Hhook. destruct (pipelineNameFor _ _) as [name|] eqn:Hname; [|done].
  destruct (String.eqb_spec name "") as [|Hnn]; [done|].
  assert (governs (s_lookups s n) run stage (to_lower name) env) as Hg by (split_and!; [done..|by exists name]).
  exists (to_lower name), env. split; [done|].
  apply (hook_governed _ _ c _ run stage _ _ HD Hg) in Hh as [?|(_ & [?|[_ ?]])]; done.
Qed.

Lemma strict_attempt n a : strict ->
  deploy_attempt (PipelineDeployHook url_ok (s_gate s n) (Some c) (s_lookups s n)) run stage a = None -> approved n /\ a = None.
Proof.
  intros Hs. pose proof Hs as (HD & _). unfold PipelineDeployHook. rewrite HD. unfold deploy_attempt.
  destruct (hook _ _ _ _ _ _) eqn:Hh; [done|]. intros Ha. split; [by apply strict_hook|by destruct a].
Qed.
End stages.

(** C31. A deploy stage of a pipeline whose run has a recorded user, with delegation to
    the gate switched on, in an environment that every attempt finds, or fails to look
    up, and that is closed when the gate is silent, for a service that is not exempt: it
    succeeds only if its last attempt was told to go ahead (allowed, or denied without
    enforcement), and an attempt that was not told so does not reach the deployment
    adapter, whose answer there makes no difference.  An earlier denial does not bind a
    later attempt. *)
Theorem gate_stops_stages url_ok c run stage s :
  strict c run stage s ->
  let o := deploy_stage url_ok (Some c) run stage s in
  (o_err o = None -> (0 < o_calls o)%nat /\ approved c run stage s (o_calls o) /\ s_adapter s (o_calls o) = None) /\
  (forall adapter', (forall n, approved c run stage s n -> adapter' n = s_adapter s n) ->
     deploy_stage url_ok (Some c) run stage (mkSurroundings (s_lookups s) (s_gate s) adapter' (s_ctx s) (s_rand s) (s_pause s)) = o).
Proof.
  intros Hs o. split.
  - intros Ho. destruct (Do_bounded (policyFromStage (stage_flag er_canceled) (stage_flag er_deadline) stage)
      (stage_world url_ok (Some c) run stage s)) as (_ & _ & Hn & _).
    destruct (Hn Ho) as (H0 & Ha). split; [done|]. by apply (strict_attempt _ c run stage s) in Ha.
  - intros adapter' Heq. apply attempts_ext; try done. intros n. cbn [stage_world w_op s_gate s_adapter s_lookups].
    pose proof Hs as (HD & _). unfold PipelineDeployHook, deploy_attempt. rewrite HD.
    destruct (hook url_ok (s_gate s n) c (s_lookups s n) (Some run) stage) eqn:Hh; [done|].
    rewrite Heq; [done|]. by apply (strict_hook url_ok).
Qed.

(** ** A concrete gate *)

Definition demo_client : Client :=
  WithDelegateToken "delegate" (WithCallerToken "caller" (New "https://gate/" ["governance"; " "] ["Dev"; "staging"])).
Definition demo_app : App :=
  mkApp "a1" "Shop" "" "o/r" "main" None (mkTarget "kubernetes" "" "" "" "" "" []) "" "e1" "" false false
    (mkConfig "" 0 false 0) 0 0 1 "" None "" "".
Definition demo_lookups : lookups :=
  mkLookups (fun id => if id =s "e1" then Ok (Some "Prod") else if id =s "e2" then Ok (Some "DEV") else Err NotFound)
    (fun _ => Ok (Some "Checkout")) (fun _ => Ok (Some demo_app)).
Definition demo_run (sub : string) : PipelineRun :=
  mkPipelineRun "r1" "p1" RunStatusRunning [] [] ∅ 0 None None "" None sub "" ["ops"] "" 1.
Definition demo_stage (env : string) : Stage :=
  mkStage "deploy" "deploy" StageTypeDeploy
    (mkStageConfig "" "" ∅ "" [] [] None "" [] "" "" "" "" "" "" "" "" "" false None "" "" "" [] None "" "" 0 2 None ∅ "" [] "" "" "" "" "")
    env "".
Definition demo_says (l : list (string * value)) : reply := Reply 200 (Document (JObject l)).
Definition demo_deny : reply :=
  demo_says [("decision", JString "deny"); ("reason", JString "freeze"); ("enforced", JBool true); ("trace", JOther)].
(** It denies until the [n]-th question. *)
Definition demo_surroundings (n : nat) : surroundings :=
  mkSurroundings (fun _ => demo_lookups) (fun k _ => if (k <? n)%nat then demo_deny else demo_says [("Decision", JString "allow")])
    (fun _ => None) (fun _ => None) (fun _ => None) (fun _ => None).
Definition demo_http (auth why : string) : http_request := mkHTTP "a1" auth why "" (Some "rid") "".

Lemma demo_strict n : strict demo_client (demo_run "alice") (demo_stage "e1") (demo_surroundings n).
Proof.
  split_and!; [vm_compute; reflexivity|done|done|]. intros k. cbn -[elem_of].
  split_and!; [done|by apply (bool_decide_eq_false_1 _); vm_compute|by apply (bool_decide_eq_false_1 _); vm_compute].
Defined.

Lemma gate_stops_stages_witness :
  strict demo_client (demo_run "alice") (demo_stage "e1") (demo_surroundings 3) /\
  let s := demo_surroundings 3 in
  let o := deploy_stage (fun _ => true) (Some demo_client) (demo_run "alice") (demo_stage "e1") s in
  (o_err o = None -> (0 < o_calls o)%nat /\ approved demo_client (demo_run "alice") (demo_stage "e1") s (o_calls o) /\
     s_adapter s (o_calls o) = None) /\
  (forall adapter', (forall n, approved demo_client (demo_run "alice") (demo_stage "e1") s n -> adapter' n = s_adapter s n) ->
     deploy_stage (fun _ => true) (Some demo_client) (demo_run "alice") (demo_stage "e1")
       (mkSurroundings (s_lookups s) (s_gate s) adapter' (s_ctx s) (s_rand s) (s_pause s)) = o).
Proof. split; [exact (demo_strict 3)|apply (gate_stops_stages _ _ _ _ _ (demo_strict 3))]. Defined.

Lemma middleware_admits_witness :
  Enabled demo_client = true /\ AppDeployExtractor demo_lookups "a1" = Ok (Some ("shop", "prod")) /\
  ((exists m, RequireGovernanceAllow (fun _ => true) (fun _ => demo_deny) (Some demo_client) demo_lookups true
      (demo_http "Bearer t" "fire") = Ok m) <->
   exists token, extractBearer (demo_http "Bearer t" "fire") = Some token /\
   let r := demo_deny in
   (to_lower "shop" ∈ BootstrapServices demo_client \/
    true = true /\
    (go_ahead r \/
     no_answer r /\ (to_lower "prod" ∈ FailOpenEnvs demo_client \/
       true = true /\ exists why, breakGlassJustification (demo_http "Bearer t" "fire") = Some why)))).
Proof.
  split_and!; [vm_compute; reflexivity|vm_compute; reflexivity|].
  apply (middleware_admits (fun _ => true) (fun _ => demo_deny) demo_client demo_lookups true (demo_http "Bearer t" "fire") "shop" "prod");
    vm_compute; reflexivity.
Defined.

(** An enforced denial does not end the stage: it is retried like any error, each attempt
    asks again, and here the third answer lets the deployment through. *)
Example denied_stage_asks_again :
  let o n := deploy_stage (fun _ => true) (Some demo_client) (demo_run "alice") (demo_stage "e1") (demo_surroundings n) in
  (o_calls (o 3%nat), o_err (o 3%nat)) = (3%nat, None) /\
  (o_calls (o 9%nat), o_err (o 9%nat)) = (3%nat, Some (Governed (Denied "checkout" "prod" "freeze" "" ""))).
Proof. vm_compute. auto. Qed.

(** A denied stage whose environment is deleted before the next attempt is deployed. *)
Example deleted_environment_deploys :
  let gone := mkLookups (fun _ => Err NotFound) (pipeline_name demo_lookups) (app_row demo_lookups) in
  let s := mkSurroundings (fun k => if (k <? 2)%nat then demo_lookups else gone) (fun _ _ => demo_deny)
    (fun _ => None) (fun _ => None) (fun _ => None) (fun _ => None) in
  let o := deploy_stage (fun _ => true) (Some demo_client) (demo_run "alice") (demo_stage "e1") s in
  (o_calls o, o_err o) = (2%nat, None).
Proof. vm_compute. reflexivity. Qed.

(** A run without a recorded user and a stage without an environment are not asked about. *)
Example ungoverned_stages :
  (hook (fun _ => true) (fun _ => demo_deny) demo_client demo_lookups (Some (demo_run "")) (demo_stage "e1"),
   hook (fun _ => true) (fun _ => demo_deny) demo_client demo_lookups (Some (demo_run "alice")) (demo_stage ""),
   hook (fun _ => true) (fun _ => demo_deny) demo_client demo_lookups (Some (demo_run "alice")) (demo_stage "gone")) = (None, None, None).
Proof. vm_compute. reflexivity. Qed.

(** A gate that answers, but refuses Cooker's own token, counts as one that cannot be
    reached: break-glass is open, and an open environment deploys. *)
Example rejected_caller_breaks_glass :
  let ask gate st why := RequireGovernanceAllow (fun _ => true) gate (Some demo_client) st true (demo_http "bearer t" why) in
  (ask (fun _ => Reply 403 NotJSON) demo_lookups "fire", ask (fun _ => Reply 403 NotJSON) demo_lookups "  ",
   ask (fun _ => Reply 401 NotJSON) (mkLookups (fun _ => Ok (Some "dev")) (pipeline_name demo_lookups) (app_row demo_lookups)) "") =
  (Ok (BrokeGlass "fire"), Err (FailClosed "prod"), Ok (Granted "" "cooker.governance.fail_open")).
Proof. vm_compute. reflexivity. Qed.

(** A denial without the [enforced] field is not enforced. *)
Example silent_mode_is_advisory :
  (RequireGovernanceAllow (fun _ => true) (fun _ => demo_says [("decision", JString "deny"); ("audit_id", JString "7")])
     (Some demo_client) demo_lookups false (demo_http "Bearer t" ""),
   RequireGovernanceAllow (fun _ => true) (fun _ => demo_says [("decision", JString "Allow")])
     (Some demo_client) demo_lookups false (demo_http "Bearer t" ""),
   RequireGovernanceAllow (fun _ => true) (fun _ => demo_deny) (Some demo_client) demo_lookups false (demo_http "Token t" "")) =
  (Ok (AdvisoryDeny "7" ""), Err CallFailed, Err AuthenticationRequired).
Proof. vm_compute. reflexivity. Qed.

(** The startup warning outside production is silent exactly for an integration that is
    complete or absent. *)
Lemma boot_warning_silent url caller delegate bootstrap failOpen :
  boot_warning url caller delegate bootstrap failOpen false = None <->
  (trim_right_slash url <> "" /\ trim_space caller <> "" /\ trim_space delegate <> "") \/
  (url = "" /\ caller = "" /\ delegate = "").
Proof.
  unfold boot_warning, InertReason. cbn [BaseURL CallerToken DelegateToken WithCallerToken WithDelegateToken New].
  destruct (String.eqb_spec (trim_right_slash url) ""), (String.eqb_spec (trim_space caller) ""),
    (String.eqb_spec (trim_space delegate) ""), (String.eqb_spec url ""), (String.eqb_spec caller ""), (String.eqb_spec delegate "");
    subst; cbn in *; intuition congruence.
Qed.
