(* ===== verification/RateLimit.v ===== *)
(** * Rate limits: [internal/server/ratelimit.go] and [ratelimit_redis.go]

    A map of token buckets that requests look up and a sweeper empties, under two
    mutexes.  The steps between two lock operations interleave.  The bucket itself is
    [golang.org/x/time/rate], a class; so is the limiter behind Redis, a function. *)

From S2P Require Import Prelude GoStr.
Local Open Scope Z_scope.

(** ** The token bucket

    Documented: a bucket of size [burst], initially full and refilled at [perMinute]
    tokens a minute.  Its content is counted in units of which a token has [token], so
    that a nanosecond brings [perMinute] of them. *)

Definition token : Z := minute.

Class TokenBucket (L : Type) := {
  NewLimiter : Z -> Z -> L;
  Allow : L -> Z -> bool * L;
  (** its parameters, its content at a time, and that it was not used after a time *)
  rate_of : L -> Z; size_of : L -> Z;
  content : L -> Z -> Z;
  used_by : L -> Z -> Prop;
  new_params p b : rate_of (NewLimiter p b) = p /\ size_of (NewLimiter p b) = b;
  new_full p b t : 0 <= p -> 0 <= b -> content (NewLimiter p b) t = b * token /\ used_by (NewLimiter p b) t;
  content_range l t : 0 <= size_of l -> used_by l t -> 0 <= content l t <= size_of l * token;
  content_refills l t t' : used_by l t -> t <= t' ->
    content l t' = Z.min (size_of l * token) (content l t + rate_of l * (t' - t)) /\ used_by l t';
  allow_takes l t : used_by l t ->
    (Allow l t).1 = (token <=? content l t) /\
    content (Allow l t).2 t = content l t - (if (Allow l t).1 then token else 0) /\
    rate_of (Allow l t).2 = rate_of l /\ size_of (Allow l t).2 = size_of l /\ used_by (Allow l t).2 t
}.

(** ** The limiter *)

(** Where a request is: its read of the map missed or found a bucket; it has inserted one
    and holds the write lock; it has its bucket. *)
Inductive phase := Missed (key : string) | Found (key : string) (b : nat) | Inserted (key : string) (b : nat) | Ready (key : string) (b : nat).

Section limiter.
Context {L : Type} `{TokenBucket L} `{RO : RangeOrder}.

(** [rl_mu] is the request that holds [mu] for writing between two steps; a bucket is a
    pointer into [rl_heap]; [rl_stale] is what the sweeper has collected. *)
Record rateLimiter := mkLimiter {
  rl_perMinute : Z; rl_burst : Z;
  rl_buckets : gmap string nat; rl_heap : gmap nat L; rl_next : nat;
  rl_lastSeen : gmap string Z; rl_mu : option nat; rl_stale : option (list string);
  rl_requests : gmap nat phase
}.

Definition set_maps (rl : rateLimiter) buckets heap next lastSeen mu stale requests : rateLimiter :=
  mkLimiter (rl_perMinute rl) (rl_burst rl) buckets heap next lastSeen mu stale requests.
Definition set_request (rl : rateLimiter) (r : nat) (p : phase) : rateLimiter :=
  set_maps rl (rl_buckets rl) (rl_heap rl) (rl_next rl) (rl_lastSeen rl) (rl_mu rl) (rl_stale rl) (<[r := p]> (rl_requests rl)).

Definition newRateLimiter (perMinute burst : Z) : rateLimiter := mkLimiter perMinute burst ∅ ∅ 0 ∅ None None ∅.

(** The read under [mu.RLock]. *)
Definition look_up (rl : rateLimiter) (r : nat) (key : string) : rateLimiter :=
  set_request rl r (match rl_buckets rl !! key with Some b => Found key b | None => Missed key end).

(** The fast path's [lastSeen[key] = time.Now()]. *)
Definition touch (rl : rateLimiter) (now : Z) (r : nat) (key : string) (b : nat) : rateLimiter :=
  set_maps rl (rl_buckets rl) (rl_heap rl) (rl_next rl) (<[key := now]> (rl_lastSeen rl)) (rl_mu rl) (rl_stale rl)
    (<[r := Ready key b]> (rl_requests rl)).

(** The slow path's second look under [mu.Lock], and its insertion. *)
Definition insert_bucket (rl : rateLimiter) (r : nat) (key : string) : rateLimiter :=
  match rl_buckets rl !! key with
  | Some b => set_request rl r (Ready key b)
  | None =>
      let b := rl_next rl in
      set_maps rl (<[key := b]> (rl_buckets rl)) (<[b := NewLimiter (rl_perMinute rl) (rl_burst rl)]> (rl_heap rl)) (S b)
        (rl_lastSeen rl) (Some r) (rl_stale rl) (<[r := Inserted key b]> (rl_requests rl))
  end.

(** Its [lastSeen[key] = time.Now()] and the unlock. *)
Definition stamp (rl : rateLimiter) (now : Z) (r : nat) (key : string) (b : nat) : rateLimiter :=
  set_maps rl (rl_buckets rl) (rl_heap rl) (rl_next rl) (<[key := now]> (rl_lastSeen rl)) None (rl_stale rl)
    (<[r := Ready key b]> (rl_requests rl)).

(** [Allow()] of the bucket the request holds. *)
Definition decide_request (rl : rateLimiter) (now : Z) (r : nat) (b : nat) : bool * rateLimiter :=
  match rl_heap rl !! b with
  | None => (false, rl)
  | Some l =>
      let '(ok, l') := Allow l now in
      (ok, set_maps rl (rl_buckets rl) (<[b := l']> (rl_heap rl)) (rl_next rl) (rl_lastSeen rl) (rl_mu rl) (rl_stale rl)
        (delete r (rl_requests rl)))
  end.

(** One tick of the sweeper: collecting under [lastMu], deleting under [mu]. *)
Definition interval : Z := 10 * minute.

Definition collect (rl : rateLimiter) (now : Z) : rateLimiter :=
  let stale := filter (fun '(_, t) => (t <? now - interval) = true) (range_map (rl_lastSeen rl)) in
  set_maps rl (rl_buckets rl) (rl_heap rl) (rl_next rl) (foldr (fun '(k, _) m => delete k m) (rl_lastSeen rl) stale)
    (rl_mu rl) (Some stale.*1) (rl_requests rl).

Definition remove (rl : rateLimiter) (stale : list string) : rateLimiter :=
  set_maps rl (foldr (fun k m => delete k m) (rl_buckets rl) stale) (rl_heap rl) (rl_next rl) (rl_lastSeen rl) (rl_mu rl) None (rl_requests rl).

(** The steps, each at some time. *)
Inductive lstep (rl : rateLimiter) : rateLimiter -> Prop :=
| l_look_up r key : rl_mu rl = None -> rl_requests rl !! r = None -> lstep rl (look_up rl r key)
| l_touch now r key b : rl_requests rl !! r = Some (Found key b) -> lstep rl (touch rl now r key b)
| l_insert r key : rl_mu rl = None -> rl_requests rl !! r = Some (Missed key) -> lstep rl (insert_bucket rl r key)
| l_stamp now r key b : rl_requests rl !! r = Some (Inserted key b) -> lstep rl (stamp rl now r key b)
| l_decide now r key b : rl_requests rl !! r = Some (Ready key b) -> lstep rl (decide_request rl now r b).2
| l_collect now : rl_stale rl = None -> lstep rl (collect rl now)
| l_remove stale : rl_mu rl = None -> rl_stale rl = Some stale -> lstep rl (remove rl stale).

(** A request and a tick that nothing interrupts: what the chain of a route runs as one
    step.  [run], below, interleaves them. *)
Definition limiterFor (rl : rateLimiter) (now : Z) (r : nat) (key : string) : rateLimiter :=
  let rl := look_up rl r key in
  match rl_requests rl !! r with
  | Some (Found key b) => touch rl now r key b
  | _ =>
      let rl := insert_bucket rl r key in
      match rl_requests rl !! r with
      | Some (Inserted key b) => stamp rl now r key b
      | _ => rl
      end
  end.

Definition serve (rl : rateLimiter) (now : Z) (r : nat) (key : string) : bool * rateLimiter :=
  let rl := limiterFor rl now r key in
  match rl_requests rl !! r with
  | Some (Ready _ b) => decide_request rl now r b
  | _ => (false, rl)
  end.

Definition gc_tick (rl : rateLimiter) (now : Z) : rateLimiter :=
  let rl := collect rl now in
  match rl_stale rl with Some ks => remove rl ks | None => rl end.

(** ** The middlewares *)

(** [c.Next()], or 429 with its [Retry-After]. *)
Inductive verdict := Next | TooManyRequests (retryAfter : Z).

Definition guarded (rl : rateLimiter) (now : Z) (r : nat) (key : string) : verdict * rateLimiter :=
  if rl_perMinute rl <=? 0 then (Next, rl) else
  let '(ok, rl) := serve rl now r key in
  (if ok then Next else TooManyRequests 60, rl).

(** The key of a request: [subject] is that of the authenticated user, if any. *)
Definition rateLimitKey (subject : option string) (clientIP : string) : string :=
  match subject with
  | Some s => if negb (s =s "") then "user:" +:+ s else "ip:" +:+ clientIP
  | None => "ip:" +:+ clientIP
  end.

Definition middleware (rl : rateLimiter) (now : Z) (r : nat) (subject : option string) (clientIP : string) : verdict * rateLimiter :=
  guarded rl now r (rateLimitKey subject clientIP).

Definition localAuthRateLimitPerMinute : Z := 5.
Definition localAuthRateLimitBurst : Z := 5.

Definition localAuthMiddleware (rl : rateLimiter) (now : Z) (r : nat) (clientIP : string) : verdict * rateLimiter :=
  guarded rl now r ("localauth-ip:" +:+ clientIP).
Definition webhookMiddleware (rl : rateLimiter) (now : Z) (r : nat) (clientIP : string) : verdict * rateLimiter :=
  guarded rl now r ("webhook-ip:" +:+ clientIP).
End limiter.

Arguments rateLimiter : clear implicits.

(** With Redis: [allow key limit burst] is the limiter's answer, how many requests it
    lets through and when to try again, or an error. *)
Definition redis_middleware (allow : string -> Z -> Z -> option (Z * Z)) (perMinute burst : Z) (subject : option string)
    (clientIP : string) : verdict :=
  if perMinute <=? 0 then Next else
  let limitBurst := if 0 <? burst then burst else perMinute in
  match allow (rateLimitKey subject clientIP) perMinute limitBurst with
  | None => Next
  | Some (allowed, retryAfter) =>
      if allowed =? 0 then
        let retry := retryAfter ÷ second in
        TooManyRequests (if retry <? 1 then 1 else retry)
      else Next
  end.

(** ** No bucket is kept for ever *)

Section sweeping.
Context {L : Type} `{TokenBucket L} `{RO : RangeOrder}.
Implicit Types rl : rateLimiter L.

(** A bucket that is not dated is about to be swept, or is just being inserted. *)
Record linv rl : Prop := {
  li_dated k b : rl_buckets rl !! k = Some b ->
    is_Some (rl_lastSeen rl !! k) \/ (exists ks, rl_stale rl = Some ks /\ k ∈ ks) \/ exists r, rl_requests rl !! r = Some (Inserted k b);
  li_holds r k b : rl_requests rl !! r = Some (Inserted k b) -> rl_mu rl = Some r;
  li_held r : rl_mu rl = Some r -> exists k b, rl_requests rl !! r = Some (Inserted k b)
}.

Lemma lookup_delete_list {A} (ks : list string) (m : gmap string A) k :
  foldr (fun k m => delete k m) m ks !! k = if bool_decide (k ∈ ks) then None else m !! k.
Proof.
  induction ks as [|k' ks IH]; cbn [foldr]; [by rewrite bool_decide_eq_false_2 by apply not_elem_of_nil|].
  destruct (decide (k = k')) as [->|Hne]; [by rewrite lookup_delete_eq, bool_decide_eq_true_2 by (by left)|].
  rewrite lookup_delete_ne, IH by done. erewrite bool_decide_ext; [done|]. rewrite elem_of_cons. naive_solver.
Qed.

Lemma foldr_delete_fst {A} (l : list (string * A)) (m : gmap string A) :
  foldr (fun '(k, _) m => delete k m) m l = foldr (fun k m => delete k m) m l.*1.
Proof. induction l as [|[k x] l IH]; [done|]. cbn. by rewrite IH. Qed.

Lemma collect_stale rl now k :
  k ∈ (filter (fun '(_, t) => (t <? now - interval) = true) (range_map (rl_lastSeen rl))).*1 <->
  exists t, rl_lastSeen rl !! k = Some t /\ t < now - interval.
Proof.
  rewrite list_elem_of_fmap. setoid_rewrite list_elem_of_filter. split.
  - intros ([k' t] & -> & Ht%Z.ltb_lt & Hin%elem_of_range). eauto.
  - intros (t & Hin & Ht). exists (k, t). split_and!; [done|by apply Z.ltb_lt|by apply elem_of_range].
Qed.

Lemma collect_lastSeen rl now k :
  rl_lastSeen (collect rl now) !! k =
  match rl_lastSeen rl !! k with Some t => if t <? now - interval then None else Some t | None => None end.
Proof.
  cbn. rewrite foldr_delete_fst, lookup_delete_list. case_bool_decide as Hk.
  - apply collect_stale in Hk as (t & -> & Ht). by rewrite (proj2 (Z.ltb_lt _ _) Ht).
  - destruct (rl_lastSeen rl !! k) as [t|] eqn:Ht; [|done]. destruct (Z.ltb_spec t (now - interval)); [|done].
    exfalso. apply Hk, collect_stale. eauto.
Qed.

(** Changing one request that neither is nor becomes an insertion. *)
Lemma requests_insert rl r p r' k b :
  (forall k b, rl_requests rl !! r <> Some (Inserted k b)) -> (forall k b, p <> Inserted k b) ->
  <[r := p]> (rl_requests rl) !! r' = Some (Inserted k b) <-> rl_requests rl !! r' = Some (Inserted k b).
Proof.
  intros Hr Hp. destruct (decide (r' = r)) as [->|]; [|by rewrite lookup_insert_ne].
  rewrite lookup_insert_eq. split; [intros [= Heq]; by destruct (Hp k b)|intros Hq; by destruct (Hr k b)].
Qed.

Lemma linv_request rl r p buckets heap next lastSeen :
  linv rl -> (forall k b, rl_requests rl !! r <> Some (Inserted k b)) -> (forall k b, p <> Inserted k b) ->
  buckets = rl_buckets rl -> (forall k, is_Some (rl_lastSeen rl !! k) -> is_Some (lastSeen !! k)) ->
  linv (set_maps rl buckets heap next lastSeen (rl_mu rl) (rl_stale rl) (<[r := p]> (rl_requests rl))).
Proof.
  intros Hi Hr Hp -> Hl. split; cbn.
  - intros k b Hk. destruct (li_dated rl Hi k b Hk) as [?|[?|(r' & Hr')]]; [left; auto|auto|].
    right. right. exists r'. by apply requests_insert.
  - intros r' k b Hq%requests_insert; [by eapply (li_holds rl Hi)|done|done].
  - intros r' Hmu. destruct (li_held rl Hi r' Hmu) as (k & b & Hq). exists k, b. by apply requests_insert.
Qed.

Lemma linv_step rl rl' : linv rl -> lstep rl rl' -> linv rl'.
Proof.
  intros Hi Hs. destruct Hs as [r key Hmu Hr|now r key b Hr|r key Hmu Hr|now r key b Hr|now r key b Hr|now Hst|stale Hmu Hst].
  - apply linv_request; [done|congruence| |done|done]. by destruct (rl_buckets rl !! key).
  - apply linv_request; [done|congruence|done|done|]. intros k ?. rewrite lookup_insert_is_Some'. auto.
  - unfold insert_bucket. destruct (rl_buckets rl !! key) as [b|] eqn:Hb; [apply linv_request; [done|congruence|done..]|].
    assert (forall r' k b, rl_requests rl !! r' <> Some (Inserted k b)) as Hno.
    { intros r' k b Hq. apply (li_holds rl Hi) in Hq. congruence. }
    split; cbn.
    + intros k b [[<- <-]|[Hne Hk]]%lookup_insert_Some; [right; right; exists r; by rewrite lookup_insert_eq|].
      destruct (li_dated rl Hi k b Hk) as [?|[?|(r' & Hr')]]; [auto|auto|by destruct (Hno r' k b)].
    + intros r' k b [[<- _]|[_ Hq]]%lookup_insert_Some; [done|by destruct (Hno r' k b)].
    + intros r' [= <-]. eexists _, _. apply lookup_insert_eq.
  - pose proof (li_holds rl Hi _ _ _ Hr) as Hmu. split; cbn.
    + intros k b' Hk. rewrite lookup_insert_is_Some'. destruct (li_dated rl Hi k b' Hk) as [?|[?|(r' & Hr')]]; [auto|auto|].
      pose proof (li_holds rl Hi _ _ _ Hr') as Hmu'. left. left. congruence.
    + intros r' k b' [[_ ?]|[Hne Hq]]%lookup_insert_Some; [done|]. pose proof (li_holds rl Hi _ _ _ Hq). congruence.
    + done.
  - unfold decide_request. destruct (rl_heap rl !! b) as [l|]; [|done]. destruct (Allow l now) as [ok l']. cbn. split; cbn.
    + intros k b' Hk. destruct (li_dated rl Hi k b' Hk) as [?|[?|(r' & Hr')]]; [auto|auto|].
      right. right. exists r'. rewrite lookup_delete_ne; [done|congruence].
    + intros r' k b' [_ Hq]%lookup_delete_Some. by eapply (li_holds rl Hi).
    + intros r' Hmu. destruct (li_held rl Hi r' Hmu) as (k & b' & Hq). exists k, b'. rewrite lookup_delete_ne; [done|congruence].
  - split; [|apply (li_holds rl Hi)|apply (li_held rl Hi)]. intros k b Hk. rewrite collect_lastSeen. cbn [rl_stale rl_requests collect set_maps].
    destruct (li_dated rl Hi k b Hk) as [[t Ht]|[(ks & ? & _)|?]]; [|congruence|auto]. rewrite Ht.
    destruct (Z.ltb_spec t (now - interval)); [|left; by eexists]. right. left. eexists. split; [done|]. apply collect_stale. eauto.
  - split; [|apply (li_holds rl Hi)|apply (li_held rl Hi)]. cbn. intros k b. rewrite lookup_delete_list. case_bool_decide as Hin; [done|].
    intros Hk. destruct (li_dated rl Hi k b Hk) as [?|[(ks & ? & ?)|?]]; [auto|congruence|auto].
Qed.

Lemma linv_reachable p n rl : reachable (eq (newRateLimiter p n)) lstep rl -> linv rl.
Proof.
  apply reachable_invariant; [|apply linv_step]. intros ? <-. split; cbn; [intros k b|intros r k b|done]; by rewrite lookup_empty.
Qed.

(** Whatever requests and sweeps interleaved before, a sweep that meets no request in
    flight leaves exactly the buckets used within the interval: no bucket escapes the
    sweeper, whose memory is bounded by the keys of the last interval. *)
Theorem idle_buckets_are_swept p n rl now key b :
  reachable (eq (newRateLimiter p n)) lstep rl -> rl_requests rl = ∅ -> rl_stale rl = None ->
  rl_buckets (gc_tick rl now) !! key = Some b <->
  rl_buckets rl !! key = Some b /\ exists t, rl_lastSeen rl !! key = Some t /\ now - interval <= t.
Proof.
  intros Hr Hq Hst. pose proof (linv_reachable _ _ _ Hr) as Hi.
  unfold gc_tick. change (rl_stale (collect rl now)) with (Some (filter (fun '(_, t) => (t <? now - interval) = true) (range_map (rl_lastSeen rl))).*1).
  cbn [remove rl_buckets set_maps collect]. rewrite lookup_delete_list. case_bool_decide as Hk.
  - apply collect_stale in Hk as (t & Ht & ?). split; [done|]. intros (_ & t' & Ht' & ?). rewrite Ht in Ht'. simplify_eq. lia.
  - split; [|by intros [? _]]. intros Hb. split; [done|].
    destruct (li_dated rl Hi key b Hb) as [[t Ht]|[(ks & ? & _)|(r & Hr')]]; [|congruence|rewrite Hq in Hr'; by rewrite lookup_empty in Hr'].
    exists t. split; [done|]. destruct (Z.le_gt_cases (now - interval) t); [done|]. exfalso. apply Hk, collect_stale. eauto.
Qed.
End sweeping.

(** ** The rate of one key *)

Inductive op := Request (key : string) | Tick.

Section rate.
Context {L : Type} `{TokenBucket L} `{RO : RangeOrder}.
Implicit Types rl : rateLimiter L.

(** Operations one after the other; the keys let through, with the limiter after them. *)
Fixpoint run_ops (rl : rateLimiter L) (ops : list (Z * op)) : list string * rateLimiter L :=
  match ops with
  | [] => ([], rl)
  | (t, Tick) :: ops => run_ops (gc_tick rl t) ops
  | (t, Request key) :: ops =>
      let '(v, rl) := guarded rl t 0 key in
      let '(keys, rl) := run_ops rl ops in
      (match v with Next => key :: keys | TooManyRequests _ => keys end, rl)
  end.

Definition passed (key : string) (keys : list string) : nat := length (filter (fun k => k = key) keys).

(** Times do not go back. *)
Fixpoint ordered (from to : Z) (ops : list (Z * op)) : Prop :=
  match ops with [] => from <= to | (t, _) :: ops => from <= t /\ ordered t to ops end.

Lemma ordered_le from to ops : ordered from to ops -> from <= to.
Proof. revert from. induction ops as [|[t o] ops IH]; intros from; [done|]. intros [? ?%IH]. lia. Qed.

Context (p n : Z) (Hp : 0 < p) (Hn : 0 <= n).

(** What a key can still take: its bucket, or the full one it would be given. *)
Definition available rl (k : string) (t : Z) : Z :=
  match rl_buckets rl !! k with
  | Some b => match rl_heap rl !! b with Some l => content l t | None => 0 end
  | None => n * token
  end.

Definition bucket_ok rl (now : Z) (k : string) (b : nat) : Prop :=
  exists l t, rl_heap rl !! b = Some l /\ rl_lastSeen rl !! k = Some t /\ t <= now /\ used_by l t /\
    rate_of l = p /\ size_of l = n /\ (b < rl_next rl)%nat.

(** A limiter between requests. *)
Record quiet rl (now : Z) : Prop := {
  q_params : rl_perMinute rl = p /\ rl_burst rl = n;
  q_idle : rl_requests rl = ∅ /\ rl_stale rl = None /\ rl_mu rl = None;
  q_bucket k b : rl_buckets rl !! k = Some b -> bucket_ok rl now k b;
  q_apart k k' b : rl_buckets rl !! k = Some b -> rl_buckets rl !! k' = Some b -> k = k'
}.

Lemma bucket_content rl now k b : bucket_ok rl now k b -> exists l, rl_heap rl !! b = Some l /\ used_by l now /\ rate_of l = p /\ size_of l = n.
Proof. intros (l & t & ? & _ & ? & ? & ? & ? & _). exists l. split_and!; try done. by destruct (content_refills l t now). Qed.

Lemma available_range rl now k : quiet rl now -> 0 <= available rl k now <= n * token.
Proof.
  intros Hq. unfold available. destruct (rl_buckets rl !! k) as [b|] eqn:Hb; [|unfold token, minute, second; lia].
  destruct (bucket_content _ _ _ _ (q_bucket _ _ Hq _ _ Hb)) as (l & -> & Hu & _ & Hs). rewrite <- Hs. apply content_range; [lia|done].
Qed.

Lemma quiet_later rl t t' : quiet rl t -> t <= t' -> quiet rl t'.
Proof.
  intros Hq Hle. split; [apply Hq|apply Hq| |apply (q_apart _ _ Hq)].
  intros k b (l & t0 & ? & ? & ? & ? & ? & ? & ?)%(q_bucket _ _ Hq). exists l, t0. split_and!; try done; lia.
Qed.

Lemma available_later rl t t' k : quiet rl t -> t <= t' -> available rl k t' <= available rl k t + p * (t' - t).
Proof.
  intros Hq Hle. unfold available. destruct (rl_buckets rl !! k) as [b|] eqn:Hb; [|nia].
  destruct (bucket_content _ _ _ _ (q_bucket _ _ Hq _ _ Hb)) as (l & -> & Hu & Hr & _).
  destruct (content_refills l t t' Hu Hle) as [-> _]. rewrite Hr. lia.
Qed.

(** A sweep gives nobody more, when the interval refills a bucket. *)
Lemma tick_available rl t k : quiet rl t -> n * token <= p * interval ->
  quiet (gc_tick rl t) t /\ available (gc_tick rl t) k t = available rl k t.
Proof.
  intros Hq Hfull. unfold gc_tick.
  set (stale := filter (fun '(_, t0) => (t0 <? t - interval) = true) (range_map (rl_lastSeen rl))).
  change (rl_stale (collect rl t)) with (Some stale.*1). destruct (q_idle _ _ Hq) as (Hreq & Hst & Hmu).
  assert (forall k0 b, rl_buckets (remove (collect rl t) stale.*1) !! k0 = Some b -> rl_buckets rl !! k0 = Some b /\
    rl_lastSeen (collect rl t) !! k0 = rl_lastSeen rl !! k0) as Hb.
  { intros k0 b. cbn [remove rl_buckets set_maps collect]. rewrite lookup_delete_list. case_bool_decide as Hk; [done|].
    intros Hb. split; [done|]. rewrite collect_lastSeen. destruct (rl_lastSeen rl !! k0) as [t0|] eqn:Ht; [|done].
    destruct (Z.ltb_spec t0 (t - interval)); [|done]. exfalso. apply Hk, collect_stale. eauto. }
  split.
  - split; [apply Hq|done| |].
    + intros k0 b [Hk0 Hl]%Hb. destruct (q_bucket _ _ Hq _ _ Hk0) as (l & t0 & ? & ? & ?). exists l, t0. by rewrite <- Hl in *.
    + intros k1 k2 b [? _]%Hb [? _]%Hb. by eapply (q_apart _ _ Hq).
  - unfold available. cbn [remove rl_buckets rl_heap set_maps collect]. rewrite lookup_delete_list. case_bool_decide as Hk; [|done].
    destruct (rl_buckets rl !! k) as [b|] eqn:Hkb; [|done].
    destruct (q_bucket _ _ Hq _ _ Hkb) as (l & t0 & -> & Ht0 & Hle & Hu & Hr & Hs & _).
    apply collect_stale in Hk as (t0' & ? & Hlt). simplify_eq.
    destruct (content_refills l t0' t Hu Hle) as [-> _]. rewrite Hr, Hs.
    pose proof (content_range l t0' ltac:(rewrite Hs; lia) Hu) as [Hc _].
    assert (p * interval <= p * (t - t0')) by (apply Z.mul_le_mono_nonneg_l; lia). lia.
Qed.

(** A request takes one token of its key's bucket, or is refused. *)
Lemma limiterFor_quiet rl t key : quiet rl t ->
  exists b, let rl' := limiterFor rl t 0 key in
  rl_requests rl' = {[0%nat := Ready key b]} /\ rl_stale rl' = None /\ rl_mu rl' = None /\
  rl_perMinute rl' = p /\ rl_burst rl' = n /\ rl_lastSeen rl' !! key = Some t /\
  rl_buckets rl' = <[key := b]> (rl_buckets rl) /\ (b < rl_next rl')%nat /\ (rl_next rl <= rl_next rl')%nat /\
  (forall k b', k <> key -> rl_buckets rl !! k = Some b' -> b' <> b /\ rl_heap rl' !! b' = rl_heap rl !! b' /\
     rl_lastSeen rl' !! k = rl_lastSeen rl !! k) /\
  exists l, rl_heap rl' !! b = Some l /\ used_by l t /\ rate_of l = p /\ size_of l = n /\ content l t = available rl key t.
Proof.
  intros Hq. destruct (q_idle _ _ Hq) as (Hreq & Hst & Hmu). destruct (q_params _ _ Hq) as [HP HN].
  unfold limiterFor, look_up, available. destruct (rl_buckets rl !! key) as [b|] eqn:Hb.
  - exists b. cbn [set_request rl_requests set_maps]. rewrite lookup_insert_eq. cbn. rewrite Hreq, insert_empty, insert_singleton_eq.
    pose proof (q_bucket _ _ Hq _ _ Hb) as Hok. destruct (bucket_content _ _ _ _ Hok) as (l & Hl & Hu & Hr & Hs).
    destruct Hok as (_ & _ & _ & _ & _ & _ & _ & _ & Hlt). split_and!; try done.
    + by rewrite lookup_insert_eq.
    + by rewrite insert_id.
    + intros k b' Hne Hk. split_and!; [|done|by rewrite lookup_insert_ne]. intros ->. by eapply Hne, (q_apart _ _ Hq).
    + rewrite Hl. by exists l.
  - exists (rl_next rl). cbn [set_request rl_requests set_maps]. rewrite lookup_insert_eq. unfold insert_bucket.
    cbn [set_request rl_buckets set_maps]. rewrite Hb. cbn. rewrite Hreq, insert_empty, !insert_singleton_eq, lookup_singleton_eq. cbn.
    rewrite insert_singleton_eq, HP, HN. split_and!; try done; try lia.
    + by rewrite lookup_insert_eq.
    + intros k b' Hne Hk. destruct (q_bucket _ _ Hq _ _ Hk) as (_ & _ & _ & _ & _ & _ & _ & _ & Hlt).
      split_and!; [lia|rewrite lookup_insert_ne by lia; done|by rewrite lookup_insert_ne].
    + exists (NewLimiter p n). rewrite lookup_insert_eq. destruct (new_params p n) as [-> ->].
      destruct (new_full p n t ltac:(lia) Hn) as [-> Hu]. done.
Qed.

Lemma serve_available rl t key : quiet rl t ->
  let '(ok, rl') := serve rl t 0 key in
  quiet rl' t /\ available rl' key t = available rl key t - (if ok then token else 0) /\
  (forall k, k <> key -> available rl' k t = available rl k t).
Proof.
  intros Hq. destruct (limiterFor_quiet rl t key Hq) as (b & Hreq & Hst & Hmu & HP & HN & Hls & Hbk & Hlt & Hle & Hoth & l & Hl & Hu & Hr & Hs & Hc).
  unfold serve. rewrite Hreq, lookup_singleton_eq. unfold decide_request. rewrite Hl.
  destruct (allow_takes l t Hu) as (Ha & Ht & Hr' & Hs' & Hu'). destruct (Allow l t) as [ok l'] eqn:HA. cbn in Ha, Ht, Hr', Hs', Hu'.
  set (rl1 := limiterFor rl t 0 key) in *.
  assert (forall k b', k <> key -> rl_buckets rl1 !! k = Some b' -> rl_buckets rl !! k = Some b' /\ b' <> b) as Hothers.
  { intros k b' Hne. rewrite Hbk, lookup_insert_ne by done. intros Hk. by destruct (Hoth k b' Hne Hk). }
  split; [split; cbn|split; [|intros k Hne]].
  - done.
  - split_and!; [|done|done]. by rewrite Hreq, delete_singleton_eq.
  - intros k b' Hk. destruct (decide (k = key)) as [->|Hne].
    + rewrite Hbk, lookup_insert_eq in Hk. simplify_eq. exists l', t. cbn. rewrite lookup_insert_eq. split_and!; try done; lia.
    + destruct (Hothers k b' Hne Hk) as [Hk0 Hnb]. destruct (Hoth k b' Hne Hk0) as (_ & Hh & Hlk).
      destruct (q_bucket _ _ Hq _ _ Hk0) as (l0 & t0 & ? & ? & ? & ? & ? & ? & ?). exists l0, t0. cbn.
      rewrite lookup_insert_ne, Hh, Hlk by done. split_and!; try done; lia.
  - intros k k' b' Hk Hk'. destruct (decide (k = key)) as [->|Hne], (decide (k' = key)) as [->|Hne']; [done| | |].
    + destruct (Hothers k' b' Hne' Hk') as [_ Hnb]. rewrite Hbk, lookup_insert_eq in Hk. congruence.
    + destruct (Hothers k b' Hne Hk) as [_ Hnb]. rewrite Hbk, lookup_insert_eq in Hk'. congruence.
    + destruct (Hothers k b' Hne Hk), (Hothers k' b' Hne' Hk'). by eapply (q_apart _ _ Hq).
  - rewrite <- Hc. unfold available. cbn. by rewrite Hbk, !lookup_insert_eq, Ht.
  - unfold available. cbn. rewrite Hbk, lookup_insert_ne by done. destruct (rl_buckets rl !! k) as [b'|] eqn:Hk; [|done].
    destruct (Hoth k b' Hne Hk) as (Hnb & Hh & _). by rewrite lookup_insert_ne, Hh.
Qed.

Lemma serve_ok rl t key : quiet rl t -> (serve rl t 0 key).1 = (token <=? available rl key t).
Proof.
  intros Hq. destruct (limiterFor_quiet rl t key Hq) as (b & Hreq & _ & _ & _ & _ & _ & _ & _ & _ & _ & l & Hl & Hu & _ & _ & Hc).
  unfold serve. rewrite Hreq, lookup_singleton_eq. unfold decide_request. rewrite Hl.
  destruct (allow_takes l t Hu) as (Ha & _). destruct (Allow l t) as [ok l']. cbn in Ha |- *. by rewrite <- Hc, Ha.
Qed.

(** What passes is paid for from what was there and what came in. *)
Lemma run_ops_paid ops : forall rl from to key, quiet rl from -> ordered from to ops -> n * token <= p * interval ->
  Z.of_nat (passed key (run_ops rl ops).1) * token <= available rl key from + p * (to - from) /\
  exists t, t <= to /\ quiet (run_ops rl ops).2 t.
Proof.
  induction ops as [|[t [k|]] ops IH]; intros rl from to key Hq Ho Hfull; cbn [run_ops ordered] in *.
  - split; [|by exists from]. cbn. pose proof (available_range rl from key Hq). nia.
  - destruct Ho as [Hle Ho]. pose proof (quiet_later rl from t Hq Hle) as Hq'. pose proof (available_later rl from t key Hq Hle) as Hav.
    unfold guarded. destruct (q_params _ _ Hq) as [-> _]. rewrite (proj2 (Z.leb_gt p 0)) by lia.
    pose proof (serve_available rl t k Hq') as Hsv. destruct (serve rl t 0 k) as [ok rl1]. destruct Hsv as (Hq1 & Hown & Hoth).
    destruct (IH rl1 t to key Hq1 Ho Hfull) as [Hpaid (t' & ? & ?)]. destruct (run_ops rl1 ops) as [keys rl2]. cbn [fst snd] in *.
    split; [|eauto]. destruct (decide (k = key)) as [->|Hne].
    + destruct ok; cbn [fst snd].
      * unfold passed in *. rewrite filter_cons_True by done. cbn [length]. nia.
      * rewrite Hown in Hpaid. nia.
    + rewrite Hoth in Hpaid by done. destruct ok; cbn [fst snd]; [|nia]. unfold passed in *. rewrite filter_cons_False by done. nia.
  - destruct Ho as [Hle Ho]. pose proof (quiet_later rl from t Hq Hle) as Hq'. pose proof (available_later rl from t key Hq Hle) as Hav.
    destruct (tick_available rl t key Hq' Hfull) as [Hq1 Heq]. destruct (IH _ t to key Hq1 Ho Hfull) as [Hpaid Hex].
    split; [|done]. rewrite Heq in Hpaid. nia.
Qed.

Lemma new_quiet t : quiet (newRateLimiter p n) t.
Proof. split; [done|done|intros k b|intros k k' b]; cbn; by rewrite lookup_empty. Qed.
End rate.

(** Of requests and sweeps one at a time: between two moments a key is let through at most
    [burst] times and [perMinute] times a minute more, provided ten minutes refill a bucket. *)
Theorem sequential_rate_is_bounded {L} `{TokenBucket L} `{RO : RangeOrder} p n before ops start from to key :
  0 < p -> 0 <= n -> n <= 10 * p -> ordered start from before -> ordered from to ops ->
  let '(_, rl) := run_ops (newRateLimiter p n) before in
  Z.of_nat (passed key (run_ops rl ops).1) * minute <= n * minute + p * (to - from).
Proof.
  intros Hp Hn Hfull Hb Ho. assert (n * token <= p * interval) as Hfull' by (unfold token, interval, minute, second; lia).
  destruct (run_ops_paid p n Hp Hn before _ start from key (new_quiet p n start) Hb Hfull') as [_ (t & Ht & Hq)].
  destruct (run_ops _ before) as [keys rl]. cbn [snd] in Hq.
  pose proof (quiet_later p n rl t from Hq Ht) as Hq'.
  destruct (run_ops_paid p n Hp Hn ops rl from to key Hq' Ho Hfull') as [Hpaid _].
  pose proof (available_range p n Hn rl from key Hq'). unfold token in *. lia.
Qed.

(** A request is let through exactly when its key's bucket holds a token. *)
Theorem request_passes_iff {L} `{TokenBucket L} `{RO : RangeOrder} p n before start now key :
  0 < p -> 0 <= n -> n <= 10 * p -> ordered start now before ->
  let '(_, rl) := run_ops (newRateLimiter p n) before in
  (guarded rl now 0 key).1 = Next <-> minute <= available n rl key now.
Proof.
  intros Hp Hn Hfull Hb. assert (n * token <= p * interval) as Hfull' by (unfold token, interval, minute, second; lia).
  destruct (run_ops_paid p n Hp Hn before _ start now key (new_quiet p n start) Hb Hfull') as [_ (t & Ht & Hq)].
  destruct (run_ops _ before) as [keys rl]. cbn [snd] in Hq. apply (quiet_later p n rl t now) in Hq; [|done].
  unfold guarded. destruct (q_params _ _ _ _ Hq) as [-> _]. rewrite (proj2 (Z.leb_gt p 0)) by lia.
  pose proof (serve_ok p n Hp Hn rl now key Hq) as Hok. destruct (serve rl now 0 key) as [ok rl']. cbn [fst] in *. subst ok.
  unfold token. destruct (Z.leb_spec minute (available n rl key now)); split; (done || lia).
Qed.

(** ** The rate of one key, with requests and sweeps interleaved *)

(** A request begins; a request takes its next step; the sweeper collects, with the time
    it has read before, and removes. *)
Inductive act := Begin (r : nat) (key : string) | Go (r : nat) | Collect (read : Z) | Remove.

(** A request let through: its key, the bucket that paid, and whether that is the key's
    bucket still, and no sweep has found the key idle. *)
Record pass := mkPass { ps_key : string; ps_bucket : nat; ps_current : bool }.

Section interleaved.
Context {L : Type} `{TokenBucket L} `{RO : RangeOrder}.
Implicit Types rl : rateLimiter L.

Definition swept rl (k : string) : bool := match rl_stale rl with Some ks => bool_decide (k ∈ ks) | None => false end.
Definition current rl (k : string) (b : nat) : bool := bool_decide (rl_buckets rl !! k = Some b) && negb (swept rl k).

(** One step at [now]; [None] when it is not that step's turn. *)
Definition perform rl (now : Z) (a : act) : option (option pass * rateLimiter L) :=
  match a with
  | Begin r key =>
      match rl_mu rl, rl_requests rl !! r with None, None => Some (None, look_up rl r key) | _, _ => None end
  | Go r =>
      match rl_requests rl !! r with
      | Some (Found key b) => Some (None, touch rl now r key b)
      | Some (Missed key) => match rl_mu rl with None => Some (None, insert_bucket rl r key) | Some _ => None end
      | Some (Inserted key b) => Some (None, stamp rl now r key b)
      | Some (Ready key b) =>
          let '(ok, rl') := decide_request rl now r b in
          Some (if ok then Some (mkPass key b (current rl key b)) else None, rl')
      | None => None
      end
  | Collect read =>
      match rl_stale rl with None => if read <=? now then Some (None, collect rl read) else None | Some _ => None end
  | Remove => match rl_mu rl, rl_stale rl with None, Some ks => Some (None, remove rl ks) | _, _ => None end
  end.

(** When each request in flight began. *)
Definition began (since : gmap nat Z) (now : Z) (a : act) : gmap nat Z :=
  match a with Begin r _ => <[r := now]> since | _ => since end.

(** Timed steps, no request being in flight longer than [D]. *)
Fixpoint run (D : Z) rl (clock : Z) (since : gmap nat Z) (acts : list (Z * act)) :
    option (list pass * (rateLimiter L * Z * gmap nat Z)) :=
  match acts with
  | [] => Some ([], (rl, clock, since))
  | (now, a) :: acts =>
      if (clock <=? now) && bool_decide (forall r, r ∈ dom (rl_requests rl) -> now <= default now (since !! r) + D) then
        match perform rl now a with
        | None => None
        | Some (o, rl') =>
            match run D rl' now (began since now a) acts with
            | None => None
            | Some (ps, s) => Some (match o with Some x => x :: ps | None => ps end, s)
            end
        end
      else None
  end.

(** Every step is one of the limiter's. *)
Lemma perform_lstep rl now a o rl' : perform rl now a = Some (o, rl') -> lstep rl rl'.
Proof.
  destruct a as [r key|r|read|]; cbn.
  - destruct (rl_mu rl) eqn:?, (rl_requests rl !! r) eqn:?; [done..|]. intros [= _ <-]. by constructor.
  - destruct (rl_requests rl !! r) as [[key|key b|key b|key b]|] eqn:Hr; [|intros [= _ <-]; by constructor..| |done].
    + destruct (rl_mu rl) eqn:?; [done|]. intros [= _ <-]. by constructor.
    + destruct (decide_request rl now r b) as [ok rl1] eqn:Hd. intros [= _ <-].
      replace rl1 with (decide_request rl now r b).2 by (by rewrite Hd). by eapply l_decide.
  - destruct (rl_stale rl) eqn:?; [done|]. destruct (read <=? now); [|done]. intros [= _ <-]. by constructor.
  - destruct (rl_mu rl) eqn:?; [done|]. destruct (rl_stale rl) eqn:?; [|done]. intros [= _ <-]. by constructor.
Qed.

Context (p n D : Z) (Hp : 0 < p) (Hn : 0 <= n) (HD : 0 <= D) (Hfull : n * token <= p * (interval - D)).

Definition names (ph : phase) : option (string * nat) :=
  match ph with Missed _ => None | Found k b | Inserted k b | Ready k b => Some (k, b) end.

(** The map, or a request, has the bucket under the key. *)
Definition holds rl (k : string) (b : nat) : Prop :=
  rl_buckets rl !! k = Some b \/ exists r ph, rl_requests rl !! r = Some ph /\ names ph = Some (k, b).

(** What a key can still take, a bucket about to be removed counted as the full one that
    replaces it; and what one bucket can still give. *)
Definition left_of rl (k : string) (t : Z) : Z :=
  match rl_buckets rl !! k with
  | Some b => if swept rl k then n * token else match rl_heap rl !! b with Some l => content l t | None => 0 end
  | None => n * token
  end.
Definition left_in rl (b : nat) (t : Z) : Z := match rl_heap rl !! b with Some l => content l t | None => n * token end.

(** A date no older than the beginning of the request. *)
Definition dated_since rl (since : gmap nat Z) (r : nat) (k : string) : Prop :=
  exists ts t0, rl_lastSeen rl !! k = Some ts /\ since !! r = Some t0 /\ t0 <= ts.

(** [tv_paid]: the bucket of a key was last used at most [D] after the key's date. *)
Record tinv rl (now : Z) (since : gmap nat Z) : Prop := {
  tv_linv : linv rl;
  tv_params : rl_perMinute rl = p /\ rl_burst rl = n;
  tv_heap b l : rl_heap rl !! b = Some l -> used_by l now /\ rate_of l = p /\ size_of l = n /\ (b < rl_next rl)%nat;
  tv_held k b : holds rl k b -> is_Some (rl_heap rl !! b);
  tv_own k k' b : holds rl k b -> holds rl k' b -> k = k';
  tv_since r ph : rl_requests rl !! r = Some ph -> exists t, since !! r = Some t /\ t <= now;
  tv_last k t : rl_lastSeen rl !! k = Some t -> t <= now;
  tv_ready r k b : rl_requests rl !! r = Some (Ready k b) -> rl_buckets rl !! k = Some b -> swept rl k = false ->
    dated_since rl since r k;
  tv_missed r k b : rl_requests rl !! r = Some (Missed k) -> rl_buckets rl !! k = Some b -> swept rl k = false ->
    dated_since rl since r k \/ exists r', rl_requests rl !! r' = Some (Inserted k b);
  tv_paid k b l ts : rl_buckets rl !! k = Some b -> swept rl k = false -> rl_lastSeen rl !! k = Some ts ->
    rl_heap rl !! b = Some l -> Z.min (n * token) (p * (now - ts - D)) <= content l now
}.

Lemma tinv_content rl now since b l : tinv rl now since -> rl_heap rl !! b = Some l -> 0 <= content l now <= n * token.
Proof. intros Hi Hl. destruct (tv_heap _ _ _ Hi _ _ Hl) as (Hu & _ & Hs & _). rewrite <- Hs. apply content_range; [lia|done]. Qed.

Lemma left_of_range rl now since k : tinv rl now since -> 0 <= left_of rl k now <= n * token.
Proof.
  intros Hi. assert (0 <= n * token) by (unfold token, minute, second; lia). unfold left_of.
  destruct (rl_buckets rl !! k) as [b|]; [|lia]. destruct (swept rl k); [lia|].
  destruct (rl_heap rl !! b) as [l|] eqn:Hl; [|lia]. by eapply tinv_content.
Qed.

Lemma left_in_range rl now since b : tinv rl now since -> 0 <= left_in rl b now <= n * token.
Proof.
  intros Hi. assert (0 <= n * token) by (unfold token, minute, second; lia). unfold left_in.
  destruct (rl_heap rl !! b) as [l|] eqn:Hl; [|lia]. by eapply tinv_content.
Qed.

(** Time passes. *)
Lemma tinv_later rl now since now' : tinv rl now since -> now <= now' -> tinv rl now' since.
Proof.
  intros Hi Hle. split; try apply Hi.
  - intros b l Hl. destruct (tv_heap _ _ _ Hi _ _ Hl) as (Hu & ? & ? & ?). split; [|done]. by destruct (content_refills l now now').
  - intros r ph (t & ? & ?)%(tv_since _ _ _ Hi). exists t. split; [done|lia].
  - intros k t Ht%(tv_last _ _ _ Hi). lia.
  - intros k b l ts Hb Hs Ht Hl. pose proof (tv_paid _ _ _ Hi _ _ _ _ Hb Hs Ht Hl) as Hpaid.
    destruct (tv_heap _ _ _ Hi _ _ Hl) as (Hu & Hr & Hsz & _). destruct (content_refills l now now' Hu Hle) as [-> _]. rewrite Hr, Hsz. nia.
Qed.

Lemma left_of_later rl now since now' k : tinv rl now since -> now <= now' -> left_of rl k now' <= left_of rl k now + p * (now' - now).
Proof.
  intros Hi Hle. unfold left_of. destruct (rl_buckets rl !! k) as [b|]; [|nia]. destruct (swept rl k); [nia|].
  destruct (rl_heap rl !! b) as [l|] eqn:Hl; [|nia]. destruct (tv_heap _ _ _ Hi _ _ Hl) as (Hu & Hr & _).
  destruct (content_refills l now now' Hu Hle) as [-> _]. rewrite Hr. lia.
Qed.

Lemma left_in_later rl now since now' b : tinv rl now since -> now <= now' -> left_in rl b now' <= left_in rl b now + p * (now' - now).
Proof.
  intros Hi Hle. unfold left_in. destruct (rl_heap rl !! b) as [l|] eqn:Hl; [|nia].
  destruct (tv_heap _ _ _ Hi _ _ Hl) as (Hu & Hr & _). destruct (content_refills l now now' Hu Hle) as [-> _]. rewrite Hr. lia.
Qed.

Lemma holds_request rl r ph buckets heap next last mu stale k b :
  buckets = rl_buckets rl -> (forall k b, names ph = Some (k, b) -> holds rl k b) ->
  holds (set_maps rl buckets heap next last mu stale (<[r := ph]> (rl_requests rl))) k b -> holds rl k b.
Proof.
  intros -> Hnew [Hb|(r' & ph' & Hr & Hn')]; [by left|]. cbn in Hr. apply lookup_insert_Some in Hr as [[_ <-]|[_ Hr]]; [by apply Hnew|].
  right. by exists r', ph'.
Qed.

(** A request moves on, and may date its key. *)
Lemma tinv_request rl now since r ph last t0 since' : tinv rl now since ->
  (forall k b, rl_requests rl !! r <> Some (Inserted k b)) -> (forall k b, ph <> Inserted k b) ->
  since' !! r = Some t0 -> t0 <= now -> (forall r', r' <> r -> since' !! r' = since !! r') ->
  (forall k b, names ph = Some (k, b) -> holds rl k b) ->
  (forall k, last !! k = rl_lastSeen rl !! k \/ last !! k = Some now) ->
  (forall k b, ph = Missed k \/ ph = Ready k b -> rl_buckets rl !! k = Some b -> swept rl k = false ->
     exists ts, last !! k = Some ts /\ t0 <= ts) ->
  tinv (set_maps rl (rl_buckets rl) (rl_heap rl) (rl_next rl) last (rl_mu rl) (rl_stale rl) (<[r := ph]> (rl_requests rl))) now since'.
Proof.
  intros Hi Hold Hnew Ht0 Hle Hothers Hnames Hlast Hdated.
  assert (forall r' k, r' <> r -> dated_since rl since r' k -> exists ts t1, last !! k = Some ts /\ since' !! r' = Some t1 /\ t1 <= ts) as Hkeep.
  { intros r' k Hne (ts & t1 & Hts & Ht1 & ?). rewrite (Hothers r' Hne). pose proof (tv_last _ _ _ Hi _ _ Hts).
    destruct (Hlast k) as [-> | ->]; [by exists ts, t1|]. exists now, t1. split_and!; [done|done|lia]. }
  split; cbn.
  - apply linv_request; [apply Hi|done|done|done|]. intros k ?. destruct (Hlast k) as [-> | ->]; [done|by eexists].
  - apply Hi.
  - apply Hi.
  - intros k b Hh. eapply tv_held, holds_request; eauto.
  - intros k k' b Hk Hk'. eapply (tv_own _ _ _ Hi); eapply holds_request; eauto.
  - intros r' ph' [[<- _]|[Hne Hr]]%lookup_insert_Some; [by exists t0|]. rewrite (Hothers r') by done. by eapply (tv_since _ _ _ Hi).
  - intros k t Ht. destruct (Hlast k) as [Heq|Heq]; rewrite Ht in Heq; [by eapply (tv_last _ _ _ Hi)|simplify_eq; lia].
  - intros r' k b [[<- ->]|[Hne Hr]]%lookup_insert_Some Hb Hs.
    + destruct (Hdated k b) as (ts & ? & ?); [auto|done|done|]. by exists ts, t0.
    + apply Hkeep; [done|]. by eapply (tv_ready _ _ _ Hi).
  - intros r' k b [[<- ->]|[Hne Hr]]%lookup_insert_Some Hb Hs.
    + destruct (Hdated k b) as (ts & ? & ?); [auto|done|done|]. left. by exists ts, t0.
    + destruct (tv_missed _ _ _ Hi _ _ _ Hr Hb Hs) as [Hd|(r1 & Hr1)]; [left; by apply Hkeep|].
      right. exists r1. by apply requests_insert.
  - intros k b l ts Hb Hs Hts Hl. pose proof (tinv_content _ _ _ _ _ Hi Hl). destruct (Hlast k) as [Heq|Heq]; rewrite Hts in Heq.
    + eapply (tv_paid _ _ _ Hi); eauto.
    + simplify_eq. nia.
Qed.

Lemma no_inserted rl now since r k b : tinv rl now since -> rl_mu rl = None -> rl_requests rl !! r <> Some (Inserted k b).
Proof. intros Hi Hmu Hr. pose proof (li_holds _ (tv_linv _ _ _ Hi) _ _ _ Hr). congruence. Qed.

Lemma tinv_look_up rl now since r key : tinv rl now since -> rl_requests rl !! r = None ->
  tinv (look_up rl r key) now (<[r := now]> since).
Proof.
  intros Hi Hr. apply (tinv_request _ _ since _ _ _ now); [done|congruence| | |lia| | |by left|].
  - by destruct (rl_buckets rl !! key).
  - apply lookup_insert_eq.
  - intros r' ?. by rewrite lookup_insert_ne.
  - intros k b. destruct (rl_buckets rl !! key) eqn:Hb; [|done]. intros [= <- <-]. by left.
  - intros k b [Heq|Heq]; destruct (rl_buckets rl !! key) eqn:Hb; simplify_eq. congruence.
Qed.

Lemma tinv_touch rl now since r key b : tinv rl now since -> rl_requests rl !! r = Some (Found key b) ->
  tinv (touch rl now r key b) now since.
Proof.
  intros Hi Hr. destruct (tv_since _ _ _ Hi _ _ Hr) as (t0 & ? & ?). apply (tinv_request _ _ since _ _ _ t0); try done; [congruence| | |].
  - intros k b' [= <- <-]. right. exists r, (Found key b). done.
  - intros k. destruct (decide (k = key)) as [->|]; [right; apply lookup_insert_eq|left; by rewrite lookup_insert_ne].
  - intros k b' [?|[= <- <-]] _ _; [done|]. exists now. by rewrite lookup_insert_eq.
Qed.

Lemma tinv_insert rl now since r key : tinv rl now since -> rl_mu rl = None -> rl_requests rl !! r = Some (Missed key) ->
  tinv (insert_bucket rl r key) now since.
Proof.
  intros Hi Hmu Hr. destruct (tv_since _ _ _ Hi _ _ Hr) as (t0 & ? & ?).
  assert (linv (insert_bucket rl r key)) as Hl by (eapply linv_step, l_insert; [apply Hi|done..]).
  unfold insert_bucket in *. destruct (rl_buckets rl !! key) as [b|] eqn:Hb.
  { apply (tinv_request _ _ since _ _ _ t0); try done; [congruence| |by left|].
    - intros k b' [= <- <-]. by left.
    - intros k b' [?|[= <- <-]] _ Hs; [done|]. destruct (tv_missed _ _ _ Hi _ _ _ Hr Hb Hs) as [(ts & t1 & ? & ? & ?)|(r' & Hr')].
      + exists ts. split; [done|congruence].
      + by destruct (no_inserted _ _ _ _ _ _ Hi Hmu Hr'). }
  assert (rl_heap rl !! rl_next rl = None) as Hfresh.
  { destruct (rl_heap rl !! rl_next rl) as [l|] eqn:Hl'; [|done]. destruct (tv_heap _ _ _ Hi _ _ Hl') as (_ & _ & _ & ?). lia. }
  destruct (tv_params _ _ _ Hi) as [HP HN].
  set (rl' := set_maps _ _ _ _ _ _ _ _) in *.
  assert (forall k b, holds rl' k b -> k = key /\ b = rl_next rl \/ b <> rl_next rl /\ holds rl k b) as Hh.
  { assert (forall k b, holds rl k b -> b <> rl_next rl) as Hne by (intros k b [l Hk]%(tv_held _ _ _ Hi) ->; congruence).
    intros k b [Hk|(r' & ph & Hr' & Hn')]; cbn in *.
    - apply lookup_insert_Some in Hk as [[<- <-]|[_ Hk]]; [by left|]. right. assert (holds rl k b) by (by left). eauto.
    - apply lookup_insert_Some in Hr' as [[_ <-]|[_ Hr']]; [cbn in Hn'; simplify_eq; by left|].
      right. assert (holds rl k b) by (right; by exists r', ph). eauto. }
  split; [done|done| | | | | | | |]; cbn.
  - intros b l [[<- <-]|[_ Hl']]%lookup_insert_Some.
    + rewrite HP, HN. destruct (new_params p n) as [-> ->], (new_full p n now ltac:(lia) Hn) as [_ ?]. split_and!; [done..|lia].
    + destruct (tv_heap _ _ _ Hi _ _ Hl') as (? & ? & ? & ?). split_and!; [done..|lia].
  - intros k b [[_ ->]|[Hne [l Hk]%(tv_held _ _ _ Hi)]]%Hh; [rewrite lookup_insert_eq; by eexists|]. rewrite lookup_insert_ne by done. by exists l.
  - intros k k' b [[-> Hb1]|[Hb1 Hk]]%Hh [[-> Hb2]|[Hb2 Hk']]%Hh; [done|congruence|congruence|]. by eapply (tv_own _ _ _ Hi).
  - intros r' ph [[<- _]|[_ Hr']]%lookup_insert_Some; [by exists t0|by eapply (tv_since _ _ _ Hi)].
  - apply Hi.
  - intros r' k b [[_ ?]|[_ Hr']]%lookup_insert_Some; [done|]. intros [[<- <-]|[_ Hk]]%lookup_insert_Some Hs.
    + assert (holds rl key (rl_next rl)) as [l ?]%(tv_held _ _ _ Hi) by (right; by exists r', (Ready key (rl_next rl))). congruence.
    + by eapply (tv_ready _ _ _ Hi).
  - intros r' k b [[_ ?]|[_ Hr']]%lookup_insert_Some; [done|]. intros [[<- <-]|[_ Hk]]%lookup_insert_Some Hs.
    + right. exists r. apply lookup_insert_eq.
    + destruct (tv_missed _ _ _ Hi _ _ _ Hr' Hk Hs) as [?|(r1 & Hr1)]; [by left|]. by destruct (no_inserted _ _ _ _ _ _ Hi Hmu Hr1).
  - intros k b l ts [[<- <-]|[_ Hk]]%lookup_insert_Some Hs Hts.
    + rewrite lookup_insert_eq. intros [= <-]. rewrite HP, HN. destruct (new_full p n now ltac:(lia) Hn) as [-> _]. lia.
    + intros [[<- _]|[_ Hl']]%lookup_insert_Some; [|by eapply (tv_paid _ _ _ Hi)].
      assert (holds rl k (rl_next rl)) as [l' ?]%(tv_held _ _ _ Hi) by (by left). congruence.
Qed.

Lemma tinv_stamp rl now since r key b : tinv rl now since -> rl_requests rl !! r = Some (Inserted key b) ->
  tinv (stamp rl now r key b) now since.
Proof.
  intros Hi Hr. assert (linv (stamp rl now r key b)) as Hl by (eapply linv_step, l_stamp; [apply Hi|done]).
  destruct (tv_since _ _ _ Hi _ _ Hr) as (t0 & Ht0 & ?). pose proof (li_holds _ (tv_linv _ _ _ Hi) _ _ _ Hr) as Hmu.
  assert (forall k b', holds (stamp rl now r key b) k b' -> holds rl k b') as Hh.
  { intros k b'. apply holds_request; [done|]. intros k' b1 [= <- <-]. right. by exists r, (Inserted key b). }
  assert (forall r' k, dated_since rl since r' k -> dated_since (stamp rl now r key b) since r' k) as Hd.
  { intros r' k (ts & t1 & Hts & ? & ?). pose proof (tv_last _ _ _ Hi _ _ Hts). unfold dated_since. cbn. destruct (decide (k = key)) as [->|].
    - exists now, t1. rewrite lookup_insert_eq. split_and!; [done..|lia].
    - exists ts, t1. by rewrite lookup_insert_ne. }
  assert (forall r' ph, rl_requests rl !! r' = Some ph -> dated_since (stamp rl now r key b) since r' key) as Hnow.
  { intros r' ph (t1 & ? & ?)%(tv_since _ _ _ Hi). exists now, t1. cbn. by rewrite lookup_insert_eq. }
  split; [done|apply Hi|apply Hi| | | | | | |]; cbn.
  - intros k b' Hk%Hh. by eapply (tv_held _ _ _ Hi).
  - intros k k' b' Hk%Hh Hk'%Hh. by eapply (tv_own _ _ _ Hi).
  - intros r' ph [[<- _]|[_ Hr']]%lookup_insert_Some; [by exists t0|by eapply (tv_since _ _ _ Hi)].
  - intros k t [[_ <-]|[_ Ht]]%lookup_insert_Some; [lia|by eapply (tv_last _ _ _ Hi)].
  - intros r' k b' [[<- Heq]|[_ Hr']]%lookup_insert_Some Hb Hs; [simplify_eq; eauto|]. apply Hd. by eapply (tv_ready _ _ _ Hi).
  - intros r' k b' [[_ ?]|[_ Hr']]%lookup_insert_Some Hb Hs; [done|]. left.
    destruct (tv_missed _ _ _ Hi _ _ _ Hr' Hb Hs) as [?|(r1 & Hr1)]; [eauto|].
    pose proof (li_holds _ (tv_linv _ _ _ Hi) _ _ _ Hr1). simplify_eq. eauto.
  - intros k b' l ts Hb Hs [[<- <-]|[_ Hts]]%lookup_insert_Some Hl'; [|by eapply (tv_paid _ _ _ Hi)].
    pose proof (tinv_content _ _ _ _ _ Hi Hl'). nia.
Qed.

(** The bucket of a request that decides, before and after. *)
Lemma decide_spec rl now since r key b : tinv rl now since -> rl_requests rl !! r = Some (Ready key b) ->
  exists l l' ok, rl_heap rl !! b = Some l /\ used_by l' now /\ rate_of l' = p /\ size_of l' = n /\ (b < rl_next rl)%nat /\
    content l' now = content l now - (if ok : bool then token else 0) /\
    decide_request rl now r b =
      (ok, set_maps rl (rl_buckets rl) (<[b := l']> (rl_heap rl)) (rl_next rl) (rl_lastSeen rl) (rl_mu rl) (rl_stale rl) (delete r (rl_requests rl))).
Proof.
  intros Hi Hr. destruct (tv_held _ _ _ Hi key b) as [l Hl]; [right; by exists r, (Ready key b)|].
  destruct (tv_heap _ _ _ Hi _ _ Hl) as (Hu & Hrate & Hs & ?). destruct (allow_takes l now Hu) as (_ & Hc & Hr' & Hs' & Hu').
  exists l, (Allow l now).2, (Allow l now).1. rewrite Hr', Hs'. split_and!; try done. unfold decide_request. rewrite Hl. by destruct (Allow l now).
Qed.

Lemma tinv_decide rl now since r key b : tinv rl now since -> rl_requests rl !! r = Some (Ready key b) ->
  (forall t0, since !! r = Some t0 -> now <= t0 + D) -> tinv (decide_request rl now r b).2 now since.
Proof.
  intros Hi Hr Hprompt. destruct (decide_spec _ _ _ _ _ _ Hi Hr) as (l & l' & ok & Hl & Hu & Hrate & Hs & Hlt & Hc & Hd).
  assert (linv (decide_request rl now r b).2) as Hli by (eapply linv_step; [|eapply (l_decide _ now); exact Hr]; apply Hi).
  rewrite Hd in *. cbn [snd] in *. set (rl' := set_maps _ _ _ _ _ _ _ _) in *.
  assert (forall k b', holds rl' k b' -> holds rl k b') as Hh.
  { intros k b' [Hk|(r' & ph & Hr' & ?)]; cbn in *; [by left|]. apply lookup_delete_Some in Hr' as [_ ?]. right. by exists r', ph. }
  split; [done|apply Hi| | | | | | | |]; cbn.
  - intros b' l1 [[<- <-]|[_ Hl1]]%lookup_insert_Some; [done|by eapply (tv_heap _ _ _ Hi)].
  - intros k b' [l1 Hk]%Hh%(tv_held _ _ _ Hi). destruct (decide (b' = b)) as [->|]; [rewrite lookup_insert_eq|rewrite lookup_insert_ne by done]; by eexists.
  - intros k k' b' Hk%Hh Hk'%Hh. by eapply (tv_own _ _ _ Hi).
  - intros r' ph [_ Hr']%lookup_delete_Some. by eapply (tv_since _ _ _ Hi).
  - apply Hi.
  - intros r' k b' [_ Hr']%lookup_delete_Some. by eapply (tv_ready _ _ _ Hi).
  - intros r' k b' [_ Hr']%lookup_delete_Some Hb Hsw. destruct (tv_missed _ _ _ Hi _ _ _ Hr' Hb Hsw) as [?|(r1 & Hr1)]; [by left|].
    right. exists r1. rewrite lookup_delete_ne; [done|congruence].
  - intros k b' l1 ts Hb Hsw Hts [[<- <-]|[_ Hl1]]%lookup_insert_Some; [|by eapply (tv_paid _ _ _ Hi)].
    assert (k = key) as -> by (eapply (tv_own _ _ _ Hi); [by left|right; by exists r, (Ready key b)]).
    destruct (tv_ready _ _ _ Hi _ _ _ Hr Hb Hsw) as (ts' & t0 & ? & Ht0 & ?). simplify_eq. pose proof (Hprompt _ Ht0).
    assert (0 <= content l' now) by (apply content_range; [lia|done]). nia.
Qed.

Lemma swept_collect rl read k : rl_stale rl = None ->
  swept (collect rl read) k = true <-> exists t, rl_lastSeen rl !! k = Some t /\ t < read - interval.
Proof. intros _. unfold swept. cbn. rewrite bool_decide_eq_true. apply collect_stale. Qed.

Lemma tinv_collect rl now since read : tinv rl now since -> rl_stale rl = None -> read <= now -> tinv (collect rl read) now since.
Proof.
  intros Hi Hst Hle. assert (forall k, swept rl k = false) as Hno by (intros; unfold swept; by rewrite Hst).
  assert (forall k t, rl_lastSeen (collect rl read) !! k = Some t -> rl_lastSeen rl !! k = Some t) as Hsub.
  { intros k t. rewrite collect_lastSeen. destruct (rl_lastSeen rl !! k) as [t'|]; [|done]. by destruct (t' <? read - interval). }
  assert (forall r k, swept (collect rl read) k = false -> dated_since rl since r k -> dated_since (collect rl read) since r k) as Hd.
  { intros r k Hk (ts & t0 & Hts & ? & ?). exists ts, t0. rewrite collect_lastSeen, Hts. split_and!; [|done|done].
    destruct (Z.ltb_spec ts (read - interval)); [|done]. assert (swept (collect rl read) k = true) by (apply swept_collect; eauto). congruence. }
  split; try apply Hi.
  - eapply linv_step, l_collect; [apply Hi|done].
  - intros k t Ht%Hsub. by eapply (tv_last _ _ _ Hi).
  - intros r k b Hr Hb Hs. apply Hd; [done|]. by eapply (tv_ready _ _ _ Hi).
  - intros r k b Hr Hb Hs. destruct (tv_missed _ _ _ Hi _ _ _ Hr Hb (Hno k)) as [?|?]; [left; auto|by right].
  - intros k b l ts Hb Hs Hts%Hsub Hl. by eapply (tv_paid _ _ _ Hi).
Qed.

Lemma swept_elem rl ks k : rl_stale rl = Some ks -> swept rl k = bool_decide (k ∈ ks).
Proof. intros Hst. unfold swept. by rewrite Hst. Qed.

Lemma tinv_remove rl now since ks : tinv rl now since -> rl_mu rl = None -> rl_stale rl = Some ks -> tinv (remove rl ks) now since.
Proof.
  intros Hi Hmu Hst.
  assert (forall k b, rl_buckets (remove rl ks) !! k = Some b -> rl_buckets rl !! k = Some b /\ swept rl k = false) as Hb.
  { intros k b. cbn. rewrite lookup_delete_list, (swept_elem _ _ _ Hst). by case_bool_decide. }
  assert (forall k b, holds (remove rl ks) k b -> holds rl k b) as Hh by (intros k b [[? _]%Hb|Hr]; [by left|by right]).
  split; try apply Hi.
  - eapply linv_step, l_remove; [apply Hi|done..].
  - intros k b Hk%Hh. by eapply (tv_held _ _ _ Hi).
  - intros k k' b Hk%Hh Hk'%Hh. by eapply (tv_own _ _ _ Hi).
  - intros r k b Hr [Hk Hs]%Hb _. by eapply (tv_ready _ _ _ Hi).
  - intros r k b Hr [Hk Hs]%Hb _. by eapply (tv_missed _ _ _ Hi).
  - intros k b l ts [Hk Hs]%Hb _ Hts Hl. by eapply (tv_paid _ _ _ Hi).
Qed.

(** Collecting finds only full buckets. *)
Lemma left_of_collect rl now since read k : tinv rl now since -> rl_stale rl = None -> read <= now ->
  left_of (collect rl read) k now = left_of rl k now.
Proof.
  intros Hi Hst Hle. unfold left_of. cbn [rl_buckets collect set_maps rl_heap]. destruct (rl_buckets rl !! k) as [b|] eqn:Hb; [|done].
  assert (swept rl k = false) as Hno by (unfold swept; by rewrite Hst). rewrite Hno.
  destruct (tv_held _ _ _ Hi k b) as [l Hl]; [by left|]. rewrite Hl.
  destruct (swept (collect rl read) k) eqn:Hs; [|done]. apply swept_collect in Hs as (ts & Hts & ?); [|done].
  pose proof (tv_paid _ _ _ Hi _ _ _ _ Hb Hno Hts Hl). pose proof (tinv_content _ _ _ _ _ Hi Hl). nia.
Qed.

Lemma left_of_remove rl ks k now : rl_stale rl = Some ks -> left_of (remove rl ks) k now = left_of rl k now.
Proof.
  intros Hst. unfold left_of. cbn [rl_buckets remove set_maps rl_heap]. rewrite lookup_delete_list.
  change (swept (remove rl ks) k) with false. rewrite (swept_elem _ _ _ Hst). case_bool_decide; by destruct (rl_buckets rl !! k).
Qed.

Lemma left_insert rl now since r key : tinv rl now since ->
  (forall k, left_of (insert_bucket rl r key) k now = left_of rl k now) /\ (forall b, left_in (insert_bucket rl r key) b now = left_in rl b now).
Proof.
  intros Hi. unfold insert_bucket. destruct (rl_buckets rl !! key) as [b|] eqn:Hb; [done|]. destruct (tv_params _ _ _ Hi) as [-> ->].
  destruct (new_full p n now ltac:(lia) Hn) as [Hc _].
  assert (forall b l, rl_heap rl !! b = Some l -> b <> rl_next rl) as Hne by (intros b l (_ & _ & _ & ?)%(tv_heap _ _ _ Hi); lia).
  split; [intros k|intros b]; unfold left_of, left_in; cbn.
  - destruct (decide (k = key)) as [->|Hk]; [rewrite Hb, !lookup_insert_eq, Hc; by destruct (swept _ key)|]. rewrite lookup_insert_ne by done.
    destruct (rl_buckets rl !! k) as [b|] eqn:Hkb; [|done]. destruct (tv_held _ _ _ Hi k b) as [l Hl]; [by left|].
    rewrite lookup_insert_ne, Hl by (apply not_eq_sym; eauto). done.
  - destruct (decide (b = rl_next rl)) as [->|?]; [|by rewrite lookup_insert_ne]. rewrite lookup_insert_eq, Hc.
    destruct (rl_heap rl !! rl_next rl) as [l|] eqn:Hl; [|done]. by destruct (Hne _ _ Hl).
Qed.

(** What one step lets through is paid for. *)
Definition cost_of (o : option pass) (k : string) : Z := match o with Some (mkPass k' _ true) => if k' =s k then token else 0 | _ => 0 end.
Definition cost_in (o : option pass) (b : nat) : Z := match o with Some (mkPass _ b' _) => if (b' =? b)%nat then token else 0 | None => 0 end.

Lemma left_decide rl now since r key b : tinv rl now since -> rl_requests rl !! r = Some (Ready key b) ->
  let '(ok, rl') := decide_request rl now r b in
  let o := if ok then Some (mkPass key b (current rl key b)) else None in
  (forall k, left_of rl' k now = left_of rl k now - cost_of o k) /\ (forall b', left_in rl' b' now = left_in rl b' now - cost_in o b').
Proof.
  intros Hi Hr. destruct (decide_spec _ _ _ _ _ _ Hi Hr) as (l & l' & ok & Hl & Hu & Hrate & Hs & Hlt & Hc & ->). split.
  - intros k. unfold left_of. cbn [rl_buckets rl_heap set_maps].
    change (swept (set_maps rl _ _ _ _ _ _ _) k) with (swept rl k). unfold current.
    destruct (rl_buckets rl !! k) as [b'|] eqn:Hb'.
    + destruct (decide (b' = b)) as [->|Hne].
      * assert (k = key) as -> by (eapply (tv_own _ _ _ Hi); [by left|right; by exists r, (Ready key b)]).
        rewrite Hb', bool_decide_eq_true_2, lookup_insert_eq, Hl, Hc by done. cbn. destruct (swept rl key), ok; cbn; rewrite ?String.eqb_refl; lia.
      * rewrite lookup_insert_ne by done. destruct ok; cbn; [|lia].
        destruct (bool_decide (rl_buckets rl !! key = Some b) && negb (swept rl key)) eqn:Hcur; [|lia].
        destruct (String.eqb_spec key k) as [->|]; [|lia]. apply andb_true_iff in Hcur as [Hcur%bool_decide_eq_true _]. congruence.
    + destruct ok; cbn; [|lia]. destruct (bool_decide (rl_buckets rl !! key = Some b) && negb (swept rl key)) eqn:Hcur; [|lia].
      destruct (String.eqb_spec key k) as [->|]; [|lia]. apply andb_true_iff in Hcur as [Hcur%bool_decide_eq_true _]. congruence.
  - intros b'. unfold left_in. cbn [rl_heap set_maps]. destruct (Nat.eq_dec b' b) as [->|Hne].
    + rewrite lookup_insert_eq, Hl, Hc. destruct ok; cbn; [rewrite Nat.eqb_refl|]; lia.
    + rewrite lookup_insert_ne by done. destruct ok; cbn; [|lia]. rewrite (proj2 (Nat.eqb_neq b b')) by done. lia.
Qed.

Lemma perform_paid rl now since a o rl' : tinv rl now since ->
  (forall r t0, r ∈ dom (rl_requests rl) -> since !! r = Some t0 -> now <= t0 + D) -> perform rl now a = Some (o, rl') ->
  tinv rl' now (began since now a) /\ (forall k, left_of rl' k now = left_of rl k now - cost_of o k) /\
  (forall b, left_in rl' b now = left_in rl b now - cost_in o b).
Proof.
  intros Hi Hprompt. destruct a as [r key|r|read|]; cbn.
  - destruct (rl_mu rl) eqn:?, (rl_requests rl !! r) eqn:?; [done..|]. intros [= <- <-].
    split; [by apply tinv_look_up|]. cbn. split; intros; by rewrite Z.sub_0_r.
  - destruct (rl_requests rl !! r) as [[key|key b|key b|key b]|] eqn:Hr; [| | | |done].
    + destruct (rl_mu rl) eqn:Hmu; [done|]. intros [= <- <-]. split; [by apply tinv_insert|].
      destruct (left_insert rl now since r key Hi) as [Hof Hin]. split; intros; [rewrite Hof|rewrite Hin]; cbn; lia.
    + intros [= <- <-]. split; [by apply tinv_touch|]. split; intros; cbn; by rewrite Z.sub_0_r.
    + intros [= <- <-]. split; [by apply tinv_stamp|]. split; intros; cbn; by rewrite Z.sub_0_r.
    + pose proof (tinv_decide rl now since r key b Hi Hr) as Hi'. pose proof (left_decide rl now since r key b Hi Hr) as Hd.
      destruct (decide_request rl now r b) as [ok rl1]. intros [= <- <-]. split; [|done]. apply Hi'. intros t0. apply Hprompt.
      apply elem_of_dom. by eexists.
  - destruct (rl_stale rl) eqn:?; [done|]. destruct (Z.leb_spec read now); [|done]. intros [= <- <-]. split; [by apply tinv_collect|].
    split; intros; cbn [cost_of cost_in]; rewrite Z.sub_0_r; [by eapply left_of_collect|done].
  - destruct (rl_mu rl) eqn:?; [done|]. destruct (rl_stale rl) eqn:?; [|done]. intros [= <- <-]. split; [by apply tinv_remove|].
    split; intros; cbn [cost_of cost_in]; rewrite Z.sub_0_r; [by apply left_of_remove|done].
Qed.

(** The undisturbed passes of a key, and all of a bucket. *)
Definition passes_of (k : string) (ps : list pass) : list pass := filter (fun x => ps_current x = true /\ ps_key x = k) ps.
Definition passes_on (b : nat) (ps : list pass) : list pass := filter (fun x => ps_bucket x = b) ps.

Lemma cost_of_passes o k ps :
  Z.of_nat (length (passes_of k (match o with Some x => x :: ps | None => ps end))) * token =
  cost_of o k + Z.of_nat (length (passes_of k ps)) * token.
Proof.
  destruct o as [[k' b' c]|]; cbn [cost_of]; [|lia]. unfold passes_of. rewrite filter_cons. cbn [ps_key ps_bucket ps_current].
  destruct c; [|rewrite decide_False by naive_solver; lia]. destruct (String.eqb_spec k' k) as [->|].
  - rewrite decide_True by done. cbn [length]. lia.
  - rewrite decide_False by naive_solver. lia.
Qed.

Lemma cost_in_passes o b ps :
  Z.of_nat (length (passes_on b (match o with Some x => x :: ps | None => ps end))) * token =
  cost_in o b + Z.of_nat (length (passes_on b ps)) * token.
Proof.
  destruct o as [[k' b' c]|]; cbn [cost_in]; [|lia]. unfold passes_on. rewrite filter_cons. cbn [ps_key ps_bucket ps_current]. destruct (Nat.eqb_spec b' b) as [->|].
  - rewrite decide_True by done. cbn [length]. lia.
  - rewrite decide_False by done. lia.
Qed.

Lemma run_paid acts : forall rl clock since ps rl' clock' since', tinv rl clock since ->
  run D rl clock since acts = Some (ps, (rl', clock', since')) ->
  tinv rl' clock' since' /\ clock <= clock' /\
  (forall k, Z.of_nat (length (passes_of k ps)) * token <= left_of rl k clock + p * (clock' - clock)) /\
  (forall b, Z.of_nat (length (passes_on b ps)) * token <= left_in rl b clock + p * (clock' - clock)).
Proof.
  induction acts as [|[now a] acts IH]; intros rl clock since ps rl' clock' since' Hi; cbn [run].
  { intros [= <- <- <- <-]. split; [done|]. rewrite Z.sub_diag, Z.mul_0_r. split; [lia|].
    split; [intros k; pose proof (left_of_range _ _ _ k Hi)|intros b; pose proof (left_in_range _ _ _ b Hi)]; cbn; lia. }
  destruct ((clock <=? now) && _) eqn:Hg; [|done]. apply andb_true_iff in Hg as [Hle%Z.leb_le Hprompt%bool_decide_eq_true].
  destruct (perform rl now a) as [[o rl1]|] eqn:Hperf; [|done].
  destruct (run D rl1 now (began since now a) acts) as [[ps' s]|] eqn:Hrun; [|done]. intros [= <- ->].
  pose proof (tinv_later _ _ _ now Hi Hle) as Hi'.
  destruct (perform_paid rl now since a o rl1 Hi') as (Hi1 & Hof & Hin); [|done|].
  { intros r t0 Hr Ht0. specialize (Hprompt r Hr). by rewrite Ht0 in Hprompt. }
  destruct (IH _ _ _ _ _ _ _ Hi1 Hrun) as (Hi2 & ? & Hkeys & Hbuckets). split; [done|]. split; [lia|]. split.
  - intros k. rewrite cost_of_passes. specialize (Hkeys k). rewrite Hof in Hkeys. pose proof (left_of_later _ _ _ _ k Hi Hle). nia.
  - intros b. rewrite cost_in_passes. specialize (Hbuckets b). rewrite Hin in Hbuckets. pose proof (left_in_later _ _ _ _ b Hi Hle). nia.
Qed.

Lemma new_tinv now : tinv (newRateLimiter p n) now ∅.
Proof.
  split; cbn; try by (intros *; rewrite lookup_empty).
  - by apply (linv_reachable p n), reach_init.
  - done.
  - intros k b [Hk|(r & ph & Hr & _)]; cbn in *; by rewrite lookup_empty in *.
  - intros k k' b [Hk|(r & ph & Hr & _)] _; cbn in *; by rewrite lookup_empty in *.
Qed.
End interleaved.

(** C32. However requests and sweeps interleave, if ten minutes less the longest time [D] a
    request spends between looking its bucket up and asking it still refill a bucket:
    between two moments a key is let through at most [burst] times and [perMinute] times
    a minute more, the requests that a sweep overtakes apart, which ask a bucket that has
    been removed or a key that has been found idle; and so is any one bucket, those
    requests included. *)
Theorem rate_is_bounded {L} `{TokenBucket L} `{RO : RangeOrder} p n D start before acts earlier rl from since ps rl' to since' :
  0 < p -> 0 <= n -> 0 <= D -> n * minute <= p * (10 * minute - D) ->
  run D (newRateLimiter p n) start ∅ before = Some (earlier, (rl, from, since)) ->
  run D rl from since acts = Some (ps, (rl', to, since')) ->
  (forall key, Z.of_nat (length (passes_of key ps)) * minute <= n * minute + p * (to - from)) /\
  (forall b, Z.of_nat (length (passes_on b ps)) * minute <= n * minute + p * (to - from)).
Proof.
  intros Hp Hn HD Hfull Hb Ha. assert (n * token <= p * (interval - D)) as Hfull' by done.
  destruct (run_paid p n D Hp Hn HD Hfull' before _ _ _ _ _ _ _ (new_tinv p n D start) Hb) as (Hi & _).
  destruct (run_paid p n D Hp Hn HD Hfull' acts _ _ _ _ _ _ _ Hi Ha) as (_ & _ & Hkeys & Hbuckets).
  split; [intros key; pose proof (left_of_range p n D Hn _ _ _ key Hi); specialize (Hkeys key)
         |intros b; pose proof (left_in_range p n D Hn _ _ _ b Hi); specialize (Hbuckets b)]; unfold token in *; lia.
Qed.

(** ** A concrete bucket *)

Record demo_bucket := mkBucket { db_rate : Z; db_size : Z; db_content : Z; db_at : option Z }.

Definition demo_content (l : demo_bucket) (t : Z) : Z :=
  match db_at l with
  | None => db_size l * token
  | Some t0 => Z.min (db_size l * token) (db_content l + db_rate l * (t - t0))
  end.
Definition demo_allow (l : demo_bucket) (t : Z) : bool * demo_bucket :=
  let c := demo_content l t in
  let ok := token <=? c in
  (ok, mkBucket (db_rate l) (db_size l) (c - (if ok then token else 0)) (Some t)).
Definition demo_used (l : demo_bucket) (t : Z) : Prop :=
  0 <= db_rate l /\ 0 <= db_size l /\
  match db_at l with None => True | Some t0 => t0 <= t /\ 0 <= db_content l <= db_size l * token end.

Lemma demo_range l t : demo_used l t -> 0 <= demo_content l t <= db_size l * token.
Proof.
  unfold demo_used, demo_content, token, minute, second. intros (? & ? & Hu). destruct (db_at l) as [t0|]; [|lia].
  destruct Hu as (? & ? & ?). assert (0 <= db_rate l * (t - t0)) by (apply Z.mul_nonneg_nonneg; lia). lia.
Qed.

Lemma demo_refills l t t' : demo_used l t -> t <= t' ->
  demo_content l t' = Z.min (db_size l * token) (demo_content l t + db_rate l * (t' - t)) /\ demo_used l t'.
Proof.
  unfold demo_used, demo_content, token, minute, second. intros (? & ? & Hu) Hle.
  assert (0 <= db_rate l * (t' - t)) by (apply Z.mul_nonneg_nonneg; lia).
  destruct (db_at l) as [t0|]; [|split_and!; (done || lia)]. split; [|split_and!; (done || lia)]. assert (db_rate l * (t' - t0) = db_rate l * (t - t0) + db_rate l * (t' - t)) by lia. lia.
Qed.

Lemma demo_takes l t : demo_used l t ->
  demo_content (demo_allow l t).2 t = demo_content l t - (if token <=? demo_content l t then token else 0) /\
  demo_used (demo_allow l t).2 t.
Proof.
  intros Hu. pose proof (demo_range l t Hu) as Hr. destruct Hu as (? & ? & _).
  unfold demo_allow, demo_used. set (c := demo_content l t) in *. set (c' := c - _).
  change (demo_content _ t) with (Z.min (db_size l * token) (c' + db_rate l * (t - t))). rewrite Z.sub_diag, Z.mul_0_r, Z.add_0_r.
  cbn [snd db_rate db_size db_content db_at]. assert (0 < token) by done.
  assert (0 <= c' <= db_size l * token) by (unfold c'; destruct (Z.leb_spec token c); lia). fold c'. lia.
Qed.

Definition demo_TokenBucket : TokenBucket demo_bucket := {|
  NewLimiter p b := mkBucket p b 0 None; Allow := demo_allow; rate_of := db_rate; size_of := db_size;
  content := demo_content; used_by := demo_used;
  new_params p b := conj eq_refl eq_refl;
  new_full p b t Hp Hb := conj eq_refl (conj Hp (conj Hb I));
  content_range l t _ Hu := demo_range l t Hu;
  content_refills := demo_refills;
  allow_takes l t Hu := conj eq_refl (conj (proj1 (demo_takes l t Hu)) (conj eq_refl (conj eq_refl (proj2 (demo_takes l t Hu)))))
|}.

Section demo.
Local Existing Instance demo_TokenBucket.
Local Existing Instance range_default.

(** Five sign-ins, a sixth, and another twelve seconds later. *)
Definition demo_signins : list (Z * op) :=
  ((fun t => (t, Request "localauth-ip:a")) <$> [0; 1; 2; 3; 4; 5]) ++ [(6, Request "localauth-ip:b"); (12 * second, Request "localauth-ip:a")].
Definition demo_new : rateLimiter demo_bucket := newRateLimiter localAuthRateLimitPerMinute localAuthRateLimitBurst.

Example signins : (run_ops demo_new demo_signins).1 = repeat "localauth-ip:a" 5 ++ ["localauth-ip:b"; "localauth-ip:a"].
Proof. vm_compute. reflexivity. Qed.

Lemma sequential_rate_is_bounded_witness :
  let '(_, rl) := run_ops demo_new [(0, Tick)] in
  Z.of_nat (passed "localauth-ip:a" (run_ops rl demo_signins).1) * minute <= 5 * minute + 5 * (12 * second - 0).
Proof.
  apply (sequential_rate_is_bounded 5 5 [(0, Tick)] demo_signins 0 0 (12 * second) "localauth-ip:a"); vm_compute; intuition congruence.
Defined.

Lemma request_passes_iff_witness :
  let '(_, rl) := run_ops demo_new demo_signins in
  (guarded rl (13 * second) 0 "localauth-ip:a").1 = Next <-> minute <= available 5 rl "localauth-ip:a" (13 * second).
Proof. apply (request_passes_iff 5 5 demo_signins 0 (13 * second) "localauth-ip:a"); vm_compute; intuition congruence. Defined.

(** A run of the interleaved steps: a request, and its bucket when the sweep comes. *)
Definition demo_served : rateLimiter demo_bucket := (serve demo_new 0 0 "user:a").2.

Lemma demo_served_reachable : reachable (eq demo_new) lstep demo_served.
Proof.
  assert (lstep demo_new (look_up demo_new 0 "user:a")) as H1 by (apply l_look_up; reflexivity).
  assert (lstep (look_up demo_new 0 "user:a") (insert_bucket (look_up demo_new 0 "user:a") 0 "user:a")) as H2 by (apply l_insert; reflexivity).
  set (s2 := insert_bucket (look_up demo_new 0 "user:a") 0 "user:a") in *.
  assert (lstep s2 (stamp s2 0 0 "user:a" 0)) as H3 by (apply l_stamp; reflexivity).
  set (s3 := stamp s2 0 0 "user:a" 0) in *.
  assert (lstep s3 (decide_request s3 0 0 0).2) as H4 by (apply (l_decide _ 0 0 "user:a" 0); reflexivity).
  exact (reach_step _ _ _ _ (reach_step _ _ _ _ (reach_step _ _ _ _ (reach_step _ _ _ _ (reach_init _ _ _ eq_refl) H1) H2) H3) H4).
Defined.

Lemma idle_buckets_are_swept_witness :
  (reachable (eq demo_new) lstep demo_served /\ rl_requests demo_served = ∅ /\ rl_stale demo_served = None) /\
  (rl_buckets (gc_tick demo_served (interval + 1)) !! "user:a" = Some 0%nat <->
   rl_buckets demo_served !! "user:a" = Some 0%nat /\ exists t, rl_lastSeen demo_served !! "user:a" = Some t /\ interval + 1 - interval <= t).
Proof.
  assert (rl_requests demo_served = ∅) as Hq by (vm_compute; reflexivity).
  assert (rl_stale demo_served = None) as Hs by (vm_compute; reflexivity).
  split; [split; [exact demo_served_reachable|split; [exact Hq|exact Hs]]|].
  exact (idle_buckets_are_swept localAuthRateLimitPerMinute localAuthRateLimitBurst demo_served (interval + 1) "user:a" 0
    demo_served_reachable Hq Hs).
Defined.

(** A bucket larger than ten minutes of its rate is refilled by being dropped. *)
Example dropping_refills :
  let rl := newRateLimiter 1 30 in
  let ops t := repeat (t, Request "user:a") 40 in
  (length (run_ops rl (ops 0 ++ [(11 * minute, Tick)] ++ ops (11 * minute))).1,
   length (run_ops rl (ops 0 ++ ops (11 * minute))).1) = (60%nat, 41%nat).
Proof. vm_compute. reflexivity. Qed.

(** A request that found its bucket before a sweep drops it spends a token there; the
    key's next requests have a new bucket, so one more of them passes than [burst]. *)
Definition demo_request (r : nat) (now : Z) : list (Z * act) := [(now, Begin r "user:a"); (now, Go r); (now, Go r); (now, Go r)].
Definition demo_first : list (Z * act) := demo_request 0 0.
Definition demo_race : list (Z * act) :=
  let now := interval + 1 in
  [(now, Begin 1 "user:a"); (now, Collect now); (now, Go 1); (now, Remove); (now, Go 1)] ++
  demo_request 2 now ++ concat ((fun r => [(now, Begin r "user:a"); (now, Go r); (now, Go r)]) <$> [3; 4; 5; 6; 7]%nat).
Definition demo_passes (acts : list (Z * act)) : list pass :=
  match run minute demo_new 0 ∅ acts with Some (ps, _) => ps | None => [] end.

Example sweep_between_two_steps :
  (ps_bucket <$> demo_passes (demo_first ++ demo_race)) = [0; 0; 1; 1; 1; 1; 1]%nat /\
  length (passes_of "user:a" (demo_passes (demo_first ++ demo_race))) = 6%nat.
Proof. vm_compute. auto. Qed.

Lemma rate_is_bounded_witness :
  exists rl since ps rl' since',
    run minute demo_new 0 ∅ demo_first = Some ([mkPass "user:a" 0 true], (rl, 0, since)) /\
    run minute rl 0 since demo_race = Some (ps, (rl', interval + 1, since')) /\ length ps = 6%nat /\
    (forall key, Z.of_nat (length (passes_of key ps)) * minute <= 5 * minute + 5 * (interval + 1 - 0)) /\
    (forall b, Z.of_nat (length (passes_on b ps)) * minute <= 5 * minute + 5 * (interval + 1 - 0)).
Proof.
  eexists _, _, _, _, _. split; [vm_compute; reflexivity|]. split; [vm_compute; reflexivity|]. split; [reflexivity|].
  eapply (rate_is_bounded 5 5 minute 0 demo_first demo_race); [done|done|done|done|vm_compute; reflexivity|vm_compute; reflexivity].
Defined.

Example redis_fails_open :
  (redis_middleware (fun _ _ _ => None) 10 5 (Some "u") "1.2.3.4",
   redis_middleware (fun _ _ _ => Some (0, 2500 * millisecond)) 10 5 (Some "u") "1.2.3.4",
   redis_middleware (fun k p b => if (k =s "ip:1.2.3.4") && (b =? p) then Some (0, 3) else None) 10 0 (Some "") "1.2.3.4") =
  (Next, TooManyRequests 2, TooManyRequests 1).
Proof. vm_compute. reflexivity. Qed.
End demo.
