(* ===== verification/Authn.v ===== *)
(** * Authentication: [internal/auth/local/local.go], [internal/handler/auth_local.go],
      [internal/store/memory/user.go], [internal/auth/oidc.go],
      [DecodeLocalAuthSigningKey] of [internal/config/env.go] and the boot of
      [internal/server/server.go]

    Local accounts, their sessions, and the middleware that sends a bearer credential to
    the verifier of its shape: access tokens (ApiToken), local sessions, or the identity
    provider, which is discovered on first use.  bcrypt and the JWT package are classes;
    the provider's answers are arguments. *)

From Stdlib Require Import Ascii.
From S2P Require Import Prelude GoStr GoBase64 Auth ApiToken.
Local Open Scope Z_scope.

(** ** Passwords and e-mail addresses *)

Definition IssuerName : string := "cooker-local".
Definition MinPasswordLength : Z := 8.
Definition DefaultTokenTTL : Z := 12 * hour.
Definition MinSigningKeyLength : Z := 32.

Inductive local_error :=
| ErrInvalidCredentials | ErrPasswordTooShort | ErrEmailRequired | ErrEmailInvalid | ErrTokenInvalid | ErrSigningKeyTooShort
| BcryptFailed.

Class Bcrypt := {
  GenerateFromPassword : string -> Z -> option string;
  CompareHashAndPassword : string -> string -> bool;
  bcrypt_compares p salt h : GenerateFromPassword p salt = Some h -> CompareHashAndPassword h p = true;
  bcrypt_limit p salt : is_Some (GenerateFromPassword p salt) <-> str_len p <= 72
}.

Section passwords.
Context `{Bcrypt}.

Definition HashPassword (plaintext : string) (salt : Z) : result local_error string :=
  if str_len plaintext <? MinPasswordLength then Err ErrPasswordTooShort else
  match GenerateFromPassword plaintext salt with None => Err BcryptFailed | Some h => Ok h end.

Definition VerifyPassword (hash plaintext : string) : option local_error :=
  if CompareHashAndPassword hash plaintext then None else Some ErrInvalidCredentials.
End passwords.

Fixpoint contains_at (s : string) : bool :=
  match s with EmptyString => false | String c s => Ascii.eqb c "@" || contains_at s end.
Definition ends_at (s : string) : bool := has_prefix "@" (str_rev s).

Definition normalised (raw : string) : string := to_lower (trim_space raw).

Definition NormaliseEmail (raw : string) : result local_error string :=
  let e := normalised raw in
  if e =s "" then Err ErrEmailRequired else
  if negb (contains_at e) || has_prefix "@" e || ends_at e then Err ErrEmailInvalid else Ok e.

(** ** The accounts *)

Record User := mkUser {
  u_ID : string; u_Email : string; u_Name : string; u_PasswordHash : string; u_Role : string; u_CreatedAt : Z; u_UpdatedAt : Z
}.

Record users := mkUsers { byID : gmap string User; byEmail : gmap string string }.
Definition no_users : users := mkUsers ∅ ∅.

Inductive user_error := UserNotFound | UserExists.

(** An index that points nowhere yields no user and no error. *)
Definition GetByEmail (s : users) (email : string) : result user_error (option User) :=
  match byEmail s !! normalised email with None => Err UserNotFound | Some id => Ok (byID s !! id) end.

Definition GetByID (s : users) (id : string) : result user_error User :=
  match byID s !! id with None => Err UserNotFound | Some u => Ok u end.

Definition CreateUser (s : users) (u : User) : result user_error users :=
  let key := normalised (u_Email u) in
  match byEmail s !! key with
  | Some _ => Err UserExists
  | None => Ok (mkUsers (<[u_ID u := u]> (byID s)) (<[key := u_ID u]> (byEmail s)))
  end.

Definition UpdateUser (s : users) (u : User) : result user_error users :=
  match byID s !! u_ID u with
  | None => Err UserNotFound
  | Some old =>
      let index :=
        if negb (equal_fold (u_Email old) (u_Email u))
        then <[normalised (u_Email u) := u_ID u]> (delete (normalised (u_Email old)) (byEmail s))
        else byEmail s in
      Ok (mkUsers (<[u_ID u := u]> (byID s)) index)
  end.

Definition Count (s : users) : Z := Z.of_nat (size (byID s)).

(** [None]: the count failed. *)
Definition BootstrapRole (count : option Z) : string :=
  match count with
  | None => RoleViewer
  | Some n => if n =? 0 then RoleAdmin else RoleViewer
  end.

(** ** Sessions *)

(** Times are in seconds, as in the token. *)
Record local_Claims := mkLocalClaims {
  lc_Issuer : string; lc_Subject : string; lc_IssuedAt : Z; lc_ExpiresAt : option Z; lc_Email : string; lc_Name : string; lc_Role : string
}.

(** [golang-jwt]: signing with HS256; parsing a signed text, which asks for the key of
    the header's algorithm and checks the issuer and the expiry; reading the issuer
    without checking anything. *)
Class JWT := {
  SignedString : string -> local_Claims -> string;
  ParseWithClaims : (string -> option string) -> string -> Z -> string -> option local_Claims;
  ParseUnverified : string -> option (option string);
  signature_ok : string -> string -> string -> bool;
  parse_signed keyOf iss now key c :
    keyOf "HS256" = Some key -> lc_Issuer c = iss -> (forall e, lc_ExpiresAt c = Some e -> now < e * second) ->
    ParseWithClaims keyOf iss now (SignedString key c) = Some c;
  parse_checked keyOf iss now raw c : ParseWithClaims keyOf iss now raw = Some c ->
    lc_Issuer c = iss /\ (forall e, lc_ExpiresAt c = Some e -> now < e * second) /\
    exists alg key, keyOf alg = Some key /\ signature_ok alg key raw = true;
  signed_expires keyOf iss now key c e :
    lc_ExpiresAt c = Some e -> e * second <= now -> ParseWithClaims keyOf iss now (SignedString key c) = None;
  unverified_signed key c : ParseUnverified (SignedString key c) = Some (Some (lc_Issuer c));
  (** three segments, none empty, none with a space; a signed token begins with [eyJ] *)
  signed_dots key c : exists h p s, SignedString key c = "eyJ" +:+ h +:+ "." +:+ p +:+ "." +:+ s;
  signed_solid key c : trim_space (SignedString key c) = SignedString key c
}.

Record Issuer := mkIssuer { signingKey : string; ttl : Z }.

Definition NewIssuer (key : string) (ttl : Z) : result local_error Issuer :=
  if str_len key <? MinSigningKeyLength then Err ErrSigningKeyTooShort else
  Ok (mkIssuer key (if ttl <=? 0 then DefaultTokenTTL else ttl)).

(** [jwt.NewNumericDate]. *)
Definition NumericDate (t : Z) : Z := t / second.

Section sessions.
Context `{JWT}.

(** Signing with a byte slice and HS256 does not fail. *)
Definition Issue (i : Issuer) (now : Z) (userID email name role : string) : string * Z :=
  let exp := now + ttl i in
  (SignedString (signingKey i) (mkLocalClaims IssuerName userID (NumericDate now) (Some (NumericDate exp)) email name role), exp).

Definition Verify (i : Issuer) (now : Z) (raw : string) : option local_Claims :=
  ParseWithClaims (fun alg => if alg =s "HS256" then Some (signingKey i) else None) IssuerName now raw.

Definition LooksLikeLocalToken (raw : string) : bool :=
  match cut "." raw with
  | None => false
  | Some (_, rest) =>
      match cut "." rest with
      | None => false
      | Some _ => match ParseUnverified raw with Some (Some iss) => iss =s IssuerName | _ => false end
      end
  end.
End sessions.

(** [config.DecodeLocalAuthSigningKey]: a text that is the base64 of 32 bytes or more is
    decoded, any other is the key itself. *)
Definition DecodeLocalAuthSigningKey (s : string) : option string :=
  let s := trim_space s in
  if s =s "" then None else
  match DecodeString StdEncoding s with
  | Some decoded => if (32 <=? length decoded)%nat then Some (of_bytes decoded) else Some s
  | None => Some s
  end.

(** ** The handlers *)

Record meUser := mkMe { me_ID : string; me_Email : string; me_Name : string; me_Role : string; me_Roles : list string }.
Record tokenResponse := mkTokenResponse { tr_Token : string; tr_ExpiresAt : Z; tr_User : meUser }.

Definition newMeUser (u : User) : meUser := mkMe (u_ID u) (u_Email u) (u_Name u) (u_Role u) [u_Role u].
Definition primaryRole (roles : list string) : string := match roles with [] => RoleViewer | r :: _ => r end.

(** A status, with the session of an answer that has one. *)
Definition answer : Type := Z * option tokenResponse.

Record signupRequest := mkSignup { sg_Email : string; sg_Password : string; sg_Name : string }.
Record signinRequest := mkSignin { si_Email : string; si_Password : string }.

(** Where a signup is between two operations of the store. *)
Inductive signup := Looking (email hash : string) | Counting (email hash : string) | Creating (u : User) | Answered (a : answer).

Section handlers.
Context `{Bcrypt, JWT}.

(** [None]: the body does not bind, as when the e-mail or the password is empty. *)
Definition begin_signup (allowSignup : bool) (salt : Z) (req : option signupRequest) : signup :=
  if negb allowSignup then Answered (403, None) else
  match req with
  | None => Answered (400, None)
  | Some req =>
      if (sg_Email req =s "") || (sg_Password req =s "") then Answered (400, None) else
      match NormaliseEmail (sg_Email req) with
      | Err _ => Answered (400, None)
      | Ok email =>
          match HashPassword (sg_Password req) salt with
          | Err _ => Answered (400, None)
          | Ok hash => Looking email hash
          end
      end
  end.

(** One operation of the store, and what the handler does until the next. *)
Definition signup_step (i : Issuer) (s : users) (name id : string) (now : Z) (p : signup) : users * signup :=
  match p with
  | Looking email hash =>
      match GetByEmail s email with
      | Ok (Some _) => (s, Answered (409, None))
      | Ok None | Err UserNotFound => (s, Counting email hash)
      | Err _ => (s, Answered (500, None))
      end
  | Counting email hash =>
      (s, Creating (mkUser id email (trim_space name) hash (BootstrapRole (Some (Count s))) now now))
  | Creating u =>
      match CreateUser s u with
      | Err _ => (s, Answered (500, None))
      | Ok s' =>
          let '(tok, exp) := Issue i now (u_ID u) (u_Email u) (u_Name u) (u_Role u) in
          (s', Answered (201, Some (mkTokenResponse tok exp (newMeUser u))))
      end
  | Answered a => (s, Answered a)
  end.

(** A signup that nothing interrupts. *)
Definition Signup (allowSignup : bool) (i : Issuer) (s : users) (salt : Z) (id : string) (now : Z) (req : option signupRequest)
    : users * answer :=
  let name := match req with Some r => sg_Name r | None => "" end in
  let '(s, p) := signup_step i s name id now (begin_signup allowSignup salt req) in
  let '(s, p) := signup_step i s name id now p in
  let '(s, p) := signup_step i s name id now p in
  (s, match p with Answered a => a | _ => (500, None) end).

(** A nil user has no hash to read; the index never yields one (lemma [accounts_found]). *)
Definition Signin (i : Issuer) (s : users) (now : Z) (req : option signinRequest) : answer :=
  match req with
  | None => (400, None)
  | Some req =>
      if (si_Email req =s "") || (si_Password req =s "") then (400, None) else
      match NormaliseEmail (si_Email req) with
      | Err _ => (401, None)
      | Ok email =>
          match GetByEmail s email with
          | Err UserNotFound => (401, None)
          | Err _ | Ok None => (500, None)
          | Ok (Some u) =>
              match VerifyPassword (u_PasswordHash u) (si_Password req) with
              | Some _ => (401, None)
              | None =>
                  let '(tok, exp) := Issue i now (u_ID u) (u_Email u) (u_Name u) (u_Role u) in
                  (200, Some (mkTokenResponse tok exp (newMeUser u)))
              end
          end
      end
  end.
End handlers.

Definition Me (claims : option Claims) : option meUser :=
  match claims with
  | None => None
  | Some c => Some (mkMe (cl_Subject c) (cl_Email c) (cl_Name c) (primaryRole (cl_Roles c)) (cl_Roles c))
  end.

(** ** The middleware *)

(** The claims of an identity token. *)
Record oidc_claims := mkOidc {
  oc_Subject : string; oc_Email : string; oc_Name : string; oc_Groups : list string; oc_ACR : string; oc_AMR : list string
}.

Definition providerDiscoveryRetry : Z := 30 * second.

Record OIDCConfig := mkOIDC { oidc_Enabled : bool; oidc_IssuerURL : string; oidc_ClientID : string; oidc_GroupRoleMap : gmap string string }.

(** [V] is the provider's verifier; [m_nextTry] is [zero_time] when no cool-down runs. *)
Record Middleware (V : Type) := mkMiddleware {
  m_cfg : OIDCConfig; m_localIssuer : option Issuer; m_apiTokens : bool;
  m_verifier : option V; m_nextTry : Z; m_lastJWKSRefresh : Z
}.
Arguments mkMiddleware {V}. Arguments m_cfg {V}. Arguments m_localIssuer {V}. Arguments m_apiTokens {V}.
Arguments m_verifier {V}. Arguments m_nextTry {V}. Arguments m_lastJWKSRefresh {V}.

Inductive config_error := EmptyIssuerURL | EmptyClientID.

Definition NewMiddleware {V} (cfg : OIDCConfig) : result config_error (Middleware V) :=
  let m := mkMiddleware cfg None false None zero_time 0 in
  if negb (oidc_Enabled cfg) then Ok m else
  if oidc_IssuerURL cfg =s "" then Err EmptyIssuerURL else
  if oidc_ClientID cfg =s "" then Err EmptyClientID else Ok m.

Definition EnableLocalAuth {V} (i : option Issuer) (m : Middleware V) : Middleware V :=
  mkMiddleware (m_cfg m) i (m_apiTokens m) (m_verifier m) (m_nextTry m) (m_lastJWKSRefresh m).
Definition EnableAPITokens {V} (m : Middleware V) : Middleware V :=
  mkMiddleware (m_cfg m) (m_localIssuer m) true (m_verifier m) (m_nextTry m) (m_lastJWKSRefresh m).

(** [newStore] and the rest of the boot do not touch the middleware. *)
Definition boot_middleware {V} (cfg : OIDCConfig) (localEnabled : bool) (jwtKey : string) (ttl : Z)
    : option (Middleware V) :=
  match NewMiddleware cfg with
  | Err _ => None
  | Ok m =>
      if negb localEnabled then Some (EnableAPITokens m) else
      match DecodeLocalAuthSigningKey jwtKey with
      | None => None
      | Some key => match NewIssuer key ttl with Err _ => None | Ok i => Some (EnableAPITokens (EnableLocalAuth (Some i) m)) end
      end
  end.

(** What a request meets: the clock before and after a discovery, and its outcome if
    this request makes one. *)
Record discovery (V : Type) := mkDiscovery { d_before : Z; d_after : Z; d_found : option V }.
Arguments mkDiscovery {V}. Arguments d_before {V}. Arguments d_after {V}. Arguments d_found {V}.

Inductive discovered := Available | CoolingDown | DiscoveryFailed.

Definition with_provider {V} (m : Middleware V) (v : option V) (next : Z) : Middleware V :=
  mkMiddleware (m_cfg m) (m_localIssuer m) (m_apiTokens m) v next (m_lastJWKSRefresh m).

(** Under the lock, so one step; with whether the provider was asked. *)
Definition ensureProvider {V} (m : Middleware V) (d : discovery V) : discovered * bool * Middleware V :=
  match m_verifier m with
  | Some _ => (Available, false, m)
  | None =>
      if negb (is_zero_time (m_nextTry m)) && (d_before d <? m_nextTry m) then (CoolingDown, false, m) else
      match d_found d with
      | None => (DiscoveryFailed, true, with_provider m None (d_after d + providerDiscoveryRetry))
      | Some v => (Available, true, with_provider m (Some v) zero_time)
      end
  end.

Definition recordJWKSRefresh {V} (now : Z) (m : Middleware V) : Middleware V :=
  mkMiddleware (m_cfg m) (m_localIssuer m) (m_apiTokens m) (m_verifier m) (m_nextTry m) now.

Definition LastJWKSRefresh {V} (now : Z) (m : Middleware V) : option Z :=
  if m_lastJWKSRefresh m =? 0 then None else Some (now - m_lastJWKSRefresh m).

(** The request goes on as a user, or is answered: 401, or 503 with its [Retry-After]. *)
Inductive authn := Authenticated (c : Claims) | Refused (status : Z) (retryAfter : option Z).

Definition devUser : Claims := Auth.mkClaims "dev-user" "dev@cooker.local" "Developer" ["cooker-admins"] [RoleAdmin] "" [].

(** The header's credential, empty when there is none. *)
Definition rawBearer (authHeader : string) : string := default "" (bearerToken authHeader).

Section middleware.
Context {V : Type} `{JWT} `{RO : RangeOrder}.

(** The verifier's answer: [None] for a token it rejects, [Some None] for claims that do
    not parse. *)
Context (oidc_verify : V -> Z -> string -> option (option oidc_claims)).

Definition local_user (c : local_Claims) : Claims :=
  Auth.mkClaims (lc_Subject c) (lc_Email c) (lc_Name c) [] [lc_Role c] "" [].

Definition oidc_user (cfg : OIDCConfig) (c : oidc_claims) : Claims :=
  Auth.mkClaims (oc_Subject c) (oc_Email c) (oc_Name c) (oc_Groups c) (MapGroupsToRolesWith (oc_Groups c) (oidc_GroupRoleMap cfg))
    (oc_ACR c) (oc_AMR c).

Definition Handler (m : Middleware V) (w : world) (now : Z) (d : discovery V) (authHeader : string)
    : authn * Middleware V * world :=
  if negb (oidc_Enabled (m_cfg m)) && match m_localIssuer m with None => true | Some _ => false end then
    if negb (m_apiTokens m) then (Authenticated devUser, m, w) else
    let cred := rawBearer authHeader in
    if negb (cred =s "") && LooksLikeAPIToken cred then
      match Authenticate w now cred with
      | (w', Some claims) => (Authenticated claims, m, w')
      | (w', None) => (Refused 401 None, m, w')
      end
    else (Authenticated devUser, m, w)
  else
    match bearerToken authHeader with
    | None => (Refused 401 None, m, w)
    | Some token =>
        if m_apiTokens m && LooksLikeAPIToken token then
          match Authenticate w now token with
          | (w', Some claims) => (Authenticated claims, m, w')
          | (w', None) => (Refused 401 None, m, w')
          end
        else
          match (match m_localIssuer m with Some i => if LooksLikeLocalToken token then Some i else None | None => None end) with
          | Some i =>
              match Verify i now token with
              | None => (Refused 401 None, m, w)
              | Some c => (Authenticated (local_user c), m, w)
              end
          | None =>
              if negb (oidc_Enabled (m_cfg m)) then (Refused 401 None, m, w) else
              match ensureProvider m d with
              | (Available, _, m') =>
                  match m_verifier m' with
                  | None => (Refused 503 (Some 30), m', w)
                  | Some v =>
                      match oidc_verify v now token with
                      | None => (Refused 401 None, m', w)
                      | Some None => (Refused 401 None, recordJWKSRefresh now m', w)
                      | Some (Some c) => (Authenticated (oidc_user (m_cfg m) c), recordJWKSRefresh now m', w)
                      end
                  end
              | (_, _, m') => (Refused 503 (Some 30), m', w)
              end
          end
    end.
End middleware.

(** ** Simultaneous signups *)

Section accounts.
Context `{Bcrypt, JWT} (issuer : Issuer) (allowSignup : bool).

(** The accounts, and the signups in progress with their names. *)
Record desk := mkDesk { dk_users : users; dk_signups : gmap nat (string * signup) }.
Definition new_desk : desk := mkDesk no_users ∅.

(** A fresh UUID is that of no account and of no signup about to create one. *)
Definition fresh_id (d : desk) (id : string) : Prop :=
  byID (dk_users d) !! id = None /\
  forall r n u, dk_signups d !! r = Some (n, Creating u) -> u_ID u <> id.

Inductive desk_step (d : desk) : desk -> Prop :=
| d_begin r salt req : dk_signups d !! r = None ->
    desk_step d (mkDesk (dk_users d)
      (<[r := (match req with Some q => sg_Name q | None => "" end, begin_signup allowSignup salt req)]> (dk_signups d)))
| d_step r name p id now s' p' : dk_signups d !! r = Some (name, p) -> fresh_id d id ->
    signup_step issuer (dk_users d) name id now p = (s', p') ->
    desk_step d (mkDesk s' (<[r := (name, p')]> (dk_signups d))).

(** The index and the accounts agree; accounts that wait to be created have their own
    names, and are administrators while there is no account. *)
Record desk_inv (d : desk) : Prop := {
  di_index key id : byEmail (dk_users d) !! key = Some id <->
    exists u, byID (dk_users d) !! id = Some u /\ normalised (u_Email u) = key;
  di_id id u : byID (dk_users d) !! id = Some u -> u_ID u = id;
  di_admin : byID (dk_users d) = ∅ \/ exists id u, byID (dk_users d) !! id = Some u /\ u_Role u = RoleAdmin;
  di_wait r n u : dk_signups d !! r = Some (n, Creating u) ->
    byID (dk_users d) !! u_ID u = None /\ (byID (dk_users d) = ∅ -> u_Role u = RoleAdmin);
  di_apart r n u r' n' u' : dk_signups d !! r = Some (n, Creating u) -> dk_signups d !! r' = Some (n', Creating u') ->
    u_ID u = u_ID u' -> r = r'
}.

(** A signup that moves without creating an account or waiting to. *)
Lemma desk_inv_move d r n p : desk_inv d -> (forall u, p <> Creating u) -> desk_inv (mkDesk (dk_users d) (<[r := (n, p)]> (dk_signups d))).
Proof.
  intros Hd Hp. split; cbn; [apply Hd..| |].
  - intros r' n' u [[_ [= _ Hq]]|[_ Hq]]%lookup_insert_Some; [by destruct (Hp u)|by eapply (di_wait d Hd)].
  - intros r1 n1 u1 r2 n2 u2 [[_ [= _ Hq]]|[_ Hq1]]%lookup_insert_Some; [by destruct (Hp u1)|].
    intros [[_ [= _ Hq]]|[_ Hq2]]%lookup_insert_Some; [by destruct (Hp u2)|by eapply (di_apart d Hd)].
Qed.

Lemma begin_not_creating salt req u : begin_signup allowSignup salt req <> Creating u.
Proof. unfold begin_signup. repeat split_match; done. Qed.

Lemma CreateUser_Ok s u s' : CreateUser s u = Ok s' ->
  byEmail s !! normalised (u_Email u) = None /\
  s' = mkUsers (<[u_ID u := u]> (byID s)) (<[normalised (u_Email u) := u_ID u]> (byEmail s)).
Proof. unfold CreateUser. destruct (byEmail s !! _) eqn:He; [done|]. by intros [= <-]. Qed.

Lemma desk_inv_create d r n u s' a : desk_inv d -> dk_signups d !! r = Some (n, Creating u) -> CreateUser (dk_users d) u = Ok s' ->
  desk_inv (mkDesk s' (<[r := (n, Answered a)]> (dk_signups d))).
Proof.
  intros Hd Hr [Hfree ->]%CreateUser_Ok. destruct (di_wait d Hd r n u Hr) as [Hnone Hrole]. split; cbn.
  - intros key id. rewrite lookup_insert_Some. destruct (decide (normalised (u_Email u) = key)) as [<-|Hne].
    + split.
      * intros [[_ <-]|[? _]]; [|done]. exists u. by rewrite lookup_insert_eq.
      * intros (u' & [[<- <-]|[Hne Hu']]%lookup_insert_Some & Hk); [by left|]. exfalso.
        assert (byEmail (dk_users d) !! normalised (u_Email u) = Some id) by (apply (di_index d Hd); eauto). congruence.
    + rewrite (di_index d Hd). split.
      * intros [[? _]|[_ (u' & Hu' & Hk)]]; [done|]. exists u'. rewrite lookup_insert_ne; [done|congruence].
      * intros (u' & [[<- <-]|[Hi Hu']]%lookup_insert_Some & Hk); [done|]. right. eauto.
  - intros id u' [[<- <-]|[_ ?]]%lookup_insert_Some; [done|by apply (di_id d Hd)].
  - right. destruct (di_admin d Hd) as [He|(id & u' & Hu' & Ha)].
    + exists (u_ID u), u. rewrite lookup_insert_eq. auto.
    + exists id, u'. rewrite lookup_insert_ne; [done|congruence].
  - intros r' n' u' [[_ ?]|[Hne Hr']]%lookup_insert_Some; [done|]. destruct (di_wait d Hd r' n' u' Hr') as [Hn' _].
    split; [|intros He; exfalso; apply (insert_non_empty _ _ _ He)]. rewrite lookup_insert_ne; [done|].
    intros Heq. by apply Hne, (di_apart d Hd r n u r' n' u').
  - intros r1 n1 u1 r2 n2 u2 [[_ ?]|[_ Hq1]]%lookup_insert_Some; [done|].
    intros [[_ ?]|[_ Hq2]]%lookup_insert_Some; [done|by eapply (di_apart d Hd)].
Qed.

Lemma desk_inv_step d d' : desk_inv d -> desk_step d d' -> desk_inv d'.
Proof.
  intros Hd [r salt req Hr|r name p id now s' p' Hr Hf Hs]; [apply desk_inv_move; [done|apply begin_not_creating]|].
  destruct p as [email hash|email hash|u|a]; cbn in Hs.
  - destruct (GetByEmail _ _) as [[?|]|[|]]; simplify_eq; by apply desk_inv_move.
  - simplify_eq. split; cbn; [apply Hd..| |].
    + intros r' n' u [[_ [= _ <-]]|[_ Hq]]%lookup_insert_Some; [|by eapply (di_wait d Hd)]. cbn. split; [apply Hf|].
      intros He. unfold BootstrapRole, Count. by rewrite He, map_size_empty.
    + intros r1 n1 u1 r2 n2 u2 [[<- [= _ <-]]|[? Hq1]]%lookup_insert_Some [[<- [= _ <-]]|[? Hq2]]%lookup_insert_Some; cbn; [done| | |].
      * intros He. by destruct (proj2 Hf _ _ _ Hq2).
      * intros He. by destruct (proj2 Hf _ _ _ Hq1).
      * by eapply (di_apart d Hd).
  - destruct (CreateUser (dk_users d) u) as [s1|e] eqn:Hc; [|simplify_eq; by apply desk_inv_move].
    simplify_eq. by eapply desk_inv_create.
  - simplify_eq. by apply desk_inv_move.
Qed.

Lemma desk_inv_reachable d : reachable (eq new_desk) desk_step d -> desk_inv d.
Proof.
  apply reachable_invariant; [|apply desk_inv_step]. intros ? <-. split; cbn; try (intros *; by rewrite lookup_empty).
  - intros key id. rewrite lookup_empty. split; [done|]. intros (u & Hu & _). by rewrite lookup_empty in Hu.
  - by left.
Qed.

(** However signups interleave, an e-mail address has one account and the index finds
    exactly it, and as soon as there is an account there is an administrator. *)
Theorem accounts_are_consistent d email :
  reachable (eq new_desk) desk_step d ->
  (forall u, GetByEmail (dk_users d) email = Ok (Some u) <->
     byID (dk_users d) !! u_ID u = Some u /\ normalised (u_Email u) = normalised email) /\
  (forall id1 id2 u1 u2, byID (dk_users d) !! id1 = Some u1 -> byID (dk_users d) !! id2 = Some u2 ->
     normalised (u_Email u1) = normalised (u_Email u2) -> id1 = id2) /\
  (byID (dk_users d) = ∅ \/ exists id u, byID (dk_users d) !! id = Some u /\ u_Role u = RoleAdmin).
Proof.
  intros Hr. pose proof (desk_inv_reachable d Hr) as Hd. split_and!; [| |apply (di_admin d Hd)].
  - intros u. unfold GetByEmail. destruct (byEmail (dk_users d) !! normalised email) as [id|] eqn:He.
    + apply (di_index d Hd) in He as (u' & Hu' & Hk). rewrite Hu'. split.
      * intros [= ->]. by rewrite (di_id d Hd _ _ Hu').
      * intros [Hu Hku]. do 2 f_equal. assert (byEmail (dk_users d) !! normalised email = Some (u_ID u)) as H1 by (apply (di_index d Hd); eauto).
        assert (byEmail (dk_users d) !! normalised email = Some id) as H2 by (apply (di_index d Hd); eauto). congruence.
    + split; [done|]. intros [Hu Hk]. assert (byEmail (dk_users d) !! normalised email = Some (u_ID u)) by (apply (di_index d Hd); eauto).
      congruence.
  - intros id1 id2 u1 u2 H1 H2 Hk.
    assert (byEmail (dk_users d) !! normalised (u_Email u2) = Some id1) as He1 by (apply (di_index d Hd); eauto).
    assert (byEmail (dk_users d) !! normalised (u_Email u2) = Some id2) as He2 by (apply (di_index d Hd); eauto). congruence.
Qed.
End accounts.

(** ** Sessions *)

Lemma cut_first (sep : ascii) a b : (forall c, c ∈ String.list_ascii_of_string a -> c <> sep) ->
  cut sep (a +:+ String sep b) = Some (a, b).
Proof.
  induction a as [|c a IH]; intros Ha.
  - change ("" +:+ String sep b) with (String sep b). cbn. by rewrite Ascii.eqb_refl.
  - change (String c a +:+ String sep b) with (String c (a +:+ String sep b)). cbn [cut].
    rewrite (proj2 (Ascii.eqb_neq c sep)) by (apply Ha; by left). rewrite IH; [done|]. intros c' Hc'. apply Ha. by right.
Qed.

Lemma cut_some sep s a : is_Some (cut sep (a +:+ String sep s)).
Proof.
  induction a as [|c a IH]; [change ("" +:+ String sep s) with (String sep s); cbn; by rewrite Ascii.eqb_refl|].
  change (String c a +:+ String sep s) with (String c (a +:+ String sep s)). cbn [cut].
  destruct (Ascii.eqb c sep); [by eexists|]. destruct IH as [[x y] ->]. by eexists.
Qed.

Section session_facts.
Context `{JWT}.

(** A text with two dots is cut twice. *)
Lemma cut_after sep a b x y : cut sep (a +:+ String sep b) = Some (x, y) -> exists a', y = a' +:+ String sep b \/ y = b.
Proof.
  revert x y. induction a as [|c a IH]; intros x y.
  - change ("" +:+ String sep b) with (String sep b). cbn. rewrite Ascii.eqb_refl. intros [= _ <-]. exists "". by right.
  - change (String c a +:+ String sep b) with (String c (a +:+ String sep b)). cbn [cut].
    destruct (Ascii.eqb c sep); [intros [= _ <-]; exists a; by left|].
    destruct (cut sep (a +:+ String sep b)) as [[x' y']|] eqn:Hc; [|done]. intros [= _ <-]. by apply (IH x').
Qed.

Lemma signed_looks_local key c : lc_Issuer c = IssuerName -> LooksLikeLocalToken (SignedString key c) = true.
Proof.
  intros Hi. unfold LooksLikeLocalToken. rewrite unverified_signed, Hi, String.eqb_refl.
  destruct (signed_dots key c) as (h & p & s & Hs).
  assert (SignedString key c = ("eyJ" +:+ h) +:+ String "." (p +:+ String "." s)) as -> by (rewrite Hs, append_assoc; reflexivity).
  destruct (cut_some "." (p +:+ String "." s) ("eyJ" +:+ h)) as [[x y] Hc]. rewrite Hc.
  apply cut_after in Hc as [a' [->| ->]].
  - destruct (cut_some "." (p +:+ String "." s) a') as [[? ?] ->]. done.
  - destruct (cut_some "." s p) as [[? ?] ->]. done.
Qed.

Lemma signed_not_api_token key c : LooksLikeAPIToken (SignedString key c) = false.
Proof. destruct (signed_dots key c) as (h & p & s & ->). reflexivity. Qed.

Lemma signed_nonempty key c : (SignedString key c =s "") = false.
Proof. destruct (signed_dots key c) as (h & p & s & ->). reflexivity. Qed.

Lemma bearer_signed key c : bearerToken ("Bearer " +:+ SignedString key c) = Some (SignedString key c).
Proof.
  unfold bearerToken. change ("Bearer " +:+ SignedString key c) with ("Bearer" +:+ String " " (SignedString key c)).
  rewrite cut_first by (intros ? Hc; cbn in Hc; set_solver). change (is_bearer "Bearer") with true.
  by rewrite signed_solid, signed_nonempty.
Qed.
End session_facts.

Section session_roundtrip.
Context {V : Type} `{Bcrypt, JWT} `{RO : RangeOrder} (oidc_verify : V -> Z -> string -> option (option oidc_claims)).

(** The session of an answer: who it is for, and how long. *)
Definition session_of (i : Issuer) (now : Z) (r : tokenResponse) : Prop :=
  exists u, tr_User r = newMeUser u /\ tr_ExpiresAt r = now + ttl i /\
    tr_Token r = (Issue i now (u_ID u) (u_Email u) (u_Name u) (u_Role u)).1.

Lemma Signin_session i s now req r : Signin i s now req = (200, Some r) -> session_of i now r.
Proof.
  unfold Signin, session_of. intros Hs. repeat (split_match; simplify_eq/=). eexists. split_and!; reflexivity.
Qed.

Lemma Signup_session allow i s salt id now req s' r : Signup allow i s salt id now req = (s', (201, Some r)) -> session_of i now r.
Proof.
  unfold Signup, begin_signup, session_of. intros Hs.
  repeat (split_match; simplify_eq/=; cbn [signup_step] in *); eexists; split_and!; reflexivity.
Qed.

Lemma Handler_session (m : Middleware V) w now d i c : m_localIssuer m = Some i -> lc_Issuer c = IssuerName ->
  Handler oidc_verify m w now d ("Bearer " +:+ SignedString (signingKey i) c) =
  match Verify i now (SignedString (signingKey i) c) with
  | Some c => (Authenticated (local_user c), m, w)
  | None => (Refused 401 None, m, w)
  end.
Proof.
  intros Hm Hc. unfold Handler. rewrite Hm, andb_false_r, bearer_signed, signed_not_api_token, andb_false_r, (signed_looks_local _ _ Hc).
  by destruct (Verify _ _ _).
Qed.

(** C23. A session handed out by a sign-in or a signup authenticates its account, with
    the role the account had then, until the second of its expiry, and is refused from
    then on; and it never satisfies a route that asks for a second factor. *)
Theorem sessions_work i s now r (m : Middleware V) w later d :
  (exists req, Signin i s now req = (200, Some r)) \/
  (exists allow salt id req s', Signup allow i s salt id now req = (s', (201, Some r))) ->
  m_localIssuer m = Some i ->
  let me := tr_User r in
  let user := Auth.mkClaims (me_ID me) (me_Email me) (me_Name me) [] [me_Role me] "" [] in
  Handler oidc_verify m w later d ("Bearer " +:+ tr_Token r) =
    (if later <? NumericDate (tr_ExpiresAt r) * second then Authenticated user else Refused 401 None, m, w) /\
  (forall acrs, acrs <> [] -> RequireMFA acrs (Some user) = Forbidden).
Proof.
  intros Hs Hm me user. split.
  - assert (session_of i now r) as (u & Hu & He & Ht)
      by (destruct Hs as [[req Hs]|(allow & salt & id & req & s' & Hs)]; [by eapply Signin_session|by eapply Signup_session]).
    unfold Issue in Ht. cbn in Ht. rewrite Ht, (Handler_session _ _ _ _ i) by done. unfold Verify. unfold user, me. rewrite Hu, He.
    destruct (Z.ltb_spec later (NumericDate (now + ttl i) * second)) as [Hlt|Hge].
    + rewrite parse_signed; [done|done|done|]. by intros e [= <-].
    + erewrite signed_expires; [done|done|done].
  - intros acrs Hne. unfold RequireMFA. destruct acrs as [|a acrs]; [done|]. cbn [cl_ACR cl_AMR user existsb].
    assert (forall l, acr_allowed l "" = false) as Hno.
    { intros l. unfold acr_allowed. apply not_true_iff_false. intros (x & [Hx _]%list_elem_of_In%list_elem_of_filter & Heq)%existsb_exists.
      apply String.eqb_eq in Heq. done. }
    by rewrite Hno.
Qed.
End session_roundtrip.

(** ** Who gets in *)

Section soundness.
Context {V : Type} `{JWT} `{RO : RangeOrder} (oidc_verify : V -> Z -> string -> option (option oidc_claims)).

(** With an identity provider or local accounts switched on, a request goes on as a
    user only with a bearer credential that the verifier of its shape accepts, and as
    the user that verifier names: an access token that the store knows and that has not
    expired; a token signed with the local key, under the local issuer's name and not
    expired; or a token the discovered provider accepts, with the roles of its groups. *)
Theorem authenticated_by_its_verifier (m : Middleware V) w now d h c m' w' :
  oidc_Enabled (m_cfg m) = true \/ is_Some (m_localIssuer m) ->
  Handler oidc_verify m w now d h = (Authenticated c, m', w') ->
  exists token, bearerToken h = Some token /\
    (LooksLikeAPIToken token = true /\ Authenticate w now token = (w', Some c) \/
     (exists i lc, m_localIssuer m = Some i /\ signature_ok "HS256" (signingKey i) token = true /\ lc_Issuer lc = IssuerName /\
        (forall e, lc_ExpiresAt lc = Some e -> now < e * second) /\ c = local_user lc) \/
     (oidc_Enabled (m_cfg m) = true /\ exists v oc, (m_verifier m = Some v \/ m_verifier m = None /\ d_found d = Some v) /\
        oidc_verify v now token = Some (Some oc) /\ c = oidc_user (m_cfg m) oc)).
Proof.
  intros Hon Hh. unfold Handler in Hh.
  assert (negb (oidc_Enabled (m_cfg m)) && match m_localIssuer m with Some _ => false | None => true end = false) as Hoff.
  { destruct Hon as [->|[i ->]]; [done|apply andb_false_r]. }
  rewrite Hoff in Hh. destruct (bearerToken h) as [token|]; [|done]. exists token. split; [done|].
  destruct (m_apiTokens m && LooksLikeAPIToken token) eqn:Hapi.
  { left. apply andb_true_iff in Hapi as [_ ->]. destruct (Authenticate w now token) as [w1 [c1|]]; by simplify_eq. }
  right. destruct (m_localIssuer m) as [i|] eqn:Hi; [destruct (LooksLikeLocalToken token)|].
  { left. destruct (Verify i now token) as [lc|] eqn:Hv; [|done]. simplify_eq. unfold Verify in Hv.
    apply parse_checked in Hv as (Hiss & Hexp & alg & key & Hkey & Hsig). exists i, lc. split_and!; try done.
    destruct (String.eqb_spec alg "HS256") as [->|]; by simplify_eq. }
  all: right; destruct (oidc_Enabled (m_cfg m)) eqn:He; [|done]; split; [done|].
  all: cbn [negb] in Hh; unfold ensureProvider in Hh; destruct (m_verifier m) as [v|] eqn:Hm;
    [rewrite Hm in Hh|destruct (negb (is_zero_time _) && _); [by simplify_eq/=|]; destruct (d_found d) as [v|] eqn:Hf; [cbn [with_provider m_verifier] in Hh|by simplify_eq/=]];
    destruct (oidc_verify v now token) as [[oc|]|] eqn:Ho; simplify_eq; exists v, oc; eauto 10.
Qed.

(** ** Discovery *)

(** The requests whose discovery asked the provider. *)
Fixpoint asked (m : Middleware V) (ds : list (discovery V)) : list (discovery V) :=
  match ds with
  | [] => []
  | d :: ds => let '(_, a, m') := ensureProvider m d in if a then d :: asked m' ds else asked m' ds
  end.

Lemma asked_found m ds v : m_verifier m = Some v -> asked m ds = [].
Proof. intros Hm. induction ds as [|d ds IH]; [done|]. cbn. unfold ensureProvider. by rewrite Hm. Qed.

(** However many requests arrive, the identity provider is not asked again after it
    answered, nor earlier than thirty seconds after it failed. *)
Theorem discovery_is_spaced m ds i d d' :
  (forall d, d ∈ ds -> 0 <= d_after d) ->
  asked m ds !! i = Some d -> asked m ds !! S i = Some d' ->
  d_found d = None /\ d_after d + providerDiscoveryRetry <= d_before d'.
Proof.
  revert m i. induction ds as [|d0 ds IH]; intros m i Hpos; [done|].
  assert (forall d, d ∈ ds -> 0 <= d_after d) as Hpos' by (intros; apply Hpos; by right).
  cbn [asked]. destruct (ensureProvider m d0) as [[r a] m1] eqn:He. destruct a; [|by apply IH].
  destruct i as [|i]; cbn [lookup list_lookup]; [|by apply IH].
  intros [= <-] Hd'. unfold ensureProvider in He. destruct (m_verifier m); [done|]. destruct (_ && _); [done|].
  destruct (d_found d0) as [v|] eqn:Hf; simplify_eq; [by rewrite (asked_found _ _ v) in Hd'|]. split; [done|].
  pose proof (Hpos d0 ltac:(left)) as H0. clear IH Hpos.
  set (m1 := with_provider m None (d_after d0 + providerDiscoveryRetry)) in *.
  assert (forall d, asked m1 ds !! 0%nat = Some d -> m_nextTry m1 <= d_before d) as Hfirst; [|by apply Hfirst].
  assert (m_verifier m1 = None) as Hnone by done.
  assert (is_zero_time (m_nextTry m1) = false) as Hz by (apply Z.eqb_neq; cbn; unfold zero_time, providerDiscoveryRetry, second; lia).
  clearbody m1. clear -Hnone Hz. induction ds as [|d1 ds IH]; intros d; [done|]. cbn [asked]. unfold ensureProvider. rewrite Hnone, Hz.
  cbn [negb andb]. destruct (Z.ltb_spec (d_before d1) (m_nextTry m1)); [apply IH|].
  destruct (d_found d1); cbn; by intros [= <-].
Qed.
End soundness.

(** ** Concrete bcrypt and tokens *)

Definition demo_Bcrypt : Bcrypt.
Proof.
  refine {| GenerateFromPassword p _ := if str_len p <=? 72 then Some ("$2a$" +:+ p) else None;
            CompareHashAndPassword h p := h =s ("$2a$" +:+ p) |}.
  - intros p _ h. destruct (_ <=? _); [|done]. intros [= <-]. apply String.eqb_refl.
  - intros p _. destruct (Z.leb_spec (str_len p) 72); split; [done|by eexists|by intros [? ?]|lia].
Defined.

#[export] Instance local_Claims_eq_dec : EqDecision local_Claims.
Proof. solve_decision. Defined.

#[export] Instance local_Claims_countable : Countable local_Claims.
Proof.
  refine (inj_countable' (fun c => (lc_Issuer c, lc_Subject c, lc_IssuedAt c, lc_ExpiresAt c, (lc_Email c, lc_Name c, lc_Role c)))
    (fun '(i, s, a, e, (m, n, r)) => mkLocalClaims i s a e m n r) _). by intros [].
Defined.

(** A number in binary, lowest digit first and without its last one. *)
Fixpoint bits (p : positive) : string :=
  match p with xH => "" | xO p => String "0" (bits p) | xI p => String "1" (bits p) end.
Fixpoint unbits (s : string) : positive :=
  match s with EmptyString => xH | String c s => if Ascii.eqb c "1" then xI (unbits s) else xO (unbits s) end.

Lemma unbits_bits p : unbits (bits p) = p.
Proof. induction p as [p IH|p IH|]; cbn; by rewrite ?IH. Qed.

Lemma bits_digits p : Forall (fun c => c = "0"%char \/ c = "1"%char) (str_chars (bits p)).
Proof. induction p; cbn; auto. Qed.

(** A token: the claims and the key. *)
Definition demo_sign (key : string) (c : local_Claims) : string := "eyJ." +:+ bits (encode c) +:+ "." +:+ bits (encode key).

Definition demo_open (raw : string) : option (local_Claims * string) :=
  match cut "." raw with
  | Some (h, rest) =>
      if h =s "eyJ" then
        match cut "." rest with
        | Some (p, s) => c ← decode (unbits p); Some (c, s)
        | None => None
        end
      else None
  | None => None
  end.

Lemma demo_open_sign key c : demo_open (demo_sign key c) = Some (c, bits (encode key)).
Proof.
  unfold demo_open, demo_sign. change ("eyJ." +:+ bits (encode c) +:+ "." +:+ bits (encode key)) with
    ("eyJ" +:+ String "." (bits (encode c) +:+ String "." (bits (encode key)))).
  rewrite !cut_first; [by rewrite unbits_bits, decode_encode| |].
  - intros x Hx. destruct (proj1 (Forall_forall _ _) (bits_digits (encode c)) x Hx) as [-> | ->]; done.
  - intros x Hx. cbn in Hx. set_solver.
Qed.

Definition unexpired (now : Z) (c : local_Claims) : bool := match lc_ExpiresAt c with Some e => now <? e * second | None => true end.

Definition demo_parse (keyOf : string -> option string) (iss : string) (now : Z) (raw : string) : option local_Claims :=
  match demo_open raw, keyOf "HS256" with
  | Some (c, s), Some key => if (s =s bits (encode key)) && (lc_Issuer c =s iss) && unexpired now c then Some c else None
  | _, _ => None
  end.

Lemma demo_sign_solid key c : trim_space (demo_sign key c) = demo_sign key c.
Proof.
  apply trim_space_solid. unfold demo_sign. rewrite !chars_append, !Forall_app.
  assert (forall p, Forall solid (str_chars (bits p))) as Hb
    by (intros p; eapply Forall_impl; [apply bits_digits|]; by intros ? [-> | ->]).
  split_and!; [repeat constructor|apply Hb|repeat constructor|apply Hb].
Qed.

Definition demo_JWT : JWT.
Proof.
  refine {| SignedString := demo_sign; ParseWithClaims := demo_parse;
    ParseUnverified raw := match demo_open raw with Some (c, _) => Some (Some (lc_Issuer c)) | None => None end;
    signature_ok alg key raw := (alg =s "HS256") && match demo_open raw with Some (_, s) => s =s bits (encode key) | None => false end |}.
  - intros keyOf iss now key c Hk <- He. unfold demo_parse. rewrite demo_open_sign, Hk, !String.eqb_refl. unfold unexpired.
    destruct (lc_ExpiresAt c) as [e|]; [|done]. by rewrite (proj2 (Z.ltb_lt _ _) (He e eq_refl)).
  - intros keyOf iss now raw c. unfold demo_parse. destruct (demo_open raw) as [[c' s]|] eqn:Ho; [|done].
    destruct (keyOf "HS256") as [key|] eqn:Hk; [|done]. destruct (_ && _) eqn:Hb; [|done]. intros [= <-]. reflect_bools. subst. split; [done|].
    split; [intros e He; match goal with H : unexpired _ _ = true |- _ => unfold unexpired in H; rewrite He in H; by apply Z.ltb_lt in H end|].
    exists "HS256", key. split; [done|]. rewrite ?Ho. cbn. apply String.eqb_refl.
  - intros keyOf iss now key c e He Hle. unfold demo_parse. rewrite demo_open_sign. destruct (keyOf "HS256"); [|done].
    unfold unexpired. rewrite He, (proj2 (Z.ltb_ge _ _) Hle). by rewrite andb_false_r.
  - intros key c. by rewrite demo_open_sign.
  - intros key c. exists "", (bits (encode c)), (bits (encode key)). reflexivity.
  - apply demo_sign_solid.
Defined.

Section demo.
Local Existing Instance demo_Bcrypt.
Local Existing Instance demo_JWT.
Local Existing Instance range_default.

Definition demo_issuer : Issuer := mkIssuer "0123456789abcdef0123456789abcdef" DefaultTokenTTL.
Definition demo_ann : signupRequest := mkSignup " Ann@Example.org " "password1" " Ann ".
Definition demo_bob : signupRequest := mkSignup "bob@example.org" "password2" "Bob".
Definition demo_now : Z := 1700000000 * second + 5.

(** Signups one after the other: the first is the administrator. *)
Definition demo_users : users :=
  (Signup true demo_issuer (Signup true demo_issuer no_users 0 "u1" demo_now (Some demo_ann)).1 0 "u2" demo_now (Some demo_bob)).1.

Example first_is_admin :
  (u_Role <$> byID demo_users !! "u1", u_Role <$> byID demo_users !! "u2", byEmail demo_users !! "ann@example.org") =
  (Some "admin", Some "viewer", Some "u1").
Proof. vm_compute. reflexivity. Qed.

(** What the handlers answer: a second account for an address, signups switched off, a
    short and a long password, a wrong one. *)
Example signup_answers :
  let go allow req := (Signup true demo_issuer demo_users 0 "u3" demo_now req).2.1 in
  (go true (Some (mkSignup "BOB@example.org" "password3" "")), (Signup false demo_issuer demo_users 0 "u3" demo_now (Some demo_bob)).2.1,
   go true (Some (mkSignup "eve@x" "short" "")), go true (Some (mkSignup "@x" "password4" "")),
   go true (Some (mkSignup "eve@x" (String.concat "" (repeat "password" 10)) "")),
   (Signin demo_issuer demo_users demo_now (Some (mkSignin "ann@example.org" "password2"))).1,
   (Signin demo_issuer demo_users demo_now (Some (mkSignin "nobody@example.org" "password2"))).1) = (409, 403, 400, 400, 400, 401, 401).
Proof. vm_compute. reflexivity. Qed.

(** Two signups of an empty instance that overlap are both administrators. *)
Definition demo_move (r : nat) (id : string) (d : desk) : desk :=
  match dk_signups d !! r with
  | Some (name, p) =>
      let '(s', p') := signup_step demo_issuer (dk_users d) name id demo_now p in mkDesk s' (<[r := (name, p')]> (dk_signups d))
  | None => d
  end.

Definition fresh_idb (d : desk) (id : string) : bool :=
  match byID (dk_users d) !! id with
  | Some _ => false
  | None => forallb (fun '(_, (_, p)) => match p with Creating u => negb (u_ID u =s id) | _ => true end) (map_to_list (dk_signups d))
  end.

Lemma fresh_idb_true d id : fresh_idb d id = true -> fresh_id d id.
Proof.
  unfold fresh_idb, fresh_id. destruct (byID (dk_users d) !! id); [done|]. intros Hf. split; [done|].
  intros r n u Hr. rewrite forallb_forall in Hf. specialize (Hf (r, (n, Creating u))). cbn in Hf.
  intros He. rewrite He, String.eqb_refl in Hf. discriminate Hf. by apply list_elem_of_In, elem_of_map_to_list.
Qed.

Lemma demo_reach_move r id d : fresh_idb d id = true ->
  reachable (eq new_desk) (desk_step demo_issuer true) d -> reachable (eq new_desk) (desk_step demo_issuer true) (demo_move r id d).
Proof.
  intros Hf%fresh_idb_true Hd. unfold demo_move. destruct (dk_signups d !! r) as [[name p]|] eqn:Hr; [|done].
  destruct (signup_step _ _ _ _ _ _) as [s' p'] eqn:Hs. eapply reach_step; [exact Hd|]. by eapply d_step.
Defined.

Lemma demo_reach_begin r req d : dk_signups d !! r = None -> reachable (eq new_desk) (desk_step demo_issuer true) d ->
  reachable (eq new_desk) (desk_step demo_issuer true) (mkDesk (dk_users d)
    (<[r := (match req with Some q => sg_Name q | None => "" end, begin_signup true 0 req)]> (dk_signups d))).
Proof. intros Hr Hd. eapply reach_step; [exact Hd|]. by apply d_begin. Defined.

Definition demo_overlap : desk :=
  let d := mkDesk no_users (<[1%nat := (sg_Name demo_bob, begin_signup true 0 (Some demo_bob))]>
    (<[0%nat := (sg_Name demo_ann, begin_signup true 0 (Some demo_ann))]> ∅)) in
  demo_move 1 "u3" (demo_move 0 "u3" (demo_move 1 "u2" (demo_move 0 "u1" (demo_move 1 "x" (demo_move 0 "x" d))))).

Lemma demo_overlap_reachable : reachable (eq new_desk) (desk_step demo_issuer true) demo_overlap.
Proof.
  unfold demo_overlap. do 6 (apply demo_reach_move; [vm_compute; reflexivity|]).
  apply (demo_reach_begin 1 (Some demo_bob) (mkDesk no_users _)); [vm_compute; reflexivity|].
  apply (demo_reach_begin 0 (Some demo_ann) new_desk); [vm_compute; reflexivity|]. by apply reach_init.
Defined.

Example two_first_admins :
  reachable (eq new_desk) (desk_step demo_issuer true) demo_overlap /\
  (u_Role <$> byID (dk_users demo_overlap) !! "u1") = Some "admin" /\ (u_Role <$> byID (dk_users demo_overlap) !! "u2") = Some "admin".
Proof. split; [exact demo_overlap_reachable|]. vm_compute. auto. Qed.

Lemma accounts_are_consistent_witness :
  reachable (eq new_desk) (desk_step demo_issuer true) demo_overlap /\
  (forall u, GetByEmail (dk_users demo_overlap) "ANN@example.org" = Ok (Some u) <->
     byID (dk_users demo_overlap) !! u_ID u = Some u /\ normalised (u_Email u) = normalised "ANN@example.org") /\
  (forall id1 id2 u1 u2, byID (dk_users demo_overlap) !! id1 = Some u1 -> byID (dk_users demo_overlap) !! id2 = Some u2 ->
     normalised (u_Email u1) = normalised (u_Email u2) -> id1 = id2) /\
  (byID (dk_users demo_overlap) = ∅ \/ exists id u, byID (dk_users demo_overlap) !! id = Some u /\ u_Role u = RoleAdmin).
Proof. split; [exact demo_overlap_reachable|]. exact (accounts_are_consistent demo_issuer true demo_overlap "ANN@example.org" demo_overlap_reachable). Defined.

(** *** The middleware *)

Definition demo_verify (v : unit) (now : Z) (raw : string) : option (option oidc_claims) :=
  if raw =s "good" then Some (Some (mkOidc "s1" "s@idp" "Sam" ["cooker-operators"] "mfa" [])) else None.
Definition demo_cfg : OIDCConfig := mkOIDC true "https://idp" "cooker" ∅.
Definition demo_world : world := mkWorld ∅ ∅ [].
Definition demo_middleware : Middleware unit := EnableAPITokens (EnableLocalAuth (Some demo_issuer) (mkMiddleware demo_cfg None false None zero_time 0)).

Example boots :
  boot_middleware (V := unit) demo_cfg true "0123456789abcdef0123456789abcdef" 0 = Some demo_middleware /\
  boot_middleware (V := unit) demo_cfg true "too short" 0 = None /\ boot_middleware (V := unit) (mkOIDC true "" "x" ∅) false "" 0 = None.
Proof. vm_compute. auto. Qed.

Definition demo_session : tokenResponse :=
  mkTokenResponse (Issue demo_issuer demo_now "u2" "bob@example.org" "Bob" "viewer").1 (demo_now + DefaultTokenTTL)
    (mkMe "u2" "bob@example.org" "Bob" "viewer" ["viewer"]).

Lemma demo_signin : Signin demo_issuer demo_users demo_now (Some (mkSignin "Bob@example.org" "password2")) = (200, Some demo_session).
Proof. vm_compute. reflexivity. Qed.

Lemma sessions_work_witness :
  Signin demo_issuer demo_users demo_now (Some (mkSignin "Bob@example.org" "password2")) = (200, Some demo_session) /\
  m_localIssuer demo_middleware = Some demo_issuer /\
  let me := tr_User demo_session in
  let user := Auth.mkClaims (me_ID me) (me_Email me) (me_Name me) [] [me_Role me] "" [] in
  Handler demo_verify demo_middleware demo_world (demo_now + hour) (mkDiscovery 0 0 None) ("Bearer " +:+ tr_Token demo_session) =
    (if demo_now + hour <? NumericDate (tr_ExpiresAt demo_session) * second then Authenticated user else Refused 401 None, demo_middleware, demo_world) /\
  (forall acrs, acrs <> [] -> RequireMFA acrs (Some user) = Forbidden).
Proof.
  split; [exact demo_signin|]. split; [reflexivity|].
  exact (sessions_work demo_verify demo_issuer demo_users demo_now demo_session demo_middleware demo_world (demo_now + hour) (mkDiscovery 0 0 None)
    (or_introl (ex_intro _ _ demo_signin)) eq_refl).
Defined.

Lemma demo_authenticated : Handler demo_verify demo_middleware demo_world 7 (mkDiscovery 1 2 (Some tt)) "bearer good" =
  (Authenticated (Auth.mkClaims "s1" "s@idp" "Sam" ["cooker-operators"] ["operator"] "mfa" []),
   recordJWKSRefresh 7 (with_provider demo_middleware (Some tt) zero_time), demo_world).
Proof. vm_compute. reflexivity. Qed.

Lemma authenticated_by_its_verifier_witness :
  let c := Auth.mkClaims "s1" "s@idp" "Sam" ["cooker-operators"] ["operator"] "mfa" [] in
  (oidc_Enabled (m_cfg demo_middleware) = true \/ is_Some (m_localIssuer demo_middleware)) /\
  exists token, bearerToken "bearer good" = Some token /\
    (LooksLikeAPIToken token = true /\ Authenticate demo_world 7 token = (demo_world, Some c) \/
     (exists i lc, m_localIssuer demo_middleware = Some i /\ signature_ok "HS256" (signingKey i) token = true /\ lc_Issuer lc = IssuerName /\
        (forall e, lc_ExpiresAt lc = Some e -> 7 < e * second) /\ c = local_user lc) \/
     (oidc_Enabled (m_cfg demo_middleware) = true /\ exists v oc,
        (m_verifier demo_middleware = Some v \/ m_verifier demo_middleware = None /\ d_found (mkDiscovery 1 2 (Some tt)) = Some v) /\
        demo_verify v 7 token = Some (Some oc) /\ c = oidc_user (m_cfg demo_middleware) oc)).
Proof.
  split; [by left|].
  exact (authenticated_by_its_verifier demo_verify demo_middleware demo_world 7 (mkDiscovery 1 2 (Some tt)) "bearer good" _ _ _
    (or_introl eq_refl) demo_authenticated).
Defined.

(** A discovery made with the context of a request that is cancelled fails, and shuts
    every user of the provider out for half a minute. *)
Example one_cancelled_request :
  let '(r1, m1, _) := Handler demo_verify demo_middleware demo_world 1 (mkDiscovery 0 second None) "Bearer junk" in
  let '(r2, m2, _) := Handler demo_verify m1 demo_world (30 * second) (mkDiscovery (30 * second) (30 * second) (Some tt)) "Bearer good" in
  let '(r3, _, _) := Handler demo_verify m2 demo_world (31 * second) (mkDiscovery (31 * second) (31 * second) (Some tt)) "Bearer good" in
  (r1, r2) = (Refused 503 (Some 30), Refused 503 (Some 30)) /\ exists c, r3 = Authenticated c.
Proof. vm_compute. eauto. Qed.

Lemma discovery_is_spaced_witness :
  let ds := [mkDiscovery 0 (5 * second) None; mkDiscovery (9 * second) (9 * second) (Some tt);
             mkDiscovery (35 * second) (36 * second) (Some tt); mkDiscovery (99 * second) (99 * second) (Some tt)] in
  asked demo_middleware ds = [mkDiscovery 0 (5 * second) None; mkDiscovery (35 * second) (36 * second) (Some tt)] /\
  d_found (mkDiscovery (V := unit) 0 (5 * second) None) = None /\ 5 * second + providerDiscoveryRetry <= 35 * second.
Proof.
  intros ds. split; [vm_compute; reflexivity|].
  apply (discovery_is_spaced demo_middleware ds 0 (mkDiscovery 0 (5 * second) None) (mkDiscovery (35 * second) (36 * second) (Some tt))).
  - intros d Hd. repeat (apply elem_of_cons in Hd as [->|Hd]; [vm_compute; congruence|]). by apply not_elem_of_nil in Hd.
  - vm_compute. reflexivity.
  - vm_compute. reflexivity.
Defined.

(** Without any authentication configured everybody is the development administrator, but
    for a text of an access token's shape. *)
Example dev_mode :
  let m := EnableAPITokens (mkMiddleware (mkOIDC false "" "" ∅) None false None zero_time 0) in
  (fst (fst (Handler demo_verify m demo_world 0 (mkDiscovery 0 0 None) "")),
   fst (fst (Handler demo_verify m demo_world 0 (mkDiscovery 0 0 None) "Bearer anything")),
   fst (fst (Handler demo_verify m demo_world 0 (mkDiscovery 0 0 None) "Bearer ck_x"))) =
  (Authenticated devUser, Authenticated devUser, Refused 401 None).
Proof. vm_compute. reflexivity. Qed.

(** A key that happens to be base64 of 32 bytes or more is decoded, a shorter one is not. *)
Example signing_keys :
  (String.length <$> DecodeLocalAuthSigningKey " AAECAwQFBgcICQoLDA0ODxAREhMUFRYXGBkaGxwdHh8= ",
   String.length <$> DecodeLocalAuthSigningKey "0123456789abcdef0123456789abcdef", DecodeLocalAuthSigningKey "  ") =
  (Some 32%nat, Some 32%nat, None).
Proof. vm_compute. reflexivity. Qed.
End demo.
