(* ===== verification/GoJson.v ===== *)
(** * Strings and times as [encoding/json] and [time.Format] print them

    [json.Marshal] of a string with HTML escaping, and the layout
    "2006-01-02T15:04:05.000Z07:00" in UTC.  They model the language's library. *)

From Stdlib Require Import Ascii.
From S2P Require Import Prelude GoStr GoTime GoCrypto.
Local Open Scope Z_scope.

Definition byte_chr (b : Z) : string := chr (ascii_of_nat (Z.to_nat b)).
Definition quote : string := byte_chr 34.
Definition backslash : string := byte_chr 92.

(** A byte below [utf8.RuneSelf]. *)
Definition json_ascii (b : Z) : string :=
  if (b =? 34) || (b =? 92) then backslash +:+ byte_chr b
  else if b =? 8 then backslash +:+ "b" else if b =? 12 then backslash +:+ "f" else if b =? 10 then backslash +:+ "n"
  else if b =? 13 then backslash +:+ "r" else if b =? 9 then backslash +:+ "t"
  else if (b <? 32) || (b =? 60) || (b =? 62) || (b =? 38) then backslash +:+ "u00" +:+ hex_digit (b / 16) +:+ hex_digit (b mod 16)
  else byte_chr b.

Fixpoint json_escape (fuel : nat) (s : string) : string :=
  match fuel, s with
  | S fuel, String c s' =>
      let b := byte_of c in
      if b <? 128 then json_ascii b +:+ json_escape fuel s'
      else
        match utf8_lead b with
        | None => backslash +:+ "ufffd" +:+ json_escape fuel s'
        | Some (n, payload, lo, hi) =>
            match utf8_tail n lo hi payload s' with
            | None => backslash +:+ "ufffd" +:+ json_escape fuel s'
            | Some (r, rest) =>
                (if (r =? 8232) || (r =? 8233) then backslash +:+ "u202" +:+ hex_digit (r mod 16)
                 else str_take (str_len s - str_len rest) s) +:+ json_escape fuel rest
            end
        end
  | _, _ => ""
  end.

(** Every round takes at least one byte. *)
Definition json_string (s : string) : string := quote +:+ json_escape (String.length s) s +:+ quote.

(** A number padded with zeros. *)
Definition pad (width : nat) (n : Z) : string :=
  let s := itoa n in String.concat "" (repeat "0" (width - String.length s)) +:+ s.

Definition rfc3339_millis (t : Z) : string :=
  let ls := local_seconds utc t in
  pad 4 (local_year ls) +:+ "-" +:+ pad 2 (local_month ls) +:+ "-" +:+ pad 2 (local_mday ls) +:+ "T" +:+
  pad 2 (local_hour ls) +:+ ":" +:+ pad 2 (local_minute ls) +:+ ":" +:+ pad 2 (local_second ls) +:+ "." +:+
  pad 3 (t mod second / millisecond) +:+ "Z".

Example json_string_ex :
  json_string (of_bytes [60; 97; 34; 10; 226; 130; 172; 226; 128; 168; 255; 127]) =
  quote +:+ "\u003ca\" +:+ quote +:+ "\n" +:+ of_bytes [226; 130; 172] +:+ "\u2028\ufffd" +:+ of_bytes [127] +:+ quote.
Proof. vm_compute. reflexivity. Qed.

Example rfc3339_ex : rfc3339_millis 1709208000123456789 = "2024-02-29T12:00:00.123Z".
Proof. vm_compute. reflexivity. Qed.
