(* ===== verification/Hub.v ===== *)
(** * WebSocket streams: [internal/server/websocket.go], [wshub_backend.go],
      [wshub_logs.go], and [EncodeFrame] of [internal/logstore/logstore.go]

    The hub is one goroutine between a backend that carries broadcasts and the
    connections, each with a buffered channel, a writer and a reader.  Everything
    interleaves: the hub's sends, the pumps, the replay of a stage's log, the
    publishers and the writers of log lines.  The backend is a class with two
    instances, the in-process channel and Redis, whose broker is not modelled: it
    may deliver any payload at any time. *)

From Stdlib Require Import Ascii.
From S2P Require Import Prelude GoStr GoTime GoJson LogStore.
Local Open Scope Z_scope.

Record BroadcastMessage := mkMsg { bm_Channel : string; bm_Data : string }.

#[export] Instance BroadcastMessage_eq_dec : EqDecision BroadcastMessage.
Proof. solve_decision. Defined.

(** ** The wire format between replicas *)

Inductive hub_error := ChannelTooLong | PayloadTooShort | PayloadTruncated | RedisUnreachable.

Definition broadcastChannelLenBytes : Z := 2.

(** [binary.BigEndian.PutUint16] and [Uint16]. *)
Definition PutUint16 (n : Z) : string := byte_chr (n / 256) +:+ byte_chr (n mod 256).
Definition Uint16 (s : string) : Z :=
  match s with String a (String b _) => byte_of a * 256 + byte_of b | _ => 0 end.

Definition encodeBroadcast (msg : BroadcastMessage) : result hub_error string :=
  if 65535 <? str_len (bm_Channel msg) then Err ChannelTooLong
  else Ok (PutUint16 (str_len (bm_Channel msg)) +:+ bm_Channel msg +:+ bm_Data msg).

Definition decodeBroadcast (payload : string) : result hub_error BroadcastMessage :=
  if str_len payload <? broadcastChannelLenBytes then Err PayloadTooShort else
  let chLen := Uint16 payload in
  if str_len payload <? broadcastChannelLenBytes + chLen then Err PayloadTruncated else
  let rest := str_drop broadcastChannelLenBytes payload in
  Ok (mkMsg (str_take chLen rest) (str_drop chLen rest)).

(** ** Backends *)

(** What a publisher observes: the message is on its way, it is dropped because the
    channel is full, an error, or a panic (a send on a closed channel). *)
Inductive outcome := Accepted | Dropped | Failed (e : hub_error) | Panics.

(** What the hub's receive from [Subscribe()] finds. *)
Inductive receipt (B : Type) := Nothing | Message (msg : BroadcastMessage) (b : B) | Closed.
Arguments Nothing {B}.
Arguments Message {B} msg b.
Arguments Closed {B}.

(** [HubBackend]; [background] is the backend's own goroutine and what it meets. *)
Class HubBackend (B : Type) := {
  New : B;
  Publish : B -> BroadcastMessage -> outcome -> B -> Prop;
  Receive : B -> receipt B;
  Close : B -> B;
  background : B -> B -> Prop
}.

(** The promise of [Subscribe]: its channel closes only when [Close] is called. *)
Class HubBackendLaws (B : Type) `{HubBackend B} := {
  opened : B -> Prop;
  New_opened : opened New;
  Publish_opened b msg o b' : opened b -> Publish b msg o b' -> opened b' /\ o <> Panics;
  Receive_opened b : opened b -> match Receive b with Nothing => True | Message _ b' => opened b' | Closed => False end;
  background_opened b b' : opened b -> background b b' -> opened b';
  buffered : B -> nat;
  Receive_buffered b : match Receive b with Message _ b' => S (buffered b') = buffered b | _ => buffered b = O end
}.

Definition channelCapacity : Z := 256.

(** *** [memoryHubBackend] *)

Record memoryHubBackend := mkMemoryBackend { mb_ch : list BroadcastMessage; mb_closed : bool }.

Definition memory_publish (b : memoryHubBackend) (msg : BroadcastMessage) : outcome * memoryHubBackend :=
  if mb_closed b then (Panics, b)
  else if Z.of_nat (length (mb_ch b)) <? channelCapacity then (Accepted, mkMemoryBackend (mb_ch b ++ [msg]) false)
  else (Dropped, b).

(** A closed channel still yields what it buffers. *)
Definition memory_receive (b : memoryHubBackend) : receipt memoryHubBackend :=
  match mb_ch b with
  | msg :: ch => Message msg (mkMemoryBackend ch (mb_closed b))
  | [] => if mb_closed b then Closed else Nothing
  end.

#[export] Instance memory_backend : HubBackend memoryHubBackend := {|
  New := mkMemoryBackend [] false;
  Publish b msg o b' := memory_publish b msg = (o, b');
  Receive := memory_receive;
  Close b := mkMemoryBackend (mb_ch b) true;
  background _ _ := False
|}.

#[export] Instance memory_backend_laws : HubBackendLaws memoryHubBackend.
Proof.
  refine {| opened b := mb_closed b = false; buffered b := length (mb_ch b) |}; cbn.
  - done.
  - intros b msg o b' Hb. unfold memory_publish. rewrite Hb. case_match; intros [= <- <-]; done.
  - intros b Hb. unfold memory_receive. destruct (mb_ch b); cbn; by rewrite Hb.
  - done.
  - intros b. unfold memory_receive. by destruct (mb_ch b); [destruct (mb_closed b)|].
Defined.

(** *** [redisHubBackend] *)

Definition redisHubInitialBackoff : Z := 500 * millisecond.
Definition redisHubMaxBackoff : Z := 30 * second.

(** [math.MaxInt64] is far from twice the maximum. *)
Definition nextBackoff (d max : Z) : Z := if max <? d * 2 then max else d * 2.

(** [secureJitter] for a draw of 63 random bits or less, and the sleep it gives. *)
Definition secureJitter (d draw : Z) : Z := if d <=? 0 then 0 else draw mod (d / 2 + 1).
Definition jittered (d draw : Z) : Z := d + secureJitter d draw.

(** Where [consume] is: about to subscribe, reading a subscription, asleep for so
    long, or returned. *)
Inductive consumer := Subscribing | Draining | Sleeping (d : Z) | Returned.

(** [rb_delay] is the delay of the next failure. *)
Record redisHubBackend := mkRedisBackend {
  rb_ch : list BroadcastMessage; rb_closed : bool; rb_cancelled : bool; rb_at : consumer; rb_delay : Z
}.

Definition set_consumer (b : redisHubBackend) (at' : consumer) (delay : Z) : redisHubBackend :=
  mkRedisBackend (rb_ch b) (rb_closed b) (rb_cancelled b) at' delay.

(** One decoded message of [drain]: kept unless the channel is full. *)
Definition drain_one (b : redisHubBackend) (payload : string) : redisHubBackend :=
  match decodeBroadcast payload with
  | Err _ => b
  | Ok msg =>
      if Z.of_nat (length (rb_ch b)) <? channelCapacity
      then mkRedisBackend (rb_ch b ++ [msg]) (rb_closed b) (rb_cancelled b) (rb_at b) (rb_delay b) else b
  end.

Definition redis_receive (b : redisHubBackend) : receipt redisHubBackend :=
  match rb_ch b with
  | msg :: ch => Message msg (mkRedisBackend ch (rb_closed b) (rb_cancelled b) (rb_at b) (rb_delay b))
  | [] => if rb_closed b then Closed else Nothing
  end.

(** The goroutine, under whatever the broker does.  [consume] returns, and its defer
    closes the channel, only where it finds the context cancelled. *)
Inductive consume : redisHubBackend -> redisHubBackend -> Prop :=
| consume_subscribed b : rb_at b = Subscribing ->
    consume b (set_consumer b Draining redisHubInitialBackoff)
| consume_refused b draw : rb_at b = Subscribing -> rb_cancelled b = false ->
    consume b (set_consumer b (Sleeping (jittered (rb_delay b) draw)) (nextBackoff (rb_delay b) redisHubMaxBackoff))
| consume_message b payload : rb_at b = Draining -> consume b (drain_one b payload)
| consume_lost b draw : rb_at b = Draining -> rb_cancelled b = false ->
    consume b (set_consumer b (Sleeping (jittered (rb_delay b) draw)) (nextBackoff (rb_delay b) redisHubMaxBackoff))
| consume_awake b d : rb_at b = Sleeping d -> consume b (set_consumer b Subscribing (rb_delay b))
| consume_cancelled b : rb_cancelled b = true -> rb_at b <> Returned ->
    consume b (mkRedisBackend (rb_ch b) true true Returned (rb_delay b)).

(** The state [newRedisHubBackend] returns when the broker answered; a publish fails
    when the channel name is too long or the broker does not take it. *)
#[export] Instance redis_backend : HubBackend redisHubBackend := {|
  New := mkRedisBackend [] false false Subscribing redisHubInitialBackoff;
  Publish b msg o b' :=
    b' = b /\ match encodeBroadcast msg with Err e => o = Failed e | Ok _ => o = Accepted \/ o = Failed RedisUnreachable end;
  Receive := redis_receive;
  Close b := mkRedisBackend (rb_ch b) (rb_closed b) true (rb_at b) (rb_delay b);
  background := consume
|}.

#[export] Instance redis_backend_laws : HubBackendLaws redisHubBackend.
Proof.
  refine {| opened b := rb_closed b = false /\ rb_cancelled b = false; buffered b := length (rb_ch b) |}; cbn.
  - done.
  - intros b msg o b' Hb [-> Ho]. split; [done|]. destruct (encodeBroadcast msg); [by destruct Ho; subst o|by subst o].
  - intros b [Hc Hx]. unfold redis_receive. destruct (rb_ch b); cbn; by rewrite ?Hc.
  - intros b b' [Hc Hx] Hs. inversion Hs; subst; cbn; try done; [|congruence].
    unfold drain_one. repeat case_match; done.
  - intros b. unfold redis_receive. by destruct (rb_ch b); [destruct (rb_closed b)|].
Defined.

(** ** Frames of stage logs *)

Definition json_field (key value : string) : string := json_string key +:+ ":" +:+ value.

Definition EncodeFrame (runID stageID : string) (e : Entry) : string :=
  "{" +:+ json_field "runId" (json_string runID) +:+ "," +:+ json_field "stageId" (json_string stageID) +:+ "," +:+
  json_field "seq" (itoa (en_Seq e)) +:+ "," +:+ json_field "ts" (json_string (rfc3339_millis (en_TS e))) +:+ "," +:+
  json_field "line" (json_string (en_Line e)) +:+ "}".

Definition stageLogChannel (runID stageID : string) : string := "stage-logs:" +:+ runID +:+ ":" +:+ stageID.

(** ** Who may connect *)

Definition originSet (allowed : list string) : bool * gset string :=
  if decide (allowed = ["*"]) then (true, ∅) else (false, list_to_set (filter (fun o => o <> "") allowed)).

(** The upgrader's [CheckOrigin]; [origin] is the header, empty when absent. *)
Definition CheckOrigin (allowed : list string) (origin : string) : bool :=
  let '(allowAll, set) := originSet allowed in
  allowAll || (negb (origin =s "") && bool_decide (origin ∈ set)).

(** What a connection asks for: the events of a channel ([HandlePipelineRun] and the
    like), or a stage's log from a cursor ([HandleStageLogs]). *)
Inductive request :=
| PipelineRun (runID : string) | DockerBuild (buildID : string) | KubeWatch (namespace resource : string)
| AppRun (runID : string) | RuntimeLogs (appID serviceID : string) | StageLogs (runID stageID since : string).

Definition channelOf (r : request) : string :=
  match r with
  | PipelineRun runID => "pipeline-run:" +:+ runID
  | DockerBuild buildID => "docker-build:" +:+ buildID
  | KubeWatch namespace resource => "kube-watch:" +:+ namespace +:+ ":" +:+ resource
  | AppRun runID => "app-run:" +:+ runID
  | RuntimeLogs appID serviceID => "runtime-logs:" +:+ appID +:+ ":" +:+ serviceID
  | StageLogs runID stageID _ => stageLogChannel runID stageID
  end.

(** The cursor: anything but a positive number is the start. *)
Definition sinceOf (raw : string) : Z :=
  match atoi raw with Some n => if 0 <? n then n else 0 | None => 0 end.

(** ** Connections *)

(** What is written to a connection.  [StreamTruncated] is the text message
    [{"control":"stream-truncated"}]. *)
Inductive frame := Backlog (data : string) | Text (data : string) | StreamTruncated | CloseMessage | Ping.

(** The goroutine of the request, the writer and the reader.  [Replaying None] has not
    read the log yet; [Writing] holds a message it took from [send]. *)
Inductive handler_at := Registering | Replaying (rest : option (list string)) | LeavingEarly | HandlerDone.
Inductive writer_at := NotStarted | Waiting | Writing (data : string) | WriterDone.
Inductive reader_at := NotReading | Reading | Unregistering | ReaderDone.

(** A [Client] with its goroutines.  Not in the code, for the theorems: [c_wire] is
    what was written to the connection; [c_joined] how many messages the hub had taken,
    and [c_logged] how many lines had been appended, when it registered; [c_got] is what
    its writer has received from [send]; [c_read] what the log store answered. *)
Record Client := mkClient {
  c_request : request; c_send : list string; c_closed : bool; c_truncated : bool;
  c_handler : handler_at; c_writer : writer_at; c_reader : reader_at;
  c_wire : list frame; c_joined : nat; c_logged : nat; c_got : list string; c_read : option (list Entry)
}.

Definition newClient (r : request) : Client :=
  mkClient r [] false false Registering NotStarted NotReading [] 0 0 [] None.

Definition c_channel (c : Client) : string := channelOf (c_request c).

Definition sendCapacity : Z := 256.

Definition set_goroutines (c : Client) (h : handler_at) (w : writer_at) (r : reader_at) : Client :=
  mkClient (c_request c) (c_send c) (c_closed c) (c_truncated c) h w r (c_wire c) (c_joined c) (c_logged c) (c_got c) (c_read c).
Definition set_send (c : Client) (send : list string) (closed truncated : bool) : Client :=
  mkClient (c_request c) send closed truncated (c_handler c) (c_writer c) (c_reader c) (c_wire c) (c_joined c) (c_logged c)
    (c_got c) (c_read c).
Definition write (c : Client) (fs : list frame) : Client :=
  mkClient (c_request c) (c_send c) (c_closed c) (c_truncated c) (c_handler c) (c_writer c) (c_reader c) (c_wire c ++ fs)
    (c_joined c) (c_logged c) (c_got c) (c_read c).

(** [closeSend], at most once. *)
Definition closeSend (c : Client) : Client := set_send c (c_send c) true (c_truncated c).

(** [go client.writePump(); go client.readPump()]. *)
Definition start_pumps (c : Client) : Client := set_goroutines c HandlerDone Waiting Reading.

(** The hub took the client from [register]: a stage's log is replayed first, when
    there is a log store. *)
Definition joined (c : Client) (taken logged : nat) (replay : bool) : Client :=
  let c := mkClient (c_request c) (c_send c) (c_closed c) (c_truncated c) (c_handler c) (c_writer c) (c_reader c) (c_wire c)
             taken logged (c_got c) (c_read c) in
  match c_request c with
  | StageLogs _ _ _ => if replay then set_goroutines c (Replaying None) NotStarted NotReading else start_pumps c
  | _ => start_pumps c
  end.

(** [h.logStore.Read]: the backlog. *)
Definition read_backlog (c : Client) (logs : Memory) : Client :=
  match c_request c with
  | StageLogs runID stageID since =>
      let entries := Read logs runID stageID (sinceOf since) in
      mkClient (c_request c) (c_send c) (c_closed c) (c_truncated c) (Replaying (Some (EncodeFrame runID stageID <$> entries)))
        (c_writer c) (c_reader c) (c_wire c) (c_joined c) (c_logged c) (c_got c) (Some entries)
  | _ => c
  end.

(** [case msg, ok := <-c.send] with a message. *)
Definition receive_send (c : Client) (data : string) (send : list string) : Client :=
  mkClient (c_request c) send (c_closed c) (c_truncated c) (c_handler c) (Writing data) (c_reader c) (c_wire c) (c_joined c)
    (c_logged c) (c_got c ++ [data]) (c_read c).

(** The same on a closed channel: the control frame after a drop, then the close
    message; [ok1] and [ok2] tell which of the writes went through. *)
Definition finish_writer (c : Client) (ok1 ok2 : bool) : Client :=
  write (set_goroutines c (c_handler c) WriterDone (c_reader c))
    ((if c_truncated c && ok1 then [StreamTruncated] else []) ++ (if ok2 then [CloseMessage] else [])).

(** ** The hub *)

(** Where [Run] is: at its select, in the pass over the clients of a channel, in the
    removal of those it could not send to, or returned. *)
Inductive loop :=
| Selecting | Sending (msg : BroadcastMessage) (todo dropped : list nat) | Dropping (msg : BroadcastMessage) (dropped : list nat) | Ended.

(** [h_taken] is what the hub has received from the backend, [h_hist] the lines
    appended to the log store, [h_sent] the accepted broadcasts, [h_refused] the others;
    [h_pending] is the line a stage's writer has appended and not yet broadcast. *)
Record WebSocketHub (B : Type) := mkHub {
  h_backend : B; h_clients : gmap string (gset nat); h_conns : gmap nat Client; h_loop : loop; h_panicked : bool;
  h_taken : list BroadcastMessage; h_sent : list BroadcastMessage; h_refused : list BroadcastMessage;
  h_logs : option Memory; h_hist : history; h_pending : gmap (string * string) Entry; h_closed : bool
}.
Arguments mkHub {B}.
Arguments h_backend {B}. Arguments h_clients {B}. Arguments h_conns {B}. Arguments h_loop {B}. Arguments h_panicked {B}.
Arguments h_taken {B}. Arguments h_sent {B}. Arguments h_refused {B}. Arguments h_logs {B}. Arguments h_hist {B}.
Arguments h_pending {B}. Arguments h_closed {B}.

Section hub.
Context {B : Type} `{HubBackend B}.
Variable allowedOrigins : list string.
Implicit Types (h : WebSocketHub B) (c : Client).

(** [NewWebSocketHubWithBackend] and [SetLogStore]. *)
Definition NewWebSocketHub (logs : option Memory) : WebSocketHub B :=
  mkHub New ∅ ∅ Selecting false [] [] [] logs [] ∅ false.

Definition set_hub h (clients : gmap string (gset nat)) (conns : gmap nat Client) (l : loop) : WebSocketHub B :=
  mkHub (h_backend h) clients conns l (h_panicked h) (h_taken h) (h_sent h) (h_refused h) (h_logs h) (h_hist h) (h_pending h) (h_closed h).
Definition set_conn h (i : nat) c : WebSocketHub B := set_hub h (h_clients h) (<[i := c]> (h_conns h)) (h_loop h).
Definition set_loop h (l : loop) : WebSocketHub B := set_hub h (h_clients h) (h_conns h) l.
Definition set_backend h (b : B) : WebSocketHub B :=
  mkHub b (h_clients h) (h_conns h) (h_loop h) (h_panicked h) (h_taken h) (h_sent h) (h_refused h) (h_logs h) (h_hist h) (h_pending h) (h_closed h).

Definition members h (channel : string) : gset nat := default ∅ (h_clients h !! channel).

(** [case client := <-h.register]; an empty set of clients stays in the map. *)
Definition register h (i : nat) c : WebSocketHub B :=
  set_hub h (<[c_channel c := {[i]} ∪ members h (c_channel c)]> (h_clients h))
    (<[i := joined c (length (h_taken h)) (length (h_hist h)) (bool_decide (is_Some (h_logs h)))]> (h_conns h)) Selecting.

(** [case client := <-h.unregister], handed over by the reader or by a failed replay. *)
Definition unregister h (i : nat) c : WebSocketHub B :=
  let left' := if bool_decide (i ∈ members h (c_channel c)) then closeSend c else c in
  set_hub h (alter (fun s => s ∖ {[i]}) (c_channel c) (h_clients h))
    (<[i := match c_reader c with
            | Unregistering => set_goroutines left' (c_handler c) (c_writer c) ReaderDone
            | _ => set_goroutines left' HandlerDone (c_writer c) (c_reader c)
            end]> (h_conns h)) Selecting.

(** [case msg := <-inbox]: the clients of its channel, in the order of the map's range. *)
Definition take_message h (msg : BroadcastMessage) (b : B) (order : list nat) : WebSocketHub B :=
  mkHub b (h_clients h) (h_conns h) (Sending msg order []) (h_panicked h) (h_taken h ++ [msg]) (h_sent h) (h_refused h)
    (h_logs h) (h_hist h) (h_pending h) (h_closed h).

(** [select { case client.send <- msg.Data: default: ... }]. *)
Definition send_to h (msg : BroadcastMessage) (i : nat) c (todo dropped : list nat) : WebSocketHub B :=
  if c_closed c then
    mkHub (h_backend h) (h_clients h) (h_conns h) Ended true (h_taken h) (h_sent h) (h_refused h) (h_logs h) (h_hist h)
      (h_pending h) (h_closed h)
  else if Z.of_nat (length (c_send c)) <? sendCapacity then
    set_hub h (h_clients h) (<[i := set_send c (c_send c ++ [bm_Data msg]) false (c_truncated c)]> (h_conns h)) (Sending msg todo dropped)
  else set_loop h (Sending msg todo (dropped ++ [i])).

(** The second pass, under the write lock. *)
Definition drop_client h (msg : BroadcastMessage) (i : nat) c (rest : list nat) : WebSocketHub B :=
  set_hub h (alter (fun s => s ∖ {[i]}) (bm_Channel msg) (h_clients h))
    (<[i := closeSend (set_send c (c_send c) (c_closed c) true)]> (h_conns h)) (Dropping msg rest).

(** [Broadcast]. *)
Definition broadcast h (msg : BroadcastMessage) (o : outcome) (b : B) : WebSocketHub B :=
  mkHub b (h_clients h) (h_conns h) (h_loop h) (h_panicked h) (h_taken h)
    (match o with Accepted => h_sent h ++ [msg] | _ => h_sent h end) (match o with Accepted => h_refused h | _ => h_refused h ++ [msg] end)
    (h_logs h) (h_hist h) (h_pending h) (h_closed h).

(** A line writer's [emit]: the store first, then the broadcast. *)
Definition append_line h (runID stageID : string) (e : Entry) : WebSocketHub B :=
  mkHub (h_backend h) (h_clients h) (h_conns h) (h_loop h) (h_panicked h) (h_taken h) (h_sent h) (h_refused h)
    ((fun m => Append m runID stageID e) <$> h_logs h) (h_hist h ++ [(runID, stageID, e)]) (<[(runID, stageID) := e]> (h_pending h)) (h_closed h).

Definition frame_message (runID stageID : string) (e : Entry) : BroadcastMessage :=
  mkMsg (StageLogChannel runID stageID) (EncodeFrame runID stageID e).

Definition broadcast_line h (runID stageID : string) (e : Entry) (o : outcome) (b : B) : WebSocketHub B :=
  let h := broadcast h (frame_message runID stageID e) o b in
  mkHub (h_backend h) (h_clients h) (h_conns h) (h_loop h) (h_panicked h) (h_taken h) (h_sent h) (h_refused h) (h_logs h) (h_hist h)
    (delete (runID, stageID) (h_pending h)) (h_closed h).

(** The hub's own steps and those of the writers: what goes on without anyone asking. *)
Inductive internal h : WebSocketHub B -> Prop :=
| i_take msg b order : h_loop h = Selecting -> Receive (h_backend h) = Message msg b ->
    order ≡ₚ elements (members h (bm_Channel msg)) -> internal h (take_message h msg b order)
| i_send msg i c todo dropped : h_loop h = Sending msg (i :: todo) dropped -> h_conns h !! i = Some c ->
    internal h (send_to h msg i c todo dropped)
| i_sent msg dropped : h_loop h = Sending msg [] dropped ->
    internal h (set_loop h (match dropped with [] => Selecting | _ => Dropping msg dropped end))
| i_drop msg i c rest : h_loop h = Dropping msg (i :: rest) -> h_conns h !! i = Some c ->
    internal h (drop_client h msg i c rest)
| i_dropped msg : h_loop h = Dropping msg [] -> internal h (set_loop h Selecting)
| i_receive i c data send : h_conns h !! i = Some c -> c_writer c = Waiting -> c_send c = data :: send ->
    internal h (set_conn h i (receive_send c data send))
| i_write i c data : h_conns h !! i = Some c -> c_writer c = Writing data ->
    internal h (set_conn h i (write (set_goroutines c (c_handler c) Waiting (c_reader c)) [Text data]))
| i_finish i c ok1 ok2 : h_conns h !! i = Some c -> c_writer c = Waiting -> c_send c = [] -> c_closed c = true ->
    internal h (set_conn h i (finish_writer c ok1 ok2)).

(** Everything else: connections and their failures, replays, publishers, the backend. *)
Inductive external h : WebSocketHub B -> Prop :=
| e_connect i r origin : h_conns h !! i = None -> CheckOrigin allowedOrigins origin = true -> external h (set_conn h i (newClient r))
| e_register i c : h_loop h = Selecting -> h_conns h !! i = Some c -> c_handler c = Registering -> external h (register h i c)
| e_unregister i c : h_loop h = Selecting -> h_conns h !! i = Some c -> c_reader c = Unregistering \/ c_handler c = LeavingEarly ->
    external h (unregister h i c)
| e_ended : h_loop h = Selecting -> Receive (h_backend h) = Closed -> external h (set_loop h Ended)
| e_read i c m : h_conns h !! i = Some c -> c_handler c = Replaying None -> h_logs h = Some m -> external h (set_conn h i (read_backlog c m))
| e_replay i c data rest : h_conns h !! i = Some c -> c_handler c = Replaying (Some (data :: rest)) ->
    external h (set_conn h i (write (set_goroutines c (Replaying (Some rest)) NotStarted NotReading) [Backlog data]))
| e_replay_failed i c data rest : h_conns h !! i = Some c -> c_handler c = Replaying (Some (data :: rest)) ->
    external h (set_conn h i (set_goroutines c LeavingEarly NotStarted NotReading))
| e_replayed i c : h_conns h !! i = Some c -> c_handler c = Replaying (Some []) -> external h (set_conn h i (start_pumps c))
| e_write_failed i c data : h_conns h !! i = Some c -> c_writer c = Writing data ->
    external h (set_conn h i (set_goroutines c (c_handler c) WriterDone (c_reader c)))
| e_ping i c (ok : bool) : h_conns h !! i = Some c -> c_writer c = Waiting ->
    external h (set_conn h i (if ok then write c [Ping] else set_goroutines c (c_handler c) WriterDone (c_reader c)))
| e_hang_up i c : h_conns h !! i = Some c -> c_reader c = Reading ->
    external h (set_conn h i (set_goroutines c (c_handler c) (c_writer c) Unregistering))
| e_broadcast msg o b : Publish (h_backend h) msg o b -> external h (broadcast h msg o b)
| e_append runID stageID e : h_pending h !! (runID, stageID) = None -> external h (append_line h runID stageID e)
| e_line runID stageID e o b : h_pending h !! (runID, stageID) = Some e ->
    Publish (h_backend h) (frame_message runID stageID e) o b -> external h (broadcast_line h runID stageID e o b)
| e_background b : background (h_backend h) b -> external h (set_backend h b)
| e_close : external h
    (mkHub (Close (h_backend h)) (h_clients h) (h_conns h) (h_loop h) (h_panicked h) (h_taken h) (h_sent h) (h_refused h)
       (h_logs h) (h_hist h) (h_pending h) true).

Definition hstep h h' : Prop := internal h h' \/ external h h'.

Definition served (logs : option Memory) : WebSocketHub B -> Prop := reachable (fun h => h = NewWebSocketHub logs) hstep.
End hub.

(** ** What a connection has been given *)

Definition text_of (f : frame) : option string := match f with Text data => Some data | _ => None end.

(** The live messages on the connection, in order. *)
Definition texts (c : Client) : list string := omap text_of (c_wire c).

(** The data of a channel's messages. *)
Definition datas (channel : string) (msgs : list BroadcastMessage) : list string :=
  bm_Data <$> filter (fun msg => bm_Channel msg = channel) msgs.

(** What the hub has received for a client since it registered. *)
Definition offered {B} (h : WebSocketHub B) (c : Client) : list string := datas (c_channel c) (drop (c_joined c) (h_taken h)).

(** A client that went away by itself and was unregistered. *)
Definition gone (c : Client) : bool :=
  match c_reader c, c_handler c, c_writer c with
  | ReaderDone, _, _ => true
  | _, HandlerDone, NotStarted => true
  | _, _, _ => false
  end.

(** The clients a broadcast still owes its message, or will drop for it. *)
Definition owed (l : loop) : list nat :=
  match l with Sending _ todo dropped => todo ++ dropped | Dropping _ dropped => dropped | _ => [] end.
Definition in_hand (l : loop) : list string :=
  match l with Sending msg _ _ | Dropping msg _ => [bm_Data msg] | _ => [] end.

Lemma datas_app channel a b : datas channel (a ++ b) = datas channel a ++ datas channel b.
Proof. unfold datas. by rewrite filter_app, fmap_app. Qed.

Lemma datas_one channel msg : datas channel [msg] = if decide (bm_Channel msg = channel) then [bm_Data msg] else [].
Proof. unfold datas. cbn. by destruct (decide _). Qed.

(** The goroutines of a connection, and what they have written of what they got. *)
Record goroutines_ok (c : Client) : Prop := {
  go_early : c_handler c <> HandlerDone -> c_writer c = NotStarted /\ c_reader c = NotReading;
  go_started : c_handler c = HandlerDone -> c_reader c = NotReading -> c_writer c = NotStarted;
  go_texts : match c_writer c with
             | Writing data => c_got c = texts c ++ [data]
             | WriterDone => texts c `prefix_of` c_got c
             | _ => c_got c = texts c
             end;
  go_truncated : c_truncated c = true -> c_closed c = true;
  go_end f : f ∈ c_wire c -> f = StreamTruncated \/ f = CloseMessage ->
    c_writer c = WriterDone /\ c_closed c = true /\ c_send c = [] /\ texts c = c_got c /\ (f = StreamTruncated -> c_truncated c = true)
}.

(** A registered connection: [given] is what the hub received for it, [mem] whether it
    is in the map of clients, [missing] what it is about to be sent. *)
Record conn_ok (given : list string) (mem : bool) (missing : list string) (c : Client) : Prop := {
  co_goroutines : goroutines_ok c;
  co_member : mem = true -> given = c_got c ++ c_send c ++ missing /\ c_closed c = false /\ gone c = false;
  co_left : mem = false -> (c_got c ++ c_send c) `prefix_of` given /\ (c_truncated c = false -> gone c = true)
}.

Definition client_ok {B} (h : WebSocketHub B) (i : nat) (c : Client) : Prop :=
  match c_handler c with
  | Registering => c = newClient (c_request c) /\ i ∉ members h (c_channel c)
  | _ => conn_ok (offered h c) (bool_decide (i ∈ members h (c_channel c)))
           (if bool_decide (i ∈ owed (h_loop h)) then in_hand (h_loop h) else []) c /\ (c_joined c <= length (h_taken h))%nat
  end.

(** What each goroutine does keeps [goroutines_ok]. *)
Lemma newClient_goroutines r : goroutines_ok (newClient r).
Proof. split; cbn; try done. intros f Hf. by apply not_elem_of_nil in Hf. Qed.

Lemma texts_write c fs : texts (write c fs) = texts c ++ omap text_of fs.
Proof. unfold texts, write. cbn. apply omap_app. Qed.

(** A step of a connection's own goroutines: what it was given and where it stands with
    the hub stay. *)
Record local_step (c c' : Client) : Prop := {
  ls_request : c_request c' = c_request c;
  ls_joined : c_joined c' = c_joined c;
  ls_registered : c_handler c' <> Registering;
  ls_closed : c_closed c' = c_closed c;
  ls_truncated : c_truncated c' = c_truncated c;
  ls_stream : c_got c' ++ c_send c' = c_got c ++ c_send c;
  ls_gone : gone c' = gone c;
  ls_goroutines : goroutines_ok c -> goroutines_ok c'
}.

Lemma conn_ok_local given mem missing c c' : local_step c c' -> conn_ok given mem missing c -> conn_ok given mem missing c'.
Proof.
  intros Hl [Hg Hm Hn]. split; [by apply (ls_goroutines _ _ Hl)| |].
  - intros Hmem. destruct (Hm Hmem) as (-> & ? & ?). rewrite (ls_closed _ _ Hl), (ls_gone _ _ Hl).
    by rewrite !(assoc_L (++)), (ls_stream _ _ Hl).
  - intros Hmem. destruct (Hn Hmem) as [? ?]. by rewrite (ls_stream _ _ Hl), (ls_truncated _ _ Hl), (ls_gone _ _ Hl).
Qed.

(** Before the writer has returned nothing was closed on the connection. *)
Lemma running_end c f : goroutines_ok c -> c_writer c <> WriterDone -> f ∈ c_wire c -> ~ (f = StreamTruncated \/ f = CloseMessage).
Proof. intros Hg Hw Hf He. by destruct (go_end _ Hg f Hf He) as [? _]. Qed.

Lemma receive_local c data send : c_handler c <> Registering -> c_writer c = Waiting -> c_send c = data :: send ->
  local_step c (receive_send c data send).
Proof.
  intros Hh Hw Hs. split; try done; cbn.
  - by rewrite Hs, <- (assoc_L (++)).
  - unfold gone. cbn. by rewrite Hw.
  - intros Hg. split; cbn.
    + intros Hd. destruct (go_early _ Hg Hd); congruence.
    + intros Hd Hr. pose proof (go_started _ Hg Hd Hr). congruence.
    + pose proof (go_texts _ Hg) as Ht. rewrite Hw in Ht. by rewrite Ht.
    + apply Hg.
    + intros f Hf He. edestruct running_end; [exact Hg| |exact Hf|exact He]. by rewrite Hw.
Qed.

Lemma write_local c data : c_handler c <> Registering -> c_writer c = Writing data ->
  local_step c (write (set_goroutines c (c_handler c) Waiting (c_reader c)) [Text data]).
Proof.
  intros Hh Hw. split; try done; cbn.
  - unfold gone. cbn. by rewrite Hw.
  - intros Hg. split; cbn.
    + intros Hd. destruct (go_early _ Hg Hd); congruence.
    + intros Hd Hr. pose proof (go_started _ Hg Hd Hr). congruence.
    + pose proof (go_texts _ Hg) as Ht. rewrite Hw in Ht. rewrite Ht. unfold texts. cbn. by rewrite omap_app.
    + apply Hg.
    + intros f Hf He. apply elem_of_app in Hf as [Hf|Hf%list_elem_of_singleton]; [|by destruct He; subst].
      edestruct running_end; [exact Hg| |exact Hf|exact He]. by rewrite Hw.
Qed.

Lemma ping_local c : c_handler c <> Registering -> c_writer c = Waiting -> local_step c (write c [Ping]).
Proof.
  intros Hh Hw. split; try done; cbn. intros Hg. split; cbn; [apply Hg..| |apply Hg|].
  - pose proof (go_texts _ Hg) as Ht. rewrite Hw in *. rewrite Ht. unfold texts. cbn. by rewrite omap_app, app_nil_r.
  - intros f Hf He. apply elem_of_app in Hf as [Hf|Hf%list_elem_of_singleton]; [|by destruct He; subst].
    edestruct running_end; [exact Hg| |exact Hf|exact He]. by rewrite Hw.
Qed.

(** The writer gives up. *)
Lemma give_up_local c : c_handler c <> Registering -> (c_writer c = Waiting \/ exists data, c_writer c = Writing data) ->
  local_step c (set_goroutines c (c_handler c) WriterDone (c_reader c)).
Proof.
  intros Hh Hw. assert (c_writer c <> NotStarted) as Hns by (by destruct Hw as [->|[? ->]]).
  split; try done; cbn.
  - unfold gone. cbn. by destruct Hw as [->|[? ->]].
  - intros Hg. split; cbn.
    + intros Hd. by destruct (go_early _ Hg Hd).
    + intros Hd Hr. by pose proof (go_started _ Hg Hd Hr).
    + pose proof (go_texts _ Hg) as Ht. change (texts _) with (texts c).
      destruct Hw as [Hw|[? Hw]]; rewrite Hw in Ht; rewrite Ht; [done|by eexists].
    + apply Hg.
    + intros f Hf He. edestruct running_end; [exact Hg| |exact Hf|exact He]. by destruct Hw as [->|[? ->]].
Qed.

Lemma finish_local c ok1 ok2 : c_handler c <> Registering -> c_writer c = Waiting -> c_send c = [] -> c_closed c = true ->
  local_step c (finish_writer c ok1 ok2).
Proof.
  intros Hh Hw Hs Hc. split; try done; cbn.
  - unfold gone. cbn. by rewrite Hw.
  - intros Hg. pose proof (go_texts _ Hg) as Ht. rewrite Hw in Ht.
    assert (texts (finish_writer c ok1 ok2) = texts c) as Htx.
    { unfold finish_writer. rewrite texts_write. change (texts (set_goroutines _ _ _ _)) with (texts c).
      destruct (c_truncated c), ok1, ok2; cbn; by rewrite ?app_nil_r. }
    split; cbn.
    + intros Hd. destruct (go_early _ Hg Hd); congruence.
    + intros Hd Hr. pose proof (go_started _ Hg Hd Hr). congruence.
    + unfold texts in *. cbn in *. rewrite Htx, Ht. done.
    + apply Hg.
    + intros f Hf He. split_and!; [done|done|done|unfold texts in *; cbn in *; by rewrite Htx|]. intros ->.
      apply elem_of_app in Hf as [Hf|Hf]; [edestruct running_end; [exact Hg| |exact Hf|by left]; by rewrite Hw|].
      apply elem_of_app in Hf as [Hf|Hf]; [destruct (c_truncated c); [done|by apply not_elem_of_nil in Hf]|].
      destruct ok2; [by apply list_elem_of_singleton in Hf|by apply not_elem_of_nil in Hf].
Qed.

(** The request's goroutine, while the pumps have not started. *)
Lemma replay_local c c' : c_handler c <> HandlerDone -> goroutines_ok c ->
  c_request c' = c_request c -> c_joined c' = c_joined c -> c_closed c' = c_closed c -> c_truncated c' = c_truncated c ->
  c_got c' = c_got c -> c_send c' = c_send c -> texts c' = texts c ->
  (forall f, f ∈ c_wire c' -> f ∈ c_wire c \/ exists data, f = Backlog data) ->
  (c_handler c' <> Registering /\ c_handler c' <> HandlerDone /\ c_writer c' = NotStarted /\ c_reader c' = NotReading) \/
  (c_handler c' = HandlerDone /\ c_writer c' = Waiting /\ c_reader c' = Reading) ->
  local_step c c'.
Proof.
  intros Hd Hg Hr Hj Hc Ht Hgot Hs Htx Hw Hcase. destruct (go_early _ Hg Hd) as [Hcw Hcr].
  assert (gone c = false) as Hgc by (unfold gone; rewrite Hcw, Hcr; by destruct (c_handler c)).
  split; try done.
  - destruct Hcase as [(? & ?)|(-> & ?)]; done.
  - by rewrite Hgot, Hs.
  - rewrite Hgc. unfold gone. destruct Hcase as [(? & ? & -> & ->)|(-> & -> & ->)]; [by destruct (c_handler c')|done].
  - intros _. split.
    + intros Hd'. by destruct Hcase as [(? & ? & -> & ->)|(? & ?)].
    + intros Hd' Hr'. destruct Hcase as [(? & ? & ?)|(? & ? & Hr2)]; [done|by rewrite Hr2 in Hr'].
    + pose proof (go_texts _ Hg) as Htt. rewrite Hcw in Htt. destruct Hcase as [(? & ? & -> & _)|(? & -> & _)]; by rewrite Hgot, Htx.
    + rewrite Hc, Ht. apply Hg.
    + intros f Hf He. destruct (Hw f Hf) as [Hf'|[? ->]]; [|by destruct He].
      edestruct running_end; [exact Hg| |exact Hf'|exact He]. by rewrite Hcw.
Qed.

Lemma hang_up_local c : c_handler c <> Registering -> c_reader c = Reading ->
  local_step c (set_goroutines c (c_handler c) (c_writer c) Unregistering).
Proof.
  intros Hh Hr. split; try done.
  - unfold gone. cbn. by rewrite Hr.
  - intros Hg. split; cbn; [|done|apply Hg..]. intros Hd. destruct (go_early _ Hg Hd). congruence.
Qed.

(** ** The invariant *)

Definition loop_msg (l : loop) : option BroadcastMessage :=
  match l with Sending msg _ _ | Dropping msg _ => Some msg | _ => None end.

Section invariant.
Context {B : Type} `{HubBackendLaws B}.
Variable allowedOrigins : list string.
Implicit Types (h : WebSocketHub B) (c : Client).

Record hub_inv h : Prop := {
  v_panic : h_panicked h = false;
  v_open : h_closed h = false -> opened (h_backend h) /\ h_loop h <> Ended;
  v_owed_distinct : NoDup (owed (h_loop h));
  v_owed i : i ∈ owed (h_loop h) -> exists msg, loop_msg (h_loop h) = Some msg /\ i ∈ members h (bm_Channel msg);
  v_member channel i : i ∈ members h channel ->
    exists c, h_conns h !! i = Some c /\ c_channel c = channel /\ c_handler c <> Registering;
  v_conn i c : h_conns h !! i = Some c -> client_ok h i c
}.

Lemma client_ok_registered h i c : c_handler c <> Registering ->
  client_ok h i c <->
  conn_ok (offered h c) (bool_decide (i ∈ members h (c_channel c)))
    (if bool_decide (i ∈ owed (h_loop h)) then in_hand (h_loop h) else []) c /\ (c_joined c <= length (h_taken h))%nat.
Proof. intros Hh. unfold client_ok. by destruct (c_handler c). Qed.

Lemma registering_or_not c : c_handler c = Registering \/ c_handler c <> Registering.
Proof. destruct (c_handler c); [by left|by right..]. Qed.

(** A connection whose relation to the hub another step leaves alone. *)
Lemma client_ok_frame h h' i c :
  h_taken h' = h_taken h -> (i ∈ members h' (c_channel c) <-> i ∈ members h (c_channel c)) ->
  (if bool_decide (i ∈ owed (h_loop h')) then in_hand (h_loop h') else []) =
  (if bool_decide (i ∈ owed (h_loop h)) then in_hand (h_loop h) else []) ->
  client_ok h i c -> client_ok h' i c.
Proof.
  intros Ht Hm Ho. unfold client_ok, offered. rewrite Ht, Ho, (bool_decide_ext _ _ Hm).
  destruct (c_handler c); [|done..]. intros [? ?]. by rewrite Hm.
Qed.

Lemma set_conn_inv h i c c' : hub_inv h -> h_conns h !! i = Some c -> c_handler c <> Registering -> local_step c c' ->
  hub_inv (set_conn h i c').
Proof.
  intros [Hp Ho Hd Hw Hm Hc] Hi Hh Hl. split; try done.
  - intros channel j Hj. destruct (Hm channel j Hj) as (cj & Hcj & Hch & Hcr). cbn.
    destruct (decide (j = i)) as [->|Hne]; [|by rewrite lookup_insert_ne; eauto].
    rewrite lookup_insert_eq. simplify_eq. exists c'. split_and!; [done| |apply (ls_registered _ _ Hl)]. unfold c_channel. by rewrite (ls_request _ _ Hl).
  - cbn. intros j cj [[<- <-]|[Hne Hcj]]%lookup_insert_Some; [|by apply Hc].
    pose proof (Hc i c Hi) as Hok. rewrite client_ok_registered in Hok |- * by (done || apply (ls_registered _ _ Hl)).
    unfold offered, c_channel in *. rewrite (ls_request _ _ Hl), (ls_joined _ _ Hl). split; [|apply Hok].
    by eapply conn_ok_local; [exact Hl|apply Hok].
Qed.

(** A connection that is not registered changes nothing for the others. *)
Lemma connect_inv h i r : hub_inv h -> h_conns h !! i = None -> hub_inv (set_conn h i (newClient r)).
Proof.
  intros [Hp Ho Hd Hw Hm Hc] Hi. split; try done.
  - intros channel j Hj. destruct (Hm channel j Hj) as (cj & Hcj & ?). exists cj. cbn.
    rewrite lookup_insert_ne; [done|]. intros ->. by rewrite Hcj in Hi.
  - cbn. intros j cj [[<- <-]|[Hne Hcj]]%lookup_insert_Some; [|by apply Hc].
    split; [done|]. change (i ∉ members h (c_channel (newClient r))). intros Hj.
    destruct (Hm _ _ Hj) as (cj & Hcj & _). by rewrite Hcj in Hi.
Qed.

(** Steps of publishers, writers of lines and backends. *)
Lemma outside_inv h h' : hub_inv h -> h_panicked h' = h_panicked h -> h_clients h' = h_clients h -> h_conns h' = h_conns h ->
  h_loop h' = h_loop h -> h_taken h' = h_taken h ->
  (h_closed h' = false -> h_closed h = false /\ (opened (h_backend h) -> opened (h_backend h'))) -> hub_inv h'.
Proof.
  intros [Hp Ho Hd Hw Hm Hc] Ep Ec En El Et Hb. assert (forall channel, members h' channel = members h channel) as Hmem by (intros; unfold members; by rewrite Ec).
  split; [congruence| |congruence|..].
  - intros Hcl. destruct (Hb Hcl) as [Hcl' Hb']. destruct (Ho Hcl'). rewrite El. auto.
  - intros i. rewrite El. setoid_rewrite Hmem. apply Hw.
  - intros channel i. rewrite Hmem, En. apply Hm.
  - intros i c. rewrite En. intros Hi. apply (client_ok_frame h); [done| |by rewrite El|by apply Hc]. by rewrite Hmem.
Qed.

(** *** The hub's steps *)

Lemma members_insert h channel s channel' l conns :
  members (set_hub h (<[channel := s]> (h_clients h)) conns l) channel' = if decide (channel' = channel) then s else members h channel'.
Proof.
  unfold members. cbn. destruct (decide _) as [->|Hne]; [by rewrite lookup_insert_eq|by rewrite lookup_insert_ne].
Qed.

Lemma members_remove h channel i channel' l conns :
  members (set_hub h (alter (fun s => s ∖ {[i]}) channel (h_clients h)) conns l) channel' =
  if decide (channel' = channel) then members h channel' ∖ {[i]} else members h channel'.
Proof.
  unfold members. cbn. destruct (decide _) as [->|Hne].
  - rewrite lookup_alter_eq. destruct (h_clients h !! channel); cbn; set_solver.
  - by rewrite lookup_alter_ne.
Qed.

Lemma selecting_owed h i : h_loop h = Selecting -> (if bool_decide (i ∈ owed (h_loop h)) then in_hand (h_loop h) else []) = [].
Proof. intros ->. by destruct (bool_decide _). Qed.

Lemma set_loop_selecting_inv h : hub_inv h -> owed (h_loop h) = [] -> h_loop h <> Ended -> hub_inv (set_loop h Selecting).
Proof.
  intros [Hp Ho Hd Hw Hm Hc] Hnil Hne. split; try done.
  - intros Hcl. by destruct (Ho Hcl).
  - constructor.
  - intros i Hi. by apply not_elem_of_nil in Hi.
  - intros i c Hi. apply (client_ok_frame h); [done|done| |by apply Hc]. cbn. rewrite Hnil. done.
Qed.

Lemma take_inv h msg b order : hub_inv h -> h_loop h = Selecting -> Receive (h_backend h) = Message msg b ->
  order ≡ₚ elements (members h (bm_Channel msg)) -> hub_inv (take_message h msg b order).
Proof.
  intros [Hp Ho Hd Hw Hm Hc] Hsel Hr Hord.
  assert (forall i, i ∈ order <-> i ∈ members h (bm_Channel msg)) as Hin by (intros i; by rewrite Hord, elem_of_elements).
  split; try done.
  - cbn. intros Hcl. destruct (Ho Hcl) as [Hop _]. pose proof (Receive_opened _ Hop) as Hro. rewrite Hr in Hro. done.
  - cbn. rewrite app_nil_r, Hord. apply NoDup_elements.
  - cbn. intros i. rewrite app_nil_r. intros Hi%Hin. by exists msg.
  - cbn. intros i c Hi. pose proof (Hc i c Hi) as Hok. destruct (registering_or_not c) as [Hh|Hh].
    { unfold client_ok in *. rewrite Hh in *. exact Hok. }
    rewrite client_ok_registered in Hok |- * by done. destruct Hok as [Hok Hj]. rewrite selecting_owed in Hok by done.
    change (members (take_message h msg b order) (c_channel c)) with (members h (c_channel c)).
    assert (offered (take_message h msg b order) c = offered h c ++ (if decide (bm_Channel msg = c_channel c) then [bm_Data msg] else [])) as Hoff.
    { unfold offered. cbn. by rewrite drop_app_le, datas_app, datas_one. }
    rewrite Hoff. split; [|cbn; rewrite length_app; lia]. destruct Hok as [Hg Hmem Hleft]. split; [done| |].
    + intros Hmb. destruct (Hmem Hmb) as (-> & ? & ?). split; [|done]. rewrite app_nil_r, <- (assoc_L (++)). do 2 f_equal. cbn.
      rewrite app_nil_r. apply bool_decide_eq_true_1 in Hmb. destruct (decide _) as [Hch|Hch].
      * rewrite bool_decide_eq_true_2; [done|]. apply Hin. by rewrite Hch.
      * rewrite bool_decide_eq_false_2; [done|]. intros Hi'%Hin. destruct (Hm _ _ Hi') as (c' & Hc' & Hch' & _). by simplify_eq.
    + intros Hmb. destruct (Hleft Hmb) as [? ?]. split; [|done]. by apply prefix_app_r.
Qed.

(** A client the loop names is registered, open and there. *)
Lemma owed_client h i c : hub_inv h -> i ∈ owed (h_loop h) -> h_conns h !! i = Some c ->
  c_handler c <> Registering /\ c_closed c = false /\ gone c = false /\
  exists msg, loop_msg (h_loop h) = Some msg /\ c_channel c = bm_Channel msg /\ i ∈ members h (c_channel c) /\
    offered h c = c_got c ++ c_send c ++ [bm_Data msg] /\ goroutines_ok c /\ (c_joined c <= length (h_taken h))%nat.
Proof.
  intros Hinv Hi Hc. destruct (v_owed _ Hinv i Hi) as (msg & Hmsg & Hm). destruct (v_member _ Hinv _ _ Hm) as (c' & Hc' & Hch & Hh).
  simplify_eq. pose proof (v_conn _ Hinv i c Hc) as Hok. rewrite client_ok_registered in Hok by done.
  rewrite Hch in Hok. rewrite (bool_decide_eq_true_2 _ Hm), (bool_decide_eq_true_2 _ Hi) in Hok. destruct Hok as [[Hg Hmem _] Hj].
  destruct (Hmem eq_refl) as (Hoff & Hcl & Hgo). split_and!; [done..|]. exists msg. split_and!; [done|done|by rewrite Hch| |done|done].
  rewrite Hoff. revert Hmsg. destruct (h_loop h); cbn; intros; by simplify_eq.
Qed.

Lemma goroutines_send c send truncated : goroutines_ok c -> c_closed c = false -> goroutines_ok (set_send c send false false) /\
  goroutines_ok (closeSend (set_send c (c_send c) (c_closed c) truncated)).
Proof.
  intros Hg Hc. assert (forall f, f ∈ c_wire c -> ~ (f = StreamTruncated \/ f = CloseMessage)) as Hno.
  { intros f Hf He. destruct (go_end _ Hg f Hf He) as (_ & Hcl & _). congruence. }
  split; (split; cbn; [apply Hg..|done|intros f Hf He; by destruct (Hno f Hf)]).
Qed.

Lemma not_closed_not_truncated c : goroutines_ok c -> c_closed c = false -> c_truncated c = false.
Proof. intros Hg Hc. destruct (c_truncated c) eqn:Ht; [|done]. pose proof (go_truncated _ Hg Ht). congruence. Qed.

Lemma send_to_inv h msg i c todo dropped : hub_inv h -> h_loop h = Sending msg (i :: todo) dropped -> h_conns h !! i = Some c ->
  hub_inv (send_to h msg i c todo dropped).
Proof.
  intros Hinv Hl Hi. assert (i ∈ owed (h_loop h)) as Hio by (rewrite Hl; cbn; left).
  destruct (owed_client h i c Hinv Hio Hi) as (Hh & Hcl & Hgo & msg' & Hmsg & Hch & Hmem & Hoff & Hg & Hj).
  rewrite Hl in Hmsg. cbn in Hmsg. injection Hmsg as <-. unfold send_to. rewrite Hcl.
  destruct Hinv as [Hp Ho Hd Hw Hm Hc]. rewrite Hl in Hd, Hw. cbn in Hd. apply NoDup_cons in Hd as [Hni Hd].
  destruct (Z.of_nat (length (c_send c)) <? sendCapacity).
  - split; cbn; [done| |done| | |].
    + intros Hx. destruct (Ho Hx). by rewrite Hl in *.
    + intros j Hj'. destruct (Hw j) as (? & ? & ?); [by right|]. eauto.
    + intros channel j Hj'. destruct (Hm channel j Hj') as (cj & Hcj & Hcc & Hcr).
      destruct (decide (j = i)) as [->|Hne]; [|by rewrite lookup_insert_ne; eauto]. rewrite lookup_insert_eq. simplify_eq. by eexists.
    + intros j cj [[<- <-]|[Hne Hcj]]%lookup_insert_Some.
      * apply client_ok_registered; [done|]. split; [|done]. rewrite bool_decide_eq_true_2 by exact Hmem. rewrite bool_decide_eq_false_2 by exact Hni.
        rewrite (not_closed_not_truncated c Hg Hcl). split; [by apply (goroutines_send c _ true)| |done].
        intros _. split; [|by split]. change (offered h c = c_got c ++ (c_send c ++ [bm_Data msg]) ++ []). by rewrite app_nil_r.
      * apply (client_ok_frame h); [done|done| |by apply Hc]. cbn. rewrite Hl. cbn.
        erewrite bool_decide_ext; [done|]. rewrite elem_of_cons. naive_solver.
  - split; cbn; [done| | | |done|].
    + intros Hx. destruct (Ho Hx). by rewrite Hl in *.
    + rewrite (assoc_L (++)). apply NoDup_app. split_and!; [done| |apply NoDup_singleton]. by intros j Hj' ->%list_elem_of_singleton.
    + intros j Hj'. destruct (Hw j) as (? & ? & ?); [|by eauto]. cbn. rewrite (assoc_L (++)), elem_of_app, list_elem_of_singleton in Hj'.
      rewrite elem_of_cons. tauto.
    + intros j cj Hcj. apply (client_ok_frame h); [done|done| |by apply Hc]. cbn. rewrite Hl. cbn.
      erewrite bool_decide_ext; [done|]. rewrite (assoc_L (++)), elem_of_app, list_elem_of_singleton, elem_of_cons. tauto.
Qed.

Lemma sent_inv h msg dropped : hub_inv h -> h_loop h = Sending msg [] dropped ->
  hub_inv (set_loop h (match dropped with [] => Selecting | _ => Dropping msg dropped end)).
Proof.
  intros Hinv Hl. destruct dropped as [|i dropped]; [apply set_loop_selecting_inv; [done|by rewrite Hl..]|].
  destruct Hinv as [Hp Ho Hd Hw Hm Hc]. rewrite Hl in Hd, Hw. split; try done.
  - cbn. intros Hx. by destruct (Ho Hx).
  - intros j cj Hcj. apply (client_ok_frame h); [done|done| |by apply Hc]. by rewrite Hl.
Qed.

Lemma drop_client_inv h msg i c rest : hub_inv h -> h_loop h = Dropping msg (i :: rest) -> h_conns h !! i = Some c ->
  hub_inv (drop_client h msg i c rest).
Proof.
  intros Hinv Hl Hi. assert (i ∈ owed (h_loop h)) as Hio by (rewrite Hl; cbn; left).
  destruct (owed_client h i c Hinv Hio Hi) as (Hh & Hcl & Hgo & msg' & Hmsg & Hch & Hmem & Hoff & Hg & Hj).
  rewrite Hl in Hmsg. cbn in Hmsg. injection Hmsg as <-.
  destruct Hinv as [Hp Ho Hd Hw Hm Hc]. rewrite Hl in Hd, Hw. cbn in Hd. apply NoDup_cons in Hd as [Hni Hd].
  assert (forall channel j, j <> i -> j ∈ members (drop_client h msg i c rest) channel <-> j ∈ members h channel) as Hmj.
  { intros channel j Hne. unfold drop_client. rewrite members_remove. destruct (decide _); set_solver. }
  split; [done| |done| | |].
  - cbn. intros Hx. by destruct (Ho Hx).
  - cbn. intros j Hj'. exists msg. split; [done|]. destruct (Hw j) as (? & [= <-] & ?); [by right|].
    apply Hmj; [|done]. by intros ->.
  - intros channel j Hj'. destruct (decide (j = i)) as [->|Hne].
    + exfalso. unfold drop_client in Hj'. rewrite members_remove in Hj'. destruct (decide _) as [|Hne]; [set_solver|].
      destruct (Hm channel i Hj') as (cj & Hcj & Hcc & _). by simplify_eq.
    + apply Hmj in Hj'; [|done]. destruct (Hm channel j Hj') as (cj & Hcj & ?). exists cj. cbn. by rewrite lookup_insert_ne.
  - cbn. intros j cj [[<- <-]|[Hne Hcj]]%lookup_insert_Some.
    + apply client_ok_registered; [done|]. split; [|done].
      rewrite bool_decide_eq_false_2 by (unfold drop_client; cbn; rewrite members_remove; change (c_channel _) with (c_channel c); rewrite decide_True; [set_solver|done]).
      split; [by apply (goroutines_send c [])|done|]. intros _. split; [|done].
      change (c_got c ++ c_send c `prefix_of` offered h c). rewrite Hoff, (assoc_L (++)). by apply prefix_app_r.
    + apply (client_ok_frame h); [done|by apply Hmj| |by apply Hc]. cbn. rewrite Hl. cbn.
      erewrite bool_decide_ext; [done|]. rewrite elem_of_cons. naive_solver.
Qed.

Lemma register_inv h i c : hub_inv h -> h_loop h = Selecting -> h_conns h !! i = Some c -> c_handler c = Registering ->
  hub_inv (register h i c).
Proof.
  intros [Hp Ho Hd Hw Hm Hc] Hl Hi Hh. pose proof (Hc i c Hi) as Hok. unfold client_ok in Hok. rewrite Hh in Hok.
  destruct Hok as [Hnew Hni]. set (replay := bool_decide (is_Some (h_logs h))).
  assert (forall channel j, j ∈ members (register h i c) channel <-> j ∈ members h channel \/ (j = i /\ channel = c_channel c)) as Hmj.
  { intros channel j. unfold register. rewrite members_insert. destruct (decide _) as [->|Hne]; set_solver. }
  set (c' := joined c (length (h_taken h)) (length (h_hist h)) replay).
  assert (c_handler c' <> Registering /\ c_channel c' = c_channel c) as [Hreg Hch].
  { unfold c'. rewrite Hnew. unfold joined, c_channel. by destruct (c_request c), replay. }
  assert (h_conns (register h i c) = <[i := c']> (h_conns h)) as Hconns by done.
  split; try done.
  - cbn. intros Hx. by destruct (Ho Hx).
  - constructor.
  - intros j Hj. by apply not_elem_of_nil in Hj.
  - intros channel j [Hj|[-> ->]]%Hmj; rewrite Hconns.
    + destruct (Hm channel j Hj) as (cj & Hcj & ?). exists cj. rewrite lookup_insert_ne; [done|]. intros ->.
      simplify_eq. destruct (Hm channel j Hj) as (c2 & ? & ? & ?). by simplify_eq.
    + rewrite lookup_insert_eq. by eexists.
  - intros j cj. rewrite Hconns. intros [[<- <-]|[Hne Hcj]]%lookup_insert_Some.
    + apply client_ok_registered; [done|]. rewrite Hch. rewrite bool_decide_eq_true_2 by (apply Hmj; by right).
      unfold offered. rewrite Hch. unfold c'. rewrite Hnew. cbn. unfold joined, start_pumps. cbn. split; [|by destruct (c_request c), replay].
      destruct (c_request c), replay; cbn; rewrite drop_all;
        (split; [split; try done; intros f Hf; by apply not_elem_of_nil in Hf|done|done]).
    + apply (client_ok_frame h); [done| | |by apply Hc].
      * rewrite Hmj. naive_solver.
      * cbn. rewrite Hl. by destruct (bool_decide _).
Qed.

Lemma unregister_inv h i c : hub_inv h -> h_loop h = Selecting -> h_conns h !! i = Some c ->
  c_reader c = Unregistering \/ c_handler c = LeavingEarly -> hub_inv (unregister h i c).
Proof.
  intros [Hp Ho Hd Hw Hm Hc] Hl Hi Hr. pose proof (Hc i c Hi) as Hok.
  assert (c_handler c <> Registering) as Hh.
  { intros Hh. unfold client_ok in Hok. rewrite Hh in Hok. destruct Hok as [Hok _]. rewrite Hok in Hr. by destruct Hr. }
  rewrite client_ok_registered in Hok by done. rewrite selecting_owed in Hok by done. destruct Hok as [[Hg Hmem Hleft] Hj].
  set (left' := if bool_decide (i ∈ members h (c_channel c)) then closeSend c else c).
  set (c' := match c_reader c with Unregistering => set_goroutines left' (c_handler c) (c_writer c) ReaderDone
             | _ => set_goroutines left' HandlerDone (c_writer c) (c_reader c) end).
  assert (c_channel c' = c_channel c /\ c_joined c' = c_joined c /\ c_got c' = c_got c /\ c_send c' = c_send c /\
          c_handler c' <> Registering /\ gone c' = true /\ goroutines_ok c') as (Hch & Hjo & Hgot & Hs & Hreg & Hgone & Hg').
  { assert (goroutines_ok left') as Hgl.
    { unfold left'. destruct (bool_decide _) eqn:Hb; [|done]. destruct (Hmem eq_refl) as (_ & Hcl & _).
      exact (proj2 (goroutines_send c [] (c_truncated c) Hg Hcl)). }
    assert (c_handler left' = c_handler c /\ c_writer left' = c_writer c /\ c_reader left' = c_reader c /\ c_channel left' = c_channel c /\
      c_joined left' = c_joined c /\ c_got left' = c_got c /\ c_send left' = c_send c) as (E1 & E2 & E3 & E4 & E5 & E6 & E7)
      by (unfold left'; by destruct (bool_decide _)).
    unfold c'. destruct Hr as [Hu|Hr].
    - rewrite Hu. split_and!; [done..|]. split; cbn; [|done| |apply Hgl|].
      + intros Hd'. destruct (go_early _ Hg Hd'). congruence.
      + rewrite <- E2. apply (go_texts _ Hgl).
      + rewrite <- E2. apply (go_end _ Hgl).
    - destruct (go_early _ Hg ltac:(by rewrite Hr)) as [Hw' Hr']. rewrite Hr', Hw'. split_and!; [done..|].
      split; cbn; [done|done| |apply Hgl|].
      + pose proof (go_texts _ Hgl) as Ht. rewrite E2, Hw' in Ht. exact Ht.
      + rewrite <- Hw', <- E2. apply (go_end _ Hgl). }
  assert (forall channel j, j <> i -> j ∈ members (unregister h i c) channel <-> j ∈ members h channel) as Hmj.
  { intros channel j Hne. unfold unregister. rewrite members_remove. destruct (decide _); set_solver. }
  split; try done.
  - cbn. intros Hx. by destruct (Ho Hx).
  - constructor.
  - intros j Hj'. by apply not_elem_of_nil in Hj'.
  - intros channel j Hj'. destruct (decide (j = i)) as [->|Hne].
    + exfalso. unfold unregister in Hj'. rewrite members_remove in Hj'. destruct (decide _) as [|Hne]; [set_solver|].
      destruct (Hm channel i Hj') as (cj & Hcj & Hcc & _). by simplify_eq.
    + apply Hmj in Hj'; [|done]. destruct (Hm channel j Hj') as (cj & Hcj & ?). exists cj. cbn. by rewrite lookup_insert_ne.
  - cbn. intros j cj [[<- <-]|[Hne Hcj]]%lookup_insert_Some.
    + fold left' c'. apply client_ok_registered; [done|]. rewrite Hch, Hjo. split; [|done].
      rewrite bool_decide_eq_false_2 by (unfold unregister; rewrite members_remove, decide_True by done; set_solver).
      split; [done|done|]. intros _. rewrite Hgot, Hs, Hgone. split; [|done].
      unfold offered. rewrite Hch, Hjo. change (c_got c ++ c_send c `prefix_of` offered h c).
      destruct (bool_decide (i ∈ members h (c_channel c))); [|by apply Hleft]. destruct (Hmem eq_refl) as (-> & _ & _). by rewrite app_nil_r.
    + apply (client_ok_frame h); [done|by apply Hmj| |by apply Hc]. cbn. rewrite Hl. by destruct (bool_decide _).
Qed.

Lemma conn_goroutines h i c : hub_inv h -> h_conns h !! i = Some c -> goroutines_ok c.
Proof.
  intros Hinv Hi. pose proof (v_conn _ Hinv i c Hi) as Hok. destruct (registering_or_not c) as [Hh|Hh].
  - unfold client_ok in Hok. rewrite Hh in Hok. destruct Hok as [-> _]. apply newClient_goroutines.
  - rewrite client_ok_registered in Hok by done. apply Hok.
Qed.

Lemma running_registered h i c : hub_inv h -> h_conns h !! i = Some c -> c_writer c <> NotStarted \/ c_reader c <> NotReading ->
  c_handler c <> Registering.
Proof.
  intros Hinv Hi Hr Hh. pose proof (v_conn _ Hinv i c Hi) as Hok. unfold client_ok in Hok. rewrite Hh in Hok.
  destruct Hok as [Hn _]. rewrite Hn in Hr. by destruct Hr.
Qed.

Lemma internal_inv h h' : hub_inv h -> internal h h' -> hub_inv h'.
Proof.
  intros Hinv Hs.
  destruct Hs as [msg b order Hl Hr Hord|msg i c todo dropped Hl Hi|msg dropped Hl|msg i c rest Hl Hi|msg Hl|i c data send Hi Hw Hs|
    i c data Hi Hw|i c ok1 ok2 Hi Hw Hs Hcl].
  - by apply take_inv.
  - by apply send_to_inv.
  - by apply sent_inv.
  - by apply drop_client_inv.
  - apply set_loop_selecting_inv; [done|by rewrite Hl..].
  - assert (c_handler c <> Registering) by (eapply running_registered; [done..|left; by rewrite Hw]).
    by apply (set_conn_inv h i c); [..|apply receive_local].
  - assert (c_handler c <> Registering) by (eapply running_registered; [done..|left; by rewrite Hw]).
    by apply (set_conn_inv h i c); [..|apply write_local].
  - assert (c_handler c <> Registering) by (eapply running_registered; [done..|left; by rewrite Hw]).
    by apply (set_conn_inv h i c); [..|apply finish_local].
Qed.

(** The replay steps of a connection. *)
Lemma replay_inv h i c c' : hub_inv h -> h_conns h !! i = Some c -> (exists rest, c_handler c = Replaying rest) ->
  (goroutines_ok c -> local_step c c') -> hub_inv (set_conn h i c').
Proof.
  intros Hinv Hi [rest Hh] Hl. apply (set_conn_inv h i c); [done|done|by rewrite Hh|]. apply Hl. by eapply conn_goroutines.
Qed.

Lemma external_inv h h' : hub_inv h -> external allowedOrigins h h' -> hub_inv h'.
Proof.
  intros Hinv Hs.
  destruct Hs as [i r origin Hi _|i c Hl Hi Hh|i c Hl Hi Hr|Hl Hr|i c m Hi Hh Hlogs|i c data rest Hi Hh|i c data rest Hi Hh|i c Hi Hh|
    i c data Hi Hw|i c ok Hi Hw|i c Hi Hr|msg o b Hp|runID stageID e Hp|runID stageID e o b Hpe Hp|b Hb|].
  - by apply connect_inv.
  - by apply register_inv.
  - by apply unregister_inv.
  - destruct Hinv as [Hp Ho Hd Hw Hm Hc]. split; try done.
    + intros Hcl. destruct (Ho Hcl) as [Hop _]. pose proof (Receive_opened _ Hop) as Hro. by rewrite Hr in Hro.
    + constructor.
    + intros i Hi. by apply not_elem_of_nil in Hi.
    + intros i c Hi. apply (client_ok_frame h); [done|done| |by apply Hc]. rewrite Hl. cbn. by destruct (bool_decide _).
  - eapply replay_inv; [done..|by eexists|]. intros Hg. unfold read_backlog. destruct (c_request c) eqn:Hreq.
    all: apply replay_local; try done; try (by rewrite Hh); cbn; auto; left; destruct (go_early _ Hg ltac:(by rewrite Hh)); split_and!; congruence.
  - eapply replay_inv; [done..|by eexists|]. intros Hg. apply replay_local; try done; cbn; try (by rewrite Hh).
    + unfold texts. cbn. by rewrite omap_app, app_nil_r.
    + intros f [Hf|Hf%list_elem_of_singleton]%elem_of_app; [by left|right; by eexists].
    + by left.
  - eapply replay_inv; [done..|by eexists|]. intros Hg. apply replay_local; try done; cbn; try (by rewrite Hh); auto.
  - eapply replay_inv; [done..|by eexists|]. intros Hg. apply replay_local; try done; cbn; try (by rewrite Hh); auto.
  - assert (c_handler c <> Registering) by (eapply running_registered; [done..|left; by rewrite Hw]).
    apply (set_conn_inv h i c); [done..|]. apply give_up_local; eauto.
  - assert (c_handler c <> Registering) by (eapply running_registered; [done..|left; by rewrite Hw]).
    apply (set_conn_inv h i c); [done..|]. destruct ok; [by apply ping_local|by apply give_up_local; auto].
  - assert (c_handler c <> Registering) by (eapply running_registered; [done..|right; by rewrite Hr]).
    apply (set_conn_inv h i c); [done..|]. by apply hang_up_local.
  - apply (outside_inv h); try done. cbn. intros Hcl. split; [done|]. intros Hop. by eapply Publish_opened.
  - apply (outside_inv h); try done.
  - apply (outside_inv h); try done. cbn. intros Hcl. split; [done|]. intros Hop. by eapply Publish_opened.
  - apply (outside_inv h); try done. cbn. intros Hcl. split; [done|]. intros Hop. by eapply background_opened.
  - by apply (outside_inv h).
Qed.

Lemma init_inv logs : hub_inv (NewWebSocketHub logs).
Proof.
  split; try done; cbn.
  - intros _. split; [apply New_opened|done].
  - constructor.
  - intros i Hi. by apply not_elem_of_nil in Hi.
Qed.

Lemma served_inv logs h : served allowedOrigins logs h -> hub_inv h.
Proof.
  apply reachable_invariant; [intros ? ->; apply init_inv|]. intros s s' Hs [Hst|Hst]; [by eapply internal_inv|by eapply external_inv].
Qed.

(** ** What the hub promises *)

(** C16. Nobody's stream has a hole. Whatever connects, hangs up, stalls, fails or
    publishes, however it interleaves, and whatever the backend: the live messages on a
    connection are the first of its channel's messages since it registered, in order; a
    client that is in the hub's map has all the others in its buffer, in its writer's
    hands or in the broadcast under way; one that is no longer in the map was dropped
    because its buffer was full, or went away by itself; a control frame that says the
    stream is truncated was sent only after a drop. The hub never sends on a closed
    channel, and its loop does not return before the backend is closed. *)
Theorem streams_have_no_holes logs h i c : served allowedOrigins logs h -> h_conns h !! i = Some c -> c_handler c <> Registering ->
  texts c `prefix_of` offered h c /\
  (i ∈ members h (c_channel c) ->
     exists rest, offered h c = texts c ++ rest /\
       (rest = (match c_writer c with Writing data => [data] | _ => [] end) ++ c_send c ++
               (if bool_decide (i ∈ owed (h_loop h)) then in_hand (h_loop h) else []) \/ c_writer c = WriterDone)) /\
  (i ∉ members h (c_channel c) -> c_truncated c = true \/ gone c = true) /\
  (StreamTruncated ∈ c_wire c -> c_truncated c = true /\ i ∉ members h (c_channel c)) /\
  h_panicked h = false /\ (h_closed h = false -> h_loop h <> Ended).
Proof.
  intros Hs Hi Hh. pose proof (served_inv _ _ Hs) as Hinv. pose proof (v_conn _ Hinv i c Hi) as Hok.
  rewrite client_ok_registered in Hok by done. destruct Hok as [[Hg Hmem Hleft] _].
  assert (texts c `prefix_of` c_got c) as Htx.
  { pose proof (go_texts _ Hg) as Ht. destruct (c_writer c); rewrite ?Ht; [done|done|by eexists|done]. }
  split; [|split; [|split; [|split; [|split]]]].
  - etransitivity; [exact Htx|]. destruct (bool_decide _) eqn:Hb.
    + destruct (Hmem eq_refl) as (-> & _). by apply prefix_app_r.
    + destruct (Hleft eq_refl) as [Hp _]. etransitivity; [|exact Hp]. by apply prefix_app_r.
  - intros Hm. destruct (Hmem ltac:(by apply bool_decide_eq_true_2)) as (-> & _).
    pose proof (go_texts _ Hg) as Ht. destruct (c_writer c); cbn; [rewrite Ht; by eauto..| |].
    + rewrite Ht, <- (assoc_L (++)). eexists. split; [done|by left].
    + destruct Ht as [rest ->]. rewrite <- (assoc_L (++)). eexists. split; [done|by right].
  - intros Hm. destruct (Hleft ltac:(by apply bool_decide_eq_false_2)) as [_ Hgo]. destruct (c_truncated c); [by left|right; auto].
  - intros Hf. destruct (go_end _ Hg _ Hf ltac:(by left)) as (_ & Hcl & _ & _ & Ht). split; [by apply Ht|]. intros Hm.
    destruct (Hmem ltac:(by apply bool_decide_eq_true_2)) as (_ & Hcl' & _). congruence.
  - apply (v_panic _ Hinv).
  - intros Hcl. by destruct (v_open _ Hinv Hcl).
Qed.

(** *** The hub and the writers catch up *)

Local Open Scope nat_scope.

(** What a connection has left to do, and the whole: each message in the backend may go
    to every connection, and each message sent takes its writer two steps. *)
Definition conn_work (c : Client) : nat :=
  2 * length (c_send c) + match c_writer c with WriterDone => 0 | Writing _ => 2 | _ => 1 end.
Definition conns_work (m : gmap nat Client) : nat := map_fold (fun _ c n => conn_work c + n) 0 m.
Definition loop_work (l : loop) : nat :=
  match l with Sending _ todo dropped => 2 + 3 * length todo + length dropped | Dropping _ dropped => 1 + length dropped | _ => 0 end.
Definition work h : nat :=
  buffered (h_backend h) * (3 + 3 * size (h_conns h)) + loop_work (h_loop h) + conns_work (h_conns h).

Lemma conns_work_delete m i c : m !! i = Some c -> conns_work m = conn_work c + conns_work (delete i m).
Proof.
  intros Hi. unfold conns_work. rewrite (map_fold_delete_L _ _ i c m); [done| |done]. intros. lia.
Qed.

Lemma conns_work_insert m i c c' : m !! i = Some c -> conns_work (<[i := c']> m) + conn_work c = conns_work m + conn_work c'.
Proof.
  intros Hi. rewrite (conns_work_delete (<[i := c']> m) i c') by apply lookup_insert_eq. rewrite (conns_work_delete m i c) by done.
  rewrite delete_insert_eq. lia.
Qed.

Lemma size_insert_known (m : gmap nat Client) i c c' : m !! i = Some c -> size (<[i := c']> m) = size m.
Proof. intros Hi. rewrite map_size_insert. by rewrite Hi. Qed.

Lemma members_bounded h channel : hub_inv h -> size (members h channel) <= size (h_conns h).
Proof.
  intros Hinv. rewrite <- (size_dom (D := gset nat)). apply subseteq_size. intros i Hi.
  destruct (v_member _ Hinv _ _ Hi) as (c & Hc & _). by eapply elem_of_dom_2.
Qed.

Lemma internal_works h h' : hub_inv h -> internal h h' -> work h' < work h.
Proof.
  intros Hinv Hs. unfold work.
  destruct Hs as [msg b order Hl Hr Hord|msg i c todo dropped Hl Hi|msg dropped Hl|msg i c rest Hl Hi|msg Hl|i c data send Hi Hw Hs|
    i c data Hi Hw|i c ok1 ok2 Hi Hw Hs Hcl]; cbn.
  - pose proof (Receive_buffered (h_backend h)) as Hb. rewrite Hr in Hb. rewrite Hl, <- Hb. cbn.
    pose proof (members_bounded h (bm_Channel msg) Hinv) as Hm. rewrite Hord. change (length (elements ?s)) with (size s). lia.
  - rewrite Hl. cbn. destruct (owed_client h i c Hinv ltac:(rewrite Hl; left) Hi) as (_ & Hcl & _). unfold send_to. rewrite Hcl.
    destruct (Z.ltb _ _); cbn; [|rewrite length_app; cbn; lia]. rewrite (size_insert_known _ i c) by done.
    pose proof (conns_work_insert (h_conns h) i c (set_send c (c_send c ++ [bm_Data msg]) false (c_truncated c)) Hi) as Hc.
    assert (conn_work (set_send c (c_send c ++ [bm_Data msg]) false (c_truncated c)) = conn_work c + 2) as Hw
      by (unfold conn_work; cbn; rewrite length_app; cbn; lia). lia.
  - rewrite Hl. destruct dropped; cbn; lia.
  - rewrite Hl. cbn. rewrite (size_insert_known _ i c) by done.
    pose proof (conns_work_insert (h_conns h) i c (closeSend (set_send c (c_send c) (c_closed c) true)) Hi) as Hc.
    change (conn_work (closeSend _)) with (conn_work c) in Hc. lia.
  - rewrite Hl. cbn. lia.
  - rewrite (size_insert_known _ i c) by done. pose proof (conns_work_insert (h_conns h) i c (receive_send c data send) Hi) as Hc.
    unfold conn_work in Hc. cbn in Hc. rewrite Hw, Hs in Hc. cbn in Hc. lia.
  - rewrite (size_insert_known _ i c) by done.
    pose proof (conns_work_insert (h_conns h) i c (write (set_goroutines c (c_handler c) Waiting (c_reader c)) [Text data]) Hi) as Hc.
    unfold conn_work in Hc. cbn in Hc. rewrite Hw in Hc. lia.
  - rewrite (size_insert_known _ i c) by done. pose proof (conns_work_insert (h_conns h) i c (finish_writer c ok1 ok2) Hi) as Hc.
    unfold conn_work in Hc. cbn in Hc. rewrite Hw, Hs in Hc. cbn in Hc. lia.
Qed.

(** With nothing to do the loop is at its select, or over. *)
Lemma stuck_selecting h : hub_inv h -> (forall h', ~ internal h h') -> h_loop h = Selecting \/ h_loop h = Ended.
Proof.
  intros Hinv Hno. destruct (h_loop h) as [|msg [|i todo] dropped|msg [|i rest]|] eqn:Hl; [by left| | | | |by right]; exfalso.
  - by eapply Hno, i_sent.
  - destruct (v_owed _ Hinv i) as (? & _ & Hm); [rewrite Hl; left|]. destruct (v_member _ Hinv _ _ Hm) as (c & Hc & _). by eapply Hno, i_send.
  - by eapply Hno, i_dropped.
  - destruct (v_owed _ Hinv i) as (? & _ & Hm); [rewrite Hl; left|]. destruct (v_member _ Hinv _ _ Hm) as (c & Hc & _). by eapply Hno, i_drop.
Qed.

(** Streams catch up, whoever stalls: from any state the hub and the writers can
    only take a bounded number of steps by themselves, so they come to rest unless
    something new happens; and when they are at rest with the hub running, no broadcast is
    left in the backend's channel and every client in the map whose writer runs has
    every message of its channel since it registered on its connection. *)
Theorem streams_catch_up logs h : served allowedOrigins logs h ->
  (forall n h', nsteps internal n h h' -> n <= work h) /\
  ((forall h', ~ internal h h') -> h_loop h <> Ended ->
     buffered (h_backend h) = 0%nat /\
     forall i c, h_conns h !! i = Some c -> i ∈ members h (c_channel c) -> c_writer c <> NotStarted -> c_writer c <> WriterDone ->
       texts c = offered h c).
Proof.
  intros Hserved. pose proof (served_inv _ _ Hserved) as Hinv. split.
  - intros n h' Hn. clear Hserved. induction Hn as [h|n h1 h2 h3 Hs Hn IH]; [lia|].
    pose proof (internal_works _ _ Hinv Hs). specialize (IH (internal_inv _ _ Hinv Hs)). lia.
  - intros Hno Hne. destruct (stuck_selecting h Hinv Hno) as [Hl|]; [|done]. split.
    + pose proof (Receive_buffered (h_backend h)) as Hb. destruct (Receive (h_backend h)) as [|msg b|] eqn:Hr; [done| |done].
      exfalso. by eapply Hno, i_take.
    + intros i c Hi Hm Hns Hnd. assert (c_handler c <> Registering) as Hh by (eapply running_registered; [done..|by left]).
      pose proof (v_conn _ Hinv i c Hi) as Hok. rewrite client_ok_registered in Hok by done.
      rewrite selecting_owed in Hok by done. destruct Hok as [[Hg Hmem _] _].
      destruct (Hmem ltac:(by apply bool_decide_eq_true_2)) as (-> & _). pose proof (go_texts _ Hg) as Ht.
      destruct (c_writer c) as [| |data|] eqn:Hw; try done; [|exfalso; by eapply Hno, i_write].
      destruct (c_send c) as [|data send] eqn:Hs; [by rewrite app_nil_r|]. exfalso. by eapply Hno, i_receive.
Qed.
End invariant.

Local Close Scope nat_scope.

(** ** Viewers of a stage's log *)

Definition backlog_of (f : frame) : option string := match f with Backlog data => Some data | _ => None end.

(** The replayed lines on the connection. *)
Definition backlogs (c : Client) : list string := omap backlog_of (c_wire c).

Section viewers.
Variable allowedOrigins : list string.
Variable m0 : Memory.
Implicit Types (h : WebSocketHub memoryHubBackend) (c : Client).

(** The replay a viewer was given is what the store answered at one moment since it
    registered. *)
Definition answered (hist : history) c (runID stageID since : string) (es : list Entry) : Prop :=
  exists k, (c_logged c <= k)%nat /\ (k <= length hist)%nat /\ es = Read (after m0 (take k hist)) runID stageID (sinceOf since).

Definition replay_ok (hist : history) c : Prop :=
  match c_request c with
  | StageLogs runID stageID since =>
      match c_handler c with
      | Replaying None => backlogs c = []
      | Replaying (Some rest) =>
          exists es, answered hist c runID stageID since es /\ backlogs c ++ rest = EncodeFrame runID stageID <$> es
      | HandlerDone =>
          c_writer c <> NotStarted ->
          exists es, answered hist c runID stageID since es /\ backlogs c = EncodeFrame runID stageID <$> es
      | _ => True
      end
  | _ => True
  end.

(** Where the lines logged since a client registered are. *)
Definition line_somewhere h c (x : string * string * Entry) : Prop :=
  let '(runID, stageID, e) := x in
  h_pending h !! (runID, stageID) = Some e \/ frame_message runID stageID e ∈ drop (c_joined c) (h_sent h) \/
  frame_message runID stageID e ∈ h_refused h.

Record viewer_ok h c : Prop := {
  vw_joined : (c_joined c <= length (h_taken h))%nat;
  vw_logged : (c_logged c <= length (h_hist h))%nat;
  vw_lines x : x ∈ drop (c_logged c) (h_hist h) -> line_somewhere h c x;
  vw_replay : replay_ok (h_hist h) c
}.

Record viewers_inv h : Prop := {
  vi_hub : hub_inv h;
  vi_sent : h_sent h = h_taken h ++ mb_ch (h_backend h);
  vi_logs : h_logs h = Some (after m0 (h_hist h));
  vi_conns i c : h_conns h !! i = Some c -> c_handler c <> Registering -> viewer_ok h c
}.

(** A step that does not touch the log or the broadcasts. *)
Lemma viewers_conns h h' : viewers_inv h -> hub_inv h' -> h_sent h' = h_sent h ->
  h_taken h' ++ mb_ch (h_backend h') = h_taken h ++ mb_ch (h_backend h) -> (length (h_taken h) <= length (h_taken h'))%nat ->
  h_logs h' = h_logs h -> h_hist h' = h_hist h -> h_pending h' = h_pending h -> h_refused h' = h_refused h ->
  (forall i c', h_conns h' !! i = Some c' -> c_handler c' <> Registering ->
     viewer_ok h c' \/ exists c, h_conns h !! i = Some c /\ c_handler c <> Registering /\
       c_joined c' = c_joined c /\ c_logged c' = c_logged c /\ (viewer_ok h c -> replay_ok (h_hist h) c')) ->
  viewers_inv h'.
Proof.
  intros [Hh Hs Hl Hc] Hh' Es Et Elt El Eh Ep Er Hcs. split; [done|congruence|congruence|]. intros i c' Hi Hr.
  assert (viewer_ok h c') as [Hj Hlg Hln Hre].
  { destruct (Hcs i c' Hi Hr) as [Hok|(c & Hic & Hcr & Ej & Elg & Hre)]; [done|].
    pose proof (Hc i c Hic Hcr) as Hok. pose proof (Hre Hok). destruct Hok. split; [by rewrite Ej|by rewrite Elg| |done].
    intros x. rewrite Elg. intros Hx. specialize (vw_lines0 x Hx). destruct x as [[? ?] ?]. unfold line_somewhere in *. by rewrite Ej. }
  split; rewrite ?Eh; [lia|done| |done]. intros x Hx. specialize (Hln x Hx). destruct x as [[? ?] ?]. unfold line_somewhere in *.
  by rewrite Ep, Es, Er.
Qed.

Lemma viewers_conn h i c c' : viewers_inv h -> hub_inv (set_conn h i c') -> h_conns h !! i = Some c -> c_handler c <> Registering ->
  c_joined c' = c_joined c -> c_logged c' = c_logged c -> (viewer_ok h c -> replay_ok (h_hist h) c') -> viewers_inv (set_conn h i c').
Proof.
  intros Hv Hh' Hi Hh Ej El Hr. apply (viewers_conns h); try done. cbn. intros j cj [[<- <-]|[Hne Hcj]]%lookup_insert_Some Hreg.
  - right. by exists c.
  - left. by apply (vi_conns _ Hv j).
Qed.

(** Steps of the pumps write no backlog, and the request's goroutine is done. *)
Lemma pump_replay hist c c' : c_request c' = c_request c -> c_logged c' = c_logged c -> c_handler c' = c_handler c ->
  backlogs c' = backlogs c -> (c_writer c' <> NotStarted -> c_writer c <> NotStarted) -> replay_ok hist c -> replay_ok hist c'.
Proof.
  intros Er El Eh Eb Ew. unfold replay_ok, answered. rewrite Er, El, Eh, Eb. destruct (c_request c); try done.
  destruct (c_handler c) as [|[rest|]| |]; try done. intros H Hw. auto.
Qed.

Lemma viewers_internal h h' : viewers_inv h -> internal h h' -> viewers_inv h'.
Proof.
  intros Hv Hs. pose proof (internal_inv _ _ (vi_hub _ Hv) Hs) as Hh'. pose proof (vi_hub _ Hv) as Hinv.
  destruct Hs as [msg b order Hl Hr Hord|msg i c todo dropped Hl Hi|msg dropped Hl|msg i c rest Hl Hi|msg Hl|i c data send Hi Hw Hs|
    i c data Hi Hw|i c ok1 ok2 Hi Hw Hs Hcl].
  - apply (viewers_conns h); try done; cbn.
    + rewrite <- (assoc_L (++)). f_equal. cbn in Hr. unfold memory_receive in Hr. destruct (mb_ch (h_backend h)); [by destruct (mb_closed _)|].
      by injection Hr as <- <-.
    + rewrite length_app. lia.
    + intros j cj Hj Hreg. left. by apply (vi_conns _ Hv j).
  - destruct (owed_client h i c Hinv ltac:(rewrite Hl; left) Hi) as (Hh & Hcl & _). revert Hh'. unfold send_to. rewrite Hcl.
    destruct (_ <? _); intros Hh'.
    + apply (viewers_conns h); try done; cbn. intros j cj [[<- <-]|[Hne Hcj]]%lookup_insert_Some Hreg; [|left; by apply (vi_conns _ Hv j)].
      right. exists c. split_and!; [done..|]. intros Hok. apply (pump_replay _ c); try done. apply Hok.
    + apply (viewers_conns h); try done; cbn. intros j cj Hj Hreg. left. by apply (vi_conns _ Hv j).
  - apply (viewers_conns h); try done; cbn. intros j cj Hj Hreg. left. by apply (vi_conns _ Hv j).
  - destruct (owed_client h i c Hinv ltac:(rewrite Hl; left) Hi) as (Hh & Hcl & _).
    apply (viewers_conns h); try done; cbn. intros j cj [[<- <-]|[Hne Hcj]]%lookup_insert_Some Hreg; [|left; by apply (vi_conns _ Hv j)].
    right. exists c. split_and!; [done..|]. intros Hok. apply (pump_replay _ c); try done. apply Hok.
  - apply (viewers_conns h); try done; cbn. intros j cj Hj Hreg. left. by apply (vi_conns _ Hv j).
  - apply (viewers_conn h i c); try done; [eapply (running_registered h i c); [done..|left; by rewrite Hw]|].
    intros Hok. apply (pump_replay _ c); try done; [by rewrite Hw|apply Hok].
  - apply (viewers_conn h i c); try done; [eapply (running_registered h i c); [done..|left; by rewrite Hw]|].
    intros Hok. apply (pump_replay _ c); try done; [|by rewrite Hw|apply Hok]. unfold backlogs. cbn. by rewrite omap_app, app_nil_r.
  - apply (viewers_conn h i c); try done; [eapply (running_registered h i c); [done..|left; by rewrite Hw]|].
    intros Hok. apply (pump_replay _ c); try done; [|by rewrite Hw|apply Hok]. unfold backlogs. cbn. rewrite omap_app.
    destruct (c_truncated c), ok1, ok2; cbn; by rewrite ?app_nil_r.
Qed.

(** A broadcast: accepted messages go to the end of the channel. *)
Lemma publish_sent h msg o b : h_sent h = h_taken h ++ mb_ch (h_backend h) -> memory_publish (h_backend h) msg = (o, b) ->
  h_sent (broadcast h msg o b) = h_taken h ++ mb_ch b /\
  (forall n m, m ∈ drop n (h_sent h) -> m ∈ drop n (h_sent (broadcast h msg o b))) /\
  (forall n, (n <= length (h_taken h))%nat -> msg ∈ drop n (h_sent (broadcast h msg o b)) \/ msg ∈ h_refused (broadcast h msg o b)) /\
  (forall m, m ∈ h_refused h -> m ∈ h_refused (broadcast h msg o b)).
Proof.
  intros Es Hp. assert ((o = Accepted /\ mb_ch b = mb_ch (h_backend h) ++ [msg]) \/ (o <> Accepted /\ mb_ch b = mb_ch (h_backend h))) as Ho.
  { unfold memory_publish in Hp. repeat case_match; simplify_eq; auto. }
  destruct Ho as [[-> Hb]|[Ho Hb]]; cbn; rewrite Hb.
  - rewrite Es, (assoc_L (++)). split; [done|]. split; [|split; [|done]].
    + intros n m Hm. rewrite <- Es in *. destruct (decide (n <= length (h_sent h))%nat) as [Hn|Hn].
      * rewrite drop_app_le by done. apply elem_of_app. by left.
      * rewrite drop_ge in Hm by lia. by apply not_elem_of_nil in Hm.
    + intros n Hn. left. rewrite drop_app_le by (rewrite length_app; lia). apply elem_of_app. right. by apply list_elem_of_singleton.
  - destruct o; try done; (split; [done|split; [done|split; [|intros m Hm; apply elem_of_app; by left]]]);
      intros n _; right; apply elem_of_app; right; by apply list_elem_of_singleton.
Qed.

Lemma viewers_register h i c : viewers_inv h -> h_loop h = Selecting -> h_conns h !! i = Some c -> c_handler c = Registering ->
  hub_inv (register h i c) -> viewers_inv (register h i c).
Proof.
  intros Hv Hl Hi Hh Hh'.
  pose proof (vi_hub _ Hv) as Hinv. pose proof (vi_conns _ Hv) as Hold.
  apply (viewers_conns h); try done. unfold register. rewrite (vi_logs _ Hv). cbn.
  intros j cj [[<- <-]|[Hne Hcj]]%lookup_insert_Some Hreg; [|left; by apply (Hold j)]. left.
  pose proof (v_conn _ Hinv i c Hi) as Hok. unfold client_ok in Hok. rewrite Hh in Hok. destruct Hok as [Hnew _]. rewrite Hnew.
  unfold joined. cbn.
  split; [by destruct (c_request c)..| |].
  + intros x Hx. assert (x ∈ drop (length (h_hist h)) (h_hist h)) as Hx' by (by destruct (c_request c)).
    rewrite drop_all in Hx'. by apply not_elem_of_nil in Hx'.
  + unfold replay_ok. by destruct (c_request c).
Qed.

Lemma viewers_unregister h i c : viewers_inv h -> h_conns h !! i = Some c -> c_reader c = Unregistering \/ c_handler c = LeavingEarly ->
  hub_inv (unregister h i c) -> viewers_inv (unregister h i c).
Proof.
  intros Hv Hi Hr Hh'.
  pose proof (vi_hub _ Hv) as Hinv. pose proof (vi_conns _ Hv) as Hold.
  apply (viewers_conns h); try done. cbn. intros j cj [[<- <-]|[Hne Hcj]]%lookup_insert_Some Hreg; [|left; by apply (Hold j)].
  assert (c_handler c <> Registering) as Hh.
  { destruct Hr as [Hr|Hr]; [eapply (running_registered h i c); [done..|right; by rewrite Hr]|by rewrite Hr]. }
  right. exists c. split; [done|]. split; [done|]. set (left' := if bool_decide _ then closeSend c else c) in *.
  assert (c_request left' = c_request c /\ c_joined left' = c_joined c /\ c_logged left' = c_logged c /\ backlogs left' = backlogs c)
    as (E1 & E2 & E3 & E4) by (unfold left'; by destruct (bool_decide _)).
  destruct (c_reader c) eqn:Hrd; (split; [done|split; [done|]]); intros Hok.
  1,2,4: destruct Hr as [|Hr]; [done|]; unfold replay_ok; cbn; rewrite E1; destruct (c_request c); try done;
    intros Hw; destruct (go_early _ (conn_goroutines _ _ _ Hinv Hi)); [by rewrite Hr|done].
  apply (pump_replay _ c); try done. apply Hok.
Qed.

Lemma viewers_broadcast h msg o b : viewers_inv h -> memory_publish (h_backend h) msg = (o, b) ->
  hub_inv (broadcast h msg o b) -> viewers_inv (broadcast h msg o b).
Proof.
  intros Hv Hp Hh'.
  pose proof (vi_hub _ Hv) as Hinv. pose proof (vi_conns _ Hv) as Hold.
  destruct (publish_sent h msg o b (vi_sent _ Hv) Hp) as (Hs1 & Hs2 & _ & Hs4). split; [done|done|apply Hv|].
  intros i c Hi Hreg. destruct (Hold i c Hi Hreg) as [Hj Hlg Hln Hre]. split; try done.
  intros x Hx. specialize (Hln x Hx). destruct x as [[? ?] ?]. destruct Hln as [?|[?|?]]; [by left|right; left|right; right]; auto.
Qed.

Lemma viewers_append h runID stageID e : viewers_inv h -> h_pending h !! (runID, stageID) = None ->
  hub_inv (append_line h runID stageID e) -> viewers_inv (append_line h runID stageID e).
Proof.
  intros Hv Hp Hh'.
  pose proof (vi_hub _ Hv) as Hinv. pose proof (vi_conns _ Hv) as Hold.
  split; [done|apply Hv| |].
  + cbn. rewrite (vi_logs _ Hv). cbn. unfold after. by rewrite foldl_app.
  + intros i c Hi Hreg. destruct (Hold i c Hi Hreg) as [Hj Hlg Hln Hre]. split; [done|cbn; rewrite length_app; lia| |].
    * intros x. cbn. rewrite drop_app_le by done. intros [Hx|Hx%list_elem_of_singleton]%elem_of_app.
      -- specialize (Hln x Hx). destruct x as [[r s] e']. destruct Hln as [Hpe|?]; [|by right].
         left. cbn. rewrite lookup_insert_ne; [done|]. intros [= <- <-]. by rewrite Hp in Hpe.
      -- subst x. left. cbn. by rewrite lookup_insert_eq.
    * clear -Hre. unfold replay_ok in *. destruct (c_request c); try done.
      assert (forall es, answered (h_hist h) c runID0 stageID0 since es -> answered (h_hist h ++ [(runID, stageID, e)]) c runID0 stageID0 since es) as Ha.
      { intros es (k & ? & ? & ?). exists k. rewrite length_app, take_app_le by done. split_and!; [done|lia|done]. }
      destruct (c_handler c) as [|[rest|]| |]; try done.
      -- destruct Hre as (es & ? & ?). exists es. split; [by apply Ha|done].
      -- intros Hw. destruct (Hre Hw) as (es & ? & ?). exists es. split; [by apply Ha|done].
Qed.

Lemma viewers_line h runID stageID e o b : viewers_inv h -> h_pending h !! (runID, stageID) = Some e ->
  memory_publish (h_backend h) (frame_message runID stageID e) = (o, b) -> hub_inv (broadcast_line h runID stageID e o b) -> viewers_inv (broadcast_line h runID stageID e o b).
Proof.
  intros Hv Hpe Hp Hh'.
  pose proof (vi_hub _ Hv) as Hinv. pose proof (vi_conns _ Hv) as Hold.
  destruct (publish_sent h _ o b (vi_sent _ Hv) Hp) as (Hs1 & Hs2 & Hs3 & Hs4). split; [done|done|apply Hv|].
  intros i c Hi Hreg. destruct (Hold i c Hi Hreg) as [Hj Hlg Hln Hre]. split; try done.
  intros x Hx. specialize (Hln x Hx). destruct x as [[r s] e']. destruct (decide ((r, s) = (runID, stageID))) as [Heq|Hne].
  + injection Heq as -> ->. destruct Hln as [Hpe'|[?|?]]; [|right; left; cbn; auto|right; right; cbn; auto]. rewrite Hpe in Hpe'. injection Hpe' as <-. right. by apply Hs3.
  + destruct Hln as [Hpe'|[?|?]]; [left; cbn; by rewrite lookup_delete_ne|right; left; cbn; auto|right; right; cbn; auto].
Qed.

Lemma viewers_external h h' : viewers_inv h -> external allowedOrigins h h' -> viewers_inv h'.
Proof.
  intros Hv Hs. pose proof (external_inv _ _ _ (vi_hub _ Hv) Hs) as Hh'. pose proof (vi_hub _ Hv) as Hinv.
  assert (forall i c, h_conns h !! i = Some c -> c_handler c <> Registering -> viewer_ok h c) as Hold by apply Hv.
  destruct Hs as [i r origin Hi _|i c Hl Hi Hh|i c Hl Hi Hr|Hl Hr|i c m Hi Hh Hlogs|i c data rest Hi Hh|i c data rest Hi Hh|i c Hi Hh|
    i c data Hi Hw|i c ok Hi Hw|i c Hi Hr|msg o b Hp|runID stageID e Hp|runID stageID e o b Hpe Hp|b Hb|].
  - apply (viewers_conns h); try done. cbn. intros j cj [[<- <-]|[Hne Hcj]]%lookup_insert_Some Hreg; [done|]. left. by apply (Hold j).
  - by apply viewers_register.
  - by apply viewers_unregister.
  - apply (viewers_conns h); try done. cbn. intros j cj Hj Hreg. left. by apply (Hold j).
  - apply (viewers_conn h i c); try done; [by rewrite Hh|unfold read_backlog; by destruct (c_request c)..|].
    intros Hok. unfold read_backlog, replay_ok. destruct (c_request c) eqn:Hreq; rewrite ?Hreq; try done. cbn.
    pose proof (vw_replay _ _ Hok) as Hre. unfold replay_ok in Hre. rewrite Hreq, Hh in Hre.
    eexists. split; [|unfold backlogs in *; cbn; by rewrite Hre]. exists (length (h_hist h)). split; [apply Hok|]. split; [done|].
    rewrite firstn_all. rewrite (vi_logs _ Hv) in Hlogs. by injection Hlogs as <-.
  - apply (viewers_conn h i c); try done; [by rewrite Hh|]. intros Hok. pose proof (vw_replay _ _ Hok) as Hre. unfold replay_ok in *. cbn.
    rewrite Hh in Hre. destruct (c_request c); try done. destruct Hre as (es & Ha & He). exists es. split; [done|].
    rewrite <- He. unfold backlogs. cbn. by rewrite omap_app, <- (assoc_L (++)).
  - apply (viewers_conn h i c); try done; [by rewrite Hh|]. intros Hok. unfold replay_ok. cbn. by destruct (c_request c).
  - apply (viewers_conn h i c); try done; [by rewrite Hh|]. intros Hok. pose proof (vw_replay _ _ Hok) as Hre. unfold replay_ok in *. cbn.
    rewrite Hh in Hre. destruct (c_request c); try done. destruct Hre as (es & Ha & He). exists es. split; [done|].
    rewrite <- He. by rewrite app_nil_r.
  - apply (viewers_conn h i c); try done; [eapply (running_registered h i c); [done..|left; by rewrite Hw]|].
    intros Hok. apply (pump_replay _ c); try done; [by rewrite Hw|apply Hok].
  - apply (viewers_conn h i c); try done; [eapply (running_registered h i c); [done..|left; by rewrite Hw]|by destruct ok..|].
    intros Hok. apply (pump_replay _ c); try (by destruct ok); [|by rewrite Hw|apply Hok].
    destruct ok; [|done]. unfold backlogs. cbn. by rewrite omap_app, app_nil_r.
  - apply (viewers_conn h i c); try done; [eapply (running_registered h i c); [done..|right; by rewrite Hr]|].
    intros Hok. apply (pump_replay _ c); try done. apply Hok.
  - by apply viewers_broadcast.
  - by apply viewers_append.
  - by apply viewers_line.
  - done.
  - apply (viewers_conns h); try done. cbn. intros j cj Hj Hreg. left. by apply (Hold j).
Qed.
End viewers.

(** C17. On a server with the in-process hub backend and the in-memory log store, whoever
    opens the log of a stage, whenever, sees it to its end: when the hub has come to rest, a
    viewer in its map whose writer runs has on the connection, replayed or live, every line
    above its cursor that was logged for the stage, before or after it came; except for a
    line whose writer is about to broadcast it, one whose broadcast the backend refused, and
    one the bounded store had let go when it read the backlog.  (It is not so with the Redis
    backend, which accepts a message and loses it while the connection is down.) *)
Theorem stage_viewers_miss_nothing allowedOrigins maxBytes maxStreams h i c runID stageID since e :
  served (B := memoryHubBackend) allowedOrigins (Some (NewMemory maxBytes maxStreams)) h ->
  (forall h', ~ internal h h') -> h_loop h <> Ended ->
  h_conns h !! i = Some c -> c_request c = StageLogs runID stageID since -> i ∈ members h (c_channel c) ->
  c_writer c <> NotStarted -> c_writer c <> WriterDone ->
  (runID, stageID, e) ∈ h_hist h -> sinceOf since < en_Seq e ->
  Backlog (EncodeFrame runID stageID e) ∈ c_wire c \/ Text (EncodeFrame runID stageID e) ∈ c_wire c \/
  h_pending h !! (runID, stageID) = Some e \/ frame_message runID stageID e ∈ h_refused h \/
  exists k, (runID, stageID, e) ∈ take k (h_hist h) /\
    forall s, m_streams (after (NewMemory maxBytes maxStreams) (take k (h_hist h))) !! streamKey runID stageID = Some s -> e ∉ s_entries s.
Proof.
  intros Hs Hno Hne Hi Hreq Hm Hns Hnd He Hsince.
  assert (viewers_inv (NewMemory maxBytes maxStreams) h) as Hv.
  { revert Hs. apply reachable_invariant; [intros ? ->; split; [apply init_inv|done..]|].
    intros s s' Hv [Hs|Hs]; [by eapply viewers_internal|by eapply viewers_external]. }
  pose proof (vi_hub _ _ Hv) as Hinv.
  assert (c_handler c <> Registering) as Hh by (eapply (running_registered h i c); [done..|by left]).
  destruct (vi_conns _ _ Hv i c Hi Hh) as [Hj Hlg Hln Hre].
  destruct (streams_catch_up allowedOrigins _ h Hs) as [_ Hrest]. destruct (Hrest Hno Hne) as [Hbuf Hall].
  pose proof (Hall i c Hi Hm Hns Hnd) as Htx. clear Hall Hrest.
  rewrite <- (take_drop (c_logged c) (h_hist h)) in He. apply elem_of_app in He as [He|He].
  - unfold replay_ok in Hre. rewrite Hreq in Hre.
    assert (c_handler c = HandlerDone) as Hd.
    { destruct (c_handler c) eqn:Hd; try done; destruct (go_early _ (conn_goroutines _ _ _ Hinv Hi)); by rewrite ?Hd. }
    rewrite Hd in Hre. destruct (Hre Hns) as (es & (k & Hk1 & Hk2 & Hes) & Hback).
    destruct (decide (e ∈ es)) as [Hin|Hin].
    + left. assert (EncodeFrame runID stageID e ∈ backlogs c) as Hb by (rewrite Hback; by apply list_elem_of_fmap_2).
      unfold backlogs in Hb. apply list_elem_of_omap in Hb as (f & Hf & Hfe). destruct f; simplify_eq/=. done.
    + do 4 right. exists k. split; [|intros s Hst Hin'; apply Hin; rewrite Hes; unfold Read; rewrite Hst; by apply list_elem_of_filter]. 
      rewrite <- (take_drop (c_logged c) (take k (h_hist h))), take_take, Nat.min_l by done. apply elem_of_app. by left.
  - destruct (Hln _ He) as [Hp|[Hsent|Href]]; [by do 2 right; left| |by do 3 right; left].
    right. left. assert (h_sent h = h_taken h) as Es.
    { rewrite (vi_sent _ _ Hv). cbn in Hbuf. apply length_zero_iff_nil in Hbuf. by rewrite Hbuf, app_nil_r. }
    rewrite Es in Hsent. assert (EncodeFrame runID stageID e ∈ texts c) as Hb.
    { rewrite Htx. unfold offered, datas. apply list_elem_of_fmap. exists (frame_message runID stageID e). split; [done|].
      apply list_elem_of_filter. split; [|done]. unfold c_channel. by rewrite Hreq. }
    unfold texts in Hb. apply list_elem_of_omap in Hb as (f & Hf & Hfe). destruct f; simplify_eq/=. done.
Qed.

(** ** The wire format reads back *)

Lemma byte_of_chr b : 0 <= b < 256 -> byte_of (ascii_of_nat (Z.to_nat b)) = b.
Proof. intros Hb. unfold byte_of. rewrite nat_ascii_embedding by lia. lia. Qed.

Lemma byte_of_range a : 0 <= byte_of a < 256.
Proof. unfold byte_of. pose proof (nat_ascii_bounded a). lia. Qed.

Lemma chr_byte_of a : byte_chr (byte_of a) = String a "".
Proof. unfold byte_chr, byte_of, chr. by rewrite Nat2Z.id, ascii_nat_embedding. Qed.

Lemma Uint16_put n rest : 0 <= n < 65536 -> Uint16 (PutUint16 n +:+ rest) = n.
Proof.
  intros Hn. unfold PutUint16, byte_chr, chr. rewrite append_assoc.
  change (byte_of (ascii_of_nat (Z.to_nat (n / 256))) * 256 + byte_of (ascii_of_nat (Z.to_nat (n mod 256))) = n).
  rewrite !byte_of_chr by lia. lia.
Qed.

Lemma PutUint16_get a b : PutUint16 (byte_of a * 256 + byte_of b) = String a (String b "").
Proof.
  pose proof (byte_of_range a). pose proof (byte_of_range b). unfold PutUint16.
  replace ((byte_of a * 256 + byte_of b) / 256) with (byte_of a) by lia.
  replace ((byte_of a * 256 + byte_of b) mod 256) with (byte_of b) by lia. by rewrite !chr_byte_of.
Qed.

Lemma str_len_app a b : str_len (a +:+ b) = str_len a + str_len b.
Proof. unfold str_len. rewrite length_append. lia. Qed.

Lemma str_take_drop n s : 0 <= n <= str_len s -> str_take n s +:+ str_drop n s = s /\ str_len (str_take n s) = n.
Proof.
  unfold str_take, str_drop, str_len. intros Hn. rewrite <- (Z2Nat.id n) by lia. set (k := Z.to_nat n) in *. rewrite Nat2Z.id.
  assert (k <= String.length s)%nat as Hk by lia. clearbody k. clear Hn n. revert k Hk.
  assert (forall s, String.substring 0 (String.length s) s = s) as Hfull by (intros t; induction t as [|x t IHt]; [done|cbn; by rewrite IHt]).
  induction s as [|c s IH]; intros k Hk; [cbn in Hk; replace k with 0%nat by lia; by split|]. destruct k as [|k].
  - split; [|done]. rewrite Nat.sub_0_r. apply (Hfull (String c s)).
  - cbn in Hk |- *. destruct (IH k ltac:(lia)) as [H1 H2]. split; [change (String c (String.substring 0 k s +:+ String.substring k (String.length s - k) s) = String c s); by rewrite H1|]. apply Nat2Z.inj_iff in H2. by rewrite H2.
Qed.

(** Replicas understand each other: what a replica publishes is what the others
    decode, for every message whose channel name fits the length prefix, and only a longer
    name is refused; and a payload that decodes is the encoding of what it decodes to, so
    no two payloads stand for one message. *)
Theorem broadcast_roundtrip :
  (forall msg, match encodeBroadcast msg with Ok payload => decodeBroadcast payload = Ok msg | Err _ => 65535 < str_len (bm_Channel msg) end) /\
  (forall payload, match decodeBroadcast payload with
                   | Ok msg => encodeBroadcast msg = Ok payload
                   | Err _ => forall msg, encodeBroadcast msg <> Ok payload
                   end).
Proof.
  assert (forall msg, match encodeBroadcast msg with Ok payload => decodeBroadcast payload = Ok msg | Err _ => 65535 < str_len (bm_Channel msg) end) as Henc.
  { intros [ch data]. unfold encodeBroadcast. cbn. destruct (Z.ltb_spec 65535 (str_len ch)) as [|Hle]; [done|].
    assert (0 <= str_len ch) by (unfold str_len; lia). assert (0 <= str_len data) by (unfold str_len; lia).
    unfold decodeBroadcast, broadcastChannelLenBytes. rewrite Uint16_put by lia. rewrite !str_len_app.
    change (str_len (PutUint16 (str_len ch))) with 2. rewrite (proj2 (Z.ltb_ge _ _)) by lia. rewrite (proj2 (Z.ltb_ge _ _)) by lia.
    change 2 with (str_len (PutUint16 (str_len ch))). by rewrite str_drop_app, str_take_app, str_drop_app. }
  split; [exact Henc|]. intros payload. destruct (decodeBroadcast payload) as [msg|e] eqn:Hd.
  - unfold decodeBroadcast, broadcastChannelLenBytes in Hd. destruct (Z.ltb_spec (str_len payload) 2); [done|].
    destruct (Z.ltb_spec (str_len payload) (2 + Uint16 payload)) as [|Hlen]; [done|]. injection Hd as <-.
    destruct payload as [|a [|b rest]]; [unfold str_len in *; cbn in *; lia..|]. cbn [Uint16] in *.
    pose proof (byte_of_range a). pose proof (byte_of_range b). set (n := byte_of a * 256 + byte_of b) in *.
    assert (str_drop 2 (String a (String b rest)) = rest) as -> by apply (str_drop_app (String a (String b ""))).
    destruct (str_take_drop n rest) as [Heq Hl]; [unfold str_len in *; cbn in *; lia|].
    unfold encodeBroadcast. cbn [bm_Channel bm_Data]. rewrite Hl, (proj2 (Z.ltb_ge _ _)) by lia. rewrite Heq. unfold n. by rewrite PutUint16_get.
  - intros msg Hm. specialize (Henc msg). rewrite Hm in Henc. congruence.
Qed.

(** ** Redis comes back *)

(** The consumer, the hub's receives and [Close]. *)
Definition redis_step (b b' : redisHubBackend) : Prop :=
  consume b b' \/ (exists msg, Receive b = Message msg b') \/ b' = Close b.

(** Whatever the broker does, a failure is followed by a sleep of half a second to
    forty-five, and the local channel stays within its capacity. *)
Lemma consume_delays b : reachable (fun b => b = New) redis_step b ->
  (forall d, rb_at b = Sleeping d -> redisHubInitialBackoff <= d <= 45 * second) /\
  redisHubInitialBackoff <= rb_delay b <= redisHubMaxBackoff /\ Z.of_nat (length (rb_ch b)) <= channelCapacity.
Proof.
  assert (forall d draw, redisHubInitialBackoff <= d <= redisHubMaxBackoff -> redisHubInitialBackoff <= jittered d draw <= 45 * second /\
    redisHubInitialBackoff <= nextBackoff d redisHubMaxBackoff <= redisHubMaxBackoff) as Hj.
  { intros d draw. unfold jittered, secureJitter, nextBackoff, redisHubInitialBackoff, redisHubMaxBackoff, millisecond, second.
    intros Hd. rewrite (proj2 (Z.leb_gt _ _)) by lia. pose proof (Z.mod_pos_bound draw (d / 2 + 1) ltac:(lia)).
    assert (d / 2 <= 15 * 1000000000) by lia. set (m := draw mod _) in *. clearbody m. destruct (Z.ltb_spec (30 * 1000000000) (d * 2)); lia. }
  apply (reachable_invariant (fun b => b = New) redis_step (fun b =>
    (forall d, rb_at b = Sleeping d -> redisHubInitialBackoff <= d <= 45 * second) /\
    redisHubInitialBackoff <= rb_delay b <= redisHubMaxBackoff /\ Z.of_nat (length (rb_ch b)) <= channelCapacity)).
  - intros ? ->. cbn. split_and!; try done. 
  - intros s s' (Hs & Hd & Hc) [Hst|[[msg Hr]| ->]]; [|cbn in Hr; unfold redis_receive in Hr|by cbn].
    + destruct Hst as [|? draw|? payload|? draw| |]; cbn; split_and!; try done; try (intros ? [= <-]); try (by apply Hj); try apply Hd; try (by apply Hj in Hd).
      * intros d. unfold drain_one. repeat case_match; try apply Hs; cbn; apply Hs.
      * unfold drain_one. repeat case_match; try apply Hd; cbn; apply Hd.
      * unfold drain_one. repeat case_match; try apply Hd; cbn; apply Hd.
      * unfold drain_one. repeat case_match; try done. cbn. rewrite length_app. cbn. reflect_bools. lia.
    + destruct (rb_ch s) eqn:Hch; [by destruct (rb_closed s)|]. injection Hr as <- <-. cbn in *. split_and!; try done; try apply Hd. lia.
Qed.

(** ** Witnesses: a line before the viewer and a line after *)

Module Demo.
Definition origins : list string := ["*"].
Definition logs : Memory := NewMemory 1000 4.
Definition viewer : request := StageLogs "r" "s" "".
Definition one : Entry := mkEntry 1 0 "one".
Definition two : Entry := mkEntry 2 0 "two".

Abbreviation hub := (WebSocketHub memoryHubBackend).
Definition on (h : hub) (f : Client -> hub) : hub := match h_conns h !! 0%nat with Some c => f c | None => h end.
Definition local (h : hub) (f : Client -> Client) : hub := on h (fun c => set_conn h 0 (f c)).
Definition publish (h : hub) (msg : BroadcastMessage) : memoryHubBackend := (memory_publish (h_backend h) msg).2.
Definition rest (h : hub) : memoryHubBackend := match Receive (h_backend h) with Message _ b => b | _ => h_backend h end.

Definition h1 : hub := append_line (NewWebSocketHub (Some logs)) "r" "s" one.
Definition h2 : hub := broadcast_line h1 "r" "s" one Accepted (publish h1 (frame_message "r" "s" one)).
Definition h3 : hub := take_message h2 (frame_message "r" "s" one) (rest h2) [].
Definition h4 : hub := set_loop h3 Selecting.
Definition h5 : hub := set_conn h4 0 (newClient viewer).
Definition h6 : hub := on h5 (register h5 0).
Definition h7 : hub := local h6 (fun c => read_backlog c (Append logs "r" "s" one)).
Definition h8 : hub := local h7 (fun c => write (set_goroutines c (Replaying (Some [])) NotStarted NotReading) [Backlog (EncodeFrame "r" "s" one)]).
Definition h9 : hub := local h8 start_pumps.
Definition h10 : hub := append_line h9 "r" "s" two.
Definition h11 : hub := broadcast_line h10 "r" "s" two Accepted (publish h10 (frame_message "r" "s" two)).
Definition h12 : hub := take_message h11 (frame_message "r" "s" two) (rest h11) [0%nat].
Definition h13 : hub := on h12 (fun c => send_to h12 (frame_message "r" "s" two) 0 c [] []).
Definition h14 : hub := set_loop h13 Selecting.
Definition h15 : hub := local h14 (fun c => receive_send c (EncodeFrame "r" "s" two) []).
Definition h16 : hub := local h15 (fun c => write (set_goroutines c (c_handler c) Waiting (c_reader c)) [Text (EncodeFrame "r" "s" two)]).

Definition final : Client := default (newClient viewer) (h_conns h16 !! 0%nat).
End Demo.

Import Demo.

Lemma demo_served : served origins (Some logs) h16.
Proof.
  assert (served origins (Some logs) h4) as H4.
  { eapply (reach_step _ _ h3); [|left; by apply (i_sent h3 (frame_message "r" "s" one) [])].
    eapply (reach_step _ _ h2); [|left; by apply i_take].
    eapply (reach_step _ _ h1); [|right; by apply e_line].
    eapply reach_step; [by apply reach_init|right; by apply e_append]. }
  assert (served origins (Some logs) h9) as H9.
  { eapply (reach_step _ _ h8); [|right; by eapply (e_replayed _ h8 0)].
    eapply (reach_step _ _ h7); [|right; by eapply (e_replay _ h7 0 _ (EncodeFrame "r" "s" one) [])].
    eapply (reach_step _ _ h6); [|right; by eapply (e_read _ h6 0 _ (Append logs "r" "s" one))].
    eapply (reach_step _ _ h5); [|right; by eapply (e_register _ h5 0)].
    eapply (reach_step _ _ h4); [exact H4|right; by apply (e_connect _ h4 0 viewer "")]. }
  eapply (reach_step _ _ h15); [|left; by eapply (i_write h15 0)].
  eapply (reach_step _ _ h14); [|left; by eapply (i_receive h14 0)].
  eapply (reach_step _ _ h13); [|left; by apply (i_sent h13 (frame_message "r" "s" two) [])].
  eapply (reach_step _ _ h12); [|left; by eapply (i_send h12 _ 0)].
  eapply (reach_step _ _ h11); [|left; by apply i_take].
  eapply (reach_step _ _ h10); [|right; by apply e_line].
  eapply (reach_step _ _ h9); [exact H9|right; by apply e_append].
Qed.

Lemma demo_rest h' : ~ internal h16 h'.
Proof.
  assert (h_conns h16 = {[0%nat := final]}) as Hc by (vm_compute; reflexivity).
  intros Hs. destruct Hs as [msg b order Hl Hr Hord|msg i c todo dropped Hl Hi|msg dropped Hl|msg i c rest' Hl Hi|msg Hl|i c data send Hi Hw Hs|
    i c data Hi Hw|i c ok1 ok2 Hi Hw Hs Hcl]; try (vm_compute in Hl; discriminate); try (vm_compute in Hr; discriminate).
  all: rewrite Hc in Hi; apply lookup_singleton_Some in Hi as [<- <-].
  - vm_compute in Hs. discriminate.
  - vm_compute in Hw. discriminate.
  - vm_compute in Hcl. discriminate.
Qed.

Lemma streams_have_no_holes_witness :
  served origins (Some logs) h16 /\ texts final `prefix_of` offered h16 final /\ h_panicked h16 = false.
Proof.
  destruct (streams_have_no_holes origins (Some logs) h16 0 final demo_served ltac:(vm_compute; reflexivity) ltac:(vm_compute; discriminate))
    as (Hp & _ & _ & _ & Hn & _).
  split; [exact demo_served|]. split; [exact Hp|exact Hn].
Defined.

Lemma streams_catch_up_witness : served origins (Some logs) h16 /\ texts final = offered h16 final.
Proof.
  split; [exact demo_served|].
  destruct (streams_catch_up origins (Some logs) h16 demo_served) as [_ Hrest].
  destruct (Hrest demo_rest ltac:(vm_compute; discriminate)) as [_ Hall].
  apply (Hall 0%nat final ltac:(vm_compute; reflexivity) ltac:(apply (bool_decide_eq_true_1 _); vm_compute; reflexivity)
           ltac:(vm_compute; discriminate) ltac:(vm_compute; discriminate)).
Defined.

Lemma stage_viewers_miss_nothing_witness :
  Backlog (EncodeFrame "r" "s" one) ∈ c_wire final \/ Text (EncodeFrame "r" "s" one) ∈ c_wire final \/
  h_pending h16 !! ("r", "s") = Some one \/ frame_message "r" "s" one ∈ h_refused h16 \/
  exists k, ("r", "s", one) ∈ take k (h_hist h16) /\
    forall s, m_streams (after (NewMemory 1000 4) (take k (h_hist h16))) !! streamKey "r" "s" = Some s -> one ∉ s_entries s.
Proof.
  apply (stage_viewers_miss_nothing origins 1000 4 h16 0 final "r" "s" "" one demo_served demo_rest).
  - vm_compute. discriminate.
  - vm_compute. reflexivity.
  - vm_compute. reflexivity.
  - apply (bool_decide_eq_true_1 _). vm_compute. reflexivity.
  - vm_compute. discriminate.
  - vm_compute. discriminate.
  - apply (bool_decide_eq_true_1 _). vm_compute. reflexivity.
  - vm_compute. reflexivity.
Defined.

(** What the viewer of the example was sent. *)
Example demo_wire : c_wire final = [Backlog (EncodeFrame "r" "s" one); Text (EncodeFrame "r" "s" two)].
Proof. vm_compute. reflexivity. Qed.

(** ** What the code does that its comments do not say *)

(** A broadcast after the in-process backend was closed panics: the send is on a closed
    channel, which the [default] case does not prevent. *)
Example publish_after_close_panics msg : (memory_publish (Close (New : memoryHubBackend)) msg).1 = Panics.
Proof. reflexivity. Qed.

(** A client that comes and goes leaves its channel in the map for good. *)
Example channels_stay :
  let h0 : hub := set_conn (NewWebSocketHub None) 0 (newClient (PipelineRun "r")) in
  let h1 := on h0 (register h0 0) in
  let h2 := local h1 (fun c => set_goroutines c (c_handler c) (c_writer c) Unregistering) in
  let h3 := on h2 (unregister h2 0) in
  (h_clients h3, c_closed <$> h_conns h3 !! 0%nat) = ({["pipeline-run:r" := ∅]}, Some true).
Proof. vm_compute. reflexivity. Qed.

(** Every attempt of a stage has a line writer of its own, which counts from one again: a
    viewer that saw two lines of the first attempt and comes back with that cursor is not
    sent the second attempt's lines, which are in the store. *)
Example retry_restarts_numbers :
  let clock (_ : Z) := 0 in
  let attempt (text : string) := (fun e => ("r", "s", e)) <$> write_stage clock (newLineWriter true true) [text] in
  let nl := byte_chr 10 in
  let m := after (NewMemory 1000 4) (attempt ("first" +:+ nl +:+ "failed" +:+ nl) ++ attempt ("second" +:+ nl)) in
  (en_Line <$> Read m "r" "s" 2, en_Line <$> Read m "r" "s" 0) = ([], ["first"; "failed"; "second"]).
Proof. vm_compute. reflexivity. Qed.

(** [CheckOrigin]: everything with a lone star, nothing else that is not listed. *)
Example origins_ex :
  (CheckOrigin ["*"] "", CheckOrigin ["*"; "https://a"] "https://b", CheckOrigin ["https://a"] "https://a", CheckOrigin [""] "") =
  (true, false, true, false).
Proof. vm_compute. reflexivity. Qed.
