(* ===== verification/GoFloat.v ===== *)
(** * [strconv.ParseFloat], [strconv.FormatFloat] and conversions of [float64]

    Parsing rounds the exact value to the nearest double, ties to even; printing with
    precision -1 takes the fewest digits that read back.  They model the language's
    library, on the standard library's executable binary64. *)

From Stdlib Require Import Ascii SpecFloat.
From S2P Require Import Prelude GoStr.
Local Open Scope Z_scope.

(** ** Rounding *)

(** The double nearest to [num / den], for [0 <= num] and [0 < den]. *)
Definition round_ratio (num den : Z) : spec_float :=
  match num with
  | Zpos n => match den with Zpos d => SFdiv 53 1024 (S754_finite false n 0) (S754_finite false d 0) | _ => S754_nan end
  | _ => S754_zero false
  end.

(** The nearest to [m * base ^ e]. *)
Definition round_scaled (m base e : Z) : spec_float :=
  if 0 <=? e then round_ratio (m * base ^ e) 1 else round_ratio m (base ^ (- e)).

Definition with_sign (neg : bool) (x : spec_float) : spec_float := if neg then SFopp x else x.

Definition is_nan (x : spec_float) : bool := match x with S754_nan => true | _ => false end.
Definition is_inf (x : spec_float) : bool := match x with S754_infinity _ => true | _ => false end.
Definition float_eq (x y : spec_float) : bool := match SFcompare x y with Some Eq => true | _ => false end.
(** [x < 0]; false of NaN. *)
Definition is_negative (x : spec_float) : bool := match SFcompare x (S754_zero false) with Some Lt => true | _ => false end.

Definition float_of_int (n : Z) : spec_float := binary_normalize 53 1024 n 0 false.
Definition float_mul (x y : spec_float) : spec_float := SFmul 53 1024 x y.

(** [int64(x)] truncates; a value that does not fit is the implementation's choice,
    [beyond]. *)
Definition int64_of_float (beyond : spec_float -> Z) (x : spec_float) : Z :=
  match x with
  | S754_zero _ => 0
  | S754_finite s m e =>
      let n := if 0 <=? e then Zpos m * 2 ^ e else Zpos m / 2 ^ (- e) in
      let n := if s then - n else n in
      if (int64_min <=? n) && (n <=? int64_max) then n else beyond x
  | _ => beyond x
  end.

(** ** [ParseFloat(s, 64)] *)

Definition lower_byte (b : Z) : Z := if (65 <=? b) && (b <=? 90) then b + 32 else b.
Definition is_decimal (b : Z) : bool := (48 <=? b) && (b <=? 57).

(** A digit in base 10 or 16. *)
Definition digit_value (hex : bool) (b : Z) : option Z :=
  if is_decimal b then Some (b - 48)
  else if hex && (97 <=? lower_byte b) && (lower_byte b <=? 102) then Some (lower_byte b - 87) else None.

Fixpoint bytes_of (s : string) : list Z :=
  match s with EmptyString => [] | String c s => byte_of c :: bytes_of s end.

(** A sign in front. *)
Definition read_sign (l : list Z) : bool * list Z :=
  match l with 43 :: l => (false, l) | 45 :: l => (true, l) | _ => (false, l) end.

(** [special]: infinities and NaN, whatever the case. *)
Definition special (l : list Z) : option spec_float :=
  let low := lower_byte <$> l in
  if decide (low = bytes_of "nan") then Some S754_nan else
  let '(neg, l) := read_sign low in
  if bool_decide (l = bytes_of "inf") || bool_decide (l = bytes_of "infinity") then Some (S754_infinity neg) else None.

(** The digits, with at most one point; underscores are skipped.  The mantissa, the
    number of digits after the point, whether there were digits, and the rest. *)
Fixpoint read_digits (hex : bool) (l : list Z) (m frac : Z) (point saw : bool) : Z * Z * bool * list Z :=
  match l with
  | [] => (m, frac, saw, [])
  | b :: l' =>
      if b =? 95 then read_digits hex l' m frac point saw
      else if (b =? 46) && negb point then read_digits hex l' m frac true saw
      else match digit_value hex b with
           | Some d => read_digits hex l' (m * (if hex then 16 else 10) + d) (if point then frac + 1 else frac) point true
           | None => (m, frac, saw, l)
           end
  end.

(** The digits of an exponent, which stops growing at 10000. *)
Fixpoint read_exponent (l : list Z) (e : Z) : Z * list Z :=
  match l with
  | b :: l' => if b =? 95 then read_exponent l' e
               else if is_decimal b then read_exponent l' (if e <? 10000 then e * 10 + (b - 48) else e) else (e, l)
  | [] => (e, [])
  end.

(** [underscoreOK]: only between digits, or after a base prefix. *)
Inductive last_seen := SawStart | SawDigit | SawUnderscore | SawOther.
Fixpoint underscores_from (hex : bool) (saw : last_seen) (l : list Z) : bool :=
  match l with
  | [] => match saw with SawUnderscore => false | _ => true end
  | b :: l =>
      if bool_decide (is_Some (digit_value hex b)) then underscores_from hex SawDigit l
      else if b =? 95 then match saw with SawDigit => underscores_from hex SawUnderscore l | _ => false end
      else match saw with SawUnderscore => false | _ => underscores_from hex SawOther l end
  end.
Definition underscoreOK (l : list Z) : bool :=
  match (read_sign l).2 with
  | 48 :: b :: l' =>
      if (lower_byte b =? 98) || (lower_byte b =? 111) || (lower_byte b =? 120)
      then underscores_from (lower_byte b =? 120) SawDigit l' else underscores_from false SawStart (48 :: b :: l')
  | l => underscores_from false SawStart l
  end.

(** [ParseFloat]; no value for a syntax error or a value out of range. *)
Definition ParseFloat (s : string) : option spec_float :=
  let all := bytes_of s in
  match special all with
  | Some x => Some x
  | None =>
      let '(neg, l) := read_sign all in
      let '(hex, l) := match l with 48 :: b :: ((_ :: _) as l') => if lower_byte b =? 120 then (true, l') else (false, l) | _ => (false, l) end in
      let '(m, frac, saw, l) := read_digits hex l 0 0 false false in
      if negb saw then None else
      let exponent :=
        match l with
        | b :: l' =>
            if lower_byte b =? (if hex then 112 else 101) then
              let '(eneg, l') := read_sign l' in
              match l' with
              | d :: _ => if is_decimal d then let '(e, l') := read_exponent l' 0 in Some (if eneg then - e else e, l') else None
              | [] => None
              end
            else if hex then None else Some (0, l)
        | [] => if hex then None else Some (0, l)
        end in
      match exponent with
      | Some (e, []) =>
          if existsb (fun b => b =? 95) all && negb (underscoreOK all) then None else
          let x := if hex then round_scaled m 2 (e - 4 * frac) else round_scaled m 10 (e - frac) in
          if is_inf x then None else Some (with_sign neg x)
      | _ => None
      end
  end.

(** ** [FormatFloat(x, 'f', -1, 64)] *)

(** The number of digits of [num / den] before the point, at most 0 when below 1:
    the least [p] with [num < den * 10 ^ p]. *)
Fixpoint magnitude_up (fuel : nat) (num den p : Z) : Z :=
  match fuel with
  | O => p
  | S fuel => if num <? den * 10 ^ p then p else magnitude_up fuel num den (p + 1)
  end.
Fixpoint magnitude_down (fuel : nat) (num den p : Z) : Z :=
  match fuel with
  | O => p
  | S fuel => if num * 10 ^ (1 - p) <? den then magnitude_down fuel num den (p - 1) else p
  end.

(** A double has at most 309 digits before the point, and its first is at most 324 after. *)
Definition magnitude (num den : Z) : Z :=
  if den <=? num then magnitude_up 310 num den 1 else magnitude_down 330 num den 0.

(** The [k]-digit decimals around [num / den] that read back as [x], nearest first. *)
Definition candidate (x : spec_float) (num den p k : Z) : option Z :=
  let '(n, d) := if 0 <=? k - p then (num * 10 ^ (k - p), den) else (num, den * 10 ^ (p - k)) in
  let lo := n / d in
  let order := if 2 * (n - lo * d) <=? d then [lo; lo + 1] else [lo + 1; lo] in
  head (filter (fun c => float_eq (round_scaled c 10 (p - k)) x = true) order).

Fixpoint shortest (fuel : nat) (x : spec_float) (num den p k : Z) : Z * Z :=
  match candidate x num den p k, fuel with
  | Some c, _ => (c, k)
  | None, S fuel => shortest fuel x num den p (k + 1)
  | None, O => (0, k)
  end.

Fixpoint dec_fuel (fuel : nat) (n : Z) (acc : string) : string :=
  match fuel with
  | O => acc
  | S fuel => let acc := String (ascii_of_nat (Z.to_nat (48 + n mod 10))) acc in if n / 10 =? 0 then acc else dec_fuel fuel (n / 10) acc
  end.

Definition zeros (n : Z) : string := String.concat "" (repeat "0" (Z.to_nat n)).

(** Seventeen digits always read back. *)
Definition format_positive (x : spec_float) (num den : Z) : string :=
  let p := magnitude num den in
  let '(c, k) := shortest 16 x num den p 1 in
  (* rounding up to the next power of ten leaves a single digit *)
  let '(c, p) := if c =? 10 ^ k then (1, p + 1) else (c, p) in
  let digits := dec_fuel 20 c "" in
  let n := str_len digits in
  if p <=? 0 then "0." +:+ zeros (- p) +:+ digits
  else if n <=? p then digits +:+ zeros (p - n)
  else str_take p digits +:+ "." +:+ str_drop p digits.

Definition FormatFloat (x : spec_float) : string :=
  match x with
  | S754_zero s => if s then "-0" else "0"
  | S754_infinity s => if s then "-Inf" else "+Inf"
  | S754_nan => "NaN"
  | S754_finite s m e =>
      (if s then "-" else "") +:+
      (if 0 <=? e then format_positive (S754_finite false m e) (Zpos m * 2 ^ e) 1
       else format_positive (S754_finite false m e) (Zpos m) (2 ^ (- e)))
  end.

Example format_ex :
  (fun s => FormatFloat <$> ParseFloat s) <$> ["0.5"; "1.50"; "100"; "0.1"; "3e22"; "1e-7"; "123456789.125"; "9999999999999999"; "0x1p-2"; "1_0.5"] =
  [Some "0.5"; Some "1.5"; Some "100"; Some "0.1"; Some "30000000000000000000000"; Some "0.0000001"; Some "123456789.125";
   Some "10000000000000000"; Some "0.25"; Some "10.5"].
Proof. vm_compute. reflexivity. Qed.

Example parse_ex :
  ParseFloat <$> [""; "1.2.3"; "1e"; "0x1"; "_1"; "1e999"; "-Infinity"; "nan"; "+nan"] =
  [None; None; None; None; None; None; Some (S754_infinity true); Some S754_nan; None].
Proof. vm_compute. reflexivity. Qed.
