(* ===== verification/Compose.v ===== *)
(** * Compose files: [internal/service/compose_graph.go], [compose_edit.go] and the
      compose handlers of [internal/handler/docker.go]

    The graph shown for a compose file, and the edit of one of its services.  The YAML
    package is not modelled: the decoded document, the node tree and the encoder are
    arguments.  A value of type [interface{}] is what that package decodes into. *)

From Stdlib Require Import Ascii SpecFloat.
From S2P Require Import Prelude GoStr GoPath GoFloat Model Outputs AppDeploy.
Local Open Scope Z_scope.

(** ** Decoded values *)

(** A map is listed in the order a [range] visits it; its keys are distinct. *)
Inductive any :=
| ANil | ABool (b : bool) | AInt (n : Z) | AFloat (x : spec_float) | AString (s : string)
| ASeq (l : list any) | AMap (m : list (string * any)).

Definition as_string (v : any) : option string := match v with AString s => Some s | _ => None end.

(** [s, _ := m[key].(string)]. *)
Fixpoint string_at (key : string) (m : list (string * any)) : option string :=
  match m with
  | [] => None
  | (k, v) :: m => if k =s key then as_string v else string_at key m
  end.

Record composeServiceDef := mkServiceDef {
  cd_Image : string; cd_Build : any; cd_Ports : list string; cd_Environment : any; cd_DependsOn : any;
  cd_Networks : list string; cd_Volumes : list string; cd_Command : any; cd_Labels : any;
  cd_MemLimit : string; cd_Cpus : any; cd_LimitsMemory : string; cd_LimitsCPUs : any
}.

Record composeFile := mkComposeFile {
  cf_Services : gmap string composeServiceDef; cf_Networks : gmap string any; cf_Volumes : gmap string any
}.

(** ** The fields of a service *)

(** [strings.Contains] and [strings.SplitN(s, sep, 2)] for one byte. *)
Fixpoint str_contains (sub s : string) : bool :=
  has_prefix sub s || match s with String _ s => str_contains sub s | EmptyString => false end.

Definition env_item (result : gmap string string) (item : any) : gmap string string :=
  match item with
  | AString s => match cut "=" s with Some (k, v) => <[k := v]> result | None => <[s := ""]> result end
  | _ => result
  end.

Definition parseEnvToMap (env : any) : gmap string string :=
  match env with
  | AMap m => foldl (fun result '(k, v) => match v with AString s => <[k := s]> result | _ => result end) ∅ m
  | ASeq items => foldl env_item ∅ items
  | _ => ∅
  end.

(** A nil map reads as the empty one. *)
Definition parseLabels (labels : any) : gmap string string := parseEnvToMap labels.

Definition ComposeGroupLabel : string := "com.cooker.group".

Definition deriveGroup (labels : gmap string string) (networks : list string) : string :=
  let g := default "" (labels !! ComposeGroupLabel) in
  if negb (g =s "") then g
  else match networks with [n] => if n =s "" then "default" else n | _ => "default" end.

Definition stringifyCPUs (v : any) : string :=
  match v with
  | AString s => trim_space s
  | AFloat x => FormatFloat x
  | AInt n => if n <? 0 then "-" +:+ itoa (- n) else itoa n
  | _ => ""
  end.

Definition has_suffix (suffix s : string) : bool := has_prefix (str_rev suffix) (str_rev s).
Definition trim_suffix (suffix s : string) : string :=
  if has_suffix suffix s then str_take (str_len s - str_len suffix) s else s.

(** The multiplier of a unit and the number without it. *)
Definition memory_unit (s : string) : Z * string :=
  if has_suffix "gb" s || has_suffix "g" s then (2 ^ 30, trim_suffix "g" (trim_suffix "b" s))
  else if has_suffix "mb" s || has_suffix "m" s then (2 ^ 20, trim_suffix "m" (trim_suffix "b" s))
  else if has_suffix "kb" s || has_suffix "k" s then (2 ^ 10, trim_suffix "k" (trim_suffix "b" s))
  else if has_suffix "b" s then (1, trim_suffix "b" s)
  else (1, s).

Section numbers.
(** The conversion of a float beyond [int64]. *)
Variable beyond : spec_float -> Z.

Definition parseMemoryBytes (s : string) : Z :=
  let s := trim_space (to_lower s) in
  if s =s "" then 0 else
  let '(mult, s) := memory_unit s in
  match ParseFloat (trim_space s) with
  | None => 0
  | Some n => if is_negative n then 0 else int64_of_float beyond (float_mul n (float_of_int mult))
  end.

Definition parseNanoCPUs (s : string) : Z :=
  let s := trim_space s in
  if s =s "" then 0 else
  match ParseFloat s with
  | None => 0
  | Some n => if is_negative n then 0 else int64_of_float beyond (float_mul n (float_of_int 1000000000))
  end.

Definition parseResources (svc : composeServiceDef) : option ResourceLimits :=
  let mem := if cd_LimitsMemory svc =s "" then cd_MemLimit svc else cd_LimitsMemory svc in
  let cpus := stringifyCPUs (cd_LimitsCPUs svc) in
  let cpus := if cpus =s "" then stringifyCPUs (cd_Cpus svc) else cpus in
  if (mem =s "") && (cpus =s "") then None
  else Some (mkResourceLimits mem (parseMemoryBytes mem) cpus (parseNanoCPUs cpus)).

Definition parseDependsOn (dep : any) : list string :=
  match dep with
  | ASeq items => omap as_string items
  | AMap m => m.*1
  | _ => []
  end.

Definition parseCommand (cmd : any) : string :=
  match cmd with
  | AString s => s
  | ASeq items => join " " (omap as_string items)
  | _ => ""
  end.

(** [nil] for a value that is neither a string nor a map. *)
Definition parseBuild (build : any) : option ComposeBuild :=
  match build with
  | AString s => Some (mkComposeBuild "" s "" ∅)
  | AMap m => Some (mkComposeBuild "" (default "" (string_at "context" m)) (default "" (string_at "dockerfile" m)) ∅)
  | _ => None
  end.

Definition compose_service (name : string) (svc : composeServiceDef) : ComposeService :=
  let labels := parseLabels (cd_Labels svc) in
  mkComposeService name (cd_Image svc) (parseBuild (cd_Build svc)) (cd_Ports svc) (parseEnvToMap (cd_Environment svc))
    (parseDependsOn (cd_DependsOn svc)) (cd_Networks svc) (cd_Volumes svc) (parseCommand (cd_Command svc)) [] None "" "unknown"
    labels (deriveGroup labels (cd_Networks svc)) (parseResources svc) false.

(** ** The graph *)

Definition conn_key (c : ComposeConnection) : string := cn_Source c +:+ "->" +:+ cn_Target c +:+ ":" +:+ cn_Type c.

(** [if !connSet[key] { ... }]. *)
Definition add_connection (st : gset string * list ComposeConnection) (c : ComposeConnection) : gset string * list ComposeConnection :=
  if decide (conn_key c ∈ st.1) then st else ({[conn_key c]} ∪ st.1, st.2 ++ [c]).

Section graph.
Context {RO : RangeOrder}.

Definition depends_connections (name : string) (service : ComposeService) : list ComposeConnection :=
  (fun dep => mkConnection name dep "depends_on" "depends_on") <$> svc_DependsOn service.

Definition env_connections (serviceNames : list string) (name : string) (service : ComposeService) : list ComposeConnection :=
  '(envKey, envVal) ← range_map (svc_Environment service);
  omap (fun other => if negb (other =s name) && str_contains other envVal
                     then Some (mkConnection name other "env_reference" envKey) else None) serviceNames.

(** One round of the loop over the services. *)
Definition add_file_service (serviceNames : list string) (st : list ComposeService * (gset string * list ComposeConnection))
    (entry : string * composeServiceDef) : list ComposeService * (gset string * list ComposeConnection) :=
  let '(name, def) := entry in
  let service := compose_service name def in
  (st.1 ++ [service],
   foldl add_connection (foldl add_connection st.2 (depends_connections name service)) (env_connections serviceNames name service)).

(** The names are collected by a loop of their own, in an order of its own: [names]. *)
Definition build_graph (names : gmap string composeServiceDef -> list string) (cf : composeFile) : ComposeGraph :=
  let serviceNames := names (cf_Services cf) in
  let '(services, (_, connections)) := foldl (add_file_service serviceNames) ([], (∅, [])) (range_map (cf_Services cf)) in
  mkComposeGraph services connections (range_map (cf_Networks cf)).*1 (range_map (cf_Volumes cf)).*1.

(** [Unmarshal] is [yaml.Unmarshal] into a [composeFile]. *)
Definition ParseComposeGraph (names : gmap string composeServiceDef -> list string) (Unmarshal : string -> option composeFile) (data : string) : option ComposeGraph :=
  build_graph names <$> Unmarshal data.
End graph.
End numbers.

(** ** The node tree: [compose_edit.go] *)

Inductive kind := DocumentNode | SequenceNode | MappingNode | ScalarNode | AliasNode.

(** [yaml.Node]: kind, flow style, double quotes, tag, value, content, line, column.
    Comments and anchors travel with the encoder. *)
Inductive Node := mkNode (k : kind) (flow quoted : bool) (tag value : string) (content : list Node) (line column : Z).

Definition nd_Kind (n : Node) : kind := match n with mkNode k _ _ _ _ _ _ _ => k end.
Definition nd_Flow (n : Node) : bool := match n with mkNode _ f _ _ _ _ _ _ => f end.
Definition nd_Tag (n : Node) : string := match n with mkNode _ _ _ t _ _ _ _ => t end.
Definition nd_Value (n : Node) : string := match n with mkNode _ _ _ _ v _ _ _ => v end.
Definition nd_Content (n : Node) : list Node := match n with mkNode _ _ _ _ _ c _ _ => c end.
Definition nd_Line (n : Node) : Z := match n with mkNode _ _ _ _ _ _ l _ => l end.
Definition nd_Column (n : Node) : Z := match n with mkNode _ _ _ _ _ _ _ c => c end.
Definition set_content (n : Node) (c : list Node) : Node :=
  match n with mkNode k f q t v _ l col => mkNode k f q t v c l col end.

Definition is_mapping (n : Node) : bool := match nd_Kind n with MappingNode => true | _ => false end.
Definition is_sequence (n : Node) : bool := match nd_Kind n with SequenceNode => true | _ => false end.

(** Keys and values alternate; a key left over is skipped by every loop. *)
Fixpoint mappingIndex (content : list Node) (key : string) : option nat :=
  match content with
  | k :: _ :: rest => if nd_Value k =s key then Some O else (fun i => S (S i)) <$> mappingIndex rest key
  | _ => None
  end.

Fixpoint mappingValue (content : list Node) (key : string) : option Node :=
  match content with
  | k :: v :: rest => if nd_Value k =s key then Some v else mappingValue rest key
  | _ => None
  end.

Definition scalarNode (v : string) : Node := mkNode ScalarNode false false "!!str" v [] 0 0.

Fixpoint setKey (content : list Node) (key : string) (val : Node) : list Node :=
  match content with
  | k :: v :: rest => if nd_Value k =s key then k :: val :: rest else k :: v :: setKey rest key val
  | rest => rest ++ [scalarNode key; val]
  end.

Fixpoint deleteKey (content : list Node) (key : string) : list Node :=
  match content with
  | k :: v :: rest => if nd_Value k =s key then rest else k :: v :: deleteKey rest key
  | rest => rest
  end.

Definition quotedSeqNode (items : list string) : Node :=
  mkNode SequenceNode false false "!!seq" "" ((fun it => mkNode ScalarNode false true "!!str" it [] 0 0) <$> items) 0 0.

(** The keys of a mapping, in order. *)
Fixpoint mapping_keys (content : list Node) : list string :=
  match content with k :: _ :: rest => nd_Value k :: mapping_keys rest | _ => [] end.

(** The keys of a sequence of [KEY=value] items. *)
Definition item_key (item : Node) : string := match cut "=" (nd_Value item) with Some (k, _) => k | None => nd_Value item end.

(** The loop that keeps the first occurrence of each key that stays. *)
Definition keep_key (env : gmap string string) (keys : list string) (k : string) : list string :=
  if bool_decide (is_Some (env !! k)) && negb (bool_decide (k ∈ keys)) then keys ++ [k] else keys.

Section order.
Context {RO : RangeOrder}.

Definition envKeyOrder (existing : option Node) (env : gmap string string) : list string :=
  let listed := match existing with
                | Some n => match nd_Kind n with
                            | SequenceNode => item_key <$> nd_Content n
                            | MappingNode => mapping_keys (nd_Content n)
                            | _ => []
                            end
                | None => []
                end in
  let keys := foldl (keep_key env) [] listed in
  let fresh := filter (fun k => k ∉ keys) (range_map env).*1 in
  keys ++ sort_strings fresh.
End order.

Definition env_at (env : gmap string string) (k : string) : string := default "" (env !! k).

Definition envSeqNode (keys : list string) (env : gmap string string) : Node :=
  mkNode SequenceNode false false "!!seq" "" ((fun k => scalarNode (k +:+ "=" +:+ env_at env k)) <$> keys) 0 0.

Definition envMapNode (keys : list string) (env : gmap string string) : Node :=
  mkNode MappingNode false false "!!map" "" (k ← keys; [scalarNode k; scalarNode (env_at env k)]) 0 0.

(** *** The patch *)

(** [None] leaves the field alone; an empty value removes the key. *)
Record ComposeServicePatch := mkPatch {
  cp_Image : option string; cp_Ports : option (list string); cp_Environment : option (gmap string string)
}.

Definition patch_image (p : ComposeServicePatch) (content : list Node) : list Node :=
  match cp_Image p with
  | None => content
  | Some image => if image =s "" then deleteKey content "image" else setKey content "image" (scalarNode image)
  end.

Definition patch_ports (p : ComposeServicePatch) (content : list Node) : list Node :=
  match cp_Ports p with
  | None => content
  | Some [] => deleteKey content "ports"
  | Some ports => setKey content "ports" (quotedSeqNode ports)
  end.

Definition patch_environment `{RangeOrder} (p : ComposeServicePatch) (content : list Node) : list Node :=
  match cp_Environment p with
  | None => content
  | Some env =>
      let existing := mappingValue content "environment" in
      let keys := envKeyOrder existing env in
      if bool_decide (env = ∅) then deleteKey content "environment"
      else match existing with
           | Some n => setKey content "environment" (if is_sequence n then envSeqNode keys env else envMapNode keys env)
           | None => setKey content "environment" (envMapNode keys env)
           end
  end.

Definition patch_service `{RangeOrder} (p : ComposeServicePatch) (content : list Node) : list Node :=
  patch_environment p (patch_ports p (patch_image p content)).

(** *** The splice *)

Definition newline : ascii := ascii_of_nat 10.
Definition lines_of (s : string) : list string := split_on newline s.

Definition isBlankOrComment (line : string) : bool :=
  let t := trim_space line in (t =s "") || has_prefix "#" t.

Fixpoint leading_blanks (s : string) : string :=
  match s with
  | String c s' => if Ascii.eqb c " " || Ascii.eqb c (ascii_of_nat 9) then String c (leading_blanks s') else ""
  | EmptyString => ""
  end.

(** [strings.TrimRight(s, "\n")]. *)
Fixpoint trim_newlines_left (s : string) : string :=
  match s with String c s' => if Ascii.eqb c newline then trim_newlines_left s' else s | EmptyString => "" end.
Definition trim_newlines (s : string) : string := str_rev (trim_newlines_left (str_rev s)).

(** The line after the service's block: the next service's key, or the next key of the
    document, or the end. *)
Fixpoint next_root_line (content : list Node) (key_line end' : Z) : Z :=
  match content with
  | k :: _ :: rest => next_root_line rest key_line (if (key_line <? nd_Line k) && (nd_Line k <? end') then nd_Line k else end')
  | _ => end'
  end.

Definition block_end (lines : list string) (root services : list Node) (idx : nat) (key : Node) : Z :=
  match services !! (idx + 2)%nat with
  | Some next => nd_Line next
  | None => next_root_line root (nd_Line key) (Z.of_nat (length lines) + 1)
  end.

(** The loop that leaves trailing blank lines and comments to what follows: of [n] lines
    from [start], those that stay in the block. *)
Fixpoint block_size (lines : list string) (start n : nat) : nat :=
  match n with
  | O => O
  | S m => if isBlankOrComment (default "" (lines !! (start + m)%nat)) then block_size lines start m else n
  end.

(** The indentation of the first line of the block that has text. *)
Definition block_indent (block : list string) (key : Node) : string :=
  match filter (fun l => isBlankOrComment l = false) block with
  | l :: _ => leading_blanks l
  | [] => String.concat "" (repeat " " (Z.to_nat (nd_Column key + 1)))
  end.

Definition indent_line (indent l : string) : string := if l =s "" then "" else indent +:+ l.

Section yaml.
Context `{RO : RangeOrder}.
(** [yaml.Unmarshal] into a node, and the encoder with an indent of 2. *)
Variable Unmarshal : string -> option Node.
Variable encodeNode : Node -> option string.

(** [svc] is the edited value of the key at [idx].  [take] and [drop] stop at the end where
    a slice beyond it panics; the positions the parser gives are lines of the source. *)
Definition spliceService (src : string) (root services : list Node) (idx : nat) (key svc : Node) : option string :=
  if (nd_Line svc <=? nd_Line key) || nd_Flow svc then None else
  let lines := lines_of src in
  let start := Z.to_nat (nd_Line key) in
  let end' := block_end lines root services idx key in
  let n := block_size lines start (Z.to_nat (end' - 1 - nd_Line key)) in
  match encodeNode svc with
  | None => None
  | Some body =>
      let indent := block_indent (take n (drop start lines)) key in
      Some (join (String newline "")
              (take start lines ++ (indent_line indent <$> lines_of (trim_newlines body)) ++
         drop (if end' - 1 <? nd_Line key then Z.to_nat (end' - 1) else (start + n)%nat) lines))
  end.

Inductive patch_error := ErrInvalidComposeYAML | ErrComposeServiceNotFound | EncodeFailed.

Definition PatchComposeService (src name : string) (p : ComposeServicePatch) : result patch_error string :=
  match Unmarshal src with
  | None => Err ErrInvalidComposeYAML
  | Some doc =>
      match nd_Kind doc, nd_Content doc with
      | DocumentNode, root :: others =>
          if negb (is_mapping root) then Err ErrComposeServiceNotFound else
          match mappingIndex (nd_Content root) "services" with
          | None => Err ErrComposeServiceNotFound
          | Some at' =>
              match nd_Content root !! S at' with
              | None => Err ErrComposeServiceNotFound
              | Some services =>
                  if negb (is_mapping services) then Err ErrComposeServiceNotFound else
                  match mappingIndex (nd_Content services) name with
                  | None => Err ErrComposeServiceNotFound
                  | Some idx =>
                      match nd_Content services !! idx, nd_Content services !! S idx with
                      | Some key, Some svc =>
                          if negb (is_mapping svc) then Err ErrComposeServiceNotFound else
                          let svc := set_content svc (patch_service p (nd_Content svc)) in
                          match spliceService src (nd_Content root) (nd_Content services) idx key svc with
                          | Some out => Ok out
                          | None =>
                              let services := set_content services (<[S idx := svc]> (nd_Content services)) in
                              let root := set_content root (<[S at' := services]> (nd_Content root)) in
                              match encodeNode (set_content doc (root :: others)) with Some out => Ok out | None => Err EncodeFailed end
                          end
                      | _, _ => Err ErrComposeServiceNotFound
                      end
                  end
              end
          end
      | _, _ => Err ErrComposeServiceNotFound
      end
  end.
End yaml.

(** ** The handlers: [internal/handler/docker.go] *)

Definition has_separator (name : string) : bool := str_contains "/" name || str_contains (chr (ascii_of_nat 92)) name.

(** [baseAbs] is [filepath.Abs] of the configured directory; every error reads the same. *)
Definition resolveComposePath (baseAbs : option string) (name : string) : option string :=
  let name := if name =s "" then "docker-compose.yml" else name in
  if has_separator name || has_prefix "." name || IsAbs name then None else
  match baseAbs with
  | None => None
  | Some baseAbs =>
      let candidate := Join baseAbs name in
      if negb (has_prefix (baseAbs +:+ "/") candidate) && negb (candidate =s baseAbs) then None else Some candidate
  end.

Inductive compose_reply :=
| Graph (g : ComposeGraph) | Updated (service : string) (g : ComposeGraph)
| NothingToUpdate | InvalidFilename | CannotRead | InvalidYAML | ServiceNotFound | CannotWrite | NoLongerParses.

Definition compose_status (r : compose_reply) : Z :=
  match r with
  | Graph _ | Updated _ _ => 200
  | NothingToUpdate | InvalidFilename | CannotRead | InvalidYAML => 400
  | ServiceNotFound => 404
  | CannotWrite | NoLongerParses => 500
  end.

Section handlers.
Context `{RO : RangeOrder}.
Variable names : gmap string composeServiceDef -> list string.
Variable beyond : spec_float -> Z.
Variable baseAbs : option string.
Variable UnmarshalFile : string -> option composeFile.
Variable Unmarshal : string -> option Node.
Variable encodeNode : Node -> option string.

(** The file system: the files that can be read, by path. *)
Definition files : Type := gmap string string.

Definition ParseComposeFile (fs : files) (composePath : string) : compose_reply :=
  match resolveComposePath baseAbs composePath with
  | None => InvalidFilename
  | Some resolved =>
      match fs !! resolved with
      | None => CannotRead
      | Some data => match ParseComposeGraph beyond names UnmarshalFile data with Some g => Graph g | None => InvalidYAML end
      end
  end.

(** The first half of [UpdateComposeService]: what it read and what it will write. *)
Definition prepare_update (fs : files) (name composePath : string) (p : ComposeServicePatch) : result compose_reply (string * string) :=
  match cp_Image p, cp_Ports p, cp_Environment p with
  | None, None, None => Err NothingToUpdate
  | _, _, _ =>
      match resolveComposePath baseAbs composePath with
      | None => Err InvalidFilename
      | Some resolved =>
          match fs !! resolved with
          | None => Err CannotRead
          | Some data =>
              match PatchComposeService Unmarshal encodeNode data name p with
              | Err ErrComposeServiceNotFound => Err ServiceNotFound
              | Err _ => Err InvalidYAML
              | Ok out => Ok (resolved, out)
              end
          end
      end
  end.

(** The second half; [wrote] tells whether the temporary file could be written and renamed. *)
Definition commit_update (fs : files) (name : string) (wrote : bool) (todo : string * string) : compose_reply * files :=
  let '(resolved, out) := todo in
  if negb wrote then (CannotWrite, fs) else
  (match ParseComposeGraph beyond names UnmarshalFile out with Some g => Updated name g | None => NoLongerParses end, <[resolved := out]> fs).

Definition UpdateComposeService (fs : files) (name composePath : string) (p : ComposeServicePatch) (wrote : bool) : compose_reply * files :=
  match prepare_update fs name composePath p with
  | Err r => (r, fs)
  | Ok todo => commit_update fs name wrote todo
  end.
End handlers.

(** ** The graph of a file *)

Definition triple (c : ComposeConnection) : string * string * string := (cn_Source c, cn_Target c, cn_Type c).

(** Without [>] a service's name ends where the key says. *)
Definition no_arrow (name : string) : Prop := ascii_of_nat 62 ∉ str_chars name.

Definition connection_ok (c : ComposeConnection) : Prop :=
  no_arrow (cn_Source c) /\ (cn_Type c = "depends_on" \/ cn_Type c = "env_reference").

Lemma cut_unique {A} (x : A) l l' r r' : x ∉ l -> x ∉ l' -> l ++ x :: r = l' ++ x :: r' -> l = l' /\ r = r'.
Proof.
  revert l'. induction l as [|a l IH]; intros [|b l'] Hl Hl' Heq; cbn in Heq; simplify_eq; [done|set_solver|set_solver|].
  destruct (IH l') as [-> ->]; [set_solver|set_solver|done|done].
Qed.

Lemma str_chars_inj a b : str_chars a = str_chars b -> a = b.
Proof. intros H. rewrite <- (String.string_of_list_ascii_of_string a), <- (String.string_of_list_ascii_of_string b). unfold str_chars in H. by rewrite H. Qed.

Lemma conn_key_inj c c' : connection_ok c -> connection_ok c' -> conn_key c = conn_key c' -> triple c = triple c'.
Proof.
  destruct c as [s t ty l], c' as [s' t' ty' l']. intros [Hs Hty] [Hs' Hty'] Hk. cbn in *. unfold conn_key in Hk. cbn in Hk.
  apply (f_equal str_chars) in Hk. rewrite !chars_append in Hk.
  assert (forall a b, str_chars a ++ str_chars "->" ++ b = (str_chars a ++ ["-"%char]) ++ ascii_of_nat 62 :: b) as Hsplit
    by (intros; by rewrite <- (assoc_L (++))).
  rewrite !Hsplit in Hk. apply cut_unique in Hk as [H1 H2]; [|unfold no_arrow in *; set_solver..].
  apply app_inj_2 in H1 as [H1 _]; [|done]. apply str_chars_inj in H1. subst s'.
  assert (ty = ty') as ->.
  { destruct Hty as [-> | ->], Hty' as [-> | ->]; try done; exfalso; apply (f_equal (fun l => last l)) in H2;
      rewrite !last_app in H2; discriminate. }
  apply app_inj_2 in H2 as [H2 _]; [|done]. apply str_chars_inj in H2. by subst.
Qed.

Lemma add_connections_spec cs seen out :
  seen = list_to_set (conn_key <$> out) -> NoDup (conn_key <$> out) ->
  let st := foldl add_connection (seen, out) cs in
  st.1 = list_to_set (conn_key <$> st.2) /\ NoDup (conn_key <$> st.2) /\
  (forall c, c ∈ st.2 -> c ∈ out \/ c ∈ cs) /\
  (forall c, c ∈ out \/ c ∈ cs -> conn_key c ∈ conn_key <$> st.2).
Proof.
  revert seen out. induction cs as [|c cs IH]; intros seen out Hseen Hnd.
  - cbn. split_and!; [done|done|by left|]. intros c [Hc|Hc]; [by apply list_elem_of_fmap_2|by apply not_elem_of_nil in Hc].
  - cbv zeta in *. cbn [foldl]. replace (add_connection (seen, out) c) with
      (if decide (conn_key c ∈ seen) then (seen, out) else ({[conn_key c]} ∪ seen, out ++ [c])) by done.
    destruct (decide (conn_key c ∈ seen)) as [Hin|Hin].
    + destruct (IH seen out Hseen Hnd) as (H1 & H2 & H3 & H4). split_and!; [done|done| |].
      * intros c' Hc'. destruct (H3 c' Hc'); [by left|right; by right].
      * intros c' [Hc'|Hc']; [by apply H4; left|]. apply elem_of_cons in Hc' as [->|Hc']; [|by apply H4; right].
        rewrite Hseen, elem_of_list_to_set in Hin. apply list_elem_of_fmap in Hin as (c0 & Hk & Hc0). rewrite Hk. apply H4. by left.
    + destruct (IH ({[conn_key c]} ∪ seen) (out ++ [c])) as (H1 & H2 & H3 & H4).
      * rewrite fmap_app, list_to_set_app_L, Hseen. cbn. set_solver.
      * rewrite fmap_app. apply NoDup_app. split_and!; [done| |apply NoDup_singleton]. intros k Hk ->%list_elem_of_singleton. apply Hin.
        by rewrite Hseen, elem_of_list_to_set.
      * split_and!; [done|done| |].
        -- intros c' Hc'. destruct (H3 c' Hc') as [Ho|Hcs]; [|right; by right]. apply elem_of_app in Ho as [Ho|Ho%list_elem_of_singleton]; [by left|right; subst; left].
        -- intros c' [Hc'|Hc']; [apply H4; left; apply elem_of_app; by left|]. apply elem_of_cons in Hc' as [->|Hc']; [|by apply H4; right].
           apply H4. left. apply elem_of_app. right. by apply list_elem_of_singleton.
Qed.

Section graph_facts.
Context {RO : RangeOrder}.
Variable beyond : spec_float -> Z.
Variable names : gmap string composeServiceDef -> list string.
Hypothesis names_order : forall m, names m ≡ₚ (map_to_list m).*1.

Lemma elem_of_names m k : k ∈ names m <-> is_Some (m !! k).
Proof.
  rewrite names_order, list_elem_of_fmap. split.
  - intros ([k' v] & -> & Hkv). apply elem_of_map_to_list in Hkv. by eexists.
  - intros [v Hv]. exists (k, v). split; [done|]. by apply elem_of_map_to_list.
Qed.

(** The connections a service contributes. *)
Definition candidates (serviceNames : list string) (entry : string * composeServiceDef) : list ComposeConnection :=
  let service := compose_service beyond entry.1 entry.2 in
  depends_connections entry.1 service ++ env_connections serviceNames entry.1 service.

Lemma add_services_flat serviceNames entries services st :
  foldl (add_file_service beyond serviceNames) (services, st) entries =
  (services ++ ((fun e => compose_service beyond e.1 e.2) <$> entries), foldl add_connection st (entries ≫= candidates serviceNames)).
Proof.
  revert services st. induction entries as [|[name def] entries IH]; intros services st; [by rewrite app_nil_r|].
  cbn [foldl]. unfold add_file_service at 2. cbn [fst snd]. rewrite IH. f_equal.
  - cbn. by rewrite <- (assoc_L (++)).
  - cbn [mbind list_bind]. unfold candidates at 2. cbn [fst snd]. by rewrite !foldl_app.
Qed.

(** A reference of a service to another, as the file has it. *)
Definition refers (cf : composeFile) (s t ty : string) : Prop :=
  exists def, cf_Services cf !! s = Some def /\
    ((ty = "depends_on" /\ t ∈ parseDependsOn (cd_DependsOn def)) \/
     (ty = "env_reference" /\ t <> s /\ is_Some (cf_Services cf !! t) /\
      exists k v, parseEnvToMap (cd_Environment def) !! k = Some v /\ str_contains t v = true)).

Lemma elem_of_service_candidates (cf : composeFile) name def c : cf_Services cf !! name = Some def ->
  c ∈ candidates (names (cf_Services cf)) (name, def) ->
  cn_Source c = name /\ refers cf (cn_Source c) (cn_Target c) (cn_Type c).
Proof.
  intros Hdef. unfold candidates. cbn. rewrite elem_of_app. intros [Hc|Hc].
  - apply list_elem_of_fmap in Hc as (dep & -> & Hdep). cbn. split; [done|]. exists def. split; [done|]. by left.
  - unfold env_connections in Hc. apply list_elem_of_bind in Hc as ([k v] & Hc & Hkv). apply elem_of_range in Hkv.
    apply list_elem_of_omap in Hc as (other & Hother & Hc). destruct (_ && _) eqn:Hb; [|done]. injection Hc as <-. reflect_bools. cbn.
    split; [done|]. exists def. split; [done|]. right. apply elem_of_names in Hother. eauto 10.
Qed.

Lemma refers_candidate (cf : composeFile) s t ty def : cf_Services cf !! s = Some def -> refers cf s t ty ->
  exists label, mkConnection s t ty label ∈ candidates (names (cf_Services cf)) (s, def).
Proof.
  intros Hdef (def' & Hdef' & Hr). rewrite Hdef in Hdef'. injection Hdef' as <-. unfold candidates. cbn.
  destruct Hr as [[-> Hdep]|(-> & Hne & Ht & k & v & Hkv & Hsub)].
  - exists "depends_on". apply elem_of_app. left. unfold depends_connections. apply list_elem_of_fmap. by exists t.
  - exists k. apply elem_of_app. right. unfold env_connections. apply list_elem_of_bind. exists (k, v).
    split; [|by apply elem_of_range]. apply list_elem_of_omap. exists t. split; [by apply elem_of_names|].
    by rewrite (proj2 (String.eqb_neq _ _) Hne), Hsub.
Qed.

(** C30. The graph is the file's: whatever order the maps are visited in, it has each
    service of the file once, and its connections are, each once, exactly the dependencies
    the services declare and the other services whose names occur in the values of their
    environments; as long as no service has the character > in its name. *)
Theorem graph_is_the_files cf : (forall name, is_Some (cf_Services cf !! name) -> no_arrow name) ->
  let g := build_graph beyond names cf in
  g_Services g ≡ₚ (fun e => compose_service beyond e.1 e.2) <$> map_to_list (cf_Services cf) /\
  NoDup (triple <$> g_Connections g) /\
  forall s t ty, (s, t, ty) ∈ triple <$> g_Connections g <-> refers cf s t ty.
Proof.
  intros Hnames. unfold build_graph. cbv zeta. rewrite add_services_flat. cbn [app].
  set (entries := range_map (cf_Services cf)). set (sn := (names (cf_Services cf))).
  destruct (add_connections_spec (entries ≫= candidates sn) ∅ [] eq_refl ltac:(constructor)) as (_ & Hnd & Hsound & Hcomp).
  destruct (foldl add_connection (∅, []) (entries ≫= candidates sn)) as [seen out]. cbn [g_Services g_Connections snd] in *.
  assert (forall c, c ∈ entries ≫= candidates sn -> connection_ok c /\ refers cf (cn_Source c) (cn_Target c) (cn_Type c)) as Hcand.
  { intros c Hc. apply list_elem_of_bind in Hc as ([name def] & Hc & Hin). apply elem_of_range in Hin.
    destruct (elem_of_service_candidates cf name def c Hin Hc) as [Hs Hr]. split; [|done]. split; [rewrite Hs; apply Hnames; by eexists|].
    destruct Hr as (? & _ & [[? _]|[? _]]); auto. }
  assert (forall c, c ∈ out -> connection_ok c /\ refers cf (cn_Source c) (cn_Target c) (cn_Type c)) as Hout.
  { intros c Hc. destruct (Hsound c Hc) as [Hc'|Hc']; [by apply not_elem_of_nil in Hc'|by apply Hcand]. }
  split_and!.
  - unfold entries. by rewrite (range_map_perm _ _ _ _ (cf_Services cf)).
  - clear -Hnd Hout. induction out as [|c out IH]; [constructor|]. apply NoDup_cons in Hnd as [Hc Hnd]. constructor.
    + intros Hin. apply Hc. apply list_elem_of_fmap in Hin as (c' & Ht & Hc'). apply list_elem_of_fmap. exists c'. split; [|done].
      unfold conn_key. unfold triple in Ht. by injection Ht as -> -> ->.
    + apply IH; [done|]. intros c' Hc'. apply Hout. by right.
  - intros s t ty. rewrite list_elem_of_fmap. split.
    + intros (c & Heq & Hc). injection Heq as -> -> ->. by apply Hout.
    + intros Hr. pose proof Hr as (def & Hdef & _). destruct (refers_candidate cf s t ty def Hdef Hr) as [label Hl].
      assert (mkConnection s t ty label ∈ entries ≫= candidates sn) as Hin.
      { apply list_elem_of_bind. exists (s, def). split; [done|]. by apply elem_of_range. }
      specialize (Hcomp _ (or_intror Hin)). apply list_elem_of_fmap in Hcomp as (c & Hk & Hc). exists c. split; [|done].
      apply (conn_key_inj (mkConnection s t ty label)); [by apply Hcand|by apply Hout|done].
Qed.
End graph_facts.

(** ** The order of the environment's keys *)

Lemma keep_keys_spec env listed : forall keys, NoDup keys -> (forall k, k ∈ keys -> is_Some (env !! k)) ->
  let keys' := foldl (keep_key env) keys listed in
  NoDup keys' /\ (forall k, k ∈ keys' -> is_Some (env !! k)).
Proof.
  induction listed as [|k listed IH]; intros keys Hnd Hin; [done|]. apply IH; unfold keep_key; destruct (_ && _) eqn:Hb; try done; reflect_bools.
  - apply NoDup_app. split_and!; [done| |apply NoDup_singleton]. by intros x Hx ->%list_elem_of_singleton.
  - intros x [Hx| ->%list_elem_of_singleton]%elem_of_app; [by apply Hin|done].
Qed.

(** Each key of the new environment once. *)
Lemma envKeyOrder_keys `{RangeOrder} existing env :
  NoDup (envKeyOrder existing env) /\ (forall k, k ∈ envKeyOrder existing env <-> is_Some (env !! k)).
Proof.
  unfold envKeyOrder. set (listed := match existing with Some _ => _ | None => _ end).
  destruct (keep_keys_spec env listed [] ltac:(constructor) ltac:(set_solver)) as [Hnd Hin].
  set (keys := foldl (keep_key env) [] listed) in *. split.
  - apply NoDup_app. split_and!; [done| |].
    + intros k Hk. unfold sort_strings. rewrite elem_of_sort_slice, list_elem_of_filter. tauto.
    + unfold sort_strings. rewrite sort_slice_perm. apply NoDup_filter, NoDup_range_fst.
  - intros k. unfold sort_strings. rewrite elem_of_app, elem_of_sort_slice, list_elem_of_filter, elem_of_range_fst.
    destruct (decide (k ∈ keys)) as [Hk|Hk]; [|tauto]. split; [by intros _; apply Hin|tauto].
Qed.

(** ** Mappings *)

(** The content of a mapping node: keys and values alternate. *)
Definition flat (ps : list (Node * Node)) : list Node := ps ≫= (fun kv => [kv.1; kv.2]).
Definition pair_key (kv : Node * Node) : string := nd_Value kv.1.

(** A mapping as the parser gives it, with distinct keys. *)
Definition well_formed (content : list Node) : Prop := exists ps, content = flat ps /\ NoDup (pair_key <$> ps).

Lemma mapping_keys_flat ps : mapping_keys (flat ps) = pair_key <$> ps.
Proof. induction ps as [|[k v] ps IH]; [done|]. cbn. f_equal. exact IH. Qed.

Lemma mappingValue_None ps key : key ∉ pair_key <$> ps -> mappingValue (flat ps) key = None.
Proof.
  induction ps as [|[k v] ps IH]; intros Hk; [done|]. cbn in *. apply not_elem_of_cons in Hk as [Hne Hk].
  rewrite (proj2 (String.eqb_neq _ _)) by done. by apply IH.
Qed.

Lemma setKey_flat ps key val : NoDup (pair_key <$> ps) ->
  well_formed (setKey (flat ps) key val) /\
  (forall k, mappingValue (setKey (flat ps) key val) k = if k =s key then Some val else mappingValue (flat ps) k) /\
  mapping_keys (setKey (flat ps) key val) = (pair_key <$> ps) ++ (if bool_decide (key ∈ pair_key <$> ps) then [] else [key]).
Proof.
  intros Hnd. enough (exists ps', setKey (flat ps) key val = flat ps' /\
    (forall k, mappingValue (flat ps') k = if k =s key then Some val else mappingValue (flat ps) k) /\
    pair_key <$> ps' = (pair_key <$> ps) ++ (if bool_decide (key ∈ pair_key <$> ps) then [] else [key])) as (ps' & -> & Hv & Hk).
  { rewrite mapping_keys_flat. split_and!; [|done|done]. exists ps'. split; [done|]. rewrite Hk. apply NoDup_app. split_and!; [done| |].
    - intros k Hin. case_bool_decide; [apply not_elem_of_nil|]. intros ->%list_elem_of_singleton. done.
    - case_bool_decide; [constructor|apply NoDup_singleton]. }
  induction ps as [|[kn v] ps IH]; cbn.
  - exists [(scalarNode key, val)]. split_and!; [done| |done]. intros k. cbn. by rewrite (String.eqb_sym key k).
  - cbn in Hnd. apply NoDup_cons in Hnd as [Hni Hnd]. destruct (String.eqb_spec (nd_Value kn) key) as [<-|Hne].
    + exists ((kn, val) :: ps). split_and!; [done| |].
      * intros k. cbn. rewrite (String.eqb_sym k). by destruct (nd_Value kn =s k).
      * rewrite bool_decide_eq_true_2 by (by left). by rewrite app_nil_r.
    + destruct (IH Hnd) as (ps' & Heq & Hv & Hk). exists ((kn, v) :: ps'). split_and!.
      * change (flat ((kn, v) :: ps')) with (kn :: v :: flat ps'). rewrite <- Heq. done.
      * intros k. cbn. rewrite Hv. destruct (String.eqb_spec (nd_Value kn) k) as [<-|]; [|done].
        by rewrite (proj2 (String.eqb_neq _ _) Hne).
      * cbn. f_equal. rewrite Hk. f_equal. change (pair_key (kn, v)) with (nd_Value kn).
        rewrite (bool_decide_ext (key ∈ nd_Value kn :: (pair_key <$> ps)) (key ∈ pair_key <$> ps)); [done|]. rewrite elem_of_cons. naive_solver.
Qed.

Lemma deleteKey_flat ps key : NoDup (pair_key <$> ps) ->
  well_formed (deleteKey (flat ps) key) /\
  (forall k, mappingValue (deleteKey (flat ps) key) k = if k =s key then None else mappingValue (flat ps) k) /\
  mapping_keys (deleteKey (flat ps) key) = filter (fun k => k <> key) (pair_key <$> ps).
Proof.
  intros Hnd. enough (exists ps', deleteKey (flat ps) key = flat ps' /\
    (forall k, mappingValue (flat ps') k = if k =s key then None else mappingValue (flat ps) k) /\
    pair_key <$> ps' = filter (fun k => k <> key) (pair_key <$> ps)) as (ps' & -> & Hv & Hk).
  { rewrite mapping_keys_flat. split_and!; [|done|done]. exists ps'. split; [done|]. rewrite Hk. by apply NoDup_filter. }
  induction ps as [|[kn v] ps IH]; cbn -[filter].
  - exists []. split_and!; [done| |done]. intros k. by destruct (k =s key).
  - cbn in Hnd. apply NoDup_cons in Hnd as [Hni Hnd]. change (pair_key (kn, v)) with (nd_Value kn) in *.
    destruct (String.eqb_spec (nd_Value kn) key) as [<-|Hne].
    + exists ps. split_and!; [done| |].
      * intros k. cbn. rewrite (String.eqb_sym k). destruct (String.eqb_spec (nd_Value kn) k) as [<-|]; [|done]. by apply mappingValue_None.
      * rewrite filter_cons_False by tauto. by rewrite filter_all_ne.
    + destruct (IH Hnd) as (ps' & Heq & Hv & Hk). exists ((kn, v) :: ps'). split_and!.
      * change (flat ((kn, v) :: ps')) with (kn :: v :: flat ps'). rewrite <- Heq. done.
      * intros k. cbn. rewrite Hv. destruct (String.eqb_spec (nd_Value kn) k) as [<-|]; [|done].
        by rewrite (proj2 (String.eqb_neq _ _) Hne).
      * rewrite filter_cons_True by done. cbn -[filter]. by rewrite Hk.
Qed.

(** ** What an edited service reads as *)

(** Documented: the value a node decodes into.  A scalar tagged [!!str] is its text; a
    sequence is the list of its items; a mapping with distinct text keys is a map. *)
Class YamlValues := {
  value_of : Node -> any;
  value_str n : nd_Kind n = ScalarNode -> nd_Tag n = "!!str" -> value_of n = AString (nd_Value n);
  value_seq n : nd_Kind n = SequenceNode -> value_of n = ASeq (value_of <$> nd_Content n);
  value_map n ps : nd_Kind n = MappingNode -> nd_Content n = flat ps ->
    Forall (fun kv => nd_Kind kv.1 = ScalarNode /\ nd_Tag kv.1 = "!!str") ps -> NoDup (pair_key <$> ps) ->
    exists m, value_of n = AMap m /\ m ≡ₚ (fun kv => (pair_key kv, value_of kv.2)) <$> ps
}.

Section reads_back.
Context `{RO : RangeOrder} `{YamlValues}.

Lemma value_scalar v : value_of (scalarNode v) = AString v.
Proof. by apply value_str. Qed.

Lemma value_quoted items : value_of (quotedSeqNode items) = ASeq (AString <$> items).
Proof.
  rewrite value_seq by done. cbn. f_equal. rewrite <- list_fmap_compose. apply list_fmap_ext. intros i x _. by apply value_str.
Qed.

(** Insertions of distinct keys commute. *)
Lemma env_insertions (env : gmap string string) (kvs : list (string * string)) : NoDup kvs.*1 ->
  (forall k v, (k, v) ∈ kvs -> env !! k = Some v) -> (forall k v, env !! k = Some v -> (k, v) ∈ kvs) ->
  foldl (fun result '(k, v) => <[k := v]> result) ∅ kvs = env.
Proof.
  intros Hnd Hin Hall. assert (foldl (fun result '(k, v) => <[k := v]> result) ∅ kvs = list_to_map (reverse kvs)) as ->.
  { clear. induction kvs as [|[k v] kvs IH] using rev_ind; [done|]. rewrite foldl_app, reverse_app. cbn. by rewrite IH. }
  apply map_eq. intros k. apply option_eq. intros v.
  rewrite <- elem_of_list_to_map by (by rewrite fmap_reverse, reverse_Permutation).
  rewrite elem_of_reverse. split; [apply Hin|apply Hall].
Qed.

Lemma foldl_map_strings (m : list (string * any)) (kvs : list (string * string)) : m ≡ₚ (fun kv => (kv.1, AString kv.2)) <$> kvs ->
  exists kvs', kvs' ≡ₚ kvs /\
    foldl (fun result '(k, v) => match v with AString s => <[k := s]> result | _ => result end) (∅ : gmap string string) m =
    foldl (fun result '(k, v) => <[k := v]> result) ∅ kvs'.
Proof.
  intros Hp. apply Permutation_map_inv in Hp as (kvs' & -> & Hp). exists kvs'. split; [by symmetry|].
  generalize (∅ : gmap string string). clear. induction kvs' as [|[k v] kvs' IH]; intros result; [done|]. cbn. apply IH.
Qed.

Definition env_pairs (keys : list string) (env : gmap string string) : list (string * string) := (fun k => (k, env_at env k)) <$> keys.

Lemma env_pairs_complete keys env : (forall k, k ∈ keys <-> is_Some (env !! k)) ->
  (forall k v, (k, v) ∈ env_pairs keys env <-> env !! k = Some v).
Proof.
  intros Hk k v. unfold env_pairs, env_at. rewrite list_elem_of_fmap. split.
  - intros (k' & [= -> ->] & Hin). apply Hk in Hin as [v Hv]. by rewrite Hv.
  - intros Hv. exists k. rewrite Hv. split; [done|]. apply Hk. by eexists.
Qed.

Lemma env_pairs_read keys env kvs : NoDup keys -> (forall k, k ∈ keys <-> is_Some (env !! k)) -> kvs ≡ₚ env_pairs keys env ->
  foldl (fun result '(k, v) => <[k := v]> result) ∅ kvs = env.
Proof.
  intros Hnd Hk Hp. apply env_insertions.
  - rewrite Hp. unfold env_pairs. rewrite <- list_fmap_compose. cbn. by rewrite list_fmap_id.
  - intros k v. rewrite Hp. apply env_pairs_complete, Hk.
  - intros k v. rewrite Hp. apply env_pairs_complete, Hk.
Qed.

(** A mapping of the new environment reads as it. *)
Lemma envMapNode_reads keys env : NoDup keys -> (forall k, k ∈ keys <-> is_Some (env !! k)) ->
  parseEnvToMap (value_of (envMapNode keys env)) = env.
Proof.
  intros Hnd Hk. destruct (value_map (envMapNode keys env) ((fun k => (scalarNode k, scalarNode (env_at env k))) <$> keys)) as (m & -> & Hm).
  - done.
  - cbn. unfold flat. clear. induction keys as [|k keys IH]; [done|]. cbn. do 2 f_equal. exact IH.
  - apply Forall_fmap, Forall_true. done.
  - rewrite <- list_fmap_compose. unfold compose, pair_key. cbn. by rewrite list_fmap_id.
  - cbn. destruct (foldl_map_strings m (env_pairs keys env)) as (kvs & Hp & ->).
    + rewrite Hm. unfold env_pairs. rewrite <- !list_fmap_compose. apply Permutation_refl'. apply list_fmap_ext. intros i k _.
      unfold compose, pair_key. cbn. by rewrite value_scalar.
    + by apply (env_pairs_read keys).
Qed.

(** Before the first [=] of an item is its key, when the key has none. *)
Lemma cut_app k v : "="%char ∉ str_chars k -> cut "=" (k +:+ "=" +:+ v) = Some (k, v).
Proof.
  induction k as [|c k IH]; intros Hk; [done|]. change (str_chars (String c k)) with (c :: str_chars k) in Hk.
  apply not_elem_of_cons in Hk as [Hc Hk]. change (String c k +:+ "=" +:+ v) with (String c (k +:+ "=" +:+ v)). cbn [cut].
  destruct (Ascii.eqb_spec c "="); [by subst|]. by rewrite IH.
Qed.

Lemma envSeqNode_reads keys env : NoDup keys -> (forall k, k ∈ keys <-> is_Some (env !! k)) ->
  (forall k, is_Some (env !! k) -> "="%char ∉ str_chars k) -> parseEnvToMap (value_of (envSeqNode keys env)) = env.
Proof.
  intros Hnd Hk Heq. rewrite value_seq by done. cbn. transitivity (foldl (fun (result : gmap string string) '(k, v) => <[k := v]> result) ∅ (env_pairs keys env)); [|by apply (env_pairs_read keys)].
  assert (forall k, k ∈ keys -> "="%char ∉ str_chars k) as Hkeys by (intros k Hin; by apply Heq, Hk).
  clear Hk Heq Hnd. generalize (∅ : gmap string string). induction keys as [|k keys IH]; intros result; [done|].
  cbn. rewrite value_scalar. cbn -[cut String.append]. rewrite cut_app by (apply Hkeys; by left). apply IH. intros k' Hk'. apply Hkeys. by right.
Qed.

Lemma set_or_delete content key (keep : bool) val : well_formed content ->
  let content' := if keep then setKey content key val else deleteKey content key in
  well_formed content' /\
  (forall k, mappingValue content' k = if k =s key then (if keep then Some val else None) else mappingValue content k) /\
  (forall P : string -> Prop, forall HP : (forall k, Decision (P k)), ~ P key -> filter P (mapping_keys content') = filter P (mapping_keys content)).
Proof.
  intros (ps & -> & Hnd). destruct keep; cbv zeta.
  - destruct (setKey_flat ps key val Hnd) as (Hw & Hv & Hk). split_and!; [done|done|]. intros P HP Hn. rewrite Hk, mapping_keys_flat, filter_app.
    case_bool_decide; [apply app_nil_r|]. rewrite filter_cons_False by done. apply app_nil_r.
  - destruct (deleteKey_flat ps key Hnd) as (Hw & Hv & Hk). split_and!; [done|done|]. intros P HP Hn. rewrite Hk, mapping_keys_flat, list_filter_filter.
    apply list_filter_iff. intros k. split; [by intros [? _]|]. intros Hpk. split; [done|]. by intros ->.
Qed.
End reads_back.

(** The fields the patch can change. *)
Definition edited (key : string) : Prop := key = "image" \/ key = "ports" \/ key = "environment".
#[export] Instance edited_dec key : Decision (edited key).
Proof. unfold edited. apply _. Defined.

(** What a field of the patch asks of the value at its key. *)
Definition asked {A} (field : option A) (is_empty : A -> bool) (reads : A -> Node -> Prop) (before after : option Node) : Prop :=
  match field with
  | None => after = before
  | Some a => if is_empty a then after = None else exists n, after = Some n /\ reads a n
  end.

(** One field of the patch: its key as asked, the others as they were. *)
Definition field_patched {A} (key : string) (field : option A) (is_empty : A -> bool) (reads : A -> Node -> Prop) (content content' : list Node) : Prop :=
  well_formed content' /\ (forall k, k <> key -> mappingValue content' k = mappingValue content k) /\
  asked field is_empty reads (mappingValue content key) (mappingValue content' key) /\
  filter (fun k => ~ edited k) (mapping_keys content') = filter (fun k => ~ edited k) (mapping_keys content).

Lemma field_set {A} key (a : A) (is_empty : A -> bool) (reads : A -> Node -> Prop) content val : edited key -> well_formed content ->
  (is_empty a = false -> reads a val) ->
  field_patched key (Some a) is_empty reads content (if negb (is_empty a) then setKey content key val else deleteKey content key).
Proof.
  intros He Hwf Hr. destruct (set_or_delete content key (negb (is_empty a)) val Hwf) as (Hw & Hv & Hk).
  unfold field_patched. split_and!; [done|intros k Hne; by rewrite Hv, (proj2 (String.eqb_neq _ _) Hne)| |apply Hk; tauto].
  unfold asked. rewrite Hv, String.eqb_refl. destruct (is_empty a); cbn; [done|eauto].
Qed.

Lemma field_kept {A} key (is_empty : A -> bool) (reads : A -> Node -> Prop) content : well_formed content ->
  field_patched key None is_empty reads content content.
Proof. intros Hwf. unfold field_patched, asked. by split_and!. Qed.

Section patched.
Context `{RangeOrder} `{YamlValues}.

Definition image_reads (image : string) (n : Node) : Prop := value_of n = AString image.
Definition ports_read (ports : list string) (n : Node) : Prop := value_of n = ASeq (AString <$> ports).
(** In the list style a name with an equals sign is cut at it. *)
Definition environment_reads (env : gmap string string) (n : Node) : Prop :=
  (is_sequence n = true -> forall k, is_Some (env !! k) -> "="%char ∉ str_chars k) -> parseEnvToMap (value_of n) = env.

Lemma patch_image_spec p content : well_formed content ->
  field_patched "image" (cp_Image p) (fun image => image =s "") image_reads content (patch_image p content).
Proof.
  intros Hwf. unfold patch_image. destruct (cp_Image p) as [image|]; [|by apply field_kept].
  pose proof (field_set "image" image (fun image => image =s "") image_reads content (scalarNode image) ltac:(by left) Hwf) as Hf.
  cbn in Hf. destruct (image =s ""); apply Hf; intros _; apply value_scalar.
Qed.

Lemma patch_ports_spec p content : well_formed content ->
  field_patched "ports" (cp_Ports p) (fun ports => bool_decide (ports = [])) ports_read content (patch_ports p content).
Proof.
  intros Hwf. unfold patch_ports. destruct (cp_Ports p) as [ports|]; [|by apply field_kept].
  pose proof (field_set "ports" ports (fun ports => bool_decide (ports = [])) ports_read content (quotedSeqNode ports) ltac:(right; by left) Hwf
    ltac:(intros _; apply value_quoted)) as Hf. by destruct ports.
Qed.

Lemma patch_environment_spec p content : well_formed content ->
  field_patched "environment" (cp_Environment p) (fun env => bool_decide (env = ∅)) environment_reads content (patch_environment p content).
Proof.
  intros Hwf. unfold patch_environment. destruct (cp_Environment p) as [env|]; [|by apply field_kept].
  set (existing := mappingValue content "environment"). destruct (envKeyOrder_keys existing env) as [Hnd Hk].
  set (keys := envKeyOrder existing env) in *.
  set (val := if match existing with Some n => is_sequence n | None => false end then envSeqNode keys env else envMapNode keys env).
  assert (environment_reads env val) as Hval.
  { unfold val. destruct (match existing with Some n => is_sequence n | None => false end); intros Heq;
      [by apply envSeqNode_reads; auto|by apply envMapNode_reads]. }
  pose proof (field_set "environment" env (fun env => bool_decide (env = ∅)) environment_reads content val ltac:(by right; right) Hwf (fun _ => Hval)) as Hf.
  unfold val in Hf. cbn beta in Hf. destruct (bool_decide (env = ∅)); [exact Hf|]. by destruct existing as [n|]; [destruct (is_sequence n)|].
Qed.
End patched.

(** C29. An edited service reads as what was asked: in a service with distinct keys, a field
    the request leaves out keeps its value; an empty one loses its key; the image, the
    ports and the environment that were sent are what the new values decode to (in the
    list style, when no variable has an equals sign in its name); and the other keys keep
    their values and their order. *)
Theorem edited_service_reads_back `{RangeOrder} `{YamlValues} content p : well_formed content ->
  let content' := patch_service p content in
  asked (cp_Image p) (fun image => image =s "") image_reads (mappingValue content "image") (mappingValue content' "image") /\
  asked (cp_Ports p) (fun ports => bool_decide (ports = [])) ports_read (mappingValue content "ports") (mappingValue content' "ports") /\
  asked (cp_Environment p) (fun env => bool_decide (env = ∅)) environment_reads
    (mappingValue content "environment") (mappingValue content' "environment") /\
  (forall key, ~ edited key -> mappingValue content' key = mappingValue content key) /\
  filter (fun key => ~ edited key) (mapping_keys content') = filter (fun key => ~ edited key) (mapping_keys content).
Proof.
  intros Hwf. unfold patch_service.
  destruct (patch_image_spec p content Hwf) as (Hw1 & Ho1 & Ha1 & Hk1).
  destruct (patch_ports_spec p _ Hw1) as (Hw2 & Ho2 & Ha2 & Hk2).
  destruct (patch_environment_spec p _ Hw2) as (Hw3 & Ho3 & Ha3 & Hk3).
  cbv zeta. split_and!.
  - rewrite Ho3, Ho2 by done. exact Ha1.
  - rewrite Ho3 by done. rewrite <- (Ho1 "ports") by done. exact Ha2.
  - rewrite <- (Ho1 "environment"), <- (Ho2 "environment") by done. exact Ha3.
  - intros key Hn. unfold edited in Hn. rewrite Ho3, Ho2, Ho1 by tauto. done.
  - by rewrite Hk3, Hk2.
Qed.

(** ** Edits are local *)

Definition no_newline (l : string) : Prop := newline ∉ str_chars l.

Lemma split_on_pieces c s : Forall (fun l => c ∉ str_chars l) (split_on c s).
Proof.
  induction s as [|x s IH]; cbn [split_on]; [constructor; [apply not_elem_of_nil|constructor]|].
  destruct (Ascii.eqb_spec x c) as [->|Hne]; [constructor; [apply not_elem_of_nil|exact IH]|].
  destruct (split_on c s) as [|w ws]; [constructor; [|constructor]|apply Forall_cons in IH as [Hw IH]; constructor; [|done]].
  - change (c ∉ x :: str_chars ""). apply not_elem_of_cons. split; [by intros ->|apply not_elem_of_nil].
  - change (c ∉ x :: str_chars w). apply not_elem_of_cons. split; [by intros ->|done].
Qed.

Lemma split_on_none c s : c ∉ str_chars s -> split_on c s = [s].
Proof.
  induction s as [|x s IH]; intros Hn; [done|]. change (str_chars (String x s)) with (x :: str_chars s) in Hn.
  apply not_elem_of_cons in Hn as [Hx Hn]. cbn [split_on]. destruct (Ascii.eqb_spec x c); [by subst|]. by rewrite IH.
Qed.

Lemma split_on_join c l : l <> [] -> Forall (fun s => c ∉ str_chars s) l -> split_on c (join (String c "") l) = l.
Proof.
  induction l as [|s l IH]; intros Hne Hl; [done|]. apply Forall_cons in Hl as [Hs Hl]. destruct l as [|s' l].
  - cbn. by apply split_on_none.
  - change (join (String c "") (s :: s' :: l)) with (s +:+ String c (join (String c "") (s' :: l))).
    rewrite split_on_app, split_on_none by done. rewrite IH by done. done.
Qed.

Lemma leading_blanks_no_newline l : no_newline (leading_blanks l).
Proof.
  induction l as [|c l IH]; [apply not_elem_of_nil|]. cbn [leading_blanks]. destruct (_ || _) eqn:Hb; [|apply not_elem_of_nil].
  change (newline ∉ c :: str_chars (leading_blanks l)). apply not_elem_of_cons. split; [|exact IH]. intros <-. done.
Qed.

Lemma spaces_no_newline n : no_newline (String.concat "" (repeat " " n)).
Proof.
  induction n as [|[|n] IH]; [apply not_elem_of_nil|by apply (bool_decide_eq_true_1 _)|].
  change (newline ∉ str_chars (" " +:+ "" +:+ String.concat "" (repeat " " (S n)))). rewrite !chars_append, elem_of_app. intros [Hn|Hn]; [|done].
  by apply list_elem_of_singleton in Hn.
Qed.

Lemma block_indent_no_newline block key : no_newline (block_indent block key).
Proof. unfold block_indent. destruct (filter _ block); [apply spaces_no_newline|apply leading_blanks_no_newline]. Qed.

Lemma block_size_spec lines start n : (block_size lines start n <= n)%nat /\
  forall i, (block_size lines start n <= i < n)%nat -> isBlankOrComment (default "" (lines !! (start + i)%nat)) = true.
Proof.
  induction n as [|n [IH1 IH2]]; cbn; [split; [lia|intros; lia]|]. destruct (isBlankOrComment _) eqn:Hb; [|split; [lia|intros; lia]].
  split; [lia|]. intros i Hi. destruct (decide (i = n)) as [->|]; [done|]. apply IH2. lia.
Qed.

(** An edit stays in its service: the document that is written back has every line up
    to the service's key, and every line from the next key on, as it was and where it was
    relative to its neighbours; in between stands the encoding of the edited service,
    indented; and of the lines after the key none is replaced that was left to what follows,
    the blank ones and the comments before the next key. *)
Theorem edits_are_local encodeNode src root services idx key svc out :
  let lines := lines_of src in
  let end' := block_end lines root services idx key in
  spliceService encodeNode src root services idx key svc = Some out -> 0 <= nd_Line key < end' ->
  exists body indent stop, encodeNode svc = Some body /\ nd_Line key <= stop <= end' - 1 /\
    lines_of out = take (Z.to_nat (nd_Line key)) lines ++ (indent_line indent <$> lines_of (trim_newlines body)) ++ drop (Z.to_nat stop) lines /\
    (forall i, stop <= i < end' - 1 -> isBlankOrComment (default "" (lines !! Z.to_nat i)) = true).
Proof.
  intros lines end' Hs Hpos. unfold spliceService in Hs. destruct (_ || _); [done|]. fold lines end' in Hs.
  destruct (encodeNode svc) as [body|]; [|done]. set (start := Z.to_nat (nd_Line key)) in *.
  set (n := block_size lines start (Z.to_nat (end' - 1 - nd_Line key))) in *. rewrite (proj2 (Z.ltb_ge _ _)) in Hs by lia.
  set (indent := block_indent (take n (drop start lines)) key) in *. injection Hs as <-.
  destruct (block_size_spec lines start (Z.to_nat (end' - 1 - nd_Line key))) as [Hn Hblank]. fold n in Hn, Hblank.
  exists body, indent, (nd_Line key + Z.of_nat n). split; [done|]. split; [lia|]. split.
  - replace (Z.to_nat (nd_Line key + Z.of_nat n)) with (start + n)%nat by lia. unfold lines_of at 1. apply split_on_join.
    + intros Hnil. apply app_eq_nil in Hnil as [_ Hnil]. apply app_eq_nil in Hnil as [Hnil _]. apply fmap_nil_inv in Hnil.
      unfold lines_of in Hnil. destruct (trim_newlines body) as [|x s]; [done|]. cbn in Hnil. destruct (Ascii.eqb _ _); [done|].
      by destruct (split_on newline s).
    + pose proof (split_on_pieces newline src) as Hsrc. fold (lines_of src) lines in Hsrc.
      apply Forall_app. split; [by apply Forall_take|]. apply Forall_app. split; [|by apply Forall_drop].
      apply Forall_fmap. eapply Forall_impl; [apply split_on_pieces|]. intros l Hl. cbn. unfold indent_line.
      destruct (l =s ""); [apply not_elem_of_nil|]. rewrite chars_append. apply not_elem_of_app. split; [apply block_indent_no_newline|done].
  - intros i Hi. specialize (Hblank (Z.to_nat (i - nd_Line key)) ltac:(lia)).
    by replace (start + Z.to_nat (i - nd_Line key))%nat with (Z.to_nat i) in Hblank by lia.
Qed.

(** ** The file that is named *)

(** A file name resolves to the file of that name in the directory, and nothing else
    resolves: no separator and no leading dot, so nothing outside and nothing hidden. *)
Lemma resolveComposePath_below base name path : IsAbs base = true ->
  resolveComposePath (Some base) name = Some path ->
  exists file, (file = name \/ name = "" /\ file = "docker-compose.yml") /\ has_separator file = false /\ has_prefix "." file = false /\
    path = Join base file /\ (has_prefix (base +:+ "/") path = true \/ path = base).
Proof.
  intros Hb. unfold resolveComposePath. set (file := if name =s "" then "docker-compose.yml" else name).
  destruct (_ || _) eqn:Hbad; [done|]. intros Hr. reflect_bools. exists file. split.
  - unfold file. destruct (String.eqb_spec name "") as [->|]; auto.
  - destruct (_ && _) eqn:Hc; [done|]. injection Hr as <-. split_and!; [done..|]. apply andb_false_iff in Hc as [Hc|Hc]; reflect_bools; auto.
Qed.

(** ** A concrete reading of nodes *)

Fixpoint node_value (n : Node) : any :=
  match n with
  | mkNode ScalarNode _ _ tag v _ _ _ => if tag =s "!!str" then AString v else ANil
  | mkNode SequenceNode _ _ _ _ items _ _ => ASeq (map node_value items)
  | mkNode MappingNode _ _ _ _ content _ _ =>
      AMap ((fix pairs (l : list Node) : list (string * any) :=
               match l with k :: v :: l => (nd_Value k, node_value v) :: pairs l | _ => [] end) content)
  | _ => ANil
  end.

#[export] Instance node_values : YamlValues.
Proof.
  refine {| value_of := node_value |}.
  - intros [k f q t v c l col]; cbn; intros -> ->. done.
  - intros [k f q t v c l col]; cbn; intros ->. done.
  - intros [k f q t v c l col] ps; cbn; intros -> -> _ _. eexists. split; [done|].
    induction ps as [|[kn vn] ps IH]; [done|]. cbn. by constructor.
Defined.

(** ** Witnesses *)

Definition demo_names : gmap string composeServiceDef -> list string := fun m => (map_to_list m).*1.
Definition demo_def (env deps : any) : composeServiceDef := mkServiceDef "img" ANil [] env deps [] [] ANil ANil "" ANil "" ANil.
Definition demo_file : composeFile :=
  mkComposeFile {["web" := demo_def (AMap [("URL", AString "http://api:80")]) (ASeq [AString "db"]); "api" := demo_def ANil ANil]} ∅ ∅.

Lemma graph_is_the_files_witness :
  let g := @build_graph (fun _ => 0) range_default demo_names demo_file in
  NoDup (triple <$> g_Connections g) /\
  (triple <$> g_Connections g = [("web", "db", "depends_on"); ("web", "api", "env_reference")]) /\
  refers demo_file "web" "api" "env_reference".
Proof.
  destruct (@graph_is_the_files range_default (fun _ => 0) demo_names (fun m => reflexivity _) demo_file) as (_ & Hnd & Hiff).
  - intros name [def Hdef]. unfold demo_file in Hdef. cbn [cf_Services] in Hdef. apply lookup_insert_Some in Hdef as [[<- _]|[_ Hdef]]; [by apply (bool_decide_eq_true_1 _)|].
    apply lookup_singleton_Some in Hdef as [<- _]. by apply (bool_decide_eq_true_1 _).
  - split; [exact Hnd|]. split; [vm_compute; reflexivity|]. apply Hiff. apply (bool_decide_eq_true_1 _). vm_compute. reflexivity.
Defined.

(** A service with an image, a list of variables and another key. *)
Definition demo_str (v : string) : Node := mkNode ScalarNode false false "!!str" v [] 0 0.
Definition demo_pairs : list (Node * Node) :=
  [(demo_str "image", demo_str "a:1"); (demo_str "restart", demo_str "always");
   (demo_str "environment", mkNode SequenceNode false false "!!seq" "" [demo_str "B=1"; demo_str "A=2"] 0 0)].
Definition demo_patch : ComposeServicePatch := mkPatch (Some "a:2") (Some []) (Some {["A" := "3"; "C" := "4"; "B" := "x=y"]}).

Lemma edited_service_reads_back_witness :
  well_formed (flat demo_pairs) /\
  (exists n, mappingValue (@patch_service range_default demo_patch (flat demo_pairs)) "image" = Some n /\ value_of n = AString "a:2") /\
  mappingValue (@patch_service range_default demo_patch (flat demo_pairs)) "restart" = Some (demo_str "always").
Proof.
  assert (well_formed (flat demo_pairs)) as Hwf.
  { exists demo_pairs. split; [reflexivity|]. apply (bool_decide_eq_true_1 _). vm_compute. reflexivity. }
  split; [exact Hwf|].
  destruct (@edited_service_reads_back range_default node_values (flat demo_pairs) demo_patch Hwf) as (Hi & _ & _ & Ho & _).
  split; [exact Hi|]. rewrite Ho; [reflexivity|]. intros [Hk|[Hk|Hk]]; discriminate Hk.
Defined.

(** The list style and its order stay. *)
Example demo_environment :
  (fun n => nd_Value <$> nd_Content n) <$> mappingValue (@patch_service range_default demo_patch (flat demo_pairs)) "environment" =
  Some ["B=x=y"; "A=3"; "C=4"].
Proof. vm_compute. reflexivity. Qed.

Definition nl : string := String newline "".
Definition demo_lines (l : list string) : string := join nl l.
Definition key_at (name : string) (line : Z) : Node := mkNode ScalarNode false false "!!str" name [] line 3.
Definition value_at (line : Z) : Node := mkNode MappingNode false false "!!map" "" [] line 5.
Definition demo_src : string :=
  demo_lines ["services:"; "  web:"; "    image: a"; ""; "  # the database"; "  db:"; "    image: b"; "volumes: {}"; ""].

Lemma edits_are_local_witness :
  exists out, spliceService (fun _ => Some (demo_lines ["image: c"; ""])) demo_src [] [key_at "web" 2; value_at 3; key_at "db" 6; value_at 7] 0
    (key_at "web" 2) (value_at 3) = Some out /\
  lines_of out = ["services:"; "  web:"; "    image: c"; ""; "  # the database"; "  db:"; "    image: b"; "volumes: {}"; ""] /\
  exists body indent stop, Some (demo_lines ["image: c"; ""]) = Some body /\ 2 <= stop <= 5 /\
    lines_of out = take 2 (lines_of demo_src) ++ (indent_line indent <$> lines_of (trim_newlines body)) ++ drop (Z.to_nat stop) (lines_of demo_src).
Proof.
  eexists. split; [reflexivity|]. split; [vm_compute; reflexivity|].
  destruct (edits_are_local (fun _ => Some (demo_lines ["image: c"; ""])) demo_src [] [key_at "web" 2; value_at 3; key_at "db" 6; value_at 7] 0
    (key_at "web" 2) (value_at 3) _ eq_refl ltac:(vm_compute; split; [discriminate|reflexivity])) as (body & indent & stop & Hb & Hs & Hl & _).
  exists body, indent, stop. split; [exact Hb|]. split; [exact Hs|]. exact Hl.
Defined.

(** ** What the code does that it does not say *)

(** A variable whose value is not a string is not in the graph, so a client that sends the
    variables it was shown removes it from the file. *)
Example numbers_vanish :
  let before := [demo_str "environment"; mkNode MappingNode false false "!!map" ""
                   [demo_str "PORT"; mkNode ScalarNode false false "!!int" "8080" [] 0 0; demo_str "NAME"; demo_str "x"] 0 0] in
  let shown := parseEnvToMap (AMap [("PORT", AInt 8080); ("NAME", AString "x")]) in
  (map_to_list shown,
   (fun n => nd_Value <$> nd_Content n) <$> mappingValue (@patch_service range_default (mkPatch None None (Some shown)) before) "environment") =
  ([("NAME", "x")], Some ["NAME"; "x"]).
Proof. vm_compute. reflexivity. Qed.

(** The block of the document's last service runs to its end, past the mark of a second
    document, which is lost. *)
Example second_document_lost :
  spliceService (fun _ => Some (demo_lines ["image: c"; ""]))
    (demo_lines ["services:"; "  web:"; "    image: a"; "---"; "services: {}"; ""]) [key_at "services" 1; value_at 2] [key_at "web" 2; value_at 3] 0
    (key_at "web" 2) (value_at 3) =
  Some (demo_lines ["services:"; "  web:"; "    image: c"; ""]).
Proof. vm_compute. reflexivity. Qed.

(** A last line of a literal block that starts with # is left to what follows as a comment,
    and is in the encoding as well. *)
Example literal_line_doubled :
  spliceService (fun _ => Some (demo_lines ["image: c"; "command: |"; "  run"; "  # end"; ""]))
    (demo_lines ["services:"; "  web:"; "    image: a"; "    command: |"; "      run"; "      # end"; ""])
    [key_at "services" 1; value_at 2] [key_at "web" 2; value_at 3] 0 (key_at "web" 2) (value_at 3) =
  Some (demo_lines ["services:"; "  web:"; "    image: c"; "    command: |"; "      run"; "      # end"; "      # end"; ""]).
Proof. vm_compute. reflexivity. Qed.

(** The key of a connection does not tell these two apart: the second is dropped. *)
Example arrows_collide :
  conn_key (mkConnection "a" "b->c" "depends_on" "") = conn_key (mkConnection "a->b" "c" "depends_on" "").
Proof. reflexivity. Qed.

Example compose_memory_ex :
  parseMemoryBytes (fun _ => -1) <$> ["512m"; "1.5g"; "2GB"; " 64 kb "; "100b"; "1gi"; "-1g"; ""; "inf"; "1e30"] =
  [536870912; 1610612736; 2147483648; 65536; 100; 0; 0; 0; -1; -1].
Proof. vm_compute. reflexivity. Qed.

Example cpus_ex :
  (parseNanoCPUs (fun _ => -1) <$> ["0.5"; "1.5"; "x"; "0.1"], stringifyCPUs <$> [AString " 2 "; AFloat (float_of_int 3); AInt 4; ANil]) =
  ([500000000; 1500000000; 0; 100000000], ["2"; "3"; "4"; ""]).
Proof. vm_compute. reflexivity. Qed.

(** Two updates that overlap: both patch the file as it was, and the later write undoes the
    other, whichever services they edit; each is answered with 200. *)
Lemma overlapping_updates `{RangeOrder} names beyond base UnmarshalFile Unmarshal encodeNode fs name1 name2 path p1 p2 resolved out1 out2 :
  prepare_update base Unmarshal encodeNode fs name1 path p1 = Ok (resolved, out1) ->
  prepare_update base Unmarshal encodeNode fs name2 path p2 = Ok (resolved, out2) ->
  let fs1 := (commit_update names beyond UnmarshalFile fs name1 true (resolved, out1)).2 in
  let fs2 := (commit_update names beyond UnmarshalFile fs1 name2 true (resolved, out2)).2 in
  exists data, fs !! resolved = Some data /\ fs2 !! resolved = Some out2 /\ PatchComposeService Unmarshal encodeNode data name2 p2 = Ok out2.
Proof.
  intros _ Hp. unfold prepare_update in Hp.
  assert (resolveComposePath base path = Some resolved /\ exists data, fs !! resolved = Some data /\
    PatchComposeService Unmarshal encodeNode data name2 p2 = Ok out2) as (_ & data & Hd & Ho).
  { destruct (cp_Image p2), (cp_Ports p2), (cp_Environment p2); try done; destruct (resolveComposePath base path) as [r|]; try done;
      destruct (fs !! r) as [data|] eqn:Hf; try done; destruct (PatchComposeService _ _ data name2 p2) as [out|[| |]] eqn:Ho; try done;
      injection Hp as -> ->; eauto. }
  exists data. split; [done|]. split; [apply lookup_insert_eq|done].
Qed.
