(* ===== verification/GoDuration.v ===== *)
(** * [time.ParseDuration] and [time.Duration.String]

    Both follow the language's library, [float64] step of the parser included.
    [duration_roundtrip]: what is printed parses back to the same number of nanoseconds. *)

From Stdlib Require Import Ascii SpecFloat.
From S2P Require Import Prelude GoStr GoFloat.
Local Open Scope Z_scope.

(** ** [ParseDuration] *)

(** [leadingInt]: digits, up to [2^63]; [None] on overflow. *)
Fixpoint leadingInt (x : Z) (s : string) : option (Z * string) :=
  match s with
  | EmptyString => Some (x, s)
  | String c s' =>
      match digit c with
      | None => Some (x, s)
      | Some d => if 2 ^ 63 / 10 <? x then None else if 2 ^ 63 <? x * 10 + d then None else leadingInt (x * 10 + d) s'
      end
  end.

(** [leadingFraction]: digits beyond what fits are read and dropped. *)
Fixpoint leadingFraction (x : Z) (scale : spec_float) (overflow : bool) (s : string) : Z * spec_float * string :=
  match s with
  | EmptyString => (x, scale, s)
  | String c s' =>
      match digit c with
      | None => (x, scale, s)
      | Some d =>
          if overflow || ((2 ^ 63 - 1) / 10 <? x) || (2 ^ 63 <? x * 10 + d) then leadingFraction x scale true s'
          else leadingFraction (x * 10 + d) (float_mul scale (float_of_int 10)) false s'
      end
  end.

(** The longest prefix without a period or a digit, and the rest. *)
Fixpoint unit_prefix (s : string) : string * string :=
  match s with
  | EmptyString => ("", "")
  | String c s' =>
      if Ascii.eqb c "." || (match digit c with Some _ => true | None => false end) then ("", s)
      else let '(u, r) := unit_prefix s' in (String c u, r)
  end.

(** U+00B5 and U+03BC, in UTF-8. *)
Definition micro_sign : string := of_bytes [194; 181].
Definition greek_mu : string := of_bytes [206; 188].

Definition unitMap : gmap string Z :=
  list_to_map [("ns", 1); ("us", 1000); (micro_sign +:+ "s", 1000); (greek_mu +:+ "s", 1000);
               ("ms", millisecond); ("s", second); ("m", minute); ("h", hour)].

(** [uint64(float64(f) * (float64(unit) / scale))]; the product is less than [unit]. *)
Definition fraction_of (f unit : Z) (scale : spec_float) : Z :=
  int64_of_float (fun _ => 0) (float_mul (float_of_int f) (SFdiv 53 1024 (float_of_int unit) scale)).

(** One number with its unit, added to [d].  [None] is any of the errors. *)
Definition parse_item (d : Z) (s : string) : option (Z * string) :=
  let starts := match s with String c _ => Ascii.eqb c "." || (match digit c with Some _ => true | None => false end) | _ => false end in
  if negb starts then None else
  '(v, s1) ← leadingInt 0 s;
  let pre := negb (str_len s1 =? str_len s) in
  let '(f, scale, s2, post) :=
    match s1 with
    | String c r =>
        if Ascii.eqb c "." then let '(f, scale, r') := leadingFraction 0 (float_of_int 1) false r in (f, scale, r', negb (str_len r' =? str_len r))
        else (0, float_of_int 1, s1, false)
    | EmptyString => (0, float_of_int 1, s1, false)
    end in
  if negb pre && negb post then None else
  let '(u, rest) := unit_prefix s2 in
  if u =s "" then None else
  unit ← unitMap !! u;
  if 2 ^ 63 / unit <? v then None else
  let v := v * unit in
  let v := if 0 <? f then v + fraction_of f unit scale else v in
  if (0 <? f) && (2 ^ 63 <? v) then None else
  let d := (d + v) mod 2 ^ 64 in
  if 2 ^ 63 <? d then None else Some (d, rest).

(** Every item is at least one character long. *)
Fixpoint parse_items (fuel : nat) (d : Z) (s : string) : option Z :=
  if s =s "" then Some d else
  match fuel with
  | O => None
  | S fuel => '(d', rest) ← parse_item d s; parse_items fuel d' rest
  end.

Definition ParseDuration (s : string) : option Z :=
  let '(neg, s) := match s with
                   | String c r => if Ascii.eqb c "-" || Ascii.eqb c "+" then (Ascii.eqb c "-", r) else (false, s)
                   | EmptyString => (false, s)
                   end in
  if s =s "0" then Some 0 else
  if s =s "" then None else
  d ← parse_items (String.length s) 0 s;
  if neg : bool then Some (- d) else if 2 ^ 63 - 1 <? d then None else Some d.

(** ** [Duration.String] *)

(** [fmtFrac]: the last [prec] digits without trailing zeros, and what is left. *)
Fixpoint fmtFrac (prec : nat) (v : Z) (print : bool) (buf : string) : string * Z :=
  match prec with
  | O => (if print then "." +:+ buf else buf, v)
  | S prec =>
      let print := print || negb (v mod 10 =? 0) in
      fmtFrac prec (v / 10) print (if print then chr (ascii_of_nat (Z.to_nat (48 + v mod 10))) +:+ buf else buf)
  end.

(** [fmtInt]; twenty digits hold every [uint64]. *)
Definition fmtInt (v : Z) : string := itoa v.

Definition format_abs (u : Z) : string :=
  if u <? second then
    if u =? 0 then "0s"
    else if u <? 1000 then let '(frac, v) := fmtFrac 0 u false "" in fmtInt v +:+ frac +:+ "ns"
    else if u <? millisecond then let '(frac, v) := fmtFrac 3 u false "" in fmtInt v +:+ frac +:+ micro_sign +:+ "s"
    else let '(frac, v) := fmtFrac 6 u false "" in fmtInt v +:+ frac +:+ "ms"
  else
    let '(frac, v) := fmtFrac 9 u false "" in
    let secs := fmtInt (v mod 60) +:+ frac +:+ "s" in
    let minutes := v / 60 in
    if 0 <? minutes then
      let mins := fmtInt (minutes mod 60) +:+ "m" +:+ secs in
      let hours := minutes / 60 in
      if 0 <? hours then fmtInt hours +:+ "h" +:+ mins else mins
    else secs.

Definition Duration_String (d : Z) : string := if d <? 0 then "-" +:+ format_abs (- d) else format_abs d.

Example duration_strings :
  Duration_String <$> [0; 1; 1100; 1500000; 2 * second + 500 * millisecond; 90 * minute; 720 * hour; - second; int64_min] =
  ["0s"; "1ns"; "1.1" +:+ micro_sign +:+ "s"; "1.5ms"; "2.5s"; "1h30m0s"; "720h0m0s"; "-1s"; "-2562047h47m16.854775808s"].
Proof. vm_compute. reflexivity. Qed.

Example durations_read :
  ParseDuration <$> ["0"; "+0"; "720h"; "1.5h"; "-1.5h"; ".5s"; "1h15m30.918s"; "1us"; ""; "5"; "."; "1.2.3s"; "3x"; "9223372036854775807ns";
                     "9223372036854775808ns"; "-9223372036854775808ns"; "0.1234567890123456789123s"; "--1s";
                     "9223372036854775808ns9223372036854775808ns"] =
  [Some 0; Some 0; Some (720 * hour); Some (90 * minute); Some (- 90 * minute); Some (500 * millisecond); Some 4530918000000; Some 1000;
   None; None; None; None; None; Some int64_max; None; Some int64_min; Some 123456789; None; Some 0].
Proof. vm_compute. reflexivity. Qed.

(** ** Small integers as doubles

    [represents x n]: [x] is the double of the integer [n], [0 < n < 2^53]. *)

Definition represents (x : spec_float) (n : Z) : Prop :=
  exists m e, x = S754_finite false m e /\ e <= 0 /\ Zpos m = n * 2 ^ (- e) /\ digits2_pos m = 53%positive.

Lemma digits2_bounds m : 2 ^ (Zpos (digits2_pos m) - 1) <= Zpos m < 2 ^ Zpos (digits2_pos m).
Proof.
  induction m as [m IH|m IH|]; cbn [digits2_pos]; [| |cbn; lia];
  rewrite Pos2Z.inj_succ; rewrite Z.pow_succ_r by lia;
  replace (Z.succ (Zpos (digits2_pos m)) - 1) with (Z.succ (Zpos (digits2_pos m) - 1)) by lia; rewrite Z.pow_succ_r by lia; lia.
Qed.

Lemma digits2_unique m d : 2 ^ (Zpos d - 1) <= Zpos m < 2 ^ Zpos d -> digits2_pos m = d.
Proof.
  intros [Hlo Hhi]. pose proof (digits2_bounds m) as [Hlo' Hhi'].
  assert (Zpos (digits2_pos m) - 1 < Zpos d) by (apply (Z.pow_lt_mono_r_iff 2); lia).
  assert (Zpos d - 1 < Zpos (digits2_pos m)) by (apply (Z.pow_lt_mono_r_iff 2); lia).
  lia.
Qed.

(** Shifting out zeros. *)
Lemma iter_shr_exact p : forall z, 0 <= z ->
  SpecFloat.iter_pos shr_1 p (Build_shr_record (z * 2 ^ Zpos p) false false) = Build_shr_record z false false.
Proof.
  assert (Hone : forall z, 0 <= z -> shr_1 (Build_shr_record (z * 2) false false) = Build_shr_record z false false).
  { intros [|q|q] Hz; [reflexivity| |lia]. rewrite Z.mul_comm. reflexivity. }
  induction p as [p IH|p IH|]; intros z Hz; cbn [SpecFloat.iter_pos].
  - replace (z * 2 ^ Zpos p~1) with (z * 2 ^ Zpos p * 2 ^ Zpos p * 2)
      by (replace (Zpos p~1) with (Zpos p + Zpos p + 1) by lia; rewrite !Z.pow_add_r by lia; lia).
    rewrite Hone by lia. rewrite IH by lia. by apply IH.
  - replace (z * 2 ^ Zpos p~0) with (z * 2 ^ Zpos p * 2 ^ Zpos p)
      by (replace (Zpos p~0) with (Zpos p + Zpos p) by lia; rewrite Z.pow_add_r by lia; lia).
    rewrite IH by lia. by apply IH.
  - apply Hone. done.
Qed.

(** Rounding a product of representable integers that fits loses nothing. *)
Lemma round_exact m p e : 0 <= p -> e <= 0 -> -1074 <= e -> digits2_pos m = 53%positive ->
  binary_round_aux 53 1024 false (Zpos m * 2 ^ p) (e - p) loc_Exact = S754_finite false m e.
Proof.
  intros Hp He Hlow Hd.
  pose proof (digits2_bounds m) as [Hlo Hhi]. rewrite Hd in Hlo, Hhi.
  assert (Hq : exists q, Zpos m * 2 ^ p = Zpos q /\ Zpos (digits2_pos q) = 53 + p).
  { assert (0 < Zpos m * 2 ^ p) by (apply Z.mul_pos_pos; lia).
    destruct (Zpos m * 2 ^ p) as [|q|q] eqn:Hq; try lia. exists q. split; [done|].
    assert (exists d, Zpos d = 53 + p) as [d Hdp] by (exists (Z.to_pos (53 + p)); lia).
    rewrite <- Hdp. f_equal. apply digits2_unique. rewrite <- Hq, Hdp.
    replace (53 + p - 1) with (52 + p) by lia. rewrite !Z.pow_add_r by lia. split; [apply Z.mul_le_mono_nonneg_r|apply Z.mul_lt_mono_pos_r]; lia. }
  destruct Hq as (q & Hq & Hdq). unfold binary_round_aux, shr_fexp.
  rewrite Hq. cbn [Zdigits2]. rewrite Hdq.
  replace (SpecFloat.fexp 53 1024 (53 + p + (e - p)) - (e - p)) with p by (unfold SpecFloat.fexp, SpecFloat.emin; lia).
  assert (Hshr : shr (shr_record_of_loc (Zpos q) loc_Exact) (e - p) p = (Build_shr_record (Zpos m) false false, e)).
  { rewrite <- Hq. cbn [shr_record_of_loc]. destruct p as [|p|p]; [|rewrite <- (iter_shr_exact p (Zpos m)) by lia; cbn [shr]; f_equal; lia|lia].
    cbn [shr]. f_equal; [|lia]. f_equal. lia. }
  rewrite Hshr. cbn [shr_m loc_of_shr_record round_nearest_even]. cbn [Zdigits2]. rewrite Hd.
  replace (SpecFloat.fexp 53 1024 (53 + e) - e) with 0 by (unfold SpecFloat.fexp, SpecFloat.emin; lia).
  cbn [shr shr_record_of_loc shr_m]. destruct (Z.leb_spec e (1024 - 53)); [done|lia].
Qed.
Lemma pos_shift m d : Zpos (Pos.iter xO m d) = Zpos m * 2 ^ Zpos d.
Proof.
  induction d as [|d IH] using Pos.peano_ind; [cbn; lia|].
  rewrite Pos.iter_succ, Pos2Z.inj_succ, Z.pow_succ_r by lia. rewrite Pos2Z.inj_xO, IH. lia.
Qed.

Lemma represents_int n : 0 < n < 2 ^ 53 -> represents (float_of_int n) n.
Proof.
  intros Hn. destruct n as [|n|n]; try lia. unfold float_of_int, binary_normalize, binary_round, shl_align.
  set (d := digits2_pos n). pose proof (digits2_bounds n) as [Hlo Hhi]. fold d in Hlo, Hhi.
  assert (Hd : Zpos d <= 53).
  { destruct (Z.le_gt_cases (Zpos d) 53) as [|Hgt]; [done|]. assert (2 ^ 53 <= 2 ^ (Zpos d - 1)) by (apply Z.pow_le_mono_r; lia). lia. }
  replace (SpecFloat.fexp 53 1024 (Zpos d + 0) - 0) with (Zpos d - 53) by (unfold SpecFloat.fexp, SpecFloat.emin; lia).
  replace (SpecFloat.fexp 53 1024 (Zpos d + 0)) with (Zpos d - 53) by (unfold SpecFloat.fexp, SpecFloat.emin; lia).
  assert (Hmz : exists mz ez, (match Zpos d - 53 with Zneg k => (Pos.iter xO n k, Zpos d - 53) | _ => (n, 0) end) = (mz, ez)
    /\ ez = Zpos d - 53 /\ Zpos mz = Zpos n * 2 ^ (53 - Zpos d)).
  { destruct (Zpos d - 53) as [|k|k] eqn:E; try lia.
    - exists n, 0. replace (53 - Zpos d) with 0 by lia. split; [done|]. lia.
    - exists (Pos.iter xO n k), (Zneg k). rewrite pos_shift. replace (53 - Zpos d) with (Zpos k) by lia. done. }
  destruct Hmz as (mz & ez & -> & -> & Hmz).
  assert (Hdm : digits2_pos mz = 53%positive).
  { apply digits2_unique. rewrite Hmz.
    replace (2 ^ (53 - 1)) with (2 ^ (Zpos d - 1) * 2 ^ (53 - Zpos d)) by (rewrite <- Z.pow_add_r by lia; f_equal; lia).
    replace (2 ^ 53) with (2 ^ Zpos d * 2 ^ (53 - Zpos d)) by (rewrite <- Z.pow_add_r by lia; f_equal; lia).
    split; [apply Z.mul_le_mono_nonneg_r|apply Z.mul_lt_mono_pos_r]; lia. }
  pose proof (round_exact mz 0 (Zpos d - 53) ltac:(lia) ltac:(lia) ltac:(lia) Hdm) as Hr.
  rewrite Z.mul_1_r, Z.sub_0_r in Hr. exists mz, (Zpos d - 53). rewrite Hr. split; [done|]. split; [lia|]. split; [|done].
  rewrite Hmz. do 2 f_equal. lia.
Qed.

Lemma represents_inv x n : represents x n -> exists m e, x = S754_finite false m e /\ -53 < e <= 0 /\ Zpos m = n * 2 ^ (- e)
  /\ digits2_pos m = 53%positive /\ 2 ^ 52 <= Zpos m < 2 ^ 53.
Proof.
  intros (m & e & -> & He & Hm & Hd). exists m, e. pose proof (digits2_bounds m) as Hb. rewrite Hd in Hb.
  repeat split; try done; try lia. destruct (Z.le_gt_cases e (-53)) as [Hle|]; [|lia].
  assert (2 ^ 53 <= 2 ^ (- e)) by (apply Z.pow_le_mono_r; lia).
  assert (1 <= n) by (destruct (Z.le_gt_cases n 0); [|lia]; assert (n * 2 ^ (- e) <= 0) by (apply Z.mul_nonpos_nonneg; lia); lia).
  assert (1 * 2 ^ 53 <= n * 2 ^ (- e)) by (apply Z.mul_le_mono_nonneg; lia). lia.
Qed.

Lemma represents_mul x y a b : represents x a -> represents y b -> 0 < a * b < 2 ^ 53 -> represents (float_mul x y) (a * b).
Proof.
  intros (m1 & e1 & -> & He1 & Hm1 & _ & Hb1)%represents_inv (m2 & e2 & -> & He2 & Hm2 & _ & Hb2)%represents_inv Hab.
  destruct (represents_inv _ _ (represents_int (a * b) Hab)) as (m & e & _ & He & Hm & Hd & Hb).
  assert (Hprod : Zpos (m1 * m2) * 2 ^ (- e) = Zpos m * 2 ^ (- (e1 + e2))).
  { rewrite Pos2Z.inj_mul, Hm1, Hm2, Hm. replace (- (e1 + e2)) with (- e1 + - e2) by lia. rewrite Z.pow_add_r by lia. ring. }
  assert (Hbig : 2 ^ 52 * 2 ^ 52 <= Zpos (m1 * m2)) by (rewrite Pos2Z.inj_mul; apply Z.mul_le_mono_nonneg; lia).
  assert (Hp : 0 <= e - (e1 + e2)).
  { destruct (Z.le_gt_cases 0 (e - (e1 + e2))) as [|Hlt]; [done|].
    replace (- e) with (- (e1 + e2) + ((e1 + e2) - e)) in Hprod by lia. rewrite Z.pow_add_r in Hprod by lia.
    assert (0 < 2 ^ (- (e1 + e2))) by (apply Z.pow_pos_nonneg; lia). assert (0 < 2 ^ (e1 + e2 - e)) by (apply Z.pow_pos_nonneg; lia).
    assert (Zpos (m1 * m2) * 2 ^ (e1 + e2 - e) = Zpos m) by (apply (Z.mul_reg_l _ _ (2 ^ (- (e1 + e2)))); lia).
    assert (Zpos (m1 * m2) * 1 <= Zpos (m1 * m2) * 2 ^ (e1 + e2 - e)) by (apply Z.mul_le_mono_nonneg_l; lia). lia. }
  assert (Hexact : Zpos (m1 * m2) = Zpos m * 2 ^ (e - (e1 + e2))).
  { apply (Z.mul_reg_r _ _ (2 ^ (- e))); [pose proof (Z.pow_pos_nonneg 2 (- e)); lia|].
    rewrite Hprod, <- Z.mul_assoc, <- Z.pow_add_r by lia. do 2 f_equal. lia. }
  exists m, e. split; [|split; [lia|done]].
  unfold float_mul, SFmul. cbn [xorb]. rewrite Hexact.
  replace (e1 + e2) with (e - (e - (e1 + e2))) at 2 by lia. apply round_exact; lia || done.
Qed.

Lemma represents_trunc beyond x n : represents x n -> n < 2 ^ 53 -> int64_of_float beyond x = n.
Proof.
  intros (m & e & -> & He & Hm & _ & Hb)%represents_inv Hn. unfold int64_of_float.
  assert (Hv : (if 0 <=? e then Zpos m * 2 ^ e else Zpos m / 2 ^ (- e)) = n).
  { destruct (Z.leb_spec 0 e); [replace e with 0 in * by lia; cbn in *; lia|]. rewrite Hm. apply Z.div_mul.
    pose proof (Z.pow_pos_nonneg 2 (- e)). lia. }
  rewrite Hv.
  assert (1 <= n).
  { destruct (Z.le_gt_cases n 0); [|lia]. assert (n * 2 ^ (- e) <= 0) by (apply Z.mul_nonpos_nonneg; [lia|apply Z.pow_nonneg; lia]). lia. }
  destruct (Z.leb_spec int64_min n); [|unfold int64_min in *; lia].
  destruct (Z.leb_spec n int64_max); [done|unfold int64_max in *; lia].
Qed.

(** ** What is printed parses back *)

Definition nondigit (s : string) : Prop := match s with EmptyString => True | String c _ => digit c = None end.

Lemma leadingInt_stop x s : nondigit s -> leadingInt x s = Some (x, s).
Proof. destruct s as [|c s]; cbn; [done|]. by intros ->. Qed.

Lemma leadingInt_itoa fuel : forall n rest, 0 <= n < 10 ^ Z.of_nat fuel -> n <= 2 ^ 63 ->
  leadingInt 0 (itoa_fuel fuel n +:+ rest) = leadingInt n rest.
Proof.
  induction fuel as [|fuel IH]; intros n rest Hn Hmax; [cbn in *; by replace n with 0 by lia|].
  cbn [itoa_fuel]. rewrite append_assoc.
  assert (Hd : 0 <= n mod 10 < 10) by lia.
  assert (Hlast : leadingInt (n / 10) (chr (ascii_of_nat (Z.to_nat (48 + n mod 10))) +:+ rest) = leadingInt n rest).
  { change (chr ?c +:+ rest) with (String c rest). cbn [leadingInt]. rewrite (digit_of _ Hd).
    destruct (Z.ltb_spec (2 ^ 63 / 10) (n / 10)); [lia|]. destruct (Z.ltb_spec (2 ^ 63) (n / 10 * 10 + n mod 10)); [lia|]. f_equal. lia. }
  destruct (Z.eqb_spec (n / 10) 0) as [Hz|Hz]; [rewrite <- Hlast, Hz; reflexivity|].
  rewrite IH; [exact Hlast| |lia]. split; [lia|]. apply Z.div_lt_upper_bound; [lia|].
  rewrite Nat2Z.inj_succ, Z.pow_succ_r in Hn by lia. lia.
Qed.

Lemma itoa_head fuel : forall n, 0 <= n -> exists c r d, itoa_fuel (S fuel) n = String c r /\ digit c = Some d.
Proof.
  induction fuel as [|fuel IH]; intros n Hn.
  - exists (ascii_of_nat (Z.to_nat (48 + n mod 10))), "", (n mod 10). split; [|apply digit_of; lia].
    cbn [itoa_fuel]. by destruct (n / 10 =? 0).
  - change (itoa_fuel (S (S fuel)) n)
      with ((if n / 10 =? 0 then "" else itoa_fuel (S fuel) (n / 10)) +:+ chr (ascii_of_nat (Z.to_nat (48 + n mod 10)))).
    destruct (n / 10 =? 0); [exists (ascii_of_nat (Z.to_nat (48 + n mod 10))), "", (n mod 10); split; [done|apply digit_of; lia]|].
    destruct (IH (n / 10) ltac:(lia)) as (c & r & d & -> & Hd). by eexists _, _, d.
Qed.

(** [scale k] is the [float64] 10^k, as the loop of [leadingFraction] computes it. *)
Definition scale (k : nat) : spec_float := Nat.iter k (fun x => float_mul x (float_of_int 10)) (float_of_int 1).

(** [buf] holds [k] digits of value [f]. *)
Definition reads (buf : string) (k : nat) (f : Z) : Prop :=
  0 <= f < 10 ^ Z.of_nat k /\ String.length buf = k /\
  forall x j rest, nondigit rest -> 0 <= x < 10 ^ Z.of_nat j -> (j + k <= 9)%nat ->
    leadingFraction x (scale j) false (buf +:+ rest) = (x * 10 ^ Z.of_nat k + f, scale (j + k), rest).

Lemma reads_nil : reads "" 0 0.
Proof.
  split; [cbn; lia|]. split; [done|]. intros x j rest Hr Hx Hj.
  change (10 ^ Z.of_nat 0) with 1. rewrite Z.mul_1_r, Z.add_0_r, Nat.add_0_r.
  change ("" +:+ rest) with rest. destruct rest as [|c rest]; [done|]. unfold nondigit in Hr. cbn [leadingFraction]. by rewrite Hr.
Qed.

Lemma reads_cons d buf k f : 0 <= d < 10 -> reads buf k f ->
  reads (chr (ascii_of_nat (Z.to_nat (48 + d))) +:+ buf) (S k) (d * 10 ^ Z.of_nat k + f).
Proof.
  intros Hd (Hf & Hlen & Hr). rewrite <- Hlen in *.
  assert (Hp : 10 ^ Z.of_nat (S (String.length buf)) = 10 * 10 ^ Z.of_nat (String.length buf)) by (rewrite Nat2Z.inj_succ, Z.pow_succ_r; lia).
  assert (Hle : d * 10 ^ Z.of_nat (String.length buf) <= 9 * 10 ^ Z.of_nat (String.length buf)) by (apply Z.mul_le_mono_nonneg_r; lia).
  split; [rewrite Hp; split; [apply Z.add_nonneg_nonneg; [apply Z.mul_nonneg_nonneg|]; lia|lia]|]. split; [done|].
  intros x j rest Hrest Hx Hj. change ((chr ?c +:+ buf) +:+ rest) with (String c (buf +:+ rest)). cbn [leadingFraction].
  rewrite (digit_of _ Hd). cbn [orb].
  assert (10 ^ Z.of_nat j <= 10 ^ 9) by (apply Z.pow_le_mono_r; lia).
  assert (Hsmall : ((2 ^ 63 - 1) / 10 <? x) || (2 ^ 63 <? x * 10 + d) = false).
  { apply orb_false_iff. split; [apply Z.ltb_ge|apply Z.ltb_ge]; [|lia]. apply Z.div_le_lower_bound; lia. }
  rewrite Hsmall. change (float_mul (scale j) (float_of_int 10)) with (scale (S j)).
  rewrite (Hr (x * 10 + d) (S j) rest Hrest); [|split; [lia|rewrite Nat2Z.inj_succ, Z.pow_succ_r; lia]|lia].
  rewrite Hp. replace (S j + String.length buf)%nat with (j + S (String.length buf))%nat by lia. do 2 f_equal. ring.
Qed.

Lemma fmtFrac_reads prec : forall v print buf k f, 0 <= v -> reads buf k f -> (print = false -> buf = "" /\ k = 0%nat /\ f = 0) ->
  (print = true -> (0 < k)%nat) -> (prec + k <= 9)%nat ->
  exists frac, fmtFrac prec v print buf = (frac, v / 10 ^ Z.of_nat prec) /\
    ((frac = "" /\ print = false /\ v mod 10 ^ Z.of_nat prec = 0) \/
     exists buf' k' f', frac = "." +:+ buf' /\ reads buf' k' f' /\ (0 < k' <= prec + k)%nat /\
       f' * 10 ^ Z.of_nat (prec + k - k') = v mod 10 ^ Z.of_nat prec * 10 ^ Z.of_nat k + f).
Proof.
  induction prec as [|prec IH]; intros v print buf k f Hv Hbuf Hno Hyes Hk; cbn [fmtFrac].
  - eexists. split; [f_equal; change (10 ^ Z.of_nat 0) with 1; by rewrite Z.div_1_r|]. change (10 ^ Z.of_nat 0) with 1. rewrite Z.mod_1_r.
    destruct print; [right|left; destruct (Hno eq_refl) as (-> & _); done].
    exists buf, k, f. split; [done|]. split; [done|]. split; [specialize (Hyes eq_refl); lia|].
    replace (0 + k - k)%nat with 0%nat by lia. cbn. lia.
  - assert (Hp : 10 ^ Z.of_nat (S prec) = 10 * 10 ^ Z.of_nat prec) by (rewrite Nat2Z.inj_succ, Z.pow_succ_r; lia).
    assert (Hpos : 0 < 10 ^ Z.of_nat prec) by (apply Z.pow_pos_nonneg; lia).
    assert (Hdiv : v / 10 ^ Z.of_nat (S prec) = v / 10 / 10 ^ Z.of_nat prec) by (rewrite Hp, Z.div_div; lia).
    assert (Hmod : v mod 10 ^ Z.of_nat (S prec) = (v / 10) mod 10 ^ Z.of_nat prec * 10 + v mod 10).
    { rewrite Hp, Z.rem_mul_r by lia. lia. }
    rewrite Hdiv, Hmod. destruct (print || negb (v mod 10 =? 0)) eqn:Hprint.
    + destruct (IH (v / 10) true (chr (ascii_of_nat (Z.to_nat (48 + v mod 10))) +:+ buf) (S k) (v mod 10 * 10 ^ Z.of_nat k + f))
        as (frac & Heq & Hcase); [lia|apply reads_cons; [lia|done]|done|lia|lia|].
      exists frac. split; [done|]. destruct Hcase as [(_ & [=] & _)|(buf' & k' & f' & Hs & Hr & Hk' & Hval)].
      right. exists buf', k', f'. split; [done|]. split; [done|]. split; [lia|].
      replace (S prec + k - k')%nat with (prec + S k - k')%nat by lia. rewrite Hval, Nat2Z.inj_succ, Z.pow_succ_r by lia. ring.
    + apply orb_false_iff in Hprint as [-> Hz]. apply negb_false_iff, Z.eqb_eq in Hz. destruct (Hno eq_refl) as (-> & -> & ->).
      destruct (IH (v / 10) false "" 0%nat 0) as (frac & Heq & Hcase); [lia|done|done|done|lia|].
      exists frac. split; [done|]. destruct Hcase as [(-> & _ & Hm)|(buf' & k' & f' & Hs & Hr & Hk' & Hval)]; [left; repeat split; lia|].
      right. exists buf', k', f'. split; [done|]. split; [done|]. split; [lia|].
      replace (S prec + 0 - k')%nat with (S (prec + 0 - k'))%nat by lia. rewrite Nat2Z.inj_succ, Z.pow_succ_r by lia. lia.
Qed.

(** The printed fraction: nothing, or a period and [k] digits of value [f]. *)
Definition frac_reads (frac : string) (k : nat) (f : Z) : Prop :=
  (frac = "" /\ f = 0) \/ exists buf, frac = "." +:+ buf /\ reads buf k f /\ (0 < k <= 9)%nat.

(** A unit's letters, up to the end of the text or the next number. *)
Definition unit_word (u : string) : Prop :=
  (exists c r, u = String c r /\ digit c = None /\ Ascii.eqb c "." = false) /\
  forall rest, rest = "" \/ (exists c r d, rest = String c r /\ digit c = Some d) -> unit_prefix (u +:+ rest) = (u, rest).

Lemma unit_prefix_end rest : rest = "" \/ (exists c r d, rest = String c r /\ digit c = Some d) -> unit_prefix rest = ("", rest).
Proof. intros [->|(c & r & d & -> & Hd)]; [done|]. cbn [unit_prefix]. rewrite Hd. by destruct (Ascii.eqb c "."). Qed.

Lemma unit_prefix_char c u rest : digit c = None -> Ascii.eqb c "." = false ->
  unit_prefix (String c u +:+ rest) = let '(w, r) := unit_prefix (u +:+ rest) in (String c w, r).
Proof. intros Hd Hp. change (String c u +:+ rest) with (String c (u +:+ rest)). cbn [unit_prefix]. by rewrite Hd, Hp. Qed.

Ltac solve_unit_word :=
  split; [by eexists _, _|]; intros rest Hrest;
  repeat (rewrite unit_prefix_char; [|reflexivity|reflexivity]); change ("" +:+ rest) with rest; by rewrite (unit_prefix_end _ Hrest).

Lemma unit_ns : unit_word "ns". Proof. solve_unit_word. Qed.
Lemma unit_us : unit_word (micro_sign +:+ "s"). Proof. let s := eval vm_compute in (micro_sign +:+ "s") in change (micro_sign +:+ "s") with s. solve_unit_word. Qed.
Lemma unit_ms : unit_word "ms". Proof. solve_unit_word. Qed.
Lemma unit_s : unit_word "s". Proof. solve_unit_word. Qed.
Lemma unit_m : unit_word "m". Proof. solve_unit_word. Qed.
Lemma unit_h : unit_word "h". Proof. solve_unit_word. Qed.

Definition next_item (rest : string) : Prop := rest = "" \/ exists c r d, rest = String c r /\ digit c = Some d.

Lemma parse_item_printed d n frac k f u rest unit w : 0 <= d -> 0 <= n -> frac_reads frac k f -> unit_word u -> next_item rest ->
  unitMap !! u = Some unit -> 0 < unit -> 0 <= w -> d + n * unit + w < 2 ^ 63 -> (0 < f -> fraction_of f unit (scale k) = w) -> (f = 0 -> w = 0) ->
  parse_item d (fmtInt n +:+ frac +:+ u +:+ rest) = Some (d + n * unit + w, rest).
Proof.
  intros Hd Hn Hfrac Hu Hnext Hunit Hpos Hw Hsum Hfw Hfz.
  assert (Hn' : n <= n * unit) by nia.
  assert (Hf0 : 0 <= f) by (destruct Hfrac as [(_ & ->)|(buf & _ & ([? _] & _) & _)]; lia).
  destruct (itoa_head 19 n Hn) as (c & r & dg & Hhead & Hdg). destruct Hu as ((cu & ru & Hcu & Hdu & Hpu) & Hword).
  set (tail := frac +:+ u +:+ rest).
  assert (Hnd : nondigit tail).
  { unfold tail. destruct Hfrac as [(-> & _)|(buf & -> & _)]; [|done]. rewrite Hcu. done. }
  assert (Hlead : leadingInt 0 (fmtInt n +:+ tail) = Some (n, tail)).
  { unfold fmtInt, itoa. rewrite leadingInt_itoa; [by apply leadingInt_stop| |lia]. split; [done|]. lia. }
  assert (Hstart : fmtInt n +:+ tail = String c (r +:+ tail)) by (unfold fmtInt, itoa; rewrite Hhead; done).
  unfold parse_item. rewrite Hlead. rewrite Hstart. cbn zeta. rewrite Hdg, orb_true_r. cbn [negb].
  assert (Hpre : (str_len tail =? str_len (String c (r +:+ tail))) = false).
  { apply Z.eqb_neq. unfold str_len. change (String c (r +:+ tail)) with (String c r +:+ tail). rewrite length_append. cbn [String.length]. lia. }
  cbn [mbind option_bind]. rewrite Hpre. cbn [negb andb].
  assert (Hafter : exists sc post, (match tail with
      | String c0 r0 => if Ascii.eqb c0 "." then let '(f0, sc0, r') := leadingFraction 0 (float_of_int 1) false r0 in
                                                  (f0, sc0, r', negb (str_len r' =? str_len r0)) else (0, float_of_int 1, tail, false)
      | EmptyString => (0, float_of_int 1, tail, false) end) = (f, sc, u +:+ rest, post) /\ (0 < f -> sc = scale k)).
  { unfold tail. destruct Hfrac as [(-> & ->)|(buf & -> & (Hb & Hlen & Hreads) & Hk)].
    - change ("" +:+ u +:+ rest) with (u +:+ rest). rewrite Hcu. change (String cu ru +:+ rest) with (String cu (ru +:+ rest)). cbv iota. rewrite Hpu.
      eexists _, _. split; [done|lia].
    - change (("." +:+ buf) +:+ u +:+ rest) with (String "." (buf +:+ u +:+ rest)). cbn [Ascii.eqb Bool.eqb].
      pose proof (Hreads 0 0%nat (u +:+ rest)) as H0. change (scale 0) with (float_of_int 1) in H0.
      rewrite H0; [|by rewrite Hcu|cbn; lia|lia]. cbn [Nat.add]. rewrite Z.mul_0_l, Z.add_0_l. eexists _, _. done. }
  destruct Hafter as (sc & post & Hafter & Hsc). rewrite Hafter, (Hword rest Hnext).
  assert (Hne : (u =s "") = false) by (rewrite Hcu; done). rewrite Hne, Hunit. cbn [mbind option_bind].
  assert (Hbig : (2 ^ 63 / unit <? n) = false).
  { apply Z.ltb_ge. apply Z.div_le_lower_bound; lia. }
  rewrite Hbig. destruct (Z.ltb_spec 0 f) as [Hf|Hf].
  - rewrite (Hsc Hf), (Hfw Hf). cbn [andb]. destruct (Z.ltb_spec (2 ^ 63) (n * unit + w)); [lia|].
    rewrite Z.mod_small by lia. destruct (Z.ltb_spec (2 ^ 63) (d + (n * unit + w))); [lia|]. do 2 f_equal. lia.
  - rewrite (Hfz ltac:(lia)) in *. cbn [andb]. rewrite Z.mod_small by lia.
    destruct (Z.ltb_spec (2 ^ 63) (d + n * unit)); [lia|]. do 2 f_equal. lia.
Qed.

Definition representsb (x : spec_float) (n : Z) : bool :=
  match x with
  | S754_finite false m e => (e <=? 0) && (Zpos m =? n * 2 ^ (- e)) && (digits2_pos m =? 53)%positive
  | _ => false
  end.

Lemma representsb_sound x n : representsb x n = true -> represents x n.
Proof.
  destruct x as [| | |[] m e]; try done. unfold representsb. intros H. reflect_bools. exists m, e. repeat split; try done. by apply Pos.eqb_eq.
Qed.

(** [unit / scale] is exact for every number of digits the printer writes. *)
Lemma scale_quotients prec k : prec ∈ [3; 6; 9]%nat -> (k <= prec)%nat ->
  represents (SFdiv 53 1024 (float_of_int (10 ^ Z.of_nat prec)) (scale k)) (10 ^ Z.of_nat (prec - k)).
Proof.
  intros Hprec Hk. apply representsb_sound.
  assert (Hall : forallb (fun p => forallb (fun k => representsb (SFdiv 53 1024 (float_of_int (10 ^ Z.of_nat p)) (scale k)) (10 ^ Z.of_nat (p - k)))
                                      (seq 0 (S p))) [3; 6; 9]%nat = true) by (vm_compute; reflexivity).
  rewrite forallb_forall in Hall. specialize (Hall prec). rewrite forallb_forall in Hall. apply Hall; [by apply list_elem_of_In|].
  apply in_seq. lia.
Qed.

Lemma prec_le prec : prec ∈ [3; 6; 9]%nat -> (prec <= 9)%nat.
Proof. intros H%list_elem_of_In. cbn in H. lia. Qed.

Lemma fraction_exact prec k f : prec ∈ [3; 6; 9]%nat -> (k <= prec)%nat -> 0 < f < 10 ^ Z.of_nat k ->
  fraction_of f (10 ^ Z.of_nat prec) (scale k) = f * 10 ^ Z.of_nat (prec - k).
Proof.
  intros Hprec Hk Hf. pose proof (prec_le prec Hprec).
  assert (Hpk : 10 ^ Z.of_nat k * 10 ^ Z.of_nat (prec - k) = 10 ^ Z.of_nat prec) by (rewrite <- Z.pow_add_r by lia; f_equal; lia).
  assert (H9 : 10 ^ Z.of_nat prec <= 10 ^ 9) by (apply Z.pow_le_mono_r; lia).
  assert (Hq : 0 < 10 ^ Z.of_nat (prec - k)) by (apply Z.pow_pos_nonneg; lia).
  assert (Hlt : f * 10 ^ Z.of_nat (prec - k) < 10 ^ Z.of_nat prec) by (rewrite <- Hpk; apply Z.mul_lt_mono_pos_r; lia).
  assert (Hfk : f < 10 ^ 9) by (assert (10 ^ Z.of_nat k <= 10 ^ 9) by (apply Z.pow_le_mono_r; lia); lia).
  unfold fraction_of. apply represents_trunc; [|lia].
  apply represents_mul; [apply represents_int; lia|by apply scale_quotients|]. split; [apply Z.mul_pos_pos|]; lia.
Qed.

(** A number [k] and the fraction of [v], in steps of [10^-prec] of the unit. *)
Lemma parse_printed_frac prec d k v frac u rest : prec ∈ [3; 6; 9]%nat -> 0 <= d -> 0 <= k -> 0 <= v -> unit_word u -> next_item rest ->
  unitMap !! u = Some (10 ^ Z.of_nat prec) -> d + (k * 10 ^ Z.of_nat prec + v mod 10 ^ Z.of_nat prec) < 2 ^ 63 ->
  (fmtFrac prec v false "").1 = frac ->
  parse_item d (fmtInt k +:+ frac +:+ u +:+ rest) = Some (d + (k * 10 ^ Z.of_nat prec + v mod 10 ^ Z.of_nat prec), rest).
Proof.
  intros Hprec Hd Hk0 Hv Hu Hnext Hunit Hsum <-. pose proof (prec_le prec Hprec).
  assert (Hpos : 0 < 10 ^ Z.of_nat prec) by (apply Z.pow_pos_nonneg; lia).
  pose proof (Z.mod_pos_bound v (10 ^ Z.of_nat prec) Hpos) as Hmb. set (P := 10 ^ Z.of_nat prec) in *.
  destruct (fmtFrac_reads prec v false "" 0 0 Hv reads_nil) as (frac & -> & Hcase); [done|done|lia|]. fold P in Hcase.
  cbn [fst]. rewrite Z.add_assoc. destruct Hcase as [(-> & _ & Hz)|(buf & j & f & -> & Hr & Hj & Hval)].
  - apply (parse_item_printed d _ "" 0 0 u rest); try done; try lia. by left.
  - rewrite Nat.add_0_r in Hval, Hj. change (10 ^ Z.of_nat 0) with 1 in Hval. rewrite Z.mul_1_r, Z.add_0_r in Hval.
    apply (parse_item_printed d _ ("." +:+ buf) j f u rest); try done; try lia.
    + right. exists buf. split; [done|]. split; [done|lia].
    + intros Hf. unfold P. rewrite (fraction_exact prec j f Hprec ltac:(lia)); [done|]. destruct Hr as [? _]. lia.
Qed.

(** A number without a fraction. *)
Lemma parse_printed_int d n u rest unit : 0 <= d -> 0 <= n -> unit_word u -> next_item rest -> unitMap !! u = Some unit -> 0 < unit ->
  d + n * unit < 2 ^ 63 -> parse_item d (fmtInt n +:+ u +:+ rest) = Some (d + n * unit, rest).
Proof.
  intros. rewrite <- (Z.add_0_r (d + n * unit)).
  apply (parse_item_printed d n "" 0 0 u rest); try done; try lia. by left.
Qed.

Lemma itoa_next n s : 0 <= n -> next_item (fmtInt n +:+ s).
Proof. intros Hn. right. destruct (itoa_head 19 n Hn) as (c & r & d & Heq & Hd). unfold fmtInt, itoa. rewrite Heq. by exists c, (r +:+ s), d. Qed.

(** [s] adds [w] to the total, in at most [n] items of at least two characters. *)
Definition parses (n : nat) (s : string) (w : Z) : Prop :=
  (2 * n <= String.length s)%nat /\ next_item s /\
  forall fuel d, (n <= fuel)%nat -> 0 <= d -> d + w < 2 ^ 63 -> parse_items fuel d s = Some (d + w).

Lemma parses_nil : parses 0 "" 0.
Proof. split; [done|]. split; [by left|]. intros [|fuel] d _ _ _; cbn; f_equal; lia. Qed.

Lemma parses_cons n k mid rest w w' : 0 <= k -> 0 <= w -> 0 <= w' -> (0 < String.length mid)%nat -> parses n rest w' ->
  (forall d, 0 <= d -> d + w < 2 ^ 63 -> parse_item d (fmtInt k +:+ mid +:+ rest) = Some (d + w, rest)) ->
  parses (S n) (fmtInt k +:+ mid +:+ rest) (w + w').
Proof.
  intros Hk Hw Hw' Hmid (Hlen & Hnext & Hp) Hitem. destruct (itoa_head 19 k Hk) as (c & r & dg & Heq & _).
  split; [|split; [by apply itoa_next|]].
  - unfold fmtInt, itoa. rewrite Heq, !length_append. cbn [String.length]. lia.
  - intros [|fuel] d Hfuel Hd Hsum; [lia|]. cbn [parse_items].
    assert (Hne : (fmtInt k +:+ mid +:+ rest =s "") = false) by (unfold fmtInt, itoa; rewrite Heq; done).
    rewrite Hne, Hitem by lia. cbn [mbind option_bind]. rewrite Hp by lia. f_equal. lia.
Qed.

Lemma parses_frac prec k v u : prec ∈ [3; 6; 9]%nat -> 0 <= k -> 0 <= v -> unit_word u -> unitMap !! u = Some (10 ^ Z.of_nat prec) ->
  parses 1 (fmtInt k +:+ (fmtFrac prec v false "").1 +:+ u) (k * 10 ^ Z.of_nat prec + v mod 10 ^ Z.of_nat prec).
Proof.
  intros Hprec Hk Hv Hu Hunit. assert (Hpos : 0 < 10 ^ Z.of_nat prec) by (apply Z.pow_pos_nonneg; lia).
  pose proof (Z.mod_pos_bound v (10 ^ Z.of_nat prec) Hpos) as Hmb.
  pose proof (parses_cons 0 k ((fmtFrac prec v false "").1 +:+ u) "" (k * 10 ^ Z.of_nat prec + v mod 10 ^ Z.of_nat prec) 0) as H.
  rewrite append_nil_r, Z.add_0_r in H. apply H; try done; [lia| |apply parses_nil|].
  - destruct Hu as ((c & r & -> & _) & _). rewrite length_append. cbn [String.length]. lia.
  - intros d Hd Hs. rewrite <- (append_nil_r u). apply parse_printed_frac; try done. by left.
Qed.

Lemma parses_int n k u rest unit w' : 0 <= k -> unit_word u -> unitMap !! u = Some unit -> 0 < unit -> 0 <= w' -> parses n rest w' ->
  parses (S n) (fmtInt k +:+ u +:+ rest) (k * unit + w').
Proof.
  intros Hk Hu Hunit Hpos Hw' Hrest. apply parses_cons; try done; [nia| |].
  - destruct Hu as ((c & r & -> & _) & _). cbn. lia.
  - intros d Hd Hs. apply parse_printed_int; try done. by destruct Hrest as (_ & ? & _).
Qed.

Lemma fmtFrac_rest prec v : 0 <= v -> (prec <= 9)%nat -> (fmtFrac prec v false "").2 = v / 10 ^ Z.of_nat prec.
Proof. intros Hv Hp. by destruct (fmtFrac_reads prec v false "" 0 0 Hv reads_nil) as (frac & -> & _); [done|done|lia|]. Qed.

Lemma format_parses u : 0 < u < 2 ^ 63 -> exists n, parses n (format_abs u) u /\ (0 < n)%nat.
Proof.
  intros Hu. unfold format_abs, second, millisecond.
  destruct (Z.ltb_spec u 1000000000) as [Hs|Hs].
  - destruct (Z.eqb_spec u 0); [lia|]. destruct (Z.ltb_spec u 1000) as [Hn|Hn]; [|destruct (Z.ltb_spec u 1000000)]; exists 1%nat; (split; [|lia]).
    + cbn [fmtFrac]. pose proof (parses_int 0 u "ns" "" 1 0 ltac:(lia) unit_ns eq_refl ltac:(lia) ltac:(lia) parses_nil) as Hone.
      rewrite append_nil_r in Hone. change ("" +:+ "ns") with "ns". by rewrite Z.mul_1_r, Z.add_0_r in Hone.
    + pose proof (parses_frac 3 (u / 1000) u (micro_sign +:+ "s") ltac:(set_solver) ltac:(lia) ltac:(lia) unit_us eq_refl) as Hone.
      pose proof (fmtFrac_rest 3 u ltac:(lia) ltac:(lia)) as Hr. destruct (fmtFrac 3 u false "") as [frac v]. cbn in Hr. subst v.
      replace u with (u / 1000 * 10 ^ Z.of_nat 3 + u mod 10 ^ Z.of_nat 3) at 2 by (change (10 ^ Z.of_nat 3) with 1000; lia). exact Hone.
    + pose proof (parses_frac 6 (u / 1000000) u "ms" ltac:(set_solver) ltac:(lia) ltac:(lia) unit_ms eq_refl) as Hone.
      pose proof (fmtFrac_rest 6 u ltac:(lia) ltac:(lia)) as Hr. destruct (fmtFrac 6 u false "") as [frac v]. cbn in Hr. subst v.
      replace u with (u / 1000000 * 10 ^ Z.of_nat 6 + u mod 10 ^ Z.of_nat 6) at 2 by (change (10 ^ Z.of_nat 6) with 1000000; lia). exact Hone.
  - pose proof (parses_frac 9 (u / 1000000000 mod 60) u "s" ltac:(set_solver) ltac:(lia) ltac:(lia) unit_s eq_refl) as Hone.
    change (10 ^ Z.of_nat 9) with 1000000000 in Hone.
    pose proof (fmtFrac_rest 9 u ltac:(lia) ltac:(lia)) as Hr. destruct (fmtFrac 9 u false "") as [frac v]. cbn in Hr. subst v. cbn [fst] in Hone.
    change (10 ^ Z.of_nat 9) with 1000000000. cbn zeta. set (secs := fmtInt (u / 1000000000 mod 60) +:+ frac +:+ "s") in *.
    match type of Hone with parses _ _ ?w => replace w with (u mod 60000000000) in Hone by lia end.
    destruct (Z.ltb_spec 0 (u / 1000000000 / 60)) as [Hm|Hm]; [|exists 1%nat; split; [|lia]; rewrite (Z.mod_small u) in Hone by lia; exact Hone].
    pose proof (parses_int 1 (u / 1000000000 / 60 mod 60) "m" secs minute (u mod 60000000000) ltac:(lia) unit_m eq_refl ltac:(done) ltac:(lia) Hone) as H2.
    match type of H2 with parses _ _ ?w => replace w with (u mod 3600000000000) in H2 by (unfold minute, second; lia) end.
    destruct (Z.ltb_spec 0 (u / 1000000000 / 60 / 60)) as [Hh|Hh]; [|exists 2%nat; split; [|lia]; rewrite (Z.mod_small u) in H2 by lia; exact H2].
    pose proof (parses_int 2 (u / 1000000000 / 60 / 60) "h" _ hour (u mod 3600000000000) ltac:(lia) unit_h eq_refl ltac:(done) ltac:(lia) H2) as H3.
    exists 3%nat. split; [|lia]. match type of H3 with parses _ _ ?w => replace w with u in H3 by (unfold hour, minute, second; lia) end. exact H3.
Qed.

Lemma parse_unsigned u : 0 < u < 2 ^ 63 -> exists c r d, format_abs u = String c r /\ digit c = Some d /\ (format_abs u =s "0") = false /\
  parse_items (String.length (format_abs u)) 0 (format_abs u) = Some u.
Proof.
  intros Hu. destruct (format_parses u Hu) as (n & (Hlen & Hnext & Hp) & Hn).
  destruct Hnext as [He|(c & r & d & Heq & Hd)]; [rewrite He in Hlen; cbn in Hlen; lia|].
  exists c, r, d. split; [done|]. split; [done|]. split; [|rewrite Hp by lia; done].
  apply String.eqb_neq. intros Hz. rewrite Hz in Hlen. cbn in Hlen. lia.
Qed.

(** A printed duration parses back. *)
Lemma duration_roundtrip d : int64_min < d <= int64_max -> ParseDuration (Duration_String d) = Some d.
Proof.
  unfold int64_min, int64_max. intros Hd. unfold Duration_String. destruct (Z.ltb_spec d 0) as [Hneg|Hpos].
  - destruct (parse_unsigned (- d) ltac:(lia)) as (c & r & dg & Heq & _ & Hz & Hp). unfold ParseDuration.
    change ("-" +:+ format_abs (- d)) with (String "-" (format_abs (- d))). cbn [Ascii.eqb Bool.eqb orb]. rewrite Hz.
    assert (Hne : (format_abs (- d) =s "") = false) by (rewrite Heq; done). rewrite Hne, Hp. cbn. f_equal. lia.
  - destruct (Z.eqb_spec d 0) as [->|Hd0]; [vm_compute; reflexivity|].
    destruct (parse_unsigned d ltac:(lia)) as (c & r & dg & Heq & Hdg & Hz & Hp). unfold ParseDuration.
    assert (Hsign : Ascii.eqb c "-" || Ascii.eqb c "+" = false).
    { apply orb_false_iff. split; apply Ascii.eqb_neq; intros ->; vm_compute in Hdg; discriminate. }
    rewrite Heq. cbv beta iota. rewrite Hsign. rewrite <- Heq, Hz.
    assert (Hne : (format_abs d =s "") = false) by (rewrite Heq; done). rewrite Hne, Hp. cbn [mbind option_bind].
    destruct (Z.ltb_spec (2 ^ 63 - 1) d); [lia|done].
Qed.
