(* ===== verification/AuditTrail.v ===== *)
(** * The audit trail

    audit/audit.go (the sinks), server/middleware_audit.go, the store writer of
    server/audit_sink.go, the retention sweep of server/server.go, store/memory/audit.go,
    store/postgres/audit_event.go and handler/audit.go.

    A sink is a bounded channel between the request goroutines and one writer.  [sink_step]
    interleaves the emitters' steps with the writer's and with [Close]. *)

From Stdlib Require Import Ascii.
From S2P Require Import Prelude GoStr GoDuration Auth.
Local Open Scope Z_scope.

(** ** Events *)

Record Event := mkEvent {
  ev_Time : Z; ev_UserSub : string; ev_UserMail : string; ev_Method : string; ev_Path : string; ev_Status : Z; ev_Latency : string;
  ev_ClientIP : string
}.

#[export] Instance Event_eq_dec : EqDecision Event.
Proof. solve_decision. Defined.

Definition IsRedacted (routePath : string) : bool :=
  bool_decide (routePath ∈ ["/api/v1/environments/:id/secrets/:key"; "/api/v1/apps/:id/webhook"]).

Definition LatencyMS (e : Event) : Z := match ParseDuration (ev_Latency e) with None => 0 | Some d => Z.quot d millisecond end.

Definition isMutating (method : string) : bool := bool_decide (method ∈ ["POST"; "PUT"; "PATCH"; "DELETE"]).

(** What became of the rest of the chain: a response, or a panic that [gin.Recovery], which
    is further out, answers with 500. *)
Inductive chain_end := Responded (status : Z) | Panicked.

(** The request as the middleware sees it after [c.Next()]; [fullPath] is the route's
    template, empty when none matched. *)
Record audited := mkAudited {
  ar_start : Z; ar_elapsed : Z; ar_method : string; ar_fullPath : string; ar_claims : option Claims; ar_clientIP : string; ar_end : chain_end
}.

(** [auditMiddleware]: the event it emits, if any. *)
Definition auditMiddleware (r : audited) : option Event :=
  match ar_end r with
  | Panicked => None
  | Responded status =>
      if negb (isMutating (ar_method r)) then None else
      if ar_fullPath r =s "" then None else
      match ar_claims r with
      | None => None
      | Some c =>
          Some (mkEvent (ar_start r) (cl_Subject c) (cl_Email c) (ar_method r) (ar_fullPath r) status (Duration_String (ar_elapsed r)) (ar_clientIP r))
      end
  end.

(** ** The asynchronous sinks

    [fileSink] and [storeSink] differ in what a write does ([write], into a [W]) and in
    whether [Emit] looks at [closed] first ([guarded]); [others] is what else happens to the
    [W].  The last five fields record what
    happened, for the statements. *)

Definition sinkBuffer : nat := 1024.

Record sinkState (W : Type) := mkSink {
  sk_ch : list Event; sk_cur : option Event; sk_out : W; sk_closed : bool; sk_chClosed : bool; sk_done : bool; sk_dropped : Z;
  sk_checked : list Event; sk_sent : list Event; sk_handled : list (Event * bool); sk_emitted : Z; sk_late : Z; sk_panics : Z
}.
Arguments mkSink {W}. Arguments sk_ch {W}. Arguments sk_cur {W}. Arguments sk_out {W}. Arguments sk_closed {W}. Arguments sk_chClosed {W}.
Arguments sk_done {W}. Arguments sk_dropped {W}. Arguments sk_checked {W}. Arguments sk_sent {W}. Arguments sk_handled {W}.
Arguments sk_emitted {W}. Arguments sk_late {W}. Arguments sk_panics {W}.

Section sink.
Context {W : Type} (write : Event -> W -> W) (others : W -> W -> Prop) (guarded : bool).

Definition newSink (w : W) : sinkState W := mkSink [] None w false false false 0 [] [] [] 0 0 0.

(** The [select] with its default: a send on the closed channel panics, a full channel
    drops the event and counts it. *)
Definition send (e : Event) (s : sinkState W) : sinkState W :=
  if sk_chClosed s then
    mkSink (sk_ch s) (sk_cur s) (sk_out s) (sk_closed s) (sk_chClosed s) (sk_done s) (sk_dropped s) (sk_checked s) (sk_sent s) (sk_handled s)
      (sk_emitted s) (sk_late s) (sk_panics s + 1)
  else if (length (sk_ch s) <? sinkBuffer)%nat then
    mkSink (sk_ch s ++ [e]) (sk_cur s) (sk_out s) (sk_closed s) (sk_chClosed s) (sk_done s) (sk_dropped s) (sk_checked s) (sk_sent s ++ [e])
      (sk_handled s) (sk_emitted s) (sk_late s) (sk_panics s)
  else
    mkSink (sk_ch s) (sk_cur s) (sk_out s) (sk_closed s) (sk_chClosed s) (sk_done s) (sk_dropped s + 1) (sk_checked s) (sk_sent s) (sk_handled s)
      (sk_emitted s) (sk_late s) (sk_panics s).

Definition called (s : sinkState W) : sinkState W :=
  mkSink (sk_ch s) (sk_cur s) (sk_out s) (sk_closed s) (sk_chClosed s) (sk_done s) (sk_dropped s) (sk_checked s) (sk_sent s) (sk_handled s)
    (sk_emitted s + 1) (sk_late s) (sk_panics s).

(** [storeSink.Emit] up to the unlock. *)
Definition check (e : Event) (s : sinkState W) : sinkState W :=
  if sk_closed s then
    mkSink (sk_ch s) (sk_cur s) (sk_out s) (sk_closed s) (sk_chClosed s) (sk_done s) (sk_dropped s) (sk_checked s) (sk_sent s) (sk_handled s)
      (sk_emitted s) (sk_late s + 1) (sk_panics s)
  else
    mkSink (sk_ch s) (sk_cur s) (sk_out s) (sk_closed s) (sk_chClosed s) (sk_done s) (sk_dropped s) (sk_checked s ++ [e]) (sk_sent s) (sk_handled s)
      (sk_emitted s) (sk_late s) (sk_panics s).

Definition uncheck (i : nat) (s : sinkState W) : sinkState W :=
  mkSink (sk_ch s) (sk_cur s) (sk_out s) (sk_closed s) (sk_chClosed s) (sk_done s) (sk_dropped s) (delete i (sk_checked s)) (sk_sent s) (sk_handled s)
    (sk_emitted s) (sk_late s) (sk_panics s).

(** The writer receives the next event. *)
Definition receive (e : Event) (ch : list Event) (s : sinkState W) : sinkState W :=
  mkSink ch (Some e) (sk_out s) (sk_closed s) (sk_chClosed s) (sk_done s) (sk_dropped s) (sk_checked s) (sk_sent s) (sk_handled s)
    (sk_emitted s) (sk_late s) (sk_panics s).

(** It writes it, or the write fails and is passed over. *)
Definition written (e : Event) (ok : bool) (s : sinkState W) : sinkState W :=
  mkSink (sk_ch s) None (if ok then write e (sk_out s) else sk_out s) (sk_closed s) (sk_chClosed s) (sk_done s) (sk_dropped s) (sk_checked s)
    (sk_sent s) (sk_handled s ++ [(e, ok)]) (sk_emitted s) (sk_late s) (sk_panics s).

Definition finish (s : sinkState W) : sinkState W :=
  mkSink (sk_ch s) (sk_cur s) (sk_out s) (sk_closed s) (sk_chClosed s) true (sk_dropped s) (sk_checked s) (sk_sent s) (sk_handled s)
    (sk_emitted s) (sk_late s) (sk_panics s).

Definition set_closed (s : sinkState W) : sinkState W :=
  mkSink (sk_ch s) (sk_cur s) (sk_out s) true (sk_chClosed s) (sk_done s) (sk_dropped s) (sk_checked s) (sk_sent s) (sk_handled s)
    (sk_emitted s) (sk_late s) (sk_panics s).

Definition close_ch (s : sinkState W) : sinkState W :=
  mkSink (sk_ch s) (sk_cur s) (sk_out s) (sk_closed s) true (sk_done s) (sk_dropped s) (sk_checked s) (sk_sent s) (sk_handled s)
    (sk_emitted s) (sk_late s) (sk_panics s).

(** Somebody else changes what is written to. *)
Definition set_out (w : W) (s : sinkState W) : sinkState W :=
  mkSink (sk_ch s) (sk_cur s) w (sk_closed s) (sk_chClosed s) (sk_done s) (sk_dropped s) (sk_checked s) (sk_sent s) (sk_handled s)
    (sk_emitted s) (sk_late s) (sk_panics s).

(** The writer's own steps: [run]. *)
Inductive writer_step (s : sinkState W) : sinkState W -> Prop :=
| w_receive e ch : sk_cur s = None -> sk_ch s = e :: ch -> writer_step s (receive e ch s)
| w_write e ok : sk_cur s = Some e -> writer_step s (written e ok s)
| w_finish : sk_cur s = None -> sk_ch s = [] -> sk_chClosed s = true -> sk_done s = false -> writer_step s (finish s).

(** [Close] sets the flag, closes the channel, and waits for the writer to finish; a second
    call returns at once. *)
Inductive sink_step (s : sinkState W) : sinkState W -> Prop :=
| k_emit e : guarded = false -> sink_step s (send e (called s))
| k_check e : guarded = true -> sink_step s (check e (called s))
| k_send i e : guarded = true -> sk_checked s !! i = Some e -> sink_step s (send e (uncheck i s))
| k_writer s' : writer_step s s' -> sink_step s s'
| k_close : sk_closed s = false -> sink_step s (set_closed s)
| k_close_ch : sk_closed s = true -> sk_chClosed s = false -> sink_step s (close_ch s)
| k_others w : others (sk_out s) w -> sink_step s (set_out w s).

Definition sink_reachable (w : W) : sinkState W -> Prop := reachable (fun s => s = newSink w) sink_step.
End sink.

(** [multiSink]: every sink gets the event, and on closing the first error is returned. *)
Definition multi_Emit {S : Type} (emit : Event -> S -> S) (e : Event) (sinks : list S) : list S := emit e <$> sinks.

Definition multi_Close {E : Type} (answers : list (option E)) : option E :=
  foldl (fun first err => match first with Some _ => first | None => err end) None answers.

(** ** The stored trail *)

Record AuditEvent := mkAuditEvent {
  ae_ID : Z; ae_Time : Z; ae_UserSub : string; ae_UserEmail : string; ae_Method : string; ae_Path : string; ae_Status : Z; ae_LatencyMS : Z;
  ae_ClientIP : string
}.

#[export] Instance AuditEvent_eq_dec : EqDecision AuditEvent.
Proof. solve_decision. Defined.

(** [WriteAuditEvent]: the row, before the store gives it its number. *)
Definition row_of (e : Event) : AuditEvent :=
  mkAuditEvent 0 (ev_Time e) (ev_UserSub e) (ev_UserMail e) (ev_Method e) (ev_Path e) (ev_Status e) (LatencyMS e) (ev_ClientIP e).

Definition with_ID (id : Z) (e : AuditEvent) : AuditEvent :=
  mkAuditEvent id (ae_Time e) (ae_UserSub e) (ae_UserEmail e) (ae_Method e) (ae_Path e) (ae_Status e) (ae_LatencyMS e) (ae_ClientIP e).

(** *** The in-memory ring *)

Record auditEvents := mkRing { rg_events : list AuditEvent; rg_nextID : Z }.

Definition auditRingMax : Z := 10000.

Definition Insert (e : AuditEvent) (s : auditEvents) : auditEvents :=
  let id := rg_nextID s + 1 in
  let events := rg_events s ++ [with_ID id e] in
  mkRing (if auditRingMax <? Z.of_nat (length events) then drop (Z.to_nat (Z.of_nat (length events) - auditRingMax)) events else events) id.

(** [None] is no bound. *)
Record AuditQuery := mkQuery {
  aq_From : option Z; aq_To : option Z; aq_UserSub : string; aq_Method : string; aq_PathPrefix : string; aq_Limit : Z; aq_Offset : Z
}.

Definition matches (q : AuditQuery) (e : AuditEvent) : bool :=
  negb (match aq_From q with Some f => ae_Time e <? f | None => false end) &&
  negb (match aq_To q with Some t => t <? ae_Time e | None => false end) &&
  negb (negb (aq_UserSub q =s "") && negb (ae_UserSub e =s aq_UserSub q)) &&
  negb (negb (aq_Method q =s "") && negb (ae_Method e =s aq_Method q)) &&
  negb (negb (aq_PathPrefix q =s "") && negb (has_prefix (aq_PathPrefix q) (ae_Path e))).

Definition query_limit (q : AuditQuery) : Z := if aq_Limit q <=? 0 then 50 else aq_Limit q.
Definition query_offset (q : AuditQuery) : Z := if aq_Offset q <? 0 then 0 else aq_Offset q.

(** The walk from the newest backwards. *)
Fixpoint walk (q : AuditQuery) (backwards : list AuditEvent) (matched : list AuditEvent) : list AuditEvent :=
  match backwards with
  | [] => matched
  | e :: rest => walk q rest (if matches q e then matched ++ [e] else matched)
  end.

Definition Query (s : auditEvents) (q : AuditQuery) : list AuditEvent :=
  let matched := walk q (reverse (rg_events s)) [] in
  if Z.of_nat (length matched) <=? query_offset q then [] else
  let matched := drop (Z.to_nat (query_offset q)) matched in
  if query_limit q <? Z.of_nat (length matched) then take (Z.to_nat (query_limit q)) matched else matched.

(** The loop keeps what is not before the cutoff. *)
Fixpoint sweep (cutoff : Z) (events kept : list AuditEvent) (deleted : Z) : list AuditEvent * Z :=
  match events with
  | [] => (kept, deleted)
  | e :: rest => if ae_Time e <? cutoff then sweep cutoff rest kept (deleted + 1) else sweep cutoff rest (kept ++ [e]) deleted
  end.

Definition DeleteOlderThan (s : auditEvents) (cutoff : Z) : auditEvents * Z :=
  let '(kept, deleted) := sweep cutoff (rg_events s) [] 0 in (mkRing kept (rg_nextID s), deleted).

(** One pass of the retention goroutine. *)
Definition retention_sweep (retention now : Z) (s : auditEvents) : auditEvents := (DeleteOlderThan s (now - retention)).1.

(** *** The PostgreSQL table *)

(** The replacer of the prefix: each of the pattern characters gets a backslash. *)
Definition backslash : ascii := "092".

Fixpoint escape_like (s : string) : string :=
  match s with
  | EmptyString => ""
  | String c s => (if bool_decide (c ∈ [backslash; "%"; "_"]%char) then String backslash (String c (escape_like s)) else String c (escape_like s))
  end.

Fixpoint suffixes (s : string) : list string :=
  s :: match s with EmptyString => [] | String _ s => suffixes s end.

(** SQL's LIKE with the default escape character; a pattern that ends in it is an error,
    which matches nothing. *)
Fixpoint like (pat s : string) : bool :=
  match pat with
  | EmptyString => s =s ""
  | String c pat =>
      if Ascii.eqb c "%" then existsb (like pat) (suffixes s)
      else if Ascii.eqb c "_" then match s with String _ s => like pat s | EmptyString => false end
      else if Ascii.eqb c backslash then
        match pat with
        | EmptyString => false
        | String c' pat => match s with String x s => Ascii.eqb x c' && like pat s | EmptyString => false end
        end
      else match s with String x s => Ascii.eqb x c && like pat s | EmptyString => false end
  end.

(** The conditions of the statement, in order, each with its parameter. *)
Inductive condition := CFrom (t : Z) | CTo (t : Z) | CUserSub (v : string) | CMethod (v : string) | CPathLike (pat : string).

Definition conditions (q : AuditQuery) : list condition :=
  (match aq_From q with Some t => [CFrom t] | None => [] end) ++
  (match aq_To q with Some t => [CTo t] | None => [] end) ++
  (if aq_UserSub q =s "" then [] else [CUserSub (aq_UserSub q)]) ++
  (if aq_Method q =s "" then [] else [CMethod (aq_Method q)]) ++
  (if aq_PathPrefix q =s "" then [] else [CPathLike (escape_like (aq_PathPrefix q) +:+ "%")]).

(** A timestamptz column keeps microseconds: [timestamptz] is the stored value of a time,
    in rows and in parameters. *)
Section postgres.
Context (timestamptz : Z -> Z).

Definition holds (e : AuditEvent) (c : condition) : bool :=
  match c with
  | CFrom t => timestamptz t <=? ae_Time e
  | CTo t => ae_Time e <=? timestamptz t
  | CUserSub v => ae_UserSub e =s v
  | CMethod v => ae_Method e =s v
  | CPathLike pat => like pat (ae_Path e)
  end.

Definition with_Time (t : Z) (e : AuditEvent) : AuditEvent :=
  mkAuditEvent (ae_ID e) t (ae_UserSub e) (ae_UserEmail e) (ae_Method e) (ae_Path e) (ae_Status e) (ae_LatencyMS e) (ae_ClientIP e).

(** [INSERT ... RETURNING id]: [id] is the sequence's next value. *)
Definition pg_Insert (id : Z) (e : AuditEvent) (rows : list AuditEvent) : list AuditEvent :=
  rows ++ [with_ID id (with_Time (timestamptz (ae_Time e)) e)].

(** [SELECT ... ORDER BY time DESC LIMIT OFFSET], on the table's rows in any order. *)
Definition pg_Query (rows : list AuditEvent) (q : AuditQuery) : list AuditEvent :=
  take (Z.to_nat (query_limit q))
    (drop (Z.to_nat (query_offset q))
       (sort_slice (fun a b => ae_Time b <? ae_Time a) (filter (fun e => forallb (holds e) (conditions q) = true) rows))).

Definition pg_DeleteOlderThan (rows : list AuditEvent) (cutoff : Z) : list AuditEvent * Z :=
  (filter (fun e => (ae_Time e <? timestamptz cutoff) = false) rows,
   Z.of_nat (length (filter (fun e => (ae_Time e <? timestamptz cutoff) = true) rows))).
End postgres.

(** The same history played on both stores: the ring, and the table with its sequence. *)
Inductive trail_op := TInsert (e : AuditEvent) | TDelete (cutoff : Z).

Definition ring_apply (s : auditEvents) (op : trail_op) : auditEvents :=
  match op with TInsert e => Insert e s | TDelete cutoff => (DeleteOlderThan s cutoff).1 end.

Definition table_apply (timestamptz : Z -> Z) (s : list AuditEvent * Z) (op : trail_op) : list AuditEvent * Z :=
  match op with
  | TInsert e => (pg_Insert timestamptz (s.2 + 1) e s.1, s.2 + 1)
  | TDelete cutoff => ((pg_DeleteOlderThan timestamptz s.1 cutoff).1, s.2)
  end.

Definition emptyRing : auditEvents := mkRing [] 0.

Definition inserted (ops : list trail_op) : list Z := omap (fun op => match op with TInsert e => Some (ae_Time e) | TDelete _ => None end) ops.

Definition op_time (op : trail_op) : Z := match op with TInsert e => ae_Time e | TDelete cutoff => cutoff end.

(** The database sink over the ring: the second component is the cutoffs of the retention
    sweeps so far, the only other writer. *)
Definition trail_write (e : Event) (w : auditEvents * list Z) : auditEvents * list Z := (Insert (row_of e) w.1, w.2).

Definition trail_swept (w w' : auditEvents * list Z) : Prop := exists retention now, w' = (retention_sweep retention now w.1, (now - retention) :: w.2).

(** The events whose write succeeded, in order. *)
Definition stored {W} (s : sinkState W) : list Event := omap (fun p => if p.2 : bool then Some p.1 else None) (sk_handled s).

(** ** The viewer *)

Definition auditListDefaultLimit : Z := 50.
Definition auditListMaxLimit : Z := 200.

(** The query string's values, empty when absent. *)
Record params := mkParams { pr_user : string; pr_method : string; pr_path : string; pr_from : string; pr_to : string; pr_limit : string; pr_offset : string }.

Inductive bad_param := BadFrom | BadTo | BadLimit | BadOffset.

Section viewer.
(** [time.Parse(time.RFC3339, v)]. *)
Context (parseRFC3339 : string -> option Z).

Definition time_param (v : string) (bad : bad_param) : result bad_param (option Z) :=
  if v =s "" then Ok None else match parseRFC3339 v with Some t => Ok (Some t) | None => Err bad end.

Definition audit_query (p : params) : result bad_param AuditQuery :=
  from ← time_param (pr_from p) BadFrom;
  to ← time_param (pr_to p) BadTo;
  limit ← (if pr_limit p =s "" then Ok auditListDefaultLimit else
           match atoi (pr_limit p) with
           | Some n => if n <? 1 then Err BadLimit else Ok (if auditListMaxLimit <? n then auditListMaxLimit else n)
           | None => Err BadLimit
           end);
  offset ← (if pr_offset p =s "" then Ok 0 else
            match atoi (pr_offset p) with Some n => if n <? 0 then Err BadOffset else Ok n | None => Err BadOffset end);
  Ok (mkQuery from to (pr_user p) (pr_method p) (pr_path p) limit offset).

Inductive viewed := Unavailable | BadRequest (p : bad_param) | QueryFailed | Page (events : list AuditEvent) (limit offset : Z).

(** [query] is the store's, when there is one; it may fail. *)
Definition ListAuditEvents (query : option (AuditQuery -> option (list AuditEvent))) (p : params) : viewed :=
  match query with
  | None => Unavailable
  | Some query =>
      match audit_query p with
      | Err bad => BadRequest bad
      | Ok q => match query q with None => QueryFailed | Some events => Page events (aq_Limit q) (aq_Offset q) end
      end
  end.
End viewer.

(** ** The middleware *)

(** A request is audited exactly when it changes state, matched a route, was authenticated
    and did not panic. *)
Lemma audited_iff r : is_Some (auditMiddleware r) <->
  isMutating (ar_method r) = true /\ ar_fullPath r <> "" /\ is_Some (ar_claims r) /\ (exists status, ar_end r = Responded status).
Proof.
  unfold auditMiddleware. split.
  - intros [e He]. repeat (case_match; try done). reflect_bools. repeat split; eauto.
  - intros (Hm & Hp & [c Hc] & [st Hs]). rewrite Hs, Hm, Hc. cbn. apply String.eqb_neq in Hp. rewrite Hp. eauto.
Qed.

(** The row of an audited request: what was printed and parsed again is the elapsed time,
    in whole milliseconds. *)
Lemma row_of_request r e c status : auditMiddleware r = Some e -> ar_claims r = Some c -> ar_end r = Responded status ->
  0 <= ar_elapsed r <= int64_max ->
  row_of e = mkAuditEvent 0 (ar_start r) (cl_Subject c) (cl_Email c) (ar_method r) (ar_fullPath r) status (ar_elapsed r / millisecond) (ar_clientIP r).
Proof.
  unfold auditMiddleware. intros He Hc Hs Hd. rewrite Hs, Hc in He. repeat (case_match; try done). simplify_eq.
  unfold row_of, LatencyMS. cbn. rewrite duration_roundtrip by (unfold int64_min; lia). f_equal. apply Z.quot_div_nonneg; [lia|done].
Qed.

(** ** The sinks *)

Section sink_facts.
Context {W : Type} (write : Event -> W -> W) (others : W -> W -> Prop) (guarded : bool) (w : W).

Definition waiting (s : sinkState W) : list Event := option_list (sk_cur s) ++ sk_ch s.

(** What holds between any two steps. *)
Record sink_inv (s : sinkState W) : Prop := {
  si_bound : (length (sk_ch s) <= sinkBuffer)%nat;
  si_order : sk_sent s = (sk_handled s).*1 ++ waiting s;
  si_count : sk_emitted s = sk_late s + Z.of_nat (length (sk_checked s)) + Z.of_nat (length (sk_sent s)) + sk_dropped s + sk_panics s;
  si_done : sk_done s = true -> sk_chClosed s = true /\ waiting s = []
}.

Lemma send_inv e s : sk_emitted s = sk_late s + Z.of_nat (length (sk_checked s)) + Z.of_nat (length (sk_sent s)) + sk_dropped s + sk_panics s + 1 ->
  (length (sk_ch s) <= sinkBuffer)%nat -> sk_sent s = (sk_handled s).*1 ++ waiting s ->
  (sk_done s = true -> sk_chClosed s = true /\ waiting s = []) -> sink_inv (send e s).
Proof.
  intros Hc Hb Ho Hd. unfold send. destruct (sk_chClosed s) eqn:Hch; [|destruct (Nat.ltb_spec (length (sk_ch s)) sinkBuffer)].
  - split; cbn; try done; lia.
  - split; cbn; try done.
    + rewrite length_app. cbn. lia.
    + rewrite Ho. unfold waiting. cbn. by rewrite !app_assoc.
    + rewrite length_app. cbn. lia.
    + intros Hdone. by destruct (Hd Hdone).
  - split; cbn; try done; lia.
Qed.

Lemma sink_inv_step s s' : sink_inv s -> sink_step write others guarded s s' -> sink_inv s'.
Proof.
  intros [Hb Ho Hc Hd] Hs. destruct Hs as [e Hg|e Hg|i e Hg Hi|s' Hw|Hcl|Hcl Hch|out Hout].
  - apply send_inv; cbn; try done; lia.
  - unfold check, called. cbn. destruct (sk_closed s); split; cbn; try done; [lia|]. rewrite length_app. cbn. lia.
  - apply send_inv; cbn; try done. rewrite length_delete by eauto. apply lookup_lt_Some in Hi. lia.
  - destruct Hw as [e ch Hcur Hch|e ok Hcur|Hcur Hch Hclosed Hnd]; split; cbn; try done; try lia.
    + rewrite Hch in Hb. cbn in Hb. lia.
    + rewrite Ho. unfold waiting. cbn. by rewrite Hcur, Hch.
    + intros Hdone. destruct (Hd Hdone) as [_ Hempty]. unfold waiting in Hempty. rewrite Hcur, Hch in Hempty. done.
    + rewrite Ho. unfold waiting. cbn. rewrite Hcur, fmap_app. cbn. by rewrite <- app_assoc.
    + intros Hdone. destruct (Hd Hdone) as [_ Hempty]. unfold waiting in Hempty. rewrite Hcur in Hempty. done.
    + intros _. split; [done|]. unfold waiting. cbn. by rewrite Hcur, Hch.
  - split; cbn; done.
  - split; cbn; try done. intros Hdone. by destruct (Hd Hdone).
  - split; cbn; done.
Qed.

Lemma sink_reachable_inv s : sink_reachable write others guarded w s -> sink_inv s.
Proof.
  revert s. refine (reachable_invariant _ _ sink_inv _ sink_inv_step). intros ? ->. split; cbn; try done. unfold sinkBuffer. lia.
Qed.

(** What the writer has left to do. *)
Definition left_to_do (s : sinkState W) : nat := 2 * length (sk_ch s) + length (option_list (sk_cur s)) + (if sk_done s then 0 else 1).

Lemma writer_progress s s' : writer_step write s s' -> (left_to_do s' < left_to_do s)%nat /\ sk_sent s' = sk_sent s /\ sk_chClosed s' = sk_chClosed s.
Proof.
  unfold left_to_do. destruct 1 as [e ch Hcur Hch|e ok Hcur|Hcur Hch Hclosed Hnd]; cbn; rewrite Hcur; cbn; repeat split; try lia.
  - rewrite Hch. cbn. lia.
  - rewrite Hnd. lia.
Qed.

Lemma writer_reachable n s s' : sink_reachable write others guarded w s -> nsteps (writer_step write) n s s' ->
  sink_reachable write others guarded w s' /\ (n + left_to_do s' <= left_to_do s)%nat /\ sk_sent s' = sk_sent s /\ sk_chClosed s' = sk_chClosed s.
Proof.
  intros Hr Hn. induction Hn as [s|n s s1 s' H1 _ IH]; [by repeat split|].
  destruct (writer_progress _ _ H1) as (Hlt & Hsent & Hch).
  destruct IH as (? & ? & ? & ?); [by eapply reach_step, k_writer|]. split; [done|]. rewrite Hsent, Hch in *. repeat split; try done. lia.
Qed.

Lemma writer_idle s : (forall s', ~ writer_step write s s') -> sk_cur s = None /\ sk_ch s = [] /\ (sk_chClosed s = true -> sk_done s = true).
Proof.
  intros Hno. destruct (sk_cur s) as [e|] eqn:Hcur; [exfalso; by eapply (Hno _), (w_write _ _ e true)|].
  destruct (sk_ch s) as [|e ch] eqn:Hch; [|exfalso; by eapply (Hno _), w_receive]. split; [done|]. split; [done|].
  intros Hcl. destruct (sk_done s) eqn:Hd; [done|]. exfalso. by eapply (Hno _), w_finish.
Qed.
End sink_facts.

(** C26. Closing an audit sink, file or database, drains it: once its channel is closed the
    writer makes at most twice as many steps as events wait, however its writes go, and
    when it can make no more it has finished, having handled exactly the accepted events,
    each once and in the order they were accepted - so [Close] returns. *)
Theorem close_drains {W : Type} (write : Event -> W -> W) others guarded w s n s' :
  sink_reachable write others guarded w s -> sk_chClosed s = true -> nsteps (writer_step write) n s s' ->
  (n <= 2 * length (waiting s) + 1)%nat /\
  ((forall s'', ~ writer_step write s' s'') -> sk_done s' = true /\ (sk_handled s').*1 = sk_sent s).
Proof.
  intros Hr Hcl Hn. destruct (writer_reachable _ _ _ _ _ _ _ Hr Hn) as (Hr' & Hle & Hsent & Hch). split.
  - unfold left_to_do in Hle. unfold waiting. rewrite length_app. destruct (sk_done s); lia.
  - intros Hno. destruct (writer_idle _ _ Hno) as (Hcur & Hempty & Hdone). split; [apply Hdone; congruence|].
    destruct (sink_reachable_inv _ _ _ _ _ Hr') as [_ Ho _ _]. unfold waiting in Ho. rewrite Hcur, Hempty, app_nil_r in Ho. congruence.
Qed.

(** ** The stores *)

Lemma like_percent s : like "%" s = true.
Proof. cbn. rewrite existsb_exists. exists "". split; [|done]. induction s as [|c s IH]; cbn; auto. Qed.

(** The escaped prefix followed by a percent sign matches exactly what starts with it. *)
Lemma like_escape p s : like (escape_like p +:+ "%") s = has_prefix p s.
Proof.
  revert s. induction p as [|c p IH]; intros s; [rewrite (like_percent s : like (escape_like "" +:+ "%") s = true); by destruct s|]. cbn [escape_like]. case_bool_decide as Hc.
  - change ((String backslash (String c (escape_like p))) +:+ "%") with (String backslash (String c (escape_like p +:+ "%"))).
    cbn -[like has_prefix]. cbn [like]. cbn. destruct s as [|x s]; [done|]. rewrite IH. unfold has_prefix. cbn.
    destruct (ascii_dec c x) as [->|Hne]; [by rewrite Ascii.eqb_refl|].
    destruct (Ascii.eqb_spec x c); [congruence|done].
  - change ((String c (escape_like p)) +:+ "%") with (String c (escape_like p +:+ "%")). cbn [like].
    assert (c <> "%"%char /\ c <> "_"%char /\ c <> backslash) as (H1 & H2 & H3) by (repeat split; intros ->; apply Hc; set_solver).
    apply Ascii.eqb_neq in H1, H2, H3. rewrite H1, H2, H3. destruct s as [|x s]; [done|]. rewrite IH. unfold has_prefix. cbn.
    destruct (ascii_dec c x) as [->|Hne]; [by rewrite Ascii.eqb_refl|].
    destruct (Ascii.eqb_spec x c); [congruence|done].
Qed.

Lemma walk_filter q l m : walk q l m = m ++ filter (fun e => matches q e = true) l.
Proof.
  revert m. induction l as [|e l IH]; intros m; cbn [walk]; [by rewrite app_nil_r|]. rewrite IH.
  destruct (matches q e) eqn:He; [rewrite filter_cons_True by done; by rewrite <- app_assoc|rewrite filter_cons_False by congruence; done].
Qed.

(** A page of the matches, newest first. *)
Lemma Query_page s q : Query s q =
  take (Z.to_nat (query_limit q)) (drop (Z.to_nat (query_offset q)) (filter (fun e => matches q e = true) (reverse (rg_events s)))).
Proof.
  unfold Query. rewrite walk_filter. cbn [app]. set (l := filter _ _).
  assert (0 <= query_offset q) by (unfold query_offset; case_match; lia). assert (0 <= query_limit q) by (unfold query_limit; case_match; lia).
  destruct (Z.leb_spec (Z.of_nat (length l)) (query_offset q)); [by rewrite drop_ge, take_nil by lia|].
  case_match; [done|]. rewrite take_ge; [done|]. lia.
Qed.

Lemma sweep_filter cutoff l kept n : sweep cutoff l kept n =
  (kept ++ filter (fun e => (ae_Time e <? cutoff) = false) l, n + Z.of_nat (length (filter (fun e => (ae_Time e <? cutoff) = true) l))).
Proof.
  revert kept n. induction l as [|e l IH]; intros kept n; cbn [sweep]; [by rewrite app_nil_r, Z.add_0_r|]. rewrite !filter_cons.
  assert ((ae_Time e <? cutoff) = true \/ (ae_Time e <? cutoff) = false) as [He|He] by (destruct (ae_Time e <? cutoff); auto);
    repeat case_decide; try congruence; rewrite He, IH; cbn [length].
  - f_equal. lia.
  - by rewrite <- app_assoc.
Qed.

Lemma DeleteOlderThan_kept s cutoff : DeleteOlderThan s cutoff =
  (mkRing (filter (fun e => (ae_Time e <? cutoff) = false) (rg_events s)) (rg_nextID s),
   Z.of_nat (length (filter (fun e => (ae_Time e <? cutoff) = true) (rg_events s)))).
Proof. unfold DeleteOlderThan. by rewrite sweep_filter. Qed.

Lemma Insert_events e s : rg_events (Insert e s) =
  drop (Z.to_nat (Z.of_nat (length (rg_events s)) + 1 - auditRingMax)) (rg_events s ++ [with_ID (rg_nextID s + 1) e]).
Proof.
  unfold Insert. cbn [rg_events]. rewrite length_app. cbn [length].
  case_match eqn:Hm; [f_equal; lia|]. apply Z.ltb_ge in Hm. by replace (Z.to_nat _) with 0%nat by lia.
Qed.

(** *** The two stores side by side *)

Lemma StronglySorted_sublist {A} (R : relation A) l k : l `sublist_of` k -> StronglySorted R k -> StronglySorted R l.
Proof.
  induction 1 as [|x l k Hs IH|x l k Hs IH]; intros Hk; [constructor| |]; inversion_clear Hk as [|? ? Hk' Hall]; [|by apply IH].
  constructor; [by apply IH|]. rewrite Forall_forall in *. intros y Hy. apply Hall. by eapply sublist_subseteq.
Qed.

Section side_by_side.
Context (timestamptz : Z -> Z).

Definition exact (t : Z) : Prop := timestamptz t = t.

Lemma pg_delete_kept rows cutoff : exact cutoff -> (pg_DeleteOlderThan timestamptz rows cutoff).1 = filter (fun e => (ae_Time e <? cutoff) = false) rows.
Proof. unfold pg_DeleteOlderThan, exact. cbn. by intros ->. Qed.

(** One operation after the other keeps the table equal to the ring, as long as the ring
    does not overflow, and keeps the times in order. *)
Lemma run_alike ops s : Forall (fun op => exact (op_time op)) ops ->
  StronglySorted Z.lt ((ae_Time <$> rg_events s) ++ inserted ops) ->
  Z.of_nat (length (rg_events s)) + Z.of_nat (length (inserted ops)) <= auditRingMax ->
  let s' := foldl ring_apply s ops in
  foldl (table_apply timestamptz) (rg_events s, rg_nextID s) ops = (rg_events s', rg_nextID s') /\ StronglySorted Z.lt (ae_Time <$> rg_events s').
Proof.
  revert s. induction ops as [|op ops IH]; intros s Hex Hs Hlen; cbn.
  { split; [done|]. by rewrite app_nil_r in Hs. }
  apply Forall_cons in Hex as [Hop Hex]. destruct op as [e|cutoff]; cbn [ring_apply table_apply op_time] in *.
  - change (inserted (TInsert e :: ops)) with (ae_Time e :: inserted ops) in *. cbn [length] in Hlen.
    assert (rg_events (Insert e s) = rg_events s ++ [with_ID (rg_nextID s + 1) e]) as Hins.
    { rewrite Insert_events. by replace (Z.to_nat _) with 0%nat by lia. }
    specialize (IH (Insert e s) Hex). rewrite Hins in IH. unfold pg_Insert. cbn [fst snd].
    unfold exact in Hop. rewrite Hop. replace (with_Time (ae_Time e) e) with e by (by destruct e). apply IH.
    + rewrite fmap_app. cbn. by rewrite <- app_assoc.
    + rewrite length_app. cbn. lia.
  - change (inserted (TDelete cutoff :: ops)) with (inserted ops) in *. cbn [fst snd].
    specialize (IH (DeleteOlderThan s cutoff).1 Hex). rewrite pg_delete_kept by done.
    rewrite DeleteOlderThan_kept in *. cbn [fst rg_events rg_nextID] in *.
    assert (filter (fun e => (ae_Time e <? cutoff) = false) (rg_events s) `sublist_of` rg_events s) as Hsub by apply sublist_filter.
    apply IH.
    + eapply StronglySorted_sublist; [|exact Hs]. apply sublist_app; [|done]. by apply fmap_sublist.
    + apply sublist_length in Hsub. lia.
Qed.

(** The statement's conditions are the walk's. *)
Lemma holds_matches q e : from_option exact True (aq_From q) -> from_option exact True (aq_To q) ->
  forallb (holds timestamptz e) (conditions q) = matches q e.
Proof.
  unfold exact, conditions, matches. destruct q as [[from|] [to|] u m p l o]; cbn [aq_From aq_To aq_UserSub aq_Method aq_PathPrefix from_option];
    intros Hf Ht; rewrite !forallb_app; cbn; rewrite ?Hf, ?Ht;
    destruct (u =s "") eqn:Hu, (m =s "") eqn:Hm, (p =s "") eqn:Hp; cbn; rewrite ?like_escape, ?negb_involutive, ?andb_true_r, ?andb_true_l, ?andb_assoc, <- ?Z.leb_antisym; done.
Qed.
End side_by_side.

Lemma sorted_times_inj events x y : StronglySorted Z.lt (ae_Time <$> events) -> x ∈ events -> y ∈ events -> ae_Time x = ae_Time y -> x = y.
Proof.
  induction events as [|e events IH]; cbn; intros Hs Hx Hy Heq; [by apply elem_of_nil in Hx|].
  inversion_clear Hs as [|? ? Hs' Hall]. fold (ae_Time <$> events) in Hs', Hall. rewrite Forall_fmap, Forall_forall in Hall. cbn in Hall.
  apply elem_of_cons in Hx as [->|Hx], Hy as [->|Hy]; [done| | |by apply IH];
    [specialize (Hall _ Hy)|specialize (Hall _ Hx)]; lia.
Qed.

(** Sorting the matching rows by time, newest first, is walking the ring backwards. *)
Lemma newest_first (P : AuditEvent -> bool) q rows events : (forall e, P e = matches q e) -> rows ≡ₚ events ->
  StronglySorted Z.lt (ae_Time <$> events) ->
  sort_slice (fun a b => ae_Time b <? ae_Time a) (filter (fun e => P e = true) rows) = filter (fun e => matches q e = true) (reverse events).
Proof.
  intros HP Hrows Hs. set (R := not_greater (fun a b => ae_Time b <? ae_Time a)).
  assert (Total R) by (intros x y; unfold R, not_greater; rewrite !Z.ltb_ge; lia).
  assert (Transitive R) by (intros x y z; unfold R, not_greater; rewrite !Z.ltb_ge; lia).
  assert (StronglySorted R (reverse events)) as Hrev.
  { clear Hrows. induction events as [|e events IH]; [constructor|]. rewrite reverse_cons. inversion_clear Hs as [|? ? Hs' Hall].
    apply StronglySorted_app_2; [|by apply IH|by repeat constructor]. intros x y Hx Hy%list_elem_of_singleton. subst y. rewrite elem_of_reverse in Hx.
    rewrite Forall_fmap, Forall_forall in Hall. unfold R, not_greater. apply Z.ltb_ge. specialize (Hall _ Hx). cbn in Hall. lia. }
  apply (StronglySorted_unique_strong R).
  - intros x y Hx Hy. rewrite elem_of_sort_slice, list_elem_of_filter in Hx. rewrite list_elem_of_filter, elem_of_reverse in Hy.
    destruct Hx as [_ Hx], Hy as [_ Hy]. rewrite Hrows in Hx. unfold R, not_greater. rewrite !Z.ltb_ge. intros Hxy Hyx.
    eapply sorted_times_inj; [exact Hs|done..|lia].
  - by apply StronglySorted_merge_sort.
  - eapply StronglySorted_sublist; [apply sublist_filter|exact Hrev].
  - rewrite sort_slice_perm, Hrows, reverse_Permutation. apply reflexive_eq. by apply list_filter_iff; intros x; rewrite HP.
Qed.

(** C25. The two stores of the audit trail answer every query alike, as the comment in the
    in-memory one says ("for dev parity"): after the same history of insertions and
    retention sweeps, with events inserted in the order of their times, at most 10,000 of
    them, and times the database keeps exactly, a query gives the same page of the same
    rows from both, in whatever order the table holds its rows - although one filters and
    walks backwards and the other builds a WHERE clause with an escaped LIKE pattern, sorts
    by time, and limits. *)
Theorem stores_answer_alike timestamptz ops q rows :
  let ring := foldl ring_apply emptyRing ops in
  Forall (fun op => exact timestamptz (op_time op)) ops ->
  from_option (exact timestamptz) True (aq_From q) -> from_option (exact timestamptz) True (aq_To q) ->
  StronglySorted Z.lt (inserted ops) -> Z.of_nat (length (inserted ops)) <= auditRingMax ->
  rows ≡ₚ (foldl (table_apply timestamptz) ([], 0) ops).1 ->
  pg_Query timestamptz rows q = Query ring q.
Proof.
  intros ring Hex Hf Ht Hs Hlen Hrows.
  destruct (run_alike timestamptz ops emptyRing) as [Hrun Hsorted]; [done|done|cbn; lia|]. cbn [rg_events rg_nextID emptyRing] in Hrun. rewrite Hrun in Hrows. cbn in Hrows.
  fold ring in Hrows, Hsorted. unfold pg_Query. rewrite Query_page. do 2 f_equal. apply newest_first; [|done|done].
  intros e. by rewrite holds_matches.
Qed.

(** *** Two instances of the hypotheses *)

Definition history : list trail_op :=
  [TInsert (mkAuditEvent 0 1000 "u1" "a@x" "POST" "/api/v1/apps" 201 3 "10.0.0.1");
   TInsert (mkAuditEvent 0 2000 "u2" "b@x" "PUT" "/api/v1/apps_%/:id" 200 5 "10.0.0.2");
   TDelete 1500;
   TInsert (mkAuditEvent 0 3000 "u2" "b@x" "DELETE" "/api/v1/apps/:id" 204 1 "10.0.0.2")].

Lemma stores_answer_alike_witness :
  let ring := foldl ring_apply emptyRing history in
  pg_Query id (reverse (rg_events ring)) (mkQuery (Some 1000) None "u2" "" "/api/v1/apps_" 10 0) =
  [mkAuditEvent 2 2000 "u2" "b@x" "PUT" "/api/v1/apps_%/:id" 200 5 "10.0.0.2"].
Proof.
  cbn zeta. rewrite (stores_answer_alike id history).
  - vm_compute. reflexivity.
  - repeat constructor.
  - reflexivity.
  - exact I.
  - change (inserted history) with [1000; 2000; 3000]. repeat constructor.
  - apply Z.leb_le. vm_compute. reflexivity.
  - rewrite reverse_Permutation. vm_compute. reflexivity.
Defined.

(** ** The trail *)

Definition trail0 : auditEvents * list Z := (emptyRing, []).

Definition trail_reachable := sink_reachable trail_write trail_swept true trail0.

(** The row of the [i]th stored event. *)
Definition stored_row (i : nat) (e : Event) : AuditEvent := with_ID (Z.of_nat i + 1) (row_of e).

Record trail_inv (s : sinkState (auditEvents * list Z)) : Prop := {
  tr_next : rg_nextID (sk_out s).1 = Z.of_nat (length (stored s));
  tr_rows : forall row, row ∈ rg_events (sk_out s).1 -> exists i e, stored s !! i = Some e /\ row = stored_row i e;
  tr_order : StronglySorted Z.lt (ae_ID <$> rg_events (sk_out s).1);
  tr_size : Z.of_nat (length (rg_events (sk_out s).1)) <= auditRingMax;
  tr_kept : forall i e, stored s !! i = Some e ->
    stored_row i e ∈ rg_events (sk_out s).1 \/ (exists cutoff, cutoff ∈ (sk_out s).2 /\ ev_Time e < cutoff) \/
    Z.of_nat i + 1 + auditRingMax <= Z.of_nat (length (stored s))
}.

Lemma stored_row_ID i e : ae_ID (stored_row i e) = Z.of_nat i + 1.
Proof. done. Qed.

(** Rising numbers up to [m]: the one with [n] others after it is at most [m - n]. *)
Lemma rising_room (l : list Z) x m : StronglySorted Z.lt (x :: l) -> (forall y, y ∈ x :: l -> y <= m) -> x + Z.of_nat (length l) <= m.
Proof.
  revert x. induction l as [|y l IH]; intros x Hs Hm; cbn [length]; [specialize (Hm x); cut (x <= m); [lia|]; apply Hm; left|].
  inversion_clear Hs as [|? ? Hs' Hall]. apply Forall_cons in Hall as [Hxy _].
  cut (y + Z.of_nat (length l) <= m); [lia|]. apply IH; [done|]. intros z Hz. apply Hm. by right.
Qed.

(** One stored event more. *)
Lemma trail_write_inv e s s' : trail_inv s -> sk_out s' = trail_write e (sk_out s) -> stored s' = stored s ++ [e] -> trail_inv s'.
Proof.
  intros [Hn Hr Ho Hz Hk] Hout Hst. unfold trail_write in Hout. set (ring := (sk_out s).1) in *.
  set (row := stored_row (length (stored s)) e).
  assert (with_ID (rg_nextID ring + 1) (row_of e) = row) as Hrow by (unfold row, stored_row; by rewrite Hn).
  set (all := rg_events ring ++ [row]). set (k := Z.to_nat (Z.of_nat (length (rg_events ring)) + 1 - auditRingMax)).
  assert (rg_events (sk_out s').1 = drop k all) as Hev by (rewrite Hout; cbn [fst]; rewrite Insert_events, Hrow; done).
  assert (forall x, x ∈ all -> exists i e0, stored s' !! i = Some e0 /\ x = stored_row i e0) as Hall.
  { intros x Hx. unfold all in Hx. apply elem_of_app in Hx as [Hx|Hx%list_elem_of_singleton].
    - destruct (Hr _ Hx) as (i & e0 & Hi & ->). exists i, e0. split; [|done]. rewrite Hst. by apply lookup_app_l_Some.
    - exists (length (stored s)), e. split; [|done]. rewrite Hst, lookup_app_r, Nat.sub_diag by lia. done. }
  assert (forall x, x ∈ all -> ae_ID x <= Z.of_nat (length (stored s'))) as Hle.
  { intros x Hx. destruct (Hall _ Hx) as (i & e0 & Hi%lookup_lt_Some & ->). rewrite stored_row_ID. lia. }
  assert (StronglySorted Z.lt (ae_ID <$> all)) as Hsorted.
  { unfold all. rewrite fmap_app. apply StronglySorted_app_2; [|done|by repeat constructor].
    intros x y (r & -> & Hr')%list_elem_of_fmap Hy%list_elem_of_singleton. subst y. unfold row. rewrite stored_row_ID.
    destruct (Hr _ Hr') as (i & e0 & Hi%lookup_lt_Some & ->). rewrite stored_row_ID. lia. }
  assert (length all = S (length (rg_events ring))) as Hlen by (unfold all; rewrite length_app; cbn; lia).
  split.
  - rewrite Hout, Hst, length_app. cbn. rewrite Hn. lia.
  - intros x Hx. apply Hall. rewrite Hev in Hx. by eapply sublist_subseteq; [apply sublist_drop|].
  - rewrite Hev. eapply StronglySorted_sublist; [|exact Hsorted]. apply fmap_sublist, sublist_drop.
  - rewrite Hev, length_drop, Hlen. unfold k. lia.
  - intros i e0 Hi. rewrite Hev, Hout. cbn [snd].
    cut (stored_row i e0 ∈ all \/ (exists cutoff, cutoff ∈ (sk_out s).2 /\ ev_Time e0 < cutoff) \/ Z.of_nat i + 1 + auditRingMax <= Z.of_nat (length (stored s))).
    + intros [Hin|[Hsw|Hold]]; [|by right; left|right; right; rewrite Hst, length_app; lia].
      rewrite <- (take_drop k all) in Hin. apply elem_of_app in Hin as [Hin|Hin]; [right; right|by left].
      apply list_elem_of_lookup in Hin as [j Hj]. apply lookup_take_Some in Hj as [Hj Hjk].
      pose proof (take_drop_middle all j _ Hj) as Hsplit. rewrite <- Hsplit, fmap_app in Hsorted.
      apply StronglySorted_app_1_r in Hsorted. rewrite fmap_cons in Hsorted.
      eapply (rising_room _ _ (Z.of_nat (length (stored s')))) in Hsorted.
      * rewrite stored_row_ID, length_fmap, length_drop, Hlen in Hsorted. unfold k in Hjk. lia.
      * rewrite <- fmap_cons. intros y (r & -> & Hr')%list_elem_of_fmap. apply Hle. rewrite <- Hsplit. apply elem_of_app. by right.
    + rewrite Hst in Hi. apply lookup_snoc_Some in Hi as [[_ Hi]|[-> ->]]; [|left; unfold all, row; apply elem_of_app; right; left].
      destruct (Hk _ _ Hi) as [Hin|[Hsw|Hold]]; [left; unfold all; apply elem_of_app; by left|by right; left|by right; right].
Qed.

(** Nothing stored, nothing moved. *)
Lemma trail_inv_same s s' : trail_inv s -> sk_out s' = sk_out s -> stored s' = stored s -> trail_inv s'.
Proof. intros [Hn Hr Ho Hz Hk] H1 H2. split; rewrite ?H1, ?H2; done. Qed.

(** A retention sweep. *)
Lemma trail_swept_inv s w : trail_inv s -> trail_swept (sk_out s) w -> trail_inv (set_out w s).
Proof.
  intros [Hn Hr Ho Hz Hk] (retention & now & ->). unfold retention_sweep. rewrite DeleteOlderThan_kept. set (cutoff := now - retention).
  split; cbn [sk_out set_out fst snd rg_events rg_nextID]; change (stored (set_out _ s)) with (stored s).
  - done.
  - intros row Hrow. apply Hr. by apply list_elem_of_filter in Hrow as [_ Hrow].
  - eapply StronglySorted_sublist; [|exact Ho]. apply fmap_sublist, sublist_filter.
  - etransitivity; [|exact Hz]. apply inj_le, sublist_length, sublist_filter.
  - intros i e Hi. destruct (Hk _ _ Hi) as [Hin|[(c & Hc & Hlt)|Hold]]; [|right; left; exists c; split; [by right|done]|by right; right].
    destruct (Z.ltb_spec (ev_Time e) cutoff); [right; left; exists cutoff; split; [left|done]|left].
    apply list_elem_of_filter. split; [|done]. by apply Z.ltb_ge.
Qed.

Lemma sk_out_send {W} e (s : sinkState W) : sk_out (send e s) = sk_out s /\ stored (send e s) = stored s.
Proof. unfold send. by repeat case_match. Qed.

Lemma sk_out_check {W} e (s : sinkState W) : sk_out (check e s) = sk_out s /\ stored (check e s) = stored s.
Proof. unfold check. by repeat case_match. Qed.

Lemma trail_inv_step s s' : trail_inv s -> sink_step trail_write trail_swept true s s' -> trail_inv s'.
Proof.
  intros Hinv Hs. destruct Hs as [e Hg|e Hg|i e Hg Hi|s' Hw|Hcl|Hcl Hch|w Hw]; try (by eapply trail_inv_same); try done.
  - destruct (sk_out_check e (called s)) as [H1 H2]. eapply trail_inv_same; [exact Hinv|by rewrite H1|by rewrite H2].
  - destruct (sk_out_send e (uncheck i s)) as [H1 H2]. eapply trail_inv_same; [exact Hinv|by rewrite H1|by rewrite H2].
  - destruct Hw as [e ch Hcur Hch|e ok Hcur|Hcur Hch Hclosed Hnd]; try (by eapply trail_inv_same).
    assert (stored (written trail_write e ok s) = stored s ++ (if ok then [e] else [])) as Hst.
    { unfold stored. cbn. rewrite omap_app. by destruct ok. }
    destruct ok; [by eapply trail_write_inv; [exact Hinv|reflexivity|]|]. eapply trail_inv_same; [exact Hinv|done|]. by rewrite Hst, app_nil_r.
  - by apply trail_swept_inv.
Qed.

Lemma trail_reachable_inv s : trail_reachable s -> trail_inv s.
Proof.
  revert s. refine (reachable_invariant _ _ trail_inv _ trail_inv_step). intros ? ->. split; cbn.
  - done.
  - intros row Hrow. by apply elem_of_nil in Hrow.
  - constructor.
  - unfold auditRingMax. lia.
  - intros i e Hi. by rewrite lookup_nil in Hi.
Qed.

(** C24. Every event the database sink accepts reaches the trail.  At any moment, under any
    interleaving of requests, writer, retention sweeps and [Close]: the accepted events are
    those the writer is done with, in the order of acceptance, followed by those that wait;
    the [i]th event whose write succeeded has its row, numbered [i + 1], in the ring, or a
    sweep's cutoff was after it, or 10,000 events were stored after it; and the ring holds
    at most 10,000 rows, in rising numbers, each the row of a stored event. *)
Theorem accepted_events_reach_the_trail s : trail_reachable s ->
  let ring := (sk_out s).1 in let cutoffs := (sk_out s).2 in
  sk_sent s = (sk_handled s).*1 ++ waiting s /\
  (forall i e, stored s !! i = Some e -> stored_row i e ∈ rg_events ring \/ (exists cutoff, cutoff ∈ cutoffs /\ ev_Time e < cutoff) \/
    Z.of_nat i + 1 + auditRingMax <= Z.of_nat (length (stored s))) /\
  (forall row, row ∈ rg_events ring -> exists i e, stored s !! i = Some e /\ row = stored_row i e) /\
  StronglySorted Z.lt (ae_ID <$> rg_events ring) /\ Z.of_nat (length (rg_events ring)) <= auditRingMax.
Proof.
  intros Hr. destruct (trail_reachable_inv _ Hr) as [Hn Hrows Ho Hz Hk]. destruct (sink_reachable_inv _ _ _ _ _ Hr) as [_ Horder _ _]. done.
Qed.

(** ** Examples *)

Definition ev (t : Z) : Event := mkEvent t "u1" "a@x" "POST" "/api/v1/apps" 201 "3ms" "10.0.0.1".

(** Two requests checked and sent; the first is written, then the sink is closed and drained. *)
Definition e1 : Event := ev 1000.
Definition e2 : Event := ev 2000.

Definition two_sent : sinkState (auditEvents * list Z) := send e2 (uncheck 0 (send e1 (uncheck 0 (check e2 (called (check e1 (called (newSink trail0)))))))).

Lemma two_sent_reachable : trail_reachable two_sent.
Proof.
  unfold two_sent. eapply reach_step; [|by apply k_send]. eapply reach_step; [|by apply k_send].
  eapply reach_step; [|by apply k_check]. eapply reach_step; [|by apply k_check]. by apply reach_init.
Qed.

Definition closed_sink : sinkState (auditEvents * list Z) := close_ch (set_closed two_sent).

Lemma closed_sink_reachable : trail_reachable closed_sink.
Proof.
  eapply reach_step; [|by apply k_close_ch]. eapply reach_step; [|by apply k_close]. exact two_sent_reachable.
Qed.

Definition drained : sinkState (auditEvents * list Z) :=
  finish (written trail_write e2 false (receive e2 [] (written trail_write e1 true (receive e1 [e2] closed_sink)))).

Lemma drained_steps : nsteps (writer_step trail_write) 5 closed_sink drained.
Proof.
  unfold drained. repeat (eapply nsteps_l; [first [by apply w_receive|by apply w_write|by apply w_finish]|]). constructor.
Qed.

Lemma close_drains_witness : (sk_handled drained).*1 = [e1; e2] /\ sk_done drained = true.
Proof.
  destruct (close_drains trail_write trail_swept true trail0 closed_sink 5 drained) as [_ Hdone].
  - exact closed_sink_reachable.
  - reflexivity.
  - exact drained_steps.
  - destruct Hdone as [Hd Ho]; [|split; [exact Ho|exact Hd]].
    intros s' Hs. inversion Hs as [e ch Hcur Hch|e ok Hcur|Hcur Hch Hcl Hnd]; discriminate.
Defined.

Lemma drained_reachable : trail_reachable drained.
Proof. by eapply (writer_reachable trail_write trail_swept true trail0 5); [exact closed_sink_reachable|exact drained_steps]. Qed.

Lemma accepted_events_reach_the_trail_witness : sk_sent drained = [e1; e2] /\ stored drained = [e1] /\ stored_row 0 e1 ∈ rg_events (sk_out drained).1.
Proof.
  destruct (accepted_events_reach_the_trail drained drained_reachable) as (Hsent & Hk & _ & _ & _).
  split; [exact Hsent|]. split; [reflexivity|].
  destruct (Hk 0%nat e1 eq_refl) as [Hin|[(c & Hc & _)|Hold]]; [exact Hin|by apply elem_of_nil in Hc|].
  exfalso. vm_compute in Hold. by apply Hold.
Defined.

(** [Emit] unlocks before it sends: [Close] can slip in between, and the send on the closed
    channel panics in the request's goroutine. *)
Example emit_races_close : exists s, trail_reachable s /\ sk_panics s = 1.
Proof.
  exists (send e1 (uncheck 0 (close_ch (set_closed (check e1 (called (newSink trail0))))))). split; [|reflexivity].
  eapply reach_step; [|by apply k_send]. eapply reach_step; [|by apply k_close_ch]. eapply reach_step; [|by apply k_close].
  eapply reach_step; [|by apply k_check]. by apply reach_init.
Qed.

(** The file sink does not look at all: an event emitted after [Close] panics. *)
Example file_sink_emit_after_close (w : list Event) :
  exists s, sink_reachable (fun e w => w ++ [e]) (fun _ _ => False) false w s /\ sk_done s = true /\ sk_panics s = 1.
Proof.
  exists (send e1 (called (finish (close_ch (set_closed (newSink w)))))). split; [|done].
  eapply reach_step; [|by apply k_emit]. eapply reach_step; [|by apply k_writer, w_finish]. eapply reach_step; [|by apply k_close_ch].
  eapply reach_step; [|by apply k_close]. by apply reach_init.
Qed.

(** A mutating request whose handler panics is answered with 500 and leaves no event. *)
Example panic_leaves_no_event claims : auditMiddleware (mkAudited 0 5 "POST" "/api/v1/apps" (Some claims) "10.0.0.1" Panicked) = None.
Proof. reflexivity. Qed.

(** Two requests that end in another order than they began: the ring shows them as they
    ended, the table as they began. *)
Example order_of_overlapping_requests :
  let ops := [TInsert (mkAuditEvent 0 2000 "u" "" "POST" "/b" 201 1 ""); TInsert (mkAuditEvent 0 1000 "u" "" "POST" "/a" 201 1500 "")] in
  let q := mkQuery None None "" "" "" 10 0 in
  ae_Path <$> Query (foldl ring_apply emptyRing ops) q = ["/a"; "/b"] /\
  ae_Path <$> pg_Query id (foldl (table_apply id) ([], 0) ops).1 q = ["/b"; "/a"].
Proof. split; vm_compute; reflexivity. Qed.

(** What the viewer makes of a query string. *)
Example viewer_pages (parse : string -> option Z) (s : auditEvents) (query := fun q => Some (Query s q)) :
  ListAuditEvents parse (Some query) (mkParams "" "" "" "" "" "500" "10") = Page (Query s (mkQuery None None "" "" "" 200 10)) 200 10 /\
  ListAuditEvents parse (Some query) (mkParams "" "" "" "" "" "0" "") = BadRequest BadLimit /\
  ListAuditEvents parse (Some query) (mkParams "" "" "" "" "" "" "-1") = BadRequest BadOffset /\
  ListAuditEvents parse None (mkParams "" "" "" "" "" "" "") = Unavailable.
Proof. repeat split; reflexivity. Qed.

(** Every page the viewer serves is bounded. *)
Lemma viewer_limit parse p q : audit_query parse p = Ok q -> 1 <= aq_Limit q <= auditListMaxLimit /\ 0 <= aq_Offset q.
Proof.
  unfold audit_query, time_param, auditListDefaultLimit, auditListMaxLimit. intros H.
  repeat (case_match; cbn in H; try done); reflect_bools; simplify_eq; cbn; lia.
Qed.
