(* ===== verification/Secrets.v ===== *)
(** * Environments, their secrets, and hosts

    handler/{environment,host,secrets_check}.go, service/{host,secrets_check}.go,
    secrets/{manager.go,database}, model/{environment,host}.go and the tables of
    store/postgres/{environment,host}.go.

    A handler is a program over the calls it makes to the tables, written as the code is;
    [vstep] interleaves the calls of any number of requests, each of which may fail.  The
    programs are proved one at a time, against what the others may do in between
    ([evolves]), and [vault_safe] puts them together. *)

From Stdlib Require Import Ascii.
From S2P Require Import Prelude GoStr GoCrypto RunStore Outputs Auth Validate Ssh Webhook Config.
Local Open Scope Z_scope.

(** ** Data *)

Record EnvironmentTarget := mkTarget { tg_Type : string; tg_ClusterID : string; tg_Namespace : string; tg_KubeContext : string }.

Record PromotionPolicy := mkPolicy { pp_Strategy : string; pp_RequiredApprovers : Z; pp_AutoPromoteOn : list string }.

(** A nil map of secrets behaves as an empty one everywhere. *)
Record Environment := mkEnv {
  en_ID : string; en_Name : string; en_Order : Z; en_Target : EnvironmentTarget; en_Promotion : PromotionPolicy;
  en_PlainVars : option (gmap string string); en_Secrets : gmap string string; en_SecretKeys : list string;
  en_Variables : option (gmap string string); en_CreatedAt : Z; en_Version : Z
}.

Definition NormalisePlainVars (e : Environment) : Environment :=
  mkEnv (en_ID e) (en_Name e) (en_Order e) (en_Target e) (en_Promotion e)
    (Some (match en_PlainVars e with Some m => m | None => default ∅ (en_Variables e) end)) (en_Secrets e) (en_SecretKeys e) None
    (en_CreatedAt e) (en_Version e).

Definition with_Secrets (m : gmap string string) (e : Environment) : Environment :=
  mkEnv (en_ID e) (en_Name e) (en_Order e) (en_Target e) (en_Promotion e) (en_PlainVars e) m (en_SecretKeys e) (en_Variables e)
    (en_CreatedAt e) (en_Version e).

(** The insertion sort of [Redact]: [k] moves towards the front of the sorted keys. *)
Fixpoint insert_key (k : string) (sorted : list string) : list string :=
  match sorted with
  | [] => [k]
  | x :: rest => if String.ltb x k then x :: insert_key k rest else k :: sorted
  end.

Section redact.
Context `{RO : RangeOrder}.

Definition Redact (e : Environment) : Environment :=
  let keys := foldl (fun sorted k => insert_key k sorted) [] (range_map (en_Secrets e)).*1 in
  mkEnv (en_ID e) (en_Name e) (en_Order e) (en_Target e) (en_Promotion e) (en_PlainVars e) ∅
    (match keys with [] => en_SecretKeys e | _ => keys end) (en_Variables e) (en_CreatedAt e) (en_Version e).
End redact.

(** [Host] is Ssh's.  Its key reference has no JSON name: a decoded host has none. *)
Definition host_ids (id : string) (created updated : Z) (h : Host) : Host :=
  mkHost id (h_Name h) (h_Kind h) (h_Reachability h) (h_DockerEndpoint h) (h_KubeconfigRef h) (h_TailnetIP h) (h_SSHEndpoint h) (h_SSHUser h)
    (h_SSHPort h) (h_SSHPrivateKeyRef h) (h_SSHKnownHostKey h) (h_SSHStrictHostKey h) created updated (h_Version h).

Definition host_defaults (reachability : string) (port : Z) (strict : bool) (h : Host) : Host :=
  mkHost (h_ID h) (h_Name h) (h_Kind h) reachability (h_DockerEndpoint h) (h_KubeconfigRef h) (h_TailnetIP h) (h_SSHEndpoint h) (h_SSHUser h)
    port (h_SSHPrivateKeyRef h) (h_SSHKnownHostKey h) strict (h_CreatedAt h) (h_UpdatedAt h) (h_Version h).

Definition host_keys (ref known : string) (h : Host) : Host :=
  mkHost (h_ID h) (h_Name h) (h_Kind h) (h_Reachability h) (h_DockerEndpoint h) (h_KubeconfigRef h) (h_TailnetIP h) (h_SSHEndpoint h) (h_SSHUser h)
    (h_SSHPort h) ref known (h_SSHStrictHostKey h) (h_CreatedAt h) (h_UpdatedAt h) (h_Version h).

Definition host_version (v : Z) (h : Host) : Host :=
  mkHost (h_ID h) (h_Name h) (h_Kind h) (h_Reachability h) (h_DockerEndpoint h) (h_KubeconfigRef h) (h_TailnetIP h) (h_SSHEndpoint h) (h_SSHUser h)
    (h_SSHPort h) (h_SSHPrivateKeyRef h) (h_SSHKnownHostKey h) (h_SSHStrictHostKey h) (h_CreatedAt h) (h_UpdatedAt h) v.

(** ** The tables *)

Inductive store_error := NotFound | Conflict | Failure.

(** What an update of an environment's row means for its secrets. *)
Inductive effect := SPut (key value : string) | SDel (key : string).

(** [wd_log] records the secrets' changes in the order of the updates, with the request
    that made each; [wd_goneE] and [wd_goneH] the rows that were deleted. *)
Record world := mkWorld {
  wd_envs : gmap string Environment; wd_hosts : gmap string Host; wd_goneE : gset string; wd_goneH : gset string; wd_log : list (nat * string * effect)
}.

(** The last argument of [EnvUpdate] only labels the call for [wd_log]. *)
Inductive call : Set -> Set :=
| EnvList (limit offset : Z) : call (result store_error (list Environment))
| EnvGet (id : string) : call (result store_error Environment)
| EnvCreate (e : Environment) : call (result store_error unit)
| EnvUpdate (e : Environment) (label : list effect) : call (result store_error unit)
| EnvDelete (id : string) : call (result store_error unit)
| HostList (limit offset : Z) : call (result store_error (list Host))
| HostGet (id : string) : call (result store_error Host)
| HostCreate (h : Host) : call (result store_error unit)
| HostUpdate (h : Host) : call (result store_error unit)
| HostDelete (id : string) : call (result store_error unit).

(** The row of an environment: two of the fields have no column. *)
Definition env_row (created version : Z) (e : Environment) : Environment :=
  mkEnv (en_ID e) (en_Name e) (en_Order e) (en_Target e) (en_Promotion e) (en_PlainVars e) (en_Secrets e) [] None created version.

Definition env_named (name id : string) (envs : gmap string Environment) : bool :=
  existsb (fun p => (en_Name (p.2) =s name) && negb (p.1 =s id)) (map_to_list envs).

Definition host_named (name id : string) (hosts : gmap string Host) : bool :=
  existsb (fun p => (h_Name p.2 =s name) && negb (p.1 =s id)) (map_to_list hosts).

(** A row keeps its creation time, and an insert starts at the column's default version. *)
Definition host_row (created version : Z) (h : Host) : Host := host_version version (host_ids (h_ID h) created (h_UpdatedAt h) h).

Definition set_envs (envs : gmap string Environment) (w : world) : world := mkWorld envs (wd_hosts w) (wd_goneE w) (wd_goneH w) (wd_log w).
Definition set_hosts (hosts : gmap string Host) (w : world) : world := mkWorld (wd_envs w) hosts (wd_goneE w) (wd_goneH w) (wd_log w).
Definition drop_env (id : string) (w : world) : world := mkWorld (delete id (wd_envs w)) (wd_hosts w) ({[id]} ∪ wd_goneE w) (wd_goneH w) (wd_log w).
Definition drop_host (id : string) (w : world) : world := mkWorld (wd_envs w) (delete id (wd_hosts w)) (wd_goneE w) ({[id]} ∪ wd_goneH w) (wd_log w).
Definition set_log (l : list (nat * string * effect)) (w : world) : world := mkWorld (wd_envs w) (wd_hosts w) (wd_goneE w) (wd_goneH w) l.

Section exec.
Context `{RO : RangeOrder} (i : nat).

(** One statement, of request [i]. *)
Definition exec {A} (c : call A) (w : world) : world * A :=
  match c in call A return world * A with
  | EnvList limit offset => (w, Ok (paginate (sort_slice (fun a b => en_Order a <? en_Order b) (range_map (wd_envs w)).*2) limit offset))
  | EnvGet id => (w, match wd_envs w !! id with Some e => Ok e | None => Err NotFound end)
  | EnvCreate e =>
      match wd_envs w !! en_ID e with
      | Some _ => (w, Err Failure)
      | None =>
          if env_named (en_Name e) (en_ID e) (wd_envs w) then (w, Err Failure)
          else (set_envs (<[en_ID e := env_row (en_CreatedAt e) 0 e]> (wd_envs w)) w, Ok tt)
      end
  | EnvUpdate e label =>
      match wd_envs w !! en_ID e with
      | None => (w, Err NotFound)
      | Some cur =>
          if negb (en_Version cur =? en_Version e) then (w, Err Conflict)
          else if env_named (en_Name e) (en_ID e) (wd_envs w) then (w, Err Failure)
          else (set_log (wd_log w ++ ((fun x => (i, en_ID e, x)) <$> label))
                  (set_envs (<[en_ID e := env_row (en_CreatedAt cur) (en_Version e + 1) e]> (wd_envs w)) w), Ok tt)
      end
  | EnvDelete id =>
      match wd_envs w !! id with
      | None => (w, Err NotFound)
      | Some _ => (drop_env id w, Ok tt)
      end
  | HostList limit offset => (w, Ok (paginate (sort_slice (fun a b => String.ltb (h_Name a) (h_Name b)) (range_map (wd_hosts w)).*2) limit offset))
  | HostGet id => (w, match wd_hosts w !! id with Some h => Ok h | None => Err NotFound end)
  | HostCreate h =>
      match wd_hosts w !! h_ID h with
      | Some _ => (w, Err Failure)
      | None =>
          if host_named (h_Name h) (h_ID h) (wd_hosts w) then (w, Err Failure)
          else (set_hosts (<[h_ID h := host_row (h_CreatedAt h) 0 h]> (wd_hosts w)) w, Ok tt)
      end
  | HostUpdate h =>
      match wd_hosts w !! h_ID h with
      | None => (w, Err NotFound)
      | Some cur =>
          if negb (h_Version cur =? h_Version h) then (w, Err Conflict)
          else if host_named (h_Name h) (h_ID h) (wd_hosts w) then (w, Err Failure)
          else (set_hosts (<[h_ID h := host_row (h_CreatedAt cur) (h_Version h + 1) h]> (wd_hosts w)) w, Ok tt)
      end
  | HostDelete id =>
      match wd_hosts w !! id with
      | None => (w, Err NotFound)
      | Some _ => (drop_host id w, Ok tt)
      end
  end.

(** The answer of a statement that failed, without effect. *)
Definition failed {A} (c : call A) : A :=
  match c in call A return A with
  | EnvList _ _ => Err Failure | EnvGet _ => Err Failure | EnvCreate _ => Err Failure | EnvUpdate _ _ => Err Failure | EnvDelete _ => Err Failure
  | HostList _ _ => Err Failure | HostGet _ => Err Failure | HostCreate _ => Err Failure | HostUpdate _ => Err Failure | HostDelete _ => Err Failure
  end.
End exec.

(** ** Programs *)

Inductive prog (R : Type) : Type :=
| Done (r : R)
| Call {A : Set} (c : call A) (k : A -> prog R).
Arguments Done {R} r. Arguments Call {R A} c k.

#[export] Instance prog_ret : MRet prog := fun R r => Done r.

#[export] Instance prog_fmap : FMap prog := fun A B f =>
  fix go p := match p with Done a => Done (f a) | Call c k => Call c (fun x => go (k x)) end.

#[export] Instance prog_bind : MBind prog := fun A B f =>
  fix go p := match p with Done a => f a | Call c k => Call c (fun x => go (k x)) end.

Definition do {A : Set} (c : call A) : prog A := Call c Done.

(** ** The secrets manager *)

Inductive probe_error := HTTPError (status : Z) | TimedOut | OpError | OtherError.

Inductive secret_error := SecretNotFound | StoreFailed (e : store_error) | CodecFailed | Backend (e : probe_error).

(** [secrets.Manager], with the optional [Promoter].  Values are bytes. *)
Record Manager := mkManager {
  m_Get : string -> string -> prog (result secret_error string);
  m_Put : string -> string -> string -> prog (result secret_error unit);
  m_Delete : string -> string -> prog (result secret_error unit);
  m_List : string -> prog (result secret_error (list string));
  m_Promote : option (string -> string -> list string -> prog (result secret_error unit))
}.

(** The errors of [envs.Get] as the database manager passes them on. *)
Definition get_error (e : store_error) : secret_error := match e with NotFound => SecretNotFound | e => StoreFailed e end.

Definition updated (r : result store_error unit) : result secret_error unit :=
  match r with Ok u => Ok u | Err e => Err (StoreFailed e) end.

Section database.
Context `{RO : RangeOrder} (codec : option AEAD) (nonce : string).

Definition db_Get (envID key : string) : prog (result secret_error string) :=
  r ← do (EnvGet envID);
  match r with
  | Err e => mret (Err (get_error e))
  | Ok env =>
      match en_Secrets env !! key with
      | None => mret (Err SecretNotFound)
      | Some sealed => mret (match Open codec sealed with inr plain => Ok plain | inl _ => Err CodecFailed end)
      end
  end.

Definition db_Put (envID key value : string) : prog (result secret_error unit) :=
  r ← do (EnvGet envID);
  match r with
  | Err e => mret (Err (get_error e))
  | Ok env =>
      match Seal codec nonce value with
      | inl _ => mret (Err CodecFailed)
      | inr sealed => r ← do (EnvUpdate (with_Secrets (<[key := sealed]> (en_Secrets env)) env) [SPut key value]); mret (updated r)
      end
  end.

Definition db_Delete (envID key : string) : prog (result secret_error unit) :=
  r ← do (EnvGet envID);
  match r with
  | Err NotFound => mret (Ok tt)
  | Err e => mret (Err (StoreFailed e))
  | Ok env => r ← do (EnvUpdate (with_Secrets (delete key (en_Secrets env)) env) [SDel key]); mret (updated r)
  end.

Definition db_List (envID : string) : prog (result secret_error (list string)) :=
  r ← do (EnvGet envID);
  match r with Err e => mret (Err (get_error e)) | Ok env => mret (Ok (range_map (en_Secrets env)).*1) end.

Definition database : Manager := mkManager db_Get db_Put db_Delete db_List None.
End database.

(** [classifySecretsErr]. *)
Definition classifySecretsErr (print : Z -> string) (e : secret_error) : string :=
  match e with
  | Backend (HTTPError status) =>
      if (status =? 401) || (status =? 403) then "authentication failed — check the backend credentials" else "backend returned HTTP " +:+ print status
  | Backend TimedOut => "backend unreachable — probe timed out"
  | Backend OpError => "backend unreachable — connection failed"
  | _ => "probe failed — see server logs"
  end.

(** [CheckSecrets]: what the probe reports, less the latency. *)
Definition CheckSecrets (print : Z -> string) (mgr : Manager) (envID : string) : prog (bool * string) :=
  r ← m_List mgr envID; mret (match r with Ok _ => (true, "") | Err e => (false, classifySecretsErr print e) end).

(** ** Answers *)

Inductive reply :=
| EnvReply (status : Z) (e : Environment) | EnvsReply (l : list Environment) | HostReply (status : Z) (h : Host * bool) | HostsReply (l : list (Host * bool))
| SecretReply (key value : string) | KeyReply (key : string) | Promoted | ProbeReply (ok : bool) (error : string) | Deleted | Refused (status : Z).

Definition abortStoreErr (e : store_error) : prog reply := mret (Refused (match e with NotFound => 404 | Conflict => 409 | Failure => 500 end)).

(** [intQuery]. *)
Definition intQuery (v : string) (def min max : Z) : Z :=
  let out := if v =s "" then def else default def (atoi v) in
  let out := if out <? min then min else out in
  if max <? out then max else out.

Definition listDefaultLimit : Z := 100.
Definition listMaxLimit : Z := 1000.
Definition maxOffset : Z := 1073741824.

(** ** Environments *)

Section environments.
Context `{RO : RangeOrder}.

Definition ListEnvironments (limit offset : string) : prog reply :=
  r ← do (EnvList (intQuery limit listDefaultLimit 1 listMaxLimit) (intQuery offset 0 0 maxOffset));
  match r with Err e => abortStoreErr e | Ok envs => mret (EnvsReply (Redact <$> envs)) end.

(** [body] is the decoded request, if it decodes. *)
Definition CreateEnvironment (uuid : string) (now : Z) (body : option Environment) : prog reply :=
  match body with
  | None => mret (Refused 400)
  | Some env =>
      let env := NormalisePlainVars (mkEnv uuid (en_Name env) (en_Order env) (en_Target env) (en_Promotion env) (en_PlainVars env) ∅
                   (en_SecretKeys env) (en_Variables env) now (en_Version env)) in
      r ← do (EnvCreate env);
      match r with Err _ => mret (Refused 500) | Ok _ => mret (EnvReply 201 (Redact env)) end
  end.

(** A successful update also counts the version up in the struct that is answered. *)
Definition UpdateEnvironment (id : string) (body : option Environment) : prog reply :=
  r ← do (EnvGet id);
  match r with
  | Err e => abortStoreErr e
  | Ok existing =>
      match body with
      | None => mret (Refused 400)
      | Some env =>
          let env := NormalisePlainVars (mkEnv id (en_Name env) (en_Order env) (en_Target env) (en_Promotion env) (en_PlainVars env) (en_Secrets existing)
                       (en_SecretKeys env) (en_Variables env) (en_CreatedAt existing) (en_Version env)) in
          r ← do (EnvUpdate env []);
          match r with
          | Err e => abortStoreErr e
          | Ok _ => mret (EnvReply 200 (Redact (mkEnv (en_ID env) (en_Name env) (en_Order env) (en_Target env) (en_Promotion env) (en_PlainVars env)
                      (en_Secrets env) (en_SecretKeys env) (en_Variables env) (en_CreatedAt env) (en_Version env + 1))))
          end
      end
  end.

Definition DeleteEnvironment (id : string) : prog reply :=
  r ← do (EnvDelete id); match r with Err e => abortStoreErr e | Ok _ => mret Deleted end.

(** [value] is the required field of the body. *)
Definition PutSecret (mgr : option Manager) (claims : option Claims) (id key : string) (value : option string) : prog reply :=
  match mgr with
  | None => mret (Refused 503)
  | Some mgr =>
      if negb (CanRevealSecret claims) then mret (Refused 403) else
      match value with
      | None | Some "" => mret (Refused 400)
      | Some value =>
          r ← do (EnvGet id);
          match r with
          | Err e => abortStoreErr e
          | Ok _ => r ← m_Put mgr id key value; match r with Err _ => mret (Refused 500) | Ok _ => mret (KeyReply key) end
          end
      end
  end.

Definition RevealSecret (mgr : option Manager) (claims : option Claims) (id key : string) : prog reply :=
  match mgr with
  | None => mret (Refused 503)
  | Some mgr =>
      if negb (CanRevealSecret claims) then mret (Refused 403) else
      r ← do (EnvGet id);
      match r with
      | Err e => abortStoreErr e
      | Ok _ =>
          r ← m_Get mgr id key;
          match r with Err SecretNotFound => mret (Refused 404) | Err _ => mret (Refused 500) | Ok value => mret (SecretReply key value) end
      end
  end.

Definition DeleteSecret (mgr : option Manager) (claims : option Claims) (id key : string) : prog reply :=
  match mgr with
  | None => mret (Refused 503)
  | Some mgr =>
      if negb (CanRevealSecret claims) then mret (Refused 403) else
      r ← do (EnvGet id);
      match r with
      | Err e => abortStoreErr e
      | Ok _ => r ← m_Delete mgr id key; match r with Err _ => mret (Refused 500) | Ok _ => mret (KeyReply key) end
      end
  end.

Definition PromoteSecrets (mgr : option Manager) (claims : option Claims) (from : string) (body : option (string * list string)) : prog reply :=
  match mgr with
  | None => mret (Refused 503)
  | Some mgr =>
      if negb (CanRevealSecret claims) then mret (Refused 403) else
      match body with
      | None | Some ("", _) => mret (Refused 400)
      | Some (to, keys) =>
          if from =s to then mret (Refused 400) else
          r ← do (EnvGet from);
          match r with
          | Err e => abortStoreErr e
          | Ok _ =>
              r ← do (EnvGet to);
              match r with
              | Err e => abortStoreErr e
              | Ok _ =>
                  match m_Promote mgr with
                  | None => mret (Refused 501)
                  | Some promote =>
                      r ← promote from to keys;
                      match r with Err SecretNotFound => mret (Refused 404) | Err _ => mret (Refused 500) | Ok _ => mret Promoted end
                  end
              end
          end
      end
  end.

(** [environmentID]: none when the body does not decode, empty when it names none. *)
Definition TestSecretsBackend (print : Z -> string) (mgr : option Manager) (environmentID : option string) : prog reply :=
  match mgr with
  | None => mret (Refused 503)
  | Some mgr =>
      let probe id := (r ← CheckSecrets print mgr id; mret (ProbeReply r.1 r.2)) in
      match environmentID with
      | None => mret (Refused 400)
      | Some "" =>
          r ← do (EnvList 0 0);
          match r with Err _ => mret (Refused 500) | Ok [] => mret (Refused 409) | Ok (e :: _) => probe (en_ID e) end
      | Some id => probe id
      end
  end.
End environments.

(** ** Hosts *)

Definition hostSecretsEnvID : string := "_hosts".
Definition hostSSHKeyKey : string := "ssh_private_key".

Definition host_secret (hostID : string) : string := (hostSSHKeyKey +:+ ".") +:+ hostID.

Definition hostKeyRef (hostID : string) : string := "host:" +:+ hostID.
Definition resolveKeyRef (ref : string) : string := if has_prefix "host:" ref then trim_prefix "host:" ref else "".

Inductive host_error := StoreError (e : store_error) | ErrSecretsUnavailable | ErrInvalidPrivateKey | NoHostID | ProbeFailed | BootstrapFailed | KeyNotStored | NoKeyRef | UnknownKeyRef | KeyNotLoaded
  | OtherKeyPinned | PinRetriesExhausted.

(** The synthetic environment as [ensureHostsEnv] makes it. *)
Definition hosts_env (now : Z) : Environment :=
  mkEnv hostSecretsEnvID "_hosts (internal)" 0 (mkTarget "" "" "" "") (mkPolicy "" 0 []) None ∅ [] None now 0.

(** [parse] is [gossh.ParsePrivateKey]'s verdict; [now] and the manager are the request's. *)
Section hosts.
Context `{RO : RangeOrder} (parse : string -> bool) (mgr : option Manager) (now : Z).

Definition ensureHostsEnv : prog (result host_error unit) :=
  r ← do (EnvGet hostSecretsEnvID);
  match r with
  | Ok _ => mret (Ok tt)
  | Err NotFound =>
      r ← do (EnvCreate (hosts_env now));
      mret (match r with Ok _ | Err Conflict => Ok tt | Err _ => Err BootstrapFailed end)
  | Err _ => mret (Err ProbeFailed)
  end.

(** [maybeStoreKey]: the host with its reference stamped on. *)
Definition maybeStoreKey (h : Host) (pem : string) : prog (result host_error Host) :=
  if pem =s "" then mret (Ok h) else
  match mgr with
  | None => mret (Err ErrSecretsUnavailable)
  | Some mgr =>
      if negb (parse pem) then mret (Err ErrInvalidPrivateKey) else
      if h_ID h =s "" then mret (Err NoHostID) else
      r ← ensureHostsEnv;
      match r with
      | Err e => mret (Err e)
      | Ok _ =>
          r ← m_Put mgr hostSecretsEnvID (host_secret (h_ID h)) pem;
          mret (match r with Err _ => Err KeyNotStored | Ok _ => Ok (host_keys (hostKeyRef (h_ID h)) (h_SSHKnownHostKey h) h) end)
      end
  end.

Definition service_CreateHost (h : Host) (pem : string) : prog (result host_error Host) :=
  r ← maybeStoreKey h pem;
  match r with
  | Err e => mret (Err e)
  | Ok h => r ← do (HostCreate h); mret (match r with Ok _ => Ok h | Err e => Err (StoreError e) end)
  end.

Definition service_UpdateHost (existing h : Host) (pem : string) : prog (result host_error Host) :=
  let h := host_keys (if h_SSHPrivateKeyRef h =s "" then h_SSHPrivateKeyRef existing else h_SSHPrivateKeyRef h)
             (if h_SSHKnownHostKey h =s "" then h_SSHKnownHostKey existing else h_SSHKnownHostKey h) h in
  r ← (if pem =s "" then mret (Ok h) else maybeStoreKey h pem);
  match r with
  | Err e => mret (Err e)
  | Ok h => r ← do (HostUpdate h); mret (match r with Ok _ => Ok (host_version (h_Version h + 1) h) | Err e => Err (StoreError e) end)
  end.

(** The key's deletion is best effort; [OnDelete] is Ssh's [Evict]. *)
Definition service_DeleteHost (hostID : string) : prog (result host_error unit) :=
  r ← do (HostDelete hostID);
  match r with
  | Err e => mret (Err (StoreError e))
  | Ok _ =>
      match mgr with
      | None => mret (Ok tt)
      | Some mgr => _ ← m_Delete mgr hostSecretsEnvID (host_secret hostID); mret (Ok tt)
      end
  end.

Definition LoadPrivateKey (host : option Host) : prog (result host_error string) :=
  match host with
  | None => mret (Err NoKeyRef)
  | Some h =>
      if h_SSHPrivateKeyRef h =s "" then mret (Err NoKeyRef) else
      if resolveKeyRef (h_SSHPrivateKeyRef h) =s "" then mret (Err UnknownKeyRef) else
      match mgr with
      | None => mret (Err ErrSecretsUnavailable)
      | Some mgr =>
          r ← m_Get mgr hostSecretsEnvID (host_secret (resolveKeyRef (h_SSHPrivateKeyRef h)));
          mret (match r with Err _ => Err KeyNotLoaded | Ok pem => Ok pem end)
      end
  end.

Definition pinHostKeyMaxRetries : nat := 3.

Fixpoint pin_attempts (n : nat) (hostID serialisedKey : string) : prog (result host_error unit) :=
  match n with
  | O => mret (Err PinRetriesExhausted)
  | S n =>
      r ← do (HostGet hostID);
      match r with
      | Err e => mret (Err (StoreError e))
      | Ok existing =>
          if h_SSHKnownHostKey existing =s serialisedKey then mret (Ok tt)
          else if negb (h_SSHKnownHostKey existing =s "") then mret (Err OtherKeyPinned)
          else
            r ← do (HostUpdate (host_keys (h_SSHPrivateKeyRef existing) serialisedKey existing));
            match r with
            | Ok _ => mret (Ok tt)
            | Err Conflict => pin_attempts n hostID serialisedKey
            | Err e => mret (Err (StoreError e))
            end
      end
  end.

Definition PinHostKey (hostID serialisedKey : string) : prog (result host_error unit) := pin_attempts pinHostKeyMaxRetries hostID serialisedKey.

(** *** The handlers *)

(** The checks of [validateHostInput], in its order. *)
Definition validateHostInput (h : Host) : bool :=
  bool_decide (Validate.Name "name" (h_Name h) = None) && bool_decide (ValidHostKind (h_Kind h) = None) &&
  ((h_Reachability h =s "") || bool_decide (ValidHostReachability (h_Reachability h) = None)) &&
  (negb (h_Kind h =s HostKindSSHDocker) || (negb (h_SSHEndpoint h =s "") && negb (h_SSHUser h =s ""))).

Definition handleHostServiceError (e : host_error) : Z :=
  match e with ErrInvalidPrivateKey => 400 | ErrSecretsUnavailable => 503 | _ => 500 end.

Definition ListHosts (limit offset : string) : prog reply :=
  r ← do (HostList (intQuery limit listDefaultLimit 1 listMaxLimit) (intQuery offset 0 0 maxOffset));
  match r with Err e => abortStoreErr e | Ok hosts => mret (HostsReply (Redact_host <$> hosts)) end.

Definition GetHost (id : string) : prog reply :=
  r ← do (HostGet id); match r with Err e => abortStoreErr e | Ok h => mret (HostReply 200 (Redact_host h)) end.

Definition host_port (h : Host) : Z := if h_SSHPort h =? 0 then 22 else h_SSHPort h.

(** The line that means to default [SSHStrictHostKey] to true. *)
Definition host_strict (h : Host) (pem : string) : bool :=
  if negb (h_SSHStrictHostKey h) && (pem =s "") && (h_SSHKnownHostKey h =s "") then true else h_SSHStrictHostKey h.

(** [wired] is whether the server has a host service; the body is the host and the PEM. *)
Definition CreateHost (wired : bool) (uuid : string) (body : option (Host * string)) : prog reply :=
  match body with
  | None => mret (Refused 400)
  | Some (host, pem) =>
      if negb (validateHostInput host) then mret (Refused 400) else
      let host := host_keys "" (h_SSHKnownHostKey host) host in
      let host := host_ids uuid now now (host_defaults (if h_Reachability host =s "" then "direct" else h_Reachability host) (h_SSHPort host)
                    (h_SSHStrictHostKey host) host) in
      if h_Kind host =s HostKindSSHDocker then
        let host := host_defaults (h_Reachability host) (host_port host) (host_strict host pem) host in
        if pem =s "" then mret (Refused 400) else
        if negb wired then mret (Refused 503) else
        r ← service_CreateHost host pem;
        match r with Err e => mret (Refused (handleHostServiceError e)) | Ok host => mret (HostReply 201 (Redact_host host)) end
      else
        r ← do (HostCreate host);
        match r with Err _ => mret (Refused 500) | Ok _ => mret (HostReply 201 (Redact_host host)) end
  end.

Definition UpdateHost (wired : bool) (id : string) (body : option (Host * string)) : prog reply :=
  r ← do (HostGet id);
  match r with
  | Err e => abortStoreErr e
  | Ok existing =>
      match body with
      | None => mret (Refused 400)
      | Some (host, pem) =>
          if negb (validateHostInput host) then mret (Refused 400) else
          let host := host_ids id (h_CreatedAt existing) now (host_keys "" (h_SSHKnownHostKey host) host) in
          let ssh := h_Kind host =s HostKindSSHDocker in
          let host := if ssh then host_defaults (h_Reachability host) (host_port host) (h_SSHStrictHostKey host) host else host in
          if ssh && negb wired && negb (pem =s "") then mret (Refused 503) else
          if ssh && wired then
            r ← service_UpdateHost existing host pem;
            match r with Err e => mret (Refused (handleHostServiceError e)) | Ok host => mret (HostReply 200 (Redact_host host)) end
          else
            let host := host_keys (h_SSHPrivateKeyRef existing) (h_SSHKnownHostKey existing) host in
            r ← do (HostUpdate host);
            match r with Err e => abortStoreErr e | Ok _ => mret (HostReply 200 (Redact_host (host_version (h_Version host + 1) host))) end
      end
  end.

Definition abortHostErr (e : host_error) : prog reply := match e with StoreError e => abortStoreErr e | _ => mret (Refused 500) end.

Definition DeleteHost (wired : bool) (id : string) : prog reply :=
  if wired then r ← service_DeleteHost id; match r with Err e => abortHostErr e | Ok _ => mret Deleted end
  else r ← do (HostDelete id); match r with Err e => abortStoreErr e | Ok _ => mret Deleted end.
End hosts.

(** [ListSSHHostsLaxStrictHostKey], on the rows. *)
Definition ListSSHHostsLaxStrictHostKey (all : list Host) : list (string * string) :=
  omap (fun h => if (h_Kind h =s HostKindSSHDocker) && negb (h_SSHStrictHostKey h) then Some (h_ID h, h_Name h) else None) all.

(** ** The server *)

Inductive request :=
| RListEnvironments (limit offset : string) | RCreateEnvironment (now : Z) (body : option Environment)
| RUpdateEnvironment (id : string) (body : option Environment) | RDeleteEnvironment (id : string)
| RPutSecret (claims : option Claims) (id key : string) (value : option string) | RRevealSecret (claims : option Claims) (id key : string)
| RDeleteSecret (claims : option Claims) (id key : string) | RPromoteSecrets (claims : option Claims) (from : string) (body : option (string * list string))
| RTestSecretsBackend (environmentID : option string)
| RListHosts (limit offset : string) | RGetHost (id : string) | RCreateHost (now : Z) (body : option (Host * string))
| RUpdateHost (id : string) (now : Z) (body : option (Host * string)) | RDeleteHost (id : string)
| RLoadPrivateKey (h : Host) | RPinHostKey (id serialisedKey : string).

Inductive outcome := Reply (a : reply) | Loaded (r : result host_error string) | Pinned (r : result host_error unit).

(** A server over the database manager with key [aead]; the [i]th request draws [uuid i]
    and [nonce i]. *)
Section server.
Context `{RO : RangeOrder} (aead : AEAD) (uuid nonce : nat -> string) (parse : string -> bool) (print : Z -> string).

Definition manager (i : nat) : option Manager := Some (database (Some aead) (nonce i)).

Definition serve (i : nat) (r : request) : prog outcome :=
  match r with
  | RListEnvironments limit offset => Reply <$> ListEnvironments limit offset
  | RCreateEnvironment now body => Reply <$> CreateEnvironment (uuid i) now body
  | RUpdateEnvironment id body => Reply <$> UpdateEnvironment id body
  | RDeleteEnvironment id => Reply <$> DeleteEnvironment id
  | RPutSecret claims id key value => Reply <$> PutSecret (manager i) claims id key value
  | RRevealSecret claims id key => Reply <$> RevealSecret (manager i) claims id key
  | RDeleteSecret claims id key => Reply <$> DeleteSecret (manager i) claims id key
  | RPromoteSecrets claims from body => Reply <$> PromoteSecrets (manager i) claims from body
  | RTestSecretsBackend id => Reply <$> TestSecretsBackend print (manager i) id
  | RListHosts limit offset => Reply <$> ListHosts limit offset
  | RGetHost id => Reply <$> GetHost id
  | RCreateHost now body => Reply <$> CreateHost parse (manager i) now true (uuid i) body
  | RUpdateHost id now body => Reply <$> UpdateHost parse (manager i) now true id body
  | RDeleteHost id => Reply <$> DeleteHost (manager i) true id
  | RLoadPrivateKey h => Loaded <$> LoadPrivateKey (manager i) (Some h)
  | RPinHostKey id k => Pinned <$> PinHostKey id k
  end.

(** A request, the length of the log when it arrived, and what is left of its program. *)
Record thread := mkThread { th_request : request; th_since : nat; th_prog : prog outcome }.

Record conf := mkConf { cf_world : world; cf_threads : list thread }.

(** What a client may send.  The version of an update is one the row has had; the synthetic
    environment is left to the host service; a key is loaded for a row of the table. *)
Definition seen (version : option Z) (gone : Prop) (v : Z) : Prop :=
  match version with Some cur => v <= cur | None => gone \/ v <= 0 end.

Definition admissible (w : world) (r : request) : Prop :=
  match r with
  | RUpdateEnvironment id (Some e) => seen (en_Version <$> wd_envs w !! id) (id ∈ wd_goneE w) (en_Version e)
  | RUpdateHost id _ (Some (h, _)) => seen (h_Version <$> wd_hosts w !! id) (id ∈ wd_goneH w) (h_Version h)
  | RDeleteEnvironment id | RPutSecret _ id _ _ | RDeleteSecret _ id _ => id <> hostSecretsEnvID
  | RLoadPrivateKey h => wd_hosts w !! h_ID h = Some h
  | _ => True
  end.

Inductive vstep (c : conf) : conf -> Prop :=
| v_arrive r : admissible (cf_world c) r ->
    vstep c (mkConf (cf_world c) (cf_threads c ++ [mkThread r (length (wd_log (cf_world c))) (serve (length (cf_threads c)) r)]))
| v_call i r n (A : Set) (cl : call A) k : cf_threads c !! i = Some (mkThread r n (Call cl k)) ->
    vstep c (mkConf (exec i cl (cf_world c)).1 (<[i := mkThread r n (k (exec i cl (cf_world c)).2)]> (cf_threads c)))
| v_fail i r n (A : Set) (cl : call A) k : cf_threads c !! i = Some (mkThread r n (Call cl k)) ->
    vstep c (mkConf (cf_world c) (<[i := mkThread r n (k (failed cl))]> (cf_threads c))).

Definition empty_world : world := mkWorld ∅ ∅ ∅ ∅ [].

Definition vault_reachable : conf -> Prop := reachable (fun c => c = mkConf empty_world []) vstep.

(** A program on its own, no statement failing. *)
Fixpoint run {R} (p : prog R) (w : world) : world * R :=
  match p with Done r => (w, r) | Call c k => run (k (exec 0 c w).2) (exec 0 c w).1 end.
End server.

(** ** What the log says

    The secrets of an environment, key by key, as its successful updates left them. *)

Definition apply_effect (x : effect) (m : gmap string string) : gmap string string :=
  match x with SPut key value => <[key := value]> m | SDel key => delete key m end.

Definition secrets_of (id : string) (log : list (nat * string * effect)) : gmap string string :=
  foldl (fun m '(_, id', x) => if id' =s id then apply_effect x m else m) ∅ log.

(** The changes request [i] made. *)
Definition made (i : nat) (log : list (nat * string * effect)) : list (string * effect) :=
  omap (fun '(j, id, x) => if Nat.eqb j i then Some (id, x) else None) log.

Arguments secrets_of : simpl never.
Arguments made : simpl never.
#[local] Arguments Open : simpl never.

(** ** Interference

    What stays true of the world while other requests run. *)

Section vault.
Context `{RO : RangeOrder} (aead : AEAD) (uuid nonce : nat -> string) (parse : string -> bool) (print : Z -> string).
Context (uuid_inj : Inj eq eq uuid) (uuid_real : forall i, uuid i <> hostSecretsEnvID) (uuid_some : forall i, uuid i <> "").
Context (nonce_size : forall i, str_len (nonce i) = NonceSize).

(** The sealed secrets open to [m]. *)
Definition opens (sealed m : gmap string string) : Prop := forall key, Open (Some aead) <$> sealed !! key = inr <$> m !! key.

Record world_inv (w : world) : Prop := {
  wi_env : forall id e, wd_envs w !! id = Some e -> en_ID e = id /\ 0 <= en_Version e /\ opens (en_Secrets e) (secrets_of id (wd_log w));
  wi_log : forall id, wd_envs w !! id = None -> id ∉ wd_goneE w -> secrets_of id (wd_log w) = ∅;
  wi_goneE : forall id, id ∈ wd_goneE w -> wd_envs w !! id = None;
  wi_goneH : forall id, id ∈ wd_goneH w -> wd_hosts w !! id = None;
  wi_synthetic : hostSecretsEnvID ∉ wd_goneE w;
  wi_keys : forall key pem, secrets_of hostSecretsEnvID (wd_log w) !! key = Some pem -> parse pem = true;
  wi_host : forall id h, wd_hosts w !! id = Some h -> h_ID h = id /\ id <> "" /\ 0 <= h_Version h /\
    (h_SSHPrivateKeyRef h = "" \/ h_SSHPrivateKeyRef h = hostKeyRef id /\ is_Some (secrets_of hostSecretsEnvID (wd_log w) !! host_secret id))
}.

Record evolves (w w' : world) : Prop := {
  ev_env : forall id e, wd_envs w !! id = Some e -> (exists e', wd_envs w' !! id = Some e' /\ (e' = e \/ en_Version e < en_Version e')) \/ id ∈ wd_goneE w';
  ev_host : forall id h, wd_hosts w !! id = Some h -> (exists h', wd_hosts w' !! id = Some h' /\ (h' = h \/ h_Version h < h_Version h')) \/ id ∈ wd_goneH w';
  ev_goneE : wd_goneE w ⊆ wd_goneE w';
  ev_goneH : wd_goneH w ⊆ wd_goneH w';
  ev_log : exists l, wd_log w' = wd_log w ++ l;
  ev_key : forall id, is_Some (secrets_of hostSecretsEnvID (wd_log w) !! host_secret id) ->
    is_Some (secrets_of hostSecretsEnvID (wd_log w') !! host_secret id) \/ id ∈ wd_goneH w'
}.

(** An identifier nobody has used. *)
Definition fresh (id : string) (w : world) : Prop := wd_envs w !! id = None /\ (id ∉ wd_goneE w) /\ wd_hosts w !! id = None /\ (id ∉ wd_goneH w).

Definition untouched (id : string) (w w' : world) : Prop :=
  (wd_envs w !! id = None /\ id ∉ wd_goneE w -> wd_envs w' !! id = None /\ id ∉ wd_goneE w') /\
  (wd_hosts w !! id = None /\ id ∉ wd_goneH w -> wd_hosts w' !! id = None /\ id ∉ wd_goneH w').

(** What the others do to request [i]. *)
Record rely (i : nat) (w w' : world) : Prop := {
  re_evolves : evolves w w'; re_made : made i (wd_log w') = made i (wd_log w); re_uuid : untouched (uuid i) w w'
}.

(** Who changes the pinned key of a host: an operator who names one, or the first pin. *)
Definition pin_change (r : request) (w w' : world) : Prop :=
  forall id h h', wd_hosts w !! id = Some h -> wd_hosts w' !! id = Some h' -> h_SSHKnownHostKey h <> h_SSHKnownHostKey h' ->
    match r with
    | RPinHostKey id' key => id' = id /\ h_SSHKnownHostKey h = "" /\ h_SSHKnownHostKey h' = key
    | RUpdateHost id' _ (Some (b, _)) => id' = id /\ h_SSHKnownHostKey h' = h_SSHKnownHostKey b /\ h_SSHKnownHostKey b <> ""
    | _ => False
    end.

(** What request [i] may do. *)
Record guar (i : nat) (r : request) (w w' : world) : Prop := {
  gu_evolves : evolves w w'; gu_made : forall j, j <> i -> made j (wd_log w') = made j (wd_log w);
  gu_uuid : forall j, j <> i -> untouched (uuid j) w w'; gu_pin : pin_change r w w'
}.

Lemma evolves_refl w : evolves w w.
Proof. split; eauto 10. exists []. by rewrite app_nil_r. Qed.

Lemma evolves_trans w1 w2 w3 : evolves w1 w2 -> evolves w2 w3 -> evolves w1 w3.
Proof.
  intros [E1 H1 GE1 GH1 [l1 L1] K1] [E2 H2 GE2 GH2 [l2 L2] K2]. split.
  - intros id e He. destruct (E1 _ _ He) as [(e' & He' & Hv)|Hg]; [|right; set_solver].
    destruct (E2 _ _ He') as [(e'' & He'' & Hv')|Hg]; [|by right]. left. exists e''. split; [done|].
    destruct Hv as [->|Hv], Hv' as [->|Hv']; auto. right. lia.
  - intros id e He. destruct (H1 _ _ He) as [(e' & He' & Hv)|Hg]; [|right; set_solver].
    destruct (H2 _ _ He') as [(e'' & He'' & Hv')|Hg]; [|by right]. left. exists e''. split; [done|].
    destruct Hv as [->|Hv], Hv' as [->|Hv']; auto. right. lia.
  - set_solver.
  - set_solver.
  - exists (l1 ++ l2). by rewrite L2, L1, app_assoc.
  - intros id Hk. destruct (K1 _ Hk) as [Hk'|Hg]; [|right; set_solver]. by apply K2.
Qed.

Lemma untouched_refl id w : untouched id w w.
Proof. by split. Qed.

Lemma untouched_trans id w1 w2 w3 : untouched id w1 w2 -> untouched id w2 w3 -> untouched id w1 w3.
Proof. intros [A1 B1] [A2 B2]. split; auto. Qed.

Lemma rely_refl i w : rely i w w.
Proof. split; [apply evolves_refl|done|apply untouched_refl]. Qed.

Lemma rely_trans i w1 w2 w3 : rely i w1 w2 -> rely i w2 w3 -> rely i w1 w3.
Proof.
  intros [E1 M1 U1] [E2 M2 U2]. split; [by eapply evolves_trans|congruence|by eapply untouched_trans].
Qed.

Lemma guar_rely i j r w w' : i <> j -> guar i r w w' -> rely j w w'.
Proof. intros Hij [E M U _]. split; auto. Qed.

Lemma guar_refl i r w : guar i r w w.
Proof.
  split; [apply evolves_refl|done|intros; apply untouched_refl|]. intros id h h' H1 H2 Hne. congruence.
Qed.

(** ** Programs in company

    [safe i r w p Q]: from [w], with the others relied upon between any two calls, every
    call of [p] keeps the invariant and the guarantee, and [Q] holds of the result. *)

Fixpoint safe (i : nat) (r : request) {R} (w : world) (p : prog R) (Q : world -> R -> Prop) : Prop :=
  match p with
  | Done x => Q w x
  | Call c k =>
      forall w1, rely i w w1 -> world_inv w1 ->
        (world_inv (exec i c w1).1 /\ guar i r w1 (exec i c w1).1 /\ safe i r (exec i c w1).1 (k (exec i c w1).2) Q) /\
        safe i r w1 (k (failed c)) Q
  end.

Definition stable {R} (i : nat) (Q : world -> R -> Prop) : Prop := forall w w' x, Q w x -> rely i w w' -> Q w' x.

Lemma safe_rely i r {R} w w' (p : prog R) Q : stable i Q -> safe i r w p Q -> rely i w w' -> safe i r w' p Q.
Proof.
  intros HQ. destruct p as [x|A c k]; cbn; [by intros; eapply HQ|]. intros Hp Hr w1 Hr1 Hinv. apply Hp; [by eapply rely_trans|done].
Qed.

Lemma safe_mono i r {R} w (p : prog R) (Q Q' : world -> R -> Prop) : (forall w x, Q w x -> Q' w x) -> safe i r w p Q -> safe i r w p Q'.
Proof.
  intros HQ. revert w. induction p as [x|A c k IH]; intros w; cbn; [apply HQ|]. intros Hp w1 Hr Hi.
  destruct (Hp w1 Hr Hi) as [(H1 & H2 & H3) H4]. auto 6.
Qed.

Lemma safe_bind i r {A B} w (p : prog A) (f : A -> prog B) Q :
  safe i r w p (fun w x => safe i r w (f x) Q) -> safe i r w (p ≫= f) Q.
Proof.
  revert w. induction p as [x|A' c k IH]; intros w; cbn; [done|]. intros Hp w1 Hr Hi.
  destruct (Hp w1 Hr Hi) as [(H1 & H2 & H3) H4]. auto 6.
Qed.

Lemma safe_fmap i r {A B} w (p : prog A) (f : A -> B) Q : safe i r w p (fun w x => Q w (f x)) -> safe i r w (f <$> p) Q.
Proof.
  revert w. induction p as [x|A' c k IH]; intros w; cbn; [done|]. intros Hp w1 Hr Hi.
  destruct (Hp w1 Hr Hi) as [(H1 & H2 & H3) H4]. auto 6.
Qed.

(** ** The statements *)

Lemma secrets_of_app id l l' : secrets_of id (l ++ l') = foldl (fun m '(_, id', x) => if id' =s id then apply_effect x m else m) (secrets_of id l) l'.
Proof. apply foldl_app. Qed.

Lemma made_app i l l' : made i (l ++ l') = made i l ++ made i l'.
Proof. apply omap_app. Qed.

Definition tagged (i : nat) (id : string) (label : list effect) : list (nat * string * effect) := (fun x => (i, id, x)) <$> label.

Lemma made_tagged_other i j id label : j <> i -> made j (tagged i id label) = [].
Proof. intros Hij. unfold made, tagged. induction label as [|x l IH]; cbn; [done|]. rewrite (proj2 (Nat.eqb_neq i j)) by lia. done. Qed.

Lemma made_tagged i id label : made i (tagged i id label) = (fun x => (id, x)) <$> label.
Proof. unfold made, tagged. induction label as [|x l IH]; cbn; [done|]. rewrite Nat.eqb_refl. by f_equal. Qed.

Lemma secrets_of_tagged i id l label : secrets_of id (l ++ tagged i id label) = foldl (fun m x => apply_effect x m) (secrets_of id l) label.
Proof.
  rewrite secrets_of_app. generalize (secrets_of id l). unfold tagged. induction label as [|x label IH]; intros m; cbn; [done|].
  rewrite String.eqb_refl. apply IH.
Qed.

Lemma secrets_of_tagged_other i id id' l label : id <> id' -> secrets_of id' (l ++ tagged i id label) = secrets_of id' l.
Proof.
  intros Hne. rewrite secrets_of_app. generalize (secrets_of id' l). unfold tagged. induction label as [|x label IH]; intros m; cbn; [done|].
  apply String.eqb_neq in Hne. rewrite Hne. apply IH.
Qed.

(** What the synthetic environment's labels may be. *)
Definition label_ok (w : world) (id : string) (label : list effect) : Prop :=
  id = hostSecretsEnvID -> Forall (fun x => match x with
    | SPut _ value => parse value = true
    | SDel key => exists host, host ∈ wd_goneH w /\ key = host_secret host
    end) label.

Lemma host_secret_inj id id' : host_secret id = host_secret id' -> id = id'.
Proof. unfold host_secret. intros H. by simplify_eq/=. Qed.

Lemma label_keys w label m : label_ok w hostSecretsEnvID label -> (forall key pem, m !! key = Some pem -> parse pem = true) ->
  (forall key pem, foldl (fun m x => apply_effect x m) m label !! key = Some pem -> parse pem = true) /\
  (forall id, is_Some (m !! host_secret id) -> is_Some (foldl (fun m x => apply_effect x m) m label !! host_secret id) \/ id ∈ wd_goneH w).
Proof.
  intros Hok. specialize (Hok eq_refl). revert m. induction Hok as [|x label Hx _ IH]; intros m Hm; cbn; [auto|].
  assert (forall key pem, apply_effect x m !! key = Some pem -> parse pem = true) as Hm'.
  { intros key pem. destruct x as [k v|k]; cbn; [destruct (decide (k = key)) as [->|]|]; simplify_map_eq; [naive_solver|apply Hm|].
    intros [_ ?]%lookup_delete_Some. by eapply Hm. }
  destruct (IH _ Hm') as [H1 H2]. split; [exact H1|]. intros id Hid.
  destruct x as [k v|k]; cbn in *.
  - apply H2. destruct (decide (k = host_secret id)) as [->|]; simplify_map_eq; eauto.
  - destruct Hx as (host & Hh & ->). destruct (decide (host = id)) as [->|Hne]; [by right|]. apply H2.
    rewrite lookup_delete_ne; [done|]. intros He. by apply Hne, host_secret_inj.
Qed.

(** An update of an environment's row. *)
Lemma update_env_step i r w e cur label (w' := set_log (wd_log w ++ tagged i (en_ID e) label)
    (set_envs (<[en_ID e := env_row (en_CreatedAt cur) (en_Version e + 1) e]> (wd_envs w)) w)) :
  world_inv w -> wd_envs w !! en_ID e = Some cur -> en_Version cur = en_Version e ->
  opens (en_Secrets e) (foldl (fun m x => apply_effect x m) (secrets_of (en_ID e) (wd_log w)) label) -> label_ok w (en_ID e) label ->
  world_inv w' /\ guar i r w w'.
Proof.
  intros [Ie Il IgE IgH Is Ik Ih] Hcur Hv Hop Hlab.
  assert (forall id, id <> en_ID e -> secrets_of id (wd_log w') = secrets_of id (wd_log w)) as Hother by (intros id Hne; by apply secrets_of_tagged_other).
  assert (secrets_of (en_ID e) (wd_log w') = foldl (fun m x => apply_effect x m) (secrets_of (en_ID e) (wd_log w)) label) as Hthis by apply secrets_of_tagged.
  assert (forall key pem, secrets_of hostSecretsEnvID (wd_log w') !! key = Some pem -> parse pem = true) as Hkeys.
  { destruct (decide (en_ID e = hostSecretsEnvID)) as [He|Hne]; [|rewrite Hother by done; done]. rewrite <- He, Hthis in *. rewrite He in *.
    by apply (label_keys w label). }
  assert (forall id, is_Some (secrets_of hostSecretsEnvID (wd_log w) !! host_secret id) ->
    is_Some (secrets_of hostSecretsEnvID (wd_log w') !! host_secret id) \/ id ∈ wd_goneH w) as Hkept.
  { destruct (decide (en_ID e = hostSecretsEnvID)) as [He|Hne]; [|rewrite Hother by done; auto]. rewrite <- He, Hthis in *. rewrite He in *.
    by apply (label_keys w label). }
  assert (exists l, wd_log w' = wd_log w ++ l) as Hlog by eauto.
  assert (forall j, j <> i -> made j (wd_log w') = made j (wd_log w)) as Hmade by (intros j Hj; change (made j (wd_log w ++ tagged i (en_ID e) label) = made j (wd_log w)); by rewrite made_app, made_tagged_other, app_nil_r).
  assert (wd_envs w' = <[en_ID e := env_row (en_CreatedAt cur) (en_Version e + 1) e]> (wd_envs w)) as Henvs by done.
  assert (wd_hosts w' = wd_hosts w) as Hhosts by done. assert (wd_goneE w' = wd_goneE w) as HgE by done. assert (wd_goneH w' = wd_goneH w) as HgH by done.
  clearbody w'. split.
  - split; rewrite ?Henvs, ?Hhosts, ?HgE, ?HgH.
    + intros id x. destruct (decide (id = en_ID e)) as [->|Hne]; rewrite ?lookup_insert_eq, ?lookup_insert_ne by done.
      * intros [= <-]. cbn [env_row en_ID en_Version en_Secrets]. split; [done|]. split; [|by rewrite Hthis]. destruct (Ie _ _ Hcur). lia.
      * intros Hx. rewrite Hother by done. by apply Ie.
    + intros id. destruct (decide (id = en_ID e)) as [->|Hne]; rewrite ?lookup_insert_eq, ?lookup_insert_ne by done; [done|].
      rewrite Hother by done. apply Il.
    + intros id Hg. destruct (decide (id = en_ID e)) as [->|Hne]; [rewrite (IgE _ Hg) in Hcur; done|]. rewrite lookup_insert_ne by done. by apply IgE.
    + done.
    + done.
    + done.
    + intros id h Hh. destruct (Ih _ _ Hh) as (? & ? & ? & Href). repeat split; try done. destruct Href as [?|[? Hk]]; [by left|right].
      split; [done|]. destruct (Hkept _ Hk) as [?|Hg]; [done|]. rewrite (IgH _ Hg) in Hh. done.
  - split.
    + split; rewrite ?Henvs, ?Hhosts, ?HgE, ?HgH; try done.
      * intros id x Hx. left. destruct (decide (id = en_ID e)) as [->|Hne]; rewrite ?lookup_insert_eq, ?lookup_insert_ne by done; eauto.
        eexists. split; [done|]. right. cbn. rewrite Hcur in Hx. simplify_eq. lia.
      * intros id h Hh. eauto.
    + done.
    + intros j Hj. split; rewrite ?Henvs, ?Hhosts, ?HgE, ?HgH; [|done]. intros [Hn Hg]. split; [|done]. rewrite lookup_insert_ne; [done|]. congruence.
    + intros id h h' H1 H2 Hne. rewrite Hhosts in H2. congruence.
Qed.

(** The insert of a new row, with the request's own identifier or the synthetic one. *)
Lemma create_env_step i r w e (w' := set_envs (<[en_ID e := env_row (en_CreatedAt e) 0 e]> (wd_envs w)) w) :
  world_inv w -> wd_envs w !! en_ID e = None -> en_ID e ∉ wd_goneE w -> en_ID e = uuid i \/ en_ID e = hostSecretsEnvID -> en_Secrets e = ∅ ->
  world_inv w' /\ guar i r w w'.
Proof.
  intros [Ie Il IgE IgH Is Ik Ih] Hnone Hg Hid Hsec. split.
  - split; cbn; try done.
    + intros id x. destruct (decide (id = en_ID e)) as [->|Hne]; rewrite ?lookup_insert_eq, ?lookup_insert_ne by done; [|apply Ie].
      intros [= <-]. cbn [env_row en_ID en_Version en_Secrets]. rewrite Hsec, Il by done. split; [done|]. split; [lia|].
      intros key. by rewrite lookup_empty.
    + intros id. destruct (decide (id = en_ID e)) as [->|Hne]; rewrite ?lookup_insert_eq, ?lookup_insert_ne by done; [done|apply Il].
    + intros id Hgone. rewrite lookup_insert_ne by congruence. by apply IgE.
  - split.
    + split; cbn; try done; eauto.
      * intros id x Hx. left. rewrite lookup_insert_ne by congruence. eauto.
      * exists []. by rewrite app_nil_r.
    + done.
    + intros j Hj. split; cbn; [|done]. intros [Hn Hgj]. split; [|done]. rewrite lookup_insert_ne; [done|]. intros He.
      destruct Hid as [Hid|Hid]; [apply Hj, uuid_inj; congruence|by apply (uuid_real j); congruence].
    + intros id h h' H1 H2 Hne. cbn in H2. congruence.
Qed.

Lemma delete_env_step i r w id cur (w' := drop_env id w) :
  world_inv w -> wd_envs w !! id = Some cur -> id <> hostSecretsEnvID -> world_inv w' /\ guar i r w w'.
Proof.
  intros [Ie Il IgE IgH Is Ik Ih] Hcur Hreal. split.
  - split; cbn; try done.
    + intros id' x [Hne Hx]%lookup_delete_Some. by apply Ie.
    + intros id' [->|Hx]%lookup_delete_None Hg; [set_solver|]. apply Il; [done|set_solver].
    + intros id' [->%elem_of_singleton|Hg]%elem_of_union; [by rewrite lookup_delete_eq|]. apply lookup_delete_None. right. by apply IgE.
    + set_solver.
  - split.
    + split; cbn; try done; eauto; [|set_solver|exists []; by rewrite app_nil_r].
      intros id' x Hx. destruct (decide (id = id')) as [->|Hne]; [right; set_solver|]. left. rewrite lookup_delete_ne by done. eauto.
    + done.
    + intros j Hj. split; cbn; [|done]. intros [Hn Hg]. split; [apply lookup_delete_None; by right|].
      intros [He%elem_of_singleton|?]%elem_of_union; [congruence|done].
    + intros id' h h' H1 H2 Hne. cbn in H2. congruence.
Qed.

(** The reference a host's row may hold. *)
Definition ref_ok (w : world) (id ref : string) : Prop :=
  ref = "" \/ ref = hostKeyRef id /\ is_Some (secrets_of hostSecretsEnvID (wd_log w) !! host_secret id).

(** A host's row, new or changed. *)
Lemma put_host_step i r w h row (w' := set_hosts (<[h_ID h := row]> (wd_hosts w)) w) :
  world_inv w -> h_ID row = h_ID h -> h_ID h <> "" -> 0 <= h_Version row -> ref_ok w (h_ID h) (h_SSHPrivateKeyRef row) ->
  match wd_hosts w !! h_ID h with
  | None => h_ID h = uuid i /\ uuid i ∉ wd_goneH w
  | Some cur => h_Version cur < h_Version row /\ pin_change r w w'
  end -> world_inv w' /\ guar i r w w'.
Proof.
  intros [Ie Il IgE IgH Is Ik Ih] Hid Hsome Hv Href Hcase. split.
  - split; cbn; try done.
    + intros id Hg. destruct (decide (id = h_ID h)) as [->|Hne]; [|rewrite lookup_insert_ne by done; by apply IgH].
      rewrite (IgH _ Hg) in Hcase. destruct Hcase as [He Hng]. rewrite He in Hg. done.
    + intros id x. destruct (decide (id = h_ID h)) as [->|Hne]; rewrite ?lookup_insert_eq, ?lookup_insert_ne by done; [|apply Ih].
      intros [= <-]. done.
  - split.
    + split; cbn; try done; eauto; [|exists []; by rewrite app_nil_r].
      intros id x Hx. left. destruct (decide (id = h_ID h)) as [->|Hne]; rewrite ?lookup_insert_eq, ?lookup_insert_ne by done; [|eauto].
      rewrite Hx in Hcase. destruct Hcase as [Hlt _]. eauto.
    + done.
    + intros j Hj. split; cbn; [done|]. intros [Hn Hg]. split; [|done]. destruct (decide (uuid j = h_ID h)) as [He|Hne]; [|by rewrite lookup_insert_ne].
      rewrite <- He, Hn in Hcase. destruct Hcase as [Hcase _]. by apply uuid_inj in Hcase.
    + destruct (wd_hosts w !! h_ID h) as [cur|] eqn:Hcur; [by destruct Hcase|]. intros id x x' H1 H2 Hne. cbn in H2.
      rewrite lookup_insert_ne in H2 by congruence. congruence.
Qed.

Lemma delete_host_step i r w id cur (w' := drop_host id w) : world_inv w -> wd_hosts w !! id = Some cur -> world_inv w' /\ guar i r w w'.
Proof.
  intros [Ie Il IgE IgH Is Ik Ih] Hcur. split.
  - split; cbn; try done.
    + intros id' [->%elem_of_singleton|Hg]%elem_of_union; [by rewrite lookup_delete_eq|]. apply lookup_delete_None. right. by apply IgH.
    + intros id' x [Hne Hx]%lookup_delete_Some. by apply Ih.
  - split.
    + split; cbn; try done; eauto; [|set_solver|exists []; by rewrite app_nil_r].
      intros id' x Hx. destruct (decide (id = id')) as [->|Hne]; [right; set_solver|]. left. rewrite lookup_delete_ne by done. eauto.
    + done.
    + intros j Hj. split; cbn; [done|]. intros [Hn Hg]. split; [apply lookup_delete_None; by right|].
      intros [He%elem_of_singleton|?]%elem_of_union; [congruence|done].
    + intros id' h h' H1 H2 Hne. cbn in H2. apply lookup_delete_Some in H2 as [_ H2]. congruence.
Qed.

(** ** Rules for the calls *)

#[local] Arguments safe : simpl never.

Section rules.
Context (i : nat) (r : request).

Lemma safe_read {A : Set} (c : call A) {R} w (k : A -> prog R) Q : (forall w1, (exec i c w1).1 = w1) ->
  (forall w1, rely i w w1 -> world_inv w1 -> safe i r w1 (k (exec i c w1).2) Q /\ safe i r w1 (k (failed c)) Q) -> safe i r w (Call c k) Q.
Proof.
  intros Hread H w1 Hr Hi. destruct (H w1 Hr Hi) as [H1 H2]. rewrite Hread. split; [|done]. split; [done|]. split; [apply guar_refl|done].
Qed.

Lemma safe_EnvGet {R} id w (k : _ -> prog R) Q :
  (forall w1, rely i w w1 -> world_inv w1 ->
    (forall e, wd_envs w1 !! id = Some e -> safe i r w1 (k (Ok e)) Q) /\ (wd_envs w1 !! id = None -> safe i r w1 (k (Err NotFound)) Q) /\
    safe i r w1 (k (Err Failure)) Q) -> safe i r w (Call (EnvGet id) k) Q.
Proof.
  intros H. apply safe_read; [done|]. intros w1 Hr Hi. destruct (H w1 Hr Hi) as (H1 & H2 & H3). split; [|done]. cbn.
  destruct (wd_envs w1 !! id); auto.
Qed.

Lemma safe_HostGet {R} id w (k : _ -> prog R) Q :
  (forall w1, rely i w w1 -> world_inv w1 ->
    (forall h, wd_hosts w1 !! id = Some h -> safe i r w1 (k (Ok h)) Q) /\ (forall e, safe i r w1 (k (Err e)) Q)) -> safe i r w (Call (HostGet id) k) Q.
Proof.
  intros H. apply safe_read; [done|]. intros w1 Hr Hi. destruct (H w1 Hr Hi) as (H1 & H2). split; [|apply H2]. cbn.
  destruct (wd_hosts w1 !! id); auto.
Qed.

(** An update succeeds only on the row that was read. *)
Definition recentE (id : string) (e : Environment) (w : world) : Prop :=
  id ∈ wd_goneE w \/ exists e', wd_envs w !! id = Some e' /\ (e' = e \/ en_Version e < en_Version e').

Definition recentH (id : string) (h : Host) (w : world) : Prop :=
  id ∈ wd_goneH w \/ exists h', wd_hosts w !! id = Some h' /\ (h' = h \/ h_Version h < h_Version h').

Lemma recentE_read id e w : wd_envs w !! id = Some e -> recentE id e w.
Proof. right. eauto. Qed.

Lemma recentH_read id h w : wd_hosts w !! id = Some h -> recentH id h w.
Proof. right. eauto. Qed.

Lemma recentE_stable id e w w' : recentE id e w -> rely i w w' -> recentE id e w'.
Proof.
  intros [Hg|(e1 & He & Hv)] [Hev _ _]; [left; by apply (ev_goneE _ _ Hev)|].
  destruct (ev_env _ _ Hev _ _ He) as [(e2 & He2 & Hv2)|Hg]; [right|by left]. exists e2. split; [done|].
  destruct Hv as [->|Hv], Hv2 as [->|Hv2]; auto. right. lia.
Qed.

Lemma recentH_stable id e w w' : recentH id e w -> rely i w w' -> recentH id e w'.
Proof.
  intros [Hg|(e1 & He & Hv)] [Hev _ _]; [left; by apply (ev_goneH _ _ Hev)|].
  destruct (ev_host _ _ Hev _ _ He) as [(e2 & He2 & Hv2)|Hg]; [right|by left]. exists e2. split; [done|].
  destruct Hv as [->|Hv], Hv2 as [->|Hv2]; auto. right. lia.
Qed.

Lemma recentE_same id e w cur : recentE id e w -> world_inv w -> wd_envs w !! id = Some cur -> en_Version cur <= en_Version e -> cur = e.
Proof. intros [Hg|(e1 & He & [->|Hv])] Hi Hcur Hle; [rewrite (wi_goneE _ Hi _ Hg) in Hcur; done|congruence|simplify_eq; lia]. Qed.

Lemma recentH_same id h w cur : recentH id h w -> world_inv w -> wd_hosts w !! id = Some cur -> h_Version cur <= h_Version h -> cur = h.
Proof. intros [Hg|(e1 & He & [->|Hv])] Hi Hcur Hle; [rewrite (wi_goneH _ Hi _ Hg) in Hcur; done|congruence|simplify_eq; lia]. Qed.

(** [e] was made from the row [old]; its version is [old]'s or an earlier one. *)
Lemma safe_EnvUpdate {R} e old label w (k : _ -> prog R) Q : recentE (en_ID e) old w -> en_Version e <= en_Version old ->
  (forall m, opens (en_Secrets old) m -> opens (en_Secrets e) (foldl (fun m x => apply_effect x m) m label)) ->
  (forall w1, rely i w w1 -> label_ok w1 (en_ID e) label) ->
  (forall w1, rely i w w1 -> forall x, safe i r w1 (k (Err x)) Q) ->
  (forall w1 envs, rely i w w1 -> is_Some (wd_envs w1 !! en_ID e) ->
    safe i r (set_log (wd_log w1 ++ tagged i (en_ID e) label) (set_envs envs w1)) (k (Ok tt)) Q) ->
  safe i r w (Call (EnvUpdate e label) k) Q.
Proof.
  intros Hrec Hv Hop Hlab Herr Hok w1 Hr Hi. specialize (Herr _ Hr). split; [|apply Herr]. cbn.
  destruct (wd_envs w1 !! en_ID e) as [cur|] eqn:Hcur; [|split; [done|]; split; [apply guar_refl|apply Herr]].
  destruct (Z.eqb_spec (en_Version cur) (en_Version e)) as [Heq|Hne]; cbn; [|split; [done|]; split; [apply guar_refl|apply Herr]].
  destruct (env_named _ _ _); cbn; [split; [done|]; split; [apply guar_refl|apply Herr]|].
  assert (cur = old) as -> by (eapply (recentE_same _ _ w1); [by eapply recentE_stable|done|done|lia]).
  destruct (update_env_step i r w1 e old label Hi Hcur Heq) as [Hi' Hg].
  - apply Hop. by destruct (wi_env _ Hi _ _ Hcur) as (_ & _ & ?).
  - by apply Hlab.
  - split; [exact Hi'|]. split; [exact Hg|]. apply Hok; [done|]. by rewrite Hcur.
Qed.

(** *** The database manager *)

(** A fact about the hosts alone. *)
Definition frame (F : world -> Prop) : Prop := (forall w w', F w -> rely i w w' -> F w') /\ (forall w envs l, F w -> F (set_log l (set_envs envs w))).

(** The value of a key at some moment since the log had length [n0]. *)
Definition read_since (n0 : nat) (w : world) (id key : string) (o : option string) : Prop :=
  exists n, (n0 <= n <= length (wd_log w))%nat /\ secrets_of id (take n (wd_log w)) !! key = o.

Lemma read_since_now n0 w id key : (n0 <= length (wd_log w))%nat -> read_since n0 w id key (secrets_of id (wd_log w) !! key).
Proof. intros Hn. exists (length (wd_log w)). split; [lia|]. by rewrite take_ge by lia. Qed.

Lemma read_since_later n0 w w' id key o : read_since n0 w id key o -> rely i w w' -> read_since n0 w' id key o.
Proof.
  intros (n & Hn & Ho) [Hev _ _]. destruct (ev_log _ _ Hev) as [l Hl]. exists n. rewrite Hl, length_app, take_app_le by lia. split; [lia|done].
Qed.

Lemma log_grows n w w' : (n <= length (wd_log w))%nat -> rely i w w' -> (n <= length (wd_log w'))%nat.
Proof. intros Hn [Hev _ _]. destruct (ev_log _ _ Hev) as [l Hl]. rewrite Hl, length_app. lia. Qed.

Lemma opens_insert sealed m key s v : opens sealed m -> Open (Some aead) s = inr v -> opens (<[key := s]> sealed) (<[key := v]> m).
Proof.
  intros H Hs k. destruct (decide (k = key)) as [->|Hne]; rewrite ?lookup_insert_eq, ?lookup_insert_ne by done; [cbn; by rewrite Hs|apply H].
Qed.

Lemma opens_delete sealed m key : opens sealed m -> opens (delete key sealed) (delete key m).
Proof.
  intros H k. destruct (decide (k = key)) as [->|Hne]; rewrite ?lookup_delete_eq, ?lookup_delete_ne by done; [done|apply H].
Qed.

Lemma safe_db_Put F m0 id key v w : frame F -> F w -> made i (wd_log w) = m0 -> (id = hostSecretsEnvID -> parse v = true) ->
  safe i r w (db_Put (Some aead) (nonce i) id key v) (fun w' x => F w' /\
    match x with Ok _ => made i (wd_log w') = m0 ++ [(id, SPut key v)] /\ secrets_of id (wd_log w') !! key = Some v | Err _ => made i (wd_log w') = m0 end).
Proof.
  intros [HF1 HF2] HF <- Hparse. unfold db_Put, do. cbn [mbind prog_bind]. apply safe_EnvGet. intros w1 Hr1 Hi1.
  assert (F w1) as HF'1 by eauto. pose proof (re_made _ _ _ Hr1) as Hm1. split; [|split; [|done]]; [|done].
  intros e He. destruct (wi_env _ Hi1 _ _ He) as (Hid & _ & _).
  destruct (Open_Seal aead (fun _ => None) (nonce i) v (nonce_size i)) as (sealed & Hs & _ & Ho). rewrite Hs. cbn.
  eapply (safe_EnvUpdate _ e [SPut key v]); cbn [with_Secrets en_ID en_Secrets en_Version]; rewrite ?Hid.
  - by apply recentE_read.
  - done.
  - intros m Hm. by apply opens_insert.
  - intros w2 _ Hsyn. constructor; [|constructor]. by apply Hparse.
  - intros w2 Hr2 x. split; [by eapply HF1|]. rewrite <- Hm1. apply (re_made _ _ _ Hr2).
  - intros w2 envs Hr2 _. split; [apply HF2; by eapply HF1|]. cbn [set_log wd_log updated]. split.
    + rewrite made_app, made_tagged. cbn. by rewrite (re_made _ _ _ Hr2), Hm1.
    + rewrite secrets_of_tagged. cbn. by rewrite lookup_insert_eq.
Qed.

Lemma safe_db_Delete F m0 id key w : frame F -> F w -> made i (wd_log w) = m0 ->
  (forall w', F w' -> id = hostSecretsEnvID -> exists host, host ∈ wd_goneH w' /\ key = host_secret host) ->
  safe i r w (db_Delete id key) (fun w' x => F w' /\
    match x with
    | Ok _ => made i (wd_log w') = m0 ++ [(id, SDel key)] \/ made i (wd_log w') = m0
    | Err _ => made i (wd_log w') = m0
    end).
Proof.
  intros [HF1 HF2] HF <- Hgone. unfold db_Delete, do. cbn [mbind prog_bind]. apply safe_EnvGet. intros w1 Hr1 Hi1.
  assert (F w1) as HF'1 by eauto. pose proof (re_made _ _ _ Hr1) as Hm1. split; [|split; [intros _; split; [done|by right]|done]].
  intros e He. destruct (wi_env _ Hi1 _ _ He) as (Hid & _ & _).
  eapply (safe_EnvUpdate _ e [SDel key]); cbn [with_Secrets en_ID en_Secrets en_Version]; rewrite ?Hid.
  - by apply recentE_read.
  - done.
  - intros m Hm. by apply opens_delete.
  - intros w2 Hr2 Hsyn. constructor; [|constructor]. apply Hgone; [by eapply HF1|done].
  - intros w2 Hr2 x. split; [by eapply HF1|]. rewrite <- Hm1. apply (re_made _ _ _ Hr2).
  - intros w2 envs Hr2 _. split; [apply HF2; by eapply HF1|]. left. cbn [set_log wd_log].
    rewrite made_app, made_tagged. cbn. by rewrite (re_made _ _ _ Hr2), Hm1.
Qed.

Lemma safe_db_Get n0 m0 id key w : made i (wd_log w) = m0 -> (n0 <= length (wd_log w))%nat ->
  safe i r w (db_Get (Some aead) id key) (fun w' x => made i (wd_log w') = m0 /\
    match x with
    | Ok v => read_since n0 w' id key (Some v)
    | Err SecretNotFound => id ∉ wd_goneE w' -> read_since n0 w' id key None
    | Err _ => True
    end).
Proof.
  intros <- Hn. unfold db_Get, do. cbn [mbind prog_bind]. apply safe_EnvGet. intros w1 Hr1 Hi1.
  pose proof (re_made _ _ _ Hr1) as Hm1. pose proof (log_grows _ _ _ Hn Hr1) as Hn1. split; [|split; [|done]].
  - intros e He. destruct (wi_env _ Hi1 _ _ He) as (_ & _ & Hop). specialize (Hop key). pose proof (read_since_now n0 w1 id key Hn1) as Hread.
    destruct (en_Secrets e !! key) as [s|]; cbn in Hop |- *.
    + destruct (secrets_of id (wd_log w1) !! key) as [v|]; [|done]. cbn in Hop. injection Hop as Hop. rewrite Hop. by split.
    + destruct (secrets_of id (wd_log w1) !! key); [done|]. by split.
  - intros Hnone. cbn. split; [done|]. intros Hg. pose proof (read_since_now n0 w1 id key Hn1) as Hread. by rewrite (wi_log _ Hi1), lookup_empty in Hread.
Qed.

(** *** Creations, deletions and the hosts' rows *)

Lemma safe_EnvCreate {R} e w (k : _ -> prog R) Q :
  en_ID e = hostSecretsEnvID \/ en_ID e = uuid i /\ wd_envs w !! uuid i = None /\ uuid i ∉ wd_goneE w -> en_Secrets e = ∅ ->
  (forall w1 x, rely i w w1 -> safe i r w1 (k (Err x)) Q) ->
  (forall w1 envs, rely i w w1 -> safe i r (set_envs envs w1) (k (Ok tt)) Q) -> safe i r w (Call (EnvCreate e) k) Q.
Proof.
  intros Hid Hsec Herr Hok w1 Hr Hi. split; [|by apply Herr]. cbn.
  destruct (wd_envs w1 !! en_ID e) eqn:Hnone; [split; [done|]; split; [apply guar_refl|by apply Herr]|].
  destruct (env_named _ _ _); cbn; [split; [done|]; split; [apply guar_refl|by apply Herr]|].
  destruct (create_env_step i r w1 e Hi Hnone) as [Hi' Hg]; [|naive_solver|done|].
  - destruct Hid as [->|(-> & Hn & Hg)]; [apply (wi_synthetic _ Hi)|]. by apply (re_uuid _ _ _ Hr).
  - split; [exact Hi'|]. split; [exact Hg|]. by apply Hok.
Qed.

Lemma safe_EnvDelete {R} id w (k : _ -> prog R) Q : id <> hostSecretsEnvID ->
  (forall w1 x, rely i w w1 -> safe i r w1 (k (Err x)) Q) -> (forall w1, rely i w w1 -> safe i r (drop_env id w1) (k (Ok tt)) Q) ->
  safe i r w (Call (EnvDelete id) k) Q.
Proof.
  intros Hid Herr Hok w1 Hr Hi. split; [|by apply Herr]. cbn.
  destruct (wd_envs w1 !! id) eqn:Hcur; [|split; [done|]; split; [apply guar_refl|by apply Herr]].
  destruct (delete_env_step i r w1 id _ Hi Hcur Hid) as [Hi' Hg]. split; [exact Hi'|]. split; [exact Hg|]. by apply Hok.
Qed.

Lemma safe_HostDelete {R} id w (k : _ -> prog R) Q :
  (forall w1 x, rely i w w1 -> safe i r w1 (k (Err x)) Q) -> (forall w1, rely i w w1 -> safe i r (drop_host id w1) (k (Ok tt)) Q) ->
  safe i r w (Call (HostDelete id) k) Q.
Proof.
  intros Herr Hok w1 Hr Hi. split; [|by apply Herr]. cbn.
  destruct (wd_hosts w1 !! id) eqn:Hcur; [|split; [done|]; split; [apply guar_refl|by apply Herr]].
  destruct (delete_host_step i r w1 id _ Hi Hcur) as [Hi' Hg]. split; [exact Hi'|]. split; [exact Hg|]. by apply Hok.
Qed.

Lemma ref_ok_later w w' id ref : ref_ok w id ref -> rely i w w' -> ref_ok w' id ref \/ id ∈ wd_goneH w'.
Proof. intros [->|[-> Hk]] [Hev _ _]; [by left; left|]. destruct (ev_key _ _ Hev _ Hk) as [?|?]; [left; right; by split|by right]. Qed.

Lemma safe_HostCreate {R} h w (k : _ -> prog R) Q : h_ID h = uuid i -> wd_hosts w !! uuid i = None -> uuid i ∉ wd_goneH w ->
  ref_ok w (uuid i) (h_SSHPrivateKeyRef h) ->
  (forall w1 x, rely i w w1 -> safe i r w1 (k (Err x)) Q) -> (forall w1 hosts, rely i w w1 -> safe i r (set_hosts hosts w1) (k (Ok tt)) Q) ->
  safe i r w (Call (HostCreate h) k) Q.
Proof.
  intros Hid Hn Hg Href Herr Hok w1 Hr Hi. split; [|by apply Herr]. cbn.
  destruct (re_uuid _ _ _ Hr) as [_ Hun]. destruct (Hun (conj Hn Hg)) as [Hn1 Hg1]. rewrite Hid, Hn1.
  destruct (host_named _ _ _); cbn; [split; [done|]; split; [apply guar_refl|by apply Herr]|].
  destruct (put_host_step i r w1 h (host_row (h_CreatedAt h) 0 h) Hi) as [Hi' Hg']; rewrite ?Hid; try done.
  - destruct (ref_ok_later _ _ _ _ Href Hr) as [?|?]; [|done]. done.
  - by rewrite Hn1.
  - rewrite Hid in Hi', Hg'. split; [exact Hi'|]. split; [exact Hg'|]. by apply Hok.
Qed.

(** Why the pinned key may change in an update of [old] by [h]. *)
Definition pin_ok (id : string) (old h : Host) : Prop :=
  h_SSHKnownHostKey h = h_SSHKnownHostKey old \/
  match r with
  | RPinHostKey id' key => id' = id /\ h_SSHKnownHostKey old = "" /\ h_SSHKnownHostKey h = key
  | RUpdateHost id' _ (Some (b, _)) => id' = id /\ h_SSHKnownHostKey h = h_SSHKnownHostKey b /\ h_SSHKnownHostKey b <> ""
  | _ => False
  end.

Lemma safe_HostUpdate {R} h old w (k : _ -> prog R) Q : recentH (h_ID h) old w -> h_Version h <= h_Version old ->
  h_SSHPrivateKeyRef h = h_SSHPrivateKeyRef old \/ ref_ok w (h_ID h) (h_SSHPrivateKeyRef h) -> pin_ok (h_ID h) old h ->
  (forall w1 x, rely i w w1 -> safe i r w1 (k (Err x)) Q) -> (forall w1 hosts, rely i w w1 -> safe i r (set_hosts hosts w1) (k (Ok tt)) Q) ->
  safe i r w (Call (HostUpdate h) k) Q.
Proof.
  intros Hrec Hv Href Hpin Herr Hok w1 Hr Hi. split; [|by apply Herr]. cbn.
  destruct (wd_hosts w1 !! h_ID h) as [cur|] eqn:Hcur; [|split; [done|]; split; [apply guar_refl|by apply Herr]].
  destruct (Z.eqb_spec (h_Version cur) (h_Version h)) as [Heq|Hne]; cbn; [|split; [done|]; split; [apply guar_refl|by apply Herr]].
  destruct (host_named _ _ _); cbn; [split; [done|]; split; [apply guar_refl|by apply Herr]|].
  assert (cur = old) as -> by (eapply (recentH_same _ _ w1); [by eapply recentH_stable|done|done|lia]).
  destruct (wi_host _ Hi _ _ Hcur) as (Hid & Hsome & Hpos & Hro).
  destruct (put_host_step i r w1 h (host_row (h_CreatedAt old) (h_Version h + 1) h) Hi) as [Hi' Hg']; try done; cbn.
  - lia.
  - destruct Href as [->|Href]; [exact Hro|]. destruct (ref_ok_later _ _ _ _ Href Hr) as [?|Hg]; [done|]. by rewrite (wi_goneH _ Hi _ Hg) in Hcur.
  - rewrite Hcur. split; [lia|]. intros id x x' H1 H2 Hne. cbn in H2. destruct (decide (id = h_ID h)) as [->|Hother]; rewrite ?lookup_insert_eq, ?lookup_insert_ne in H2 by done;
      [|congruence]. rewrite Hcur in H1. simplify_eq. cbn in Hne. destruct Hpin as [Hp|Hp]; [congruence|]. destruct r as [| | | | | | | | | | | |? ? [[? ?]|]| | |]; done.
  - split; [exact Hi'|]. split; [exact Hg'|]. by apply Hok.
Qed.

(** *** The host service *)

Lemma frame_envs F w envs : frame F -> F w -> F (set_envs envs w).
Proof. intros [_ HF] H. specialize (HF w envs (wd_log w) H). by destruct w. Qed.

Lemma safe_ensureHostsEnv F m0 now w : frame F -> F w -> made i (wd_log w) = m0 ->
  safe i r w (ensureHostsEnv now) (fun w' _ => F w' /\ made i (wd_log w') = m0).
Proof.
  intros HFr HF <-. pose proof HFr as [HF1 HF2]. unfold ensureHostsEnv, do. cbn [mbind prog_bind]. apply safe_EnvGet. intros w1 Hr1 Hi1.
  assert (F w1) as HF'1 by eauto. pose proof (re_made _ _ _ Hr1) as Hm1. split; [by split|split; [|by split]]. intros _.
  apply safe_EnvCreate; [by left|done| |].
  - intros w2 x Hr2. split; [by eapply HF1|]. rewrite <- Hm1. apply (re_made _ _ _ Hr2).
  - intros w2 envs Hr2. split; [apply frame_envs; [done|by eapply HF1]|]. rewrite <- Hm1. apply (re_made _ _ _ Hr2).
Qed.

(** What [maybeStoreKey] gives back: the host with its reference, once the key is stored. *)
Definition key_stored (m0 : list (string * effect)) (h : Host) (pem : string) (w : world) (h' : Host) : Prop :=
  (pem = "" /\ h' = h /\ made i (wd_log w) = m0) \/
  (pem <> "" /\ h' = host_keys (hostKeyRef (h_ID h)) (h_SSHKnownHostKey h) h /\ made i (wd_log w) = m0 ++ [(hostSecretsEnvID, SPut (host_secret (h_ID h)) pem)] /\
   is_Some (secrets_of hostSecretsEnvID (wd_log w) !! host_secret (h_ID h))).

Lemma safe_maybeStoreKey F m0 now h pem w : frame F -> F w -> made i (wd_log w) = m0 ->
  safe i r w (maybeStoreKey parse (manager aead nonce i) now h pem) (fun w' x => F w' /\
    match x with Ok h' => key_stored m0 h pem w' h' | Err _ => made i (wd_log w') = m0 end).
Proof.
  intros HFr HF Hm. unfold maybeStoreKey, manager. destruct (String.eqb_spec pem "") as [->|Hpem]; [split; [done|by left]|].
  destruct (parse pem) eqn:Hparse; cbn [negb]; [|by split]. destruct (String.eqb_spec (h_ID h) ""); [by split|].
  apply safe_bind. eapply safe_mono; [|by eapply safe_ensureHostsEnv]. cbn beta. intros w1 x [HF1 Hm1].
  destruct x as [[]|e]; [|by split]. apply safe_bind. cbn [m_Put database].
  eapply safe_mono; [|apply (safe_db_Put F m0); done]. cbn beta. intros w2 x [HF2 Hx]. split; [done|].
  destruct x as [u|e]; [|exact Hx]. destruct Hx as [Hm2 Hk]. right. rewrite Hk. eauto.
Qed.

(** ** The requests *)

(** What an answer means, at the time it is given and from then on. *)
Definition post (n0 : nat) (w : world) (o : outcome) : Prop :=
  match r, o with
  | RPutSecret _ id key (Some v), Reply a => made i (wd_log w) = match a with KeyReply _ => [(id, SPut key v)] | _ => [] end
  | RDeleteSecret _ id key, Reply a => made i (wd_log w) = [] \/ (exists k, a = KeyReply k) /\ made i (wd_log w) = [(id, SDel key)]
  | RRevealSecret _ id key, Reply a =>
      made i (wd_log w) = [] /\ (forall k v, a = SecretReply k v -> k = key /\ read_since n0 w id key (Some v)) /\
      (a = Refused 404 -> id ∉ wd_goneE w -> read_since n0 w id key None)
  | RCreateHost _ (Some (h, pem)), Reply a =>
      forall hr, a = HostReply 201 hr -> h_Kind h = HostKindSSHDocker -> made i (wd_log w) = [(hostSecretsEnvID, SPut (host_secret (uuid i)) pem)]
  | RLoadPrivateKey h, Loaded x => forall pem, x = Ok pem -> read_since n0 w hostSecretsEnvID (host_secret (h_ID h)) (Some pem)
  | _, _ => True
  end.

Lemma post_stable n0 : stable i (post n0).
Proof.
  intros w w' o Hp Hr. pose proof (re_made _ _ _ Hr) as Hm. pose proof (ev_goneE _ _ (re_evolves _ _ _ Hr)) as Hg. unfold post in *. rewrite Hm.
  destruct r as [| | | |? id key v|? id key|? id key| | | | |? [[h pem]|]| | |h|], o as [a|x|x]; try done.
  - destruct Hp as (H1 & H2 & H3). split; [done|]. split.
    + intros k v Ha. destruct (H2 k v Ha) as [? ?]. split; [done|]. by eapply read_since_later.
    + intros Ha Hn. eapply read_since_later; [|exact Hr]. apply H3; [done|]. intros Hin. by apply Hn, Hg.
  - intros pem Hx. eapply read_since_later; [by apply Hp|exact Hr].
Qed.

(** A program whose calls only read. *)
Fixpoint reads {R} (p : prog R) : Prop :=
  match p with
  | Done _ => True
  | @Call _ A c k => (forall w, (exec i c w).1 = w) /\ (forall x, reads (k x))
  end.

Lemma safe_reads {R} (p : prog R) w : reads p -> safe i r w p (fun _ _ => True).
Proof.
  revert w. induction p as [x|A c k IH]; intros w; [done|]. intros [Hc Hk]. apply safe_read; [exact Hc|]. intros w1 _ _. auto.
Qed.
End rules.

(** What holds when request [i] arrives. *)
Record arrives (i : nat) (r : request) (n0 : nat) (w : world) : Prop := {
  ar_inv : world_inv w; ar_fresh : fresh (uuid i) w; ar_made : made i (wd_log w) = []; ar_since : n0 = length (wd_log w); ar_admissible : admissible w r
}.

Definition served (i : nat) (r : request) (n0 : nat) (w : world) : Prop := safe i r w (serve aead uuid nonce parse print i r) (post i r n0).

Ltac reading := apply safe_fmap; eapply safe_mono; [|apply safe_reads]; [done|];
  repeat (first [progress cbn|split|intros ?|case_match|done]).

Lemma serve_ListEnvironments i n0 w limit offset : served i (RListEnvironments limit offset) n0 w.
Proof. reading. Qed.

Lemma serve_PromoteSecrets i n0 w claims from body : served i (RPromoteSecrets claims from body) n0 w.
Proof. cbn [serve]. unfold PromoteSecrets, manager, database. cbn [m_Promote]. reading. Qed.

Lemma serve_TestSecretsBackend i n0 w id : served i (RTestSecretsBackend id) n0 w.
Proof. cbn [serve]. unfold TestSecretsBackend, manager, database, CheckSecrets, db_List. cbn [m_List]. reading. Qed.

Lemma serve_ListHosts i n0 w limit offset : served i (RListHosts limit offset) n0 w.
Proof. reading. Qed.

Lemma serve_GetHost i n0 w id : served i (RGetHost id) n0 w.
Proof. reading. Qed.

Lemma serve_CreateEnvironment i n0 w now body : arrives i (RCreateEnvironment now body) n0 w -> served i (RCreateEnvironment now body) n0 w.
Proof.
  intros [_ (He & Hg & _) _ _ _]. apply safe_fmap. destruct body as [e|]; [|done]. unfold CreateEnvironment, do. cbn [mbind prog_bind].
  apply safe_EnvCreate; [by right|done|done|done].
Qed.

Lemma serve_DeleteEnvironment i n0 w id : arrives i (RDeleteEnvironment id) n0 w -> served i (RDeleteEnvironment id) n0 w.
Proof. intros [_ _ _ _ Had]. apply safe_fmap. apply safe_EnvDelete; [exact Had|by intros ? []|done]. Qed.

(** An honest version, seen again after the others have run. *)
Lemma seenE_later i w w' id v e : seen (en_Version <$> wd_envs w !! id) (id ∈ wd_goneE w) v -> rely i w w' -> world_inv w' ->
  wd_envs w' !! id = Some e -> v <= en_Version e.
Proof.
  intros Hs [Hev _ _] Hi He. destruct (wd_envs w !! id) as [e0|] eqn:H0; cbn in Hs.
  - destruct (ev_env _ _ Hev _ _ H0) as [(e1 & H1 & [->|Hlt])|Hg]; [simplify_eq; done|simplify_eq; lia|by rewrite (wi_goneE _ Hi _ Hg) in He].
  - destruct Hs as [Hg|Hv]; [apply (ev_goneE _ _ Hev) in Hg; by rewrite (wi_goneE _ Hi _ Hg) in He|]. destruct (wi_env _ Hi _ _ He) as (_ & ? & _). lia.
Qed.

Lemma seenH_later i w w' id v h : seen (h_Version <$> wd_hosts w !! id) (id ∈ wd_goneH w) v -> rely i w w' -> world_inv w' ->
  wd_hosts w' !! id = Some h -> v <= h_Version h.
Proof.
  intros Hs [Hev _ _] Hi He. destruct (wd_hosts w !! id) as [e0|] eqn:H0; cbn in Hs.
  - destruct (ev_host _ _ Hev _ _ H0) as [(e1 & H1 & [->|Hlt])|Hg]; [simplify_eq; done|simplify_eq; lia|by rewrite (wi_goneH _ Hi _ Hg) in He].
  - destruct Hs as [Hg|Hv]; [apply (ev_goneH _ _ Hev) in Hg; by rewrite (wi_goneH _ Hi _ Hg) in He|]. destruct (wi_host _ Hi _ _ He) as (_ & _ & ? & _). lia.
Qed.

Lemma serve_UpdateEnvironment i n0 w id body : arrives i (RUpdateEnvironment id body) n0 w -> served i (RUpdateEnvironment id body) n0 w.
Proof.
  intros [_ _ _ _ Had]. apply safe_fmap. unfold UpdateEnvironment, do. cbn [mbind prog_bind]. apply safe_EnvGet. intros w1 Hr1 Hi1.
  split; [|by split]. intros e He. destruct body as [b|]; [|done]. pose proof (seenE_later _ _ _ _ _ _ Had Hr1 Hi1 He) as Hv.
  apply (safe_EnvUpdate _ _ _ e); cbn [NormalisePlainVars en_ID en_Version en_Secrets].
  - by apply recentE_read.
  - exact Hv.
  - intros m Hm. exact Hm.
  - intros w2 _ _. constructor.
  - by intros w2 _ [].
  - done.
Qed.

(** The framing fact of the requests that do not touch hosts. *)
Lemma frame_True i : frame i (fun _ => True).
Proof. by split. Qed.

Lemma serve_PutSecret i n0 w claims id key value : arrives i (RPutSecret claims id key value) n0 w -> served i (RPutSecret claims id key value) n0 w.
Proof.
  intros [_ _ Hm _ Had]. apply safe_fmap. unfold PutSecret, manager. destruct (CanRevealSecret claims); cbn [negb]; [|by destruct value].
  destruct value as [v|]; [|done]. destruct v as [|c v]; [done|]. set (value := String c v). unfold do. cbn [mbind prog_bind]. apply safe_EnvGet.
  intros w1 Hr1 Hi1. pose proof (re_made _ _ _ Hr1) as Hm1. rewrite Hm in Hm1. split; [|by split]. intros e _. apply safe_bind. cbn [m_Put database].
  eapply safe_mono; [|apply (safe_db_Put i _ (fun _ => True) []); [apply frame_True|done|done|done]]. cbn beta. intros w2 x [_ Hx].
  destruct x as [u|x]; [by destruct Hx|exact Hx].
Qed.

Lemma serve_DeleteSecret i n0 w claims id key : arrives i (RDeleteSecret claims id key) n0 w -> served i (RDeleteSecret claims id key) n0 w.
Proof.
  intros [_ _ Hm _ Had]. apply safe_fmap. unfold DeleteSecret, manager. destruct (CanRevealSecret claims); cbn [negb]; [|by left].
  unfold do. cbn [mbind prog_bind]. apply safe_EnvGet. intros w1 Hr1 Hi1. pose proof (re_made _ _ _ Hr1) as Hm1. rewrite Hm in Hm1.
  split; [|by split; [left|left]]. intros e _. apply safe_bind. cbn [m_Delete database].
  eapply safe_mono; [|apply (safe_db_Delete i _ (fun _ => True) []); [apply frame_True|done|done|done]]. cbn beta. intros w2 x [_ Hx].
  destruct x as [u|x]; [|by left]. destruct Hx as [Hx|Hx]; [right; split; [by exists key|done]|by left].
Qed.

Lemma serve_RevealSecret i n0 w claims id key : arrives i (RRevealSecret claims id key) n0 w -> served i (RRevealSecret claims id key) n0 w.
Proof.
  intros [_ _ Hm Hn Had]. apply safe_fmap. unfold RevealSecret, manager. destruct (CanRevealSecret claims); cbn [negb]; [|by repeat split].
  unfold do. cbn [mbind prog_bind]. apply safe_EnvGet. intros w1 Hr1 Hi1. pose proof (re_made _ _ _ Hr1) as Hm1. rewrite Hm in Hm1.
  assert (n0 <= length (wd_log w1))%nat as Hn1 by (eapply log_grows; [|exact Hr1]; lia). split; [|split].
  - intros e _. apply safe_bind. cbn [m_Get database]. eapply safe_mono; [|by apply (safe_db_Get i _ n0 [])]. cbn beta. intros w2 x [Hm2 Hx].
    destruct x as [v|[| | |]]; repeat split; try done; naive_solver.
  - intros Hnone. repeat split; [done..|]. intros _ Hg. pose proof (read_since_now n0 w1 id key Hn1) as Hread. by rewrite (wi_log _ Hi1), lookup_empty in Hread.
  - by repeat split.
Qed.

Lemma serve_LoadPrivateKey i n0 w h : arrives i (RLoadPrivateKey h) n0 w -> served i (RLoadPrivateKey h) n0 w.
Proof.
  intros [Hi _ Hm Hn Had]. apply safe_fmap. unfold LoadPrivateKey, manager. destruct (wi_host _ Hi _ _ Had) as (_ & Hsome & _ & Href).
  destruct Href as [->|[-> _]]; [done|]. cbn [String.eqb hostKeyRef String.append]. unfold resolveKeyRef. rewrite has_prefix_app, trim_prefix_app.
  apply String.eqb_neq in Hsome. rewrite Hsome. apply safe_bind. cbn [m_Get database].
  eapply safe_mono; [|apply (safe_db_Get i _ n0 []); [done|lia]]. cbn beta. intros w2 x [_ Hx].
  destruct x as [v|x]; [|done]. intros pem [= <-]. exact Hx.
Qed.

Lemma frame_free i : frame i (fun w => wd_hosts w !! uuid i = None /\ uuid i ∉ wd_goneH w).
Proof. split; [|done]. intros w w' H Hr. by apply (re_uuid _ _ _ Hr). Qed.

Lemma frame_recentH i id h : frame i (recentH id h).
Proof. split; [|done]. intros w w'. apply recentH_stable. Qed.

Lemma safe_service_CreateHost i r now h pem w m0 : h_ID h = uuid i -> wd_hosts w !! uuid i = None -> uuid i ∉ wd_goneH w -> made i (wd_log w) = m0 ->
  pem <> "" ->
  safe i r w (service_CreateHost parse (manager aead nonce i) now h pem) (fun w' x =>
    match x with Ok _ => made i (wd_log w') = m0 ++ [(hostSecretsEnvID, SPut (host_secret (uuid i)) pem)] | Err _ => True end).
Proof.
  intros Hid Hn Hg Hm Hpem. unfold service_CreateHost. apply safe_bind.
  eapply safe_mono; [|apply (safe_maybeStoreKey i r (fun w => wd_hosts w !! uuid i = None /\ uuid i ∉ wd_goneH w) m0); [apply frame_free|done|done]]. cbn beta. intros w1 x [[Hn1 Hg1] Hx].
  destruct x as [h'|e]; [|done]. destruct Hx as [[? _]|(_ & -> & Hm1 & Hk)]; [done|]. rewrite Hid in *. unfold do. cbn [mbind prog_bind].
  apply safe_HostCreate; try done; cbn [host_keys h_ID h_SSHPrivateKeyRef]; [by right|]. intros w2 hosts Hr2. cbn. rewrite <- Hm1. apply (re_made _ _ _ Hr2).
Qed.

Lemma serve_CreateHost i n0 w now body : arrives i (RCreateHost now body) n0 w -> served i (RCreateHost now body) n0 w.
Proof.
  intros [_ (_ & _ & Hn & Hg) Hm _ _]. apply safe_fmap. destruct body as [[h pem]|]; [|done]. cbn [CreateHost].
  destruct (validateHostInput h); cbn [negb]; [|done]. cbn [host_keys host_ids host_defaults h_Kind].
  destruct (String.eqb_spec (h_Kind h) HostKindSSHDocker) as [Hk|Hk].
  - destruct (String.eqb_spec pem "") as [|Hpem]; [done|]. cbn [negb]. apply safe_bind.
    eapply safe_mono; [|apply (safe_service_CreateHost _ _ _ _ _ _ []); done]. cbn beta. intros w1 x Hx. destruct x as [h'|e]; [|done].
    intros hr _ _. exact Hx.
  - unfold do. cbn [mbind prog_bind]. apply safe_HostCreate; try done; [by left|].
    intros w1 hosts Hr1 hr _ ?. done.
Qed.

Lemma safe_service_UpdateHost i id now b pem pem' w existing h : recentH id existing w -> h_ID h = id -> h_Version h <= h_Version existing ->
  h_SSHPrivateKeyRef h = "" -> h_SSHKnownHostKey h = h_SSHKnownHostKey b ->
  safe i (RUpdateHost id now (Some (b, pem'))) w (service_UpdateHost parse (manager aead nonce i) now existing h pem) (fun _ _ => True).
Proof.
  intros Hrec Hid Hv Href Hknown. unfold service_UpdateHost. rewrite Href. cbn [String.eqb].
  set (known := if h_SSHKnownHostKey h =s "" then h_SSHKnownHostKey existing else h_SSHKnownHostKey h).
  set (h1 := host_keys (h_SSHPrivateKeyRef existing) known h).
  apply safe_bind. eapply safe_mono with (Q := fun w' x => recentH id existing w' /\
    match x with
    | Ok h' => h_ID h' = id /\ h_Version h' = h_Version h /\ h_SSHKnownHostKey h' = known /\
        (h_SSHPrivateKeyRef h' = h_SSHPrivateKeyRef existing \/ ref_ok w' id (h_SSHPrivateKeyRef h'))
    | Err _ => True
    end).
  - intros w1 x [Hrec1 Hx]. destruct x as [h'|e]; [|done]. destruct Hx as (Hid' & Hv' & Hk' & Href'). unfold do. cbn [mbind prog_bind].
    apply (safe_HostUpdate _ _ _ existing); rewrite ?Hid', ?Hv'; try done. unfold pin_ok. rewrite Hk'. unfold known. rewrite Hknown.
    destruct (String.eqb_spec (h_SSHKnownHostKey b) ""); [by left|by right].
  - destruct (String.eqb_spec pem "") as [->|Hpem]; [split; [done|]; repeat split; by auto|].
    eapply safe_mono; [|apply (safe_maybeStoreKey i _ (recentH id existing) (made i (wd_log w))); [apply frame_recentH|done|done]]. cbn beta.
    intros w1 x [Hrec1 Hx]. split; [done|]. destruct x as [h'|e]; [|done]. destruct Hx as [[? _]|(_ & -> & _ & Hk)]; [done|].
    subst h1. cbn [host_keys h_ID h_Version h_SSHKnownHostKey h_SSHPrivateKeyRef] in *. rewrite Hid in *. repeat split; try done. right. by right.
Qed.

Lemma serve_UpdateHost i n0 w id now body : arrives i (RUpdateHost id now body) n0 w -> served i (RUpdateHost id now body) n0 w.
Proof.
  intros [_ _ _ _ Had]. apply safe_fmap. unfold UpdateHost, do. cbn [mbind prog_bind]. apply safe_HostGet. intros w1 Hr1 Hi1.
  split; [|by intros []]. intros existing He. destruct body as [[b pem]|]; [|done]. destruct (validateHostInput b); cbn [negb]; [|done].
  pose proof (seenH_later _ _ _ _ _ _ Had Hr1 Hi1 He) as Hv. cbn [host_ids host_keys h_Kind]. rewrite andb_true_r.
  destruct (h_Kind b =s HostKindSSHDocker) eqn:Hk; cbn [andb].
  - apply safe_bind. eapply safe_mono; [|by eapply (safe_service_UpdateHost i id now b); [apply recentH_read|..]]. by intros ? [].
  - apply (safe_HostUpdate _ _ _ existing); cbn; [by apply recentH_read|exact Hv|by left|by left|by intros ? []|done].
Qed.

Lemma serve_DeleteHost i n0 w id : arrives i (RDeleteHost id) n0 w -> served i (RDeleteHost id) n0 w.
Proof.
  intros [_ _ Hm _ _]. apply safe_fmap. unfold DeleteHost, service_DeleteHost, manager. apply safe_bind. unfold do. cbn [mbind prog_bind].
  apply safe_HostDelete; [by intros ? []|]. intros w1 Hr1. apply safe_bind. cbn [m_Delete database].
  eapply safe_mono; [|apply (safe_db_Delete i _ (fun w => id ∈ wd_goneH w) (made i (wd_log w1))); [|cbn; set_solver|done|eauto]]; [done|].
  split; [|done]. intros w2 w3 Hin [Hev _ _]. by apply (ev_goneH _ _ Hev).
Qed.

Lemma serve_PinHostKey i n0 w id key : served i (RPinHostKey id key) n0 w.
Proof.
  apply safe_fmap. unfold PinHostKey. generalize pinHostKeyMaxRetries. intros n. revert w. induction n as [|n IH]; intros w; [done|]. cbn [pin_attempts].
  unfold do. cbn [mbind prog_bind]. apply safe_HostGet. intros w1 Hr1 Hi1. split; [|done]. intros h Hh.
  destruct (h_SSHKnownHostKey h =s key); [done|]. destruct (String.eqb_spec (h_SSHKnownHostKey h) "") as [Hk|Hk]; cbn [negb]; [|done].
  destruct (wi_host _ Hi1 _ _ Hh) as (Hid & _).
  apply (safe_HostUpdate _ _ _ h); cbn [host_keys h_ID h_Version h_SSHPrivateKeyRef]; rewrite ?Hid; try done; [by apply recentH_read|by left|by right|].
  intros w2 x _. destruct x; [done|apply IH|done].
Qed.

Lemma serve_safe i r n0 w : arrives i r n0 w -> served i r n0 w.
Proof.
  destruct r; intros Ha; [apply serve_ListEnvironments|by apply serve_CreateEnvironment|by apply serve_UpdateEnvironment|by apply serve_DeleteEnvironment
    |by apply serve_PutSecret|by apply serve_RevealSecret|by apply serve_DeleteSecret|apply serve_PromoteSecrets|apply serve_TestSecretsBackend
    |apply serve_ListHosts|apply serve_GetHost|by apply serve_CreateHost|by apply serve_UpdateHost|by apply serve_DeleteHost|by apply serve_LoadPrivateKey|apply serve_PinHostKey].
Qed.

(** ** The server's invariant *)

Record conf_inv (c : conf) : Prop := {
  ci_world : world_inv (cf_world c);
  ci_threads : forall i th, cf_threads c !! i = Some th ->
    safe i (th_request th) (cf_world c) (th_prog th) (post i (th_request th) (th_since th));
  ci_next : forall j, (length (cf_threads c) <= j)%nat -> fresh (uuid j) (cf_world c) /\ made j (wd_log (cf_world c)) = []
}.

Lemma conf_inv_call c i r n (p : prog outcome) w' : conf_inv c -> (i < length (cf_threads c))%nat ->
  world_inv w' -> guar i r (cf_world c) w' -> safe i r w' p (post i r n) -> conf_inv (mkConf w' (<[i := mkThread r n p]> (cf_threads c))).
Proof.
  intros [Hw Ht Hn] Hi Hw' Hg Hs. split; cbn.
  - done.
  - intros j th Hj. destruct (decide (j = i)) as [->|Hne].
    + rewrite list_lookup_insert_eq in Hj by done. by simplify_eq.
    + rewrite list_lookup_insert_ne in Hj by done. eapply safe_rely; [apply post_stable|by apply Ht|by eapply guar_rely].
  - intros j Hj. rewrite length_insert in Hj. destruct (Hn j Hj) as [(F1 & F2 & F3 & F4) Hm].
    assert (j <> i) as Hne by lia. rewrite (gu_made _ _ _ _ Hg) by done. split; [|done]. destruct (gu_uuid _ _ _ _ Hg j Hne) as [U1 U2].
    destruct (U1 (conj F1 F2)), (U2 (conj F3 F4)). done.
Qed.

Lemma vault_safe c : vault_reachable aead uuid nonce parse print c -> conf_inv c.
Proof.
  revert c. refine (reachable_invariant _ _ conf_inv _ _).
  - intros ? ->. split; cbn.
    + split; cbn; try done; try (intros ? ? H; by rewrite lookup_empty in H); set_solver.
    + intros i th H. by rewrite lookup_nil in H.
    + intros j _. split; [|done]. repeat split; try done; set_solver.
  - intros c c' Hinv Hs. pose proof Hinv as [Hw Ht Hn]. destruct Hs as [r Had|i r n A cl k Hi|i r n A cl k Hi].
    + split; cbn; [done| |].
      * intros i th [[_ Hi]|[Hi <-]]%lookup_snoc_Some; [by apply Ht|]. destruct (Hn _ (Nat.le_refl _)) as [Hf Hm]. cbn. rewrite Hi. apply serve_safe. by split.
      * intros j Hj. apply Hn. rewrite length_app in Hj. lia.
    + pose proof (Ht _ _ Hi) as Hs. cbn in Hs. destruct (Hs _ (rely_refl _ _) Hw) as [(H1 & H2 & H3) _].
      apply conf_inv_call; [done|by eapply lookup_lt_Some|done|done|done].
    + pose proof (Ht _ _ Hi) as Hs. cbn in Hs. destruct (Hs _ (rely_refl _ _) Hw) as [_ H4].
      apply (conf_inv_call c i r n _ (cf_world c)); [done|by eapply lookup_lt_Some|done|apply guar_refl|done].
Qed.

Lemma Done_post c i r n o : conf_inv c -> cf_threads c !! i = Some (mkThread r n (Done o)) -> post i r n (cf_world c) o.
Proof. intros Hinv Hi. apply (ci_threads _ Hinv _ _ Hi). Qed.

(** C19. Secrets behave as one map per environment, whatever requests run at once and
    whatever statements fail.  The log holds the changes in the order of the successful
    updates; the sealed values of an environment always open to what the log says; a
    finished PutSecret made its change exactly once if it answered "stored" and not at all
    otherwise (the same for a deletion, which may find nothing to delete); and a revealed
    value, or "not found", is what the key held at a moment between the request and its
    answer.  It is assumed that an update carries a version the row has had, and that
    nobody deletes or edits the synthetic environment of the hosts. *)
Theorem secrets_are_one_map c : vault_reachable aead uuid nonce parse print c ->
  let w := cf_world c in
  (forall id e key, wd_envs w !! id = Some e -> Open (Some aead) <$> en_Secrets e !! key = inr <$> secrets_of id (wd_log w) !! key) /\
  (forall i claims id key v n a, cf_threads c !! i = Some (mkThread (RPutSecret claims id key (Some v)) n (Done (Reply a))) ->
    made i (wd_log w) = match a with KeyReply _ => [(id, SPut key v)] | _ => [] end) /\
  (forall i claims id key n a, cf_threads c !! i = Some (mkThread (RDeleteSecret claims id key) n (Done (Reply a))) ->
    made i (wd_log w) = [] \/ (exists k, a = KeyReply k) /\ made i (wd_log w) = [(id, SDel key)]) /\
  (forall i claims id key n a, cf_threads c !! i = Some (mkThread (RRevealSecret claims id key) n (Done (Reply a))) ->
    (forall k v, a = SecretReply k v -> k = key /\ read_since n w id key (Some v)) /\
    (a = Refused 404 -> id ∉ wd_goneE w -> read_since n w id key None)).
Proof.
  intros Hr w. pose proof (vault_safe c Hr) as Hinv. split; [|split; [|split]].
  - intros id e key He. by destruct (wi_env _ (ci_world _ Hinv) _ _ He) as (_ & _ & ?).
  - intros i claims id key v n a Hi. by apply (Done_post _ _ _ _ _ Hinv) in Hi.
  - intros i claims id key n a Hi. by apply (Done_post _ _ _ _ _ Hinv) in Hi.
  - intros i claims id key n a Hi. apply (Done_post _ _ _ _ _ Hinv) in Hi. apply Hi.
Qed.

(** C20. A host's key can be loaded.  On the PostgreSQL tables and the database secrets
    manager, whatever requests run at once and whatever statements fail, each host that has
    a key reference has a private key that parses, the one last stored for it, and
    [LoadPrivateKey] returns it - although the key is written to the synthetic environment
    before the host's row exists and deleted after it is gone.  It is assumed that UUIDs are
    distinct, that an update carries a version the row has had, and that nobody deletes or
    edits the synthetic environment, which the API lets an administrator do
    ([synthetic_environment_is_ordinary]). *)
Theorem host_keys_load c id h : vault_reachable aead uuid nonce parse print c -> wd_hosts (cf_world c) !! id = Some h -> h_SSHPrivateKeyRef h <> "" ->
  exists pem, parse pem = true /\ secrets_of hostSecretsEnvID (wd_log (cf_world c)) !! host_secret id = Some pem /\
    run (LoadPrivateKey (manager aead nonce 0) (Some h)) (cf_world c) = (cf_world c, Ok pem).
Proof.
  intros Hr Hh Href. pose proof (ci_world _ (vault_safe c Hr)) as Hi. destruct (wi_host _ Hi _ _ Hh) as (_ & Hsome & _ & [?|[Hk [pem Hpem]]]); [done|].
  exists pem. split; [by eapply wi_keys|]. split; [done|]. unfold LoadPrivateKey, manager. apply String.eqb_neq in Href, Hsome. rewrite Href, Hk.
  unfold resolveKeyRef, hostKeyRef. rewrite has_prefix_app, trim_prefix_app, Hsome. cbn.
  destruct (wd_envs (cf_world c) !! hostSecretsEnvID) as [e|] eqn:He.
  - destruct (wi_env _ Hi _ _ He) as (_ & _ & Hop). specialize (Hop (host_secret id)). rewrite Hpem in Hop.
    destruct (en_Secrets e !! host_secret id) as [s|]; [|done]. cbn in Hop |- *. injection Hop as Hop. by rewrite Hop.
  - rewrite (wi_log _ Hi), lookup_empty in Hpem; [done|done|apply (wi_synthetic _ Hi)].
Qed.

(** C21. A pinned host key stays, whatever requests run at once and whatever statements
    fail.  The step that changes the pinned key of a host is one of a request that pins that
    host's first key, over the SSH connection, or of an operator's update of that host whose
    body names the new key.  It is assumed that an update carries a version the row has had:
    one that guesses the next version can clear a pin made meanwhile
    ([guessed_version_clears_pin]); and that UUIDs are distinct and nobody deletes or edits
    the synthetic environment of the hosts' keys. *)
Theorem pinned_keys_stay c c' id h h' : vault_reachable aead uuid nonce parse print c -> vstep aead uuid nonce parse print c c' ->
  wd_hosts (cf_world c) !! id = Some h -> wd_hosts (cf_world c') !! id = Some h' -> h_SSHKnownHostKey h <> h_SSHKnownHostKey h' ->
  exists i r n (A : Set) (cl : call A) k,
    cf_threads c !! i = Some (mkThread r n (Call cl k)) /\
    c' = mkConf (exec i cl (cf_world c)).1 (<[i := mkThread r n (k (exec i cl (cf_world c)).2)]> (cf_threads c)) /\
    match r with
    | RPinHostKey id' key => id' = id /\ h_SSHKnownHostKey h = "" /\ h_SSHKnownHostKey h' = key
    | RUpdateHost id' _ (Some (b, _)) => id' = id /\ h_SSHKnownHostKey h' = h_SSHKnownHostKey b /\ h_SSHKnownHostKey b <> ""
    | _ => False
    end.
Proof.
  intros Hr Hs Hh Hh' Hne. pose proof (vault_safe c Hr) as Hinv. destruct Hs as [r Had|i r n A cl k Hi|i r n A cl k Hi]; cbn in Hh'; [congruence| |congruence].
  pose proof (ci_threads _ Hinv _ _ Hi) as Hs. destruct (Hs _ (rely_refl _ _) (ci_world _ Hinv)) as [(_ & Hg & _) _].
  exists i, r, n, A, cl, k. split_and!; [done|done|]. exact (gu_pin _ _ _ _ Hg _ _ _ Hh Hh' Hne).
Qed.
End vault.

(** ** The in-memory tables

    One operation after the other they are the same as the PostgreSQL ones, but for the
    inserts, which overwrite and keep what they are given, and for names, which need not
    be unique.  (They hand out pointers to their rows, which is not modelled.) *)

Definition memory_EnvCreate (e : Environment) (envs : gmap string Environment) : gmap string Environment := <[en_ID e := e]> envs.

Definition memory_EnvUpdate (e : Environment) (envs : gmap string Environment) : result store_error (gmap string Environment) :=
  match envs !! en_ID e with
  | None => Err NotFound
  | Some cur =>
      if negb (en_Version cur =? en_Version e) then Err Conflict
      else Ok (<[en_ID e := mkEnv (en_ID e) (en_Name e) (en_Order e) (en_Target e) (en_Promotion e) (en_PlainVars e) (en_Secrets e) (en_SecretKeys e)
                  (en_Variables e) (en_CreatedAt e) (en_Version e + 1)]> envs)
  end.

Definition memory_EnvDelete (id : string) (envs : gmap string Environment) : result store_error (gmap string Environment) :=
  match envs !! id with None => Err NotFound | Some _ => Ok (delete id envs) end.

Definition memory_HostCreate (h : Host) (hosts : gmap string Host) : gmap string Host := <[h_ID h := h]> hosts.

Definition memory_HostUpdate (h : Host) (hosts : gmap string Host) : result store_error (gmap string Host) :=
  match hosts !! h_ID h with
  | None => Err NotFound
  | Some cur => if negb (h_Version cur =? h_Version h) then Err Conflict else Ok (<[h_ID h := host_version (h_Version h + 1) h]> hosts)
  end.

Definition memory_HostDelete (id : string) (hosts : gmap string Host) : result store_error (gmap string Host) :=
  match hosts !! id with None => Err NotFound | Some _ => Ok (delete id hosts) end.

Section memory.
Context `{RO : RangeOrder}.

(** An update made from the row itself, under a name nobody else has, ends alike on both. *)
Lemma memory_update_alike i e label w cur : wd_envs w !! en_ID e = Some cur -> en_CreatedAt e = en_CreatedAt cur -> en_SecretKeys e = [] ->
  en_Variables e = None -> env_named (en_Name e) (en_ID e) (wd_envs w) = false ->
  match exec i (EnvUpdate e label) w with
  | (w', Ok _) => memory_EnvUpdate e (wd_envs w) = Ok (wd_envs w')
  | (w', Err x) => memory_EnvUpdate e (wd_envs w) = Err x /\ w' = w
  end.
Proof.
  intros Hcur Hc Hk Hv Hn. unfold memory_EnvUpdate. cbn. rewrite Hcur. destruct (en_Version cur =? en_Version e); cbn; [|done]. rewrite Hn. cbn.
  unfold env_row. by rewrite Hc, Hk, Hv.
Qed.

Lemma memory_host_update_alike i h w cur : wd_hosts w !! h_ID h = Some cur -> h_CreatedAt h = h_CreatedAt cur ->
  host_named (h_Name h) (h_ID h) (wd_hosts w) = false ->
  match exec i (HostUpdate h) w with
  | (w', Ok _) => memory_HostUpdate h (wd_hosts w) = Ok (wd_hosts w')
  | (w', Err x) => memory_HostUpdate h (wd_hosts w) = Err x /\ w' = w
  end.
Proof.
  intros Hcur Hc Hn. unfold memory_HostUpdate. cbn. rewrite Hcur. destruct (h_Version cur =? h_Version h); cbn; [|done]. rewrite Hn. cbn.
  unfold host_row. rewrite <- Hc. by destruct h.
Qed.
End memory.

(** ** What responses show *)

Section responses.
Context `{RO : RangeOrder}.

Lemma insert_key_perm k l : insert_key k l ≡ₚ k :: l.
Proof. induction l as [|x l IH]; cbn; [done|]. destruct (String.ltb x k); [|done]. rewrite IH. apply Permutation_swap. Qed.

Lemma insert_keys_perm ks l : foldl (fun sorted k => insert_key k sorted) l ks ≡ₚ l ++ ks.
Proof.
  revert l. induction ks as [|k ks IH]; intros l; cbn; [by rewrite app_nil_r|]. rewrite IH, insert_key_perm. cbn. by rewrite Permutation_middle.
Qed.

(** The answered environment has the names of the secrets and none of their values. *)
Lemma Redact_hides e : en_Secrets (Redact e) = ∅ /\ (en_Secrets e <> ∅ -> forall k, k ∈ en_SecretKeys (Redact e) <-> is_Some (en_Secrets e !! k)).
Proof.
  split; [done|]. intros Hne k. cbn [Redact en_SecretKeys]. set (keys := foldl _ _ _).
  assert (forall x, x ∈ keys <-> is_Some (en_Secrets e !! x)) as Hkeys.
  { intros x. unfold keys. rewrite insert_keys_perm. cbn [app]. apply elem_of_range_fst. }
  destruct keys as [|x rest] eqn:Hk; [|by apply Hkeys]. exfalso. apply Hne, map_eq. intros x. rewrite lookup_empty.
  destruct (en_Secrets e !! x) as [v|] eqn:Hx; [|done]. assert (x ∈ ([] : list string)) as Hin by (apply Hkeys; by eexists). by apply elem_of_nil in Hin.
Qed.
End responses.

(** ** A server on concrete requests *)

Fixpoint xs (n : nat) : string := match n with O => "" | S n => String "x" (xs n) end.

Definition demo_uuid (i : nat) : string := xs (S i).

Lemma xs_len n : String.length (xs n) = n.
Proof. induction n as [|n IH]; cbn; [done|by rewrite IH]. Qed.

Lemma demo_uuid_inj : Inj eq eq demo_uuid.
Proof. intros i j H. apply (f_equal String.length) in H. unfold demo_uuid in H. rewrite !xs_len in H. lia. Qed.

Lemma demo_uuid_real i : demo_uuid i <> hostSecretsEnvID.
Proof. done. Qed.

Lemma demo_uuid_some i : demo_uuid i <> "".
Proof. done. Qed.

Definition demo_nonce (i : nat) : string := "n".

Definition demo_parse (pem : string) : bool := has_prefix "-----BEGIN" pem.

#[local] Existing Instance range_default.

Definition demo_reachable : conf -> Prop := vault_reachable toy_aead demo_uuid demo_nonce demo_parse (fun _ => "").

Definition arrive (r : request) (c : conf) : conf :=
  mkConf (cf_world c) (cf_threads c ++ [mkThread r (length (wd_log (cf_world c))) (serve toy_aead demo_uuid demo_nonce demo_parse (fun _ => "") (length (cf_threads c)) r)]).

(** The next call of request [i]. *)
Definition advance (c : conf) (i : nat) : conf :=
  match cf_threads c !! i with
  | Some (mkThread r n (Call cl k)) => mkConf (exec i cl (cf_world c)).1 (<[i := mkThread r n (k (exec i cl (cf_world c)).2)]> (cf_threads c))
  | _ => c
  end.

Lemma arrive_reachable r c : demo_reachable c -> admissible (cf_world c) r -> demo_reachable (arrive r c).
Proof. intros Hr Had. eapply reach_step; [exact Hr|by apply v_arrive]. Qed.

Lemma advance_reachable l c : demo_reachable c -> demo_reachable (foldl advance c l).
Proof.
  revert c. induction l as [|i l IH]; intros c Hr; cbn; [done|]. apply IH. unfold advance.
  destruct (cf_threads c !! i) as [[r n [o|A cl k]]|] eqn:Hi; [done| |done]. eapply reach_step; [exact Hr|by eapply v_call].
Qed.

(** An environment, two concurrent secrets of one key, then a read of it. *)
Definition env_body : Environment := mkEnv "" "staging" 2 (mkTarget "namespace" "" "stg" "") (mkPolicy "auto" 0 []) None ∅ ["ADMIN_TOKEN"] (Some {["A" := "1"]}) 0 0.

Definition demo_put (v : string) : request := RPutSecret admin (demo_uuid 0) "DB" (Some v).

Definition with_env : conf := foldl advance (arrive (RCreateEnvironment 10 (Some env_body)) (mkConf empty_world [])) [0%nat].

Definition two_puts : conf := foldl advance (arrive (demo_put "pw2") (arrive (demo_put "pw1") with_env)) [1; 2; 1; 2; 1; 2]%nat.

Definition revealed : conf := foldl advance (arrive (RRevealSecret admin (demo_uuid 0) "DB") two_puts) [3; 3]%nat.

Lemma revealed_reachable : demo_reachable revealed.
Proof.
  apply advance_reachable, arrive_reachable; [|done]. apply advance_reachable, arrive_reachable; [apply arrive_reachable|]; [|done|done].
  apply advance_reachable, arrive_reachable; [by apply reach_init|done].
Qed.

(** The two updates met: one was stored, the other was told 500, and the value is the
    first one's. *)
Lemma secrets_are_one_map_witness :
  made 1 (wd_log (cf_world revealed)) = [(demo_uuid 0, SPut "DB" "pw1")] /\ made 2 (wd_log (cf_world revealed)) = [] /\
  read_since 1 (cf_world revealed) (demo_uuid 0) "DB" (Some "pw1").
Proof.
  destruct (secrets_are_one_map toy_aead demo_uuid demo_nonce demo_parse (fun _ => "") demo_uuid_inj demo_uuid_real demo_uuid_some (fun _ => eq_refl)
    revealed revealed_reachable) as (_ & Hput & _ & Hreveal).
  split; [|split].
  - apply (Hput 1%nat admin (demo_uuid 0) "DB" "pw1" 0%nat (KeyReply "DB")). reflexivity.
  - apply (Hput 2%nat admin (demo_uuid 0) "DB" "pw2" 0%nat (Refused 500)). reflexivity.
  - destruct (Hreveal 3%nat admin (demo_uuid 0) "DB" 1%nat (SecretReply "DB" "pw1") eq_refl) as [Hv _]. apply (Hv "DB" "pw1" eq_refl).
Defined.

(** A host with its key, and the first pin of its host key. *)
Definition demo_host (kind known : string) (strict : bool) (version : Z) : Host :=
  mkHost "" "box" kind "" "" "" "" "10.0.0.9:22" "root" 0 "" known strict 0 0 version.

Definition demo_pem : string := "-----BEGIN KEY 1".

Definition with_host : conf :=
  foldl advance (arrive (RCreateHost 20 (Some (demo_host "ssh-docker" "" false 0, demo_pem))) (mkConf empty_world [])) [0; 0; 0; 0; 0]%nat.

Definition the_host : Host := default (demo_host "" "" false 0) (wd_hosts (cf_world with_host) !! demo_uuid 0).

Lemma with_host_reachable : demo_reachable with_host.
Proof. apply advance_reachable, arrive_reachable; [by apply reach_init|done]. Qed.

Lemma host_keys_load_witness :
  exists pem, demo_parse pem = true /\ run (LoadPrivateKey (manager toy_aead demo_nonce 0) (Some the_host)) (cf_world with_host) = (cf_world with_host, Ok pem).
Proof.
  destruct (host_keys_load toy_aead demo_uuid demo_nonce demo_parse (fun _ => "") demo_uuid_inj demo_uuid_real demo_uuid_some (fun _ => eq_refl)
    with_host (demo_uuid 0) the_host with_host_reachable) as (pem & Hp & _ & Hrun).
  - vm_compute. reflexivity.
  - vm_compute. discriminate.
  - exists pem. split; [exact Hp|exact Hrun].
Defined.

Definition pinning : conf := foldl advance (arrive (RPinHostKey (demo_uuid 0) "ssh-ed25519 AAAA") with_host) [1%nat].

Definition pinned_conf : conf := advance pinning 1.

Definition known_key (c : conf) : option string := h_SSHKnownHostKey <$> wd_hosts (cf_world c) !! demo_uuid 0.

Lemma pinning_reachable : demo_reachable pinning.
Proof. apply advance_reachable, arrive_reachable; [exact with_host_reachable|done]. Qed.

Lemma pinning_steps : vstep toy_aead demo_uuid demo_nonce demo_parse (fun _ => "") pinning pinned_conf.
Proof.
  destruct (cf_threads pinning !! 1%nat) as [[r n [o|A cl k]]|] eqn:Hi; [by vm_compute in Hi| |by vm_compute in Hi].
  assert (pinned_conf = mkConf (exec 1 cl (cf_world pinning)).1 (<[1%nat := mkThread r n (k (exec 1 cl (cf_world pinning)).2)]> (cf_threads pinning))) as ->
    by (unfold pinned_conf, advance; by rewrite Hi). by eapply v_call.
Qed.

Lemma pinned_keys_stay_witness :
  known_key pinning = Some "" /\ known_key pinned_conf = Some "ssh-ed25519 AAAA" /\ exists i th, cf_threads pinning !! i = Some th /\
    match th_request th with RPinHostKey id _ | RUpdateHost id _ _ => id = demo_uuid 0 | _ => False end.
Proof.
  split; [vm_compute; reflexivity|]. split; [vm_compute; reflexivity|].
  destruct (pinned_keys_stay toy_aead demo_uuid demo_nonce demo_parse (fun _ => "") demo_uuid_inj demo_uuid_real demo_uuid_some (fun _ => eq_refl)
    pinning pinned_conf (demo_uuid 0) the_host
    (default the_host (wd_hosts (cf_world pinned_conf) !! demo_uuid 0)) pinning_reachable pinning_steps) as (i & rq & n & A & cl & k & Hi & _ & Hr).
  - vm_compute. reflexivity.
  - vm_compute. reflexivity.
  - vm_compute. discriminate.
  - exists i, (mkThread rq n (Call cl k)). split; [exact Hi|]. destruct rq as [| | | | | | | | | | | |id0 now [[h0 pem]|]| | |id0 key]; try (by destruct Hr); by destruct Hr as (-> & _).
Defined.

(** ** What the code does otherwise than it says *)

Section divergences.
Context `{RO : RangeOrder} (parse : string -> bool) (mgr : option Manager) (now : Z).

(** The strict-host-key default needs an empty PEM, and an empty PEM is refused: every
    SSH host is stored as strict as it was sent, and one that does not say is not. *)
Lemma strict_default_is_dead h pem : pem <> "" -> host_strict h pem = h_SSHStrictHostKey h.
Proof. intros Hp. apply String.eqb_neq in Hp. unfold host_strict. rewrite Hp, andb_false_r. done. Qed.

Lemma empty_pem_is_refused uuid h w : h_Kind h = HostKindSSHDocker -> run (CreateHost parse mgr now true uuid (Some (h, ""))) w = (w, Refused 400).
Proof. intros Hk. cbn [CreateHost]. destruct (validateHostInput h); [|done]. cbn. by rewrite Hk. Qed.
End divergences.

Definition reply_of (c : conf) (i : nat) : option reply :=
  match cf_threads c !! i with Some (mkThread _ _ (Done (Reply a))) => Some a | _ => None end.

(** A host that did not ask for lax checking is stored lax, and a production server then
    refuses to start. *)
Example lax_host_stops_production :
  h_SSHStrictHostKey the_host = false /\
  ListSSHHostsLaxStrictHostKey [the_host] = [(demo_uuid 0, "box")] /\
  ValidateSSHHosts (Load demo_environ) (Some (Ok (ListSSHHostsLaxStrictHostKey [the_host]))) = Err (inr [(demo_uuid 0, "box")]).
Proof. repeat split; vm_compute; reflexivity. Qed.

(** A pinned key cannot be cleared: the empty key of an update means "keep". *)
Example pin_cannot_be_cleared :
  let c := foldl advance (arrive (RUpdateHost (demo_uuid 0) 30 (Some (demo_host "ssh-docker" "" true 1, ""))) pinned_conf) [2; 2]%nat in
  (exists a, reply_of c 2 = Some (HostReply 200 a)) /\ known_key c = Some "ssh-ed25519 AAAA".
Proof. split; [eexists|]; vm_compute; reflexivity. Qed.

(** Unless an update guesses the version that a pin is about to make: it read no pinned key,
    and writes none over the pin. *)
Example guessed_version_clears_pin :
  let c := arrive (RPinHostKey (demo_uuid 0) "ssh-ed25519 AAAA") (arrive (RUpdateHost (demo_uuid 0) 30 (Some (demo_host "ssh-docker" "" true 1, ""))) with_host) in
  let pinned := foldl advance c [1; 2; 2]%nat in
  known_key pinned = Some "ssh-ed25519 AAAA" /\ known_key (advance pinned 1) = Some "".
Proof. split; vm_compute; reflexivity. Qed.

(** An update with a stale version is answered 500, not 409, and has already replaced the
    host's key. *)
Example failed_update_changes_the_key :
  let c := foldl advance (arrive (RUpdateHost (demo_uuid 0) 30 (Some (demo_host "ssh-docker" "" true 0, "-----BEGIN KEY 2"))) pinned_conf) [2; 2; 2; 2; 2; 2]%nat in
  reply_of c 2 = Some (Refused 500) /\
  (run (LoadPrivateKey (manager toy_aead demo_nonce 0) (Some the_host)) (cf_world c)).2 = Ok "-----BEGIN KEY 2".
Proof. split; vm_compute; reflexivity. Qed.

(** Two first hosts at once: the second insert of the synthetic environment is not a
    conflict for the store, and the request fails. *)
Example two_first_hosts :
  let body name := Some (mkHost "" name "ssh-docker" "" "" "" "" "10.0.0.9:22" "root" 0 "" "" true 0 0 0, demo_pem) in
  let c := foldl advance (arrive (RCreateHost 20 (body "b")) (arrive (RCreateHost 20 (body "a")) (mkConf empty_world []))) [0; 1; 0; 1]%nat in
  reply_of c 1 = Some (Refused 500).
Proof. vm_compute. reflexivity. Qed.

(** In memory the second insert overwrites the row, with the key of the first host. *)
Example memory_insert_loses_keys (envs : gmap string Environment) e : envs !! hostSecretsEnvID = Some e ->
  en_Secrets <$> memory_EnvCreate (hosts_env 20) envs !! hostSecretsEnvID = Some ∅.
Proof. intros _. unfold memory_EnvCreate, hosts_env. cbn [en_ID]. by rewrite lookup_insert_eq. Qed.

(** The synthetic environment can be read and deleted like any other: an admin reads the
    key that no response is said to carry, and deleting it leaves every host without one. *)
Example synthetic_environment_is_ordinary :
  let w := cf_world with_host in
  (run (RevealSecret (manager toy_aead demo_nonce 0) admin hostSecretsEnvID (host_secret (demo_uuid 0))) w).2 = SecretReply (host_secret (demo_uuid 0)) demo_pem /\
  (let w' := (run (DeleteEnvironment hostSecretsEnvID) w).1 in
   (run (LoadPrivateKey (manager toy_aead demo_nonce 0) (Some the_host)) w').2 = Err KeyNotLoaded).
Proof. split; vm_compute; reflexivity. Qed.

(** A Docker host that is made an SSH host needs no key. *)
Example ssh_host_without_key :
  let c := foldl advance (arrive (RUpdateHost (demo_uuid 0) 30 (Some (demo_host "ssh-docker" "" true 0, "")))
             (foldl advance (arrive (RCreateHost 20 (Some (demo_host "docker" "" false 0, ""))) (mkConf empty_world [])) [0%nat])) [1; 1]%nat in
  (exists a, reply_of c 1 = Some (HostReply 200 (a, false))) /\
  match wd_hosts (cf_world c) !! demo_uuid 0 with
  | Some h => h_Kind h = HostKindSSHDocker /\ (run (LoadPrivateKey (manager toy_aead demo_nonce 0) (Some h)) (cf_world c)).2 = Err NoKeyRef
  | None => False
  end.
Proof. split; [eexists|]; vm_compute; [reflexivity|by split]. Qed.

(** Key names sent by a client are echoed while the environment has no secret. *)
Example client_key_names_are_echoed :
  en_SecretKeys <$> (match reply_of with_env 0 with Some (EnvReply 201 e) => Some e | _ => None end) = Some ["ADMIN_TOKEN"].
Proof. vm_compute. reflexivity. Qed.
