(* ===== verification/Notify.v ===== *)
(** * Notifications

    notify/notifier/*.go, service/notify.go, handler/notification_targets.go: the events and
    their texts, the targets and their two stores, the administration of targets, the
    channels, and the dispatcher. *)

From Stdlib Require Import Ascii.
From S2P Require Import Prelude GoStr GoCrypto GoBase64 Model RunState App Validate Executor JobRunner Webhook.
Local Open Scope Z_scope.

(** ** Events *)

Definition EventRunSucceeded : string := "run.succeeded".
Definition EventRunFailed : string := "run.failed".
Definition EventRunCancelled : string := "run.cancelled".
Definition EventDeploySucceeded : string := "deploy.succeeded".
Definition EventDeployFailed : string := "deploy.failed".
Definition EventBuildFailed : string := "build.failed".
Definition EventCanaryPromoted : string := "canary.promoted".
Definition EventCanaryAborted : string := "canary.aborted".
Definition EventCanaryFailed : string := "canary.failed".

(** A zero time is [None]. *)
Record Event := mkEvent {
  e_Type : string; e_PipelineID : string; e_PipelineName : string; e_RunID : string; e_AppID : string; e_AppName : string;
  e_Environment : string; e_Status : string; e_Error : string; e_URL : string; e_Timestamp : option Z
}.

(** ** Texts

    A template as it is parsed: its text, its fields, and the optional lines, whose trim
    markers leave one newline before the label. *)

Inductive piece := Lit (s : string) | Field (f : Event -> string) | Line (label : string) (f : Event -> string).

Definition render_piece (e : Event) (p : piece) : string :=
  match p with Lit s => s | Field f => f e | Line label f => if f e =s "" then "" else chr "010" +:+ label +:+ f e end.

Definition render (e : Event) (t : list piece) : string := String.concat "" (render_piece e <$> t).

Definition details : piece := Line "Details: " e_URL.
Definition on_app (text : string) : list piece := [Lit text; Field e_AppName; Lit " → "; Field e_Environment].
Definition on_run (before after : string) : list piece := [Lit before; Field e_PipelineName; Lit " (run "; Field e_RunID; Lit after].

Definition titleTemplates : gmap string (list piece) := list_to_map [
  (EventRunSucceeded, [Lit "✅ Run succeeded: "; Field e_PipelineName]);
  (EventRunFailed, [Lit "❌ Run failed: "; Field e_PipelineName]);
  (EventRunCancelled, [Lit "⛔ Run cancelled: "; Field e_PipelineName]);
  (EventDeploySucceeded, on_app "🚀 Deploy succeeded: ");
  (EventDeployFailed, on_app "🔥 Deploy failed: ");
  (EventBuildFailed, [Lit "🔨 Build failed: "; Field e_PipelineName]);
  (EventCanaryPromoted, on_app "📈 Canary promoted: ");
  (EventCanaryAborted, on_app "↩️ Canary aborted: ");
  (EventCanaryFailed, on_app "🔥 Canary failed: ")].

Definition bodyTemplates : gmap string (list piece) := list_to_map [
  (EventRunSucceeded, on_run "Pipeline " ") completed successfully." ++ [details]);
  (EventRunFailed, on_run "Pipeline " ") failed." ++ [Line "Error: " e_Error; details]);
  (EventRunCancelled, on_run "Pipeline " ") was cancelled." ++ [details]);
  (EventDeploySucceeded, [Lit "App "; Field e_AppName; Lit " deployed to "; Field e_Environment; Lit " successfully."; details]);
  (EventDeployFailed, [Lit "Deploy of "; Field e_AppName; Lit " to "; Field e_Environment; Lit " failed."; Line "Error: " e_Error; details]);
  (EventBuildFailed, on_run "Build for " ") failed." ++ [Line "Error: " e_Error; details]);
  (EventCanaryPromoted, [Lit "Canary for "; Field e_AppName; Lit " was promoted to 100% in "; Field e_Environment; Lit "."; details]);
  (EventCanaryAborted, [Lit "Canary for "; Field e_AppName; Lit " in "; Field e_Environment; Lit " was rolled back."; Line "Reason: " e_Error; details]);
  (EventCanaryFailed, [Lit "Canary for "; Field e_AppName; Lit " in "; Field e_Environment; Lit " could not be established."; Line "Error: " e_Error; details])].

Definition fallbackText (e : Event) (hint : string) : string :=
  join " " ([e_Type e] ++ (if hint =s "" then [] else [hint]) ++
    (if e_PipelineName e =s "" then [] else ["pipeline=" +:+ e_PipelineName e]) ++ (if e_AppName e =s "" then [] else ["app=" +:+ e_AppName e])).

Definition Title (e : Event) : string :=
  match titleTemplates !! e_Type e with None => fallbackText e (e_Type e) | Some t => trim_space (render e t) end.

Definition Body (e : Event) : string :=
  match bodyTemplates !! e_Type e with None => fallbackText e "" | Some t => trim_space (render e t) end.

(** ** Targets *)

Record Target := mkTarget {
  t_ID : string; t_Name : string; t_Kind : string; t_Config : string; t_EventTypes : list string; t_Enabled : bool; t_CreatedAt : Z; t_UpdatedAt : Z
}.

Definition Matches (t : Target) (et : string) : bool :=
  if negb (t_Enabled t) then false else
  match t_EventTypes t with [] => true | l => existsb (String.eqb et) l end.

Definition with_Config (cfg : string) (t : Target) : Target :=
  mkTarget (t_ID t) (t_Name t) (t_Kind t) cfg (t_EventTypes t) (t_Enabled t) (t_CreatedAt t) (t_UpdatedAt t).

Definition stamped (created updated : Z) (t : Target) : Target :=
  mkTarget (t_ID t) (t_Name t) (t_Kind t) (t_Config t) (t_EventTypes t) (t_Enabled t) created updated.

(** *** In memory *)

Inductive target_error := ErrTargetNotFound | EmptyID | DuplicateID | SealFailed | Encrypted | OpenFailed | Database.

Section memory.
Context `{RO : RangeOrder}.

Definition mem_ListEnabled (m : gmap string Target) : list Target := filter (fun t => t_Enabled t = true) (range_map m).*2.
Definition mem_List (m : gmap string Target) : list Target := (range_map m).*2.
Definition mem_Get (m : gmap string Target) (id : string) : result target_error Target :=
  match m !! id with Some t => Ok t | None => Err ErrTargetNotFound end.

(** A zero creation time is 0. *)
Definition mem_Create (m : gmap string Target) (now : Z) (t : Target) : result target_error (gmap string Target) :=
  if t_ID t =s "" then Err EmptyID else
  let t := stamped (if t_CreatedAt t =? 0 then now else t_CreatedAt t) now t in
  match m !! t_ID t with Some _ => Err DuplicateID | None => Ok (<[t_ID t := t]> m) end.

Definition mem_Update (m : gmap string Target) (now : Z) (t : Target) : result target_error (gmap string Target) :=
  match m !! t_ID t with None => Err ErrTargetNotFound | Some _ => Ok (<[t_ID t := stamped (t_CreatedAt t) now t]> m) end.

Definition mem_Delete (m : gmap string Target) (id : string) : result target_error (gmap string Target) :=
  match m !! id with None => Err ErrTargetNotFound | Some _ => Ok (delete id m) end.
End memory.

(** *** In PostgreSQL

    [unmarshal] is [json.Unmarshal] into the envelope: the [enc] and the decoded [data];
    [jsonb] is what the column makes of a text. *)

Class ConfigColumn := {
  unmarshal : string -> option (string * string);
  jsonb : string -> string
}.

Definition sealedConfigV1 : string := "v1".

(** [json.Marshal] of the envelope: [data] is printed in base64. *)
Definition quoted (s : string) : string := chr "034" +:+ s +:+ chr "034".
Definition marshal_envelope (data : string) : string :=
  "{" +:+ quoted "enc" +:+ ":" +:+ quoted sealedConfigV1 +:+ "," +:+ quoted "data" +:+ ":" +:+ quoted (EncodeToString StdEncoding (bytes_of_string data)) +:+ "}".

(** The documented behaviour: the envelope is read back, through the column too. *)
Class ColumnLaws `{ConfigColumn} := {
  envelope_read data : unmarshal (jsonb (marshal_envelope data)) = Some (sealedConfigV1, data)
}.

Section postgres.
Context `{RO : RangeOrder, CC : ConfigColumn} (codec : option AEAD).

Definition sealConfig (nonce cfg : string) : result target_error string :=
  if negb (Active codec) then Ok cfg else
  match Seal codec nonce cfg with inl _ => Err SealFailed | inr sealed => Ok (marshal_envelope sealed) end.

Definition openConfig (cfg : string) : result target_error string :=
  match unmarshal cfg with
  | Some (enc, data) =>
      if negb (enc =s sealedConfigV1) then Ok cfg
      else if negb (Active codec) then Err Encrypted
      else match Open codec data with inr plain => Ok plain | inl _ => Err OpenFailed end
  | None => Ok cfg
  end.

Definition open_row (t : Target) : result target_error Target := cfg ← openConfig (t_Config t); Ok (with_Config cfg t).

Fixpoint open_rows (rows : list Target) : result target_error (list Target) :=
  match rows with [] => Ok [] | t :: rows => t ← open_row t; rest ← open_rows rows; Ok (t :: rest) end.

Definition by_creation (l : list Target) : list Target := sort_slice (fun a b => t_CreatedAt a <? t_CreatedAt b) l.

Definition pg_ListEnabled (m : gmap string Target) : result target_error (list Target) :=
  open_rows (by_creation (filter (fun t => t_Enabled t = true) (range_map m).*2)).
Definition pg_List (m : gmap string Target) : result target_error (list Target) := open_rows (by_creation (range_map m).*2).
Definition pg_Get (m : gmap string Target) (id : string) : result target_error Target :=
  match m !! id with None => Err ErrTargetNotFound | Some t => open_row t end.

Definition config_or_empty (cfg : string) : string := if cfg =s "" then "{}" else cfg.

Definition kind_check (t : Target) : bool := bool_decide (t_Kind t ∈ ["slack"; "discord"; "webhook"; "email"]).

Definition pg_Create (m : gmap string Target) (nonce : string) (now : Z) (t : Target) : result target_error (gmap string Target) :=
  cfg ← sealConfig nonce (config_or_empty (t_Config t));
  match m !! t_ID t with
  | Some _ => Err Database
  | None =>
      if negb (kind_check t) then Err Database else
      Ok (<[t_ID t := stamped (if t_CreatedAt t =? 0 then now else t_CreatedAt t) now (with_Config (jsonb cfg) t)]> m)
  end.

Definition pg_Update (m : gmap string Target) (nonce : string) (now : Z) (t : Target) : result target_error (gmap string Target) :=
  cfg ← sealConfig nonce (config_or_empty (t_Config t));
  match m !! t_ID t with
  | None => Err ErrTargetNotFound
  | Some row => if negb (kind_check t) then Err Database else Ok (<[t_ID t := stamped (t_CreatedAt row) now (with_Config (jsonb cfg) t)]> m)
  end.

Definition pg_Delete (m : gmap string Target) (id : string) : result target_error (gmap string Target) :=
  match m !! id with None => Err ErrTargetNotFound | Some _ => Ok (delete id m) end.
End postgres.

(** ** Administration *)

(** The decoded body; [None] in [rq_Enabled] when it is absent. *)
Record target_request := mkRequest {
  rq_Name : string; rq_Kind : string; rq_Config : string; rq_EventTypes : list string; rq_Enabled : option bool
}.

Definition defaultCreateEventTypes : list string := [EventRunFailed; EventDeployFailed; EventBuildFailed; EventCanaryFailed].

(** The [required] bindings, then [validateTargetRequest]; [json_valid] is [json.Valid]. *)
Definition validateTargetRequest (json_valid : string -> bool) (rq : target_request) : bool :=
  negb (rq_Name rq =s "") && negb (rq_Kind rq =s "") && negb (rq_Config rq =s "") &&
  bool_decide (Validate.Name "name" (rq_Name rq) = None) && bool_decide (rq_Kind rq ∈ ["slack"; "discord"; "email"; "webhook"]) &&
  json_valid (rq_Config rq).

(** What a store promises its callers. *)
Record target_store := mkStore {
  ts_List : gmap string Target -> result target_error (list Target);
  ts_ListEnabled : gmap string Target -> result target_error (list Target);
  ts_Get : gmap string Target -> string -> result target_error Target;
  ts_Create : gmap string Target -> string -> Z -> Target -> result target_error (gmap string Target);
  ts_Update : gmap string Target -> string -> Z -> Target -> result target_error (gmap string Target);
  ts_Delete : gmap string Target -> string -> result target_error (gmap string Target)
}.

Definition memory_store `{RO : RangeOrder} : target_store :=
  mkStore (fun m => Ok (mem_List m)) (fun m => Ok (mem_ListEnabled m)) mem_Get (fun m _ => mem_Create m) (fun m _ => mem_Update m) mem_Delete.

Definition postgres_store `{RO : RangeOrder, CC : ConfigColumn} (codec : option AEAD) : target_store :=
  mkStore (pg_List codec) (pg_ListEnabled codec) (pg_Get codec) (pg_Create codec) (pg_Update codec) pg_Delete.

Inductive admin_reply := AdminTargets (l : list Target) | AdminTarget (status : Z) (t : Target) | NoContent | AdminError (status : Z).

Definition store_status (e : target_error) : Z := match e with ErrTargetNotFound => 404 | _ => 500 end.

Section admin.
Context (json_valid : string -> bool) (st : option target_store) (nonce : string) (now : Z).

Definition ListNotificationTargets (m : gmap string Target) : admin_reply :=
  match st with
  | None => AdminError 503
  | Some st => match ts_List st m with Err _ => AdminError 500 | Ok l => AdminTargets l end
  end.

Definition GetNotificationTarget (m : gmap string Target) (id : string) : admin_reply :=
  match st with
  | None => AdminError 503
  | Some st => match ts_Get st m id with Err e => AdminError (store_status e) | Ok t => AdminTarget 200 t end
  end.

Definition CreateNotificationTarget (m : gmap string Target) (uuid : string) (body : option target_request) : gmap string Target * admin_reply :=
  match st with
  | None => (m, AdminError 503)
  | Some st =>
      match body with
      | None => (m, AdminError 400)
      | Some rq =>
          if negb (validateTargetRequest json_valid rq) then (m, AdminError 400) else
          let t := mkTarget uuid (rq_Name rq) (rq_Kind rq) (rq_Config rq)
                     (match rq_EventTypes rq with [] => defaultCreateEventTypes | l => l end) (default true (rq_Enabled rq)) 0 0 in
          match ts_Create st m nonce now t with Err _ => (m, AdminError 500) | Ok m' => (m', AdminTarget 201 t) end
      end
  end.

Definition UpdateNotificationTarget (m : gmap string Target) (id : string) (body : option target_request) : gmap string Target * admin_reply :=
  match st with
  | None => (m, AdminError 503)
  | Some st =>
      match ts_Get st m id with
      | Err e => (m, AdminError (store_status e))
      | Ok existing =>
          match body with
          | None => (m, AdminError 400)
          | Some rq =>
              if negb (validateTargetRequest json_valid rq) then (m, AdminError 400) else
              let t := mkTarget (t_ID existing) (rq_Name rq) (rq_Kind rq) (rq_Config rq) (rq_EventTypes rq)
                         (default (t_Enabled existing) (rq_Enabled rq)) (t_CreatedAt existing) (t_UpdatedAt existing) in
              match ts_Update st m nonce now t with Err e => (m, AdminError (store_status e)) | Ok m' => (m', AdminTarget 200 t) end
          end
      end
  end.

Definition DeleteNotificationTarget (m : gmap string Target) (id : string) : gmap string Target * admin_reply :=
  match st with
  | None => (m, AdminError 503)
  | Some st => match ts_Delete st m id with Err e => (m, AdminError (store_status e)) | Ok m' => (m', NoContent) end
  end.
End admin.

(** ** Channels *)

Record SlackConfig := mkSlack { sc_WebhookURL : string; sc_Channel : string; sc_Username : string; sc_IconEmoji : string }.
Record DiscordConfig := mkDiscord { dc_WebhookURL : string; dc_Username : string; dc_AvatarURL : string }.
Record WebhookConfig := mkWebhook { wc_URL : string; wc_BearerToken : string; wc_Headers : list (string * string) }.
Record EmailConfig := mkEmail { ec_Host : string; ec_Port : Z; ec_Username : string; ec_Password : string; ec_From : string; ec_To : list string }.

(** [json.Unmarshal] into each of them. *)
Record decoders := mkDecoders {
  d_slack : string -> option SlackConfig; d_discord : string -> option DiscordConfig; d_webhook : string -> option WebhookConfig;
  d_email : string -> option EmailConfig
}.

(** [DecodeConfig]: an empty config leaves the zero value. *)
Definition DecodeConfig {C} (decode : string -> option C) (zero : C) (t : Target) : option C :=
  if t_Config t =s "" then Some zero else decode (t_Config t).

Definition colorForEvent (et : string) : Z :=
  if bool_decide (et ∈ [EventRunSucceeded; EventDeploySucceeded]) then 0x2ECC71
  else if bool_decide (et ∈ [EventRunFailed; EventDeployFailed]) then 0xE74C3C
  else if et =s EventBuildFailed then 0xE67E22
  else if et =s EventRunCancelled then 0x95A5A6 else 0.

(** What a channel puts on the wire.  The headers are the [Set]s in order. *)
Inductive payload :=
| SlackText (text channel username icon : string)
| DiscordEmbed (username avatar title description url : string) (color : Z) (timestamp : option Z)
| EventJSON (e : Event).

Inductive outgoing :=
| Post (url : string) (headers : list (string * string)) (body : payload)
| Mail (addr : string) (auth : option (string * string * string)) (from : string) (to : list string) (msg : string).

Definition crlf : string := String "013" (chr "010").

Definition buildMessage (from : string) (to : list string) (subject body : string) : string :=
  "From: " +:+ from +:+ crlf +:+ "To: " +:+ join ", " to +:+ crlf +:+ "Subject: " +:+ subject +:+ crlf +:+
  "Content-Type: text/plain; charset=UTF-8" +:+ crlf +:+ crlf +:+ body.

(** What [Send] sends for the kinds the registry knows; none when the config does not do. *)
Definition outgoing_of (d : decoders) (t : Target) (e : Event) : option outgoing :=
  let json := ("Content-Type", "application/json") in
  if t_Kind t =s "slack" then
    cfg ← DecodeConfig (d_slack d) (mkSlack "" "" "" "") t;
    if sc_WebhookURL cfg =s "" then None else
    Some (Post (sc_WebhookURL cfg) [json] (SlackText (Title e +:+ chr "010" +:+ Body e) (sc_Channel cfg) (sc_Username cfg) (sc_IconEmoji cfg)))
  else if t_Kind t =s "discord" then
    cfg ← DecodeConfig (d_discord d) (mkDiscord "" "" "") t;
    if dc_WebhookURL cfg =s "" then None else
    Some (Post (dc_WebhookURL cfg) [json]
            (DiscordEmbed (dc_Username cfg) (dc_AvatarURL cfg) (Title e) (Body e) (e_URL e) (colorForEvent (e_Type e)) (e_Timestamp e)))
  else if t_Kind t =s "webhook" then
    cfg ← DecodeConfig (d_webhook d) (mkWebhook "" "" []) t;
    if wc_URL cfg =s "" then None else
    Some (Post (wc_URL cfg)
            (json :: (if wc_BearerToken cfg =s "" then [] else [("Authorization", "Bearer " +:+ wc_BearerToken cfg)]) ++ wc_Headers cfg) (EventJSON e))
  else
    cfg ← DecodeConfig (d_email d) (mkEmail "" 0 "" "" "" []) t;
    if (ec_Host cfg =s "") || (ec_From cfg =s "") then None else
    match ec_To cfg with
    | [] => None
    | to =>
        let port := if ec_Port cfg =? 0 then 587 else ec_Port cfg in
        Some (Mail (ec_Host cfg +:+ ":" +:+ itoa port)
                (if negb (ec_Username cfg =s "") || negb (ec_Password cfg =s "") then Some (ec_Username cfg, ec_Password cfg, ec_Host cfg) else None)
                (ec_From cfg) to (buildMessage (ec_From cfg) to (Title e) (Body e)))
    end.

(** How the other side takes it: an HTTP status or a mailed message, or a failure. *)
Inductive delivery := Status (code : Z) | Mailed | Undelivered.

Definition Send (d : decoders) (deliver : outgoing -> delivery) (t : Target) (e : Event) : bool :=
  match outgoing_of d t e with
  | None => false
  | Some o => match deliver o with Status code => negb (300 <=? code) | Mailed => true | Undelivered => false end
  end.

(** ** The dispatcher *)

(** The registry of [defaultNotifierRegistry]. *)
Definition registered (kind : string) : bool := bool_decide (kind ∈ ["slack"; "discord"; "webhook"; "email"]).

Inductive dispatched := NotListed (e : target_error) | Sent (to : list Target) (failed : list Target).

(** A zero time stamp becomes the present. *)
Definition stamp (now : Z) (e : Event) : Event :=
  mkEvent (e_Type e) (e_PipelineID e) (e_PipelineName e) (e_RunID e) (e_AppID e) (e_AppName e) (e_Environment e) (e_Status e) (e_Error e) (e_URL e)
    (Some (default now (e_Timestamp e))).

(** [send] is called for each target in a goroutine of its own; the failures are joined in
    the order they arrive, and listed here in the order of the targets. *)
Definition Dispatch (listed : result target_error (list Target)) (send : Target -> Event -> bool) (now : Z) (event : Event) : dispatched :=
  match listed with
  | Err e => NotListed e
  | Ok targets =>
      let event := stamp now event in
      let to := filter (fun t => Matches t (e_Type event) && registered (t_Kind t) = true) targets in
      Sent to (filter (fun t => send t event = false) to)
  end.

(** ** What is notified *)

(** [NotifyRunOutcome]: the event of a finished run, if any. *)
Definition NotifyRunOutcome (wired : bool) (p : option Pipeline) (run : option PipelineRun) (execErr : option string) (now : Z) : option Event :=
  match wired, p, run with
  | true, Some p, Some run =>
      let event et err := mkEvent et (p_ID p) (p_Name p) (run_ID run) "" "" "" (run_Status run) err "" (Some now) in
      match execErr with
      | Some err => Some (event EventRunFailed err)
      | None =>
          if run_Status run =s RunStatusCancelled then Some (event EventRunCancelled "")
          else if run_Status run =s RunStatusSuccess then Some (event EventRunSucceeded "")
          else if run_Status run =s RunStatusFailed then Some (event EventRunFailed (run_Error run)) else None
      end
  | _, _, _ => None
  end.

Definition NotifyDeployOutcome (wired : bool) (app : option App) (runID errMsg : string) (success buildFailed : bool) (now : Z) : option Event :=
  match wired, app with
  | true, Some app =>
      Some (mkEvent (if success then EventDeploySucceeded else if buildFailed then EventBuildFailed else EventDeployFailed)
              "" "" runID (a_ID app) (a_Name app) (dt_Namespace (a_DeployTarget app)) "" errMsg "" (Some now))
  | _, _ => None
  end.

(** [canary] is the rollout's run and status. *)
Definition NotifyCanary (wired : bool) (app : option App) (canary : option (string * string)) (et errMsg : string) (now : Z) : option Event :=
  match wired, app, canary with
  | true, Some app, Some (runID, status) =>
      Some (mkEvent et "" "" runID (a_ID app) (a_Name app) (dt_Namespace (a_DeployTarget app)) status errMsg "" (Some now))
  | _, _, _ => None
  end.

(** ** What the administration promises the dispatcher *)

(** A target as its last accepted request left it. *)
Record subscription := mkSub { sp_Name : string; sp_Kind : string; sp_Config : string; sp_EventTypes : list string; sp_Enabled : bool }.

Definition wants (s : subscription) (et : string) : bool :=
  sp_Enabled s && match sp_EventTypes s with [] => true | l => existsb (String.eqb et) l end.

Inductive admin_request :=
| ACreate (uuid nonce : string) (now : Z) (body : option target_request)
| AUpdate (id nonce : string) (now : Z) (body : option target_request)
| ADelete (id : string).

Definition request_nonce (q : admin_request) : option string := match q with ACreate _ n _ _ | AUpdate _ n _ _ => Some n | ADelete _ => None end.

Section history.
Context `{RO : RangeOrder, CC : ConfigColumn} (json_valid : string -> bool) (codec : option AEAD).

(** The server's table after a request. *)
Definition administer (m : gmap string Target) (q : admin_request) : gmap string Target :=
  let st := Some (postgres_store codec) in
  match q with
  | ACreate uuid nonce now body => (CreateNotificationTarget json_valid st nonce now m uuid body).1
  | AUpdate id nonce now body => (UpdateNotificationTarget json_valid st nonce now m id body).1
  | ADelete id => (DeleteNotificationTarget st m id).1
  end.

(** The same history on subscriptions. *)
Definition subscribe (m : gmap string subscription) (q : admin_request) : gmap string subscription :=
  match q with
  | ACreate uuid _ _ (Some rq) =>
      if validateTargetRequest json_valid rq then
        match m !! uuid with
        | Some _ => m
        | None =>
            <[uuid := mkSub (rq_Name rq) (rq_Kind rq) (rq_Config rq) (match rq_EventTypes rq with [] => defaultCreateEventTypes | l => l end)
                        (default true (rq_Enabled rq))]> m
        end
      else m
  | AUpdate id _ _ (Some rq) =>
      match m !! id with
      | Some old =>
          if validateTargetRequest json_valid rq then
            <[id := mkSub (rq_Name rq) (rq_Kind rq) (rq_Config rq) (rq_EventTypes rq) (default (sp_Enabled old) (rq_Enabled rq))]> m
          else m
      | None => m
      end
  | ADelete id => delete id m
  | _ => m
  end.
End history.

Section refinement.
Context `{RO : RangeOrder, CC : ConfigColumn, CL : !ColumnLaws} (json_valid : string -> bool) (aead : AEAD).

Definition opened (t : Target) : string := match openConfig (Some aead) (t_Config t) with Ok c => c | Err _ => "" end.

(** The subscription a row stands for. *)
Definition abs (t : Target) : subscription := mkSub (t_Name t) (t_Kind t) (opened t) (t_EventTypes t) (t_Enabled t).

(** A row of the table: sealed, and of a known kind. *)
Definition row_ok (id : string) (t : Target) : Prop :=
  t_ID t = id /\ registered (t_Kind t) = true /\ (exists data plain, t_Config t = jsonb (marshal_envelope data) /\ openConfig (Some aead) (t_Config t) = Ok plain).

Definition tables (m : gmap string Target) (spec : gmap string subscription) : Prop := spec = abs <$> m /\ map_Forall row_ok m.

Lemma valid_request rq : validateTargetRequest json_valid rq = true -> rq_Config rq <> "" /\ registered (rq_Kind rq) = true.
Proof.
  unfold validateTargetRequest, registered. rewrite !andb_true_iff. intros (((((_ & _) & Hc) & _) & Hk) & _). apply bool_decide_eq_true_1 in Hk.
  split; [by apply negb_true_iff, String.eqb_neq in Hc|]. apply bool_decide_eq_true_2. clear -Hk. set_solver.
Qed.

(** A config that was sealed with a nonce of the right size is opened again. *)
Lemma seal_open nonce cfg : str_len nonce = NonceSize ->
  exists data, sealConfig (Some aead) nonce cfg = Ok (marshal_envelope data) /\ openConfig (Some aead) (jsonb (marshal_envelope data)) = Ok cfg.
Proof.
  intros Hn. destruct (Open_Seal aead (fun _ => None) nonce cfg Hn) as (sealed & Hs & _ & Ho). exists sealed. unfold sealConfig, openConfig.
  cbn [Active negb]. rewrite Hs, envelope_read, Ho. done.
Qed.

(** Writing a row through either operation. *)
Lemma put_row (m : gmap string Target) spec id t cfg data created now : tables m spec -> t_ID t = id -> registered (t_Kind t) = true ->
  openConfig (Some aead) (jsonb (marshal_envelope data)) = Ok cfg ->
  tables (<[id := stamped created now (with_Config (jsonb (marshal_envelope data)) t)]> m)
    (<[id := mkSub (t_Name t) (t_Kind t) cfg (t_EventTypes t) (t_Enabled t)]> spec).
Proof.
  intros [-> Hrows] Hid Hk Ho. split.
  - rewrite fmap_insert. f_equal. unfold abs, opened. cbn. by rewrite Ho.
  - apply map_Forall_insert_2; [|done]. split; [done|]. split; [done|]. eauto.
Qed.

Lemma administer_tables m spec q : tables m spec -> from_option (fun n => str_len n = NonceSize) True (request_nonce q) ->
  tables (administer json_valid (Some aead) m q) (subscribe json_valid spec q).
Proof.
  intros Ht Hn. pose proof Ht as [Hspec Hrows]. destruct q as [uuid nonce now [rq|]|id nonce now [rq|]|id]; cbn -[openConfig sealConfig] in *; try done.
  - unfold CreateNotificationTarget. destruct (validateTargetRequest json_valid rq) eqn:Hv; [|done]. destruct (valid_request _ Hv) as [Hc Hk]. cbn -[sealConfig].
    unfold pg_Create. cbn -[sealConfig]. unfold config_or_empty. apply String.eqb_neq in Hc. rewrite Hc.
    destruct (seal_open nonce (rq_Config rq) Hn) as (data & Hs & Ho). rewrite Hs. cbn.
    rewrite Hspec, lookup_fmap. destruct (m !! uuid) eqn:Hm; cbn; [done|]. unfold kind_check. cbn. fold (registered (rq_Kind rq)). rewrite Hk. cbn. rewrite <- Hspec.
    apply (put_row m spec uuid (mkTarget uuid (rq_Name rq) (rq_Kind rq) (rq_Config rq) _ _ 0 0)); done.
  - unfold UpdateNotificationTarget. cbn -[openConfig sealConfig]. unfold pg_Get. rewrite Hspec, lookup_fmap. destruct (m !! id) as [row|] eqn:Hm; cbn -[openConfig sealConfig]; [|done].
    destruct (Hrows _ _ Hm) as (Hid & Hkind & data0 & plain & _ & Hplain). unfold open_row. rewrite Hplain. cbn -[sealConfig].
    rewrite <- Hspec. destruct (validateTargetRequest json_valid rq) eqn:Hv; [|done]. destruct (valid_request _ Hv) as [Hc Hk]. cbn -[sealConfig].
    unfold pg_Update. cbn -[sealConfig]. unfold config_or_empty. apply String.eqb_neq in Hc. rewrite Hc.
    destruct (seal_open nonce (rq_Config rq) Hn) as (data & Hs & Ho). rewrite Hs. cbn. rewrite Hid, Hm. unfold kind_check. cbn.
    fold (registered (rq_Kind rq)). rewrite Hk. cbn.
    apply (put_row m spec id (mkTarget id (rq_Name rq) (rq_Kind rq) (rq_Config rq) _ _ _ _)); done.
  - unfold UpdateNotificationTarget. cbn -[openConfig]. by destruct (pg_Get _ _ _).
  - unfold pg_Delete. destruct (m !! id) as [row|] eqn:Hm; cbn.
    + split; [by rewrite Hspec, fmap_delete|]. by apply map_Forall_delete.
    + split; [|done]. rewrite Hspec, delete_id; [done|]. by rewrite lookup_fmap, Hm.
Qed.
Lemma open_rows_all l : Forall (fun t => exists id, row_ok id t) l -> open_rows (Some aead) l = Ok ((fun t => with_Config (opened t) t) <$> l).
Proof.
  induction 1 as [|t l (id & _ & _ & _ & plain & _ & Ho) _ IH]; cbn -[openConfig]; [done|]. unfold open_row. rewrite Ho. cbn -[openConfig]. rewrite IH.
  cbn -[openConfig]. unfold opened. by rewrite Ho.
Qed.

Lemma history_tables qs : Forall (fun q => from_option (fun n => str_len n = NonceSize) True (request_nonce q)) qs ->
  tables (foldl (administer json_valid (Some aead)) ∅ qs) (foldl (subscribe json_valid) ∅ qs).
Proof.
  intros Hqs. cut (forall m spec, tables m spec -> tables (foldl (administer json_valid (Some aead)) m qs) (foldl (subscribe json_valid) spec qs)).
  { intros Hc. apply Hc. split; [by rewrite fmap_empty|apply map_Forall_empty]. }
  induction Hqs as [|q qs Hq _ IH]; intros m spec Ht; cbn; [done|]. by apply IH, administer_tables.
Qed.

Definition addressed (t : Target) : string * string * string := (t_ID t, t_Kind t, t_Config t).
Definition subscribed (p : string * subscription) : string * string * string := (p.1, sp_Kind p.2, sp_Config p.2).

(** The enabled rows, opened and filtered, are the subscriptions that want the event. *)
Lemma addressed_rows (l : list (string * Target)) et : Forall (fun p => row_ok p.1 p.2) l ->
  addressed <$> filter (fun t => Matches t et && registered (t_Kind t) = true)
    ((fun t => with_Config (opened t) t) <$> filter (fun t => t_Enabled t = true) l.*2) =
  subscribed <$> filter (fun p => wants p.2 et = true) (prod_map id abs <$> l).
Proof.
  induction 1 as [|[k t] l (Hid & Hk & _) _ IH]; [done|]. cbn [fmap list_fmap prod_map Datatypes.id fst snd] in *.
  assert (Matches (with_Config (opened t) t) et = wants (abs t) et) as Hw by (unfold Matches, wants; cbn; by destruct (t_Enabled t)).
  destruct (wants (abs t) et) eqn:Hwant.
  - assert (t_Enabled t = true) as Hen by (unfold wants in Hwant; cbn in Hwant; by destruct (t_Enabled t)).
    rewrite (filter_cons_True _ t) by done. cbn [fmap list_fmap]. rewrite !filter_cons_True by (cbn; by rewrite ?Hw, ?Hk). cbn [fmap list_fmap].
    rewrite IH. f_equal. unfold addressed, subscribed. cbn. by rewrite Hid.
  - rewrite (filter_cons_False _ (k, abs t)) by (cbn; congruence). rewrite <- IH.
    assert (t_Enabled t = true \/ t_Enabled t = false) as [Hen|Hen] by (destruct (t_Enabled t); auto).
    + rewrite (filter_cons_True _ t) by done. cbn [fmap list_fmap]. by rewrite filter_cons_False by (by rewrite Hw).
    + by rewrite (filter_cons_False _ t) by congruence.
Qed.
End refinement.

(** C22. After any history of the administration's requests, an event is sent to exactly
    the targets that, by the last accepted request on each, are enabled and want it, each
    once, through its channel and with exactly the configuration of that request - although
    the table holds every configuration sealed, and never in the clear.  The failures
    reported are those of the targets whose channel failed. *)
Theorem deliveries_follow_the_requests `{RO : RangeOrder, CC : ConfigColumn, CL : !ColumnLaws} json_valid aead qs send now event :
  Forall (fun q => from_option (fun n => str_len n = NonceSize) True (request_nonce q)) qs ->
  let m := foldl (administer json_valid (Some aead)) ∅ qs in let spec := foldl (subscribe json_valid) ∅ qs in
  (exists to failed, Dispatch (pg_ListEnabled (Some aead) m) send now event = Sent to failed /\
    addressed <$> to ≡ₚ subscribed <$> filter (fun p => wants p.2 (e_Type event) = true) (map_to_list spec) /\
    (forall t, t ∈ failed <-> t ∈ to /\ send t (stamp now event) = false)) /\
  (forall id t, m !! id = Some t -> exists data, t_Config t = jsonb (marshal_envelope data)).
Proof.
  intros Hqs m spec. destruct (history_tables json_valid aead qs Hqs) as [Hspec Hrows]. fold m spec in Hspec, Hrows. split.
  - set (l := by_creation (filter (fun t => t_Enabled t = true) (range_map m).*2)).
    assert (l ≡ₚ filter (fun t => t_Enabled t = true) (map_to_list m).*2) as Hl by (unfold l, by_creation; by rewrite sort_slice_perm, range_map_perm).
    assert (Forall (fun p => row_ok aead p.1 p.2) (map_to_list m)) as Hall by (apply map_Forall_to_list in Hrows; eapply Forall_impl; [exact Hrows|]; by intros []).
    unfold pg_ListEnabled. fold l. rewrite (open_rows_all aead).
    + cbn [Dispatch]. eexists _, _. split; [done|]. split.
      * change (e_Type (stamp now event)) with (e_Type event). rewrite Hl, (addressed_rows aead) by done. by rewrite Hspec, map_to_list_fmap.
      * intros t. rewrite list_elem_of_filter. tauto.
    + rewrite Hl. apply Forall_forall. intros t [_ Ht]%list_elem_of_filter. apply list_elem_of_fmap in Ht as ([k x] & -> & Hx). exists k.
      rewrite Forall_forall in Hall. by apply (Hall _ Hx).
  - intros id t Ht. destruct (Hrows _ _ Ht) as (_ & _ & data & _ & Hd & _). eauto.
Qed.

(** ** Runs and their events *)

(** What is said of a finished run.  [execErr] is what [Execute] returned, and [finalize] of
    the executor made the run's status from the same error. *)
Lemma notified_outcome p (run : PipelineRun) now : run_Status run ∈ [RunStatusCancelled; RunStatusSuccess; RunStatusFailed] ->
  (forall err, e_Type <$> NotifyRunOutcome true (Some p) (Some run) (Some err) now = Some EventRunFailed) /\
  e_Type <$> NotifyRunOutcome true (Some p) (Some run) None now =
    Some (if run_Status run =s RunStatusCancelled then EventRunCancelled else if run_Status run =s RunStatusSuccess then EventRunSucceeded else EventRunFailed).
Proof.
  intros Hst. split; [done|]. rewrite !elem_of_cons in Hst. unfold NotifyRunOutcome. destruct Hst as [->|[->|[->|Hst]]]; [done..|by apply elem_of_nil in Hst].
Qed.

(** ** Mail *)

(** The lines of a text that ends its lines with CR LF. *)
Fixpoint crlf_lines (s : string) : list string :=
  match s with
  | EmptyString => [""]
  | String c rest =>
      match rest with
      | String d rest' =>
          if Ascii.eqb c "013" && Ascii.eqb d "010" then "" :: crlf_lines rest'
          else match crlf_lines rest with x :: l => String c x :: l | [] => [chr c] end
      | EmptyString => [chr c]
      end
  end.

(** The header lines of a message: those before the first empty one. *)
Fixpoint headers_of (lines : list string) : list string := match lines with [] => [] | l :: rest => if l =s "" then [] else l :: headers_of rest end.

Fixpoint no_cr (s : string) : bool := match s with EmptyString => true | String c s => negb (Ascii.eqb c "013") && no_cr s end.

Lemma no_cr_app a b : no_cr (a +:+ b) = no_cr a && no_cr b.
Proof. induction a as [|c a IH]; [done|]. change (String c a +:+ b) with (String c (a +:+ b)). cbn [no_cr]. by rewrite IH, andb_assoc. Qed.

Lemma crlf_lines_cons a rest : no_cr a = true -> crlf_lines (a +:+ crlf +:+ rest) = a :: crlf_lines rest.
Proof.
  induction a as [|c a IH]; intros Ha; [done|]. cbn in Ha. apply andb_true_iff in Ha as [Hc Ha]. apply negb_true_iff in Hc. specialize (IH Ha).
  change (String c a +:+ crlf +:+ rest) with (String c (a +:+ crlf +:+ rest)). destruct a as [|d a]; cbn [crlf_lines].
  - change ("" +:+ crlf +:+ rest) with (String "013" (String "010" rest)) in IH |- *. rewrite Hc. cbn [andb]. by rewrite IH.
  - change (String d a +:+ crlf +:+ rest) with (String d (a +:+ crlf +:+ rest)) in IH |- *. rewrite Hc. cbn [andb]. by rewrite IH.
Qed.

Lemma no_cr_join sep l : no_cr sep = true -> Forall (fun s => no_cr s = true) l -> no_cr (join sep l) = true.
Proof.
  intros Hs Hl. unfold join. induction Hl as [|s l H _ IH]; [done|]. destruct l as [|x l]; [done|].
  change (no_cr (s +:+ sep +:+ String.concat sep (x :: l)) = true). by rewrite !no_cr_app, H, Hs, IH.
Qed.

(** A mail has the four headers the code writes and no other, when its addresses and its
    subject have no carriage return. *)
Lemma mail_headers from to subject body : no_cr from = true -> Forall (fun s => no_cr s = true) to -> no_cr subject = true ->
  headers_of (crlf_lines (buildMessage from to subject body)) =
  ["From: " +:+ from; "To: " +:+ join ", " to; "Subject: " +:+ subject; "Content-Type: text/plain; charset=UTF-8"].
Proof.
  intros Hf Ht Hs. unfold buildMessage.
  rewrite <- (append_assoc "From: "), crlf_lines_cons by exact Hf.
  rewrite <- (append_assoc "To: "), crlf_lines_cons by (by apply (no_cr_join ", ")).
  rewrite <- (append_assoc "Subject: "), crlf_lines_cons by exact Hs.
  rewrite crlf_lines_cons by done. change (crlf +:+ body) with ("" +:+ crlf +:+ body). by rewrite crlf_lines_cons.
Qed.

(** ** A column, and some histories *)

Definition envelope_head : string := "{" +:+ quoted "enc" +:+ ":" +:+ quoted sealedConfigV1 +:+ "," +:+ quoted "data" +:+ ":" +:+ chr "034".
Definition envelope_tail : string := chr "034" +:+ "}".

(** A column that keeps texts as they are, and a reader that knows the envelope as it is
    printed. *)
#[local] Instance toy_column : ConfigColumn := {|
  unmarshal := fun s =>
    if has_prefix envelope_head s then
      let rest := str_drop (str_len envelope_head) s in
      match DecodeString StdEncoding (str_take (str_len rest - str_len envelope_tail) rest) with
      | Some l => Some (sealedConfigV1, string_of_bytes l)
      | None => None
      end
    else None;
  jsonb := fun s => s |}.

Lemma envelope_split data : marshal_envelope data = envelope_head +:+ EncodeToString StdEncoding (bytes_of_string data) +:+ envelope_tail.
Proof. unfold marshal_envelope, envelope_head, envelope_tail, quoted. rewrite !append_assoc. reflexivity. Qed.

Lemma bytes_of_string_byte s : Forall byte (bytes_of_string s).
Proof. unfold bytes_of_string. apply Forall_fmap, Forall_forall. intros c _. unfold byte, byte_of_ascii. cbn. pose proof (nat_ascii_bounded c). lia. Qed.

Lemma string_of_bytes_of_string s : string_of_bytes (bytes_of_string s) = s.
Proof.
  unfold string_of_bytes, bytes_of_string. rewrite <- list_fmap_compose. etransitivity; [|apply String.string_of_list_ascii_of_string]. f_equal.
  etransitivity; [|apply list_fmap_id]. apply list_fmap_ext. intros i c _. unfold compose, ascii_of_byte, byte_of_ascii. cbn. by rewrite Nat2Z.id, ascii_nat_embedding.
Qed.

#[local] Instance toy_column_laws : ColumnLaws.
Proof.
  constructor. intros data. cbn [unmarshal jsonb toy_column]. rewrite envelope_split, has_prefix_app, str_drop_app.
  set (b := EncodeToString StdEncoding (bytes_of_string data)).
  replace (str_len (b +:+ envelope_tail) - str_len envelope_tail) with (str_len b) by (unfold str_len; rewrite length_append; lia).
  rewrite str_take_app. subst b. rewrite base64_roundtrip; [|by left|apply bytes_of_string_byte]. f_equal. f_equal. apply string_of_bytes_of_string.
Qed.

#[local] Existing Instance range_default.

Definition toy_valid (s : string) : bool := has_prefix "{" s.

Definition slack_body (types : list string) : target_request := mkRequest "ops" "slack" "{url}" types None.
Definition email_body : target_request := mkRequest "mail" "email" "{smtp}" [EventRunSucceeded; EventCanaryAborted] (Some false).

(** Two targets are made, the second is switched on, a third is made and deleted. *)
Definition demo_history : list admin_request := [
  ACreate "t1" "n" 10 (Some (slack_body []));
  ACreate "t2" "n" 20 (Some email_body);
  AUpdate "t2" "n" 30 (Some (mkRequest "mail" "email" "{smtp2}" [EventRunFailed] (Some true)));
  ACreate "t3" "n" 40 (Some (slack_body []));
  ADelete "t3"].

Definition demo_event (et : string) : Event := mkEvent et "p1" "ci" "r1" "" "" "" "" "" "" None.

Lemma deliveries_follow_the_requests_witness :
  exists to failed,
    Dispatch (pg_ListEnabled (Some toy_aead) (foldl (administer toy_valid (Some toy_aead)) ∅ demo_history)) (fun _ _ => true) 50 (demo_event EventRunFailed) = Sent to failed /\
    addressed <$> to ≡ₚ [("t1", "slack", "{url}"); ("t2", "email", "{smtp2}")].
Proof.
  destruct (deliveries_follow_the_requests toy_valid toy_aead demo_history (fun _ _ => true) 50 (demo_event EventRunFailed)) as [(to & failed & Hd & Hto & _) _].
  - repeat constructor.
  - exists to, failed. split; [exact Hd|]. rewrite Hto. vm_compute. first [reflexivity|apply perm_swap].
Defined.

(** ** What the code does otherwise than it says *)

(** A cancelled run whose runner returned an error, as it does when its context is
    cancelled, is reported failed. *)
Lemma cancelled_run_is_reported_failed `{LoopFSMLaws} p r err sc now : run_Status r = RunStatusCancelled ->
  let r' := (finalize r (Some err) sc now).2 in
  run_Status r' = RunStatusCancelled /\ e_Type <$> NotifyRunOutcome true (Some p) (Some r') (Some (re_msg err)) now = Some EventRunFailed.
Proof. intros Hst r'. split; [by apply finalize_cancelled|done]. Qed.

(** An update that names no events, say to rename the target, subscribes it to all. *)
Example update_widens :
  let m := administer toy_valid (Some toy_aead) ∅ (ACreate "t1" "n" 10 (Some (slack_body []))) in
  let m' := administer toy_valid (Some toy_aead) m (AUpdate "t1" "n" 20 (Some (slack_body []))) in
  (fun t => Matches t EventRunSucceeded) <$> m !! "t1" = Some false /\ (fun t => Matches t EventRunSucceeded) <$> m' !! "t1" = Some true.
Proof. split; vm_compute; reflexivity. Qed.

(** The set a new target gets has no aborted rollout in it. *)
Example aborted_rollouts_are_silent :
  let m := administer toy_valid (Some toy_aead) ∅ (ACreate "t1" "n" 10 (Some (slack_body []))) in
  (fun t => Matches t EventCanaryAborted) <$> m !! "t1" = Some false.
Proof. vm_compute. reflexivity. Qed.

(** One row that does not open, sealed under an earlier key or unsealed by hand, and no
    target is notified of anything. *)
Example one_bad_row_silences_all :
  let good := foldl (administer toy_valid (Some toy_aead)) ∅ [ACreate "t1" "n" 10 (Some (slack_body []))] in
  let bad := mkTarget "t0" "old" "slack" (marshal_envelope "?") [] true 5 5 in
  Dispatch (pg_ListEnabled (Some toy_aead) (<["t0" := bad]> good)) (fun _ _ => true) 50 (demo_event EventRunFailed) = NotListed OpenFailed.
Proof. vm_compute. reflexivity. Qed.

(** Without a key, a config that looks like an envelope is accepted and never read again. *)
Example envelope_without_key :
  let m := (CreateNotificationTarget toy_valid (Some (postgres_store None)) "n" 10 ∅ "t1" (Some (mkRequest "ops" "webhook" (marshal_envelope "x") [] None))).1 in
  is_Some (m !! "t1") /\ GetNotificationTarget (Some (postgres_store None)) m "t1" = AdminError 500.
Proof. split; [eexists|]; vm_compute; reflexivity. Qed.

(** A pipeline's name may hold a line break, and the subject takes it as it is: the mail
    gets a header of the name's choosing. *)
Definition crafted_name : string := "ci" +:+ crlf +:+ "Bcc: all@example.org".

Example crafted_pipeline_name :
  Validate.Name "name" crafted_name = None /\
  let e := mkEvent EventBuildFailed "p1" crafted_name "r1" "" "" "" "" "" "" None in
  headers_of (crlf_lines (buildMessage "cooker@example.org" ["ops@example.org"] (Title e) (Body e))) =
  ["From: cooker@example.org"; "To: ops@example.org"; "Subject: 🔨 Build failed: ci"; "Bcc: all@example.org"; "Content-Type: text/plain; charset=UTF-8"].
Proof. split; vm_compute; reflexivity. Qed.

(** The texts. *)
Example failed_run_texts :
  let e := mkEvent EventRunFailed "p1" "ci" "r7" "" "" "" "failed" "exit 1" "https://cooker/runs/r7" None in
  Title e = "❌ Run failed: ci" /\
  Body e = "Pipeline ci (run r7) failed." +:+ chr "010" +:+ "Error: exit 1" +:+ chr "010" +:+ "Details: https://cooker/runs/r7".
Proof. split; vm_compute; reflexivity. Qed.
