(* ===== verification/Router.v ===== *)
(** * The router

    server/router.go, and the part of server/server.go that sets it up: the table of routes
    with the middlewares in front of each handler, and how a request goes through them.  The
    middlewares are those of the other files, on one server; the handlers, which the other
    files model, are an argument here. *)

From Stdlib Require Import Ascii.
From S2P Require Import Prelude GoStr GoDuration Webhook Governance Config Authn Idempotency RateLimit ApiToken WsTicket AuditTrail Auth.
Local Open Scope Z_scope.

(** ** Routes *)

Inductive middleware :=
| Authentication | AuditEvents | Roles (roles : list string) | MFA | Permitted (resource action : string)
| Expensive | LocalAuthLimit | WebhookLimit | Idempotent | Governed | TicketGate.

#[export] Instance middleware_eq_dec : EqDecision middleware.
Proof. solve_decision. Defined.

(** [rt_Handler] is the name of the handler's method. *)
Record route := mkRoute { rt_Method : string; rt_Path : string; rt_Chain : list middleware; rt_Handler : string }.

#[export] Instance route_eq_dec : EqDecision route.
Proof. solve_decision. Defined.

Definition GET : string -> list middleware -> string -> route := mkRoute "GET".
Definition HEAD : string -> list middleware -> string -> route := mkRoute "HEAD".
Definition POST : string -> list middleware -> string -> route := mkRoute "POST".
Definition PUT : string -> list middleware -> string -> route := mkRoute "PUT".
Definition DELETE : string -> list middleware -> string -> route := mkRoute "DELETE".

Definition writeRole : middleware := Roles [RoleOperator; RoleAdmin].
Definition adminRole : middleware := Roles [RoleAdmin].
Definition mfa : middleware := MFA.

(** The router's groups: a common prefix, and middlewares that come first. *)
Definition Group (prefix : string) (chain : list middleware) (routes : list route) : list route :=
  (fun r => mkRoute (rt_Method r) (prefix +:+ rt_Path r) (chain ++ rt_Chain r) (rt_Handler r)) <$> routes.

Definition pipelines : list route := [
  GET "" [] "ListPipelines";
  POST "" [writeRole] "CreatePipeline";
  POST "/import" [writeRole] "ImportPipeline";
  GET "/:id" [] "GetPipeline";
  GET "/:id/export" [] "ExportPipeline";
  PUT "/:id" [writeRole] "UpdatePipeline";
  DELETE "/:id" [adminRole; mfa] "DeletePipeline";
  POST "/:id/validate" [] "ValidatePipeline";
  POST "/:id/run" [writeRole; Permitted ResourcePipeline ActionInvoke; Expensive; Idempotent] "RunPipeline";
  GET "/:id/runs" [] "ListPipelineRuns";
  GET "/:id/runs/:runId" [] "GetPipelineRun";
  POST "/:id/runs/:runId/cancel" [writeRole] "CancelPipelineRun";
  GET "/:id/runs/:runId/logs/:stageId" [] "GetStageLogs";
  GET "/:id/runs/:runId/diff" [] "GetRunDiff";
  POST "/:id/runs/:runId/stages/:stageId/triage" [writeRole; Expensive] "TriageStage";
  GET "/:id/analytics" [] "GetPipelineAnalytics";
  POST "/from-template/:id" [writeRole] "CreatePipelineFromTemplate"].

Definition templates : list route := [
  GET "" [] "ListTemplates";
  GET "/:id" [] "GetTemplate"].

Definition adminTemplates : list route := [
  POST "" [] "CreateTemplate";
  PUT "/:id" [] "UpdateTemplate";
  DELETE "/:id" [] "DeleteTemplate"].

Definition adminSchedules : list route := [
  GET "" [] "ListSchedules";
  GET "/:id" [] "GetSchedule";
  POST "" [] "CreateSchedule";
  PUT "/:id" [] "UpdateSchedule";
  DELETE "/:id" [] "DeleteSchedule"].

Definition adminNotificationTargets : list route := [
  GET "" [] "ListNotificationTargets";
  GET "/:id" [] "GetNotificationTarget";
  POST "" [] "CreateNotificationTarget";
  PUT "/:id" [] "UpdateNotificationTarget";
  DELETE "/:id" [] "DeleteNotificationTarget"].

Definition docker : list route := [
  GET "/images" [] "ListDockerImages";
  GET "/images/:id" [] "GetDockerImage";
  POST "/images/build" [writeRole; Expensive] "BuildDockerImage";
  DELETE "/images/:id" [adminRole] "DeleteDockerImage";
  GET "/containers" [] "ListContainers";
  POST "/containers" [writeRole] "CreateContainer";
  POST "/containers/:id/stop" [writeRole] "StopContainer";
  DELETE "/containers/:id" [adminRole] "DeleteContainer";
  GET "/containers/:id/logs" [] "GetContainerLogs";
  POST "/compose/parse" [] "ParseComposeFile";
  PUT "/compose/services/:name" [writeRole] "UpdateComposeService";
  GET "/networks" [] "ListDockerNetworks";
  POST "/networks" [writeRole] "CreateDockerNetwork";
  GET "/networks/:id" [] "GetDockerNetwork";
  DELETE "/networks/:id" [adminRole] "DeleteDockerNetwork";
  POST "/networks/:id/connect" [writeRole] "ConnectContainerToNetwork";
  GET "/volumes" [] "ListDockerVolumes";
  POST "/volumes" [writeRole] "CreateDockerVolume";
  GET "/volumes/:name" [] "GetDockerVolume";
  DELETE "/volumes/:name" [adminRole] "DeleteDockerVolume"].

Definition registry : list route := [
  GET "/repositories" [] "ListRepositories";
  GET "/:name/tags" [] "ListTags";
  GET "/:name/manifests/:ref" [] "GetManifest";
  POST "/push" [writeRole] "PushImage";
  POST "/pull" [writeRole] "PullImage";
  GET "/:name/referrers/:digest" [] "GetReferrers"].

Definition kubernetes : list route := [
  GET "/namespaces" [writeRole] "ListNamespaces";
  GET "/workloads" [writeRole] "ListWorkloads";
  GET "/workloads/:ns/:kind/:name" [writeRole] "GetWorkload";
  GET "/pods/:ns/:name/logs" [writeRole] "GetPodLogs";
  POST "/workloads/:ns/:kind/:name/scale" [writeRole] "ScaleWorkload";
  POST "/workloads/:ns/:kind/:name/restart" [writeRole] "RestartWorkload";
  POST "/apply" [writeRole] "ApplyManifest";
  DELETE "/:ns/:kind/:name" [adminRole] "DeleteResource"].

Definition cloud : list route := [
  GET "/inventory" [] "GetCloudInventory";
  GET "/costs" [] "GetCloudCosts";
  POST "/refresh" [writeRole; Expensive] "RefreshCloud"].

Definition environments : list route := [
  GET "" [] "ListEnvironments";
  POST "" [writeRole] "CreateEnvironment";
  PUT "/:id" [writeRole] "UpdateEnvironment";
  DELETE "/:id" [adminRole; mfa] "DeleteEnvironment";
  GET "/:id/secrets/:key" [adminRole; mfa; Permitted ResourceSecret ActionReveal] "RevealSecret";
  PUT "/:id/secrets/:key" [adminRole; mfa] "PutSecret";
  DELETE "/:id/secrets/:key" [adminRole; mfa] "DeleteSecret";
  POST "/:id/secrets/promote" [adminRole; mfa] "PromoteSecrets"].

Definition apps : list route := [
  GET "" [] "ListApps";
  POST "" [writeRole] "CreateApp";
  POST "/detect-build" [writeRole; Expensive] "DetectAppBuild";
  POST "/inspect" [writeRole; Expensive] "InspectAppRepository";
  GET "/deployment-capabilities" [writeRole] "AppDeploymentCapabilities";
  GET "/github/connection" [writeRole; Expensive] "GitHubConnection";
  GET "/github/repositories" [writeRole; Expensive] "GitHubRepositories";
  GET "/github/revisions" [writeRole; Expensive] "GitHubRevisions";
  GET "/:id" [] "GetApp";
  PUT "/:id" [writeRole] "UpdateApp";
  DELETE "/:id" [adminRole; mfa] "DeleteApp";
  POST "/:id/deploy" [writeRole; Expensive; Idempotent; Governed] "DeployApp";
  GET "/:id/deploys" [] "ListAppDeploys";
  POST "/:id/rollback" [writeRole; Expensive; Idempotent; Governed] "RollbackApp";
  GET "/:id/drift" [writeRole] "GetAppDrift";
  GET "/:id/canary" [] "GetAppCanary";
  POST "/:id/canary/promote" [writeRole; Governed] "PromoteAppCanary";
  POST "/:id/canary/abort" [writeRole] "AbortAppCanary";
  PUT "/:id/webhook" [adminRole; mfa; Permitted ResourceWebhook ActionUpdate] "SetAppWebhookSecret";
  GET "/:id/services/:svc/runtime" [] "GetServiceRuntime"].

Definition hosts : list route := [
  GET "" [] "ListHosts";
  POST "" [writeRole] "CreateHost";
  GET "/:id" [] "GetHost";
  PUT "/:id" [writeRole] "UpdateHost";
  DELETE "/:id" [adminRole; mfa] "DeleteHost"].

Definition tokens : list route := [
  POST "" [] "CreateAPIToken";
  GET "" [] "ListAPITokens";
  DELETE "/:id" [] "DeleteAPIToken"].

Definition license : list route := [
  GET "" [] "GetLicense";
  POST "" [adminRole] "InstallLicense";
  DELETE "" [adminRole] "DeleteLicense"].

Definition settings : list route := [
  GET "/registries" [] "ListRegistryConfigs";
  POST "/registries" [adminRole] "AddRegistryConfig";
  DELETE "/registries/:id" [adminRole] "DeleteRegistryConfig";
  GET "/clusters" [] "ListClusterConfigs";
  POST "/clusters" [adminRole] "AddClusterConfig";
  DELETE "/clusters/:id" [adminRole] "DeleteClusterConfig";
  POST "/secrets/test" [adminRole; mfa] "TestSecretsBackend"].

(** Those of [api] itself but [/auth/local/me]. *)
Definition api_own : list route := [
  GET "/capabilities" [] "GetCapabilities";
  POST "/pipelines/:id/runs/:runId/promote" [writeRole] "PromoteRun";
  POST "/pipelines/:id/runs/:runId/approve" [] "ApprovePromotion";
  GET "/pipelines/:id/runs/:runId/env-status" [] "GetEnvStatus";
  GET "/pipelines/:id/runs/:runId/stage-approvals" [] "ListStageApprovals";
  POST "/pipelines/:id/runs/:runId/stages/:stageId/approve" [] "ApproveStage";
  POST "/pipelines/:id/runs/:runId/stages/:stageId/reject" [] "RejectStage";
  POST "/feedback" [Expensive] "SubmitFeedback";
  POST "/ws-tickets" [] "issueWSTicket"].

Definition local_auth_routes : list route := [
  POST "/api/v1/auth/local/signup" [LocalAuthLimit] "Signup";
  POST "/api/v1/auth/local/signin" [LocalAuthLimit] "Signin"].

Definition webhook_routes : list route := [
  POST "/webhooks/github" [WebhookLimit; Idempotent] "GitHubWebhook";
  POST "/webhooks/gitlab" [WebhookLimit; Idempotent] "GitLabWebhook";
  POST "/webhooks/bitbucket" [WebhookLimit; Idempotent] "BitbucketWebhook";
  POST "/webhooks/gitea" [WebhookLimit; Idempotent] "GiteaWebhook"].

Definition ws : list route := [
  GET "/pipeline-run/:runId" [] "HandlePipelineRun";
  GET "/app-run/:runId" [] "handleConnection";
  GET "/docker/build/:buildId" [] "HandleDockerBuild";
  GET "/runs/:runId/stages/:stageId/logs" [] "HandleStageLogs";
  GET "/runtime/:appId/:serviceId/logs" [] "HandleRuntimeLogs";
  GET "/kubernetes/watch" [] "HandleKubeWatch"].

Definition static_routes : list route := [
  GET "/.well-known/security.txt" [] "securityTxtHandler";
  GET "/assets/*filepath" [] "assetsHandler";
  HEAD "/assets/*filepath" [] "assetsHandler"].

Definition admin : list route :=
  Group "/admin" [adminRole; mfa]
    (Group "/templates" [] adminTemplates ++ Group "/schedules" [] adminSchedules ++
     Group "/notification-targets" [] adminNotificationTargets ++ [GET "/audit" [] "ListAuditEvents"]).

Definition api (localAuth : bool) : list route :=
  api_own ++ Group "/pipelines" [] pipelines ++ Group "/templates" [] templates ++ admin ++ Group "/docker" [] docker ++
  Group "/registry" [] registry ++ Group "/kubernetes" [] kubernetes ++ Group "/cloud" [] cloud ++
  Group "/environments" [] environments ++ Group "/apps" [] apps ++ Group "/hosts" [] hosts ++
  (if localAuth then [GET "/auth/local/me" [] "Me"] else []) ++
  Group "/tokens" [] tokens ++ Group "/license" [] license ++ Group "/settings" [] settings.

Definition registerRoutes (localAuth : bool) : list route :=
  (if localAuth then local_auth_routes else []) ++ [GET "/api/v1/auth/methods" [] "authMethods"] ++
  Group "/api/v1" [Authentication; AuditEvents] (api localAuth) ++ webhook_routes ++ Group "/ws" [TicketGate] ws ++ static_routes.

(** The routes that [New] registers itself. *)
Definition new_routes (metrics : bool) : list route :=
  (if metrics then [GET "/metrics" [] "MetricsHandler"] else []) ++
  [GET "/health" [] "livenessHandler"; GET "/health/live" [] "livenessHandler"; GET "/health/ready" [] "readinessHandler";
   GET "/version" [] "versionHandler"].

Definition routes_of (localAuth metrics : bool) : list route := new_routes metrics ++ registerRoutes localAuth.

Definition routes (cfg : Config) : list route :=
  routes_of (la_Enabled (c_LocalAuth cfg))
    (obs_MetricsEnabled (c_Observability cfg) && (obs_MetricsPort (c_Observability cfg) =? 0)).

(** ** The third-party router

    [find] finds the route of a request and the values of its parameters.  Only what the
    router documents is used: the route is of the table and its pattern covers the path. *)

Fixpoint covers (pattern path : list string) : bool :=
  match pattern, path with
  | [], [] => true
  | p :: pattern, s :: path => if has_prefix "*" p then true else (has_prefix ":" p || (p =s s)) && covers pattern path
  | _, _ => false
  end.

Definition covers_path (pattern path : string) : bool := covers (split_on "/" pattern) (split_on "/" path).

Class Mux := {
  find : list route -> string -> string -> option (route * gmap string string);
  find_sound table method path r ps : find table method path = Some (r, ps) ->
    r ∈ table /\ rt_Method r = method /\ covers_path (rt_Path r) path = true
}.

(** ** Requests *)

Record request := mkRequest {
  q_Method : string; q_Path : string; q_Authorization : string; q_Origin : string; q_IdempotencyKey : string; q_GitHubDelivery : string;
  q_BreakGlass : string; q_XRequestID : string; q_ticket : string; q_ClientIP : string
}.

(** What the surroundings answer: the clock before the handlers and after them, the
    identity of the request's goroutine, the OIDC provider, the gate, and Redis. *)
Record surroundings V := mkSurroundings {
  u_now : Z; u_after : Z; u_id : nat; u_discovery : discovery V; u_gate : authorizeRequest -> Governance.reply;
  u_allow : string -> Z -> Z -> option (Z * Z)
}.
Arguments mkSurroundings {V}.
Arguments u_now {V}.
Arguments u_after {V}.
Arguments u_id {V}.
Arguments u_discovery {V}.
Arguments u_gate {V}.
Arguments u_allow {V}.

(** What comes of a route's chain.  A handler answers with a status and a body, or panics;
    [claims] is the identity it saw. *)
Inductive outcome :=
| Ran (claims : option Claims) (answer : option (Z * string))
| Stopped (status : Z)
| Replayed (e : Entry).

Inductive response := Preflight | Index | Routed (r : route) (o : outcome).

Definition chain_end_of (o : outcome) : chain_end :=
  match o with
  | Ran _ None => Panicked
  | Ran _ (Some (status, _)) => Responded status
  | Stopped status => Responded status
  | Replayed e => Responded (e_Status e)
  end.

(** The key [idempotencyMiddleware] reads. *)
Definition idem_key (q : request) : string := if q_IdempotencyKey q =s "" then q_GitHubDelivery q else q_IdempotencyKey q.

(** What [captureWriter] has seen that is worth keeping.  What the inner middlewares answer
    themselves is never a success. *)
Definition captured (o : outcome) : option Entry :=
  match o with
  | Ran _ (Some (status, body)) =>
      if (200 <=? status) && (status <? 300) && (0 <? str_len body) then Some (mkEntry status body) else None
  | _ => None
  end.

(** ** The server *)

Section server.
Context {V L D : Type} `{JWT} `{RO : RangeOrder} `{TokenBucket L} `{Mux}.

(** [sv_data] is what the handlers keep besides the tokens and the tickets. *)
Record server := mkServer {
  sv_auth : Middleware V; sv_limiter : rateLimiter L; sv_localLimiter : rateLimiter L; sv_webhookLimiter : rateLimiter L;
  sv_idem : Memory; sv_audit : list Event; sv_tokens : world; sv_tickets : wsTicketStore; sv_data : D
}.

Definition set_auth (m : Middleware V) (w : world) (s : server) : server :=
  mkServer m (sv_limiter s) (sv_localLimiter s) (sv_webhookLimiter s) (sv_idem s) (sv_audit s) w (sv_tickets s) (sv_data s).
Definition set_limiter (rl : rateLimiter L) (s : server) : server :=
  mkServer (sv_auth s) rl (sv_localLimiter s) (sv_webhookLimiter s) (sv_idem s) (sv_audit s) (sv_tokens s) (sv_tickets s) (sv_data s).
Definition set_localLimiter (rl : rateLimiter L) (s : server) : server :=
  mkServer (sv_auth s) (sv_limiter s) rl (sv_webhookLimiter s) (sv_idem s) (sv_audit s) (sv_tokens s) (sv_tickets s) (sv_data s).
Definition set_webhookLimiter (rl : rateLimiter L) (s : server) : server :=
  mkServer (sv_auth s) (sv_limiter s) (sv_localLimiter s) rl (sv_idem s) (sv_audit s) (sv_tokens s) (sv_tickets s) (sv_data s).
Definition set_idem (m : Memory) (s : server) : server :=
  mkServer (sv_auth s) (sv_limiter s) (sv_localLimiter s) (sv_webhookLimiter s) m (sv_audit s) (sv_tokens s) (sv_tickets s) (sv_data s).
Definition set_audit (l : list Event) (s : server) : server :=
  mkServer (sv_auth s) (sv_limiter s) (sv_localLimiter s) (sv_webhookLimiter s) (sv_idem s) l (sv_tokens s) (sv_tickets s) (sv_data s).
Definition set_kept (k : world * wsTicketStore * D) (s : server) : server :=
  mkServer (sv_auth s) (sv_limiter s) (sv_localLimiter s) (sv_webhookLimiter s) (sv_idem s) (sv_audit s) k.1.1 k.1.2 k.2.
Definition kept (s : server) : world * wsTicketStore * D := (sv_tokens s, sv_tickets s, sv_data s).

(** The settings; the verifier of the provider's tokens; URLs; the governance client and its
    view of the tables; the handlers. *)
Context (cfg : Config) (oidc_verify : V -> Z -> string -> option (option oidc_claims)).
Context (url_ok : string -> bool) (governance : option Client) (rows : D -> lookups).
Context (handle : string -> request -> gmap string string -> option Claims -> world * wsTicketStore * D ->
  (world * wsTicketStore * D) * option (Z * string)).

(** [expensive]: off, on Redis, or in memory.  A Redis backend has its client. *)
Definition expensive (u : surroundings V) (q : request) (claims : option Claims) (s : server) : RateLimit.verdict * server :=
  let subject := cl_Subject <$> claims in
  if negb (rl_Enabled (c_RateLimit cfg)) then (RateLimit.Next, s)
  else if rl_Backend (c_RateLimit cfg) =s "redis" then
    (redis_middleware (u_allow u) (rl_PerMinute (c_RateLimit cfg)) (rl_Burst (c_RateLimit cfg)) subject (q_ClientIP q), s)
  else let '(v, rl) := RateLimit.middleware (sv_limiter s) (u_now u) (u_id u) subject (q_ClientIP q) in (v, set_limiter rl s).

Definition localAuthLimit (u : surroundings V) (q : request) (s : server) : RateLimit.verdict * server :=
  let '(v, rl) := localAuthMiddleware (sv_localLimiter s) (u_now u) (u_id u) (q_ClientIP q) in (v, set_localLimiter rl s).

Definition webhookLimit (u : surroundings V) (q : request) (s : server) : RateLimit.verdict * server :=
  if negb (wr_Enabled (rl_Webhook (c_RateLimit cfg))) then (RateLimit.Next, s) else
  let '(v, rl) := webhookMiddleware (sv_webhookLimiter s) (u_now u) (u_id u) (q_ClientIP q) in (v, set_webhookLimiter rl s).

(** The request as the deploy gate reads it. *)
Definition governed_request (q : request) (ps : gmap string string) : http_request :=
  mkHTTP (default "" (ps !! "id")) (q_Authorization q) (q_BreakGlass q) (q_XRequestID q) None "".

Definition on_verdict {S} (v : Auth.verdict) (s : S) (next : S -> S * outcome) : S * outcome :=
  match v with Auth.Next => next s | Auth.Unauthorized => (s, Stopped 401) | Auth.Forbidden => (s, Stopped 403) end.

Definition on_limit {S} (v : RateLimit.verdict) (s : S) (next : S -> S * outcome) : S * outcome :=
  match v with RateLimit.Next => next s | TooManyRequests _ => (s, Stopped 429) end.

(** The middlewares, the handler last, and back. *)
Fixpoint run (r : route) (q : request) (ps : gmap string string) (u : surroundings V) (chain : list middleware) (claims : option Claims)
    (s : server) : server * outcome :=
  match chain with
  | [] => let '(k, answer) := handle (rt_Handler r) q ps claims (kept s) in (set_kept k s, Ran claims answer)
  | mw :: chain =>
      let next := run r q ps u chain in
      match mw with
      | Authentication =>
          match Authn.Handler oidc_verify (sv_auth s) (sv_tokens s) (u_now u) (u_discovery u) (q_Authorization q) with
          | (Authenticated c, m, w) => next (Some c) (set_auth m w s)
          | (Refused status _, m, w) => (set_auth m w s, Stopped status)
          end
      | AuditEvents =>
          let '(s, o) := next claims s in
          if negb (au_Enabled (c_Audit cfg)) then (s, o) else
          let event := auditMiddleware (mkAudited (u_now u) (u_after u - u_now u) (q_Method q) (rt_Path r) claims (q_ClientIP q) (chain_end_of o)) in
          (set_audit (sv_audit s ++ option_list event) s, o)
      | Roles roles => on_verdict (RequireRole roles claims) s (next claims)
      | MFA => on_verdict (RequireMFA (oi_MFAACRValues (c_OIDC cfg)) claims) s (next claims)
      | Permitted resource action => on_verdict (RequirePermission resource action claims) s (next claims)
      | Expensive => let '(v, s) := expensive u q claims s in on_limit v s (next claims)
      | LocalAuthLimit => let '(v, s) := localAuthLimit u q s in on_limit v s (next claims)
      | WebhookLimit => let '(v, s) := webhookLimit u q s in on_limit v s (next claims)
      | Idempotent =>
          let key := idem_key q in
          if key =s "" then next claims s else
          match Idempotency.Get (sv_idem s) (u_now u) key with
          | Some e => (s, Replayed e)
          | None =>
              let '(s, o) := next claims s in
              (match captured o with Some e => set_idem (Set_ (sv_idem s) (u_after u) key e idempotencyTTL) s | None => s end, o)
          end
      | Governed =>
          match RequireGovernanceAllow url_ok (u_gate u) governance (rows (sv_data s)) (gov_BreakGlassEnabled (c_Governance cfg)) (governed_request q ps) with
          | Err e => (s, Stopped (Governance.status e))
          | Ok _ => next claims s
          end
      | TicketGate =>
          let '(t, v) := wsTicketGate (sv_tickets s) (u_now u) (q_ticket q) (q_Path q) in
          on_verdict v (set_kept (sv_tokens s, t, sv_data s) s) (next claims)
      end
  end.

(** The server's answer to a request: the headers' middlewares, the route's chain, or the
    page of the front end. *)
Definition serve (q : request) (u : surroundings V) (s : server) : server * response :=
  if (corsMiddleware (c_AllowedOrigins cfg) (q_Method q) (q_Origin q)).2 then (s, Preflight) else
  match find (routes cfg) (q_Method q) (q_Path q) with
  | None => (s, Index)
  | Some (r, ps) => let '(s, o) := run r q ps u (rt_Chain r) None s in (s, Routed r o)
  end.
End server.

Arguments server : clear implicits.

(** ** The policy

    What the handlers of the table ask of their callers, said without the chains. *)

(** Handlers for callers without credentials, or with credentials of their own. *)
Definition public_handlers : list string := [
  "Signup"; "Signin"; "authMethods"; "GitHubWebhook"; "GitLabWebhook"; "BitbucketWebhook"; "GiteaWebhook";
  "securityTxtHandler"; "assetsHandler"; "MetricsHandler"; "livenessHandler"; "readinessHandler"; "versionHandler"].

(** Handlers of other methods than GET that change nothing of others', or decide on the
    caller themselves. *)
Definition self_authorizing : list string := [
  "ApprovePromotion"; "ApproveStage"; "RejectStage"; "CreateAPIToken"; "DeleteAPIToken";
  "ValidatePipeline"; "ParseComposeFile"; "SubmitFeedback"; "issueWSTicket"].

(** Handlers that ask for a second factor, besides those under [/admin]. *)
Definition stepped_up : list string := [
  "DeletePipeline"; "DeleteApp"; "DeleteEnvironment"; "DeleteHost"; "RevealSecret"; "PutSecret"; "DeleteSecret"; "PromoteSecrets";
  "SetAppWebhookSecret"; "TestSecretsBackend"].

Definition is_admin (c : Claims) : Prop := RoleAdmin ∈ cl_Roles c.
Definition is_writer (c : Claims) : Prop := RoleOperator ∈ cl_Roles c \/ is_admin c.

Definition second_factor (cfg : Config) (c : Claims) : Prop := RequireMFA (oi_MFAACRValues (c_OIDC cfg)) (Some c) = Auth.Next.

Definition authorized (cfg : Config) (r : route) (c : Claims) : Prop :=
  (isMutating (rt_Method r) = true -> rt_Handler r ∈ self_authorizing \/ is_writer c) /\
  (rt_Method r = "DELETE" -> rt_Handler r = "DeleteAPIToken" \/ is_admin c) /\
  (rt_Handler r ∈ stepped_up \/ has_prefix "/api/v1/admin/" (rt_Path r) = true -> is_admin c /\ second_factor cfg c).

(** The roles docs/user-guide/reference/api.md gives for a route. *)
Inductive access := Public | Anyone | Operators | Admins | AdminsMFA.

Definition grants (cfg : Config) (a : access) (claims : option Claims) : Prop :=
  match a with
  | Public => True
  | Anyone => is_Some claims
  | Operators => exists c, claims = Some c /\ is_writer c
  | Admins => exists c, claims = Some c /\ is_admin c
  | AdminsMFA => exists c, claims = Some c /\ is_admin c /\ second_factor cfg c
  end.

(** Its tables, but for the reads of the cluster, which the code keeps from viewers, for the
    approval of a promotion, which the handler decides, and for the webhooks. *)
Definition documented : list (string * string * access) := [
  ("GET", "/api/v1/pipelines", Anyone);
  ("POST", "/api/v1/pipelines", Operators);
  ("GET", "/api/v1/pipelines/:id", Anyone);
  ("PUT", "/api/v1/pipelines/:id", Operators);
  ("DELETE", "/api/v1/pipelines/:id", AdminsMFA);
  ("POST", "/api/v1/pipelines/:id/validate", Anyone);
  ("POST", "/api/v1/pipelines/:id/run", Operators);
  ("GET", "/api/v1/pipelines/:id/runs", Anyone);
  ("GET", "/api/v1/pipelines/:id/runs/:runId", Anyone);
  ("POST", "/api/v1/pipelines/:id/runs/:runId/cancel", Operators);
  ("GET", "/api/v1/pipelines/:id/runs/:runId/logs/:stageId", Anyone);
  ("POST", "/api/v1/pipelines/:id/runs/:runId/promote", Operators);
  ("GET", "/api/v1/pipelines/:id/runs/:runId/env-status", Anyone);
  ("GET", "/api/v1/apps", Anyone);
  ("POST", "/api/v1/apps", Operators);
  ("GET", "/api/v1/apps/:id", Anyone);
  ("PUT", "/api/v1/apps/:id", Operators);
  ("DELETE", "/api/v1/apps/:id", AdminsMFA);
  ("POST", "/api/v1/apps/:id/deploy", Operators);
  ("PUT", "/api/v1/apps/:id/webhook", AdminsMFA);
  ("GET", "/api/v1/environments", Anyone);
  ("POST", "/api/v1/environments", Operators);
  ("PUT", "/api/v1/environments/:id", Operators);
  ("DELETE", "/api/v1/environments/:id", AdminsMFA);
  ("GET", "/api/v1/environments/:id/secrets/:key", AdminsMFA);
  ("PUT", "/api/v1/environments/:id/secrets/:key", AdminsMFA);
  ("DELETE", "/api/v1/environments/:id/secrets/:key", AdminsMFA);
  ("POST", "/api/v1/environments/:id/secrets/promote", AdminsMFA);
  ("GET", "/api/v1/hosts", Anyone);
  ("POST", "/api/v1/hosts", Operators);
  ("GET", "/api/v1/hosts/:id", Anyone);
  ("PUT", "/api/v1/hosts/:id", Operators);
  ("DELETE", "/api/v1/hosts/:id", AdminsMFA);
  ("GET", "/api/v1/docker/images", Anyone);
  ("GET", "/api/v1/docker/images/:id", Anyone);
  ("POST", "/api/v1/docker/images/build", Operators);
  ("DELETE", "/api/v1/docker/images/:id", Admins);
  ("GET", "/api/v1/docker/containers", Anyone);
  ("POST", "/api/v1/docker/containers", Operators);
  ("POST", "/api/v1/docker/containers/:id/stop", Operators);
  ("DELETE", "/api/v1/docker/containers/:id", Admins);
  ("GET", "/api/v1/docker/containers/:id/logs", Anyone);
  ("POST", "/api/v1/docker/compose/parse", Anyone);
  ("PUT", "/api/v1/docker/compose/services/:name", Operators);
  ("GET", "/api/v1/registry/repositories", Anyone);
  ("GET", "/api/v1/registry/:name/tags", Anyone);
  ("GET", "/api/v1/registry/:name/manifests/:ref", Anyone);
  ("POST", "/api/v1/registry/push", Operators);
  ("POST", "/api/v1/registry/pull", Operators);
  ("GET", "/api/v1/registry/:name/referrers/:digest", Anyone);
  ("POST", "/api/v1/kubernetes/workloads/:ns/:kind/:name/scale", Operators);
  ("POST", "/api/v1/kubernetes/workloads/:ns/:kind/:name/restart", Operators);
  ("POST", "/api/v1/kubernetes/apply", Operators);
  ("DELETE", "/api/v1/kubernetes/:ns/:kind/:name", Admins);
  ("GET", "/api/v1/settings/registries", Anyone);
  ("POST", "/api/v1/settings/registries", Admins);
  ("DELETE", "/api/v1/settings/registries/:id", Admins);
  ("GET", "/api/v1/settings/clusters", Anyone);
  ("POST", "/api/v1/settings/clusters", Admins);
  ("GET", "/api/v1/auth/methods", Public);
  ("POST", "/api/v1/auth/local/signup", Public);
  ("POST", "/api/v1/auth/local/signin", Public);
  ("GET", "/api/v1/auth/local/me", Anyone);
  ("POST", "/api/v1/ws-tickets", Anyone);
  ("GET", "/health", Public);
  ("GET", "/health/live", Public);
  ("GET", "/health/ready", Public)].

(** ** The chain and the policy *)

(** What the middleware asks of the caller. *)
Definition passes (cfg : Config) (claims : option Claims) (mw : middleware) : Prop :=
  match mw with
  | Authentication => is_Some claims
  | Roles roles => RequireRole roles claims = Auth.Next
  | MFA => RequireMFA (oi_MFAACRValues (c_OIDC cfg)) claims = Auth.Next
  | Permitted resource action => RequirePermission resource action claims = Auth.Next
  | _ => True
  end.

Definition is_gate (mw : middleware) : bool :=
  match mw with Authentication | Roles _ | MFA | Permitted _ _ => true | _ => false end.

Definition gates (r : route) : list middleware := filter (fun mw => is_gate mw = true) (rt_Chain r).

Lemma passes_gates cfg claims r : Forall (passes cfg claims) (rt_Chain r) <-> Forall (passes cfg claims) (gates r).
Proof.
  unfold gates. induction (rt_Chain r) as [|mw l IH]; [done|]. rewrite filter_cons, Forall_cons, IH. case_decide as Hg.
  - by rewrite Forall_cons.
  - split; [by intros [_ ?]|]. intros Hl. split; [|done]. by destruct mw.
Qed.

Lemma RequireRole_Next roles claims : RequireRole roles claims = Auth.Next <-> exists c role, claims = Some c /\ role ∈ roles /\ role ∈ cl_Roles c.
Proof.
  unfold RequireRole. destruct claims as [c|]; [|split; [done|]; by intros (? & ? & ? & _)]. split.
  - destruct (existsb _ roles) eqn:He; [|done]. apply existsb_exists in He as (role & Hr%list_elem_of_In & Hu).
    apply existsb_exists in Hu as (x & Hx%list_elem_of_In & ->%String.eqb_eq). eauto.
  - intros (? & role & [= <-] & Hr & Hc). replace (existsb _ roles) with true; [done|]. symmetry. apply existsb_exists.
    exists role. split; [by apply list_elem_of_In|]. apply existsb_exists. exists role. split; [by apply list_elem_of_In|]. apply String.eqb_refl.
Qed.

Lemma writeRole_Next claims : RequireRole [RoleOperator; RoleAdmin] claims = Auth.Next <-> exists c, claims = Some c /\ is_writer c.
Proof.
  rewrite RequireRole_Next. unfold is_writer, is_admin. split.
  - intros (c & role & -> & Hr & Hc). exists c. split; [done|]. unfold is_writer, is_admin. apply elem_of_cons in Hr as [-> | ->%list_elem_of_singleton]; auto.
  - intros (c & -> & [Hc|Hc]); exists c; eexists; (split_and!; [done| |exact Hc]); set_solver.
Qed.

Lemma adminRole_Next claims : RequireRole [RoleAdmin] claims = Auth.Next <-> exists c, claims = Some c /\ is_admin c.
Proof.
  rewrite RequireRole_Next. unfold is_admin. split.
  - intros (c & role & -> & ->%list_elem_of_singleton & Hc). eauto.
  - intros (c & -> & Hc). exists c, RoleAdmin. split_and!; [done| |done]. set_solver.
Qed.

(** A row of the permission matrix, as a condition on the caller. *)
Lemma Permitted_Next resource action allowed claims : policyMatrix !! (resource, action) = Some (list_to_set allowed) ->
  RequirePermission resource action claims = Auth.Next <-> exists c role, claims = Some c /\ role ∈ allowed /\ role ∈ cl_Roles c.
Proof.
  intros Hm. unfold RequirePermission. destruct claims as [c|]; [|clear Hm; split; [done|]; by intros (? & ? & ? & _)].
  rewrite (Permission_row c resource action allowed (fun r => bool_decide (r ∈ allowed)) Hm) by (intros r; apply bool_decide_eq_true).
  split.
  - destruct (existsb _ _) eqn:He; [|done]. apply existsb_exists in He as (role & Hr%list_elem_of_In & Ha%bool_decide_eq_true_1). eauto.
  - intros (? & role & [= <-] & Ha & Hc). replace (existsb _ _) with true; [done|]. symmetry. apply existsb_exists. exists role.
    split; [by apply list_elem_of_In|]. by apply bool_decide_eq_true_2.
Qed.

(** The gates in use, and whom they let through. *)
Definition gate_access : list (list middleware * access) := [
  ([], Public); ([Authentication], Anyone);
  ([Authentication; writeRole], Operators); ([Authentication; writeRole; Permitted ResourcePipeline ActionInvoke], Operators);
  ([Authentication; adminRole], Admins); ([Authentication; adminRole; mfa], AdminsMFA);
  ([Authentication; adminRole; mfa; Permitted ResourceSecret ActionReveal], AdminsMFA);
  ([Authentication; adminRole; mfa; Permitted ResourceWebhook ActionUpdate], AdminsMFA)].

Definition access_of (gs : list middleware) : option access := snd <$> head (filter (fun p => p.1 = gs) gate_access).

Lemma Operators_matrix resource action claims : policyMatrix !! (resource, action) = Some (list_to_set writers) ->
  RequirePermission resource action claims = Auth.Next <-> exists c, claims = Some c /\ is_writer c.
Proof.
  intros Hm. rewrite (Permitted_Next _ _ _ claims Hm). clear Hm. unfold is_writer, is_admin. split.
  - intros (c & role & -> & Hr & Hc). exists c. split; [done|]. apply elem_of_cons in Hr as [-> | ->%list_elem_of_singleton]; auto.
  - intros (c & -> & [Hc|Hc]); exists c; eexists; (split_and!; [done| |exact Hc]); set_solver.
Qed.

Lemma Admins_matrix resource action claims : policyMatrix !! (resource, action) = Some (list_to_set admins) ->
  RequirePermission resource action claims = Auth.Next <-> exists c, claims = Some c /\ is_admin c.
Proof.
  intros Hm. rewrite (Permitted_Next _ _ _ claims Hm). clear Hm. unfold is_admin. split.
  - intros (c & role & -> & ->%list_elem_of_singleton & Hc). eauto.
  - intros (c & -> & Hc). exists c, RoleAdmin. split_and!; [done| |done]. set_solver.
Qed.

Definition matrix_row (resource action : string) (roles : list string) : bool :=
  bool_decide (policyMatrix !! (resource, action) = Some (list_to_set roles)).

Lemma second_factor_of cfg claims : (exists c, claims = Some c /\ is_admin c) /\ RequireMFA (oi_MFAACRValues (c_OIDC cfg)) claims = Auth.Next <->
  grants cfg AdminsMFA claims.
Proof.
  unfold grants, second_factor. split.
  - intros [(c & -> & Hc) Hm]. eauto.
  - intros (c & -> & Hc & Hm). eauto.
Qed.

Lemma access_of_spec cfg gs a : access_of gs = Some a -> forall claims, Forall (passes cfg claims) gs <-> grants cfg a claims.
Proof.
  intros Ha claims.
  assert (policyMatrix !! (ResourcePipeline, ActionInvoke) = Some (list_to_set writers)) as H1 by (apply (bool_decide_unpack _); vm_compute; exact I).
  assert (policyMatrix !! (ResourceSecret, ActionReveal) = Some (list_to_set admins)) as H2 by (apply (bool_decide_unpack _); vm_compute; exact I).
  assert (policyMatrix !! (ResourceWebhook, ActionUpdate) = Some (list_to_set admins)) as H3 by (apply (bool_decide_unpack _); vm_compute; exact I).
  pose proof (Operators_matrix _ _ claims H1) as P1. pose proof (Admins_matrix _ _ claims H2) as P2. pose proof (Admins_matrix _ _ claims H3) as P3.
  clear H1 H2 H3.
  assert ((gs, a) ∈ gate_access) as Hin.
  { unfold access_of in Ha. apply fmap_Some in Ha as ([gs' a'] & Hh & ->). apply head_Some_elem_of in Hh.
    apply list_elem_of_filter in Hh as [Heq Hin]. cbn in Heq. by subst. }
  assert ((exists c, claims = Some c /\ is_admin c) -> is_Some claims) as Hs by (intros (c & -> & _); eauto).
  assert ((exists c, claims = Some c /\ is_writer c) -> is_Some claims) as Hs' by (intros (c & -> & _); eauto).
  pose proof (second_factor_of cfg claims) as Hm. pose proof (writeRole_Next claims) as Hw. pose proof (adminRole_Next claims) as Had.
  unfold gate_access, writeRole, adminRole, mfa in Hin.
  repeat (apply elem_of_cons in Hin as [[= -> ->]|Hin]); [..|by apply elem_of_nil in Hin]; rewrite ?Forall_cons, Forall_nil; cbn [passes];
    rewrite ?Hw, ?Had, ?P1, ?P2, ?P3, <- ?Hm; cbn [grants]; clear -Hs Hs'; tauto.
Qed.

#[export] Instance access_eq_dec : EqDecision access.
Proof. solve_decision. Defined.

(** The check of a row of the table against the routes, whether the optional routes are
    there or not. *)
Definition row_ok (routes : list route) (row : string * string * access) : bool :=
  existsb (fun r => (rt_Method r =s row.1.1) && (rt_Path r =s row.1.2) && bool_decide (access_of (gates r) = Some row.2)) routes.

Lemma routes_cases (P : list route -> Prop) cfg : (forall metrics, P (routes_of true metrics)) -> (forall metrics, P (routes_of false metrics)) -> P (routes cfg).
Proof. intros Ht Hf. unfold routes. by destruct (la_Enabled _). Qed.

(** ** How a chain runs *)

Section facts.
Context {V L D : Type} `{JWT} `{RO : RangeOrder} `{TokenBucket L} `{Mux}.
Context (cfg : Config) (oidc_verify : V -> Z -> string -> option (option oidc_claims)).
Context (url_ok : string -> bool) (governance : option Client) (rows : D -> lookups).
Context (handle : string -> request -> gmap string string -> option Claims -> world * wsTicketStore * D ->
  (world * wsTicketStore * D) * option (Z * string)).
Implicit Types s : server V L D.

Local Abbreviation run := (run cfg oidc_verify url_ok governance rows handle).
Local Abbreviation serve := (serve cfg oidc_verify url_ok governance rows handle).
Local Abbreviation authenticate u q s := (Authn.Handler oidc_verify (sv_auth s) (sv_tokens s) (u_now u) (u_discovery u) (q_Authorization q)).

Lemma on_verdict_ran {S} v (s s' : S) next claims w : on_verdict v s next = (s', Ran claims w) -> v = Auth.Next /\ next s = (s', Ran claims w).
Proof. by destruct v. Qed.

Lemma on_limit_ran {S} v (s s' : S) next claims w : on_limit v s next = (s', Ran claims w) -> next s = (s', Ran claims w).
Proof. by destruct v. Qed.

(** The handler runs for a caller whom every middleware lets through. *)
Lemma run_ran r q ps u chain : Authentication ∉ chain -> forall claims s s' claims' w,
  run r q ps u chain claims s = (s', Ran claims' w) -> claims' = claims /\ Forall (passes cfg claims) chain.
Proof.
  induction chain as [|mw chain IH]; intros Hno claims s s' claims' w Hr; cbn in Hr.
  { destruct (handle _ _ _ _ _) as [k a]. injection Hr as _ <- _. done. }
  apply not_elem_of_cons in Hno as [Hmw Hno]. specialize (IH Hno claims). rewrite Forall_cons. destruct mw; cbn [passes]; try done.
  - destruct (run _ _ _ _ _ _ _) as [s1 o] eqn:Ho. assert (o = Ran claims' w) as -> by (by destruct (negb _); injection Hr). by apply IH in Ho as [-> ?].
  - apply on_verdict_ran in Hr as [Hv Hr]. by apply IH in Hr as [-> ?].
  - apply on_verdict_ran in Hr as [Hv Hr]. by apply IH in Hr as [-> ?].
  - apply on_verdict_ran in Hr as [Hv Hr]. by apply IH in Hr as [-> ?].
  - destruct (expensive _ _ _ _ _) as [v s1]. apply on_limit_ran in Hr. by apply IH in Hr as [-> ?].
  - destruct (localAuthLimit _ _ _) as [v s1]. apply on_limit_ran in Hr. by apply IH in Hr as [-> ?].
  - destruct (webhookLimit _ _ _ _) as [v s1]. apply on_limit_ran in Hr. by apply IH in Hr as [-> ?].
  - destruct (idem_key q =s ""); [by apply IH in Hr as [-> ?]|]. destruct (Idempotency.Get _ _ _); [done|].
    destruct (run _ _ _ _ _ _ _) as [s1 o] eqn:Ho. injection Hr as _ ->. by apply IH in Ho as [-> ?].
  - destruct (RequireGovernanceAllow _ _ _ _ _ _); [by apply IH in Hr as [-> ?]|done].
  - destruct (wsTicketGate _ _ _ _) as [t v]. apply on_verdict_ran in Hr as [_ Hr]. by apply IH in Hr as [-> ?].
Qed.

Lemma serve_routed q u s s' r o : serve q u s = (s', Routed r o) ->
  r ∈ routes cfg /\ rt_Method r = q_Method q /\ covers_path (rt_Path r) (q_Path q) = true /\
  exists ps, run r q ps u (rt_Chain r) None s = (s', o).
Proof.
  unfold serve. destruct (corsMiddleware _ _ _) as [origin []]; [done|]. cbn.
  destruct (find _ _ _) as [[r' ps]|] eqn:Hf; [|done]. destruct (Router.run _ _ _ _ _ _ _ _ _ _ _ _ _) as [s1 o1] eqn:Hr.
  intros [= <- <- <-]. apply find_sound in Hf as (Hin & Hm & Hc). eauto 10.
Qed.

(** Through the chain of an API route the handler sees the caller whom the authentication
    middleware vouches for. *)
Lemma api_ran r q ps u s s' claims w rest : rt_Chain r = Authentication :: AuditEvents :: rest -> Authentication ∉ rest ->
  run r q ps u (rt_Chain r) None s = (s', Ran claims w) ->
  exists c m tk, claims = Some c /\ authenticate u q s = (Authenticated c, m, tk) /\ Forall (passes cfg (Some c)) (rt_Chain r).
Proof.
  intros -> Hrest Hr. cbn in Hr. destruct (authenticate u q s) as [[[c|] m] tk] eqn:Ha; [|done].
  destruct (run _ _ _ _ _ _ _) as [s1 o] eqn:Ho. assert (o = Ran claims w) as -> by (by destruct (negb _); injection Hr).
  apply run_ran in Ho as [-> Hp]; [|done]. exists c, m, tk. split_and!; [done|done|]. rewrite !Forall_cons. cbn. eauto.
Qed.

(** Through the chain of a stream it sees a caller who gave up a ticket for this path. *)
Lemma ws_ran r q ps u s s' claims w : run r q ps u [TicketGate] None s = (s', Ran claims w) ->
  exists t, ts_tickets (sv_tickets s) !! q_ticket q = Some t /\ u_now u <= wt_expires t /\ g_Path (wt_grant t) = q_Path q /\
    routeRoleAllowed (q_Path q) (g_Roles (wt_grant t)) = true.
Proof.
  intros Hr. cbn in Hr. destruct (wsTicketGate _ _ _ _) as [t v] eqn:Hg. apply on_verdict_ran in Hr as [-> _].
  apply gate_cases in Hg as (_ & _ & Hn). destruct (Hn eq_refl) as (t' & Ht & _ & Hnow & Hp & Ha). eauto 10.
Qed.

(** *** The table *)

(** The policy, read off the gates of a route. *)
Definition policy_ok (r : route) : bool :=
  match access_of (gates r) with
  | None => false
  | Some a =>
      implb (isMutating (rt_Method r)) (bool_decide (rt_Handler r ∈ self_authorizing) || bool_decide (a ∈ [Operators; Admins; AdminsMFA])) &&
      implb (rt_Method r =s "DELETE") ((rt_Handler r =s "DeleteAPIToken") || bool_decide (a ∈ [Admins; AdminsMFA])) &&
      implb (bool_decide (rt_Handler r ∈ stepped_up) || has_prefix "/api/v1/admin/" (rt_Path r)) (bool_decide (a = AdminsMFA))
  end.

(** The three shapes of chain, each with its handlers. *)
Definition shape_ok (r : route) : bool :=
  match rt_Chain r with
  | Authentication :: AuditEvents :: rest => bool_decide (Authentication ∉ rest) && policy_ok r
  | [TicketGate] => has_prefix "/ws/" (rt_Path r)
  | chain => bool_decide (Forall (fun mw => mw ∈ [LocalAuthLimit; WebhookLimit; Idempotent]) chain) && bool_decide (rt_Handler r ∈ public_handlers)
  end.

Lemma routes_shapes r : r ∈ routes cfg -> shape_ok r = true.
Proof.
  revert r. cut (forallb shape_ok (routes cfg) = true).
  { intros Hall r Hr. by apply (proj1 (forallb_forall _ _) Hall), list_elem_of_In. }
  apply (routes_cases (fun l => forallb shape_ok l = true)); intros []; vm_compute; reflexivity.
Qed.

Lemma policy_authorized r c : policy_ok r = true -> Forall (passes cfg (Some c)) (rt_Chain r) -> authorized cfg r c.
Proof.
  unfold policy_ok. destruct (access_of (gates r)) as [a|] eqn:Ha; [|done]. intros Hp Hc%passes_gates. apply (access_of_spec cfg _ _ Ha) in Hc.
  rewrite !andb_true_iff, !implb_true_iff in Hp. destruct Hp as ((Hm & Hd) & Hs).
  assert (a ∈ [Admins; AdminsMFA] -> is_admin c) as Hadm.
  { intros [-> | ->%list_elem_of_singleton]%elem_of_cons; cbn in Hc; destruct Hc as (? & [= <-] & ?); tauto. }
  split_and!.
  - intros [Hh|Hw]%Hm%orb_true_iff; apply bool_decide_eq_true_1 in Hh || apply bool_decide_eq_true_1 in Hw; [by left|]. right.
    apply elem_of_cons in Hw as [-> | Hw]; [|right; auto]. cbn in Hc. destruct Hc as (? & [= <-] & ?). done.
  - intros Hdel. destruct (orb_true_elim _ _ (Hd (proj2 (String.eqb_eq _ _) Hdel))) as [Hh|Hh]; [left; by apply String.eqb_eq|].
    right. apply bool_decide_eq_true_1 in Hh. auto.
  - intros Hst. assert (a = AdminsMFA) as ->.
    { eapply bool_decide_eq_true_1, Hs. destruct Hst as [Hst| ->]; [by rewrite bool_decide_eq_true_2|by rewrite orb_true_r]. }
    cbn in Hc. destruct Hc as (? & [= <-] & ?). done.
Qed.

(** C6. Whatever the request, a handler of the server runs only for a caller it is meant
    for: it is one of the public handlers and sees no identity; or the authentication
    middleware has vouched for the caller whom the handler sees, and the caller has the
    roles and the second factor that the handler asks for - a writer's for every change, but
    for the handlers that decide on the caller themselves, an administrator's for every
    deletion, and a second factor for secrets, for the deletion of pipelines, applications,
    environments and hosts, and for everything under admin; or it streams, to
    the bearer of a ticket that was issued for this path. *)
Theorem handlers_run_authorized q u s s' r claims w : serve q u s = (s', Routed r (Ran claims w)) ->
  (rt_Handler r ∈ public_handlers /\ claims = None) \/
  (exists c m tk, claims = Some c /\ authenticate u q s = (Authenticated c, m, tk) /\ authorized cfg r c) \/
  (has_prefix "/ws/" (rt_Path r) = true /\
   exists t, ts_tickets (sv_tickets s) !! q_ticket q = Some t /\ u_now u <= wt_expires t /\ g_Path (wt_grant t) = q_Path q /\
     routeRoleAllowed (q_Path q) (g_Roles (wt_grant t)) = true).
Proof.
  intros Hs. apply serve_routed in Hs as (Hin & _ & _ & ps & Hr). apply routes_shapes in Hin. unfold shape_ok in Hin.
  assert (Authentication ∉ rt_Chain r -> claims = None) as Hnone by (intros Hno; by apply run_ran in Hr as [? _]).
  destruct (rt_Chain r) as [|mw1 rest1] eqn:Hch.
  - left. apply andb_true_iff in Hin as [_ Hh%bool_decide_eq_true_1]. split; [done|]. apply Hnone. by apply not_elem_of_nil.
  - destruct mw1 eqn:Hm1, rest1 as [|mw2 rest2]; try destruct mw2; try discriminate.
    all: try (apply andb_true_iff in Hin as [Hf%bool_decide_eq_true_1 Hh%bool_decide_eq_true_1]; left; split; [done|]; apply Hnone;
      intros Ha; rewrite Forall_forall in Hf; specialize (Hf _ Ha); apply elem_of_cons in Hf as [?|[?|?%list_elem_of_singleton]%elem_of_cons]; done).
    + apply andb_true_iff in Hin as [Hno%bool_decide_eq_true_1 Hp]. right. left. rewrite <- Hch in Hr.
      destruct (api_ran _ _ _ _ _ _ _ _ _ Hch Hno Hr) as (c & m & tk & Hc & Ha & Hf). exists c, m, tk. split_and!; [done|done|].
      by apply policy_authorized.
    + right. right. split; [done|]. by eapply ws_ran.
Qed.

(** ** The audit trail *)

(** What the trail gets of a request: an event of every change that was asked for by a
    caller the server knows, allowed or not, unless its handler panicked. *)
Definition recorded q u s r o : list Event :=
  if bool_decide (Authentication ∈ rt_Chain r) && isMutating (q_Method q) then
    match authenticate u q s, chain_end_of o with
    | (Authenticated c, _, _), Responded status =>
        [AuditTrail.mkEvent (u_now u) (cl_Subject c) (cl_Email c) (q_Method q) (rt_Path r) status
           (GoDuration.Duration_String (u_after u - u_now u)) (q_ClientIP q)]
    | _, _ => []
    end
  else [].

(** A part of the server that no middleware of a chain writes. *)
Lemma run_frame {A} (f : server V L D -> A) r q ps u chain :
  (forall m w s, f (set_auth m w s) = f s) -> (forall rl s, f (set_localLimiter rl s) = f s) -> (forall rl s, f (set_webhookLimiter rl s) = f s) ->
  (forall m s, f (set_idem m s) = f s) -> (forall k s, f (set_kept k s) = f s) ->
  (AuditEvents ∈ chain -> forall l s, f (set_audit l s) = f s) -> (Expensive ∈ chain -> forall rl s, f (set_limiter rl s) = f s) ->
  forall claims s s' o, run r q ps u chain claims s = (s', o) -> f s' = f s.
Proof.
  intros Hauth Hlocal Hwebhook Hidem Hkept.
  assert (forall v s s' o next, (forall s1 s2 o', next s1 = (s2, o') -> f s2 = f s1) -> on_verdict v s next = (s', o) -> f s' = f s) as Hverdict.
  { intros v s s' o next Hn. destruct v; cbn; [apply Hn|by intros [= <- _]..]. }
  assert (forall v s s' o next, (forall s1 s2 o', next s1 = (s2, o') -> f s2 = f s1) -> on_limit v s next = (s', o) -> f s' = f s) as Hlimit.
  { intros v s s' o next Hn. destruct v; cbn; [apply Hn|by intros [= <- _]]. }
  induction chain as [|mw chain IH]; intros Haudit Hexp claims s s' o Hr; cbn in Hr.
  { destruct (handle _ _ _ _ _) as [k a]. injection Hr as <- _. apply Hkept. }
  specialize (IH (fun Hin => Haudit (list_elem_of_further _ _ _ Hin)) (fun Hin => Hexp (list_elem_of_further _ _ _ Hin))). destruct mw.
  - destruct (authenticate u q s) as [[a m] tk]. rewrite <- (Hauth m tk s). destruct a; [by apply IH in Hr|by injection Hr as <- _].
  - destruct (run _ _ _ _ _ _ _) as [s1 o1] eqn:Ho. apply IH in Ho. rewrite <- Ho. destruct (negb _); injection Hr as <- _; [done|].
    apply Haudit. by left.
  - by apply (Hverdict _ _ _ _ _ (IH claims)) in Hr.
  - by apply (Hverdict _ _ _ _ _ (IH claims)) in Hr.
  - by apply (Hverdict _ _ _ _ _ (IH claims)) in Hr.
  - destruct (expensive _ _ _ _ _) as [v s1] eqn:Hv. apply (Hlimit _ _ _ _ _ (IH claims)) in Hr. rewrite Hr. unfold expensive in Hv.
    repeat case_match; simplify_eq; try done. apply Hexp. by left.
  - destruct (localAuthLimit _ _ _) as [v s1] eqn:Hv. apply (Hlimit _ _ _ _ _ (IH claims)) in Hr. rewrite Hr. unfold localAuthLimit in Hv.
    case_match. by simplify_eq.
  - destruct (webhookLimit _ _ _ _) as [v s1] eqn:Hv. apply (Hlimit _ _ _ _ _ (IH claims)) in Hr. rewrite Hr. unfold webhookLimit in Hv.
    by repeat case_match; simplify_eq.
  - destruct (idem_key q =s ""); [by apply IH in Hr|]. destruct (Idempotency.Get _ _ _); [by injection Hr as <- _|].
    destruct (run _ _ _ _ _ _ _) as [s1 o1] eqn:Ho. injection Hr as <- _. apply IH in Ho. destruct (captured o1); by rewrite ?Hidem.
  - destruct (RequireGovernanceAllow _ _ _ _ _ _); [by apply IH in Hr|by injection Hr as <- _].
  - destruct (wsTicketGate _ _ _ _) as [t v]. apply (Hverdict _ _ _ _ _ (IH claims)) in Hr. by rewrite Hr, Hkept.
Qed.

(** Only the audit middleware writes to the trail, and only [expensive] to the limiter. *)
Lemma run_audit r q ps u chain claims s s' o : AuditEvents ∉ chain -> run r q ps u chain claims s = (s', o) -> sv_audit s' = sv_audit s.
Proof. intros Hno. by apply (run_frame sv_audit). Qed.

Lemma run_limiter_kept r q ps u chain claims s s' o : Expensive ∉ chain -> run r q ps u chain claims s = (s', o) -> sv_limiter s' = sv_limiter s.
Proof. intros Hno. by apply (run_frame sv_limiter). Qed.

(** Every path of the table has a template, and the audit middleware is behind the
    authentication, and nowhere else. *)
Definition audit_shape (r : route) : bool :=
  negb (rt_Path r =s "") &&
  match rt_Chain r with
  | Authentication :: AuditEvents :: rest => bool_decide (AuditEvents ∉ rest)
  | chain => bool_decide (Authentication ∉ chain) && bool_decide (AuditEvents ∉ chain)
  end.

Lemma routes_audited r : r ∈ routes cfg -> audit_shape r = true.
Proof.
  revert r. cut (forallb audit_shape (routes cfg) = true).
  { intros Hall r Hr. by apply (proj1 (forallb_forall _ _) Hall), list_elem_of_In. }
  apply (routes_cases (fun l => forallb audit_shape l = true)); intros []; vm_compute; reflexivity.
Qed.

(** C14. With the audit on, every change that is asked for over the API by a caller whom the
    server has authenticated leaves exactly one event, with the caller, the route's
    template and the status of the answer, whether the change was carried out, refused by a
    later middleware, throttled or replayed; unless the handler panicked.  Nothing else
    that the server answers leaves any. *)
Theorem mutations_are_audited q u s s' r o : au_Enabled (c_Audit cfg) = true -> serve q u s = (s', Routed r o) ->
  sv_audit s' = sv_audit s ++ recorded q u s r o.
Proof.
  intros Hon Hs. apply serve_routed in Hs as (Hin & Hm & _ & ps & Hr). apply routes_audited in Hin. unfold audit_shape in Hin.
  apply andb_true_iff in Hin as [Hpath%negb_true_iff Hshape]. unfold recorded.
  assert ((Authentication ∉ rt_Chain r) /\ (AuditEvents ∉ rt_Chain r) \/
    exists rest, rt_Chain r = Authentication :: AuditEvents :: rest /\ AuditEvents ∉ rest) as [[Hna Hnu]|(rest & Hch & Hno)].
  { destruct (rt_Chain r) as [|[] [|[] rest]]; try (apply andb_true_iff in Hshape as [?%bool_decide_eq_true_1 ?%bool_decide_eq_true_1]; by left).
    apply bool_decide_eq_true_1 in Hshape. right. eauto. }
  - rewrite bool_decide_eq_false_2 by done. rewrite app_nil_r. by eapply run_audit.
  - rewrite Hch in *. rewrite bool_decide_eq_true_2 by (by left). cbn in Hr |- *.
    destruct (authenticate u q s) as [[[c|st ra] m] tk] eqn:Ha.
    + destruct (run _ _ _ _ _ _ _) as [s1 o1] eqn:Ho. apply run_audit in Ho; [|done]. cbn in Ho. rewrite Hon in Hr. cbn [negb] in Hr.
      injection Hr as <- <-. unfold auditMiddleware. cbn. rewrite Ho, Hpath. f_equal. by destruct (isMutating _), (chain_end_of o1).
    + injection Hr as <- <-. cbn. destruct (isMutating _); by rewrite app_nil_r.
Qed.

(** ** Requests that no handler sees *)

Definition unrun (o : outcome) : bool := match o with Ran _ _ => false | _ => true end.

(** What the handlers keep, the cached answers, and the tickets. *)
Definition same_kept s s' : Prop :=
  sv_data s' = sv_data s /\ sv_idem s' = sv_idem s /\ w_tokens (sv_tokens s') = w_tokens (sv_tokens s).

#[local] Instance same_kept_preorder : PreOrder same_kept.
Proof. split; [done|]. intros s1 s2 s3 (? & ? & ?) (? & ? & ?). split_and!; congruence. Qed.

Lemma authenticate_tokens u q s a m tk : authenticate u q s = (a, m, tk) -> w_tokens tk = w_tokens (sv_tokens s).
Proof.
  unfold Authn.Handler. intros Hh.
  assert (forall cred w o, Authenticate (sv_tokens s) (u_now u) cred = (w, o) -> w_tokens w = w_tokens (sv_tokens s)) as Hw
    by (intros cred w o Hc; pose proof (Authenticate_tokens (sv_tokens s) (u_now u) cred) as Ht; by rewrite Hc in Ht).
  repeat case_match; simplify_eq; eauto.
Qed.

Lemma expensive_same u q claims s : same_kept s (expensive cfg u q claims s).2 /\ sv_tickets (expensive cfg u q claims s).2 = sv_tickets s.
Proof. unfold expensive, same_kept. repeat case_match; by simplify_eq. Qed.

Lemma localAuthLimit_same u q s : same_kept s (localAuthLimit u q s).2 /\ sv_tickets (localAuthLimit u q s).2 = sv_tickets s.
Proof. unfold localAuthLimit, same_kept. by case_match. Qed.

Lemma webhookLimit_same u q s : same_kept s (webhookLimit cfg u q s).2 /\ sv_tickets (webhookLimit cfg u q s).2 = sv_tickets s.
Proof. unfold webhookLimit, same_kept. repeat case_match; by simplify_eq. Qed.

Lemma captured_unrun o : unrun o = true -> captured o = None.
Proof. by destruct o. Qed.

Lemma run_unrun r q ps u chain : forall claims s s' o, run r q ps u chain claims s = (s', o) -> unrun o = true ->
  same_kept s s' /\ (TicketGate ∉ chain -> sv_tickets s' = sv_tickets s).
Proof.
  induction chain as [|mw chain IH]; intros claims s s' o Hr Ho; cbn in Hr.
  { destruct (handle _ _ _ _ _) as [k a]. by injection Hr as _ <-. }
  assert (forall s1, same_kept s s1 /\ (mw <> TicketGate -> sv_tickets s1 = sv_tickets s) ->
    same_kept s1 s' /\ (TicketGate ∉ chain -> sv_tickets s' = sv_tickets s1) ->
    same_kept s s' /\ (TicketGate ∉ mw :: chain -> sv_tickets s' = sv_tickets s)) as Hthen.
  { intros s1 [Hs1 Ht1] [Hs2 Ht2]. split; [by etrans|]. intros [Hmw Hno]%not_elem_of_cons. rewrite Ht2, Ht1; auto. }
  assert (forall v s1, same_kept s s1 /\ (mw <> TicketGate -> sv_tickets s1 = sv_tickets s) ->
    on_verdict v s1 (run r q ps u chain claims) = (s', o) ->
    same_kept s s' /\ (TicketGate ∉ mw :: chain -> sv_tickets s' = sv_tickets s)) as Hverdict.
  { intros v s1 Hs1 Hv. apply (Hthen s1 Hs1). destruct v; cbn in Hv; [by apply IH in Hv|by injection Hv as <- _|by injection Hv as <- _]. }
  assert (forall v s1, same_kept s s1 /\ sv_tickets s1 = sv_tickets s -> on_limit v s1 (run r q ps u chain claims) = (s', o) ->
    same_kept s s' /\ (TicketGate ∉ mw :: chain -> sv_tickets s' = sv_tickets s)) as Hlimit.
  { intros v s1 [Hs1 Ht1] Hv. apply (Hthen s1 (conj Hs1 (fun _ => Ht1))). destruct v; cbn in Hv; [by apply IH in Hv|by injection Hv as <- _]. }
  destruct mw.
  - destruct (authenticate u q s) as [[a m] tk] eqn:Ha. apply authenticate_tokens in Ha. apply (Hthen (set_auth m tk s)); [done|].
    destruct a; [by apply IH in Hr|by injection Hr as <- _].
  - destruct (run _ _ _ _ _ _ _) as [s1 o1] eqn:Hr1. assert (o1 = o) as -> by (by destruct (negb _); injection Hr).
    apply IH in Hr1 as [Hs1 Ht1]; [|done]. apply (Hthen s); [done|]. by destruct (negb _); injection Hr as <-.
  - by apply (Hverdict _ s) in Hr.
  - by apply (Hverdict _ s) in Hr.
  - by apply (Hverdict _ s) in Hr.
  - pose proof (expensive_same u q claims s) as Ha. destruct (expensive _ _ _ _ _) as [v s1]. by apply Hlimit in Hr.
  - pose proof (localAuthLimit_same u q s) as Ha. destruct (localAuthLimit _ _ _) as [v s1]. by apply Hlimit in Hr.
  - pose proof (webhookLimit_same u q s) as Ha. destruct (webhookLimit _ _ _ _) as [v s1]. by apply Hlimit in Hr.
  - apply (Hthen s); [done|]. destruct (idem_key q =s ""); [by apply IH in Hr|]. destruct (Idempotency.Get _ _ _); [by injection Hr as <- _|].
    destruct (run _ _ _ _ _ _ _) as [s1 o1] eqn:Hr1. injection Hr as <- ->. rewrite (captured_unrun _ Ho). by apply IH in Hr1.
  - apply (Hthen s); [done|]. destruct (RequireGovernanceAllow _ _ _ _ _ _); [by apply IH in Hr|by injection Hr as <- _].
  - destruct (wsTicketGate _ _ _ _) as [t v]. apply (Hverdict _ (set_kept (sv_tokens s, t, sv_data s) s)) in Hr; [done|]. by split.
Qed.

(** The middlewares that ask for a role come before the limiter. *)
Fixpoint gates_first (chain : list middleware) : bool :=
  match chain with
  | [] => true
  | Expensive :: chain => forallb (fun mw => negb (is_gate mw)) chain
  | _ :: chain => gates_first chain
  end.

Lemma no_gates_pass claims chain : forallb (fun mw => negb (is_gate mw)) chain = true -> Forall (passes cfg claims) chain.
Proof. induction chain as [|mw chain IH]; [done|]. cbn. intros [Hm Hc]%andb_true_iff. constructor; [by destruct mw|auto]. Qed.

Lemma run_limiter r q ps u chain : gates_first chain = true -> Authentication ∉ chain -> forall claims s s' o,
  run r q ps u chain claims s = (s', o) -> sv_limiter s' <> sv_limiter s -> Forall (passes cfg claims) chain.
Proof.
  induction chain as [|mw chain IH]; intros Hg Hno claims s s' o Hr Hne; [by constructor|]. apply not_elem_of_cons in Hno as [Hmw Hno].
  assert (mw <> Expensive -> gates_first chain = true) as Hg' by (intros ?; by destruct mw).
  assert (forall v s1, sv_limiter s1 = sv_limiter s -> on_verdict v s1 (run r q ps u chain claims) = (s', o) -> mw <> Expensive ->
    v = Auth.Next /\ Forall (passes cfg claims) chain) as Hverdict.
  { intros v s1 Hs1 Hv Hx. destruct v; cbn in Hv; [|injection Hv as <- _; congruence|injection Hv as <- _; congruence]. split; [done|]. eapply IH; eauto. congruence. }
  assert (forall v s1, sv_limiter s1 = sv_limiter s -> on_limit v s1 (run r q ps u chain claims) = (s', o) -> mw <> Expensive ->
    Forall (passes cfg claims) chain) as Hlimit.
  { intros v s1 Hs1 Hv Hx. destruct v; cbn in Hv; [|injection Hv as <- _; congruence]. eapply IH; eauto. congruence. }
  cbn in Hr. constructor; destruct mw; try done; try (by apply Hverdict in Hr as [? ?]); cbn [passes].
  - destruct (run _ _ _ _ _ _ _) as [s1 o1] eqn:Hr1. eapply IH; eauto. by destruct (negb _); injection Hr as <- _.
  - by apply no_gates_pass.
  - destruct (localAuthLimit _ _ _) as [v s1] eqn:Hv. apply Hlimit in Hr; [done| |done]. unfold localAuthLimit in Hv. case_match. by injection Hv as _ <-.
  - destruct (webhookLimit _ _ _ _) as [v s1] eqn:Hv. apply Hlimit in Hr; [done| |done]. unfold webhookLimit in Hv. repeat case_match; by simplify_eq.
  - destruct (idem_key q =s ""); [by eapply IH; eauto|]. destruct (Idempotency.Get _ _ _); [by injection Hr as <- _|].
    destruct (run _ _ _ _ _ _ _) as [s1 o1] eqn:Hr1. eapply IH; eauto. injection Hr as <- _. by destruct (captured o1).
  - destruct (RequireGovernanceAllow _ _ _ _ _ _); [by eapply IH; eauto|by injection Hr as <- _].
  - destruct (wsTicketGate _ _ _ _) as [t v]. by apply Hverdict in Hr as [_ ?].
Qed.

Definition limit_shape (r : route) : bool :=
  match rt_Chain r with
  | Authentication :: AuditEvents :: rest => gates_first rest && bool_decide (Authentication ∉ rest) && bool_decide (TicketGate ∉ rest) && policy_ok r
  | chain => bool_decide (Expensive ∉ chain) && (bool_decide (TicketGate ∉ chain) || has_prefix "/ws/" (rt_Path r))
  end.

Lemma routes_limited r : r ∈ routes cfg -> limit_shape r = true.
Proof.
  revert r. cut (forallb limit_shape (routes cfg) = true).
  { intros Hall r Hr. by apply (proj1 (forallb_forall _ _) Hall), list_elem_of_In. }
  apply (routes_cases (fun l => forallb limit_shape l = true)); intros []; vm_compute; reflexivity.
Qed.

Lemma limit_cases r : limit_shape r = true ->
  (exists rest, rt_Chain r = Authentication :: AuditEvents :: rest /\ gates_first rest = true /\ (Authentication ∉ rest) /\ (TicketGate ∉ rest) /\
    policy_ok r = true) \/
  ((Expensive ∉ rt_Chain r) /\ (has_prefix "/ws/" (rt_Path r) = false -> TicketGate ∉ rt_Chain r)).
Proof.
  unfold limit_shape. intros Hs. destruct (rt_Chain r) as [|[] [|[] rest]].
  all: try (apply andb_true_iff in Hs as [He%bool_decide_eq_true_1 Ht%orb_true_iff]; right; split; [done|]; intros Hws;
    destruct Ht as [Ht%bool_decide_eq_true_1|Ht]; [done|congruence]).
  rewrite !andb_true_iff in Hs. destruct Hs as (((Hg & Ha%bool_decide_eq_true_1) & Ht%bool_decide_eq_true_1) & Hp). left. eauto 10.
Qed.

(** C15. A request that is stopped in front of its handler, or answered from the cache,
    changes nothing that the handlers keep: not the tables, not the tokens, not the cached
    answers, and no ticket but the one that a stream's gate takes.  And whatever comes of a
    request, the budget of expensive requests is touched only for an authenticated caller
    who passes every check of the route's chain - of a role, of the second factor, of a
    permission - wherever in the chain it stands. *)
Theorem stopped_requests_change_nothing q u s s' r o : serve q u s = (s', Routed r o) ->
  (unrun o = true ->
    sv_data s' = sv_data s /\ sv_idem s' = sv_idem s /\ w_tokens (sv_tokens s') = w_tokens (sv_tokens s) /\
    (has_prefix "/ws/" (rt_Path r) = false -> sv_tickets s' = sv_tickets s)) /\
  (sv_limiter s' <> sv_limiter s -> exists c m tk, authenticate u q s = (Authenticated c, m, tk) /\
    (forall mw, mw ∈ rt_Chain r -> passes cfg (Some c) mw) /\ authorized cfg r c).
Proof.
  intros Hs. apply serve_routed in Hs as (Hin & _ & _ & ps & Hr). apply routes_limited, limit_cases in Hin. split.
  - intros Ho. destruct (run_unrun _ _ _ _ _ _ _ _ _ Hr Ho) as [(Hd & Hi & Hw) Ht]. split_and!; [done..|].
    intros Hws. apply Ht. destruct Hin as [(rest & -> & _ & _ & Hno & _)|[_ Hno]]; [|by apply Hno].
    rewrite !not_elem_of_cons. done.
  - intros Hne. destruct Hin as [(rest & Hch & Hg & Hna & _ & Hp)|[He _]]; [|by apply run_limiter_kept in Hr].
    rewrite Hch in Hr. cbn in Hr. destruct (authenticate u q s) as [[[c|st ra] m] tk] eqn:Ha; [|by injection Hr as <- _].
    exists c, m, tk. split; [done|]. assert (Forall (passes cfg (Some c)) (rt_Chain r)) as Hall;
      [|split; [by apply Forall_forall|by apply policy_authorized]]. rewrite Hch, !Forall_cons. split_and!; [by eexists|done|].
    destruct (run _ _ _ _ _ _ _) as [s1 o1] eqn:Ho. eapply run_limiter; [done|done|exact Ho|].
    intros Heq. apply Hne. by destruct (negb _); injection Hr as <- _.
Qed.
End facts.

(** ** The routes and their documents *)

(** On a server with local accounts, every row of the reference's tables is a route, and
    its chain lets through exactly the callers of the documented role: any authenticated
    caller, operators and administrators, administrators, or administrators with the
    configured second factor. *)
Theorem documented_roles cfg method path a : la_Enabled (c_LocalAuth cfg) = true -> (method, path, a) ∈ documented ->
  exists r, r ∈ routes cfg /\ rt_Method r = method /\ rt_Path r = path /\
    forall claims, Forall (passes cfg claims) (rt_Chain r) <-> grants cfg a claims.
Proof.
  intros Hla Hin. assert (forall metrics, forallb (row_ok (routes_of true metrics)) documented = true) as Hall by (intros []; vm_compute; reflexivity).
  unfold routes. rewrite Hla. set (metrics := obs_MetricsEnabled _ && _). specialize (Hall metrics). rewrite forallb_forall in Hall.
  apply list_elem_of_In, Hall in Hin. apply existsb_exists in Hin as (r & Hr%list_elem_of_In & Hok).
  rewrite !andb_true_iff in Hok. destruct Hok as ((Hm%String.eqb_eq & Hp%String.eqb_eq) & Ha%bool_decide_eq_true_1).
  exists r. split_and!; [done..|]. intros claims. rewrite passes_gates. by apply access_of_spec.
Qed.

(** The rows of the permission matrix, with the handlers that do what they are about. *)
Definition protects : list (string * string * string) := [
  ("CreatePipeline", ResourcePipeline, ActionCreate); ("ImportPipeline", ResourcePipeline, ActionCreate);
  ("CreatePipelineFromTemplate", ResourcePipeline, ActionCreate); ("UpdatePipeline", ResourcePipeline, ActionUpdate);
  ("DeletePipeline", ResourcePipeline, ActionDelete); ("RunPipeline", ResourcePipeline, ActionInvoke);
  ("CancelPipelineRun", ResourceRun, ActionUpdate); ("PromoteRun", ResourcePromotion, ActionInvoke);
  ("CreateApp", ResourceApp, ActionCreate); ("UpdateApp", ResourceApp, ActionUpdate); ("DeleteApp", ResourceApp, ActionDelete);
  ("DeployApp", ResourceApp, ActionInvoke); ("RollbackApp", ResourceApp, ActionInvoke);
  ("PromoteAppCanary", ResourceApp, ActionInvoke); ("AbortAppCanary", ResourceApp, ActionInvoke);
  ("SetAppWebhookSecret", ResourceWebhook, ActionUpdate);
  ("CreateEnvironment", ResourceEnvironment, ActionCreate); ("UpdateEnvironment", ResourceEnvironment, ActionUpdate);
  ("DeleteEnvironment", ResourceEnvironment, ActionDelete); ("RevealSecret", ResourceSecret, ActionReveal);
  ("PutSecret", ResourceSecret, ActionUpdate); ("PromoteSecrets", ResourceSecret, ActionUpdate); ("DeleteSecret", ResourceSecret, ActionDelete);
  ("CreateHost", ResourceHost, ActionCreate); ("UpdateHost", ResourceHost, ActionUpdate); ("DeleteHost", ResourceHost, ActionDelete);
  ("AddRegistryConfig", ResourceRegistry, ActionCreate); ("DeleteRegistryConfig", ResourceRegistry, ActionDelete);
  ("AddClusterConfig", ResourceCluster, ActionCreate); ("DeleteClusterConfig", ResourceCluster, ActionDelete)].

(** The other handlers behind a role check, with whom the check lets through: the matrix has
    no row for what they do, or, for reads, one that lets everyone. *)
Definition unlisted : list (string * access) := [
  ("TriageStage", Operators); ("CreateTemplate", AdminsMFA); ("UpdateTemplate", AdminsMFA); ("DeleteTemplate", AdminsMFA);
  ("ListSchedules", AdminsMFA); ("GetSchedule", AdminsMFA); ("CreateSchedule", AdminsMFA); ("UpdateSchedule", AdminsMFA);
  ("DeleteSchedule", AdminsMFA); ("ListNotificationTargets", AdminsMFA); ("GetNotificationTarget", AdminsMFA);
  ("CreateNotificationTarget", AdminsMFA); ("UpdateNotificationTarget", AdminsMFA); ("DeleteNotificationTarget", AdminsMFA);
  ("ListAuditEvents", AdminsMFA); ("BuildDockerImage", Operators); ("DeleteDockerImage", Admins); ("CreateContainer", Operators);
  ("StopContainer", Operators); ("DeleteContainer", Admins); ("UpdateComposeService", Operators); ("CreateDockerNetwork", Operators);
  ("DeleteDockerNetwork", Admins); ("ConnectContainerToNetwork", Operators); ("CreateDockerVolume", Operators);
  ("DeleteDockerVolume", Admins); ("PushImage", Operators); ("PullImage", Operators); ("ListNamespaces", Operators);
  ("ListWorkloads", Operators); ("GetWorkload", Operators); ("GetPodLogs", Operators); ("ScaleWorkload", Operators);
  ("RestartWorkload", Operators); ("ApplyManifest", Operators); ("DeleteResource", Admins); ("RefreshCloud", Operators);
  ("DetectAppBuild", Operators); ("InspectAppRepository", Operators); ("AppDeploymentCapabilities", Operators);
  ("GitHubConnection", Operators); ("GitHubRepositories", Operators); ("GitHubRevisions", Operators); ("GetAppDrift", Operators);
  ("InstallLicense", Admins); ("DeleteLicense", Admins); ("TestSecretsBackend", AdminsMFA)].

(** A check of the caller besides the authentication. *)
Definition role_checked (r : route) : bool :=
  existsb (fun mw => match mw with Roles _ | MFA | Permitted _ _ => true | _ => false end) (rt_Chain r).

Definition listed (r : route) : bool :=
  implb (role_checked r) (existsb (fun p => rt_Handler r =s p.1.1) protects ||
    existsb (fun p => (rt_Handler r =s p.1) && bool_decide (access_of (gates r) = Some p.2)) unlisted).

(** The rows of the matrix that the routes check; reads are open to every role, and the
    approval of a promotion is checked by its handler. *)
Definition row_checked (routes : list route) (p : policyEntry) : bool :=
  (pe_action p =s ActionRead) || ((pe_resource p =s ResourcePromotion) && (pe_action p =s ActionApprove)) ||
  existsb (fun r => bool_decide ((rt_Handler r, pe_resource p, pe_action p) ∈ protects)) routes.

Definition matrix_ok (r : route) : bool :=
  forallb (fun '(h, resource, action) => implb (rt_Handler r =s h)
    match access_of (gates r) with
    | Some Operators => matrix_row resource action writers && bool_decide (rt_Handler r ∉ stepped_up)
    | Some Admins => matrix_row resource action admins && bool_decide (rt_Handler r ∉ stepped_up)
    | Some AdminsMFA => matrix_row resource action admins && bool_decide (rt_Handler r ∈ stepped_up)
    | _ => false
    end) protects.

Lemma RequirePermission_Next resource action claims : RequirePermission resource action claims = Auth.Next <-> Permission claims resource action = true.
Proof. unfold RequirePermission. destruct claims; [by destruct (Permission _ _ _)|done]. Qed.

Lemma matrix_gates cfg r resource action : r ∈ routes cfg -> (rt_Handler r, resource, action) ∈ protects ->
  forall claims, Forall (passes cfg claims) (rt_Chain r) <->
    Permission claims resource action = true /\
    (rt_Handler r ∈ stepped_up -> RequireMFA (oi_MFAACRValues (c_OIDC cfg)) claims = Auth.Next).
Proof.
  intros Hr Hp claims. assert (forallb matrix_ok (routes cfg) = true) as Hall.
  { apply (routes_cases (fun l => forallb matrix_ok l = true)); intros []; vm_compute; reflexivity. }
  rewrite forallb_forall in Hall. apply list_elem_of_In, Hall in Hr. unfold matrix_ok in Hr. rewrite forallb_forall in Hr.
  apply list_elem_of_In, Hr in Hp. cbn -[stepped_up access_of] in Hp. rewrite String.eqb_refl in Hp. cbn -[stepped_up access_of] in Hp. clear Hall Hr.
  destruct (access_of (gates r)) as [a|] eqn:Ha; [|done]. rewrite passes_gates, (access_of_spec cfg _ _ Ha), <- RequirePermission_Next.
  destruct a; try done; apply andb_true_iff in Hp as [Hrow%bool_decide_eq_true_1 Hst%bool_decide_eq_true_1].
  - rewrite (Operators_matrix _ _ claims Hrow). clear Hrow. cbn. tauto.
  - rewrite (Admins_matrix _ _ claims Hrow). clear Hrow. cbn. tauto.
  - rewrite (Admins_matrix _ _ claims Hrow). clear Hrow. rewrite <- second_factor_of. tauto.
Qed.

Lemma role_checked_listed cfg r : r ∈ routes cfg -> role_checked r = true ->
  (exists resource action, (rt_Handler r, resource, action) ∈ protects) \/
  exists a, (rt_Handler r, a) ∈ unlisted /\ access_of (gates r) = Some a.
Proof.
  intros Hr Hc. assert (forallb listed (routes cfg) = true) as Hall.
  { apply (routes_cases (fun l => forallb listed l = true)); intros []; vm_compute; reflexivity. }
  rewrite forallb_forall in Hall. apply list_elem_of_In, Hall in Hr. clear Hall. unfold listed in Hr. rewrite Hc in Hr. cbn [implb] in Hr.
  apply orb_true_iff in Hr as [Hr|Hr]; apply existsb_exists in Hr as (p & Hp%list_elem_of_In & Hh).
  - left. apply String.eqb_eq in Hh. destruct p as [[h resource] action]. cbn in Hh. subst h. eauto.
  - right. apply andb_true_iff in Hh as [Hh%String.eqb_eq Ha%bool_decide_eq_true_1]. destruct p as [h a]. cbn in *. subst h. eauto.
Qed.

(** C7. The role checks of the routes and the permission matrix, which only three routes
    ask.  For each of the thirty operations that have a row of the matrix of their own
    ([protects]), the chain lets a caller through exactly when the matrix allows the action
    and, for those that ask for one, with the second factor.  Every row of the matrix but
    the reads and the approval of promotions is checked by such a route.  And every other
    route that checks more than the authentication is listed ([unlisted]), with whom it
    lets through: operators and administrators, administrators, or administrators with the
    second factor. *)
Theorem gates_are_the_matrix cfg :
  (forall r resource action, r ∈ routes cfg -> (rt_Handler r, resource, action) ∈ protects ->
     forall claims, Forall (passes cfg claims) (rt_Chain r) <->
       Permission claims resource action = true /\
       (rt_Handler r ∈ stepped_up -> RequireMFA (oi_MFAACRValues (c_OIDC cfg)) claims = Auth.Next)) /\
  (forall p, p ∈ defaultPolicy -> pe_action p <> ActionRead -> (pe_resource p, pe_action p) <> (ResourcePromotion, ActionApprove) ->
     exists r, r ∈ routes cfg /\ (rt_Handler r, pe_resource p, pe_action p) ∈ protects) /\
  (forall r, r ∈ routes cfg -> role_checked r = true ->
     (exists resource action, (rt_Handler r, resource, action) ∈ protects) \/
     exists a, (rt_Handler r, a) ∈ unlisted /\ forall claims, Forall (passes cfg claims) (rt_Chain r) <-> grants cfg a claims).
Proof.
  split; [|split].
  - intros r resource action. apply matrix_gates.
  - assert (forallb (row_checked (routes cfg)) defaultPolicy = true) as Hall.
    { apply (routes_cases (fun l => forallb (row_checked l) defaultPolicy = true)); intros []; vm_compute; reflexivity. }
    rewrite forallb_forall in Hall. intros p Hp%list_elem_of_In%Hall Hread Happ. unfold row_checked in Hp. rewrite !orb_true_iff in Hp.
    destruct Hp as [[Hp%String.eqb_eq|[Hp1%String.eqb_eq Hp2%String.eqb_eq]%andb_true_iff]|Hp]; [done|by rewrite Hp1, Hp2 in Happ|].
    apply existsb_exists in Hp as (r & Hr%list_elem_of_In & Hp%bool_decide_eq_true_1). eauto.
  - intros r Hr Hc. destruct (role_checked_listed cfg r Hr Hc) as [?|(a & Hin & Ha)]; [by left|right]. exists a. split; [done|].
    intros claims. rewrite passes_gates. by apply access_of_spec.
Qed.

(** The paths that tickets are issued for are exactly the paths of the routes behind the
    ticket gate. *)
Lemma ws_streams cfg : rt_Path <$> filter (fun r => rt_Chain r = [TicketGate]) (routes cfg) = validWSPaths.
Proof. apply (routes_cases (fun l => rt_Path <$> filter (fun r => rt_Chain r = [TicketGate]) l = validWSPaths)); intros []; vm_compute; reflexivity. Qed.

(** ** A server *)

Section demo.
#[local] Existing Instances range_default demo_JWT demo_TokenBucket.

(** A router that prefers, segment by segment, what is fixed to a wildcard and a wildcard to
    a catch-all. *)
Definition rank (p : string) : Z := if has_prefix "*" p then 2 else if has_prefix ":" p then 1 else 0.

Fixpoint better (a b : list string) : bool :=
  match a, b with
  | x :: a, y :: b => (rank x <? rank y) || ((rank x =? rank y) && better a b)
  | _, _ => false
  end.

Fixpoint bind_params (pattern path : list string) : gmap string string :=
  match pattern, path with
  | p :: pattern, s :: path => if has_prefix ":" p then <[str_drop 1 p := s]> (bind_params pattern path) else bind_params pattern path
  | _, _ => ∅
  end.

Fixpoint pick (method path : string) (table : list route) : option route :=
  match table with
  | [] => None
  | r :: table =>
      if negb ((rt_Method r =s method) && covers_path (rt_Path r) path) then pick method path table else
      match pick method path table with
      | Some r' => if better (split_on "/" (rt_Path r')) (split_on "/" (rt_Path r)) then Some r' else Some r
      | None => Some r
      end
  end.

Lemma pick_sound method path table r : pick method path table = Some r -> r ∈ table /\ rt_Method r = method /\ covers_path (rt_Path r) path = true.
Proof.
  induction table as [|r0 table IH]; [done|]. cbn. destruct (_ && _) eqn:Hc; cbn.
  - apply andb_true_iff in Hc as [Hm%String.eqb_eq Hc]. destruct (pick _ _ _) as [r'|]; [destruct (better _ _)|]; intros [= <-];
      try (split_and!; [by left|done|done]). destruct (IH eq_refl) as (? & ? & ?). split_and!; [by right|done|done].
  - intros Hp. destruct (IH Hp) as (? & ? & ?). split_and!; [by right|done|done].
Qed.

#[local] Instance demo_mux : Mux.
Proof.
  refine {| find := fun table method path =>
    match pick method path table with
    | Some r => Some (r, bind_params (split_on "/" (rt_Path r)) (split_on "/" path))
    | None => None
    end |}.
  intros table method path r ps. destruct (pick _ _ _) as [r'|] eqn:Hp; [|done]. intros [= <- _]. by apply pick_sound.
Defined.

(** The full edition, with OIDC, a second factor and limits in memory. *)
Definition demo_config : Config :=
  Load (list_to_map [("COOKER_LOCAL_AUTH_ENABLED", "true"); ("COOKER_OIDC_ENABLED", "true"); ("COOKER_OIDC_MFA_ACR_VALUES", "mfa");
                     ("COOKER_AUDIT_ENABLED", "true"); ("COOKER_METRICS_ENABLED", "true")]).

Definition demo_request (method path : string) : request := mkRequest method path "bearer good" "" "" "" "" "" "t" "10.0.0.1".
Definition demo_keyed (method path key : string) : request := mkRequest method path "bearer good" "" key "" "" "" "" "10.0.0.1".

Definition demo_around : surroundings unit :=
  mkSurroundings 7 (7 + second) 0 (mkDiscovery 1 2 (Some tt)) (fun _ => demo_deny) (fun _ _ _ => None).

Definition demo_handle (h : string) (q : request) (ps : gmap string string) (claims : option Claims) (k : world * wsTicketStore * list string) :
    (world * wsTicketStore * list string) * option (Z * string) :=
  ((k.1, k.2 ++ [h]), if h =s "GetAppDrift" then None else Some (200, "{}")).

Definition demo_start : server unit demo_bucket (list string) :=
  mkServer demo_middleware (newRateLimiter 60 1) (newRateLimiter 5 5) (newRateLimiter 60 10) (NewMemoryBounded 1000) [] demo_world
    (WsTicket.mkStore 60 {["t" := mkTicket (mkGrant "vic" [RoleViewer] "/ws/app-run/r1") 100]}) [].

Definition demo_serve (q : request) (s : server unit demo_bucket (list string)) : server unit demo_bucket (list string) * response :=
  serve demo_config demo_verify (fun _ => true) (Some demo_client) (fun _ => demo_lookups) demo_handle q demo_around s.

(** What is left of an answer without the route's chain. *)
Definition seen (a : response) : string * option outcome := match a with Routed r o => (rt_Handler r, Some o) | _ => ("", None) end.

Definition sam : Claims := Auth.mkClaims "s1" "s@idp" "Sam" ["cooker-operators"] ["operator"] "mfa" [].

Example sam_works :
  let try m p := seen (demo_serve (demo_request m p) demo_start).2 in
  try "PUT" "/api/v1/environments/e1" = ("UpdateEnvironment", Some (Ran (Some sam) (Some (200, "{}")))) /\
  try "DELETE" "/api/v1/environments/e1" = ("DeleteEnvironment", Some (Stopped 403)) /\
  try "POST" "/api/v1/apps/a1/deploy" = ("DeployApp", Some (Stopped 403)) /\
  try "POST" "/api/v1/apps/a1/canary/abort" = ("AbortAppCanary", Some (Ran (Some sam) (Some (200, "{}")))) /\
  try "GET" "/ws/app-run/r1" = ("handleConnection", Some (Ran None (Some (200, "{}")))) /\
  try "GET" "/ws/app-run/r2" = ("handleConnection", Some (Stopped 403)) /\
  try "OPTIONS" "/api/v1/apps" = ("", None).
Proof. vm_compute. split_and!; reflexivity. Qed.

(** What is fixed wins over a parameter. *)
Example literals_first :
  (seen (demo_serve (demo_request "POST" "/api/v1/pipelines/import") demo_start).2).1 = "ImportPipeline" /\
  (seen (demo_serve (demo_request "GET" "/api/v1/pipelines/import") demo_start).2).1 = "GetPipeline" /\
  (seen (demo_serve (demo_request "POST" "/api/v1/pipelines/from-template/run") demo_start).2).1 = "CreatePipelineFromTemplate".
Proof. vm_compute. auto. Qed.

Definition demo_put : request := demo_request "PUT" "/api/v1/environments/e1".
Definition demo_delete : request := demo_request "DELETE" "/api/v1/environments/e1".
Definition update_route : route := mkRoute "PUT" "/api/v1/environments/:id" [Authentication; AuditEvents; writeRole] "UpdateEnvironment".
Definition delete_route : route := mkRoute "DELETE" "/api/v1/environments/:id" [Authentication; AuditEvents; adminRole; mfa] "DeleteEnvironment".

Lemma pair_of {A B} (p : A * B) b : p.2 = b -> p = (p.1, b).
Proof. intros <-. apply surjective_pairing. Qed.

Lemma demo_updates : demo_serve demo_put demo_start = ((demo_serve demo_put demo_start).1, Routed update_route (Ran (Some sam) (Some (200, "{}")))).
Proof. apply pair_of. vm_compute. reflexivity. Qed.

Lemma demo_refuses : demo_serve demo_delete demo_start = ((demo_serve demo_delete demo_start).1, Routed delete_route (Stopped 403)).
Proof. apply pair_of. vm_compute. reflexivity. Qed.

Lemma handlers_run_authorized_witness :
  (demo_serve demo_put demo_start).2 = Routed update_route (Ran (Some sam) (Some (200, "{}"))) /\ authorized demo_config update_route sam.
Proof.
  split; [by rewrite demo_updates|].
  destruct (handlers_run_authorized demo_config demo_verify (fun _ => true) (Some demo_client) (fun _ => demo_lookups) demo_handle demo_put demo_around
    demo_start _ update_route _ _ demo_updates) as [[_ Hc]|[(c & m & tk & Hc & _ & Ha)|[Hws _]]]; [discriminate Hc| |discriminate Hws].
  injection Hc as <-. exact Ha.
Defined.

Lemma mutations_are_audited_witness :
  au_Enabled (c_Audit demo_config) = true /\
  sv_audit (demo_serve demo_delete demo_start).1 =
    [AuditTrail.mkEvent 7 "s1" "s@idp" "DELETE" "/api/v1/environments/:id" 403 "1s" "10.0.0.1"].
Proof.
  split; [vm_compute; reflexivity|].
  rewrite (mutations_are_audited demo_config demo_verify (fun _ => true) (Some demo_client) (fun _ => demo_lookups) demo_handle demo_delete demo_around
    demo_start _ delete_route _ ltac:(vm_compute; reflexivity) demo_refuses). vm_compute. reflexivity.
Defined.

Definition demo_run : request := demo_request "POST" "/api/v1/pipelines/p1/run".
Definition run_route : route :=
  mkRoute "POST" "/api/v1/pipelines/:id/run" [Authentication; AuditEvents; writeRole; Permitted ResourcePipeline ActionInvoke; Expensive; Idempotent] "RunPipeline".

Lemma demo_runs : demo_serve demo_run demo_start = ((demo_serve demo_run demo_start).1, Routed run_route (Ran (Some sam) (Some (200, "{}")))).
Proof. apply pair_of. vm_compute. reflexivity. Qed.

Lemma stopped_requests_change_nothing_witness :
  (unrun (Stopped 403) = true /\ sv_data (demo_serve demo_delete demo_start).1 = sv_data demo_start /\
   sv_tickets (demo_serve demo_delete demo_start).1 = sv_tickets demo_start) /\
  (sv_limiter (demo_serve demo_run demo_start).1 <> sv_limiter demo_start /\ exists c, passes demo_config (Some c) writeRole).
Proof.
  split.
  - destruct (stopped_requests_change_nothing demo_config demo_verify (fun _ => true) (Some demo_client) (fun _ => demo_lookups) demo_handle demo_delete
      demo_around demo_start _ delete_route _ demo_refuses) as [Hsame _]. destruct (Hsame eq_refl) as (Hd & _ & _ & Ht).
    split; [reflexivity|]. split; [exact Hd|]. apply Ht. reflexivity.
  - assert (sv_limiter (demo_serve demo_run demo_start).1 <> sv_limiter demo_start) as Hne by (vm_compute; discriminate).
    split; [exact Hne|].
    destruct (stopped_requests_change_nothing demo_config demo_verify (fun _ => true) (Some demo_client) (fun _ => demo_lookups) demo_handle demo_run
      demo_around demo_start _ run_route _ demo_runs) as [_ Hb]. destruct (Hb Hne) as (c & m & tk & _ & Hall & _). exists c.
    apply Hall. right. right. left.
Defined.

Lemma documented_roles_witness :
  la_Enabled (c_LocalAuth demo_config) = true /\
  exists r, r ∈ routes demo_config /\ rt_Path r = "/api/v1/environments/:id/secrets/:key" /\ ~ Forall (passes demo_config (Some sam)) (rt_Chain r).
Proof.
  split; [vm_compute; reflexivity|].
  destruct (documented_roles demo_config "GET" "/api/v1/environments/:id/secrets/:key" AdminsMFA ltac:(vm_compute; reflexivity)
    ltac:(apply (bool_decide_unpack _); vm_compute; exact I)) as (r & Hr & _ & Hp & Ha).
  exists r. split; [exact Hr|]. split; [exact Hp|]. intros (c & [= <-] & Hadm & _)%Ha. apply (bool_decide_eq_false_1 (RoleAdmin ∈ cl_Roles sam)); [reflexivity|exact Hadm].
Defined.

Lemma gates_are_the_matrix_witness :
  update_route ∈ routes demo_config /\ (rt_Handler update_route, ResourceEnvironment, ActionUpdate) ∈ protects /\
  Forall (passes demo_config (Some sam)) (rt_Chain update_route).
Proof.
  assert (update_route ∈ routes demo_config) as Hr by (apply (bool_decide_unpack _); vm_compute; exact I).
  assert ((rt_Handler update_route, ResourceEnvironment, ActionUpdate) ∈ protects) as Hp by (apply (bool_decide_unpack _); vm_compute; exact I).
  split; [exact Hr|]. split; [exact Hp|]. apply (proj1 (gates_are_the_matrix demo_config) update_route _ _ Hr Hp).
  split; [vm_compute; reflexivity|]. intros Hs. exfalso.
  apply (bool_decide_eq_false_1 (rt_Handler update_route ∈ stepped_up)); [vm_compute; reflexivity|exact Hs].
Defined.

(** ** What the documents say otherwise *)

(** Any authenticated caller may read the cluster, says the reference; only operators may. *)
Example cluster_reads_need_operators :
  access_of <$> (gates <$> filter (fun r => rt_Method r = "GET" /\ has_prefix "/api/v1/kubernetes/" (rt_Path r) = true) (routes demo_config)) =
  repeat (Some Operators) 4.
Proof. vm_compute. reflexivity. Qed.

(** SECURITY.md counts three limited routes of the API and calls every other one, sign-in
    included, unbounded. *)
Example limited_routes :
  rt_Handler <$> filter (fun r => Expensive ∈ rt_Chain r \/ LocalAuthLimit ∈ rt_Chain r) (routes demo_config) =
  ["Signup"; "Signin"; "SubmitFeedback"; "RunPipeline"; "TriageStage"; "BuildDockerImage"; "RefreshCloud"; "DetectAppBuild"; "InspectAppRepository";
   "GitHubConnection"; "GitHubRepositories"; "GitHubRevisions"; "DeployApp"; "RollbackApp"].
Proof. vm_compute. reflexivity. Qed.

(** The cache comes before the deploy gate and knows keys only: a key that ran a pipeline
    answers a deployment with the run's answer, and the gate is not asked. *)
Example replay_passes_the_gate :
  let roomy := set_limiter (newRateLimiter 60 5) demo_start in
  let deploy key := demo_keyed "POST" "/api/v1/apps/a1/deploy" key in
  let s := (demo_serve (demo_keyed "POST" "/api/v1/pipelines/p1/run" "k") roomy).1 in
  seen (demo_serve (deploy "k") s).2 = ("DeployApp", Some (Replayed (mkEntry 200 "{}"))) /\
  seen (demo_serve (deploy "other") s).2 = ("DeployApp", Some (Stopped 403)).
Proof. vm_compute. auto. Qed.

(** The limiter comes before the cache: a retry within the budget's refill is refused, not
    replayed. *)
Example retry_is_throttled :
  let run := demo_keyed "POST" "/api/v1/pipelines/p1/run" "k" in
  let s := (demo_serve run demo_start).1 in
  Idempotency.Get (sv_idem s) 8 "k" = Some (mkEntry 200 "{}") /\ seen (demo_serve run s).2 = ("RunPipeline", Some (Stopped 429)).
Proof. vm_compute. auto. Qed.

(** A caller whose groups map to no known role reads whatever has no role check; the matrix
    gives the role nothing. *)
Example unknown_role_reads :
  let dev := Auth.mkClaims "d" "" "" [] ["developer"] "" [] in
  Forall (passes demo_config (Some dev)) [Authentication; AuditEvents] /\ Permission (Some dev) ResourceEnvironment ActionRead = false.
Proof. split; [|vm_compute; reflexivity]. repeat constructor. by eexists. Qed.

(** A path that is no route of the API is answered with the front end's page. *)
Example unknown_paths_are_pages : (demo_serve (demo_request "POST" "/api/v1/nothing") demo_start).2 = Index.
Proof. vm_compute. reflexivity. Qed.
End demo.
