(* ===== verification/Inspect.v ===== *)
(** * Previews and the runtime panel

    service/app_inspection.go without the loading of compose files, which is a third-party
    library's, and service/runtime.go: the external services of a graph, what a preview
    hides, and where the panel looks for a deployed service. *)

From Stdlib Require Import Ascii.
From S2P Require Import Prelude GoStr GoRegexp GoCrypto Model App AppDeploy.
Local Open Scope Z_scope.

(** ** External services *)

Definition with_External (s : ComposeService) : ComposeService :=
  mkComposeService (svc_Name s) (svc_Image s) (svc_Build s) (svc_Ports s) (svc_Environment s) (svc_DependsOn s) (svc_Networks s)
    (svc_Volumes s) (svc_Command s) (svc_CommandArgs s) (svc_HealthCheck s) (svc_RuntimeSize s) (svc_Status s) (svc_Labels s)
    (svc_Group s) (svc_Resources s) true.

Definition set_env (target value : string) (s : ComposeService) : ComposeService :=
  mkComposeService (svc_Name s) (svc_Image s) (svc_Build s) (svc_Ports s) (<[target := value]> (svc_Environment s)) (svc_DependsOn s)
    (svc_Networks s) (svc_Volumes s) (svc_Command s) (svc_CommandArgs s) (svc_HealthCheck s) (svc_RuntimeSize s) (svc_Status s)
    (svc_Labels s) (svc_Group s) (svc_Resources s) (svc_External s).

Definition set_services (l : list ComposeService) (g : ComposeGraph) : ComposeGraph :=
  mkComposeGraph l (g_Connections g) (g_Networks g) (g_Volumes g).
Definition connect (c : ComposeConnection) (g : ComposeGraph) : ComposeGraph :=
  mkComposeGraph (g_Services g) (g_Connections g ++ [c]) (g_Networks g) (g_Volumes g).

Inductive bind_error :=
| NotInProject (service : string) | InvalidConsumer (consumer service : string) | KeyRequired (source service : string)
| MissingConsumer (name service : string).

(** The map from names to the services of the graph, by their places: of services of one
    name the last. *)
Definition places (services : list ComposeService) : gmap string nat :=
  foldl (fun m '(i, name) => <[name := i]> m) ∅ (imap (fun i s => (i, svc_Name s)) services).

Section binding.
Context `{RO : RangeOrder} (env : gmap string string).

(** The loop over [binding.Environment] for the consumer at place [i]. *)
Fixpoint bind_env (service : string) (i : nat) (pairs : list (string * string)) (g : ComposeGraph) : ComposeGraph * option bind_error :=
  match pairs with
  | [] => (g, None)
  | (target, source) :: pairs =>
      match env !! source with
      | None => (g, Some (KeyRequired source service))
      | Some value =>
          if value =s "" then (g, Some (KeyRequired source service)) else
          bind_env service i pairs (set_services (alter (set_env target value) i (g_Services g)) g)
      end
  end.

Fixpoint bind_consumers (services : gmap string nat) (b : ExternalServiceBinding) (consumers : list string) (g : ComposeGraph) :
    ComposeGraph * option bind_error :=
  match consumers with
  | [] => (g, None)
  | name :: consumers =>
      match services !! name ≫= fun i => (fun s => (i, s)) <$> g_Services g !! i with
      | None => (g, Some (InvalidConsumer name (xb_Service b)))
      | Some (i, consumer) =>
          if svc_External consumer || (name =s xb_Service b) then (g, Some (InvalidConsumer name (xb_Service b))) else
          match bind_env (xb_Service b) i (range_map (xb_Environment b)) g with
          | (g, Some e) => (g, Some e)
          | (g, None) => bind_consumers services b consumers (connect (mkConnection name (xb_Service b) "env_reference" "external database") g)
          end
      end
  end.

(** The first service that depends on a bound one without being its consumer. *)
Definition missing_consumer (b : ExternalServiceBinding) (services : list ComposeService) : option bind_error :=
  head (omap (fun s => if bool_decide (xb_Service b ∈ svc_DependsOn s) && negb (bool_decide (svc_Name s ∈ xb_Consumers b))
                       then Some (MissingConsumer (svc_Name s) (xb_Service b)) else None) services).

Fixpoint bind_all (services : gmap string nat) (bindings : list ExternalServiceBinding) (g : ComposeGraph) : ComposeGraph * option bind_error :=
  match bindings with
  | [] => (g, None)
  | b :: bindings =>
      match services !! xb_Service b with
      | None => (g, Some (NotInProject (xb_Service b)))
      | Some i =>
          match bind_consumers services b (xb_Consumers b) (set_services (alter with_External i (g_Services g)) g) with
          | (g, Some e) => (g, Some e)
          | (g, None) =>
              match missing_consumer b (g_Services g) with
              | Some e => (g, Some e)
              | None => bind_all services bindings g
              end
          end
      end
  end.

(** The graph is changed in place, also when the binding fails half-way. *)
Definition bindExternalServices (app : App) (g : ComposeGraph) : ComposeGraph * option bind_error :=
  bind_all (places (g_Services g)) (dt_ExternalServices (a_DeployTarget app)) g.
End binding.

(** ** What a preview hides *)

Definition redact_service (s : ComposeService) : ComposeService :=
  mkComposeService (svc_Name s) (svc_Image s)
    ((fun b => mkComposeBuild (cb_Target b) (cb_Context b) (cb_Dockerfile b) ((fun _ => configured) <$> cb_Args b)) <$> svc_Build s)
    (svc_Ports s) ((fun _ => configured) <$> svc_Environment s) (svc_DependsOn s) (svc_Networks s) (svc_Volumes s)
    (if svc_Command s =s "" then "" else configured) []
    ((fun h => mkHealthCheck [configured] (hc_Interval h) (hc_Timeout h) (hc_Retries h) (hc_StartPeriod h)) <$> svc_HealthCheck s)
    (svc_RuntimeSize s) (svc_Status s) ∅ (svc_Group s) (svc_Resources s) (svc_External s).

Definition redactComposeGraph (g : ComposeGraph) : ComposeGraph := set_services (redact_service <$> g_Services g) g.

(** [strings.ReplaceAll] for a text that is not empty. *)
Fixpoint replace_all_fuel (fuel : nat) (s old new : string) : string :=
  match fuel with
  | O => s
  | S fuel =>
      if has_prefix old s then new +:+ replace_all_fuel fuel (str_drop (str_len old) s) old new
      else match s with EmptyString => "" | String c s => String c (replace_all_fuel fuel s old new) end
  end.
Definition replace_all (s old new : string) : string := replace_all_fuel (S (String.length s)) s old new.

Definition mask_all (message : string) (values : list (string * string)) : string :=
  foldl (fun message '(_, v) => if 2 <? str_len v then replace_all message v configured else message) message values.
Definition maskValues `{RO : RangeOrder} (message : string) (values : gmap string string) : string := mask_all message (range_map values).

(** [strings.ToUpper], as far as the letters of the two prefixes go. *)
Fixpoint to_upper (s : string) : string :=
  match s with
  | EmptyString => EmptyString
  | String c s => let n := Z.of_nat (nat_of_ascii c) in String (if (97 <=? n) && (n <=? 122) then ascii_of_nat (Z.to_nat (n - 32)) else c) (to_upper s)
  end.

Definition mask_line (line : string) : string :=
  let trim := trim_space line in
  let upper := to_upper trim in
  if has_prefix "ENV " upper || has_prefix "ARG " upper then
    match fields trim with
    | instruction :: second :: _ => instruction +:+ " " +:+ (match cut "=" second with Some (key, _) => key | None => second end) +:+ " # value hidden in preview"
    | _ => line
    end
  else line.

Definition maskDockerfile (content : string) : string := String.concat (chr "010") (mask_line <$> split_on "010" content).

(** ** The preview *)

Inductive message := Text (text : string) | Binding (e : bind_error) | Target (e : target_error).
Record PlanDiagnostic := mkDiagnostic { pd_Service : string; pd_Field : string; pd_Message : message }.

(** The part of [RepositoryInspection] that depends on the graph. *)
Record preview := mkPreview {
  pv_Graph : ComposeGraph; pv_Diagnostics : list PlanDiagnostic; pv_YAML : string; pv_Workloads : gmap string string; pv_Deployable : bool
}.

Definition runtimeWorkloadName (app : App) (service : string) : string :=
  if match a_BuildPlan app with Some p => negb (bp_Kind p =s BuildPlanCompose) | None => false end then AppPrefix app
  else if (dt_Kind (a_DeployTarget app) =s DeployTargetDockerHost) &&
          match a_BuildPlan app with Some p => bp_Kind p =s BuildPlanCompose | None => false end then AppPrefix app +:+ "-" +:+ service +:+ "-1"
  else if negb (dt_Prefix (a_DeployTarget app) =s "") then RuntimeServiceName app service
  else sanitize service.

Section inspection.
Context `{RO : RangeOrder} (yaml : string -> ComposeGraph -> string) (CheckExecution : option (App -> bool -> option string)) (targets : Registry).

Definition preview_prefix (app : App) : string := if AppPrefix app =s "" then "preview" else AppPrefix app.

(** The end of [loadRepositoryCompose], from the graph made of the loaded project and its
    diagnostics: the graph with the external services bound, and the diagnostics. *)
Definition load_bound (app : App) (env : gmap string string) (graph : ComposeGraph) (ds : list PlanDiagnostic) :
    option (ComposeGraph * list PlanDiagnostic * string) :=
  match g_Services graph with
  | [] => None
  | _ =>
      let '(graph, err) := bindExternalServices env app graph in
      let ds := ds ++ match err with Some e => [mkDiagnostic "" "externalServices" (Binding e)] | None => [] end in
      Some (graph, ds, yaml (preview_prefix app) (redactComposeGraph graph))
  end.

(** The end of [Inspect]; [None] when the selection has no services. *)
Definition Inspect (app : App) (env : gmap string string) (graph : ComposeGraph) (ds : list PlanDiagnostic) : option preview :=
  match load_bound app env graph ds with
  | None => None
  | Some (graph, ds, yaml) =>
      let hasBuild := existsb (fun s => match svc_Build s with Some _ => negb (svc_External s) | None => false end) (g_Services graph) in
      let ds := ds ++ match CheckExecution with
        | Some check => match check app hasBuild with Some msg => [mkDiagnostic "" "configuration" (Text msg)] | None => [] end
        | None => []
        end in
      let kind := dt_Kind (a_DeployTarget app) in
      let ds := ds ++ (if kind =s "" then [] else
        match CheckAppTarget targets (a_DeployTarget app) with Some e => [mkDiagnostic "" "target" (Target e)] | None => [] end) in
      let workloads := foldl (fun m s => if svc_External s then m else <[svc_Name s := runtimeWorkloadName app (svc_Name s)]> m) ∅ (g_Services graph) in
      Some (mkPreview (redactComposeGraph graph) ds yaml workloads (match ds with [] => negb (kind =s "") | _ => false end))
  end.
End inspection.

(** ** The runtime panel *)

Record RuntimeStatus := mkStatus { rs_Runtime : string; rs_Ref : string; rs_State : string; rs_Healthy : bool; rs_Image : string; rs_Message : string }.

(** What a command line tool answers: it is not there, it fails, or its output. *)
Inductive cli := NotInstalled | CommandFailed | Output (out : string).

Definition dockerStatus (inspect : string -> cli) (name : string) : RuntimeStatus :=
  match inspect name with
  | NotInstalled => mkStatus "docker" name "" false "" "docker CLI not found"
  | CommandFailed => mkStatus "docker" name "unknown" false "" "not found"
  | Output out =>
      let '(state, image) := match cut "|" (trim_space out) with Some (a, b) => (a, b) | None => (trim_space out, "") end in
      mkStatus "docker" name state (state =s "running") image ""
  end.

(** [deployment namespace name] is the answer of [kubectl get deployment]. *)
Definition kubeStatus (deployment : string -> string -> cli) (default_namespace : string) (app : App) (name : string) : RuntimeStatus :=
  let ns := if dt_Namespace (a_DeployTarget app) =s "" then default_namespace else dt_Namespace (a_DeployTarget app) in
  match deployment ns name with
  | NotInstalled => mkStatus "kubernetes" name "" false "" "kubectl not found"
  | CommandFailed => mkStatus "kubernetes" name "unknown" false "" "not found"
  | Output out =>
      let fs := fields (trim_space out) in
      let image := default "" (fs !! 1%nat) in
      match fs !! 0%nat ≫= cut "/" with
      | Some (ready, total) =>
          let healthy := (ready =s total) && negb (ready =s "0") && negb (ready =s "") in
          let shown r := if r =s "" then "0" else r in
          mkStatus "kubernetes" name (if healthy then "running" else "degraded") healthy image
            ("ready " +:+ shown ready +:+ "/" +:+ shown total)
      | None => mkStatus "kubernetes" name "unknown" false image ""
      end
  end.

(** [cloud kind name] is the status an adapter reports. *)
Definition Status (inspect : string -> cli) (deployment : string -> string -> cli) (cloud : string -> string -> option bool) (default_namespace : string)
    (app : App) (service : string) : option RuntimeStatus :=
  let name := runtimeWorkloadName app service in
  let kind := dt_Kind (a_DeployTarget app) in
  match list_find (fun b => xb_Service b = service) (dt_ExternalServices (a_DeployTarget app)) with
  | Some (_, b) => Some (mkStatus "external" (xb_Resource b) "external" false "" "Database lifecycle and health are managed by its provider")
  | None =>
      if (kind =s DeployTargetECS) || (kind =s DeployTargetCloudRun) then
        (fun healthy => mkStatus kind name (if healthy : bool then "running" else "pending") healthy "" "") <$> cloud kind name
      else if kind =s DeployTargetDockerHost then Some (dockerStatus inspect name)
      else Some (kubeStatus deployment default_namespace app name)
  end.

(** ** Previews do not depend on values *)

(** What a preview may tell of an environment: which keys have a value. *)
Definition has_value (env : gmap string string) (k : string) : bool := match env !! k with Some v => negb (v =s "") | None => false end.
Definition same_keys (env env' : gmap string string) : Prop := forall k, has_value env k = has_value env' k.

(** Graphs that differ in values only: of the environments and the build arguments, where the
    keys are the same, of the commands, unless one of them is empty, of the labels and the
    health checks' commands. *)
Definition build_but_values (b b' : ComposeBuild) : Prop :=
  cb_Target b = cb_Target b' /\ cb_Context b = cb_Context b' /\ cb_Dockerfile b = cb_Dockerfile b' /\
  dom (cb_Args b) = dom (cb_Args b').

Definition health_but_values (h h' : ContainerHealthCheck) : Prop :=
  hc_Interval h = hc_Interval h' /\ hc_Timeout h = hc_Timeout h' /\ hc_Retries h = hc_Retries h' /\ hc_StartPeriod h = hc_StartPeriod h'.

Definition service_but_values (s s' : ComposeService) : Prop :=
  (svc_Name s, svc_Image s, svc_Ports s, svc_DependsOn s, svc_Networks s, svc_Volumes s, svc_RuntimeSize s, svc_Status s, svc_Group s,
   svc_Resources s, svc_External s) =
  (svc_Name s', svc_Image s', svc_Ports s', svc_DependsOn s', svc_Networks s', svc_Volumes s', svc_RuntimeSize s', svc_Status s', svc_Group s',
   svc_Resources s', svc_External s') /\
  option_Forall2 build_but_values (svc_Build s) (svc_Build s') /\ dom (svc_Environment s) = dom (svc_Environment s') /\
  (svc_Command s = "" <-> svc_Command s' = "") /\ option_Forall2 health_but_values (svc_HealthCheck s) (svc_HealthCheck s').

Definition same_but_values (g g' : ComposeGraph) : Prop :=
  Forall2 service_but_values (g_Services g) (g_Services g') /\ g_Connections g = g_Connections g' /\ g_Networks g = g_Networks g' /\
  g_Volumes g = g_Volumes g'.

(** Graphs that are shown alike. *)
Definition redacts_alike (g g' : ComposeGraph) : Prop := redactComposeGraph g = redactComposeGraph g'.

Lemma redacts_alike_iff g g' : redacts_alike g g' <->
  redact_service <$> g_Services g = redact_service <$> g_Services g' /\ g_Connections g = g_Connections g' /\
  g_Networks g = g_Networks g' /\ g_Volumes g = g_Volumes g'.
Proof. unfold redacts_alike, redactComposeGraph, set_services. split; [by intros [= -> -> -> ->]|by intros (-> & -> & -> & ->)]. Qed.

(** The redaction forgets all of them. *)
Lemma service_but_values_redacts s s' : service_but_values s s' -> redact_service s = redact_service s'.
Proof.
  intros ([= Hn Hi Hp Hd Hw Hv Hr Hs Hg Hl Hx] & Hb & He & Hc & Hh). unfold redact_service. rewrite Hn, Hi, Hp, Hd, Hw, Hv, Hr, Hs, Hg, Hl, Hx.
  rewrite (const_fmap_dom configured _ _ He). f_equal.
  - destruct Hb as [b b' (Ht & Ho & Hf & Ha)|]; [|done]. cbn. by rewrite Ht, Ho, Hf, (const_fmap_dom configured _ _ Ha).
  - destruct (String.eqb_spec (svc_Command s) ""), (String.eqb_spec (svc_Command s') ""); naive_solver.
  - destruct Hh as [h h' (Ht & Ho & Hf & Ha)|]; [|done]. cbn. by rewrite Ht, Ho, Hf, Ha.
Qed.

Lemma same_but_values_redacts g g' : same_but_values g g' -> redacts_alike g g'.
Proof.
  intros (Hs & Hr). apply redacts_alike_iff. split; [|done]. clear Hr.
  induction Hs as [|s s' l l' Hs _ IH]; [done|]. cbn. by rewrite (service_but_values_redacts s s' Hs), IH.
Qed.

(** What the code looks at besides. *)
Lemma redacted_alike s s' : redact_service s = redact_service s' ->
  svc_Name s = svc_Name s' /\ svc_External s = svc_External s' /\ svc_DependsOn s = svc_DependsOn s' /\
  (is_Some (svc_Build s) <-> is_Some (svc_Build s')).
Proof. intros [= Hn _ Hb _ _ Hd _ _ _ _ _ _ _ _ He]. split_and!; [done..|]. destruct (svc_Build s), (svc_Build s'); naive_solver. Qed.

Lemma redacted_lookup (l l' : list ComposeService) i : redact_service <$> l = redact_service <$> l' ->
  match l !! i, l' !! i with Some s, Some s' => redact_service s = redact_service s' | None, None => True | _, _ => False end.
Proof.
  intros Hl. assert (redact_service <$> l !! i = redact_service <$> l' !! i) as Hi by (rewrite <- !list_lookup_fmap; by rewrite Hl).
  destruct (l !! i), (l' !! i); try done. by apply (inj Some) in Hi.
Qed.

Lemma redacted_cons s s' (l l' : list ComposeService) : redact_service <$> s :: l = redact_service <$> s' :: l' ->
  redact_service s = redact_service s' /\ redact_service <$> l = redact_service <$> l'.
Proof. intros Hl. split; [apply (f_equal head) in Hl; by apply (inj Some) in Hl|by apply (f_equal tail) in Hl]. Qed.

Lemma redacted_map {A} (f : ComposeService -> A) (l l' : list ComposeService) :
  (forall s s', redact_service s = redact_service s' -> f s = f s') -> redact_service <$> l = redact_service <$> l' -> f <$> l = f <$> l'.
Proof.
  intros Hf. revert l'. induction l as [|s l IH]; intros [|s' l']; try done. intros [Hs Hl]%redacted_cons. cbn. by rewrite (Hf s s' Hs), (IH l' Hl).
Qed.

Lemma redacted_alter f f' i (l l' : list ComposeService) :
  (forall s s', redact_service s = redact_service s' -> redact_service (f s) = redact_service (f' s')) ->
  redact_service <$> l = redact_service <$> l' -> redact_service <$> alter f i l = redact_service <$> alter f' i l'.
Proof.
  intros Hf Hl. apply list_eq. intros j. rewrite !list_lookup_fmap. destruct (decide (i = j)) as [<-|Hne].
  - rewrite !list_lookup_alter_eq. pose proof (redacted_lookup _ _ i Hl) as Hi. destruct (l !! i), (l' !! i); cbn; try done. by rewrite (Hf _ _ Hi).
  - rewrite !list_lookup_alter_ne by done. rewrite <- !list_lookup_fmap. by rewrite Hl.
Qed.

Lemma set_env_alike target v v' s s' : redact_service s = redact_service s' -> redact_service (set_env target v s) = redact_service (set_env target v' s').
Proof.
  intros Hs. assert (((fun _ => configured) <$> svc_Environment s) = ((fun _ => configured) <$> svc_Environment s')) as He by (by injection Hs).
  unfold redact_service, set_env in *. cbn. rewrite !fmap_insert, He. injection Hs as -> -> -> -> _ -> -> -> -> -> -> -> -> -> ->. done.
Qed.

Lemma with_External_alike s s' : redact_service s = redact_service s' -> redact_service (with_External s) = redact_service (with_External s').
Proof. unfold redact_service, with_External. cbn. by intros [= -> -> -> -> -> -> -> -> -> -> -> -> -> -> _]. Qed.

Lemma redacts_alike_alter f f' i g g' : (forall s s', redact_service s = redact_service s' -> redact_service (f s) = redact_service (f' s')) ->
  redacts_alike g g' -> redacts_alike (set_services (alter f i (g_Services g)) g) (set_services (alter f' i (g_Services g')) g').
Proof. rewrite !redacts_alike_iff. cbn. intros Hf (Hs & -> & -> & ->). split_and!; [|done..]. by apply redacted_alter. Qed.

Section hiding.
Context `{RO : RangeOrder} (env env' : gmap string string) (Hkeys : same_keys env env').

(** Two runs of a binding step end alike. *)
Definition alike (r r' : ComposeGraph * option bind_error) : Prop := redacts_alike r.1 r'.1 /\ r.2 = r'.2.

Lemma bind_env_alike service i pairs g g' : redacts_alike g g' -> alike (bind_env env service i pairs g) (bind_env env' service i pairs g').
Proof.
  revert g g'. induction pairs as [|[target source] pairs IH]; intros g g' Hg; cbn; [done|]. pose proof (Hkeys source) as Hk. unfold has_value in Hk.
  destruct (env !! source) as [v|], (env' !! source) as [v'|]; try done.
  - destruct (v =s ""), (v' =s ""); try done. apply IH, redacts_alike_alter; [|done]. intros s s'. apply set_env_alike.
  - by destruct (v =s "").
  - by destruct (v' =s "").
Qed.

Lemma bind_consumers_alike services b consumers g g' : redacts_alike g g' ->
  alike (bind_consumers env services b consumers g) (bind_consumers env' services b consumers g').
Proof.
  revert g g'. induction consumers as [|name consumers IH]; intros g g' Hg; cbn; [done|]. destruct (services !! name) as [i|]; cbn; [|done].
  assert (redact_service <$> g_Services g = redact_service <$> g_Services g') as Hs by (by apply redacts_alike_iff in Hg as (? & _)).
  pose proof (redacted_lookup _ _ i Hs) as Hi. destruct (g_Services g !! i) as [s|], (g_Services g' !! i) as [s'|]; cbn; try done.
  apply redacted_alike in Hi as (_ & -> & _). destruct (_ || _); [done|].
  pose proof (bind_env_alike (xb_Service b) i (range_map (xb_Environment b)) g g' Hg) as [Hb He].
  destruct (bind_env env _ _ _ _) as [g1 [e|]], (bind_env env' _ _ _ _) as [g1' [e'|]]; try done. apply IH.
  rewrite redacts_alike_iff in Hb |- *. cbn in *. destruct Hb as (-> & -> & -> & ->). done.
Qed.

Lemma missing_consumer_alike b l l' : redact_service <$> l = redact_service <$> l' -> missing_consumer b l = missing_consumer b l'.
Proof.
  intros Hl. unfold missing_consumer. f_equal. revert l' Hl. induction l as [|s l IH]; intros [|s' l']; try done.
  intros [Hs Hl]%redacted_cons. cbn. apply redacted_alike in Hs as (-> & _ & -> & _). by rewrite (IH l' Hl).
Qed.

Lemma bind_all_alike services bindings g g' : redacts_alike g g' -> alike (bind_all env services bindings g) (bind_all env' services bindings g').
Proof.
  revert g g'. induction bindings as [|b bindings IH]; intros g g' Hg; cbn; [done|]. destruct (services !! xb_Service b) as [i|]; [|done].
  pose proof (bind_consumers_alike services b (xb_Consumers b) _ _ (redacts_alike_alter with_External with_External i g g' with_External_alike Hg)) as [Hb He].
  destruct (bind_consumers env _ _ _ _) as [g1 [e|]], (bind_consumers env' _ _ _ _) as [g1' [e'|]]; try done. cbn in Hb.
  pose proof (proj1 (redacts_alike_iff _ _) Hb) as (Hs & _). rewrite (missing_consumer_alike _ _ _ Hs). destruct (missing_consumer b _); [done|]. by apply IH.
Qed.

Lemma places_alike (l l' : list ComposeService) : redact_service <$> l = redact_service <$> l' -> places l = places l'.
Proof.
  intros Hl. assert (svc_Name <$> l = svc_Name <$> l') as Hn by (apply redacted_map; [|done]; by intros s s' (? & _)%redacted_alike).
  unfold places. f_equal. revert Hn. clear. change (imap (fun i s => (i, svc_Name s)) l) with (imap (fun i s => (fun i n => (i, n)) i (svc_Name s)) l).
  intros Hn. assert (forall l : list ComposeService, imap (fun i s => (i, svc_Name s)) l = imap (fun i n => (i, n)) (svc_Name <$> l)) as Hi
    by (intros k; by rewrite imap_fmap).
  by rewrite !Hi, Hn.
Qed.

Lemma existsb_alike f (l l' : list ComposeService) : (forall s s', redact_service s = redact_service s' -> f s = f s') ->
  redact_service <$> l = redact_service <$> l' -> existsb f l = existsb f l'.
Proof.
  intros Hf. revert l'. induction l as [|s l IH]; intros [|s' l']; try done. intros [Hs Hl]%redacted_cons. cbn. by rewrite (Hf s s' Hs), (IH l' Hl).
Qed.

(** C8. The preview of a deployment depends on no value it hides: on no value of the
    environment, bound to an external service or not, no build argument, command, label or
    health check.  Two inspections whose graphs differ in such values only, and whose
    environments have values for the same keys, show the same - the graph, the diagnostics,
    the YAML, the workloads, and whether the application can be deployed. *)
Theorem preview_hides_values yaml check targets app g g' ds : same_but_values g g' ->
  Inspect yaml check targets app env g ds = Inspect yaml check targets app env' g' ds.
Proof.
  intros Hg%same_but_values_redacts. pose proof (proj1 (redacts_alike_iff _ _) Hg) as (Hs & _). unfold Inspect, load_bound, bindExternalServices.
  rewrite (places_alike _ _ Hs). pose proof (bind_all_alike (places (g_Services g')) (dt_ExternalServices (a_DeployTarget app)) g g' Hg) as [Hb He].
  destruct (g_Services g) as [|s l], (g_Services g') as [|s' l']; try done.
  destruct (bind_all env _ _ _) as [g1 e], (bind_all env' _ _ _) as [g1' e']. cbn in Hb, He. subst e'.
  pose proof (proj1 (redacts_alike_iff _ _) Hb) as (Hs1 & _). unfold redacts_alike in Hb. rewrite Hb.
  rewrite (existsb_alike _ (g_Services g1) (g_Services g1')).
  2: { intros x x' Hx. apply redacted_alike in Hx as (_ & -> & _ & Hbuild). clear -Hbuild. destruct (svc_Build x), (svc_Build x'); [done| | |done].
       - by destruct (proj1 Hbuild (ex_intro _ _ eq_refl)).
       - by destruct (proj2 Hbuild (ex_intro _ _ eq_refl)). }
  2: done.
  f_equal. f_equal. generalize (∅ : gmap string string) as m. revert Hs1. generalize (g_Services g1) as k, (g_Services g1') as k'. clear.
  induction k as [|x k IH]; intros [|x' k']; try done. intros [Hx Hk]%redacted_cons m. cbn. apply redacted_alike in Hx as (-> & -> & _). by apply IH.
Qed.
End hiding.

(** ** The panel finds what was deployed *)

(** The characters of workload names. *)
Definition plain_char (c : ascii) : bool := in_class c [lower; digits09; just "-"%char].
Definition plain (s : string) : Prop := chars (fun c => plain_char c = true) s.

Lemma sanitize_rune_plain r : plain_char (sanitize_rune r) = true.
Proof.
  destruct (decide (0 <= r < 128)) as [[Hl Hr]|Hn].
  - assert (forallb (fun n => plain_char (sanitize_rune (Z.of_nat n))) (List.seq 0 128) = true) as Hall by (vm_compute; reflexivity).
    rewrite forallb_forall in Hall. rewrite <- (Z2Nat.id r Hl). apply Hall, in_seq. lia.
  - assert (sanitize_rune r = "-"%char) as -> by (unfold sanitize_rune; repeat case_match; try done; reflect_bools; exfalso; lia). done.
Qed.

(** A plain name is one rune per byte, and stays as it is. *)
Lemma plain_byte c : plain_char c = true -> (byte_of c <? 128) = true /\ sanitize_rune (byte_of c) = c.
Proof.
  intros Hc. assert (forallb (fun c => implb (plain_char c) ((byte_of c <? 128) && Ascii.eqb (sanitize_rune (byte_of c)) c)) all_ascii = true) as Hall
    by (vm_compute; reflexivity).
  rewrite forallb_forall in Hall. specialize (Hall c (proj1 (list_elem_of_In _ _) (elem_of_all_ascii c))). rewrite Hc in Hall.
  cbn [implb] in Hall. apply andb_true_iff in Hall as [H1 H2%Ascii.eqb_eq]. done.
Qed.

Lemma sanitize_plain_id s : plain s -> s <> "" -> sanitize s = s.
Proof.
  intros Hp Hne. unfold sanitize. assert (String.string_of_list_ascii (sanitize_rune <$> runes s) = s) as ->.
  { unfold runes. clear Hne. induction s as [|c s IH]; [done|]. destruct Hp as [Hc Hp]. apply plain_byte in Hc as [Hb Hc].
    cbn -[byte_of]. rewrite Hb. cbn -[byte_of]. by rewrite Hc, IH. }
  by apply String.eqb_neq in Hne as ->.
Qed.

Lemma sanitize_plain s : plain (sanitize s) /\ sanitize s <> "".
Proof.
  unfold sanitize. set (b := String.string_of_list_ascii _). destruct (String.eqb_spec b "") as [_|Hne]; [by vm_compute|]. split; [|done].
  subst b. clear Hne. generalize (runes s) as l. induction l as [|r l IH]; [done|]. split; [apply sanitize_rune_plain|exact IH].
Qed.

(** Every name the services get under a prefix that is accepted is left alone by the
    manifest's own sanitizing. *)
Lemma accepted_prefix_plain p : MatchString prefixPattern p = true -> plain p /\ p <> "".
Proof.
  intros Hm%MatchString_lang. split.
  - apply (within_chars plain_char) in Hm; [done|]. apply within_seq; [vm_compute; reflexivity|].
    apply within_opt, within_seq; [apply within_upto; vm_compute; reflexivity|vm_compute; reflexivity].
  - intros ->. assert (MatchString prefixPattern "" = true) as H by (by apply MatchString_lang). by vm_compute in H.
Qed.

Lemma workload_name_stays app svc : dt_Prefix (a_DeployTarget app) <> "" -> MatchString prefixPattern (dt_Prefix (a_DeployTarget app)) = true ->
  sanitize (RuntimeServiceName app svc) = RuntimeServiceName app svc.
Proof.
  intros Hne Hm. apply accepted_prefix_plain in Hm as [Hp _]. unfold RuntimeServiceName, AppPrefix.
  apply String.eqb_neq in Hne. rewrite Hne. cbn [negb]. destruct (sanitize_plain svc) as [Hs _]. apply sanitize_plain_id.
  - unfold plain in *. rewrite !chars_app. split; [done|]. split; [by vm_compute|done].
  - intros He. destruct (dt_Prefix (a_DeployTarget app)); done.
Qed.

Lemma text_prefix l l' rest : has_prefix (text l) (text (l ++ l') +:+ rest) = true.
Proof.
  assert (text (l ++ l') = text l +:+ text l') as ->.
  { unfold text. induction l as [|x l IH]; [done|]. cbn [app fmap list_fmap]. rewrite !concat_empty_cons. setoid_rewrite IH. by rewrite !append_assoc. }
  rewrite append_assoc. apply has_prefix_app.
Qed.

Section panel.
Context `{RO : RangeOrder} (yaml_Marshal : list (string * string) -> option string) (quote : string -> string).
Context (app : App) (workdir registry : string) (ts : Z) (cache : option CacheSpec) (opts : synthOpts).

Local Abbreviation deploy_stage := (deploy_stage yaml_Marshal quote app opts).

(** Every service that is not external has its deploy stage. *)
Lemma add_services_deploys slugOf services : forall st st', add_services yaml_Marshal quote app workdir registry ts cache opts slugOf services st = Ok st' ->
  (forall s, s ∈ st.1.1 -> s ∈ st'.1.1) /\
  (forall svc, svc ∈ services -> svc_External svc = false -> exists slug image, deploy_stage svc slug image ∈ st'.1.1).
Proof.
  induction services as [|svc services IH]; intros st st'; cbn [add_services].
  { intros [= <-]. split; [done|]. by intros ? ?%not_elem_of_nil. }
  destruct (add_service _ _ _ _ _ _ _ _ _ _ _) as [st1|e] eqn:Hadd; [|done]. intros Hrest. destruct (IH _ _ Hrest) as [Hkeep Hdep].
  assert ((forall s, s ∈ st.1.1 -> s ∈ st1.1.1) /\ (svc_External svc = false -> exists slug image, deploy_stage svc slug image ∈ st1.1.1)) as [Hk1 Hd1].
  { destruct st as [[stages edges] deployed]. unfold add_service in Hadd. destruct (svc_External svc); [by injection Hadd as <-|].
    destruct (svc_Build svc) as [b|].
    - destruct (build_stages _ _ _ _ _ _ _ _) as [[built image]|e]; [|done]. injection Hadd as <-. cbn.
      split; [intros s Hs; by apply elem_of_app; left|]. intros _. eexists _, _. rewrite !elem_of_app, list_elem_of_singleton. right. right. reflexivity.
    - injection Hadd as <-. cbn. split; [intros s Hs; by apply elem_of_app; left|]. intros _. eexists _, _.
      rewrite elem_of_app, list_elem_of_singleton. right. reflexivity. }
  split; [auto|]. intros s [->|Hs]%elem_of_cons Hx; [|by apply Hdep]. destruct (Hd1 Hx) as (slug & image & Hin). eauto.
Qed.

(** C9. The runtime panel asks for the workload that the deployment made.  For a compose
    application with a prefix, or on a Docker host with its compose file, every service that
    is not external has a deploy stage under the very name that the panel looks up and that
    the preview shows; and on Kubernetes, with a prefix that was accepted, that is the name
    in the stage's manifest. *)
Theorem panel_names_the_workload plan graph id now p svc : a_BuildPlan app = Some plan -> bp_Kind plan = BuildPlanCompose ->
  compose_pipeline yaml_Marshal quote app workdir registry ts cache opts graph id now = Ok p ->
  svc ∈ g_Services graph -> svc_External svc = false ->
  (if dt_Kind (a_DeployTarget app) =s DeployTargetDockerHost then so_composeFile opts <> "" else dt_Prefix (a_DeployTarget app) <> "") ->
  exists stage, stage ∈ p_Stages p /\ st_Type stage = StageTypeDeploy /\ cfg_ComposeServiceName (st_Config stage) = svc_Name svc /\
    cfg_RuntimeName (st_Config stage) = runtimeWorkloadName app (svc_Name svc) /\
    (dt_Kind (a_DeployTarget app) = DeployTargetKubernetes -> MatchString prefixPattern (dt_Prefix (a_DeployTarget app)) = true ->
       has_prefix (text ["apiVersion: apps/v1"; "kind: Deployment"; "metadata:"; "  name: " +:+ runtimeWorkloadName app (svc_Name svc)])
         (cfg_ManifestPath (st_Config stage)) = true).
Proof.
  intros Hplan Hkind Hc Hsvc Hx Hname. unfold compose_pipeline in Hc. destruct (runtime app opts =s ""); [done|].
  destruct (add_services _ _ _ _ _ _ _ _ _ _ _) as [[[stages edges] deployed]|e] eqn:Ha; [|done]. injection Hc as <-.
  apply add_services_deploys in Ha as [_ Hd]. destruct (Hd svc Hsvc Hx) as (slug & image & Hin). exists (deploy_stage svc slug image).
  split; [done|]. split; [done|]. split; [done|]. unfold runtimeWorkloadName. rewrite Hplan, Hkind. cbn [negb].
  assert ((BuildPlanCompose =s BuildPlanCompose) = true) as -> by done. cbn [negb]. rewrite andb_true_r. cbn [AppDeploy.deploy_stage st_Config service_config cfg_RuntimeName cfg_ManifestPath].
  unfold runtime, compose_runtime, deployRuntimeFor. destruct (dt_Kind (a_DeployTarget app) =s DeployTargetDockerHost) eqn:Hdocker.
  - apply String.eqb_neq in Hname as Hn. rewrite Hn. apply String.eqb_eq in Hdocker. rewrite Hdocker. by split.
  - apply String.eqb_neq in Hname as Hn. rewrite Hn. cbn [negb]. split.
    + by repeat case_match.
    + intros Hk Hm. rewrite Hk. cbn -[text has_prefix]. unfold composeServiceManifest. rewrite (workload_name_stays app _ Hname Hm).
      unfold workload. rewrite (append_assoc (text _)). apply (text_prefix [_; _; _; _]).
Qed.
End panel.

(** ** Some applications *)

Section demo.
#[local] Existing Instance range_default.

Definition bound_target (kind prefix : string) : DeployTarget :=
  App.mkTarget kind "" "" "" "" prefix [mkBinding "db" "external" "rds-1" ["api"] {["DATABASE_URL" := "DB_URL"]}].

Definition shop (kind prefix : string) : App :=
  mkApp "shop" "Shop" "" "org/shop" "main" (Some shop_plan) (bound_target kind prefix) "" "dev" "" false false (mkConfig "" 0 false 0) 0 0 0
    AppHealthUnknown None "" "".

(** A service with a secret in its environment and its command. *)
Definition secretive (name secret : string) (deps : list string) : ComposeService :=
  mkComposeService name "postgres:16" local_build ["8080:80"] {["TOKEN" := secret]} deps [] [] ("run --key=" +:+ secret) ["run"; "--key=" +:+ secret] None
    "" "unknown" {["owner" := secret]} "default" None false.

Definition secret_graph (secret : string) : ComposeGraph := mkComposeGraph [secretive "api" secret ["db"]; service_of "db" None []] [] [] [].

Definition shown (secret url : string) : option preview :=
  Inspect (fun _ _ => "yaml") None ∅ (shop DeployTargetKubernetes "shop") {["DB_URL" := url]} (secret_graph secret) [].

Lemma preview_hides_values_witness :
  same_keys {["DB_URL" := "postgres://a"]} {["DB_URL" := "postgres://b"]} /\ same_but_values (secret_graph "s1") (secret_graph "s2") /\
  shown "s1" "postgres://a" = shown "s2" "postgres://b" /\ pv_Deployable <$> shown "s1" "postgres://a" = Some true.
Proof.
  assert (same_keys {["DB_URL" := "postgres://a"]} {["DB_URL" := "postgres://b"]}) as Hk.
  { intros k. unfold has_value. destruct (decide (k = "DB_URL")) as [->|Hne]; [reflexivity|]. rewrite !lookup_singleton_ne by congruence. reflexivity. }
  assert (same_but_values (secret_graph "s1") (secret_graph "s2")) as Hs.
  { split_and!; [|reflexivity..]. repeat constructor; cbn; discriminate. }
  split; [exact Hk|]. split; [exact Hs|]. split; [|vm_compute; reflexivity].
  exact (preview_hides_values _ _ Hk (fun _ _ => "yaml") None ∅ (shop DeployTargetKubernetes "shop") _ _ [] Hs).
Defined.

(** What the deployment gets instead. *)
Example bound_values :
  let '(g, err) := bindExternalServices {["DB_URL" := "postgres://a"]} (shop DeployTargetKubernetes "shop") (secret_graph "s1") in
  err = None /\ (fun s => (svc_Name s, svc_External s, svc_Environment s !! "DATABASE_URL")) <$> g_Services g = [("api", false, Some "postgres://a"); ("db", true, None)] /\
  g_Connections g = [mkConnection "api" "db" "env_reference" "external database"].
Proof. vm_compute. auto. Qed.

Definition shop_deployed (kind prefix : string) : result synth_error Pipeline :=
  compose_pipeline no_yaml plain_quote (shop kind prefix) "/src" "registry" 7 None (shop_opts ∅) shop_graph "app-shop" 0.

Definition runtime_names (p : result synth_error Pipeline) : list string :=
  match p with Ok p => omap (fun s => if st_Type s =s StageTypeDeploy then Some (cfg_RuntimeName (st_Config s)) else None) (p_Stages p) | Err _ => [] end.

Lemma panel_names_the_workload_witness :
  exists p stage, shop_deployed DeployTargetKubernetes "shop" = Ok p /\ stage ∈ p_Stages p /\ cfg_RuntimeName (st_Config stage) = "shop-api".
Proof.
  destruct (shop_deployed DeployTargetKubernetes "shop") as [p|e] eqn:Hp; [|vm_compute in Hp; discriminate Hp].
  destruct (panel_names_the_workload no_yaml plain_quote (shop DeployTargetKubernetes "shop") "/src" "registry" 7 None (shop_opts ∅) shop_plan shop_graph
    "app-shop" 0 p (service_of "api" local_build ["db"]) eq_refl eq_refl Hp ltac:(left) eq_refl ltac:(vm_compute; discriminate)) as (stage & Hin & _ & _ & Hn & _).
  exists p, stage. split; [reflexivity|]. split; [exact Hin|]. rewrite Hn. vm_compute. reflexivity.
Defined.

(** Without a prefix the deployment uses the application's name as one, and the panel looks
    for the bare service: it finds nothing, or another application's workload. *)
Example prefixless_panel :
  runtime_names (shop_deployed DeployTargetKubernetes "") = ["shop-api"; "shop-api"; "shop-db"] /\
  runtimeWorkloadName (shop DeployTargetKubernetes "") "api" = "api".
Proof. vm_compute. auto. Qed.

(** ** What the preview's masks miss *)

(** Only a space ends the instruction's name: a tab does as well for the builder.  Lines that
    continue an instruction are shown. *)
Example unmasked_values :
  let tab := chr "009" in let nl := chr "010" in
  mask_line "ENV TOKEN=s3cret" = "ENV TOKEN # value hidden in preview" /\
  mask_line ("ENV" +:+ tab +:+ "TOKEN=s3cret") = "ENV" +:+ tab +:+ "TOKEN=s3cret" /\
  maskDockerfile ("ENV A=1 \" +:+ nl +:+ "    TOKEN=s3cret") = "ENV A # value hidden in preview" +:+ nl +:+ "    TOKEN=s3cret" /\
  mask_line "ONBUILD ENV TOKEN=s3cret" = "ONBUILD ENV TOKEN=s3cret".
Proof. vm_compute. auto. Qed.

(** Values are replaced in the map's order: a value that begins with another one shows its
    rest when the shorter comes first, and short values show anyway. *)
Example masks_overlap :
  let values := [("A", "pass"); ("B", "password1"); ("C", "42")] in
  mask_all "invalid port password1" values = "invalid port [configured]word1" /\
  mask_all "invalid port password1" (rev values) = "invalid port [configured]" /\
  mask_all "invalid port 42" values = "invalid port 42".
Proof. vm_compute. auto. Qed.

(** The panel's statuses. *)
Example statuses :
  let kube out := kubeStatus (fun _ _ => Output out) "default" (shop DeployTargetKubernetes "shop") "shop-api" in
  (rs_State (kube "2/2 img"), rs_State (kube "/1 img"), rs_State (kube "0/0 img"), rs_State (kube "img")) = ("running", "degraded", "degraded", "unknown") /\
  rs_State (dockerStatus (fun _ => Output "exited|img") "x") = "exited" /\
  Status (fun _ => NotInstalled) (fun _ _ => NotInstalled) (fun _ _ => None) "" (shop DeployTargetKubernetes "shop") "db" =
    Some (mkStatus "external" "rds-1" "external" false "" "Database lifecycle and health are managed by its provider").
Proof. vm_compute. auto. Qed.
End demo.
